(* ===== verification/_CoqProject ===== *)
-Q . S2P
Prelude.v
Types.v
Posting.v
PostingOps.v
Codec.v
Numeric.v
ArrayRows.v
Wildcard.v
Btree.v
TermDict.v
Segment.v
MemIndex.v
DocLengths.v
SegmentFile.v
SegmentRead.v
SegmentRoundtrip.v
SegmentDisk.v
Wal.v
Scorer.v
TopK.v
Wand.v
Conjunction.v
Utf8.v
Osa.v
Fuzzy.v
FuzzyRank.v
BinaryStore.v
BinaryStoreScan.v
BinaryStoreCorrect.v
BinaryStoreCompact.v
BinaryStoreRecover.v
BinaryStoreWorld.v
BinaryStoreUse.v
FuzzyIndex.v
Phrase.v
Query.v
Tokenizers.v
Analyzers.v
Planner.v
Synonyms.v
SynonymsExpand.v
Dictionary.v
Snapshot.v
CorpusStats.v
Executor.v
ExecutorCorrect.v
ExecutorShards.v
ExecutorScore.v
SnapshotIndex.v
Highlight.v
Ranking.v
Grouped.v
GroupedWalk.v
GroupedExact.v
GroupedConj.v
Retrieval.v
RetrievalCorrect.v
RetrievalExact.v
MergedTerms.v
Compaction.v
CompactionPlan.v
Lsm.v
LsmCorrect.v
LsmRefine.v
LsmInstall.v
LsmExample.v
LsmDurable.v
IndexWorker.v
IndexWorkerCorrect.v
