(* ===== verification/Prelude.v ===== *)
(** * Riets (Corelamo): a verification of the search engine's core

    Riets is a sharded full-text search engine in Rust. A text is analysed into terms with
    positions; a document is written to a write-ahead log, added to an in-memory index (the
    memtable), frozen into an immutable segment, written to a segment file, opened from it again
    and merged with others by compaction; a worker thread drives this for its shard and publishes
    snapshots. A query is parsed, analysed, planned and evaluated over a snapshot: terms become
    posting lists, which filters combine as sets and searches combine with cursors, ranking the
    documents with BM25, coverage, density and names. This library models that path in executable
    definitions, one file or group of files per component, and proves what each component
    promises to the next.

    ** The files and the code they model (paths under [src/crates])

    - [Prelude]: machine integers, results, sorting, binary search, heaps, bytes; this header.
    - [Types]: [core-index/src/types.rs], [hash.rs], [posting/item.rs] positions: document ids
      (16-bit shard, 48-bit local id), packed positions, term keys and their order, the stable
      hash.
    - [Posting]: [core-index/src/posting/list.rs], [item.rs], [deleted.rs]: posting lists, their
      invariant [wf_list] (ascending documents, [max_weight] an upper bound), insertion,
      merging, appending, tombstone filters.
    - [PostingOps]: [core-index/src/posting/cursor.rs], [ops.rs]: the galloping cursor, the two
      intersections, the k-way union.
    - [Codec]: [core-index/src/disk/codec.rs]: varints and the delta encoding of posting lists.
    - [Numeric]: [numeric_values.rs], [bkd.rs], [document_values.rs]: order-preserving packing of
      numbers, in-memory points, frozen point ranges and column values.
    - [ArrayRows]: [array_rows.rs]: the row index of array elements.
    - [Wildcard]: [wildcard.rs]: pattern parsing, matching, and the capped union of matches.
    - [Btree]: the iteration order of the [BTreeMap]s, as sorted entries of a [gmap].
    - [TermDict]: [term_dict.rs] over the interface [FstLib] of the [fst] crate.
    - [Segment]: [segment/mod.rs], [segment/immutable.rs] and the trait [SearchIndex] of
      [search.rs], a class with its laws [SearchIndexSpec].
    - [MemIndex]: [mem/index.rs] and [document/analyzed.rs]: the memtable, its merge and the two
      ways to freeze it.
    - [DocLengths], [SegmentFile], [SegmentRead], [SegmentRoundtrip], [SegmentDisk]:
      [disk/format.rs], [disk/writer.rs], [disk/reader.rs]: writer, reader on the bytes of a
      file, parsing of each section after writing it, and the opened segment.
    - [Wal]: [core-storage/src/wal.rs]: the write-ahead log and its recovery.
    - [Scorer], [TopK], [Wand], [Conjunction]: [core-query/src/scorer.rs] and [wand.rs]: BM25 in
      binary32, the heap of the best [k], the pruned disjunctive and the conjunctive search.
    - [Utf8], [Osa], [Fuzzy], [FuzzyRank], [FuzzyIndex]: [core-index/src/fuzzy.rs] and the fuzzy
      walk of [term_dict.rs]: UTF-8, the edit distance with transpositions, the automaton that
      walks a dictionary, and the choice of the expansions.
    - [Phrase]: the phrase match and the smallest covering span of [core-query/src/executor.rs].
    - [Query]: [core-query/src/ast.rs], [query_string_parser.rs]: the query tree, JSON queries,
      analysis into normal form.
    - [Tokenizers]: [core-index/src/analyzer/word_delimiter.rs], [url_tokenizer.rs],
      [filepath_tokenizer.rs], [tokenizer.rs], [stip_html.rs], [strip_markdown.rs],
      [cached_stemmer.rs] and the length filter.
    - [Analyzers]: [core-index/src/analyzer/analyzer.rs], [analyzer_config.rs]: pipelines, the
      copies every thread keeps, name keys.
    - [Planner]: [core-query/src/planner.rs]: the tiers of a ranking plan and the names a query
      stands for.
    - [Synonyms], [SynonymsExpand]: [core-query/src/synonyms.rs]: Roman numerals, the trie of a
      dictionary, the longest match, and the expansion of a query.
    - [Dictionary]: [core-query/src/dictionary.rs]: dictionary files, their compilation, and the
      registry that replaces and reloads them.
    - [BinaryStore], [BinaryStoreScan], [BinaryStoreCorrect], [BinaryStoreCompact],
      [BinaryStoreRecover], [BinaryStoreWorld], [BinaryStoreUse]:
      [core-storage/src/binary_store.rs], [document_store.rs]: the records of the document store,
      its operations, opening it by a scan or from its saved maps, and its compaction.
    - [Snapshot]: [core-index/src/lsm/snapshot.rs]: the readers of a snapshot taken together.
    - [CorpusStats]: [core-query/src/corpus_stats.rs], [prepared.rs]: the statistics of all
      shards and the lists read in advance.
    - [Executor], [ExecutorCorrect], [ExecutorShards], [ExecutorScore], [SnapshotIndex]: the
      evaluation half of [core-query/src/executor.rs] over the class [SearchIndex] of its traits
      with the laws [IndexLaws] and [PositionLaws], which snapshots are shown to satisfy.
    - [Highlight]: [core-query/src/highlight.rs]: what a query looks for in a text, where the text
      matches, and the fragments with their tags.
    - [Ranking]: [core-query/src/ranking.rs], [search_hit.rs]: coverage, final scores, the merge
      of the groups.
    - [Grouped], [GroupedWalk], [GroupedExact], [GroupedConj]: the searches over synonym groups
      of [core-query/src/wand.rs].
    - [Retrieval], [RetrievalCorrect], [RetrievalExact]: the ranking half of
      [core-query/src/executor.rs]: fast paths, both match modes, the cascade of a plan.
    - [MergedTerms], [Compaction], [CompactionPlan]: [core-index/src/lsm/compaction.rs]: the
      merge of segments and the choice of what to merge.
    - [Lsm], [LsmCorrect], [LsmRefine], [LsmInstall], [LsmExample], [LsmDurable]:
      [core-index/src/lsm/manager.rs], [deletes.rs], [manifest.rs]: sealing, flushing, installing
      compactions, deleting, reopening.
    - [IndexWorker], [IndexWorkerCorrect]: [core-index/src/lsm/index_worker.rs]: the command loop
      of a shard's index with its flush queue.

    ** How code becomes definitions

    A [w]-bit integer is a [Z] with its wrap-around written out ([wrap]); vector indices are
    [nat]; bytes and strings are lists of [Z]; a [HashMap] or [BTreeMap] is a [gmap]; a binary
    heap is a list from which [heap_pop] takes the first entry of its order; floating-point
    numbers are those of the standard library's [SpecFloat]. State is passed explicitly (the
    store of the files, the analyzers of a thread, the worker with its queue), and a fallible
    function returns [io_result] or an error type of its own. [sort_unstable] is a stable sort:
    either the keys are unique, or a lemma shows that the order of equal keys does not matter; the
    same holds for the order a [HashMap] is walked in.
    A loop that is not structural takes fuel and returns [option]; the definition next to it
    supplies the fuel, and a lemma shows that it is enough: the length of the input for the
    varint, record, posting and text loops, the number of postings left for the searches, the size
    of the range for bisection.

    Code outside the repository is a parameter with the documented behaviour it is used for:
    [FstLib]/[FstLaws] (ordered byte-string maps), [RoaringLib]/[RoaringLaws] (bitmap
    serialisation), [DfaLib]/[DfaLaws] (walking a dictionary with an automaton), the checksum of
    [crc32fast] (any function into 32 bits), the functions of the platform's mathematical library
    ([Ln], [Log10], [Powf], [Powf64]: any functions), the tables of Unicode ([CaseTables],
    [CharClasses]), the tokenizers, filters and stemmers of [tantivy] and the regular
    expressions ([TantivyLib]), the type names [simd_json] prints ([ValueNames]), the TOML parser
    of dictionary files, and the encoding of the saved maps by [bincode] ([Bincode], which reads
    back what it wrote).
    [SegmentDisk.Toy] and the witnesses instantiate them.

    ** What is proved

    - Posting lists: every operation keeps the invariant and has its intended effect on each
      document ([insert_posting_correct], [from_items_correct], [append_correct],
      [delete_filter_correct]); cursors, intersection and union equal their set-theoretic
      meaning ([advance_to_correct], [intersection_correct], [union_many_refines]).
    - Encodings: varints, posting lists, numbers, document ids and positions round-trip and keep
      their order; reading arbitrary bytes stays in bounds.
    - Memtable and segments: statistics are derivable from the lengths, indexed documents are
      found, freezing keeps every answer ([freeze_refines], [freeze_shared_refines]), and a
      segment written to a file and opened again gives the same answers
      ([segment_file_refines]); opening rejects malformed files ([open_validates]).
    - Write-ahead log: it implements an abstract log under failing writes and syncs
      ([wal_refines]), acknowledged records survive crashes ([acknowledged_survives]), torn ends
      are cut and damage is refused ([recovery_correct]).
    - LSM index and worker: any course of indexing, deleting, sealing, flushing and compacting
      refines one map of documents ([lsm_refines], [compaction_correct]), what was flushed is
      there after reopening ([flush_durable]); the worker keeps its invariant, indexes what it
      acknowledged and answers every flush exactly once ([worker_invariant], [batch_indexed],
      [flush_answered_exactly], [flushes_answered]).
    - Document store: a record is read back, or is an end of file when it is cut short
      ([document_record_roundtrip]); over any course of writes, compactions, restarts and kills in
      the middle of them the store is a map of documents ([document_store_refines]).
    - Synonyms: a lookup finds the longest match and all its forms ([match_at_longest]), a run of
      words is expanded by it ([expand_run_correct]), no document of the typed query is lost
      ([expansion_conservative]), the synonyms in use are those of the dictionary text in use
      ([dictionary_in_use]), and a change of it is made whole or refused
      ([replace_document_atomic]).
    - Highlighting: fragments are parts of the text, cut between characters, with tags around the
      matches and nothing else ([highlight_correct]).
    - Snapshots and fuzzy words: a snapshot answers with the live postings of all its parts
      ([snapshot_lookups_correct]), and the automaton accepts exactly the words within the edit
      distance ([automaton_exact]).
    - Analysis: tokens tile the words of a text ([word_tokens_correct]), caches do not show on any
      thread ([analysis_transparent]), name keys stand for their words ([name_key_roundtrip]), and
      a query is looked up by its written forms ([name_keys_correct]).
    - Evaluation: a filter is the set its query means ([filter_correct]), ranking scores those
      documents and no others, with reference scores ([rank_matches_filter],
      [rank_scores_correct]), whether leaves were prepared or not and independently of the shard
      ([prepared_transparent], [shard_independent]).
    - Search: the pruned searches return exactly the best [k] documents that exhaustive scoring
      returns ([wand_exact], [conjunctive_exact], [grouped_exact], [conjunctive_grouped_exact]);
      the default search returns what the filter evaluation finds ([retrieval_complete]); a ranked
      search never leaves its filters ([rank_sound]); the merge of the groups is the merge of
      their evidence ([finalize_correct]).
    - Deviations: lemmas such as [failed_append_rotate], [upper_bound_unsafe],
      [corrupt_length_panics], [plain_word_dropped], [underscore_skips_forms],
      [span_across_fields_missed], [group_scores_differ], [late_failure_changes_file],
      [scan_resurrects] and [empty_segment_refused] state where the code does not do what it or
      its comments promise.

    ** What is not modelled

    The routing of shards and the merge of their results ([core-core]), authorisation
    ([core-auth]), the resolver of fields, the indexing policy and the walk over JSON documents are configuration, threads and text output around the parts above. HTTP handlers,
    settings and logging, embedding models and the vector index, backup and timing are input and
    output, third-party code or numeric kernels. Interleavings are modelled where the code has them
    as sequences of steps (the worker with its flush jobs, the threads with their analyzers, the
    compaction of the document store beside its writes); below that every operation is atomic, as
    it is behind the locks of the code. A kill of the document store keeps what was written to a
    file; the loss of unsynced pages by the machine is modelled for the write-ahead log only. *)
From Stdlib Require Import ZArith Lia.
From stdpp Require Import base numbers list sorting option strings.

#[global] Set Default Goal Selector "!".
Open Scope Z_scope.

(** ** Machine integers

    A [w]-bit unsigned integer is a [Z] in [0, 2^w).  Arithmetic that can leave
    the range is written with an explicit [wrap] (release-profile Rust) or with a
    checked or saturating operation, as the code has it. *)

Definition u_max (w : Z) : Z := 2 ^ w - 1.
Definition wrap (w x : Z) : Z := x mod 2 ^ w.
Definition in_u (w x : Z) : Prop := 0 <= x < 2 ^ w.
Definition in_i64 (x : Z) : Prop := - 2 ^ 63 <= x < 2 ^ 63.

Definition checked_add (w x y : Z) : option Z :=
  if x + y <? 2 ^ w then Some (x + y) else None.
Definition checked_sub (x y : Z) : option Z :=
  if y <=? x then Some (x - y) else None.
Definition saturating_add (w x y : Z) : Z := Z.min (x + y) (u_max w).
Definition saturating_sub (x y : Z) : Z := Z.max (x - y) 0.
Definition saturating_mul (w x y : Z) : Z := Z.min (x * y) (u_max w).

#[global] Instance in_u_dec w x : Decision (in_u w x).
Proof. unfold in_u. apply _. Defined.
#[global] Instance in_i64_dec x : Decision (in_i64 x).
Proof. unfold in_i64. apply _. Defined.

(** The length of a vector as the [u64]/[usize] value the code computes with. *)
Abbreviation zlen l := (Z.of_nat (length l)) (only parsing).

(** ** Results

    [io::Result]: the error keeps the kind and the message the code gives. *)

(** [Panicked] is not an [io::ErrorKind]: it stands for a call that panics instead of
    returning. *)
Inductive ErrorKind : Type :=
  | UnexpectedEof | InvalidData | InvalidInput | NotFound | Unsupported | Other | Panicked.

Record io_error : Type := IoError { err_kind : ErrorKind; err_msg : string }.
Arguments IoError _ _%_string_scope.

Inductive io_result (A : Type) : Type :=
  | Ok (a : A)
  | Err (e : io_error).
Arguments Ok {A} a.
Arguments Err {A} e.

#[global] Instance ErrorKind_eq_dec : EqDecision ErrorKind.
Proof. solve_decision. Defined.
#[global] Instance io_error_eq_dec : EqDecision io_error.
Proof. solve_decision. Defined.
#[global] Instance io_result_eq_dec {A} `{EqDecision A} : EqDecision (io_result A).
Proof. solve_decision. Defined.

Definition io_bind {A B} (m : io_result A) (f : A -> io_result B) : io_result B :=
  match m with Ok a => f a | Err e => Err e end.
Definition io_of_option {A} (e : io_error) (o : option A) : io_result A :=
  match o with Some a => Ok a | None => Err e end.
Definition is_ok {A} (m : io_result A) : bool :=
  match m with Ok _ => true | Err _ => false end.

Declare Scope io_scope.
Delimit Scope io_scope with io.
Notation "'let!' x := m 'in' k" := (io_bind m (fun x => k))
  (at level 10, x pattern, m at level 100, k at level 200) : io_scope.

(** ** Sorting, deduplication and the slice searches of the standard library *)

Section sort.
Context {A : Type} (leb : A -> A -> bool).

Fixpoint sort_insert (x : A) (l : list A) : list A :=
  match l with
  | [] => [x]
  | y :: l' => if leb x y then x :: y :: l' else y :: sort_insert x l'
  end.

(** A stable sort ([slice::sort_by]). *)
Fixpoint stable_sort (l : list A) : list A :=
  match l with
  | [] => []
  | x :: l' => sort_insert x (stable_sort l')
  end.

(** [slice::is_sorted_by]. *)
Fixpoint is_sorted (l : list A) : bool :=
  match l with
  | x :: (y :: _) as l' => leb x y && is_sorted l'
  | _ => true
  end.
End sort.

Definition key_leb {A} (key : A -> Z) (x y : A) : bool := key x <=? key y.
Definition key_le {A} (key : A -> Z) (x y : A) : Prop := key x <= key y.
Definition key_lt {A} (key : A -> Z) (x y : A) : Prop := key x < key y.

(** [slice::sort_by_key], [slice::is_sorted_by_key] and [Vec<uint>::sort_unstable]
    (equal integers cannot be told apart, so stability does not matter there). *)
Definition sort_by_key {A} (key : A -> Z) : list A -> list A := stable_sort (key_leb key).
Definition is_sorted_by_key {A} (key : A -> Z) : list A -> bool := is_sorted (key_leb key).
Definition sort_unstable : list Z -> list Z := sort_by_key id.

(** [Vec::dedup]: drops an element equal to the one kept just before it. *)
Fixpoint dedup_from (last : Z) (l : list Z) : list Z :=
  match l with
  | [] => []
  | x :: l' => if x =? last then dedup_from last l' else x :: dedup_from x l'
  end.
Definition dedup (l : list Z) : list Z :=
  match l with [] => [] | x :: l' => x :: dedup_from x l' end.

(** [slice::binary_search_by], the halving loop of the standard library. [f] compares an
    element with the target.  [fuel] bounds the iterations; [size] halves each time. *)
Fixpoint bsearch_base {A} (f : A -> comparison) (l : list A)
    (fuel : nat) (base size : nat) : option nat :=
  match fuel with
  | O => None
  | S fuel' =>
    if (1 <? size)%nat then
      let half := (size / 2)%nat in
      let mid := (base + half)%nat in
      match l !! mid with
      | None => None
      | Some x =>
        let base' := match f x with Gt => base | _ => mid end in
        bsearch_base f l fuel' base' (size - half)%nat
      end
    else Some base
  end.

(** [inl i]: found at [i]; [inr i]: not found, [i] is where it would be inserted.
    [None] would be an out-of-range access; [binary_search_raw_total] rules it out. *)
Definition binary_search_raw {A} (f : A -> comparison) (l : list A) : option (nat + nat) :=
  match l with
  | [] => Some (inr 0%nat)
  | _ =>
    match bsearch_base f l (S (length l)) 0%nat (length l) with
    | None => None
    | Some base =>
      match l !! base with
      | None => None
      | Some x =>
        match f x with
        | Eq => Some (inl base)
        | Lt => Some (inr (base + 1)%nat)
        | Gt => Some (inr base)
        end
      end
    end
  end.
Definition binary_search_by {A} (f : A -> comparison) (l : list A) : nat + nat :=
  default (inr 0%nat) (binary_search_raw f l).

Definition binary_search_by_key {A} (key : A -> Z) (k : Z) (l : list A) : nat + nat :=
  binary_search_by (fun x => key x ?= k) l.

(** [slice::partition_point]. *)
Definition partition_point {A} (pred : A -> bool) (l : list A) : nat :=
  match binary_search_by (fun x => if pred x then Lt else Gt) l with
  | inl i | inr i => i
  end.

(** The bisection loop the sources write out by hand:
    [while left < right { let mid = left + (right - left) / 2; ... }]. *)
Fixpoint bisect {A} (pred : A -> bool) (l : list A)
    (fuel left right : nat) : option nat :=
  match fuel with
  | O => None
  | S fuel' =>
    if (left <? right)%nat then
      let mid := (left + (right - left) / 2)%nat in
      match l !! mid with
      | None => None
      | Some x =>
        if pred x then bisect pred l fuel' (mid + 1)%nat right
        else bisect pred l fuel' left mid
      end
    else Some left
  end.

(** The number of leading elements that satisfy [pred]: what a search for a partition
    point is meant to return. *)
Fixpoint count_while {A} (pred : A -> bool) (l : list A) : nat :=
  match l with
  | [] => 0
  | x :: l' => if pred x then S (count_while pred l') else 0
  end.

(** [pred] holds on a prefix and fails on the rest. *)
Definition partitioned {A} (pred : A -> bool) (l : list A) : Prop :=
  forall i j x y, l !! i = Some x -> l !! j = Some y -> (i <= j)%nat ->
    pred y = true -> pred x = true.

(** [BinaryHeap], up to the order of equal elements: the elements in any order, popped by
    [leb] (the least first, as with [Reverse] entries). *)
Fixpoint heap_min {A} (leb : A -> A -> bool) (x : A) (l : list A) : A * list A :=
  match l with
  | [] => (x, [])
  | y :: l' =>
    let (m, rest) := heap_min leb (if leb x y then x else y) l' in
    (m, (if leb x y then y else x) :: rest)
  end.
Definition heap_pop {A} (leb : A -> A -> bool) (h : list A) : option (A * list A) :=
  match h with [] => None | x :: h' => Some (heap_min leb x h') end.
Definition heap_peek {A} (leb : A -> A -> bool) (h : list A) : option A :=
  fst <$> heap_pop leb h.

(** ** Generic lemmas *)

Create HintDb riets.
Create Rewrite HintDb riets.

Ltac inv_some :=
  repeat match goal with
  | H : Some _ = Some _ |- _ => injection H as H; subst
  | H : Ok _ = Ok _ |- _ => injection H as H; subst
  | H : Some _ = None |- _ => discriminate H
  | H : None = Some _ |- _ => discriminate H
  | H : Ok _ = Err _ |- _ => discriminate H
  | H : Err _ = Ok _ |- _ => discriminate H
  end.

(** Decide the boolean comparisons of the goal and of the hypotheses. *)
Ltac cmp_cases :=
  repeat match goal with
  | |- context [?x <=? ?y] => destruct (Z.leb_spec x y)
  | |- context [?x <? ?y] => destruct (Z.ltb_spec x y)
  | |- context [?x =? ?y] => destruct (Z.eqb_spec x y)
  | H : context [?x <=? ?y] |- _ => destruct (Z.leb_spec x y)
  | H : context [?x <? ?y] |- _ => destruct (Z.ltb_spec x y)
  | H : context [?x =? ?y] |- _ => destruct (Z.eqb_spec x y)
  | |- context [(?x <? ?y)%nat] => destruct (Nat.ltb_spec x y)
  | |- context [(?x <=? ?y)%nat] => destruct (Nat.leb_spec x y)
  | H : context [(?x <? ?y)%nat] |- _ => destruct (Nat.ltb_spec x y)
  | H : context [(?x <=? ?y)%nat] |- _ => destruct (Nat.leb_spec x y)
  end.

Lemma filter_all {A} (P : A -> Prop) `{!forall x, Decision (P x)} l :
  Forall P l -> filter P l = l.
Proof. induction 1 as [|x l Hx _ IH]; [done|]. by rewrite filter_cons, decide_True, IH. Qed.

Lemma filter_none {A} (P : A -> Prop) `{!forall x, Decision (P x)} (l : list A) :
  (forall x, x ∈ l -> ~ P x) -> filter P l = [].
Proof.
  induction l as [|x l IH]; intros Hl; [done|]. rewrite filter_cons, decide_False.
  - apply IH. intros y Hy. apply Hl. by right.
  - apply Hl. left.
Qed.

Lemma filter_ext_in {A} (P Q : A -> Prop) `{!forall x, Decision (P x), !forall x, Decision (Q x)} (l : list A) :
  (forall x, x ∈ l -> P x <-> Q x) -> filter P l = filter Q l.
Proof.
  induction l as [|x l IH]; intros Hl; [done|]. rewrite !filter_cons.
  rewrite IH by (intros y Hy; apply Hl; by right). specialize (Hl x ltac:(left)).
  do 2 case_decide; tauto || done.
Qed.

Lemma elem_of_concat {A} (x : A) (ls : list (list A)) :
  x ∈ concat ls <-> exists l, x ∈ l /\ l ∈ ls.
Proof.
  induction ls as [|l ls IH]; simpl.
  - rewrite elem_of_nil. setoid_rewrite elem_of_nil. naive_solver.
  - rewrite elem_of_app, IH. setoid_rewrite elem_of_cons. naive_solver.
Qed.

Section sort_facts.
Context {A : Type} (leb : A -> A -> bool).
Context (leb_total : forall x y, leb x y = true \/ leb y x = true).
Context (leb_trans : forall x y z, leb x y = true -> leb y z = true -> leb x z = true).

Lemma sort_insert_perm x l : sort_insert leb x l ≡ₚ x :: l.
Proof.
  induction l as [|y l IH]; [done|simpl].
  destruct (leb x y); [done|]. rewrite IH. apply Permutation_swap.
Qed.

Lemma stable_sort_perm l : stable_sort leb l ≡ₚ l.
Proof. induction l as [|x l IH]; [done|simpl]. by rewrite sort_insert_perm, IH. Qed.

Lemma sort_insert_sorted x l :
  StronglySorted (fun a b => leb a b = true) l ->
  StronglySorted (fun a b => leb a b = true) (sort_insert leb x l).
Proof using leb_total leb_trans.
  induction 1 as [|y l Hl IH Hy]; simpl; [repeat constructor|].
  destruct (leb x y) eqn:Hxy.
  - constructor; [by constructor|]. constructor; [done|].
    eapply Forall_impl; [exact Hy|]. intros z ?. eapply leb_trans; eauto.
  - constructor; [done|]. rewrite sort_insert_perm. constructor; [|done].
    destruct (leb_total x y); congruence.
Qed.

Lemma stable_sort_sorted l : StronglySorted (fun a b => leb a b = true) (stable_sort leb l).
Proof using leb_total leb_trans.
  induction l; simpl; [constructor|by apply sort_insert_sorted].
Qed.

Lemma is_sorted_spec l :
  is_sorted leb l = true <-> StronglySorted (fun a b => leb a b = true) l.
Proof using leb_trans.
  induction l as [|x [|y l] IH]; simpl.
  - split; [constructor|done].
  - split; [repeat constructor|done].
  - rewrite andb_true_iff, IH. split.
    + intros [Hxy Hs]. constructor; [done|]. constructor; [done|].
      apply StronglySorted_cons in Hs as [Hy _].
      eapply Forall_impl; [exact Hy|]. intros z ?. eapply leb_trans; eauto.
    + intros Hs. apply StronglySorted_cons in Hs as [Hx Hs].
      split; [by inversion Hx|done].
Qed.

Lemma sort_insert_head x l : Forall (fun y => leb x y = true) l -> sort_insert leb x l = x :: l.
Proof. destruct 1 as [|y l Hy]; simpl; [done|]. by rewrite Hy. Qed.

(** Sorting a sorted list does nothing. *)
Lemma stable_sort_id l :
  StronglySorted (fun a b => leb a b = true) l -> stable_sort leb l = l.
Proof. induction 1 as [|x l Hl IH Hx]; simpl; [done|]. rewrite IH. by apply sort_insert_head. Qed.
End sort_facts.

(** *** Sorting by an integer key *)

Section key_facts.
Context {A : Type} (key : A -> Z).

Lemma key_leb_total x y : key_leb key x y = true \/ key_leb key y x = true.
Proof. unfold key_leb. rewrite !Z.leb_le. lia. Qed.

Lemma key_leb_trans x y z :
  key_leb key x y = true -> key_leb key y z = true -> key_leb key x z = true.
Proof. unfold key_leb. rewrite !Z.leb_le. lia. Qed.

Lemma StronglySorted_key_leb l :
  StronglySorted (fun a b => key_leb key a b = true) l <-> StronglySorted (key_le key) l.
Proof.
  unfold key_leb, key_le. induction l as [|x l IH]; [split; constructor|].
  rewrite !StronglySorted_cons, IH. setoid_rewrite Z.leb_le. done.
Qed.

Lemma sort_by_key_perm l : sort_by_key key l ≡ₚ l.
Proof. apply stable_sort_perm. Qed.

Lemma sort_by_key_sorted l : StronglySorted (key_le key) (sort_by_key key l).
Proof.
  apply StronglySorted_key_leb, stable_sort_sorted.
  - apply key_leb_total.
  - apply key_leb_trans.
Qed.

Lemma sort_by_key_id l : StronglySorted (key_le key) l -> sort_by_key key l = l.
Proof. intros. by apply stable_sort_id, StronglySorted_key_leb. Qed.

Lemma is_sorted_by_key_spec l :
  is_sorted_by_key key l = true <-> StronglySorted (key_le key) l.
Proof.
  unfold is_sorted_by_key. rewrite is_sorted_spec by apply key_leb_trans.
  apply StronglySorted_key_leb.
Qed.

Lemma StronglySorted_lt_le l :
  StronglySorted (key_lt key) l -> StronglySorted (key_le key) l.
Proof.
  induction 1 as [|x l _ IH Hx]; constructor; [done|].
  eapply Forall_impl; [exact Hx|]. unfold key_lt, key_le. intros; lia.
Qed.

(** [sort_by_key] is stable: it keeps the elements of one key in their order. *)
Lemma sort_insert_stable k x l :
  filter (fun a => key a = k) (sort_insert (key_leb key) x l)
  = filter (fun a => key a = k) (x :: l).
Proof.
  induction l as [|y l IH]; [done|]. simpl.
  destruct (key_leb key x y) eqn:E; [done|].
  unfold key_leb in E. apply Z.leb_gt in E.
  rewrite !filter_cons, IH, filter_cons. repeat case_decide; done || lia.
Qed.

Lemma sort_by_key_stable k l :
  filter (fun a => key a = k) (sort_by_key key l) = filter (fun a => key a = k) l.
Proof.
  unfold sort_by_key. induction l as [|x l IH]; [done|].
  simpl. rewrite sort_insert_stable, !filter_cons, IH. done.
Qed.

Lemma filter_key_none k l :
  Forall (fun a => k < key a) l -> filter (fun a => key a = k) l = [].
Proof.
  induction 1 as [|y l Hy _ IH]; [done|]. rewrite filter_cons.
  case_decide; [lia|done].
Qed.

(** A list sorted by key is determined by the sublists of its keys. *)
Lemma stable_sorted_unique l1 l2 :
  StronglySorted (key_le key) l1 -> StronglySorted (key_le key) l2 ->
  (forall k, filter (fun a => key a = k) l1 = filter (fun a => key a = k) l2) ->
  l1 = l2.
Proof.
  assert (Hmin : forall x (l1 l2 : list A), StronglySorted (key_le key) (x :: l1) ->
    StronglySorted (key_le key) l2 ->
    (forall k, filter (fun a => key a = k) (x :: l1) = filter (fun a => key a = k) l2) ->
    exists l2', l2 = x :: l2').
  { intros x l1' [|y l2'] H1 H2 Hf.
    - specialize (Hf (key x)). rewrite filter_cons, decide_True in Hf by done. discriminate.
    - apply StronglySorted_cons in H1 as [H1 _]. apply StronglySorted_cons in H2 as [H2 _].
      assert (key x <= key y) as Hxy.
      { specialize (Hf (key y)). destruct (Z.lt_ge_cases (key y) (key x)) as [Hlt|]; [|done].
        rewrite (filter_key_none _ (x :: l1')) in Hf.
        - rewrite filter_cons, decide_True in Hf by done. discriminate.
        - constructor; [done|]. eapply Forall_impl; [exact H1|].
          unfold key_le. intros; lia. }
      assert (key y <= key x) as Hyx.
      { specialize (Hf (key x)). destruct (Z.lt_ge_cases (key x) (key y)) as [Hlt|]; [|done].
        rewrite (filter_key_none _ (y :: l2')) in Hf.
        - rewrite filter_cons, decide_True in Hf by done. discriminate.
        - constructor; [done|]. eapply Forall_impl; [exact H2|].
          unfold key_le. intros; lia. }
      specialize (Hf (key x)).
      rewrite !filter_cons, decide_True, decide_True in Hf by lia.
      injection Hf as <- _. by eexists. }
  revert l2. induction l1 as [|x l1 IH]; intros l2 H1 H2 Hf.
  - destruct l2 as [|y l2]; [done|]. specialize (Hf (key y)).
    rewrite filter_cons, decide_True in Hf by done. discriminate.
  - destruct (Hmin x l1 l2 H1 H2 Hf) as [l2' ->]. f_equal.
    apply StronglySorted_cons in H1 as [_ H1]. apply StronglySorted_cons in H2 as [_ H2].
    apply IH; [done..|]. intros k. specialize (Hf k).
    rewrite !filter_cons in Hf. case_decide; [by injection Hf|done].
Qed.

Lemma sorted_lookup_le l i j x y :
  StronglySorted (key_le key) l -> l !! i = Some x -> l !! j = Some y -> (i <= j)%nat ->
  key x <= key y.
Proof.
  intros Hs Hi Hj Hle. revert i j Hi Hj Hle.
  induction Hs as [|z l Hs IH Hz]; intros i j Hi Hj Hle; [done|].
  destruct i as [|i], j as [|j]; simpl in *; inv_some; [lia| |lia|].
  - rewrite Forall_lookup in Hz. exact (Hz _ _ Hj).
  - apply (IH i j); auto with lia.
Qed.

Lemma sorted_partitioned_lt l k :
  StronglySorted (key_le key) l -> partitioned (fun a => key a <? k) l.
Proof.
  intros Hs i j x y Hi Hj Hij. rewrite !Z.ltb_lt.
  pose proof (sorted_lookup_le _ _ _ _ _ Hs Hi Hj Hij). lia.
Qed.

Lemma sorted_partitioned_le l k :
  StronglySorted (key_le key) l -> partitioned (fun a => key a <=? k) l.
Proof.
  intros Hs i j x y Hi Hj Hij. rewrite !Z.leb_le.
  pose proof (sorted_lookup_le _ _ _ _ _ Hs Hi Hj Hij). lia.
Qed.
End key_facts.

(** *** Searches *)

Section search_facts.
Context {A : Type} (pred : A -> bool).
Implicit Types l : list A.

Lemma count_while_le l : (count_while pred l <= length l)%nat.
Proof. induction l as [|x l IH]; simpl; [lia|]. destruct (pred x); lia. Qed.

Lemma count_while_prefix l i x :
  (i < count_while pred l)%nat -> l !! i = Some x -> pred x = true.
Proof.
  revert i. induction l as [|y l IH]; intros i Hi Hx; [done|]. simpl in Hi.
  destruct (pred y) eqn:Hy; [|lia].
  destruct i; simpl in Hx; [by inv_some|]. eapply IH; [|done]. lia.
Qed.

Lemma count_while_stop l x : l !! count_while pred l = Some x -> pred x = false.
Proof.
  induction l as [|y l IH]; simpl; [done|].
  destruct (pred y) eqn:Hy; simpl; [done|]. intros; by inv_some.
Qed.

(** An index below which [pred] holds and at or above which it fails is the count. *)
Lemma count_while_unique l n :
  (n <= length l)%nat ->
  (forall i x, l !! i = Some x -> (i < n)%nat -> pred x = true) ->
  (forall x, l !! n = Some x -> pred x = false) ->
  count_while pred l = n.
Proof.
  revert n. induction l as [|y l IH]; intros n Hn Hlt Hge; simpl in *; [lia|].
  destruct n as [|n].
  - by rewrite (Hge y).
  - rewrite (Hlt 0%nat y) by (done || lia). f_equal. apply IH; [lia| |].
    + intros i x ? ?. apply (Hlt (S i)); [done|lia].
    + intros x ?. by apply Hge.
Qed.

Lemma partitioned_suffix l i x :
  partitioned pred l -> l !! i = Some x -> (count_while pred l <= i)%nat -> pred x = false.
Proof.
  intros Hp Hi Hle. destruct (pred x) eqn:E; [|done]. exfalso.
  destruct (lookup_lt_is_Some_2 l (count_while pred l)) as [y Hy].
  { apply lookup_lt_Some in Hi. lia. }
  pose proof (count_while_stop l y Hy) as Hf.
  rewrite (Hp _ _ _ _ Hy Hi Hle E) in Hf. discriminate.
Qed.

Lemma count_while_mono l n :
  partitioned pred l ->
  (forall x, l !! n = Some x -> pred x = true) -> (n < length l)%nat ->
  (n < count_while pred l)%nat.
Proof.
  intros Hp Hn Hlen. destruct (Nat.lt_ge_cases n (count_while pred l)); [done|].
  destruct (lookup_lt_is_Some_2 l n Hlen) as [x Hx].
  pose proof (partitioned_suffix l n x Hp Hx) as E. rewrite Hn in E by done.
  exfalso. by discriminate E.
Qed.

(** The hand-written bisection finds the partition point whenever it starts around it. *)
Lemma bisect_spec l fuel left right :
  partitioned pred l ->
  (left <= count_while pred l <= right)%nat -> (right <= length l)%nat ->
  (right - left < fuel)%nat ->
  bisect pred l fuel left right = Some (count_while pred l).
Proof.
  intros Hp. revert left right. induction fuel as [|fuel IH]; intros left right Hb Hr Hf; [lia|].
  cbn [bisect]. destruct (Nat.ltb_spec left right) as [Hlt|]; [|f_equal; lia].
  assert (Hmid : ((right - left) / 2 < right - left)%nat) by (apply Nat.div_lt; lia).
  destruct (lookup_lt_is_Some_2 l (left + (right - left) / 2)) as [x Hx]; [lia|].
  rewrite Hx. destruct (pred x) eqn:E.
  - apply IH; [|lia..].
    assert (left + (right - left) / 2 < count_while pred l)%nat; [|lia].
    apply count_while_mono; [done|intros y Hy; congruence|by eapply lookup_lt_Some].
  - apply IH; [|lia..].
    destruct (Nat.lt_ge_cases (left + (right - left) / 2) (count_while pred l)) as [H|]; [|lia].
    pose proof (count_while_prefix l _ _ H Hx). congruence.
Qed.

Lemma count_while_app l1 l2 :
  Forall (fun x => pred x = true) l1 ->
  count_while pred (l1 ++ l2) = (length l1 + count_while pred l2)%nat.
Proof. induction 1 as [|x l1 Hx _ IH]; simpl; [done|]. by rewrite Hx, IH. Qed.

Lemma count_while_drop l n :
  (n <= count_while pred l)%nat ->
  count_while pred (drop n l) = (count_while pred l - n)%nat.
Proof.
  intros Hn. rewrite <-(take_drop n l) at 2. rewrite count_while_app.
  - rewrite length_take. pose proof (count_while_le l). lia.
  - apply Forall_lookup. intros i x Hi. apply lookup_take_Some in Hi as [Hi ?].
    eapply count_while_prefix; [|done]. lia.
Qed.

(** In a partitioned list the elements before the partition point are those of [pred]. *)
Lemma partitioned_filter l :
  partitioned pred l -> filter (fun x => pred x = true) l = take (count_while pred l) l.
Proof.
  induction l as [|x l IH]; intros Hp; [done|]. simpl.
  rewrite filter_cons. assert (Hp' : partitioned pred l).
  { intros i j a b Ha Hb ?. apply (Hp (S i) (S j)); [done..|lia]. }
  destruct (pred x) eqn:E; simpl.
  - by rewrite IH.
  - rewrite IH by done.
    destruct l as [|y l]; [done|]. simpl. destruct (pred y) eqn:Ey; [|done].
    rewrite (Hp 0%nat 1%nat x y) in E by (done || lia). discriminate.
Qed.
End search_facts.

(** *** The standard library's binary search *)

Section binary_search_facts.
Context {A : Type} (f : A -> comparison).
Implicit Types l : list A.

(** [f] is monotone along the list, as [binary_search_by] requires. *)
Definition cmp_sorted l : Prop :=
  partitioned (fun x => match f x with Lt => true | _ => false end) l /\
  partitioned (fun x => match f x with Gt => false | _ => true end) l.

Lemma bsearch_base_spec l fuel base size :
  cmp_sorted l -> (size < fuel)%nat -> (1 <= size)%nat -> (base + size <= length l)%nat ->
  (base = 0 \/ base < count_while (fun x => match f x with Gt => false | _ => true end) l)%nat ->
  (count_while (fun x => match f x with Gt => false | _ => true end) l <= base + size)%nat ->
  exists b, bsearch_base f l fuel base size = Some b /\
    (b = Nat.pred (count_while (fun x => match f x with Gt => false | _ => true end) l))%nat.
Proof.
  intros [_ Hp]. set (c := count_while _ l). revert base size.
  induction fuel as [|fuel IH]; intros base size Hf H1 Hlen Hb Hc; [lia|].
  cbn [bsearch_base]. destruct (Nat.ltb_spec 1 size) as [Hs|].
  - assert (Hh : (size / 2 < size)%nat) by (apply Nat.div_lt; lia).
    assert (Hh2 : (2 * (size / 2) <= size)%nat) by (apply Nat.Div0.mul_div_le).
    assert (Hh1 : (1 <= size / 2)%nat) by (apply Nat.div_le_lower_bound; lia).
    destruct (lookup_lt_is_Some_2 l (base + size / 2)) as [x Hx]; [lia|]. rewrite Hx.
    assert (Hle : f x <> Gt -> (base + size / 2 < c)%nat).
    { intros. apply count_while_mono; [done| |by eapply lookup_lt_Some].
      intros y Hy. assert (y = x) as -> by congruence. by destruct (f x). }
    assert (Hgt : f x = Gt -> (c <= base + size / 2)%nat).
    { intros E. destruct (Nat.lt_ge_cases (base + size / 2) c) as [Hlt|]; [|lia].
      pose proof (count_while_prefix _ l _ _ Hlt Hx) as Ht. simpl in Ht. by rewrite E in Ht. }
    destruct (f x) eqn:E; apply IH; try lia.
    + right. by apply Hle.
    + right. by apply Hle.
    + specialize (Hgt eq_refl). lia.
  - exists base. split; [done|]. destruct Hb; lia.
Qed.

Lemma bsearch_base_total l fuel base size :
  (size < fuel)%nat -> (1 <= size)%nat -> (base + size <= length l)%nat ->
  exists b, bsearch_base f l fuel base size = Some b /\ (b < length l)%nat.
Proof.
  revert base size. induction fuel as [|fuel IH]; intros base size Hf H1 Hlen; [lia|].
  cbn [bsearch_base]. destruct (Nat.ltb_spec 1 size) as [Hs|]; [|exists base; split; [done|lia]].
  assert (Hh : (size / 2 < size)%nat) by (apply Nat.div_lt; lia).
  assert (Hh1 : (1 <= size / 2)%nat) by (apply Nat.div_le_lower_bound; lia).
  destruct (lookup_lt_is_Some_2 l (base + size / 2)) as [x Hx]; [lia|]. rewrite Hx.
  destruct (f x); apply IH; lia.
Qed.

(** The search never reads outside the slice, sorted or not. *)
Lemma binary_search_raw_total l : is_Some (binary_search_raw f l).
Proof.
  destruct l as [|z l']; [by eexists|]. set (l := z :: l').
  destruct (bsearch_base_total l (S (length l)) 0 (length l)) as (b & Hb & Hlt);
    [lia|simpl; lia|lia|].
  unfold binary_search_raw. fold l. subst l. cbv iota. rewrite Hb.
  destruct (lookup_lt_is_Some_2 _ _ Hlt) as [x ->]. destruct (f x); by eexists.
Qed.

(** A search of a sorted slice succeeds without an out-of-range access: it returns an
    element that compares equal, or the insertion point when there is none. *)
Lemma binary_search_by_spec l :
  cmp_sorted l ->
  (exists i x, binary_search_by f l = inl i /\ l !! i = Some x /\ f x = Eq) \/
  (binary_search_by f l =
     inr (count_while (fun x => match f x with Lt => true | _ => false end) l) /\
   Forall (fun x => f x <> Eq) l).
Proof.
  unfold binary_search_by. intros Hs. destruct l as [|z l']; [by right|]. set (l := z :: l').
  destruct (bsearch_base_spec l (S (length l)) 0 (length l) Hs) as (b & Hb & Hbc);
    [lia|simpl; lia|lia|by left|apply count_while_le|].
  destruct Hs as [Hlt Hle].
  set (c := count_while (fun x => match f x with Gt => false | _ => true end) l) in *.
  assert (Hcl : (c <= length l)%nat) by apply count_while_le.
  destruct (lookup_lt_is_Some_2 l b) as [x Hx]; [simpl in *; lia|].
  change (binary_search_raw f l) with
    (match bsearch_base f l (S (length l)) 0 (length l) with
     | Some base => match l !! base with
        | Some x => match f x with Eq => Some (inl base)
            | Lt => Some (inr (base + 1)%nat) | Gt => Some (inr base) end
        | None => None end
     | None => None end).
  rewrite Hb, Hx. destruct (f x) eqn:E; simpl default; [left; by eauto| |].
  - right. assert (Hbc' : (b < c)%nat).
    { apply count_while_mono; [done| |by eapply lookup_lt_Some].
      intros y Hy. assert (y = x) as -> by congruence. by rewrite E. }
    assert (Hn : forall i y, l !! i = Some y -> (i < c)%nat -> f y = Lt).
    { intros i y Hi Hic. pose proof (Hlt i b y x Hi Hx) as Ht. simpl in Ht. rewrite E in Ht.
      specialize (Ht ltac:(lia) eq_refl). by destruct (f y). }
    assert (Hg : forall i y, l !! i = Some y -> (c <= i)%nat -> f y = Gt).
    { intros i y Hi Hic. pose proof (partitioned_suffix _ l i y Hle Hi Hic) as Hq.
      simpl in Hq. by destruct (f y). }
    split.
    + f_equal. symmetry. apply count_while_unique; [lia| |].
      * intros i y Hi ?. rewrite (Hn i y); [done..|lia].
      * intros y Hy. rewrite (Hg (b + 1)%nat y); [done..|lia].
    + apply Forall_lookup. intros i y Hi. destruct (Nat.lt_ge_cases i c).
      * by rewrite (Hn i y).
      * by rewrite (Hg i y).
  - right. assert (c = 0)%nat as Hc0.
    { destruct (decide (c = 0%nat)); [done|]. assert (Hbc' : (b < c)%nat) by lia.
      pose proof (count_while_prefix _ l b x Hbc' Hx) as Ht.
      simpl in Ht. by rewrite E in Ht. }
    assert (Hg : forall i y, l !! i = Some y -> f y = Gt).
    { intros i y Hi. pose proof (partitioned_suffix _ l i y Hle Hi ltac:(fold c; lia)) as Hq.
      simpl in Hq. by destruct (f y). }
    split.
    + f_equal. symmetry. apply count_while_unique; [lia| |].
      * intros i y Hi ?. lia.
      * intros y Hy. by rewrite (Hg _ y Hy).
    + apply Forall_lookup. intros i y Hi. by rewrite (Hg i y).
Qed.
End binary_search_facts.

Lemma cmp_sorted_key {A} (key : A -> Z) k l :
  StronglySorted (key_le key) l -> cmp_sorted (fun x => key x ?= k) l.
Proof.
  intros Hs. split; intros i j x y Hi Hj Hij;
    pose proof (sorted_lookup_le key _ _ _ _ _ Hs Hi Hj Hij) as Hle;
    destruct (Z.compare_spec (key x) k), (Z.compare_spec (key y) k); (done || lia).
Qed.

Lemma partition_point_spec {A} (pred : A -> bool) l :
  partitioned pred l -> partition_point pred l = count_while pred l.
Proof.
  intros Hp. unfold partition_point.
  destruct (binary_search_by_spec (fun x => if pred x then Lt else Gt) l)
    as [(i & x & -> & _ & E)|[-> _]].
  - split; intros i j x y Hi Hj Hij; pose proof (Hp i j x y Hi Hj Hij);
      destruct (pred x), (pred y); naive_solver.
  - destruct (pred x); discriminate.
  - induction l as [|x l IH]; simpl; [done|]. destruct (pred x); [|done].
    f_equal. apply IH. intros i j a b Ha Hb ?. apply (Hp (S i) (S j)); [done..|lia].
Qed.

(** *** Heaps *)

Section heap_facts.
Context {A : Type} (leb : A -> A -> bool).
Context (leb_total : forall x y, leb x y = true \/ leb y x = true).
Context (leb_trans : forall x y z, leb x y = true -> leb y z = true -> leb x z = true).

Lemma heap_min_spec x l :
  x :: l ≡ₚ (heap_min leb x l).1 :: (heap_min leb x l).2 /\
  Forall (fun y => leb (heap_min leb x l).1 y = true) (x :: l).
Proof using leb_total leb_trans.
  assert (Hrefl : forall y, leb y y = true) by (intros y; destruct (leb_total y y); done).
  revert x. induction l as [|y l IH]; intros x; [by split; [|repeat constructor]|].
  cbn [heap_min]. destruct (IH (if leb x y then x else y)) as [IH1 IH2].
  destruct (heap_min leb (if leb x y then x else y) l) as [m rest]; simpl in *.
  apply Forall_cons in IH2 as [Hm IH2]. destruct (leb x y) eqn:E.
  - split.
    + trans (y :: m :: rest); [|apply Permutation_swap]. rewrite <-IH1. apply Permutation_swap.
    + constructor; [done|]. constructor; [|done]. by apply leb_trans with x.
  - assert (leb y x = true) by (destruct (leb_total x y); congruence). split.
    + trans (x :: m :: rest); [|apply Permutation_swap]. by rewrite <-IH1.
    + constructor; [by apply leb_trans with y|]. by constructor.
Qed.

Lemma heap_pop_spec h m h' :
  heap_pop leb h = Some (m, h') -> h ≡ₚ m :: h' /\ Forall (fun y => leb m y = true) h'.
Proof using leb_total leb_trans.
  destruct h as [|x l]; simpl; [done|]. intros E. injection E as E.
  destruct (heap_min_spec x l) as [H1 H2]. rewrite E in H1, H2; simpl in *.
  split; [done|]. rewrite H1 in H2. by inversion H2.
Qed.

Lemma heap_pop_None h : heap_pop leb h = None <-> h = [].
Proof. by destruct h. Qed.
End heap_facts.

(** *** Deduplication *)

Lemma dedup_from_elem x last l : x ∈ dedup_from last l -> x ∈ l.
Proof.
  revert last. induction l as [|y l IH]; intros last; simpl; [done|].
  destruct (y =? last); rewrite ?elem_of_cons; naive_solver.
Qed.

Lemma dedup_from_elem_2 x last l : x ∈ l -> x = last \/ x ∈ dedup_from last l.
Proof.
  revert last. induction l as [|y l IH]; intros last; simpl; [by rewrite elem_of_nil|].
  rewrite elem_of_cons. destruct (Z.eqb_spec y last) as [->|].
  - intros [->|H]; [by left|by apply IH].
  - rewrite elem_of_cons. intros [->|H]; [naive_solver|].
    destruct (IH y H) as [->|]; naive_solver.
Qed.

Lemma elem_of_dedup x l : x ∈ dedup l <-> x ∈ l.
Proof.
  destruct l as [|y l]; simpl; [done|]. rewrite !elem_of_cons. split.
  - intros [?|H]; [by left|]. right. by eapply dedup_from_elem.
  - intros [?|H]; [by left|]. destruct (dedup_from_elem_2 x y l H); naive_solver.
Qed.

Lemma dedup_from_sorted last l :
  StronglySorted Z.le l -> Forall (Z.le last) l ->
  StronglySorted Z.lt (dedup_from last l) /\ Forall (Z.lt last) (dedup_from last l).
Proof.
  intros Hs. revert last. induction Hs as [|x l Hs IH Hx]; intros last Hl; simpl; [repeat constructor|].
  apply Forall_cons in Hl as [Hx' Hl]. destruct (Z.eqb_spec x last) as [->|].
  - by apply IH.
  - destruct (IH x Hx) as [IH1 IH2]. split.
    + by constructor.
    + constructor; [lia|]. eapply Forall_impl; [exact IH2|]. intros; lia.
Qed.

Lemma dedup_sorted l : StronglySorted Z.le l -> StronglySorted Z.lt (dedup l).
Proof.
  intros Hs. destruct Hs as [|x l Hs Hx]; simpl; [constructor|].
  destruct (dedup_from_sorted x l Hs Hx). by constructor.
Qed.

Lemma sort_unstable_sorted l : StronglySorted Z.le (sort_unstable l).
Proof. apply (sort_by_key_sorted id). Qed.

Lemma elem_of_sort_unstable x l : x ∈ sort_unstable l <-> x ∈ l.
Proof. unfold sort_unstable. by rewrite (sort_by_key_perm id l). Qed.

(** Two strictly ascending lists with the same members are equal. *)
Lemma StronglySorted_lt_unique l1 l2 :
  StronglySorted Z.lt l1 -> StronglySorted Z.lt l2 -> (forall x, x ∈ l1 <-> x ∈ l2) -> l1 = l2.
Proof.
  revert l2. induction l1 as [|x l1 IH]; intros [|y l2] H1 H2 He; [done| | |].
  - exfalso. apply (not_elem_of_nil y), He. left.
  - exfalso. apply (not_elem_of_nil x), He. left.
  - apply StronglySorted_cons in H1 as [H1 H1']. apply StronglySorted_cons in H2 as [H2 H2'].
    rewrite Forall_forall in H1. rewrite Forall_forall in H2.
    assert (x = y) as <-.
    { assert (x ∈ y :: l2) as Hx by (apply He; left).
      assert (y ∈ x :: l1) as Hy by (apply He; left).
      apply elem_of_cons in Hx as [|Hx]; [done|]. apply elem_of_cons in Hy as [|Hy]; [done|].
      specialize (H1 _ Hy). specialize (H2 _ Hx). lia. }
    f_equal. apply IH; [done..|]. intros z. specialize (He z). rewrite !elem_of_cons in He.
    split; intros Hz.
    + destruct (proj1 He (or_intror Hz)) as [->|]; [|done]. specialize (H1 _ Hz). lia.
    + destruct (proj2 He (or_intror Hz)) as [->|]; [|done]. specialize (H2 _ Hz). lia.
Qed.

Lemma dedup_from_id last l :
  StronglySorted Z.lt l -> Forall (Z.lt last) l -> dedup_from last l = l.
Proof.
  intros Hs. revert last. induction Hs as [|x l Hs IH Hx]; intros last Hl; simpl; [done|].
  apply Forall_cons in Hl as [? _]. destruct (Z.eqb_spec x last); [lia|]. by rewrite IH.
Qed.

Lemma dedup_id l : StronglySorted Z.lt l -> dedup l = l.
Proof.
  destruct 1 as [|x l Hs Hx]; simpl; [done|]. by rewrite dedup_from_id.
Qed.

Lemma StronglySorted_Zlt_le l : StronglySorted Z.lt l -> StronglySorted Z.le l.
Proof. apply (StronglySorted_lt_le id). Qed.

#[export] Hint Resolve sort_by_key_sorted sort_unstable_sorted dedup_sorted
  StronglySorted_lt_le StronglySorted_Zlt_le : riets.
#[export] Hint Rewrite @elem_of_sort_unstable elem_of_dedup : riets.

(** ** Byte strings *)

Definition byte_ok (b : Z) : Prop := 0 <= b < 256.
#[global] Instance byte_ok_dec b : Decision (byte_ok b).
Proof. unfold byte_ok. apply _. Defined.

(** [uN::to_le_bytes] and [uN::from_le_bytes] for a value of [n] bytes. *)
Fixpoint to_le_bytes (n : nat) (x : Z) : list Z :=
  match n with
  | O => []
  | S n' => Z.land x 255 :: to_le_bytes n' (Z.shiftr x 8)
  end.
Fixpoint from_le_bytes (bs : list Z) : Z :=
  match bs with
  | [] => 0
  | b :: bs' => Z.lor b (Z.shiftl (from_le_bytes bs') 8)
  end.

(** [&bytes[start..start + len]] when in range. *)
Definition slice {A} (start len : nat) (l : list A) : list A := take len (drop start l).

Lemma length_to_le_bytes n x : length (to_le_bytes n x) = n.
Proof. revert x. induction n; intros; simpl; auto. Qed.

Lemma to_le_bytes_ok n x : Forall byte_ok (to_le_bytes n x).
Proof.
  revert x. induction n as [|n IH]; intros x; simpl; constructor; [|apply IH].
  change 255 with (Z.ones 8). rewrite Z.land_ones by lia. unfold byte_ok.
  change (2 ^ 8) with 256. apply Z.mod_pos_bound. lia.
Qed.

Lemma lor_shiftl_add b x k :
  0 <= k -> 0 <= b < 2 ^ k -> Z.lor b (Z.shiftl x k) = b + x * 2 ^ k.
Proof.
  intros Hk Hb. rewrite <-Z.shiftl_mul_pow2 by lia.
  rewrite <-Z.add_lor_land. enough (Z.land b (Z.shiftl x k) = 0) by lia.
  apply Z.bits_inj'. intros i Hi.
  rewrite Z.land_spec, Z.bits_0, Z.shiftl_spec by lia.
  destruct (Z.lt_ge_cases i k) as [Hlt|].
  - rewrite (Z.testbit_neg_r x) by lia. apply andb_false_r.
  - replace (Z.testbit b i) with false; [done|].
    rewrite <-(Z.mod_small b (2 ^ k)) by lia. by rewrite Z.mod_pow2_bits_high by lia.
Qed.

Lemma from_to_le_bytes n x :
  0 <= x -> from_le_bytes (to_le_bytes n x) = x mod 2 ^ (8 * Z.of_nat n).
Proof.
  revert x. induction n as [|n IH]; intros x Hx.
  - simpl. by rewrite Z.mod_1_r.
  - cbn [to_le_bytes from_le_bytes].
    rewrite IH by (apply Z.shiftr_nonneg; lia).
    change 255 with (Z.ones 8). rewrite Z.land_ones, Z.shiftr_div_pow2 by lia.
    rewrite lor_shiftl_add by (try apply Z.mod_pos_bound; lia).
    replace (8 * Z.of_nat (S n)) with (8 + 8 * Z.of_nat n) by lia.
    rewrite Z.pow_add_r by lia. rewrite Z.rem_mul_r by lia. lia.
Qed.

Lemma from_to_le_bytes_id n x :
  in_u (8 * Z.of_nat n) x -> from_le_bytes (to_le_bytes n x) = x.
Proof. intros Hx. rewrite from_to_le_bytes by apply Hx. by apply Z.mod_small. Qed.

Lemma from_le_bytes_bound bs :
  Forall byte_ok bs -> 0 <= from_le_bytes bs < 2 ^ (8 * zlen bs).
Proof.
  induction 1 as [|b bs Hb Hbs IH]; [simpl; lia|]. cbn [from_le_bytes length].
  unfold byte_ok in Hb. rewrite lor_shiftl_add by lia.
  replace (8 * Z.of_nat (S (length bs))) with (8 + 8 * zlen bs) by lia.
  rewrite Z.pow_add_r by lia. nia.
Qed.

Lemma slice_app_l {A} (l1 l2 : list A) n : n = length l1 -> slice 0 n (l1 ++ l2) = l1.
Proof. intros ->. unfold slice. rewrite drop_0. apply take_app_length. Qed.

Lemma slice_app_mid {A} (l1 l2 l3 : list A) s n :
  s = length l1 -> n = length l2 -> slice s n (l1 ++ l2 ++ l3) = l2.
Proof. intros -> ->. unfold slice. rewrite drop_app_length. apply take_app_length. Qed.

(** ** Sorting under a map *)

Lemma sort_insert_fmap {A B} (f : A -> B) (leb : B -> B -> bool) x l :
  sort_insert leb (f x) (f <$> l) = f <$> sort_insert (fun x y => leb (f x) (f y)) x l.
Proof.
  induction l as [|y l IH]; [done|]. rewrite fmap_cons. simpl. destruct (leb (f x) (f y)); [done|].
  by rewrite IH.
Qed.

Lemma stable_sort_fmap {A B} (f : A -> B) (leb : B -> B -> bool) l :
  stable_sort leb (f <$> l) = f <$> stable_sort (fun x y => leb (f x) (f y)) l.
Proof. induction l as [|x l IH]; [done|]. rewrite fmap_cons. simpl. by rewrite IH, sort_insert_fmap. Qed.

Lemma stable_sort_ext {A} (leb leb' : A -> A -> bool) l :
  (forall x y, x ∈ l -> y ∈ l -> leb x y = leb' x y) -> stable_sort leb l = stable_sort leb' l.
Proof.
  induction l as [|x l IH]; intros Hl; [done|]. simpl.
  rewrite IH by (intros; apply Hl; by right).
  assert (Hins : forall m, (forall y, y ∈ m -> y ∈ l) -> sort_insert leb x m = sort_insert leb' x m).
  { induction m as [|y m IHm]; intros Hm; [done|]. simpl. rewrite (Hl x y); [|left|right; apply Hm; left].
    destruct (leb' x y); [done|]. f_equal. apply IHm. intros z Hz. apply Hm. by right. }
  apply Hins. intros y Hy. by rewrite stable_sort_perm in Hy.
Qed.

Lemma filter_map_comm {A B} (f : A -> B) (P : B -> Prop) `{!forall x, Decision (P x)} (l : list A) :
  filter P (f <$> l) = f <$> filter (fun x => P (f x)) l.
Proof.
  induction l as [|x l IH]; [done|]. rewrite fmap_cons, !filter_cons, IH. by case_decide.
Qed.

(** An element's encoding is part of the whole. *)
Lemma concat_length_ge {A B} (enc : A -> list B) l a :
  a ∈ l -> (length (enc a) <= length (concat (enc <$> l)))%nat.
Proof.
  induction l as [|x l IH]; intros Ha; [by apply elem_of_nil in Ha|]. rewrite fmap_cons. cbn [concat].
  rewrite length_app. apply elem_of_cons in Ha as [->|Ha]; [lia|]. specialize (IH Ha). lia.
Qed.
