(* ===== verification/Types.v ===== *)
(** * Identifiers, packed positions and the stable hash

    Models [crates/core-index/src/types.rs] and [crates/core-index/src/hash.rs]:
    the packing of a shard number and a shard-local id into a document id, the
    packing of a token's start and span into a stored position, the keys of the
    term dictionary with their order, field statistics, and the 64-bit hash that
    routes documents to shards. *)
From Stdlib Require Import ZArith Lia.
From stdpp Require Import base numbers list gmap countable.
From S2P Require Import Prelude.

(** [DocId], [LocalDocId] and [ArrayRowId] are [u64], [Position] and [XPathId] are [u32]. *)
Abbreviation DocId := Z (only parsing).
Abbreviation Position := Z (only parsing).
Abbreviation XPathId := Z (only parsing).
Abbreviation ArrayRowId := Z (only parsing).
Abbreviation LocalDocId := Z (only parsing).

(** A [String] is the list of its characters (Unicode scalar values); Rust orders
    strings by their UTF-8 bytes, which is the order of the characters. *)
Abbreviation str := (list Z) (only parsing).

Fixpoint str_compare (a b : str) : comparison :=
  match a, b with
  | [], [] => Eq
  | [], _ :: _ => Lt
  | _ :: _, [] => Gt
  | x :: a', y :: b' => match x ?= y with Eq => str_compare a' b' | c => c end
  end.

Record TermKey : Type := mkTermKey { tk_xpath : XPathId; tk_term : str }.
Definition TermKey_new (term : str) (xpath : XPathId) : TermKey := mkTermKey xpath term.

(** The derived [Ord]: field by field, the xpath first. *)
Definition TermKey_compare (a b : TermKey) : comparison :=
  match tk_xpath a ?= tk_xpath b with
  | Eq => str_compare (tk_term a) (tk_term b)
  | c => c
  end.

#[global] Instance TermKey_eq_dec : EqDecision TermKey.
Proof. solve_decision. Defined.
#[global] Instance TermKey_countable : Countable TermKey :=
  inj_countable' (fun k => (tk_xpath k, tk_term k)) (fun p => mkTermKey p.1 p.2)
    (fun k => match k with mkTermKey _ _ => eq_refl end).

(** ** Stored positions *)

Definition SPAN_BITS : Z := 4.
Definition MAX_SPAN : Z := Z.shiftl 1 SPAN_BITS.

(** [v.clamp(lo, hi)]. *)
Definition clamp (v lo hi : Z) : Z := Z.min (Z.max v lo) hi.

Definition encode_position (start span : Z) : Position :=
  Z.lor (wrap 32 (Z.shiftl (Z.min start (Z.shiftr (u_max 32) SPAN_BITS)) SPAN_BITS))
        (clamp span 1 MAX_SPAN - 1).
Definition position_start (position : Position) : Z := Z.shiftr position SPAN_BITS.
Definition position_span (position : Position) : Z :=
  Z.land position (MAX_SPAN - 1) + 1.

(** ** Field statistics *)

Record FieldStats : Type := mkFieldStats { doc_count : Z; total_doc_len : Z }.
Definition FieldStats_default : FieldStats := mkFieldStats 0 0.
Definition FieldStats_add (self other : FieldStats) : FieldStats :=
  mkFieldStats (wrap 64 (doc_count self + doc_count other))
               (wrap 64 (total_doc_len self + total_doc_len other)).

(** ** Document ids *)

Record ShardId : Type := mkShardId { shard_num : Z }.
Definition ShardId_try_from (v : Z) : option ShardId :=
  if v <? 2 ^ 16 then Some (mkShardId v) else None.

Definition SHARD_BITS : Z := 16.
Definition LOCAL_BITS : Z := 48.
Definition MAX_LOCAL_DOC_ID : LocalDocId := Z.shiftl 1 LOCAL_BITS - 1.

(** [None]: the assertion on [local] fails. *)
Definition make_doc_id (shard : ShardId) (local : LocalDocId) : option DocId :=
  if local <=? MAX_LOCAL_DOC_ID then
    Some (Z.lor (wrap 64 (Z.shiftl (shard_num shard) LOCAL_BITS)) local)
  else None.
Definition shard_of (doc : DocId) : ShardId := mkShardId (wrap 16 (Z.shiftr doc LOCAL_BITS)).
Definition local_of (doc : DocId) : LocalDocId := Z.land doc (Z.shiftl 1 LOCAL_BITS - 1).

(** ** The stable hash *)

Definition FNV_OFFSET_BASIS : Z := 0xcbf29ce484222325.
Definition FNV_PRIME : Z := 0x00000100000001b3.

Definition wrapping_mul (x y : Z) : Z := wrap 64 (x * y).

Definition fnv1a64 (bytes : list Z) : Z :=
  fold_left (fun hash byte => wrapping_mul (Z.lxor hash byte) FNV_PRIME) bytes FNV_OFFSET_BASIS.

Definition xorshift33 (value : Z) : Z := Z.lxor value (Z.shiftr value 33).

Definition fmix64 (value : Z) : Z :=
  let value := xorshift33 value in
  let value := wrapping_mul value 0xff51afd7ed558ccd in
  let value := xorshift33 value in
  let value := wrapping_mul value 0xc4ceb9fe1a85ec53 in
  xorshift33 value.

Definition stable_hash64 (bytes : list Z) : Z := fmix64 (fnv1a64 bytes).

(** ** Properties of the packings *)

Lemma str_compare_refl a : str_compare a a = Eq.
Proof. induction a as [|x a IH]; simpl; [done|]. by rewrite Z.compare_refl. Qed.

Lemma str_compare_eq a b : str_compare a b = Eq <-> a = b.
Proof.
  split; [|intros ->; apply str_compare_refl].
  revert b. induction a as [|x a IH]; intros [|y b]; simpl; try done.
  destruct (Z.compare_spec x y) as [->| |]; try done. intros H. f_equal. by apply IH.
Qed.

Lemma str_compare_antisym a b : str_compare b a = CompOpp (str_compare a b).
Proof.
  revert b. induction a as [|x a IH]; intros [|y b]; simpl; try done.
  rewrite Z.compare_antisym. destruct (x ?= y); simpl; auto.
Qed.

Lemma str_compare_lt_trans a b c :
  str_compare a b = Lt -> str_compare b c = Lt -> str_compare a c = Lt.
Proof.
  revert b c. induction a as [|x a IH]; intros [|y b] [|z c]; simpl; try done.
  destruct (Z.compare_spec x y), (Z.compare_spec y z), (Z.compare_spec x z);
    subst; try done; try lia. apply IH.
Qed.

Lemma TermKey_compare_eq a b : TermKey_compare a b = Eq <-> a = b.
Proof.
  destruct a as [x s], b as [y t]. unfold TermKey_compare; simpl.
  destruct (Z.compare_spec x y) as [->|H|H].
  - rewrite str_compare_eq. naive_solver.
  - split; [done|]. injection 1 as -> ->. lia.
  - split; [done|]. injection 1 as -> ->. lia.
Qed.

Lemma TermKey_compare_antisym a b : TermKey_compare b a = CompOpp (TermKey_compare a b).
Proof.
  unfold TermKey_compare. rewrite Z.compare_antisym, str_compare_antisym.
  by destruct (tk_xpath a ?= tk_xpath b).
Qed.

Lemma TermKey_compare_lt_trans a b c :
  TermKey_compare a b = Lt -> TermKey_compare b c = Lt -> TermKey_compare a c = Lt.
Proof.
  unfold TermKey_compare.
  destruct (Z.compare_spec (tk_xpath a) (tk_xpath b)),
    (Z.compare_spec (tk_xpath b) (tk_xpath c)),
    (Z.compare_spec (tk_xpath a) (tk_xpath c)); try done; try lia.
  apply str_compare_lt_trans.
Qed.

(** Arithmetic form of the document id packing. *)
Lemma make_doc_id_arith s l :
  in_u 16 (shard_num s) -> 0 <= l < 2 ^ 48 ->
  make_doc_id s l = Some (l + shard_num s * 2 ^ 48).
Proof.
  intros Hs Hl. unfold make_doc_id, MAX_LOCAL_DOC_ID, LOCAL_BITS, in_u in *.
  rewrite (Z.shiftl_1_l 48). destruct (Z.leb_spec l (2 ^ 48 - 1)); [|lia]. f_equal.
  unfold wrap. rewrite Z.mod_small.
  - rewrite Z.lor_comm. apply lor_shiftl_add; lia.
  - rewrite Z.shiftl_mul_pow2 by lia. lia.
Qed.

Lemma shard_of_arith d : in_u 64 d -> shard_of d = mkShardId (d / 2 ^ 48).
Proof.
  intros Hd. unfold shard_of, wrap, LOCAL_BITS, in_u in *. f_equal.
  rewrite Z.shiftr_div_pow2 by lia. apply Z.mod_small. split.
  - apply Z.div_pos; lia.
  - apply Z.div_lt_upper_bound; lia.
Qed.

Lemma local_of_arith d : local_of d = d mod 2 ^ 48.
Proof.
  unfold local_of, LOCAL_BITS. rewrite Z.shiftl_1_l.
  change (2 ^ 48 - 1) with (Z.ones 48). by rewrite Z.land_ones by lia.
Qed.

Lemma encode_position_arith start span :
  0 <= start -> encode_position start span =
    Z.min start (2 ^ 28 - 1) * 16 + (clamp span 1 16 - 1).
Proof.
  intros Hs. unfold encode_position, SPAN_BITS, MAX_SPAN, wrap, SPAN_BITS, clamp.
  change (Z.shiftr (u_max 32) 4) with (2 ^ 28 - 1). change (Z.shiftl 1 4) with 16.
  rewrite Z.mod_small by (rewrite Z.shiftl_mul_pow2 by lia; lia).
  rewrite Z.lor_comm, lor_shiftl_add by lia. lia.
Qed.

(** *** Inverting the hash finaliser *)

(** Multiplicative inverses of the two constants modulo [2^64]. *)
Definition unfmix64 (value : Z) : Z :=
  let value := xorshift33 value in
  let value := wrapping_mul value 0x9cb4b2f8129337db in
  let value := xorshift33 value in
  let value := wrapping_mul value 0x4f74430c22a54005 in
  xorshift33 value.

Lemma xorshift33_range v : in_u 64 v -> in_u 64 (xorshift33 v).
Proof.
  unfold in_u, xorshift33. intros Hv.
  assert (0 <= Z.shiftr v 33) by (apply Z.shiftr_nonneg; lia).
  split; [apply Z.lxor_nonneg; lia|].
  assert (Hlt : Z.lxor v (Z.shiftr v 33) = Z.lxor v (Z.shiftr v 33) mod 2 ^ 64);
    [|rewrite Hlt; apply Z.mod_pos_bound; lia].
  apply Z.bits_inj'. intros i Hi. destruct (Z.lt_ge_cases i 64).
  - by rewrite Z.mod_pow2_bits_low by lia.
  - rewrite Z.mod_pow2_bits_high by lia. rewrite Z.lxor_spec, Z.shiftr_spec by lia.
    rewrite <-(Z.mod_small v (2 ^ 64)) by lia. by rewrite !Z.mod_pow2_bits_high by lia.
Qed.

Lemma xorshift33_involutive v : in_u 64 v -> xorshift33 (xorshift33 v) = v.
Proof.
  unfold in_u, xorshift33. intros Hv. apply Z.bits_inj'. intros i Hi.
  rewrite !Z.lxor_spec, !Z.shiftr_spec by lia. rewrite Z.lxor_spec, Z.shiftr_spec by lia.
  replace (Z.testbit v (i + 33 + 33)) with false.
  - rewrite xorb_false_r, xorb_assoc, xorb_nilpotent. apply xorb_false_r.
  - rewrite <-(Z.mod_small v (2 ^ 64)) by lia. by rewrite Z.mod_pow2_bits_high by lia.
Qed.

Lemma wrapping_mul_range x y : in_u 64 (wrapping_mul x y).
Proof. apply Z.mod_pos_bound. lia. Qed.

Lemma wrapping_mul_inverse c c' v :
  (c * c') mod 2 ^ 64 = 1 -> in_u 64 v -> wrapping_mul (wrapping_mul v c) c' = v.
Proof.
  intros Hc Hv. unfold wrapping_mul, wrap.
  rewrite Z.mul_mod_idemp_l by lia. rewrite <-Z.mul_assoc, <-Z.mul_mod_idemp_r by lia.
  rewrite Hc, Z.mul_1_r. apply Z.mod_small, Hv.
Qed.

Lemma unfmix64_fmix64 v : in_u 64 v -> unfmix64 (fmix64 v) = v.
Proof.
  intros Hv. unfold unfmix64, fmix64; cbv zeta.
  rewrite xorshift33_involutive by apply wrapping_mul_range.
  rewrite wrapping_mul_inverse by (done || by apply xorshift33_range, wrapping_mul_range).
  rewrite xorshift33_involutive by apply wrapping_mul_range.
  rewrite wrapping_mul_inverse by (done || by apply xorshift33_range).
  by apply xorshift33_involutive.
Qed.

Lemma fmix64_unfmix64 v : in_u 64 v -> fmix64 (unfmix64 v) = v.
Proof.
  intros Hv. unfold unfmix64, fmix64; cbv zeta.
  rewrite xorshift33_involutive by apply wrapping_mul_range.
  rewrite wrapping_mul_inverse by (done || by apply xorshift33_range, wrapping_mul_range).
  rewrite xorshift33_involutive by apply wrapping_mul_range.
  rewrite wrapping_mul_inverse by (done || by apply xorshift33_range).
  by apply xorshift33_involutive.
Qed.

Lemma fmix64_range v : in_u 64 v -> in_u 64 (fmix64 v).
Proof. intros. by apply xorshift33_range, wrapping_mul_range. Qed.

(** ** Main theorems *)

(** Packing a 16-bit shard number and a 48-bit local id gives a [u64] from which both
    parts are read back, unpacking and packing any [u64] is the identity, and within one
    shard the packed ids are ordered as the local ids. *)
Theorem doc_id_packing s l d :
  in_u 16 (shard_num s) -> 0 <= l <= MAX_LOCAL_DOC_ID -> in_u 64 d ->
  (exists p, make_doc_id s l = Some p /\ in_u 64 p /\ shard_of p = s /\ local_of p = l) /\
  make_doc_id (shard_of d) (local_of d) = Some d /\
  (forall l', l < l' <= MAX_LOCAL_DOC_ID ->
     exists p p', make_doc_id s l = Some p /\ make_doc_id s l' = Some p' /\ p < p').
Proof.
  intros Hs Hl Hd. assert (Hm : MAX_LOCAL_DOC_ID = 2 ^ 48 - 1) by done.
  rewrite Hm in *. split; [|split].
  - unfold in_u in Hs. assert (Hp : in_u 64 (l + shard_num s * 2 ^ 48)) by (unfold in_u; lia).
    exists (l + shard_num s * 2 ^ 48). split; [by apply make_doc_id_arith; [|lia]|].
    split; [done|]. rewrite shard_of_arith, local_of_arith by done.
    rewrite Z.div_add, Z.mod_add, Z.mod_small, Z.div_small by lia. by destruct s.
  - assert (0 <= d / 2 ^ 48 < 2 ^ 16) as Hq.
    { unfold in_u in Hd. split; [apply Z.div_pos; lia|apply Z.div_lt_upper_bound; lia]. }
    rewrite shard_of_arith, local_of_arith by done. rewrite make_doc_id_arith; simpl.
    + f_equal. rewrite (Z.div_mod d (2 ^ 48)) at 3 by lia. lia.
    + exact Hq.
    + apply Z.mod_pos_bound. lia.
  - intros l' Hl'. eexists _, _. rewrite !make_doc_id_arith by (done || lia).
    split; [done|]. split; [done|]. lia.
Qed.

Lemma doc_id_packing_witness :
  exists p, make_doc_id (mkShardId 7) 12345 = Some p /\ in_u 64 p /\
    shard_of p = mkShardId 7 /\ local_of p = 12345.
Proof.
  apply (doc_id_packing (mkShardId 7) 12345 0); (split; vm_compute; congruence).
Defined.

(** A stored position keeps the start (capped at [2^28 - 1]) and the span (clamped to
    1..16) of its token, fits in a [u32], and stored positions are ordered by start first. *)
Theorem position_packing start span start' span' :
  in_u 32 start -> in_u 32 span -> in_u 32 start' ->
  in_u 32 (encode_position start span) /\
  position_start (encode_position start span) = Z.min start (2 ^ 28 - 1) /\
  position_span (encode_position start span) = clamp span 1 MAX_SPAN /\
  (start < start' < 2 ^ 28 -> encode_position start span < encode_position start' span').
Proof.
  unfold in_u, position_start, position_span. intros Hs Hp Hs'.
  rewrite !encode_position_arith by lia. unfold SPAN_BITS, MAX_SPAN, SPAN_BITS, clamp.
  change (Z.shiftl 1 4) with 16. rewrite Z.shiftr_div_pow2 by lia.
  change (16 - 1) with (Z.ones 4). rewrite Z.land_ones by lia. change (2 ^ 4) with 16.
  split; [lia|]. split; [|split].
  - rewrite Z.div_add_l, Z.div_small by lia. lia.
  - rewrite (Z.add_comm (_ * 16)), Z.mod_add, Z.mod_small by lia. lia.
  - lia.
Qed.

Lemma position_packing_witness :
  position_start (encode_position 77 2) = Z.min 77 (2 ^ 28 - 1) /\
  encode_position 77 2 < encode_position 78 1.
Proof.
  destruct (position_packing 77 2 78 1) as (_ & H2 & _ & H4);
    [split; vm_compute; congruence..|].
  split; [exact H2|]. apply H4. split; vm_compute; congruence.
Defined.

(** The finaliser of the stable hash permutes the 64-bit integers: it stays in range and
    has an inverse, so distinct FNV digests stay distinct. *)
Theorem fmix64_permutation v :
  in_u 64 v ->
  in_u 64 (fmix64 v) /\ unfmix64 (fmix64 v) = v /\ fmix64 (unfmix64 v) = v.
Proof.
  intros Hv. split; [by apply fmix64_range|].
  split; [by apply unfmix64_fmix64|by apply fmix64_unfmix64].
Qed.

Lemma fmix64_permutation_witness : unfmix64 (fmix64 (fnv1a64 [97; 98])) = fnv1a64 [97; 98].
Proof.
  destruct (fmix64_permutation (fnv1a64 [97; 98])) as (_ & H & _);
    [split; vm_compute; congruence|exact H].
Defined.
