(* ===== verification/Posting.v ===== *)
(** * Postings, posting lists and tombstones

    Models [posting/item.rs], [posting/list.rs] and [posting/deleted.rs] of
    [crates/core-index/src].  A posting list is kept sorted by document id, one posting
    per document, with the largest weight beside it; [DeleteSet] filters it. *)
From Stdlib Require Import ZArith Lia.
From stdpp Require Import base numbers list sorting gmap.
From S2P Require Import Prelude Types.

(** ** Data *)

Record Posting : Type := mkPosting {
  doc_id : DocId;
  positions : list Position;
  weight : Z
}.

#[global] Instance Posting_eq_dec : EqDecision Posting.
Proof. solve_decision. Defined.

Definition Posting_new (d : DocId) (ps : list Position) : Posting := mkPosting d ps 0.
Definition Posting_with_weight (d : DocId) (ps : list Position) (w : Z) : Posting :=
  mkPosting d ps w.

Record PostingList : Type := mkPostingList {
  items : list Posting;
  max_weight : Z
}.

#[global] Instance PostingList_eq_dec : EqDecision PostingList.
Proof. solve_decision. Defined.

Definition PostingList_new : PostingList := mkPostingList [] 0.

(** ** Operations of [PostingList] *)

(** Appends [extra]; the fast path applies when [positions] ends at or before [extra]. *)
Definition extend_positions_sorted (ps extra : list Position) : list Position :=
  let fast :=
    match last ps with
    | None => true
    | Some l => match extra with [] => false | f :: _ => l <=? f end
    end in
  if fast then ps ++ extra else dedup (sort_unstable (ps ++ extra)).

Definition weights_max (l : list Posting) : Z := foldr (fun p m => Z.max (weight p) m) 0 l.

(** [items.windows(2).any(|w| w[0].doc_id == w[1].doc_id)] *)
Fixpoint has_duplicates (l : list Posting) : bool :=
  match l with
  | p :: (q :: _) as l' => (doc_id p =? doc_id q) || has_duplicates l'
  | _ => false
  end.

(** One posting folded into the previous one of the same document. *)
Definition merge_posting (last item : Posting) : Posting :=
  mkPosting (doc_id last) (dedup (sort_unstable (positions last ++ positions item)))
    (Z.max (weight last) (weight item)).

(** The loop of [from_sorted]: [last] is the last element of [merged]. *)
Fixpoint merge_loop (last : Posting) (l : list Posting) : list Posting :=
  match l with
  | [] => [last]
  | item :: l' =>
    if doc_id last =? doc_id item then merge_loop (merge_posting last item) l'
    else last :: merge_loop item l'
  end.

Definition merge_duplicates (l : list Posting) : list Posting :=
  match l with [] => [] | p :: l' => merge_loop p l' end.

Definition from_sorted (l : list Posting) : PostingList :=
  if negb (has_duplicates l) then mkPostingList l (weights_max l)
  else let merged := merge_duplicates l in mkPostingList merged (weights_max merged).

Definition from_sorted_with_max_weight (l : list Posting) (w : Z) : PostingList :=
  mkPostingList l w.

Definition from_items (l : list Posting) : PostingList :=
  from_sorted (if is_sorted_by_key doc_id l then l else sort_by_key doc_id l).

(** [items.insert(index, x)] for [index <= len]. *)
Definition vec_insert {A} (i : nat) (x : A) (l : list A) : list A := take i l ++ x :: drop i l.

(** Updates the last element ([last_mut]). *)
Definition update_last {A} (f : A -> A) (l : list A) : list A :=
  match last l with Some x => take (length l - 1) l ++ [f x] | None => l end.

(** The common body of [insert] and [insert_posting]: [upd] updates an existing posting of
    [d] and [fresh] is the posting pushed or inserted when there is none. *)
Definition upsert (upd : Posting -> Posting) (fresh : Posting) (d : DocId)
    (l : list Posting) : list Posting :=
  let search := match binary_search_by_key doc_id d l with
                | inl index => alter upd index l
                | inr index => vec_insert index fresh l
                end in
  match last l with
  | Some p =>
    if doc_id p =? d then update_last upd l
    else if doc_id p <? d then l ++ [fresh]
    else search
  | None => search
  end.

Definition PostingList_insert (self : PostingList) (d : DocId) (position : Position) (w : Z) : PostingList :=
  mkPostingList
    (upsert (fun p => mkPosting (doc_id p) (positions p ++ [position]) (Z.max (weight p) w))
       (Posting_with_weight d [position] w) d (items self))
    (Z.max (max_weight self) w).

Definition retain (keep : Posting -> bool) (self : PostingList) : PostingList :=
  mkPostingList (filter (fun p => keep p = true) (items self)) (max_weight self).

Definition insert_posting (self : PostingList) (d : DocId) (ps : list Position) (w : Z)
    : PostingList :=
  match ps with
  | [] => self
  | _ =>
    let ps := dedup (sort_unstable ps) in
    mkPostingList
      (upsert (fun p => mkPosting (doc_id p) (extend_positions_sorted (positions p) ps)
                          (Z.max (weight p) w))
         (Posting_with_weight d ps w) d (items self))
      (Z.max (max_weight self) w)
  end.

Definition PostingList_append (self other : PostingList) : PostingList :=
  match items other, items self with
  | [], _ => self
  | _, [] => other
  | first :: _, _ =>
    match last (items self) with
    | Some l =>
      if doc_id l <? doc_id first then
        mkPostingList (items self ++ items other) (Z.max (max_weight self) (max_weight other))
      else from_items (items self ++ items other)
    | None => other
    end
  end.

(** ** [DeleteSet] *)

Record DeleteSet : Type := mkDeleteSet { deleted : gset Z }.

Definition DeleteSet_new : DeleteSet := mkDeleteSet ∅.
Definition DeleteSet_is_empty (s : DeleteSet) : bool := bool_decide (deleted s = ∅).
Definition delete_doc (s : DeleteSet) (d : DocId) : DeleteSet :=
  mkDeleteSet ({[d]} ∪ deleted s).
Definition is_deleted (s : DeleteSet) (d : DocId) : bool := bool_decide (d ∈ deleted s).

Definition filter_in_place (s : DeleteSet) (l : PostingList) : PostingList :=
  if DeleteSet_is_empty s then l
  else retain (fun p => negb (is_deleted s (doc_id p))) l.

Definition DeleteSet_filter (s : DeleteSet) (l : PostingList) : PostingList :=
  if DeleteSet_is_empty s then l
  else from_sorted (filter (fun p => negb (is_deleted s (doc_id p)) = true) (items l)).

(** ** Specification vocabulary *)

(** The first posting of document [d]. *)
Definition posting_of (d : DocId) (l : list Posting) : option Posting :=
  head (filter (fun p => doc_id p = d) l).

Definition docs (l : list Posting) : list DocId := map doc_id l.

(** Sorted by document, one posting per document. *)
Definition docs_ascending (l : list Posting) : Prop := StronglySorted (key_lt doc_id) l.

(** The invariant of a posting list: sorted, and [max_weight] bounds every weight. *)
Record wf_list (pl : PostingList) : Prop := {
  wf_sorted : docs_ascending (items pl);
  wf_weight : Forall (fun p => weight p <= max_weight pl) (items pl)
}.

(** The positions of every posting ascend. *)
Definition positions_ascending (l : list Posting) : Prop :=
  Forall (fun p => StronglySorted Z.le (positions p)) l.

(** What merging makes of the postings of one document. *)
Definition merge_all (l : list Posting) : option Posting :=
  match l with [] => None | p :: l' => Some (fold_left merge_posting l' p) end.

(** ** Lemmas *)

Lemma docs_ascending_app l1 l2 :
  docs_ascending (l1 ++ l2) <->
  (forall p q, p ∈ l1 -> q ∈ l2 -> doc_id p < doc_id q) /\
  docs_ascending l1 /\ docs_ascending l2.
Proof. unfold docs_ascending. apply StronglySorted_app. Qed.

Lemma weights_max_nonneg l : 0 <= weights_max l.
Proof. induction l; simpl; lia. Qed.

Lemma weights_max_ge l : Forall (fun p => weight p <= weights_max l) l.
Proof.
  induction l as [|p l IH]; simpl; constructor; [lia|].
  eapply Forall_impl; [exact IH|]. simpl. intros; lia.
Qed.

Lemma filter_doc_none d l :
  Forall (fun p => doc_id p <> d) l -> filter (fun p => doc_id p = d) l = [].
Proof.
  induction 1 as [|p l Hp _ IH]; [done|]. by rewrite filter_cons, decide_False.
Qed.

(** In a list sorted by document the postings of a document are at most one. *)
Lemma ascending_filter d l p :
  docs_ascending l -> p ∈ l -> doc_id p = d -> filter (fun q => doc_id q = d) l = [p].
Proof.
  induction 1 as [|q l Hs IH Hq]; intros Hp Hd; [by apply elem_of_nil in Hp|].
  rewrite Forall_forall in Hq. apply elem_of_cons in Hp as [->|Hp]; rewrite filter_cons.
  - rewrite decide_True by done. f_equal. apply filter_doc_none, Forall_forall.
    intros r Hr. specialize (Hq r Hr). unfold key_lt in Hq. lia.
  - rewrite decide_False; [by apply IH|]. specialize (Hq p Hp). unfold key_lt in Hq. lia.
Qed.

Lemma posting_of_app d l1 l2 :
  posting_of d (l1 ++ l2) = match posting_of d l1 with Some p => Some p | None => posting_of d l2 end.
Proof. unfold posting_of. rewrite filter_app. by destruct (filter _ l1). Qed.

Lemma posting_of_Some d l p : posting_of d l = Some p -> p ∈ l /\ doc_id p = d.
Proof.
  unfold posting_of. intros H. apply head_Some_elem_of in H.
  apply list_elem_of_filter in H. naive_solver.
Qed.

Lemma posting_of_None d l : posting_of d l = None <-> Forall (fun p => doc_id p <> d) l.
Proof.
  unfold posting_of. split.
  - induction l as [|p l IH]; [constructor|]. rewrite filter_cons. case_decide; [done|].
    constructor; auto.
  - intros H. by rewrite filter_doc_none.
Qed.

Lemma posting_of_ascending l p :
  docs_ascending l -> p ∈ l -> posting_of (doc_id p) l = Some p.
Proof. intros Hs Hp. unfold posting_of. by rewrite (ascending_filter _ _ p). Qed.

Lemma elem_of_docs d l : d ∈ docs l <-> is_Some (posting_of d l).
Proof.
  split.
  - intros H. destruct (posting_of d l) eqn:E; [by eexists|].
    apply posting_of_None in E. rewrite Forall_forall in E.
    apply list_elem_of_fmap in H as (p & -> & Hp). by destruct (E p Hp).
  - intros [p Hp]. apply posting_of_Some in Hp as [Hp <-].
    apply list_elem_of_fmap. eauto.
Qed.

(** *** [extend_positions_sorted] *)

Lemma elem_of_extend_positions x ps extra :
  x ∈ extend_positions_sorted ps extra <-> x ∈ ps \/ x ∈ extra.
Proof.
  unfold extend_positions_sorted. cbv zeta.
  destruct (match last ps with Some _ => _ | None => true end).
  - apply elem_of_app.
  - autorewrite with riets. apply elem_of_app.
Qed.

Lemma last_sorted_le ps x l :
  StronglySorted Z.le ps -> last ps = Some l -> x ∈ ps -> x <= l.
Proof.
  induction 1 as [|y ps Hs IH Hy]; intros Hl Hx; [by apply elem_of_nil in Hx|].
  destruct ps as [|z ps].
  - simpl in Hl. injection Hl as ->. apply list_elem_of_singleton in Hx. lia.
  - change (last (z :: ps) = Some l) in Hl. apply elem_of_cons in Hx as [->|Hx]; [|by apply IH].
    rewrite Forall_forall in Hy. apply Hy. by apply last_Some_elem_of in Hl.
Qed.

Lemma extend_positions_ascending ps extra :
  StronglySorted Z.le ps -> StronglySorted Z.le extra ->
  StronglySorted Z.le (extend_positions_sorted ps extra).
Proof.
  intros Hp He. unfold extend_positions_sorted. cbv zeta.
  destruct (last ps) as [l|] eqn:El.
  - destruct extra as [|f extra]; [auto with riets|].
    destruct (Z.leb_spec l f) as [Hle|]; [|auto with riets].
    apply StronglySorted_app. split; [|by split]. intros x y Hx Hy.
    pose proof (last_sorted_le ps x l Hp El Hx).
    apply StronglySorted_cons in He as [He _]. rewrite Forall_forall in He.
    apply elem_of_cons in Hy as [->|Hy]; [lia|]. specialize (He _ Hy). lia.
  - apply last_None in El as ->. done.
Qed.

(** *** [upsert] *)

Lemma update_last_spec {A} (f : A -> A) l x : update_last f (l ++ [x]) = l ++ [f x].
Proof.
  unfold update_last. rewrite last_snoc, length_app. simpl.
  replace (length l + 1 - 1)%nat with (length l) by lia. by rewrite take_app_length.
Qed.

Lemma alter_middle {A} (f : A -> A) l1 x l2 :
  alter f (length l1) (l1 ++ x :: l2) = l1 ++ f x :: l2.
Proof. induction l1 as [|y l1 IH]; simpl; [done|]. f_equal. exact IH. Qed.

(** [upsert] splits the list around the document: its posting is replaced or inserted. *)
Lemma upsert_split upd fresh d l :
  docs_ascending l ->
  (exists l1 p l2, l = l1 ++ p :: l2 /\ doc_id p = d /\ upsert upd fresh d l = l1 ++ upd p :: l2) \/
  (exists l1 l2, l = l1 ++ l2 /\ Forall (fun p => doc_id p < d) l1 /\
     Forall (fun p => d < doc_id p) l2 /\ upsert upd fresh d l = l1 ++ fresh :: l2).
Proof.
  intros Hs. pose proof (StronglySorted_lt_le doc_id l Hs) as Hle.
  assert (Hsearch : forall r, r = match binary_search_by_key doc_id d l with
                | inl index => alter upd index l
                | inr index => vec_insert index fresh l
                end ->
    (exists l1 p l2, l = l1 ++ p :: l2 /\ doc_id p = d /\ r = l1 ++ upd p :: l2) \/
    (exists l1 l2, l = l1 ++ l2 /\ Forall (fun p => doc_id p < d) l1 /\
       Forall (fun p => d < doc_id p) l2 /\ r = l1 ++ fresh :: l2)).
  { intros r ->. unfold binary_search_by_key.
    destruct (binary_search_by_spec _ l (cmp_sorted_key doc_id d l Hle))
      as [(i & p & -> & Hi & He)|[-> Hne]].
    - left. apply Z.compare_eq in He. exists (take i l), p, (drop (S i) l).
      pose proof (take_drop_middle l i p Hi) as E. split; [done|]. split; [done|].
      rewrite <-E at 1. rewrite <-(alter_middle upd). f_equal.
      rewrite length_take. apply lookup_lt_Some in Hi. lia.
    - right. set (pr := fun x => match doc_id x ?= d with Lt => true | _ => false end) in *.
      exists (take (count_while pr l) l), (drop (count_while pr l) l).
      split; [by rewrite take_drop|]. split; [|split; [|done]].
      + apply Forall_lookup. intros i x Hi. apply lookup_take_Some in Hi as [Hi Hlt].
        pose proof (count_while_prefix pr l i x Hlt Hi) as E. unfold pr in E.
        by destruct (Z.compare_spec (doc_id x) d).
      + apply Forall_lookup. intros i x Hi. rewrite lookup_drop in Hi.
        pose proof (partitioned_suffix pr l _ x (proj1 (cmp_sorted_key doc_id d l Hle)) Hi
                      ltac:(lia)) as E. unfold pr in E.
        rewrite Forall_forall in Hne. specialize (Hne x (list_elem_of_lookup_2 _ _ _ Hi)).
        by destruct (Z.compare_spec (doc_id x) d). }
  unfold upsert; cbv zeta. destruct (last l) as [p|] eqn:El; [|by apply Hsearch].
  apply last_Some in El as [l' ->]. destruct (Z.eqb_spec (doc_id p) d) as [Hd|Hd].
  - left. exists l', p, []. by rewrite update_last_spec.
  - destruct (Z.ltb_spec (doc_id p) d) as [Hlt|]; [|by apply Hsearch].
    right. exists (l' ++ [p]), []. rewrite app_nil_r. split; [done|].
    split; [|by split; [constructor|]]. apply docs_ascending_app in Hs as (Hs & _ & _).
    apply Forall_app. split; [|by constructor]. apply Forall_forall. intros q Hq.
    specialize (Hs q p Hq ltac:(left)). lia.
Qed.

Section upsert.
Context (upd : Posting -> Posting) (fresh : Posting) (d : DocId).
Context (Hupd : forall p, doc_id (upd p) = doc_id p) (Hfresh : doc_id fresh = d).

Lemma upsert_ascending l : docs_ascending l -> docs_ascending (upsert upd fresh d l).
Proof using Hupd Hfresh.
  intros Hs. destruct (upsert_split upd fresh d l Hs)
    as [(l1 & p & l2 & -> & Hp & ->)|(l1 & l2 & -> & H1 & H2 & ->)];
    apply docs_ascending_app in Hs as (Hs & Hs1 & Hs2); apply docs_ascending_app.
  - apply StronglySorted_cons in Hs2 as [Hp2 Hs2]. split; [|split; [done|]].
    + intros q r Hq Hr. apply elem_of_cons in Hr as [->|Hr].
      * rewrite Hupd. apply Hs; [done|left].
      * apply Hs; [done|by right].
    + constructor; [done|]. eapply Forall_impl; [exact Hp2|].
      unfold key_lt. intros q Hq. by rewrite Hupd.
  - rewrite Forall_forall in H1. split; [|split; [done|]].
    + intros q r Hq Hr. apply elem_of_cons in Hr as [->|Hr]; [|by apply Hs].
      rewrite Hfresh. by apply H1.
    + constructor; [done|]. eapply Forall_impl; [exact H2|].
      unfold key_lt. intros q Hq. by rewrite Hfresh.
Qed.

(** Lookup after [upsert]. *)
Lemma upsert_lookup l d' :
  docs_ascending l ->
  posting_of d' (upsert upd fresh d l) =
    if d' =? d then Some (match posting_of d l with Some p => upd p | None => fresh end)
    else posting_of d' l.
Proof using Hupd Hfresh.
  intros Hs. destruct (upsert_split upd fresh d l Hs)
    as [(l1 & p & l2 & -> & Hp & ->)|(l1 & l2 & -> & H1 & H2 & ->)]; rewrite !posting_of_app.
  - assert (Hl1 : posting_of d l1 = None).
    { apply posting_of_None, Forall_forall. intros q Hq.
      apply docs_ascending_app in Hs as (Hs & _). specialize (Hs q p Hq ltac:(left)). lia. }
    destruct (Z.eqb_spec d' d) as [->|Hne].
    + rewrite Hl1. unfold posting_of. rewrite !filter_cons.
      rewrite decide_True by (rewrite Hupd; done). by rewrite decide_True.
    + destruct (posting_of d' l1); [done|]. unfold posting_of. rewrite !filter_cons.
      rewrite decide_False by (rewrite Hupd; lia). by rewrite decide_False by lia.
  - assert (posting_of d l1 = None) as Hl1.
    { apply posting_of_None. eapply Forall_impl; [exact H1|]. simpl. intros; lia. }
    assert (posting_of d l2 = None) as Hl2.
    { apply posting_of_None. eapply Forall_impl; [exact H2|]. simpl. intros; lia. }
    destruct (Z.eqb_spec d' d) as [->|Hne].
    + rewrite Hl1, Hl2. unfold posting_of. by rewrite filter_cons, decide_True.
    + destruct (posting_of d' l1); [done|]. unfold posting_of.
      by rewrite filter_cons, decide_False by lia.
Qed.

Lemma upsert_Forall (P : Posting -> Prop) l :
  docs_ascending l -> (forall p, P p -> P (upd p)) -> P fresh -> Forall P l ->
  Forall P (upsert upd fresh d l).
Proof using Type.
  clear Hupd Hfresh. intros Hs HP Hf Hl. destruct (upsert_split upd fresh d l Hs)
    as [(l1 & p & l2 & -> & Hp & ->)|(l1 & l2 & -> & H1 & H2 & ->)];
    rewrite ?Forall_app, ?Forall_cons in *; naive_solver.
Qed.
End upsert.

(** *** Merging duplicates *)

Lemma doc_id_merge p q : doc_id (merge_posting p q) = doc_id p.
Proof. done. Qed.

Definition option_list {A} (o : option A) : list A :=
  match o with Some x => [x] | None => [] end.

Lemma merge_loop_filter d p l :
  StronglySorted (key_le doc_id) (p :: l) ->
  filter (fun q => doc_id q = d) (merge_loop p l) =
    option_list (merge_all (filter (fun q => doc_id q = d) (p :: l))).
Proof.
  revert p. induction l as [|q l IH]; intros p Hs.
  - simpl. rewrite filter_cons. by case_decide.
  - cbn [merge_loop]. apply StronglySorted_cons in Hs as [Hp Hs].
    pose proof Hs as Hs'. apply StronglySorted_cons in Hs' as [Hq Hl].
    apply Forall_cons in Hp as [Hpq Hpl]. unfold key_le in Hpq.
    destruct (Z.eqb_spec (doc_id p) (doc_id q)) as [E|E].
    + rewrite IH by (constructor; [done|]; eapply Forall_impl; [exact Hpl|]; done).
      rewrite !filter_cons. rewrite doc_id_merge. rewrite <-E. by case_decide.
    + rewrite filter_cons, IH by done. rewrite (filter_cons _ p). case_decide as Hd; [|done].
      rewrite (filter_doc_none d (q :: l)); [done|].
      constructor; [lia|]. eapply Forall_impl; [exact Hq|]. unfold key_le. simpl. intros; lia.
Qed.

Lemma merge_loop_docs_ge p l q :
  StronglySorted (key_le doc_id) (p :: l) -> q ∈ merge_loop p l -> doc_id p <= doc_id q.
Proof.
  revert p. induction l as [|r l IH]; intros p Hs Hq; simpl in Hq.
  - apply list_elem_of_singleton in Hq as ->. lia.
  - apply StronglySorted_cons in Hs as [Hp Hs]. apply Forall_cons in Hp as [Hpr Hpl].
    unfold key_le in Hpr. destruct (Z.eqb_spec (doc_id p) (doc_id r)) as [E|E].
    + apply (IH (merge_posting p r)); [|done]. apply StronglySorted_cons in Hs as [_ Hs].
      by constructor.
    + apply elem_of_cons in Hq as [->|Hq]; [lia|]. specialize (IH r Hs Hq). lia.
Qed.

Lemma merge_loop_ascending p l :
  StronglySorted (key_le doc_id) (p :: l) -> docs_ascending (merge_loop p l).
Proof.
  revert p. induction l as [|q l IH]; intros p Hs; cbn [merge_loop]; [repeat constructor|].
  apply StronglySorted_cons in Hs as [Hp Hs]. apply Forall_cons in Hp as [Hpq Hpl].
  unfold key_le in Hpq. destruct (Z.eqb_spec (doc_id p) (doc_id q)) as [E|E].
  - apply IH. apply StronglySorted_cons in Hs as [_ Hs]. by constructor.
  - constructor; [by apply IH|]. apply Forall_forall. intros r Hr.
    pose proof (merge_loop_docs_ge q l r Hs Hr). unfold key_lt. lia.
Qed.

Lemma weights_max_merge_loop p l : weights_max (merge_loop p l) = weights_max (p :: l).
Proof.
  revert p. induction l as [|q l IH]; intros p; cbn [merge_loop]; [done|].
  destruct (doc_id p =? doc_id q).
  - rewrite IH. simpl. lia.
  - change (weights_max (p :: merge_loop q l)) with (Z.max (weight p) (weights_max (merge_loop q l))).
    by rewrite IH.
Qed.

Lemma merge_loop_nodup p l : has_duplicates (p :: l) = false -> merge_loop p l = p :: l.
Proof.
  revert p. induction l as [|q l IH]; intros p H; [done|].
  cbn [has_duplicates merge_loop] in *. apply orb_false_iff in H as [-> H]. by rewrite IH.
Qed.

Lemma from_sorted_eq l :
  from_sorted l = mkPostingList (merge_duplicates l) (weights_max l).
Proof.
  unfold from_sorted. destruct l as [|p l]; [done|]. cbn [merge_duplicates].
  rewrite weights_max_merge_loop. destruct (has_duplicates (p :: l)) eqn:E; [done|].
  simpl negb. cbv iota. by rewrite merge_loop_nodup.
Qed.

Lemma from_items_eq l : from_items l = from_sorted (sort_by_key doc_id l).
Proof.
  unfold from_items. destruct (is_sorted_by_key doc_id l) eqn:E; [|done].
  apply is_sorted_by_key_spec in E. by rewrite sort_by_key_id.
Qed.

Lemma merge_duplicates_ascending l :
  StronglySorted (key_le doc_id) l -> docs_ascending (merge_duplicates l).
Proof. destruct l; [constructor|apply merge_loop_ascending]. Qed.

Lemma merge_duplicates_lookup d l :
  StronglySorted (key_le doc_id) l ->
  posting_of d (merge_duplicates l) = merge_all (filter (fun q => doc_id q = d) l).
Proof.
  destruct l as [|p l]; intros Hs; [done|]. unfold posting_of. cbn [merge_duplicates].
  rewrite merge_loop_filter by done. by destruct (merge_all _).
Qed.

Lemma merge_duplicates_id l : docs_ascending l -> merge_duplicates l = l.
Proof.
  destruct l as [|p l]; [done|]. intros Hs. apply merge_loop_nodup.
  revert p Hs. induction l as [|q l IH]; intros p Hs; [done|].
  apply StronglySorted_cons in Hs as [Hp Hs]. apply Forall_cons in Hp as [Hp _].
  change ((doc_id p =? doc_id q) || has_duplicates (q :: l) = false).
  rewrite (IH q Hs). unfold key_lt in Hp.
  destruct (Z.eqb_spec (doc_id p) (doc_id q)); [lia|done].
Qed.

Lemma from_sorted_wf l : StronglySorted (key_le doc_id) l -> wf_list (from_sorted l).
Proof.
  intros Hs. rewrite from_sorted_eq. split; simpl.
  - by apply merge_duplicates_ascending.
  - replace (weights_max l) with (weights_max (merge_duplicates l)); [apply weights_max_ge|].
    destruct l; [done|]. apply weights_max_merge_loop.
Qed.

Lemma weights_max_perm l l' : l ≡ₚ l' -> weights_max l = weights_max l'.
Proof. induction 1; simpl; lia. Qed.

Lemma from_sorted_ascending l :
  docs_ascending l -> from_sorted l = mkPostingList l (weights_max l).
Proof. intros. by rewrite from_sorted_eq, merge_duplicates_id. Qed.

Lemma from_items_wf l : wf_list (from_items l).
Proof. rewrite from_items_eq. apply from_sorted_wf, sort_by_key_sorted. Qed.

Lemma from_items_lookup d l :
  posting_of d (items (from_items l)) = merge_all (filter (fun q => doc_id q = d) l).
Proof.
  rewrite from_items_eq, from_sorted_eq. simpl.
  rewrite merge_duplicates_lookup by apply sort_by_key_sorted.
  by rewrite sort_by_key_stable.
Qed.

Lemma from_items_ascending l :
  docs_ascending l -> from_items l = mkPostingList l (weights_max l).
Proof.
  intros Hs. rewrite from_items_eq, sort_by_key_id by auto with riets.
  by apply from_sorted_ascending.
Qed.

Lemma ascending_filter_eq d l :
  docs_ascending l -> filter (fun q => doc_id q = d) l = option_list (posting_of d l).
Proof.
  intros Hs. destruct (posting_of d l) as [p|] eqn:E; simpl.
  - apply posting_of_Some in E as [Hp Hd]. by apply ascending_filter.
  - apply posting_of_None in E. by apply filter_doc_none.
Qed.

(** Two lists sorted by document with the same postings are equal. *)
Lemma ascending_ext l1 l2 :
  docs_ascending l1 -> docs_ascending l2 ->
  (forall d, posting_of d l1 = posting_of d l2) -> l1 = l2.
Proof.
  intros H1 H2 He. apply (stable_sorted_unique doc_id); [auto with riets..|].
  intros d. by rewrite !ascending_filter_eq, He.
Qed.

Lemma filter_ascending (P : Posting -> Prop) `{!forall p, Decision (P p)} l :
  docs_ascending l -> docs_ascending (filter P l).
Proof.
  induction 1 as [|p l Hs IH Hp]; [constructor|]. rewrite filter_cons. case_decide; [|done].
  constructor; [done|]. rewrite Forall_forall in *. intros q Hq.
  apply list_elem_of_filter in Hq as [_ Hq]. by apply Hp.
Qed.

Lemma filter_wf (P : Posting -> Prop) `{!forall p, Decision (P p)} l w :
  docs_ascending l -> Forall (fun p => weight p <= w) l ->
  wf_list (mkPostingList (filter P l) w).
Proof.
  intros Hs Hw. split; simpl; [by apply filter_ascending|].
  rewrite Forall_forall in *. intros q Hq. apply list_elem_of_filter in Hq as [_ Hq]. auto.
Qed.

Lemma weights_max_filter (P : Posting -> Prop) `{!forall p, Decision (P p)} l :
  weights_max (filter P l) <= weights_max l.
Proof. induction l as [|p l IH]; [done|]. rewrite filter_cons. case_decide; simpl; lia. Qed.

Lemma weights_max_le l w : 0 <= w -> Forall (fun p => weight p <= w) l -> weights_max l <= w.
Proof. intros Hw. induction 1; simpl; lia. Qed.

#[export] Hint Resolve from_items_wf from_sorted_wf : riets.

(** ** Main theorems *)

Lemma insert_posting_spec pl d ps w :
  wf_list pl -> ps <> [] ->
  wf_list (insert_posting pl d ps w) /\
  (positions_ascending (items pl) -> positions_ascending (items (insert_posting pl d ps w))) /\
  (forall d', d' <> d ->
     posting_of d' (items (insert_posting pl d ps w)) = posting_of d' (items pl)) /\
  (exists p, posting_of d (items (insert_posting pl d ps w)) = Some p /\
     (forall x, x ∈ positions p <->
        x ∈ ps \/ exists q, posting_of d (items pl) = Some q /\ x ∈ positions q) /\
     weight p = match posting_of d (items pl) with
                | Some q => Z.max (weight q) w | None => w end).
Proof.
  intros [Hs Hw] Hne. unfold insert_posting. destruct ps as [|x0 ps0]; [done|].
  set (ps := x0 :: ps0). cbv zeta. split; [|split; [|split]].
  - split; simpl; [by apply upsert_ascending|]. 
    apply (upsert_Forall _ _ _ (fun p => weight p <= Z.max (max_weight pl) w));
      [done|intros p Hp; cbn in *; lia|cbn; lia|].
    eapply Forall_impl; [exact Hw|]. simpl. intros; lia.
  - assert (Hps : StronglySorted Z.le (dedup (sort_unstable ps))) by auto with riets.
    intros Hp. apply upsert_Forall; [done| |exact Hps|done].
    intros p Hpp. apply extend_positions_ascending; auto with riets.
  - intros d' Hd. cbn [items]. rewrite upsert_lookup by done.
    by destruct (Z.eqb_spec d' d).
  - cbn [items]. rewrite upsert_lookup by done. rewrite Z.eqb_refl. eexists. split; [done|].
    destruct (posting_of d (items pl)) as [q|] eqn:Eq; cbn [positions weight]; (split; [|done]).
    + intros x. rewrite elem_of_extend_positions, elem_of_dedup, elem_of_sort_unstable. split.
      * intros [?|?]; [right; by exists q|by left].
      * intros [?|(q' & Hq & ?)]; [by right|]. injection Hq as <-. by left.
    + intros x. change (x ∈ dedup (sort_unstable ps) <->
        x ∈ ps \/ exists q, None = Some q /\ x ∈ positions q).
      rewrite elem_of_dedup, elem_of_sort_unstable. split; [by left|].
      by intros [?|(? & ? & _)].
Qed.

(** Inserting a document's positions keeps the list sorted by document with [max_weight]
    above every weight, keeps ascending positions ascending, leaves every other document
    untouched, and adds exactly the given positions (and the larger weight) to its own. *)
Theorem insert_posting_correct pl d ps w :
  wf_list pl -> ps <> [] ->
  wf_list (insert_posting pl d ps w) /\
  (positions_ascending (items pl) -> positions_ascending (items (insert_posting pl d ps w))) /\
  (forall d', d' <> d ->
     posting_of d' (items (insert_posting pl d ps w)) = posting_of d' (items pl)) /\
  (exists p, posting_of d (items (insert_posting pl d ps w)) = Some p /\
     (forall x, x ∈ positions p <->
        x ∈ ps \/ exists q, posting_of d (items pl) = Some q /\ x ∈ positions q) /\
     weight p = match posting_of d (items pl) with
                | Some q => Z.max (weight q) w | None => w end).
Proof. apply insert_posting_spec. Qed.

Lemma insert_posting_correct_witness :
  wf_list (insert_posting (mkPostingList [mkPosting 3 [1] 5; mkPosting 9 [2] 1] 5) 4 [8; 2; 8] 7).
Proof.
  apply (insert_posting_correct (mkPostingList [mkPosting 3 [1] 5; mkPosting 9 [2] 1] 5)
           4 [8; 2; 8] 7); [|done].
  split; repeat constructor; vm_compute; congruence.
Defined.

(** Building a list from any postings sorts them by document and merges the postings of
    one document, in their order, into one; [max_weight] is the largest weight. *)
Theorem from_items_correct l :
  wf_list (from_items l) /\
  (forall d, posting_of d (items (from_items l)) =
     merge_all (filter (fun q => doc_id q = d) l)) /\
  max_weight (from_items l) = weights_max l.
Proof.
  split; [apply from_items_wf|]. split; [intros; apply from_items_lookup|].
  rewrite from_items_eq, from_sorted_eq. simpl. apply weights_max_perm, sort_by_key_perm.
Qed.

Lemma last_ascending_le l p q :
  docs_ascending l -> last l = Some p -> q ∈ l -> doc_id q <= doc_id p.
Proof.
  intros Hs Hl Hq. apply last_Some in Hl as [l' ->]. apply elem_of_app in Hq as [Hq|Hq].
  - apply docs_ascending_app in Hs as (Hs & _). specialize (Hs q p Hq ltac:(left)). lia.
  - apply list_elem_of_singleton in Hq as ->. lia.
Qed.

Lemma append_spec a b :
  wf_list a -> wf_list b ->
  wf_list (PostingList_append a b) /\
  (forall d, posting_of d (items (PostingList_append a b)) =
     merge_all (option_list (posting_of d (items a)) ++ option_list (posting_of d (items b)))).
Proof.
  intros [Ha Hwa] [Hb Hwb]. unfold PostingList_append.
  destruct (items b) as [|f lb] eqn:Eb.
  { split; [by split|]. intros d. simpl. rewrite app_nil_r. by destruct (posting_of d (items a)). }
  destruct (items a) as [|p la] eqn:Ea.
  { split; [by split; rewrite ?Eb|]. intros d. rewrite Eb. simpl. by destruct (posting_of d _). }
  rewrite <-Ea, <-Eb in *. destruct (last (items a)) as [l|] eqn:El.
  2: { apply last_None in El. congruence. }
  destruct (Z.ltb_spec (doc_id l) (doc_id f)) as [Hlt|Hge].
  - assert (Hcross : forall q r, q ∈ items a -> r ∈ items b -> doc_id q < doc_id r).
    { intros q r Hq Hr. pose proof (last_ascending_le _ _ _ Ha El Hq).
      rewrite Eb in Hr, Hb. apply StronglySorted_cons in Hb as [Hb _].
      rewrite Forall_forall in Hb. apply elem_of_cons in Hr as [->|Hr]; [lia|].
      specialize (Hb r Hr). unfold key_lt in Hb. lia. }
    assert (Hab : docs_ascending (items a ++ items b)) by (by apply docs_ascending_app).
    split; [split|]; simpl.
    + done.
    + apply Forall_app. split; [eapply Forall_impl; [exact Hwa|]|eapply Forall_impl; [exact Hwb|]];
        simpl; intros; lia.
    + intros d. rewrite posting_of_app.
      destruct (posting_of d (items a)) as [q|] eqn:Eqa;
        destruct (posting_of d (items b)) as [r|] eqn:Eqb; simpl; try done.
      apply posting_of_Some in Eqa as [? ?]. apply posting_of_Some in Eqb as [? ?].
      specialize (Hcross q r ltac:(done) ltac:(done)). lia.
  - split; [apply from_items_wf|]. intros d.
    by rewrite from_items_lookup, filter_app, !ascending_filter_eq.
Qed.

(** Appending a newer list to an older one keeps the invariant and gives every document
    the merge of its older and its newer posting, whether or not the document ranges overlap. *)
Theorem append_correct a b :
  wf_list a -> wf_list b ->
  wf_list (PostingList_append a b) /\
  (forall d, posting_of d (items (PostingList_append a b)) =
     merge_all (option_list (posting_of d (items a)) ++ option_list (posting_of d (items b)))).
Proof. apply append_spec. Qed.

Lemma append_correct_witness :
  wf_list (PostingList_append (mkPostingList [mkPosting 3 [1] 5; mkPosting 9 [2] 1] 5)
                              (mkPostingList [mkPosting 4 [1] 2; mkPosting 9 [0] 6] 6)).
Proof.
  apply append_correct; (split; repeat constructor; vm_compute; congruence).
Defined.

Lemma delete_filter_spec s l :
  wf_list l -> 0 <= max_weight l ->
  items (filter_in_place s l) = filter (fun p => doc_id p ∉ deleted s) (items l) /\
  items (DeleteSet_filter s l) = items (filter_in_place s l) /\
  wf_list (filter_in_place s l) /\ wf_list (DeleteSet_filter s l) /\
  max_weight (DeleteSet_filter s l) <= max_weight (filter_in_place s l).
Proof.
  intros [Hs Hw] H0. unfold filter_in_place, DeleteSet_filter, DeleteSet_is_empty.
  assert (Hf : forall l0 : list Posting, filter (fun p => negb (is_deleted s (doc_id p)) = true) l0 =
               filter (fun p => doc_id p ∉ deleted s) l0).
  { intros l0. apply list_filter_iff. intros p. unfold is_deleted.
    rewrite negb_true_iff, bool_decide_eq_false. done. }
  case_bool_decide as He.
  - split; [|split; [done|split; [done|split; [done|lia]]]].
    symmetry. apply filter_all, Forall_forall. intros p _. rewrite He. set_solver.
  - cbn [retain items]. rewrite Hf.
    assert (Ha : docs_ascending (filter (fun p => doc_id p ∉ deleted s) (items l)))
      by (by apply filter_ascending).
    rewrite from_sorted_ascending by done. cbn [items max_weight].
    split; [done|]. split; [done|]. split; [unfold retain; rewrite Hf; by apply filter_wf|].
    split; [split; [done|apply weights_max_ge]|].
    etrans; [apply weights_max_filter|]. by apply weights_max_le.
Qed.

(** Both ways of applying tombstones drop exactly the postings of the deleted documents;
    the in-place one keeps an upper bound for the weights, the copying one the tight bound. *)
Theorem delete_filter_correct s l :
  wf_list l -> 0 <= max_weight l ->
  items (filter_in_place s l) = filter (fun p => doc_id p ∉ deleted s) (items l) /\
  items (DeleteSet_filter s l) = items (filter_in_place s l) /\
  wf_list (filter_in_place s l) /\ wf_list (DeleteSet_filter s l) /\
  max_weight (DeleteSet_filter s l) <= max_weight (filter_in_place s l).
Proof. apply delete_filter_spec. Qed.

Lemma delete_filter_correct_witness :
  items (DeleteSet_filter (delete_doc DeleteSet_new 9)
           (mkPostingList [mkPosting 3 [1] 5; mkPosting 9 [2] 1] 5)) =
  items (filter_in_place (delete_doc DeleteSet_new 9)
           (mkPostingList [mkPosting 3 [1] 5; mkPosting 9 [2] 1] 5)).
Proof.
  apply delete_filter_correct; [|vm_compute; congruence].
  split; repeat constructor; vm_compute; congruence.
Defined.

(** [extend_positions_sorted] is documented to keep the list unique, but its fast path
    accepts [extra] starting at the last position and then keeps both copies. *)
Theorem extend_positions_keeps_duplicate :
  extend_positions_sorted [2; 5] [5; 6] = [2; 5; 5; 6] /\
  items (insert_posting (insert_posting PostingList_new 1 [5] 3) 1 [5] 3)
    = [mkPosting 1 [5; 5] 3].
Proof. split; reflexivity. Qed.
