(* ===== verification/PostingOps.v ===== *)
(** * Cursors over posting lists, intersection and union

    Models [posting/cursor.rs] and [posting/ops.rs] of [crates/core-index/src]: the
    forward-only cursor with its galloping [advance_to], the two intersection strategies
    and the choice between them, and the k-way union over a heap.

    Indices and gallop steps are [nat]: they stay below twice the length of a vector, which
    is below [2^64], so the saturating and shifting steps of the code never saturate. *)
From Stdlib Require Import ZArith Lia.
From stdpp Require Import base numbers list sorting.
From S2P Require Import Prelude Types Posting.

(** ** Galloping search *)

Definition doc_below (target : DocId) (p : Posting) : bool := doc_id p <? target.

(** [while start + bound < len && l[start + bound].doc_id < target { bound *= 2 }] *)
Fixpoint gallop (l : list Posting) (start : nat) (target : DocId)
    (fuel bound : nat) : option nat :=
  match fuel with
  | O => None
  | S fuel' =>
    match l !! (start + bound)%nat with
    | Some p => if doc_below target p then gallop l start target fuel' (bound * 2)%nat
                else Some bound
    | None => Some bound
    end
  end.

(** ** [PostingCursor] *)

Record PostingCursor : Type := mkCursor {
  c_postings : list Posting;
  c_index : nat
}.

Definition cursor_new (l : PostingList) : PostingCursor := mkCursor (items l) 0.
Definition is_exhausted (c : PostingCursor) : bool := (length (c_postings c) <=? c_index c)%nat.
Definition cursor_current (c : PostingCursor) : option Posting := c_postings c !! c_index c.
Definition cursor_doc_id (c : PostingCursor) : option DocId := doc_id <$> cursor_current c.
Definition cursor_next (c : PostingCursor) : PostingCursor :=
  if is_exhausted c then c else mkCursor (c_postings c) (c_index c + 1)%nat.

(** [None] would be an out-of-range access or a loop that does not end;
    [advance_to_spec] rules both out. *)
Definition advance_to_raw (c : PostingCursor) (target : DocId) : option PostingCursor :=
  let l := c_postings c in
  match l !! c_index c with
  | None => Some c
  | Some p =>
    if target <=? doc_id p then Some c
    else
      let start := c_index c in
      match gallop l start target (S (length l)) 1%nat with
      | None => None
      | Some bound =>
        let left := (start + bound / 2)%nat in
        let right := Nat.min (start + bound + 1) (length l) in
        mkCursor l <$> bisect (doc_below target) l (S (length l)) left right
      end
  end.
Definition advance_to (c : PostingCursor) (target : DocId) : PostingCursor :=
  default c (advance_to_raw c target).

(** ** Intersection *)

(** [linear_search]: the index loop over both lists. *)
Fixpoint linear_merge (a : list Posting) : list Posting -> list Posting :=
  fix go b :=
    match a, b with
    | p :: a', q :: b' =>
      match doc_id p ?= doc_id q with
      | Lt => linear_merge a' b
      | Gt => go b'
      | Eq => p :: linear_merge a' b'
      end
    | _, _ => []
    end.

Definition linear_search (left right : PostingList) : PostingList :=
  from_sorted (linear_merge (items left) (items right)).

Definition exponent_search_raw (l : list Posting) (start : nat) (target : DocId) : option nat :=
  match l !! start with
  | None => Some start
  | Some p =>
    if target <=? doc_id p then Some start
    else
      match gallop l start target (S (length l)) 1%nat with
      | None => None
      | Some bound =>
        let hi := Nat.min (start + bound + 1) (length l) in
        bisect (doc_below target) l (S (length l)) (start + 1)%nat hi
      end
  end.
Definition exponent_search_to (l : list Posting) (start : nat) (target : DocId) : nat :=
  default start (exponent_search_raw l start target).

(** The loop over the shorter list, with the position [cursor] in the longer one. *)
Fixpoint exponential_loop (long : list Posting) (cursor : nat) (short : list Posting)
    : list Posting :=
  match short with
  | [] => []
  | item :: short' =>
    if (length long <=? cursor)%nat then []
    else
      let cursor := exponent_search_to long cursor (doc_id item) in
      match long !! cursor with
      | Some q =>
        if doc_id q =? doc_id item then item :: exponential_loop long (cursor + 1)%nat short'
        else exponential_loop long cursor short'
      | None => exponential_loop long cursor short'
      end
  end.

Definition exponential_search (left right : PostingList) : PostingList :=
  let a := items left in
  let b := items right in
  let '(short, long) := if (length a <=? length b)%nat then (a, b) else (b, a) in
  from_sorted (exponential_loop long 0 short).

(** The cost comparison of [intersection]. *)
Definition gallop_is_cheaper (a b : list Posting) : bool :=
  let short_len := zlen a `min` zlen b in
  let long_len := zlen a `max` zlen b in
  let gallop_cost :=
    saturating_mul 64 short_len (Z.log2 (Z.max (long_len / Z.max short_len 1) 1) + 1) in
  gallop_cost <? zlen a + zlen b.

Definition intersection (left right : PostingList) : PostingList :=
  if gallop_is_cheaper (items left) (items right)
  then exponential_search left right
  else linear_search left right.

(** ** Union *)

(** A heap entry: document, source index, offset in the source. *)
Definition entry : Type := Z * nat * nat.

(** Lexicographic order of the entries. *)
Definition entry_leb (x y : entry) : bool :=
  let '(d, i, o) := x in let '(d', i', o') := y in
  (d <? d') || ((d =? d') && ((i <? i')%nat || ((i =? i')%nat && (o <=? o')%nat))).

(** [while let Some(Reverse((_, i, offset))) = heap.pop()].  [None]: out of fuel or an
    out-of-range access. *)
Fixpoint union_loop (sources : list (list Posting)) (fuel : nat)
    (heap : list entry) (out : list Posting) : option (list Posting) :=
  match fuel with
  | O => None
  | S fuel' =>
    match heap_pop entry_leb heap with
    | None => Some out
    | Some ((_, i, o), heap') =>
      match sources !! i with
      | None => None
      | Some s =>
        match s !! o with
        | None => None
        | Some p =>
          let heap'' := match s !! (o + 1)%nat with
                        | Some q => (doc_id q, i, (o + 1)%nat) :: heap'
                        | None => heap'
                        end in
          union_loop sources fuel' heap'' (out ++ [p])
        end
      end
    end
  end.

Definition union_heap_init (sources : list (list Posting)) : list entry :=
  concat (imap (fun i s => match s with p :: _ => [(doc_id p, i, 0%nat)] | [] => [] end) sources).

Definition union_many (lists : list PostingList) : option PostingList :=
  let sources := filter (fun s => s <> []) (map items lists) in
  match sources with
  | [] => Some (mkPostingList [] 0)
  | [s] => Some (from_sorted s)
  | _ =>
    let total := foldr (fun s n => (length s + n)%nat) 0%nat sources in
    from_sorted <$> union_loop sources (S total) (union_heap_init sources) []
  end.

(** ** Lemmas: galloping *)

Lemma doc_below_partitioned l target :
  StronglySorted (key_le doc_id) l -> partitioned (doc_below target) l.
Proof. intros Hs. by apply (sorted_partitioned_lt doc_id). Qed.

Lemma gallop_spec l start target fuel bound :
  StronglySorted (key_le doc_id) l ->
  (1 <= bound)%nat -> (start + bound / 2 < count_while (doc_below target) l)%nat ->
  (0 < fuel)%nat -> (length l < start + bound + fuel)%nat ->
  exists b, gallop l start target fuel bound = Some b /\
    (start + b / 2 < count_while (doc_below target) l)%nat /\
    (count_while (doc_below target) l <= Nat.min (start + b + 1) (length l))%nat.
Proof.
  intros Hs. pose proof (doc_below_partitioned l target Hs) as Hp.
  pose proof (count_while_le (doc_below target) l) as Hc.
  revert bound. induction fuel as [|fuel IH]; intros bound Hb Hlt Hf0 Hf; [lia|].
  cbn [gallop].
  destruct (l !! (start + bound)%nat) as [p|] eqn:E.
  - destruct (doc_below target p) eqn:Ep.
    + apply lookup_lt_Some in E as El. apply IH; [lia| |lia|lia]. rewrite Nat.div_mul by lia.
      apply count_while_mono; [done|intros q Hq; congruence|by eapply lookup_lt_Some].
    + exists bound. split; [done|]. split; [done|].
      destruct (Nat.lt_ge_cases (start + bound) (count_while (doc_below target) l)) as [H|]; [|lia].
      pose proof (count_while_prefix _ _ _ _ H E). congruence.
  - exists bound. split; [done|]. split; [done|]. apply lookup_ge_None in E. lia.
Qed.

Lemma count_below_ge l index p target :
  StronglySorted (key_le doc_id) l -> l !! index = Some p -> target <= doc_id p ->
  (count_while (doc_below target) l <= index)%nat.
Proof.
  intros Hs Hp Ht. destruct (Nat.lt_ge_cases index (count_while (doc_below target) l)) as [H|]; [|lia].
  pose proof (count_while_prefix _ _ _ _ H Hp) as E. apply Z.ltb_lt in E. lia.
Qed.

Lemma count_below_gt l index p target :
  StronglySorted (key_le doc_id) l -> l !! index = Some p -> doc_id p < target ->
  (index < count_while (doc_below target) l)%nat.
Proof.
  intros Hs Hp Ht. apply count_while_mono; [by apply doc_below_partitioned| |by eapply lookup_lt_Some].
  intros q Hq. assert (q = p) as -> by congruence. by apply Z.ltb_lt.
Qed.

Lemma advance_to_raw_spec l index target :
  StronglySorted (key_le doc_id) l ->
  advance_to_raw (mkCursor l index) target =
    Some (mkCursor l (Nat.max index (count_while (doc_below target) l))).
Proof.
  intros Hs. pose proof (count_while_le (doc_below target) l) as Hc.
  unfold advance_to_raw; cbv zeta; cbn [c_postings c_index].
  destruct (l !! index) as [p|] eqn:E.
  - destruct (Z.leb_spec target (doc_id p)) as [Ht|Ht].
    + pose proof (count_below_ge l index p target Hs E Ht). by rewrite Nat.max_l by lia.
    + pose proof (count_below_gt l index p target Hs E Ht) as Hi.
      destruct (gallop_spec l index target (S (length l)) 1 Hs) as (b & -> & H1 & H2);
        [lia|simpl; lia|lia|lia|].
      rewrite bisect_spec; [simpl; by rewrite Nat.max_r by lia| | | |].
      * by apply doc_below_partitioned.
      * lia.
      * lia.
      * lia.
  - apply lookup_ge_None in E. by rewrite Nat.max_l by lia.
Qed.

Lemma exponent_search_raw_spec l start target :
  StronglySorted (key_le doc_id) l ->
  exponent_search_raw l start target =
    Some (Nat.max start (count_while (doc_below target) l)).
Proof.
  intros Hs. pose proof (count_while_le (doc_below target) l) as Hc.
  unfold exponent_search_raw; cbv zeta. destruct (l !! start) as [p|] eqn:E.
  - destruct (Z.leb_spec target (doc_id p)) as [Ht|Ht].
    + pose proof (count_below_ge l start p target Hs E Ht). by rewrite Nat.max_l by lia.
    + pose proof (count_below_gt l start p target Hs E Ht) as Hi.
      destruct (gallop_spec l start target (S (length l)) 1 Hs) as (b & -> & H1 & H2);
        [lia|simpl; lia|lia|lia|].
      rewrite bisect_spec; [by rewrite Nat.max_r by lia| | | |]; try lia.
      by apply doc_below_partitioned.
  - apply lookup_ge_None in E. by rewrite Nat.max_l by lia.
Qed.

Lemma advance_to_spec l index target :
  StronglySorted (key_le doc_id) l ->
  advance_to (mkCursor l index) target =
    mkCursor l (Nat.max index (count_while (doc_below target) l)).
Proof. intros Hs. unfold advance_to. by rewrite advance_to_raw_spec. Qed.

Lemma exponent_search_to_spec l start target :
  StronglySorted (key_le doc_id) l ->
  exponent_search_to l start target = Nat.max start (count_while (doc_below target) l).
Proof. intros Hs. unfold exponent_search_to. by rewrite exponent_search_raw_spec. Qed.

(** ** Lemmas: intersection *)

Lemma not_in_docs_lt d l :
  Forall (fun q => d < doc_id q) l -> d ∉ docs l.
Proof.
  intros H Hd. apply list_elem_of_fmap in Hd as (q & -> & Hq).
  rewrite Forall_forall in H. specialize (H q Hq). lia.
Qed.

Lemma docs_filter (a b : list Posting) d :
  d ∈ docs (filter (fun p => doc_id p ∈ docs b) a) <-> d ∈ docs a /\ d ∈ docs b.
Proof.
  split.
  - intros H. apply list_elem_of_fmap in H as (p & -> & Hp).
    apply list_elem_of_filter in Hp as [? ?]. split; [|done]. apply list_elem_of_fmap. eauto.
  - intros [H1 H2]. apply list_elem_of_fmap in H1 as (p & -> & Hp).
    apply list_elem_of_fmap. exists p. split; [done|]. by apply list_elem_of_filter.
Qed.

Lemma linear_merge_spec a b :
  docs_ascending a -> docs_ascending b ->
  linear_merge a b = filter (fun p => doc_id p ∈ docs b) a.
Proof.
  intros Ha. revert b. induction Ha as [|p a Ha IHa Hp]; intros b Hb; [by destruct b|].
  induction Hb as [|q b Hb IHb Hq].
  - symmetry. apply filter_none. intros r _. apply not_elem_of_nil.
  - cbn [linear_merge]. rewrite filter_cons.
    destruct (Z.compare_spec (doc_id p) (doc_id q)) as [E|E|E].
    + rewrite decide_True by (rewrite E; left). f_equal. rewrite IHa by done.
      apply filter_ext_in. intros r Hr. rewrite Forall_forall in Hp. specialize (Hp r Hr).
      unfold docs. simpl. rewrite elem_of_cons. unfold key_lt in Hp. split; [by right|].
      intros [?|?]; [lia|done].
    + rewrite decide_False.
      * rewrite IHa by (by constructor). done.
      * apply not_in_docs_lt. constructor; [done|]. eapply Forall_impl; [exact Hq|].
        unfold key_lt. simpl. intros; lia.
    + change (linear_merge (p :: a) b = if decide (doc_id p ∈ docs (q :: b))
        then p :: filter (fun x => doc_id x ∈ docs (q :: b)) a
        else filter (fun x => doc_id x ∈ docs (q :: b)) a).
      rewrite IHb, filter_cons.
      assert (Hiff : forall r, r ∈ p :: a -> doc_id r ∈ docs b <-> doc_id r ∈ docs (q :: b)).
      { intros r Hr. unfold docs. simpl. rewrite elem_of_cons. split; [by right|].
        intros [Hd|?]; [|done]. rewrite Forall_forall in Hp. apply elem_of_cons in Hr as [->|Hr]; [lia|].
        specialize (Hp r Hr). unfold key_lt in Hp. lia. }
      pose proof (Hiff p ltac:(left)) as Hpp.
      rewrite (filter_ext_in _ (fun x => doc_id x ∈ docs (q :: b)) a)
        by (intros r Hr; apply Hiff; by right).
      do 2 case_decide; tauto.
Qed.

Lemma exponential_loop_spec long cursor short :
  docs_ascending long -> docs_ascending short ->
  (forall item i q, item ∈ short -> long !! i = Some q -> (i < cursor)%nat ->
     doc_id q < doc_id item) ->
  exponential_loop long cursor short = filter (fun p => doc_id p ∈ docs long) short.
Proof.
  intros Hl Hs. pose proof (StronglySorted_lt_le doc_id long Hl) as Hle.
  revert cursor. induction Hs as [|item short Hs IH Hi]; intros cursor Hc; [done|].
  cbn [exponential_loop]. destruct (Nat.leb_spec (length long) cursor) as [Hlen|Hlen].
  { symmetry. apply filter_none. intros r Hr Hd.
    apply list_elem_of_fmap in Hd as (q & Hq & Hql). apply list_elem_of_lookup in Hql as [i Hql].
    pose proof (lookup_lt_Some _ _ _ Hql). specialize (Hc r i q Hr Hql ltac:(lia)). lia. }
  rewrite exponent_search_to_spec by done. cbv zeta. set (c := count_while (doc_below (doc_id item)) long).
  assert (Hcc : (cursor <= c)%nat).
  { destruct (Nat.lt_ge_cases c cursor) as [H|]; [|done].
    destruct (lookup_lt_is_Some_2 long c) as [q Hq]; [lia|].
    pose proof (count_while_stop _ _ _ Hq) as E. apply Z.ltb_ge in E.
    specialize (Hc item c q ltac:(left) Hq H). lia. }
  rewrite Nat.max_r by done. rewrite Forall_forall in Hi.
  assert (Hbelow : forall r i q, r ∈ short -> long !! i = Some q -> (i < c)%nat ->
                     doc_id q < doc_id r).
  { intros r i q Hr Hq Hic. specialize (Hi r Hr). unfold key_lt in Hi.
    pose proof (count_while_prefix _ _ _ _ Hic Hq) as E. apply Z.ltb_lt in E. lia. }
  rewrite filter_cons. destruct (long !! c) as [q|] eqn:Eq.
  - pose proof (count_while_stop _ _ _ Eq) as Eq'. apply Z.ltb_ge in Eq'.
    destruct (Z.eqb_spec (doc_id q) (doc_id item)) as [E|E].
    + rewrite decide_True by (rewrite <-E; apply list_elem_of_fmap; eauto using list_elem_of_lookup_2).
      f_equal. apply IH. intros r i q' Hr Hq' Hic. destruct (decide (i = c)) as [->|].
      * assert (q' = q) as -> by congruence. specialize (Hi r Hr). unfold key_lt in Hi. lia.
      * apply (Hbelow r i q' Hr Hq'). lia.
    + rewrite decide_False; [by apply IH|]. intros Hd.
      apply list_elem_of_fmap in Hd as (q' & Hq' & Hql). apply list_elem_of_lookup in Hql as [i Hql].
      destruct (Nat.lt_ge_cases i c) as [H|H].
      * pose proof (count_while_prefix _ _ _ _ H Hql) as E'. apply Z.ltb_lt in E'. lia.
      * pose proof (sorted_lookup_le doc_id _ _ _ _ _ Hle Eq Hql H). lia.
  - rewrite decide_False; [by apply IH|]. intros Hd.
    apply list_elem_of_fmap in Hd as (q' & Hq' & Hql). apply list_elem_of_lookup in Hql as [i Hql].
    apply lookup_ge_None in Eq. pose proof (lookup_lt_Some _ _ _ Hql).
    pose proof (count_while_prefix (doc_below (doc_id item)) long i q' ltac:(fold c; lia) Hql) as E'.
    apply Z.ltb_lt in E'. lia.
Qed.

(** ** Lemmas: union *)

Lemma entry_leb_total x y : entry_leb x y = true \/ entry_leb y x = true.
Proof.
  destruct x as [[d i] o], y as [[d' i'] o']. unfold entry_leb.
  destruct (Z.ltb_spec d d'), (Z.ltb_spec d' d), (Z.eqb_spec d d'), (Z.eqb_spec d' d),
    (Nat.ltb_spec i i'), (Nat.ltb_spec i' i), (Nat.eqb_spec i i'), (Nat.eqb_spec i' i),
    (Nat.leb_spec o o'), (Nat.leb_spec o' o); simpl; try lia; auto.
Qed.

Lemma entry_leb_true d i o d' i' o' :
  entry_leb (d, i, o) (d', i', o') = true <->
  d < d' \/ (d = d' /\ ((i < i')%nat \/ (i = i' /\ (o <= o')%nat))).
Proof.
  unfold entry_leb. rewrite orb_true_iff, andb_true_iff, orb_true_iff, andb_true_iff.
  rewrite Z.ltb_lt, Z.eqb_eq, Nat.ltb_lt, Nat.eqb_eq, Nat.leb_le. done.
Qed.

Lemma entry_leb_trans x y z :
  entry_leb x y = true -> entry_leb y z = true -> entry_leb x z = true.
Proof.
  destruct x as [[d i] o], y as [[d' i'] o'], z as [[d'' i''] o''].
  rewrite !entry_leb_true. lia.
Qed.

Definition remaining (sources : list (list Posting)) (offs : list nat) : list (list Posting) :=
  zip_with drop offs sources.

Definition rem_count (sources : list (list Posting)) (offs : list nat) : nat :=
  length (concat (remaining sources offs)).

(** The heap holds exactly the head of every source that is not used up. *)
Record heap_inv (sources : list (list Posting)) (offs : list nat) (heap : list entry) : Prop := {
  hi_length : length offs = length sources;
  hi_sound : forall d i o, (d, i, o) ∈ heap -> offs !! i = Some o /\
    exists s p, sources !! i = Some s /\ s !! o = Some p /\ doc_id p = d;
  hi_complete : forall i o s p, offs !! i = Some o -> sources !! i = Some s ->
    s !! o = Some p -> (doc_id p, i, o) ∈ heap;
  hi_nodup : NoDup (map (fun e : entry => e.1.2) heap)
}.

(** The documents still to come are at or after those already written. *)
Definition out_inv (sources : list (list Posting)) (offs : list nat) (out : list Posting) : Prop :=
  StronglySorted (key_le doc_id) out /\
  (forall p q, p ∈ out -> q ∈ concat (remaining sources offs) -> doc_id p <= doc_id q) /\
  (forall k, filter (fun p => doc_id p = k) out
             ++ filter (fun p => doc_id p = k) (concat (remaining sources offs))
           = filter (fun p => doc_id p = k) (concat sources)).

Lemma remaining_lookup sources offs i s o :
  offs !! i = Some o -> sources !! i = Some s -> remaining sources offs !! i = Some (drop o s).
Proof. intros Ho Hs. unfold remaining. by rewrite lookup_zip_with, Ho; simpl; rewrite Hs. Qed.

Lemma remaining_update sources offs i s o :
  sources !! i = Some s ->
  remaining sources (<[i := o]> offs) = <[i := drop o s]> (remaining sources offs).
Proof.
  intros Hs. unfold remaining. rewrite <-(list_insert_id sources i s) at 1 by done.
  symmetry. apply insert_zip_with.
Qed.

(** Everything still to come is at or after the popped entry; in an earlier source strictly
    after it. *)
Lemma popped_is_least sources offs heap heap' d i o j sj q :
  Forall (StronglySorted (key_le doc_id)) sources ->
  heap_inv sources offs heap -> heap ≡ₚ (d, i, o) :: heap' ->
  Forall (fun e => entry_leb (d, i, o) e = true) heap' ->
  remaining sources offs !! j = Some sj -> q ∈ sj ->
  d <= doc_id q /\ ((j < i)%nat -> d < doc_id q).
Proof.
  intros Hsrc [Hlen Hsound Hcomplete _] Hperm Hleast Hj Hq.
  unfold remaining in Hj. apply lookup_zip_with_Some in Hj as (oj & s & -> & Hoj & Hs).
  apply list_elem_of_lookup in Hq as [m Hm]. rewrite lookup_drop in Hm.
  destruct (lookup_lt_is_Some_2 s oj) as [h Hh]; [apply lookup_lt_Some in Hm; lia|].
  pose proof (Hcomplete j oj s h Hoj Hs Hh) as Hin.
  rewrite Forall_lookup in Hsrc.
  pose proof (sorted_lookup_le doc_id s oj (oj + m) h q (Hsrc j s Hs) Hh Hm ltac:(lia)) as Hhq.
  rewrite Hperm in Hin. apply elem_of_cons in Hin as [E|Hin].
  - injection E as E1 E2 E3. lia.
  - rewrite Forall_forall in Hleast. specialize (Hleast _ Hin).
    apply entry_leb_true in Hleast. lia.
Qed.

Lemma heap_inv_step sources offs heap heap' d i o s :
  heap_inv sources offs heap -> heap ≡ₚ (d, i, o) :: heap' -> sources !! i = Some s ->
  heap_inv sources (<[i := (o + 1)%nat]> offs)
    (match s !! (o + 1)%nat with Some q => (doc_id q, i, (o + 1)%nat) :: heap' | None => heap' end).
Proof.
  intros [Hlen Hsound Hcomplete Hnd] Hperm Hs.
  assert (Hi : offs !! i = Some o).
  { apply (Hsound d i o). rewrite Hperm. left. }
  assert (Hio : (i < length offs)%nat) by (by eapply lookup_lt_Some).
  rewrite (Permutation_map _ Hperm) in Hnd. simpl in Hnd. apply NoDup_cons in Hnd as [Hni Hnd].
  assert (Hne : forall d' i' o', (d', i', o') ∈ heap' -> i' <> i).
  { intros d' i' o' Hin ->. apply Hni. apply list_elem_of_fmap. by exists (d', i, o'). }
  split.
  - by rewrite length_insert.
  - intros d' i' o' Hin.
    assert (Hcase : (d', i', o') ∈ heap' \/
      (i' = i /\ o' = (o + 1)%nat /\ exists q, s !! (o + 1)%nat = Some q /\ doc_id q = d')).
    { destruct (s !! (o + 1)%nat) as [q|] eqn:Eq; [|by left].
      apply elem_of_cons in Hin as [E|Hin]; [|by left]. injection E as -> -> ->.
      right. naive_solver. }
    destruct Hcase as [Hin'|(-> & -> & q & Hq & Hd)].
    + pose proof (Hne _ _ _ Hin') as Hii. rewrite list_lookup_insert_ne by done.
      apply Hsound. rewrite Hperm. by right.
    + rewrite list_lookup_insert_eq by done. split; [done|]. by exists s, q.
  - intros i' o' s' p Ho' Hs' Hp. destruct (decide (i' = i)) as [->|Hii].
    + rewrite list_lookup_insert_eq in Ho' by done. injection Ho' as <-.
      assert (s' = s) as -> by congruence. rewrite Hp. left.
    + rewrite list_lookup_insert_ne in Ho' by done.
      pose proof (Hcomplete _ _ _ _ Ho' Hs' Hp) as Hin. rewrite Hperm in Hin.
      apply elem_of_cons in Hin as [E|Hin]; [congruence|].
      destruct (s !! (o + 1)%nat); [by right|done].
  - destruct (s !! (o + 1)%nat); [|done]. simpl. by constructor.
Qed.

(** Popping splits what remains around the popped posting. *)
Lemma remaining_split sources offs i o s p :
  offs !! i = Some o -> sources !! i = Some s -> s !! o = Some p ->
  exists r1 r2, remaining sources offs = r1 ++ (p :: drop (o + 1) s) :: r2 /\
    remaining sources (<[i := (o + 1)%nat]> offs) = r1 ++ drop (o + 1) s :: r2 /\ length r1 = i.
Proof.
  intros Ho Hs Hp. pose proof (remaining_lookup _ _ _ _ _ Ho Hs) as Hr.
  assert (Hd : drop o s = p :: drop (o + 1) s).
  { rewrite Nat.add_1_r. by apply drop_S. }
  rewrite Hd in Hr. exists (take i (remaining sources offs)), (drop (S i) (remaining sources offs)).
  split; [by rewrite take_drop_middle|]. pose proof (lookup_lt_Some _ _ _ Hr). split.
  - rewrite (remaining_update _ _ _ s) by done. by rewrite insert_take_drop.
  - rewrite length_take. lia.
Qed.

Lemma out_inv_step sources offs heap heap' i o s p out :
  Forall (StronglySorted (key_le doc_id)) sources ->
  heap_inv sources offs heap -> heap ≡ₚ (doc_id p, i, o) :: heap' ->
  Forall (fun e => entry_leb (doc_id p, i, o) e = true) heap' ->
  offs !! i = Some o -> sources !! i = Some s -> s !! o = Some p ->
  out_inv sources offs out -> out_inv sources (<[i := (o + 1)%nat]> offs) (out ++ [p]).
Proof.
  intros Hsrc Hh Hperm Hleast Ho Hs Hp (Hout & Hbelow & Hfilter).
  destruct (remaining_split _ _ _ _ _ _ Ho Hs Hp) as (r1 & r2 & Er & Er' & Hr1).
  pose proof (fun j sj q => popped_is_least _ _ _ _ _ _ _ j sj q Hsrc Hh Hperm Hleast) as Hmin.
  assert (Hpin : p ∈ concat (remaining sources offs)).
  { rewrite Er, concat_app. simpl. apply elem_of_app. right. left. }
  assert (Hsub : forall q, q ∈ concat (remaining sources (<[i := (o + 1)%nat]> offs)) ->
                   q ∈ concat (remaining sources offs)).
  { intros q. rewrite Er, Er', !concat_app. simpl. rewrite !elem_of_app, elem_of_cons, !elem_of_app.
    tauto. }
  split; [|split].
  - apply StronglySorted_app. split; [|split; [done|repeat constructor]].
    intros x y Hx Hy. apply list_elem_of_singleton in Hy as ->. by apply Hbelow.
  - intros x q Hx Hq. apply Hsub in Hq. apply elem_of_app in Hx as [Hx|Hx]; [by apply Hbelow|].
    apply list_elem_of_singleton in Hx as ->. apply elem_of_concat in Hq as (sj & Hq & Hsj).
    apply list_elem_of_lookup in Hsj as [j Hj]. by apply (Hmin j sj q).
  - intros k. rewrite <-(Hfilter k), filter_app, <-app_assoc. f_equal.
    rewrite Er, Er', !concat_app. simpl. rewrite !filter_app, filter_cons, filter_nil.
    case_decide as Hk; simpl;
      [|by rewrite filter_cons, decide_False, filter_app].
    assert (Hnil : filter (fun q => doc_id q = k) (concat r1) = []).
    { apply filter_none. intros q Hq. apply elem_of_concat in Hq as (sj & Hq & Hsj).
      apply list_elem_of_lookup in Hsj as [j Hj]. pose proof (lookup_lt_Some _ _ _ Hj).
      destruct (Hmin j sj q) as [_ Hlt]; [|done|specialize (Hlt ltac:(lia)); lia].
      rewrite Er. by rewrite lookup_app_l. }
    by rewrite Hnil, filter_cons, decide_True, filter_app.
Qed.

Lemma union_loop_spec sources offs fuel heap out :
  Forall (StronglySorted (key_le doc_id)) sources ->
  heap_inv sources offs heap -> out_inv sources offs out ->
  (rem_count sources offs < fuel)%nat ->
  union_loop sources fuel heap out = Some (sort_by_key doc_id (concat sources)).
Proof.
  intros Hsrc. revert offs heap out.
  induction fuel as [|fuel IH]; intros offs heap out Hh Ho Hf; [lia|]. cbn [union_loop].
  destruct (heap_pop entry_leb heap) as [[[[d i] o] heap']|] eqn:Epop.
  - destruct (heap_pop_spec entry_leb entry_leb_total entry_leb_trans _ _ _ Epop) as [Hperm Hleast].
    destruct (hi_sound _ _ _ Hh d i o) as (Hoi & s & p & Hs & Hp & <-); [rewrite Hperm; left|].
    rewrite Hs, Hp. cbv zeta. apply (IH (<[i := (o + 1)%nat]> offs)).
    + by eapply heap_inv_step.
    + by eapply out_inv_step.
    + destruct (remaining_split _ _ _ _ _ _ Hoi Hs Hp) as (r1 & r2 & Er & Er' & _).
      unfold rem_count in *. rewrite Er, concat_app, length_app in Hf.
      rewrite Er', concat_app, length_app.
      cbn [concat app length] in *. rewrite length_app in *. lia.
  - apply heap_pop_None in Epop as ->. f_equal. destruct Ho as (Hout & _ & Hfilter).
    assert (Hnil : concat (remaining sources offs) = []).
    { apply elem_of_nil_inv. intros q Hq. apply elem_of_concat in Hq as (sj & Hq & Hsj).
      apply list_elem_of_lookup in Hsj as [j Hj]. unfold remaining in Hj.
      apply lookup_zip_with_Some in Hj as (oj & s & -> & Hoj & Hs).
      apply list_elem_of_lookup in Hq as [m Hm]. rewrite lookup_drop in Hm.
      destruct (lookup_lt_is_Some_2 s oj) as [h Hhd]; [apply lookup_lt_Some in Hm; lia|].
      pose proof (hi_complete _ _ _ Hh j oj s h Hoj Hs Hhd) as Hin. by apply elem_of_nil in Hin. }
    apply (stable_sorted_unique doc_id); [done|apply sort_by_key_sorted|].
    intros k. rewrite sort_by_key_stable, <-(Hfilter k), Hnil. by rewrite filter_nil, app_nil_r.
Qed.

Lemma union_heap_init_nodup n (sources : list (list Posting)) :
  let h := concat (imap (fun i s => match s with
             | p :: _ => [(doc_id p, (n + i)%nat, 0%nat)] | [] => [] end) sources) in
  NoDup (map (fun e : entry => e.1.2) h) /\ Forall (fun e : entry => (n <= e.1.2)%nat) h.
Proof.
  revert n. induction sources as [|s sources IH]; intros n; [split; constructor|].
  cbv zeta. rewrite imap_cons. destruct (IH (S n)) as [IH1 IH2].
  assert (E : imap ((fun i s => match s with
             | p :: _ => [(doc_id p, (n + i)%nat, 0%nat)] | [] => [] end) ∘ S) sources
           = imap (fun i s => match s with
             | p :: _ => [(doc_id p, (S n + i)%nat, 0%nat)] | [] => [] end) sources).
  { apply imap_ext. intros i s' _. simpl. by rewrite Nat.add_succ_r. }
  rewrite E. destruct s as [|p s]; simpl.
  - split; [done|]. eapply Forall_impl; [exact IH2|]. simpl. intros; lia.
  - split.
    + constructor; [|done]. intros Hin. apply list_elem_of_fmap in Hin as (e & He & Hin).
      rewrite Forall_forall in IH2. specialize (IH2 e Hin). simpl in IH2. lia.
    + constructor; [simpl; lia|]. eapply Forall_impl; [exact IH2|]. simpl. intros; lia.
Qed.

Lemma union_heap_init_inv sources :
  heap_inv sources (replicate (length sources) 0%nat) (union_heap_init sources).
Proof.
  assert (Hin : forall d i o, (d, i, o) ∈ union_heap_init sources <->
     exists s p, sources !! i = Some (p :: s) /\ o = 0%nat /\ d = doc_id p).
  { intros d i o. unfold union_heap_init. rewrite elem_of_concat. split.
    - intros (l & He & Hl). apply list_elem_of_lookup in Hl as [j Hj].
      rewrite list_lookup_imap in Hj. destruct (sources !! j) as [[|p s]|] eqn:Es;
        simpl in Hj; inv_some; [by apply elem_of_nil in He|].
      apply list_elem_of_singleton in He. injection He as -> -> ->. by exists s, p.
    - intros (s & p & Hs & -> & ->). exists [(doc_id p, i, 0%nat)]. split; [left|].
      apply (list_elem_of_lookup_2 _ i). by rewrite list_lookup_imap, Hs. }
  split.
  - apply length_replicate.
  - intros d i o He. apply Hin in He as (s & p & Hs & -> & ->).
    pose proof (lookup_lt_Some _ _ _ Hs). rewrite lookup_replicate_2 by done.
    split; [done|]. by exists (p :: s), p.
  - intros i o s p Ho Hs Hp. apply lookup_replicate in Ho as [-> _]. apply Hin.
    destruct s as [|p' s]; simpl in Hp; inv_some. eauto.
  - apply (union_heap_init_nodup 0 sources).
Qed.

Lemma remaining_zero sources : remaining sources (replicate (length sources) 0%nat) = sources.
Proof. induction sources as [|s l IH]; [done|]. unfold remaining in *. simpl. by rewrite IH. Qed.

Lemma concat_filter_nonempty {A} (ls : list (list A)) :
  concat (filter (fun s => s <> []) ls) = concat ls.
Proof.
  induction ls as [|l ls IH]; [done|]. rewrite filter_cons. case_decide as H; simpl; rewrite IH; [done|].
  by destruct l.
Qed.

(** ** Main theorems *)

(** C38: [advance_to] always ends inside the slice, never moves back, skips only documents
    before the target and stops at the first one at or after it. *)
Theorem advance_to_correct c target :
  StronglySorted (key_le doc_id) (c_postings c) ->
  advance_to_raw c target = Some (advance_to c target) /\
  c_postings (advance_to c target) = c_postings c /\
  (c_index c <= c_index (advance_to c target))%nat /\
  (forall i p, (c_index c <= i < c_index (advance_to c target))%nat ->
     c_postings c !! i = Some p -> doc_id p < target) /\
  (forall p, cursor_current (advance_to c target) = Some p -> target <= doc_id p).
Proof.
  destruct c as [l index]; cbn [c_postings c_index]. intros Hs.
  rewrite advance_to_raw_spec, advance_to_spec by done. cbn [c_postings c_index].
  split; [done|]. split; [done|]. split; [lia|]. split.
  - intros i p Hi Hp. pose proof (count_while_prefix (doc_below target) l i p ltac:(lia) Hp) as E.
    by apply Z.ltb_lt in E.
  - intros p Hp. unfold cursor_current in Hp. cbn [c_postings c_index] in Hp.
    pose proof (partitioned_suffix _ _ _ _ (doc_below_partitioned l target Hs) Hp ltac:(lia)) as E.
    by apply Z.ltb_ge in E.
Qed.

Lemma advance_to_correct_witness :
  c_postings (advance_to (mkCursor [mkPosting 3 [] 0; mkPosting 8 [] 0; mkPosting 9 [] 0] 0) 9)
  = [mkPosting 3 [] 0; mkPosting 8 [] 0; mkPosting 9 [] 0].
Proof.
  apply (advance_to_correct (mkCursor [mkPosting 3 [] 0; mkPosting 8 [] 0; mkPosting 9 [] 0] 0) 9).
  repeat constructor; vm_compute; congruence.
Defined.

Lemma intersection_spec l r :
  wf_list l -> wf_list r ->
  wf_list (intersection l r) /\
  (forall d, d ∈ docs (items (intersection l r)) <-> d ∈ docs (items l) /\ d ∈ docs (items r)) /\
  items (intersection l r) =
    (if gallop_is_cheaper (items l) (items r) && (length (items r) <? length (items l))%nat
     then filter (fun p => doc_id p ∈ docs (items l)) (items r)
     else filter (fun p => doc_id p ∈ docs (items r)) (items l)).
Proof.
  intros [Hl _] [Hr _].
  assert (Hfilter : forall a b : list Posting, docs_ascending a ->
    wf_list (from_sorted (filter (fun p => doc_id p ∈ docs b) a)) /\
    items (from_sorted (filter (fun p => doc_id p ∈ docs b) a)) = filter (fun p => doc_id p ∈ docs b) a /\
    forall d, d ∈ docs (filter (fun p => doc_id p ∈ docs b) a) <-> d ∈ docs a /\ d ∈ docs b).
  { intros a b Ha. split; [apply from_sorted_wf, StronglySorted_lt_le; by apply filter_ascending|].
    split; [by rewrite from_sorted_ascending by (by apply filter_ascending)|].
    intros d. apply docs_filter. }
  unfold intersection, exponential_search, linear_search. cbv zeta.
  destruct (gallop_is_cheaper (items l) (items r)); simpl andb.
  - destruct (Nat.leb_spec (length (items l)) (length (items r))) as [H|H].
    + rewrite exponential_loop_spec by (done || lia).
      destruct (Hfilter (items l) (items r) Hl) as (H1 & H2 & H3). rewrite H2.
      destruct (Nat.ltb_spec (length (items r)) (length (items l))); [lia|]. done.
    + rewrite exponential_loop_spec by (done || lia).
      destruct (Hfilter (items r) (items l) Hr) as (H1 & H2 & H3). rewrite H2.
      destruct (Nat.ltb_spec (length (items r)) (length (items l))); [|lia].
      split; [done|]. split; [|done]. intros d. rewrite H3. tauto.
  - rewrite linear_merge_spec by done.
    destruct (Hfilter (items l) (items r) Hl) as (H1 & H2 & H3). by rewrite H2.
Qed.

(** Whichever strategy the cost estimate selects, [intersection] returns a well-formed
    list of exactly the documents in both lists; the galloping strategy keeps the postings of
    the shorter list and the linear one those of the left list. *)
Theorem intersection_correct l r :
  wf_list l -> wf_list r ->
  wf_list (intersection l r) /\
  (forall d, d ∈ docs (items (intersection l r)) <-> d ∈ docs (items l) /\ d ∈ docs (items r)) /\
  items (intersection l r) =
    (if gallop_is_cheaper (items l) (items r) && (length (items r) <? length (items l))%nat
     then filter (fun p => doc_id p ∈ docs (items l)) (items r)
     else filter (fun p => doc_id p ∈ docs (items r)) (items l)).
Proof. apply intersection_spec. Qed.

Lemma intersection_correct_witness :
  wf_list (intersection (mkPostingList [mkPosting 3 [1] 5; mkPosting 9 [2] 1] 5)
                        (mkPostingList [mkPosting 4 [1] 2; mkPosting 9 [0] 6] 6)).
Proof. apply intersection_correct; (split; repeat constructor; vm_compute; congruence). Defined.

Lemma union_many_spec lists :
  Forall wf_list lists ->
  union_many lists = Some (from_items (concat (map items lists))).
Proof.
  intros Hwf. unfold union_many. cbv zeta. set (sources := filter _ (map items lists)).
  assert (Hs : Forall (StronglySorted (key_le doc_id)) sources).
  { apply Forall_forall. intros s Hs. apply list_elem_of_filter in Hs as [_ Hs].
    apply list_elem_of_fmap in Hs as (pl & -> & Hpl). rewrite Forall_forall in Hwf.
    apply StronglySorted_lt_le, wf_sorted, Hwf, Hpl. }
  rewrite <-(concat_filter_nonempty (map items lists)). fold sources. rewrite from_items_eq.
  assert (Hloop : union_loop sources (S (foldr (fun s n => (length s + n)%nat) 0%nat sources))
            (union_heap_init sources) [] = Some (sort_by_key doc_id (concat sources))).
  { apply (union_loop_spec _ (replicate (length sources) 0%nat)); [done| | |].
    - apply union_heap_init_inv.
    - split; [constructor|]. split; [intros p q Hp; by apply elem_of_nil in Hp|].
      intros k. by rewrite remaining_zero.
    - unfold rem_count. rewrite remaining_zero. clear. induction sources; simpl; [lia|].
      rewrite length_app. lia. }
  destruct sources as [|s [|s' sources']].
  - done.
  - simpl. rewrite app_nil_r, sort_by_key_id; [done|by inversion Hs].
  - by rewrite Hloop.
Qed.

(** The heap-based union terminates without an out-of-range access and equals the
    reference: all postings together, stably sorted by document, duplicates merged. *)
Theorem union_many_refines lists :
  Forall wf_list lists ->
  union_many lists = Some (from_items (concat (map items lists))).
Proof. apply union_many_spec. Qed.

Lemma union_many_refines_witness :
  union_many [mkPostingList [mkPosting 3 [1] 5; mkPosting 9 [2] 1] 5;
              mkPostingList [mkPosting 4 [1] 2; mkPosting 9 [0] 6] 6]
  = Some (from_items [mkPosting 3 [1] 5; mkPosting 9 [2] 1; mkPosting 4 [1] 2; mkPosting 9 [0] 6]).
Proof.
  apply (union_many_refines [mkPostingList [mkPosting 3 [1] 5; mkPosting 9 [2] 1] 5;
              mkPostingList [mkPosting 4 [1] 2; mkPosting 9 [0] 6] 6]).
  repeat constructor; vm_compute; congruence.
Defined.
