(* ===== verification/Codec.v ===== *)
(** * Variable-length integers and encoded posting lists

    Models [disk/codec.rs], and from [disk/writer.rs] and [disk/reader.rs] of
    [crates/core-index/src] the encoder and the decoders of a posting list. *)
From Stdlib Require Import ZArith Lia.
From stdpp Require Import base numbers list strings.
From S2P Require Import Prelude Types Posting.

Local Open Scope io_scope.
Local Open Scope Z_scope.

(** ** [disk/codec.rs] *)

(** The loop of [push_var_u64]; a [u64] needs at most 9 iterations
    ([push_var_loop_total]). *)
Fixpoint push_var_loop (fuel : nat) (out : list Z) (value : Z) : option (list Z) :=
  match fuel with
  | O => None
  | S fuel' =>
    if 0x80 <=? value then
      push_var_loop fuel' (out ++ [Z.lor (Z.land (wrap 8 value) 0x7f) 0x80]) (Z.shiftr value 7)
    else Some (out ++ [wrap 8 value])
  end.
Definition push_var_u64 (out : list Z) (value : Z) : list Z :=
  default out (push_var_loop 10 out value).
Definition push_var_u32 (out : list Z) (value : Z) : list Z := push_var_u64 out value.
Definition push_var_u16 (out : list Z) (value : Z) : list Z := push_var_u64 out value.

Definition varint_eof : io_error := IoError UnexpectedEof "unexpected eof while reading varint".
Definition varint_too_large : io_error := IoError InvalidData "varint too large".
Definition varint_not_u32 : io_error := IoError InvalidData "varint does not fit into u32".
Definition varint_not_u16 : io_error := IoError InvalidData "varint does not fit into u16".

(** The loop of [read_var_u64]: the result carries the advanced offset.  [shift] grows by 7 up
    to 64, so ten iterations are enough and the case [O] is not reached from [read_var_u64]. *)
Fixpoint read_var_loop (input : list Z) (fuel offset : nat) (value shift : Z)
    : io_result (Z * nat) :=
  match fuel with
  | O => Err varint_too_large
  | S fuel' =>
    match input !! offset with
    | None => Err varint_eof
    | Some byte =>
      let offset := (offset + 1)%nat in
      let value := Z.lor value (wrap 64 (Z.shiftl (Z.land byte 0x7f) shift)) in
      if Z.land byte 0x80 =? 0 then Ok (value, offset)
      else
        let shift := shift + 7 in
        if 64 <=? shift then Err varint_too_large
        else read_var_loop input fuel' offset value shift
    end
  end.
Definition read_var_u64 (input : list Z) (offset : nat) : io_result (Z * nat) :=
  read_var_loop input 10 offset 0 0.
Definition read_var_u32 (input : list Z) (offset : nat) : io_result (Z * nat) :=
  let! (value, offset) := read_var_u64 input offset in
  if value <? 2 ^ 32 then Ok (value, offset) else Err varint_not_u32.
Definition read_var_u16 (input : list Z) (offset : nat) : io_result (Z * nat) :=
  let! (value, offset) := read_var_u64 input offset in
  if value <? 2 ^ 16 then Ok (value, offset) else Err varint_not_u16.

(** ** Posting lists on disk *)

(** The inner loop of [encode_posting_list]. *)
Fixpoint encode_positions (out : list Z) (last_position : Z) (ps : list Position) : list Z :=
  match ps with
  | [] => out
  | position :: ps' =>
    encode_positions (push_var_u32 out (wrap 32 (position - last_position))) position ps'
  end.

Fixpoint encode_postings (out : list Z) (last_doc_id : Z) (l : list Posting) : list Z :=
  match l with
  | [] => out
  | p :: l' =>
    let out := push_var_u64 out (wrap 64 (doc_id p - last_doc_id)) in
    let out := push_var_u16 out (weight p) in
    let out := push_var_u32 out (wrap 32 (zlen (positions p))) in
    let out := encode_positions out 0 (positions p) in
    encode_postings out (doc_id p) l'
  end.
Definition encode_posting_list (out : list Z) (pl : PostingList) : list Z :=
  encode_postings out 0 (items pl).

Fixpoint read_positions (bytes : list Z) (n offset : nat) (last_position : Z)
    (acc : list Position) : io_result (list Position * nat) :=
  match n with
  | O => Ok (acc, offset)
  | S n' =>
    let! (position_delta, offset) := read_var_u32 bytes offset in
    let position := wrap 32 (last_position + position_delta) in
    read_positions bytes n' offset position (acc ++ [position])
  end.

(** One posting of [read_posting_list_into]. *)
Definition read_posting (bytes : list Z) (offset : nat) (last_doc_id : Z)
    : io_result (Posting * nat) :=
  let! (doc_delta, offset) := read_var_u64 bytes offset in
  let doc := wrap 64 (last_doc_id + doc_delta) in
  let! (w, offset) := read_var_u16 bytes offset in
  let! (position_count, offset) := read_var_u32 bytes offset in
  let! (ps, offset) := read_positions bytes (Z.to_nat position_count) offset 0 [] in
  Ok (Posting_with_weight doc ps w, offset).

(** The buffer keeps the postings decoded before an error. *)
Fixpoint read_postings_loop (bytes : list Z) (n offset : nat) (last_doc_id : Z)
    (out : list Posting) : list Posting * io_result unit :=
  match n with
  | O => (out, Ok tt)
  | S n' =>
    match read_posting bytes offset last_doc_id with
    | Err e => (out, Err e)
    | Ok (p, offset) => read_postings_loop bytes n' offset (doc_id p) (out ++ [p])
    end
  end.
Definition read_posting_list_into (bytes : list Z) (doc_freq : Z) (out : list Posting)
    : list Posting * io_result unit :=
  read_postings_loop bytes (Z.to_nat doc_freq) 0 0 out.

Definition read_posting_list (bytes : list Z) (doc_freq max_weight : Z) : io_result PostingList :=
  let '(postings, r) := read_posting_list_into bytes doc_freq [] in
  let! _ := r in
  Ok (from_sorted_with_max_weight postings max_weight).

(** ** Lemmas: varints *)

(** The encoding of one value. *)
Definition varint (value : Z) : list Z := push_var_u64 [] value.

Lemma push_var_loop_app fuel out value :
  push_var_loop fuel out value = app out <$> push_var_loop fuel [] value.
Proof.
  revert out value. induction fuel as [|fuel IH]; intros out value; [done|]. cbn [push_var_loop].
  destruct (0x80 <=? value); [|done]. rewrite IH, (IH ([] ++ _)).
  destruct (push_var_loop fuel [] _) as [l|]; simpl; [|done]. by rewrite <-app_assoc.
Qed.

Lemma push_var_loop_total fuel out value :
  0 <= value < 2 ^ (7 * Z.of_nat fuel) -> (0 < fuel)%nat ->
  is_Some (push_var_loop fuel out value).
Proof.
  revert out value. induction fuel as [|fuel IH]; intros out value Hv Hf; [lia|].
  cbn [push_var_loop]. destruct (Z.leb_spec 0x80 value); [|by eexists].
  assert (Hs : Z.shiftr value 7 = value / 2 ^ 7) by (apply Z.shiftr_div_pow2; lia).
  destruct fuel as [|fuel].
  { change (7 * Z.of_nat 1) with 7 in Hv. change (2 ^ 7) with 128 in Hv. lia. }
  apply IH; [|lia]. rewrite Hs. split; [apply Z.div_pos; lia|].
  apply Z.div_lt_upper_bound; [lia|]. rewrite <-Z.pow_add_r by lia.
  replace (7 + 7 * Z.of_nat (S fuel)) with (7 * Z.of_nat (S (S fuel))) by lia. lia.
Qed.

Lemma push_var_u64_app out value :
  in_u 64 value -> push_var_u64 out value = out ++ varint value.
Proof.
  intros Hv. unfold varint, push_var_u64. rewrite (push_var_loop_app _ out).
  destruct (push_var_loop_total 10 [] value) as [l ->]; [|lia|done].
  unfold in_u in Hv. change (2 ^ (7 * Z.of_nat 10)) with (2 ^ 6 * 2 ^ 64). lia.
Qed.

(** The two kinds of bytes the encoder emits. *)
Lemma continuation_byte value :
  0 <= value -> let b := Z.lor (Z.land (wrap 8 value) 0x7f) 0x80 in
  Z.land b 0x7f = value mod 128 /\ Z.land b 0x80 <> 0 /\ byte_ok b.
Proof.
  intros Hv. cbv zeta. assert (E : Z.land (wrap 8 value) 0x7f = value mod 128).
  { change 0x7f with (Z.ones 7). rewrite Z.land_ones by lia. unfold wrap.
    change (2 ^ 8) with (2 ^ 7 * 2). change (2 ^ 7) with 128.
    rewrite (Z.mod_eq value (128 * 2)) by lia.
    replace (value - 128 * 2 * (value / (128 * 2))) with (value + (- (2 * (value / (128 * 2)))) * 128) by lia.
    by rewrite Z.mod_add by lia. }
  rewrite E. pose proof (Z.mod_pos_bound value 128 ltac:(lia)) as Hb.
  set (r := value mod 128) in *. change 0x80 with (Z.shiftl 1 7).
  rewrite lor_shiftl_add by lia. change (1 * 2 ^ 7) with 128. split; [|split].
  - change 0x7f with (Z.ones 7). rewrite Z.land_ones by lia. change (2 ^ 7) with 128.
    replace (r + 128) with (r + 1 * 128) by lia. rewrite Z.mod_add by lia. by apply Z.mod_small.
  - intros H0. assert (Ht : Z.testbit (Z.land (r + 128) (Z.shiftl 1 7)) 7 = true);
      [|by rewrite H0 in Ht].
    rewrite Z.land_spec. change (Z.testbit (Z.shiftl 1 7) 7) with true. rewrite andb_true_r.
    rewrite Z.testbit_true by lia. change (2 ^ 7) with 128.
    replace (r + 128) with (r + 1 * 128) by lia.
    rewrite Z.div_add, Z.div_small by lia. done.
  - unfold byte_ok. lia.
Qed.

Lemma final_byte value :
  0 <= value < 128 ->
  wrap 8 value = value /\ Z.land value 0x7f = value /\ Z.land value 0x80 = 0 /\ byte_ok value.
Proof.
  intros Hv. unfold wrap. split; [apply Z.mod_small; lia|]. split; [|split].
  - change 0x7f with (Z.ones 7). rewrite Z.land_ones by lia. by apply Z.mod_small.
  - apply Z.bits_inj'. intros i Hi. rewrite Z.land_spec, Z.bits_0.
    destruct (Z.eq_dec i 7) as [->|Hne].
    + rewrite <-(Z.mod_small value (2 ^ 7)) by lia. by rewrite Z.mod_pow2_bits_high by lia.
    + change 0x80 with (2 ^ 7). rewrite Z.pow2_bits_false by lia. apply andb_false_r.
  - unfold byte_ok. lia.
Qed.

Lemma read_var_loop_encoded fuel pre bs post v acc shift :
  push_var_loop fuel [] v = Some bs -> 0 <= v -> 0 <= shift -> 0 <= acc < 2 ^ shift ->
  v * 2 ^ shift < 2 ^ 64 ->
  read_var_loop (pre ++ bs ++ post) fuel (length pre) acc shift
    = Ok (acc + v * 2 ^ shift, (length pre + length bs)%nat).
Proof.
  revert pre bs v acc shift. induction fuel as [|fuel IH]; intros pre bs v acc shift Hbs Hv Hs Ha Hm; [done|].
  cbn [push_var_loop] in Hbs. destruct (Z.leb_spec 0x80 v) as [Hge|Hlt].
  - rewrite push_var_loop_app in Hbs.
    destruct (push_var_loop fuel [] (Z.shiftr v 7)) as [bs'|] eqn:E; simpl in Hbs; [|done].
    injection Hbs as <-. set (b := Z.lor _ _).
    destruct (continuation_byte v Hv) as (Hb & Hc & _). fold b in Hb, Hc.
    cbn [read_var_loop]. rewrite lookup_app_r, Nat.sub_diag by lia. cbn [app lookup list_lookup].
    cbv zeta. destruct (Z.eqb_spec (Z.land b 0x80) 0); [done|].
    rewrite Hb. pose proof (Z.mod_pos_bound v 128 ltac:(lia)) as Hr.
    pose proof (Z.div_mod v 128 ltac:(lia)) as Hdm.
    assert (0 < 2 ^ shift) by (apply Z.pow_pos_nonneg; lia).
    assert (Hsh : shift + 7 < 64).
    { apply (Z.pow_lt_mono_r_iff 2); [lia|lia|]. rewrite Z.pow_add_r by lia.
      change (2 ^ 7) with 128. nia. }
    assert (Hp : 2 ^ (shift + 7) = 2 ^ shift * 128) by (rewrite Z.pow_add_r by lia; done).
    destruct (Z.leb_spec 64 (shift + 7)); [lia|].
    assert (Hacc : Z.lor acc (wrap 64 (Z.shiftl (v mod 128) shift)) = acc + v mod 128 * 2 ^ shift).
    { unfold wrap. rewrite Z.mod_small; [by apply lor_shiftl_add|].
      rewrite Z.shiftl_mul_pow2 by lia. split; [nia|]. nia. }
    rewrite Hacc.
    assert (Hsv : Z.shiftr v 7 = v / 128) by (rewrite Z.shiftr_div_pow2 by lia; done).
    rewrite Hsv in E.
    replace (pre ++ b :: bs' ++ post) with ((pre ++ [b]) ++ bs' ++ post) by (by rewrite <-app_assoc).
    replace (length pre + 1)%nat with (length (pre ++ [b])) by (rewrite length_app; done).
    rewrite (IH (pre ++ [b]) bs' (v / 128)); [| done | apply Z.div_pos; lia | lia | nia |].
    + f_equal. rewrite length_app. simpl. f_equal; [|lia]. rewrite Hp. nia.
    + rewrite Hp. nia.
  - injection Hbs as <-. cbn [read_var_loop].
    rewrite lookup_app_r, Nat.sub_diag by lia. cbn [app lookup list_lookup]. cbv zeta.
    destruct (final_byte v) as (-> & Hb & -> & _); [lia|]. rewrite Z.eqb_refl, Hb.
    f_equal. f_equal. unfold wrap. rewrite Z.mod_small; [by apply lor_shiftl_add|].
    rewrite Z.shiftl_mul_pow2 by lia. nia.
Qed.

Lemma varint_loop v : in_u 64 v -> push_var_loop 10 [] v = Some (varint v).
Proof.
  intros Hv. unfold varint, push_var_u64.
  destruct (push_var_loop_total 10 [] v) as [l ->]; [|lia|done].
  unfold in_u in Hv. change (2 ^ (7 * Z.of_nat 10)) with (2 ^ 6 * 2 ^ 64). lia.
Qed.

Lemma read_varint pre v post :
  in_u 64 v ->
  read_var_u64 (pre ++ varint v ++ post) (length pre)
    = Ok (v, (length pre + length (varint v))%nat).
Proof.
  intros Hv. unfold read_var_u64. unfold in_u in Hv.
  rewrite (read_var_loop_encoded 10 pre (varint v) post v 0 0);
    [|by apply varint_loop|lia..]. do 2 f_equal. lia.
Qed.

Lemma push_var_loop_length fuel out v l :
  push_var_loop fuel out v = Some l -> (length out < length l <= length out + fuel)%nat.
Proof.
  revert out v. induction fuel as [|fuel IH]; intros out v; cbn [push_var_loop]; [done|].
  destruct (0x80 <=? v).
  - intros H. apply IH in H. rewrite length_app in H. simpl in H. lia.
  - intros H. injection H as <-. rewrite length_app. simpl. lia.
Qed.

Lemma push_var_loop_bytes fuel out v l :
  push_var_loop fuel out v = Some l -> 0 <= v -> Forall byte_ok out -> Forall byte_ok l.
Proof.
  revert out v. induction fuel as [|fuel IH]; intros out v; cbn [push_var_loop]; [done|].
  destruct (Z.leb_spec 0x80 v) as [H|H]; intros Hl Hv Ho.
  - apply (IH _ _ Hl).
    + apply Z.shiftr_nonneg. lia.
    + apply Forall_app. split; [done|]. constructor; [|done]. by apply continuation_byte.
  - injection Hl as <-. apply Forall_app. split; [done|].
    destruct (final_byte v ltac:(lia)) as (-> & _ & _ & ?). by constructor.
Qed.

Lemma varint_bytes v : in_u 64 v -> Forall byte_ok (varint v).
Proof.
  intros Hv. eapply push_var_loop_bytes; [by apply varint_loop|apply Hv|constructor].
Qed.

Lemma varint_length v : in_u 64 v -> (1 <= length (varint v) <= 10)%nat.
Proof. intros Hv. pose proof (push_var_loop_length _ _ _ _ (varint_loop v Hv)). simpl in *. lia. Qed.

(** Reading any bytes: a success stays in the input and in range. *)
Lemma read_var_loop_bounds input fuel offset acc shift v off :
  Forall byte_ok input -> 0 <= shift -> in_u 64 acc ->
  read_var_loop input fuel offset acc shift = Ok (v, off) ->
  in_u 64 v /\ (offset < off <= offset + fuel)%nat /\ (off <= length input)%nat.
Proof.
  intros Hin. revert offset acc shift. induction fuel as [|fuel IH]; intros offset acc shift Hs Ha; [done|].
  cbn [read_var_loop]. destruct (input !! offset) as [b|] eqn:Eb; [|done]. cbv zeta.
  pose proof (lookup_lt_Some _ _ _ Eb) as Hlt.
  set (acc' := Z.lor acc _).
  assert (Ha' : in_u 64 acc').
  { assert (Hw : 0 <= wrap 64 (Z.shiftl (Z.land b 0x7f) shift) < 2 ^ 64)
      by (apply Z.mod_pos_bound; lia).
    subst acc'. unfold in_u in *. set (y := wrap 64 _) in *. split; [apply Z.lor_nonneg; lia|].
    assert (E : Z.lor acc y = Z.lor acc y mod 2 ^ 64); [|rewrite E; apply Z.mod_pos_bound; lia].
    apply Z.bits_inj'. intros i Hi. destruct (Z.lt_ge_cases i 64).
    - by rewrite Z.mod_pow2_bits_low by lia.
    - rewrite Z.mod_pow2_bits_high, Z.lor_spec by lia.
      rewrite <-(Z.mod_small acc (2 ^ 64)), <-(Z.mod_small y (2 ^ 64)) by lia.
      by rewrite !Z.mod_pow2_bits_high by lia. }
  destruct (Z.land b 0x80 =? 0).
  - intros H. injection H as <- <-. split; [done|]. lia.
  - destruct (64 <=? shift + 7); [done|]. intros H.
    destruct (IH _ _ (shift + 7) ltac:(lia) Ha' H) as (? & ? & ?). split; [done|]. lia.
Qed.

(** ** Lemmas: posting lists *)

(** What one posting adds to the output. *)
Fixpoint positions_bytes (last_position : Z) (ps : list Position) : list Z :=
  match ps with
  | [] => []
  | p :: ps' => varint (wrap 32 (p - last_position)) ++ positions_bytes p ps'
  end.
Definition posting_bytes (last_doc_id : Z) (p : Posting) : list Z :=
  varint (wrap 64 (doc_id p - last_doc_id)) ++ varint (weight p)
  ++ varint (wrap 32 (zlen (positions p))) ++ positions_bytes 0 (positions p).
Fixpoint postings_bytes (last_doc_id : Z) (l : list Posting) : list Z :=
  match l with
  | [] => []
  | p :: l' => posting_bytes last_doc_id p ++ postings_bytes (doc_id p) l'
  end.

(** The machine ranges of a posting: what a [Posting] value of the code satisfies. *)
Record posting_in_range (p : Posting) : Prop := {
  pr_doc : in_u 64 (doc_id p);
  pr_weight : in_u 16 (weight p);
  pr_positions : Forall (in_u 32) (positions p);
  pr_count : in_u 32 (zlen (positions p))
}.

Lemma in_u_wrap w x : 0 <= w -> in_u w (wrap w x).
Proof. intros. apply Z.mod_pos_bound. apply Z.pow_pos_nonneg; lia. Qed.

Lemma in_u_weaken w w' x : 0 <= w <= w' -> in_u w x -> in_u w' x.
Proof. unfold in_u. intros. pose proof (Z.pow_le_mono_r 2 w w'). lia. Qed.

Lemma wrap_sub_add w x y : 0 <= w -> in_u w x -> wrap w (y + wrap w (x - y)) = x.
Proof.
  intros Hw Hx. unfold wrap. rewrite Z.add_mod_idemp_r by (apply Z.pow_nonzero; lia).
  replace (y + (x - y)) with x by lia. by apply Z.mod_small.
Qed.

#[export] Hint Resolve in_u_wrap : riets.

Lemma encode_positions_app out lp ps :
  encode_positions out lp ps = out ++ positions_bytes lp ps.
Proof.
  revert out lp. induction ps as [|p ps IH]; intros out lp; simpl; [by rewrite app_nil_r|].
  rewrite IH. unfold push_var_u32. rewrite push_var_u64_app.
  - by rewrite <-app_assoc.
  - apply (in_u_weaken 32); [lia|]. by apply in_u_wrap.
Qed.

Lemma encode_postings_app out ld l :
  Forall posting_in_range l -> encode_postings out ld l = out ++ postings_bytes ld l.
Proof.
  intros Hl. revert out ld. induction Hl as [|p l Hp Hl IH]; intros out ld; simpl; [by rewrite app_nil_r|].
  destruct Hp as [Hd Hw Hps Hc]. rewrite IH, encode_positions_app.
  unfold push_var_u32, push_var_u16. rewrite !push_var_u64_app.
  - unfold posting_bytes. by rewrite <-!app_assoc.
  - by apply in_u_wrap.
  - apply (in_u_weaken 16); [lia|done].
  - apply (in_u_weaken 32); [lia|]. by apply in_u_wrap.
Qed.

Lemma read_varint_u32 pre v post :
  in_u 32 v ->
  read_var_u32 (pre ++ varint v ++ post) (length pre)
    = Ok (v, (length pre + length (varint v))%nat).
Proof.
  intros Hv. unfold read_var_u32. rewrite read_varint by (apply (in_u_weaken 32); [lia|done]).
  cbn [io_bind]. unfold in_u in Hv. by destruct (Z.ltb_spec v (2 ^ 32)); [|lia].
Qed.

Lemma read_varint_u16 pre v post :
  in_u 16 v ->
  read_var_u16 (pre ++ varint v ++ post) (length pre)
    = Ok (v, (length pre + length (varint v))%nat).
Proof.
  intros Hv. unfold read_var_u16. rewrite read_varint by (apply (in_u_weaken 16); [lia|done]).
  cbn [io_bind]. unfold in_u in Hv. by destruct (Z.ltb_spec v (2 ^ 16)); [|lia].
Qed.

Lemma read_positions_encoded pre post lp acc ps :
  Forall (in_u 32) ps ->
  read_positions (pre ++ positions_bytes lp ps ++ post) (length ps) (length pre) lp acc
    = Ok (acc ++ ps, (length pre + length (positions_bytes lp ps))%nat).
Proof.
  intros Hps. revert pre lp acc. induction Hps as [|p ps Hp Hps IH]; intros pre lp acc; simpl.
  { by rewrite app_nil_r, Nat.add_0_r. }
  rewrite <-app_assoc, read_varint_u32 by (by apply in_u_wrap). cbn [io_bind].
  rewrite wrap_sub_add by (done || lia). rewrite (app_assoc pre), <-length_app, IH.
  do 2 f_equal.
  - by rewrite <-app_assoc.
  - rewrite !length_app. lia.
Qed.

Lemma read_posting_encoded pre post ld p :
  posting_in_range p ->
  read_posting (pre ++ posting_bytes ld p ++ post) (length pre) ld
    = Ok (p, (length pre + length (posting_bytes ld p))%nat).
Proof.
  intros [Hd Hw Hps Hc]. unfold read_posting, posting_bytes.
  replace (wrap 32 (zlen (positions p))) with (zlen (positions p))
    by (symmetry; apply Z.mod_small, Hc). rewrite <-!app_assoc.
  rewrite read_varint by (by apply in_u_wrap). cbn [io_bind].
  rewrite wrap_sub_add by (done || lia). rewrite (app_assoc pre), <-length_app.
  rewrite read_varint_u16 by done. cbn [io_bind]. rewrite (app_assoc (pre ++ _)), <-length_app.
  rewrite read_varint_u32 by done. cbn [io_bind].
  rewrite Nat2Z.id, (app_assoc ((pre ++ _) ++ _)), <-length_app.
  rewrite read_positions_encoded by done. cbn [io_bind]. destruct p as [d ps w]; simpl.
  do 2 f_equal. rewrite !length_app. lia.
Qed.

Lemma read_postings_encoded pre post ld out l :
  Forall posting_in_range l ->
  read_postings_loop (pre ++ postings_bytes ld l ++ post) (length l) (length pre) ld out
    = (out ++ l, Ok tt).
Proof.
  intros Hl. revert pre ld out. induction Hl as [|p l Hp Hl IH]; intros pre ld out; simpl.
  { by rewrite app_nil_r. }
  rewrite <-app_assoc, read_posting_encoded by done.
  rewrite (app_assoc pre), <-length_app, IH. by rewrite <-app_assoc.
Qed.

Lemma read_into_encoded pl post out :
  Forall posting_in_range (items pl) ->
  read_posting_list_into (encode_posting_list [] pl ++ post) (zlen (items pl)) out
    = (out ++ items pl, Ok tt).
Proof.
  intros Hl. unfold read_posting_list_into, encode_posting_list.
  rewrite encode_postings_app, Nat2Z.id by done.
  exact (read_postings_encoded [] post 0 out (items pl) Hl).
Qed.

Lemma read_list_encoded pl post :
  Forall posting_in_range (items pl) ->
  read_posting_list (encode_posting_list [] pl ++ post) (zlen (items pl)) (max_weight pl) = Ok pl.
Proof.
  intros Hl. unfold read_posting_list. rewrite read_into_encoded by done. by destruct pl.
Qed.

(** ** Main theorems *)

(** Appending a [u64] as a varint and reading it back at that place, whatever surrounds
    it, returns the value and the offset just after it; the encoding has one to ten bytes. *)
Theorem varint_roundtrip pre v post :
  in_u 64 v ->
  read_var_u64 (push_var_u64 pre v ++ post) (length pre)
    = Ok (v, length (push_var_u64 pre v)) /\
  (1 <= length (push_var_u64 pre v) - length pre <= 10)%nat.
Proof.
  intros Hv. rewrite push_var_u64_app, length_app by done. split.
  - rewrite <-app_assoc. by apply read_varint.
  - pose proof (varint_length v Hv). lia.
Qed.

Lemma varint_roundtrip_witness :
  read_var_u64 (push_var_u64 [7; 8] 624485 ++ [9]) (length [7; 8])
    = Ok (624485, length (push_var_u64 [7; 8] 624485)).
Proof. apply varint_roundtrip. split; vm_compute; congruence. Defined.

(** On arbitrary bytes the varint reader returns an error or a value that fits in 64
    bits, after consuming between one and ten bytes that exist. *)
Theorem varint_read_bounds input offset :
  Forall byte_ok input ->
  match read_var_u64 input offset with
  | Ok (v, off) => in_u 64 v /\ (offset < off <= offset + 10)%nat /\ (off <= length input)%nat
  | Err e => e = varint_eof \/ e = varint_too_large
  end.
Proof.
  intros Hin. destruct (read_var_u64 input offset) as [[v off]|e] eqn:E.
  - unfold read_var_u64 in E. apply read_var_loop_bounds in E; [done|done|lia|].
    split; vm_compute; congruence.
  - unfold read_var_u64 in E. revert E. generalize 0 at 2. generalize 0. generalize 10%nat at 1.
    intros fuel. revert offset. induction fuel as [|fuel IH]; intros offset acc shift; cbn [read_var_loop].
    { intros H. injection H as <-. by right. }
    destruct (input !! offset); [|intros H; injection H as <-; by left]. cbv zeta.
    destruct (_ =? 0); [done|]. destruct (64 <=? _); [intros H; injection H as <-; by right|].
    apply IH.
Qed.

Lemma varint_read_bounds_witness :
  match read_var_u64 [255; 3; 4] 0 with
  | Ok (v, off) => in_u 64 v /\ (0 < off <= 0 + 10)%nat /\ (off <= length [255; 3; 4])%nat
  | Err e => e = varint_eof \/ e = varint_too_large
  end.
Proof. apply (varint_read_bounds [255; 3; 4] 0). repeat constructor; vm_compute; congruence. Defined.

(** C36: decoding the encoded bytes of a posting list (followed by anything) returns exactly
    its postings and its weight bound. *)
Theorem posting_list_roundtrip pl post :
  Forall posting_in_range (items pl) ->
  read_posting_list (encode_posting_list [] pl ++ post) (zlen (items pl)) (max_weight pl) = Ok pl.
Proof. apply read_list_encoded. Qed.

Lemma posting_list_roundtrip_witness :
  read_posting_list
    (encode_posting_list [] (mkPostingList [mkPosting 300 [1; 16; 500] 5; mkPosting 9000 [] 1] 5) ++ [1])
    2 5 = Ok (mkPostingList [mkPosting 300 [1; 16; 500] 5; mkPosting 9000 [] 1] 5).
Proof.
  apply (posting_list_roundtrip (mkPostingList [mkPosting 300 [1; 16; 500] 5; mkPosting 9000 [] 1] 5) [1]).
  repeat constructor; vm_compute; congruence.
Defined.
