(* ===== verification/Numeric.v ===== *)
(** * Numeric fields

    Models [numeric_values.rs], [bkd.rs] and [document_values.rs] of
    [crates/core-index/src]: the order-preserving packing of [i64] and [f64] into [u64], the
    in-memory points of a field, and the two frozen structures built from them: the sorted
    points for range queries ([Bkd]) and the blocked doc-to-value table ([DocValues]).

    An [f64] is its bit pattern, a [u64]: the code only uses [to_bits], [from_bits] and
    [total_cmp] on it. *)
From Stdlib Require Import ZArith Lia.
From stdpp Require Import base numbers list sorting gmap strings.
From S2P Require Import Prelude Types.

(** ** Values *)

Inductive NumericKind : Type := KInt | KFloat.
Inductive NumericValue : Type := VInt (v : Z) | VFloat (bits : Z).

#[global] Instance NumericKind_eq_dec : EqDecision NumericKind.
Proof. solve_decision. Defined.
#[global] Instance NumericValue_eq_dec : EqDecision NumericValue.
Proof. solve_decision. Defined.

Definition kind_of (v : NumericValue) : NumericKind :=
  match v with VInt _ => KInt | VFloat _ => KFloat end.

Definition kind_to_byte (k : NumericKind) : Z := match k with KInt => 0 | KFloat => 1 end.
Definition kind_from_byte (b : Z) : option NumericKind :=
  if b =? 0 then Some KInt else if b =? 1 then Some KFloat else None.

(** Reinterpreting casts between [i64] and [u64]. *)
Definition as_u64 (v : Z) : Z := v mod 2 ^ 64.
Definition as_i64 (x : Z) : Z := if x <? 2 ^ 63 then x else x - 2 ^ 64.

(** [f64::total_cmp]: [left ^= (((left >> 63) as u64) >> 1) as i64], then [i64] order. *)
Definition total_key (bits : Z) : Z :=
  let left := as_i64 bits in
  Z.lxor left (Z.shiftr (as_u64 (Z.shiftr left 63)) 1).

(** [impl Ord for NumericValue]. *)
Definition value_cmp (a b : NumericValue) : comparison :=
  match a, b with
  | VInt a, VInt b => a ?= b
  | VFloat a, VFloat b => total_key a ?= total_key b
  | VInt _, VFloat _ => Lt
  | VFloat _, VInt _ => Gt
  end.

Record NumericBound : Type := mkBound { bound_value : NumericValue; inclusive : bool }.

Definition below_lo (b : NumericBound) (v : NumericValue) : bool :=
  match value_cmp v (bound_value b) with Lt => true | Eq => negb (inclusive b) | Gt => false end.
Definition past_hi (b : NumericBound) (v : NumericValue) : bool :=
  match value_cmp v (bound_value b) with Gt => true | Eq => negb (inclusive b) | Lt => false end.

Definition in_bounds (v : NumericValue) (lo hi : option NumericBound) : bool :=
  match lo with None => true | Some lo => negb (below_lo lo v) end &&
  match hi with None => true | Some hi => negb (past_hi hi v) end.

Definition pack_int (v : Z) : Z := Z.lxor (as_u64 v) (Z.shiftl 1 63).
Definition unpack_int (packed : Z) : Z := as_i64 (Z.lxor packed (Z.shiftl 1 63)).
Definition not64 (x : Z) : Z := Z.lxor x (u_max 64).
Definition pack_float (bits : Z) : Z :=
  if negb (Z.land bits (Z.shiftl 1 63) =? 0) then not64 bits else Z.lxor bits (Z.shiftl 1 63).
Definition unpack_float (packed : Z) : Z :=
  if negb (Z.land packed (Z.shiftl 1 63) =? 0) then Z.lxor packed (Z.shiftl 1 63) else not64 packed.

Definition pack (v : NumericValue) : Z :=
  match v with VInt v => pack_int v | VFloat b => pack_float b end.
Definition unpack (packed : Z) (k : NumericKind) : NumericValue :=
  match k with KInt => VInt (unpack_int packed) | KFloat => VFloat (unpack_float packed) end.

(** ** [Bkd]: points sorted by packed value *)

Record Bkd : Type := mkBkd { bkd_kind : NumericKind; bkd_points : list (Z * DocId) }.

Definition pair_leb (a b : Z * Z) : bool := (a.1 <? b.1) || ((a.1 =? b.1) && (a.2 <=? b.2)).

Definition bkd_build (kind : NumericKind) (points : list (NumericValue * DocId)) : Bkd :=
  mkBkd kind (stable_sort pair_leb (map (fun p => (pack p.1, p.2)) points)).

Definition bkd_from_packed (kind : NumericKind) (points : list (Z * DocId)) : string + Bkd :=
  if negb (is_sorted_by_key fst points) then inl "bkd points must be sorted by packed value"%string
  else inr (mkBkd kind points).

Definition points_kind (points : list (DocId * NumericValue)) : NumericKind :=
  match points with [] => KInt | p :: _ => kind_of p.2 end.

Definition bkd_from_points (points : list (DocId * NumericValue)) : Bkd :=
  bkd_build (points_kind points) (map (fun p => (p.2, p.1)) points).

Definition bkd_min (b : Bkd) : option NumericValue :=
  (fun p => unpack p.1 (bkd_kind b)) <$> head (bkd_points b).
Definition bkd_max (b : Bkd) : option NumericValue :=
  (fun p => unpack p.1 (bkd_kind b)) <$> last (bkd_points b).

Definition bkd_range (b : Bkd) (lo hi : option NumericBound) : list DocId :=
  let start := match lo with
    | Some lo =>
      let bound := pack (bound_value lo) in
      if inclusive lo then partition_point (fun p => p.1 <? bound) (bkd_points b)
      else partition_point (fun p => p.1 <=? bound) (bkd_points b)
    | None => 0%nat
    end in
  let stop := match hi with
    | Some hi =>
      let bound := pack (bound_value hi) in
      if inclusive hi then partition_point (fun p => p.1 <=? bound) (bkd_points b)
      else partition_point (fun p => p.1 <? bound) (bkd_points b)
    | None => length (bkd_points b)
    end in
  if (stop <=? start)%nat then []
  else dedup (sort_unstable (map snd (slice start (stop - start) (bkd_points b)))).

(** ** [DocValues]: document to value, in blocks *)

Definition BLOCK_SIZE : nat := 256.

Record DocValues : Type := mkDocValues {
  dv_kind : NumericKind;
  dv_entries : list (DocId * Z);
  dv_block_first : list DocId
}.

(** [entries.chunks(BLOCK_SIZE).map(|chunk| chunk[0].0)]; there are at most as many chunks as
    entries. *)
Fixpoint chunk_firsts (fuel : nat) (l : list (DocId * Z)) : list DocId :=
  match fuel, l with
  | S fuel', p :: _ => p.1 :: chunk_firsts fuel' (drop BLOCK_SIZE l)
  | _, _ => []
  end.
Definition block_first_doc (l : list (DocId * Z)) : list DocId := chunk_firsts (length l) l.

Definition dv_build (kind : NumericKind) (entries : list (DocId * NumericValue)) : DocValues :=
  let entries := sort_by_key fst (map (fun e => (e.1, pack e.2)) entries) in
  mkDocValues kind entries (block_first_doc entries).
Definition dv_from_points (points : list (DocId * NumericValue)) : DocValues :=
  dv_build (points_kind points) points.
Definition dv_from_packed (kind : NumericKind) (entries : list (DocId * Z)) : string + DocValues :=
  if negb (is_sorted_by_key fst entries) then inl "doc values must be sorted by doc id"%string
  else inr (mkDocValues kind entries (block_first_doc entries)).

Definition dv_first_doc (dv : DocValues) : option DocId := fst <$> head (dv_entries dv).
Definition dv_last_doc (dv : DocValues) : option DocId := fst <$> last (dv_entries dv).

Definition dv_get (dv : DocValues) (d : DocId) : option NumericValue :=
  match dv_first_doc dv, dv_last_doc dv with
  | Some first, Some lst =>
    if (d <? first) || (lst <? d) then None
    else
      let blocks_before := partition_point (fun first => first <=? d) (dv_block_first dv) in
      let block := (blocks_before - 1)%nat in
      let start := (block * BLOCK_SIZE)%nat in
      let stop := Nat.min (start + BLOCK_SIZE) (length (dv_entries dv)) in
      match binary_search_by_key fst d (slice start (stop - start) (dv_entries dv)) with
      | inl offset =>
        (fun e => unpack e.2 (dv_kind dv)) <$> dv_entries dv !! (start + offset)%nat
      | inr _ => None
      end
  | _, _ => None
  end.

(** ** Frozen fields and in-memory points *)

Record NumericField : Type := mkNumericField { nf_bkd : Bkd; nf_doc_values : DocValues }.
Definition nf_bounds (f : NumericField) : option NumericValue * option NumericValue :=
  (bkd_min (nf_bkd f), bkd_max (nf_bkd f)).

Abbreviation NumericFields := (gmap Z NumericField) (only parsing).
Abbreviation NumericPoints := (gmap Z (list (Z * NumericValue))) (only parsing).

Definition nfs_from_points (points : NumericPoints) : NumericFields :=
  (fun pts => mkNumericField (bkd_from_points pts) (dv_from_points pts)) <$> points.
Definition nfs_bounds (fs : NumericFields) (xpath : XPathId)
    : option NumericValue * option NumericValue :=
  match fs !! xpath with Some f => nf_bounds f | None => (None, None) end.
Definition nfs_range (fs : NumericFields) (xpath : XPathId) (lo hi : option NumericBound)
    : list DocId :=
  match fs !! xpath with Some f => bkd_range (nf_bkd f) lo hi | None => [] end.
Definition nfs_get (fs : NumericFields) (xpath : XPathId) (d : DocId) : option NumericValue :=
  match fs !! xpath with Some f => dv_get (nf_doc_values f) d | None => None end.
Definition nfs_insert_field (fs : NumericFields) (xpath : XPathId) (f : NumericField)
    : NumericFields := <[xpath := f]> fs.

Definition points_insert (pts : list (DocId * NumericValue)) (value : NumericValue) (d : DocId)
    : list (DocId * NumericValue) :=
  match last pts with
  | Some (lst, _) =>
    if d <? lst then
      let at_ := partition_point (fun p => p.1 <=? d) pts in
      take at_ pts ++ (d, value) :: drop at_ pts
    else pts ++ [(d, value)]
  | None => pts ++ [(d, value)]
  end.
Definition np_insert (np : NumericPoints) (xpath : XPathId) (value : NumericValue) (d : DocId)
    : NumericPoints :=
  <[xpath := points_insert (default [] (np !! xpath)) value d]> np.
Definition np_build (np : NumericPoints) : NumericFields := nfs_from_points np.

Definition points_get (pts : list (DocId * NumericValue)) (d : DocId) : option NumericValue :=
  let at_ := partition_point (fun p => p.1 <? d) pts in
  match pts !! at_ with
  | Some (doc, value) => if doc =? d then Some value else None
  | None => None
  end.
Definition np_get (np : NumericPoints) (xpath : XPathId) (d : DocId) : option NumericValue :=
  match np !! xpath with Some pts => points_get pts d | None => None end.

Definition np_range (np : NumericPoints) (xpath : XPathId) (lo hi : option NumericBound)
    : list DocId :=
  match np !! xpath with
  | None => []
  | Some pts =>
    dedup (sort_unstable (map fst (filter (fun p => in_bounds p.2 lo hi = true) pts)))
  end.

(** The body of the loop of [NumericPoints::merge]: [mine] is the receiver's vector. *)
Definition points_merge (mine other : list (DocId * NumericValue)) : list (DocId * NumericValue) :=
  let mine := mine ++ other in
  if negb (is_sorted_by_key fst mine) then sort_by_key fst mine else mine.
(** A field of [other] is merged into the receiver's entry (empty when absent), the fields
    only the receiver has stay. *)
Definition np_merge (self other : NumericPoints) : NumericPoints :=
  merge (fun mine o =>
    match o with
    | Some points => Some (points_merge (default [] mine) points)
    | None => mine
    end) self other.

(** [Iterator::min] and [Iterator::max] (the first least, the last greatest). *)
Definition values_min (l : list NumericValue) : option NumericValue :=
  match l with
  | [] => None
  | v :: l' => Some (fold_left (fun m x => match value_cmp x m with Lt => x | _ => m end) l' v)
  end.
Definition values_max (l : list NumericValue) : option NumericValue :=
  match l with
  | [] => None
  | v :: l' => Some (fold_left (fun m x => match value_cmp x m with Lt => m | _ => x end) l' v)
  end.
Definition np_bounds (np : NumericPoints) (xpath : XPathId)
    : option NumericValue * option NumericValue :=
  match np !! xpath with
  | None => (None, None)
  | Some pts => (values_min (map snd pts), values_max (map snd pts))
  end.

(** ** Lemmas: packing *)

Lemma lxor_bit63_lo x : 0 <= x < 2 ^ 63 -> Z.lxor x (Z.shiftl 1 63) = x + 2 ^ 63.
Proof.
  intros Hx. rewrite Z.shiftl_1_l. symmetry. apply Z.add_nocarry_lxor.
  apply Z.bits_inj'. intros i Hi. rewrite Z.land_spec, Z.bits_0.
  destruct (Z.eq_dec i 63) as [->|Hne].
  - rewrite <-(Z.mod_small x (2 ^ 63)) by lia. by rewrite Z.mod_pow2_bits_high by lia.
  - rewrite Z.pow2_bits_false by lia. apply andb_false_r.
Qed.

Lemma lxor_bit63_hi x : 2 ^ 63 <= x < 2 ^ 64 -> Z.lxor x (Z.shiftl 1 63) = x - 2 ^ 63.
Proof.
  intros Hx. pose proof (lxor_bit63_lo (x - 2 ^ 63) ltac:(lia)) as E.
  replace (x - 2 ^ 63 + 2 ^ 63) with x in E by lia. rewrite <-E at 1.
  by rewrite Z.lxor_assoc, Z.lxor_nilpotent, Z.lxor_0_r.
Qed.

Lemma land_bit63 x : in_u 64 x -> (Z.land x (Z.shiftl 1 63) =? 0) = (x <? 2 ^ 63).
Proof.
  unfold in_u. intros Hx. destruct (Z.ltb_spec x (2 ^ 63)) as [H|H].
  - apply Z.eqb_eq. pose proof (lxor_bit63_lo x ltac:(lia)) as E.
    pose proof (Z.add_lor_land x (Z.shiftl 1 63)) as E2.
    rewrite Z.shiftl_1_l in *. apply Z.bits_inj'. intros i Hi. rewrite Z.land_spec, Z.bits_0.
    destruct (Z.eq_dec i 63) as [->|Hne].
    + rewrite <-(Z.mod_small x (2 ^ 63)) by lia. by rewrite Z.mod_pow2_bits_high by lia.
    + rewrite Z.pow2_bits_false by lia. apply andb_false_r.
  - apply Z.eqb_neq. intros E. rewrite Z.shiftl_1_l in E.
    assert (Ht : Z.testbit (Z.land x (2 ^ 63)) 63 = true); [|by rewrite E in Ht].
    rewrite Z.land_spec, Z.pow2_bits_true by lia. rewrite andb_true_r, Z.testbit_true by lia.
    replace (x / 2 ^ 63) with 1; [done|]. apply Z.div_unique with (x - 2 ^ 63); lia.
Qed.

Lemma lxor_ones n k : 0 <= k -> 0 <= n < 2 ^ k -> Z.lxor n (Z.ones k) = Z.ones k - n.
Proof.
  intros Hk Hn. rewrite Z.sub_nocarry_ldiff.
  - apply Z.bits_inj'. intros i Hi. rewrite Z.lxor_spec, Z.ldiff_spec.
    destruct (Z.lt_ge_cases i k).
    + rewrite Z.ones_spec_low by lia. by destruct (Z.testbit n i).
    + rewrite Z.ones_spec_high by lia. rewrite <-(Z.mod_small n (2 ^ k)) by lia.
      by rewrite Z.mod_pow2_bits_high by lia.
  - apply Z.bits_inj'. intros i Hi. rewrite Z.ldiff_spec, Z.bits_0.
    destruct (Z.lt_ge_cases i k).
    + rewrite Z.ones_spec_low by lia. apply andb_false_r.
    + rewrite <-(Z.mod_small n (2 ^ k)) by lia. by rewrite Z.mod_pow2_bits_high by lia.
Qed.

Lemma pack_int_arith v : in_i64 v -> pack_int v = v + 2 ^ 63.
Proof.
  unfold in_i64, pack_int, as_u64. intros Hv. destruct (Z.lt_ge_cases v 0).
  - replace (v mod 2 ^ 64) with (v + 2 ^ 64).
    + rewrite lxor_bit63_hi by lia. lia.
    + apply Z.mod_unique with (-1); lia.
  - rewrite Z.mod_small, lxor_bit63_lo by lia. lia.
Qed.

Lemma unpack_pack_int v : in_i64 v -> unpack_int (pack_int v) = v.
Proof.
  intros Hv. rewrite pack_int_arith by done. unfold in_i64, unpack_int, as_i64 in *.
  destruct (Z.lt_ge_cases v 0).
  - rewrite lxor_bit63_lo by lia. cmp_cases; lia.
  - rewrite lxor_bit63_hi by lia. cmp_cases; lia.
Qed.

Lemma not64_arith x : in_u 64 x -> not64 x = 2 ^ 64 - 1 - x.
Proof.
  intros Hx. unfold not64, u_max. change (2 ^ 64 - 1) with (Z.ones 64).
  by rewrite lxor_ones by (lia || apply Hx).
Qed.

Lemma pack_float_arith b :
  in_u 64 b -> pack_float b = if b <? 2 ^ 63 then b + 2 ^ 63 else 2 ^ 64 - 1 - b.
Proof.
  intros Hb. unfold pack_float. rewrite land_bit63, not64_arith by done. unfold in_u in Hb.
  destruct (Z.ltb_spec b (2 ^ 63)); simpl; [|done]. by rewrite lxor_bit63_lo by lia.
Qed.

Lemma unpack_pack_float b : in_u 64 b -> unpack_float (pack_float b) = b.
Proof.
  intros Hb. rewrite pack_float_arith by done. unfold unpack_float, in_u in *.
  destruct (Z.ltb_spec b (2 ^ 63)) as [H|H].
  - rewrite land_bit63 by (unfold in_u; lia).
    destruct (Z.ltb_spec (b + 2 ^ 63) (2 ^ 63)); [lia|]. simpl. rewrite lxor_bit63_hi by lia. lia.
  - rewrite land_bit63 by (unfold in_u; lia).
    destruct (Z.ltb_spec (2 ^ 64 - 1 - b) (2 ^ 63)); [|lia]. simpl.
    rewrite not64_arith by (unfold in_u; lia). lia.
Qed.

Lemma total_key_arith b : in_u 64 b -> total_key b = if b <? 2 ^ 63 then b else 2 ^ 63 - 1 - b.
Proof.
  unfold in_u, total_key, as_i64. intros Hb. destruct (Z.ltb_spec b (2 ^ 63)) as [H|H].
  - replace (Z.shiftr b 63) with 0; [by rewrite Z.lxor_0_r|].
    rewrite Z.shiftr_div_pow2 by lia. symmetry. apply Z.div_small. lia.
  - replace (Z.shiftr (b - 2 ^ 64) 63) with (-1).
    + change (Z.shiftr (as_u64 (-1)) 1) with (Z.ones 63).
      assert (E : Z.lnot (Z.lxor (b - 2 ^ 64) (Z.ones 63))
                  = Z.lxor (Z.lnot (b - 2 ^ 64)) (Z.ones 63)).
      { apply Z.bits_inj'. intros i Hi. rewrite Z.lnot_spec, !Z.lxor_spec, Z.lnot_spec by lia.
        by destruct (Z.testbit _ i), (Z.testbit _ i). }
      rewrite (lxor_ones (Z.lnot (b - 2 ^ 64))) in E by (unfold Z.lnot; lia).
      set (x := Z.lxor _ _) in *. change (Z.ones 63) with (2 ^ 63 - 1) in E.
      unfold Z.lnot in E. lia.
    + rewrite Z.shiftr_div_pow2 by lia. apply Z.div_unique with (b - 2 ^ 64 + 2 ^ 63); lia.
Qed.

(** A value of the code: an [i64] or the bits of an [f64]. *)
Definition value_ok (v : NumericValue) : Prop :=
  match v with VInt v => in_i64 v | VFloat b => in_u 64 b end.

Lemma pack_range v : value_ok v -> in_u 64 (pack v).
Proof.
  destruct v as [v|b]; simpl; intros H.
  - rewrite pack_int_arith by done. unfold in_i64, in_u in *. lia.
  - rewrite pack_float_arith by done. unfold in_u in *. cmp_cases; lia.
Qed.

Lemma pack_compare a b :
  value_ok a -> value_ok b -> kind_of a = kind_of b -> (pack a ?= pack b) = value_cmp a b.
Proof.
  destruct a as [a|a], b as [b|b]; simpl; try done; intros Ha Hb _.
  - rewrite !pack_int_arith by done.
    destruct (Z.compare_spec (a + 2 ^ 63) (b + 2 ^ 63)), (Z.compare_spec a b); (done || lia).
  - rewrite !pack_float_arith, !total_key_arith by done. unfold in_u in *.
    destruct (Z.ltb_spec a (2 ^ 63)), (Z.ltb_spec b (2 ^ 63));
      match goal with |- (?x ?= ?y) = (?z ?= ?w) =>
        destruct (Z.compare_spec x y), (Z.compare_spec z w) end; (done || lia).
Qed.

Lemma unpack_pack v : value_ok v -> unpack (pack v) (kind_of v) = v.
Proof.
  destruct v as [v|b]; simpl; intros H; f_equal;
    [by apply unpack_pack_int|by apply unpack_pack_float].
Qed.

(** ** Lemmas: range queries *)

Lemma pair_leb_total a b : pair_leb a b = true \/ pair_leb b a = true.
Proof. unfold pair_leb. cmp_cases; simpl; auto; lia. Qed.

Lemma pair_leb_trans a b c : pair_leb a b = true -> pair_leb b c = true -> pair_leb a c = true.
Proof.
  unfold pair_leb. rewrite !orb_true_iff, !andb_true_iff, !Z.ltb_lt, !Z.eqb_eq, !Z.leb_le. lia.
Qed.

Lemma sort_pairs_sorted l : StronglySorted (key_le fst) (stable_sort pair_leb l).
Proof.
  pose proof (stable_sort_sorted pair_leb pair_leb_total pair_leb_trans l) as H.
  induction H as [|x l' Hl IH Hx]; constructor; [done|]. eapply Forall_impl; [exact Hx|].
  unfold pair_leb, key_le. intros y Hy. apply orb_true_iff in Hy as [Hy|Hy].
  - apply Z.ltb_lt in Hy. lia.
  - apply andb_true_iff in Hy as [Hy _]. apply Z.eqb_eq in Hy. lia.
Qed.

Lemma partitioned_iff {A} (pred : A -> bool) l i x :
  partitioned pred l -> l !! i = Some x -> (i < count_while pred l)%nat <-> pred x = true.
Proof.
  intros Hp Hx. split.
  - intros H. by eapply count_while_prefix.
  - intros E. apply count_while_mono; [done| |by eapply lookup_lt_Some].
    intros y Hy. congruence.
Qed.

Lemma elem_of_slice {A} (x : A) start len l :
  x ∈ slice start len l <-> exists i, l !! i = Some x /\ (start <= i < start + len)%nat.
Proof.
  unfold slice. rewrite list_elem_of_lookup. split.
  - intros [i Hi]. apply lookup_take_Some in Hi as [Hi ?]. rewrite lookup_drop in Hi.
    exists (start + i)%nat. split; [done|lia].
  - intros (i & Hi & ?). exists (i - start)%nat. apply lookup_take_Some. rewrite lookup_drop.
    split; [|lia]. by replace (start + (i - start))%nat with i by lia.
Qed.

(** The points before [start] and before [stop], as predicates. *)
Definition lo_pred (lo : option NumericBound) (p : Z * DocId) : bool :=
  match lo with
  | Some b => if inclusive b then p.1 <? pack (bound_value b) else p.1 <=? pack (bound_value b)
  | None => false
  end.
Definition hi_pred (hi : option NumericBound) (p : Z * DocId) : bool :=
  match hi with
  | Some b => if inclusive b then p.1 <=? pack (bound_value b) else p.1 <? pack (bound_value b)
  | None => true
  end.

Lemma lo_pred_partitioned lo l : StronglySorted (key_le fst) l -> partitioned (lo_pred lo) l.
Proof.
  intros Hs. destruct lo as [[v []]|]; simpl.
  - by apply (sorted_partitioned_lt fst).
  - by apply (sorted_partitioned_le fst).
  - intros i j x y _ _ _ H. done.
Qed.

Lemma hi_pred_partitioned hi l : StronglySorted (key_le fst) l -> partitioned (hi_pred hi) l.
Proof.
  intros Hs. destruct hi as [[v []]|]; simpl.
  - by apply (sorted_partitioned_le fst).
  - by apply (sorted_partitioned_lt fst).
  - intros i j x y _ _ _ H. done.
Qed.

Lemma count_while_false {A} (l : list A) : count_while (fun _ => false) l = 0%nat.
Proof. by destruct l. Qed.
Lemma count_while_true {A} (l : list A) : count_while (fun _ => true) l = length l.
Proof. induction l; simpl; congruence. Qed.

Lemma bkd_range_eq b lo hi :
  StronglySorted (key_le fst) (bkd_points b) ->
  bkd_range b lo hi =
    let start := count_while (lo_pred lo) (bkd_points b) in
    let stop := count_while (hi_pred hi) (bkd_points b) in
    if (stop <=? start)%nat then []
    else dedup (sort_unstable (map snd (slice start (stop - start) (bkd_points b)))).
Proof.
  intros Hs. unfold bkd_range. pose proof (lo_pred_partitioned lo _ Hs) as Hl.
  pose proof (hi_pred_partitioned hi _ Hs) as Hh.
  apply partition_point_spec in Hl. apply partition_point_spec in Hh.
  destruct lo as [[v []]|], hi as [[v' []]|]; unfold lo_pred, hi_pred in *; simpl in *;
    rewrite ?Hl, ?Hh, ?count_while_false, ?count_while_true; done.
Qed.

Lemma elem_of_bkd_range b lo hi d :
  StronglySorted (key_le fst) (bkd_points b) ->
  d ∈ bkd_range b lo hi <->
  exists x, (x, d) ∈ bkd_points b /\ lo_pred lo (x, d) = false /\ hi_pred hi (x, d) = true.
Proof.
  intros Hs. rewrite bkd_range_eq by done. cbv zeta.
  pose proof (lo_pred_partitioned lo _ Hs) as Hl. pose proof (hi_pred_partitioned hi _ Hs) as Hh.
  set (start := count_while (lo_pred lo) _). set (stop := count_while (hi_pred hi) _).
  assert (Hiff : forall i p, bkd_points b !! i = Some p ->
     (start <= i < stop)%nat <-> lo_pred lo p = false /\ hi_pred hi p = true).
  { intros i p Hp. pose proof (partitioned_iff _ _ _ _ Hl Hp) as H1.
    pose proof (partitioned_iff _ _ _ _ Hh Hp) as H2. fold start in H1. fold stop in H2.
    rewrite <-H2, <-not_true_iff_false, <-H1. lia. }
  destruct (Nat.leb_spec stop start) as [Hle|Hlt].
  - rewrite elem_of_nil. split; [done|]. intros (x & Hin & Hp).
    apply list_elem_of_lookup in Hin as [i Hi]. apply (Hiff i (x, d) Hi) in Hp. lia.
  - rewrite elem_of_dedup, elem_of_sort_unstable, list_elem_of_fmap.
    setoid_rewrite elem_of_slice. split.
    + intros ([x d'] & -> & i & Hi & Hr). exists x. split; [by eapply list_elem_of_lookup_2|].
      apply (Hiff i); [done|lia].
    + intros (x & Hin & Hp). apply list_elem_of_lookup in Hin as [i Hi].
      apply (Hiff i (x, d) Hi) in Hp.
      exists (x, d). split; [done|]. exists i. split; [done|lia].
Qed.

Lemma bkd_range_sorted b lo hi : StronglySorted Z.lt (bkd_range b lo hi).
Proof. unfold bkd_range. case_match; [constructor|auto with riets]. Qed.

(** Values of one kind, in machine range. *)
Definition points_ok (kind : NumericKind) (pts : list (DocId * NumericValue)) : Prop :=
  Forall (fun p => value_ok p.2 /\ kind_of p.2 = kind) pts.
Definition bound_ok (kind : NumericKind) (b : option NumericBound) : Prop :=
  match b with Some b => value_ok (bound_value b) /\ kind_of (bound_value b) = kind | None => True end.

Lemma preds_in_bounds kind lo hi v d :
  value_ok v -> kind_of v = kind -> bound_ok kind lo -> bound_ok kind hi ->
  in_bounds v lo hi = negb (lo_pred lo (pack v, d)) && hi_pred hi (pack v, d).
Proof.
  intros Hv Hk Hlo Hhi. unfold in_bounds, lo_pred, hi_pred, below_lo, past_hi. f_equal.
  - destruct lo as [[x i]|]; [|done]. destruct Hlo as [Hx Hxk]. simpl in *.
    rewrite <-(pack_compare v x) by congruence. destruct i; simpl.
    + destruct (Z.compare_spec (pack v) (pack x)), (Z.ltb_spec (pack v) (pack x)); done || lia.
    + destruct (Z.compare_spec (pack v) (pack x)), (Z.leb_spec (pack v) (pack x)); done || lia.
  - destruct hi as [[x i]|]; [|done]. destruct Hhi as [Hx Hxk]. simpl in *.
    rewrite <-(pack_compare v x) by congruence. destruct i; simpl.
    + destruct (Z.compare_spec (pack v) (pack x)), (Z.leb_spec (pack v) (pack x)); done || lia.
    + destruct (Z.compare_spec (pack v) (pack x)), (Z.ltb_spec (pack v) (pack x)); done || lia.
Qed.

Lemma elem_of_bkd_points pts x d :
  (x, d) ∈ bkd_points (bkd_from_points pts) <-> exists v, (d, v) ∈ pts /\ x = pack v.
Proof.
  unfold bkd_from_points, bkd_build. cbn [bkd_points]. rewrite stable_sort_perm.
  rewrite map_map, list_elem_of_fmap. split.
  - intros ([d' v] & E & Hin). simpl in E. injection E as -> ->. eauto.
  - intros (v & Hin & ->). by exists (d, v).
Qed.

Lemma bkd_range_from_points kind pts lo hi :
  points_ok kind pts -> bound_ok kind lo -> bound_ok kind hi ->
  bkd_range (bkd_from_points pts) lo hi =
    dedup (sort_unstable (map fst (filter (fun p => in_bounds p.2 lo hi = true) pts))).
Proof.
  intros Hp Hlo Hhi. apply StronglySorted_lt_unique; [apply bkd_range_sorted|auto with riets|].
  intros d. rewrite elem_of_bkd_range by apply sort_pairs_sorted.
  rewrite elem_of_dedup, elem_of_sort_unstable, list_elem_of_fmap.
  setoid_rewrite list_elem_of_filter. setoid_rewrite elem_of_bkd_points.
  unfold points_ok in Hp. rewrite Forall_forall in Hp. split.
  - intros (x & (v & Hin & ->) & H1 & H2). exists (d, v). split; [done|]. split; [|done].
    destruct (Hp _ Hin) as [Hv Hk]. simpl in *.
    rewrite (preds_in_bounds kind lo hi v d), H1, H2 by done. done.
  - intros ([d' v] & -> & Hb & Hin). destruct (Hp _ Hin) as [Hv Hk]. simpl in *.
    rewrite (preds_in_bounds kind lo hi v d') in Hb by done.
    apply andb_true_iff in Hb as [H1 H2]. apply negb_true_iff in H1. eauto 10.
Qed.

(** ** Lemmas: least and greatest value *)

Lemma pack_inj kind a b :
  value_ok a -> value_ok b -> kind_of a = kind -> kind_of b = kind -> pack a = pack b -> a = b.
Proof.
  intros Ha Hb Hka Hkb E. rewrite <-(unpack_pack a), <-(unpack_pack b) by done.
  by rewrite E, Hka, Hkb.
Qed.

(** A fold that keeps an extremal element by packed value. *)
Lemma fold_extreme (sgn : Z) kind (step : NumericValue -> NumericValue -> NumericValue) l v :
  (forall m x, value_ok m -> value_ok x -> kind_of m = kind -> kind_of x = kind ->
     (step m x = m \/ step m x = x) /\
     sgn * pack (step m x) <= sgn * pack m /\ sgn * pack (step m x) <= sgn * pack x) ->
  Forall (fun x => value_ok x /\ kind_of x = kind) (v :: l) ->
  fold_left step l v ∈ v :: l /\
  Forall (fun x => sgn * pack (fold_left step l v) <= sgn * pack x) (v :: l).
Proof.
  intros Hstep. revert v. induction l as [|y l IH]; intros v Hall; simpl.
  { split; [left|]. constructor; [lia|done]. }
  apply Forall_cons in Hall as [[Hv Hvk] Hall]. apply Forall_cons in Hall as [[Hy Hyk] Hall].
  destruct (Hstep v y Hv Hy Hvk Hyk) as (Hor & H1 & H2).
  destruct (IH (step v y)) as [IH1 IH2].
  { constructor; [|done]. by destruct Hor as [->| ->]. }
  apply Forall_cons in IH2 as [IH2 IH3]. split.
  - rewrite !elem_of_cons in *. destruct IH1 as [->|]; [|tauto]. destruct Hor as [->| ->]; tauto.
  - constructor; [lia|]. constructor; [lia|done].
Qed.

Lemma values_min_spec kind l :
  Forall (fun x => value_ok x /\ kind_of x = kind) l -> l <> [] ->
  exists m, values_min l = Some m /\ m ∈ l /\ Forall (fun x => pack m <= pack x) l.
Proof.
  intros Hall Hne. destruct l as [|v l]; [done|]. simpl. eexists. split; [done|].
  destruct (fold_extreme 1 kind (fun m x => match value_cmp x m with Lt => x | _ => m end) l v)
    as [H1 H2]; [|done|].
  - intros m x Hm Hx Hmk Hxk. rewrite <-(pack_compare x m) by congruence.
    destruct (Z.compare_spec (pack x) (pack m)); (split; [tauto|lia]).
  - split; [done|]. eapply Forall_impl; [exact H2|]. simpl. intros; lia.
Qed.

Lemma values_max_spec kind l :
  Forall (fun x => value_ok x /\ kind_of x = kind) l -> l <> [] ->
  exists m, values_max l = Some m /\ m ∈ l /\ Forall (fun x => pack x <= pack m) l.
Proof.
  intros Hall Hne. destruct l as [|v l]; [done|]. simpl. eexists. split; [done|].
  destruct (fold_extreme (-1) kind (fun m x => match value_cmp x m with Lt => m | _ => x end) l v)
    as [H1 H2]; [|done|].
  - intros m x Hm Hx Hmk Hxk. rewrite <-(pack_compare x m) by congruence.
    destruct (Z.compare_spec (pack x) (pack m)); (split; [tauto|lia]).
  - split; [done|]. eapply Forall_impl; [exact H2|]. simpl. intros; lia.
Qed.

Lemma points_ok_values kind pts :
  points_ok kind pts -> Forall (fun x => value_ok x /\ kind_of x = kind) (map snd pts).
Proof. intros H. by apply Forall_map. Qed.

Lemma points_kind_ok kind pts : points_ok kind pts -> pts <> [] -> points_kind pts = kind.
Proof. destruct 1 as [|p l [_ Hk] _]; done. Qed.

(** The extreme points of the sorted array are the extreme values. *)
Lemma bkd_extreme kind pts (m : NumericValue) x d :
  points_ok kind pts -> (x, d) ∈ bkd_points (bkd_from_points pts) -> m ∈ map snd pts ->
  pack m = x -> unpack x (bkd_kind (bkd_from_points pts)) = m.
Proof.
  intros Hp Hin Hm <-. apply list_elem_of_fmap in Hm as ([d' v] & -> & Hm). simpl.
  unfold points_ok in Hp. assert (pts <> []) by (intros ->; by apply elem_of_nil in Hm).
  rewrite (points_kind_ok kind) by done. rewrite Forall_forall in Hp.
  destruct (Hp _ Hm) as [Hv Hk]. simpl in *. rewrite <-Hk. by apply unpack_pack.
Qed.

Lemma bkd_min_from_points kind pts :
  points_ok kind pts -> bkd_min (bkd_from_points pts) = values_min (map snd pts).
Proof.
  intros Hp. destruct (decide (pts = [])) as [->|Hne]; [done|].
  destruct (values_min_spec kind (map snd pts)) as (m & -> & Hm & Hmin);
    [by apply points_ok_values|by destruct pts|].
  unfold bkd_min. destruct (bkd_points (bkd_from_points pts)) as [|[x d] l] eqn:E.
  { apply list_elem_of_fmap in Hm as ([d' v] & -> & Hm).
    pose proof (proj2 (elem_of_bkd_points pts (pack v) d') (ex_intro _ v (conj Hm eq_refl))) as H.
    rewrite E in H. by apply elem_of_nil in H. }
  simpl. f_equal. assert (Hin : (x, d) ∈ bkd_points (bkd_from_points pts)) by (rewrite E; left).
  apply (bkd_extreme kind _ _ _ d); [done..|].
  pose proof (sort_pairs_sorted (map (fun p => (pack p.1, p.2)) (map (fun p => (p.2, p.1)) pts))) as Hs.
  change (StronglySorted (key_le fst) (bkd_points (bkd_from_points pts))) in Hs.
  rewrite E in Hs. apply StronglySorted_cons in Hs as [Hs _]. rewrite Forall_forall in Hs.
  apply elem_of_bkd_points in Hin as (v & Hv & ->). rewrite Forall_forall in Hmin.
  pose proof (Hmin v ltac:(apply list_elem_of_fmap; by exists (d, v))) as H1.
  apply list_elem_of_fmap in Hm as ([d' v'] & -> & Hm). simpl.
  assert (Hin' : (pack v', d') ∈ bkd_points (bkd_from_points pts))
    by (apply elem_of_bkd_points; eauto).
  rewrite E in Hin'. apply elem_of_cons in Hin' as [Hin'|Hin'].
  - injection Hin' as E1 _. done.
  - specialize (Hs _ Hin'). unfold key_le in Hs. simpl in *. lia.
Qed.

Lemma sorted_last_ge (l : list (Z * Z)) p q :
  StronglySorted (key_le fst) l -> last l = Some p -> q ∈ l -> q.1 <= p.1.
Proof.
  intros Hs Hl Hq. apply last_Some in Hl as [l' ->]. apply StronglySorted_app in Hs as (Hs & _ & _).
  apply elem_of_app in Hq as [Hq|Hq].
  - apply (Hs q p); [done|left].
  - apply list_elem_of_singleton in Hq as ->. lia.
Qed.

Lemma bkd_max_from_points kind pts :
  points_ok kind pts -> bkd_max (bkd_from_points pts) = values_max (map snd pts).
Proof.
  intros Hp. destruct (decide (pts = [])) as [->|Hne]; [done|].
  destruct (values_max_spec kind (map snd pts)) as (m & -> & Hm & Hmax);
    [by apply points_ok_values|by destruct pts|].
  unfold bkd_max. destruct (last (bkd_points (bkd_from_points pts))) as [[x d]|] eqn:E.
  2: { apply last_None in E. apply list_elem_of_fmap in Hm as ([d' v] & -> & Hm).
    pose proof (proj2 (elem_of_bkd_points pts (pack v) d') (ex_intro _ v (conj Hm eq_refl))) as H.
    rewrite E in H. by apply elem_of_nil in H. }
  simpl. f_equal. pose proof (last_Some_elem_of _ _ E) as Hin.
  apply (bkd_extreme kind _ _ _ d); [done..|].
  pose proof (sort_pairs_sorted (map (fun p => (pack p.1, p.2)) (map (fun p => (p.2, p.1)) pts))) as Hs.
  change (StronglySorted (key_le fst) (bkd_points (bkd_from_points pts))) in Hs.
  apply elem_of_bkd_points in Hin as (v & Hv & ->). rewrite Forall_forall in Hmax.
  pose proof (Hmax v ltac:(apply list_elem_of_fmap; by exists (d, v))) as H1.
  apply list_elem_of_fmap in Hm as ([d' v'] & -> & Hm). simpl in *.
  assert (Hin' : (pack v', d') ∈ bkd_points (bkd_from_points pts))
    by (apply elem_of_bkd_points; eauto).
  pose proof (sorted_last_ge _ _ _ Hs E Hin'). simpl in *. lia.
Qed.

(** ** Lemmas: the blocked lookup *)

Lemma chunk_firsts_lookup fuel (l : list (DocId * Z)) b :
  (length l <= fuel)%nat ->
  chunk_firsts fuel l !! b = fst <$> l !! (b * BLOCK_SIZE)%nat.
Proof.
  revert l b. induction fuel as [|fuel IH]; intros [|p l] b Hf; try done; [simpl in Hf; lia|].
  destruct b as [|b]; [done|]. cbn [chunk_firsts length] in *.
  change (chunk_firsts fuel (drop BLOCK_SIZE (p :: l)) !! b = fst <$> (p :: l) !! (S b * BLOCK_SIZE)%nat).
  rewrite IH by (rewrite length_drop; simpl; unfold BLOCK_SIZE; lia).
  by rewrite lookup_drop.
Qed.

Lemma block_firsts_lookup (l : list (DocId * Z)) b :
  block_first_doc l !! b = fst <$> l !! (b * BLOCK_SIZE)%nat.
Proof. by apply chunk_firsts_lookup. Qed.

Lemma sorted_lookup_lt (l : list (DocId * Z)) i j x y :
  StronglySorted (key_lt fst) l -> l !! i = Some x -> l !! j = Some y -> x.1 <= y.1 -> (i <= j)%nat.
Proof.
  intros Hs Hi Hj Hxy. destruct (Nat.lt_ge_cases j i) as [Hji|]; [|done]. exfalso.
  revert i j Hi Hj Hji. induction Hs as [|z l Hs IH Hz]; intros i j Hi Hj Hji; [done|].
  destruct i as [|i]; [lia|]. destruct j as [|j]; simpl in *.
  - injection Hj as ->. rewrite Forall_lookup in Hz. specialize (Hz i x Hi). unfold key_lt in Hz. lia.
  - apply (IH i j); [done..|lia].
Qed.

Lemma block_firsts_sorted (l : list (DocId * Z)) :
  StronglySorted (key_le fst) l -> partitioned (fun f => f <=? 0) (block_first_doc l) /\
  forall d, partitioned (fun first => first <=? d) (block_first_doc l).
Proof.
  intros Hs. assert (H : forall d, partitioned (fun first => first <=? d) (block_first_doc l)).
  { intros d i j x y Hi Hj Hij. rewrite block_firsts_lookup in Hi, Hj.
    destruct (l !! (i * BLOCK_SIZE)%nat) as [p|] eqn:Ep; simpl in Hi; inv_some.
    destruct (l !! (j * BLOCK_SIZE)%nat) as [q|] eqn:Eq; simpl in Hj; inv_some.
    pose proof (sorted_lookup_le fst l _ _ _ _ Hs Ep Eq ltac:(unfold BLOCK_SIZE; lia)).
    rewrite !Z.leb_le. lia. }
  split; [apply H|exact H].
Qed.

(** The only block that can hold a document is the last one that does not start after it. *)
Lemma block_holds (l : list (DocId * Z)) d i e :
  StronglySorted (key_lt fst) l -> l !! i = Some e -> e.1 = d ->
  let c := count_while (fun first => first <=? d) (block_first_doc l) in
  ((c - 1) * BLOCK_SIZE <= i < (c - 1) * BLOCK_SIZE + BLOCK_SIZE)%nat.
Proof.
  intros Hs Hi He c. pose proof (StronglySorted_lt_le fst l Hs) as Hle.
  pose proof (lookup_lt_Some _ _ _ Hi) as Hlen. split.
  - destruct (decide (c = 0%nat)) as [->|Hc]; [simpl; lia|].
    pose proof (count_while_le (fun first => first <=? d) (block_first_doc l)) as Hcl. fold c in Hcl.
    destruct (lookup_lt_is_Some_2 (block_first_doc l) (c - 1)) as [f Hf]; [lia|].
    pose proof (count_while_prefix _ _ _ _ (ltac:(lia) : (c - 1 < c)%nat) Hf) as Hfd.
    apply Z.leb_le in Hfd. rewrite block_firsts_lookup in Hf.
    destruct (l !! ((c - 1) * BLOCK_SIZE)%nat) as [e'|] eqn:Ee; simpl in Hf; [|done].
    injection Hf as <-. apply (sorted_lookup_lt l _ i e' e); [done..|lia].
  - destruct (block_first_doc l !! c) as [f|] eqn:Ef.
    + pose proof (count_while_stop _ _ _ Ef) as Hfd. apply Z.leb_gt in Hfd.
      rewrite block_firsts_lookup in Ef.
      destruct (l !! (c * BLOCK_SIZE)%nat) as [e'|] eqn:Ee; simpl in Ef; [|done]. injection Ef as <-.
      destruct (Nat.lt_ge_cases i (c * BLOCK_SIZE)) as [|Hge]; [unfold BLOCK_SIZE in *; lia|].
      pose proof (sorted_lookup_le fst l _ _ _ _ Hle Ee Hi Hge). lia.
    + rewrite block_firsts_lookup in Ef. destruct (l !! (c * BLOCK_SIZE)%nat) eqn:Ee; [done|].
      apply lookup_ge_None in Ee. unfold BLOCK_SIZE in *. lia.
Qed.

(** With one entry per document the lookup finds exactly the entries. *)
Lemma dv_get_spec kind (l : list (DocId * Z)) d :
  StronglySorted (key_lt fst) l ->
  dv_get (mkDocValues kind l (block_first_doc l)) d =
    (fun e => unpack e.2 kind) <$> head (filter (fun e => e.1 = d) l).
Proof.
  intros Hs. pose proof (StronglySorted_lt_le fst l Hs) as Hle.
  assert (Hpos : forall i e, l !! i = Some e -> e.1 = d -> filter (fun e => e.1 = d) l = [e]).
  { clear Hle. induction Hs as [|z l Hs IH Hz]; intros i e Hi He; [done|].
    rewrite Forall_forall in Hz. destruct i as [|i]; simpl in Hi.
    - injection Hi as ->. rewrite filter_cons, decide_True by done. f_equal. apply filter_none.
      intros y Hy. specialize (Hz y Hy). unfold key_lt in Hz. lia.
    - rewrite filter_cons, decide_False; [by eapply IH|].
      specialize (Hz e (list_elem_of_lookup_2 _ _ _ Hi)). unfold key_lt in Hz. lia. }
  unfold dv_get, dv_first_doc, dv_last_doc. cbn [dv_entries dv_kind dv_block_first].
  destruct l as [|p l']; [done|]. set (l := p :: l') in *.
  change (head l) with (Some p). destruct (last l) as [q|] eqn:El;
    [|apply last_None in El; done]. cbn [fmap option_fmap option_map].
  assert (Hqmax : forall e, e ∈ l -> e.1 <= q.1) by (intros e He; by eapply sorted_last_ge).
  assert (Hpmin : forall e, e ∈ l -> p.1 <= e.1).
  { intros e He. apply StronglySorted_cons in Hle as [Hle _]. rewrite Forall_forall in Hle.
    apply elem_of_cons in He as [->|He]; [lia|]. by apply Hle. }
  destruct ((d <? p.1) || (q.1 <? d)) eqn:Eout.
  { rewrite filter_none; [done|]. intros e He <-. specialize (Hqmax e He). specialize (Hpmin e He).
    apply orb_true_iff in Eout. rewrite !Z.ltb_lt in Eout. lia. }
  apply orb_false_iff in Eout as [Ep Eq]. apply Z.ltb_ge in Ep, Eq. cbv zeta.
  destruct (block_firsts_sorted l Hle) as [_ Hpart].
  rewrite (partition_point_spec _ _ (Hpart d)).
  set (c := count_while (fun first => first <=? d) (block_first_doc l)).
  set (start := ((c - 1) * BLOCK_SIZE)%nat).
  set (stop := Nat.min (start + BLOCK_SIZE) (length l)).
  assert (Hin : forall i e, l !! i = Some e -> e.1 = d -> (start <= i < stop)%nat).
  { intros i e Hi He. pose proof (lookup_lt_Some _ _ _ Hi).
    pose proof (block_holds l d i e Hs Hi He) as Hb. cbv zeta in Hb. fold c start in Hb. lia. }
  assert (Hsl : StronglySorted (key_le fst) (slice start (stop - start) l)).
  { unfold slice. rewrite <-(take_drop start l) in Hle. apply StronglySorted_app in Hle as (_ & _ & Hle).
    rewrite <-(take_drop (stop - start) (drop start l)) in Hle.
    by apply StronglySorted_app in Hle as (_ & Hle & _). }
  destruct (binary_search_by_spec _ _ (cmp_sorted_key fst d _ Hsl)) as [(i & e & Hb & Hi & He)|[Hb Hne]];
    unfold binary_search_by_key; rewrite Hb.
  - apply Z.compare_eq in He. unfold slice in Hi. apply lookup_take_Some in Hi as [Hi _].
    rewrite lookup_drop in Hi. rewrite Hi, (Hpos _ _ Hi He). done.
  - rewrite filter_none; [done|]. intros e He Hd. apply list_elem_of_lookup in He as [i Hi].
    specialize (Hin i e Hi Hd). rewrite Forall_forall in Hne. apply (Hne e).
    + apply elem_of_slice. exists i. split; [done|lia].
    + by apply Z.compare_eq_iff.
Qed.

(** ** Lemmas: in-memory points *)

Abbreviation points_sorted pts := (StronglySorted (key_le fst) pts) (only parsing).

(** The values of one document, in the order they were inserted. *)
Definition values_of (pts : list (DocId * NumericValue)) (d : DocId) : list NumericValue :=
  map snd (filter (fun p => p.1 = d) pts).

Lemma points_get_spec pts d : points_sorted pts -> points_get pts d = head (values_of pts d).
Proof.
  intros Hs. unfold points_get, values_of.
  rewrite (partition_point_spec _ _ (sorted_partitioned_lt fst pts d Hs)).
  induction Hs as [|[d' v] l Hs IH Hd]; [done|]. cbn [count_while]. rewrite filter_cons. simpl.
  destruct (Z.ltb_spec d' d) as [Hlt|Hge]; simpl.
  - rewrite decide_False by lia. exact IH.
  - destruct (Z.eqb_spec d' d) as [->|Hne].
    + by rewrite decide_True.
    + rewrite decide_False, filter_none; [done| |done].
      intros p Hp. rewrite Forall_forall in Hd. specialize (Hd p Hp). unfold key_le in Hd.
      simpl in Hd. lia.
Qed.

Lemma points_insert_sorted pts v d : points_sorted pts -> points_sorted (points_insert pts v d).
Proof.
  intros Hs. unfold points_insert. destruct (last pts) as [[lst lv]|] eqn:El.
  2: { apply last_None in El as ->. repeat constructor. }
  destruct (Z.ltb_spec d lst) as [Hlt|Hge].
  - cbv zeta. rewrite (partition_point_spec _ _ (sorted_partitioned_le fst pts d Hs)).
    set (c := count_while _ pts). pose proof Hs as Hs'. rewrite <-(take_drop c pts) in Hs'.
    apply StronglySorted_app in Hs' as (Hcross & H1 & H2). apply StronglySorted_app.
    assert (Ht : forall p, p ∈ take c pts -> p.1 <= d).
    { intros p Hp. apply list_elem_of_lookup in Hp as [i Hi]. apply lookup_take_Some in Hi as [Hi Hic].
      pose proof (count_while_prefix _ _ _ _ Hic Hi) as E. by apply Z.leb_le in E. }
    assert (Hd : forall p, p ∈ drop c pts -> d < p.1).
    { intros p Hp. apply list_elem_of_lookup in Hp as [i Hi]. rewrite lookup_drop in Hi.
      pose proof (partitioned_suffix _ _ _ _ (sorted_partitioned_le fst pts d Hs) Hi
        ltac:(fold c; lia)) as E. by apply Z.leb_gt in E. }
    split; [|split; [done|]].
    + intros p q Hp Hq. apply elem_of_cons in Hq as [->|Hq]; [by apply Ht|by apply Hcross].
    + constructor; [done|]. apply Forall_forall. intros p Hp. specialize (Hd p Hp).
      unfold key_le. simpl. lia.
  - apply StronglySorted_app. split; [|split; [done|repeat constructor]].
    intros p q Hp Hq. apply list_elem_of_singleton in Hq as ->. unfold key_le. simpl.
    apply last_Some in El as [l' ->]. apply StronglySorted_app in Hs as (Hs & _ & _).
    apply elem_of_app in Hp as [Hp|Hp].
    + specialize (Hs p (lst, lv) Hp ltac:(left)). unfold key_le in Hs. simpl in Hs. lia.
    + apply list_elem_of_singleton in Hp as ->. simpl. lia.
Qed.

Lemma values_of_app l1 l2 d : values_of (l1 ++ l2) d = values_of l1 d ++ values_of l2 d.
Proof. unfold values_of. by rewrite filter_app, map_app. Qed.

Lemma values_of_insert pts v d d' :
  points_sorted pts ->
  values_of (points_insert pts v d) d' = values_of pts d' ++ (if d' =? d then [v] else []).
Proof.
  intros Hs. assert (Hone : forall l, values_of ((d, v) :: l) d' =
                       (if d' =? d then [v] else []) ++ values_of l d').
  { intros l. unfold values_of. rewrite filter_cons. simpl.
    destruct (Z.eqb_spec d' d) as [->|]; [by rewrite decide_True|by rewrite decide_False by lia]. }
  assert (Hpush : values_of (pts ++ [(d, v)]) d' = values_of pts d' ++ (if d' =? d then [v] else [])).
  { rewrite values_of_app, Hone. unfold values_of at 2. simpl. by rewrite app_nil_r. }
  unfold points_insert. destruct (last pts) as [[lst lv]|]; [|exact Hpush].
  destruct (d <? lst); [|exact Hpush]. cbv zeta.
  rewrite (partition_point_spec _ _ (sorted_partitioned_le fst pts d Hs)).
  set (c := count_while _ pts). rewrite values_of_app, Hone.
  rewrite <-(take_drop c pts) at 3. rewrite values_of_app.
  destruct (Z.eqb_spec d' d) as [->|]; [|by rewrite app_nil_r].
  assert (Hnil : values_of (drop c pts) d = []).
  { unfold values_of. rewrite filter_none; [done|]. intros p Hp Hpd.
    apply list_elem_of_lookup in Hp as [i Hi]. rewrite lookup_drop in Hi.
    pose proof (partitioned_suffix _ _ _ _ (sorted_partitioned_le fst pts d Hs) Hi
      ltac:(fold c; lia)) as E. apply Z.leb_gt in E. lia. }
  by rewrite Hnil, !app_nil_r.
Qed.

Lemma points_merge_sorted a b : points_sorted (points_merge a b).
Proof.
  unfold points_merge. cbv zeta. destruct (is_sorted_by_key fst (a ++ b)) eqn:E; simpl.
  - by apply is_sorted_by_key_spec.
  - auto with riets.
Qed.

Lemma values_of_merge a b d : values_of (points_merge a b) d = values_of a d ++ values_of b d.
Proof.
  rewrite <-values_of_app. unfold points_merge. cbv zeta.
  destruct (negb _); [|done]. unfold values_of. by rewrite sort_by_key_stable.
Qed.

Lemma np_merge_lookup self other xpath :
  np_merge self other !! xpath =
    match other !! xpath with
    | Some points => Some (points_merge (default [] (self !! xpath)) points)
    | None => self !! xpath
    end.
Proof.
  unfold np_merge. rewrite lookup_merge. unfold diag_None.
  by destruct (self !! xpath), (other !! xpath).
Qed.

(** Every field's points are sorted by document. *)
Definition np_wf (np : NumericPoints) : Prop :=
  forall xpath pts, np !! xpath = Some pts -> points_sorted pts.

(** All the values of a document in a field. *)
Definition np_values (np : NumericPoints) (xpath : XPathId) (d : DocId) : list NumericValue :=
  values_of (default [] (np !! xpath)) d.

Lemma np_get_spec np xpath d : np_wf np -> np_get np xpath d = head (np_values np xpath d).
Proof.
  intros Hwf. unfold np_get, np_values. destruct (np !! xpath) as [pts|] eqn:E; [|done].
  apply points_get_spec. by eapply Hwf.
Qed.

(** ** Main theorems *)

(** Packing keeps the order of the values of one kind (two's complement integers and the
    total order of the floats become unsigned order), fits in a [u64], and unpacking undoes it. *)
Theorem pack_order_roundtrip a b :
  value_ok a -> value_ok b -> kind_of a = kind_of b ->
  (pack a ?= pack b) = value_cmp a b /\ in_u 64 (pack a) /\ unpack (pack a) (kind_of a) = a.
Proof.
  intros Ha Hb Hk. split; [by apply pack_compare|]. split; [by apply pack_range|by apply unpack_pack].
Qed.

Lemma pack_order_roundtrip_witness :
  (pack (VInt (-5)) ?= pack (VInt 3)) = value_cmp (VInt (-5)) (VInt 3) /\
  (pack (VFloat 0xbff0000000000000) ?= pack (VFloat 0x3ff0000000000000))
    = value_cmp (VFloat 0xbff0000000000000) (VFloat 0x3ff0000000000000).
Proof.
  split.
  - apply (pack_order_roundtrip (VInt (-5)) (VInt 3)); vm_compute; split; congruence || done.
  - apply (pack_order_roundtrip (VFloat 0xbff0000000000000) (VFloat 0x3ff0000000000000));
      vm_compute; split; congruence || done.
Defined.

(** Freezing the in-memory points of a field changes no answer: the sorted points give
    the same range results and the same bounds, and, when no document has two values in the
    field, the blocked table gives the same value for every document. *)
Theorem numeric_freeze_refines np xpath kind lo hi :
  np_wf np -> (forall pts, np !! xpath = Some pts -> points_ok kind pts) ->
  bound_ok kind lo -> bound_ok kind hi ->
  nfs_range (np_build np) xpath lo hi = np_range np xpath lo hi /\
  nfs_bounds (np_build np) xpath = np_bounds np xpath /\
  ((forall pts, np !! xpath = Some pts -> NoDup (map fst pts)) ->
   forall d, nfs_get (np_build np) xpath d = np_get np xpath d).
Proof.
  intros Hwf Hok Hlo Hhi.
  unfold nfs_range, nfs_bounds, nfs_get, np_range, np_bounds, np_get, np_build, nfs_from_points.
  rewrite lookup_fmap. destruct (np !! xpath) as [pts|] eqn:E; [|done]. cbn [fmap option_fmap option_map].
  specialize (Hok pts eq_refl). split; [by apply (bkd_range_from_points kind)|]. split.
  - unfold nf_bounds. cbn [nf_bkd].
    by rewrite (bkd_min_from_points kind), (bkd_max_from_points kind).
  - intros Hnd d. specialize (Hnd pts eq_refl). pose proof (Hwf xpath pts E) as Hs.
    rewrite points_get_spec by done. unfold nf_doc_values, dv_from_points, dv_build.
    cbv zeta. cbn [nf_doc_values].
    assert (Hlt : StronglySorted (key_lt fst) (map (fun e : Z * NumericValue => (e.1, pack e.2)) pts)).
    { clear -Hs Hnd. induction Hs as [|p l Hs IH Hp]; simpl in *; constructor.
      - apply IH. by inversion Hnd.
      - apply NoDup_cons in Hnd as [Hni _]. apply Forall_forall. intros q Hq.
        apply list_elem_of_fmap in Hq as (r & -> & Hr). rewrite Forall_forall in Hp.
        specialize (Hp r Hr). unfold key_le, key_lt in *. simpl.
        assert (p.1 <> r.1); [|lia]. intros E. apply Hni. apply list_elem_of_fmap. by exists r. }
    rewrite sort_by_key_id by auto with riets. rewrite dv_get_spec by done.
    clear -Hok. unfold points_ok in Hok. unfold values_of.
    assert (Hk : forall p, p ∈ pts -> unpack (pack p.2) (points_kind pts) = p.2).
    { intros p Hp. assert (pts <> []) by (intros ->; by apply elem_of_nil in Hp).
      rewrite (points_kind_ok kind) by done. rewrite Forall_forall in Hok.
      destruct (Hok p Hp) as [Hv <-]. by apply unpack_pack. }
    revert Hk. generalize (points_kind pts). intros k Hk. clear Hok.
    induction pts as [|p pts IH]; [done|]. simpl. rewrite !filter_cons. simpl.
    case_decide; simpl.
    + f_equal. apply Hk. left.
    + apply IH. intros q Hq. apply Hk. by right.
Qed.

Lemma numeric_freeze_refines_witness :
  let np : NumericPoints := {[ 7 := [(1, VInt 5); (4, VInt (-2)); (9, VInt 30)] ]} in
  nfs_range (np_build np) 7 (Some (mkBound (VInt 0) true)) None
    = np_range np 7 (Some (mkBound (VInt 0) true)) None.
Proof.
  intros np. apply (numeric_freeze_refines np 7 KInt (Some (mkBound (VInt 0) true)) None).
  - intros x pts H. unfold np in H. apply lookup_singleton_Some in H as [_ <-].
    repeat constructor; vm_compute; congruence.
  - intros pts H. unfold np in H. apply lookup_singleton_Some in H as [_ <-].
    repeat constructor; vm_compute; congruence.
  - vm_compute. repeat split; congruence.
  - exact I.
Defined.

(** Inserting a value keeps every field sorted by document; a document's values stay in insertion
    order. *)
Lemma np_insert_spec np xpath value d :
  np_wf np ->
  np_wf (np_insert np xpath value d) /\
  (forall x e, np_values (np_insert np xpath value d) x e =
     np_values np x e ++ (if (x =? xpath) && (e =? d) then [value] else [])).
Proof.
  intros H1.
  assert (Hd : points_sorted (default [] (np !! xpath))).
  { destruct (np !! xpath) eqn:E; simpl; [by eapply H1|constructor]. }
  split.
  - intros x pts Hx. unfold np_insert in Hx. apply lookup_insert_Some in Hx as [[<- <-]|[_ Hx]].
    + by apply points_insert_sorted.
    + by eapply H1.
  - intros x e. unfold np_values, np_insert. destruct (Z.eqb_spec x xpath) as [->|Hne]; simpl.
    + rewrite lookup_insert_eq. simpl. by apply values_of_insert.
    + rewrite lookup_insert_ne by done. by rewrite app_nil_r.
Qed.

(** Merging another memtable's points keeps the receiver's values first. *)
Lemma np_merge_spec np np' :
  np_wf np ->
  np_wf (np_merge np np') /\
  (forall x e, np_values (np_merge np np') x e = np_values np x e ++ np_values np' x e).
Proof.
  intros H1. split.
  - intros x pts Hx. rewrite np_merge_lookup in Hx. destruct (np' !! x); [|by eapply H1].
    injection Hx as <-. apply points_merge_sorted.
  - intros x e. unfold np_values. rewrite np_merge_lookup. destruct (np' !! x); simpl.
    + apply values_of_merge.
    + unfold values_of at 3. simpl. by rewrite app_nil_r.
Qed.
