(* ===== verification/ArrayRows.v ===== *)
(** * Array rows

    Models [crates/core-index/src/array_rows.rs]: the allocator of array-row ids and the dense
    table of a segment that maps a row to its root document and to its parent row. *)
From Stdlib Require Import ZArith Lia.
From stdpp Require Import base numbers list.
From S2P Require Import Prelude Types.

(** [ArrayRowId::MAX] marks a row without a parent. *)
Definition NO_PARENT_ROW : ArrayRowId := u_max 64.

Record ArrayRowAllocator : Type := mkAllocator { alloc_next : ArrayRowId }.
Definition ArrayRowAllocator_new : ArrayRowAllocator := mkAllocator 0.
Definition starting_at (next : ArrayRowId) : ArrayRowAllocator := mkAllocator next.

(** [None]: the id space is exhausted and the call panics. *)
Definition alloc (self : ArrayRowAllocator) : option (ArrayRowId * ArrayRowAllocator) :=
  let id := alloc_next self in
  match checked_add 64 id 1 with
  | Some next => Some (id, mkAllocator next)
  | None => None
  end.

Record ArrayRowIndex : Type := mkArrayRows {
  ar_base : ArrayRowId;
  row_to_doc : list DocId;
  parent_rows : list ArrayRowId
}.
Definition ArrayRowIndex_new (base : ArrayRowId) : ArrayRowIndex := mkArrayRows base [] [].
Definition rows_is_empty (self : ArrayRowIndex) : bool :=
  match row_to_doc self with [] => true | _ => false end.
Definition rows_len (self : ArrayRowIndex) : nat := length (row_to_doc self).

Definition doc_of (self : ArrayRowIndex) (row : ArrayRowId) : option DocId :=
  match checked_sub row (ar_base self) with
  | Some idx => row_to_doc self !! Z.to_nat idx
  | None => None
  end.

Definition parent_of (self : ArrayRowIndex) (row : ArrayRowId) : option ArrayRowId :=
  match checked_sub row (ar_base self) with
  | Some idx =>
    match parent_rows self !! Z.to_nat idx with
    | Some parent => if negb (parent =? NO_PARENT_ROW) then Some parent else None
    | None => None
    end
  | None => None
  end.

(** The debug assertion (rows come in allocation order) is a hypothesis of the theorems. *)
Definition push_row (self : ArrayRowIndex) (row : ArrayRowId) (doc : DocId)
    (parent : option ArrayRowId) : ArrayRowIndex :=
  let base := if rows_is_empty self then row else ar_base self in
  mkArrayRows base (row_to_doc self ++ [doc]) (parent_rows self ++ [default NO_PARENT_ROW parent]).

Definition rows_merge_from (self other : ArrayRowIndex) : ArrayRowIndex :=
  if rows_is_empty other then self
  else
    let base := if rows_is_empty self then ar_base other else ar_base self in
    mkArrayRows base (row_to_doc self ++ row_to_doc other) (parent_rows self ++ parent_rows other).

Definition max_array_row (self : ArrayRowIndex) : option ArrayRowId :=
  if rows_is_empty self then None
  else Some (wrap 64 (wrap 64 (ar_base self + Z.of_nat (rows_len self)) - 1)).

(** ** Invariant *)

(** The two columns have the same length and all ids are allocated ids. *)
Record rows_wf (r : ArrayRowIndex) : Prop := {
  rows_columns : length (parent_rows r) = length (row_to_doc r);
  rows_base : 0 <= ar_base r;
  rows_bound : ar_base r + Z.of_nat (rows_len r) <= NO_PARENT_ROW
}.

(** The row the next push must use: the assertion of [push_row] and [merge_from]. *)
Definition follows (r : ArrayRowIndex) (row : ArrayRowId) : Prop :=
  rows_is_empty r = true \/ row = ar_base r + Z.of_nat (rows_len r).

Lemma alloc_spec a :
  in_u 64 (alloc_next a) ->
  match alloc a with
  | Some (id, a') => id = alloc_next a /\ alloc_next a' = id + 1 /\ 0 <= id < NO_PARENT_ROW
  | None => alloc_next a = NO_PARENT_ROW
  end.
Proof.
  unfold in_u, alloc, checked_add, NO_PARENT_ROW, u_max. intros Ha.
  destruct (Z.ltb_spec (alloc_next a + 1) (2 ^ 64)); cbn [alloc_next]; lia.
Qed.

Section column.
Context {A : Type}.
Implicit Types (l : list A) (b i : Z).

(** Reading one column at a row id. *)
Definition column_get (b : Z) (l : list A) (i : Z) : option A :=
  if i <? b then None else l !! Z.to_nat (i - b).

Lemma column_get_app b l1 l2 i :
  column_get b (l1 ++ l2) i =
    if i <? b + Z.of_nat (length l1) then column_get b l1 i
    else column_get (b + Z.of_nat (length l1)) l2 i.
Proof.
  unfold column_get. destruct (Z.ltb_spec i b), (Z.ltb_spec i (b + Z.of_nat (length l1))); try lia;
    [done|..].
  - apply lookup_app_l. lia.
  - rewrite lookup_app_r by lia. f_equal. lia.
Qed.

Lemma column_get_Some b l i :
  is_Some (column_get b l i) <-> b <= i < b + Z.of_nat (length l).
Proof.
  unfold column_get. destruct (Z.ltb_spec i b).
  - split; [by intros [? ?]|lia].
  - rewrite lookup_lt_is_Some. lia.
Qed.

Lemma column_get_nil b i : column_get b ([] : list A) i = None.
Proof. unfold column_get. by destruct (_ <? _). Qed.

Lemma column_get_single b (x : A) i : column_get b [x] i = if i =? b then Some x else None.
Proof.
  unfold column_get. destruct (Z.ltb_spec i b), (Z.eqb_spec i b); try lia; try done.
  - subst. by rewrite Z.sub_diag.
  - by rewrite lookup_ge_None_2 by (simpl; lia).
Qed.
End column.

Lemma doc_of_column r i : doc_of r i = column_get (ar_base r) (row_to_doc r) i.
Proof.
  unfold doc_of, column_get, checked_sub.
  destruct (Z.leb_spec (ar_base r) i), (Z.ltb_spec i (ar_base r)); lia || done.
Qed.

Lemma parent_of_column r i :
  parent_of r i = column_get (ar_base r) (parent_rows r) i ≫= (fun p =>
    if negb (p =? NO_PARENT_ROW) then Some p else None).
Proof.
  unfold parent_of, column_get, checked_sub.
  destruct (Z.leb_spec (ar_base r) i), (Z.ltb_spec i (ar_base r)); lia || done.
Qed.

Lemma rows_empty_nil r : rows_wf r -> rows_is_empty r = true -> row_to_doc r = [] /\ parent_rows r = [].
Proof.
  intros [Hc _ _]. unfold rows_is_empty. destruct (row_to_doc r); [|done]. intros _. split; [done|].
  by apply nil_length_inv.
Qed.

(** [rows_merge_from] generalises [push_row]: pushing is merging a one-row table. *)
Lemma push_row_merge r row doc parent :
  push_row r row doc parent
    = rows_merge_from r (mkArrayRows row [doc] [default NO_PARENT_ROW parent]).
Proof. done. Qed.

Lemma rows_merge_lookup a b i :
  rows_wf a -> rows_wf b -> follows a (ar_base b) ->
  let m := rows_merge_from a b in
  rows_wf m /\
  (doc_of m i = match doc_of a i with Some d => Some d | None => doc_of b i end) /\
  (parent_of m i = match doc_of a i with Some _ => parent_of a i | None => parent_of b i end).
Proof.
  intros Ha Hb Hf. cbv zeta. unfold rows_merge_from.
  destruct (rows_is_empty b) eqn:Eb.
  - destruct (rows_empty_nil b Hb Eb) as [E1 E2]. split; [done|].
    rewrite !parent_of_column, !doc_of_column, E1, E2, !column_get_nil. simpl.
    split; [by destruct (column_get _ _ _)|].
    destruct (column_get (ar_base a) (row_to_doc a) i) eqn:E; [done|].
    destruct (column_get (ar_base a) (parent_rows a) i) eqn:E'; [|done].
    exfalso. assert (Hs : is_Some (column_get (ar_base a) (parent_rows a) i)) by (by rewrite E').
    rewrite column_get_Some, (rows_columns a Ha), <-column_get_Some, E in Hs. by destruct Hs.
  - destruct (rows_is_empty a) eqn:Ea.
    + destruct (rows_empty_nil a Ha Ea) as [E1 E2]. rewrite E1, E2. simpl.
      rewrite !parent_of_column, !doc_of_column, E1. simpl. rewrite column_get_nil.
      split; [by destruct b, Hb; constructor|done].
    + destruct Hf as [?|Hf]; [congruence|]. pose proof (rows_columns a Ha) as Hca.
      destruct Ha as [_ Ha1 Ha2], Hb as [Hb0 Hb1 Hb2]. unfold rows_len in *.
      split; [constructor; simpl; unfold rows_len; simpl; rewrite ?length_app; lia|].
      rewrite !parent_of_column, !doc_of_column. simpl. rewrite !column_get_app, Hca, <-Hf.
      destruct (Z.ltb_spec i (ar_base b)).
      * assert (column_get (ar_base b) (row_to_doc b) i = None) as ->.
        { unfold column_get. destruct (Z.ltb_spec i (ar_base b)); [done|lia]. }
        assert (column_get (ar_base b) (parent_rows b) i = None) as ->.
        { unfold column_get. destruct (Z.ltb_spec i (ar_base b)); [done|lia]. }
        split; [by destruct (column_get _ _ _)|].
        destruct (column_get (ar_base a) (row_to_doc a) i) eqn:E; [done|].
        unfold column_get in E |- *. destruct (i <? ar_base a); [done|].
        apply lookup_ge_None in E. rewrite lookup_ge_None_2; [done|lia].
      * assert (column_get (ar_base a) (row_to_doc a) i = None) as ->; [|done].
        unfold column_get. destruct (Z.ltb_spec i (ar_base a)); [done|].
        apply lookup_ge_None_2. lia.
Qed.

(** ** Main theorem *)

(** Rows are never confused: pushing the next allocated row, and merging the table of the
    next segment, keep every earlier row's document and parent and add exactly the new ones; an
    allocated id is never the marker for "no parent", so a parent is read back as it was
    written; and [max_array_row] is the greatest row present, from which the allocator resumes
    with an unused id. *)
Theorem array_rows_correct r other row doc parent a i :
  rows_wf r -> follows r row -> alloc a = Some (row, starting_at (row + 1)) -> in_u 64 (alloc_next a) ->
  match parent with Some p => 0 <= p < row | None => True end ->
  rows_wf other -> follows r (ar_base other) ->
  rows_wf (push_row r row doc parent) /\
  (doc_of (push_row r row doc parent) i = if i =? row then Some doc else doc_of r i) /\
  (parent_of (push_row r row doc parent) i = if i =? row then parent else parent_of r i) /\
  (doc_of (rows_merge_from r other) i
     = match doc_of r i with Some d => Some d | None => doc_of other i end) /\
  (parent_of (rows_merge_from r other) i
     = match doc_of r i with Some _ => parent_of r i | None => parent_of other i end) /\
  match max_array_row r with
  | Some top => is_Some (doc_of r top) /\
      (is_Some (doc_of r i) -> i <= top) /\ doc_of r (alloc_next (starting_at (top + 1))) = None
  | None => doc_of r i = None
  end.
Proof.
  intros Hr Hf Ha Hn Hp Ho Hfo.
  pose proof (alloc_spec a Hn) as Hs. rewrite Ha in Hs. destruct Hs as (Hrow & _ & Hlt).
  assert (Hone : rows_wf (mkArrayRows row [doc] [default NO_PARENT_ROW parent])).
  { constructor; simpl; unfold rows_len; simpl; lia. }
  destruct (rows_merge_lookup r _ i Hr Hone Hf) as (Hw & Hd & Hpa).
  destruct (rows_merge_lookup r other i Hr Ho Hfo) as (_ & Hmd & Hmp).
  rewrite <-push_row_merge in Hw, Hd, Hpa.
  assert (Hnew : forall d, doc_of r i = Some d -> i <> row).
  { intros d Hi. destruct Hf as [Hf|Hf].
    - destruct (rows_empty_nil r Hr Hf) as [E _]. rewrite doc_of_column, E, column_get_nil in Hi. done.
    - assert (Hs : is_Some (doc_of r i)) by eauto. rewrite doc_of_column, column_get_Some in Hs.
      unfold rows_len in Hf. lia. }
  assert (Hpn : doc_of r i = None -> parent_of r i = None).
  { intros E. rewrite parent_of_column. destruct (column_get _ (parent_rows r) i) eqn:E'; [|done].
    exfalso. assert (Hs : is_Some (column_get (ar_base r) (parent_rows r) i)) by (by rewrite E').
    rewrite column_get_Some, (rows_columns r Hr), <-column_get_Some, <-doc_of_column, E in Hs.
    by destruct Hs. }
  set (one := mkArrayRows row [doc] [default NO_PARENT_ROW parent]) in *.
  rewrite (doc_of_column one i) in Hd. rewrite (parent_of_column one i) in Hpa.
  cbn [one ar_base row_to_doc parent_rows] in Hd, Hpa. rewrite column_get_single in Hd, Hpa.
  split; [done|]. repeat split; try done.
  - rewrite Hd. destruct (doc_of r i) as [d|] eqn:E; [|done].
    destruct (Z.eqb_spec i row) as [->|]; [|done]. by destruct (Hnew d eq_refl).
  - rewrite Hpa. destruct (doc_of r i) as [d|] eqn:E.
    + destruct (Z.eqb_spec i row) as [->|]; [|done]. by destruct (Hnew d eq_refl).
    + destruct (Z.eqb_spec i row); simpl; [|by rewrite Hpn]. destruct parent as [p|]; simpl.
      * destruct (Z.eqb_spec p NO_PARENT_ROW); [lia|done].
      * done.
  - unfold max_array_row. destruct (rows_is_empty r) eqn:Ee.
    + destruct (rows_empty_nil r Hr Ee) as [E _]. by rewrite doc_of_column, E, column_get_nil.
    + assert (0 < length (row_to_doc r))%nat.
      { unfold rows_is_empty in Ee. destruct (row_to_doc r); simpl; [done|lia]. }
      destruct Hr as [_ Hb0 Hb1]. unfold rows_len, NO_PARENT_ROW, u_max in *.
      assert (Hw1 : wrap 64 (ar_base r + Z.of_nat (length (row_to_doc r)))
        = ar_base r + Z.of_nat (length (row_to_doc r))) by (apply Z.mod_small; lia).
      rewrite Hw1. unfold wrap. rewrite Z.mod_small by lia. clear Hw1.
      rewrite !doc_of_column, !column_get_Some. cbn [starting_at alloc_next].
      split; [lia|]. split; [lia|]. apply eq_None_not_Some. rewrite column_get_Some. lia.
Qed.

Lemma array_rows_correct_witness :
  doc_of (push_row (mkArrayRows 5 [70; 70] [NO_PARENT_ROW; 5]) 7 71 (Some 6)) 7 = Some 71.
Proof.
  destruct (array_rows_correct (mkArrayRows 5 [70; 70] [NO_PARENT_ROW; 5]) (ArrayRowIndex_new 7)
    7 71 (Some 6) (starting_at 7) 7) as (_ & H & _); try exact H.
  - constructor; vm_compute; congruence.
  - by right.
  - done.
  - vm_compute. split; congruence.
  - lia.
  - constructor; vm_compute; congruence.
  - by right.
Defined.
