(* ===== verification/Wildcard.v ===== *)
(** * Wildcard patterns

    Models [crates/core-index/src/wildcard.rs]: the tokens of a pattern such as [archi*t?],
    their parser, the backtracking matcher, the literal prefix the dictionaries search by, and
    the union of the postings of the most frequent matching terms. *)
From Stdlib Require Import ZArith Lia.
From stdpp Require Import base numbers list sorting sets.
From S2P Require Import Prelude Types Posting.

Inductive WildcardToken : Type :=
  | Literal (s : str)
  | Any
  | One
  | OneOf (set : list Z).

#[global] Instance WildcardToken_eq_dec : EqDecision WildcardToken.
Proof. solve_decision. Defined.

Record WildcardPattern : Type := mkPattern { tokens : list WildcardToken }.

Definition MAX_PATTERN_TERMS : nat := 128.

Definition STAR : Z := 42.
Definition QUESTION : Z := 63.
Definition LBRACKET : Z := 91.
Definition RBRACKET : Z := 93.

(** The loop [for inner in chars.by_ref()]: the characters up to the closing bracket, which is
    consumed, or to the end of the pattern. *)
Fixpoint take_set (chars : str) : list Z * str :=
  match chars with
  | [] => ([], [])
  | inner :: rest =>
    if inner =? RBRACKET then ([], rest)
    else let '(set, rest') := take_set rest in (inner :: set, rest')
  end.

(** [if !literal.is_empty() { tokens.push(Literal(take(&mut literal))) }]. *)
Definition flush_literal (toks : list WildcardToken) (literal : str) : list WildcardToken :=
  match literal with [] => toks | _ => toks ++ [Literal literal] end.

Definition ends_in_any (toks : list WildcardToken) : bool :=
  match last toks with Some Any => true | _ => false end.

(** The loop of [parse]; every iteration consumes at least one character, so the length of the
    input is enough fuel ([parse_loop_total]). *)
Fixpoint parse_loop (fuel : nat) (toks : list WildcardToken) (literal : str) (chars : str)
    : option (list WildcardToken) :=
  match fuel with
  | O => None
  | S fuel' =>
    match chars with
    | [] => Some (flush_literal toks literal)
    | ch :: rest =>
      if ch =? STAR then
        let toks := flush_literal toks literal in
        let toks := if negb (ends_in_any toks) then toks ++ [Any] else toks in
        parse_loop fuel' toks [] rest
      else if ch =? QUESTION then
        parse_loop fuel' (flush_literal toks literal ++ [One]) [] rest
      else if ch =? LBRACKET then
        let toks := flush_literal toks literal in
        let '(set, rest') := take_set rest in
        parse_loop fuel' (toks ++ [OneOf set]) [] rest'
      else parse_loop fuel' toks (literal ++ [ch]) rest
    end
  end.

Definition parse (input : str) : WildcardPattern :=
  mkPattern (default [] (parse_loop (S (length input)) [] [] input)).

Definition prefix (self : WildcardPattern) : str :=
  match tokens self with Literal s :: _ => s | _ => [] end.

Definition is_prefix_only (self : WildcardPattern) : bool :=
  match tokens self with [Literal _; Any] => true | _ => false end.

(** [matches_from(token_i, char_i, chars)], the tokens from [token_i] on as the argument. *)
Fixpoint matches_from (toks : list WildcardToken) (char_i : nat) (chars : list Z) : bool :=
  match toks with
  | [] => (char_i =? length chars)%nat
  | Literal lit :: toks' =>
    if (length chars <? char_i + length lit)%nat then false
    else if bool_decide (slice char_i (length lit) chars = lit) then
      matches_from toks' (char_i + length lit) chars
    else false
  | Any :: toks' =>
    existsb (fun next_i => matches_from toks' next_i chars)
            (seq char_i (S (length chars) - char_i))
  | One :: toks' =>
    if (char_i <? length chars)%nat then matches_from toks' (char_i + 1) chars else false
  | OneOf set :: toks' =>
    match chars !! char_i with
    | Some c => if bool_decide (c ∈ set) then matches_from toks' (char_i + 1) chars else false
    | None => false
    end
  end.

Definition matches (self : WildcardPattern) (word : str) : bool :=
  matches_from (tokens self) 0 word.

(** The order of [capped_union]: the longer postings first, then the smaller term. *)
Definition match_leb (a b : str * PostingList) : bool :=
  match (Z.of_nat (length (items (b.2))) ?= Z.of_nat (length (items (a.2)))) with
  | Lt => true
  | Eq => match str_compare a.1 b.1 with Gt => false | _ => true end
  | Gt => false
  end.

Definition capped_union (found : list (str * PostingList)) : PostingList :=
  let found := take MAX_PATTERN_TERMS (stable_sort match_leb found) in
  from_items (concat (map (fun m => items m.2) found)).

(** ** The meaning of a pattern *)

(** What the pattern language means, on the characters of the pattern: [*] is any string, [?]
    one character, [[...]] one character of the set (a set that is not closed runs to the end
    of the pattern), any other character itself. *)
Inductive glob : str -> str -> Prop :=
  | G_nil : glob [] []
  | G_star p w1 w2 : glob p w2 -> glob (STAR :: p) (w1 ++ w2)
  | G_one p c w : glob p w -> glob (QUESTION :: p) (c :: w)
  | G_set set p c w : RBRACKET ∉ set -> c ∈ set -> glob p w ->
      glob (LBRACKET :: set ++ RBRACKET :: p) (c :: w)
  | G_open_set set c : RBRACKET ∉ set -> c ∈ set -> glob (LBRACKET :: set) [c]
  | G_lit ch p w : ch <> STAR -> ch <> QUESTION -> ch <> LBRACKET -> glob p w ->
      glob (ch :: p) (ch :: w).

(** The same on tokens. *)
Inductive tmatch : list WildcardToken -> str -> Prop :=
  | T_nil : tmatch [] []
  | T_lit s toks w : tmatch toks w -> tmatch (Literal s :: toks) (s ++ w)
  | T_any toks w1 w2 : tmatch toks w2 -> tmatch (Any :: toks) (w1 ++ w2)
  | T_one toks c w : tmatch toks w -> tmatch (One :: toks) (c :: w)
  | T_set set toks c w : c ∈ set -> tmatch toks w -> tmatch (OneOf set :: toks) (c :: w).
#[export] Hint Constructors glob tmatch : riets.

(** ** The matcher *)

Lemma tmatch_nil w : tmatch [] w <-> w = [].
Proof. split; [by inversion 1|intros ->; constructor]. Qed.

Lemma tmatch_literal s toks w :
  tmatch (Literal s :: toks) w <-> exists w', w = s ++ w' /\ tmatch toks w'.
Proof. split; [inversion 1; subst; eauto|intros (? & -> & ?); by constructor]. Qed.

Lemma tmatch_any toks w :
  tmatch (Any :: toks) w <-> exists w1 w2, w = w1 ++ w2 /\ tmatch toks w2.
Proof. split; [inversion 1; subst; eauto|intros (? & ? & -> & ?); by constructor]. Qed.

Lemma tmatch_one toks w : tmatch (One :: toks) w <-> exists c w', w = c :: w' /\ tmatch toks w'.
Proof. split; [inversion 1; subst; eauto|intros (? & ? & -> & ?); by constructor]. Qed.

Lemma tmatch_oneof set toks w :
  tmatch (OneOf set :: toks) w <-> exists c w', w = c :: w' /\ c ∈ set /\ tmatch toks w'.
Proof. split; [inversion 1; subst; eauto|intros (? & ? & -> & ? & ?); by constructor]. Qed.

Lemma matches_from_spec toks i chars :
  (i <= length chars)%nat -> matches_from toks i chars = true <-> tmatch toks (drop i chars).
Proof.
  revert i. induction toks as [|[s| | |set] toks IH]; intros i Hi; simpl.
  - rewrite Nat.eqb_eq, tmatch_nil, <-length_zero_iff_nil, length_drop. lia.
  - rewrite tmatch_literal. destruct (Nat.ltb_spec (length chars) (i + length s)) as [Hl|Hl].
    + split; [done|]. intros (w & E & _). apply (f_equal length) in E.
      rewrite length_app, length_drop in E. lia.
    + case_bool_decide as Hs; unfold slice in Hs.
      * rewrite IH, <-drop_drop by lia. split.
        -- intros H. exists (drop (length s) (drop i chars)). split; [|done].
           rewrite <-Hs at 1. by rewrite take_drop.
        -- intros (w & E & H). by rewrite E, drop_app_length.
      * split; [done|]. intros (w & E & _). destruct Hs. by rewrite E, take_app_length.
  - rewrite existsb_exists, tmatch_any. split.
    + intros (j & Hj & Hm). apply in_seq in Hj. rewrite IH in Hm by lia.
      exists (take (j - i) (drop i chars)), (drop j chars). split; [|done].
      replace (drop j chars) with (drop (j - i) (drop i chars)); [by rewrite take_drop|].
      rewrite drop_drop. f_equal. lia.
    + intros (w1 & w2 & E & Hw). exists (i + length w1)%nat.
      pose proof (f_equal length E) as El. rewrite length_app, length_drop in El.
      split; [apply in_seq; lia|]. rewrite IH by lia. by rewrite <-drop_drop, E, drop_app_length.
  - rewrite tmatch_one. destruct (Nat.ltb_spec i (length chars)) as [Hl|Hl].
    + destruct (lookup_lt_is_Some_2 _ _ Hl) as [c Hc]. rewrite (drop_S _ c) by done.
      rewrite Nat.add_1_r, IH by lia. naive_solver.
    + rewrite drop_ge by done. naive_solver.
  - rewrite tmatch_oneof. destruct (chars !! i) as [c|] eqn:Hc.
    + rewrite (drop_S _ c) by done. pose proof (lookup_lt_Some _ _ _ Hc).
      case_bool_decide; [rewrite Nat.add_1_r, IH by lia|]; naive_solver.
    + apply lookup_ge_None in Hc. rewrite drop_ge by done. naive_solver.
Qed.

(** ** The parser *)

Lemma tmatch_app t1 t2 w :
  tmatch (t1 ++ t2) w <-> exists w1 w2, w = w1 ++ w2 /\ tmatch t1 w1 /\ tmatch t2 w2.
Proof.
  revert w. induction t1 as [|t t1 IH]; intros w; simpl.
  - split.
    + intros H. exists [], w. auto with riets.
    + intros (w1 & w2 & -> & ->%tmatch_nil & H). done.
  - split.
    + inversion 1 as [|s ? w' Hw|? w1 w' Hw|? c w' Hw|set ? c w' Hc Hw]; subst;
        apply IH in Hw as (v1 & v2 & -> & ? & ?); rewrite ?app_assoc, ?app_comm_cons;
        eexists _, v2; eauto with riets.
    + intros (w1 & w2 & -> & H & H2). inversion H; subst; rewrite <-?app_assoc; simpl;
        constructor; try done; apply IH; eauto.
Qed.

Lemma tmatch_lit s w : tmatch [Literal s] w <-> w = s.
Proof.
  rewrite tmatch_literal. setoid_rewrite tmatch_nil. split.
  - intros (w' & -> & ->). apply app_nil_r.
  - intros ->. exists []. by rewrite app_nil_r.
Qed.

Lemma tmatch_flush toks lit w :
  tmatch (flush_literal toks lit) w <-> exists w', w = w' ++ lit /\ tmatch toks w'.
Proof.
  unfold flush_literal. destruct lit as [|c lit].
  - split; [intros H; exists w; by rewrite app_nil_r|]. intros (w' & -> & H). by rewrite app_nil_r.
  - rewrite tmatch_app. split.
    + intros (w1 & w2 & -> & H & H2%tmatch_lit). subst. eauto.
    + intros (w' & -> & H). exists w', (c :: lit). by rewrite tmatch_lit.
Qed.

Lemma tmatch_any_any toks w : tmatch (Any :: Any :: toks) w <-> tmatch (Any :: toks) w.
Proof.
  rewrite !tmatch_any. setoid_rewrite tmatch_any. split.
  - intros (w1 & ? & -> & w2 & w3 & -> & H). exists (w1 ++ w2), w3. by rewrite app_assoc.
  - intros (w1 & w2 & -> & H). exists [], (w1 ++ w2). eauto.
Qed.

(** The tokens after reading a star: two stars in a row are one. *)
Lemma tmatch_push_any toks w :
  tmatch (if negb (ends_in_any toks) then toks ++ [Any] else toks) w <-> tmatch (toks ++ [Any]) w.
Proof.
  unfold ends_in_any. destruct (last toks) as [t|] eqn:E; [|done]. destruct t; simpl; try done.
  apply last_Some in E as [toks' ->]. rewrite <-app_assoc. simpl. rewrite !tmatch_app.
  by setoid_rewrite tmatch_any_any.
Qed.

Lemma take_set_spec chars set rest :
  take_set chars = (set, rest) ->
  (RBRACKET ∉ set) /\ (length rest <= length chars)%nat /\
  ((chars = set ++ RBRACKET :: rest) \/ (chars = set /\ rest = [])).
Proof.
  revert set rest. induction chars as [|c chars IH]; intros set rest; simpl.
  - intros [= <- <-]. split; [apply not_elem_of_nil|]. eauto.
  - destruct (Z.eqb_spec c RBRACKET) as [->|Hc].
    + intros [= <- <-]. split; [apply not_elem_of_nil|]. auto with lia.
    + destruct (take_set chars) as [set' rest'] eqn:E. intros [= <- <-].
      destruct (IH set' rest' eq_refl) as (H1 & H2 & H3). split; [|split; [lia|]].
      * rewrite not_elem_of_cons. done.
      * destruct H3 as [->|[-> ->]]; [left|right]; done.
Qed.

Lemma set_split_unique (s1 s2 p1 p2 : str) :
  RBRACKET ∉ s1 -> RBRACKET ∉ s2 -> s1 ++ RBRACKET :: p1 = s2 ++ RBRACKET :: p2 -> s1 = s2 /\ p1 = p2.
Proof.
  revert s2. induction s1 as [|c s1 IH]; intros [|c2 s2] H1 H2 E; simpl in E.
  - by injection E.
  - injection E as <- _. by destruct H2; left.
  - injection E as -> _. by destruct H1; left.
  - injection E as <- E. apply not_elem_of_cons in H1 as [_ H1], H2 as [_ H2].
    by destruct (IH s2 H1 H2 E) as [-> ->].
Qed.

Lemma glob_set chars set rest w :
  take_set chars = (set, rest) ->
  glob (LBRACKET :: chars) w <-> exists c w', w = c :: w' /\ c ∈ set /\ glob rest w'.
Proof.
  intros (Hs & _ & Hc)%take_set_spec. split.
  - intros H. inversion H as [| | |set' p c w' Hs' Hc' Hg|set' c Hs' Hc'|]; subst; try done.
    + destruct Hc as [E|[E ->]].
      * apply set_split_unique in E as [-> ->]; eauto.
      * exfalso. apply Hs. rewrite <-E. set_solver.
    + destruct Hc as [->|[-> ->]]; [|eauto with riets].
      exfalso. apply Hs'. set_solver.
  - intros (c & w' & -> & Hin & Hg). destruct Hc as [->|[-> ->]].
    + by constructor.
    + inversion Hg. by constructor.
Qed.

Lemma parse_loop_spec fuel toks lit chars :
  (length chars < fuel)%nat ->
  exists out, parse_loop fuel toks lit chars = Some out /\
    forall w, tmatch out w <-> exists w1 w2, w = w1 ++ lit ++ w2 /\ tmatch toks w1 /\ glob chars w2.
Proof.
  revert toks lit chars. induction fuel as [|fuel IH]; intros toks lit chars Hf; [lia|].
  destruct chars as [|ch rest]; simpl in *.
  { eexists; split; [done|]. intros w. rewrite tmatch_flush. split.
    - intros (w' & -> & H). exists w', []. rewrite app_nil_r. auto with riets.
    - intros (w1 & w2 & -> & H & Hg). inversion Hg. rewrite app_nil_r. eauto. }
  destruct (Z.eqb_spec ch STAR) as [->|N1]; [|destruct (Z.eqb_spec ch QUESTION) as [->|N2];
    [|destruct (Z.eqb_spec ch LBRACKET) as [->|N3]]].
  - edestruct IH as (out & -> & Hout); [|eexists; split; [done|]]; [lia|]. intros w. rewrite Hout.
    setoid_rewrite tmatch_push_any. setoid_rewrite tmatch_app. setoid_rewrite tmatch_flush. split.
    + intros (w1 & w2 & -> & (v1 & v2 & -> & (v & -> & Hv) & Ha) & Hg).
      exists v, (v2 ++ w2). rewrite <-!app_assoc. auto with riets.
    + intros (w1 & w2 & -> & H & Hg). inversion Hg as [|? v1 v2 Hv| | | |]; subst; [|done].
      exists (w1 ++ lit ++ v1), v2. split; [by rewrite <-!app_assoc|]. split; [|done].
      exists (w1 ++ lit), v1. split; [by rewrite <-!app_assoc|]. split; [eauto|].
      rewrite <-(app_nil_r v1). auto with riets.
  - edestruct IH as (out & -> & Hout); [|eexists; split; [done|]]; [lia|]. intros w. rewrite Hout.
    setoid_rewrite tmatch_app. setoid_rewrite tmatch_flush. split.
    + intros (w1 & w2 & -> & (v1 & v2 & -> & (v & -> & Hv) & Ha) & Hg).
      inversion Ha as [| | |? c w' Hw|]; subst. inversion Hw; subst.
      exists v, (c :: w2). rewrite <-!app_assoc. auto with riets.
    + intros (w1 & w2 & -> & H & Hg). inversion Hg as [| |? c v Hv| | |]; subst; [|done].
      exists (w1 ++ lit ++ [c]), v. split; [by rewrite <-!app_assoc|]. split; [|done].
      exists (w1 ++ lit), [c]. split; [by rewrite <-!app_assoc|]. eauto with riets.
  - destruct (take_set rest) as [set rest'] eqn:Es. pose proof (take_set_spec _ _ _ Es) as (_ & Hl & _).
    edestruct IH as (out & -> & Hout); [|eexists; split; [done|]]; [lia|]. intros w. rewrite Hout.
    setoid_rewrite tmatch_app. setoid_rewrite tmatch_flush.
    setoid_rewrite (glob_set _ _ _ _ Es). split.
    + intros (w1 & w2 & -> & (v1 & v2 & -> & (v & -> & Hv) & Ha) & Hg).
      inversion Ha as [| | | |? ? c w' Hc Hw]; subst. inversion Hw; subst.
      exists v, (c :: w2). rewrite <-!app_assoc. eauto 10.
    + intros (w1 & w2 & -> & H & (c & v & -> & Hc & Hg)).
      exists (w1 ++ lit ++ [c]), v. split; [by rewrite <-!app_assoc|]. split; [|done].
      exists (w1 ++ lit), [c]. split; [by rewrite <-!app_assoc|]. eauto with riets.
  - destruct (IH toks (lit ++ [ch]) rest) as (out & -> & Hout); [lia|].
    eexists; split; [done|]. intros w. rewrite Hout. split.
    + intros (w1 & w2 & -> & H & Hg). exists w1, (ch :: w2). rewrite <-!app_assoc. auto with riets.
    + intros (w1 & w2 & -> & H & Hg). inversion Hg; subst; try done.
      eexists w1, _. rewrite <-!app_assoc. eauto.
Qed.

Lemma parse_spec p w : tmatch (tokens (parse p)) w <-> glob p w.
Proof.
  unfold parse. destruct (parse_loop_spec (S (length p)) [] [] p) as (out & -> & H); [lia|].
  simpl. rewrite H. split.
  - intros (w1 & w2 & -> & H1 & H2). by inversion H1.
  - intros Hg. exists [], w. auto with riets.
Qed.

Lemma matches_spec pat w : matches pat w = true <-> tmatch (tokens pat) w.
Proof. unfold matches. by rewrite matches_from_spec, drop_0 by lia. Qed.

(** ** The capped union *)

Definition count_of (m : str * PostingList) : Z := Z.of_nat (length (items m.2)).

Lemma match_leb_spec a b :
  match_leb a b = true <->
  count_of b < count_of a \/ (count_of a = count_of b /\ str_compare a.1 b.1 <> Gt).
Proof.
  unfold match_leb. fold (count_of a) (count_of b).
  destruct (Z.compare_spec (count_of b) (count_of a)); destruct (str_compare a.1 b.1);
    split; intros; try done; try lia; try (right; split; [lia|done]); intuition lia || congruence.
Qed.

Lemma match_leb_total a b : match_leb a b = true \/ match_leb b a = true.
Proof.
  rewrite !match_leb_spec. destruct (Z.lt_trichotomy (count_of a) (count_of b)) as [?|[?|?]];
    [by right; left| |by left; left].
  rewrite (str_compare_antisym a.1 b.1). destruct (str_compare a.1 b.1); simpl; intuition congruence.
Qed.

Lemma match_leb_trans a b c : match_leb a b = true -> match_leb b c = true -> match_leb a c = true.
Proof.
  rewrite !match_leb_spec. intros [?|[? H1]] [?|[? H2]]; try (left; lia). right. split; [lia|].
  destruct (str_compare a.1 b.1) eqn:E1, (str_compare b.1 c.1) eqn:E2; try done.
  - apply str_compare_eq in E1 as ->. by rewrite E2.
  - apply str_compare_eq in E1 as ->. by rewrite E2.
  - apply str_compare_eq in E2 as <-. by rewrite E1.
  - by rewrite (str_compare_lt_trans _ _ _ E1 E2).
Qed.

Lemma match_leb_antisym a b : match_leb a b = true -> match_leb b a = true -> a.1 = b.1.
Proof.
  rewrite !match_leb_spec. intros [?|[? H1]] [?|[? H2]]; try lia.
  rewrite (str_compare_antisym a.1 b.1) in H2. apply str_compare_eq.
  by destruct (str_compare a.1 b.1).
Qed.

Lemma NoDup_fst_inj {A B} (l : list (A * B)) x y :
  NoDup (map fst l) -> x ∈ l -> y ∈ l -> x.1 = y.1 -> x = y.
Proof.
  induction l as [|z l IH]; simpl; [set_solver|]. intros [Hz Hl]%NoDup_cons Hx Hy E.
  apply elem_of_cons in Hx as [->|Hx], Hy as [->|Hy]; auto.
  - destruct Hz. rewrite E. by apply list_elem_of_fmap_2.
  - destruct Hz. rewrite <-E. by apply list_elem_of_fmap_2.
Qed.

Lemma sort_matches_unique l l' :
  NoDup (map fst l) -> l ≡ₚ l' -> stable_sort match_leb l = stable_sort match_leb l'.
Proof.
  intros Hnd Hp. eapply (StronglySorted_unique_strong (fun a b => match_leb a b = true)).
  - intros x y Hx Hy H1 H2. apply (NoDup_fst_inj l); [done|..].
    + by rewrite stable_sort_perm in Hx.
    + rewrite Hp. by rewrite stable_sort_perm in Hy.
    + by apply match_leb_antisym.
  - apply stable_sort_sorted; [apply match_leb_total|apply match_leb_trans].
  - apply stable_sort_sorted; [apply match_leb_total|apply match_leb_trans].
  - by rewrite !stable_sort_perm.
Qed.

Lemma sorted_app_rel {A} (R : A -> A -> Prop) l1 l2 x y :
  StronglySorted R (l1 ++ l2) -> x ∈ l1 -> y ∈ l2 -> R x y.
Proof.
  induction l1 as [|z l1 IH]; simpl; [set_solver|]. intros [Hs Hz]%StronglySorted_inv Hx Hy.
  apply elem_of_cons in Hx as [->|Hx]; [|by apply IH].
  rewrite Forall_forall in Hz. apply Hz. set_solver.
Qed.

Lemma elem_of_from_items d l : d ∈ docs (items (from_items l)) <-> d ∈ docs l.
Proof.
  rewrite !elem_of_docs, from_items_lookup. unfold merge_all, posting_of.
  by destruct (filter (fun q => doc_id q = d) l) as [|p q].
Qed.

(** A prefix-only pattern matches the words that start with its prefix. *)
Lemma prefix_only_spec pat w :
  is_prefix_only pat = true -> tmatch (tokens pat) w <-> exists w', w = prefix pat ++ w'.
Proof.
  destruct pat as [toks]. unfold prefix, is_prefix_only. simpl.
  destruct toks as [|[s| | |] [|[| | |] [|? ?]]]; try done. intros _.
  rewrite tmatch_literal. setoid_rewrite tmatch_any. setoid_rewrite tmatch_nil. split.
  - naive_solver.
  - intros (w' & ->). exists w'. split; [done|]. exists w', []. by rewrite app_nil_r.
Qed.

(** ** Main theorems *)

(** Parsing a pattern and running the backtracking matcher decides the meaning of the
    pattern; every matching word starts with the literal prefix the dictionaries search by, and
    for a prefix-only pattern that is all there is to check. *)
Theorem wildcard_correct p w :
  (matches (parse p) w = true <-> glob p w) /\
  (forall pat, matches pat w = true -> exists w', w = prefix pat ++ w') /\
  (forall pat, is_prefix_only pat = true ->
     (matches pat w = true <-> exists w', w = prefix pat ++ w')).
Proof.
  split; [by rewrite matches_spec, parse_spec|]. setoid_rewrite matches_spec. split.
  - intros [toks]. unfold prefix. simpl. destruct toks as [|[s| | |set] toks]; eauto.
    rewrite tmatch_literal. naive_solver.
  - intros pat Hp. by apply prefix_only_spec.
Qed.

(** The capped union keeps the most frequent terms (at most 128, every one of them when
    there are no more), returns a well-formed list of exactly their documents, and does not
    depend on the order in which the terms were found. *)
Theorem capped_union_correct found :
  NoDup (map fst found) ->
  (exists kept dropped,
     found ≡ₚ kept ++ dropped /\ length kept = Nat.min MAX_PATTERN_TERMS (length found) /\
     (forall m m', m ∈ kept -> m' ∈ dropped -> count_of m' <= count_of m) /\
     forall d, d ∈ docs (items (capped_union found)) <-> exists m, m ∈ kept /\ d ∈ docs (items m.2)) /\
  wf_list (capped_union found) /\
  (forall found', found ≡ₚ found' -> capped_union found' = capped_union found).
Proof.
  intros Hnd. split; [|split].
  - set (s := stable_sort match_leb found).
    exists (take MAX_PATTERN_TERMS s), (drop MAX_PATTERN_TERMS s).
    split; [by rewrite take_drop; unfold s; rewrite stable_sort_perm|]. split.
    { rewrite length_take. unfold s. by rewrite stable_sort_perm. }
    split.
    + intros m m' Hm Hm'.
      assert (Hle : match_leb m m' = true); [|rewrite match_leb_spec in Hle; lia].
      eapply (sorted_app_rel (fun a b => match_leb a b = true)); [|exact Hm|exact Hm'].
      rewrite take_drop. apply stable_sort_sorted; [apply match_leb_total|apply match_leb_trans].
    + intros d. unfold capped_union. rewrite elem_of_from_items. unfold docs at 1.
      rewrite list_elem_of_fmap. setoid_rewrite elem_of_concat.
      setoid_rewrite list_elem_of_fmap. fold s. split.
      * intros (q & -> & l & Hq & (m & -> & Hm)). eauto.
      * intros (m & Hm & (q & -> & Hq)). eauto 10.
  - apply from_items_wf.
  - intros found' Hp. unfold capped_union. by rewrite (sort_matches_unique found found').
Qed.

Lemma capped_union_correct_witness :
  capped_union [([98], from_items [Posting_new 4 [1]]); ([97], from_items [Posting_new 2 [7]])]
  = capped_union [([97], from_items [Posting_new 2 [7]]); ([98], from_items [Posting_new 4 [1]])].
Proof.
  destruct (capped_union_correct
    [([97], from_items [Posting_new 2 [7]]); ([98], from_items [Posting_new 4 [1]])]) as (_ & _ & H).
  - simpl. repeat constructor; set_solver.
  - apply H. apply Permutation_swap.
Defined.
