(* ===== verification/Btree.v ===== *)
(** * Ordered maps

    The [BTreeMap]s of the sources are [gmap]s; where the code iterates over one, the order of
    the keys matters. This file gives that iteration as a sorted list of the map's entries, the
    ranges [range(k..)], and the order lemmas for the key types the code uses: field ids,
    document-and-field pairs, and dictionary keys. *)
From Stdlib Require Import ZArith Lia.
From stdpp Require Import base numbers list gmap sorting.
From S2P Require Import Prelude Types.

(** What a key type provides: Rust's [Ord]. *)
Class KeyOrder (K : Type) := {
  key_compare : K -> K -> comparison;
  key_compare_eq : forall a b, key_compare a b = Eq <-> a = b;
  key_compare_antisym : forall a b, key_compare b a = CompOpp (key_compare a b);
  key_compare_trans : forall a b c,
    key_compare a b = Lt -> key_compare b c = Lt -> key_compare a c = Lt
}.

#[global, refine] Instance Z_order : KeyOrder Z := {| key_compare := Z.compare |}.
Proof.
  - apply Z.compare_eq_iff.
  - intros. apply Z.compare_antisym.
  - intros a b c. rewrite !Z.compare_lt_iff. lia.
Defined.

(** Tuples compare field by field. *)
Definition pair_compare (a b : Z * Z) : comparison :=
  match a.1 ?= b.1 with Eq => a.2 ?= b.2 | c => c end.

#[global, refine] Instance pair_order : KeyOrder (Z * Z) := {| key_compare := pair_compare |}.
Proof.
  - intros [a1 a2] [b1 b2]. unfold pair_compare. simpl.
    destruct (Z.compare_spec a1 b1) as [->|H|H].
    + rewrite Z.compare_eq_iff. split; intros E; [by subst|by injection E].
    + split; [done|]. intros E. injection E. lia.
    + split; [done|]. intros E. injection E. lia.
  - intros [a1 a2] [b1 b2]. unfold pair_compare. simpl. rewrite (Z.compare_antisym b1 a1).
    rewrite (Z.compare_antisym b2 a2). destruct (b1 ?= a1); simpl; by rewrite ?CompOpp_involutive.
  - intros [a1 a2] [b1 b2] [c1 c2]. unfold pair_compare. simpl.
    destruct (Z.compare_spec a1 b1), (Z.compare_spec b1 c1), (Z.compare_spec a1 c1); try done; try lia.
    rewrite !Z.compare_lt_iff. lia.
Defined.

#[global, refine] Instance str_order : KeyOrder (list Z) := {| key_compare := str_compare |}.
Proof.
  - apply str_compare_eq.
  - intros. apply str_compare_antisym.
  - apply str_compare_lt_trans.
Defined.

#[global, refine] Instance TermKey_order : KeyOrder TermKey := {| key_compare := TermKey_compare |}.
Proof.
  - apply TermKey_compare_eq.
  - intros. apply TermKey_compare_antisym.
  - apply TermKey_compare_lt_trans.
Defined.

(** [a <= b] and [a < b]. *)
Definition key_cle {K} `{KeyOrder K} (a b : K) : bool :=
  match key_compare a b with Gt => false | _ => true end.
Definition key_clt {K} `{KeyOrder K} (a b : K) : Prop := key_compare a b = Lt.

Section order.
Context {K : Type} `{!KeyOrder K}.
Implicit Types a b c : K.

Lemma key_cle_lt a b : key_cle a b = true <-> key_clt a b \/ a = b.
Proof.
  unfold key_cle, key_clt. rewrite <-key_compare_eq. destruct (key_compare a b); intuition congruence.
Qed.

Lemma key_cle_refl a : key_cle a a = true.
Proof. rewrite key_cle_lt. by right. Qed.

Lemma key_clt_irrefl a : ~ key_clt a a.
Proof.
  unfold key_clt. assert (key_compare a a = Eq) as -> by (by apply key_compare_eq). done.
Qed.

Lemma key_clt_trans a b c : key_clt a b -> key_clt b c -> key_clt a c.
Proof. apply key_compare_trans. Qed.

Lemma key_cle_trans a b c : key_cle a b = true -> key_cle b c = true -> key_cle a c = true.
Proof. rewrite !key_cle_lt. intros [?| ->] [?| ->]; eauto using key_clt_trans. Qed.

Lemma key_cle_total a b : key_cle a b = true \/ key_cle b a = true.
Proof. unfold key_cle. rewrite (key_compare_antisym a b). destruct (key_compare a b); auto. Qed.

Lemma key_cle_false a b : key_cle a b = false <-> key_clt b a.
Proof. unfold key_cle, key_clt. rewrite (key_compare_antisym a b). by destruct (key_compare a b). Qed.
End order.

(** ** Iteration *)

Section btree.
Context {K A : Type} `{!KeyOrder K} `{!EqDecision K} `{!Countable K}.
Implicit Types (m : gmap K A) (l : list (K * A)).

Definition entry_cle (x y : K * A) : bool := key_cle x.1 y.1.

(** [BTreeMap::iter]. *)
Definition btree_iter (m : gmap K A) : list (K * A) := stable_sort entry_cle (map_to_list m).

(** [BTreeMap::range(k..)]. *)
Definition btree_range_from (k : K) (m : gmap K A) : list (K * A) :=
  filter (fun e => key_cle k e.1 = true) (btree_iter m).

(** Strictly ascending keys. *)
Definition ascending_keys (l : list (K * A)) : Prop := StronglySorted (fun x y => key_clt x.1 y.1) l.

Lemma btree_iter_perm m : btree_iter m ≡ₚ map_to_list m.
Proof. apply stable_sort_perm. Qed.

Lemma elem_of_btree_iter m k x : (k, x) ∈ btree_iter m <-> m !! k = Some x.
Proof. by rewrite btree_iter_perm, elem_of_map_to_list. Qed.

Lemma ascending_of_sorted l :
  StronglySorted (fun x y => entry_cle x y = true) l -> NoDup l.*1 -> ascending_keys l.
Proof.
  induction 1 as [|x l Hs IH Hx]; [constructor|]. intros [Hn Hnd]%NoDup_cons.
  constructor; [by apply IH|]. rewrite Forall_forall in Hx |- *. intros y Hy.
  specialize (Hx y Hy). unfold entry_cle in Hx. apply key_cle_lt in Hx as [?|E]; [done|].
  destruct Hn. rewrite E. by apply list_elem_of_fmap_2.
Qed.

Lemma btree_iter_ascending m : ascending_keys (btree_iter m).
Proof.
  apply ascending_of_sorted.
  - apply stable_sort_sorted; unfold entry_cle; intros.
    + apply key_cle_total.
    + by eapply key_cle_trans.
  - rewrite btree_iter_perm. apply NoDup_fst_map_to_list.
Qed.

Lemma ascending_NoDup l : ascending_keys l -> NoDup l.*1.
Proof.
  induction 1 as [|x l Hs IH Hx]; [constructor|]. constructor; [|done].
  intros (y & E & Hy)%list_elem_of_fmap. rewrite Forall_forall in Hx. specialize (Hx y Hy).
  rewrite E in Hx. by eapply key_clt_irrefl.
Qed.

(** The iteration is the only ascending list with the entries of the map. *)
Lemma ascending_unique l l' : ascending_keys l -> ascending_keys l' -> l ≡ₚ l' -> l = l'.
Proof.
  intros H H' Hp. eapply (StronglySorted_unique_strong (fun x y => key_clt x.1 y.1)); try done.
  intros x y _ _ Hxy Hyx. destruct (key_clt_irrefl x.1). by eapply key_clt_trans.
Qed.

Lemma btree_iter_list_to_map l : ascending_keys l -> btree_iter (list_to_map l) = l.
Proof.
  intros H. apply ascending_unique; [apply btree_iter_ascending|done|].
  rewrite btree_iter_perm. apply map_to_list_to_map. by apply ascending_NoDup.
Qed.

Lemma list_to_map_btree_iter m : list_to_map (btree_iter m) = m.
Proof.
  rewrite <-(list_to_map_to_list m) at 2. apply list_to_map_proper.
  - apply ascending_NoDup, btree_iter_ascending.
  - apply btree_iter_perm.
Qed.

Lemma length_btree_iter m : length (btree_iter m) = size m.
Proof. by rewrite btree_iter_perm, length_map_to_list. Qed.

Lemma btree_iter_empty : btree_iter (∅ : gmap K A) = [].
Proof. unfold btree_iter. by rewrite map_to_list_empty. Qed.

Lemma filter_ascending_keys (P : K * A -> Prop) `{!forall x, Decision (P x)} l :
  ascending_keys l -> ascending_keys (filter P l).
Proof.
  induction 1 as [|x l Hs IH Hx]; [constructor|]. rewrite filter_cons. case_decide; [|done].
  constructor; [done|]. rewrite Forall_forall in Hx |- *. intros y [_ Hy]%list_elem_of_filter. eauto.
Qed.

(** A loop over the ascending entries that stops at the first one outside [P] sees all of [P],
    when nothing of [P] comes after an entry outside it. *)
Fixpoint take_while (P : K * A -> bool) (l : list (K * A)) : list (K * A) :=
  match l with
  | [] => []
  | x :: l' => if P x then x :: take_while P l' else []
  end.

Lemma take_while_filter (P : K * A -> bool) l :
  StronglySorted (fun x y => P y = true -> P x = true) l ->
  take_while P l = filter (fun x => P x = true) l.
Proof.
  induction 1 as [|x l Hs IH Hx]; [done|]. simpl. rewrite filter_cons.
  case_decide as Hd.
  - by rewrite Hd, IH.
  - destruct (P x) eqn:E; [done|]. symmetry. apply filter_none. intros y Hy Hp.
    rewrite Forall_forall in Hx. by specialize (Hx y Hy Hp).
Qed.

Lemma elem_of_btree_range_from k m k' x :
  (k', x) ∈ btree_range_from k m <-> m !! k' = Some x /\ key_cle k k' = true.
Proof.
  unfold btree_range_from. rewrite list_elem_of_filter, elem_of_btree_iter. simpl. tauto.
Qed.
End btree.

(** ** Terms with a common prefix *)

(** [str::starts_with]. *)
Definition starts_with (prefix s : str) : bool := bool_decide (take (length prefix) s = prefix).

Lemma starts_with_spec p s : starts_with p s = true <-> exists s', s = p ++ s'.
Proof.
  unfold starts_with. rewrite bool_decide_eq_true. split.
  - intros E. exists (drop (length p) s). by rewrite <-E at 1; rewrite take_drop.
  - intros (s' & ->). by rewrite take_app_length.
Qed.

Lemma starts_with_nil s : starts_with [] s = true.
Proof. done. Qed.

(** The strings that start with [p] are the first ones of those from [p] on. *)
Lemma prefix_contiguous p s t :
  key_cle p s = true -> key_cle s t = true -> starts_with p t = true -> starts_with p s = true.
Proof.
  rewrite !starts_with_spec. intros Hps Hst (t' & ->). revert s Hps Hst.
  induction p as [|c p IH]; intros s Hps Hst; [by exists s|].
  destruct s as [|d s]; [done|]. unfold key_cle in *. simpl in *.
  destruct (Z.compare_spec c d) as [->|H|H]; [|..]; try done.
  - rewrite Z.compare_refl in Hst. destruct (IH s Hps Hst) as [s' ->]. by exists s'.
  - destruct (Z.compare_spec d c); try done; lia.
Qed.

Lemma starts_with_cle p s : starts_with p s = true -> key_cle p s = true.
Proof.
  rewrite starts_with_spec. intros (s' & ->). induction p as [|c p IH]; simpl.
  - unfold key_cle. simpl. by destruct s'.
  - unfold key_cle in *. simpl in *. by rewrite Z.compare_refl.
Qed.

(** Inserting the entries one by one rebuilds the map. *)
Lemma fold_insert_union {K A} `{Countable K} (l : list (K * A)) (m : gmap K A) :
  NoDup l.*1 -> fold_left (fun acc e => <[e.1 := e.2]> acc) l m = list_to_map l ∪ m.
Proof.
  revert m. induction l as [|[k x] l IH]; intros m Hn; [by simpl; rewrite map_empty_union|].
  apply NoDup_cons in Hn as [Hk Hn]. simpl. rewrite IH by done.
  rewrite <-insert_union_r by (by apply not_elem_of_list_to_map_1). by rewrite insert_union_l.
Qed.

Lemma fold_insert_btree {K A} `{KeyOrder K} `{Countable K} (m : gmap K A) :
  fold_left (fun acc e => <[e.1 := e.2]> acc) (btree_iter m) ∅ = m.
Proof.
  rewrite fold_insert_union by apply ascending_NoDup, btree_iter_ascending.
  by rewrite map_union_empty, list_to_map_btree_iter.
Qed.

Lemma btree_iter_fmap {K A B} `{!KeyOrder K, !EqDecision K, !Countable K} (f : A -> B) (m : gmap K A) :
  btree_iter (f <$> m) = prod_map id f <$> btree_iter m.
Proof. unfold btree_iter. rewrite map_to_list_fmap. apply (stable_sort_fmap (prod_map id f) entry_cle). Qed.

(** Related maps are iterated in step. *)
Lemma btree_iter_Forall2 {K A B} `{!KeyOrder K, !EqDecision K, !Countable K} (R : K -> A -> B -> Prop)
    (m1 : gmap K A) (m2 : gmap K B) :
  map_Forall2 R m1 m2 ->
  Forall2 (fun e1 e2 => e1.1 = e2.1 /\ R e1.1 e1.2 e2.2) (btree_iter m1) (btree_iter m2).
Proof.
  intros HR.
  assert (E1 : fst <$> map_zip m1 m2 = m1) by (apply fst_map_zip; intros k; specialize (HR k);
    destruct HR; by intros [? ?]).
  assert (E2 : snd <$> map_zip m1 m2 = m2) by (apply snd_map_zip; intros k; specialize (HR k);
    destruct HR; by intros [? ?]).
  rewrite <-E1 at 1. rewrite <-E2 at 2. rewrite !btree_iter_fmap. apply Forall2_fmap, Forall_Forall2_diag.
  apply Forall_forall. intros [k [a b]] Hin. simpl. split; [done|].
  apply elem_of_btree_iter, map_lookup_zip_Some in Hin as [Ha Hb]. specialize (HR k).
  rewrite Ha, Hb in HR. by inv HR.
Qed.
