(* ===== verification/TermDict.v ===== *)
(** * The term dictionary of a segment file

    Models [crates/core-index/src/term_dict.rs]: per field, a finite-state transducer from the
    terms to their position in the sorted order, and the array of the terms' metadata that
    position indexes.

    The transducer is the crate [fst], which is not part of the repository: it is the parameter
    [FstLib], and [FstLaws] states what its documentation promises. Keys are the strings
    themselves: the crate orders keys by bytes, which for UTF-8 is the order of the characters. *)
From Stdlib Require Import ZArith Lia.
From stdpp Require Import base numbers list gmap sorting strings.
From S2P Require Import Prelude Types Btree.
Local Open Scope io_scope.
Local Open Scope Z_scope.

(** ** The [fst] crate *)

Class FstLib := {
  FstMap : Type;
  (** [MapBuilder::memory], [insert] of each pair in turn, [into_inner]. *)
  fst_build : list (str * Z) -> io_result (list Z);
  (** [Map::new]. *)
  fst_open : list Z -> io_result FstMap;
  (** [as_fst().as_bytes()]. *)
  fst_as_bytes : FstMap -> list Z;
  fst_get : FstMap -> str -> option Z;
  (** [stream()], all pairs in key order. *)
  fst_stream : FstMap -> list (str * Z);
  (** [range().ge(key)]. *)
  fst_range_ge : FstMap -> str -> list (str * Z)
}.

(** The value of a key in a list of pairs. *)
Definition assoc_get (k : str) (l : list (str * Z)) : option Z :=
  snd <$> head (filter (fun e => e.1 = k) l).

Class FstLaws `{FstLib} := {
  (** Keys inserted in strictly ascending order build a transducer that opens again and streams
      exactly the inserted pairs. *)
  fst_build_open : forall kvs, ascending_keys kvs ->
    exists bytes m, fst_build kvs = Ok bytes /\ fst_open bytes = Ok m /\ fst_stream m = kvs;
  fst_open_bytes : forall bytes m, fst_open bytes = Ok m -> fst_as_bytes m = bytes;
  fst_get_stream : forall bytes m k, fst_open bytes = Ok m -> fst_get m k = assoc_get k (fst_stream m);
  fst_range_stream : forall bytes m k, fst_open bytes = Ok m ->
    fst_range_ge m k = filter (fun e => key_cle k e.1 = true) (fst_stream m)
}.

(** ** Term metadata *)

Definition TERM_META_LEN : Z := 8 + 4 + 4 + 2.

Record TermMeta : Type := mkTermMeta {
  postings_offset : Z; postings_len : Z; tm_doc_freq : Z; tm_max_weight : Z }.
Definition TermMeta_default : TermMeta := mkTermMeta 0 0 0 0.
#[global] Instance TermMeta_eq_dec : EqDecision TermMeta.
Proof. solve_decision. Defined.

Section dict.
Context `{FstLib}.

Record TermDict : Type := mkDict { td_map : option FstMap; td_metas : list TermMeta }.
Definition TermDict_empty : TermDict := mkDict None [].

(** The pairs [build] inserts: the ord is the position. *)
Definition with_ords (terms : list (str * TermMeta)) : list (str * Z) :=
  imap (fun i e => (e.1, Z.of_nat i)) terms.

Definition TermDict_build (terms : list (str * TermMeta)) : io_result TermDict :=
  match terms with
  | [] => Ok TermDict_empty
  | _ =>
    let! bytes := fst_build (with_ords terms) in
    let! map := fst_open bytes in
    Ok (mkDict (Some map) (terms.*2))
  end.

Definition from_parts (bytes : list Z) (metas : list TermMeta) : io_result TermDict :=
  match metas with
  | [] => Ok TermDict_empty
  | _ => let! map := fst_open bytes in Ok (mkDict (Some map) metas)
  end.

Definition dict_fst_bytes (self : TermDict) : list Z :=
  match td_map self with Some map => fst_as_bytes map | None => [] end.

Definition td_get (self : TermDict) (term : str) : option TermMeta :=
  match td_map self with
  | None => None
  | Some map =>
    match fst_get map term with Some ord => td_metas self !! Z.to_nat ord | None => None end
  end.

(** [self.metas.get(ord).copied().unwrap_or_default()]. *)
Definition meta_at (self : TermDict) (ord : Z) : TermMeta :=
  default TermMeta_default (td_metas self !! Z.to_nat ord).

Definition td_entries (self : TermDict) : list (str * TermMeta) :=
  match td_map self with
  | None => []
  | Some map => (fun e => (e.1, meta_at self e.2)) <$> fst_stream map
  end.

(** The streaming loop of [prefix] stops at the first term without the prefix. *)
Definition td_prefix (self : TermDict) (prefix : str) : list (str * TermMeta) :=
  match td_map self with
  | None => []
  | Some map =>
    (fun e => (e.1, meta_at self e.2)) <$>
      take_while (fun e => starts_with prefix e.1) (fst_range_ge map prefix)
  end.

(** ** Every field's dictionary *)

Abbreviation TermDictionary := (gmap Z TermDict) (only parsing).

Definition dictionary_insert_field (self : TermDictionary) (xpath : XPathId) (dict : TermDict)
    : TermDictionary := <[xpath := dict]> self.
Definition dictionary_get (self : TermDictionary) (xpath : XPathId) (term : str) : option TermMeta :=
  match self !! xpath with Some dict => td_get dict term | None => None end.

(** ** What a dictionary holds *)

(** [d] is the dictionary of these terms. *)
Definition dict_of (terms : list (str * TermMeta)) (d : TermDict) : Prop :=
  td_metas d = terms.*2 /\
  match td_map d with
  | None => terms = []
  | Some m => terms <> [] /\ fst_stream m = with_ords terms /\ fst_open (fst_as_bytes m) = Ok m
  end.

Lemma with_ords_keys terms : (with_ords terms).*1 = terms.*1.
Proof.
  unfold with_ords. apply list_eq. intros i. rewrite !list_lookup_fmap, list_lookup_imap.
  by destruct (terms !! i).
Qed.

Lemma ascending_by_keys {A B} (l1 : list (str * A)) (l2 : list (str * B)) :
  l1.*1 = l2.*1 -> ascending_keys l1 -> ascending_keys l2.
Proof.
  intros E Hs. revert l2 E. induction Hs as [|x l Hs IH Hx]; intros [|y l2] E; try done; [constructor|].
  rewrite !fmap_cons in E. apply (inj2 cons) in E as [Exy E]. constructor; [by apply IH|]. apply Forall_forall. intros z Hz.
  assert (Hz1 : z.1 ∈ l.*1) by (rewrite E; by apply list_elem_of_fmap_2).
  apply list_elem_of_fmap in Hz1 as (u & -> & Hu). rewrite Forall_forall in Hx. rewrite <-Exy. by apply Hx.
Qed.

Context `{!FstLaws}.

Lemma TermDict_build_ok terms :
  ascending_keys terms -> exists d, TermDict_build terms = Ok d /\ dict_of terms d.
Proof.
  intros Hs. destruct terms as [|e terms]; [by exists TermDict_empty|].
  destruct (fst_build_open (with_ords (e :: terms))) as (bytes & m & Hb & Ho & Hm).
  { eapply ascending_by_keys; [|exact Hs]. by rewrite with_ords_keys. }
  unfold TermDict_build. rewrite Hb. cbn [io_bind]. rewrite Ho. cbn [io_bind]. eexists. split; [done|].
  split; [done|]. simpl. split; [done|]. split; [done|]. by rewrite (fst_open_bytes _ _ Ho).
Qed.

(** A dictionary reopened from its parts is the same one. *)
Lemma from_parts_ok terms d :
  dict_of terms d -> from_parts (dict_fst_bytes d) (td_metas d) = Ok d.
Proof.
  intros [Hm Hd]. unfold from_parts, dict_fst_bytes. destruct d as [[m|] metas]; simpl in *.
  - destruct Hd as (Hne & _ & Ho). rewrite Ho. cbn [io_bind]. by destruct terms, metas.
  - by subst.
Qed.

Lemma with_ords_lookup terms i e : terms !! i = Some e -> with_ords terms !! i = Some (e.1, Z.of_nat i).
Proof. intros E. unfold with_ords. by rewrite list_lookup_imap, E. Qed.

Lemma head_filter_unique {A} (l : list (str * A)) i k x :
  NoDup l.*1 -> l !! i = Some (k, x) -> head (filter (fun e => e.1 = k) l) = Some (k, x).
Proof.
  revert i. induction l as [|[k' y] l IH]; intros i Hn Hi; [done|]. apply NoDup_cons in Hn as [Hni Hn].
  rewrite filter_cons. simpl. destruct i as [|i]; simpl in Hi.
  - injection Hi as -> ->. by rewrite decide_True.
  - rewrite decide_False; [by eapply IH|]. intros ->. apply Hni. simpl.
    apply (list_elem_of_fmap_2 fst _ (k, x)). by apply list_elem_of_lookup_2 with i.
Qed.

Lemma head_filter_none {A} (l : list (str * A)) k :
  k ∉ l.*1 -> head (filter (fun e => e.1 = k) l) = None.
Proof.
  intros Hk. rewrite filter_none; [done|]. intros e He Ek. apply Hk. rewrite <-Ek.
  by apply list_elem_of_fmap_2.
Qed.

Lemma td_get_ok terms d t :
  ascending_keys terms -> dict_of terms d ->
  td_get d t = snd <$> head (filter (fun e => e.1 = t) terms).
Proof.
  intros Hs [Hm Hd]. pose proof (ascending_NoDup _ Hs) as Hn. unfold td_get.
  destruct (td_map d) as [m|]; [|by rewrite Hd]. destruct Hd as (_ & Hst & Ho).
  rewrite (fst_get_stream _ _ _ Ho), Hst. unfold assoc_get.
  destruct (decide (t ∈ terms.*1)) as [Hin|Hni].
  - apply list_elem_of_fmap in Hin as ([t' x] & -> & Hin). simpl.
    apply list_elem_of_lookup_1 in Hin as [i Hi].
    rewrite (head_filter_unique (with_ords terms) i _ (Z.of_nat i));
      [|by rewrite with_ords_keys|by rewrite (with_ords_lookup _ _ _ Hi)].
    rewrite (head_filter_unique terms i _ x) by done. simpl.
    rewrite Hm, Nat2Z.id, list_lookup_fmap, Hi. done.
  - rewrite head_filter_none by (by rewrite with_ords_keys). by rewrite head_filter_none.
Qed.

Lemma imap_metas terms (g : str -> bool) :
  (fun e => (e.1, default TermMeta_default (terms.*2 !! Z.to_nat e.2))) <$>
    filter (fun e => g e.1 = true) (with_ords terms) = filter (fun e => g e.1 = true) terms.
Proof.
  unfold with_ords.
  assert (Hgen : forall (l pre : list (str * TermMeta)), pre ++ l = terms ->
    (fun e => (e.1, default TermMeta_default (terms.*2 !! Z.to_nat e.2))) <$>
      filter (fun e => g e.1 = true) (imap (fun i e => (e.1, Z.of_nat (length pre + i))) l)
    = filter (fun e => g e.1 = true) l).
  { induction l as [|e l IH]; intros pre Hpre; [done|]. rewrite imap_cons, !filter_cons. simpl.
    rewrite Nat.add_0_r.
    assert (Hl : (fun e => (e.1, default TermMeta_default (terms.*2 !! Z.to_nat e.2))) <$>
      filter (fun e => g e.1 = true)
        (imap ((fun i e => (e.1, Z.of_nat (length pre + i))) ∘ S) l) = filter (fun e => g e.1 = true) l).
    { rewrite <-(IH (pre ++ [e])) by (by rewrite <-app_assoc). do 2 f_equal. apply imap_ext.
      intros i x _. simpl. rewrite length_app. simpl. do 2 f_equal. lia. }
    case_decide; [|done]. rewrite fmap_cons. cbn [fst snd]. rewrite Hl. f_equal.
    rewrite Nat2Z.id, <-Hpre, fmap_app, lookup_app_r by (by rewrite length_fmap).
    rewrite length_fmap, Nat.sub_diag. by destruct e. }
  exact (Hgen terms [] eq_refl).
Qed.

Lemma td_entries_ok terms d : dict_of terms d -> td_entries d = terms.
Proof.
  intros [Hm Hd]. unfold td_entries. destruct (td_map d) as [m|]; [|done]. destruct Hd as (_ & Hst & _).
  rewrite Hst. pose proof (imap_metas terms (fun _ => true)) as E.
  rewrite !filter_all in E by (apply Forall_true; done). unfold meta_at. by rewrite Hm.
Qed.

Lemma td_prefix_ok terms d p :
  ascending_keys terms -> dict_of terms d ->
  td_prefix d p = filter (fun e => starts_with p e.1 = true) terms.
Proof.
  intros Hs [Hm Hd]. unfold td_prefix. destruct (td_map d) as [m|]; [|by rewrite Hd].
  destruct Hd as (_ & Hst & Ho). rewrite (fst_range_stream _ _ _ Ho), Hst.
  assert (Hso : ascending_keys (with_ords terms)) by (eapply ascending_by_keys; [|exact Hs]; by rewrite with_ords_keys).
  rewrite take_while_filter.
  - rewrite list_filter_filter. unfold meta_at. rewrite Hm, <-imap_metas. f_equal. apply filter_ext_in.
    intros e _. split; [tauto|]. intros He. split; [done|]. by apply starts_with_cle.
  - assert (Hge : forall e, e ∈ filter (fun e => key_cle p e.1 = true) (with_ords terms) -> key_cle p e.1 = true)
      by (intros e He; by apply list_elem_of_filter in He as [? _]).
    pose proof (filter_ascending_keys (fun e => key_cle p e.1 = true) _ Hso) as Hf.
    induction Hf as [|x l Hf IH Hx]; [constructor|]. constructor.
    { apply IH. intros e He. apply Hge. by right. }
    rewrite Forall_forall in Hx |- *. intros y Hy Hsw.
    eapply prefix_contiguous; [apply Hge; left|apply key_cle_lt; left; by apply Hx|done].
Qed.
End dict.
