(* ===== verification/Segment.v ===== *)
(** * Segments in memory and the search interface

    Models [crates/core-index/src/segment/mod.rs], [segment/immutable.rs] and the traits of
    [search.rs]: a frozen memtable with its dictionary, field lengths, statistics, numeric and
    boolean fields and array rows, its lookups, and the interface [SearchIndex] every kind of
    segment implements, with the laws that say what each lookup returns. *)
From Stdlib Require Import ZArith Lia.
From stdpp Require Import base numbers list gmap sorting sets.
From S2P Require Import Prelude Types Posting Numeric ArrayRows Wildcard Btree.

(** A [RoaringTreemap] is a set of 64-bit ids. *)
Record BoolField : Type := mkBoolField { true_ids : gset Z; false_ids : gset Z }.
Definition BoolField_default : BoolField := mkBoolField ∅ ∅.
#[global] Instance BoolField_eq_dec : EqDecision BoolField.
Proof. solve_decision. Defined.

Abbreviation Terms := (gmap TermKey PostingList) (only parsing).
Abbreviation DocLens := (gmap (Z * Z) Z) (only parsing).
Abbreviation Stats := (gmap Z FieldStats) (only parsing).
Abbreviation BoolFields := (gmap Z BoolField) (only parsing).

(** ** Statistics and the document range *)

(** One iteration of the loop of [build_field_stats]. *)
Definition count_length (stats : Stats) (e : (DocId * XPathId) * Z) : Stats :=
  let entry := default FieldStats_default (stats !! e.1.2) in
  <[e.1.2 := mkFieldStats (wrap 64 (doc_count entry + 1)) (wrap 64 (total_doc_len entry + e.2))]> stats.

Definition build_field_stats (doc_lengths : list ((DocId * XPathId) * Z)) : Stats :=
  fold_left count_length doc_lengths ∅.

(** One iteration of the loops of [compute_doc_id_range]. *)
Definition widen (range : option (DocId * DocId)) (d : DocId) : option (DocId * DocId) :=
  Some match range with
       | None => (d, d)
       | Some (lo, hi) => (Z.min lo d, Z.max hi d)
       end.

Definition compute_doc_id_range (doc_lengths : DocLens) (numeric_fields : gmap Z NumericField)
    : option (DocId * DocId) :=
  let range := fold_left widen (map (fun e => e.1.1) (btree_iter doc_lengths)) None in
  fold_left (fun range e => fold_left widen (map snd (bkd_points (nf_bkd (e.2)))) range)
    (btree_iter numeric_fields) range.

(** ** The segment *)

Record ImmutableSegment : Type := mkSegment {
  seg_terms : Terms;
  seg_doc_lengths : DocLens;
  seg_field_stats : Stats;
  seg_numeric_fields : gmap Z NumericField;
  seg_bool_fields : BoolFields;
  seg_doc_id_range : option (DocId * DocId);
  seg_array_row_index : ArrayRowIndex
}.

Definition ImmutableSegment_new (terms : Terms) (doc_lengths : DocLens) (field_stats : Stats)
    (numeric_fields : gmap Z NumericField) (bool_fields : BoolFields)
    (array_row_index : ArrayRowIndex) : ImmutableSegment :=
  mkSegment terms doc_lengths field_stats numeric_fields bool_fields
    (compute_doc_id_range doc_lengths numeric_fields) array_row_index.

Definition seg_lookup (self : ImmutableSegment) (term : str) (xpath : XPathId) : option PostingList :=
  seg_terms self !! TermKey_new term xpath.
Definition seg_lookup_or_empty (self : ImmutableSegment) (term : str) (xpath : XPathId) : PostingList :=
  default PostingList_new (seg_lookup self term xpath).

Definition list_len_u32 (l : PostingList) : Z := wrap 32 (Z.of_nat (length (items l))).
Definition seg_doc_freq (self : ImmutableSegment) (term : str) (xpath : XPathId) : Z :=
  match seg_lookup self term xpath with Some l => list_len_u32 l | None => 0 end.

Definition named (e : TermKey * PostingList) : str * PostingList := (tk_term e.1, e.2).

Definition seg_terms_of (self : ImmutableSegment) (xpath : XPathId) : list str :=
  map (fun e => tk_term e.1)
    (take_while (fun e => tk_xpath e.1 =? xpath)
       (btree_range_from (TermKey_new [] xpath) (seg_terms self))).

Definition seg_lookup_prefix (self : ImmutableSegment) (prefix : str) (xpath : XPathId) : PostingList :=
  let found := take_while (fun e => negb (negb (tk_xpath e.1 =? xpath) || negb (starts_with prefix (tk_term e.1))))
    (btree_range_from (TermKey_new prefix xpath) (seg_terms self)) in
  capped_union (map named found).

Definition str_is_empty (s : str) : bool := match s with [] => true | _ => false end.

Definition seg_lookup_wildcard (self : ImmutableSegment) (pattern : WildcardPattern) (xpath : XPathId)
    : PostingList :=
  if is_prefix_only pattern then seg_lookup_prefix self (prefix pattern) xpath
  else
    let prefix := prefix pattern in
    let seen := take_while (fun e => negb (negb (tk_xpath e.1 =? xpath) ||
        (negb (str_is_empty prefix) && negb (starts_with prefix (tk_term e.1)))))
      (btree_range_from (TermKey_new prefix xpath) (seg_terms self)) in
    capped_union (map named (filter (fun e => matches pattern (tk_term e.1) = true) seen)).

(** [SearchStats] and the boolean part of [SearchIndex]. *)
Definition seg_doc_len (self : ImmutableSegment) (d : DocId) (xpath : XPathId) : option Z :=
  seg_doc_lengths self !! (d, xpath).
Definition stats_doc_count (stats : Stats) (xpath : XPathId) : Z :=
  match stats !! xpath with Some s => doc_count s | None => 0 end.
Definition stats_total_doc_len (stats : Stats) (xpath : XPathId) : Z :=
  match stats !! xpath with Some s => total_doc_len s | None => 0 end.

Definition bool_true_ids (fields : BoolFields) (xpath : XPathId) : gset Z :=
  match fields !! xpath with Some f => true_ids f | None => ∅ end.
Definition bool_false_ids (fields : BoolFields) (xpath : XPathId) : gset Z :=
  match fields !! xpath with Some f => false_ids f | None => ∅ end.
Definition bool_value (fields : BoolFields) (xpath : XPathId) (d : DocId) : option bool :=
  match fields !! xpath with
  | None => None
  | Some f => if bool_decide (d ∈ true_ids f) then Some true
              else if bool_decide (d ∈ false_ids f) then Some false else None
  end.

(** [SearchNumeric::numeric_range]: the documents as postings without positions. *)
Definition docs_to_list (docs : list DocId) : PostingList :=
  from_items (map (fun d => Posting_with_weight d [] 0) docs).
Definition seg_numeric_range (self : ImmutableSegment) (xpath : XPathId) (lo hi : option NumericBound)
    : PostingList := docs_to_list (nfs_range (seg_numeric_fields self) xpath lo hi).

(** ** The search interface *)

Record TermPostings : Type := mkTermPostings {
  tp_postings : PostingList; tp_doc_freq : Z; tp_max_weight : Z }.

(** The trait [SearchIndex], text part. *)
Class SearchIndex (S : Type) := {
  si_lookup : S -> str -> XPathId -> PostingList;
  si_lookup_prefix : S -> str -> XPathId -> PostingList;
  si_lookup_wildcard : S -> WildcardPattern -> XPathId -> PostingList;
  si_terms : S -> XPathId -> list str;
  si_doc_freq : S -> str -> XPathId -> Z
}.

(** The default method [lookup_term]. *)
Definition lookup_term {S} `{SearchIndex S} (self : S) (term : str) (xpath : XPathId) : TermPostings :=
  let postings := si_lookup self term xpath in
  mkTermPostings postings (list_len_u32 postings) (max_weight postings).

(** The terms of a field that satisfy [P], with their postings. *)
Definition terms_matching (P : str -> bool) (xpath : XPathId) (m : Terms) : list (str * PostingList) :=
  map named (filter (fun e => tk_xpath e.1 = xpath /\ P (tk_term e.1) = true) (btree_iter m)).

(** What every index promises about its content, a map from dictionary keys to postings. *)
Class SearchIndexSpec (S : Type) `{SearchIndex S} := {
  si_content : S -> gmap TermKey PostingList;
  si_lookup_ok : forall s term xpath,
    si_lookup s term xpath = default PostingList_new (si_content s !! TermKey_new term xpath);
  si_lookup_prefix_ok : forall s p xpath,
    si_lookup_prefix s p xpath = capped_union (terms_matching (starts_with p) xpath (si_content s));
  si_lookup_wildcard_ok : forall s pat xpath,
    si_lookup_wildcard s pat xpath = capped_union (terms_matching (matches pat) xpath (si_content s));
  si_terms_ok : forall s xpath,
    si_terms s xpath ≡ₚ (terms_matching (fun _ => true) xpath (si_content s)).*1;
  si_doc_freq_ok : forall s term xpath,
    si_doc_freq s term xpath = match si_content s !! TermKey_new term xpath with
                               | Some l => list_len_u32 l | None => 0 end
}.

#[global] Instance ImmutableSegment_search : SearchIndex ImmutableSegment := {|
  si_lookup := seg_lookup_or_empty;
  si_lookup_prefix := seg_lookup_prefix;
  si_lookup_wildcard := seg_lookup_wildcard;
  si_terms := seg_terms_of;
  si_doc_freq := seg_doc_freq
|}.

(** ** Statistics are a function of the lengths *)

Definition lengths_of (xpath : XPathId) (l : list ((DocId * XPathId) * Z)) : list Z :=
  map snd (filter (fun e => e.1.2 = xpath) l).
Definition sum_Z (l : list Z) : Z := foldr Z.add 0 l.

(** The statistics of one field: how many documents have it and their total length. *)
Definition stats_of (lens : list Z) : option FieldStats :=
  match lens with
  | [] => None
  | _ => Some (mkFieldStats (wrap 64 (Z.of_nat (length lens))) (wrap 64 (sum_Z lens)))
  end.

Lemma sum_Z_app l1 l2 : sum_Z (l1 ++ l2) = sum_Z l1 + sum_Z l2.
Proof. induction l1 as [|x l1 IH]; simpl; [done|]. rewrite IH. lia. Qed.

Lemma sum_Z_perm l l' : l ≡ₚ l' -> sum_Z l = sum_Z l'.
Proof. induction 1; simpl; lia. Qed.

Lemma stats_of_perm l l' : l ≡ₚ l' -> stats_of l = stats_of l'.
Proof.
  intros Hp. pose proof (sum_Z_perm _ _ Hp) as E. apply Permutation_length in Hp.
  unfold stats_of. rewrite E, Hp. by destruct l, l'.
Qed.

Lemma wrap_add_l w x y : wrap w (wrap w x + y) = wrap w (x + y).
Proof. unfold wrap. apply Zplus_mod_idemp_l. Qed.
Lemma wrap_add_r w x y : wrap w (x + wrap w y) = wrap w (x + y).
Proof. unfold wrap. apply Zplus_mod_idemp_r. Qed.

(** Adding one length to a field's statistics. *)
Lemma stats_of_snoc lens len :
  stats_of (lens ++ [len]) =
    let entry := default FieldStats_default (stats_of lens) in
    Some (mkFieldStats (wrap 64 (doc_count entry + 1)) (wrap 64 (total_doc_len entry + len))).
Proof.
  unfold stats_of. destruct (lens ++ [len]) eqn:E; [by destruct lens|]. rewrite <-E. clear E.
  rewrite sum_Z_app, length_app. simpl. destruct lens as [|x lens]; cbn [default from_option];
    cbn [doc_count total_doc_len FieldStats_default id]; rewrite ?wrap_add_l;
    do 2 f_equal; f_equal; simpl; lia.
Qed.

Lemma build_field_stats_spec l xpath : build_field_stats l !! xpath = stats_of (lengths_of xpath l).
Proof.
  unfold build_field_stats. induction l as [|e l IH] using rev_ind; [done|].
  rewrite fold_left_app. cbn [fold_left]. unfold count_length at 1. unfold lengths_of.
  rewrite filter_app, map_app, filter_cons, filter_nil. fold (lengths_of xpath l).
  destruct (decide (e.1.2 = xpath)) as [<-|Hne].
  - rewrite lookup_insert_eq, IH. cbn [map]. by rewrite stats_of_snoc.
  - rewrite lookup_insert_ne by done. cbn [map]. by rewrite app_nil_r, IH.
Qed.

Lemma lengths_of_perm xpath l l' : l ≡ₚ l' -> lengths_of xpath l ≡ₚ lengths_of xpath l'.
Proof. intros Hp. unfold lengths_of. by rewrite Hp. Qed.

Lemma build_field_stats_perm l l' : l ≡ₚ l' -> build_field_stats l = build_field_stats l'.
Proof.
  intros Hp. apply map_eq. intros x. rewrite !build_field_stats_spec.
  by apply stats_of_perm, lengths_of_perm.
Qed.

(** ** The document range *)

Definition range_of (ds : list DocId) : option (DocId * DocId) := fold_left widen ds None.

Lemma fold_widen_spec ds range :
  match fold_left widen ds range with
  | None => ds = [] /\ range = None
  | Some (lo, hi) =>
    (match range with Some (lo0, hi0) => lo <= lo0 /\ hi0 <= hi | None => True end) /\
    (forall d, d ∈ ds -> lo <= d <= hi) /\
    (lo ∈ ds \/ exists hi0, range = Some (lo, hi0)) /\ (hi ∈ ds \/ exists lo0, range = Some (lo0, hi))
  end.
Proof.
  revert range. induction ds as [|d ds IH]; intros range; simpl.
  { destruct range as [[lo hi]|]; [|done]. repeat split; try lia; try set_solver; right; eauto. }
  specialize (IH (widen range d)). destruct (fold_left widen ds (widen range d)) as [[lo hi]|];
    [|by destruct IH].
  destruct IH as (H1 & H2 & H3 & H4). unfold widen in H1, H3, H4.
  destruct range as [[lo0 hi0]|]; simpl in *.
  - split; [lia|]. split; [|split].
    + intros e [->|He]%elem_of_cons; [lia|by apply H2].
    + destruct H3 as [?|[? [= <- <-]]]; [left; by right|].
      destruct (Z.min_spec lo0 d) as [[_ ->]|[_ ->]]; [right; eauto|left; left].
    + destruct H4 as [?|[? [= <- <-]]]; [left; by right|].
      destruct (Z.max_spec hi0 d) as [[_ ->]|[_ ->]]; [left; left|right; eauto].
  - split; [done|]. split; [|split].
    + intros e [->|He]%elem_of_cons; [lia|by apply H2].
    + destruct H3 as [?|[? [= <- <-]]]; left; [by right|left].
    + destruct H4 as [?|[? [= <- <-]]]; left; [by right|left].
Qed.

(** All ids of the lengths and of the numeric points. *)
Definition segment_ids (doc_lengths : DocLens) (fields : gmap Z NumericField) : list DocId :=
  map (fun e => e.1.1) (btree_iter doc_lengths) ++
  concat (map (fun e => map snd (bkd_points (nf_bkd (e.2)))) (btree_iter fields)).

Lemma compute_doc_id_range_eq doc_lengths fields :
  compute_doc_id_range doc_lengths fields = range_of (segment_ids doc_lengths fields).
Proof.
  unfold compute_doc_id_range, range_of, segment_ids. rewrite fold_left_app.
  generalize (fold_left widen (map (fun e => e.1.1) (btree_iter doc_lengths)) None).
  induction (btree_iter fields) as [|e l IH]; intros r; simpl; [done|]. by rewrite fold_left_app, IH.
Qed.

(** ** The lookups *)

Lemma capped_union_perm l l' : NoDup l.*1 -> l ≡ₚ l' -> capped_union l = capped_union l'.
Proof. intros Hn Hp. unfold capped_union. by rewrite (sort_matches_unique l l'). Qed.

Lemma TermKey_cle_term p k :
  key_cle (TermKey_new p (tk_xpath k)) k = true <-> key_cle p (tk_term k) = true.
Proof.
  unfold key_cle. simpl. unfold TermKey_compare. simpl. by rewrite Z.compare_refl.
Qed.

Lemma TermKey_clt_same a b : tk_xpath a = tk_xpath b -> key_clt a b <-> key_clt (tk_term a) (tk_term b).
Proof.
  intros E. unfold key_clt. simpl. unfold TermKey_compare. by rewrite E, Z.compare_refl.
Qed.

Lemma TermKey_between a b k :
  tk_xpath a = tk_xpath b -> key_cle a k = true -> key_clt k b -> tk_xpath k = tk_xpath a.
Proof.
  unfold key_cle, key_clt. simpl. unfold TermKey_compare. intros E H1 H2. rewrite <-E in H2.
  destruct (Z.compare_spec (tk_xpath a) (tk_xpath k)), (Z.compare_spec (tk_xpath k) (tk_xpath a)); try done; lia.
Qed.

Section segment_lookup.
Context (m : gmap TermKey PostingList) (xpath : XPathId) (p : str).

(** The loops over [range(TermKey(prefix, xpath)..)] see exactly the terms of the field that
    start with the prefix. *)
Lemma prefix_range_spec (P : TermKey * PostingList -> bool) :
  (forall e, P e = (tk_xpath e.1 =? xpath) && starts_with p (tk_term e.1)) ->
  take_while P (btree_range_from (TermKey_new p xpath) m) =
  filter (fun e => tk_xpath e.1 = xpath /\ starts_with p (tk_term e.1) = true) (btree_iter m).
Proof.
  intros HP. rewrite take_while_filter.
  - unfold btree_range_from. rewrite list_filter_filter. apply filter_ext_in.
    intros e _. rewrite HP, andb_true_iff, Z.eqb_eq. split; [tauto|]. intros [<- Hs]. split; [done|].
    apply TermKey_cle_term. by apply starts_with_cle.
  - pose proof (filter_ascending_keys (fun e => key_cle (TermKey_new p xpath) e.1 = true) _
      (btree_iter_ascending m)) as Hs. fold (btree_range_from (TermKey_new p xpath) m) in Hs.
    assert (Hge : forall e, e ∈ btree_range_from (TermKey_new p xpath) m ->
      key_cle (TermKey_new p xpath) e.1 = true).
    { intros e He. by apply list_elem_of_filter in He as [? _]. }
    induction Hs as [|x l Hs IH Hx]; [constructor|]. constructor.
    { apply IH. intros e He. apply Hge. by right. }
    rewrite Forall_forall in Hx |- *. intros y Hy. specialize (Hx y Hy). rewrite !HP, !andb_true_iff, !Z.eqb_eq.
    intros [E Hsw]. assert (Hx1 : tk_xpath x.1 = xpath).
    { apply (TermKey_between (TermKey_new p xpath) y.1); [done|apply Hge; left|done]. }
    split; [done|]. apply (prefix_contiguous p (tk_term x.1) (tk_term y.1)); [| |done].
    + apply TermKey_cle_term. rewrite Hx1. apply Hge. left.
    + apply key_cle_lt. left. apply TermKey_clt_same; [congruence|done].
Qed.
End segment_lookup.

Lemma terms_matching_NoDup P xpath m : NoDup (terms_matching P xpath m).*1.
Proof.
  unfold terms_matching. pose proof (filter_ascending_keys
    (fun e => tk_xpath e.1 = xpath /\ P (tk_term e.1) = true) _ (btree_iter_ascending m)) as Hs.
  assert (Hx : forall e, e ∈ filter (fun e => tk_xpath e.1 = xpath /\ P (tk_term e.1) = true) (btree_iter m) ->
    tk_xpath e.1 = xpath) by (intros e He; by apply list_elem_of_filter in He as [[? _] _]).
  induction Hs as [|x l Hs IH Hl]; [constructor|]. simpl. constructor.
  - intros ([t pl] & E & He)%list_elem_of_fmap. apply list_elem_of_fmap in He as (y & Ey & Hy).
    rewrite Forall_forall in Hl. specialize (Hl y Hy). injection Ey as -> ->. simpl in E.
    rewrite TermKey_clt_same in Hl by (rewrite !Hx; [done|by right|left]).
    rewrite E in Hl. by apply key_clt_irrefl in Hl.
  - apply IH. intros e He. apply Hx. by right.
Qed.

Lemma wildcard_prefix_sound pat w : matches pat w = true -> starts_with (prefix pat) w = true.
Proof.
  rewrite matches_spec, starts_with_spec. destruct pat as [[|[s| | |set] toks]]; unfold prefix; simpl; eauto.
  rewrite tmatch_literal. naive_solver.
Qed.

Lemma wildcard_prefix_only pat w :
  is_prefix_only pat = true -> matches pat w = starts_with (prefix pat) w.
Proof.
  intros Hp. apply eq_true_iff_eq. split; [apply wildcard_prefix_sound|].
  rewrite matches_spec, starts_with_spec. unfold is_prefix_only, prefix in *.
  destruct pat as [[|[s| | |] [|[| | |] [|? ?]]]]; try done. intros (w' & ->). constructor.
  rewrite <-(app_nil_r w'). repeat constructor.
Qed.

Lemma terms_matching_ext P Q xpath m :
  (forall w, P w = Q w) -> terms_matching P xpath m = terms_matching Q xpath m.
Proof. intros H. unfold terms_matching. f_equal. apply filter_ext_in. intros e _. by rewrite H. Qed.

#[global, refine] Instance ImmutableSegment_search_ok : SearchIndexSpec ImmutableSegment :=
  {| si_content := seg_terms |}.
Proof.
  - done.
  - intros s p xpath. simpl. unfold seg_lookup_prefix, terms_matching. do 2 f_equal.
    apply prefix_range_spec. intros e. by rewrite negb_orb, !negb_involutive.
  - intros s pat xpath. simpl. unfold seg_lookup_wildcard. destruct (is_prefix_only pat) eqn:E.
    + unfold seg_lookup_prefix.
      rewrite (terms_matching_ext _ (starts_with (prefix pat))) by (intros; by apply wildcard_prefix_only).
      unfold terms_matching. do 2 f_equal. apply prefix_range_spec. intros e.
      by rewrite negb_orb, !negb_involutive.
    + unfold terms_matching. cbv zeta. rewrite (prefix_range_spec _ xpath (prefix pat)).
      * do 2 f_equal. rewrite list_filter_filter. apply filter_ext_in. intros e _.
        pose proof (wildcard_prefix_sound pat (tk_term e.1)). tauto.
      * intros e. destruct (prefix pat) as [|c pre]; simpl.
        -- by rewrite orb_false_r, negb_involutive, andb_true_r.
        -- by rewrite negb_orb, !negb_involutive.
  - intros s xpath. simpl. unfold seg_terms_of, terms_matching.
    rewrite (prefix_range_spec _ xpath []) by (intros e; by rewrite andb_true_r).
    apply reflexive_eq. by rewrite <-list_fmap_compose.
  - done.
Defined.

(** ** Main theorems *)

(** The range scans of a frozen segment's dictionary find exactly the terms of the field
    with the prefix or matching the pattern, in order, and return the capped union of their
    postings; exact lookups return the stored list. *)
Theorem segment_lookups_correct s xpath p pat term :
  seg_lookup_or_empty s term xpath
    = default PostingList_new (seg_terms s !! TermKey_new term xpath) /\
  seg_lookup_prefix s p xpath = capped_union (terms_matching (starts_with p) xpath (seg_terms s)) /\
  seg_lookup_wildcard s pat xpath = capped_union (terms_matching (matches pat) xpath (seg_terms s)) /\
  StronglySorted key_clt (seg_terms_of s xpath) /\
  (forall w, w ∈ seg_terms_of s xpath <-> is_Some (seg_terms s !! TermKey_new w xpath)).
Proof.
  split; [done|]. split; [exact (si_lookup_prefix_ok s p xpath)|].
  split; [exact (si_lookup_wildcard_ok s pat xpath)|]. unfold seg_terms_of.
  rewrite (prefix_range_spec _ xpath []) by (intros e; by rewrite andb_true_r). split.
  - pose proof (filter_ascending_keys (fun e => tk_xpath e.1 = xpath /\ starts_with [] (tk_term e.1) = true)
      _ (btree_iter_ascending (seg_terms s))) as Hs.
    assert (Hx : forall e, e ∈ filter (fun e => tk_xpath e.1 = xpath /\ starts_with [] (tk_term e.1) = true)
      (btree_iter (seg_terms s)) -> tk_xpath e.1 = xpath)
      by (intros e He; by apply list_elem_of_filter in He as [[? _] _]).
    induction Hs as [|x l Hs IH Hl]; [constructor|]. simpl. constructor.
    + apply IH. intros e He. apply Hx. by right.
    + rewrite Forall_forall in Hl. apply Forall_forall. intros w (y & -> & Hy)%list_elem_of_fmap.
      apply TermKey_clt_same; [|by apply Hl]. rewrite !Hx; [done|by right|left].
  - intros w. rewrite list_elem_of_fmap. setoid_rewrite list_elem_of_filter. split.
    + intros ([[x t] pl] & -> & (Hx & _) & He). simpl in *. subst.
      apply elem_of_btree_iter in He. by exists pl.
    + intros [pl Hpl]. exists (TermKey_new w xpath, pl). by rewrite elem_of_btree_iter.
Qed.

Lemma doc_id_range_spec doc_lengths fields :
  match compute_doc_id_range doc_lengths fields with
  | None => segment_ids doc_lengths fields = []
  | Some (lo, hi) =>
    lo ∈ segment_ids doc_lengths fields /\ hi ∈ segment_ids doc_lengths fields /\
    (forall d x, is_Some (doc_lengths !! (d, x)) -> lo <= d <= hi) /\
    (forall x f packed d, fields !! x = Some f -> (packed, d) ∈ bkd_points (nf_bkd f) -> lo <= d <= hi)
  end.
Proof.
  rewrite compute_doc_id_range_eq.
  pose proof (fold_widen_spec (segment_ids doc_lengths fields) None) as H. unfold range_of.
  destruct (fold_left widen _ None) as [[lo hi]|]; [|by destruct H].
  destruct H as (_ & Hin & Hlo & Hhi). split; [by destruct Hlo as [?|[? ?]]|].
  split; [by destruct Hhi as [?|[? ?]]|]. split.
  - intros d x [len Hl]. apply Hin. unfold segment_ids. apply elem_of_app. left.
    apply list_elem_of_fmap. exists ((d, x), len). by rewrite elem_of_btree_iter.
  - intros x f packed d Hf Hp. apply Hin. unfold segment_ids. apply elem_of_app. right.
    apply elem_of_concat. exists (map snd (bkd_points (nf_bkd f))). split.
    + apply list_elem_of_fmap. by exists (packed, d).
    + apply list_elem_of_fmap. exists (x, f). by rewrite elem_of_btree_iter.
Qed.

(** The document range of a segment is the least interval that holds every document with
    a text length or a numeric point, and it is absent only when there is none. *)
Theorem doc_id_range_correct doc_lengths fields :
  match compute_doc_id_range doc_lengths fields with
  | None => segment_ids doc_lengths fields = []
  | Some (lo, hi) =>
    lo ∈ segment_ids doc_lengths fields /\ hi ∈ segment_ids doc_lengths fields /\
    (forall d x, is_Some (doc_lengths !! (d, x)) -> lo <= d <= hi) /\
    (forall x f packed d, fields !! x = Some f -> (packed, d) ∈ bkd_points (nf_bkd f) -> lo <= d <= hi)
  end.
Proof. apply doc_id_range_spec. Qed.
