(* ===== verification/MemIndex.v ===== *)
(** * The memtable

    Models [crates/core-index/src/mem/index.rs] and the analyzed documents it consumes
    ([document/analyzed.rs]): inserting a document, merging a newer memtable, freezing one or
    several generations into a segment, and the lookups. *)
From Stdlib Require Import ZArith Lia.
From stdpp Require Import base numbers list gmap sorting sets.
From S2P Require Import Prelude Types Posting Numeric ArrayRows Wildcard Btree Segment.

(** ** Analyzed documents *)

Record AnalyzedTerm : Type := mkAnalyzedTerm {
  at_term : str; at_positions : list Position; at_weight : Z }.
Record AnalyzedField : Type := mkAnalyzedField {
  af_xpath : XPathId; af_doc_len : Z; af_terms : list AnalyzedTerm }.
Record NumericPoint : Type := mkNumericPoint { npt_xpath : XPathId; npt_value : NumericValue }.
Record BoolPoint : Type := mkBoolPoint { bpt_xpath : XPathId; bpt_value : bool }.
Record AnalyzedTarget : Type := mkTarget {
  at_fields : list AnalyzedField;
  at_numeric_points : list NumericPoint;
  at_bool_points : list BoolPoint }.
Record AnalyzedArrayRow : Type := mkRow {
  row_id : ArrayRowId; row_parent : option ArrayRowId; row_target : AnalyzedTarget }.
Record AnalyzedDocument : Type := mkDocument {
  ad_doc_id : DocId; ad_main : AnalyzedTarget; ad_array_rows : list AnalyzedArrayRow }.

(** ** State *)

Record MemIndex : Type := mkMem {
  mem_terms : gmap TermKey PostingList;
  mem_doc_lengths : gmap (Z * Z) Z;
  mem_field_stats : gmap Z FieldStats;
  mem_numeric_points : gmap Z (list (Z * NumericValue));
  mem_bool_fields : gmap Z BoolField;
  mem_estimated_bytes : Z;
  mem_min_doc_id : option DocId;
  mem_max_doc_id : option DocId;
  mem_array_row_index : ArrayRowIndex
}.

Definition MemIndex_new : MemIndex :=
  mkMem ∅ ∅ ∅ ∅ ∅ 0 None None (ArrayRowIndex_new 0).

(** [String::len]: the bytes of the UTF-8 encoding. *)
Definition utf8_width (c : Z) : Z :=
  if c <? 128 then 1 else if c <? 2048 then 2 else if c <? 65536 then 3 else 4.
Definition str_len (s : str) : Z := foldr (fun c n => utf8_width c + n) 0 s.

(** [size_of::<DocId>()], [size_of::<u16>()], [size_of::<u32>()] and, on a 64-bit target,
    [size_of::<TermKey>()] (a [String] and a [u32], padded). *)
Definition SIZE_DOC_ID : Z := 8.
Definition SIZE_U16 : Z := 2.
Definition SIZE_U32 : Z := 4.
Definition SIZE_TERM_KEY : Z := 32.

Definition track_doc_id (self : MemIndex) (d : DocId) : MemIndex :=
  mkMem (mem_terms self) (mem_doc_lengths self) (mem_field_stats self) (mem_numeric_points self)
    (mem_bool_fields self) (mem_estimated_bytes self)
    (Some match mem_min_doc_id self with Some m => Z.min m d | None => d end)
    (Some match mem_max_doc_id self with Some m => Z.max m d | None => d end)
    (mem_array_row_index self).

Definition mem_doc_id_range (self : MemIndex) : option (DocId * DocId) :=
  match mem_min_doc_id self, mem_max_doc_id self with
  | Some lo, Some hi => Some (lo, hi)
  | _, _ => None
  end.

Definition with_terms (self : MemIndex) (terms : gmap TermKey PostingList) (bytes : Z) : MemIndex :=
  mkMem terms (mem_doc_lengths self) (mem_field_stats self) (mem_numeric_points self)
    (mem_bool_fields self) bytes (mem_min_doc_id self) (mem_max_doc_id self) (mem_array_row_index self).

Definition add_posting_weighted (self : MemIndex) (term : str) (xpath : XPathId) (d : DocId)
    (ps : list Position) (w : Z) : MemIndex :=
  let bytes := wrap 64 (mem_estimated_bytes self +
                 (SIZE_DOC_ID + SIZE_U16 + Z.of_nat (length ps) * SIZE_U32)) in
  let key := TermKey_new term xpath in
  match mem_terms self !! key with
  | Some l => with_terms self (<[key := insert_posting l d ps w]> (mem_terms self)) bytes
  | None =>
    with_terms self (<[key := insert_posting PostingList_new d ps w]> (mem_terms self))
      (wrap 64 (bytes + (str_len term + SIZE_TERM_KEY)))
  end.

(** The first half of [apply_field]: the field's length and the statistics. *)
Definition apply_length (self : MemIndex) (d : DocId) (xpath : XPathId) (len : Z) : MemIndex :=
  let old := mem_doc_lengths self !! (d, xpath) in
  let stats := default FieldStats_default (mem_field_stats self !! xpath) in
  let stats' := match old with
    | Some old_len => mkFieldStats (doc_count stats) (wrap 64 (total_doc_len stats - old_len + len))
    | None => mkFieldStats (wrap 64 (doc_count stats + 1)) (wrap 64 (total_doc_len stats + len))
    end in
  mkMem (mem_terms self) (<[(d, xpath) := len]> (mem_doc_lengths self))
    (<[xpath := stats']> (mem_field_stats self)) (mem_numeric_points self)
    (mem_bool_fields self) (mem_estimated_bytes self) (mem_min_doc_id self) (mem_max_doc_id self)
    (mem_array_row_index self).

Definition apply_field (self : MemIndex) (d : DocId) (field : AnalyzedField) : MemIndex :=
  fold_left (fun m t => add_posting_weighted m (at_term t) (af_xpath field) d (at_positions t) (at_weight t))
    (af_terms field) (apply_length self d (af_xpath field) (af_doc_len field)).

Definition apply_numeric (self : MemIndex) (d : DocId) (p : NumericPoint) : MemIndex :=
  mkMem (mem_terms self) (mem_doc_lengths self) (mem_field_stats self)
    (np_insert (mem_numeric_points self) (npt_xpath p) (npt_value p) d)
    (mem_bool_fields self) (mem_estimated_bytes self) (mem_min_doc_id self) (mem_max_doc_id self)
    (mem_array_row_index self).

Definition apply_bool (self : MemIndex) (d : DocId) (p : BoolPoint) : MemIndex :=
  let slot := default BoolField_default (mem_bool_fields self !! bpt_xpath p) in
  let slot' := if bpt_value p then mkBoolField (true_ids slot ∪ {[d]}) (false_ids slot)
               else mkBoolField (true_ids slot) (false_ids slot ∪ {[d]}) in
  mkMem (mem_terms self) (mem_doc_lengths self) (mem_field_stats self) (mem_numeric_points self)
    (<[bpt_xpath p := slot']> (mem_bool_fields self)) (mem_estimated_bytes self)
    (mem_min_doc_id self) (mem_max_doc_id self) (mem_array_row_index self).

Definition apply_target (self : MemIndex) (target_id : DocId) (target : AnalyzedTarget) : MemIndex :=
  let m := fold_left (fun m f => apply_field m target_id f) (at_fields target) self in
  let m := fold_left (fun m p => apply_numeric m target_id p) (at_numeric_points target) m in
  fold_left (fun m p => apply_bool m target_id p) (at_bool_points target) m.

Definition with_rows (self : MemIndex) (rows : ArrayRowIndex) : MemIndex :=
  mkMem (mem_terms self) (mem_doc_lengths self) (mem_field_stats self) (mem_numeric_points self)
    (mem_bool_fields self) (mem_estimated_bytes self) (mem_min_doc_id self) (mem_max_doc_id self) rows.

Definition add_array_row (d : DocId) (self : MemIndex) (row : AnalyzedArrayRow) : MemIndex :=
  let m := with_rows self (push_row (mem_array_row_index self) (row_id row) d (row_parent row)) in
  apply_target m (row_id row) (row_target row).

Definition add_analyzed_document (self : MemIndex) (document : AnalyzedDocument) : MemIndex :=
  let m := track_doc_id self (ad_doc_id document) in
  let m := apply_target m (ad_doc_id document) (ad_main document) in
  fold_left (add_array_row (ad_doc_id document)) (ad_array_rows document) m.

(** ** Merging and freezing *)

(** A term of both is appended, a term of one kept. *)
Definition append_entry (old new : option PostingList) : option PostingList :=
  match new, old with
  | Some list, Some slot => Some (PostingList_append slot list)
  | Some list, None => Some list
  | None, _ => old
  end.
Definition merge_terms (self newer : gmap TermKey PostingList) : gmap TermKey PostingList :=
  merge append_entry self newer.

Definition merge_lengths (self newer : gmap (Z * Z) Z) : gmap (Z * Z) Z := newer ∪ self.

Definition merge_stats (self newer : gmap Z FieldStats) : gmap Z FieldStats :=
  merge (fun old new => match new with
                        | Some s => Some (FieldStats_add (default FieldStats_default old) s)
                        | None => old end) self newer.

Definition bool_union (a b : BoolField) : BoolField :=
  mkBoolField (true_ids a ∪ true_ids b) (false_ids a ∪ false_ids b).
(** [merge_from] moves a field in when the receiver has none. *)
Definition merge_bools (self newer : gmap Z BoolField) : gmap Z BoolField :=
  merge (fun old new => match new, old with
                        | Some f, Some slot => Some (bool_union slot f)
                        | Some f, None => Some f
                        | None, _ => old end) self newer.
(** [freeze_shared] starts from an empty field. *)
Definition merge_bools_default (self newer : gmap Z BoolField) : gmap Z BoolField :=
  merge (fun old new => match new with
                        | Some f => Some (bool_union (default BoolField_default old) f)
                        | None => old end) self newer.

(** The bytes of the keys both memtables hold. *)
Definition duplicate_key_bytes (self newer : gmap TermKey PostingList) : Z :=
  foldr (fun e n => (if bool_decide (is_Some (self !! e.1)) then str_len (tk_term e.1) + SIZE_TERM_KEY else 0) + n)
    0 (map_to_list newer).

Definition merge_from (self newer : MemIndex) : MemIndex :=
  let m := mkMem (merge_terms (mem_terms self) (mem_terms newer))
    (merge_lengths (mem_doc_lengths self) (mem_doc_lengths newer))
    (merge_stats (mem_field_stats self) (mem_field_stats newer))
    (np_merge (mem_numeric_points self) (mem_numeric_points newer))
    (merge_bools (mem_bool_fields self) (mem_bool_fields newer))
    (wrap 64 (mem_estimated_bytes self +
       saturating_sub (mem_estimated_bytes newer) (duplicate_key_bytes (mem_terms self) (mem_terms newer))))
    (mem_min_doc_id self) (mem_max_doc_id self)
    (rows_merge_from (mem_array_row_index self) (mem_array_row_index newer)) in
  match mem_doc_id_range newer with
  | Some (lo, hi) => track_doc_id (track_doc_id m lo) hi
  | None => m
  end.

Definition freeze (self : MemIndex) : ImmutableSegment :=
  ImmutableSegment_new (mem_terms self) (mem_doc_lengths self) (mem_field_stats self)
    (np_build (mem_numeric_points self)) (mem_bool_fields self) (mem_array_row_index self).

(** The locals of [freeze_shared]. *)
Record FreezeAcc : Type := mkAcc {
  acc_terms : gmap TermKey PostingList;
  acc_doc_lengths : gmap (Z * Z) Z;
  acc_field_stats : gmap Z FieldStats;
  acc_numeric_points : gmap Z (list (Z * NumericValue));
  acc_bool_fields : gmap Z BoolField;
  acc_array_row_index : ArrayRowIndex
}.

Definition freeze_generation (acc : FreezeAcc) (generation : MemIndex) : FreezeAcc :=
  mkAcc (merge_terms (acc_terms acc) (mem_terms generation))
    (merge_lengths (acc_doc_lengths acc) (mem_doc_lengths generation))
    (merge_stats (acc_field_stats acc) (mem_field_stats generation))
    (np_merge (acc_numeric_points acc) (mem_numeric_points generation))
    (merge_bools_default (acc_bool_fields acc) (mem_bool_fields generation))
    (rows_merge_from (acc_array_row_index acc) (mem_array_row_index generation)).

Definition freeze_shared (generations : list MemIndex) : ImmutableSegment :=
  let acc := fold_left freeze_generation generations (mkAcc ∅ ∅ ∅ ∅ ∅ (ArrayRowIndex_new 0)) in
  ImmutableSegment_new (acc_terms acc) (acc_doc_lengths acc) (acc_field_stats acc)
    (np_build (acc_numeric_points acc)) (acc_bool_fields acc) (acc_array_row_index acc).

(** ** Lookups *)

Definition mem_lookup (self : MemIndex) (term : str) (xpath : XPathId) : option PostingList :=
  mem_terms self !! TermKey_new term xpath.
Definition mem_lookup_or_empty (self : MemIndex) (term : str) (xpath : XPathId) : PostingList :=
  default PostingList_new (mem_lookup self term xpath).
Definition mem_doc_freq (self : MemIndex) (term : str) (xpath : XPathId) : Z :=
  match mem_lookup self term xpath with Some l => list_len_u32 l | None => 0 end.

(** The hash map's order is arbitrary: the entries are visited in the order of [map_to_list],
    and the theorems show the results do not depend on it. *)
Definition mem_terms_of (self : MemIndex) (xpath : XPathId) : list str :=
  map (fun e => tk_term e.1) (filter (fun e => tk_xpath e.1 = xpath) (map_to_list (mem_terms self))).
Definition mem_lookup_prefix (self : MemIndex) (prefix : str) (xpath : XPathId) : PostingList :=
  capped_union (map named
    (filter (fun e => tk_xpath e.1 = xpath /\ starts_with prefix (tk_term e.1) = true)
       (map_to_list (mem_terms self)))).
Definition mem_lookup_wildcard (self : MemIndex) (pattern : WildcardPattern) (xpath : XPathId) : PostingList :=
  if is_prefix_only pattern then mem_lookup_prefix self (prefix pattern) xpath
  else capped_union (map named
    (filter (fun e => tk_xpath e.1 = xpath /\ matches pattern (tk_term e.1) = true)
       (map_to_list (mem_terms self)))).

Definition mem_numeric_range (self : MemIndex) (xpath : XPathId) (lo hi : option NumericBound)
    : PostingList := docs_to_list (np_range (mem_numeric_points self) xpath lo hi).

#[global] Instance MemIndex_search : SearchIndex MemIndex := {|
  si_lookup := mem_lookup_or_empty;
  si_lookup_prefix := mem_lookup_prefix;
  si_lookup_wildcard := mem_lookup_wildcard;
  si_terms := mem_terms_of;
  si_doc_freq := mem_doc_freq
|}.

Lemma mem_matching_perm P xpath (m : gmap TermKey PostingList) :
  map named (filter (fun e => tk_xpath e.1 = xpath /\ P (tk_term e.1) = true) (map_to_list m))
  ≡ₚ terms_matching P xpath m.
Proof. unfold terms_matching. by rewrite btree_iter_perm. Qed.

Lemma mem_matching_union P xpath (m : gmap TermKey PostingList) :
  capped_union (map named
    (filter (fun e => tk_xpath e.1 = xpath /\ P (tk_term e.1) = true) (map_to_list m)))
  = capped_union (terms_matching P xpath m).
Proof.
  symmetry. apply capped_union_perm; [apply terms_matching_NoDup|]. symmetry. apply mem_matching_perm.
Qed.

#[global, refine] Instance MemIndex_search_ok : SearchIndexSpec MemIndex := {| si_content := mem_terms |}.
Proof.
  - done.
  - intros s p xpath. apply mem_matching_union.
  - intros s pat xpath. simpl. unfold mem_lookup_wildcard. destruct (is_prefix_only pat) eqn:E.
    + unfold mem_lookup_prefix.
      rewrite (terms_matching_ext _ (starts_with (prefix pat))) by (intros; by apply wildcard_prefix_only).
      apply mem_matching_union.
    + apply mem_matching_union.
  - intros s xpath. simpl. unfold mem_terms_of. rewrite <-mem_matching_perm.
    apply reflexive_eq. rewrite <-list_fmap_compose.
    rewrite (filter_ext_in _ (fun e => tk_xpath e.1 = xpath /\ true = true)); [done|tauto].
  - done.
Defined.

(** ** The statistics invariant *)

(** The statistics are what the lengths say: the assertion of [ImmutableSegment::new]. *)
Definition stats_inv (lengths : gmap (Z * Z) Z) (stats : gmap Z FieldStats) : Prop :=
  forall xpath, stats !! xpath = stats_of (lengths_of xpath (map_to_list lengths)).

Lemma lengths_of_cons xpath k len l :
  lengths_of xpath ((k, len) :: l) =
    if decide (k.2 = xpath) then len :: lengths_of xpath l else lengths_of xpath l.
Proof. unfold lengths_of. rewrite filter_cons. simpl. by case_decide. Qed.

Lemma lengths_of_app xpath l1 l2 : lengths_of xpath (l1 ++ l2) = lengths_of xpath l1 ++ lengths_of xpath l2.
Proof. unfold lengths_of. by rewrite filter_app, map_app. Qed.

Lemma stats_of_cons lens len :
  stats_of (len :: lens) =
    let entry := default FieldStats_default (stats_of lens) in
    Some (mkFieldStats (wrap 64 (doc_count entry + 1)) (wrap 64 (total_doc_len entry + len))).
Proof. rewrite <-stats_of_snoc. apply stats_of_perm. by rewrite (comm (++)). Qed.

Lemma stats_of_app l1 l2 :
  l2 <> [] ->
  stats_of (l1 ++ l2) =
    FieldStats_add (default FieldStats_default (stats_of l1)) <$> stats_of l2.
Proof.
  intros H2. unfold stats_of. destruct l2 as [|y l2]; [done|].
  destruct (l1 ++ y :: l2) eqn:E; [by destruct l1|]. rewrite <-E. clear E. rewrite sum_Z_app, length_app.
  cbn [fmap option_fmap option_map]. unfold FieldStats_add. cbn [doc_count total_doc_len].
  do 2 f_equal; destruct l1 as [|x l1]; cbn [default from_option doc_count total_doc_len FieldStats_default id];
    rewrite ?wrap_add_l, ?wrap_add_r; f_equal; lia.
Qed.

Lemma apply_length_inv m d xpath len :
  stats_inv (mem_doc_lengths m) (mem_field_stats m) ->
  stats_inv (mem_doc_lengths (apply_length m d xpath len)) (mem_field_stats (apply_length m d xpath len)).
Proof.
  intros H x. unfold apply_length. cbn [mem_doc_lengths mem_field_stats].
  set (k := (d, xpath)). set (D := delete k (mem_doc_lengths m)).
  assert (HD : D !! k = None) by apply lookup_delete_eq.
  assert (E2 : <[k := len]> (mem_doc_lengths m) = <[k := len]> D) by (by unfold D; rewrite insert_delete_eq).
  rewrite E2. clear E2.
  rewrite (stats_of_perm _ (lengths_of x ((k, len) :: map_to_list D)))
    by (apply lengths_of_perm; by apply map_to_list_insert).
  rewrite lengths_of_cons. cbn [k snd].
  assert (Hold : mem_field_stats m !! x = stats_of (lengths_of x
    (match mem_doc_lengths m !! k with Some old => [(k, old)] | None => [] end ++ map_to_list D))).
  { rewrite H. apply stats_of_perm, lengths_of_perm. destruct (mem_doc_lengths m !! k) as [old|] eqn:Eo.
    - simpl. rewrite <-map_to_list_insert by done. unfold D. by rewrite insert_delete_id.
    - simpl. unfold D. by rewrite delete_id. }
  case_decide as Hx.
  - subst x. rewrite lookup_insert_eq, Hold, stats_of_cons. cbv zeta. f_equal.
    destruct (mem_doc_lengths m !! k) as [old|]; cbn [app].
    + rewrite lengths_of_cons, decide_True by done. rewrite stats_of_cons.
      cbn [default from_option id doc_count total_doc_len]. f_equal.
      unfold wrap. rewrite Zplus_mod, Zminus_mod_idemp_l, <-Zplus_mod. f_equal. lia.
    + done.
  - rewrite lookup_insert_ne by done. rewrite Hold.
    destruct (mem_doc_lengths m !! k) as [old|]; cbn [app]; [|done].
    by rewrite lengths_of_cons, decide_False.
Qed.

Lemma map_to_list_disjoint_union (m1 m2 : gmap (Z * Z) Z) :
  m1 ##ₘ m2 -> map_to_list (m1 ∪ m2) ≡ₚ map_to_list m1 ++ map_to_list m2.
Proof.
  intros Hd. apply NoDup_Permutation.
  - apply NoDup_map_to_list.
  - apply NoDup_app. split; [apply NoDup_map_to_list|]. split; [|apply NoDup_map_to_list].
    intros [k v] H1 H2. rewrite elem_of_map_to_list in H1, H2. by eapply map_disjoint_spec.
  - intros [k v]. rewrite elem_of_app, !elem_of_map_to_list. by apply lookup_union_Some.
Qed.

Lemma merge_stats_inv l1 s1 l2 s2 :
  l1 ##ₘ l2 -> stats_inv l1 s1 -> stats_inv l2 s2 -> stats_inv (merge_lengths l1 l2) (merge_stats s1 s2).
Proof.
  intros Hd H1 H2 x. unfold merge_lengths, merge_stats.
  rewrite (stats_of_perm _ (lengths_of x (map_to_list l1 ++ map_to_list l2))).
  2: { apply lengths_of_perm. rewrite map_to_list_disjoint_union by done. by rewrite (comm (++)). }
  rewrite lengths_of_app, lookup_merge, H1, H2.
  destruct (lengths_of x (map_to_list l2)) as [|y l] eqn:E.
  - rewrite app_nil_r. by destruct (stats_of _).
  - rewrite <-E, stats_of_app by (by rewrite E). rewrite E. by destruct (stats_of (lengths_of x (map_to_list l1))).
Qed.

(** [f] leaves the lengths and the statistics alone. *)
Definition keeps_lengths {A} (f : MemIndex -> A -> MemIndex) : Prop :=
  forall m x, mem_doc_lengths (f m x) = mem_doc_lengths m /\ mem_field_stats (f m x) = mem_field_stats m.

Lemma fold_keeps_lengths {A} (f : MemIndex -> A -> MemIndex) l m :
  keeps_lengths f ->
  mem_doc_lengths (fold_left f l m) = mem_doc_lengths m /\
  mem_field_stats (fold_left f l m) = mem_field_stats m.
Proof.
  intros Hf. revert m. induction l as [|x l IH]; intros m; [done|]. simpl.
  destruct (IH (f m x)) as [-> ->]. apply Hf.
Qed.

Definition mem_stats_inv (m : MemIndex) : Prop := stats_inv (mem_doc_lengths m) (mem_field_stats m).

Lemma fold_inv {A B} (P : B -> Prop) (f : B -> A -> B) l b :
  (forall b x, P b -> P (f b x)) -> P b -> P (fold_left f l b).
Proof. revert b. induction l; simpl; auto. Qed.

Lemma add_posting_keeps d xpath :
  keeps_lengths (fun m t => add_posting_weighted m (at_term t) xpath d (at_positions t) (at_weight t)).
Proof. intros m t. unfold add_posting_weighted. by destruct (mem_terms m !! _). Qed.

Lemma apply_field_stats_inv m d f : mem_stats_inv m -> mem_stats_inv (apply_field m d f).
Proof.
  intros H. unfold mem_stats_inv, apply_field.
  edestruct (fold_keeps_lengths (fun m t => add_posting_weighted m (at_term t) (af_xpath f) d
    (at_positions t) (at_weight t))) as [-> ->]; [apply add_posting_keeps|]. by apply apply_length_inv.
Qed.

Lemma apply_target_stats_inv m id t : mem_stats_inv m -> mem_stats_inv (apply_target m id t).
Proof.
  intros H. unfold apply_target. apply fold_inv; [by intros ? ? ?|]. apply fold_inv; [by intros ? ? ?|].
  apply fold_inv; [|done]. intros. by apply apply_field_stats_inv.
Qed.

Lemma add_document_stats_inv m doc : mem_stats_inv m -> mem_stats_inv (add_analyzed_document m doc).
Proof.
  intros H. unfold add_analyzed_document. apply fold_inv.
  - intros b r Hb. unfold add_array_row. by apply apply_target_stats_inv.
  - by apply apply_target_stats_inv.
Qed.

Lemma merge_from_fields a b :
  mem_terms (merge_from a b) = merge_terms (mem_terms a) (mem_terms b) /\
  mem_doc_lengths (merge_from a b) = merge_lengths (mem_doc_lengths a) (mem_doc_lengths b) /\
  mem_field_stats (merge_from a b) = merge_stats (mem_field_stats a) (mem_field_stats b) /\
  mem_numeric_points (merge_from a b) = np_merge (mem_numeric_points a) (mem_numeric_points b) /\
  mem_bool_fields (merge_from a b) = merge_bools (mem_bool_fields a) (mem_bool_fields b) /\
  mem_array_row_index (merge_from a b)
    = rows_merge_from (mem_array_row_index a) (mem_array_row_index b).
Proof. unfold merge_from. by destruct (mem_doc_id_range b) as [[lo hi]|]. Qed.

Lemma stats_inv_build lengths stats :
  stats_inv lengths stats -> stats = build_field_stats (btree_iter lengths).
Proof.
  intros H. apply map_eq. intros x. rewrite build_field_stats_spec, H.
  apply stats_of_perm, lengths_of_perm. by rewrite btree_iter_perm.
Qed.

(** ** Postings of a document *)

(** Document (or row) [d] is in the list of key [k]. *)
Definition has (m : MemIndex) (d : DocId) (k : TermKey) : Prop :=
  d ∈ docs (items (default PostingList_new (mem_terms m !! k))).
Definition mem_wf (m : MemIndex) : Prop := forall k l, mem_terms m !! k = Some l -> wf_list l.

(** What a field, a target and a document index: the target's id under each term of each field
    that has a position. *)
Definition field_indexes (id : DocId) (f : AnalyzedField) (d : DocId) (k : TermKey) : Prop :=
  d = id /\ exists t, t ∈ af_terms f /\ at_positions t <> [] /\ k = TermKey_new (at_term t) (af_xpath f).
Definition target_indexes (id : DocId) (t : AnalyzedTarget) (d : DocId) (k : TermKey) : Prop :=
  exists f, f ∈ at_fields t /\ field_indexes id f d k.
Definition document_indexes (doc : AnalyzedDocument) (d : DocId) (k : TermKey) : Prop :=
  target_indexes (ad_doc_id doc) (ad_main doc) d k \/
  exists r, r ∈ ad_array_rows doc /\ target_indexes (row_id r) (row_target r) d k.

(** [f m x] keeps the lists well-formed and adds what [Q x] says. *)
Definition adds {A} (f : MemIndex -> A -> MemIndex) (Q : A -> DocId -> TermKey -> Prop) : Prop :=
  forall m x, mem_wf m -> mem_wf (f m x) /\ forall d k, has (f m x) d k <-> has m d k \/ Q x d k.

Lemma fold_adds {A} (f : MemIndex -> A -> MemIndex) Q l m :
  adds f Q -> mem_wf m ->
  mem_wf (fold_left f l m) /\
  forall d k, has (fold_left f l m) d k <-> has m d k \/ exists x, x ∈ l /\ Q x d k.
Proof.
  intros Hf. revert m. induction l as [|x l IH]; intros m Hm; simpl.
  - split; [done|]. intros d k. set_solver.
  - destruct (Hf m x Hm) as [Hw Hh]. destruct (IH _ Hw) as [Hw' Hh']. split; [done|].
    intros d k. rewrite Hh', Hh. setoid_rewrite elem_of_cons. naive_solver.
Qed.

Lemma insert_posting_docs pl d ps w d' :
  wf_list pl ->
  wf_list (insert_posting pl d ps w) /\
  (d' ∈ docs (items (insert_posting pl d ps w)) <-> d' ∈ docs (items pl) \/ (ps <> [] /\ d' = d)).
Proof.
  intros Hw. destruct ps as [|p ps]; [split; [done|simpl; tauto]|].
  destruct (insert_posting_spec pl d (p :: ps) w Hw) as (Hw' & _ & Hne & (q & Hq & _)); [done|].
  split; [done|]. rewrite !elem_of_docs. destruct (Z.eq_dec d' d) as [->|Hd].
  - rewrite Hq. split; [intros _; by right|by eauto].
  - rewrite Hne by done. naive_solver.
Qed.

Lemma add_posting_adds xpath d :
  adds (fun m t => add_posting_weighted m (at_term t) xpath d (at_positions t) (at_weight t))
    (fun t d' k => at_positions t <> [] /\ d' = d /\ k = TermKey_new (at_term t) xpath).
Proof.
  intros m t Hm. set (key := TermKey_new (at_term t) xpath).
  set (l := default PostingList_new (mem_terms m !! key)).
  assert (Hl : wf_list l).
  { unfold l. destruct (mem_terms m !! key) eqn:E; simpl; [by eapply Hm|]. split; constructor. }
  assert (E : mem_terms (add_posting_weighted m (at_term t) xpath d (at_positions t) (at_weight t))
    = <[key := insert_posting l d (at_positions t) (at_weight t)]> (mem_terms m)).
  { unfold add_posting_weighted, l. fold key. by destruct (mem_terms m !! key). }
  split.
  - intros k l' Hk. rewrite E in Hk. apply lookup_insert_Some in Hk as [[<- <-]|[_ Hk]]; [|by eapply Hm].
    by apply (insert_posting_docs l d (at_positions t) (at_weight t) 0).
  - intros d' k. unfold has. rewrite E. destruct (decide (k = key)) as [->|Hne].
    + rewrite lookup_insert_eq. cbn [default from_option id]. fold l.
      destruct (insert_posting_docs l d (at_positions t) (at_weight t) d' Hl) as [_ ->]. tauto.
    + rewrite lookup_insert_ne by done. naive_solver.
Qed.

Lemma adds_ext {A} (f : MemIndex -> A -> MemIndex) Q Q' :
  (forall x d k, Q x d k <-> Q' x d k) -> adds f Q -> adds f Q'.
Proof.
  intros HQ Hf m x Hm. destruct (Hf m x Hm) as [Hw Hh]. split; [done|]. intros d k. by rewrite Hh, HQ.
Qed.

Lemma apply_field_adds id : adds (fun m f => apply_field m id f) (fun f => field_indexes id f).
Proof.
  intros m f Hm. unfold apply_field.
  destruct (fold_adds _ _ (af_terms f) (apply_length m id (af_xpath f) (af_doc_len f))
    (add_posting_adds (af_xpath f) id)) as [Hw Hh]; [done|]. split; [done|].
  intros d k. rewrite Hh. unfold field_indexes. naive_solver.
Qed.

(** A step that leaves the dictionary alone. *)
Lemma keeps_terms_adds {A} (f : MemIndex -> A -> MemIndex) :
  (forall m x, mem_terms (f m x) = mem_terms m) -> adds f (fun _ _ _ => False).
Proof. intros Hf m x Hm. unfold mem_wf, has. rewrite Hf. split; [done|]. tauto. Qed.

Lemma apply_target_spec m id t :
  mem_wf m -> mem_wf (apply_target m id t) /\
  forall d k, has (apply_target m id t) d k <-> has m d k \/ target_indexes id t d k.
Proof.
  intros Hm. unfold apply_target.
  destruct (fold_adds _ _ (at_fields t) m (apply_field_adds id) Hm) as [H1 E1].
  assert (Hn : adds (fun m p => apply_numeric m id p) (fun _ _ _ => False)) by (by apply keeps_terms_adds).
  assert (Hb : adds (fun m p => apply_bool m id p) (fun _ _ _ => False)) by (by apply keeps_terms_adds).
  destruct (fold_adds _ _ (at_numeric_points t) _ Hn H1) as [H2 E2].
  destruct (fold_adds _ _ (at_bool_points t) _ Hb H2) as [H3 E3].
  split; [done|]. intros d k. rewrite E3, E2, E1. unfold target_indexes. naive_solver.
Qed.

Lemma add_document_spec m doc :
  mem_wf m -> mem_wf (add_analyzed_document m doc) /\
  forall d k, has (add_analyzed_document m doc) d k <-> has m d k \/ document_indexes doc d k.
Proof.
  intros Hm. unfold add_analyzed_document.
  destruct (apply_target_spec (track_doc_id m (ad_doc_id doc)) (ad_doc_id doc) (ad_main doc)) as [H1 E1]; [done|].
  assert (Hrow : adds (add_array_row (ad_doc_id doc)) (fun r => target_indexes (row_id r) (row_target r))).
  { intros m' r Hm'. unfold add_array_row.
    by destruct (apply_target_spec (with_rows m' (push_row (mem_array_row_index m') (row_id r)
      (ad_doc_id doc) (row_parent r))) (row_id r) (row_target r)) as [? ?]. }
  destruct (fold_adds _ _ (ad_array_rows doc) _ Hrow H1) as [H2 E2]. split; [done|].
  intros d k. rewrite E2, E1. unfold document_indexes. tauto.
Qed.

Lemma merge_has a b :
  mem_wf a -> mem_wf b -> mem_wf (merge_from a b) /\
  forall d k, has (merge_from a b) d k <-> has a d k \/ has b d k.
Proof.
  intros Ha Hb. destruct (merge_from_fields a b) as (E & _). unfold mem_wf, has. rewrite E.
  unfold merge_terms. split.
  - intros k l. rewrite lookup_merge. unfold append_entry.
    destruct (mem_terms a !! k) as [la|] eqn:Ea, (mem_terms b !! k) as [lb|] eqn:Eb; simpl; intros [= <-].
    + apply append_spec; eauto.
    + by eapply Ha.
    + by eapply Hb.
  - intros d k. rewrite lookup_merge. unfold append_entry.
    destruct (mem_terms a !! k) as [la|] eqn:Ea, (mem_terms b !! k) as [lb|] eqn:Eb; simpl;
      try (rewrite elem_of_nil; tauto).
    rewrite !elem_of_docs. destruct (append_spec la lb) as [_ ->]; [by eapply Ha|by eapply Hb|].
    destruct (posting_of d (items la)), (posting_of d (items lb)); simpl; unfold is_Some; naive_solver.
Qed.

(** ** Main theorems *)

(** Two indexes with the same content answer every text lookup alike, whatever they are. *)
Lemma same_content_search {S1 S2} `{SearchIndexSpec S1} `{SearchIndexSpec S2} (s1 : S1) (s2 : S2) :
  si_content s1 = si_content s2 ->
  (forall t x, si_lookup s1 t x = si_lookup s2 t x) /\
  (forall p x, si_lookup_prefix s1 p x = si_lookup_prefix s2 p x) /\
  (forall pat x, si_lookup_wildcard s1 pat x = si_lookup_wildcard s2 pat x) /\
  (forall x, si_terms s1 x ≡ₚ si_terms s2 x) /\
  (forall t x, si_doc_freq s1 t x = si_doc_freq s2 t x) /\
  (forall t x, lookup_term s1 t x = lookup_term s2 t x).
Proof.
  intros E. repeat split; intros; unfold lookup_term;
    rewrite ?si_lookup_ok, ?si_lookup_prefix_ok, ?si_lookup_wildcard_ok, ?si_terms_ok, ?si_doc_freq_ok;
    by rewrite E.
Qed.

(** Inserting documents, and merging memtables that share no field of a document, keep the
    statistics equal to what the stored lengths say, also when a field of a document is written
    twice; so freezing meets the assertion of [ImmutableSegment::new]. *)
Theorem mem_stats_correct m newer doc :
  mem_stats_inv m -> mem_stats_inv newer -> mem_doc_lengths m ##ₘ mem_doc_lengths newer ->
  mem_stats_inv (add_analyzed_document m doc) /\
  mem_stats_inv (merge_from m newer) /\
  seg_field_stats (freeze m) = build_field_stats (btree_iter (seg_doc_lengths (freeze m))) /\
  forall d x, stats_doc_count (mem_field_stats m) x
    = wrap 64 (Z.of_nat (length (lengths_of x (map_to_list (mem_doc_lengths m))))) /\
    (seg_doc_len (freeze m) d x = mem_doc_lengths m !! (d, x)).
Proof.
  intros Hm Hn Hd. split; [by apply add_document_stats_inv|]. split.
  { unfold mem_stats_inv. destruct (merge_from_fields m newer) as (_ & -> & -> & _).
    by apply merge_stats_inv. }
  split; [by apply stats_inv_build|]. intros d x. split; [|done].
  unfold stats_doc_count. rewrite Hm. unfold stats_of. by destruct (lengths_of x _).
Qed.

Lemma mem_stats_correct_witness :
  mem_stats_inv (add_analyzed_document MemIndex_new
    (mkDocument 7 (mkTarget [mkAnalyzedField 1 3 [mkAnalyzedTerm [104; 105] [16] 5]] [] []) [])).
Proof.
  apply (mem_stats_correct MemIndex_new MemIndex_new).
  - intros x. cbn [mem_doc_lengths mem_field_stats MemIndex_new]. by rewrite lookup_empty, map_to_list_empty.
  - intros x. cbn [mem_doc_lengths mem_field_stats MemIndex_new]. by rewrite lookup_empty, map_to_list_empty.
  - apply map_disjoint_empty_l.
Defined.

(** After a document is inserted, its terms (of its body and of its array rows) lead to it
    and nothing else changed; after a merge, a term leads to the documents of both memtables;
    every posting list stays well-formed. *)
Theorem mem_documents_correct m newer doc :
  mem_wf m -> mem_wf newer ->
  mem_wf (add_analyzed_document m doc) /\ mem_wf (merge_from m newer) /\
  (forall d t x, d ∈ docs (items (mem_lookup_or_empty (add_analyzed_document m doc) t x)) <->
     d ∈ docs (items (mem_lookup_or_empty m t x)) \/ document_indexes doc d (TermKey_new t x)) /\
  (forall d t x, d ∈ docs (items (mem_lookup_or_empty (merge_from m newer) t x)) <->
     d ∈ docs (items (mem_lookup_or_empty m t x)) \/ d ∈ docs (items (mem_lookup_or_empty newer t x))).
Proof.
  intros Hm Hn. destruct (add_document_spec m doc Hm) as [H1 H2].
  destruct (merge_has m newer Hm Hn) as [H3 H4]. split; [done|]. split; [done|].
  split; intros d t x; [apply H2|apply H4].
Qed.

Lemma mem_documents_correct_witness :
  7 ∈ docs (items (mem_lookup_or_empty (add_analyzed_document MemIndex_new
    (mkDocument 7 (mkTarget [mkAnalyzedField 1 3 [mkAnalyzedTerm [104; 105] [16] 5]] [] []) []))
    [104; 105] 1)).
Proof.
  destruct (mem_documents_correct MemIndex_new MemIndex_new
    (mkDocument 7 (mkTarget [mkAnalyzedField 1 3 [mkAnalyzedTerm [104; 105] [16] 5]] [] []) []))
    as (_ & _ & H & _).
  - intros k l H. cbn [mem_terms MemIndex_new] in H. by rewrite lookup_empty in H.
  - intros k l H. cbn [mem_terms MemIndex_new] in H. by rewrite lookup_empty in H.
  - apply H. right. left. eexists. split; [left|]. split; [done|]. eexists. by split; [left|].
Defined.



(** The accumulators of [freeze_shared] are the fields of the merged memtable. *)
Definition acc_of (m : MemIndex) : FreezeAcc :=
  mkAcc (mem_terms m) (mem_doc_lengths m) (mem_field_stats m) (mem_numeric_points m)
    (mem_bool_fields m) (mem_array_row_index m).

Lemma bool_union_default f : bool_union BoolField_default f = f.
Proof.
  destruct f as [t f]. unfold bool_union, BoolField_default. simpl. by rewrite !(left_id_L ∅ _).
Qed.

Lemma merge_bools_default_eq a b : merge_bools_default a b = merge_bools a b.
Proof.
  apply map_eq. intros x. unfold merge_bools_default, merge_bools. rewrite !lookup_merge.
  destruct (a !! x), (b !! x); simpl; try done. by rewrite bool_union_default.
Qed.

Lemma freeze_generation_merge m g : freeze_generation (acc_of m) g = acc_of (merge_from m g).
Proof.
  unfold freeze_generation, acc_of. destruct (merge_from_fields m g) as (-> & -> & -> & -> & -> & ->).
  simpl. by rewrite merge_bools_default_eq.
Qed.

Lemma freeze_shared_spec generations :
  freeze_shared generations = freeze (fold_left merge_from generations MemIndex_new).
Proof.
  unfold freeze_shared. change (mkAcc ∅ ∅ ∅ ∅ ∅ (ArrayRowIndex_new 0)) with (acc_of MemIndex_new).
  assert (E : forall m, fold_left freeze_generation generations (acc_of m)
    = acc_of (fold_left merge_from generations m)).
  { induction generations as [|g gs IH]; intros m; [done|]. simpl.
    by rewrite freeze_generation_merge, IH. }
  by rewrite E.
Qed.

(** Freezing several shared generations in place gives the segment that merging them one
    after another into an empty memtable and freezing it would give. *)
Theorem freeze_shared_refines generations :
  freeze_shared generations = freeze (fold_left merge_from generations MemIndex_new).
Proof. apply freeze_shared_spec. Qed.
