(* ===== verification/DocLengths.v ===== *)
(** * Field lengths of an opened segment

    Models [DocLengths] and [FieldLengths] of [crates/core-index/src/disk/reader.rs]: the
    lengths of a field are a dense array over the segment's document ids when at least a quarter
    of the span has the field, and a map otherwise. *)
From Stdlib Require Import ZArith Lia.
From stdpp Require Import base numbers list gmap sorting sets.
From S2P Require Import Prelude Types Btree.

Inductive FieldLengths : Type :=
  | Dense (first : DocId) (lens : list Z)
  | Sparse (lens : gmap Z Z).

(** [DocLengths::fields]. *)
Abbreviation DocLengths := (list (Z * FieldLengths)) (only parsing).

(** The length that marks a document without the field: [u32::MAX]. *)
Definition NO_LENGTH : Z := u_max 32.

Definition list_min (l : list Z) : Z := match l with [] => 0 | x :: l' => fold_left Z.min l' x end.
Definition list_max (l : list Z) : Z := match l with [] => 0 | x :: l' => fold_left Z.max l' x end.

(** The lengths of one field. *)
Definition field_lengths (docs : list (DocId * Z)) : FieldLengths :=
  let first := list_min docs.*1 in
  let last := list_max docs.*1 in
  let span := saturating_add 64 (saturating_sub last first) 1 in
  if span <=? saturating_mul 64 (Z.of_nat (length docs)) 4 then
    let lens := replicate (Z.to_nat span) NO_LENGTH in
    Dense first (fold_left (fun lens e => <[Z.to_nat (e.1 - first) := e.2]> lens) docs lens)
  else Sparse (fold_left (fun m e => <[e.1 := e.2]> m) docs ∅).

(** One step of grouping the entries by field. *)
Definition group_entry (by_field : gmap Z (list (DocId * Z))) (e : DocId * XPathId * Z)
    : gmap Z (list (DocId * Z)) :=
  let '(doc, xpath, len) := e in
  <[xpath := default [] (by_field !! xpath) ++ [(doc, len)]]> by_field.

Definition from_entries (entries : list (DocId * XPathId * Z)) : DocLengths :=
  let by_field := fold_left group_entry entries ∅ in
  (fun e => (e.1, field_lengths e.2)) <$> btree_iter by_field.

(** The lookup in one field. *)
Definition field_len (f : FieldLengths) (d : DocId) : option Z :=
  match f with
  | Dense first lens =>
    match checked_sub d first with
    | None => None
    | Some index =>
      match lens !! Z.to_nat index with
      | Some len => if negb (len =? NO_LENGTH) then Some len else None
      | None => None
      end
    end
  | Sparse m => m !! d
  end.

Definition dl_get (self : DocLengths) (d : DocId) (xpath : XPathId) : option Z :=
  match head (filter (fun f => f.1 = xpath) self) with
  | None => None
  | Some (_, lengths) => field_len lengths d
  end.

(** The entries of one field, in document order. *)
Definition field_iter (xpath : XPathId) (f : FieldLengths) : list ((DocId * XPathId) * Z) :=
  match f with
  | Dense first lens =>
    (fun e => ((first + Z.of_nat e.1, xpath), e.2)) <$>
      filter (fun e => e.2 <> NO_LENGTH) (imap (fun i len => (i, len)) lens)
  | Sparse m => (fun e => ((e.1, xpath), e.2)) <$> btree_iter m
  end.

Definition dl_iter (self : DocLengths) : list ((DocId * XPathId) * Z) :=
  concat ((fun f => field_iter f.1 f.2) <$> self).

(** ** One field *)

Lemma fold_min_spec x l : fold_left Z.min l x <= x /\ (forall y, y ∈ l -> fold_left Z.min l x <= y).
Proof.
  revert x. induction l as [|z l IH]; intros x; simpl; [split; [lia|set_solver]|].
  destruct (IH (Z.min x z)) as [H1 H2]. split; [lia|]. intros y [->|Hy]%elem_of_cons; [lia|by apply H2].
Qed.
Lemma fold_max_spec x l : x <= fold_left Z.max l x /\ (forall y, y ∈ l -> y <= fold_left Z.max l x).
Proof.
  revert x. induction l as [|z l IH]; intros x; simpl; [split; [lia|set_solver]|].
  destruct (IH (Z.max x z)) as [H1 H2]. split; [lia|]. intros y [->|Hy]%elem_of_cons; [lia|by apply H2].
Qed.
Lemma list_min_le l y : y ∈ l -> list_min l <= y.
Proof.
  destruct l as [|x l]; [set_solver|]. simpl. destruct (fold_min_spec x l) as [? Hl].
  intros [->|?]%elem_of_cons; auto.
Qed.
Lemma list_max_ge l y : y ∈ l -> y <= list_max l.
Proof.
  destruct l as [|x l]; [set_solver|]. simpl. destruct (fold_max_spec x l) as [? Hl].
  intros [->|?]%elem_of_cons; auto.
Qed.

Lemma list_max_in l : l <> [] -> list_max l ∈ l.
Proof.
  destruct l as [|x l]; [done|]. intros _. simpl. revert x.
  induction l as [|y l IH]; intros x; simpl; [left|]. specialize (IH (Z.max x y)).
  apply elem_of_cons in IH as [->|?]; [|set_solver].
  destruct (Z.max_spec x y) as [[_ ->]|[_ ->]]; set_solver.
Qed.

Lemma list_min_in l : l <> [] -> list_min l ∈ l.
Proof.
  destruct l as [|x l]; [done|]. intros _. simpl. revert x.
  induction l as [|y l IH]; intros x; simpl; [left|]. specialize (IH (Z.min x y)).
  apply elem_of_cons in IH as [->|?]; [|set_solver].
  destruct (Z.min_spec x y) as [[_ ->]|[_ ->]]; set_solver.
Qed.

(** Well-formed entries of a field: ids in 64 bits (below the last one), real lengths. *)
Definition entry_ok (e : DocId * Z) : Prop := 0 <= e.1 < 2 ^ 64 - 1 /\ 0 <= e.2 < NO_LENGTH.

Lemma fold_dense first (docs : list (DocId * Z)) (lens : list Z) (d : DocId) :
  (forall e, e ∈ docs -> (Z.to_nat (e.1 - first)%Z < length lens)%nat) ->
  (forall e, e ∈ docs -> first <= e.1) ->
  first <= d -> NoDup docs.*1 ->
  fold_left (fun lens e => <[Z.to_nat (e.1 - first) := e.2]> lens) docs lens !! Z.to_nat (d - first) =
    match head (filter (fun e => e.1 = d) docs) with
    | Some e => Some e.2
    | None => lens !! Z.to_nat (d - first)
    end.
Proof.
  revert lens. induction docs as [|e docs IH]; intros lens Hin Hge Hd Hn; [done|]. simpl.
  apply NoDup_cons in Hn as [He Hn]. rewrite IH; [|..|done|done].
  - rewrite filter_cons. case_decide as Hed.
    + subst d. rewrite filter_none; [|intros e' He' E; apply He; rewrite <-E; by apply list_elem_of_fmap_2].
      simpl. apply list_lookup_insert_eq. apply Hin. left.
    + destruct (head _); [done|]. apply list_lookup_insert_ne.
      specialize (Hge e ltac:(left)). lia.
  - intros e' He'. rewrite length_insert. apply Hin. by right.
  - intros e' He'. apply Hge. by right.
Qed.

Lemma fold_sparse (docs : list (DocId * Z)) (m : gmap Z Z) d :
  NoDup docs.*1 ->
  fold_left (fun m e => <[e.1 := e.2]> m) docs m !! d =
    match head (filter (fun e => e.1 = d) docs) with Some e => Some e.2 | None => m !! d end.
Proof.
  revert m. induction docs as [|e docs IH]; intros m Hn; [done|]. simpl.
  apply NoDup_cons in Hn as [He Hn]. rewrite IH by done. rewrite filter_cons. case_decide as Hed.
  - subst d. rewrite filter_none; [|intros e' He' E; apply He; rewrite <-E; by apply list_elem_of_fmap_2].
    by rewrite lookup_insert_eq.
  - destruct (head _); [done|]. by rewrite lookup_insert_ne.
Qed.

(** Looking a document up gives its entry, in both representations. *)
Lemma field_len_spec docs d :
  Forall entry_ok docs -> NoDup docs.*1 ->
  field_len (field_lengths docs) d = snd <$> head (filter (fun e => e.1 = d) docs).
Proof.
  intros Hok Hn. unfold field_lengths. cbv zeta. set (first := list_min docs.*1). set (lst := list_max docs.*1).
  assert (Hb : forall e, e ∈ docs -> first <= e.1 <= lst /\ entry_ok e).
  { intros e He. rewrite Forall_forall in Hok. split; [|by apply Hok].
    split; [apply list_min_le|apply list_max_ge]; by apply list_elem_of_fmap_2. }
  destruct (Z.leb_spec (saturating_add 64 (saturating_sub lst first) 1)
    (saturating_mul 64 (Z.of_nat (length docs)) 4)) as [Hd|Hd]; cbn [field_len].
  - set (span := saturating_add 64 (saturating_sub lst first) 1) in *. unfold checked_sub.
    destruct (Z.leb_spec first d) as [Hfd|Hfd].
    + rewrite (fold_dense first docs); [|..|done|done].
      * destruct (head (filter (fun e => e.1 = d) docs)) as [e|] eqn:E; simpl.
        -- apply head_Some_elem_of, list_elem_of_filter in E as [_ He].
           destruct (Hb e He) as [_ [_ He2]]. destruct (Z.eqb_spec (e.2) NO_LENGTH); [lia|done].
        -- destruct (replicate _ _ !! _) as [x|] eqn:Er; [|done].
           apply lookup_replicate in Er as [-> _]. by rewrite Z.eqb_refl.
      * intros e He. destruct (Hb e He) as [H1 [H2 H3]]. rewrite length_replicate.
        assert (Hne : docs.*1 <> []) by (destruct docs; [by apply elem_of_nil in He|done]).
        assert (0 <= first /\ lst < 2 ^ 64 - 1) as [].
        { destruct (list_elem_of_fmap_1 fst docs lst) as (e1 & E1 & He1); [by apply list_max_in|].
          destruct (list_elem_of_fmap_1 fst docs first) as (e2 & E2 & He2); [by apply list_min_in|].
          destruct (Hb e1 He1) as [_ [? _]]. destruct (Hb e2 He2) as [_ [? _]]. lia. }
        unfold span, saturating_add, saturating_sub, u_max. lia.
      * intros e He. apply Hb in He. lia.
    + rewrite filter_none; [done|]. intros e He E. apply Hb in He. lia.
  - rewrite fold_sparse by done. rewrite lookup_empty. by destruct (head _).
Qed.

Lemma imap_pair_NoDup {A} (l : list A) : NoDup (imap (fun i x => (i, x)) l).
Proof.
  apply (NoDup_fmap_1 fst).
  assert (E : (imap (fun i x => (i, x)) l).*1 = seq 0 (length l)).
  { apply list_eq. intros i. rewrite list_lookup_fmap, list_lookup_imap. destruct (l !! i) eqn:E; simpl.
    - symmetry. apply lookup_seq. split; [done|]. by eapply lookup_lt_Some.
    - symmetry. apply lookup_seq_ge. by apply lookup_ge_None. }
  rewrite E. apply NoDup_seq.
Qed.

Lemma elem_of_field_iter xpath f d x len :
  ((d, x), len) ∈ field_iter xpath f <-> x = xpath /\ field_len f d = Some len.
Proof.
  destruct f as [first lens|m]; simpl.
  - rewrite list_elem_of_fmap. setoid_rewrite list_elem_of_filter.
    setoid_rewrite elem_of_lookup_imap. unfold checked_sub. split.
    + intros ([i l] & E & Hne & (j & y & E2 & Hj)). simpl in *. injection E as -> -> ->. injection E2 as -> ->.
      split; [done|]. destruct (Z.leb_spec first (first + Z.of_nat j)); [|lia].
      replace (Z.to_nat (first + Z.of_nat j - first)) with j by lia. rewrite Hj.
      by destruct (Z.eqb_spec y NO_LENGTH).
    + intros [-> H]. destruct (Z.leb_spec first d); [|done].
      destruct (lens !! Z.to_nat (d - first)) as [y|] eqn:E; [|done].
      destruct (Z.eqb_spec y NO_LENGTH); [done|]. injection H as <-.
      exists (Z.to_nat (d - first), y). split; [simpl; do 2 f_equal; lia|]. split; [done|]. eauto.
  - rewrite list_elem_of_fmap. split.
    + intros ([d' l] & E & He). simpl in E. injection E as -> -> ->. by rewrite elem_of_btree_iter in He.
    + intros [-> H]. exists (d, len). by rewrite elem_of_btree_iter.
Qed.

Lemma field_iter_NoDup xpath f : NoDup (field_iter xpath f).
Proof.
  destruct f as [first lens|m]; simpl; apply NoDup_fmap_2_strong.
  - intros [i l] [j l'] _ _ E. simpl in E. injection E as E1 E2. f_equal; [lia|done].
  - apply NoDup_filter, imap_pair_NoDup.
  - intros [d l] [d' l'] _ _ E. simpl in E. by injection E as -> ->.
  - apply (NoDup_fmap_1 fst), ascending_NoDup, btree_iter_ascending.
Qed.

Lemma head_filter_elem (docs : list (DocId * Z)) d len :
  NoDup docs.*1 -> snd <$> head (filter (fun e => e.1 = d) docs) = Some len <-> (d, len) ∈ docs.
Proof.
  induction docs as [|e docs IH]; intros Hn; [split; [done|set_solver]|].
  apply NoDup_cons in Hn as [He Hn]. rewrite filter_cons, elem_of_cons. case_decide as Hd; simpl.
  - subst d. split.
    + intros [= <-]. left. by destruct e.
    + intros [<-|Hin]; [done|]. destruct He. by apply (list_elem_of_fmap_2 fst _ (e.1, len)).
  - rewrite IH by done. split; [by right|]. intros [<-|?]; done.
Qed.

Lemma field_iter_perm xpath docs :
  Forall entry_ok docs -> NoDup docs.*1 ->
  field_iter xpath (field_lengths docs) ≡ₚ (fun e => ((e.1, xpath), e.2)) <$> docs.
Proof.
  intros Hok Hn. apply NoDup_Permutation; [apply field_iter_NoDup| |].
  - apply NoDup_fmap_2_strong; [|by apply (NoDup_fmap_1 fst)].
    intros [d l] [d' l'] _ _ E. simpl in E. by injection E as -> ->.
  - intros [[d x] len]. rewrite elem_of_field_iter, field_len_spec, head_filter_elem by done.
    rewrite list_elem_of_fmap. split.
    + intros [-> Hin]. by exists (d, len).
    + intros ([d' l'] & E & Hin). simpl in E. by injection E as -> -> ->.
Qed.

(** ** All fields *)

(** The entries of field [xpath], in order. *)
Definition entries_of (xpath : XPathId) (entries : list (DocId * XPathId * Z)) : list (DocId * Z) :=
  (fun e => (e.1.1, e.2)) <$> filter (fun e => e.1.2 = xpath) entries.

Lemma group_entries_spec entries (m : gmap Z (list (DocId * Z))) xpath :
  fold_left group_entry entries m !! xpath =
    match entries_of xpath entries with
    | [] => m !! xpath
    | l => Some (default [] (m !! xpath) ++ l)
    end.
Proof.
  revert m. induction entries as [|[[d x] len] entries IH]; intros m; [done|]. cbn [fold_left].
  rewrite IH. unfold entries_of at 2. rewrite filter_cons. cbn [fst snd group_entry].
  case_decide as Hx.
  - subst x. rewrite fmap_cons. fold (entries_of xpath entries). rewrite lookup_insert_eq.
    cbn [default from_option id]. destruct (entries_of xpath entries); [done|]. by rewrite <-app_assoc.
  - fold (entries_of xpath entries). by rewrite lookup_insert_ne.
Qed.

Definition lengths_ok (entries : list (DocId * XPathId * Z)) : Prop :=
  NoDup entries.*1 /\ Forall (fun e => entry_ok (e.1.1, e.2)) entries.

Lemma entries_of_ok xpath entries :
  lengths_ok entries -> Forall entry_ok (entries_of xpath entries) /\ NoDup (entries_of xpath entries).*1.
Proof.
  intros [Hn Hok]. unfold entries_of. split.
  - apply Forall_fmap. apply Forall_forall. intros e [_ He]%list_elem_of_filter.
    rewrite Forall_forall in Hok. by apply Hok.
  - clear Hok. induction entries as [|e entries IH]; [constructor|]. apply NoDup_cons in Hn as [He Hn].
    rewrite filter_cons. case_decide as Hx; [|by apply IH]. rewrite !fmap_cons. constructor; [|by apply IH].
    intros (y & E & Hy)%list_elem_of_fmap. apply list_elem_of_fmap in Hy as (z & -> & Hz).
    apply list_elem_of_filter in Hz as [Hzx Hz]. apply He. simpl in E.
    replace (e.1) with (z.1); [by apply list_elem_of_fmap_2|].
    destruct e as [[? ?] ?], z as [[? ?] ?]; simpl in *. congruence.
Qed.

Lemma elem_of_entries_of xpath entries d len :
  (d, len) ∈ entries_of xpath entries <-> (d, xpath, len) ∈ entries.
Proof.
  unfold entries_of. rewrite list_elem_of_fmap. split.
  - intros ([[d' x'] l'] & E & [Hx Hin]%list_elem_of_filter). simpl in *. injection E as -> ->. by subst.
  - intros Hin. exists (d, xpath, len). by rewrite list_elem_of_filter.
Qed.

Lemma from_entries_field entries xpath :
  head (filter (fun f => f.1 = xpath) (from_entries entries)) =
    match entries_of xpath entries with
    | [] => None
    | l => Some (xpath, field_lengths l)
    end.
Proof.
  unfold from_entries. set (m := fold_left group_entry entries ∅).
  assert (Hm : m !! xpath = match entries_of xpath entries with [] => None | l => Some l end).
  { unfold m. rewrite group_entries_spec, lookup_empty. by destruct (entries_of xpath entries). }
  assert (Hl : forall (l : list (Z * list (DocId * Z))), NoDup l.*1 ->
    head (filter (fun f => f.1 = xpath) ((fun e => (e.1, field_lengths e.2)) <$> l)) =
    (fun docs => (xpath, field_lengths docs)) <$> (snd <$> head (filter (fun e => e.1 = xpath) l))).
  { induction l as [|[x docs] l IH]; intros Hn; [done|]. apply NoDup_cons in Hn as [_ Hn].
    rewrite fmap_cons, !filter_cons. simpl. case_decide; [by subst|by apply IH]. }
  rewrite Hl by apply ascending_NoDup, btree_iter_ascending.
  assert (Hg : snd <$> head (filter (fun e => e.1 = xpath) (btree_iter m)) = m !! xpath).
  { destruct (head (filter (fun e => e.1 = xpath) (btree_iter m))) as [[x docs]|] eqn:E.
    - apply head_Some_elem_of, list_elem_of_filter in E as [Ex He]. simpl in *. subst.
      symmetry. by apply elem_of_btree_iter.
    - symmetry. apply eq_None_not_Some. intros [docs Hd]. apply elem_of_btree_iter in Hd.
      apply head_None in E. by apply (filter_nil_not_elem_of (fun e => e.1 = xpath) _ (xpath, docs)) in Hd. }
  rewrite Hg, Hm. by destruct (entries_of xpath entries).
Qed.

(** Looking up gives the recorded length, and nothing else. *)
Lemma dl_get_spec entries d xpath len :
  lengths_ok entries ->
  dl_get (from_entries entries) d xpath = Some len <-> (d, xpath, len) ∈ entries.
Proof.
  intros Hok. destruct (entries_of_ok xpath entries Hok) as [H1 H2]. unfold dl_get.
  rewrite from_entries_field, <-elem_of_entries_of.
  destruct (entries_of xpath entries) as [|e l] eqn:E; [split; [done|set_solver]|].
  rewrite <-E in *. by rewrite field_len_spec, head_filter_elem.
Qed.

(** Iterating visits every recorded length once. *)
Lemma dl_iter_perm entries :
  lengths_ok entries -> dl_iter (from_entries entries) ≡ₚ entries.
Proof.
  intros Hok. unfold dl_iter, from_entries. set (m := fold_left group_entry entries ∅).
  rewrite <-list_fmap_compose. apply NoDup_Permutation; [| |].
  - assert (Hn : NoDup (btree_iter m).*1) by apply ascending_NoDup, btree_iter_ascending.
    induction (btree_iter m) as [|[x docs] l IH]; [constructor|]. rewrite fmap_cons. simpl.
    apply NoDup_cons in Hn as [Hx Hn]. apply NoDup_app. split; [apply field_iter_NoDup|].
    split; [|by apply IH]. intros [[d x'] len] H1 H2. apply elem_of_field_iter in H1 as [-> _].
    apply elem_of_concat in H2 as (l2 & H2 & Hl2). apply list_elem_of_fmap in Hl2 as ([x2 docs2] & -> & Hin).
    simpl in H2. apply elem_of_field_iter in H2 as [-> _]. apply Hx.
    by apply (list_elem_of_fmap_2 fst _ (x2, docs2)).
  - apply (NoDup_fmap_1 fst). apply Hok.
  - intros [[d x] len]. rewrite <-(dl_get_spec entries d x len Hok). unfold dl_get.
    rewrite from_entries_field, elem_of_concat.
    assert (Hm : m !! x = match entries_of x entries with [] => None | l => Some l end).
    { unfold m. rewrite group_entries_spec, lookup_empty. by destruct (entries_of x entries). }
    split.
    + intros (l2 & H2 & Hl2). apply list_elem_of_fmap in Hl2 as ([x2 docs2] & -> & Hin).
      simpl in H2. apply elem_of_field_iter in H2 as [-> Hlen]. rewrite elem_of_btree_iter, Hm in Hin.
      destruct (entries_of x2 entries) eqn:E; [done|]. by injection Hin as <-.
    + intros H. destruct (entries_of x entries) as [|e l] eqn:E; [done|].
      exists (field_iter x (field_lengths (e :: l))). split; [by apply elem_of_field_iter|].
      apply list_elem_of_fmap. exists (x, e :: l). split; [done|]. by rewrite elem_of_btree_iter.
Qed.

(** ** Main theorem *)

(** Whichever representation a field gets, the lengths of an opened segment are those
    that were recorded: a lookup returns a length exactly when it was recorded, and iteration
    visits each recorded length once. *)
Theorem doc_lengths_correct entries :
  lengths_ok entries ->
  (forall d xpath len, dl_get (from_entries entries) d xpath = Some len <-> (d, xpath, len) ∈ entries) /\
  dl_iter (from_entries entries) ≡ₚ entries.
Proof. intros Hok. split; [intros; by apply dl_get_spec|by apply dl_iter_perm]. Qed.

Lemma doc_lengths_correct_witness :
  dl_get (from_entries [(5, 1, 30); (6, 1, 8); (9, 1, 2); (5, 2, 4); (900, 2, 7)]) 9 1 = Some 2.
Proof.
  apply (doc_lengths_correct [(5, 1, 30); (6, 1, 8); (9, 1, 2); (5, 2, 4); (900, 2, 7)]); [|set_solver].
  split; [by apply (bool_decide_unpack _)|]. repeat constructor; vm_compute; congruence.
Defined.
