(* ===== verification/SegmentFile.v ===== *)
(** * Segment files

    Models [crates/core-index/src/disk/format.rs], [disk/writer.rs] and [disk/reader.rs]: the
    layout of a segment file, the writer (header, postings, field lengths, dictionary, numeric
    fields, array rows, boolean fields, footer), the validation and parsing of a file, and the
    lookups of an opened segment.

    A file is the list of its bytes; writing appends, so the position of [PositionWriter] is the
    number of bytes written. Failures of the operating system are not modelled. The [fst] crate
    is the parameter of [TermDict]; [RoaringLib] is the crate [roaring]. *)
From Stdlib Require Import ZArith Lia.
From stdpp Require Import base numbers list gmap sorting sets strings.
From S2P Require Import Prelude Types Posting Codec Numeric ArrayRows Wildcard Btree Segment TermDict DocLengths.
Local Open Scope io_scope.
Local Open Scope Z_scope.

(** The crate [roaring]: a bitmap serializes to bytes that deserialize to it. *)
Class RoaringLib := {
  roaring_serialize : gset Z -> list Z;
  roaring_deserialize : list Z -> io_result (gset Z)
}.
Class RoaringLaws `{RoaringLib} := {
  roaring_roundtrip : forall s, roaring_deserialize (roaring_serialize s) = Ok s
}.

(** ** Format *)

(** ["BANANA_4"]. *)
Definition MAGIC : list Z := [66; 65; 78; 65; 78; 65; 95; 52].
Definition VERSION : Z := 12.
Definition HEADER_LEN : Z := 8 + 4.
Definition FOOTER_LEN : Z := 8 + 8 + 8 + 8 + 8 + 8 + 4 + 8 + 8 + 8 + 8 + 8 + 8.

Record SegmentHeader : Type := mkHeader { magic : list Z; version : Z }.
Definition SegmentHeader_current : SegmentHeader := mkHeader MAGIC VERSION.

Record SegmentFooter : Type := mkFooter {
  doc_lengths_offset : Z; doc_lengths_len : Z;
  dictionary_offset : Z; dictionary_len : Z;
  numeric_fields_offset : Z; numeric_fields_len : Z;
  array_row_index_offset : Z; array_row_index_len : Z;
  term_count : Z; min_doc_id : Z; max_doc_id : Z;
  bool_fields_offset : Z; bool_fields_len : Z
}.

(** ** Writer *)

Definition stream_position (out : list Z) : Z := wrap 64 (zlen out).
Definition write_u8 (out : list Z) (value : Z) : list Z := out ++ [value].
Definition write_u16 (out : list Z) (value : Z) : list Z := out ++ to_le_bytes 2 value.
Definition write_u32 (out : list Z) (value : Z) : list Z := out ++ to_le_bytes 4 value.
Definition write_u64 (out : list Z) (value : Z) : list Z := out ++ to_le_bytes 8 value.

Definition write_header (out : list Z) : list Z :=
  let header := SegmentHeader_current in
  write_u32 (out ++ magic header) (version header).

Definition write_footer (out : list Z) (footer : SegmentFooter) : list Z :=
  let out := write_u64 out (doc_lengths_offset footer) in
  let out := write_u64 out (doc_lengths_len footer) in
  let out := write_u64 out (dictionary_offset footer) in
  let out := write_u64 out (dictionary_len footer) in
  let out := write_u64 out (numeric_fields_offset footer) in
  let out := write_u64 out (numeric_fields_len footer) in
  let out := write_u32 out (term_count footer) in
  let out := write_u64 out (min_doc_id footer) in
  let out := write_u64 out (max_doc_id footer) in
  let out := write_u64 out (array_row_index_offset footer) in
  let out := write_u64 out (array_row_index_len footer) in
  let out := write_u64 out (bool_fields_offset footer) in
  write_u64 out (bool_fields_len footer).

Definition write_doc_lengths (out : list Z) (doc_lengths : gmap (Z * Z) Z) : list Z :=
  let out := write_u32 out (wrap 32 (Z.of_nat (size doc_lengths))) in
  fold_left (fun out e => write_u32 (write_u32 (write_u64 out e.1.1) e.1.2) e.2)
    (btree_iter doc_lengths) out.

Definition write_array_row_index (out : list Z) (idx : ArrayRowIndex) : list Z :=
  let out := write_u64 out (ar_base idx) in
  let out := write_u32 out (wrap 32 (Z.of_nat (rows_len idx))) in
  fold_left (fun out e => write_u64 (write_u64 out e.1) e.2)
    (zip (row_to_doc idx) (parent_rows idx)) out.

Definition write_pairs (out : list Z) (l : list (Z * Z)) : list Z :=
  fold_left (fun out e => write_u64 (write_u64 out e.1) e.2) l out.

Definition write_numeric_field (out : list Z) (e : XPathId * NumericField) : list Z :=
  let field := e.2 in
  let out := write_u32 out e.1 in
  let out := write_u8 out (kind_to_byte (bkd_kind (nf_bkd field))) in
  let out := write_u32 out (wrap 32 (zlen (bkd_points (nf_bkd field)))) in
  let out := write_pairs out (bkd_points (nf_bkd field)) in
  let out := write_u32 out (wrap 32 (zlen (dv_entries (nf_doc_values field)))) in
  write_pairs out (dv_entries (nf_doc_values field)).

Definition write_numeric_fields (out : list Z) (fields : gmap Z NumericField) : list Z :=
  let out := write_u32 out (wrap 32 (Z.of_nat (size fields))) in
  fold_left write_numeric_field (btree_iter fields) out.

Section file.
Context `{FstLib} `{RoaringLib}.

Definition write_bool_field (out : list Z) (e : XPathId * BoolField) : list Z :=
  let out := write_u32 out e.1 in
  let buf := roaring_serialize (true_ids e.2) in
  let out := write_u64 out (zlen buf) ++ buf in
  let buf := roaring_serialize (false_ids e.2) in
  write_u64 out (zlen buf) ++ buf.

Definition write_bool_fields (out : list Z) (fields : gmap Z BoolField) : list Z :=
  let out := write_u32 out (wrap 32 (Z.of_nat (size fields))) in
  fold_left write_bool_field (btree_iter fields) out.

Definition write_meta (out : list Z) (meta : TermMeta) : list Z :=
  write_u16 (write_u32 (write_u32 (write_u64 out (postings_offset meta)) (postings_len meta))
    (tm_doc_freq meta)) (tm_max_weight meta).

Definition write_dict_field (out : list Z) (e : XPathId * TermDict) : list Z :=
  let dict := e.2 in
  let out := write_u32 out e.1 in
  let out := write_u32 out (wrap 32 (zlen (td_metas dict))) in
  let fst := dict_fst_bytes dict in
  let out := write_u64 out (zlen fst) ++ fst in
  fold_left write_meta (td_metas dict) out.

Definition write_dictionary (out : list Z) (fields : list (XPathId * TermDict)) : list Z :=
  let out := write_u32 out (wrap 32 (zlen fields)) in
  fold_left write_dict_field fields out.

(** Streams postings while grouping the terms into one dictionary per field. *)
Record FieldWriter : Type := mkFieldWriter {
  fw_fields : list (XPathId * TermDict);
  fw_current : option XPathId;
  fw_entries : list (str * TermMeta);
  fw_term_count : Z
}.
Definition FieldWriter_new : FieldWriter := mkFieldWriter [] None [] 0.

Definition close_field (w : FieldWriter) : io_result FieldWriter :=
  match fw_current w with
  | Some xpath =>
    let! dict := TermDict_build (fw_entries w) in
    Ok (mkFieldWriter (fw_fields w ++ [(xpath, dict)]) None [] (fw_term_count w))
  | None => Ok w
  end.

Definition fw_push (w : FieldWriter) (out : list Z) (xpath : XPathId) (term : str) (postings : PostingList)
    : io_result (FieldWriter * list Z) :=
  let! w :=
    if negb (bool_decide (fw_current w = Some xpath)) then
      let! w := close_field w in
      Ok (mkFieldWriter (fw_fields w) (Some xpath) (fw_entries w) (fw_term_count w))
    else Ok w in
  let offset := stream_position out in
  let buf := encode_posting_list [] postings in
  let meta := mkTermMeta offset (wrap 32 (zlen buf)) (list_len_u32 postings) (max_weight postings) in
  Ok (mkFieldWriter (fw_fields w) (fw_current w) (fw_entries w ++ [(term, meta)])
        (wrap 32 (fw_term_count w + 1)), out ++ buf).

Definition fw_finish (w : FieldWriter) : io_result (list (XPathId * TermDict) * Z) :=
  let! w := close_field w in Ok (fw_fields w, fw_term_count w).

(** The loop over the terms. *)
Fixpoint fw_push_all (w : FieldWriter) (out : list Z) (terms : list (TermKey * PostingList))
    : io_result (FieldWriter * list Z) :=
  match terms with
  | [] => Ok (w, out)
  | (key, postings) :: terms' =>
    let! (w, out) := fw_push w out (tk_xpath key) (tk_term key) postings in
    fw_push_all w out terms'
  end.

(** The common text of [write_segment_to] and [write_merged_segment_to]. *)
Definition write_sections (out : list Z) (terms : list (TermKey * PostingList))
    (doc_lengths : gmap (Z * Z) Z) (numeric_fields : gmap Z NumericField)
    (doc_id_range : option (DocId * DocId)) (rows : ArrayRowIndex) (bool_fields : gmap Z BoolField)
    : io_result (list Z) :=
  let out := write_header out in
  let! (writer, out) := fw_push_all FieldWriter_new out terms in
  let! (fields, count) := fw_finish writer in
  let dl_offset := stream_position out in
  let out := write_doc_lengths out doc_lengths in
  let dl_end := stream_position out in
  let di_offset := stream_position out in
  let out := write_dictionary out fields in
  let di_end := stream_position out in
  let nf_offset := stream_position out in
  let out := write_numeric_fields out numeric_fields in
  let nf_end := stream_position out in
  let range := default (0, 0) doc_id_range in
  let ar_offset := stream_position out in
  let out := write_array_row_index out rows in
  let ar_end := stream_position out in
  let bf_offset := stream_position out in
  let out := write_bool_fields out bool_fields in
  let bf_end := stream_position out in
  Ok (write_footer out (mkFooter dl_offset (dl_end - dl_offset) di_offset (di_end - di_offset)
        nf_offset (nf_end - nf_offset) ar_offset (ar_end - ar_offset)
        count range.1 range.2 bf_offset (bf_end - bf_offset))).

Definition write_segment_to (out : list Z) (segment : ImmutableSegment) : io_result (list Z) :=
  write_sections out (btree_iter (seg_terms segment)) (seg_doc_lengths segment)
    (seg_numeric_fields segment) (seg_doc_id_range segment) (seg_array_row_index segment)
    (seg_bool_fields segment).

Definition write_merged_segment_to (out : list Z) (terms : list (TermKey * PostingList))
    (doc_lengths : gmap (Z * Z) Z) (numeric_fields : gmap Z NumericField) (rows : ArrayRowIndex)
    (bool_fields : gmap Z BoolField) : io_result (list Z) :=
  write_sections out terms doc_lengths numeric_fields
    (compute_doc_id_range doc_lengths numeric_fields) rows bool_fields.

(** ** The byte cursor of the reader *)

Record Cursor : Type := mkCur { cur_bytes : list Z; cur_offset : Z }.
Definition Cursor_new (bytes : list Z) : Cursor := mkCur bytes 0.

(** A read moves the cursor. *)
Definition rd (A : Type) : Type := Cursor -> io_result (A * Cursor).
Definition rd_ret {A} (a : A) : rd A := fun c => Ok (a, c).
Definition rd_bind {A B} (m : rd A) (f : A -> rd B) : rd B :=
  fun c => let! (a, c) := m c in f a c.
Definition rd_err {A} (e : io_error) : rd A := fun _ => Err e.
Definition rd_lift {A} (r : io_result A) : rd A := fun c => let! a := r in Ok (a, c).

Definition unexpected_eof : io_error := IoError UnexpectedEof "unexpected eof".
Definition invalid (msg : string) : io_error := IoError InvalidData msg.

(** The addition wraps in a release build; a slice whose start is past its end panics. *)
Definition cur_take (len : Z) : rd (list Z) := fun c =>
  let stop := wrap 64 (cur_offset c + len) in
  if zlen (cur_bytes c) <? stop then Err unexpected_eof
  else if stop <? cur_offset c then Err (IoError Panicked "slice index starts past its end")
  else Ok (slice (Z.to_nat (cur_offset c)) (Z.to_nat (stop - cur_offset c)) (cur_bytes c),
           mkCur (cur_bytes c) stop).

Definition cur_u (n : nat) : rd Z := rd_bind (cur_take (Z.of_nat n)) (fun b => rd_ret (from_le_bytes b)).
Definition cur_u8 : rd Z := cur_u 1.
Definition cur_u16 : rd Z := cur_u 2.
Definition cur_u32 : rd Z := cur_u 4.
Definition cur_u64 : rd Z := cur_u 8.
Definition cur_remaining : rd Z := fun c => Ok (saturating_sub (zlen (cur_bytes c)) (cur_offset c), c).

(** [for _ in 0..n { v.push(..) }]. *)
Fixpoint rd_many {A} (n : nat) (m : rd A) : rd (list A) :=
  match n with
  | O => rd_ret []
  | S n' => rd_bind m (fun a => rd_bind (rd_many n' m) (fun l => rd_ret (a :: l)))
  end.

Definition read_u32_at (bytes : list Z) (offset : Z) : Z := from_le_bytes (slice (Z.to_nat offset) 4 bytes).
Definition read_u64_at (bytes : list Z) (offset : Z) : Z := from_le_bytes (slice (Z.to_nat offset) 8 bytes).

(** ** Validation *)

Definition validate_header (bytes : list Z) : io_result unit :=
  if zlen bytes <? 12 + FOOTER_LEN then Err (invalid "segment too small")
  else if negb (bool_decide (slice 0 8 bytes = MAGIC)) then Err (invalid "bad segment magic")
  else if negb (read_u32_at bytes 8 =? VERSION) then Err (invalid "unsupported segment version")
  else Ok tt.

Definition read_footer (bytes : list Z) : SegmentFooter :=
  let start := zlen bytes - FOOTER_LEN in
  mkFooter (read_u64_at bytes start) (read_u64_at bytes (start + 8))
    (read_u64_at bytes (start + 16)) (read_u64_at bytes (start + 24))
    (read_u64_at bytes (start + 32)) (read_u64_at bytes (start + 40))
    (read_u64_at bytes (start + 68)) (read_u64_at bytes (start + 76))
    (read_u32_at bytes (start + 48)) (read_u64_at bytes (start + 52)) (read_u64_at bytes (start + 60))
    (read_u64_at bytes (start + 84)) (read_u64_at bytes (start + 92)).

Definition validate_footer (bytes : list Z) (footer : SegmentFooter) : io_result unit :=
  let! dictionary_end := io_of_option (invalid "dictionary offset overflow")
    (checked_add 64 (dictionary_offset footer) (dictionary_len footer)) in
  if dictionary_offset footer <? HEADER_LEN then Err (invalid "dictionary starts before segment body")
  else if zlen bytes - FOOTER_LEN <? dictionary_end then Err (invalid "dictionary outside segment bounds")
  else
  let! numeric_end := io_of_option (invalid "numeric fields offset overflow")
    (checked_add 64 (numeric_fields_offset footer) (numeric_fields_len footer)) in
  if numeric_fields_offset footer <? HEADER_LEN then Err (invalid "numeric fields start before segment body")
  else if zlen bytes - FOOTER_LEN <? numeric_end then Err (invalid "numeric fields outside segment bounds")
  else
  let! bool_end := io_of_option (invalid "bool fields offset overflow")
    (checked_add 64 (bool_fields_offset footer) (bool_fields_len footer)) in
  if zlen bytes - FOOTER_LEN <? bool_end then Err (invalid "bool fields outside segment bounds")
  else
  let! array_end := io_of_option (invalid "array row index offset overflow")
    (checked_add 64 (array_row_index_offset footer) (array_row_index_len footer)) in
  if zlen bytes - FOOTER_LEN <? array_end then Err (invalid "array row index outside segment bounds")
  else if (term_count footer =? 0) && negb (dictionary_len footer =? 4)
  then Err (invalid "empty dictionary has invalid length")
  else Ok tt.

(** ** Sections *)

(** [&bytes[start..end]] after the checks [start + len] does not overflow and ends at or before
    [limit]. *)
Definition section (bytes : list Z) (start len limit : Z) (overflow outside : string) : io_result (list Z) :=
  let! stop := io_of_option (invalid overflow) (checked_add 64 start len) in
  if limit <? stop then Err (invalid outside)
  else Ok (slice (Z.to_nat start) (Z.to_nat len) bytes).

(** Runs a reader over a section; the rest of the section is ignored. *)
Definition rd_run {A} (m : rd A) (bytes : list Z) : io_result A :=
  let! (a, _) := m (Cursor_new bytes) in Ok a.

Definition rd_length : rd (DocId * XPathId * Z) :=
  rd_bind cur_u64 (fun doc => rd_bind cur_u32 (fun xpath => rd_bind cur_u32 (fun len =>
  rd_ret (doc, xpath, len)))).

Definition rd_doc_lengths : rd (list (DocId * XPathId * Z)) :=
  rd_bind cur_u32 (fun count => rd_many (Z.to_nat count) rd_length).

Definition read_doc_lengths (bytes : list Z) (footer : SegmentFooter) : io_result (list (Z * FieldLengths)) :=
  let! s := section bytes (doc_lengths_offset footer) (doc_lengths_len footer) (zlen bytes - FOOTER_LEN)
    "doc lengths offset overflow" "doc lengths outside segment bounds" in
  let! entries := rd_run rd_doc_lengths s in
  Ok (from_entries entries).

Definition rd_pair : rd (Z * Z) := rd_bind cur_u64 (fun a => rd_bind cur_u64 (fun b => rd_ret (a, b))).

(** The rows are pushed one by one: [base + i], with the parent marker read back as [None]. *)
Definition push_rows (base : Z) (rows : list (Z * Z)) : ArrayRowIndex :=
  (fold_left (fun st e =>
     (push_row st.1 (wrap 64 (base + Z.of_nat st.2)) e.1
        (if negb (e.2 =? NO_PARENT_ROW) then Some e.2 else None), S st.2))
   rows (ArrayRowIndex_new base, 0%nat)).1.

Definition rd_array_rows : rd ArrayRowIndex :=
  rd_bind cur_u64 (fun base => rd_bind cur_u32 (fun count =>
  rd_bind (rd_many (Z.to_nat count) rd_pair) (fun rows => rd_ret (push_rows base rows)))).

(** This section is checked against the whole file, not the part before the footer. *)
Definition read_array_row_index (bytes : list Z) (footer : SegmentFooter) : io_result ArrayRowIndex :=
  let! s := section bytes (array_row_index_offset footer) (array_row_index_len footer) (zlen bytes)
    "array row index offset overflow" "array row index outside segment bounds" in
  rd_run rd_array_rows s.

Definition rd_meta : rd TermMeta :=
  rd_bind cur_u64 (fun off => rd_bind cur_u32 (fun len => rd_bind cur_u32 (fun df =>
  rd_bind cur_u16 (fun mw => rd_ret (mkTermMeta off len df mw))))).

(** One field of the dictionary, with its number of terms. *)
Definition rd_dict_field : rd (XPathId * TermDict * Z) :=
  rd_bind cur_u32 (fun xpath => rd_bind cur_u32 (fun field_terms => rd_bind cur_u64 (fun fst_len =>
  rd_bind (cur_take fst_len) (fun fst_bytes => rd_bind cur_remaining (fun remaining =>
  if remaining <? saturating_mul 64 field_terms TERM_META_LEN
  then rd_err (invalid "dictionary term count exceeds section size")
  else
  rd_bind (rd_many (Z.to_nat field_terms) rd_meta) (fun metas =>
  rd_bind (rd_lift (from_parts fst_bytes metas)) (fun dict => rd_ret (xpath, dict, field_terms)))))))).

Definition rd_dictionary (len : Z) : rd (list (XPathId * TermDict * Z)) :=
  rd_bind cur_u32 (fun field_count =>
  if len <? saturating_mul 64 field_count 16
  then rd_err (invalid "dictionary field count exceeds section size")
  else rd_many (Z.to_nat field_count) rd_dict_field).

Definition read_term_dictionary (bytes : list Z) (footer : SegmentFooter) : io_result (gmap Z TermDict) :=
  let! s := section bytes (dictionary_offset footer) (dictionary_len footer) (zlen bytes - FOOTER_LEN)
    "dictionary offset overflow" "dictionary outside segment bounds" in
  let! fields := rd_run (rd_dictionary (dictionary_len footer)) s in
  let dictionary := fold_left (fun d f => dictionary_insert_field d f.1.1 f.1.2) fields ∅ in
  let count := foldr (fun f n => f.2 + n) 0 fields in
  if negb (count =? term_count footer) then Err (invalid "dictionary term count mismatch")
  else Ok dictionary.

Definition of_sum {A} (r : string + A) : io_result A :=
  match r with inl e => Err (invalid e) | inr a => Ok a end.

Definition rd_numeric_field : rd (XPathId * NumericField) :=
  rd_bind cur_u32 (fun xpath => rd_bind cur_u8 (fun byte =>
  rd_bind (rd_lift (io_of_option (invalid "unknown numeric field kind") (kind_from_byte byte))) (fun kind =>
  rd_bind cur_u32 (fun point_count => rd_bind (rd_many (Z.to_nat point_count) rd_pair) (fun points =>
  rd_bind cur_u32 (fun entry_count => rd_bind (rd_many (Z.to_nat entry_count) rd_pair) (fun entries =>
  rd_bind (rd_lift (of_sum (bkd_from_packed kind points))) (fun bkd =>
  rd_bind (rd_lift (of_sum (dv_from_packed kind entries))) (fun dv =>
  rd_ret (xpath, mkNumericField bkd dv)))))))))).

Definition rd_numeric_fields : rd (list (XPathId * NumericField)) :=
  rd_bind cur_u32 (fun count => rd_many (Z.to_nat count) rd_numeric_field).

Definition read_numeric_fields (bytes : list Z) (footer : SegmentFooter) : io_result (gmap Z NumericField) :=
  let! s := section bytes (numeric_fields_offset footer) (numeric_fields_len footer) (zlen bytes - FOOTER_LEN)
    "numeric fields offset overflow" "numeric fields outside segment bounds" in
  let! fields := rd_run rd_numeric_fields s in
  Ok (fold_left (fun m f => nfs_insert_field m f.1 f.2) fields ∅).

Definition rd_bool_field : rd (XPathId * BoolField) :=
  rd_bind cur_u32 (fun xpath => rd_bind cur_u64 (fun true_len =>
  rd_bind (cur_take true_len) (fun tb => rd_bind (rd_lift (roaring_deserialize tb)) (fun t =>
  rd_bind cur_u64 (fun false_len =>
  rd_bind (cur_take false_len) (fun fb => rd_bind (rd_lift (roaring_deserialize fb)) (fun f =>
  rd_ret (xpath, mkBoolField t f)))))))).

Definition rd_bool_fields : rd (list (XPathId * BoolField)) :=
  rd_bind cur_u32 (fun count => rd_many (Z.to_nat count) rd_bool_field).

Definition read_bool_points (bytes : list Z) (footer : SegmentFooter) : io_result (gmap Z BoolField) :=
  let! s := section bytes (bool_fields_offset footer) (bool_fields_len footer) (zlen bytes - FOOTER_LEN)
    "bool fields offset overflow" "bool fields outside segment bounds" in
  let! fields := rd_run rd_bool_fields s in
  Ok (fold_left (fun m f => <[f.1 := f.2]> m) fields ∅).

(** ** Opened segments *)

Record DiskSegment : Type := mkDisk {
  ds_bytes : list Z;
  ds_dictionary : gmap Z TermDict;
  ds_doc_lengths : list (Z * FieldLengths);
  ds_field_stats : gmap Z FieldStats;
  ds_numeric_fields : gmap Z NumericField;
  ds_bool_fields : gmap Z BoolField;
  ds_doc_id_range : option (DocId * DocId);
  ds_array_row_index : ArrayRowIndex
}.

(** [DiskSegment::open] on the bytes of the file. *)
Definition open_segment (bytes : list Z) : io_result DiskSegment :=
  let! _ := validate_header bytes in
  let footer := read_footer bytes in
  let! _ := validate_footer bytes footer in
  let! doc_lengths := read_doc_lengths bytes footer in
  let field_stats := build_field_stats (dl_iter doc_lengths) in
  let! dictionary := read_term_dictionary bytes footer in
  let! numeric_fields := read_numeric_fields bytes footer in
  let! bool_fields := read_bool_points bytes footer in
  let doc_id_range :=
    if (term_count footer =? 0) && bool_decide (numeric_fields = ∅) then None
    else Some (min_doc_id footer, max_doc_id footer) in
  let! rows := read_array_row_index bytes footer in
  Ok (mkDisk bytes dictionary doc_lengths field_stats numeric_fields bool_fields doc_id_range rows).

(** The postings of a term; a range outside the file or undecodable bytes give no postings. *)
Definition meta_range (self : DiskSegment) (meta : TermMeta) : option (list Z) :=
  match checked_add 64 (postings_offset meta) (postings_len meta) with
  | None => None
  | Some stop =>
    if zlen (ds_bytes self) <? stop then None
    else Some (slice (Z.to_nat (postings_offset meta)) (Z.to_nat (postings_len meta)) (ds_bytes self))
  end.

Definition read_postings (self : DiskSegment) (meta : TermMeta) : PostingList :=
  match meta_range self meta with
  | None => PostingList_new
  | Some b =>
    match read_posting_list b (tm_doc_freq meta) (tm_max_weight meta) with
    | Ok l => l
    | Err _ => PostingList_new
    end
  end.

Definition read_postings_into (self : DiskSegment) (meta : TermMeta) (out : list Posting) : list Posting :=
  match meta_range self meta with
  | None => out
  | Some b => (read_posting_list_into b (tm_doc_freq meta) out).1
  end.

Definition disk_lookup (self : DiskSegment) (term : str) (xpath : XPathId) : PostingList :=
  match dictionary_get (ds_dictionary self) xpath term with
  | Some meta => read_postings self meta
  | None => PostingList_new
  end.

Definition disk_lookup_term (self : DiskSegment) (term : str) (xpath : XPathId) : TermPostings :=
  match dictionary_get (ds_dictionary self) xpath term with
  | None => mkTermPostings PostingList_new 0 0
  | Some meta => mkTermPostings (read_postings self meta) (tm_doc_freq meta) (tm_max_weight meta)
  end.

Definition disk_doc_freq (self : DiskSegment) (term : str) (xpath : XPathId) : Z :=
  match dictionary_get (ds_dictionary self) xpath term with Some meta => tm_doc_freq meta | None => 0 end.

Definition disk_terms_of (self : DiskSegment) (xpath : XPathId) : list str :=
  match ds_dictionary self !! xpath with Some dict => (td_entries dict).*1 | None => [] end.

(** The order in which the terms of a pattern are kept. *)
Definition meta_leb (a b : str * TermMeta) : bool :=
  match tm_doc_freq b.2 ?= tm_doc_freq a.2 with
  | Lt => true
  | Eq => match str_compare a.1 b.1 with Gt => false | _ => true end
  | Gt => false
  end.

Definition read_capped (self : DiskSegment) (found : list (str * TermMeta)) : PostingList :=
  let found := take MAX_PATTERN_TERMS (stable_sort meta_leb found) in
  from_items (fold_left (fun out e => read_postings_into self e.2 out) found []).

Definition disk_lookup_prefix (self : DiskSegment) (prefix : str) (xpath : XPathId) : PostingList :=
  match ds_dictionary self !! xpath with
  | None => PostingList_new
  | Some dict => read_capped self (td_prefix dict prefix)
  end.

Definition disk_lookup_wildcard (self : DiskSegment) (pattern : WildcardPattern) (xpath : XPathId) : PostingList :=
  if is_prefix_only pattern then disk_lookup_prefix self (prefix pattern) xpath
  else
  match ds_dictionary self !! xpath with
  | None => PostingList_new
  | Some dict =>
    read_capped self (filter (fun e => matches pattern e.1 = true) (td_prefix dict (prefix pattern)))
  end.

Definition iter_terms (self : DiskSegment) : list (TermKey * PostingList) :=
  concat ((fun f => (fun e => (TermKey_new e.1 f.1, read_postings self e.2)) <$> td_entries f.2)
    <$> btree_iter (ds_dictionary self)).

Definition disk_doc_len (self : DiskSegment) (d : DocId) (xpath : XPathId) : option Z :=
  dl_get (ds_doc_lengths self) d xpath.
End file.
