(* ===== verification/SegmentRead.v ===== *)
(** * Reading back what was written

    Lemmas about the byte cursor of [disk/reader.rs]: a reader applied to the bytes the writer
    produced for a value returns that value, whatever surrounds them. Each section of a segment
    file has its lemma. *)
From Stdlib Require Import ZArith Lia.
From stdpp Require Import base numbers list gmap sorting sets strings.
From S2P Require Import Prelude Types Posting Codec Numeric ArrayRows Btree Segment TermDict DocLengths SegmentFile.
Local Open Scope io_scope.
Local Open Scope Z_scope.

(** [m] reads [a] from the bytes [enc], wherever they are. *)
Definition reads {A} (m : rd A) (enc : list Z) (a : A) : Prop :=
  forall pre post, zlen (pre ++ enc ++ post) < 2 ^ 64 ->
    m (mkCur (pre ++ enc ++ post) (zlen pre)) = Ok (a, mkCur (pre ++ enc ++ post) (zlen (pre ++ enc))).

Lemma reads_ret {A} (a : A) : reads (rd_ret a) [] a.
Proof. intros pre post _. unfold rd_ret. by rewrite app_nil_r. Qed.

Lemma reads_bind {A B} (m : rd A) (f : A -> rd B) e1 e2 a b :
  reads m e1 a -> reads (f a) e2 b -> reads (rd_bind m f) (e1 ++ e2) b.
Proof.
  intros Hm Hf pre post Hl. unfold rd_bind. rewrite <-app_assoc in *. rewrite Hm by done. cbn [io_bind].
  rewrite (app_assoc pre) in *. rewrite Hf by done. by rewrite <-?app_assoc.
Qed.

Lemma reads_bind_nil {A B} (m : rd A) (f : A -> rd B) e a b :
  reads m [] a -> reads (f a) e b -> reads (rd_bind m f) e b.
Proof. intros Hm Hf. apply (reads_bind m f [] e a b Hm Hf). Qed.

Lemma reads_bind_last {A B} (m : rd A) (f : A -> rd B) e a b :
  reads m e a -> reads (f a) [] b -> reads (rd_bind m f) e b.
Proof. intros Hm Hf. rewrite <-(app_nil_r e). by eapply reads_bind. Qed.

Lemma reads_lift {A} (r : io_result A) a : r = Ok a -> reads (rd_lift r) [] a.
Proof. intros -> pre post _. unfold rd_lift. cbn [io_bind]. by rewrite app_nil_r. Qed.

Lemma reads_take bs : reads (cur_take (zlen bs)) bs bs.
Proof.
  intros pre post Hl. unfold cur_take. cbn [cur_bytes cur_offset].
  rewrite !length_app in Hl. unfold wrap. rewrite Z.mod_small by lia.
  destruct (Z.ltb_spec (zlen (pre ++ bs ++ post)) (zlen pre + zlen bs)) as [Hlt|_];
    [rewrite !length_app in Hlt; lia|].
  destruct (Z.ltb_spec (zlen pre + zlen bs) (zlen pre)); [lia|]. rewrite Nat2Z.id.
  replace (Z.to_nat (zlen pre + zlen bs - zlen pre)) with (length bs) by lia.
  rewrite (slice_app_mid pre bs post) by done. do 3 f_equal. rewrite length_app. lia.
Qed.

Lemma reads_u n x : 0 <= x < 2 ^ (8 * Z.of_nat n) -> reads (cur_u n) (to_le_bytes n x) x.
Proof.
  intros Hx. unfold cur_u. rewrite <-(length_to_le_bytes n x) at 1. eapply reads_bind_last.
  - apply reads_take.
  - rewrite from_to_le_bytes_id by done. apply reads_ret.
Qed.
Lemma reads_u8 x : in_u 8 x -> reads cur_u8 [x] x.
Proof.
  intros Hx. assert (E : [x] = to_le_bytes 1 x).
  { cbn [to_le_bytes]. f_equal. change 255 with (Z.ones 8). rewrite Z.land_ones by lia. symmetry. by apply Z.mod_small. }
  rewrite E. by apply (reads_u 1).
Qed.
Lemma reads_u16 x : in_u 16 x -> reads cur_u16 (to_le_bytes 2 x) x.
Proof. apply (reads_u 2). Qed.
Lemma reads_u32 x : in_u 32 x -> reads cur_u32 (to_le_bytes 4 x) x.
Proof. apply (reads_u 4). Qed.
Lemma reads_u64 x : in_u 64 x -> reads cur_u64 (to_le_bytes 8 x) x.
Proof. apply (reads_u 8). Qed.
#[export] Hint Resolve reads_ret reads_u8 reads_u16 reads_u32 reads_u64 : riets.

Lemma reads_many {A} (m : rd A) (enc : A -> list Z) l :
  (forall a, a ∈ l -> reads m (enc a) a) -> reads (rd_many (length l) m) (concat (enc <$> l)) l.
Proof.
  induction l as [|a l IH]; intros Hl; [apply reads_ret|]. cbn [length rd_many].
  rewrite fmap_cons. cbn [concat]. eapply reads_bind; [apply Hl; left|].
  eapply reads_bind_last; [apply IH; intros; apply Hl; by right|]. apply reads_ret.
Qed.

(** A check of how much is left, as the dictionary reader makes before reserving memory. *)
Lemma reads_remaining {A} (k : Z) (e : io_error) (m : rd A) enc a :
  k <= zlen enc -> reads m enc a ->
  reads (rd_bind cur_remaining (fun r => if r <? k then rd_err e else m)) enc a.
Proof.
  intros Hk Hm pre post Hl. unfold rd_bind, cur_remaining. cbn [io_bind cur_bytes cur_offset].
  destruct (Z.ltb_spec (saturating_sub (zlen (pre ++ enc ++ post)) (zlen pre)) k) as [Hlt|_]; [|by apply Hm].
  unfold saturating_sub in Hlt. rewrite !length_app in Hlt. lia.
Qed.

Lemma reads_run {A} (m : rd A) enc a : zlen enc < 2 ^ 64 -> reads m enc a -> rd_run m enc = Ok a.
Proof.
  intros Hl Hm. specialize (Hm [] []). simpl in Hm. rewrite app_nil_r in Hm.
  unfold rd_run, Cursor_new. change (Z.of_nat 0) with 0 in Hm. by rewrite Hm.
Qed.

(** ** What the writers append *)

Lemma fold_append {A} (w : list Z -> A -> list Z) (enc : A -> list Z) l out :
  (forall out a, w out a = out ++ enc a) -> fold_left w l out = out ++ concat (enc <$> l).
Proof.
  intros Hw. revert out. induction l as [|a l IH]; intros out; simpl; [by rewrite app_nil_r|].
  by rewrite IH, Hw, <-app_assoc.
Qed.

Definition enc_length (e : (DocId * XPathId) * Z) : list Z :=
  to_le_bytes 8 e.1.1 ++ to_le_bytes 4 e.1.2 ++ to_le_bytes 4 e.2.
Definition enc_pair (e : Z * Z) : list Z := to_le_bytes 8 e.1 ++ to_le_bytes 8 e.2.

Definition enc_doc_lengths (m : gmap (Z * Z) Z) : list Z :=
  to_le_bytes 4 (wrap 32 (Z.of_nat (size m))) ++ concat (enc_length <$> btree_iter m).
Lemma write_doc_lengths_app out m : write_doc_lengths out m = out ++ enc_doc_lengths m.
Proof.
  unfold write_doc_lengths, enc_doc_lengths. rewrite (fold_append _ enc_length).
  - unfold write_u32. by rewrite <-app_assoc.
  - intros o a. unfold write_u32, write_u64, enc_length. by rewrite <-!app_assoc.
Qed.

Lemma write_pairs_app out l : write_pairs out l = out ++ concat (enc_pair <$> l).
Proof.
  apply fold_append. intros o a. unfold write_u64, enc_pair. by rewrite <-!app_assoc.
Qed.

Definition enc_rows (r : ArrayRowIndex) : list Z :=
  to_le_bytes 8 (ar_base r) ++ to_le_bytes 4 (wrap 32 (Z.of_nat (rows_len r))) ++
  concat (enc_pair <$> zip (row_to_doc r) (parent_rows r)).
Lemma write_rows_app out r : write_array_row_index out r = out ++ enc_rows r.
Proof.
  unfold write_array_row_index, enc_rows. cbv zeta.
  change (fold_left _ (zip (row_to_doc r) (parent_rows r)) ?o) with
    (write_pairs o (zip (row_to_doc r) (parent_rows r))).
  rewrite write_pairs_app. unfold write_u32, write_u64. by rewrite <-!app_assoc.
Qed.

Definition enc_numeric_field (e : XPathId * NumericField) : list Z :=
  to_le_bytes 4 e.1 ++ [kind_to_byte (bkd_kind (nf_bkd e.2))] ++
  to_le_bytes 4 (wrap 32 (zlen (bkd_points (nf_bkd e.2)))) ++ concat (enc_pair <$> bkd_points (nf_bkd e.2)) ++
  to_le_bytes 4 (wrap 32 (zlen (dv_entries (nf_doc_values e.2)))) ++
  concat (enc_pair <$> dv_entries (nf_doc_values e.2)).
Definition enc_numeric_fields (m : gmap Z NumericField) : list Z :=
  to_le_bytes 4 (wrap 32 (Z.of_nat (size m))) ++ concat (enc_numeric_field <$> btree_iter m).
Lemma write_numeric_fields_app out m : write_numeric_fields out m = out ++ enc_numeric_fields m.
Proof.
  unfold write_numeric_fields, enc_numeric_fields. rewrite (fold_append _ enc_numeric_field).
  - unfold write_u32. by rewrite <-app_assoc.
  - intros o e. unfold write_numeric_field, enc_numeric_field. cbv zeta. rewrite !write_pairs_app.
    unfold write_u32, write_u8. by rewrite <-!app_assoc.
Qed.

Section sections.
Context `{FstLib} `{RoaringLib}.

Definition enc_bool_field (e : XPathId * BoolField) : list Z :=
  let t := roaring_serialize (true_ids e.2) in
  let f := roaring_serialize (false_ids e.2) in
  to_le_bytes 4 e.1 ++ to_le_bytes 8 (zlen t) ++ t ++ to_le_bytes 8 (zlen f) ++ f.
Definition enc_bool_fields (m : gmap Z BoolField) : list Z :=
  to_le_bytes 4 (wrap 32 (Z.of_nat (size m))) ++ concat (enc_bool_field <$> btree_iter m).
Lemma write_bool_fields_app out m : write_bool_fields out m = out ++ enc_bool_fields m.
Proof using Type.
  unfold write_bool_fields, enc_bool_fields. rewrite (fold_append _ enc_bool_field).
  - unfold write_u32. by rewrite <-app_assoc.
  - intros o e. unfold write_bool_field, enc_bool_field, write_u32, write_u64. cbv zeta. by rewrite <-!app_assoc.
Qed.

Definition enc_meta (m : TermMeta) : list Z :=
  to_le_bytes 8 (postings_offset m) ++ to_le_bytes 4 (postings_len m) ++
  to_le_bytes 4 (tm_doc_freq m) ++ to_le_bytes 2 (tm_max_weight m).
Definition enc_dict_field (e : XPathId * TermDict) : list Z :=
  to_le_bytes 4 e.1 ++ to_le_bytes 4 (wrap 32 (zlen (td_metas e.2))) ++
  to_le_bytes 8 (zlen (dict_fst_bytes e.2)) ++ dict_fst_bytes e.2 ++ concat (enc_meta <$> td_metas e.2).
Definition enc_dictionary (fields : list (XPathId * TermDict)) : list Z :=
  to_le_bytes 4 (wrap 32 (zlen fields)) ++ concat (enc_dict_field <$> fields).
Lemma write_dictionary_app out fields : write_dictionary out fields = out ++ enc_dictionary fields.
Proof using Type.
  unfold write_dictionary, enc_dictionary. rewrite (fold_append _ enc_dict_field).
  - unfold write_u32. by rewrite <-app_assoc.
  - intros o e. unfold write_dict_field, enc_dict_field. cbv zeta. rewrite (fold_append _ enc_meta).
    + unfold write_u32, write_u64. by rewrite <-!app_assoc.
    + intros o' m. unfold write_meta, enc_meta, write_u64, write_u32, write_u16. by rewrite <-!app_assoc.
Qed.
End sections.

(** ** Sections without third-party data *)

Lemma size_u32 {K A} `{Countable K} (m : gmap K A) n :
  n = size m -> in_u 32 (Z.of_nat (size m)) ->
  in_u 32 (wrap 32 (Z.of_nat (size m))) /\ Z.to_nat (wrap 32 (Z.of_nat (size m))) = n.
Proof. intros -> Hs. unfold wrap. rewrite Z.mod_small by done. split; [done|lia]. Qed.

Lemma wrap_zlen {A} (l : list A) :
  in_u 32 (zlen l) -> in_u 32 (wrap 32 (zlen l)) /\ Z.to_nat (wrap 32 (zlen l)) = length l.
Proof. intros Hs. unfold wrap. rewrite Z.mod_small by done. split; [done|lia]. Qed.

Definition length_in_range (e : (DocId * XPathId) * Z) : Prop :=
  in_u 64 e.1.1 /\ in_u 32 e.1.2 /\ in_u 32 e.2.

Lemma reads_doc_lengths m :
  in_u 32 (Z.of_nat (size m)) -> (forall k len, m !! k = Some len -> length_in_range (k, len)) ->
  reads rd_doc_lengths (enc_doc_lengths m) (btree_iter m).
Proof.
  intros Hs Hr. destruct (size_u32 m _ (length_btree_iter m) Hs) as [Hw Hn].
  unfold rd_doc_lengths, enc_doc_lengths. eapply reads_bind; [by apply reads_u32|]. rewrite Hn.
  apply reads_many. intros [[d x] len] Hin. apply elem_of_btree_iter in Hin.
  destruct (Hr _ _ Hin) as (H1 & H2 & H3). unfold rd_length, enc_length.
  eapply reads_bind; [by apply reads_u64|]. eapply reads_bind; [by apply reads_u32|].
  eapply reads_bind_last; [by apply reads_u32|]. apply reads_ret.
Qed.

Lemma reads_pair e : in_u 64 e.1 -> in_u 64 e.2 -> reads rd_pair (enc_pair e) e.
Proof.
  intros H1 H2. unfold rd_pair, enc_pair. eapply reads_bind; [by apply reads_u64|].
  eapply reads_bind_last; [by apply reads_u64|]. destruct e. apply reads_ret.
Qed.

Definition rows_in_range (r : ArrayRowIndex) : Prop :=
  in_u 64 (ar_base r) /\ in_u 32 (Z.of_nat (rows_len r)) /\
  length (parent_rows r) = length (row_to_doc r) /\
  Forall (in_u 64) (row_to_doc r) /\ Forall (in_u 64) (parent_rows r).

Lemma push_rows_zip base docs parents :
  in_u 64 base -> length parents = length docs -> push_rows base (zip docs parents) = mkArrayRows base docs parents.
Proof.
  intros Hb Hl. unfold push_rows.
  assert (Hg : forall (ds ps : list Z) D P, length ps = length ds ->
    (fold_left (fun st e => (push_row st.1 (wrap 64 (base + Z.of_nat st.2)) e.1
        (if negb (e.2 =? NO_PARENT_ROW) then Some e.2 else None), S st.2)) (zip ds ps)
      (mkArrayRows base D P, length D)).1 = mkArrayRows base (D ++ ds) (P ++ ps)).
  { induction ds as [|d ds IH]; intros [|p ps] D P Hlen; try done; [by rewrite !app_nil_r|].
    cbn [zip zip_with fold_left fst snd].
    assert (E : push_row (mkArrayRows base D P) (wrap 64 (base + zlen D)) d
        (if negb (p =? NO_PARENT_ROW) then Some p else None) = mkArrayRows base (D ++ [d]) (P ++ [p])).
    { unfold push_row. cbn [row_to_doc parent_rows ar_base]. f_equal.
      - destruct D; [|done]. simpl. rewrite Z.add_0_r. by apply Z.mod_small.
      - do 2 f_equal. by destruct (Z.eqb_spec p NO_PARENT_ROW). }
    rewrite E. replace (S (length D)) with (length (D ++ [d])) by (rewrite length_app; simpl; lia).
    change (zip_with pair ds ps) with (zip ds ps). rewrite IH by (simpl in Hlen; lia).
    by rewrite <-!app_assoc. }
  apply (Hg docs parents [] [] Hl).
Qed.

Lemma reads_rows r : rows_in_range r -> reads rd_array_rows (enc_rows r) r.
Proof.
  intros (Hb & Hn & Hc & Hd & Hp). unfold rd_array_rows, enc_rows.
  eapply reads_bind; [by apply reads_u64|].
  destruct (wrap_zlen (row_to_doc r) Hn) as [Hw Hw']. eapply reads_bind; [by apply reads_u32|].
  eapply reads_bind_last.
  - unfold rows_len. rewrite Hw'.
    replace (length (row_to_doc r)) with (length (zip (row_to_doc r) (parent_rows r)))
      by (rewrite length_zip_with; lia).
    apply reads_many. intros [d p] Hin. rewrite Forall_forall in Hd, Hp.
    apply reads_pair; simpl; [apply Hd|apply Hp].
    + by eapply elem_of_zip_l.
    + by eapply elem_of_zip_r.
  - rewrite push_rows_zip by done. destruct r. apply reads_ret.
Qed.

(** A frozen numeric field as the writer expects it. *)
Record numeric_field_ok (f : NumericField) : Prop := {
  nfo_kind : dv_kind (nf_doc_values f) = bkd_kind (nf_bkd f);
  nfo_points : is_sorted_by_key fst (bkd_points (nf_bkd f)) = true;
  nfo_entries : is_sorted_by_key fst (dv_entries (nf_doc_values f)) = true;
  nfo_blocks : dv_block_first (nf_doc_values f) = block_first_doc (dv_entries (nf_doc_values f));
  nfo_npoints : in_u 32 (zlen (bkd_points (nf_bkd f)));
  nfo_nentries : in_u 32 (zlen (dv_entries (nf_doc_values f)));
  nfo_points_range : Forall (fun e => in_u 64 e.1 /\ in_u 64 e.2) (bkd_points (nf_bkd f));
  nfo_entries_range : Forall (fun e => in_u 64 e.1 /\ in_u 64 e.2) (dv_entries (nf_doc_values f))
}.

Lemma reads_pairs l :
  in_u 32 (zlen l) -> Forall (fun e => in_u 64 e.1 /\ in_u 64 e.2) l ->
  reads (rd_many (Z.to_nat (wrap 32 (zlen l))) rd_pair) (concat (enc_pair <$> l)) l.
Proof.
  intros Hn Hl. destruct (wrap_zlen l Hn) as [_ ->]. apply reads_many. intros e He.
  rewrite Forall_forall in Hl. destruct (Hl e He). by apply reads_pair.
Qed.

Lemma kind_byte_roundtrip k : kind_from_byte (kind_to_byte k) = Some k.
Proof. by destruct k. Qed.

Lemma reads_numeric_field x f :
  in_u 32 x -> numeric_field_ok f -> reads rd_numeric_field (enc_numeric_field (x, f)) (x, f).
Proof.
  intros Hx [Hk Hp He Hb Hnp Hne Hrp Hre]. unfold rd_numeric_field, enc_numeric_field. cbn [fst snd].
  eapply reads_bind; [by apply reads_u32|].
  eapply reads_bind; [apply reads_u8; destruct (bkd_kind _); vm_compute; split; congruence|].
  eapply reads_bind_nil; [apply reads_lift; by rewrite kind_byte_roundtrip|].
  eapply reads_bind; [apply reads_u32; by apply wrap_zlen|].
  eapply reads_bind; [by apply reads_pairs|].
  eapply reads_bind; [apply reads_u32; by apply wrap_zlen|].
  eapply reads_bind_last; [by apply reads_pairs|].
  eapply reads_bind_nil; [apply reads_lift; unfold bkd_from_packed; rewrite Hp; done|].
  eapply reads_bind_nil; [apply reads_lift; unfold dv_from_packed; rewrite He; done|].
  rewrite <-Hk at 2. rewrite <-Hb. destruct f as [[k1 p] [k2 e b]]. apply reads_ret.
Qed.

Lemma reads_numeric_fields m :
  in_u 32 (Z.of_nat (size m)) -> (forall x f, m !! x = Some f -> in_u 32 x /\ numeric_field_ok f) ->
  reads rd_numeric_fields (enc_numeric_fields m) (btree_iter m).
Proof.
  intros Hs Hr. destruct (size_u32 m _ (length_btree_iter m) Hs) as [Hw Hn].
  unfold rd_numeric_fields, enc_numeric_fields. eapply reads_bind; [by apply reads_u32|]. rewrite Hn.
  apply reads_many. intros [x f] Hin. apply elem_of_btree_iter in Hin. destruct (Hr _ _ Hin).
  by apply reads_numeric_field.
Qed.
