(* ===== verification/SegmentRoundtrip.v ===== *)
(** * A written segment opens to the same segment

    The round trip of [disk/writer.rs] and [disk/reader.rs]: the grouping of the terms into
    fields, the footer, the sections, and the theorem that an opened file answers every lookup
    as the segment that was written. *)
From Stdlib Require Import ZArith Lia.
From stdpp Require Import base numbers list gmap sorting sets strings.
From S2P Require Import Prelude Types Posting Codec Numeric ArrayRows Wildcard Btree Segment TermDict DocLengths SegmentFile SegmentRead.
Local Open Scope io_scope.
Local Open Scope Z_scope.

Section roundtrip.
Context {FL : FstLib} {FLaws : FstLaws} {RL : RoaringLib} {RLaws : RoaringLaws}.

(** ** Boolean fields *)

Definition bool_sizes_ok (f : BoolField) : Prop :=
  in_u 64 (zlen (roaring_serialize (true_ids f))) /\ in_u 64 (zlen (roaring_serialize (false_ids f))).

Lemma reads_bool_field x f :
  in_u 32 x -> bool_sizes_ok f -> reads rd_bool_field (enc_bool_field (x, f)) (x, f).
Proof.
  intros Hx [Ht Hf]. unfold rd_bool_field, enc_bool_field. cbv zeta. cbn [fst snd].
  eapply reads_bind; [by apply reads_u32|]. eapply reads_bind; [by apply reads_u64|].
  eapply reads_bind; [apply reads_take|].
  eapply reads_bind_nil; [apply reads_lift, roaring_roundtrip|].
  eapply reads_bind; [by apply reads_u64|].
  eapply reads_bind_last; [apply reads_take|].
  eapply reads_bind_nil; [apply reads_lift, roaring_roundtrip|]. destruct f. apply reads_ret.
Qed.

Lemma reads_bool_fields m :
  in_u 32 (Z.of_nat (size m)) -> (forall x f, m !! x = Some f -> in_u 32 x /\ bool_sizes_ok f) ->
  reads rd_bool_fields (enc_bool_fields m) (btree_iter m).
Proof.
  intros Hs Hr. destruct (size_u32 m _ (length_btree_iter m) Hs) as [Hw Hn].
  unfold rd_bool_fields, enc_bool_fields. eapply reads_bind; [by apply reads_u32|]. rewrite Hn.
  apply reads_many. intros [x f] Hin. apply elem_of_btree_iter in Hin. destruct (Hr _ _ Hin).
  by apply reads_bool_field.
Qed.

(** ** The dictionary section *)

Definition meta_ok (m : TermMeta) : Prop :=
  in_u 64 (postings_offset m) /\ in_u 32 (postings_len m) /\ in_u 32 (tm_doc_freq m) /\ in_u 16 (tm_max_weight m).

Lemma reads_meta m : meta_ok m -> reads rd_meta (enc_meta m) m.
Proof.
  intros (H1 & H2 & H3 & H4). unfold rd_meta, enc_meta.
  eapply reads_bind; [by apply reads_u64|]. eapply reads_bind; [by apply reads_u32|].
  eapply reads_bind; [by apply reads_u32|]. eapply reads_bind_last; [by apply reads_u16|].
  destruct m. apply reads_ret.
Qed.

Lemma length_enc_metas ms : length (concat (enc_meta <$> ms)) = (18 * length ms)%nat.
Proof.
  induction ms as [|m ms IH]; [done|]. rewrite fmap_cons. cbn [concat]. rewrite length_app, IH.
  unfold enc_meta. rewrite !length_app, !length_to_le_bytes. simpl. lia.
Qed.

(** A field of the dictionary as the writer makes it. *)
Definition dict_field_ok (e : XPathId * TermDict) (terms : list (str * TermMeta)) : Prop :=
  in_u 32 e.1 /\ dict_of terms e.2 /\ in_u 32 (zlen terms) /\ Forall (fun t => meta_ok t.2) terms /\
  in_u 64 (zlen (dict_fst_bytes e.2)).

Lemma reads_dict_field e terms :
  dict_field_ok e terms -> reads rd_dict_field (enc_dict_field e) (e, zlen terms).
Proof.
  destruct e as [x d]. intros (Hx & Hd & Hn & Hm & Hf). cbn [fst snd] in *.
  pose proof Hd as [Hmetas _]. assert (Hlen : length (td_metas d) = length terms) by (by rewrite Hmetas, length_fmap).
  unfold rd_dict_field, enc_dict_field. cbn [fst snd]. rewrite Hlen.
  eapply reads_bind; [by apply reads_u32|].
  eapply reads_bind; [apply reads_u32; by apply wrap_zlen|].
  eapply reads_bind; [by apply reads_u64|]. eapply reads_bind; [apply reads_take|].
  assert (Hw : wrap 32 (zlen terms) = zlen terms) by (by apply Z.mod_small). rewrite Hw.
  apply reads_remaining.
  - rewrite length_enc_metas, Hlen. unfold saturating_mul, TERM_META_LEN. lia.
  - eapply reads_bind_last.
    + rewrite Nat2Z.id, <-Hlen. apply reads_many. intros m Hin. apply reads_meta.
      rewrite Hmetas in Hin. apply list_elem_of_fmap in Hin as (t & -> & Ht).
      rewrite Forall_forall in Hm. by apply Hm.
    + eapply reads_bind_nil; [apply reads_lift; by eapply from_parts_ok|]. apply reads_ret.
Qed.

Lemma length_enc_dict_field e : (16 <= length (enc_dict_field e))%nat.
Proof.
  unfold enc_dict_field. rewrite !length_app, !length_to_le_bytes. lia.
Qed.

Lemma reads_dictionary (fields : list (XPathId * TermDict)) (groups : list (list (str * TermMeta))) len :
  Forall2 dict_field_ok fields groups -> in_u 32 (zlen fields) -> zlen (enc_dictionary fields) = len ->
  reads (rd_dictionary len) (enc_dictionary fields) (zip fields ((fun g => zlen g) <$> groups)).
Proof.
  intros Hf Hn Hlen. unfold rd_dictionary. unfold enc_dictionary in *.
  eapply reads_bind; [apply reads_u32; by apply wrap_zlen|].
  assert (Hw : wrap 32 (zlen fields) = zlen fields) by (by apply Z.mod_small). rewrite Hw.
  assert (Hge : 16 * zlen fields <= zlen (concat (enc_dict_field <$> fields))).
  { clear. induction fields as [|e l IH]; [done|]. rewrite fmap_cons. cbn [concat length]. rewrite length_app.
    pose proof (length_enc_dict_field e). lia. }
  rewrite length_app in Hlen.
  destruct (Z.ltb_spec len (saturating_mul 64 (zlen fields) 16)) as [Hlt|_].
  { unfold saturating_mul in Hlt. lia. }
  rewrite Nat2Z.id. clear Hlen Hw Hge Hn len. induction Hf as [|e g fields groups Heg Hf IH]; [apply reads_ret|].
  cbn [length rd_many]. rewrite !fmap_cons. cbn [concat zip zip_with].
  eapply reads_bind; [by apply reads_dict_field|]. eapply reads_bind_last; [exact IH|]. apply reads_ret.
Qed.

(** ** Where the postings land *)

Abbreviation pbytes := (encode_posting_list []).

(** The terms with their postings and the metadata the writer records for them. *)
Fixpoint place (off : Z) (terms : list (TermKey * PostingList)) : list (TermKey * (PostingList * TermMeta)) :=
  match terms with
  | [] => []
  | (k, pl) :: terms' =>
    (k, (pl, mkTermMeta off (zlen (pbytes pl)) (zlen (items pl)) (max_weight pl)))
      :: place (off + zlen (pbytes pl)) terms'
  end.

Definition all_postings (terms : list (TermKey * PostingList)) : list Z := concat ((fun e => pbytes e.2) <$> terms).

Lemma place_keys off terms : (fun e => (e.1, e.2.1)) <$> place off terms = terms.
Proof.
  revert off. induction terms as [|[k pl] terms IH]; intros off; [done|]. simpl place.
  by rewrite fmap_cons, IH.
Qed.

(** Every placed term finds its bytes. *)
Lemma place_slice pre terms post k pl meta :
  (k, (pl, meta)) ∈ place (zlen pre) terms ->
  slice (Z.to_nat (postings_offset meta)) (Z.to_nat (postings_len meta)) (pre ++ all_postings terms ++ post)
    = pbytes pl /\
  tm_doc_freq meta = zlen (items pl) /\ tm_max_weight meta = max_weight pl /\
  0 <= postings_offset meta /\ postings_len meta = zlen (pbytes pl) /\
  postings_offset meta + postings_len meta <= zlen (pre ++ all_postings terms).
Proof.
  revert pre. induction terms as [|[k' pl'] terms IH]; intros pre; [set_solver|]. simpl place.
  unfold all_postings. rewrite fmap_cons. cbn [concat snd]. fold (all_postings terms).
  intros [E|Hin]%elem_of_cons.
  - injection E as -> -> ->. simpl. rewrite !Nat2Z.id. split; [|rewrite !length_app; lia].
    rewrite <-app_assoc. by apply slice_app_mid.
  - rewrite <-(app_assoc (pbytes pl')). rewrite (app_assoc pre).
    replace (zlen pre + zlen (pbytes pl')) with (zlen (pre ++ pbytes pl')) in Hin by (rewrite length_app; lia).
    destruct (IH _ Hin) as (H1 & H2 & H3 & H4 & H5 & H6). split; [done|]. repeat split; try done.
    by rewrite (app_assoc pre).
Qed.

(** ** Grouping the terms by field *)

(** A closed field, flattened. *)
Definition ungroup (g : XPathId * list (str * TermMeta)) : list (TermKey * TermMeta) :=
  (fun e => (TermKey_new e.1 g.1, e.2)) <$> g.2.

(** The field being accumulated. *)
Definition open_group (w : FieldWriter) : list (XPathId * list (str * TermMeta)) :=
  match fw_current w with Some x => [(x, fw_entries w)] | None => [] end.

(** [done] are the terms pushed so far. *)
Record writer_inv (w : FieldWriter) (done : list (TermKey * TermMeta))
    (groups : list (XPathId * list (str * TermMeta))) : Prop := {
  wi_fields : Forall2 (fun f g => f.1 = g.1 /\ dict_of g.2 f.2) (fw_fields w) groups;
  wi_done : done = concat (ungroup <$> groups ++ open_group w);
  wi_nonempty : Forall (fun g => g.2 <> []) (groups ++ open_group w);
  wi_ascending : StronglySorted (fun a b => a.1 < b.1) (groups ++ open_group w);
  wi_closed : fw_current w = None -> fw_entries w = [];
  wi_count : fw_term_count w = wrap 32 (zlen done)
}.

Lemma ungroup_terms_ascending g :
  ascending_keys (ungroup g) -> ascending_keys g.2.
Proof.
  destruct g as [x l]. unfold ungroup. simpl. induction l as [|e l IH]; intros Hs; [constructor|].
  rewrite fmap_cons in Hs. apply StronglySorted_inv in Hs as [Hs He]. constructor; [by apply IH|].
  apply Forall_forall. intros y Hy. rewrite Forall_fmap, Forall_forall in He. specialize (He y Hy).
  simpl in He. by rewrite TermKey_clt_same in He.
Qed.

Lemma ascending_app_inv {A} (l1 l2 : list (TermKey * A)) :
  ascending_keys (l1 ++ l2) ->
  ascending_keys l1 /\ ascending_keys l2 /\ forall x y, x ∈ l1 -> y ∈ l2 -> key_clt x.1 y.1.
Proof.
  induction l1 as [|e l1 IH]; simpl; intros Hs.
  - split; [constructor|]. split; [done|]. set_solver.
  - apply StronglySorted_inv in Hs as [Hs He]. destruct (IH Hs) as (H1 & H2 & H3).
    rewrite Forall_app in He. destruct He as [He1 He2]. split; [by constructor|]. split; [done|].
    intros x y [->|Hx]%elem_of_cons Hy; [|by apply H3]. rewrite Forall_forall in He2. by apply He2.
Qed.

Lemma close_field_inv w done groups :
  writer_inv w done groups -> ascending_keys done ->
  exists w' groups', close_field w = Ok w' /\ writer_inv w' done groups' /\ fw_current w' = None /\
    groups' = groups ++ open_group w.
Proof.
  intros Hi Hs. unfold close_field. pose proof Hi as [H1 H2 H3 H4 H5 H6]. unfold open_group in *.
  destruct (fw_current w) as [x|] eqn:Ec.
  - assert (Ha : ascending_keys (fw_entries w)).
    { rewrite H2, fmap_app, concat_app in Hs. apply ascending_app_inv in Hs as (_ & Hs & _).
      simpl in Hs. rewrite app_nil_r in Hs. by apply (ungroup_terms_ascending (x, fw_entries w)). }
    destruct (TermDict_build_ok _ Ha) as (d & -> & Hd). cbn [io_bind].
    eexists _, (groups ++ [(x, fw_entries w)]). split; [done|]. split; [|done].
    constructor; unfold open_group; simpl; rewrite ?app_nil_r; try done.
    apply Forall2_app; [done|]. by constructor.
  - eexists w, groups. split; [done|]. split; [done|]. split; [done|]. by rewrite app_nil_r.
Qed.

(** The fields closed so far come before the field of a greater key. *)
Lemma group_xpath_le groups key (meta : TermMeta) g :
  (forall x y, x ∈ concat (ungroup <$> groups) -> y ∈ [(key, meta)] -> key_clt x.1 y.1) ->
  g ∈ groups -> g.2 <> [] -> g.1 <= tk_xpath key.
Proof.
  intros Hlt Hg Hne. destruct g as [x [|e l]]; [done|]. simpl.
  assert (Hk : key_clt (TermKey_new e.1 x) key).
  { apply (Hlt (TermKey_new e.1 x, e.2) (key, meta)); [|set_solver].
    apply elem_of_concat. exists (ungroup (x, e :: l)). split; [|by apply list_elem_of_fmap_2].
    unfold ungroup. simpl. left. }
  unfold key_clt in Hk. simpl in Hk. unfold TermKey_compare in Hk. simpl in Hk.
  destruct (Z.compare_spec x (tk_xpath key)); try done; lia.
Qed.

Lemma sorted_last_le {A} (l : list (Z * A)) a b :
  StronglySorted (fun a b => a.1 < b.1) (l ++ [a]) -> b ∈ l ++ [a] -> b.1 <= a.1.
Proof.
  intros Hs [Hb|Hb]%elem_of_app.
  - assert (b.1 < a.1); [|lia]. by eapply (sorted_app_rel (fun a b => a.1 < b.1) l [a]); [done|done|left].
  - apply list_elem_of_singleton in Hb as ->. lia.
Qed.

Lemma fw_push_inv w done groups out key pl meta :
  writer_inv w done groups -> (fw_current w = None -> groups = []) ->
  ascending_keys (done ++ [(key, meta)]) ->
  meta = mkTermMeta (stream_position out) (wrap 32 (zlen (pbytes pl))) (list_len_u32 pl) (max_weight pl) ->
  exists w' groups', fw_push w out (tk_xpath key) (tk_term key) pl = Ok (w', out ++ pbytes pl) /\
    writer_inv w' (done ++ [(key, meta)]) groups' /\ fw_current w' = Some (tk_xpath key).
Proof.
  intros Hi H0 Hs Hmeta. apply ascending_app_inv in Hs as (Hd & _ & Hlt).
  assert (Hkey : TermKey_new (tk_term key) (tk_xpath key) = key) by (by destruct key).
  assert (Hc : forall c, wrap 32 (zlen c + 1) = wrap 32 (zlen (c ++ [(key, meta)])))
    by (intros c; rewrite length_app; f_equal; simpl; lia).
  unfold fw_push. case_bool_decide as Ecur; cbn [negb].
  - cbn [io_bind]. rewrite <-Hmeta. eexists _, groups. split; [done|]. split; [|done].
    destruct Hi as [H1 H2 H3 H4 H5 H6]. unfold open_group in *. rewrite Ecur in *.
    constructor; unfold open_group; simpl; rewrite ?Ecur; try done.
    + rewrite H2, !fmap_app, !concat_app. simpl. rewrite !app_nil_r, <-app_assoc. f_equal.
      unfold ungroup. simpl. rewrite fmap_app. simpl. by rewrite Hkey.
    + rewrite Forall_app in *. split; [apply H3|]. constructor; [|done]. simpl. by destruct (fw_entries w).
    + clear -H4. induction groups as [|g gs IH]; simpl in *; [repeat constructor|].
      apply StronglySorted_inv in H4 as [H4 Hg]. constructor; [by apply IH|].
      rewrite Forall_app in *. destruct Hg as [Hg1 Hg2]. split; [done|]. apply Forall_cons in Hg2 as [? _].
      by constructor.
    + rewrite H6, wrap_add_l. apply Hc.
  - destruct (close_field_inv w done groups Hi Hd) as (w1 & gs & -> & Hi1 & Hn1 & Hgs). cbn [io_bind].
    rewrite <-Hmeta. eexists _, gs. split; [done|]. split; [|done]. cbn [fw_fields fw_current fw_entries fw_term_count].
    destruct Hi1 as [H1 H2 H3 H4 H5 H6]. unfold open_group in H2, H3, H4. rewrite Hn1, app_nil_r in *.
    rewrite H5 by done. constructor; unfold open_group; simpl; try done.
    + rewrite fmap_app, concat_app, <-H2. simpl. unfold ungroup. simpl. by rewrite Hkey.
    + apply Forall_app. split; [done|]. by constructor.
    + assert (Hx : forall g, g ∈ gs -> g.1 < tk_xpath key).
      { assert (Hle : forall g, g ∈ gs -> g.1 <= tk_xpath key).
        { intros g Hg. rewrite Forall_forall in H3.
          apply (group_xpath_le gs key meta g); [by rewrite <-H2|done|by apply H3]. }
        unfold open_group in Hgs. destruct (fw_current w) as [c|] eqn:Ec.
        - subst gs. assert (Hlc : c < tk_xpath key).
          { assert (c <> tk_xpath key) by congruence.
            specialize (Hle (c, fw_entries w) ltac:(set_solver)). simpl in Hle. lia. }
          intros g Hg. pose proof (sorted_last_le _ _ _ H4 Hg). simpl in *. lia.
        - rewrite H0, app_nil_r in Hgs by done. subst gs. set_solver. }
      clear -H4 Hx. induction gs as [|g gs IH]; simpl; [repeat constructor|].
      apply StronglySorted_inv in H4 as [H4 Hg]. constructor.
      * apply IH; [done|]. intros g' Hg'. apply Hx. by right.
      * apply Forall_app. split; [done|]. constructor; [|done]. simpl. apply Hx. left.
    + rewrite H6, wrap_add_l. apply Hc.
Qed.

Definition placed_metas (off : Z) (terms : list (TermKey * PostingList)) : list (TermKey * TermMeta) :=
  (fun e => (e.1, e.2.2)) <$> place off terms.

Lemma placed_metas_keys off terms : (placed_metas off terms).*1 = terms.*1.
Proof.
  unfold placed_metas. rewrite <-(place_keys off terms) at 2. rewrite <-!list_fmap_compose. done.
Qed.

(** The sizes the writer stores in 32 bits. *)
Definition sizes_ok (terms : list (TermKey * PostingList)) : Prop :=
  Forall (fun e => in_u 32 (zlen (pbytes e.2)) /\ in_u 32 (zlen (items e.2))) terms.

Lemma fw_push_all_ok terms w done groups out :
  writer_inv w done groups -> (fw_current w = None -> groups = []) ->
  ascending_keys (done ++ placed_metas (zlen out) terms) ->
  zlen (out ++ all_postings terms) < 2 ^ 64 -> sizes_ok terms ->
  exists w' groups', fw_push_all w out terms = Ok (w', out ++ all_postings terms) /\
    writer_inv w' (done ++ placed_metas (zlen out) terms) groups'.
Proof.
  revert w done groups out. induction terms as [|[k pl] terms IH]; intros w done groups out Hi H0 Hs Hl Hz.
  { eexists w, groups. unfold all_postings, placed_metas. simpl. by rewrite !app_nil_r. }
  apply Forall_cons in Hz as [[Hz1 Hz2] Hz]. simpl in Hz1, Hz2.
  unfold all_postings in Hl |- *. rewrite fmap_cons in Hl |- *. cbn [concat snd] in Hl |- *.
  fold (all_postings terms) in Hl |- *. unfold placed_metas in *. simpl place in *. rewrite fmap_cons in *.
  cbn [fst snd] in *. fold (placed_metas (zlen out + zlen (pbytes pl)) terms) in *.
  set (meta := mkTermMeta (zlen out) (zlen (pbytes pl)) (zlen (items pl)) (max_weight pl)) in *.
  rewrite cons_middle, app_assoc in Hs.
  destruct (fw_push_inv w done groups out k pl meta) as (w1 & gs1 & E1 & Hi1 & Hc1); [done|done| | |].
  - by apply ascending_app_inv in Hs as [? _].
  - unfold meta, stream_position, list_len_u32, wrap. rewrite !length_app in Hl.
    f_equal; symmetry; apply Z.mod_small; [lia|done|done].
  - cbn [fw_push_all]. rewrite E1. cbn [io_bind].
    replace (zlen out + zlen (pbytes pl)) with (zlen (out ++ pbytes pl)) in * by (rewrite length_app; lia).
    destruct (IH w1 _ gs1 (out ++ pbytes pl) Hi1) as (w2 & gs2 & E2 & Hi2); [by rewrite Hc1|done| |done|].
    + by rewrite <-app_assoc.
    + rewrite E2, <-app_assoc. eexists _, _. split; [done|]. by rewrite <-app_assoc in Hi2.
Qed.

(** What [finish] returns: one dictionary per field, in ascending order of the fields. *)
Record fields_ok (fields : list (XPathId * TermDict)) (groups : list (XPathId * list (str * TermMeta)))
    (metas : list (TermKey * TermMeta)) : Prop := {
  fo_fields : Forall2 (fun f g => f.1 = g.1 /\ dict_of g.2 f.2) fields groups;
  fo_metas : metas = concat (ungroup <$> groups);
  fo_nonempty : Forall (fun g => g.2 <> []) groups;
  fo_ascending : StronglySorted (fun a b => a.1 < b.1) groups
}.

Lemma write_terms_ok terms out :
  ascending_keys terms -> zlen (out ++ all_postings terms) < 2 ^ 64 -> sizes_ok terms ->
  in_u 32 (zlen terms) ->
  exists w fields groups, fw_push_all FieldWriter_new out terms = Ok (w, out ++ all_postings terms) /\
    fw_finish w = Ok (fields, zlen terms) /\ fields_ok fields groups (placed_metas (zlen out) terms).
Proof.
  intros Hs Hl Hz Hn.
  assert (Hi0 : writer_inv FieldWriter_new [] []) by (constructor; simpl; try done; constructor).
  assert (Hsm : ascending_keys (placed_metas (zlen out) terms)).
  { pose proof (placed_metas_keys (zlen out) terms) as E. revert E.
    generalize (placed_metas (zlen out) terms). clear -Hs.
    induction Hs as [|x l Hs IH Hx]; intros [|y m] E; try done; [constructor|].
    rewrite !fmap_cons in E. apply (inj2 cons) in E as [Exy E]. constructor; [by apply IH|].
    apply Forall_forall. intros z Hz. assert (Hz1 : z.1 ∈ l.*1) by (rewrite <-E; by apply list_elem_of_fmap_2).
    apply list_elem_of_fmap in Hz1 as (u & -> & Hu). rewrite Forall_forall in Hx. rewrite Exy. by apply Hx. }
  destruct (fw_push_all_ok terms _ _ _ out Hi0) as (w & gs & E & Hi); [done..|]. simpl in Hi.
  destruct (close_field_inv w _ gs Hi Hsm) as (w' & gs' & E' & Hi' & Hn' & _).
  eexists w, (fw_fields w'), gs'. split; [done|]. unfold fw_finish. rewrite E'. cbn [io_bind].
  destruct Hi' as [I1 I2 I3 I4 I5 I6]. unfold open_group in *. rewrite Hn', app_nil_r in *. split; [|done].
  do 2 f_equal. rewrite I6. unfold placed_metas. rewrite length_fmap.
  assert (El : length (place (zlen out) terms) = length terms)
    by (rewrite <-(place_keys (zlen out) terms) at 2; by rewrite length_fmap).
  rewrite El. by apply Z.mod_small.
Qed.

(** ** The dictionary that is read back *)

Definition entries_for (x : XPathId) (metas : list (TermKey * TermMeta)) : list (str * TermMeta) :=
  (fun e => (tk_term e.1, e.2)) <$> filter (fun e => tk_xpath e.1 = x) metas.

Lemma filter_ungroup_same x l : filter (fun e => tk_xpath e.1 = x) (ungroup (x, l)) = ungroup (x, l).
Proof. apply filter_all. unfold ungroup. apply Forall_fmap, Forall_true. done. Qed.
Lemma filter_ungroup_ne x g : g.1 <> x -> filter (fun e => tk_xpath e.1 = x) (ungroup g) = [].
Proof.
  intros Hne. apply filter_none. intros e He. unfold ungroup in He.
  apply list_elem_of_fmap in He as (t & -> & _). done.
Qed.

Lemma entries_for_groups x groups :
  StronglySorted (fun a b => a.1 < b.1) groups ->
  entries_for x (concat (ungroup <$> groups))
    = match head (filter (fun g => g.1 = x) groups) with Some g => g.2 | None => [] end.
Proof.
  intros Hs. unfold entries_for. induction Hs as [|g gs Hs IH Hg]; [done|].
  rewrite fmap_cons. cbn [concat]. rewrite !filter_app, fmap_app, filter_cons.
  destruct (decide (g.1 = x)) as [E|E].
  - assert (Hgs : filter (fun g => g.1 = x) gs = []).
    { apply filter_none. intros g' Hg' E'. rewrite Forall_forall in Hg. specialize (Hg g' Hg'). lia. }
    rewrite Hgs in IH. simpl in IH. rewrite IH, app_nil_r. destruct g as [x' l]. simpl in E. subst.
    rewrite filter_ungroup_same. unfold ungroup. rewrite <-list_fmap_compose. simpl.
    rewrite <-(list_fmap_id l) at 2. apply list_fmap_ext. intros i [? ?] _. done.
  - by rewrite filter_ungroup_ne.
Qed.

Lemma fields_NoDup fields groups metas : fields_ok fields groups metas -> NoDup fields.*1.
Proof.
  intros [Hf _ _ Hs]. assert (E : fields.*1 = groups.*1).
  { clear Hs. induction Hf as [|f g fs gs [E _] Hf IH]; [done|]. rewrite !fmap_cons. by rewrite E, IH. }
  rewrite E. clear -Hs. induction Hs as [|g gs Hs IH Hg]; [constructor|]. rewrite fmap_cons. constructor; [|done].
  intros (g' & E & Hg')%list_elem_of_fmap. rewrite Forall_forall in Hg. specialize (Hg g' Hg'). lia.
Qed.

Lemma dictionary_lookup fields groups metas x :
  fields_ok fields groups metas ->
  match (list_to_map fields : gmap Z TermDict) !! x with
  | Some d => dict_of (entries_for x metas) d
  | None => entries_for x metas = []
  end.
Proof.
  intros Hok. pose proof (fields_NoDup _ _ _ Hok) as Hn. destruct Hok as [Hf Hm Hne Hs].
  rewrite Hm, entries_for_groups by done. clear Hm metas.
  induction Hf as [|f g fs gs [E Hd] Hf IH]; [done|]. rewrite fmap_cons in Hn. apply NoDup_cons in Hn as [Hni Hn].
  apply StronglySorted_inv in Hs as [Hs Hg]. apply Forall_cons in Hne as [_ Hne].
  destruct f as [xf df]. simpl in *. rewrite filter_cons.
  destruct (decide (xf = x)) as [->|Hx].
  - rewrite lookup_insert_eq. rewrite decide_True by (by rewrite <-E). done.
  - rewrite lookup_insert_ne by done. rewrite decide_False by (by rewrite <-E). by apply IH.
Qed.

(** ** Footer and sections *)

Definition enc_footer (f : SegmentFooter) : list Z := write_footer [] f.

Lemma write_footer_app out f : write_footer out f = out ++ enc_footer f.
Proof. unfold enc_footer, write_footer, write_u64, write_u32. cbv zeta. by rewrite <-!app_assoc. Qed.

Lemma length_enc_footer f : zlen (enc_footer f) = FOOTER_LEN.
Proof.
  unfold enc_footer, write_footer, write_u64, write_u32. cbv zeta.
  rewrite !length_app, !length_to_le_bytes. done.
Qed.

Lemma slice_at (body l : list Z) k n :
  slice (Z.to_nat (zlen body + Z.of_nat k)) n (body ++ l) = slice k n l.
Proof.
  unfold slice. rewrite <-Nat2Z.inj_add, Nat2Z.id. f_equal. rewrite drop_app_ge by lia. f_equal. lia.
Qed.

Record footer_ok (f : SegmentFooter) : Prop := {
  fk_dl : in_u 64 (doc_lengths_offset f) /\ in_u 64 (doc_lengths_len f);
  fk_di : in_u 64 (dictionary_offset f) /\ in_u 64 (dictionary_len f);
  fk_nf : in_u 64 (numeric_fields_offset f) /\ in_u 64 (numeric_fields_len f);
  fk_ar : in_u 64 (array_row_index_offset f) /\ in_u 64 (array_row_index_len f);
  fk_bf : in_u 64 (bool_fields_offset f) /\ in_u 64 (bool_fields_len f);
  fk_count : in_u 32 (term_count f);
  fk_range : in_u 64 (min_doc_id f) /\ in_u 64 (max_doc_id f)
}.

Lemma read_footer_ok body f : footer_ok f -> read_footer (body ++ enc_footer f) = f.
Proof.
  intros [[] [] [] [] [] ? []]. unfold read_footer. rewrite length_app, Nat2Z.inj_add, length_enc_footer.
  replace (zlen body + FOOTER_LEN - FOOTER_LEN) with (zlen body + Z.of_nat 0) by lia.
  rewrite <-!Z.add_assoc. unfold read_u64_at, read_u32_at.
  change (Z.of_nat 0 + 8) with (Z.of_nat 8). change (Z.of_nat 0 + 16) with (Z.of_nat 16).
  change (Z.of_nat 0 + 24) with (Z.of_nat 24). change (Z.of_nat 0 + 32) with (Z.of_nat 32).
  change (Z.of_nat 0 + 40) with (Z.of_nat 40). change (Z.of_nat 0 + 48) with (Z.of_nat 48).
  change (Z.of_nat 0 + 52) with (Z.of_nat 52). change (Z.of_nat 0 + 60) with (Z.of_nat 60).
  change (Z.of_nat 0 + 68) with (Z.of_nat 68). change (Z.of_nat 0 + 76) with (Z.of_nat 76).
  change (Z.of_nat 0 + 84) with (Z.of_nat 84). change (Z.of_nat 0 + 92) with (Z.of_nat 92).
  rewrite !slice_at. unfold enc_footer, write_footer, write_u64, write_u32. cbv zeta. rewrite !app_nil_l.
  destruct f as [a1 a2 a3 a4 a5 a6 a7 a8 a9 a10 a11 a12 a13]; cbn [doc_lengths_offset doc_lengths_len dictionary_offset dictionary_len numeric_fields_offset
    numeric_fields_len array_row_index_offset array_row_index_len term_count min_doc_id max_doc_id
    bool_fields_offset bool_fields_len] in *.
  f_equal; (etrans; [apply f_equal; reflexivity|]).
  1-8: by apply (from_to_le_bytes_id 8).
  1: by apply (from_to_le_bytes_id 4).
  all: by apply (from_to_le_bytes_id 8).
Qed.

Lemma section_ok pre enc post limit o1 o2 start len :
  start = zlen pre -> len = zlen enc -> zlen pre + zlen enc <= limit -> zlen pre + zlen enc < 2 ^ 64 ->
  section (pre ++ enc ++ post) start len limit o1 o2 = Ok enc.
Proof.
  intros -> -> Hl Hb. unfold section, checked_add. destruct (Z.ltb_spec (zlen pre + zlen enc) (2 ^ 64)); [|lia].
  cbn [io_of_option io_bind]. destruct (Z.ltb_spec limit (zlen pre + zlen enc)); [lia|].
  rewrite !Nat2Z.id. by rewrite slice_app_mid.
Qed.

(** ** The whole file *)

Lemma fold_fields (fields : list (XPathId * TermDict)) (ns : list Z) :
  length fields = length ns -> NoDup fields.*1 ->
  fold_left (fun d f => dictionary_insert_field d f.1.1 f.1.2) (zip fields ns) ∅
    = (list_to_map fields : gmap Z TermDict).
Proof.
  intros Hl Hn. rewrite <-(map_union_empty (list_to_map fields)), <-fold_insert_union by done.
  generalize (∅ : gmap Z TermDict). revert ns Hl. induction fields as [|f fields IH]; intros [|n ns] Hl m; try done.
  simpl. apply IH; [|by injection Hl]. by apply NoDup_cons in Hn as [_ ?].
Qed.

Lemma sum_fields (fields : list (XPathId * TermDict)) (groups : list (list (str * TermMeta))) :
  length fields = length groups ->
  foldr (fun f n => f.2 + n) 0 (zip fields ((fun g => zlen g) <$> groups)) = foldr (fun g n => zlen g + n) 0 groups.
Proof.
  revert groups. induction fields as [|f fields IH]; intros [|g groups] Hl; try done.
  rewrite fmap_cons. simpl. rewrite IH; [done|by injection Hl].
Qed.

Definition header_bytes : list Z := write_header [].

(** The body of the file, section by section, and its footer. *)
Section layout.
Context (P DL DI NF AR BF : list Z) (count lo hi : Z).
Definition b1 : list Z := header_bytes ++ P.
Definition b2 : list Z := b1 ++ DL.
Definition b3 : list Z := b2 ++ DI.
Definition b4 : list Z := b3 ++ NF.
Definition b5 : list Z := b4 ++ AR.
Definition b6 : list Z := b5 ++ BF.
Definition file_footer : SegmentFooter :=
  mkFooter (zlen b1) (zlen DL) (zlen b2) (zlen DI) (zlen b3) (zlen NF) (zlen b4) (zlen AR)
    count lo hi (zlen b5) (zlen BF).
Definition file_bytes : list Z := b6 ++ enc_footer file_footer.

Lemma zlen_b6 : zlen b6 = 12 + zlen P + zlen DL + zlen DI + zlen NF + zlen AR + zlen BF.
Proof. unfold b6, b5, b4, b3, b2, b1. rewrite !length_app. change (length header_bytes) with 12%nat. lia. Qed.

Lemma zlen_file : zlen file_bytes = zlen b6 + FOOTER_LEN.
Proof. unfold file_bytes. rewrite length_app, Nat2Z.inj_add. by rewrite length_enc_footer. Qed.

Context (Hfits : zlen file_bytes < 2 ^ 64) (Hcount : in_u 32 count) (Hlo : in_u 64 lo) (Hhi : in_u 64 hi).

Lemma file_footer_ok : footer_ok file_footer.
Proof.
  pose proof zlen_file as Hf. pose proof zlen_b6 as H6.
  assert (FOOTER_LEN = 100) by done.
  assert (zlen b1 = 12 + zlen P) by (unfold b1; rewrite length_app; change (length header_bytes) with 12%nat; lia).
  assert (zlen b2 = zlen b1 + zlen DL) by (unfold b2; rewrite length_app; lia).
  assert (zlen b3 = zlen b2 + zlen DI) by (unfold b3; rewrite length_app; lia).
  assert (zlen b4 = zlen b3 + zlen NF) by (unfold b4; rewrite length_app; lia).
  assert (zlen b5 = zlen b4 + zlen AR) by (unfold b5; rewrite length_app; lia).
  constructor; unfold in_u in *; cbn [file_footer doc_lengths_offset doc_lengths_len dictionary_offset
    dictionary_len numeric_fields_offset numeric_fields_len array_row_index_offset array_row_index_len
    term_count min_doc_id max_doc_id bool_fields_offset bool_fields_len]; lia.
Qed.

Lemma file_read_footer : read_footer file_bytes = file_footer.
Proof. apply read_footer_ok, file_footer_ok. Qed.

Lemma file_header_ok : validate_header file_bytes = Ok tt.
Proof.
  unfold validate_header. rewrite zlen_file, zlen_b6.
  destruct (Z.ltb_spec (12 + zlen P + zlen DL + zlen DI + zlen NF + zlen AR + zlen BF + FOOTER_LEN) (12 + FOOTER_LEN)); [lia|].
  assert (E : exists rest, file_bytes = header_bytes ++ rest).
  { unfold file_bytes, b6, b5, b4, b3, b2, b1. rewrite <-!app_assoc. eauto. }
  destruct E as [rest ->]. done.
Qed.

Lemma file_validate :
  (count = 0 -> zlen DI = 4) -> validate_footer file_bytes file_footer = Ok tt.
Proof.
  intros Hempty. pose proof zlen_file as Hf. pose proof zlen_b6 as H6. assert (FOOTER_LEN = 100) by done.
  assert (zlen b1 = 12 + zlen P) by (unfold b1; rewrite length_app; change (length header_bytes) with 12%nat; lia).
  assert (zlen b2 = zlen b1 + zlen DL) by (unfold b2; rewrite length_app; lia).
  assert (zlen b3 = zlen b2 + zlen DI) by (unfold b3; rewrite length_app; lia).
  assert (zlen b4 = zlen b3 + zlen NF) by (unfold b4; rewrite length_app; lia).
  assert (zlen b5 = zlen b4 + zlen AR) by (unfold b5; rewrite length_app; lia).
  unfold validate_footer, checked_add.
  change (dictionary_offset file_footer) with (zlen b2). change (dictionary_len file_footer) with (zlen DI).
  change (numeric_fields_offset file_footer) with (zlen b3). change (numeric_fields_len file_footer) with (zlen NF).
  change (bool_fields_offset file_footer) with (zlen b5). change (bool_fields_len file_footer) with (zlen BF).
  change (array_row_index_offset file_footer) with (zlen b4). change (array_row_index_len file_footer) with (zlen AR).
  change (term_count file_footer) with count. change HEADER_LEN with 12.
  repeat match goal with
  | |- context [?a <? ?b] => (destruct (Z.ltb_spec a b); [lia|]) || (destruct (Z.ltb_spec a b); [|lia])
  | |- context [io_bind (Ok _) _] => cbn [io_bind]
  | |- context [io_of_option _ _] => cbn [io_of_option io_bind]
  end.
  destruct (Z.eqb_spec count 0) as [E|E]; [|done]. rewrite Hempty by done. done.
Qed.

Lemma section_of pre enc post start len o1 o2 (limit : Z) :
  file_bytes = pre ++ enc ++ post -> start = zlen pre -> len = zlen enc ->
  zlen pre + zlen enc <= limit -> limit <= zlen file_bytes ->
  section file_bytes start len limit o1 o2 = Ok enc.
Proof. intros E -> -> H1 H2. rewrite E. apply section_ok; try done. lia. Qed.

(** Opening reads every section from where it was written. *)
Lemma open_file entries fields (groups : list (list (str * TermMeta))) nfs bfs rows :
  (count = 0 -> zlen DI = 4) ->
  reads rd_doc_lengths DL entries ->
  reads (rd_dictionary (zlen DI)) DI (zip fields ((fun g => zlen g) <$> groups)) ->
  length fields = length groups -> NoDup fields.*1 -> foldr (fun g n => zlen g + n) 0 groups = count ->
  reads rd_numeric_fields NF (btree_iter nfs) ->
  reads rd_bool_fields BF (btree_iter bfs) ->
  reads rd_array_rows AR rows ->
  open_segment file_bytes = Ok (mkDisk file_bytes (list_to_map fields) (from_entries entries)
    (build_field_stats (dl_iter (from_entries entries))) nfs bfs
    (if (count =? 0) && bool_decide (nfs = ∅) then None else Some (lo, hi)) rows).
Proof.
  intros Hempty Hdl Hdi Hlen Hnd Hsum Hnf Hbf Har.
  pose proof zlen_file as Hf. pose proof zlen_b6 as H6. assert (HF : FOOTER_LEN = 100) by done.
  unfold open_segment. rewrite file_header_ok. cbn [io_bind]. rewrite file_read_footer.
  rewrite file_validate by done. cbn [io_bind].
  assert (HDL : section file_bytes (zlen b1) (zlen DL) (zlen file_bytes - FOOTER_LEN)
    "doc lengths offset overflow" "doc lengths outside segment bounds" = Ok DL).
  { apply (section_of b1 DL (DI ++ NF ++ AR ++ BF ++ enc_footer file_footer)); try done; try lia.
    - unfold file_bytes, b6, b5, b4, b3, b2. by rewrite <-!app_assoc.
    - unfold b6, b5, b4, b3, b2 in *. rewrite !length_app in *. lia. }
  assert (HDI : section file_bytes (zlen b2) (zlen DI) (zlen file_bytes - FOOTER_LEN)
    "dictionary offset overflow" "dictionary outside segment bounds" = Ok DI).
  { apply (section_of b2 DI (NF ++ AR ++ BF ++ enc_footer file_footer)); try done; try lia.
    - unfold file_bytes, b6, b5, b4, b3. by rewrite <-!app_assoc.
    - unfold b6, b5, b4, b3 in *. rewrite !length_app in *. lia. }
  assert (HNF : section file_bytes (zlen b3) (zlen NF) (zlen file_bytes - FOOTER_LEN)
    "numeric fields offset overflow" "numeric fields outside segment bounds" = Ok NF).
  { apply (section_of b3 NF (AR ++ BF ++ enc_footer file_footer)); try done; try lia.
    - unfold file_bytes, b6, b5, b4. by rewrite <-!app_assoc.
    - unfold b6, b5, b4 in *. rewrite !length_app in *. lia. }
  assert (HAR : section file_bytes (zlen b4) (zlen AR) (zlen file_bytes)
    "array row index offset overflow" "array row index outside segment bounds" = Ok AR).
  { apply (section_of b4 AR (BF ++ enc_footer file_footer)); try done; try lia.
    - unfold file_bytes, b6, b5. by rewrite <-!app_assoc.
    - unfold b6, b5 in *. rewrite !length_app in *. lia. }
  assert (HBF : section file_bytes (zlen b5) (zlen BF) (zlen file_bytes - FOOTER_LEN)
    "bool fields offset overflow" "bool fields outside segment bounds" = Ok BF).
  { apply (section_of b5 BF (enc_footer file_footer)); try done; try lia.
    - unfold file_bytes, b6. by rewrite <-!app_assoc.
    - unfold b6 in *. rewrite !length_app in *. lia. }
  unfold read_doc_lengths. cbn [file_footer doc_lengths_offset doc_lengths_len]. rewrite HDL. cbn [io_bind].
  rewrite (reads_run _ DL _ ltac:(lia) Hdl). cbn [io_bind].
  unfold read_term_dictionary. cbn [file_footer dictionary_offset dictionary_len term_count]. rewrite HDI. cbn [io_bind].
  rewrite (reads_run _ DI _ ltac:(lia) Hdi). cbn [io_bind].
  rewrite fold_fields, sum_fields, Hsum, Z.eqb_refl by (rewrite ?length_fmap; done). cbn [negb io_bind].
  unfold read_numeric_fields. cbn [file_footer numeric_fields_offset numeric_fields_len]. rewrite HNF. cbn [io_bind].
  rewrite (reads_run _ NF _ ltac:(lia) Hnf). cbn [io_bind]. unfold nfs_insert_field. rewrite fold_insert_btree.
  unfold read_bool_points. cbn [file_footer bool_fields_offset bool_fields_len]. rewrite HBF. cbn [io_bind].
  rewrite (reads_run _ BF _ ltac:(lia) Hbf). cbn [io_bind]. rewrite fold_insert_btree.
  unfold read_array_row_index. cbn [file_footer array_row_index_offset array_row_index_len]. rewrite HAR. cbn [io_bind].
  rewrite (reads_run _ AR _ ltac:(lia) Har). done.
Qed.
End layout.

End roundtrip.
