(* ===== verification/SegmentDisk.v ===== *)
(** * An opened segment answers as the segment that was written

    The refinement theorem of the segment file ([disk/writer.rs], [disk/reader.rs]): writing a
    segment succeeds, opening the file succeeds, and every lookup of the opened segment gives
    what the in-memory segment gives. *)
From Stdlib Require Import ZArith Lia.
From stdpp Require Import base numbers list gmap sorting sets strings.
From S2P Require Import Prelude Types Posting Codec Numeric ArrayRows Wildcard Btree Segment TermDict DocLengths SegmentFile SegmentRead SegmentRoundtrip.
Local Open Scope io_scope.
Local Open Scope Z_scope.

Section disk.
Context {FL : FstLib} {FLaws : FstLaws} {RL : RoaringLib} {RLaws : RoaringLaws}.

(** ** Segments that fit the format *)

Record term_ok (k : TermKey) (l : PostingList) : Prop := {
  to_xpath : in_u 32 (tk_xpath k);
  to_postings : Forall posting_in_range (items l);
  to_count : in_u 32 (zlen (items l));
  to_bytes : in_u 32 (zlen (encode_posting_list [] l));
  to_weight : in_u 16 (max_weight l)
}.

(** Machine ranges, counts within 32 bits, statistics and range as [ImmutableSegment::new]
    makes them, numeric fields as [NumericPoints::build] makes them. *)
Record segment_ok (s : ImmutableSegment) : Prop := {
  so_terms : forall k l, seg_terms s !! k = Some l -> term_ok k l;
  so_term_count : in_u 32 (Z.of_nat (size (seg_terms s)));
  so_postings : 12 + zlen (all_postings (btree_iter (seg_terms s))) < 2 ^ 64;
  so_lengths : forall k len, seg_doc_lengths s !! k = Some len ->
    in_u 32 k.2 /\ entry_ok (k.1, len);
  so_length_count : in_u 32 (Z.of_nat (size (seg_doc_lengths s)));
  so_numeric : forall x f, seg_numeric_fields s !! x = Some f -> in_u 32 x /\ numeric_field_ok f;
  so_numeric_count : in_u 32 (Z.of_nat (size (seg_numeric_fields s)));
  so_bool : forall x f, seg_bool_fields s !! x = Some f -> in_u 32 x;
  so_bool_count : in_u 32 (Z.of_nat (size (seg_bool_fields s)));
  so_rows : rows_in_range (seg_array_row_index s);
  so_stats : seg_field_stats s = build_field_stats (btree_iter (seg_doc_lengths s));
  so_range : let r := default (0, 0) (seg_doc_id_range s) in in_u 64 r.1 /\ in_u 64 r.2;
  so_fits : forall bytes, write_segment_to [] s = Ok bytes -> zlen bytes < 2 ^ 64
}.

(** [ds] was opened from the file of [s]: its parts, and where its dictionary points. *)
Record opened_from (s : ImmutableSegment) (ds : DiskSegment) : Prop := {
  of_file : exists post, ds_bytes ds = header_bytes ++ all_postings (btree_iter (seg_terms s)) ++ post;
  of_fits : zlen (ds_bytes ds) < 2 ^ 64;
  of_dict : forall x, match ds_dictionary ds !! x with
    | Some d => dict_of (entries_for x (placed_metas 12 (btree_iter (seg_terms s)))) d
    | None => entries_for x (placed_metas 12 (btree_iter (seg_terms s))) = []
    end;
  of_lengths : ds_doc_lengths ds = from_entries (btree_iter (seg_doc_lengths s));
  of_stats : ds_field_stats ds = seg_field_stats s;
  of_numeric : ds_numeric_fields ds = seg_numeric_fields s;
  of_bool : ds_bool_fields ds = seg_bool_fields s;
  of_rows : ds_array_row_index ds = seg_array_row_index s;
  of_range : ds_doc_id_range ds =
    if bool_decide (seg_terms s = ∅) && bool_decide (seg_numeric_fields s = ∅) then None
    else Some (default (0, 0) (seg_doc_id_range s))
}.

(** ** Writing and opening *)

Lemma lengths_ok_btree (m : gmap (Z * Z) Z) :
  (forall k len, m !! k = Some len -> in_u 32 k.2 /\ entry_ok (k.1, len)) -> lengths_ok (btree_iter m).
Proof.
  intros Hm. split; [apply ascending_NoDup, btree_iter_ascending|].
  apply Forall_forall. intros [k len] Hin. apply elem_of_btree_iter in Hin. by apply Hm.
Qed.

Lemma stream_position_fits out : zlen out < 2 ^ 64 -> stream_position out = zlen out.
Proof. intros Hf. apply Z.mod_small. lia. Qed.

Lemma write_sections_file terms dl nf range rows bf w fields count :
  let r := default (0, 0) range in
  let F := file_bytes (all_postings terms) (enc_doc_lengths dl) (enc_dictionary fields)
    (enc_numeric_fields nf) (enc_rows rows) (enc_bool_fields bf) count r.1 r.2 in
  fw_push_all FieldWriter_new header_bytes terms = Ok (w, header_bytes ++ all_postings terms) ->
  fw_finish w = Ok (fields, count) ->
  exists bytes, write_sections [] terms dl nf range rows bf = Ok bytes /\ zlen bytes = zlen F /\
    (zlen bytes < 2 ^ 64 -> bytes = F).
Proof.
  intros r F Hp Hf. unfold write_sections. fold header_bytes. rewrite Hp. cbn [io_bind]. rewrite Hf. cbn [io_bind].
  rewrite write_doc_lengths_app, write_dictionary_app, write_numeric_fields_app, write_rows_app,
    write_bool_fields_app, write_footer_app.
  set (DL := enc_doc_lengths dl) in *. set (DI := enc_dictionary fields) in *.
  set (NF := enc_numeric_fields nf) in *. set (AR := enc_rows rows) in *. set (BF := enc_bool_fields bf) in *.
  set (P := all_postings terms) in *. fold (b1 P). fold (b2 P DL). fold (b3 P DL DI). fold (b4 P DL DI NF).
  fold (b5 P DL DI NF AR). fold (b6 P DL DI NF AR BF). fold r.
  eexists. split; [done|]. unfold F. rewrite zlen_file, length_app, Nat2Z.inj_add, length_enc_footer.
  split; [done|]. intros Hfit. assert (FOOTER_LEN = 100) by done. unfold file_bytes, file_footer.
  pose proof (length_app (b5 P DL DI NF AR) BF) as L6. fold (b6 P DL DI NF AR BF) in L6.
  pose proof (length_app (b4 P DL DI NF) AR) as L5. fold (b5 P DL DI NF AR) in L5.
  pose proof (length_app (b3 P DL DI) NF) as L4. fold (b4 P DL DI NF) in L4.
  pose proof (length_app (b2 P DL) DI) as L3. fold (b3 P DL DI) in L3.
  pose proof (length_app (b1 P) DL) as L2. fold (b2 P DL) in L2.
  rewrite !stream_position_fits by lia. do 2 f_equal. f_equal; lia.
Qed.

Lemma groups_total (groups : list (XPathId * list (str * TermMeta))) :
  foldr (fun g n => zlen g + n) 0 (groups.*2) = zlen (concat (ungroup <$> groups)).
Proof.
  induction groups as [|g gs IH]; [done|]. rewrite !fmap_cons. simpl. rewrite IH, length_app.
  unfold ungroup. rewrite length_fmap. lia.
Qed.

Lemma Forall2_impl_in {A B} (P Q : A -> B -> Prop) l k :
  Forall2 P l k -> (forall x y, x ∈ l -> y ∈ k -> P x y -> Q x y) -> Forall2 Q l k.
Proof.
  induction 1 as [|x y l k Hxy Hlk IH]; intros Hi; constructor.
  - apply Hi; [left|left|done].
  - apply IH. intros. apply Hi; [by right|by right|done].
Qed.

(** The metadata of a closed group points at one of the terms. *)
Lemma group_member terms (groups : list (XPathId * list (str * TermMeta))) g t m :
  placed_metas 12 terms = concat (ungroup <$> groups) -> g ∈ groups -> (t, m) ∈ g.2 ->
  exists pl, (TermKey_new t g.1, pl) ∈ terms /\ (TermKey_new t g.1, (pl, m)) ∈ place 12 terms.
Proof.
  intros Hm Hg Ht. assert (Hin : (TermKey_new t g.1, m) ∈ placed_metas 12 terms).
  { rewrite Hm. apply elem_of_concat. exists (ungroup g). split; [|by apply list_elem_of_fmap_2].
    unfold ungroup. apply list_elem_of_fmap. by exists (t, m). }
  unfold placed_metas in Hin. apply list_elem_of_fmap in Hin as ([k [pl m']] & E & Hp).
  simpl in E. injection E as <- ->. exists pl. split; [|done].
  rewrite <-(place_keys 12 terms). by apply (list_elem_of_fmap_2 (fun e => (e.1, e.2.1)) _ (TermKey_new t g.1, (pl, m'))).
Qed.

Lemma dict_fields_ok (m : gmap TermKey PostingList) fields groups :
  let terms := btree_iter m in
  (forall k l, m !! k = Some l -> term_ok k l) -> in_u 32 (zlen terms) ->
  12 + zlen (all_postings terms) < 2 ^ 64 -> zlen (enc_dictionary fields) < 2 ^ 64 ->
  fields_ok fields groups (placed_metas 12 terms) -> Forall2 dict_field_ok fields groups.*2.
Proof.
  intros terms Ht Hn Hp Hd [Hf Hm Hne _]. apply Forall2_fmap_r.
  apply (Forall2_impl_in _ _ _ _ Hf). intros f g Hfin Hgin [Ex Hdict]. simpl.
  rewrite Forall_forall in Hne.
  assert (Hmem : forall t m0, (t, m0) ∈ g.2 -> exists pl, term_ok (TermKey_new t g.1) pl /\
    (TermKey_new t g.1, (pl, m0)) ∈ place 12 terms).
  { intros t m0 Hin. destruct (group_member terms groups g t m0 Hm Hgin Hin) as (pl & Hpl & Hpp).
    exists pl. split; [|done]. apply Ht. by apply elem_of_btree_iter. }
  split; [|split; [done|split; [|split]]].
  - rewrite Ex. specialize (Hne g Hgin). destruct (g.2) as [|[t m0] l]; [done|].
    destruct (Hmem t m0 ltac:(left)) as (pl & [Hx _ _ _ _] & _). done.
  - assert ((length (g.2) <= length (placed_metas 12 terms))%nat).
    { rewrite Hm. pose proof (concat_length_ge ungroup groups g Hgin) as Hle.
      unfold ungroup in Hle at 1. by rewrite length_fmap in Hle. }
    assert (El : length (placed_metas 12 terms) = length terms).
    { pose proof (f_equal length (placed_metas_keys 12 terms)) as E. by rewrite !length_fmap in E. }
    unfold in_u in *. lia.
  - apply Forall_forall. intros [t m0] Hin. destruct (Hmem t m0 Hin) as (pl & [Hx Hps Hc Hb Hw] & Hpp).
    destruct (place_slice header_bytes terms [] _ _ _ Hpp) as (_ & E1 & E2 & E3 & E4 & E5).
    rewrite length_app in E5. change (length header_bytes) with 12%nat in E5.
    unfold meta_ok. simpl. rewrite E1, E2, E4. repeat split; try apply Hc; try apply Hb; try apply Hw; lia.
  - assert (Hle : (length (enc_dict_field f) <= length (concat (enc_dict_field <$> fields)))%nat)
      by (by apply concat_length_ge).
    unfold enc_dictionary in Hd. rewrite length_app in Hd. unfold enc_dict_field in Hle at 1.
    rewrite !length_app in Hle. unfold in_u. lia.
Qed.

Lemma write_open_ok s :
  segment_ok s ->
  exists bytes ds, write_segment_to [] s = Ok bytes /\ open_segment bytes = Ok ds /\ opened_from s ds.
Proof.
  intros Hs. set (terms := btree_iter (seg_terms s)).
  assert (Hsz : sizes_ok terms).
  { apply Forall_forall. intros [k l] Hin. apply elem_of_btree_iter in Hin.
    destruct (so_terms s Hs k l Hin). done. }
  assert (Hn : zlen terms = Z.of_nat (size (seg_terms s))) by (unfold terms; by rewrite length_btree_iter).
  destruct (write_terms_ok terms header_bytes) as (w & fields & groups & Hp & Hf & Hok);
    [apply btree_iter_ascending|rewrite length_app; pose proof (so_postings s Hs); unfold terms;
      change (length header_bytes) with 12%nat; lia|done|rewrite Hn; apply Hs|].
  change (zlen header_bytes) with 12 in Hok.
  destruct (write_sections_file terms (seg_doc_lengths s) (seg_numeric_fields s) (seg_doc_id_range s)
    (seg_array_row_index s) (seg_bool_fields s) w fields (zlen terms) Hp Hf) as (bytes & Hw & Hlen & Hb).
  pose proof (so_fits s Hs bytes Hw) as Hfit. specialize (Hb Hfit). rewrite Hlen in Hfit. subst bytes.
  set (r := default (0, 0) (seg_doc_id_range s)) in *.
  pose proof (zlen_file (all_postings terms) (enc_doc_lengths (seg_doc_lengths s)) (enc_dictionary fields)
    (enc_numeric_fields (seg_numeric_fields s)) (enc_rows (seg_array_row_index s))
    (enc_bool_fields (seg_bool_fields s)) (zlen terms) r.1 r.2) as Hzf.
  rewrite zlen_b6 in Hzf. assert (HF : FOOTER_LEN = 100) by done.
  pose proof (so_range s Hs) as Hr. fold r in Hr.
  assert (HDI : zlen (enc_dictionary fields) < 2 ^ 64) by lia.
  assert (Hdf : Forall2 dict_field_ok fields groups.*2).
  { apply (dict_fields_ok (seg_terms s)); [apply Hs| |apply Hs|done|done].
    fold terms. rewrite Hn. apply Hs. }
  assert (Hfl : length fields = length (groups.*2)) by (by apply Forall2_length in Hdf).
  assert (Hgl : (length (groups.*2) <= length terms)%nat).
  { assert (El : length (placed_metas 12 terms) = length terms).
    { pose proof (f_equal length (placed_metas_keys 12 terms)) as E. by rewrite !length_fmap in E. }
    rewrite <-El, (fo_metas _ _ _ Hok), length_fmap. pose proof (fo_nonempty _ _ _ Hok) as Hne. clear -Hne.
    induction Hne as [|g gs Hg Hne IH]; [done|]. rewrite fmap_cons. cbn [concat length]. rewrite length_app.
    unfold ungroup at 1. rewrite length_fmap. destruct (g.2); [done|]. simpl. lia. }
  assert (Hsum : foldr (fun g n => zlen g + n) 0 groups.*2 = zlen terms).
  { rewrite groups_total, <-(fo_metas _ _ _ Hok).
    pose proof (f_equal length (placed_metas_keys 12 terms)) as E. rewrite !length_fmap in E. by rewrite E. }
  assert (Hcnt : in_u 32 (zlen terms)) by (rewrite Hn; apply Hs).
  exists (file_bytes (all_postings terms) (enc_doc_lengths (seg_doc_lengths s)) (enc_dictionary fields)
    (enc_numeric_fields (seg_numeric_fields s)) (enc_rows (seg_array_row_index s))
    (enc_bool_fields (seg_bool_fields s)) (zlen terms) r.1 r.2).
  eexists. split; [exact Hw|]. split.
  - apply (open_file (all_postings terms) (enc_doc_lengths (seg_doc_lengths s)) (enc_dictionary fields)
      (enc_numeric_fields (seg_numeric_fields s)) (enc_rows (seg_array_row_index s))
      (enc_bool_fields (seg_bool_fields s)) (zlen terms) r.1 r.2 Hfit Hcnt (proj1 Hr) (proj2 Hr)
      (btree_iter (seg_doc_lengths s)) fields (groups.*2) (seg_numeric_fields s) (seg_bool_fields s)
      (seg_array_row_index s)).
    + intros E. assert (fields = []) as ->; [|done]. apply nil_length_inv. lia.
    + apply reads_doc_lengths; [apply Hs|]. intros [d x] len Hl. destruct (so_lengths s Hs _ _ Hl) as [H1 [H2 H3]].
      unfold NO_LENGTH, u_max in H3. repeat split; simpl in *; unfold in_u in *; lia.
    + apply reads_dictionary; [done| |done]. unfold in_u in *. lia.
    + done.
    + by eapply fields_NoDup.
    + done.
    + apply reads_numeric_fields; apply Hs.
    + apply reads_bool_fields; [apply Hs|]. intros x f Hxf. split; [by eapply (so_bool s Hs)|].
      assert (Hle : (length (enc_bool_field (x, f)) <= length (concat (enc_bool_field <$> btree_iter (seg_bool_fields s))))%nat)
        by (apply concat_length_ge; by apply elem_of_btree_iter).
      unfold enc_bool_field in Hle at 1. cbv zeta in Hle. rewrite !length_app in Hle. cbn [fst snd] in Hle.
      rewrite Hzf in Hfit. unfold enc_bool_fields in Hfit. rewrite length_app in Hfit. unfold bool_sizes_ok, in_u. lia.
    + apply reads_rows. apply Hs.
  - constructor; cbn [ds_bytes ds_dictionary ds_doc_lengths ds_field_stats ds_numeric_fields ds_bool_fields
      ds_doc_id_range ds_array_row_index]; try done.
    + unfold file_bytes, b6, b5, b4, b3, b2, b1. rewrite <-!app_assoc. eauto.
    + intros x. by eapply dictionary_lookup.
    + rewrite (so_stats s Hs). apply build_field_stats_perm, dl_iter_perm, lengths_ok_btree, Hs.
    + unfold r. destruct (default (0, 0) (seg_doc_id_range s)) as [lo hi]. simpl.
      assert (E : (zlen terms =? 0) = bool_decide (seg_terms s = ∅)).
      { rewrite Hn. case_bool_decide as Et.
        - rewrite Et. by rewrite map_size_empty.
        - apply Z.eqb_neq. intros E. apply Et, map_size_empty_inv. lia. }
      by rewrite E.
Qed.
(** ** Lookups *)

Section lookups.
Context (s : ImmutableSegment) (ds : DiskSegment) (Hs : segment_ok s) (Ho : opened_from s ds).

Definition placed : list (TermKey * (PostingList * TermMeta)) := place 12 (btree_iter (seg_terms s)).

(** Every placed term is read back. *)
Lemma placed_read k pl meta :
  (k, (pl, meta)) ∈ placed ->
  meta_range ds meta = Some (encode_posting_list [] pl) /\ Forall posting_in_range (items pl) /\
  tm_doc_freq meta = zlen (items pl) /\ tm_max_weight meta = max_weight pl.
Proof.
  intros Hin. destruct (of_file s ds Ho) as [post E].
  destruct (place_slice header_bytes (btree_iter (seg_terms s)) post _ _ _ Hin) as (E0 & E1 & E2 & E3 & E4 & E5).
  assert (Hpl : seg_terms s !! k = Some pl).
  { apply elem_of_btree_iter. rewrite <-(place_keys 12 (btree_iter (seg_terms s))).
    by apply (list_elem_of_fmap_2 (fun e => (e.1, e.2.1)) _ (k, (pl, meta))). }
  split; [|split; [by apply (so_terms s Hs k)|done]].
  pose proof (of_fits s ds Ho) as Hfit. rewrite E in Hfit. rewrite !length_app in E5. rewrite !length_app in Hfit.
  unfold meta_range, checked_add. destruct (Z.ltb_spec (postings_offset meta + postings_len meta) (2 ^ 64)); [|lia].
  rewrite E. destruct (Z.ltb_spec (zlen (header_bytes ++ all_postings (btree_iter (seg_terms s)) ++ post))
    (postings_offset meta + postings_len meta)) as [Hlt|_]; [rewrite !length_app in Hlt; lia|]. by rewrite E0.
Qed.

Lemma placed_postings k pl meta : (k, (pl, meta)) ∈ placed -> read_postings ds meta = pl.
Proof.
  intros Hin. destruct (placed_read k pl meta Hin) as (E1 & Hr & E2 & E3). unfold read_postings.
  rewrite E1, E2, E3. rewrite <-(app_nil_r (encode_posting_list [] pl)). by rewrite read_list_encoded.
Qed.

Lemma placed_postings_into k pl meta out :
  (k, (pl, meta)) ∈ placed -> read_postings_into ds meta out = out ++ items pl.
Proof.
  intros Hin. destruct (placed_read k pl meta Hin) as (E1 & Hr & E2 & _). unfold read_postings_into.
  rewrite E1, E2. rewrite <-(app_nil_r (encode_posting_list [] pl)). by rewrite read_into_encoded.
Qed.

Lemma placed_of_term k pl : seg_terms s !! k = Some pl -> exists meta, (k, (pl, meta)) ∈ placed.
Proof.
  intros Hk. apply elem_of_btree_iter in Hk. rewrite <-(place_keys 12 (btree_iter (seg_terms s))) in Hk.
  apply list_elem_of_fmap in Hk as ([k' [pl' meta]] & E & Hin). simpl in E. injection E as -> ->. eauto.
Qed.

Lemma entries_for_elem x t meta :
  (t, meta) ∈ entries_for x (placed_metas 12 (btree_iter (seg_terms s))) <->
  exists pl, (TermKey_new t x, (pl, meta)) ∈ placed.
Proof.
  unfold entries_for, placed_metas. fold placed. rewrite list_elem_of_fmap. split.
  - intros ([[x' t'] m'] & E & [Hx Hin]%list_elem_of_filter). simpl in *. injection E as -> ->. subst.
    apply list_elem_of_fmap in Hin as ([k [pl m]] & E & Hin). simpl in E. injection E as <- <-. by exists pl.
  - intros [pl Hin]. exists (TermKey_new t x, meta). split; [done|]. apply list_elem_of_filter. split; [done|].
    by apply (list_elem_of_fmap_2 (fun e => (e.1, e.2.2)) _ (TermKey_new t x, (pl, meta))).
Qed.

Lemma entries_for_ascending x : ascending_keys (entries_for x (placed_metas 12 (btree_iter (seg_terms s)))).
Proof.
  unfold entries_for.
  assert (Hs' : ascending_keys (placed_metas 12 (btree_iter (seg_terms s)))).
  { pose proof (placed_metas_keys 12 (btree_iter (seg_terms s))) as E. revert E.
    generalize (placed_metas 12 (btree_iter (seg_terms s))). pose proof (btree_iter_ascending (seg_terms s)) as Hb.
    induction Hb as [|e l Hb IH He]; intros [|y m] E; try done; [constructor|].
    rewrite !fmap_cons in E. apply (inj2 cons) in E as [Exy E]. constructor; [by apply IH|].
    apply Forall_forall. intros z Hz. assert (Hz1 : z.1 ∈ l.*1) by (rewrite <-E; by apply list_elem_of_fmap_2).
    apply list_elem_of_fmap in Hz1 as (u & -> & Hu). rewrite Forall_forall in He. rewrite Exy. by apply He. }
  pose proof (filter_ascending_keys (fun e => tk_xpath e.1 = x) _ Hs') as Hf.
  assert (Hx : forall e, e ∈ filter (fun e => tk_xpath e.1 = x) (placed_metas 12 (btree_iter (seg_terms s))) ->
    tk_xpath e.1 = x) by (intros e He; by apply list_elem_of_filter in He as [? _]).
  induction Hf as [|e l Hf IH He]; [constructor|]. rewrite fmap_cons. constructor.
  - apply IH. intros y Hy. apply Hx. by right.
  - apply Forall_forall. intros y (z & -> & Hz)%list_elem_of_fmap. simpl. apply TermKey_clt_same.
    + rewrite !Hx; [done|by right|left].
    + rewrite Forall_forall in He. by apply He.
Qed.

(** The dictionary lookup of a term. *)
Lemma dictionary_get_spec x t :
  match seg_terms s !! TermKey_new t x with
  | Some pl => exists meta, (TermKey_new t x, (pl, meta)) ∈ placed /\ dictionary_get (ds_dictionary ds) x t = Some meta
  | None => dictionary_get (ds_dictionary ds) x t = None
  end.
Proof.
  pose proof (of_dict s ds Ho x) as Hd. unfold dictionary_get.
  set (es := entries_for x (placed_metas 12 (btree_iter (seg_terms s)))) in *.
  assert (Hg : (match ds_dictionary ds !! x with Some dict => td_get dict t | None => None end)
    = snd <$> head (filter (fun e => e.1 = t) es)).
  { destruct (ds_dictionary ds !! x) as [d|]; [|by rewrite Hd]. apply td_get_ok; [apply entries_for_ascending|done]. }
  rewrite Hg. destruct (seg_terms s !! TermKey_new t x) as [pl|] eqn:Ek.
  - destruct (placed_of_term _ _ Ek) as [meta Hin]. exists meta. split; [done|].
    assert (He : (t, meta) ∈ es) by (apply entries_for_elem; eauto).
    apply list_elem_of_lookup_1 in He as [i Hi].
    rewrite (head_filter_unique es i t meta); [done| |done]. apply ascending_NoDup, entries_for_ascending.
  - rewrite head_filter_none; [done|]. intros ([t' meta] & E & Hin)%list_elem_of_fmap. simpl in E. subst t'.
    apply entries_for_elem in Hin as [pl Hin].
    assert (Hpl : seg_terms s !! TermKey_new t x = Some pl); [|congruence].
    apply elem_of_btree_iter. rewrite <-(place_keys 12 (btree_iter (seg_terms s))).
    by apply (list_elem_of_fmap_2 (fun e => (e.1, e.2.1)) _ (TermKey_new t x, (pl, meta))).
Qed.

(** The placed terms of a field that satisfy [P], as metadata and as postings. *)
Definition placed_matching (P : str -> bool) (x : XPathId) : list (TermKey * (PostingList * TermMeta)) :=
  filter (fun e => tk_xpath e.1 = x /\ P (tk_term e.1) = true) placed.

Lemma matching_metas P x :
  filter (fun e => P e.1 = true) (entries_for x (placed_metas 12 (btree_iter (seg_terms s))))
    = (fun e => (tk_term e.1, e.2.2)) <$> placed_matching P x.
Proof.
  unfold entries_for, placed_metas, placed_matching. fold placed.
  rewrite !filter_map_comm, list_filter_filter, <-!list_fmap_compose. apply f_equal.
  apply filter_ext_in. simpl. tauto.
Qed.

Lemma matching_terms P x :
  terms_matching P x (seg_terms s) = (fun e => (tk_term e.1, e.2.1)) <$> placed_matching P x.
Proof.
  unfold terms_matching, placed_matching. rewrite <-(place_keys 12 (btree_iter (seg_terms s))). fold placed.
  rewrite filter_map_comm. apply eq_sym. etrans; [|apply list_fmap_compose]. done.
Qed.

Lemma read_capped_ok P x :
  read_capped ds (filter (fun e => P e.1 = true) (entries_for x (placed_metas 12 (btree_iter (seg_terms s)))))
    = capped_union (terms_matching P x (seg_terms s)).
Proof.
  rewrite matching_metas, matching_terms. unfold read_capped, capped_union. rewrite !stable_sort_fmap.
  set (T := placed_matching P x).
  assert (HT : forall e, e ∈ T -> e ∈ placed) by (intros e He; by apply list_elem_of_filter in He as [_ ?]).
  rewrite (stable_sort_ext (fun a b => match_leb (tk_term a.1, a.2.1) (tk_term b.1, b.2.1))
    (fun a b => meta_leb (tk_term a.1, a.2.2) (tk_term b.1, b.2.2)) T).
  2: { intros [k1 [p1 m1]] [k2 [p2 m2]] H1 H2. unfold match_leb, meta_leb. simpl.
    destruct (placed_read _ _ _ (HT _ H1)) as (_ & _ & -> & _).
    by destruct (placed_read _ _ _ (HT _ H2)) as (_ & _ & -> & _). }
  f_equal. rewrite <-!fmap_take.
  set (S := take MAX_PATTERN_TERMS (stable_sort _ T)).
  assert (HS : forall e, e ∈ S -> e ∈ placed).
  { intros e He. apply HT. unfold S in He. apply list_elem_of_lookup_1 in He as [i Hi].
    apply lookup_take_Some in Hi as [Hi _]. apply list_elem_of_lookup_2 in Hi. by rewrite stable_sort_perm in Hi. }
  clearbody S. clear HT. assert (Hgen : forall out, fold_left (fun out e => read_postings_into ds e.2 out)
    ((fun e => (tk_term e.1, e.2.2)) <$> S) out = out ++ concat (map (fun m => items m.2) ((fun e => (tk_term e.1, e.2.1)) <$> S))).
  { induction S as [|[k [pl meta]] S IH]; intros out; [by rewrite app_nil_r|]. rewrite !fmap_cons. simpl.
    rewrite (placed_postings_into k pl meta) by (apply HS; left). rewrite IH, <-app_assoc; [done|].
    intros e He. apply HS. by right. }
  by rewrite Hgen.
Qed.

Lemma disk_lookup_prefix_ok p x :
  disk_lookup_prefix ds p x = capped_union (terms_matching (starts_with p) x (seg_terms s)).
Proof.
  unfold disk_lookup_prefix. rewrite <-read_capped_ok. pose proof (of_dict s ds Ho x) as Hd.
  destruct (ds_dictionary ds !! x) as [d|]; [|by rewrite Hd].
  by rewrite (td_prefix_ok _ _ _ (entries_for_ascending x) Hd).
Qed.

Lemma disk_lookup_wildcard_ok pat x :
  disk_lookup_wildcard ds pat x = capped_union (terms_matching (matches pat) x (seg_terms s)).
Proof.
  unfold disk_lookup_wildcard. destruct (is_prefix_only pat) eqn:Ep.
  - rewrite disk_lookup_prefix_ok. f_equal. apply terms_matching_ext. intros w. symmetry.
    by apply wildcard_prefix_only.
  - rewrite <-read_capped_ok. pose proof (of_dict s ds Ho x) as Hd.
    destruct (ds_dictionary ds !! x) as [d|]; [|by rewrite Hd].
    rewrite (td_prefix_ok _ _ _ (entries_for_ascending x) Hd). f_equal. rewrite list_filter_filter.
    apply filter_ext_in. intros e _. split; [tauto|]. intros Hm. split; [done|]. by apply wildcard_prefix_sound.
Qed.

Lemma disk_terms_ok x : disk_terms_of ds x = seg_terms_of s x.
Proof.
  unfold disk_terms_of, seg_terms_of. rewrite (prefix_range_spec _ x []) by (intros e; by rewrite andb_true_r).
  pose proof (of_dict s ds Ho x) as Hd.
  assert (E : (match ds_dictionary ds !! x with Some dict => (td_entries dict).*1 | None => [] end)
    = (entries_for x (placed_metas 12 (btree_iter (seg_terms s)))).*1).
  { destruct (ds_dictionary ds !! x) as [d|]; [|by rewrite Hd]. by rewrite (td_entries_ok _ _ Hd). }
  rewrite E. pose proof (matching_metas (starts_with []) x) as Hm. rewrite filter_all in Hm by (by apply Forall_true).
  rewrite Hm. pose proof (matching_terms (starts_with []) x) as Ht. unfold terms_matching in Ht.
  apply (f_equal (fmap fst)) in Ht. rewrite <-!list_fmap_compose in *. symmetry. exact Ht.
Qed.

Lemma disk_lookup_ok t x : disk_lookup ds t x = seg_lookup_or_empty s t x.
Proof.
  unfold disk_lookup, seg_lookup_or_empty, seg_lookup. pose proof (dictionary_get_spec x t) as Hg.
  destruct (seg_terms s !! TermKey_new t x) as [pl|]; [|by rewrite Hg]. destruct Hg as (meta & Hin & ->).
  by apply (placed_postings _ _ _ Hin).
Qed.

(** The terms of one field, as [iter_terms] yields them. *)
Definition field_terms (f : XPathId * TermDict) : list (TermKey * PostingList) :=
  (fun e => (TermKey_new e.1 f.1, read_postings ds e.2)) <$> td_entries f.2.

Lemma field_terms_elem x d k l :
  ds_dictionary ds !! x = Some d -> (k, l) ∈ field_terms (x, d) <-> tk_xpath k = x /\ seg_terms s !! k = Some l.
Proof.
  intros Hd. pose proof (of_dict s ds Ho x) as Hx. rewrite Hd in Hx. unfold field_terms. cbn [fst snd].
  rewrite list_elem_of_fmap, (td_entries_ok _ _ Hx). split.
  - intros ([t meta] & [= -> ->] & Hin). apply entries_for_elem in Hin as [pl Hin]. split; [done|]. simpl.
    rewrite (placed_postings _ _ _ Hin). apply elem_of_btree_iter. rewrite <-(place_keys 12 (btree_iter (seg_terms s))).
    by apply (list_elem_of_fmap_2 (fun e => (e.1, e.2.1)) _ (TermKey_new t x, (pl, meta))).
  - intros [<- Hk]. destruct (placed_of_term _ _ Hk) as [meta Hin]. exists (tk_term k, meta). destruct k as [x t]. simpl in *.
    rewrite (placed_postings _ _ _ Hin). split; [done|]. apply entries_for_elem. by exists l.
Qed.

Lemma field_terms_ascending x d : ds_dictionary ds !! x = Some d -> ascending_keys (field_terms (x, d)).
Proof.
  intros Hd. pose proof (of_dict s ds Ho x) as Hx. rewrite Hd in Hx. unfold field_terms. cbn [fst snd].
  rewrite (td_entries_ok _ _ Hx). pose proof (entries_for_ascending x) as Ha. clear Hx.
  induction Ha as [|e l Ha IH He]; [constructor|]. rewrite fmap_cons. constructor; [exact IH|].
  apply Forall_forall. intros y (z & -> & Hz)%list_elem_of_fmap. rewrite Forall_forall in He.
  apply (TermKey_clt_same (TermKey_new e.1 x) (TermKey_new z.1 x)); [done|]. by apply He.
Qed.

(** A scan of the file yields the terms of the segment in order. *)
Lemma iter_terms_ok : iter_terms ds = btree_iter (seg_terms s).
Proof.
  assert (Hit : iter_terms ds = concat (field_terms <$> btree_iter (ds_dictionary ds))) by done. rewrite Hit. clear Hit.
  assert (Hlk : forall f, f ∈ btree_iter (ds_dictionary ds) -> ds_dictionary ds !! f.1 = Some f.2)
    by (intros [x d]; apply elem_of_btree_iter).
  assert (Hasc : ascending_keys (concat (field_terms <$> btree_iter (ds_dictionary ds)))).
  { pose proof (btree_iter_ascending (ds_dictionary ds)) as Hb. induction Hb as [|f fs Hb IH Hf]; [constructor|].
    rewrite fmap_cons. cbn [concat]. apply StronglySorted_app. split_and!.
    - intros [k l] [k' l'] Hk Hk'. destruct f as [x d]. apply (field_terms_elem x d) in Hk as [Hx _]; [|by apply (Hlk (x, d)); left].
      apply elem_of_concat in Hk' as (g & Hg & Hgs). apply list_elem_of_fmap in Hgs as ([x' d'] & -> & Hgs).
      apply (field_terms_elem x' d') in Hg as [Hx' _]; [|by apply (Hlk (x', d')); right].
      rewrite Forall_forall in Hf. specialize (Hf _ Hgs). unfold key_clt in *. cbn [fst key_compare TermKey_order Z_order] in *.
      unfold TermKey_compare. by rewrite Hx, Hx', Hf.
    - destruct f as [x d]. apply field_terms_ascending. apply (Hlk (x, d)). left.
    - apply IH. intros g Hg. apply Hlk. by right. }
  apply ascending_unique; [done|apply btree_iter_ascending|].
  apply NoDup_Permutation; [by eapply NoDup_fmap_1, ascending_NoDup|eapply NoDup_fmap_1, ascending_NoDup, btree_iter_ascending|].
  intros [k l]. rewrite elem_of_btree_iter, elem_of_concat. split.
  - intros (g & Hg & Hgs). apply list_elem_of_fmap in Hgs as ([x d] & -> & Hgs). by apply (field_terms_elem x d) in Hg as [_ ?]; [|by apply (Hlk (x, d))].
  - intros Hk. pose proof (of_dict s ds Ho (tk_xpath k)) as Hx. destruct (ds_dictionary ds !! tk_xpath k) as [d|] eqn:Ed.
    + exists (field_terms (tk_xpath k, d)). split; [by apply field_terms_elem|]. apply list_elem_of_fmap_2. by apply elem_of_btree_iter.
    + destruct (placed_of_term _ _ Hk) as [meta Hin].
      assert (Hne : (tk_term k, meta) ∈ entries_for (tk_xpath k) (placed_metas 12 (btree_iter (seg_terms s))))
        by (apply entries_for_elem; exists l; by destruct k). rewrite Hx in Hne. by apply elem_of_nil in Hne.
Qed.

Lemma disk_doc_len_ok d x : disk_doc_len ds d x = seg_doc_len s d x.
Proof.
  unfold disk_doc_len, seg_doc_len. rewrite (of_lengths s ds Ho).
  assert (Hl : lengths_ok (btree_iter (seg_doc_lengths s))) by (apply lengths_ok_btree, Hs).
  destruct (seg_doc_lengths s !! (d, x)) as [len|] eqn:E.
  - apply dl_get_spec; [done|]. by apply elem_of_btree_iter.
  - apply eq_None_not_Some. intros [len Hlen]. apply dl_get_spec in Hlen; [|done].
    apply (elem_of_btree_iter (seg_doc_lengths s) (d, x) len) in Hlen. congruence.
Qed.
End lookups.

(** ** Main theorem *)

End disk.

(** ** The parameters can be met *)

(** Toy versions of the two crates: a value is serialized as the bits of its code. *)
Module Toy.

Fixpoint pos_bytes (p : positive) : list Z :=
  match p with xH => [] | xO p => 0 :: pos_bytes p | xI p => 1 :: pos_bytes p end.
Fixpoint bytes_pos (l : list Z) : positive :=
  match l with [] => xH | b :: l => if b =? 0 then xO (bytes_pos l) else xI (bytes_pos l) end.

Lemma bytes_pos_bytes p : bytes_pos (pos_bytes p) = p.
Proof. induction p; simpl; congruence. Qed.

Definition decode_bytes {A} `{Countable A} (l : list Z) : io_result A :=
  io_of_option (IoError InvalidData "toy") (decode (bytes_pos l)).

#[local, refine] Instance fst_lib : FstLib := {|
  FstMap := list (list Z * Z) * list Z;
  fst_build kvs := Ok (pos_bytes (encode kvs));
  fst_open bytes := let! kvs := decode_bytes bytes in Ok (kvs, bytes);
  fst_as_bytes := snd;
  fst_get m k := assoc_get k m.1;
  fst_stream := fst;
  fst_range_ge m k := filter (fun e => key_cle k e.1 = true) m.1
|}.
Proof. Defined.

#[local] Instance fst_laws : FstLaws.
Proof.
  constructor.
  - intros kvs _. exists (pos_bytes (encode kvs)), (kvs, pos_bytes (encode kvs)). simpl.
    unfold decode_bytes. by rewrite bytes_pos_bytes, decode_encode.
  - intros bytes m E. simpl in E. by destruct (decode_bytes bytes); inversion E.
  - done.
  - done.
Defined.

#[local, refine] Instance roaring_lib : RoaringLib := {|
  roaring_serialize s := pos_bytes (encode s);
  roaring_deserialize := decode_bytes
|}.
Proof. Defined.

#[local] Instance roaring_laws : RoaringLaws.
Proof. constructor. intros s. simpl. unfold decode_bytes. by rewrite bytes_pos_bytes, decode_encode. Defined.

Definition segment : ImmutableSegment :=
  ImmutableSegment_new
    {[ TermKey_new [104; 105] 1 := mkPostingList [mkPosting 7 [16] 5] 5 ]}
    {[ (7, 1) := 3 ]}
    (build_field_stats [((7, 1), 3)])
    {[ 2 := mkNumericField (mkBkd KInt [(9223372036854775848, 7)])
        (mkDocValues KInt [(7, 9223372036854775848)] [7]) ]}
    {[ 3 := mkBoolField {[ 7 ]} ∅ ]}
    (mkArrayRows 0 [7; 7] [NO_PARENT_ROW; 0]).

Lemma segment_fits : segment_ok segment.
Proof.
  constructor.
  - intros k l Hk. cbn [seg_terms segment ImmutableSegment_new] in Hk.
    apply lookup_singleton_Some in Hk as [<- <-].
    constructor; repeat constructor; vm_compute; congruence.
  - vm_compute. split; congruence.
  - vm_compute. congruence.
  - intros k len Hk. cbn [seg_doc_lengths segment ImmutableSegment_new] in Hk.
    apply lookup_singleton_Some in Hk as [<- <-]. repeat constructor; vm_compute; congruence.
  - vm_compute. split; congruence.
  - intros x f Hx. cbn [seg_numeric_fields segment ImmutableSegment_new] in Hx.
    apply lookup_singleton_Some in Hx as [<- <-]. split; [vm_compute; split; congruence|].
    constructor; try done; repeat constructor; vm_compute; congruence.
  - vm_compute. split; congruence.
  - intros x f Hx. cbn [seg_bool_fields segment ImmutableSegment_new] in Hx.
    apply lookup_singleton_Some in Hx as [<- <-]. vm_compute. split; congruence.
  - vm_compute. split; congruence.
  - repeat constructor; vm_compute; congruence.
  - vm_compute. reflexivity.
  - vm_compute. repeat split; congruence.
  - intros bytes E. vm_compute in E. injection E as <-. vm_compute. congruence.
Qed.
End Toy.


(** ** Arbitrary files *)

(** A section lies between the header and the footer (from [lo] on). *)
Definition in_body (bytes : list Z) (lo start len : Z) : Prop :=
  lo <= start /\ start + len <= zlen bytes - FOOTER_LEN.

Lemma io_of_option_Ok {A} e (o : option A) a : io_of_option e o = Ok a -> o = Some a.
Proof. destruct o; simpl; congruence. Qed.

Lemma io_bind_Ok {A B} (m : io_result A) (f : A -> io_result B) b :
  io_bind m f = Ok b -> exists a, m = Ok a /\ f a = Ok b.
Proof. destruct m; simpl; [eauto|done]. Qed.

Lemma checked_add_Some w x y z : checked_add w x y = Some z -> z = x + y /\ x + y < 2 ^ w.
Proof. unfold checked_add. destruct (Z.ltb_spec (x + y) (2 ^ w)); intros [= <-]; done. Qed.

Lemma if_err_Ok {A} (b : bool) e (m : io_result A) a : (if b then Err e else m) = Ok a -> b = false /\ m = Ok a.
Proof. by destruct b. Qed.

Lemma validate_footer_Ok bytes f :
  validate_footer bytes f = Ok tt ->
  in_body bytes HEADER_LEN (dictionary_offset f) (dictionary_len f) /\
  in_body bytes HEADER_LEN (numeric_fields_offset f) (numeric_fields_len f) /\
  bool_fields_offset f + bool_fields_len f <= zlen bytes - FOOTER_LEN /\
  array_row_index_offset f + array_row_index_len f <= zlen bytes - FOOTER_LEN /\
  (term_count f = 0 -> dictionary_len f = 4).
Proof.
  unfold validate_footer, in_body.
  intros (a & [-> _]%io_of_option_Ok%checked_add_Some & [H1%Z.ltb_ge [H2%Z.ltb_ge E]%if_err_Ok]%if_err_Ok)%io_bind_Ok.
  apply io_bind_Ok in E as (b & [-> _]%io_of_option_Ok%checked_add_Some & [H3%Z.ltb_ge [H4%Z.ltb_ge E]%if_err_Ok]%if_err_Ok).
  apply io_bind_Ok in E as (c & [-> _]%io_of_option_Ok%checked_add_Some & [H5%Z.ltb_ge E]%if_err_Ok).
  apply io_bind_Ok in E as (d & [-> _]%io_of_option_Ok%checked_add_Some & [H6%Z.ltb_ge [H7 _]%if_err_Ok]%if_err_Ok).
  apply andb_false_iff in H7. repeat split; try done. intros E0. rewrite E0 in H7.
  destruct H7 as [?|H7]; [done|]. apply negb_false_iff, Z.eqb_eq in H7. done.
Qed.

(** Whatever bytes a file holds, a segment is opened only when the magic and the version
    match, the file has room for a header and a footer, and every section lies inside the file
    before the footer; and the postings a term's metadata points to are never read from outside
    the file. *)
Theorem open_validates {FL : FstLib} {RL : RoaringLib} bytes ds :
  open_segment bytes = Ok ds ->
  12 + FOOTER_LEN <= zlen bytes /\ slice 0 8 bytes = MAGIC /\ read_u32_at bytes 8 = VERSION /\
  let f := read_footer bytes in
  doc_lengths_offset f + doc_lengths_len f <= zlen bytes - FOOTER_LEN /\
  in_body bytes HEADER_LEN (dictionary_offset f) (dictionary_len f) /\
  in_body bytes HEADER_LEN (numeric_fields_offset f) (numeric_fields_len f) /\
  bool_fields_offset f + bool_fields_len f <= zlen bytes - FOOTER_LEN /\
  array_row_index_offset f + array_row_index_len f <= zlen bytes - FOOTER_LEN /\
  (forall meta b, meta_range ds meta = Some b -> postings_offset meta + postings_len meta <= zlen bytes).
Proof.
  unfold open_segment. intros (u & Hh & E)%io_bind_Ok. apply io_bind_Ok in E as ([] & Hf & E).
  apply io_bind_Ok in E as (dl & Hdl & E).
  assert (Hb : ds_bytes ds = bytes).
  { repeat (apply io_bind_Ok in E as (? & _ & E)). by injection E as <-. }
  unfold validate_header in Hh. apply if_err_Ok in Hh as [H1%Z.ltb_ge [H2 [H3 _]%if_err_Ok]%if_err_Ok].
  apply negb_false_iff, bool_decide_eq_true in H2. apply negb_false_iff, Z.eqb_eq in H3.
  destruct (validate_footer_Ok _ _ Hf) as (V1 & V2 & V3 & V4 & _).
  unfold read_doc_lengths, section in Hdl. apply io_bind_Ok in Hdl as (s & Hs & _).
  apply io_bind_Ok in Hs as (c & [-> _]%io_of_option_Ok%checked_add_Some & [H4%Z.ltb_ge _]%if_err_Ok).
  repeat (split; [done|]). intros meta b Hm. unfold meta_range in Hm. rewrite Hb in Hm.
  destruct (checked_add 64 _ _) as [c|] eqn:Ec; [|done]. apply checked_add_Some in Ec as [-> _].
  destruct (Z.ltb_spec (zlen bytes) (postings_offset meta + postings_len meta)); [done|lia].
Qed.

Lemma open_validates_witness :
  match @write_segment_to Toy.fst_lib Toy.roaring_lib [] Toy.segment with
  | Ok bytes => slice 0 8 bytes = MAGIC
  | Err _ => False
  end.
Proof.
  destruct (@write_segment_to Toy.fst_lib Toy.roaring_lib [] Toy.segment) as [bytes|e] eqn:E;
    [|vm_compute in E; discriminate E].
  destruct (@open_segment Toy.fst_lib Toy.roaring_lib bytes) as [ds|e] eqn:E2.
  - destruct (@open_validates Toy.fst_lib Toy.roaring_lib bytes ds E2) as (_ & H & _). exact H.
  - vm_compute in E. injection E as <-. vm_compute in E2. discriminate E2.
Defined.

(** A dictionary whose transducer claims [u64::MAX] bytes makes the cursor's addition wrap
    around: the reader panics instead of reporting invalid data. *)
Lemma corrupt_length_panics {FL : FstLib} :
  rd_run rd_dict_field (to_le_bytes 4 1 ++ to_le_bytes 4 0 ++ to_le_bytes 8 (2 ^ 64 - 1))
    = Err (IoError Panicked "slice index starts past its end").
Proof. vm_compute. reflexivity. Qed.
