(* ===== verification/Wal.v ===== *)
(** * The write-ahead log

    Models [crates/core-storage/src/wal.rs]: records with a length, a checksum over offset,
    length and payload, and the payload; numbered segment files; appending, rotating, removing
    old segments, resetting, replaying, and the recovery of the newest segment after a crash.

    The folder is a map from segment numbers to file contents. The outcome of a write (all bytes,
    or a failure after some of them) and of an fsync are arguments of the operations; the other
    calls to the operating system succeed. The checksum is the crate [crc32fast], a parameter. *)
From Stdlib Require Import ZArith Lia.
From stdpp Require Import base numbers list gmap sorting sets strings.
From S2P Require Import Prelude Types Btree.
Local Open Scope io_scope.
Local Open Scope Z_scope.

Definition MAX_ENTRY_SIZE : Z := 1024 * 1024 * 1024.
Definition HEADER_SIZE : nat := 8.
Definition MIN_RECORD_SIZE : nat := 9.

Inductive SyncMode : Type := SyncEach | Manual.
#[global] Instance SyncMode_eq_dec : EqDecision SyncMode.
Proof. solve_decision. Defined.

(** The folder, the fields of [Inner] and the mode. *)
Record Wal : Type := mkWal {
  wal_files : gmap Z (list Z);
  wal_segment : Z;
  durable_offset : nat;
  written_offset : nat;
  poisoned : bool;
  wal_mode : SyncMode
}.

(** A write reaches the file completely, or fails after [n] bytes. *)
Inductive write_outcome : Type := Written | WriteFailed (n : nat).

Section wal.
(** [crc32fast]: the checksum of the bytes fed to the hasher. *)
Context (crc32 : list Z -> Z).

(** ** Records *)

Definition record_crc (offset : nat) (len : Z) (payload : list Z) : Z :=
  crc32 (to_le_bytes 8 (Z.of_nat offset) ++ to_le_bytes 4 len ++ payload).

Definition encode_record (offset : nat) (payload : list Z) : list Z :=
  let len := wrap 32 (zlen payload) in
  to_le_bytes 4 len ++ to_le_bytes 4 (record_crc offset len payload) ++ payload.

Definition truncated_replay : io_error := IoError InvalidData "truncated replay".
Definition crc_mismatch : io_error := IoError InvalidData "crc mismatch in replay".

(** The loop of [parse_records]; every record has at least nine bytes, so the length of the
    input is enough fuel ([records_loop_total]). *)
Fixpoint records_loop (fuel : nat) (raw : list Z) (pos : nat) (out : list (list Z))
    : option (io_result (list (list Z))) :=
  match fuel with
  | O => None
  | S fuel' =>
    if (pos <? length raw)%nat then
      if (length raw <? pos + HEADER_SIZE)%nat then Some (Err truncated_replay)
      else
        let len := from_le_bytes (slice pos 4 raw) in
        let crc := from_le_bytes (slice (pos + 4) 4 raw) in
        let start := (pos + HEADER_SIZE)%nat in
        let stop := (start + Z.to_nat len)%nat in
        if (len =? 0) || (MAX_ENTRY_SIZE <? len) || (length raw <? stop)%nat then Some (Err truncated_replay)
        else
          let payload := slice start (Z.to_nat len) raw in
          if negb (record_crc pos len payload =? crc) then Some (Err crc_mismatch)
          else records_loop fuel' raw stop (out ++ [payload])
    else Some (Ok out)
  end.
Definition parse_records (raw : list Z) : io_result (list (list Z)) :=
  default (Err truncated_replay) (records_loop (S (length raw)) raw 0 []).

(** ** Recovery of a segment *)

Definition read_record_at (file : list Z) (pos file_len : nat) : option nat :=
  if (length file <? pos + HEADER_SIZE)%nat then None
  else
    let len := from_le_bytes (slice pos 4 file) in
    let stored_crc := from_le_bytes (slice (pos + 4) 4 file) in
    if (len =? 0) || (MAX_ENTRY_SIZE <? len) || (file_len <? pos + HEADER_SIZE + Z.to_nat len)%nat then None
    else
      let payload := slice (pos + HEADER_SIZE) (Z.to_nat len) file in
      if negb (record_crc pos len payload =? stored_crc) then None
      else Some (pos + HEADER_SIZE + Z.to_nat len)%nat.

(** [while pos + MIN_RECORD_SIZE <= file_len]: follows the records from the start. *)
Fixpoint scan_records (fuel : nat) (file : list Z) (pos : nat) : option nat :=
  match fuel with
  | O => None
  | S fuel' =>
    if (pos + MIN_RECORD_SIZE <=? length file)%nat then
      match read_record_at file pos (length file) with
      | Some next => scan_records fuel' file next
      | None => Some pos
      end
    else Some pos
  end.

(** The probe for a valid record behind a damaged one. *)
Fixpoint probe_records (fuel : nat) (file : list Z) (probe : nat) : option bool :=
  match fuel with
  | O => None
  | S fuel' =>
    if (probe + MIN_RECORD_SIZE <=? length file)%nat then
      match read_record_at file probe (length file) with
      | Some _ => Some true
      | None => probe_records fuel' file (probe + 1)
      end
    else Some false
  end.

Definition wal_corruption : io_error := IoError InvalidData "wal corruption: valid record found".

Definition valid_end (file : list Z) : io_result nat :=
  let pos := default O (scan_records (S (length file)) file 0) in
  if (pos <? length file)%nat then
    if default false (probe_records (S (length file)) file (pos + 1)) then Err wal_corruption
    else Ok pos
  else Ok pos.

(** The file cut at its last valid record, and that end. *)
Definition scan_and_truncate (file : list Z) : io_result (list Z * nat) :=
  let! stop := valid_end file in
  Ok (if (stop <? length file)%nat then take stop file else file, stop).

(** ** The log *)

Definition list_segments (files : gmap Z (list Z)) : list Z := (btree_iter files).*1.

Definition wal_open (files : gmap Z (list Z)) (mode : SyncMode) : io_result Wal :=
  let '(files, segment) :=
    match last (list_segments files) with
    | Some newest => (files, newest)
    | None => (<[1 := []]> files, 1)
    end in
  let! (file, stop) := scan_and_truncate (default [] (files !! segment)) in
  Ok (mkWal (<[segment := file]> files) segment stop stop false mode).

(** Bytes written at an offset of a file; the rest stays. *)
Definition write_at (offset : nat) (bytes file : list Z) : list Z :=
  take offset file ++ bytes ++ drop (offset + length bytes) file.

Definition with_file (w : Wal) (file : list Z) (written : nat) : Wal :=
  mkWal (<[wal_segment w := file]> (wal_files w)) (wal_segment w) (durable_offset w) written
    (poisoned w) (wal_mode w).

Definition fsync_error : io_error := IoError Other "fsync failed".
Definition write_error : io_error := IoError Other "write failed".
Definition poisoned_error : io_error := IoError Other "wal poisoned by prior fsync failure".

Definition sync_or_poison (w : Wal) (sync_ok : bool) : Wal * io_result unit :=
  if sync_ok then
    (mkWal (wal_files w) (wal_segment w) (written_offset w) (written_offset w) (poisoned w) (wal_mode w), Ok tt)
  else (mkWal (wal_files w) (wal_segment w) (durable_offset w) (written_offset w) true (wal_mode w),
        Err fsync_error).

Definition append (w : Wal) (payload : list Z) (outcome : write_outcome) (sync_ok : bool) : Wal * io_result nat :=
  if (length payload =? 0)%nat then (w, Err (IoError InvalidInput "empty entry"))
  else if MAX_ENTRY_SIZE <? zlen payload then (w, Err (IoError InvalidInput "entry too large"))
  else if poisoned w then (w, Err poisoned_error)
  else
    let offset := written_offset w in
    let record := encode_record offset payload in
    let file := default [] (wal_files w !! wal_segment w) in
    match outcome with
    | WriteFailed n => (with_file w (write_at offset (take n record) file) offset, Err write_error)
    | Written =>
      let w := with_file w (write_at offset record file) (offset + length record) in
      if decide (wal_mode w = SyncEach) then
        let '(w, r) := sync_or_poison w sync_ok in (w, let! _ := r in Ok offset)
      else (w, Ok offset)
    end.

Definition rotate (w : Wal) (sync_ok : bool) : Wal * io_result Z :=
  if poisoned w then (w, Err (IoError Other "wal poisoned"))
  else
    match sync_or_poison w sync_ok with
    | (w, Err e) => (w, Err e)
    | (w, Ok _) =>
      let closed := wal_segment w in
      let next := wrap 64 (closed + 1) in
      match wal_files w !! next with
      | Some _ => (w, Err (IoError Other "segment exists"))
      | None =>
        (mkWal (<[next := []]> (wal_files w)) next 0 0 (poisoned w) (wal_mode w), Ok closed)
      end
    end.

Definition remove_through (w : Wal) (segment : Z) : Wal :=
  let files := fold_left (fun files id =>
    if (id <=? segment) && negb (id =? wal_segment w) then delete id files else files)
    (list_segments (wal_files w)) (wal_files w) in
  mkWal files (wal_segment w) (durable_offset w) (written_offset w) (poisoned w) (wal_mode w).

Definition wal_reset (w : Wal) (sync_ok : bool) : Wal * io_result unit :=
  if poisoned w then (w, Err (IoError Other "wal poisoned"))
  else
    let files := fold_left (fun files id => if negb (id =? wal_segment w) then delete id files else files)
      (list_segments (wal_files w)) (wal_files w) in
    let files := <[wal_segment w := []]> files in
    if sync_ok then (mkWal files (wal_segment w) 0 0 (poisoned w) (wal_mode w), Ok tt)
    else (mkWal files (wal_segment w) 0 0 true (wal_mode w), Err fsync_error).

(** The bytes replayed of a segment: the newest one up to the last written record. *)
Definition segment_raw (w : Wal) (id : Z) (file : list Z) : io_result (list Z) :=
  if id =? wal_segment w then
    if (length file <? written_offset w)%nat then Err (IoError UnexpectedEof "failed to fill whole buffer")
    else Ok (take (written_offset w) file)
  else Ok file.

Fixpoint replay_segments (w : Wal) (files : list (Z * list Z)) (payloads : list (list Z))
    : io_result (list (list Z)) :=
  match files with
  | [] => Ok payloads
  | (id, file) :: files' =>
    let! raw := segment_raw w id file in
    let! records := parse_records raw in
    replay_segments w files' (payloads ++ records)
  end.
Definition replay_all (w : Wal) : io_result (list (list Z)) :=
  replay_segments w (btree_iter (wal_files w)) [].

(** ** Encoded records *)

(** The bytes of consecutive records from [off] on. *)
Fixpoint encode_from (off : nat) (ps : list (list Z)) : list Z :=
  match ps with
  | [] => []
  | p :: ps' => encode_record off p ++ encode_from (off + length (encode_record off p)) ps'
  end.

Definition payload_ok (p : list Z) : Prop := p <> [] /\ zlen p <= MAX_ENTRY_SIZE.

Context (crc_range : forall l, in_u 32 (crc32 l)).

Lemma length_encode_record off p : length (encode_record off p) = (HEADER_SIZE + length p)%nat.
Proof using Type. unfold encode_record. rewrite !length_app, !length_to_le_bytes. unfold HEADER_SIZE. lia. Qed.

Lemma encode_from_app off ps qs :
  encode_from off (ps ++ qs) = encode_from off ps ++ encode_from (off + length (encode_from off ps)) qs.
Proof using Type.
  revert off. induction ps as [|p ps IH]; intros off; cbn [encode_from app length]; [by rewrite Nat.add_0_r|].
  rewrite IH, <-app_assoc, length_app. by rewrite Nat.add_assoc.
Qed.

(** The header of a record in place. *)
Lemma record_header pre p post :
  payload_ok p ->
  let raw := pre ++ encode_record (length pre) p ++ post in
  from_le_bytes (slice (length pre) 4 raw) = zlen p /\
  from_le_bytes (slice (length pre + 4) 4 raw) = record_crc (length pre) (zlen p) p /\
  slice (length pre + HEADER_SIZE) (length p) raw = p /\ 1 <= zlen p <= MAX_ENTRY_SIZE.
Proof using crc_range.
  intros [Hne Hmax]. assert (Hw : wrap 32 (zlen p) = zlen p).
  { apply Z.mod_small. unfold MAX_ENTRY_SIZE in Hmax. lia. }
  assert (1 <= zlen p) by (destruct p; [done|simpl; lia]).
  cbv zeta. unfold encode_record. cbv zeta. rewrite Hw. split; [|split; [|split; [|done]]].
  - rewrite <-!app_assoc, slice_app_mid by (by rewrite ?length_to_le_bytes).
    apply (from_to_le_bytes_id 4). change (8 * Z.of_nat 4) with 32. unfold in_u, MAX_ENTRY_SIZE in *. lia.
  - rewrite <-!app_assoc, (app_assoc pre).
    rewrite slice_app_mid by (rewrite ?length_app, ?length_to_le_bytes; lia).
    apply (from_to_le_bytes_id 4). apply crc_range.
  - rewrite <-!app_assoc, (app_assoc pre), (app_assoc (pre ++ _)).
    apply slice_app_mid; [|done]. rewrite !length_app, !length_to_le_bytes. unfold HEADER_SIZE. lia.
Qed.

Lemma length_encode_from off ps : (length ps <= length (encode_from off ps))%nat.
Proof using Type.
  revert off. induction ps as [|p ps IH]; intros off; [done|]. cbn [encode_from length].
  rewrite length_app, length_encode_record. unfold HEADER_SIZE.
  specialize (IH (off + (8 + length p))%nat). lia.
Qed.

(** Encoded records in front of [tail] are read one by one. *)
Lemma parse_encoded ps pre tail out fuel :
  Forall payload_ok ps ->
  let raw := pre ++ encode_from (length pre) ps ++ tail in
  records_loop (length ps + fuel) raw (length pre) out =
  records_loop fuel raw (length pre + length (encode_from (length pre) ps)) (out ++ ps).
Proof using crc_range.
  revert pre out. induction ps as [|p ps IH]; intros pre out Hok; cbv zeta.
  { cbn [encode_from length]. by rewrite Nat.add_0_r, app_nil_r. }
  apply Forall_cons in Hok as [Hp Hok]. cbn [encode_from length Nat.add records_loop]. rewrite <-app_assoc.
  set (rest := encode_from (length pre + length (encode_record (length pre) p)) ps).
  destruct (record_header pre p (rest ++ tail) Hp) as (E1 & E2 & E3 & Hl). cbv zeta in *.
  specialize (IH (pre ++ encode_record (length pre) p) (out ++ [p]) Hok). cbv zeta in IH.
  rewrite length_app, <-app_assoc in IH. fold rest in IH.
  set (raw := pre ++ encode_record (length pre) p ++ rest ++ tail) in *.
  assert (Hlen : (length pre + HEADER_SIZE + length p <= length raw)%nat)
    by (unfold raw; rewrite !length_app, length_encode_record; lia).
  rewrite E1, E2, Nat2Z.id, E3. unfold HEADER_SIZE in *.
  destruct (Nat.ltb_spec (length pre) (length raw)); [|lia].
  destruct (Nat.ltb_spec (length raw) (length pre + 8)); [lia|].
  destruct (Z.eqb_spec (zlen p) 0); [lia|]. destruct (Z.ltb_spec MAX_ENTRY_SIZE (zlen p)); [lia|].
  destruct (Nat.ltb_spec (length raw) (length pre + 8 + length p)); [lia|]. cbn [orb].
  rewrite Z.eqb_refl. cbn [negb]. rewrite length_app, Nat.add_assoc.
  rewrite <-app_assoc in IH. cbn [app] in IH. rewrite <-IH. f_equal. rewrite length_encode_record. unfold HEADER_SIZE. lia.
Qed.

Lemma parse_records_encoded ps : Forall payload_ok ps -> parse_records (encode_from 0 ps) = Ok ps.
Proof using crc_range.
  intros Hok. unfold parse_records. pose proof (length_encode_from 0 ps).
  pose proof (parse_encoded ps [] [] [] (S (length (encode_from 0 ps) - length ps)) Hok) as E. cbv zeta in E.
  change (length []) with O in E. cbn [app Nat.add] in E. rewrite app_nil_r in E.
  replace (S (length (encode_from 0 ps))) with (length ps + S (length (encode_from 0 ps) - length ps))%nat by lia.
  rewrite E. cbn [records_loop]. by rewrite Nat.ltb_irrefl.
Qed.

(** The parser always comes to an end. *)
Lemma records_loop_total fuel raw pos out :
  (length raw - pos < fuel)%nat -> is_Some (records_loop fuel raw pos out).
Proof using Type.
  revert pos out. induction fuel as [|fuel IH]; intros pos out Hf; [lia|]. cbn [records_loop].
  destruct (Nat.ltb_spec pos (length raw)); [|done]. destruct (_ <? _)%nat; [done|]. cbv zeta.
  destruct (_ || _); [done|]. destruct (negb _); [done|]. apply IH. unfold HEADER_SIZE. lia.
Qed.

(** ** Recovery *)

Lemma read_record_encoded pre p post :
  payload_ok p ->
  let file := pre ++ encode_record (length pre) p ++ post in
  read_record_at file (length pre) (length file) = Some (length pre + HEADER_SIZE + length p)%nat.
Proof using crc_range.
  intros Hp. destruct (record_header pre p post Hp) as (E1 & E2 & E3 & Hl). cbv zeta in *.
  set (file := pre ++ encode_record (length pre) p ++ post) in *.
  assert (Hlen : (length file = length pre + HEADER_SIZE + length p + length post)%nat)
    by (unfold file; rewrite !length_app, length_encode_record; lia).
  unfold read_record_at. rewrite E1, E2, Nat2Z.id, E3. unfold HEADER_SIZE in *.
  destruct (Nat.ltb_spec (length file) (length pre + 8)); [lia|].
  destruct (Z.eqb_spec (zlen p) 0); [lia|]. destruct (Z.ltb_spec MAX_ENTRY_SIZE (zlen p)); [lia|].
  destruct (Nat.ltb_spec (length file) (length pre + 8 + length p)); [lia|]. cbn [orb].
  by rewrite Z.eqb_refl.
Qed.

(** A record that is cut short is not valid at its own offset. *)
Lemma read_record_torn pre p k :
  payload_ok p -> (k < length (encode_record (length pre) p))%nat ->
  let file := pre ++ take k (encode_record (length pre) p) in
  read_record_at file (length pre) (length file) = None.
Proof using crc_range.
  intros Hp Hk. cbv zeta. pose proof Hk as Hk'. rewrite length_encode_record in Hk'.
  unfold read_record_at. rewrite length_app, length_take. unfold HEADER_SIZE in *.
  destruct (Nat.ltb_spec (length pre + k `min` length (encode_record (length pre) p)) (length pre + 8)); [done|].
  assert (E : slice (length pre) 4 (pre ++ take k (encode_record (length pre) p)) =
    slice (length pre) 4 (pre ++ encode_record (length pre) p ++ [])).
  { rewrite app_nil_r. unfold slice. rewrite !drop_app_length, take_take. f_equal. lia. }
  destruct (record_header pre p [] Hp) as (E1 & _ & _ & Hl). cbv zeta in E1. rewrite E, E1, Nat2Z.id.
  destruct (Nat.ltb_spec (length pre + k `min` length (encode_record (length pre) p)) (length pre + 8 + length p));
    [by rewrite orb_true_r|]. lia.
Qed.

Lemma scan_encoded ps pre tail fuel :
  Forall payload_ok ps ->
  let file := pre ++ encode_from (length pre) ps ++ tail in
  scan_records (length ps + fuel) file (length pre) =
  scan_records fuel file (length pre + length (encode_from (length pre) ps)).
Proof using crc_range.
  revert pre. induction ps as [|p ps IH]; intros pre Hok; cbv zeta.
  { cbn [encode_from length]. by rewrite Nat.add_0_r. }
  apply Forall_cons in Hok as [Hp Hok]. cbn [encode_from length Nat.add scan_records]. rewrite <-app_assoc.
  set (rest := encode_from (length pre + length (encode_record (length pre) p)) ps).
  pose proof (read_record_encoded pre p (rest ++ tail) Hp) as Hr. cbv zeta in Hr. rewrite Hr.
  specialize (IH (pre ++ encode_record (length pre) p) Hok). cbv zeta in IH.
  rewrite length_app, <-app_assoc in IH. fold rest in IH.
  set (file := pre ++ encode_record (length pre) p ++ rest ++ tail) in *.
  assert (Hlen : (length pre + HEADER_SIZE + length p <= length file)%nat)
    by (unfold file; rewrite !length_app, length_encode_record; lia).
  assert (1 <= length p)%nat by (destruct Hp as [Hne _]; destruct p; [done|simpl; lia]).
  unfold MIN_RECORD_SIZE. unfold HEADER_SIZE in *.
  destruct (Nat.leb_spec (length pre + 9) (length file)); [|lia].
  rewrite length_app, Nat.add_assoc, <-IH. f_equal. rewrite length_encode_record. unfold HEADER_SIZE. lia.
Qed.

Lemma probe_none fuel file q :
  (forall r, (q <= r)%nat -> read_record_at file r (length file) = None) -> (length file - q < fuel)%nat ->
  probe_records fuel file q = Some false.
Proof using Type.
  revert q. induction fuel as [|fuel IH]; intros q Hq Hf; [lia|]. cbn [probe_records].
  destruct (Nat.leb_spec (q + MIN_RECORD_SIZE) (length file)) as [Hle|]; [|done].
  unfold MIN_RECORD_SIZE in Hle. rewrite Hq by done. apply IH; [|lia]. intros. apply Hq. lia.
Qed.

Lemma probe_some fuel file q r e :
  (q <= r)%nat -> (r + MIN_RECORD_SIZE <= length file)%nat -> read_record_at file r (length file) = Some e ->
  (length file - q < fuel)%nat -> probe_records fuel file q = Some true.
Proof using Type.
  revert q. induction fuel as [|fuel IH]; intros q Hq Hr He Hf; [lia|]. cbn [probe_records].
  destruct (Nat.leb_spec (q + MIN_RECORD_SIZE) (length file)); [|lia].
  destruct (read_record_at file q (length file)) eqn:E; [done|].
  unfold MIN_RECORD_SIZE in *. apply IH; try done; [|lia]. destruct (decide (q = r)); [congruence|lia].
Qed.

(** No valid record starts at or after the offset [n] of the file. *)
Definition no_record_from (file : list Z) (n : nat) : Prop :=
  forall q, (n <= q)%nat -> read_record_at file q (length file) = None.

Lemma scan_from_start ps tail :
  Forall payload_ok ps ->
  let file := encode_from 0 ps ++ tail in
  scan_records (S (length file)) file 0 =
  scan_records (S (length file - length ps)) file (length (encode_from 0 ps)).
Proof using crc_range.
  intros Hok. cbv zeta. pose proof (length_encode_from 0 ps).
  pose proof (scan_encoded ps [] tail (S (length (encode_from 0 ps ++ tail) - length ps)) Hok) as E.
  cbv zeta in E. change (length []) with O in E. cbn [app Nat.add] in E. rewrite <-E. f_equal.
  rewrite length_app. lia.
Qed.

Lemma valid_end_scan ps tail :
  Forall payload_ok ps ->
  let file := encode_from 0 ps ++ tail in
  let n := length (encode_from 0 ps) in
  read_record_at file n (length file) = None ->
  valid_end file =
    if (n <? length file)%nat then
      if default false (probe_records (S (length file)) file (n + 1)) then Err wal_corruption else Ok n
    else Ok n.
Proof using crc_range.
  intros Hok. cbv zeta. intros Hn. unfold valid_end. rewrite scan_from_start by done.
  cbn [scan_records]. rewrite Hn. by destruct (_ <=? _)%nat.
Qed.

Lemma scan_truncates ps tail :
  Forall payload_ok ps ->
  no_record_from (encode_from 0 ps ++ tail) (length (encode_from 0 ps)) ->
  scan_and_truncate (encode_from 0 ps ++ tail) = Ok (encode_from 0 ps, length (encode_from 0 ps)).
Proof using crc_range.
  intros Hok Hnone. unfold scan_and_truncate. rewrite valid_end_scan by (done || by apply Hnone).
  rewrite (probe_none _ _ (length (encode_from 0 ps) + 1)) by (lia || (intros; apply Hnone; lia)).
  cbn [default id]. destruct (Nat.ltb_spec (length (encode_from 0 ps)) (length (encode_from 0 ps ++ tail))) as [Hlt|Hge];
    cbn [io_bind default id].
  - by rewrite (proj2 (Nat.ltb_lt _ _) Hlt), take_app_length.
  - rewrite (proj2 (Nat.ltb_ge _ _) Hge). rewrite length_app in Hge.
    assert (tail = []) as -> by (destruct tail; [done|simpl in Hge; lia]). by rewrite app_nil_r.
Qed.

(** What recovery finds in any file is what the parser reads of it. *)
Lemma read_record_inv file pos next :
  read_record_at file pos (length file) = Some next ->
  exists len, next = (pos + HEADER_SIZE + Z.to_nat len)%nat /\ (next <= length file)%nat /\
    len = from_le_bytes (slice pos 4 file) /\ (len =? 0) || (MAX_ENTRY_SIZE <? len) = false /\
    record_crc pos len (slice (pos + HEADER_SIZE) (Z.to_nat len) file) = from_le_bytes (slice (pos + 4) 4 file).
Proof using Type.
  unfold read_record_at. destruct (_ <? _)%nat; [done|].
  set (len := from_le_bytes (slice pos 4 file)).
  destruct ((len =? 0) || (MAX_ENTRY_SIZE <? len)) eqn:E1; [done|]. cbn [orb].
  destruct (Nat.ltb_spec (length file) (pos + HEADER_SIZE + Z.to_nat len)); [done|].
  destruct (Z.eqb_spec (record_crc pos len (slice (pos + HEADER_SIZE) (Z.to_nat len) file))
    (from_le_bytes (slice (pos + 4) 4 file))); [|done]. intros [= <-]. by exists len.
Qed.

Lemma slice_take {A} (s n e : nat) (l : list A) : (s + n <= e)%nat -> slice s n (take e l) = slice s n l.
Proof using Type. intros H. unfold slice. rewrite skipn_firstn_comm, take_take. f_equal. lia. Qed.

Lemma scan_parses fuel file pos e :
  scan_records fuel file pos = Some e -> (pos <= length file)%nat ->
  (pos <= e <= length file)%nat /\
  forall fuel' out, (e < pos + fuel')%nat ->
    exists qs, records_loop fuel' (take e file) pos out = Some (Ok (out ++ qs)).
Proof using Type.
  revert pos. induction fuel as [|fuel IH]; intros pos Hs Hpos; [done|]. cbn [scan_records] in Hs.
  assert (Hstop : forall fuel' out, (pos < pos + fuel')%nat ->
    exists qs, records_loop fuel' (take pos file) pos out = Some (Ok (out ++ qs))).
  { intros fuel' out Hf. exists []. rewrite app_nil_r. destruct fuel'; [lia|]. cbn [records_loop].
    rewrite length_take. by destruct (Nat.ltb_spec pos (pos `min` length file)); [lia|]. }
  destruct (Nat.leb_spec (pos + MIN_RECORD_SIZE) (length file)); [|injection Hs as <-; split; [lia|done]].
  destruct (read_record_at file pos (length file)) as [next|] eqn:Hr; [|injection Hs as <-; split; [lia|done]].
  apply read_record_inv in Hr as (len & -> & Hnext & Elen & Hrange & Hcrc). unfold HEADER_SIZE in *.
  destruct (IH _ Hs Hnext) as [He Hp]. split; [lia|]. intros fuel' out Hf. destruct fuel' as [|fuel']; [lia|].
  destruct (Hp fuel' (out ++ [slice (pos + 8) (Z.to_nat len) file])) as [qs Hqs]; [lia|].
  exists (slice (pos + 8) (Z.to_nat len) file :: qs). cbn [records_loop]. unfold HEADER_SIZE.
  rewrite !length_take, !slice_take by lia. rewrite <-Elen, Hrange, Hcrc, Z.eqb_refl.
  destruct (Nat.ltb_spec pos (e `min` length file)); [|lia].
  destruct (Nat.ltb_spec (e `min` length file) (pos + 8)); [lia|].
  destruct (Nat.ltb_spec (e `min` length file) (pos + 8 + Z.to_nat len)); [lia|]. cbn [orb negb].
  rewrite Hqs, <-app_assoc. done.
Qed.

Lemma scan_records_total fuel file pos :
  (length file - pos < fuel)%nat -> is_Some (scan_records fuel file pos).
Proof using Type.
  revert pos. induction fuel as [|fuel IH]; intros pos Hf; [lia|]. cbn [scan_records].
  destruct (Nat.leb_spec (pos + MIN_RECORD_SIZE) (length file)) as [H|]; [|done]. unfold MIN_RECORD_SIZE in H.
  destruct (read_record_at file pos (length file)) as [next|] eqn:E; [|done].
  apply read_record_inv in E as (len & -> & _). unfold HEADER_SIZE. apply IH. lia.
Qed.

(** A file that starts with the records [ds]: whatever follows them, a successful recovery keeps
    them, and the file it leaves is read completely. *)
Lemma recovery_keeps ds tail file stop :
  Forall payload_ok ds -> scan_and_truncate (encode_from 0 ds ++ tail) = Ok (file, stop) ->
  length file = stop /\ exists qs, parse_records file = Ok (ds ++ qs).
Proof using crc_range.
  intros Hok. unfold scan_and_truncate. destruct (valid_end _) as [n|] eqn:Hv; [|done].
  cbn [io_bind]. set (whole := encode_from 0 ds ++ tail) in *. intros [= <- <-].
  unfold valid_end in Hv.
  assert (Hlen : (length (encode_from 0 ds) <= length whole)%nat) by (unfold whole; rewrite length_app; lia).
  pose proof (length_encode_from 0 ds) as Hds. pose proof (scan_from_start ds tail Hok) as Hscan. cbv zeta in Hscan. fold whole in Hscan. rewrite Hscan in Hv.
  destruct (scan_records_total (S (length whole - length ds)) whole (length (encode_from 0 ds))) as [e He]; [lia|].
  rewrite He in Hv. cbn [default id] in Hv.
  destruct (scan_parses _ _ _ _ He Hlen) as [Hbounds Hp].
  assert (n = e) as ->.
  { destruct (e <? length whole)%nat; [|congruence]. destruct (default false _); congruence. }
  assert (Hfile : (if (e <? length whole)%nat then take e whole else whole) = take e whole).
  { destruct (Nat.ltb_spec e (length whole)); [done|]. by rewrite take_ge. }
  rewrite Hfile, length_take. split; [lia|].
  destruct (Hp (S (e - length ds)) ds) as [qs Hqs]; [lia|]. exists qs.
  pose proof (parse_encoded ds [] (take (e - length (encode_from 0 ds)) tail) [] (S (e - length ds)) Hok) as E.
  cbv zeta in E. change (length []) with O in E. cbn [app Nat.add] in E.
  replace (encode_from 0 ds ++ take (e - length (encode_from 0 ds)) tail) with (take e whole) in E
    by (unfold whole; rewrite take_app, take_ge by lia; done).
  unfold parse_records. rewrite length_take.
  replace (S (e `min` length whole)) with (length ds + S (e - length ds))%nat by lia. by rewrite E, Hqs.
Qed.

(** ** The log as a sequence of operations *)

Inductive wal_op : Type :=
  | OpAppend (payload : list Z) (outcome : write_outcome) (sync_ok : bool)
  | OpRotate (sync_ok : bool)
  | OpRemove (segment : Z)
  | OpReset (sync_ok : bool).

Definition wal_step (w : Wal) (op : wal_op) : Wal :=
  match op with
  | OpAppend p outcome sync_ok => (append w p outcome sync_ok).1
  | OpRotate sync_ok => (rotate w sync_ok).1
  | OpRemove segment => remove_through w segment
  | OpReset sync_ok => (wal_reset w sync_ok).1
  end.

(** The promise: numbered segments of payloads, one of them current. *)
Record Log : Type := mkLog {
  log_segments : gmap Z (list (list Z));
  log_current : Z;
  log_poisoned : bool
}.

Definition log_replay (s : Log) : list (list Z) := concat (btree_iter (log_segments s)).*2.

Definition log_step (mode : SyncMode) (s : Log) (op : wal_op) : Log :=
  let '(mkLog segs cur bad) := s in
  match op with
  | OpRemove segment => mkLog (filter (fun e => segment < e.1 \/ e.1 = cur) segs) cur bad
  | OpAppend p Written sync_ok =>
    if decide (payload_ok p /\ bad = false) then
      mkLog (alter (fun ps => ps ++ [p]) cur segs) cur (bool_decide (mode = SyncEach) && negb sync_ok)
    else s
  | OpAppend _ (WriteFailed _) _ => s
  | OpRotate sync_ok =>
    if bad then s
    else if sync_ok then mkLog (<[cur + 1 := []]> segs) (cur + 1) false
    else mkLog segs cur true
  | OpReset sync_ok => if bad then s else mkLog {[cur := []]} cur (negb sync_ok)
  end.

(** A file and the payloads it stands for; the current file may have bytes behind the last
    record, left by a write that failed. *)
Definition file_rel (cur : Z) (written : nat) (id : Z) (file : list Z) (ps : list (list Z)) : Prop :=
  Forall payload_ok ps /\
  if decide (id = cur) then take written file = encode_from 0 ps /\ (written <= length file)%nat
  else file = encode_from 0 ps.

Record wal_rel (w : Wal) (s : Log) : Prop := {
  rel_current : log_current s = wal_segment w;
  rel_poisoned : log_poisoned s = poisoned w;
  rel_files : map_Forall2 (file_rel (wal_segment w) (written_offset w)) (wal_files w) (log_segments s);
  rel_present : is_Some (wal_files w !! wal_segment w);
  rel_newest : forall id, is_Some (wal_files w !! id) -> id <= wal_segment w
}.

(** No failed write left bytes behind the last record. *)
Definition clean (w : Wal) : Prop :=
  forall file, wal_files w !! wal_segment w = Some file -> length file = written_offset w.

Lemma replay_each w segs :
  map_Forall2 (fun id file ps => exists raw, segment_raw w id file = Ok raw /\ parse_records raw = Ok ps)
    (wal_files w) segs ->
  replay_all w = Ok (concat (btree_iter segs).*2).
Proof using Type.
  intros HR. unfold replay_all. apply btree_iter_Forall2 in HR.
  change (concat (btree_iter segs).*2) with ([] ++ concat (btree_iter segs).*2).
  generalize (@nil (list Z)). induction HR as [|[id file] [id' ps] l l' [Heq (raw & Hraw & Hparse)] _ IH]; intros out.
  { cbn. by rewrite app_nil_r. }
  simpl in Heq. subst id'. cbn [replay_segments fst snd fmap list_fmap concat] in *.
  rewrite Hraw. cbn [io_bind]. rewrite Hparse. cbn [io_bind]. by rewrite IH, <-app_assoc.
Qed.

Lemma file_rel_reads w id file ps :
  file_rel (wal_segment w) (written_offset w) id file ps ->
  exists raw, segment_raw w id file = Ok raw /\ parse_records raw = Ok ps.
Proof using crc_range.
  intros [Hok Hf]. exists (encode_from 0 ps). split; [|by apply parse_records_encoded].
  unfold segment_raw. destruct (Z.eqb_spec id (wal_segment w)).
  - rewrite decide_True in Hf by done. destruct Hf as [<- Hle].
    by destruct (Nat.ltb_spec (length file) (written_offset w)); [lia|].
  - rewrite decide_False in Hf by done. by rewrite Hf.
Qed.

Lemma replay_refines w s : wal_rel w s -> replay_all w = Ok (log_replay s).
Proof using crc_range.
  intros [_ _ HR _ _]. apply replay_each. eapply map_Forall2_impl; [done|]. apply file_rel_reads.
Qed.

Lemma write_at_take offset bytes file :
  (offset <= length file)%nat ->
  take (offset + length bytes) (write_at offset bytes file) = take offset file ++ bytes.
Proof using Type.
  intros H. unfold write_at. rewrite app_assoc. apply take_app_length'.
  rewrite length_app, length_take. lia.
Qed.

Lemma write_at_prefix offset bytes file :
  (offset <= length file)%nat -> take offset (write_at offset bytes file) = take offset file.
Proof using Type.
  intros H. unfold write_at. rewrite take_app_length' by (rewrite length_take; lia). done.
Qed.

Lemma length_write_at offset bytes file :
  (offset <= length file)%nat -> (offset + length bytes <= length (write_at offset bytes file))%nat.
Proof using Type. intros H. unfold write_at. rewrite !length_app, length_take. lia. Qed.

(** ** Every operation implements its promise *)

Lemma insert_alter_lookup {A} (m : gmap Z A) (k : Z) (f : A -> A) x :
  m !! k = Some x -> <[k := f x]> m = alter f k m.
Proof using Type.
  intros H. apply map_eq. intros j. destruct (decide (j = k)) as [->|].
  - by rewrite lookup_insert_eq, lookup_alter_eq, H.
  - by rewrite lookup_insert_ne, lookup_alter_ne.
Qed.

Lemma rel_lookup w s :
  wal_rel w s -> exists file ps, wal_files w !! wal_segment w = Some file /\
    log_segments s !! wal_segment w = Some ps /\ Forall payload_ok ps /\
    take (written_offset w) file = encode_from 0 ps /\ (written_offset w <= length file)%nat /\
    written_offset w = length (encode_from 0 ps).
Proof using Type.
  intros [_ _ HR [file Hfile] _]. specialize (HR (wal_segment w)). rewrite Hfile in HR. inv HR as [? ps H|].
  destruct H as [Hok Hf]. rewrite decide_True in Hf by done. exists file, ps.
  repeat split; try done; try apply Hf. destruct Hf as [<- Hle]. rewrite length_take. lia.
Qed.

(** The current file changes, the others stay. *)
Lemma rel_update w s file ps durable written bad :
  wal_rel w s -> Forall payload_ok ps -> take written file = encode_from 0 ps -> (written <= length file)%nat ->
  wal_rel (mkWal (<[wal_segment w := file]> (wal_files w)) (wal_segment w) durable written bad (wal_mode w))
    (mkLog (<[wal_segment w := ps]> (log_segments s)) (wal_segment w) bad).
Proof using Type.
  intros [Hc Hp HR Hin Hnew] Hok Hf Hle. constructor; cbn; try done.
  - intros id. destruct (decide (id = wal_segment w)) as [->|Hne].
    { rewrite !lookup_insert_eq. constructor. split; [done|]. by rewrite decide_True by done. }
    rewrite !lookup_insert_ne by done. specialize (HR id). destruct HR as [x y [Hy Hx]|]; constructor.
    split; [done|]. rewrite decide_False in Hx |- * by done. done.
  - by rewrite lookup_insert_eq.
  - intros id Hid. destruct (decide (id = wal_segment w)) as [->|Hne]; [lia|].
    rewrite lookup_insert_ne in Hid by done. by apply Hnew.
Qed.

(** Only the flags change. *)
Lemma rel_flags w s durable bad :
  wal_rel w s ->
  wal_rel (mkWal (wal_files w) (wal_segment w) durable (written_offset w) bad (wal_mode w))
    (mkLog (log_segments s) (wal_segment w) bad).
Proof using Type. intros [Hc Hp HR Hin Hnew]. by constructor. Qed.

Lemma append_refines w s p outcome sync_ok :
  wal_rel w s -> wal_rel (append w p outcome sync_ok).1 (log_step (wal_mode w) s (OpAppend p outcome sync_ok)).
Proof using crc_range.
  intros HR. pose proof (rel_lookup w s HR) as (file & ps & Hfile & Hps & Hok & Htake & Hle & Hw).
  pose proof (rel_current _ _ HR) as Hc. pose proof (rel_poisoned _ _ HR) as Hp. destruct s as [segs cur bad].
  cbn [log_segments log_current log_poisoned] in *. subst cur bad. unfold append, log_step.
  assert (Hdec : payload_ok p <-> (length p =? 0)%nat = false /\ (MAX_ENTRY_SIZE <? zlen p) = false).
  { unfold payload_ok. rewrite Nat.eqb_neq, Z.ltb_ge. rewrite <-length_zero_iff_nil. done. }
  destruct (length p =? 0)%nat.
  { by destruct outcome; [rewrite decide_False by (rewrite Hdec; naive_solver)|]. }
  destruct (MAX_ENTRY_SIZE <? zlen p).
  { by destruct outcome; [rewrite decide_False by (rewrite Hdec; naive_solver)|]. }
  destruct (poisoned w) eqn:Hpois; [by destruct outcome; [rewrite decide_False by (by intros [_ ?])|]|].
  rewrite Hfile. cbn [default id]. destruct outcome as [|n].
  - rewrite (decide_True (P := payload_ok p /\ false = false)) by (split; [by apply Hdec|done]). rewrite <-(insert_alter_lookup segs _ _ _ Hps).
    assert (Hnew : take (written_offset w + length (encode_record (written_offset w) p))
      (write_at (written_offset w) (encode_record (written_offset w) p) file) = encode_from 0 (ps ++ [p])).
    { rewrite write_at_take, Htake, encode_from_app by done. cbn [encode_from Nat.add]. by rewrite app_nil_r, <-Hw. }
    assert (Hok' : Forall payload_ok (ps ++ [p])) by (apply Forall_app; rewrite Forall_singleton; split; [done|by apply Hdec]).
    pose proof (fun d b => rel_update w _ _ _ d _ b HR Hok' Hnew (length_write_at _ _ _ Hle)) as Hupd.
    cbn [log_segments] in Hupd. unfold with_file. cbn [wal_mode]. destruct (decide (wal_mode w = SyncEach)) as [Hm|Hm].
    + rewrite bool_decide_true by done. unfold sync_or_poison. cbn. destruct sync_ok; cbn; rewrite ?Hpois; apply Hupd.
    + rewrite bool_decide_false by done. cbn. rewrite Hpois. apply Hupd.
  - cbn [fst]. unfold with_file. rewrite Hpois. rewrite <-(insert_id segs _ _ Hps).
    refine (rel_update w _ _ _ _ _ _ HR Hok _ _).
    + by rewrite write_at_prefix.
    + pose proof (length_write_at (written_offset w) (take n (encode_record (written_offset w) p)) file Hle). lia.
Qed.

Lemma rotate_refines w s sync_ok :
  wal_rel w s -> clean w -> in_u 64 (wal_segment w) -> wal_segment w + 1 < 2 ^ 64 ->
  wal_rel (rotate w sync_ok).1 (log_step (wal_mode w) s (OpRotate sync_ok)).
Proof using Type.
  intros HR Hclean [H0 _] Hlt. pose proof (rel_lookup w s HR) as (file & ps & Hfile & Hps & Hok & Htake & Hle & Hw).
  pose proof HR as [Hc Hp HF Hin Hnew]. destruct s as [segs cur bad].
  cbn [log_segments log_current log_poisoned] in *. subst cur bad. unfold rotate, log_step.
  destruct (poisoned w) eqn:Hpois; [done|]. destruct sync_ok; cbn [sync_or_poison wal_files wal_segment fst];
    [|by apply rel_flags with (s := mkLog segs (wal_segment w) false)].
  assert (wrap 64 (wal_segment w + 1) = wal_segment w + 1) as -> by (apply Z.mod_small; lia).
  assert (Hnone : wal_files w !! (wal_segment w + 1) = None).
  { apply eq_None_not_Some. intros Hs. apply Hnew in Hs. lia. }
  rewrite Hnone. cbn [fst]. constructor; cbn; try done.
  - intros id. destruct (decide (id = wal_segment w + 1)) as [->|Hne].
    { rewrite !lookup_insert_eq. constructor. split; [constructor|]. by rewrite decide_True by done. }
    rewrite !lookup_insert_ne by done. specialize (HF id). destruct (decide (id = wal_segment w)) as [->|Hid].
    + rewrite Hfile, Hps. constructor. split; [done|]. rewrite decide_False by done.
      rewrite <-Htake. symmetry. apply take_ge. by rewrite (Hclean _ Hfile).
    + destruct HF as [x y [Hy Hx]|]; constructor. split; [done|]. rewrite decide_False in Hx by done. by rewrite decide_False by done.
  - by rewrite lookup_insert_eq.
  - intros id Hid. destruct (decide (id = wal_segment w + 1)) as [->|Hne]; [lia|].
    rewrite lookup_insert_ne in Hid by done. apply Hnew in Hid. lia.
Qed.

Lemma fold_delete_lookup {A} (test : Z -> bool) l (m : gmap Z A) k :
  fold_left (fun files id => if test id then delete id files else files) l m !! k =
  if decide (k ∈ l /\ test k = true) then None else m !! k.
Proof using Type.
  revert m. induction l as [|id l IH]; intros m; cbn [fold_left].
  { rewrite decide_False; [done|]. intros [H _]. by apply not_elem_of_nil in H. }
  rewrite IH. destruct (decide (k ∈ l /\ test k = true)) as [[Hin Ht]|Hn].
  - rewrite decide_True; [done|]. split; [by right|done].
  - destruct (test id) eqn:Hid.
    + destruct (decide (k = id)) as [->|Hne].
      * rewrite decide_True by (split; [by left|done]). apply lookup_delete_eq.
      * rewrite lookup_delete_ne by done. rewrite decide_False; [done|].
        intros [[?|?]%elem_of_cons ?]; [done|by apply Hn].
    + rewrite decide_False; [done|]. intros [[->|?]%elem_of_cons ?]; [congruence|by apply Hn].
Qed.

Lemma elem_of_list_segments files k : k ∈ list_segments files <-> is_Some (files !! k).
Proof using Type.
  unfold list_segments. rewrite list_elem_of_fmap. split.
  - intros ([? x] & -> & H). rewrite elem_of_btree_iter in H. by exists x.
  - intros [x H]. exists (k, x). by rewrite elem_of_btree_iter.
Qed.

(** Deleting the listed segments that meet a test. *)
Lemma fold_delete_segments (test : Z -> bool) (files : gmap Z (list Z)) k :
  fold_left (fun files id => if test id then delete id files else files) (list_segments files) files !! k =
  if test k then None else files !! k.
Proof using Type.
  rewrite fold_delete_lookup. destruct (decide _) as [[_ ->]|Hn]; [done|].
  destruct (test k) eqn:Ht; [|done]. apply eq_None_not_Some. rewrite <-elem_of_list_segments.
  intros Hk. by apply Hn.
Qed.

Lemma remove_refines w s segment :
  wal_rel w s -> wal_rel (remove_through w segment) (log_step (wal_mode w) s (OpRemove segment)).
Proof using Type.
  intros [Hc Hp HF Hin Hnew]. destruct s as [segs cur bad].
  cbn [log_segments log_current log_poisoned] in *. subst cur bad. unfold remove_through, log_step.
  pose proof (fold_delete_segments (fun id => (id <=? segment) && negb (id =? wal_segment w)) (wal_files w)) as Hl.
  assert (Hkeep : forall k, (k <=? segment) && negb (k =? wal_segment w) = false <-> segment < k \/ k = wal_segment w).
  { intros k. rewrite andb_false_iff, Z.leb_gt, negb_false_iff, Z.eqb_eq. done. }
  constructor; cbn [wal_files wal_segment written_offset log_segments log_current log_poisoned poisoned]; try done.
  - intros k. rewrite Hl, map_lookup_filter. specialize (HF k). cbn [fst].
    destruct (_ && _) eqn:Ht.
    + destruct (segs !! k); [|constructor]. cbn. rewrite option_guard_False; [constructor|].
      intros H. apply Hkeep in H. congruence.
    + destruct HF as [x y Hxy|]; [|constructor]. cbn. rewrite option_guard_True by (by apply Hkeep). by constructor.
  - rewrite Hl, Z.eqb_refl, andb_false_r. done.
  - intros id. rewrite Hl. destruct (_ && _); [by intros [? ?]|]. apply Hnew.
Qed.

Lemma reset_refines w s sync_ok :
  wal_rel w s -> wal_rel (wal_reset w sync_ok).1 (log_step (wal_mode w) s (OpReset sync_ok)).
Proof using Type.
  intros [Hc Hp HF Hin Hnew]. destruct s as [segs cur bad].
  cbn [log_segments log_current log_poisoned] in *. subst cur bad. unfold wal_reset, log_step.
  destruct (poisoned w) eqn:Hpois; [by constructor|].
  set (files := fold_left _ _ _). assert (Hl : <[wal_segment w := []]> files = {[wal_segment w := []]}).
  { apply map_eq. intros k. destruct (decide (k = wal_segment w)) as [->|Hk].
    - by rewrite lookup_insert_eq, lookup_singleton_eq.
    - rewrite lookup_insert_ne, lookup_singleton_ne by done. unfold files.
      rewrite (fold_delete_segments (fun id => negb (id =? wal_segment w))).
      by destruct (Z.eqb_spec k (wal_segment w)). }
  rewrite Hl. destruct sync_ok; (constructor; cbn; try done;
    [by rewrite map_Forall2_singleton; split; [constructor|rewrite decide_True by done]
    |by rewrite lookup_singleton_eq
    |intros id; destruct (decide (id = wal_segment w)) as [->|]; [lia|];
     rewrite lookup_singleton_ne by done; by intros [? ?]]).
Qed.

(** The refusals of [append], each closed by [tac]. *)
Ltac append_guards w p tac :=
  destruct (length p =? 0)%nat; [tac|]; destruct (MAX_ENTRY_SIZE <? zlen p); [tac|];
  destruct (poisoned w); [tac|].

Lemma wal_mode_step w op : wal_mode (wal_step w op) = wal_mode w.
Proof using Type.
  destruct op as [p o b|b|n|b]; cbn [wal_step].
  - unfold append. append_guards w p ltac:(done). destruct o; [|done].
    cbv zeta. destruct (decide _); [|done]. by destruct b.
  - unfold rotate. destruct (poisoned w); [done|]. destruct b; [|done]. cbn [sync_or_poison].
    cbn [wal_files wal_segment]. by destruct (wal_files w !! wrap 64 (wal_segment w + 1)).
  - done.
  - unfold wal_reset. destruct (poisoned w); [done|]. by destruct b.
Qed.

(** The conditions under which a step is covered: a segment is closed only when no failed write
    left bytes in it, and the numbering does not run out. *)
Definition step_ok (w : Wal) (op : wal_op) : Prop :=
  match op with
  | OpRotate _ => clean w /\ in_u 64 (wal_segment w) /\ wal_segment w + 1 < 2 ^ 64
  | _ => True
  end.

Lemma step_refines w s op :
  wal_rel w s -> step_ok w op -> wal_rel (wal_step w op) (log_step (wal_mode w) s op).
Proof using crc_range.
  intros HR Hok. destruct op as [p o b|b|n|b]; cbn [wal_step step_ok] in *.
  - by apply append_refines.
  - destruct Hok as (? & ? & ?). by apply rotate_refines.
  - by apply remove_refines.
  - by apply reset_refines.
Qed.

(** An append whose write reaches the file completely. *)
Definition whole_write (op : wal_op) : Prop :=
  match op with OpAppend _ (WriteFailed _) _ => False | _ => True end.

Lemma length_write_at_end bytes file : length (write_at (length file) bytes file) = (length file + length bytes)%nat.
Proof using Type. unfold write_at. rewrite take_ge, drop_ge, !length_app by lia. simpl. lia. Qed.

Lemma clean_step w s op : wal_rel w s -> clean w -> whole_write op -> clean (wal_step w op).
Proof using Type.
  intros HR Hc Hw. pose proof (rel_lookup w s HR) as (file & ps & Hfile & _).
  destruct op as [p [|n] b|b|n|b]; cbn [wal_step whole_write] in *; try done.
  - unfold append. append_guards w p ltac:(done). rewrite Hfile. cbn [default id].
    rewrite <-(Hc _ Hfile).
    assert (Hcl : forall d q, clean (mkWal (<[wal_segment w := write_at (length file) (encode_record (length file) p) file]>
      (wal_files w)) (wal_segment w) d (length file + length (encode_record (length file) p)) q (wal_mode w))).
    { intros d q f. cbn. rewrite lookup_insert_eq. intros [= <-]. apply length_write_at_end. }
    cbv zeta. destruct (decide _); [|apply Hcl]. destruct b; apply Hcl.
  - unfold rotate. destruct (poisoned w); [done|]. destruct b; [|done]. cbn [sync_or_poison].
    cbn [wal_files wal_segment]. destruct (wal_files w !! wrap 64 (wal_segment w + 1)); [exact Hc|]. intros f. cbn. rewrite lookup_insert_eq.
    by intros [= <-].
  - intros f. unfold remove_through. cbn [wal_files wal_segment written_offset].
    rewrite (fold_delete_segments (fun id => (id <=? n) && negb (id =? wal_segment w))), Z.eqb_refl, andb_false_r.
    apply Hc.
  - unfold wal_reset. destruct (poisoned w); [done|]. destruct b; intros f; cbn; rewrite lookup_insert_eq; by intros [= <-].
Qed.

Lemma segment_step w op :
  in_u 64 (wal_segment w) -> wal_segment w + 1 < 2 ^ 64 ->
  wal_segment w <= wal_segment (wal_step w op) <= wal_segment w + 1.
Proof using Type.
  intros [H0 H1] H2. destruct op as [p o b|b|n|b]; cbn [wal_step].
  - unfold append. append_guards w p ltac:(simpl; lia). destruct o; [|simpl; lia].
    cbv zeta. destruct (decide _); [|simpl; lia]. destruct b; simpl; lia.
  - unfold rotate. destruct (poisoned w); [simpl; lia|]. destruct b; [|simpl; lia]. cbn [sync_or_poison].
    cbn [wal_files wal_segment]. destruct (wal_files w !! wrap 64 (wal_segment w + 1)); [simpl; lia|]. cbn [fst wal_segment].
    unfold wrap. rewrite Z.mod_small by lia. lia.
  - simpl. lia.
  - unfold wal_reset. destruct (poisoned w); [simpl; lia|]. destruct b; simpl; lia.
Qed.

Lemma run_refines ops w s :
  wal_rel w s -> clean w -> Forall whole_write ops -> 0 <= wal_segment w -> wal_segment w + zlen ops < 2 ^ 64 ->
  wal_rel (fold_left wal_step ops w) (fold_left (log_step (wal_mode w)) ops s).
Proof using crc_range.
  revert w s. induction ops as [|op ops IH]; intros w s HR Hc Hops H0 H1; [done|].
  apply Forall_cons in Hops as [Hop Hops]. cbn [fold_left length] in *.
  assert (Hu : in_u 64 (wal_segment w)) by (unfold in_u; lia).
  pose proof (segment_step w op Hu ltac:(lia)) as Hseg.
  rewrite <-(wal_mode_step w op) at 1. apply IH; try done; try lia.
  - apply step_refines; [done|]. destruct op; try done. split; [done|]. split; [done|lia].
  - by eapply clean_step.
Qed.

(** ** Opening a folder *)

Lemma last_segment files cur :
  is_Some (files !! cur) -> (forall id, is_Some (files !! id) -> id <= cur) ->
  last (list_segments files) = Some cur.
Proof using Type.
  intros Hin Hnew. rewrite <-elem_of_list_segments in Hin. unfold list_segments in *. rewrite fmap_last.
  pose proof (btree_iter_ascending files) as Hasc.
  destruct (last (btree_iter files)) as [[k x]|] eqn:E; [|apply last_None in E; rewrite E in Hin; by apply not_elem_of_nil in Hin].
  simpl. f_equal. apply last_Some in E as [l E]. rewrite E in Hasc, Hin.
  assert (Hk : k <= cur).
  { apply Hnew. exists x. apply elem_of_btree_iter. rewrite E, elem_of_app, list_elem_of_singleton. by right. }
  rewrite fmap_app, elem_of_app in Hin. destruct Hin as [Hin|Hin]; [|by apply list_elem_of_singleton in Hin].
  apply list_elem_of_fmap in Hin as ([k' x'] & -> & Hin). simpl in *.
  assert (Hlt : key_clt k' k).
  { by apply (StronglySorted_app_1_elem_of _ _ _ (k', x') (k, x) Hasc Hin), list_elem_of_singleton. }
  unfold key_clt in Hlt. cbn in Hlt. rewrite Z.compare_lt_iff in Hlt. lia.
Qed.

Lemma wal_open_newest files cur file mode :
  files !! cur = Some file -> (forall id, is_Some (files !! id) -> id <= cur) ->
  wal_open files mode =
    let! (file, stop) := scan_and_truncate file in
    Ok (mkWal (<[cur := file]> files) cur stop stop false mode).
Proof using Type.
  intros Hf Hnew. unfold wal_open. rewrite (last_segment files cur) by (done || by rewrite Hf).
  by rewrite Hf.
Qed.

(** What a crash leaves: the closed segments, and of the current one the synced bytes followed by
    anything at all. *)
Record crashed (w : Wal) (files : gmap Z (list Z)) : Prop := {
  crash_closed : forall id, id <> wal_segment w -> files !! id = wal_files w !! id;
  crash_durable : exists file file', wal_files w !! wal_segment w = Some file /\
    files !! wal_segment w = Some file' /\ (durable_offset w <= length file')%nat /\
    take (durable_offset w) file' = take (durable_offset w) file
}.

(** The synced records [ds] of the current segment. *)
Definition durable_records (w : Wal) (s : Log) (ds : list (list Z)) : Prop :=
  exists ps, log_segments s !! wal_segment w = Some ps /\ ds `prefix_of` ps /\
    durable_offset w = length (encode_from 0 ds).

Lemma crashed_file w s ds files :
  wal_rel w s -> durable_records w s ds -> crashed w files ->
  Forall payload_ok ds /\ exists tail, files !! wal_segment w = Some (encode_from 0 ds ++ tail).
Proof using Type.
  intros HR (ps & Hps & [rest ->] & Hd) [_ (file & file' & Hf & Hf' & Hle & Ht)].
  pose proof (rel_lookup w s HR) as (file0 & ps0 & Hf0 & Hps0 & Hok & Htake & Hle0 & Hw).
  simplify_eq. rewrite Forall_app in Hok. split; [apply Hok|]. exists (drop (durable_offset w) file').
  rewrite Hf'. f_equal. rewrite <-(take_drop (durable_offset w) file') at 1. f_equal.
  rewrite Ht. rewrite encode_from_app in Htake, Hw. rewrite length_app in Hw.
  apply (f_equal (take (durable_offset w))) in Htake.
  rewrite take_take, Nat.min_l in Htake by lia. rewrite Htake. apply take_app_length'. done.
Qed.

Lemma crash_replay w s ds files mode w' :
  wal_rel w s -> durable_records w s ds -> crashed w files -> wal_open files mode = Ok w' ->
  exists qs, replay_all w' = Ok (log_replay (mkLog (<[wal_segment w := ds ++ qs]> (log_segments s)) (wal_segment w) false)).
Proof using crc_range.
  intros HR Hds Hcr Hopen. destruct (crashed_file w s ds files HR Hds Hcr) as (Hok & tail & Hfile).
  destruct Hcr as [Hclosed _]. pose proof HR as [_ _ HF Hin Hnew].
  rewrite (wal_open_newest _ _ _ mode Hfile) in Hopen.
  2:{ intros id Hid. destruct (decide (id = wal_segment w)) as [->|]; [lia|]. rewrite Hclosed in Hid by done. by apply Hnew. }
  destruct (scan_and_truncate _) as [[file stop]|] eqn:Hscan; [|done]. injection Hopen as <-.
  destruct (recovery_keeps _ _ _ _ Hok Hscan) as [Hlen [qs Hqs]]. exists qs. apply replay_each.
  cbn [wal_files log_segments]. intros id. destruct (decide (id = wal_segment w)) as [->|Hne].
  - rewrite !lookup_insert_eq. constructor. exists file. split; [|done].
    unfold segment_raw. cbn [wal_segment written_offset]. rewrite Z.eqb_refl, <-Hlen.
    by rewrite Nat.ltb_irrefl, take_ge.
  - rewrite !lookup_insert_ne by done. rewrite Hclosed by done. specialize (HF id).
    destruct HF as [f ps [Hps Hf]|]; constructor. rewrite decide_False in Hf by done. subst f.
    exists (encode_from 0 ps). split; [|by apply parse_records_encoded].
    unfold segment_raw. cbn [wal_segment]. by destruct (Z.eqb_spec id (wal_segment w)).
Qed.

(** What an acknowledged append leaves. *)
Lemma append_acknowledged w s p outcome sync_ok off :
  wal_rel w s -> (append w p outcome sync_ok).2 = Ok off -> wal_mode w = SyncEach ->
  exists ps, log_segments s !! wal_segment w = Some ps /\ off = length (encode_from 0 ps) /\
    durable_records (append w p outcome sync_ok).1 (log_step (wal_mode w) s (OpAppend p outcome sync_ok)) (ps ++ [p]).
Proof using crc_range.
  intros HR Hack Hm. pose proof (append_refines w s p outcome sync_ok HR) as HR'.
  pose proof (rel_lookup w s HR) as (file & ps & Hfile & Hps & Hok & Htake & Hle & Hw).
  pose proof (rel_lookup _ _ HR') as (file' & ps' & Hfile' & Hps' & Hok' & _ & _ & Hw').
  exists ps. split; [done|].
  assert (Hd : off = written_offset w /\
    durable_offset (append w p outcome sync_ok).1 = written_offset (append w p outcome sync_ok).1 /\
    outcome = Written /\ payload_ok p /\ poisoned w = false).
  { revert Hack. clear - Hm. unfold append, payload_ok.
    destruct (Nat.eqb_spec (length p) 0) as [|Hne]; [done|]. destruct (Z.ltb_spec MAX_ENTRY_SIZE (zlen p)); [done|].
    destruct (poisoned w); [done|]. destruct outcome; [|done]. cbv zeta.
    rewrite decide_True by done. destruct sync_ok; [|done]. cbn. intros [= <-].
    split; [done|]. split; [done|]. split; [done|]. split; [|done]. split; [by intros ->|done]. }
  destruct Hd as (-> & Hd & -> & Hp & Hpois). split; [done|].
  assert (ps' = ps ++ [p]) as ->.
  { pose proof (rel_current _ _ HR) as Hc. pose proof (rel_poisoned _ _ HR) as Hb.
    pose proof (rel_current _ _ HR') as Hc'. rewrite <-Hc' in Hps'. destruct s as [segs cur bad].
    cbn [log_segments log_current log_poisoned] in *. subst. rewrite Hpois in Hps'. unfold log_step in Hps'.
    rewrite (decide_True (P := payload_ok p /\ false = false)) in Hps' by done.
    cbn [log_segments log_current] in Hps'. rewrite lookup_alter_eq, Hps in Hps'. by injection Hps'. }
  exists (ps ++ [p]). split; [done|]. split; [done|]. by rewrite Hd.
Qed.

(** ** A failed write before a rotation *)

Lemma parse_junk ps junk :
  Forall payload_ok ps -> (0 < length junk < 8)%nat -> parse_records (encode_from 0 ps ++ junk) = Err truncated_replay.
Proof using crc_range.
  intros Hok Hj. unfold parse_records. pose proof (length_encode_from 0 ps) as Hl.
  pose proof (parse_encoded ps [] junk [] (S (length (encode_from 0 ps ++ junk) - length ps)) Hok) as E.
  cbv zeta in E. change (length []) with O in E. cbn [app Nat.add] in E. rewrite length_app in *.
  replace (S (length (encode_from 0 ps) + length junk)) with
    (length ps + S (length (encode_from 0 ps) + length junk - length ps))%nat by lia.
  rewrite E. cbn [records_loop]. rewrite length_app. unfold HEADER_SIZE.
  destruct (Nat.ltb_spec (length (encode_from 0 ps)) (length (encode_from 0 ps) + length junk)); [|lia].
  by destruct (Nat.ltb_spec (length (encode_from 0 ps) + length junk) (length (encode_from 0 ps) + 8)); [|lia].
Qed.

Lemma replay_error w id file e :
  wal_files w !! id = Some file -> id <> wal_segment w -> parse_records file = Err e ->
  exists e', replay_all w = Err e'.
Proof using Type.
  intros Hf Hid He. unfold replay_all. rewrite <-elem_of_btree_iter in Hf. revert Hf. generalize (@nil (list Z)).
  induction (btree_iter (wal_files w)) as [|[id' file'] l IH]; intros out Hin; [by apply not_elem_of_nil in Hin|].
  cbn [replay_segments]. destruct (segment_raw w id' file') as [raw|] eqn:Hraw; [|by eexists]. cbn [io_bind].
  destruct (parse_records raw) as [rs|] eqn:Hp; [|by eexists]. cbn [io_bind].
  apply elem_of_cons in Hin as [[= <- <-]|Hin]; [|by apply IH].
  unfold segment_raw in Hraw. destruct (Z.eqb_spec id (wal_segment w)); [done|]. congruence.
Qed.

(** ** The properties of the log *)

(** C37: recovery of the newest segment: a record cut short is never valid at its own offset; when
    no valid record starts behind the last intact one, the file is cut exactly there and every
    record before it is still read; when a valid record follows the damage, recovery refuses. *)
Theorem recovery_correct ps tail :
  Forall payload_ok ps ->
  let n := length (encode_from 0 ps) in
  let file := encode_from 0 ps ++ tail in
  (forall p k, payload_ok p -> (k < length (encode_record n p))%nat -> tail = take k (encode_record n p) ->
    read_record_at file n (length file) = None) /\
  (no_record_from file n ->
    scan_and_truncate file = Ok (encode_from 0 ps, n) /\ parse_records (encode_from 0 ps) = Ok ps) /\
  (forall q e, read_record_at file n (length file) = None -> (n < q)%nat ->
    (q + MIN_RECORD_SIZE <= length file)%nat -> read_record_at file q (length file) = Some e ->
    scan_and_truncate file = Err wal_corruption).
Proof using crc_range.
  intros Hok. cbv zeta. split; [|split].
  - intros p k Hp Hk ->. by apply read_record_torn.
  - intros Hnone. split; [by apply scan_truncates|by apply parse_records_encoded].
  - intros q e Hn Hq Hle He. unfold scan_and_truncate. rewrite valid_end_scan by done.
    unfold MIN_RECORD_SIZE in Hle. rewrite (proj2 (Nat.ltb_lt _ _)) by lia.
    rewrite (probe_some _ _ _ q e) by (unfold MIN_RECORD_SIZE; lia || done). done.
Qed.



(** Closing a segment after a failed write: the rotation succeeds and leaves the bytes of the
    failed write in the closed segment, and when they are fewer than a record header every
    replay fails, also after reopening the folder. *)
Theorem failed_append_rotate w s p n sync_ok :
  wal_rel w s -> clean w -> poisoned w = false -> payload_ok p -> (0 < n < 8)%nat ->
  in_u 64 (wal_segment w) -> wal_segment w + 1 < 2 ^ 64 ->
  let w1 := (append w p (WriteFailed n) sync_ok).1 in
  let w2 := (rotate w1 true).1 in
  (rotate w1 true).2 = Ok (wal_segment w) /\ (exists e, replay_all w2 = Err e) /\
  exists w3 e, wal_open (wal_files w2) (wal_mode w) = Ok w3 /\ replay_all w3 = Err e.
Proof using crc_range.
  intros HR Hc Hpois Hp Hn [H0 _] H1. cbv zeta.
  pose proof (rel_lookup w s HR) as (file & ps & Hfile & Hps & Hok & Htake & Hle & Hw).
  set (junk := take n (encode_record (written_offset w) p)).
  assert (Hj : length junk = n) by (unfold junk; rewrite length_take, length_encode_record; unfold HEADER_SIZE; lia).
  assert (Hw1 : (append w p (WriteFailed n) sync_ok).1 = with_file w (encode_from 0 ps ++ junk) (written_offset w)).
  { unfold append. rewrite (proj2 (Nat.eqb_neq _ _)) by (destruct Hp; by destruct p).
    rewrite (proj2 (Z.ltb_ge _ _)) by apply Hp. rewrite Hpois, Hfile. cbn [default id fst].
    unfold write_at. fold junk. rewrite Htake, drop_ge, app_nil_r; [done|]. rewrite (Hc _ Hfile). lia. }
  rewrite Hw1. unfold rotate, with_file. cbn [poisoned]. rewrite Hpois. cbn [sync_or_poison wal_files wal_segment].
  assert (wrap 64 (wal_segment w + 1) = wal_segment w + 1) as -> by (apply Z.mod_small; lia).
  destruct HR as [_ _ _ _ Hnew].
  assert (Hnone : wal_files w !! (wal_segment w + 1) = None).
  { apply eq_None_not_Some. intros Hs. apply Hnew in Hs. lia. }
  rewrite lookup_insert_ne by lia. rewrite Hnone. cbn [fst snd wal_files]. split; [done|].
  set (files := <[wal_segment w + 1 := []]> (<[wal_segment w := encode_from 0 ps ++ junk]> (wal_files w))).
  assert (Hclosed : files !! wal_segment w = Some (encode_from 0 ps ++ junk))
    by (unfold files; rewrite lookup_insert_ne by lia; apply lookup_insert_eq).
  pose proof (parse_junk ps junk Hok ltac:(lia)) as Hbad. split.
  { eapply replay_error; [exact Hclosed|simpl; lia|exact Hbad]. }
  assert (Hopen : wal_open files (wal_mode w) =
    Ok (mkWal (<[wal_segment w + 1 := []]> files) (wal_segment w + 1) 0 0 false (wal_mode w))).
  { rewrite (wal_open_newest files (wal_segment w + 1) []); [done|apply lookup_insert_eq|].
    intros id Hid. unfold files in Hid. destruct (decide (id = wal_segment w + 1)) as [->|]; [lia|].
    rewrite lookup_insert_ne in Hid by done. destruct (decide (id = wal_segment w)) as [->|]; [lia|].
    rewrite lookup_insert_ne in Hid by done. apply Hnew in Hid. lia. }
  rewrite Hopen. eexists. destruct (replay_error (mkWal (<[wal_segment w + 1 := []]> files) (wal_segment w + 1) 0 0
    false (wal_mode w)) (wal_segment w) (encode_from 0 ps ++ junk) truncated_replay) as [e He]; try done.
  - cbn [wal_files]. rewrite lookup_insert_ne by lia. done.
  - cbn [wal_segment]. lia.
  - by exists e.
Qed.
End wal.

(** ** Witnesses *)

(** A checksum for examples: the sum of the bytes. *)
Definition toy_crc (l : list Z) : Z := wrap 32 (fold_left Z.add l 1).

Lemma toy_crc_range l : in_u 32 (toy_crc l).
Proof. unfold toy_crc, wrap, in_u. apply Z.mod_pos_bound. lia. Qed.

(** A fresh log. *)
Definition fresh_wal : Wal := mkWal {[1 := []]} 1 0 0 false SyncEach.
Definition fresh_log : Log := mkLog {[1 := []]} 1 false.

Lemma fresh_rel : wal_rel toy_crc fresh_wal fresh_log.
Proof.
  constructor; try done.
  - cbn. apply map_Forall2_singleton. split; [constructor|done].
  - intros id. cbn. destruct (decide (id = 1)) as [->|]; [lia|]. rewrite lookup_singleton_ne by done. by intros [? ?].
Qed.

Lemma recovery_correct_witness :
  scan_and_truncate toy_crc (encode_from toy_crc 0 [[1;2];[3]] ++ take 9 (encode_record toy_crc 19 [4;5;6])) =
    Ok (encode_from toy_crc 0 [[1;2];[3]], 19%nat) /\
  scan_and_truncate toy_crc (encode_from toy_crc 0 [[1;2];[3]] ++ [0] ++ encode_record toy_crc 20 [4;5;6]) =
    Err wal_corruption.
Proof.
  split; [vm_compute; reflexivity|].
  destruct (recovery_correct toy_crc toy_crc_range [[1;2];[3]] ([0] ++ encode_record toy_crc 20 [4;5;6]))
    as (_ & _ & H3); [repeat constructor; done|].
  apply (H3 20%nat 31%nat); vm_compute; try reflexivity; lia.
Defined.



Lemma failed_append_rotate_witness :
  exists e, replay_all toy_crc (rotate (append toy_crc fresh_wal [1;2] (WriteFailed 5) true).1 true).1 = Err e.
Proof.
  destruct (failed_append_rotate toy_crc toy_crc_range fresh_wal fresh_log [1;2] 5 true fresh_rel)
    as (_ & H & _); try done; [|lia].
  intros f. vm_compute. intros [= <-]. reflexivity.
Defined.
