(* ===== verification/Scorer.v ===== *)
(** * BM25 scores

    Models [crates/core-query/src/scorer.rs], [scored_posting.rs] and the trait [SearchStats] of
    [crates/core-index/src/search.rs]. An [f32] is a value of the Standard Library's [SpecFloat]
    with 24 bits of precision and maximal exponent 128, and its operations are the correctly
    rounded ones; [f32::ln] depends on the platform's mathematical library and is a parameter. *)
From Stdlib Require Import ZArith Lia SpecFloat.
From stdpp Require Import base numbers list gmap.
From S2P Require Import Prelude Types Posting.
Local Open Scope Z_scope.

(** ** [f32] *)

Abbreviation f32 := spec_float.
Definition f32_prec : Z := 24.
Definition f32_emax : Z := 128.

Definition f32_add : f32 -> f32 -> f32 := SFadd f32_prec f32_emax.
Definition f32_sub : f32 -> f32 -> f32 := SFsub f32_prec f32_emax.
Definition f32_mul : f32 -> f32 -> f32 := SFmul f32_prec f32_emax.
Definition f32_div : f32 -> f32 -> f32 := SFdiv f32_prec f32_emax.
(** [x as f32] of an integer, rounded to nearest, ties to even. *)
Definition f32_of (x : Z) : f32 := binary_normalize f32_prec f32_emax x 0 false.

Definition f32_is_nan (x : f32) : bool := match x with S754_nan => true | _ => false end.
Definition f32_le : f32 -> f32 -> bool := SFleb.
(** [f32::min]: the other operand when one is NaN. *)
Definition f32_min (x y : f32) : f32 :=
  if f32_is_nan x then y else if f32_is_nan y then x else if f32_le x y then x else y.

(** [x as u32], [x as u64]: towards zero, saturating, and 0 for NaN. *)
Definition f32_to_u (w : Z) (x : f32) : Z :=
  match x with
  | S754_zero _ | S754_nan => 0
  | S754_infinity s => if s then 0 else u_max w
  | S754_finite s m e =>
    if s then 0
    else Z.min (u_max w) (if 0 <=? e then Z.pos m * 2 ^ e else Z.pos m / 2 ^ (- e))
  end.

(** [f32::ceil]; a value with a non-negative exponent is integral already. *)
Definition f32_ceil (x : f32) : f32 :=
  match x with
  | S754_finite s m e =>
    if 0 <=? e then x
    else
      let d := 2 ^ (- e) in
      let q := if s then - (Z.pos m / d) else (Z.pos m + d - 1) / d in
      if q =? 0 then S754_zero s else f32_of q
  | _ => x
  end.

Class Ln := f32_ln : f32 -> f32.

(** ** [SearchStats]

    The methods the scorer calls; [doc_range], which it does not, is left out. *)

Record SearchStats : Type := mkSearchStats {
  ss_doc_count : XPathId -> Z;
  ss_total_doc_len : XPathId -> Z;
  ss_doc_len : DocId -> XPathId -> option Z
}.

Definition avg_doc_len (stats : SearchStats) (xpath : XPathId) : f32 :=
  let count := ss_doc_count stats xpath in
  if count =? 0 then S754_zero false
  else f32_div (f32_of (ss_total_doc_len stats xpath)) (f32_of count).

(** [stats.doc_len(doc, xpath).unwrap_or(avg_doc_len as u32)]. *)
Definition doc_len_or_avg (stats : SearchStats) (doc : DocId) (xpath : XPathId) : Z :=
  default (f32_to_u 32 (avg_doc_len stats xpath)) (ss_doc_len stats doc xpath).

(** ** The scores *)

Section bm25.
Context {LN : Ln}.

Definition BM25_K1 : f32 := f32_div (f32_of 12) (f32_of 10).
Definition BM25_B : f32 := f32_div (f32_of 3) (f32_of 4).
Definition SCORE_SCALE : f32 := f32_of 1000.
Definition f32_zero : f32 := S754_zero false.
Definition f32_one : f32 := f32_of 1.
Definition f32_half : f32 := f32_div (f32_of 1) (f32_of 2).

Definition bm25_idf (doc_frequency doc_count : Z) : f32 :=
  let n := f32_of doc_count in
  let df := f32_min (f32_of doc_frequency) n in
  if f32_le n f32_zero || f32_le df f32_zero then f32_zero
  else f32_ln (f32_add (f32_div (f32_add (f32_sub n df) f32_half) (f32_add df f32_half)) f32_one).

Definition bm25_score (tf weight doc_len : Z) (avg_doc_len : f32) (doc_count doc_frequency : Z) : f32 :=
  if (tf =? 0) || (doc_count =? 0) || (doc_frequency =? 0) || f32_le avg_doc_len f32_zero then f32_zero
  else
    let tf := f32_of tf in
    let dl := f32_of doc_len in
    let idf := bm25_idf doc_frequency doc_count in
    let norm := f32_add (f32_sub f32_one BM25_B) (f32_mul BM25_B (f32_div dl avg_doc_len)) in
    let tf_component := f32_div (f32_mul tf (f32_add BM25_K1 f32_one)) (f32_add tf (f32_mul BM25_K1 norm)) in
    f32_mul (f32_mul (f32_of weight) idf) tf_component.

Definition bm25_score_scaled (tf weight doc_len : Z) (avg_doc_len : f32) (doc_count doc_freq : Z) : Z :=
  f32_to_u 64 (f32_mul (bm25_score tf weight doc_len avg_doc_len doc_count doc_freq) SCORE_SCALE).

Definition bm25_upper_bound (max_weight doc_count doc_frequency : Z) : Z :=
  if (doc_count =? 0) || (doc_frequency =? 0) || (max_weight =? 0) then 0
  else
    let n := f32_of doc_count in
    let df := f32_of doc_frequency in
    let idf := f32_ln (f32_add (f32_div (f32_add (f32_sub n df) f32_half) (f32_add df f32_half)) f32_one) in
    let max_tf_component := f32_add BM25_K1 f32_one in
    let max_score := f32_mul (f32_mul (f32_of max_weight) idf) max_tf_component in
    f32_to_u 64 (f32_ceil (f32_mul max_score SCORE_SCALE)).

(** What the scorer computes of one posting. *)
Definition posting_score (stats : SearchStats) (xpath : XPathId) (doc_freq doc_len : Z) (p : Posting) : Z :=
  bm25_score_scaled (wrap 32 (zlen (positions p))) (weight p) doc_len (avg_doc_len stats xpath)
    (ss_doc_count stats xpath) doc_freq.

Record ScoredPosting : Type := mkScored {
  sp_doc_id : DocId;
  sp_score : Z;
  sp_matched_terms : nat;
  sp_density : f32
}.

(** The loop of [score_term_into], with the caller's cache of document lengths. *)
Definition score_posting (stats : SearchStats) (xpath : XPathId) (true_df : Z)
    (acc : gmap DocId f32 * list ScoredPosting) (p : Posting) : gmap DocId f32 * list ScoredPosting :=
  let '(doc_len, out) := acc in
  if (length (positions p) =? 0)%nat then (doc_len, out)
  else
    let dl := default (f32_of (doc_len_or_avg stats (doc_id p) xpath)) (doc_len !! doc_id p) in
    let score := posting_score stats xpath true_df (f32_to_u 32 dl) p in
    (<[doc_id p := dl]> doc_len, out ++ [mkScored (doc_id p) score 1 f32_one]).
Definition score_term_into (stats : SearchStats) (postings : PostingList) (xpath : XPathId) (true_df : Z)
    (doc_len : gmap DocId f32) (out : list ScoredPosting) : gmap DocId f32 * list ScoredPosting :=
  fold_left (score_posting stats xpath true_df) (items postings) (doc_len, out).

Definition fuzzy_decay (edits : Z) : f32 := f32_div f32_one (f32_add f32_one (f32_of edits)).
End bm25.
