(* ===== verification/TopK.v ===== *)
(** * The heap of the best hits

    Models the bounded heap of [crates/core-query/src/wand.rs]: [WandHit], [HeapHit] with its
    reversed order, [push_top_k] and [finish_heap]. The heap keeps the best [k] of the hits
    offered to it; [heap_for] is that invariant, and [finish_heap_correct] turns it into the
    sorted list of the best [k]. *)
From Stdlib Require Import ZArith Lia.
From stdpp Require Import base numbers list sorting.
From S2P Require Import Prelude Types.
Local Open Scope Z_scope.

Record WandHit : Type := mkWandHit {
  wh_doc_id : DocId;
  wh_score : Z;
  wh_raw : Z;
  wh_matched_terms : nat
}.

Record HeapHit : Type := mkHeapHit {
  hh_doc_id : DocId;
  hh_score : Z;
  hh_raw : Z;
  hh_matched_terms : nat
}.

#[global] Instance HeapHit_eq_dec : EqDecision HeapHit.
Proof. solve_decision. Defined.

(** [impl Ord for HeapHit]: the greatest entry is the worst hit. *)
Definition HeapHit_cmp (self other : HeapHit) : comparison :=
  match hh_score other ?= hh_score self with
  | Eq => hh_doc_id self ?= hh_doc_id other
  | c => c
  end.

(** The heap gives out the greatest entry first. *)
Definition heap_first (a b : HeapHit) : bool :=
  match HeapHit_cmp a b with Lt => false | _ => true end.

Definition push_top_k (heap : list HeapHit) (doc_id score raw : Z) (matched_terms k : nat) : list HeapHit :=
  let hit := mkHeapHit doc_id score raw matched_terms in
  if (length heap <? k)%nat then hit :: heap
  else
    match heap_peek heap_first heap with
    | None => hit :: heap
    | Some worst =>
      let is_better := (hh_score worst <? score) || ((score =? hh_score worst) && (doc_id <? hh_doc_id worst)) in
      if is_better then
        match heap_pop heap_first heap with
        | Some (_, rest) => hit :: rest
        | None => [hit]
        end
      else heap
    end.

(** [hits.sort_unstable_by(|a, b| b.score.cmp(&a.score).then_with(|| a.doc_id.cmp(&b.doc_id)))] *)
Definition hit_leb (a b : WandHit) : bool :=
  match wh_score b ?= wh_score a with
  | Eq => match wh_doc_id a ?= wh_doc_id b with Gt => false | _ => true end
  | Lt => true
  | Gt => false
  end.

Definition to_wand_hit (hit : HeapHit) : WandHit :=
  mkWandHit (hh_doc_id hit) (hh_score hit) (hh_raw hit) (hh_matched_terms hit).

Definition finish_heap (heap : list HeapHit) : list WandHit := stable_sort hit_leb (to_wand_hit <$> heap).

(** ** The order of the hits *)

(** [a] is ranked in front of [b]. *)
Definition better (a b : HeapHit) : Prop :=
  hh_score b < hh_score a \/ (hh_score a = hh_score b /\ hh_doc_id a < hh_doc_id b).

Lemma better_trans a b c : better a b -> better b c -> better a c.
Proof. unfold better. lia. Qed.

Lemma better_total a b : hh_doc_id a <> hh_doc_id b -> better a b \/ better b a.
Proof. unfold better. lia. Qed.

Lemma heap_first_spec a b : heap_first a b = true <-> better b a \/ (hh_score a = hh_score b /\ hh_doc_id a = hh_doc_id b).
Proof.
  unfold heap_first, HeapHit_cmp, better.
  destruct (Z.compare_spec (hh_score b) (hh_score a)), (Z.compare_spec (hh_doc_id a) (hh_doc_id b));
    split; try done; lia.
Qed.

Lemma heap_first_total a b : heap_first a b = true \/ heap_first b a = true.
Proof. rewrite !heap_first_spec. unfold better. lia. Qed.

Lemma heap_first_trans a b c : heap_first a b = true -> heap_first b c = true -> heap_first a c = true.
Proof. rewrite !heap_first_spec. unfold better. lia. Qed.

Lemma hit_leb_spec a b :
  hit_leb (to_wand_hit a) (to_wand_hit b) = true <-> better a b \/ (hh_score a = hh_score b /\ hh_doc_id a = hh_doc_id b).
Proof.
  unfold hit_leb, better. cbn.
  destruct (Z.compare_spec (hh_score b) (hh_score a)), (Z.compare_spec (hh_doc_id a) (hh_doc_id b));
    split; try done; lia.
Qed.

(** ** The heap of [k] *)

(** [heap] holds the best [k] hits among those with [P]. *)
Record heap_for (k : nat) (P : HeapHit -> Prop) (heap : list HeapHit) : Prop := {
  hf_sound : forall x, x ∈ heap -> P x;
  hf_nodup : NoDup (hh_doc_id <$> heap);
  hf_size : (length heap <= k)%nat;
  hf_best : forall x, P x -> x ∈ heap \/ (length heap = k /\ forall y, y ∈ heap -> better y x)
}.

Lemma heap_for_empty k : heap_for k (fun _ => False) [].
Proof. constructor; [by intros x ?%not_elem_of_nil|constructor|simpl; lia|done]. Qed.

Lemma heap_for_ext k (P Q : HeapHit -> Prop) heap : (forall x, P x <-> Q x) -> heap_for k P heap -> heap_for k Q heap.
Proof. intros HPQ [H1 H2 H3 H4]. constructor; try done; intros x; rewrite <-?HPQ; [apply H1|apply H4]. Qed.

(** Hits that a full heap beats need not be offered. *)
Lemma heap_for_skip k (P Q : HeapHit -> Prop) heap :
  heap_for k P heap -> (forall x, Q x -> length heap = k /\ forall y, y ∈ heap -> better y x) ->
  heap_for k (fun x => P x \/ Q x) heap.
Proof.
  intros [H1 H2 H3 H4] HQ. constructor; try done.
  - intros x Hx. left. by apply H1.
  - intros x [Hx|Hx]; [by apply H4|right; by apply HQ].
Qed.

Lemma heap_peek_worst h w :
  heap_peek heap_first h = Some w ->
  w ∈ h /\ (forall y, y ∈ h -> heap_first w y = true) /\
  exists rest, heap_pop heap_first h = Some (w, rest) /\ h ≡ₚ w :: rest.
Proof.
  unfold heap_peek. destruct (heap_pop heap_first h) as [[m rest]|] eqn:E; [|done]. intros [= <-]. simpl.
  destruct (heap_pop_spec heap_first heap_first_total heap_first_trans _ _ _ E) as [Hp Hm].
  split; [rewrite Hp; left|]. split; [|by exists rest]. intros y. rewrite Hp. intros [->|Hy]%elem_of_cons.
  - by destruct (heap_first_total m m).
  - rewrite Forall_forall in Hm. by apply Hm.
Qed.

Lemma heap_for_push k (P : HeapHit -> Prop) heap doc score raw matched :
  (0 < k)%nat -> heap_for k P heap -> (forall x, P x -> hh_doc_id x <> doc) ->
  let hit := mkHeapHit doc score raw matched in
  heap_for k (fun x => P x \/ x = hit) (push_top_k heap doc score raw matched k).
Proof.
  intros Hk [H1 H2 H3 H4] Hfresh. cbv zeta. unfold push_top_k. set (hit := mkHeapHit doc score raw matched).
  assert (Hnd : forall h, (forall x, x ∈ h -> P x) -> NoDup (hh_doc_id <$> h) -> NoDup (hh_doc_id <$> hit :: h)).
  { intros h Hh Hn. rewrite fmap_cons. constructor; [|done]. intros (x & E & Hx)%list_elem_of_fmap.
    by apply (Hfresh x); [apply Hh|rewrite <-E]. }
  destruct (Nat.ltb_spec (length heap) k) as [Hlt|Hge].
  { constructor; [intros x [->|Hx]%elem_of_cons; [by right|left; by apply H1]|by apply Hnd|simpl; lia|].
    intros x [Hx| ->]; [|left; left]. destruct (H4 x Hx) as [?|[? _]]; [left; by right|lia]. }
  destruct (heap_peek heap_first heap) as [w|] eqn:Hw.
  2:{ unfold heap_peek in Hw. destruct (heap_pop heap_first heap) eqn:E; [done|]. apply heap_pop_None in E. subst. simpl in *. lia. }
  destruct (heap_peek_worst _ _ Hw) as (Hin & Hworst & rest & Hpop & Hperm). rewrite Hpop.
  assert (Hlen : length heap = S (length rest)) by (by rewrite Hperm).
  destruct (_ || _) eqn:Hb.
  - assert (Hbw : better hit w) by (unfold better; cbn; cmp_cases; simpl in *; try done; lia).
    assert (Hrest : forall x, x ∈ rest -> x ∈ heap) by (intros x Hx; rewrite Hperm; by right).
    assert (Hndr : NoDup (hh_doc_id <$> rest)) by (rewrite Hperm in H2; by apply NoDup_cons in H2 as [_ ?]).
    constructor; [intros x [->|Hx]%elem_of_cons; [by right|left; by apply H1, Hrest]|
      apply Hnd; [intros; by apply H1, Hrest|done]|simpl; lia|].
    assert (Hothers : forall y, y ∈ hit :: rest -> better y w).
    { intros y [->|Hy]%elem_of_cons; [done|]. specialize (Hworst y (Hrest y Hy)).
      apply heap_first_spec in Hworst as [?|[_ E]]; [done|]. exfalso. rewrite Hperm, fmap_cons in H2.
      apply NoDup_cons in H2 as [H2 _]. apply H2. rewrite E. by apply list_elem_of_fmap_2. }
    intros x [Hx| ->]; [|left; left]. destruct (H4 x Hx) as [Hxh|[_ Hd]].
    + rewrite Hperm in Hxh. apply elem_of_cons in Hxh as [->|Hxh]; [right|left; by right].
      split; [simpl; lia|done].
    + right. split; [simpl; lia|]. intros y Hy. eapply better_trans; [by apply Hothers|by apply Hd].
  - constructor; [intros x Hx; left; by apply H1|done|done|]. intros x [Hx| ->]; [by apply H4|right].
    split; [lia|]. intros y Hy. specialize (Hworst y Hy). apply heap_first_spec in Hworst.
    specialize (Hfresh w (H1 w Hin)). assert (better w hit).
    { unfold better; cbn. cmp_cases; simpl in *; try done; lia. }
    destruct Hworst as [Hworst|[E1 E2]]; [by eapply better_trans|]. unfold better in *. lia.
Qed.

(** The threshold of a full heap is the score of its worst hit. *)
Lemma heap_threshold k (P : HeapHit -> Prop) heap w :
  heap_for k P heap -> heap_peek heap_first heap = Some w -> forall y, y ∈ heap -> hh_score w <= hh_score y.
Proof.
  intros _ Hw y Hy. destruct (heap_peek_worst _ _ Hw) as (_ & Hworst & _). specialize (Hworst y Hy).
  apply heap_first_spec in Hworst. unfold better in Hworst. lia.
Qed.

(** ** The final list *)

Lemma hit_leb_total a b : hit_leb a b = true \/ hit_leb b a = true.
Proof.
  destruct a as [da sa ra ma], b as [db sb rb mb].
  rewrite (hit_leb_spec (mkHeapHit da sa ra ma) (mkHeapHit db sb rb mb)).
  rewrite (hit_leb_spec (mkHeapHit db sb rb mb) (mkHeapHit da sa ra ma)). unfold better. cbn. lia.
Qed.

Lemma hit_leb_trans a b c : hit_leb a b = true -> hit_leb b c = true -> hit_leb a c = true.
Proof.
  destruct a as [da sa ra ma], b as [db sb rb mb], c as [dc sc rc mc].
  rewrite (hit_leb_spec (mkHeapHit da sa ra ma) (mkHeapHit db sb rb mb)).
  rewrite (hit_leb_spec (mkHeapHit db sb rb mb) (mkHeapHit dc sc rc mc)).
  rewrite (hit_leb_spec (mkHeapHit da sa ra ma) (mkHeapHit dc sc rc mc)). unfold better. cbn. lia.
Qed.

Lemma hit_leb_antisym a b : hit_leb a b = true -> hit_leb b a = true -> wh_doc_id a = wh_doc_id b.
Proof.
  destruct a as [da sa ra ma], b as [db sb rb mb].
  rewrite (hit_leb_spec (mkHeapHit da sa ra ma) (mkHeapHit db sb rb mb)).
  rewrite (hit_leb_spec (mkHeapHit db sb rb mb) (mkHeapHit da sa ra ma)). unfold better. cbn. lia.
Qed.

(** The ranked list of a set of hits of different documents. *)
Definition ranked (l : list HeapHit) : list WandHit := stable_sort hit_leb (to_wand_hit <$> l).

Lemma ranked_sorted l : StronglySorted (fun a b => hit_leb a b = true) (ranked l).
Proof. apply stable_sort_sorted; [apply hit_leb_total|apply hit_leb_trans]. Qed.

Lemma ranked_perm l : ranked l ≡ₚ to_wand_hit <$> l.
Proof. apply stable_sort_perm. Qed.

Lemma NoDup_key_unique {A B} (f : A -> B) (l : list A) x y :
  NoDup (f <$> l) -> x ∈ l -> y ∈ l -> f x = f y -> x = y.
Proof.
  intros Hn Hx Hy E. apply list_elem_of_lookup in Hx as [i Hi]. apply list_elem_of_lookup in Hy as [j Hj].
  assert (i = j) as ->; [|congruence]. eapply NoDup_lookup; [exact Hn| |];
    rewrite list_lookup_fmap; [by rewrite Hi|]. by rewrite Hj, E.
Qed.

Lemma ranked_unique l l' :
  NoDup (hh_doc_id <$> l) -> StronglySorted (fun a b => hit_leb a b = true) l' ->
  l' ≡ₚ to_wand_hit <$> l -> ranked l = l'.
Proof.
  intros Hn Hs Hp. pose proof (ranked_sorted l) as Hr. pose proof (ranked_perm l) as Hrp.
  eapply (StronglySorted_unique_strong (fun a b => hit_leb a b = true)); try done; [|by rewrite Hrp].
  intros a b Ha Hb Hab Hba. pose proof (hit_leb_antisym a b Hab Hba) as E.
  eapply (NoDup_key_unique wh_doc_id (to_wand_hit <$> l)); [by rewrite <-list_fmap_compose| | |done].
  - by rewrite <-Hrp.
  - by rewrite <-Hp.
Qed.

(** A heap that holds the best [k] of [all] is turned into the first [k] of their ranked list. *)
Lemma finish_heap_correct k (P : HeapHit -> Prop) heap all :
  heap_for k P heap -> (forall x, x ∈ all <-> P x) -> NoDup (hh_doc_id <$> all) ->
  finish_heap heap = take k (ranked all).
Proof.
  intros [H1 H2 H3 H4] Hall Hn. set (rest := filter (fun x => x ∉ heap) all).
  assert (Hrest : forall x, x ∈ rest -> length heap = k /\ forall y, y ∈ heap -> better y x).
  { intros x [Hx Hin]%list_elem_of_filter. apply Hall in Hin. by destruct (H4 x Hin). }
  assert (Hsplit : all ≡ₚ heap ++ rest).
  { apply NoDup_Permutation; [by eapply NoDup_fmap_1| |].
    - apply NoDup_app. split; [by eapply NoDup_fmap_1|]. split.
      + intros x Hx. unfold rest. rewrite list_elem_of_filter. tauto.
      + apply NoDup_filter. by eapply NoDup_fmap_1.
    - intros x. unfold rest. rewrite elem_of_app, list_elem_of_filter, Hall.
      split; [destruct (decide (x ∈ heap)); tauto|]. intros [Hx|[_ Hx]]; [by apply H1|done]. }
  assert (E : ranked all = ranked heap ++ ranked rest).
  { apply ranked_unique; [done| |].
    - apply StronglySorted_app. split; [|split; apply ranked_sorted]. intros a b.
      rewrite !ranked_perm. intros (x & -> & Hx)%list_elem_of_fmap (y & -> & Hy)%list_elem_of_fmap.
      apply hit_leb_spec. left. by apply Hrest.
    - by rewrite !ranked_perm, <-fmap_app, Hsplit. }
  rewrite E. change (finish_heap heap) with (ranked heap).
  assert (Hlr : length (ranked heap) = length heap) by (rewrite ranked_perm; apply length_fmap).
  destruct rest as [|x rest'] eqn:Er.
  - rewrite app_nil_r. symmetry. apply take_ge. lia.
  - destruct (Hrest x ltac:(left)) as [Hk _]. rewrite <-Hk, <-Hlr. symmetry. apply take_app_length.
Qed.

(** ** Documents offered in order *)

(** A search walks the documents upwards and offers the candidates' hits to the heap. *)
Section offered.
Context (k : nat) (cand : DocId -> bool) (hit : DocId -> HeapHit).

(** The hits of the candidates before a document, and of all candidates. *)
Definition offered (F : DocId) (x : HeapHit) : Prop := exists doc, doc < F /\ cand doc = true /\ x = hit doc.
Definition offered_all (x : HeapHit) : Prop := exists doc, cand doc = true /\ x = hit doc.

Lemma offered_start F : (forall doc, doc < F -> cand doc = false) -> heap_for k (offered F) [].
Proof using Type.
  intros Hno. eapply heap_for_ext; [|apply heap_for_empty]. intros x. split; [done|]. intros (doc & Hd & Hc & _).
  by rewrite Hno in Hc.
Qed.

(** No candidate between [F] and [p], or from [F] on. *)
Lemma offered_gap F p heap :
  F <= p -> (forall doc, F <= doc < p -> cand doc = false) -> heap_for k (offered F) heap -> heap_for k (offered p) heap.
Proof using Type.
  intros HF Hno Hh. eapply heap_for_ext; [|exact Hh]. intros x. split; intros (d & Hd & Hc & ->); exists d; (split; [|done]); [lia|].
  destruct (Z.lt_ge_cases d F); [done|]. rewrite Hno in Hc by lia. done.
Qed.
Lemma offered_end F heap :
  (forall doc, F <= doc -> cand doc = false) -> heap_for k (offered F) heap -> heap_for k offered_all heap.
Proof using Type.
  intros Hno Hh. eapply heap_for_ext; [|exact Hh]. intros x. split.
  - intros (d & _ & Hc & ->). by exists d.
  - intros (d & Hc & ->). exists d. split; [|done]. destruct (Z.lt_ge_cases d F); [done|]. by rewrite Hno in Hc.
Qed.

(** The next document, if it is one. *)
Lemma offered_next p heap heap' :
  (0 < k)%nat -> (forall doc, hh_doc_id (hit doc) = doc) -> heap_for k (offered p) heap ->
  heap' = (if cand p then push_top_k heap p (hh_score (hit p)) (hh_raw (hit p)) (hh_matched_terms (hit p)) k else heap) ->
  heap_for k (offered (p + 1)) heap'.
Proof using Type.
  intros Hk Hid Hh ->. destruct (cand p) eqn:Hc.
  - eapply heap_for_ext; [|apply (heap_for_push k (offered p) heap p _ _ _ Hk Hh)].
    + intros x. assert (mkHeapHit p (hh_score (hit p)) (hh_raw (hit p)) (hh_matched_terms (hit p)) = hit p) as ->.
      { specialize (Hid p). destruct (hit p). cbn in *. by subst. }
      split.
      * intros [(d & Hd & Hcd & ->)| ->]; [exists d|exists p]; (split; [lia|done]).
      * intros (d & Hd & Hcd & ->). destruct (decide (d = p)) as [->|]; [by right|left; exists d; split; [lia|done]].
    + intros x (d & Hd & _ & ->). rewrite Hid. lia.
  - apply (offered_gap p); [lia| |done]. intros d Hd. by replace d with p by lia.
Qed.

(** The heap, once all candidates were offered. *)
Lemma offered_finish heap all_docs :
  (forall doc, hh_doc_id (hit doc) = doc) -> heap_for k offered_all heap -> NoDup all_docs ->
  (forall doc, cand doc = true -> doc ∈ all_docs) ->
  finish_heap heap = take k (ranked (hit <$> filter (fun d => cand d = true) all_docs)).
Proof using Type.
  intros Hid Hh Hn Hin. apply (finish_heap_correct k _ heap _ Hh).
  - intros x. unfold offered_all. rewrite list_elem_of_fmap. split.
    + intros (doc & -> & [Hc _]%list_elem_of_filter). by exists doc.
    + intros (doc & Hc & ->). exists doc. split; [done|]. apply list_elem_of_filter. split; [done|by apply Hin].
  - rewrite <-list_fmap_compose. erewrite list_fmap_ext with (g := id); [|intros i d _; apply Hid].
    rewrite list_fmap_id. by apply NoDup_filter.
Qed.
End offered.
