(* ===== verification/Wand.v ===== *)
(** * WAND: the best documents of a disjunctive query

    Models [wand_top_k_multi_field] of [crates/core-query/src/wand.rs]: one cursor per term and
    field, the pivot search over their upper bounds, the scoring of the pivot document with its
    cache of field lengths, and the bounded heap ([TopK]).

    [brute_top_k] is the reference: every document, scored and ranked. The theorem is that both
    agree when each term's upper bound covers its scores. A fixed order of terms on the same
    document stands for [sort_unstable_by_key]; the saturating sums do not depend on it. *)
From Stdlib Require Import ZArith Lia SpecFloat.
From stdpp Require Import base numbers list gmap sorting.
From S2P Require Import Prelude Types Posting PostingOps Scorer TopK.
Local Open Scope Z_scope.

Record TermRef : Type := mkTermRef {
  tr_postings : PostingList;
  tr_doc_freq : Z;
  tr_max_weight : Z
}.

Record FieldTerms : Type := mkFieldTerms {
  ft_xpath : XPathId;
  ft_terms : list TermRef
}.

Record MultiFieldTerm : Type := mkMFT {
  mt_cursor : PostingCursor;
  mt_field : nat;
  mt_doc_freq : Z;
  mt_upper_bound : Z
}.

Definition set_cursor (t : MultiFieldTerm) (c : PostingCursor) : MultiFieldTerm :=
  mkMFT c (mt_field t) (mt_doc_freq t) (mt_upper_bound t).

Section wand.
Context {LN : Ln} (stats : SearchStats).

(** [(xpath, doc_count, avg_doc_len)] of every field. *)
Definition field_stats (fields : list FieldTerms) : list (XPathId * Z * f32) :=
  (fun field => (ft_xpath field, ss_doc_count stats (ft_xpath field), avg_doc_len stats (ft_xpath field))) <$> fields.

(** The terms of one field that have postings. *)
Definition field_terms (field_index : nat) (doc_count : Z) (field : FieldTerms) : list MultiFieldTerm :=
  omap (fun term =>
    let cursor := cursor_new (tr_postings term) in
    if is_exhausted cursor then None
    else Some (mkMFT cursor field_index (tr_doc_freq term)
      (bm25_upper_bound (tr_max_weight term) doc_count (tr_doc_freq term)))) (ft_terms field).
Definition all_terms (fields : list FieldTerms) : list MultiFieldTerm :=
  concat (imap (fun i field => field_terms i (ss_doc_count stats (ft_xpath field)) field) fields).

(** [terms[i].cursor.doc_id().unwrap()]; terms that are exhausted were dropped before. *)
Definition term_doc (t : MultiFieldTerm) : DocId := default 0 (cursor_doc_id (mt_cursor t)).

(** The first term where the upper bounds up to it reach the threshold. *)
Fixpoint find_pivot (threshold accumulated : Z) (index : nat) (terms : list MultiFieldTerm) : option nat :=
  match terms with
  | [] => None
  | term :: terms' =>
    let accumulated := saturating_add 64 accumulated (mt_upper_bound term) in
    if (threshold <=? accumulated) && (0 <? accumulated) then Some index
    else find_pivot threshold accumulated (S index) terms'
  end.

Definition threshold (heap : list HeapHit) (k : nat) : Z :=
  if (length heap <? k)%nat then 0 else default 0 (hh_score <$> heap_peek heap_first heap).

(** The score of the pivot document and the number of terms on it; [cache] is [doc_len_cache]. *)
Fixpoint score_terms (fstats : list (XPathId * Z * f32)) (pivot_doc : DocId) (terms : list MultiFieldTerm)
    (cache : list (option Z)) (score : Z) (matched : nat) : Z * nat :=
  match terms with
  | [] => (score, matched)
  | term :: terms' =>
    match cursor_current (mt_cursor term), fstats !! mt_field term with
    | Some posting, Some (xpath, doc_count, avg) =>
      if doc_id posting =? pivot_doc then
        let doc_len :=
          match cache !! mt_field term with
          | Some (Some len) => len
          | _ => default (f32_to_u 32 avg) (ss_doc_len stats pivot_doc xpath)
          end in
        score_terms fstats pivot_doc terms' (<[mt_field term := Some doc_len]> cache)
          (saturating_add 64 score (bm25_score_scaled (wrap 32 (zlen (positions posting))) (weight posting)
            doc_len avg doc_count (mt_doc_freq term)))
          (S matched)
      else score_terms fstats pivot_doc terms' cache score matched
    | _, _ => score_terms fstats pivot_doc terms' cache score matched
    end
  end.

Definition allowed (restrict : option (gset DocId)) (doc : DocId) : bool :=
  match restrict with None => true | Some docs => bool_decide (doc ∈ docs) end.

(** [if term.cursor.doc_id() == Some(pivot_doc) { term.cursor.next() }] *)
Definition step_on (pivot_doc : DocId) (t : MultiFieldTerm) : MultiFieldTerm :=
  if decide (cursor_doc_id (mt_cursor t) = Some pivot_doc) then set_cursor t (cursor_next (mt_cursor t)) else t.
Definition step_to (pivot_doc : DocId) (t : MultiFieldTerm) : MultiFieldTerm :=
  set_cursor t (advance_to (mt_cursor t) pivot_doc).

(** The loop; every round consumes a posting, so the number of postings is enough fuel
    ([wand_loop_correct]). *)
Fixpoint wand_loop (fuel : nat) (fstats : list (XPathId * Z * f32)) (k : nat) (restrict : option (gset DocId))
    (terms : list MultiFieldTerm) (heap : list HeapHit) : option (list HeapHit) :=
  match fuel with
  | O => None
  | S fuel' =>
    let terms := filter (fun t => is_exhausted (mt_cursor t) = false) terms in
    if (length terms =? 0)%nat then Some heap
    else
      let terms := sort_by_key term_doc terms in
      match find_pivot (threshold heap k) 0 0 terms with
      | None => Some heap
      | Some pivot_index =>
        let pivot_doc := default 0 (term_doc <$> terms !! pivot_index) in
        let smallest_doc := default 0 (term_doc <$> terms !! 0%nat) in
        if smallest_doc =? pivot_doc then
          let heap :=
            if allowed restrict pivot_doc then
              let '(score, matched) := score_terms fstats pivot_doc terms (replicate (length fstats) None) 0 0 in
              push_top_k heap pivot_doc score score matched k
            else heap in
          wand_loop fuel' fstats k restrict (step_on pivot_doc <$> terms) heap
        else
          wand_loop fuel' fstats k restrict
            ((step_to pivot_doc <$> take pivot_index terms) ++ drop pivot_index terms) heap
      end
  end.

Definition remaining (t : MultiFieldTerm) : nat := (length (c_postings (mt_cursor t)) - c_index (mt_cursor t))%nat.

Definition wand_top_k_multi_field (fields : list FieldTerms) (k : nat) (restrict : option (gset DocId)) : list WandHit :=
  if (k =? 0)%nat || (length fields =? 0)%nat then []
  else
    let terms := all_terms fields in
    finish_heap (default [] (wand_loop (S (sum_list (remaining <$> terms))) (field_stats fields) k restrict terms [])).

(** ** The reference *)

(** What a term adds to a document's score. *)
Definition term_score (fstats : list (XPathId * Z * f32)) (doc : DocId) (t : MultiFieldTerm) : option Z :=
  match posting_of doc (c_postings (mt_cursor t)), fstats !! mt_field t with
  | Some p, Some (xpath, doc_count, avg) =>
    Some (bm25_score_scaled (wrap 32 (zlen (positions p))) (weight p)
      (default (f32_to_u 32 avg) (ss_doc_len stats doc xpath)) avg doc_count (mt_doc_freq t))
  | _, _ => None
  end.

Definition sumZ (l : list Z) : Z := foldr Z.add 0 l.

(** The hit of a document: the sum of its scores, and the number of terms on it. *)
Definition doc_hit (fields : list FieldTerms) (doc : DocId) : HeapHit :=
  let scores := omap (term_score (field_stats fields) doc) (all_terms fields) in
  let score := Z.min (sumZ scores) (u_max 64) in
  mkHeapHit doc score score (length scores).

(** A document is a candidate when it is allowed and on a term with a positive bound. *)
Definition candidate (fields : list FieldTerms) (restrict : option (gset DocId)) (doc : DocId) : bool :=
  allowed restrict doc &&
  existsb (fun t => (0 <? mt_upper_bound t) && bool_decide (is_Some (posting_of doc (c_postings (mt_cursor t)))))
    (all_terms fields).

Definition all_docs (fields : list FieldTerms) : list DocId :=
  dedup (sort_unstable (concat ((fun t => doc_id <$> c_postings (mt_cursor t)) <$> all_terms fields))).

Definition brute_top_k (fields : list FieldTerms) (k : nat) (restrict : option (gset DocId)) : list WandHit :=
  take k (ranked (doc_hit fields <$> filter (fun d => candidate fields restrict d = true) (all_docs fields))).
End wand.

(** ** Cursors at a document *)

(** The cursor on the first posting at or after a document. *)
Definition cursor_at (F : DocId) (l : list Posting) : PostingCursor := mkCursor l (count_while (doc_below F) l).

Section cursor_at.
Context (l : list Posting) (Hs : docs_ascending l).

Lemma ascending_le : StronglySorted (key_le doc_id) l.
Proof using Hs. by apply StronglySorted_lt_le. Qed.

Lemma cursor_at_current F p :
  cursor_current (cursor_at F l) = Some p ->
  p ∈ l /\ F <= doc_id p /\ forall q, q ∈ l -> F <= doc_id q -> doc_id p <= doc_id q.
Proof using Hs.
  unfold cursor_current, cursor_at. cbn. intros Hp. split; [by eapply list_elem_of_lookup_2|].
  pose proof (count_while_stop _ _ _ Hp) as Hstop. unfold doc_below in Hstop. apply Z.ltb_ge in Hstop. split; [done|].
  intros q (i & Hi)%list_elem_of_lookup_1 Hq. destruct (Nat.lt_ge_cases i (count_while (doc_below F) l)) as [Hlt|Hge].
  - pose proof (count_while_prefix _ _ _ _ Hlt Hi) as Hd. unfold doc_below in Hd. apply Z.ltb_lt in Hd. lia.
  - by apply (sorted_lookup_le doc_id l (count_while (doc_below F) l) i p q ascending_le Hp Hi).
Qed.

Lemma cursor_at_exhausted F : is_exhausted (cursor_at F l) = true -> forall q, q ∈ l -> doc_id q < F.
Proof using Type.
  unfold is_exhausted, cursor_at. cbn. intros He q (i & Hi)%list_elem_of_lookup_1. apply Nat.leb_le in He.
  pose proof (lookup_lt_Some _ _ _ Hi). pose proof (count_while_prefix (doc_below F) l i q ltac:(lia) Hi) as Hd.
  unfold doc_below in Hd. by apply Z.ltb_lt in Hd.
Qed.

Lemma cursor_at_unique F n :
  (n <= length l)%nat -> (forall i q, l !! i = Some q -> (i < n)%nat -> doc_id q < F) ->
  (forall q, l !! n = Some q -> F <= doc_id q) -> mkCursor l n = cursor_at F l.
Proof using Type.
  intros Hn Hlt Hge. unfold cursor_at. f_equal. symmetry. apply count_while_unique; [done| |]; unfold doc_below.
  - intros i q Hi Hin. apply Z.ltb_lt. by eapply Hlt.
  - intros q Hq. apply Z.ltb_ge. by apply Hge.
Qed.

Lemma cursor_at_stay F F' :
  F <= F' -> (forall p, cursor_current (cursor_at F l) = Some p -> F' <= doc_id p) -> cursor_at F l = cursor_at F' l.
Proof using Type.
  intros HF Hp. apply cursor_at_unique.
  - apply count_while_le.
  - intros i q Hi Hlt. pose proof (count_while_prefix _ _ _ _ Hlt Hi) as Hd. unfold doc_below in Hd.
    apply Z.ltb_lt in Hd. lia.
  - intros q Hq. by apply Hp.
Qed.

Lemma cursor_at_advance F F' : F <= F' -> advance_to (cursor_at F l) F' = cursor_at F' l.
Proof using Hs.
  intros HF. unfold cursor_at at 1. rewrite advance_to_spec by apply ascending_le. unfold cursor_at. f_equal.
  apply Nat.max_r. destruct (Nat.le_gt_cases (count_while (doc_below F) l) (count_while (doc_below F') l)) as [|Hgt]; [done|].
  destruct (lookup_lt_is_Some_2 l (count_while (doc_below F') l)) as [q Hq].
  { pose proof (count_while_le (doc_below F) l). lia. }
  pose proof (count_while_stop _ _ _ Hq) as H1. pose proof (count_while_prefix _ _ _ _ Hgt Hq) as H2.
  unfold doc_below in *. apply Z.ltb_ge in H1. apply Z.ltb_lt in H2. lia.
Qed.

Lemma ascending_lookup i j p q : l !! i = Some p -> l !! j = Some q -> (i < j)%nat -> doc_id p < doc_id q.
Proof using Hs.
  revert i j. induction Hs as [|x l' Hs' IH Hx]; intros i j Hi Hj Hij; [done|]. destruct j as [|j]; [lia|].
  destruct i as [|i]; simpl in *; [|apply (IH Hs' i j); [done..|lia]]. injection Hi as ->.
  rewrite Forall_forall in Hx. apply (Hx q). by eapply list_elem_of_lookup_2.
Qed.

Lemma cursor_at_next F p :
  cursor_current (cursor_at F l) = Some p -> cursor_next (cursor_at F l) = cursor_at (doc_id p + 1) l.
Proof using Hs.
  intros Hp. destruct (cursor_at_current F p Hp) as (_ & HF & _).
  unfold cursor_current, cursor_at in Hp. cbn in Hp. pose proof (lookup_lt_Some _ _ _ Hp) as Hlt.
  unfold cursor_next, is_exhausted, cursor_at at 1 2. cbn [c_postings c_index].
  destruct (Nat.leb_spec (length l) (count_while (doc_below F) l)); [lia|]. cbn. apply cursor_at_unique; [lia| |].
  - intros i q Hi Hin. pose proof (sorted_lookup_le doc_id l i (count_while (doc_below F) l) q p ascending_le Hi Hp ltac:(lia)). lia.
  - intros q Hq. pose proof (ascending_lookup _ _ p q Hp Hq ltac:(lia)). lia.
Qed.

Lemma cursor_at_live F : is_exhausted (cursor_at F l) = false -> is_Some (cursor_current (cursor_at F l)).
Proof using Type.
  unfold is_exhausted, cursor_current, cursor_at. cbn. intros H. apply Nat.leb_gt in H. by apply lookup_lt_is_Some_2.
Qed.

(** The posting of a document, as seen by a cursor that has not passed it. *)
Lemma cursor_at_find F d p :
  cursor_current (cursor_at F l) = Some p -> F <= d <= doc_id p ->
  posting_of d l = if doc_id p =? d then Some p else None.
Proof using Hs.
  intros Hp Hd. destruct (cursor_at_current F p Hp) as (Hin & HF & Hmin).
  destruct (Z.eqb_spec (doc_id p) d) as [<-|]; [by apply posting_of_ascending|]. apply posting_of_None, Forall_forall.
  intros q Hq Eq. specialize (Hmin q Hq ltac:(lia)). lia.
Qed.
End cursor_at.

(** ** Sums *)

Lemma omap_cons {A B} (f : A -> option B) x l :
  omap f (x :: l) = match f x with Some y => y :: omap f l | None => omap f l end.
Proof. done. Qed.

Lemma sum_list_cons n l : sum_list (n :: l) = (n + sum_list l)%nat.
Proof. done. Qed.

Lemma sumZ_nil : sumZ [] = 0.
Proof. done. Qed.

Lemma sumZ_cons x l : sumZ (x :: l) = x + sumZ l.
Proof. done. Qed.

Lemma sumZ_app l l' : sumZ (l ++ l') = sumZ l + sumZ l'.
Proof. unfold sumZ. induction l as [|x l IH]; simpl; lia. Qed.

#[global] Instance sumZ_perm : Proper ((≡ₚ) ==> (=)) sumZ.
Proof. intros l l' H. unfold sumZ. induction H; simpl; lia. Qed.

Lemma sumZ_nonneg l : Forall (fun x => 0 <= x) l -> 0 <= sumZ l.
Proof. induction 1; unfold sumZ in *; simpl; lia. Qed.

Lemma sumZ_omap_le {A} (f : A -> option Z) (g : A -> Z) l :
  (forall x, x ∈ l -> 0 <= g x /\ forall v, f x = Some v -> v <= g x) -> sumZ (omap f l) <= sumZ (g <$> l).
Proof.
  unfold sumZ. induction l as [|x l IH]; intros H; [done|]. rewrite omap_cons, fmap_cons. cbn [foldr].
  destruct (H x ltac:(left)) as [H0 Hv]. specialize (IH (fun y Hy => H y ltac:(by right))).
  destruct (f x) as [v|]; cbn [foldr]; [specialize (Hv v eq_refl)|]; lia.
Qed.

Lemma sumZ_pos_elem l : Forall (fun x => 0 <= x) l -> forall x, x ∈ l -> x <= sumZ l.
Proof.
  induction 1 as [|y l Hy Hl IH]; intros x; [by intros ?%not_elem_of_nil|].
  intros [->|Hx]%elem_of_cons; unfold sumZ in *; simpl.
  - pose proof (sumZ_nonneg l Hl) as Hn. unfold sumZ in Hn. lia.
  - specialize (IH x Hx). lia.
Qed.

Lemma f32_to_u_range w x : 0 <= w -> 0 <= f32_to_u w x <= u_max w.
Proof.
  intros Hw. assert (0 <= u_max w) by (unfold u_max; pose proof (Z.pow_pos_nonneg 2 w); lia).
  unfold f32_to_u. destruct x as [s|s| |s m e]; try lia; destruct s; try lia.
  destruct (Z.leb_spec 0 e).
  - assert (0 <= Z.pos m * 2 ^ e) by (apply Z.mul_nonneg_nonneg; [lia|by apply Z.pow_nonneg]). lia.
  - assert (0 <= Z.pos m / 2 ^ (- e)) by (apply Z.div_pos; [lia|apply Z.pow_pos_nonneg; lia]). lia.
Qed.

Lemma sat_add_min a x : 0 <= x -> saturating_add 64 (Z.min a (u_max 64)) x = Z.min (a + x) (u_max 64).
Proof. unfold saturating_add. lia. Qed.

(** ** Pruning *)

(** A sum of bounds that cannot reach the threshold. *)
Definition low (thr x : Z) : Prop := Z.min x (u_max 64) < thr \/ x <= 0.

(** [bound] bounds the scores of the hits, and is positive on candidates. *)
Section pruning.
Context (k : nat) (cand : DocId -> bool) (hit : DocId -> HeapHit) (bound : DocId -> Z).
Context (Hscore : forall doc, 0 <= hh_score (hit doc) <= Z.min (bound doc) (u_max 64)).
Context (Hpos : forall doc, cand doc = true -> 0 < bound doc).

(** A document whose bounds cannot reach the threshold does not belong in the heap. *)
Lemma low_dominated P heap doc x :
  heap_for k P heap -> cand doc = true -> low (threshold heap k) x -> bound doc <= x ->
  length heap = k /\ forall y, y ∈ heap -> better y (hit doc).
Proof using Hscore Hpos.
  intros Hh Hc Hlow Hle. specialize (Hpos doc Hc). specialize (Hscore doc). assert (Hlt : hh_score (hit doc) < threshold heap k).
  { destruct Hlow as [Hlow|]; [|lia]. lia. }
  pose proof (hf_size _ _ _ Hh) as Hsize. revert Hlt. unfold threshold.
  destruct (Nat.ltb_spec (length heap) k); [lia|]. destruct (heap_peek heap_first heap) as [w|] eqn:Hw; cbn [fmap option_fmap option_map default id from_option]; [|lia].
  intros Hlt. split; [lia|]. intros y Hy. pose proof (heap_threshold k P heap w Hh Hw y Hy).
  left. lia.
Qed.

(** Nothing but dominated candidates from [F] on. *)
Lemma offered_rest F heap x :
  heap_for k (offered cand hit F) heap -> low (threshold heap k) x -> (forall doc, F <= doc -> bound doc <= x) ->
  heap_for k (offered_all cand hit) heap.
Proof using Hscore Hpos.
  intros Hh Hlow Hx.
  eapply heap_for_ext; [|apply (heap_for_skip k _ (fun h => exists doc, F <= doc /\ cand doc = true /\ h = hit doc) heap Hh)].
  - intros h. split.
    + intros [(doc & _ & Hc & ->)|(doc & _ & Hc & ->)]; by exists doc.
    + intros (doc & Hc & ->). destruct (Z.lt_ge_cases doc F); [left|right]; by exists doc.
  - intros h (doc & HF & Hc & ->). eapply low_dominated; [done|done|exact Hlow|by apply Hx].
Qed.

(** Dominated candidates between [F] and [p]. *)
Lemma offered_skip F p heap x :
  F <= p -> heap_for k (offered cand hit F) heap -> low (threshold heap k) x ->
  (forall doc, F <= doc < p -> bound doc <= x) -> heap_for k (offered cand hit p) heap.
Proof using Hscore Hpos.
  intros HF Hh Hlow Hx.
  eapply heap_for_ext; [|apply (heap_for_skip k _ (fun h => exists doc, F <= doc < p /\ cand doc = true /\ h = hit doc) heap Hh)].
  - intros h. split.
    + intros [(doc & Hd & Hc & ->)|(doc & Hd & Hc & ->)]; exists doc; (split; [lia|done]).
    + intros (doc & Hd & Hc & ->). destruct (Z.lt_ge_cases doc F); [left|right]; exists doc; done.
  - intros h (doc & Hd & Hc & ->). eapply low_dominated; [done|done|exact Hlow|by apply Hx].
Qed.
End pruning.

(** ** The walk over the terms *)

Section wand_proof.
Context {LN : Ln} (stats : SearchStats) (fields : list FieldTerms) (k : nat) (restrict : option (gset DocId)).
Abbreviation T0 := (all_terms stats fields).
Abbreviation fs := (field_stats stats fields).

(** The term with its cursor on the first posting at or after a document. *)
Definition move (F : DocId) (t : MultiFieldTerm) : MultiFieldTerm :=
  set_cursor t (cursor_at F (c_postings (mt_cursor t))).

(** The terms that are left at a document. *)
Definition live (F : DocId) (ts : list MultiFieldTerm) : list MultiFieldTerm :=
  filter (fun t => is_exhausted (mt_cursor t) = false) (move F <$> ts).

Definition term_ok (t : MultiFieldTerm) : Prop := docs_ascending (c_postings (mt_cursor t)).

Lemma exhausted_stays F F' t : F <= F' -> is_exhausted (mt_cursor (move F t)) = true -> move F' t = move F t.
Proof using Type.
  intros HF He. unfold move in *. f_equal. cbn in He. symmetry. apply cursor_at_stay; [done|].
  intros p Hp. unfold cursor_current, cursor_at in Hp. cbn in Hp. apply lookup_lt_Some in Hp.
  unfold is_exhausted, cursor_at in He. cbn in He. apply Nat.leb_le in He. lia.
Qed.

Lemma live_step (g : MultiFieldTerm -> MultiFieldTerm) F F' ts :
  F <= F' -> (forall t, t ∈ ts -> is_exhausted (mt_cursor (move F t)) = false -> g (move F t) = move F' t) ->
  filter (fun t => is_exhausted (mt_cursor t) = false) (g <$> live F ts) = live F' ts.
Proof using Type.
  intros HF Hg. unfold live. induction ts as [|t ts IH]; [done|]. rewrite !fmap_cons, filter_cons.
  specialize (IH (fun t' Ht' => Hg t' ltac:(by right))). rewrite (filter_cons _ (move F' t)).
  destruct (decide (is_exhausted (mt_cursor (move F t)) = false)) as [Hl|Hl].
  - rewrite fmap_cons, filter_cons, (Hg t ltac:(left) Hl). by rewrite IH.
  - apply not_false_is_true in Hl. rewrite (exhausted_stays F F' t HF Hl), decide_False by congruence. done.
Qed.

Lemma omap_live {A} (f : MultiFieldTerm -> option A) (g : MultiFieldTerm -> option A) F ts :
  (forall t, t ∈ ts -> is_exhausted (mt_cursor (move F t)) = true -> g t = None) ->
  (forall t, t ∈ ts -> is_exhausted (mt_cursor (move F t)) = false -> f (move F t) = g t) ->
  omap f (live F ts) = omap g ts.
Proof using Type.
  intros Hdead Hlive. unfold live. induction ts as [|t ts IH]; [done|]. rewrite fmap_cons, filter_cons, (omap_cons g).
  specialize (IH (fun t' H => Hdead t' ltac:(by right)) (fun t' H => Hlive t' ltac:(by right))).
  destruct (decide _) as [Hl|Hl]; rewrite ?omap_cons.
  - rewrite (Hlive t) by (done || left). by rewrite IH.
  - rewrite (Hdead t) by ((by apply not_false_is_true) || left). apply IH.
Qed.

(** What the posting under a cursor adds to the score of a document. *)
Definition current_score (doc : DocId) (t : MultiFieldTerm) : option Z :=
  match cursor_current (mt_cursor t), fs !! mt_field t with
  | Some p, Some (xpath, doc_count, avg) =>
    if doc_id p =? doc then
      Some (bm25_score_scaled (wrap 32 (zlen (positions p))) (weight p)
        (default (f32_to_u 32 avg) (ss_doc_len stats doc xpath)) avg doc_count (mt_doc_freq t))
    else None
  | _, _ => None
  end.

Definition cache_ok (doc : DocId) (cache : list (option Z)) : Prop :=
  forall i len xpath doc_count avg, cache !! i = Some (Some len) -> fs !! i = Some (xpath, doc_count, avg) ->
    len = default (f32_to_u 32 avg) (ss_doc_len stats doc xpath).

(** The cache of field lengths is transparent, and the saturating sum is the capped sum. *)
Lemma score_terms_spec doc ts cache a m :
  cache_ok doc cache ->
  score_terms stats fs doc ts cache (Z.min a (u_max 64)) m =
  (Z.min (a + sumZ (omap (current_score doc) ts)) (u_max 64), (m + length (omap (current_score doc) ts))%nat).
Proof using Type.
  revert cache a m. induction ts as [|t ts IH]; intros cache a m Hc; [cbn; by rewrite Z.add_0_r, Nat.add_0_r|].
  cbn [score_terms]. rewrite !omap_cons.
  destruct (cursor_current (mt_cursor t)) as [p|] eqn:Ep.
  2:{ assert (current_score doc t = None) as -> by (unfold current_score; by rewrite Ep). by apply IH. }
  destruct (fs !! mt_field t) as [[[xpath doc_count] avg]|] eqn:Ef.
  2:{ assert (current_score doc t = None) as -> by (unfold current_score; by rewrite Ep, Ef). by apply IH. }
  destruct (Z.eqb_spec (doc_id p) doc) as [Hd|Hd].
  2:{ assert (current_score doc t = None) as ->; [|by apply IH].
      unfold current_score. rewrite Ep, Ef. by destruct (Z.eqb_spec (doc_id p) doc). }
  assert (current_score doc t = Some (bm25_score_scaled (wrap 32 (zlen (positions p))) (weight p)
    (default (f32_to_u 32 avg) (ss_doc_len stats doc xpath)) avg doc_count (mt_doc_freq t))) as ->.
  { unfold current_score. rewrite Ep, Ef. by destruct (Z.eqb_spec (doc_id p) doc). }
  assert (Hlen : match cache !! mt_field t with Some (Some len) => len
    | _ => default (f32_to_u 32 avg) (ss_doc_len stats doc xpath) end =
    default (f32_to_u 32 avg) (ss_doc_len stats doc xpath)).
  { destruct (cache !! mt_field t) as [[len|]|] eqn:El; [|done|done]. by eapply Hc. }
  rewrite Hlen, sat_add_min by (apply f32_to_u_range; lia). rewrite IH.
  - cbn [length]. unfold sumZ. cbn [foldr]. f_equal; [f_equal; lia|lia].
  - intros i len x dc av Hi Hf. destruct (decide (i = mt_field t)) as [->|Hne].
    + destruct (decide (mt_field t < length cache)%nat).
      * rewrite list_lookup_insert_eq in Hi by done. rewrite Ef in Hf. by simplify_eq.
      * rewrite list_insert_ge in Hi by lia. by eapply Hc.
    + rewrite list_lookup_insert_ne in Hi by done. by eapply Hc.
Qed.

Lemma current_term_score doc F t :
  term_ok t -> F <= doc -> (forall p, cursor_current (mt_cursor (move F t)) = Some p -> doc <= doc_id p) ->
  current_score doc (move F t) = term_score stats fs doc t.
Proof using Type.
  intros Hok HF Hp. unfold current_score, term_score. unfold move at 2 3; cbn [mt_field set_cursor mt_doc_freq].
  destruct (cursor_current (mt_cursor (move F t))) as [p|] eqn:Ep.
  - specialize (Hp p eq_refl). rewrite (cursor_at_find _ Hok F doc p Ep) by lia.
    destruct (fs !! mt_field t) as [[[xpath doc_count] avg]|]; [|by destruct (doc_id p =? doc)].
    by destruct (doc_id p =? doc).
  - assert (posting_of doc (c_postings (mt_cursor t)) = None) as ->; [|done].
    apply posting_of_None, Forall_forall. intros q Hq.
    assert (He : is_exhausted (cursor_at F (c_postings (mt_cursor t))) = true).
    { destruct (is_exhausted _) eqn:E; [done|]. apply cursor_at_live in E as [? E]. change (mt_cursor (move F t)) with (cursor_at F (c_postings (mt_cursor t))) in Ep. congruence. }
    pose proof (cursor_at_exhausted _ F He q Hq). lia.
Qed.

(** ** The pivot *)

Lemma find_pivot_spec thr a index ts :
  Forall (fun t => 0 <= mt_upper_bound t) ts -> low thr a ->
  match find_pivot thr (Z.min a (u_max 64)) index ts with
  | None => low thr (a + sumZ (mt_upper_bound <$> ts))
  | Some j => exists i t, j = (index + i)%nat /\ ts !! i = Some t /\
      low thr (a + sumZ (mt_upper_bound <$> take i ts)) /\ 0 < a + sumZ (mt_upper_bound <$> take (S i) ts)
  end.
Proof using Type.
  revert a index. induction ts as [|t ts IH]; intros a index Hub Hlow; cbn [find_pivot].
  { rewrite fmap_nil, sumZ_nil. by rewrite Z.add_0_r. }
  apply Forall_cons in Hub as [Ht Hub]. rewrite sat_add_min by done.
  destruct ((thr <=? Z.min (a + mt_upper_bound t) (u_max 64)) && (0 <? Z.min (a + mt_upper_bound t) (u_max 64))) eqn:E.
  - apply andb_true_iff in E as [E1 E2]. apply Z.leb_le in E1. apply Z.ltb_lt in E2.
    exists 0%nat, t. rewrite Nat.add_0_r. split; [done|]. split; [done|].
    cbn [take]. rewrite fmap_cons, sumZ_cons, fmap_nil, sumZ_nil. split; [by rewrite Z.add_0_r|]. rewrite take_0, fmap_nil, sumZ_nil. lia.
  - specialize (IH (a + mt_upper_bound t) (S index) Hub).
    assert (Hl : low thr (a + mt_upper_bound t)).
    { unfold low. apply andb_false_iff in E as [E|E]; [apply Z.leb_gt in E; by left|].
      apply Z.ltb_ge in E. right. assert (0 < u_max 64) by done. lia. }
    specialize (IH Hl). destruct (find_pivot thr _ (S index) ts) as [j|].
    + destruct IH as (i & t' & -> & Hi & H1 & H2). exists (S i), t'. split; [lia|]. split; [done|].
      cbn [take]. rewrite !fmap_cons, !sumZ_cons, !Z.add_assoc. done.
    + rewrite fmap_cons, sumZ_cons. by rewrite Z.add_assoc.
Qed.

(** ** Progress *)

Definition left_at (F : DocId) (ts : list MultiFieldTerm) : nat := sum_list ((fun t => remaining (move F t)) <$> ts).

Lemma remaining_mono F F' t : term_ok t -> F <= F' -> (remaining (move F' t) <= remaining (move F t))%nat.
Proof using Type.
  intros Hok HF. pose proof (cursor_at_advance _ Hok F F' HF) as E. unfold cursor_at at 1 in E.
  rewrite advance_to_spec in E by (by apply ascending_le). unfold cursor_at in E. injection E as E.
  unfold remaining, move. cbn. unfold cursor_at. cbn. lia.
Qed.

Lemma remaining_lt F F' t p :
  term_ok t -> cursor_current (mt_cursor (move F t)) = Some p -> doc_id p < F' ->
  (remaining (move F' t) < remaining (move F t))%nat.
Proof using Type.
  intros Hok Hp HF. pose proof (cursor_at_current _ Hok F p Hp) as (Hin & HF0 & _).
  pose proof (remaining_mono F F' t Hok ltac:(lia)) as Hle.
  pose proof (cursor_at_advance _ Hok F F' ltac:(lia)) as E.
  unfold cursor_current, move, cursor_at in Hp. cbn in Hp. pose proof (lookup_lt_Some _ _ _ Hp) as Hlt.
  unfold remaining, move, cursor_at in *. cbn in *.
  destruct (decide (count_while (doc_below F') (c_postings (mt_cursor t)) = count_while (doc_below F) (c_postings (mt_cursor t)))) as [Eq|].
  - exfalso. rewrite <-Eq in Hp. apply count_while_stop in Hp. unfold doc_below in Hp. apply Z.ltb_ge in Hp. lia.
  - lia.
Qed.

Lemma left_at_lt F F' ts t p :
  Forall term_ok ts -> t ∈ ts -> F <= F' -> cursor_current (mt_cursor (move F t)) = Some p -> doc_id p < F' ->
  (left_at F' ts < left_at F ts)%nat.
Proof using Type.
  intros Hok Hin HF Hp Hd. unfold left_at.
  assert (Hmono : forall ts', Forall term_ok ts' -> (sum_list ((fun t => remaining (move F' t)) <$> ts') <=
    sum_list ((fun t => remaining (move F t)) <$> ts'))%nat).
  { induction 1 as [|t' ts' Ht' _ IH]; [done|]. rewrite !fmap_cons, !sum_list_cons.
    pose proof (remaining_mono F F' t' Ht' HF). lia. }
  induction Hok as [|t' ts' Ht' Hok IH]; [by apply not_elem_of_nil in Hin|]. rewrite !fmap_cons, !sum_list_cons.
  specialize (Hmono ts' Hok). apply elem_of_cons in Hin as [<-|Hin].
  - pose proof (remaining_lt F F' t p Ht' Hp Hd). lia.
  - pose proof (remaining_mono F F' t' Ht' HF). specialize (IH Hin). lia.
Qed.

(** ** The bounds of a document *)

(** The upper bounds of the terms a document is on. *)
Definition doc_bound (doc : DocId) (t : MultiFieldTerm) : option Z :=
  if posting_of doc (c_postings (mt_cursor t)) is Some _ then Some (mt_upper_bound t) else None.

Context (Hok : Forall term_ok T0).
Context (Hub : Forall (fun t => 0 <= mt_upper_bound t) T0).
Context (Hbound : forall t doc s, t ∈ T0 -> term_score stats fs doc t = Some s -> s <= mt_upper_bound t).

Lemma sumZ_omap_le2 {A} (f g : A -> option Z) l :
  (forall x v, x ∈ l -> f x = Some v -> exists w, g x = Some w /\ v <= w) ->
  (forall x w, x ∈ l -> g x = Some w -> 0 <= w) -> sumZ (omap f l) <= sumZ (omap g l).
Proof using Type.
  induction l as [|x l IH]; intros Hfg Hg; [done|]. rewrite !omap_cons.
  specialize (IH (fun y v Hy => Hfg y v ltac:(by right)) (fun y w Hy => Hg y w ltac:(by right))).
  destruct (f x) as [v|] eqn:Ef.
  - destruct (Hfg x v ltac:(left) Ef) as (w & -> & Hle). rewrite !sumZ_cons. lia.
  - destruct (g x) as [w|] eqn:Eg; [|done]. pose proof (Hg x w ltac:(left) Eg). rewrite sumZ_cons. lia.
Qed.

Lemma doc_score_bound doc : hh_score (doc_hit stats fields doc) <= Z.min (sumZ (omap (doc_bound doc) T0)) (u_max 64).
Proof using Hub Hbound.
  unfold doc_hit. cbn [hh_score].
  assert (H : sumZ (omap (term_score stats fs doc) T0) <= sumZ (omap (doc_bound doc) T0)); [|lia].
  apply sumZ_omap_le2.
  - intros t v Ht Hv. exists (mt_upper_bound t). split; [|by eapply Hbound]. unfold doc_bound, term_score in *.
    by destruct (posting_of doc (c_postings (mt_cursor t))).
  - intros t w Ht Hw. unfold doc_bound in Hw. destruct (posting_of doc _); [|done]. injection Hw as <-.
    rewrite Forall_forall in Hub. by apply Hub.
Qed.

Lemma doc_score_nonneg doc : 0 <= hh_score (doc_hit stats fields doc).
Proof using Type.
  unfold doc_hit. cbn [hh_score]. assert (0 <= sumZ (omap (term_score stats fs doc) T0)); [|assert (0 < u_max 64) by done; lia].
  apply sumZ_nonneg, Forall_forall. intros s (t & _ & Hs)%list_elem_of_omap. unfold term_score in Hs.
  destruct (posting_of doc _); [|done]. destruct (fs !! _) as [[[? ?] ?]|]; [|done]. injection Hs as <-.
  apply f32_to_u_range. lia.
Qed.

Lemma candidate_bound doc : candidate stats fields restrict doc = true -> 0 < sumZ (omap (doc_bound doc) T0).
Proof using Hub.
  unfold candidate. intros [_ Hex]%andb_true_iff. apply existsb_exists in Hex as (t & Ht & Hpos).
  apply andb_true_iff in Hpos as [Hpos Hp]. apply Z.ltb_lt in Hpos. apply bool_decide_eq_true in Hp as [p Hp].
  assert (Hle : mt_upper_bound t <= sumZ (omap (doc_bound doc) T0)); [|lia]. apply sumZ_pos_elem.
  - apply Forall_forall. intros w (t' & Ht' & Hw)%list_elem_of_omap. unfold doc_bound in Hw.
    destruct (posting_of doc (c_postings (mt_cursor t'))); [|done]. injection Hw as <-. rewrite Forall_forall in Hub. by apply Hub.
  - apply list_elem_of_omap. exists t. split; [by apply list_elem_of_In|]. unfold doc_bound. by rewrite Hp.
Qed.

(** A term that is left at a document. *)
Lemma elem_of_live F t :
  t ∈ live F T0 -> exists t0 p, t0 ∈ T0 /\ t = move F t0 /\ term_ok t0 /\
    cursor_current (mt_cursor (move F t0)) = Some p /\ term_doc t = doc_id p /\ F <= doc_id p.
Proof using Hok.
  unfold live. intros [Hl (t0 & -> & Ht0)%list_elem_of_fmap]%list_elem_of_filter. rewrite Forall_forall in Hok.
  destruct (cursor_at_live _ F Hl) as [p Hp]. exists t0, p. pose proof (cursor_at_current _ (Hok t0 Ht0) F p Hp) as (_ & HF & _).
  split; [done|]. split; [done|]. split; [by apply Hok|]. split; [done|]. split; [|done].
  unfold term_doc, cursor_doc_id. change (mt_cursor (move F t0)) with (cursor_at F (c_postings (mt_cursor t0))). by rewrite Hp.
Qed.

(** Documents from [F] on that the terms of [B] have not reached are on terms of [A] only. *)
Lemma bound_of_prefix F A B doc :
  A ++ B ≡ₚ live F T0 -> F <= doc -> (forall t, t ∈ B -> doc < term_doc t) ->
  sumZ (omap (doc_bound doc) T0) <= sumZ (mt_upper_bound <$> A).
Proof using Hok Hub.
  intros Hp HF HB.
  assert (E : omap (doc_bound doc) (live F T0) = omap (doc_bound doc) T0).
  { apply omap_live; [|done]. intros t Ht He. unfold doc_bound.
    assert (posting_of doc (c_postings (mt_cursor t)) = None) as ->; [|done].
    apply posting_of_None, Forall_forall. intros q Hq. pose proof (cursor_at_exhausted _ F He q Hq). lia. }
  rewrite <-E, <-Hp, omap_app, sumZ_app.
  assert (omap (doc_bound doc) B = []) as ->.
  { assert (HB' : forall t, t ∈ B -> doc_bound doc t = None).
    - intros t Ht. specialize (HB t Ht). assert (Hl : t ∈ live F T0) by (rewrite <-Hp; apply elem_of_app; by right).
      destruct (elem_of_live F t Hl) as (t0 & p & Ht0 & -> & Hok0 & Hcur & Hd & _). unfold doc_bound.
      change (c_postings (mt_cursor (move F t0))) with (c_postings (mt_cursor t0)).
      rewrite (cursor_at_find _ Hok0 F doc p Hcur) by lia. by destruct (Z.eqb_spec (doc_id p) doc); [lia|].
    - clear -HB'. induction B as [|t B IH]; [done|]. rewrite omap_cons, (HB' t) by left. apply IH. intros; apply HB'. by right. }
  rewrite sumZ_nil, Z.add_0_r. apply sumZ_omap_le. intros t Ht.
  assert (Hl : t ∈ live F T0) by (rewrite <-Hp; apply elem_of_app; by left).
  destruct (elem_of_live F t Hl) as (t0 & p & Ht0 & -> & _). rewrite Forall_forall in Hub. split; [by apply (Hub t0)|].
  intros v Hv. unfold doc_bound in Hv. destruct (posting_of doc _); [|done]. injection Hv as <-. done.
Qed.

(** ** The loop *)

Abbreviation cand := (candidate stats fields restrict).
Abbreviation hit := (doc_hit stats fields).
Abbreviation bound := (fun doc => sumZ (omap (doc_bound doc) T0)).

Lemma scores_bounded doc : 0 <= hh_score (hit doc) <= Z.min (bound doc) (u_max 64).
Proof using Hub Hbound. split; [apply doc_score_nonneg|apply doc_score_bound]. Qed.
Definition skip_rest := offered_rest k cand hit bound scores_bounded candidate_bound.
Definition skip_to := offered_skip k cand hit bound scores_bounded candidate_bound.

(** The pivot document when every term is on it or behind it. *)
Lemma score_pivot F p ts :
  ts ≡ₚ live F T0 -> F <= p -> (forall t, t ∈ ts -> p <= term_doc t) ->
  score_terms stats fs p ts (replicate (length fs) None) 0 0 =
  (hh_score (doc_hit stats fields p), hh_matched_terms (doc_hit stats fields p)).
Proof using Hok.
  intros Hp HF Hmin. assert (Hc : cache_ok p (replicate (length fs) None)).
  { intros i len x dc av Hi. apply lookup_replicate in Hi as [? _]. done. }
  pose proof (score_terms_spec p ts _ 0 0 Hc) as E. change (Z.min 0 (u_max 64)) with 0 in E. rewrite E.
  assert (Eo : omap (current_score p) (live F T0) = omap (term_score stats fs p) T0).
  { apply omap_live.
    - intros t Ht He. unfold term_score. assert (posting_of p (c_postings (mt_cursor t)) = None) as ->; [|done].
      apply posting_of_None, Forall_forall. intros q Hq. pose proof (cursor_at_exhausted _ F He q Hq). lia.
    - intros t Ht Hl. apply current_term_score; [rewrite Forall_forall in Hok; by apply Hok|done|].
      intros q Hq. assert (Hin : move F t ∈ ts).
      { rewrite Hp. unfold live. apply list_elem_of_filter. split; [done|]. by apply list_elem_of_fmap_2. }
      specialize (Hmin _ Hin). unfold term_doc, cursor_doc_id in Hmin. rewrite Hq in Hmin. exact Hmin. }
  unfold doc_hit. cbn [hh_score hh_matched_terms]. rewrite <-Eo, Z.add_0_l, Nat.add_0_l.
  by rewrite Hp.
Qed.

(** The two ways the cursors move. *)
Lemma step_on_live F p ts :
  ts ≡ₚ live F T0 -> F <= p -> (forall t, t ∈ ts -> p <= term_doc t) ->
  filter (fun t => is_exhausted (mt_cursor t) = false) (step_on p <$> ts) ≡ₚ live (p + 1) T0.
Proof using Hok.
  intros Hp HF Hmin. rewrite Hp. erewrite live_step; [done|lia|]. intros t Ht Hl.
  assert (Hin : move F t ∈ live F T0) by (apply list_elem_of_filter; split; [done|by apply list_elem_of_fmap_2]).
  rewrite <-Hp in Hin. specialize (Hmin _ Hin). rewrite Forall_forall in Hok. specialize (Hok t Ht).
  destruct (cursor_at_live _ F Hl) as [q Hq]. unfold step_on, term_doc, cursor_doc_id in *.
  change (mt_cursor (move F t)) with (cursor_at F (c_postings (mt_cursor t))) in *. rewrite Hq in *. cbn in Hmin.
  destruct (decide (doc_id <$> Some q = Some p)) as [[= E]|Hne].
  - unfold move. unfold set_cursor. cbn [mt_field mt_doc_freq mt_upper_bound]. f_equal.
    rewrite (cursor_at_next _ Hok F q Hq). by rewrite E.
  - unfold move. f_equal. apply cursor_at_stay; [lia|]. intros q' Hq'. rewrite Hq in Hq'. injection Hq' as <-.
    assert (doc_id q <> p) by (intros E; by rewrite <-E in Hne). lia.
Qed.

Lemma step_to_live F p ts i :
  ts ≡ₚ live F T0 -> F <= p -> (forall t, t ∈ drop i ts -> p <= term_doc t) ->
  filter (fun t => is_exhausted (mt_cursor t) = false) ((step_to p <$> take i ts) ++ drop i ts) ≡ₚ live p T0.
Proof using Hok.
  intros Hp HF Hmin.
  assert (E : (step_to p <$> take i ts) ++ drop i ts = step_to p <$> ts).
  { rewrite <-(take_drop i ts) at 3. rewrite fmap_app. f_equal. rewrite <-(list_fmap_id (drop i ts)) at 1.
    apply list_fmap_ext. intros j t Hj. apply list_elem_of_lookup_2 in Hj. specialize (Hmin t Hj).
    assert (Hl : t ∈ live F T0) by (rewrite <-Hp, <-(take_drop i ts); apply elem_of_app; by right).
    destruct (elem_of_live F t Hl) as (t0 & q & Ht0 & -> & Hok0 & Hq & Hd & _). unfold step_to.
    change (mt_cursor (move F t0)) with (cursor_at F (c_postings (mt_cursor t0))).
    rewrite cursor_at_advance by done. unfold move, set_cursor. cbn. f_equal. symmetry. symmetry.
    apply cursor_at_stay; [done|]. intros q' Hq'. change (mt_cursor (move F t0)) with (cursor_at F (c_postings (mt_cursor t0))) in Hq.
    rewrite Hq in Hq'. injection Hq' as <-. lia. }
  rewrite E, Hp. erewrite live_step; [done|lia|]. intros t Ht Hl. unfold step_to, move. f_equal.
  rewrite Forall_forall in Hok. by apply cursor_at_advance; [apply Hok|].
Qed.

(** What a round knows of its sorted terms. *)
Lemma sorted_terms F ts :
  filter (fun t => is_exhausted (mt_cursor t) = false) ts ≡ₚ live F T0 ->
  let terms := sort_by_key term_doc (filter (fun t => is_exhausted (mt_cursor t) = false) ts) in
  terms ≡ₚ live F T0 /\
  (forall i j t t', terms !! i = Some t -> terms !! j = Some t' -> (i <= j)%nat -> term_doc t <= term_doc t') /\
  forall t, t ∈ terms -> F <= term_doc t.
Proof using Hok.
  intros Hp. cbv zeta. assert (Hperm : sort_by_key term_doc (filter (fun t => is_exhausted (mt_cursor t) = false) ts) ≡ₚ live F T0)
    by (by rewrite sort_by_key_perm).
  split; [done|]. split.
  - intros i j t t' Hi Hj Hij. eapply (sorted_lookup_le term_doc); [apply sort_by_key_sorted|exact Hi|exact Hj|done].
  - intros t Ht. rewrite Hperm in Ht. destruct (elem_of_live F t Ht) as (t0 & q & _ & -> & _ & _ & Hd & HF). lia.
Qed.

Lemma pivot_candidate F p ts i :
  ts ≡ₚ live F T0 -> F <= p -> (forall t, t ∈ take (S i) ts -> term_doc t = p) ->
  0 < sumZ (mt_upper_bound <$> take (S i) ts) -> allowed restrict p = true ->
  candidate stats fields restrict p = true.
Proof using Hok Hub.
  intros Hp HF Hdoc Hpos Hal. unfold candidate. rewrite Hal. cbn [andb]. apply existsb_exists.
  assert (Hex : exists t, t ∈ take (S i) ts /\ 0 < mt_upper_bound t).
  { clear -Hpos. induction (take (S i) ts) as [|t l IH]; [rewrite fmap_nil, sumZ_nil in Hpos; lia|].
    rewrite fmap_cons, sumZ_cons in Hpos. destruct (Z.lt_ge_cases 0 (mt_upper_bound t)) as [H|H]; [exists t; split; [left|done]|].
    destruct IH as (t' & Ht' & H'); [lia|]. exists t'. split; [by right|done]. }
  destruct Hex as (t & Ht & Htpos).
  assert (Hl : t ∈ live F T0) by (rewrite <-Hp, <-(take_drop (S i) ts); apply elem_of_app; by left).
  destruct (elem_of_live F t Hl) as (t0 & q & Ht0 & -> & Hok0 & Hq & Hd & _). exists t0.
  split; [by apply list_elem_of_In|]. apply andb_true_iff. split; [by apply Z.ltb_lt|].
  apply bool_decide_eq_true. specialize (Hdoc _ Ht). rewrite (cursor_at_find _ Hok0 F p q Hq) by lia.
  destruct (Z.eqb_spec (doc_id q) p); [by eexists|lia].
Qed.

Lemma wand_loop_correct fuel F ts heap :
  (0 < k)%nat -> filter (fun t => is_exhausted (mt_cursor t) = false) ts ≡ₚ live F T0 ->
  heap_for k (offered cand hit F) heap -> (left_at F T0 < fuel)%nat ->
  exists heap', wand_loop stats fuel fs k restrict ts heap = Some heap' /\ heap_for k (offered_all cand hit) heap'.
Proof using Hok Hub Hbound.
  intros Hk. revert F ts heap. induction fuel as [|fuel IH]; intros F ts heap Hts Hh Hf; [lia|]. cbn [wand_loop].
  destruct (sorted_terms F ts Hts) as (Hperm & Hsort & Hmin). cbv zeta in *.
  set (terms := sort_by_key term_doc _) in *.
  destruct (Nat.eqb_spec (length (filter (fun t => is_exhausted (mt_cursor t) = false) ts)) 0) as [Hz|Hnz].
  { exists heap. split; [done|]. apply length_zero_iff_nil in Hz. rewrite Hz in Hts.
    apply (skip_rest F heap 0 Hh); [by right|]. intros doc HF.
    apply (bound_of_prefix F [] [] doc Hts HF). by intros t ?%not_elem_of_nil. }
  pose proof (find_pivot_spec (threshold heap k) 0 0 terms) as Hpiv. change (Z.min 0 (u_max 64)) with 0 in Hpiv.
  assert (Hubt : Forall (fun t => 0 <= mt_upper_bound t) terms).
  { apply Forall_forall. intros t Ht. rewrite Hperm in Ht. destruct (elem_of_live F t Ht) as (t0 & q & Ht0 & -> & _).
    rewrite Forall_forall in Hub. by apply (Hub t0). }
  specialize (Hpiv Hubt ltac:(by right)).
  destruct (find_pivot (threshold heap k) 0 0 terms) as [pi|] eqn:Epiv.
  2:{ exists heap. split; [done|]. apply (skip_rest F heap _ Hh Hpiv). intros doc HF. rewrite Z.add_0_l.
      apply (bound_of_prefix F terms [] doc); [by rewrite app_nil_r|done|]. by intros t ?%not_elem_of_nil. }
  destruct Hpiv as (i & ti & -> & Hi & Hlow & Hpos). rewrite Nat.add_0_l, Hi. cbn [fmap option_fmap option_map default id from_option].
  rewrite Z.add_0_l in Hlow, Hpos. set (p := term_doc ti) in *.
  destruct (terms !! 0%nat) as [t0|] eqn:E0; [|apply lookup_ge_None in E0; apply lookup_lt_Some in Hi; lia].
  cbn [fmap option_fmap option_map default id from_option].
  assert (Hti : ti ∈ terms) by (by eapply list_elem_of_lookup_2). assert (Ht0 : t0 ∈ terms) by (by eapply list_elem_of_lookup_2).
  assert (HFp : F <= p) by (by apply Hmin).
  assert (Hsp : term_doc t0 <= p) by (apply (Hsort 0%nat i t0 ti); [done|done|lia]).
  destruct (elem_of_live F t0 ltac:(by rewrite <-Hperm)) as (b & q & Hb & Et0 & Hokb & Hq & Hdq & HFq).
  assert (Hafter : forall t, t ∈ drop i terms -> p <= term_doc t).
  { intros t (j & Hj)%list_elem_of_lookup_1. rewrite lookup_drop in Hj. apply (Hsort i (i + j)%nat ti t); [done|done|lia]. }
  destruct (Z.eqb_spec (term_doc t0) p) as [Hsame|Hdiff].
  - assert (Hall : forall t, t ∈ terms -> p <= term_doc t).
    { intros t (j & Hj)%list_elem_of_lookup_1. rewrite <-Hsame. apply (Hsort 0%nat j t0 t); [done|done|lia]. }
    assert (Hskip : heap_for k (offered cand hit p) heap).
    { apply (skip_to F p heap 0 HFp Hh); [by right|]. intros doc Hd.
      apply (bound_of_prefix F [] terms doc); [done|lia|]. intros t Ht. specialize (Hall t Ht). lia. }
    apply (IH (p + 1)).
    + rewrite <-(step_on_live F p terms Hperm HFp Hall). done.
    + rewrite (score_pivot F p terms Hperm HFp Hall).
      apply (offered_next k cand hit p heap); [done|done|exact Hskip|].
      destruct (allowed restrict p) eqn:Hal; [|unfold candidate; by rewrite Hal].
      rewrite (pivot_candidate F p terms i); try done. intros t (j & Hj)%list_elem_of_lookup_1.
      apply lookup_take_Some in Hj as [Hj Hlt]. pose proof (Hall t (list_elem_of_lookup_2 _ _ _ Hj)).
      pose proof (Hsort j i t ti Hj Hi ltac:(lia)) as Hle. fold p in Hle. lia.
    + pose proof (left_at_lt F (p + 1) T0 b q Hok Hb ltac:(lia) Hq ltac:(lia)). lia.
  - apply (IH p).
    + by apply (step_to_live F).
    + apply (skip_to F p heap _ HFp Hh Hlow). intros doc Hd.
      apply (bound_of_prefix F (take i terms) (drop i terms) doc); [by rewrite take_drop|lia|].
      intros t Ht. specialize (Hafter t Ht). lia.
    + pose proof (left_at_lt F p T0 b q Hok Hb HFp Hq ltac:(lia)). lia.
Qed.
End wand_proof.

(** ** The whole search *)

Lemma all_terms_forall {LN : Ln} stats fields (P : MultiFieldTerm -> Prop) :
  (forall i field term, field ∈ fields -> term ∈ ft_terms field -> P (mkMFT (cursor_new (tr_postings term)) i (tr_doc_freq term)
    (bm25_upper_bound (tr_max_weight term) (ss_doc_count stats (ft_xpath field)) (tr_doc_freq term)))) ->
  Forall P (all_terms stats fields).
Proof.
  intros HP. apply Forall_forall. intros t. unfold all_terms. rewrite elem_of_concat. intros (ts & Ht & Hts).
  apply elem_of_lookup_imap in Hts as (i & field & -> & Hf). apply list_elem_of_omap in Ht as (term & Hterm & Ht).
  cbv zeta in Ht. destruct (is_exhausted _); [done|]. injection Ht as <-.
  apply HP; [by eapply list_elem_of_lookup_2|done].
Qed.

Lemma lower_bound (l : list Z) : exists m, forall x, x ∈ l -> m <= x.
Proof.
  induction l as [|y l [m IH]]; [exists 0; by intros x ?%not_elem_of_nil|]. exists (Z.min m y).
  intros x [->|Hx]%elem_of_cons; [lia|]. specialize (IH x Hx). lia.
Qed.

(** The posting lists are well formed, and no score of a term is above the term's bound. *)
Definition fields_ok (fields : list FieldTerms) : Prop :=
  Forall (fun field => Forall (fun term => docs_ascending (items (tr_postings term))) (ft_terms field)) fields.
Definition bounds_ok {LN : Ln} (stats : SearchStats) (fields : list FieldTerms) : Prop :=
  forall t doc s, t ∈ all_terms stats fields -> term_score stats (field_stats stats fields) doc t = Some s ->
    s <= mt_upper_bound t.

Section search.
Context {LN : Ln} (stats : SearchStats) (fields : list FieldTerms) (k : nat) (restrict : option (gset DocId)).
Context (Hfields : fields_ok fields).

Lemma terms_ok : Forall term_ok (all_terms stats fields).
Proof using Hfields.
  apply all_terms_forall. intros i field term Hf Ht. unfold fields_ok in Hfields. rewrite Forall_forall in Hfields.
  specialize (Hfields field Hf). rewrite Forall_forall in Hfields. by apply Hfields.
Qed.

Lemma bounds_nonneg : Forall (fun t => 0 <= mt_upper_bound t) (all_terms stats fields).
Proof using Type.
  apply all_terms_forall. intros i field term _ _. cbn. unfold bm25_upper_bound.
  destruct (_ || _); [done|]. apply f32_to_u_range. lia.
Qed.

(** Before the first document the cursors are where they start. *)
Lemma start_of_search : exists F,
  live F (all_terms stats fields) = filter (fun t => is_exhausted (mt_cursor t) = false) (all_terms stats fields) /\
  (forall doc, doc < F -> candidate stats fields restrict doc = false) /\
  left_at F (all_terms stats fields) = sum_list (remaining <$> all_terms stats fields).
Proof using Type.
  destruct (lower_bound (concat ((fun t => doc_id <$> c_postings (mt_cursor t)) <$> all_terms stats fields))) as [F HF].
  assert (Hdoc : forall t p, t ∈ all_terms stats fields -> p ∈ c_postings (mt_cursor t) -> F <= doc_id p).
  { intros t p Ht Hp. apply HF, elem_of_concat. exists (doc_id <$> c_postings (mt_cursor t)).
    split; [by apply list_elem_of_fmap_2|]. apply list_elem_of_fmap. by exists t. }
  assert (Hmove : Forall (fun t => move F t = t) (all_terms stats fields)).
  { apply Forall_forall. intros t Ht.
    assert (Hidx : c_index (mt_cursor t) = O).
    { revert t Ht. apply Forall_forall, all_terms_forall. done. }
    unfold move, set_cursor. destruct t as [[l n] f df ub]. cbn in *. subst n. f_equal. symmetry.
    apply cursor_at_unique; [lia|intros; lia|]. intros q Hq. apply (Hdoc _ q Ht). by eapply list_elem_of_lookup_2. }
  exists F. split; [|split].
  - unfold live. rewrite <-(list_fmap_id (all_terms stats fields)) at 2. f_equal. apply Forall_fmap_ext_1. exact Hmove.
  - intros doc Hlt. apply not_true_iff_false. unfold candidate. intros [_ Hex]%andb_true_iff.
    apply existsb_exists in Hex as (t & Ht & [_ Hp]%andb_true_iff). apply bool_decide_eq_true in Hp as [p Hp].
    apply posting_of_Some in Hp as [Hp <-]. apply list_elem_of_In in Ht. specialize (Hdoc t p Ht Hp). lia.
  - unfold left_at. f_equal. apply Forall_fmap_ext_1. eapply Forall_impl; [exact Hmove|]. intros t ->. done.
Qed.

Lemma candidate_in_docs doc : candidate stats fields restrict doc = true -> doc ∈ all_docs stats fields.
Proof using Type.
  unfold candidate. intros [_ Hex]%andb_true_iff. apply existsb_exists in Hex as (t & Ht & [_ Hp]%andb_true_iff).
  apply bool_decide_eq_true in Hp as [p Hp]. apply posting_of_Some in Hp as [Hp <-]. apply list_elem_of_In in Ht.
  unfold all_docs. rewrite elem_of_dedup, elem_of_sort_unstable, elem_of_concat.
  exists (doc_id <$> c_postings (mt_cursor t)). split; [by apply list_elem_of_fmap_2|]. apply list_elem_of_fmap. by exists t.
Qed.

Lemma all_docs_nodup : NoDup (all_docs stats fields).
Proof using Type.
  unfold all_docs. pose proof (dedup_sorted _ (sort_unstable_sorted
    (concat ((fun t => doc_id <$> c_postings (mt_cursor t)) <$> all_terms stats fields)))) as Hs.
  induction Hs as [|x l _ IH Hx]; constructor; [|done]. rewrite Forall_forall in Hx. intros Hin. specialize (Hx x Hin). lia.
Qed.

(** C7: the pruned search is exact: when no term's score exceeds its upper bound,
    [wand_top_k_multi_field] returns what scoring and ranking every document on a term with a
    positive bound returns, the best [k] by score and then by document, restricted documents
    included. *)
Theorem wand_exact :
  bounds_ok stats fields -> wand_top_k_multi_field stats fields k restrict = brute_top_k stats fields k restrict.
Proof using Hfields.
  intros Hb. unfold wand_top_k_multi_field, brute_top_k.
  destruct (Nat.eqb_spec k 0) as [->|Hk]; [done|]. cbn [orb].
  destruct (Nat.eqb_spec (length fields) 0) as [Hz|_].
  { apply length_zero_iff_nil in Hz. rewrite Hz. cbn. by rewrite take_nil. }
  destruct start_of_search as (F & Hlive & Hbefore & Hleft).
  destruct (wand_loop_correct stats fields k restrict terms_ok bounds_nonneg Hb
    (S (sum_list (remaining <$> all_terms stats fields))) F (all_terms stats fields) []) as (heap & -> & Hh).
  - lia.
  - by rewrite Hlive.
  - by apply offered_start.
  - rewrite Hleft. lia.
  - cbn [default id]. apply offered_finish; [done|done|apply all_docs_nodup|apply candidate_in_docs].
Qed.
End search.

(** ** Where the bound is not one *)

(** An index of one document, and a term that counts four (versions of it in older segments). *)
Definition one_doc_stats : SearchStats := mkSearchStats (fun _ => 1) (fun _ => 5) (fun _ _ => Some 5).
Definition one_doc_fields : list FieldTerms :=
  [mkFieldTerms 1 [mkTermRef (mkPostingList [mkPosting 7 [1] 1] 1) 4 1]].

(** [bm25_upper_bound] does not cap the document frequency at the document count as
    [bm25_idf] does: with the logarithms of the two quotients as the nearest [f32] values, the
    bound of a term that counts four documents in an index of one is 0 although the document's
    score is positive, and the search drops the document. *)
Theorem upper_bound_unsafe {LN : Ln} :
  f32_ln (S754_finite false 14913080 (-25)) = S754_finite true 13605152 (-24) ->
  f32_ln (S754_finite false 11184811 (-23)) = S754_finite false 9653010 (-25) ->
  bm25_upper_bound 1 1 4 = 0 /\ bm25_score_scaled 1 1 5 (f32_of 5) 1 4 = 287 /\
  wand_top_k_multi_field one_doc_stats one_doc_fields 10 None = [].
Proof.
  intros H1 H2.
  assert (Hb : bm25_upper_bound 1 1 4 = 0).
  { unfold bm25_upper_bound. cbn [Z.eqb orb].
    replace (f32_add _ f32_one) with (S754_finite false 14913080 (-25)) at 1 by (vm_compute; reflexivity).
    rewrite H1. vm_compute. reflexivity. }
  split; [done|]. split.
  - unfold bm25_score_scaled, bm25_score, bm25_idf. cbn [Z.eqb orb].
    replace (f32_le (f32_of 5) f32_zero) with false by (vm_compute; reflexivity).
    replace (f32_le (f32_of 1) f32_zero || f32_le (f32_min (f32_of 4) (f32_of 1)) f32_zero) with false
      by (vm_compute; reflexivity).
    replace (f32_add (f32_div (f32_add (f32_sub (f32_of 1) (f32_min (f32_of 4) (f32_of 1))) f32_half)
      (f32_add (f32_min (f32_of 4) (f32_of 1)) f32_half)) f32_one) with (S754_finite false 11184811 (-23))
      by (vm_compute; reflexivity).
    rewrite H2. vm_compute. reflexivity.
  - unfold wand_top_k_multi_field.
    replace (all_terms one_doc_stats one_doc_fields) with
      [mkMFT (mkCursor [mkPosting 7 [1] 1] 0) 0 4 (bm25_upper_bound 1 1 4)] by reflexivity.
    rewrite Hb. reflexivity.
Qed.

(** ** Witnesses *)

(** A checker for [bounds_ok]: only the documents of the postings matter. *)
Definition bounds_check {LN : Ln} (stats : SearchStats) (fields : list FieldTerms) : bool :=
  forallb (fun t => forallb (fun p =>
    match term_score stats (field_stats stats fields) (doc_id p) t with
    | Some s => s <=? mt_upper_bound t
    | None => true
    end) (c_postings (mt_cursor t))) (all_terms stats fields).

Lemma bounds_check_ok {LN : Ln} stats fields : bounds_check stats fields = true -> bounds_ok stats fields.
Proof.
  intros H t doc s Ht Hs. unfold bounds_check in H. rewrite forallb_forall in H.
  specialize (H t ltac:(by apply list_elem_of_In)). rewrite forallb_forall in H.
  assert (exists p, p ∈ c_postings (mt_cursor t) /\ doc_id p = doc) as (p & Hp & <-).
  { unfold term_score in Hs. destruct (posting_of doc (c_postings (mt_cursor t))) as [p|] eqn:E; [|done].
    exists p. by apply posting_of_Some. }
  specialize (H p ltac:(by apply list_elem_of_In)). rewrite Hs in H. by apply Z.leb_le.
Qed.

(** [x - 1], which agrees with the logarithm at 1 and is above it elsewhere. *)
Definition toy_ln : Ln := fun x => f32_sub x f32_one.
Definition toy_stats : SearchStats := mkSearchStats (fun _ => 10) (fun _ => 50) (fun d _ => Some (d mod 7 + 1)).
Definition toy_posting (d : DocId) : Posting := mkPosting d [1; 2] 1.
Definition toy_fields : list FieldTerms :=
  [mkFieldTerms 1 [mkTermRef (mkPostingList (toy_posting <$> [1; 3; 5; 8]) 1) 4 1;
                   mkTermRef (mkPostingList (toy_posting <$> [3; 8; 9]) 1) 3 1];
   mkFieldTerms 2 [mkTermRef (mkPostingList (toy_posting <$> [2; 3]) 1) 2 1]].

Lemma toy_fields_ok : fields_ok toy_fields.
Proof. repeat constructor; vm_compute; reflexivity. Qed.

Lemma wand_exact_witness :
  wh_doc_id <$> wand_top_k_multi_field (LN := toy_ln) toy_stats toy_fields 2 (Some {[ 1; 3; 8; 9 ]}) = [3; 8].
Proof.
  rewrite (wand_exact (LN := toy_ln) toy_stats toy_fields 2 (Some {[ 1; 3; 8; 9 ]}) toy_fields_ok).
  - vm_compute. reflexivity.
  - apply bounds_check_ok. vm_compute. reflexivity.
Defined.

Definition table_ln : Ln := fun x =>
  match x with
  | S754_finite false 14913080 (-25) => S754_finite true 13605152 (-24)
  | S754_finite false 11184811 (-23) => S754_finite false 9653010 (-25)
  | _ => f32_zero
  end.

Lemma upper_bound_unsafe_witness : wand_top_k_multi_field (LN := table_ln) one_doc_stats one_doc_fields 10 None = [].
Proof. apply (upper_bound_unsafe (LN := table_ln)); reflexivity. Defined.
