(* ===== verification/Conjunction.v ===== *)
(** * The best documents of a conjunctive query

    Models the conjunctive search of [crates/core-query/src/wand.rs]: [WandTerm],
    [FieldConjunction] (its terms advance together to the next document they all contain) and
    [conjunctive_top_k_multi_field], which merges the conjunctions of several fields.

    [brute_conjunctive] is the reference: every document of the lists, scored in the fields whose
    terms it contains all, and ranked. *)
From Stdlib Require Import ZArith Lia SpecFloat.
From stdpp Require Import base numbers list gmap sorting.
From S2P Require Import Prelude Types Posting PostingOps Scorer TopK Wand.
Local Open Scope Z_scope.

Record WandTerm : Type := mkWandTerm {
  wt_cursor : PostingCursor;
  wt_doc_freq : Z;
  wt_upper_bound : Z
}.

Record FieldConjunction : Type := mkFC {
  fc_xpath : XPathId;
  fc_doc_count : Z;
  fc_avg_doc_len : f32;
  fc_terms : list WandTerm;
  fc_started : bool
}.

Section conjunction.
Context {LN : Ln} (stats : SearchStats).

Definition WandTerm_new (postings : PostingList) (doc_freq max_weight doc_count : Z) : WandTerm :=
  mkWandTerm (cursor_new postings) doc_freq (bm25_upper_bound max_weight doc_count doc_freq).

Definition FieldConjunction_new (field : FieldTerms) : option FieldConjunction :=
  if (length (ft_terms field) =? 0)%nat
     || existsb (fun term => (length (items (tr_postings term)) =? 0)%nat) (ft_terms field) then None
  else
    let doc_count := ss_doc_count stats (ft_xpath field) in
    Some (mkFC (ft_xpath field) doc_count (avg_doc_len stats (ft_xpath field))
      ((fun term => WandTerm_new (tr_postings term) (tr_doc_freq term) (tr_max_weight term) doc_count) <$> ft_terms field)
      false).

Definition with_cursor (t : WandTerm) (c : PostingCursor) : WandTerm :=
  mkWandTerm c (wt_doc_freq t) (wt_upper_bound t).

Definition any_exhausted (terms : list WandTerm) : bool := existsb (fun t => is_exhausted (wt_cursor t)) terms.

(** [.map(|term| term.cursor.doc_id().unwrap()).max().unwrap()]; no term is exhausted here. *)
Definition max_doc (terms : list WandTerm) : DocId :=
  match terms with
  | [] => 0
  | t :: ts => fold_left (fun m t => Z.max m (default 0 (cursor_doc_id (wt_cursor t)))) ts
                 (default 0 (cursor_doc_id (wt_cursor t)))
  end.

(** The loop of [next_match]; a round that does not return moves a cursor ([next_loop_spec]). *)
Fixpoint next_loop (fuel : nat) (terms : list WandTerm) : option (list WandTerm * option DocId) :=
  match fuel with
  | O => None
  | S fuel' =>
    if any_exhausted terms then Some (terms, None)
    else
      let target := max_doc terms in
      let terms := (fun t => with_cursor t (advance_to (wt_cursor t) target)) <$> terms in
      if any_exhausted terms then Some (terms, None)
      else if forallb (fun t => bool_decide (cursor_doc_id (wt_cursor t) = Some target)) terms
           then Some (terms, Some target)
           else next_loop fuel' terms
  end.

Definition term_postings (t : WandTerm) : list Posting := c_postings (wt_cursor t).

Definition next_match (fc : FieldConjunction) : FieldConjunction * option DocId :=
  let terms :=
    if fc_started fc then (fun t => with_cursor t (cursor_next (wt_cursor t))) <$> fc_terms fc else fc_terms fc in
  let '(terms, found) :=
    default (terms, None) (next_loop (S (sum_list ((fun t => length (term_postings t)) <$> terms))) terms) in
  (mkFC (fc_xpath fc) (fc_doc_count fc) (fc_avg_doc_len fc) terms true, found).

(** The score of the document the conjunction is on. *)
Definition fc_score (fc : FieldConjunction) (doc : DocId) : Z :=
  let doc_len := default (f32_to_u 32 (fc_avg_doc_len fc)) (ss_doc_len stats doc (fc_xpath fc)) in
  fold_left (fun score t =>
    match cursor_current (wt_cursor t) with
    | Some p => saturating_add 64 score (bm25_score_scaled (wrap 32 (zlen (positions p))) (weight p) doc_len
        (fc_avg_doc_len fc) (fc_doc_count fc) (wt_doc_freq t))
    | None => score
    end) (fc_terms fc) 0.

(** A conjunction with the document it is on: the vectors [conjunctions] and [current]. *)
Abbreviation conj_at := (FieldConjunction * option DocId)%type.

(** [current.iter().flatten().min()] *)
Definition min_current (cs : list conj_at) : option DocId :=
  match omap snd cs with
  | [] => None
  | d :: ds => Some (fold_left Z.min ds d)
  end.

Definition conj_score (doc : DocId) (cs : list conj_at) : Z * nat :=
  fold_left (fun acc c =>
    if decide (c.2 = Some doc) then (saturating_add 64 acc.1 (fc_score c.1 doc), (acc.2 + length (fc_terms c.1))%nat)
    else acc) cs (0, O).

Definition step_conj (doc : DocId) (c : conj_at) : conj_at :=
  if decide (c.2 = Some doc) then next_match c.1 else c.

(** The main loop; every round consumes a document ([conj_loop_correct]). *)
Fixpoint conj_loop (fuel k : nat) (restrict : option (gset DocId)) (cs : list conj_at) (heap : list HeapHit)
    : option (list HeapHit) :=
  match fuel with
  | O => None
  | S fuel' =>
    match min_current cs with
    | None => Some heap
    | Some doc =>
      let heap :=
        if allowed restrict doc then
          let '(score, matched) := conj_score doc cs in push_top_k heap doc score score matched k
        else heap in
      conj_loop fuel' k restrict (step_conj doc <$> cs) heap
    end
  end.

Definition postings_of (cs : list FieldConjunction) : list (list Posting) :=
  concat ((fun c => term_postings <$> fc_terms c) <$> cs).

Definition conjunctions (fields : list FieldTerms) : list FieldConjunction := omap FieldConjunction_new fields.

Definition conjunctive_top_k_multi_field (fields : list FieldTerms) (k : nat) (restrict : option (gset DocId))
    : list WandHit :=
  if (k =? 0)%nat then []
  else
    let cs := next_match <$> conjunctions fields in
    finish_heap (default [] (conj_loop (S (sum_list (length <$> postings_of (conjunctions fields)))) k restrict cs [])).

(** ** The reference *)

(** A document is in a conjunction when every term has it. *)
Definition in_all (doc : DocId) (terms : list WandTerm) : bool :=
  forallb (fun t => bool_decide (is_Some (posting_of doc (term_postings t)))) terms.

Definition term_value (fc : FieldConjunction) (doc : DocId) (t : WandTerm) : Z :=
  match posting_of doc (term_postings t) with
  | Some p => bm25_score_scaled (wrap 32 (zlen (positions p))) (weight p)
      (default (f32_to_u 32 (fc_avg_doc_len fc)) (ss_doc_len stats doc (fc_xpath fc)))
      (fc_avg_doc_len fc) (fc_doc_count fc) (wt_doc_freq t)
  | None => 0
  end.

Definition conj_value (doc : DocId) (fc : FieldConjunction) : Z :=
  if in_all doc (fc_terms fc) then sumZ (term_value fc doc <$> fc_terms fc) else 0.
Definition conj_matched (doc : DocId) (fc : FieldConjunction) : nat :=
  if in_all doc (fc_terms fc) then length (fc_terms fc) else O.

Definition conj_hit (conjs : list FieldConjunction) (doc : DocId) : HeapHit :=
  let score := Z.min (sumZ (conj_value doc <$> conjs)) (u_max 64) in
  mkHeapHit doc score score (sum_list (conj_matched doc <$> conjs)).

Definition conj_candidate (conjs : list FieldConjunction) (restrict : option (gset DocId)) (doc : DocId) : bool :=
  allowed restrict doc && existsb (fun fc => in_all doc (fc_terms fc)) conjs.

Definition conj_docs (conjs : list FieldConjunction) : list DocId :=
  dedup (sort_unstable (concat (docs <$> postings_of conjs))).

Definition brute_conjunctive (fields : list FieldTerms) (k : nat) (restrict : option (gset DocId)) : list WandHit :=
  let conjs := conjunctions fields in
  take k (ranked (conj_hit conjs <$> filter (fun d => conj_candidate conjs restrict d = true) (conj_docs conjs))).
End conjunction.

(** ** The terms of one field *)

(** The terms with their cursors on the first postings at or after a document. *)
Definition at_all (F : DocId) (ts : list WandTerm) : list WandTerm :=
  (fun t => with_cursor t (cursor_at F (term_postings t))) <$> ts.
Definition as_term (t : WandTerm) : MultiFieldTerm := mkMFT (wt_cursor t) 0 0 0.
Definition left_all (F : DocId) (ts : list WandTerm) : nat := left_at F (as_term <$> ts).

Definition terms_ascending (ts : list WandTerm) : Prop := Forall (fun t => docs_ascending (term_postings t)) ts.

Lemma any_exhausted_true F ts doc :
  any_exhausted (at_all F ts) = true -> F <= doc -> in_all doc ts = false.
Proof.
  unfold any_exhausted, at_all, in_all. intros Hex HF. apply existsb_exists in Hex as (t' & Ht' & He).
  apply list_elem_of_In, list_elem_of_fmap in Ht' as (t & -> & Ht). apply not_true_iff_false.
  rewrite forallb_forall. intros Hall. specialize (Hall t ltac:(by apply list_elem_of_In)).
  apply bool_decide_eq_true in Hall as [p Hp]. apply posting_of_Some in Hp as [Hp Hd].
  pose proof (cursor_at_exhausted (term_postings t) F He p Hp). lia.
Qed.

Lemma any_exhausted_false F ts :
  any_exhausted (at_all F ts) = false ->
  Forall (fun t => is_Some (cursor_current (cursor_at F (term_postings t)))) ts.
Proof.
  intros Hex. apply Forall_forall. intros t Ht. apply cursor_at_live. apply not_true_iff_false. intros He.
  apply not_true_iff_false in Hex. apply Hex. apply existsb_exists.
  exists (with_cursor t (cursor_at F (term_postings t))). split; [|done].
  apply list_elem_of_In, list_elem_of_fmap. by exists t.
Qed.

(** The document a term's cursor is on. *)
Definition doc_at (F : DocId) (t : WandTerm) : DocId := default 0 (cursor_doc_id (cursor_at F (term_postings t))).

Lemma max_doc_at F ts :
  ts <> [] -> (exists t, t ∈ ts /\ max_doc (at_all F ts) = doc_at F t) /\
  forall t, t ∈ ts -> doc_at F t <= max_doc (at_all F ts).
Proof.
  destruct ts as [|t0 ts]; [done|]. intros _. unfold at_all. rewrite fmap_cons. cbn [max_doc].
  change (default 0 (cursor_doc_id (wt_cursor (with_cursor t0 (cursor_at F (term_postings t0)))))) with (doc_at F t0).
  assert (H : forall acc, let m := fold_left (fun m t => Z.max m (default 0 (cursor_doc_id (wt_cursor t))))
      ((fun t => with_cursor t (cursor_at F (term_postings t))) <$> ts) acc in
    (m = acc \/ exists t, t ∈ ts /\ m = doc_at F t) /\ acc <= m /\ forall t, t ∈ ts -> doc_at F t <= m).
  { induction ts as [|t ts IH]; intros acc; cbv zeta in *.
    { cbn. split; [by left|]. split; [done|]. by intros t ?%not_elem_of_nil. }
    rewrite fmap_cons. cbn [fold_left].
    change (default 0 (cursor_doc_id (wt_cursor (with_cursor t (cursor_at F (term_postings t)))))) with (doc_at F t).
    destruct (IH (Z.max acc (doc_at F t))) as (IH1 & IH2 & IH3). split; [|split; [lia|]].
    - destruct IH1 as [->|(t' & Ht' & ->)]; [|right; exists t'; split; [by right|done]].
      destruct (Z.max_spec acc (doc_at F t)) as [[_ ->]|[_ ->]]; [right; exists t; split; [left|done]|by left].
    - intros t' [->|Ht']%elem_of_cons; [lia|by apply IH3]. }
  specialize (H (doc_at F t0)). cbv zeta in H. destruct H as (H1 & H2 & H3). split.
  - destruct H1 as [->|(t & Ht & ->)]; [exists t0; split; [left|done]|exists t; split; [by right|done]].
  - intros t [->|Ht]%elem_of_cons; [done|by apply H3].
Qed.

Lemma at_all_advance F F' ts :
  terms_ascending ts -> F <= F' ->
  (fun t => with_cursor t (advance_to (wt_cursor t) F')) <$> at_all F ts = at_all F' ts.
Proof.
  intros Ha HF. unfold at_all. rewrite <-list_fmap_compose. apply Forall_fmap_ext_1.
  eapply Forall_impl; [exact Ha|]. intros t Ht. cbn. unfold with_cursor. cbn. f_equal. by apply cursor_at_advance.
Qed.

Lemma in_all_on F ts doc :
  terms_ascending ts -> F <= doc ->
  Forall (fun t => cursor_doc_id (cursor_at F (term_postings t)) = Some doc) ts -> in_all doc ts = true.
Proof.
  intros Ha HF Hon. unfold in_all. apply forallb_forall. intros t Ht%list_elem_of_In.
  unfold terms_ascending in Ha. rewrite Forall_forall in Ha. rewrite Forall_forall in Hon.
  specialize (Hon t Ht). unfold cursor_doc_id in Hon. apply fmap_Some in Hon as (p & Hp & Hd).
  apply bool_decide_eq_true. rewrite (cursor_at_find _ (Ha t Ht) F doc p Hp) by lia.
  destruct (Z.eqb_spec (doc_id p) doc); [by eexists|lia].
Qed.

Lemma not_in_all F ts t doc :
  terms_ascending ts -> t ∈ ts -> F <= doc < doc_at F t -> in_all doc ts = false.
Proof.
  intros Ha Ht Hd. apply not_true_iff_false. unfold in_all. rewrite forallb_forall. intros Hall.
  specialize (Hall t ltac:(by apply list_elem_of_In)). apply bool_decide_eq_true in Hall.
  unfold terms_ascending in Ha. rewrite Forall_forall in Ha. unfold doc_at, cursor_doc_id in Hd.
  destruct (cursor_current (cursor_at F (term_postings t))) as [p|] eqn:Hp.
  - cbn in Hd. rewrite (cursor_at_find _ (Ha t Ht) F doc p Hp) in Hall by lia.
    destruct (Z.eqb_spec (doc_id p) doc); [lia|]. by destruct Hall.
  - destruct Hall as [q Hq]. apply posting_of_Some in Hq as [Hq Hqd].
    destruct (is_exhausted (cursor_at F (term_postings t))) eqn:He.
    + pose proof (cursor_at_exhausted _ F He q Hq). lia.
    + apply cursor_at_live in He as [? He]. congruence.
Qed.

(** What [next_match] is after: the first document at or after [F] that every term has. *)
Definition first_common (F : DocId) (ts : list WandTerm) (found : option DocId) : Prop :=
  match found with
  | Some d => F <= d /\ in_all d ts = true /\ forall d', F <= d' < d -> in_all d' ts = false
  | None => forall d', F <= d' -> in_all d' ts = false
  end.

Lemma next_loop_spec fuel F ts :
  ts <> [] -> terms_ascending ts -> (left_all F ts < fuel)%nat ->
  exists ts' found, next_loop fuel (at_all F ts) = Some (ts', found) /\ first_common F ts found /\
    forall d, found = Some d -> ts' = at_all d ts.
Proof.
  intros Hne Ha. revert F. induction fuel as [|fuel IH]; intros F Hf; [lia|]. cbn [next_loop].
  destruct (any_exhausted (at_all F ts)) eqn:Hex.
  { exists (at_all F ts), None. split; [done|]. split; [|done]. intros d' Hd'. by eapply any_exhausted_true. }
  pose proof (any_exhausted_false F ts Hex) as Hlive. rewrite Forall_forall in Hlive.
  destruct (max_doc_at F ts Hne) as [(tm & Htm & Hmax) Hle]. set (target := max_doc (at_all F ts)) in *.
  pose proof Ha as Ha'. unfold terms_ascending in Ha'. rewrite Forall_forall in Ha'.
  assert (Hdoc : forall t, t ∈ ts -> exists p, cursor_current (cursor_at F (term_postings t)) = Some p /\ doc_at F t = doc_id p /\ F <= doc_id p).
  { intros t Ht. destruct (Hlive t Ht) as [p Hp]. exists p. split; [done|]. split; [unfold doc_at, cursor_doc_id; by rewrite Hp|].
    apply (cursor_at_current _ (Ha' t Ht) F p Hp). }
  assert (HFt : F <= target) by (destruct (Hdoc tm Htm) as (p & _ & E & ?); lia).
  assert (Hskip : forall d', F <= d' < target -> in_all d' ts = false).
  { intros d' Hd'. apply (not_in_all F ts tm d' Ha Htm). lia. }
  rewrite at_all_advance by done.
  destruct (any_exhausted (at_all target ts)) eqn:Hex'.
  { exists (at_all target ts), None. split; [done|]. split; [|done]. intros d' Hd'.
    destruct (Z.lt_ge_cases d' target); [by apply Hskip|]. by eapply any_exhausted_true. }
  destruct (forallb _ (at_all target ts)) eqn:Hon.
  - exists (at_all target ts), (Some target). split; [done|]. split; [|by intros d [= <-]].
    split; [done|]. split; [|done]. apply (in_all_on target); [done|lia|]. apply Forall_forall. intros t Ht.
    rewrite forallb_forall in Hon. specialize (Hon (with_cursor t (cursor_at target (term_postings t)))).
    assert (Hin : In (with_cursor t (cursor_at target (term_postings t))) (at_all target ts))
      by (apply list_elem_of_In, list_elem_of_fmap; by exists t).
    by apply Hon, bool_decide_eq_true in Hin.
  - assert (Hlag : exists t, t ∈ ts /\ doc_at F t < target).
    { destruct (decide (Forall (fun t => doc_at F t = target) ts)) as [Hall|Hnot].
      - exfalso. apply not_true_iff_false in Hon. apply Hon, forallb_forall. intros t' Ht'.
        apply list_elem_of_In, list_elem_of_fmap in Ht' as (t & -> & Ht). rewrite Forall_forall in Hall.
        specialize (Hall t Ht). destruct (Hdoc t Ht) as (p & Hp & E & _). apply bool_decide_eq_true. cbn [wt_cursor with_cursor].
        rewrite <-(cursor_at_stay _ F target HFt) by (intros q Hq; rewrite Hp in Hq; injection Hq as <-; lia).
        unfold cursor_doc_id. rewrite Hp. cbn. f_equal. lia.
      - apply not_Forall_Exists, Exists_exists in Hnot as (t & Ht & Hneq); [|intros x; apply _].
        exists t. split; [done|]. specialize (Hle t Ht). unfold compose in Hneq. cbv beta in Hneq. lia. }
    destruct Hlag as (t & Ht & Hlt). destruct (Hdoc t Ht) as (p & Hp & E & _).
    destruct (IH target) as (ts' & found & E' & Hfc & Hts').
    + unfold left_all in *. assert (left_at target (as_term <$> ts) < left_at F (as_term <$> ts))%nat; [|lia].
      apply (left_at_lt F target _ (as_term t) p); [|by apply list_elem_of_fmap_2|done|done|lia].
      apply Forall_fmap. exact Ha.
    + exists ts', found. split; [done|]. split; [|done]. destruct found as [d|].
      * destruct Hfc as (H1 & H2 & H3). split; [lia|]. split; [done|]. intros d' Hd'.
        destruct (Z.lt_ge_cases d' target); [apply Hskip; lia|apply H3; lia].
      * intros d' Hd'. destruct (Z.lt_ge_cases d' target); [apply Hskip; lia|by apply Hfc].
Qed.

(** ** Conjunctions in step *)

(** The conjunction [fc0] with its terms on a document. *)
Definition moved (fc0 : FieldConjunction) (d : DocId) : FieldConjunction :=
  mkFC (fc_xpath fc0) (fc_doc_count fc0) (fc_avg_doc_len fc0) (at_all d (fc_terms fc0)) true.

Definition conj_ok (fc0 : FieldConjunction) : Prop := fc_terms fc0 <> [] /\ terms_ascending (fc_terms fc0).

(** The conjunction is on its first document at or after [F]. *)
Definition on_next (F : DocId) (fc0 : FieldConjunction) (c : FieldConjunction * option DocId) : Prop :=
  first_common F (fc_terms fc0) c.2 /\ forall d, c.2 = Some d -> c.1 = moved fc0 d.

Lemma left_all_le F ts : (left_all F ts <= sum_list ((fun t => length (term_postings t)) <$> ts))%nat.
Proof.
  unfold left_all, left_at. induction ts as [|t ts IH]; [done|]. rewrite !fmap_cons, !sum_list_cons.
  unfold remaining at 1. cbn [c_index c_postings mt_cursor move set_cursor cursor_at as_term].
  unfold term_postings in *. lia.
Qed.

Lemma sum_lengths_at F ts :
  sum_list ((fun t => length (term_postings t)) <$> at_all F ts) = sum_list ((fun t => length (term_postings t)) <$> ts).
Proof. unfold at_all. by rewrite <-list_fmap_compose. Qed.

Lemma next_match_from F fc0 (ts : list WandTerm) (started : bool) :
  conj_ok fc0 ->
  (if started then (fun t => with_cursor t (cursor_next (wt_cursor t))) <$> ts else ts) = at_all F (fc_terms fc0) ->
  on_next F fc0 (next_match (mkFC (fc_xpath fc0) (fc_doc_count fc0) (fc_avg_doc_len fc0) ts started)).
Proof.
  intros [Hne Ha] Hts. unfold next_match. cbn [fc_started fc_terms fc_xpath fc_doc_count fc_avg_doc_len]. rewrite Hts.
  rewrite sum_lengths_at. pose proof (left_all_le F (fc_terms fc0)) as Hl.
  destruct (next_loop_spec (S (sum_list ((fun t => length (term_postings t)) <$> fc_terms fc0))) F (fc_terms fc0) Hne Ha)
    as (ts' & found & -> & Hfc & Hts'); [lia|]. cbn [default id from_option]. split; [done|].
  cbn [fst snd]. intros d Hd. unfold moved. by rewrite (Hts' d Hd).
Qed.

Lemma at_all_next d ts :
  terms_ascending ts -> in_all d ts = true ->
  (fun t => with_cursor t (cursor_next (wt_cursor t))) <$> at_all d ts = at_all (d + 1) ts.
Proof.
  intros Ha Hin. unfold at_all. rewrite <-list_fmap_compose. apply Forall_fmap_ext_1, Forall_forall. intros t Ht.
  unfold terms_ascending in Ha. rewrite Forall_forall in Ha. specialize (Ha t Ht).
  unfold in_all in Hin. rewrite forallb_forall in Hin. specialize (Hin t ltac:(by apply list_elem_of_In)).
  apply bool_decide_eq_true in Hin as [p Hp]. apply posting_of_Some in Hp as [Hp Hd].
  cbn. unfold with_cursor. cbn. f_equal.
  destruct (is_exhausted (cursor_at d (term_postings t))) eqn:He.
  { pose proof (cursor_at_exhausted _ d He p Hp). lia. }
  apply cursor_at_live in He as [q Hq]. destruct (cursor_at_current _ Ha d q Hq) as (_ & Hdq & Hmin).
  rewrite (cursor_at_next _ Ha d q Hq). f_equal. specialize (Hmin p Hp ltac:(lia)). lia.
Qed.

Lemma step_conj_next F fc0 c doc :
  conj_ok fc0 -> on_next F fc0 c -> F <= doc -> (forall d, c.2 = Some d -> doc <= d) ->
  on_next (doc + 1) fc0 (step_conj doc c).
Proof.
  intros Hok [Hfc Hc] HF Hmin. unfold step_conj. destruct c as [fc at_]. cbn [fst snd] in *.
  destruct (decide (at_ = Some doc)) as [->|Hne].
  - rewrite (Hc doc eq_refl). destruct Hfc as (_ & Hin & _). apply (next_match_from (doc + 1)); [done|].
    cbn. apply at_all_next; [apply Hok|done].
  - split; [|done]. cbn [snd]. destruct at_ as [d|]; cbn in *.
    + destruct Hfc as (H1 & H2 & H3). specialize (Hmin d eq_refl). assert (d <> doc) by congruence.
      split; [lia|]. split; [done|]. intros; apply H3; lia.
    + intros; apply Hfc; lia.
Qed.

Lemma min_current_spec cs :
  match min_current cs with
  | None => forall c, c ∈ cs -> c.2 = None
  | Some doc => (exists c, c ∈ cs /\ c.2 = Some doc) /\ forall c d, c ∈ cs -> c.2 = Some d -> doc <= d
  end.
Proof.
  unfold min_current. assert (Hin : forall d, d ∈ omap snd cs <-> exists c, c ∈ cs /\ c.2 = Some d)
    by (intros d; apply list_elem_of_omap).
  destruct (omap snd cs) as [|d ds].
  - intros c Hc. destruct (c.2) as [d|] eqn:E; [|done]. exfalso. apply (not_elem_of_nil d), Hin. by exists c.
  - assert (H : forall l acc, (fold_left Z.min l acc = acc \/ fold_left Z.min l acc ∈ l) /\ fold_left Z.min l acc <= acc /\
      forall x, x ∈ l -> fold_left Z.min l acc <= x).
    { induction l as [|y l IH]; intros acc; cbn [fold_left].
      { split; [by left|]. split; [lia|]. by intros x ?%not_elem_of_nil. }
      destruct (IH (Z.min acc y)) as (H1 & H2 & H3). split; [|split; [lia|]].
      - destruct H1 as [->|H1]; [|right; by right]. destruct (Z.min_spec acc y) as [[_ ->]|[_ ->]]; [by left|right; left].
      - intros x [->|Hx]%elem_of_cons; [lia|by apply H3]. }
    destruct (H ds d) as (H1 & H2 & H3). split.
    + apply Hin. destruct H1 as [->|H1]; [left|by right].
    + intros c d' Hc Hd'. assert (Hel : d' ∈ d :: ds) by (apply Hin; by exists c).
      apply elem_of_cons in Hel as [->|Hel]; [done|by apply H3].
Qed.

Lemma sat_add_min_min a b : 0 <= a -> 0 <= b -> saturating_add 64 (Z.min a (u_max 64)) (Z.min b (u_max 64)) = Z.min (a + b) (u_max 64).
Proof. unfold saturating_add. assert (0 < u_max 64) by done. lia. Qed.

Section conj_proof.
Context {LN : Ln} (stats : SearchStats) (conjs : list FieldConjunction) (k : nat) (restrict : option (gset DocId)).
Context (Hok : Forall conj_ok conjs).

Lemma bm25_nonneg tf w dl avg dc df : 0 <= bm25_score_scaled tf w dl avg dc df.
Proof using Type. unfold bm25_score_scaled. apply f32_to_u_range. lia. Qed.

Lemma term_value_nonneg fc doc t : 0 <= term_value stats fc doc t.
Proof using Type. unfold term_value. destruct (posting_of _ _); [apply bm25_nonneg|done]. Qed.

Lemma conj_value_nonneg doc fc : 0 <= conj_value stats doc fc.
Proof using Type.
  unfold conj_value. destruct (in_all _ _); [|done]. apply sumZ_nonneg, Forall_fmap, Forall_true. intros t.
  apply term_value_nonneg.
Qed.

(** The score of a conjunction on its document. *)
Lemma fc_score_moved fc0 d :
  terms_ascending (fc_terms fc0) -> in_all d (fc_terms fc0) = true ->
  fc_score stats (moved fc0 d) d = Z.min (conj_value stats d fc0) (u_max 64).
Proof using Type.
  intros Ha Hin. unfold conj_value. rewrite Hin. unfold fc_score, moved.
  cbn [fc_avg_doc_len fc_xpath fc_doc_count fc_terms]. unfold in_all in Hin. rewrite forallb_forall in Hin.
  enough (H : forall a, fold_left (fun score t =>
    match cursor_current (wt_cursor t) with
    | Some p => saturating_add 64 score (bm25_score_scaled (wrap 32 (zlen (positions p))) (weight p)
        (default (f32_to_u 32 (fc_avg_doc_len fc0)) (ss_doc_len stats d (fc_xpath fc0)))
        (fc_avg_doc_len fc0) (fc_doc_count fc0) (wt_doc_freq t))
    | None => score
    end) (at_all d (fc_terms fc0)) (Z.min a (u_max 64)) =
    Z.min (a + sumZ (term_value stats fc0 d <$> fc_terms fc0)) (u_max 64)) by apply (H 0).
  unfold at_all. induction (fc_terms fc0) as [|t ts IH]; intros a; [cbn; by rewrite Z.add_0_r|].
  apply Forall_cons in Ha as [Ht Ha]. specialize (IH Ha (fun x Hx => Hin x (or_intror Hx))).
  specialize (Hin t (or_introl eq_refl)). apply bool_decide_eq_true in Hin as [p Hp].
  rewrite !fmap_cons, sumZ_cons. cbn [fold_left wt_cursor with_cursor wt_doc_freq].
  assert (Hcur : cursor_current (cursor_at d (term_postings t)) = Some p).
  { pose proof (posting_of_Some _ _ _ Hp) as [Hpin Hpd].
    destruct (is_exhausted (cursor_at d (term_postings t))) eqn:He; [pose proof (cursor_at_exhausted _ d He p Hpin); lia|].
    apply cursor_at_live in He as [q Hq]. rewrite Hq.
    destruct (cursor_at_current _ Ht d q Hq) as (_ & Hdq & Hmin). specialize (Hmin p Hpin ltac:(lia)).
    rewrite (cursor_at_find _ Ht d d q Hq) in Hp by lia. destruct (Z.eqb_spec (doc_id q) d); [done|lia]. }
  rewrite Hcur. cbn [wt_doc_freq]. rewrite sat_add_min by apply bm25_nonneg. rewrite IH, Z.add_assoc.
  unfold term_value at 2. by rewrite Hp.
Qed.

Lemma conj_score_spec F doc cs :
  Forall2 (on_next F) conjs cs -> F <= doc -> (forall c d, c ∈ cs -> c.2 = Some d -> doc <= d) ->
  conj_score stats doc cs = (hh_score (conj_hit stats conjs doc), hh_matched_terms (conj_hit stats conjs doc)).
Proof using Hok.
  intros HF2 HF Hmin. unfold conj_score, conj_hit. cbn [hh_score hh_matched_terms].
  enough (H : forall m a, 0 <= a -> fold_left (fun acc c =>
    if decide (c.2 = Some doc) then (saturating_add 64 acc.1 (fc_score stats c.1 doc), (acc.2 + length (fc_terms c.1))%nat)
    else acc) cs (Z.min a (u_max 64), m) =
    (Z.min (a + sumZ (conj_value stats doc <$> conjs)) (u_max 64), (m + sum_list (conj_matched doc <$> conjs))%nat))
    by (by apply (H O 0)).
  revert Hok.
  induction HF2 as [|fc0 [fc at_] conjs' cs' [Hfc Hc] _ IH]; intros Hok' m a Ha0; [cbn; by rewrite Z.add_0_r, Nat.add_0_r|].
  apply Forall_cons in Hok' as [[Hne Ha] Hok']. rewrite !fmap_cons, sumZ_cons, sum_list_cons. cbn [fold_left fst snd] in *.
  specialize (IH (fun c d Hc' => Hmin c d ltac:(by right)) Hok'). pose proof (conj_value_nonneg doc fc0) as Hnn.
  assert (Hout : in_all doc (fc_terms fc0) = false -> conj_value stats doc fc0 = 0 /\ conj_matched doc fc0 = O)
    by (unfold conj_value, conj_matched; by intros ->).
  destruct (decide (at_ = Some doc)) as [->|Hneq].
  - destruct Hfc as (_ & Hin & _). rewrite (Hc doc eq_refl), fc_score_moved by done. rewrite sat_add_min_min by done.
    rewrite IH, Z.add_assoc by lia. f_equal. unfold conj_matched at 2. rewrite Hin. unfold moved. cbn [fc_terms].
    unfold at_all. rewrite length_fmap. lia.
  - assert (Hno : in_all doc (fc_terms fc0) = false).
    { destruct at_ as [d|]; [|by apply Hfc]. destruct Hfc as (_ & _ & H3). specialize (Hmin (fc, Some d) d ltac:(left) eq_refl).
      apply H3. assert (d <> doc) by congruence. lia. }
    destruct (Hout Hno) as [-> ->]. by rewrite IH, Z.add_0_l, Nat.add_0_l by done.
Qed.

Abbreviation conj_offered := (offered (conj_candidate conjs restrict) (conj_hit stats conjs)).
Abbreviation conj_offered_all := (offered_all (conj_candidate conjs restrict) (conj_hit stats conjs)).

(** Between [F] and the documents the conjunctions are on, none has a document. *)
Lemma between F cs doc :
  Forall2 (on_next F) conjs cs -> F <= doc -> (forall c d, c ∈ cs -> c.2 = Some d -> doc < d) ->
  conj_candidate conjs restrict doc = false.
Proof using Type.
  intros HF2 HF Hlt. unfold conj_candidate. apply andb_false_intro2, not_true_iff_false.
  intros (fc0 & Hin & Hall)%existsb_exists. apply list_elem_of_In in Hin.
  apply list_elem_of_lookup in Hin as [i Hi]. destruct (Forall2_lookup_l _ _ _ _ _ HF2 Hi) as (c & Hci & [Hfc _]).
  apply list_elem_of_lookup_2 in Hci. destruct (c.2) as [d|] eqn:Ec.
  - specialize (Hlt c d Hci Ec). destruct Hfc as (_ & _ & H3). rewrite H3 in Hall by lia. done.
  - rewrite Hfc in Hall by done. done.
Qed.

Definition conj_terms : list WandTerm := concat (fc_terms <$> conjs).

Lemma conj_terms_ascending : Forall term_ok (as_term <$> conj_terms).
Proof using Hok.
  apply Forall_fmap. unfold conj_terms. apply Forall_concat, Forall_fmap. eapply Forall_impl; [exact Hok|].
  intros fc [_ Ha]. exact Ha.
Qed.

(** A document of a conjunction is consumed by a round. *)
Lemma conj_progress F fc0 doc :
  fc0 ∈ conjs -> in_all doc (fc_terms fc0) = true -> F <= doc ->
  (left_all (doc + 1) conj_terms < left_all F conj_terms)%nat.
Proof using Hok.
  intros Hin Hall HF. pose proof Hok as Hok'. rewrite Forall_forall in Hok'. destruct (Hok' fc0 Hin) as [Hne Ha].
  destruct (fc_terms fc0) as [|t ts] eqn:Et; [done|]. apply Forall_cons in Ha as [Ha _].
  unfold in_all in Hall. cbn [forallb] in Hall. apply andb_true_iff in Hall as [Hp _].
  apply bool_decide_eq_true in Hp as [p Hp]. apply posting_of_Some in Hp as [Hp Hd].
  destruct (is_exhausted (cursor_at F (term_postings t))) eqn:He; [pose proof (cursor_at_exhausted _ F He p Hp); lia|].
  apply cursor_at_live in He as [q Hq]. destruct (cursor_at_current _ Ha F q Hq) as (_ & _ & Hmin).
  specialize (Hmin p Hp ltac:(lia)). unfold left_all.
  apply (left_at_lt F (doc + 1) _ (as_term t) q); [apply conj_terms_ascending| |lia|exact Hq|lia].
  apply list_elem_of_fmap_2. unfold conj_terms. apply elem_of_concat. exists (fc_terms fc0). split; [rewrite Et; left|].
  by apply list_elem_of_fmap_2.
Qed.

Lemma conj_loop_correct fuel F cs heap :
  (0 < k)%nat -> Forall2 (on_next F) conjs cs -> heap_for k (conj_offered F) heap -> (left_all F conj_terms < fuel)%nat ->
  exists heap', conj_loop stats fuel k restrict cs heap = Some heap' /\ heap_for k conj_offered_all heap'.
Proof using Hok.
  intros Hk. revert F cs heap. induction fuel as [|fuel IH]; intros F cs heap HF2 Hh Hf; [lia|]. cbn [conj_loop].
  pose proof (min_current_spec cs) as Hmin. destruct (min_current cs) as [doc|].
  2:{ exists heap. split; [done|]. apply (offered_end k _ _ F); [|done]. intros d HF. apply (between F cs d); [done|done|].
      intros c d' Hin Hd'. specialize (Hmin c Hin). congruence. }
  destruct Hmin as [(c0 & Hc0 & Hc0d) Hmin].
  apply list_elem_of_lookup in Hc0 as [i Hi]. destruct (Forall2_lookup_r _ _ _ _ _ HF2 Hi) as (fc0 & Hfc0 & [Hon _]).
  apply list_elem_of_lookup_2 in Hfc0. rewrite Hc0d in Hon. destruct Hon as (HF & Hin & _).
  assert (Hnone : forall d, F <= d < doc -> conj_candidate conjs restrict d = false).
  { intros d Hd. apply (between F cs d HF2); [lia|]. intros c d' Hc Hd'. specialize (Hmin c d' Hc Hd'). lia. }
  assert (Hcand : conj_candidate conjs restrict doc = allowed restrict doc).
  { unfold conj_candidate. rewrite (proj2 (existsb_exists _ conjs)); [apply andb_true_r|].
    exists fc0. split; [by apply list_elem_of_In|done]. }
  apply (IH (doc + 1)).
  - assert (HF2' : Forall2 (fun fc c => conj_ok fc /\ c ∈ cs /\ on_next F fc c) conjs cs).
    { apply Forall2_same_length_lookup. split; [by eapply Forall2_length|]. intros j fc c Hj Hj'.
      rewrite Forall_forall in Hok. split; [by apply Hok; eapply list_elem_of_lookup_2|].
      split; [by eapply list_elem_of_lookup_2|]. by eapply Forall2_lookup_lr. }
    apply Forall2_fmap_r. eapply Forall2_impl; [exact HF2'|]. intros fc c (Hfc & Hc & Hn).
    apply (step_conj_next F); try done. intros d Hd. by eapply Hmin.
  - rewrite (conj_score_spec F doc cs HF2 HF Hmin).
    apply (offered_next k _ (conj_hit stats conjs) doc heap); [done|done|by apply (offered_gap k _ _ F)|].
    rewrite Hcand. done.
  - pose proof (conj_progress F fc0 doc Hfc0 Hin HF). lia.
Qed.
End conj_proof.

(** ** The whole search *)

Section conj_search.
Context {LN : Ln} (stats : SearchStats) (fields : list FieldTerms) (k : nat) (restrict : option (gset DocId)).
Context (Hfields : fields_ok fields).

Lemma conjunctions_ok : Forall conj_ok (conjunctions stats fields).
Proof using Hfields.
  apply Forall_forall. intros fc (field & Hf & Hfc)%list_elem_of_omap. unfold FieldConjunction_new in Hfc.
  destruct (_ || _) eqn:E; [done|]. injection Hfc as <-. apply orb_false_iff in E as [E _]. apply Nat.eqb_neq in E.
  unfold fields_ok in Hfields. rewrite Forall_forall in Hfields. specialize (Hfields field Hf). split; cbn [fc_terms].
  - by destruct (ft_terms field).
  - apply Forall_fmap. eapply Forall_impl; [exact Hfields|]. done.
Qed.

Lemma conj_start : exists F,
  Forall (fun fc => at_all F (fc_terms fc) = fc_terms fc /\ fc_started fc = false) (conjunctions stats fields) /\
  forall doc, doc < F -> conj_candidate (conjunctions stats fields) restrict doc = false.
Proof using Hfields.
  destruct (lower_bound (concat (docs <$> postings_of (conjunctions stats fields)))) as [F HF]. exists F.
  assert (Hdoc : forall fc t p, fc ∈ conjunctions stats fields -> t ∈ fc_terms fc -> p ∈ term_postings t -> F <= doc_id p).
  { intros fc t p Hfc Ht Hp. apply HF, elem_of_concat. exists (docs (term_postings t)).
    split; [by apply list_elem_of_fmap_2|]. apply list_elem_of_fmap_2. unfold postings_of. apply elem_of_concat.
    exists (term_postings <$> fc_terms fc). split; [by apply list_elem_of_fmap_2|].
    by apply (list_elem_of_fmap_2 (fun c => term_postings <$> fc_terms c)). }
  split.
  - apply Forall_forall. intros fc Hfc. pose proof Hfc as Hfc'. apply list_elem_of_omap in Hfc' as (field & Hf & E).
    unfold FieldConjunction_new in E. destruct (_ || _); [done|]. injection E as E. subst fc. split; [|done].
    cbn [fc_terms] in *. unfold at_all. rewrite <-list_fmap_compose. apply Forall_fmap_ext_1, Forall_forall.
    intros term Hterm. cbn. unfold with_cursor, WandTerm_new. cbn. f_equal. symmetry. apply cursor_at_unique; [lia|intros; lia|].
    intros q Hq. refine (Hdoc _ _ q Hfc _ _); [apply list_elem_of_fmap; exists term; by split|].
    by eapply list_elem_of_lookup_2.
  - intros doc Hlt. unfold conj_candidate. apply andb_false_intro2, not_true_iff_false.
    intros (fc & Hin & Hall)%existsb_exists. apply list_elem_of_In in Hin. pose proof conjunctions_ok as Hok.
    rewrite Forall_forall in Hok. destruct (Hok fc Hin) as [Hne _]. destruct (fc_terms fc) as [|t ts] eqn:Et; [done|].
    unfold in_all in Hall. cbn [forallb] in Hall. apply andb_true_iff in Hall as [Hp _].
    apply bool_decide_eq_true in Hp as [p Hp]. apply posting_of_Some in Hp as [Hp <-].
    specialize (Hdoc fc t p Hin ltac:(rewrite Et; left) Hp). lia.
Qed.

Lemma conj_candidate_docs doc :
  conj_candidate (conjunctions stats fields) restrict doc = true -> doc ∈ conj_docs (conjunctions stats fields).
Proof using Hfields.
  unfold conj_candidate. intros [_ (fc & Hin & Hall)%existsb_exists]%andb_true_iff. apply list_elem_of_In in Hin.
  pose proof conjunctions_ok as Hok. rewrite Forall_forall in Hok. destruct (Hok fc Hin) as [Hne _].
  destruct (fc_terms fc) as [|t ts] eqn:Et; [done|]. unfold in_all in Hall. cbn [forallb] in Hall.
  apply andb_true_iff in Hall as [Hp _]. apply bool_decide_eq_true, elem_of_docs in Hp.
  unfold conj_docs. rewrite elem_of_dedup, elem_of_sort_unstable, elem_of_concat. exists (docs (term_postings t)).
  split; [done|]. apply list_elem_of_fmap_2. unfold postings_of. apply elem_of_concat.
  exists (term_postings <$> fc_terms fc). split; [rewrite Et; left|].
  by apply (list_elem_of_fmap_2 (fun c => term_postings <$> fc_terms c)).
Qed.

Lemma conj_docs_nodup conjs : NoDup (conj_docs conjs).
Proof using Type.
  unfold conj_docs. pose proof (dedup_sorted _ (sort_unstable_sorted (concat (docs <$> postings_of conjs)))) as Hs.
  induction Hs as [|x l _ IH Hx]; constructor; [|done]. rewrite Forall_forall in Hx. intros Hin. specialize (Hx x Hin). lia.
Qed.

Lemma postings_of_terms conjs : postings_of conjs = term_postings <$> conj_terms conjs.
Proof using Type.
  unfold postings_of, conj_terms. induction conjs as [|c conjs IH]; [done|].
  rewrite !fmap_cons. cbn [concat]. by rewrite fmap_app, IH.
Qed.

(** The conjunctive search is exact: it returns the best [k] allowed documents that some
    field holds with all its terms, scored over all such fields, as scoring and ranking every
    document of the lists does. *)
Theorem conjunctive_exact :
  conjunctive_top_k_multi_field stats fields k restrict = brute_conjunctive stats fields k restrict.
Proof using Hfields.
  unfold conjunctive_top_k_multi_field, brute_conjunctive. destruct (Nat.eqb_spec k 0) as [->|Hk]; [done|].
  destruct conj_start as (F & Hstart & Hbefore). pose proof conjunctions_ok as Hok.
  destruct (conj_loop_correct stats (conjunctions stats fields) k restrict Hok
    (S (sum_list (length <$> postings_of (conjunctions stats fields)))) F (next_match <$> conjunctions stats fields) [])
    as (heap & -> & Hh).
  - lia.
  - apply Forall2_fmap_r, Forall_Forall2_diag, Forall_forall. intros fc Hfc. rewrite Forall_forall in Hstart.
    rewrite Forall_forall in Hok. destruct (Hstart fc Hfc) as [Hat Hst].
    pose proof (next_match_from F fc (fc_terms fc) false (Hok fc Hfc) (eq_sym Hat)) as Hn.
    rewrite <-Hst in Hn. by destruct fc.
  - by apply offered_start.
  - pose proof (left_all_le F (conj_terms (conjunctions stats fields))) as Hl.
    rewrite postings_of_terms, <-list_fmap_compose. unfold compose. lia.
  - cbn [default id from_option]. apply offered_finish; [done|done|apply conj_docs_nodup|apply conj_candidate_docs].
Qed.
End conj_search.

Lemma conjunctive_exact_witness :
  wh_doc_id <$> conjunctive_top_k_multi_field (LN := toy_ln) toy_stats toy_fields 5 None = [3; 8; 2].
Proof.
  rewrite (conjunctive_exact (LN := toy_ln) toy_stats toy_fields 5 None toy_fields_ok). vm_compute. reflexivity.
Defined.
