(* ===== verification/Utf8.v ===== *)
(** * UTF-8

    The encoding of [char] and the validation of [std::str::from_utf8], as the standard library
    defines them. A string is the list of its characters, a byte slice a list of integers below
    256; [utf8] is [str::as_bytes]. *)
From Stdlib Require Import ZArith Lia ZifyBool.
From stdpp Require Import base numbers list.
From S2P Require Import Prelude Types.
Local Open Scope Z_scope.

(** A Unicode scalar value, what a [char] holds. *)
Definition is_char (c : Z) : Prop := 0 <= c < 0xD800 \/ 0xE000 <= c < 0x110000.

#[global] Instance is_char_dec c : Decision (is_char c).
Proof. unfold is_char. apply _. Defined.

(** [char::encode_utf8]. *)
Definition encode_utf8 (c : Z) : list Z :=
  if c <? 0x80 then [c]
  else if c <? 0x800 then [0xC0 + c / 64; 0x80 + c mod 64]
  else if c <? 0x10000 then [0xE0 + c / 4096; 0x80 + c / 64 mod 64; 0x80 + c mod 64]
  else [0xF0 + c / 262144; 0x80 + c / 4096 mod 64; 0x80 + c / 64 mod 64; 0x80 + c mod 64].
Definition utf8 (s : str) : list Z := concat (encode_utf8 <$> s).

Definition in_range (lo hi b : Z) : bool := (lo <=? b) && (b <=? hi).
Definition continuation (b : Z) : bool := in_range 0x80 0xBF b.

(** The first character of a byte slice and what follows it; [None] when the slice does not
    start with a well-formed character (overlong forms, surrogates and values above U+10FFFF
    included). *)
Definition decode_first (b : list Z) : option (Z * list Z) :=
  match b with
  | b0 :: r =>
    if in_range 0 0x7F b0 then Some (b0, r) else
    match r with
    | b1 :: r =>
      if in_range 0xC2 0xDF b0 && continuation b1 then Some ((b0 - 0xC0) * 64 + (b1 - 0x80), r) else
      match r with
      | b2 :: r =>
        if ((b0 =? 0xE0) && in_range 0xA0 0xBF b1
            || (in_range 0xE1 0xEC b0 || in_range 0xEE 0xEF b0) && continuation b1
            || (b0 =? 0xED) && in_range 0x80 0x9F b1) && continuation b2
        then Some ((b0 - 0xE0) * 4096 + (b1 - 0x80) * 64 + (b2 - 0x80), r) else
        match r with
        | b3 :: r =>
          if ((b0 =? 0xF0) && in_range 0x90 0xBF b1
              || in_range 0xF1 0xF3 b0 && continuation b1
              || (b0 =? 0xF4) && in_range 0x80 0x8F b1) && continuation b2 && continuation b3
          then Some ((b0 - 0xF0) * 262144 + (b1 - 0x80) * 4096 + (b2 - 0x80) * 64 + (b3 - 0x80), r)
          else None
        | [] => None
        end
      | [] => None
      end
    | [] => None
    end
  | [] => None
  end.

(** [std::str::from_utf8]; every character takes at least one byte, so the length is fuel
    enough. *)
Fixpoint from_utf8_loop (fuel : nat) (b : list Z) : option str :=
  match b, fuel with
  | [], _ => Some []
  | _, O => None
  | _, S fuel' =>
    match decode_first b with
    | Some (c, r) => cons c <$> from_utf8_loop fuel' r
    | None => None
    end
  end.
Definition from_utf8 (b : list Z) : option str := from_utf8_loop (length b) b.

(** ** Lemmas *)

(** Decides the range tests of the decoder. *)
Ltac range_tac :=
  unfold continuation, in_range in *;
  repeat match goal with
  | |- context [if ?b then _ else _] =>
    first [replace b with true by lia | replace b with false by lia]; cbv beta iota
  end.

(** The digits of a character in base 64. *)
Lemma digits64 c : c = c / 64 * 64 + c mod 64 /\ 0 <= c mod 64 < 64.
Proof. pose proof (Z.div_mod c 64). pose proof (Z.mod_pos_bound c 64). lia. Qed.

Lemma div_4096 c : c / 4096 = c / 64 / 64.
Proof. by rewrite Z.div_div. Qed.

Lemma div_262144 c : c / 262144 = c / 64 / 64 / 64.
Proof. by rewrite !Z.div_div. Qed.

Lemma decode_encode c r : is_char c -> decode_first (encode_utf8 c ++ r) = Some (c, r).
Proof.
  intros Hc. unfold encode_utf8, is_char in *. rewrite ?div_262144, ?div_4096.
  destruct (digits64 c) as [H1 H1']. destruct (digits64 (c / 64)) as [H2 H2'].
  destruct (digits64 (c / 64 / 64)) as [H3 H3'].
  set (c1 := c / 64) in *. set (c2 := c1 / 64) in *. set (c3 := c2 / 64) in *.
  set (m0 := c mod 64) in *. set (m1 := c1 mod 64) in *. set (m2 := c2 mod 64) in *.
  clearbody c1 c2 c3 m0 m1 m2.
  destruct (Z.ltb_spec c 0x80); [|destruct (Z.ltb_spec c 0x800); [|destruct (Z.ltb_spec c 0x10000)]];
    cbn [app decode_first]; range_tac; do 2 f_equal; lia.
Qed.

Lemma encode_nonempty c : encode_utf8 c <> [].
Proof. unfold encode_utf8. by repeat case_match. Qed.

Lemma utf8_cons c s : utf8 (c :: s) = encode_utf8 c ++ utf8 s.
Proof. done. Qed.

Lemma utf8_app s s' : utf8 (s ++ s') = utf8 s ++ utf8 s'.
Proof. unfold utf8. by rewrite fmap_app, concat_app. Qed.

(** The encoding is a prefix code: a string whose bytes start with those of [u] starts
    with [u]. *)
Lemma utf8_prefix u s rest :
  Forall is_char u -> Forall is_char s -> utf8 s = utf8 u ++ rest ->
  exists s', s = u ++ s' /\ rest = utf8 s'.
Proof.
  intros Hu. revert s. induction Hu as [|c u Hc Hu IH]; intros s Hs Heq.
  { exists s. done. }
  rewrite utf8_cons, <-app_assoc in Heq. destruct Hs as [|d s Hd Hs].
  { symmetry in Heq. apply app_eq_nil in Heq as [? _]. by destruct (encode_nonempty c). }
  rewrite utf8_cons in Heq. pose proof (decode_encode d (utf8 s) Hd) as Hdec.
  rewrite Heq, decode_encode in Hdec by done. injection Hdec as -> Hr.
  destruct (IH s Hs (eq_sym Hr)) as (s' & -> & ->). by exists s'.
Qed.

Lemma from_utf8_loop_utf8 s fuel :
  Forall is_char s -> (length s <= fuel)%nat -> from_utf8_loop fuel (utf8 s) = Some s.
Proof.
  intros Hs. revert fuel. induction Hs as [|c s Hc Hs IH]; intros fuel Hf; [by destruct fuel|].
  rewrite utf8_cons. pose proof (encode_nonempty c) as Hne. destruct fuel as [|fuel]; [simpl in Hf; lia|].
  pose proof (decode_encode c (utf8 s) Hc) as Hd.
  destruct (encode_utf8 c ++ utf8 s) as [|b r] eqn:He; [by apply app_eq_nil in He as [? _]|].
  cbn [from_utf8_loop]. rewrite Hd, IH by (simpl in Hf; lia). done.
Qed.

Lemma utf8_length s : (length s <= length (utf8 s))%nat.
Proof.
  induction s as [|c s IH]; [done|]. rewrite utf8_cons, length_app.
  pose proof (encode_nonempty c). destruct (encode_utf8 c); simpl; [done|lia].
Qed.

Lemma from_utf8_utf8 s : Forall is_char s -> from_utf8 (utf8 s) = Some s.
Proof. intros. apply from_utf8_loop_utf8; [done|]. apply utf8_length. Qed.

(** What [from_utf8] accepts is the encoding of what it returns. *)
Lemma decode_first_sound b c r : Forall (in_u 8) b -> decode_first b = Some (c, r) -> b = encode_utf8 c ++ r /\ is_char c.
Proof.
  unfold is_char, in_u. intros Hb. destruct b as [|b0 b]; [done|]. cbn [decode_first].
  apply Forall_cons in Hb as [H0 Hb].
  destruct (in_range 0 0x7F b0) eqn:E0.
  { intros [= <- <-]. unfold encode_utf8, in_range in *. range_tac. split; [done|lia]. }
  destruct b as [|b1 b]; [done|]. apply Forall_cons in Hb as [H1 Hb].
  destruct (in_range 0xC2 _ _ && _) eqn:E1.
  { intros [= <- <-]. unfold encode_utf8, in_range, continuation in *. range_tac.
    replace ((b0 - 192) * 64 + (b1 - 128)) with ((b1 - 128) + (b0 - 192) * 64) by lia.
    rewrite Z.div_add, Z.mod_add, Z.div_small, Z.mod_small by lia. split; [|lia]. simpl. repeat f_equal; lia. }
  destruct b as [|b2 b]; [done|]. apply Forall_cons in Hb as [H2 Hb].
  match goal with |- (if ?t then _ else _) = _ -> _ => destruct t eqn:E2 end.
  { intros [= <- <-]. unfold encode_utf8, in_range, continuation in *. rewrite ?div_4096. range_tac.
    replace ((b0 - 0xE0) * 4096 + (b1 - 128) * 64 + (b2 - 128)) with ((b2 - 128) + ((b1 - 128) + (b0 - 0xE0) * 64) * 64) by lia.
    rewrite !Z.div_add, !Z.mod_add, !(Z.div_small (b2 - 128)), !Z.add_0_l, !Z.div_add, !Z.mod_add, !Z.div_small, !Z.mod_small by lia.
    split; [|lia]. simpl. repeat f_equal; lia. }
  destruct b as [|b3 b]; [done|]. apply Forall_cons in Hb as [H3 Hb].
  match goal with |- (if ?t then _ else _) = _ -> _ => destruct t eqn:E3; [|done] end.
  intros [= <- <-]. unfold encode_utf8, in_range, continuation in *. rewrite ?div_262144, ?div_4096. range_tac.
  replace ((b0 - 0xF0) * 262144 + (b1 - 128) * 4096 + (b2 - 128) * 64 + (b3 - 128))
    with ((b3 - 128) + ((b2 - 128) + ((b1 - 128) + (b0 - 0xF0) * 64) * 64) * 64) by lia.
  rewrite !Z.div_add, !Z.mod_add, !(Z.div_small (b3 - 128)), !Z.add_0_l, !Z.div_add, !Z.mod_add,
    !(Z.div_small (b2 - 128)), !Z.add_0_l, !Z.div_add, !Z.mod_add, !Z.div_small, !Z.mod_small by lia.
  split; [|lia]. simpl. repeat f_equal; lia.
Qed.
