(* ===== verification/Osa.v ===== *)
(** * Edit distance

    The specification of the fuzzy search: an alignment of two words edits one into the other by
    keeping, replacing, inserting and deleting characters and by exchanging two neighbours, and
    the distance is the least number of edits. [osa_r] computes it on reversed words, which puts
    the recurrence of the code's table (a prefix and its last characters) on list structure. *)
From Stdlib Require Import ZArith Lia.
From stdpp Require Import base numbers list.
From S2P Require Import Prelude.
Local Open Scope nat_scope.

(** [align w q n]: [n] edits turn [w] into [q]; no character takes part in two edits. *)
Inductive align : list Z -> list Z -> nat -> Prop :=
  | align_nil : align [] [] 0
  | align_keep c w q n : align w q n -> align (c :: w) (c :: q) n
  | align_replace a b w q n : align w q n -> align (a :: w) (b :: q) (S n)
  | align_delete a w q n : align w q n -> align (a :: w) q (S n)
  | align_insert b w q n : align w q n -> align w (b :: q) (S n)
  | align_swap a b w q n : align w q n -> align (a :: b :: w) (b :: a :: q) (S n).

(** [d] is the distance: some alignment has [d] edits, none has fewer. *)
Definition distance_is (w q : list Z) (d : nat) : Prop :=
  align w q d /\ forall n, align w q n -> d <= n.

Lemma distance_is_unique w q d d' : distance_is w q d -> distance_is w q d' -> d = d'.
Proof. intros [H1 H2] [H1' H2']. apply Nat.le_antisymm; auto. Qed.

Lemma align_app w q n w' q' n' : align w q n -> align w' q' n' -> align (w ++ w') (q ++ q') (n + n').
Proof. intros H H'. induction H; simpl; try by constructor. done. Qed.

Lemma align_rev w q n : align w q n -> align (rev w) (rev q) n.
Proof.
  assert (H1 : forall a b, align [a] [b] 1) by (intros; apply align_replace, align_nil).
  assert (H0 : forall c, align [c] [c] 0) by (intros; apply align_keep, align_nil).
  induction 1; simpl.
  - constructor.
  - rewrite <-(Nat.add_0_r n). by apply align_app.
  - rewrite <-Nat.add_1_r. by apply align_app.
  - rewrite <-(app_nil_r (rev q)), <-Nat.add_1_r. apply align_app; [done|apply align_delete, align_nil].
  - rewrite <-(app_nil_r (rev w)), <-Nat.add_1_r. apply align_app; [done|apply align_insert, align_nil].
  - rewrite <-!app_assoc, <-Nat.add_1_r. apply align_app; [done|]. apply align_swap, align_nil.
Qed.

(** ** The recurrence *)

(** On reversed words: the heads are the last characters. *)
Fixpoint osa_r (w : list Z) : list Z -> nat :=
  match w with
  | [] => fun q => length q
  | a :: w1 =>
    fix inner (q : list Z) : nat :=
      match q with
      | [] => S (length w1)
      | b :: q1 =>
        let v := Nat.min (Nat.min (S (osa_r w1 (b :: q1))) (S (inner q1)))
                         (osa_r w1 q1 + (if (b =? a)%Z then 0 else 1)) in
        match w1, q1 with
        | a' :: w2, b' :: q2 => if (a =? b')%Z && (a' =? b)%Z then Nat.min v (S (osa_r w2 q2)) else v
        | _, _ => v
        end
      end
  end.

Definition osa (w q : list Z) : nat := osa_r (rev w) (rev q).

Lemma osa_r_nil_l q : osa_r [] q = length q.
Proof. done. Qed.

Lemma osa_r_nil_r w : osa_r w [] = length w.
Proof. by destruct w. Qed.

Lemma osa_r_cons a b w q :
  osa_r (a :: w) (b :: q) =
  let v := Nat.min (Nat.min (S (osa_r w (b :: q))) (S (osa_r (a :: w) q))) (osa_r w q + (if (b =? a)%Z then 0 else 1)) in
  match w, q with
  | a' :: w2, b' :: q2 => if (a =? b')%Z && (a' =? b)%Z then Nat.min v (S (osa_r w2 q2)) else v
  | _, _ => v
  end.
Proof. done. Qed.

(** The value is attained, and no alignment beats it. *)
Lemma osa_r_align w q : align w q (osa_r w q).
Proof.
  remember (length w + length q) as n eqn:Hn. revert w q Hn.
  induction n as [n IH] using lt_wf_ind. intros w q ->.
  destruct w as [|a w].
  { rewrite osa_r_nil_l. clear IH. induction q; simpl; by constructor. }
  destruct q as [|b q].
  { rewrite osa_r_nil_r. clear IH. induction (a :: w); simpl; by constructor. }
  assert (Hd : align (a :: w) (b :: q) (S (osa_r w (b :: q)))) by (apply align_delete; eapply IH; [|done]; simpl; lia).
  assert (Hi : align (a :: w) (b :: q) (S (osa_r (a :: w) q))) by (apply align_insert; eapply IH; [|done]; simpl; lia).
  assert (Hr : align (a :: w) (b :: q) (osa_r w q + (if (b =? a)%Z then 0 else 1))).
  { destruct (Z.eqb_spec b a) as [->|]; [rewrite Nat.add_0_r; apply align_keep|rewrite Nat.add_1_r; apply align_replace];
      (eapply IH; [|done]; simpl; lia). }
  rewrite osa_r_cons. cbv zeta.
  assert (Hv : align (a :: w) (b :: q) (Nat.min (Nat.min (S (osa_r w (b :: q))) (S (osa_r (a :: w) q)))
    (osa_r w q + (if (b =? a)%Z then 0 else 1)))).
  { destruct (Nat.min_spec (Nat.min (S (osa_r w (b :: q))) (S (osa_r (a :: w) q)))
      (osa_r w q + (if (b =? a)%Z then 0 else 1))) as [[_ ->]|[_ ->]]; [|done].
    by destruct (Nat.min_spec (S (osa_r w (b :: q))) (S (osa_r (a :: w) q))) as [[_ ->]|[_ ->]]. }
  destruct w as [|a' w2]; [done|]. destruct q as [|b' q2]; [done|].
  destruct (Z.eqb_spec a b') as [<-|]; [|done]. destruct (Z.eqb_spec a' b) as [<-|]; [|done]. cbv beta iota delta [andb].
  match goal with |- align _ _ (Nat.min ?x ?y) => destruct (Nat.min_spec x y) as [[_ ->]|[_ ->]] end; [done|].
  apply align_swap. eapply IH; [|done]. simpl; lia.
Qed.

Lemma osa_r_del a w q : osa_r (a :: w) q <= S (osa_r w q).
Proof.
  destruct q as [|b q]; [rewrite !osa_r_nil_r; done|]. rewrite osa_r_cons. cbv zeta.
  destruct w, q; try lia. destruct (_ && _); lia.
Qed.

Lemma osa_r_ins b w q : osa_r w (b :: q) <= S (osa_r w q).
Proof.
  destruct w as [|a w]; [done|]. rewrite osa_r_cons. cbv zeta.
  destruct w, q; try lia. destruct (_ && _); lia.
Qed.

Lemma osa_r_sub a b w q : osa_r (a :: w) (b :: q) <= osa_r w q + (if (b =? a)%Z then 0 else 1).
Proof. rewrite osa_r_cons. cbv zeta. destruct w, q; try lia. destruct (_ && _); lia. Qed.

Lemma osa_r_swap a b w q : osa_r (a :: b :: w) (b :: a :: q) <= S (osa_r w q).
Proof. rewrite osa_r_cons. cbv zeta. rewrite !Z.eqb_refl. cbv beta iota delta [andb]. lia. Qed.

Lemma osa_r_least w q n : align w q n -> osa_r w q <= n.
Proof.
  induction 1.
  - done.
  - pose proof (osa_r_sub c c w q). rewrite Z.eqb_refl in *. lia.
  - pose proof (osa_r_sub a b w q). destruct (_ =? _)%Z; lia.
  - pose proof (osa_r_del a w q). lia.
  - pose proof (osa_r_ins b w q). lia.
  - pose proof (osa_r_swap a b w q). lia.
Qed.

(** The table computes the distance. *)
Lemma osa_distance w q : distance_is w q (osa w q).
Proof.
  unfold osa. split.
  - pose proof (align_rev _ _ _ (osa_r_align (rev w) (rev q))) as H. by rewrite !rev_involutive in H.
  - intros n Hn. apply osa_r_least. by apply align_rev.
Qed.

(** ** Bounds *)

Lemma align_length w q n : align w q n -> length w <= length q + n /\ length q <= length w + n.
Proof. induction 1; simpl; lia. Qed.

Lemma osa_r_length w q : length w <= length q + osa_r w q /\ length q <= length w + osa_r w q.
Proof. apply align_length, osa_r_align. Qed.

(** If every entry of a row exceeds [k], so does every entry of the rows below. *)
Lemma osa_r_row_dead k a w q :
  (forall q', q' `suffix_of` q -> k < osa_r w q') -> forall q', q' `suffix_of` q -> k < osa_r (a :: w) q'.
Proof.
  intros Hrow q'. induction q' as [|b q' IH]; intros Hs.
  - rewrite osa_r_nil_r. specialize (Hrow [] Hs). rewrite osa_r_nil_r in Hrow. simpl. lia.
  - assert (Hs' : q' `suffix_of` q) by (etrans; [|exact Hs]; by exists [b]).
    specialize (IH Hs'). pose proof (Hrow _ Hs) as H1. pose proof (Hrow _ Hs') as H2.
    rewrite osa_r_cons. cbv zeta.
    assert (Hv : k < Nat.min (Nat.min (S (osa_r w (b :: q'))) (S (osa_r (a :: w) q')))
      (osa_r w q' + (if (b =? a)%Z then 0 else 1))) by (destruct (_ =? _)%Z; lia).
    destruct w as [|a' w2], q' as [|b' q2]; try done. destruct (_ && _); [|done].
    (* The entry two rows up is at most one below its diagonal neighbour. *)
    pose proof (osa_r_sub a' b' w2 q2). destruct (b' =? a')%Z; lia.
Qed.

(** ** Without exchanges *)

(** The alignments that do not exchange neighbours. *)
Inductive plain_align : list Z -> list Z -> nat -> Prop :=
  | plain_nil : plain_align [] [] 0
  | plain_keep c w q n : plain_align w q n -> plain_align (c :: w) (c :: q) n
  | plain_replace a b w q n : plain_align w q n -> plain_align (a :: w) (b :: q) (S n)
  | plain_delete a w q n : plain_align w q n -> plain_align (a :: w) q (S n)
  | plain_insert b w q n : plain_align w q n -> plain_align w (b :: q) (S n).

Fixpoint lev_r (w : list Z) : list Z -> nat :=
  match w with
  | [] => fun q => length q
  | a :: w1 =>
    fix inner (q : list Z) : nat :=
      match q with
      | [] => S (length w1)
      | b :: q1 => Nat.min (Nat.min (S (lev_r w1 (b :: q1))) (S (inner q1)))
                           (lev_r w1 q1 + (if (a =? b)%Z then 0 else 1))
      end
  end.

Lemma lev_r_nil_r w : lev_r w [] = length w.
Proof. by destruct w. Qed.

Lemma lev_r_align w q : plain_align w q (lev_r w q).
Proof.
  revert q. induction w as [|a w IHw]; intros q.
  { induction q; simpl; by constructor. }
  induction q as [|b q IHq].
  { rewrite lev_r_nil_r. clear IHw. induction (a :: w); simpl; by constructor. }
  change (lev_r (a :: w) (b :: q)) with
    (Nat.min (Nat.min (S (lev_r w (b :: q))) (S (lev_r (a :: w) q))) (lev_r w q + (if (a =? b)%Z then 0 else 1))).
  destruct (Nat.min_spec (Nat.min (S (lev_r w (b :: q))) (S (lev_r (a :: w) q)))
    (lev_r w q + (if (a =? b)%Z then 0 else 1))) as [[_ ->]|[_ ->]].
  - destruct (Nat.min_spec (S (lev_r w (b :: q))) (S (lev_r (a :: w) q))) as [[_ ->]|[_ ->]];
      [by apply plain_delete|by apply plain_insert].
  - destruct (Z.eqb_spec a b) as [->|]; [rewrite Nat.add_0_r; by apply plain_keep|].
    rewrite Nat.add_1_r. by apply plain_replace.
Qed.

Lemma lev_r_least w q n : plain_align w q n -> lev_r w q <= n.
Proof.
  assert (Hdel : forall a w q, lev_r (a :: w) q <= S (lev_r w q)).
  { intros a w' [|b q']; [by rewrite !lev_r_nil_r|]. cbn [lev_r]. lia. }
  assert (Hins : forall b w q, lev_r w (b :: q) <= S (lev_r w q)).
  { intros b [|a w'] q'; [done|]. change (lev_r (a :: w') (b :: q')) with
      (Nat.min (Nat.min (S (lev_r w' (b :: q'))) (S (lev_r (a :: w') q'))) (lev_r w' q' + (if (a =? b)%Z then 0 else 1))). lia. }
  assert (Hsub : forall a b w q, lev_r (a :: w) (b :: q) <= lev_r w q + (if (a =? b)%Z then 0 else 1)).
  { intros. cbn [lev_r]. lia. }
  induction 1 as [|c w q n H IH|a b w q n H IH|a w q n H IH|b w q n H IH].
  - done.
  - pose proof (Hsub c c w q). rewrite Z.eqb_refl in *. lia.
  - pose proof (Hsub a b w q). destruct (_ =? _)%Z; lia.
  - specialize (Hdel a w q). lia.
  - specialize (Hins b w q). lia.
Qed.

Lemma plain_align_app w q n w' q' n' :
  plain_align w q n -> plain_align w' q' n' -> plain_align (w ++ w') (q ++ q') (n + n').
Proof. intros H H'. induction H; simpl; try by constructor. done. Qed.

Lemma plain_align_rev w q n : plain_align w q n -> plain_align (rev w) (rev q) n.
Proof.
  assert (Hsnoc : forall w q n a b m, plain_align w q n -> plain_align a b m -> plain_align (w ++ a) (q ++ b) (m + n)).
  { intros ? ? n' ? ? m ? ?. rewrite (Nat.add_comm m n'). by apply plain_align_app. }
  induction 1; simpl.
  - constructor.
  - apply (Hsnoc _ _ _ [c] [c] 0); [done|]. apply plain_keep, plain_nil.
  - apply (Hsnoc _ _ _ [a] [b] 1); [done|]. apply plain_replace, plain_nil.
  - rewrite <-(app_nil_r (rev q)). apply (Hsnoc _ _ _ [a] [] 1); [done|]. apply plain_delete, plain_nil.
  - rewrite <-(app_nil_r (rev w)). apply (Hsnoc _ _ _ [] [b] 1); [done|]. apply plain_insert, plain_nil.
Qed.
