(* ===== verification/Fuzzy.v ===== *)
(** * Fuzzy search: the Levenshtein automaton

    Models the automaton part of [crates/core-index/src/fuzzy.rs]: the options, the split of the
    exact prefix, the textbook [levenshtein], and [LevenshteinAutomaton], which reads a key byte
    by byte, decodes UTF-8 on the way and keeps a band of [2 * max_edits + 1] cells of the
    edit-distance table. The theorems compare it with the edit distance of [Osa]: the automaton
    accepts exactly the words within [max_edits] edits and reports their distance, and
    [levenshtein] is the distance without exchanges. Ranking of candidates is in [FuzzyRank]. *)
From Stdlib Require Import ZArith Lia ZifyBool.
From stdpp Require Import base numbers list.
From S2P Require Import Prelude Types Utf8 Osa.
Local Open Scope Z_scope.

(** ** Options *)

Definition DEFAULT_PREFIX_LENGTH : nat := 0.
Definition DEFAULT_MAX_EXPANSIONS : nat := 3.
Definition DEFAULT_MAX_CANDIDATES : nat := 1000.
Definition MAX_SUPPORTED_EDITS : Z := 3.

Record FuzzyOptions : Type := mkFuzzyOptions {
  fo_max_edits : Z; fo_prefix_length : nat; fo_max_expansions : nat
}.
Record FuzzySpec : Type := mkFuzzySpec { fs_prefix_length : nat; fs_max_expansions : nat }.

Definition default_max_edits (term : str) : Z :=
  if (length term <=? 2)%nat then 0
  else if (length term <=? 4)%nat then 1
  else if (length term <=? 9)%nat then 2
  else 3.

(** [char_indices().nth(n)] splits before character [n], or at the end. *)
Definition split_prefix (term : str) (prefix_chars : nat) : str * str :=
  (take prefix_chars term, drop prefix_chars term).

(** ** [levenshtein]: two rows of the table *)

(** The inner loop: [cur[1..]] from [prev[0..]], the characters of [b] and [cur[j - 1]]. *)
Fixpoint lev_row (ai : Z) (b : list Z) (prev : list nat) (left : nat) : list nat :=
  match b, prev with
  | bj :: b', diag :: (up :: _) as prev' =>
    let cost := if ai =? bj then 0%nat else 1%nat in
    let v := Nat.min (Nat.min (up + 1) (left + 1)) (diag + cost) in
    v :: lev_row ai b' prev' v
  | _, _ => []
  end.
Fixpoint lev_rows (i : nat) (a b : list Z) (prev : list nat) : list nat :=
  match a with
  | [] => prev
  | ai :: a' => lev_rows (S i) a' b (S i :: lev_row ai b prev (S i))
  end.
Definition levenshtein (a b : str) : nat :=
  default 0%nat (lev_rows 0 a b (seq 0 (S (length b))) !! length b).

(** ** The automaton *)

Definition BAND : nat := 7.

Record LevenshteinAutomaton : Type := mkLev {
  lev_exact : list Z;
  lev_key_prefix_len : nat;
  lev_query : list Z;
  lev_max_edits : Z
}.

Record FuzzyState : Type := mkFuzzyState {
  fz_row : list Z;
  fz_prev_row : list Z;
  fz_chars : Z;
  fz_prev_char : option Z;
  fz_utf8 : list Z;
  fz_utf8_len : nat;
  fz_utf8_need : nat
}.

Inductive LevState : Type := Dead | Exact (n : nat) | Fuzzy (s : FuzzyState).

#[global] Instance FuzzyState_eq_dec : EqDecision FuzzyState.
Proof. solve_decision. Defined.
#[global] Instance LevState_eq_dec : EqDecision LevState.
Proof. solve_decision. Defined.

Definition Lev_new (key_prefix : list Z) (term : str) (max_edits : Z) (prefix_length : nat)
    : LevenshteinAutomaton :=
  let '(prefix, suffix) := split_prefix term prefix_length in
  mkLev (key_prefix ++ utf8 prefix) (length key_prefix) suffix (Z.min max_edits MAX_SUPPORTED_EDITS).

Section automaton.
Context (self : LevenshteinAutomaton).

Definition band_cap : Z := lev_max_edits self + 1.
Definition band_width : nat := Z.to_nat (2 * lev_max_edits self + 1).

Definition column (chars : Z) (t : nat) : option nat :=
  let j := chars - lev_max_edits self + Z.of_nat t in
  if (0 <=? j) && (j <=? zlen (lev_query self)) then Some (Z.to_nat j) else None.

Definition initial_fuzzy : LevState :=
  let row :=
    foldl (fun row t => match column 0 t with
                        | Some j => <[t := wrap 8 (Z.of_nat j)]> row
                        | None => row
                        end) (replicate BAND band_cap) (seq 0 band_width) in
  Fuzzy (mkFuzzyState row (replicate BAND band_cap) 0 None (replicate 4 0) 0 0).

(** The value of cell [t] in column [j], from the rows before and the cells to its left. *)
Definition step_cell (state : FuzzyState) (c : Z) (next : list Z) (t j : nat) : Z :=
  let old := fz_row state in
  let v := if (t + 1 <? band_width)%nat then saturating_add 8 (old !!! (t + 1)%nat) 1 else band_cap in
  let v :=
    if (0 <? j)%nat then
      let v := if (0 <? t)%nat then Z.min v (saturating_add 8 (next !!! (t - 1)%nat) 1) else v in
      let v := Z.min v (saturating_add 8 (old !!! t) (if lev_query self !!! (j - 1)%nat =? c then 0 else 1)) in
      if (2 <=? j)%nat && (1 <=? fz_chars state) then
        match fz_prev_char state with
        | Some p =>
          if negb (c =? p) && (c =? lev_query self !!! (j - 2)%nat) && (p =? lev_query self !!! (j - 1)%nat)
          then Z.min v (saturating_add 8 (fz_prev_row state !!! t) 1) else v
        | None => v
        end
      else v
    else v in
  Z.min v band_cap.

(** One iteration of the loop over the band, on [(next, best)]. *)
Definition step_slot (state : FuzzyState) (c : Z) (chars : Z) (acc : list Z * Z) (t : nat) : list Z * Z :=
  let '(next, best) := acc in
  match column chars t with
  | None => (next, best)
  | Some j =>
    let v := step_cell state c next t j in
    (<[t := v]> next, Z.min best v)
  end.

Definition step_char (state : FuzzyState) (c : Z) : LevState :=
  let chars := wrap 32 (fz_chars state + 1) in
  let '(next, best) :=
    foldl (step_slot state c chars) (replicate BAND band_cap, band_cap) (seq 0 band_width) in
  if lev_max_edits self <? best then Dead
  else Fuzzy (mkFuzzyState next (fz_row state) chars (Some c) (replicate 4 0) 0 0).

(** The edit distance of a matching state. *)
Definition distance (state : LevState) : option Z :=
  match state with
  | Fuzzy s =>
    if (fz_utf8_need s =? 0)%nat then
      let t := zlen (lev_query self) - fz_chars s + lev_max_edits self in
      if (t <? 0) || (2 * lev_max_edits self <? t) then None
      else
        let d := fz_row s !!! Z.to_nat t in
        if d <=? lev_max_edits self then Some d else None
    else None
  | _ => None
  end.

(** The width of a character from its first byte, 0 for a byte that starts none. *)
Definition lead_width (lead : Z) : nat :=
  if in_range 0x00 0x7F lead then 1
  else if in_range 0xC2 0xDF lead then 2
  else if in_range 0xE0 0xEF lead then 3
  else if in_range 0xF0 0xF4 lead then 4
  else 0.

Definition start : LevState :=
  match lev_exact self with [] => initial_fuzzy | _ :: _ => Exact 0 end.
Definition is_match (state : LevState) : bool := bool_decide (is_Some (distance state)).
Definition can_match (state : LevState) : bool := negb (bool_decide (state = Dead)).

Definition with_utf8 (s : FuzzyState) (utf8 : list Z) (len need : nat) : FuzzyState :=
  mkFuzzyState (fz_row s) (fz_prev_row s) (fz_chars s) (fz_prev_char s) utf8 len need.

(** [self.exact[*n]] would panic past the end; [Exact n] states always have [n] below the
    length ([accept_exact]). *)
Definition accept (state : LevState) (byte : Z) : LevState :=
  match state with
  | Dead => Dead
  | Exact n =>
    match lev_exact self !! n with
    | None => Dead
    | Some b =>
      if negb (b =? byte) then Dead
      else if (n + 1 =? length (lev_exact self))%nat then initial_fuzzy
      else Exact (n + 1)
    end
  | Fuzzy s =>
    if (fz_utf8_need s =? 0)%nat then
      match lead_width byte with
      | 0%nat => Dead
      | 1%nat => step_char s byte
      | w => Fuzzy (with_utf8 s (<[0%nat := byte]> (fz_utf8 s)) 1 w)
      end
    else if negb (Z.land byte 0xC0 =? 0x80) then Dead
    else
      let pending := with_utf8 s (<[fz_utf8_len s := byte]> (fz_utf8 s)) (S (fz_utf8_len s)) (fz_utf8_need s) in
      if (fz_utf8_len pending <? fz_utf8_need pending)%nat then Fuzzy pending
      else
        match from_utf8 (take (fz_utf8_len pending) (fz_utf8 pending)) ≫= head with
        | Some c => step_char pending c
        | None => Dead
        end
  end.

(** The loop of [distance_to] over the bytes, which stops at a dead state. *)
Fixpoint run_bytes (state : LevState) (bytes : list Z) : option LevState :=
  match bytes with
  | [] => Some state
  | b :: bytes' =>
    match accept state b with
    | Dead => None
    | state' => run_bytes state' bytes'
    end
  end.
Definition distance_to (word : str) : option Z := run_bytes start (utf8 word) ≫= distance.
End automaton.

(** ** [levenshtein] computes the distance without exchanges *)

(** The row of the table for the word [wr] from column [br] on, both reversed. *)
Fixpoint lev_table_row (wr br b : list Z) : list nat :=
  lev_r wr br :: match b with [] => [] | x :: b' => lev_table_row wr (x :: br) b' end.

Lemma lev_row_spec ai b wr br :
  lev_row ai b (lev_table_row wr br b) (lev_r (ai :: wr) br) = tail (lev_table_row (ai :: wr) br b).
Proof.
  revert br. induction b as [|x b IH]; intros br; [done|]. specialize (IH (x :: br)).
  set (v := Nat.min (Nat.min (lev_r wr (x :: br) + 1) (lev_r (ai :: wr) br + 1)) (lev_r wr br + (if ai =? x then 0%nat else 1%nat))).
  assert (Hv : v = lev_r (ai :: wr) (x :: br)).
  { change (lev_r (ai :: wr) (x :: br)) with (Nat.min (Nat.min (S (lev_r wr (x :: br))) (S (lev_r (ai :: wr) br)))
      (lev_r wr br + (if ai =? x then 0%nat else 1%nat))). unfold v. by rewrite !Nat.add_1_r. }
  replace (lev_row ai (x :: b) (lev_table_row wr br (x :: b)) (lev_r (ai :: wr) br))
    with (v :: lev_row ai b (lev_table_row wr (x :: br) b) v) by (by destruct b).
  rewrite Hv, IH. by destruct b.
Qed.

Lemma lev_rows_spec a b wr :
  lev_rows (length wr) a b (lev_table_row wr [] b) = lev_table_row (rev a ++ wr) [] b.
Proof.
  revert wr. induction a as [|x a IH]; intros wr; [done|]. cbn [lev_rows].
  replace (S (length wr) :: _) with (lev_table_row (x :: wr) [] b).
  - etrans; [exact (IH (x :: wr))|]. simpl rev. by rewrite <-app_assoc.
  - pose proof (lev_row_spec x b wr []) as Hr. rewrite lev_r_nil_r in Hr. cbn [length] in Hr. rewrite Hr.
    by destruct b.
Qed.

Lemma lev_table_row_last wr br b : lev_table_row wr br b !! length b = Some (lev_r wr (rev b ++ br)).
Proof.
  revert br. induction b as [|x b IH]; intros br; [done|]. simpl rev. rewrite <-app_assoc. apply (IH (x :: br)).
Qed.

Lemma lev_first_row n b : lev_table_row [] (replicate n 0) b = seq n (S (length b)).
Proof.
  assert (H : forall br, length br = n -> lev_table_row [] br b = seq n (S (length b))); [|apply H, length_replicate].
  revert n. induction b as [|x b IH]; intros n br Hb; simpl; rewrite Hb; [done|]. f_equal. apply IH. simpl. by rewrite Hb.
Qed.

(** The rolling rows give the least number of insertions, deletions and replacements. *)
Theorem levenshtein_least a b :
  plain_align a b (levenshtein a b) /\ forall n, plain_align a b n -> (levenshtein a b <= n)%nat.
Proof.
  assert (H : levenshtein a b = lev_r (rev a) (rev b)).
  { unfold levenshtein. rewrite <-(lev_first_row 0). pose proof (lev_rows_spec a b []) as Hs.
    cbn [length replicate] in *. rewrite Hs, lev_table_row_last. cbn [default from_option id]. by rewrite !app_nil_r. }
  rewrite H. split.
  - pose proof (plain_align_rev _ _ _ (lev_r_align (rev a) (rev b))) as Ha. by rewrite !rev_involutive in Ha.
  - intros n Hn. by apply lev_r_least, plain_align_rev.
Qed.

(** ** The band holds the table *)

Lemma column_spec self chars t j :
  column self chars t = Some j <->
  Z.of_nat j = chars - lev_max_edits self + Z.of_nat t /\ (j <= length (lev_query self))%nat.
Proof. unfold column. case_match; split; intros; inv_some; try lia. f_equal. lia. Qed.

Lemma rev_take_S (q : list Z) j x : q !! j = Some x -> rev (take (S j) q) = x :: rev (take j q).
Proof. intros H. rewrite (take_S_r _ _ x) by done. by rewrite rev_app_distr. Qed.

Section band.
Context (self : LevenshteinAutomaton) (Hk : 0 <= lev_max_edits self <= 3).
Local Abbreviation k := (lev_max_edits self).
Local Abbreviation q := (lev_query self).

(** [cell wr t] is slot [t] of the row after reading the characters [wr], last one first. *)
Definition cell (wr : list Z) (t : nat) : Z :=
  match column self (zlen wr) t with
  | Some j => Z.min (Z.of_nat (osa_r wr (rev (take j q)))) (band_cap self)
  | None => band_cap self
  end.

Lemma cell_range wr t : 0 <= cell wr t <= 4.
Proof using Hk. unfold cell, band_cap. case_match; lia. Qed.

Lemma cell_column wr t j :
  Z.of_nat j = zlen wr - k + Z.of_nat t -> (j <= length q)%nat ->
  cell wr t = Z.min (Z.of_nat (osa_r wr (rev (take j q)))) (band_cap self).
Proof. intros. unfold cell. by rewrite (proj2 (column_spec self (zlen wr) t j)). Qed.

Lemma sat_cell wr t x : 0 <= x <= 1 -> saturating_add 8 (cell wr t) x = cell wr t + x.
Proof using Hk. intros. pose proof (cell_range wr t). unfold saturating_add, u_max. lia. Qed.

(** The state after [wr] holds rows [wr] and [tail wr] of the table. *)
Record tracks (wr : list Z) (s : FuzzyState) : Prop := {
  tr_row t : (t < band_width self)%nat -> fz_row s !!! t = cell wr t;
  tr_prev t : wr <> [] -> (t < band_width self)%nat -> fz_prev_row s !!! t = cell (tail wr) t;
  tr_chars : fz_chars s = zlen wr;
  tr_char : fz_prev_char s = head wr;
}.

Lemma tracks_with_utf8 wr s u l n : tracks wr s -> tracks wr (with_utf8 s u l n).
Proof. intros [? ? ? ?]. by constructor. Qed.

Lemma take_length_le (l : list Z) j : (j <= length l)%nat -> length (rev (take j l)) = j.
Proof. intros. rewrite length_rev, length_take. lia. Qed.

(** Cells one step off the band are above the cap. *)
Lemma off_band wr j :
  (j <= length q)%nat -> k < Z.abs (Z.of_nat j - zlen wr) ->
  k + 1 <= Z.of_nat (osa_r wr (rev (take j q))).
Proof.
  intros Hj Ho. pose proof (osa_r_length wr (rev (take j q))) as [H1 H2].
  rewrite take_length_le in * by done. lia.
Qed.

Lemma step_cell_spec wr s c next t j :
  tracks wr s -> (t < band_width self)%nat -> column self (zlen (c :: wr)) t = Some j ->
  ((0 < t)%nat -> next !!! (t - 1)%nat = cell (c :: wr) (t - 1)) ->
  step_cell self s c next t j = cell (c :: wr) t.
Proof using Hk.
  intros [Hrow Hprev Hch Hpc] Ht Hcol Hnext. pose proof (proj1 (column_spec _ _ _ _) Hcol) as [Hj Hjl].
  unfold cell at 1. rewrite Hcol. unfold step_cell. unfold band_width in *. cbn [length] in Hj.
  (* the cell above *)
  assert (Hup : Z.min (if (t + 1 <? Z.to_nat (2 * k + 1))%nat then saturating_add 8 (fz_row s !!! (t + 1)%nat) 1 else band_cap self) (band_cap self)
    = Z.min (Z.of_nat (S (osa_r wr (rev (take j q))))) (band_cap self)).
  { destruct (Nat.ltb_spec (t + 1) (Z.to_nat (2 * k + 1))) as [Hlt|Hge].
    - rewrite Hrow by done. rewrite sat_cell by lia. rewrite (cell_column wr _ j) by lia. unfold band_cap. lia.
    - pose proof (off_band wr j Hjl ltac:(lia)). unfold band_cap. lia. }
  destruct (Nat.ltb_spec 0 j) as [Hj0|Hj0].
  2: { destruct j; [|lia]. rewrite Hup. rewrite take_0. simpl rev. rewrite !osa_r_nil_r. done. }
  destruct j as [|j']; [lia|]. replace (S j' - 1)%nat with j' by lia.
  destruct (lookup_lt_is_Some_2 q j') as [b Hb]; [lia|]. rewrite (list_lookup_total_correct _ _ _ Hb).
  rewrite (rev_take_S _ _ _ Hb) in Hup |- *. set (qr := rev (take j' q)) in *.
  (* the cell to the left and the one on the diagonal *)
  set (up := if (t + 1 <? _)%nat then _ else _) in *.
  assert (Hleft : Z.min (if (0 <? t)%nat then Z.min up (saturating_add 8 (next !!! (t - 1)%nat) 1) else up) (band_cap self)
    = Z.min (Z.min up (Z.of_nat (S (osa_r (c :: wr) qr)))) (band_cap self)).
  { destruct (Nat.ltb_spec 0 t) as [Hlt|Hge].
    - rewrite Hnext, sat_cell, (cell_column (c :: wr) _ j') by (simpl length; lia). fold qr. unfold band_cap. lia.
    - pose proof (off_band (c :: wr) j' ltac:(lia) ltac:(simpl length; lia)) as Hoff. fold qr in Hoff. unfold band_cap. lia. }
  set (left := if (0 <? t)%nat then _ else _) in *.
  assert (Hdiag : Z.min (saturating_add 8 (fz_row s !!! t) (if b =? c then 0 else 1)) (band_cap self)
    = Z.min (Z.of_nat (osa_r wr qr + (if b =? c then 0 else 1))) (band_cap self)).
  { rewrite Hrow, sat_cell, (cell_column wr _ j') by (case_match || idtac; lia). fold qr. unfold band_cap. case_match; lia. }
  rewrite osa_r_cons. cbv zeta.
  set (V := Nat.min (Nat.min _ _) _).
  assert (HV : Z.min (Z.min left (saturating_add 8 (fz_row s !!! t) (if b =? c then 0 else 1))) (band_cap self)
    = Z.min (Z.of_nat V) (band_cap self)) by (unfold V; lia).
  set (v := Z.min left _) in *. clearbody v. rewrite Hch, Hpc.
  destruct wr as [|p w2]; [cbn [head length]; by rewrite andb_false_r|]. cbn [head tail length] in *.
  destruct j' as [|j2]; [exact HV|].
  destruct (lookup_lt_is_Some_2 q j2) as [b' Hb']; [lia|].
  replace (S (S j2) - 2)%nat with j2 by lia. rewrite (list_lookup_total_correct _ _ _ Hb').
  unfold qr in *. rewrite (rev_take_S _ _ _ Hb') in *. clear qr. set (q2 := rev (take j2 q)) in *.
  replace ((2 <=? S (S j2))%nat && (1 <=? Z.of_nat (S (length w2)))) with true by lia.
  destruct (Z.eqb_spec c b') as [<-|]; [|by rewrite andb_false_r].
  rewrite andb_true_r.
  destruct (Z.eqb_spec p b) as [<-|]; [|by rewrite andb_false_r]. rewrite andb_true_r. cbn [andb].
  destruct (Z.eqb_spec c p) as [->|Hcp]; cbn [negb].
  - assert (HVS : (V <= S (osa_r w2 q2))%nat).
    { etrans; [apply Nat.le_min_r|]. pose proof (osa_r_sub p p w2 q2) as Hs. rewrite Z.eqb_refl in *.
      rewrite (rev_take_S _ _ _ Hb'), Nat.add_0_r in *. by apply Nat.le_le_succ_r. }
    rewrite Nat.min_l by exact HVS. exact HV.
  - rewrite (Hprev t) by (discriminate || exact Ht). rewrite sat_cell, (cell_column w2 _ j2) by lia. fold q2. clear -HV. clearbody V.
    rewrite Nat2Z.inj_min, Nat2Z.inj_succ. unfold band_cap in *. lia.
Qed.

Lemma width_le : (band_width self <= BAND)%nat.
Proof using Hk. unfold band_width, BAND. lia. Qed.

Lemma step_loop wr s c n :
  tracks wr s -> (n <= band_width self)%nat ->
  let '(next, best) :=
    foldl (step_slot self s c (zlen (c :: wr))) (replicate BAND (band_cap self), band_cap self) (seq 0 n) in
  length next = BAND /\ (forall t, (t < n)%nat -> next !!! t = cell (c :: wr) t) /\
  (forall t, (n <= t < BAND)%nat -> next !!! t = band_cap self) /\
  best <= band_cap self /\ (forall t, (t < n)%nat -> best <= cell (c :: wr) t) /\
  (best = band_cap self \/ exists t, (t < n)%nat /\ best = cell (c :: wr) t).
Proof using Hk.
  intros Htr. pose proof width_le as Hw. induction n as [|n IH]; intros Hn.
  { cbn [foldl seq]. split_and!; [done|lia| |lia|lia|by left]. intros t Ht. by rewrite lookup_total_replicate_2 by lia. }
  rewrite seq_S, foldl_app, Nat.add_0_l. specialize (IH ltac:(lia)).
  destruct (foldl _ _ (seq 0 n)) as [next best]. destruct IH as (Hl & Hdone & Hrest & Hb & Hbc & Hbe).
  cbn [foldl step_slot]. destruct (column self (zlen (c :: wr)) n) as [j|] eqn:Hcol.
  - rewrite (step_cell_spec wr) by (done || lia || (intros; apply Hdone; lia)).
    split_and!; [by rewrite length_insert| | |lia| |].
    + intros t Ht. destruct (decide (t = n)) as [->|]; [by rewrite list_lookup_total_insert_eq by lia|].
      rewrite list_lookup_total_insert_ne by done. apply Hdone. lia.
    + intros t Ht. rewrite list_lookup_total_insert_ne by lia. apply Hrest. lia.
    + intros t Ht. destruct (decide (t = n)) as [->|]; [lia|]. specialize (Hbc t). lia.
    + destruct (Z.min_spec best (cell (c :: wr) n)) as [[? ->]|[? ->]]; [|right; exists n; auto with lia].
      destruct Hbe as [->|(t & ? & ->)]; [by left|]. right. exists t. auto with lia.
  - assert (Hc : cell (c :: wr) n = band_cap self) by (unfold cell; by rewrite Hcol).
    split_and!; [done| | |done| |].
    + intros t Ht. destruct (decide (t = n)) as [->|]; [rewrite Hc; apply Hrest; lia|]. apply Hdone. lia.
    + intros t Ht. apply Hrest. lia.
    + intros t Ht. destruct (decide (t = n)) as [->|]; [lia|]. apply Hbc. lia.
    + destruct Hbe as [->|(t & ? & ->)]; [by left|]. right. exists t. auto with lia.
Qed.

(** A row above the cap everywhere: no word that goes on from here matches. *)
Definition row_dead (wr : list Z) : Prop :=
  forall q', q' `suffix_of` rev q -> (Z.to_nat k < osa_r wr q')%nat.

Lemma suffix_rev_take (q' l : list Z) : q' `suffix_of` rev l -> exists j, (j <= length l)%nat /\ q' = rev (take j l).
Proof.
  intros [p Hp]. exists (length q'). split.
  - apply (f_equal length) in Hp. rewrite length_rev, length_app in Hp. lia.
  - apply (f_equal (@rev Z)) in Hp. rewrite rev_involutive, rev_app_distr in Hp. subst l.
    rewrite take_app_length' by by rewrite length_rev. by rewrite rev_involutive.
Qed.

Lemma row_dead_app wr w : row_dead wr -> row_dead (rev w ++ wr).
Proof.
  revert wr. induction w as [|a w IH]; intros wr Hd; [done|]. simpl. rewrite <-app_assoc. apply IH.
  intros q'. by apply osa_r_row_dead.
Qed.

Definition clean (s : FuzzyState) : Prop := fz_utf8_need s = 0%nat /\ length (fz_utf8 s) = 4%nat.

Lemma step_char_spec wr s c :
  tracks wr s -> zlen (c :: wr) < 2 ^ 32 ->
  match step_char self s c with
  | Dead => row_dead (c :: wr)
  | Exact _ => False
  | Fuzzy s' => tracks (c :: wr) s' /\ clean s'
  end.
Proof using Hk.
  intros Htr Hlen. unfold step_char. pose proof (tr_chars _ _ Htr) as Hch.
  replace (wrap 32 (fz_chars s + 1)) with (zlen (c :: wr))
    by (cbn [length] in *; unfold wrap; rewrite Hch, Z.mod_small; lia).
  pose proof (step_loop wr s c (band_width self) Htr (Nat.le_refl _)) as Hloop.
  destruct (foldl _ _ _) as [next best]. destruct Hloop as (Hl & Hdone & Hrest & Hb & Hbc & Hbe).
  destruct (Z.ltb_spec (lev_max_edits self) best) as [Hd|_].
  - intros q' (j & Hj & ->)%suffix_rev_take.
    destruct (decide (Z.abs (Z.of_nat j - zlen (c :: wr)) <= k)) as [Hin|Hout].
    + pose (t := Z.to_nat (Z.of_nat j - zlen (c :: wr) + k)).
      specialize (Hbc t ltac:(unfold t, band_width; lia)). rewrite (cell_column _ _ j) in Hbc by (unfold t; lia).
      unfold band_cap in *. lia.
    + pose proof (off_band (c :: wr) j Hj ltac:(lia)). lia.
  - split; [|done]. constructor; cbn [fz_row fz_prev_row fz_chars fz_prev_char head tail]; [done| |done|done].
    intros t _ Ht. by apply (tr_row _ _ Htr).
Qed.
End band.

(** ** Reading UTF-8 *)

Lemma land_continuation b : 0x80 <= b < 0xC0 -> (Z.land b 0xC0 =? 0x80) = true.
Proof.
  intros Hb. apply Z.eqb_eq.
  assert (Hall : forallb (fun n => Z.land (0x80 + Z.of_nat n) 0xC0 =? 0x80) (seq 0 64) = true) by done.
  rewrite forallb_forall in Hall. specialize (Hall (Z.to_nat (b - 0x80))).
  rewrite Z2Nat.id in Hall by lia. replace (0x80 + (b - 0x80)) with b in Hall by lia.
  apply Z.eqb_eq, Hall, in_seq. lia.
Qed.

Lemma decode_single c : is_char c -> from_utf8 (encode_utf8 c) ≫= head = Some c.
Proof.
  intros Hc. pose proof (from_utf8_utf8 [c] ltac:(by constructor)) as H.
  unfold utf8 in H. cbn [fmap list_fmap concat] in H. rewrite app_nil_r in H. by rewrite H.
Qed.

Section bytes.
Context (self : LevenshteinAutomaton).

(** A step does not look at the buffered bytes. *)
Lemma step_char_utf8 s u l n c : step_char self (with_utf8 s u l n) c = step_char self s c.
Proof. by destruct s. Qed.

(** A byte that continues a character whose bytes are not complete yet is stored. *)
Lemma accept_pending s u l n b :
  0x80 <= b < 0xC0 -> (S l < n)%nat ->
  accept self (Fuzzy (with_utf8 s u l n)) b = Fuzzy (with_utf8 s (<[l := b]> u) (S l) n).
Proof.
  intros Hb Hn. cbn [accept with_utf8 fz_utf8_need fz_utf8_len fz_utf8].
  rewrite land_continuation by done. cbn [negb]. cbv zeta.
  cbn [accept with_utf8 fz_utf8_need fz_utf8_len fz_utf8].
  rewrite (proj2 (Nat.ltb_lt _ _)) by done. destruct n; [lia|done].
Qed.

(** The last byte decodes the character and steps. *)
Lemma accept_last s u l n b c :
  0x80 <= b < 0xC0 -> (0 < n)%nat -> n = S l -> is_char c ->
  take n (<[l := b]> u) = encode_utf8 c ->
  accept self (Fuzzy (with_utf8 s u l n)) b = step_char self s c.
Proof.
  intros Hb Hn -> Hc Ht. cbn [accept with_utf8 fz_utf8_need fz_utf8_len fz_utf8].
  rewrite land_continuation by done. cbn [negb]. cbv zeta.
  cbn [accept with_utf8 fz_utf8_need fz_utf8_len fz_utf8].
  rewrite (proj2 (Nat.ltb_ge _ _)) by done. cbn [Nat.eqb].
  rewrite Ht, decode_single by done. exact (step_char_utf8 s (<[l := b]> u) (S l) (S l) c).
Qed.

(** Reading the bytes of a character is one step on the character. *)
Lemma run_char s c rest :
  clean s -> is_char c ->
  run_bytes self (Fuzzy s) (encode_utf8 c ++ rest) =
  match step_char self s c with Dead => None | st => run_bytes self st rest end.
Proof.
  intros [Hn Hl] Hc. destruct s as [row prow ch pc u ulen need]. cbn in Hn, Hl. subst need.
  destruct u as [|u0 [|u1 [|u2 [|u3 [|]]]]]; try discriminate Hl. clear Hl.
  set (s := mkFuzzyState _ _ _ _ _ _ _).
  pose proof (fun u l n b => accept_last s u l n b c) as Hlast.
  destruct (digits64 c) as [H1 H1']. destruct (digits64 (c / 64)) as [H2 H2'].
  destruct (digits64 (c / 64 / 64)) as [H3 H3']. unfold is_char in Hc.
  unfold encode_utf8 in *. rewrite ?div_262144, ?div_4096 in *.
  set (c1 := c / 64) in *. set (c2 := c1 / 64) in *. set (c3 := c2 / 64) in *.
  set (m0 := c mod 64) in *. set (m1 := c1 mod 64) in *. set (m2 := c2 mod 64) in *.
  clearbody c1 c2 c3 m0 m1 m2.
  destruct (Z.ltb_spec c 0x80); [|destruct (Z.ltb_spec c 0x800); [|destruct (Z.ltb_spec c 0x10000)]];
    cbn [app run_bytes].
  - replace (accept self (Fuzzy s) c) with (step_char self s c); [done|].
    unfold accept. cbn [fz_utf8_need s Nat.eqb]. unfold lead_width. range_tac. done.
  - assert (Ha : accept self (Fuzzy s) (0xC0 + c1) = Fuzzy (with_utf8 s [0xC0 + c1; u1; u2; u3] 1 2)).
    { unfold accept. cbn [fz_utf8_need s Nat.eqb]. unfold lead_width. range_tac. done. }
    rewrite Ha, (Hlast _ 1%nat 2%nat) by (done || lia). done.
  - assert (Ha : accept self (Fuzzy s) (0xE0 + c2) = Fuzzy (with_utf8 s [0xE0 + c2; u1; u2; u3] 1 3)).
    { unfold accept. cbn [fz_utf8_need s Nat.eqb]. unfold lead_width. range_tac. done. }
    rewrite Ha, accept_pending, (Hlast _ 2%nat 3%nat) by (done || lia). done.
  - assert (Ha : accept self (Fuzzy s) (0xF0 + c3) = Fuzzy (with_utf8 s [0xF0 + c3; u1; u2; u3] 1 4)).
    { unfold accept. cbn [fz_utf8_need s Nat.eqb]. unfold lead_width. range_tac. done. }
    rewrite Ha, accept_pending, accept_pending, (Hlast _ 3%nat 4%nat) by (done || lia). done.
Qed.
End bytes.

(** ** Words and keys *)

Section words.
Context (self : LevenshteinAutomaton) (Hk : 0 <= lev_max_edits self <= 3).
Local Abbreviation k := (lev_max_edits self).
Local Abbreviation q := (lev_query self).

Lemma initial_row n :
  (n <= band_width self)%nat ->
  let row := foldl (fun row t => match column self 0 t with
                        | Some j => <[t := wrap 8 (Z.of_nat j)]> row
                        | None => row
                        end) (replicate BAND (band_cap self)) (seq 0 n) in
  length row = BAND /\ (forall t, (t < n)%nat -> row !!! t = cell self [] t) /\
  (forall t, (n <= t < BAND)%nat -> row !!! t = band_cap self).
Proof using Hk.
  cbv zeta. pose proof (width_le self Hk) as Hw. induction n as [|n IH]; intros Hn.
  { cbn [foldl seq]. split_and!; [done|lia|]. intros t Ht. by rewrite lookup_total_replicate_2 by lia. }
  rewrite seq_S, foldl_app, Nat.add_0_l. destruct (IH ltac:(lia)) as (Hl & Hdone & Hrest). cbn [foldl].
  destruct (column self 0 n) as [j|] eqn:Hcol.
  - pose proof (proj1 (column_spec _ _ _ _) Hcol) as [Hj Hjl]. split_and!; [by rewrite length_insert| |].
    + intros t Ht. destruct (decide (t = n)) as [->|].
      * rewrite list_lookup_total_insert_eq by lia. rewrite (cell_column self [] n j) by (cbn [length]; lia).
        rewrite osa_r_nil_l, take_length_le by lia. unfold wrap, band_cap, band_width in *.
        rewrite Z.mod_small; lia.
      * rewrite list_lookup_total_insert_ne by done. apply Hdone. lia.
    + intros t Ht. rewrite list_lookup_total_insert_ne by lia. apply Hrest. lia.
  - split_and!; [done| |].
    + intros t Ht. destruct (decide (t = n)) as [->|]; [|apply Hdone; lia].
      rewrite Hrest by lia. unfold cell. change (zlen []) with 0. by rewrite Hcol.
    + intros t Ht. apply Hrest. lia.
Qed.

Lemma initial_tracks : exists s, initial_fuzzy self = Fuzzy s /\ tracks self [] s /\ clean s.
Proof using Hk.
  unfold initial_fuzzy. eexists. split; [done|]. split; [|done]. constructor; [|done..].
  intros t Ht. by apply (initial_row (band_width self)).
Qed.

(** What the automaton should report for a word: its distance, when it is at most [k]. *)
Definition within (d : nat) : option Z := if Z.of_nat d <=? k then Some (Z.of_nat d) else None.

Lemma distance_tracks wr s :
  tracks self wr s -> clean s -> distance self (Fuzzy s) = within (osa_r wr (rev q)).
Proof using Hk.
  intros [Hrow _ Hch _] [Hn _]. unfold distance, within. rewrite Hn, Hch. cbn [Nat.eqb].
  pose proof (take_ge q (length q) (Nat.le_refl _)) as Hq.
  destruct (_ || _) eqn:Hb.
  - pose proof (off_band self wr (length q) (Nat.le_refl _) ltac:(lia)) as Ho. rewrite Hq in Ho.
    by rewrite (proj2 (Z.leb_gt _ _)) by lia.
  - rewrite Hrow by (unfold band_width; lia). rewrite (cell_column self wr _ (length q)) by lia. rewrite Hq.
    unfold band_cap. destruct (Z.leb_spec (Z.of_nat (osa_r wr (rev q))) k) as [Hle|Hgt].
    + rewrite Z.min_l, (proj2 (Z.leb_le _ _)) by lia. done.
    + by rewrite (proj2 (Z.leb_gt _ _)) by lia.
Qed.

Lemma run_word wr s w :
  tracks self wr s -> clean s -> Forall is_char w -> zlen (rev w ++ wr) < 2 ^ 32 ->
  run_bytes self (Fuzzy s) (utf8 w) ≫= distance self = within (osa_r (rev w ++ wr) (rev q)).
Proof using Hk.
  intros Htr Hcl Hw. revert wr s Htr Hcl. induction Hw as [|c w Hc Hw IH]; intros wr s Htr Hcl Hlen.
  { cbn [utf8 concat fmap list_fmap run_bytes mbind option_bind rev app]. by apply distance_tracks. }
  rewrite utf8_cons, run_char by done. simpl rev in *. rewrite <-app_assoc in *. cbn [app] in *.
  rewrite length_app in Hlen.
  pose proof (step_char_spec self Hk wr s c Htr ltac:(lia)) as Hst.
  destruct (step_char self s c) as [|n|s']; [|done|].
  - apply (row_dead_app self) with (w := w) in Hst. specialize (Hst (rev q) (reflexivity _)).
    unfold within. cbn [mbind option_bind]. by rewrite (proj2 (Z.leb_gt _ _)) by lia.
  - destruct Hst as [Htr' Hcl']. apply IH; [done|done|]. rewrite length_app. lia.
Qed.

(** The bytes of [exact] lead to the initial row, any other byte to a rejection. *)
Lemma run_exact n bytes :
  (n < length (lev_exact self))%nat ->
  run_bytes self (Exact n) (drop n (lev_exact self) ++ bytes) ≫= distance self =
  run_bytes self (initial_fuzzy self) bytes ≫= distance self.
Proof using Hk.
  remember (length (lev_exact self) - n)%nat as m eqn:Hm. revert n Hm.
  induction m as [|m IH]; intros n Hm Hn; [lia|].
  destruct (lookup_lt_is_Some_2 _ _ Hn) as [b Hb]. rewrite (drop_S _ _ _ Hb). cbn [app run_bytes accept].
  rewrite Hb, Z.eqb_refl. cbn [negb]. destruct (Nat.eqb_spec (n + 1) (length (lev_exact self))) as [He|He].
  - destruct (initial_tracks) as (s & Hs & _). rewrite Hs, drop_ge by lia. done.
  - replace (n + 1)%nat with (S n) by lia. apply IH; lia.
Qed.

Lemma run_not_exact n bytes :
  (n < length (lev_exact self))%nat ->
  ~ drop n (lev_exact self) `prefix_of` bytes ->
  run_bytes self (Exact n) bytes ≫= distance self = None.
Proof using Hk.
  revert n. induction bytes as [|b bytes IH]; intros n Hn Hp; [done|].
  destruct (lookup_lt_is_Some_2 _ _ Hn) as [b' Hb]. rewrite (drop_S _ _ _ Hb) in Hp. cbn [run_bytes accept].
  rewrite Hb. destruct (Z.eqb_spec b' b) as [->|]; cbn [negb]; [|done].
  destruct (Nat.eqb_spec (n + 1) (length (lev_exact self))) as [He|He].
  - destruct Hp. rewrite drop_ge by lia. apply prefix_cons, prefix_nil.
  - replace (n + 1)%nat with (S n) by lia. apply IH; [lia|]. intros Hp'. by apply Hp, prefix_cons.
Qed.
End words.

Lemma accept_exact self n b :
  (n < length (lev_exact self))%nat ->
  match accept self (Exact n) b with Exact n' => (n' < length (lev_exact self))%nat | _ => True end.
Proof.
  intros Hn. cbn [accept]. destruct (lookup_lt_is_Some_2 _ _ Hn) as [b' ->].
  destruct (negb _); [done|]. destruct (Nat.eqb_spec (n + 1) (length (lev_exact self))); [done|lia].
Qed.

(** The word that follows the exact prefix is measured against the rest of the term. *)
Definition spec_distance (term : str) (max_edits : Z) (p : nat) (w : str) : option Z :=
  if bool_decide (take p term `prefix_of` w) then
    let d := Z.of_nat (osa (drop (length (take p term)) w) (drop p term)) in
    if d <=? Z.min max_edits MAX_SUPPORTED_EDITS then Some d else None
  else None.

Lemma key_distance kp term max_edits p w :
  0 <= max_edits -> Forall is_char term -> Forall is_char w -> zlen w < 2 ^ 32 ->
  run_bytes (Lev_new kp term max_edits p) (start (Lev_new kp term max_edits p)) (kp ++ utf8 w)
    ≫= distance (Lev_new kp term max_edits p) = spec_distance term max_edits p w.
Proof.
  intros Hm Ht Hw Hlen. set (self := Lev_new kp term max_edits p).
  assert (Hk : 0 <= lev_max_edits self <= 3) by (unfold self; cbn; unfold MAX_SUPPORTED_EDITS; lia).
  assert (Hinit : forall w', Forall is_char w' -> zlen w' < 2 ^ 32 ->
    run_bytes self (initial_fuzzy self) (utf8 w') ≫= distance self = within self (osa w' (drop p term))).
  { intros w' Hw' Hl. destruct (initial_tracks self Hk) as (s & -> & Htr & Hcl).
    rewrite (run_word self Hk [] s) by (done || rewrite app_nil_r, length_rev; done).
    by rewrite app_nil_r. }
  assert (Hmatch : forall w', w = take p term ++ w' ->
    run_bytes self (start self) (kp ++ utf8 w) ≫= distance self = within self (osa w' (drop p term))).
  { intros w' ->. apply Forall_app in Hw as [_ Hw']. rewrite length_app in Hlen.
    rewrite utf8_app, app_assoc, <-Hinit by (done || lia). unfold start.
    change (kp ++ utf8 (take p term)) with (lev_exact self).
    destruct (lev_exact self) as [|b e] eqn:He; [done|].
    change (b :: e) with (drop 0 (b :: e)). rewrite <-He. apply run_exact; [done|]. rewrite He. simpl. lia. }
  unfold spec_distance. case_bool_decide as Hp.
  - destruct Hp as [w' Hp]. rewrite (Hmatch _ Hp). rewrite Hp, drop_app_length. done.
  - unfold start. destruct (lev_exact self) as [|b e] eqn:He.
    { exfalso. apply app_eq_nil in He as [_ He]. destruct (take p term) as [|c r] eqn:Htk; [by apply Hp, prefix_nil|].
      rewrite utf8_cons in He. apply app_eq_nil in He as [He _]. by apply encode_nonempty in He. }
    apply run_not_exact; [done|rewrite He; simpl; lia|]. rewrite drop_0.
    intros [rest Hr]. apply Hp. assert (Hex : lev_exact self = kp ++ utf8 (take p term)) by done.
    rewrite Hex in Hr. rewrite <-app_assoc in Hr. apply app_inv_head in Hr.
    apply utf8_prefix in Hr as (s' & -> & _); [by exists s'|by apply Forall_take|done].
Qed.

Lemma distance_to_spec term max_edits p w d :
  0 <= max_edits -> Forall is_char term -> Forall is_char w -> zlen w < 2 ^ 32 ->
  distance_to (Lev_new [] term max_edits p) w = Some d <->
  exists w' n, w = take p term ++ w' /\ distance_is w' (drop p term) n /\
    d = Z.of_nat n /\ d <= Z.min max_edits MAX_SUPPORTED_EDITS.
Proof.
  intros Hm Ht Hw Hlen. unfold distance_to. rewrite <-(app_nil_l (utf8 w)), key_distance by done.
  unfold spec_distance. case_bool_decide as Hp.
  - destruct Hp as [w' ->]. rewrite drop_app_length. cbv zeta. case_match eqn:Hle; split.
    + intros [= <-]. exists w', (osa w' (drop p term)). split_and!; [done|apply osa_distance|done|lia].
    + intros (w2 & n & Heq & Hd & -> & _). apply app_inv_head in Heq as <-.
      by rewrite (distance_is_unique _ _ _ _ Hd (osa_distance _ _)).
    + done.
    + intros (w2 & n & Heq & Hd & -> & Hn). apply app_inv_head in Heq as <-.
      rewrite (distance_is_unique _ _ _ _ Hd (osa_distance _ _)) in Hn. lia.
  - split; [done|]. intros (w' & n & -> & _). destruct Hp. by exists w'.
Qed.

(** C12: The Levenshtein automaton is exact: for every word and every query term, [distance_to] of
    the automaton built with an exact prefix of [p] characters returns [d] just when the word is
    that prefix followed by a word whose edit distance to the rest of the term (inserting,
    deleting, replacing characters, exchanging neighbours) is [d], and [d] is within the edit
    budget, which is capped at 3. The banded table, the byte-wise reading of UTF-8 and the early
    dead states lose no match and invent none. *)
Theorem automaton_exact term max_edits p w d :
  0 <= max_edits -> Forall is_char term -> Forall is_char w -> zlen w < 2 ^ 32 ->
  distance_to (Lev_new [] term max_edits p) w = Some d <->
  exists w' n, w = take p term ++ w' /\ distance_is w' (drop p term) n /\
    d = Z.of_nat n /\ d <= Z.min max_edits MAX_SUPPORTED_EDITS.
Proof. apply distance_to_spec. Qed.

(** "search" with its first letter fixed and two edits allowed, against "serach": one exchange. *)
Lemma automaton_exact_witness :
  exists w' n, [115; 101; 114; 97; 99; 104] = take 1 [115; 101; 97; 114; 99; 104] ++ w' /\
    distance_is w' (drop 1 [115; 101; 97; 114; 99; 104]) n /\ 1 = Z.of_nat n /\ 1 <= Z.min 2 MAX_SUPPORTED_EDITS.
Proof.
  apply (automaton_exact [115; 101; 97; 114; 99; 104] 2 1 [115; 101; 114; 97; 99; 104] 1);
    [lia|by apply (bool_decide_unpack _)|by apply (bool_decide_unpack _)|simpl; lia|by vm_compute].
Defined.
