(* ===== verification/FuzzyRank.v ===== *)
(** * Fuzzy search: candidates and their ranking

    Models the rest of [crates/core-index/src/fuzzy.rs]: gathering the terms an automaton accepts
    from a segment's transducer or from a memtable, the weighted distance and the score of a
    correction, the choice of the expansions of a term, and the matcher of the highlighter.

    An [f64] is a value of [SpecFloat] with 53 bits of precision and maximal exponent 1024.
    [f64::log10], which depends on the platform, and the case tables of Unicode are parameters. *)
From Stdlib Require Import ZArith Lia SpecFloat.
From stdpp Require Import base numbers list gmap sorting.
From S2P Require Import Prelude Types Utf8 Osa Numeric Scorer Fuzzy.
Local Open Scope Z_scope.

(** ** [f64] *)

Abbreviation f64 := spec_float.
Definition f64_add : f64 -> f64 -> f64 := SFadd 53 1024.
Definition f64_sub : f64 -> f64 -> f64 := SFsub 53 1024.
Definition f64_mul : f64 -> f64 -> f64 := SFmul 53 1024.
Definition f64_div : f64 -> f64 -> f64 := SFdiv 53 1024.
Definition f64_of (x : Z) : f64 := binary_normalize 53 1024 x 0 false.
(** A decimal literal [x / d]. *)
Definition f64_lit (x d : Z) : f64 := f64_div (f64_of x) (f64_of d).
Definition f64_zero : f64 := S754_zero false.
Definition f64_min (x y : f64) : f64 :=
  match x, y with
  | S754_nan, _ => y
  | _, S754_nan => x
  | _, _ => if SFleb x y then x else y
  end.

(** [f64::to_bits]; the one NaN stands for the quiet one. *)
Definition f64_bits (x : f64) : Z :=
  let sign (s : bool) := if s then 2 ^ 63 else 0 in
  match x with
  | S754_zero s => sign s
  | S754_infinity s => sign s + Z.shiftl 2047 52
  | S754_nan => Z.shiftl 2047 52 + 2 ^ 51
  | S754_finite s m e =>
    if Z.pos m <? 2 ^ 52 then sign s + Z.pos m
    else sign s + Z.shiftl (e + 1075) 52 + (Z.pos m - 2 ^ 52)
  end.
Definition f64_total_cmp (x y : f64) : comparison := total_key (f64_bits x) ?= total_key (f64_bits y).

#[global] Instance f64_inhabited : Inhabited f64 := populate f64_zero.

Class Log10 := f64_log10 : f64 -> f64.
Class CaseTables := { to_lowercase : str -> str; is_uppercase : Z -> bool }.

Definition EDIT_WEIGHT : f64 := f64_of 2.
Definition SCORE_MARGIN : f64 := f64_lit 15 10.
Definition COST_CHAR : f64 := f64_of 1.
Definition COST_END_CHAR : f64 := f64_lit 7 10.
Definition COST_SUBSTITUTE : f64 := f64_of 1.
Definition COST_NEAR_SUBSTITUTE : f64 := f64_lit 6 10.
Definition COST_TRANSPOSE : f64 := f64_lit 5 10.
Definition FIRST_CHAR_PENALTY : f64 := f64_of 1.
Definition CORRECTED_TERM_BOOST : f32 := f32_div (f32_of 8) (f32_of 10).

Record FuzzyExpansion : Type := mkExpansion { fe_term : str; fe_edits : Z; fe_doc_freq : Z }.
Definition expansion_boost (self : FuzzyExpansion) : f32 :=
  if fe_edits self =? 0 then f32_of 1 else CORRECTED_TERM_BOOST.

(** ** Candidates

    The map from a term to the least number of edits seen. The boolean is the function's result:
    whether the limit stopped the walk. *)

Fixpoint collect_fst_candidates (automaton : LevenshteinAutomaton) (limit : nat)
    (stream : list (list Z * Z * LevState)) (out : gmap str Z) : gmap str Z * bool :=
  match stream with
  | [] => (out, false)
  | (key, _, state) :: stream' =>
    match distance automaton state with
    | None => collect_fst_candidates automaton limit stream' out
    | Some edits =>
      match from_utf8 (drop (lev_key_prefix_len automaton) key) with
      | None => collect_fst_candidates automaton limit stream' out
      | Some term =>
        match out !! term with
        | Some existing =>
          collect_fst_candidates automaton limit stream' (<[term := Z.min existing edits]> out)
        | None =>
          if (limit <=? size out)%nat then (out, true)
          else collect_fst_candidates automaton limit stream' (<[term := edits]> out)
        end
      end
    end
  end.

Fixpoint collect_iter_candidates (automaton : LevenshteinAutomaton) (limit : nat)
    (terms : list str) (out : gmap str Z) : gmap str Z * bool :=
  match terms with
  | [] => (out, false)
  | term :: terms' =>
    match distance_to automaton term with
    | None => collect_iter_candidates automaton limit terms' out
    | Some edits =>
      match out !! term with
      | Some existing => collect_iter_candidates automaton limit terms' (<[term := Z.min existing edits]> out)
      | None =>
        if (limit <=? size out)%nat then (out, true)
        else collect_iter_candidates automaton limit terms' (<[term := edits]> out)
      end
    end
  end.

(** ** The weighted distance *)

(** The rows of the keyboard: the keys and the offset of the row. *)
Definition KEY_ROWS : list (list Z * f64) :=
  [ ([113; 119; 101; 114; 116; 121; 117; 105; 111; 112], f64_zero);
    ([97; 115; 100; 102; 103; 104; 106; 107; 108], f64_lit 1 4);
    ([122; 120; 99; 118; 98; 110; 109], f64_lit 3 4) ].

Fixpoint position_of (c : Z) (keys : list Z) (i : Z) : option Z :=
  match keys with
  | [] => None
  | x :: keys' => if x =? c then Some i else position_of c keys' (i + 1)
  end.
Fixpoint find_row (c : Z) (rows : list (list Z * f64)) (y : Z) : option (f64 * f64) :=
  match rows with
  | [] => None
  | (keys, offset) :: rows' =>
    match position_of c keys 0 with
    | Some x => Some (f64_add (f64_of x) offset, f64_of y)
    | None => find_row c rows' (y + 1)
    end
  end.
Definition keyboard_position (c : Z) : option (f64 * f64) := find_row c KEY_ROWS 0.

Definition keyboard_neighbors (a b : Z) : bool :=
  match keyboard_position a, keyboard_position b with
  | Some (ax, ay), Some (bx, b_y) =>
    let dy := SFabs (f64_sub ay b_y) in
    let dx := SFabs (f64_sub ax bx) in
    SFeqb dy f64_zero && SFeqb dx (f64_of 1) || SFeqb dy (f64_of 1) && SFltb dx (f64_of 1)
  | _, _ => false
  end.

(** 'a', 'e', 'i', 'o', 'u', 'y'. *)
Definition is_vowel (c : Z) : bool := bool_decide (c ∈ [97; 101; 105; 111; 117; 121]).
(** c/k, c/s, k/q, s/z, v/w and g/j. *)
Definition sound_alike (a b : Z) : bool :=
  bool_decide ((Z.min a b, Z.max a b) ∈ [(99, 107); (99, 115); (107, 113); (115, 122); (118, 119); (103, 106)]).

Definition substitute_cost (a b : Z) : f64 :=
  if a =? b then f64_zero
  else if (is_vowel a && is_vowel b) || keyboard_neighbors a b || sound_alike a b then COST_NEAR_SUBSTITUTE
  else COST_SUBSTITUTE.

Definition indel (pos len : nat) : f64 :=
  let base := if (pos =? len)%nat then COST_END_CHAR else COST_CHAR in
  if (pos =? 1)%nat then f64_add base FIRST_CHAR_PENALTY else base.

(** The table [d], indexed [d[i][j]]. *)
Definition table_get (d : list (list f64)) (i j : nat) : f64 := (d !!! i) !!! j.
Definition table_set (d : list (list f64)) (i j : nat) (v : f64) : list (list f64) :=
  <[i := <[j := v]> (d !!! i)]> d.

Definition weighted_cell (q c : list Z) (d : list (list f64)) (i j : nat) : f64 :=
  let at_ (l : list Z) (i : nat) : Z := l !!! i in
  let qi := at_ q (i - 1)%nat in
  let cj := at_ c (j - 1)%nat in
  let sub := substitute_cost qi cj in
  let sub :=
    if SFltb f64_zero sub && (i =? 1)%nat && (j =? 1)%nat && negb (sound_alike (at_ q 0%nat) (at_ c 0%nat))
    then f64_add sub FIRST_CHAR_PENALTY else sub in
  let v :=
    f64_min (f64_min (f64_add (table_get d (i - 1) j) (indel i (length q)))
                     (f64_add (table_get d i (j - 1)) (indel j (length c))))
            (f64_add (table_get d (i - 1) (j - 1)) sub) in
  if (2 <=? i)%nat && (2 <=? j)%nat && (qi =? at_ c (j - 2)%nat) && (at_ q (i - 2)%nat =? cj)
     && negb (qi =? at_ q (i - 2)%nat)
  then f64_min v (f64_add (table_get d (i - 2) (j - 2)) COST_TRANSPOSE) else v.

Definition weighted_distance (query candidate : str) : f64 :=
  let '(q, c) := (query, candidate) in
  let '(n, m) := (length q, length c) in
  let d := replicate (n + 1) (replicate (m + 1) f64_zero) in
  let d := foldl (fun d i => table_set d i 0 (f64_add (table_get d (i - 1) 0) (indel i n))) d (seq 1 n) in
  let d := foldl (fun d j => table_set d 0 j (f64_add (table_get d 0 (j - 1)) (indel j m))) d (seq 1 m) in
  let d := foldl (fun d i => foldl (fun d j => table_set d i j (weighted_cell q c d i j)) d (seq 1 m)) d (seq 1 n) in
  table_get d n m.

Section ranking.
Context {LG : Log10} {CT : CaseTables}.

Definition expansion_score (query candidate : str) (doc_freq : Z) : f64 :=
  f64_sub (f64_log10 (f64_of (Z.max doc_freq 1))) (f64_mul EDIT_WEIGHT (weighted_distance query candidate)).

(** [b.0.total_cmp(&a.0).then_with(|| a.1.term.cmp(&b.1.term))] is not [Greater]. *)
Definition scored_leb (a b : f64 * FuzzyExpansion) : bool :=
  match f64_total_cmp b.1 a.1 with
  | Eq => match str_compare (fe_term a.2) (fe_term b.2) with Gt => false | _ => true end
  | Lt => true
  | Gt => false
  end.

(** [scored.iter().position(..)] and [scored.remove(pos)]. *)
Fixpoint take_term (query : str) (scored : list (f64 * FuzzyExpansion))
    : option ((f64 * FuzzyExpansion) * list (f64 * FuzzyExpansion)) :=
  match scored with
  | [] => None
  | x :: scored' =>
    if bool_decide (fe_term x.2 = query) then Some (x, scored')
    else (fun '(y, rest) => (y, x :: rest)) <$> take_term query scored'
  end.

(** The loop over the corrections. *)
Fixpoint push_expansions (max_expansions : nat) (cutoff : f64)
    (scored selected : list (f64 * FuzzyExpansion)) : list (f64 * FuzzyExpansion) :=
  match scored with
  | [] => selected
  | (score, expansion) :: scored' =>
    if (max_expansions <=? length selected)%nat || SFltb score cutoff then selected
    else push_expansions max_expansions cutoff scored' (selected ++ [(score, expansion)])
  end.

Definition score_candidates (query : str) (candidates : list (str * Z * Z)) : list (f64 * FuzzyExpansion) :=
  (fun '(t, edits, df) => (expansion_score query t df, mkExpansion t edits df))
    <$> filter (fun '(_, _, df) => 0 < df) candidates.

Definition select_expansions (term : str) (candidates : list (str * Z * Z)) (max_expansions : nat)
    : list FuzzyExpansion :=
  if (max_expansions =? 0)%nat then []
  else
    let query := to_lowercase term in
    let scored := score_candidates query candidates in
    match scored with
    | [] => []
    | _ :: _ =>
      let scored := stable_sort scored_leb scored in
      let '(selected, scored) :=
        match take_term query scored with Some (x, rest) => ([x], rest) | None => ([], scored) end in
      let selected :=
        match scored with
        | [] => selected
        | (best, _) :: _ => push_expansions max_expansions (f64_sub best SCORE_MARGIN) scored selected
        end in
      snd <$> stable_sort scored_leb selected
    end.

(** ** [FuzzyMatcher] *)

Definition FuzzyMatcher_new (term : str) (max_edits : Z) (prefix_length : nat) : LevenshteinAutomaton :=
  Lev_new [] (to_lowercase term) max_edits prefix_length.
Definition matcher_matches (automaton : LevenshteinAutomaton) (word : str) : bool :=
  if existsb is_uppercase word then bool_decide (is_Some (distance_to automaton (to_lowercase word)))
  else bool_decide (is_Some (distance_to automaton word)).
End ranking.

(** ** The walk over a transducer and the scan of a memtable *)

(** What [fst::Map::search_with_state] yields, as the crate documents it: the keys whose last
    state matches, in the order of the map, with their values and states. States that cannot
    match may be cut off. *)
Definition search_with_state (self : LevenshteinAutomaton) (map : list (list Z * Z))
    : list (list Z * Z * LevState) :=
  omap (fun '(key, v) =>
    let state := foldl (accept self) (start self) key in
    if is_match self state then Some (key, v, state) else None) map.

Lemma foldl_dead self bytes : foldl (accept self) Dead bytes = Dead.
Proof. by induction bytes. Qed.

(** Cutting a state off is sound: no key that goes on from it matches. *)
Lemma can_match_sound self state bytes :
  can_match state = false -> is_match self (foldl (accept self) state bytes) = false.
Proof.
  unfold can_match. intros H%negb_false_iff. apply bool_decide_eq_true in H as ->. by rewrite foldl_dead.
Qed.

Lemma run_bytes_foldl self state bytes :
  run_bytes self state bytes ≫= distance self = distance self (foldl (accept self) state bytes).
Proof.
  revert state. induction bytes as [|b bytes IH]; intros state; [done|]. cbn [run_bytes foldl].
  destruct (accept self state b) eqn:Ha; [by rewrite foldl_dead|apply IH|apply IH].
Qed.

Section candidates.
Context (kp : list Z) (term : str) (max_edits : Z) (p : nat).
Context (Hk : 0 <= max_edits) (Hterm : Forall is_char term).
Local Abbreviation aut kp := (Lev_new kp term max_edits p).

Definition short (w : str) : Prop := Forall is_char w /\ zlen w < 2 ^ 32.

Lemma distance_to_key w :
  short w -> distance (aut kp) (foldl (accept (aut kp)) (start (aut kp)) (kp ++ utf8 w)) = distance_to (aut []) w.
Proof using Hk Hterm.
  intros [Hw Hl]. rewrite <-run_bytes_foldl, key_distance by done.
  unfold distance_to. rewrite <-(app_nil_l (utf8 w)), key_distance by done. done.
Qed.

Lemma collect_fst_iter limit (v : str -> Z) terms out :
  Forall short terms ->
  collect_fst_candidates (aut kp) limit (search_with_state (aut kp) ((fun t => (kp ++ utf8 t, v t)) <$> terms)) out =
  collect_iter_candidates (aut []) limit terms out.
Proof using Hk Hterm.
  intros Ht. revert out. induction Ht as [|t terms [Hc Hl] Ht IH]; intros out; [done|].
  unfold search_with_state in *. cbn [fmap list_fmap omap list_omap collect_iter_candidates].
  cbv zeta. unfold is_match. rewrite distance_to_key by done.
  destruct (distance_to (aut []) t) as [d|] eqn:Hd; [|by rewrite bool_decide_eq_false_2 by (intros [? ?]; done)].
  rewrite bool_decide_eq_true_2 by done. cbn [collect_fst_candidates]. rewrite distance_to_key, Hd by done.
  replace (drop (lev_key_prefix_len (aut kp)) (kp ++ utf8 t)) with (utf8 t)
    by (cbn [lev_key_prefix_len Lev_new split_prefix]; by rewrite drop_app_length).
  rewrite from_utf8_utf8 by done. destruct (out !! t); [apply IH|]. destruct (limit <=? size out)%nat; [done|apply IH].
Qed.
End candidates.

Section collect.
Context (self : LevenshteinAutomaton) (limit : nat).

(** The map holds terms of the list with their distances, and all of them unless the limit was
    reached. *)
Lemma collect_iter_spec terms seen out :
  (forall t d, out !! t = Some d -> t ∈ seen /\ distance_to self t = Some d) ->
  (forall t d, t ∈ seen -> distance_to self t = Some d -> out !! t = Some d) ->
  (size out <= limit)%nat ->
  let '(out', stopped) := collect_iter_candidates self limit terms out in
  (forall t d, out' !! t = Some d -> t ∈ seen ++ terms /\ distance_to self t = Some d) /\
  (size out' <= limit)%nat /\
  (if stopped then size out' = limit
   else forall t d, t ∈ seen ++ terms -> distance_to self t = Some d -> out' !! t = Some d).
Proof.
  revert seen out. induction terms as [|t terms IH]; intros seen out Hs Hc Hl; cbn [collect_iter_candidates].
  { rewrite app_nil_r. done. }
  replace (seen ++ t :: terms) with ((seen ++ [t]) ++ terms) by by rewrite <-app_assoc.
  destruct (distance_to self t) as [d|] eqn:Hd.
  2: { apply IH; [| |done].
    - intros u e Hu. destruct (Hs u e Hu). split; [|done]. apply elem_of_app. by left.
    - intros u e [Hu|Hu%list_elem_of_singleton]%elem_of_app He; [by apply Hc|congruence]. }
  destruct (out !! t) as [d'|] eqn:Ho.
  - assert (d' = d) as -> by (destruct (Hs _ _ Ho); congruence). rewrite Z.min_id, insert_id by done.
    apply IH; [| |done].
    + intros u e Hu. destruct (Hs u e Hu). split; [|done]. apply elem_of_app. by left.
    + intros u e [Hu|Hu%list_elem_of_singleton]%elem_of_app He; [by apply Hc|congruence].
  - destruct (Nat.leb_spec limit (size out)) as [Hle|Hlt].
    { split_and!; [|done|lia]. intros u e Hu. destruct (Hs u e Hu). split; [|done].
      rewrite <-app_assoc. apply elem_of_app. by left. }
    apply IH.
    + intros u e [[<- <-]|[Hne Hu]]%lookup_insert_Some.
      * split; [|done]. apply elem_of_app. right. by apply list_elem_of_singleton.
      * destruct (Hs u e Hu). split; [|done]. apply elem_of_app. by left.
    + intros u e [Hu|Hu%list_elem_of_singleton]%elem_of_app He.
      * apply lookup_insert_Some. right. pose proof (Hc _ _ Hu He). split; [congruence|done].
      * subst u. rewrite lookup_insert_eq. congruence.
    + rewrite map_size_insert_None by done. lia.
Qed.
End collect.

(** Gathering the candidates of a fuzzy term is correct, from a segment and from a memtable:
    the walk over the transducer of a field and the scan of the same terms give the same map and
    the same truncation flag; every gathered term is a term of the index, stands with its edit
    distance and is within the budget; the map never exceeds the limit; and when the walk was not
    cut short by the limit, it holds every term that matches. *)
Theorem candidates_correct kp term max_edits p limit (v : str -> Z) terms :
  0 <= max_edits -> Forall is_char term -> Forall short terms ->
  let matches t d := exists w' n, t = take p term ++ w' /\ distance_is w' (drop p term) n /\
    d = Z.of_nat n /\ d <= Z.min max_edits MAX_SUPPORTED_EDITS in
  let '(out, stopped) := collect_iter_candidates (Lev_new [] term max_edits p) limit terms ∅ in
  collect_fst_candidates (Lev_new kp term max_edits p) limit
    (search_with_state (Lev_new kp term max_edits p) ((fun t => (kp ++ utf8 t, v t)) <$> terms)) ∅ = (out, stopped) /\
  (forall t d, out !! t = Some d -> t ∈ terms /\ matches t d) /\
  (size out <= limit)%nat /\
  (if stopped then size out = limit else forall t d, t ∈ terms -> matches t d -> out !! t = Some d).
Proof.
  intros Hk Hterm Hts matches. rewrite collect_fst_iter by done.
  pose proof (collect_iter_spec (Lev_new [] term max_edits p) limit terms [] ∅) as Hspec.
  assert (Hiff : forall t d, t ∈ terms -> distance_to (Lev_new [] term max_edits p) t = Some d <-> matches t d).
  { intros t d Ht. rewrite Forall_forall in Hts. destruct (Hts t Ht). by apply distance_to_spec. }
  specialize (Hspec ltac:(done) ltac:(by intros ? ? ?%elem_of_nil) ltac:(rewrite map_size_empty; lia)).
  destruct (collect_iter_candidates _ _ _ _) as [out stopped]. cbn [app] in Hspec.
  destruct Hspec as (H1 & H2 & H3). split_and!; [done| |done|].
  - intros t d Ho. destruct (H1 t d Ho). split; [done|]. by apply Hiff.
  - destruct stopped; [done|]. intros t d Ht Hm. apply H3; [done|]. by apply Hiff.
Qed.

(** Terms of three letters around "cat", one edit, no prefix: "cat" and "cart" are gathered. *)
Lemma candidates_correct_witness :
  let terms := [[99; 97; 114; 116]; [99; 97; 116]; [100; 111; 103]] in
  let r := collect_iter_candidates (Lev_new [] [99; 97; 116] 1 0) 10 terms ∅ in
  r.1 !! [99; 97; 114; 116] = Some 1 /\ r.2 = false /\
  forall t d, r.1 !! t = Some d -> t ∈ terms.
Proof.
  intros terms r. split_and!; [by vm_compute|by vm_compute|].
  pose proof (candidates_correct [7] [99; 97; 116] 1 0 10 (fun _ => 0) terms ltac:(lia)
    ltac:(by apply (bool_decide_unpack _)) ltac:(repeat constructor; simpl; lia)) as H.
  unfold r. destruct (collect_iter_candidates _ _ _ _) as [out stopped]. destruct H as (_ & H & _).
  intros t d Ht. by apply (H t d).
Defined.

(** ** The choice of the expansions *)

Lemma scored_leb_spec a b :
  scored_leb a b = true <->
  total_key (f64_bits b.1) < total_key (f64_bits a.1) \/
  (total_key (f64_bits a.1) = total_key (f64_bits b.1) /\ str_compare (fe_term a.2) (fe_term b.2) <> Gt).
Proof.
  unfold scored_leb, f64_total_cmp.
  destruct (Z.compare_spec (total_key (f64_bits b.1)) (total_key (f64_bits a.1)));
    destruct (str_compare (fe_term a.2) (fe_term b.2)); split; intros; try done; try lia; naive_solver (congruence || lia).
Qed.

Lemma scored_leb_total a b : scored_leb a b = true \/ scored_leb b a = true.
Proof.
  rewrite !scored_leb_spec, (str_compare_antisym (fe_term a.2)).
  destruct (Z.lt_total (total_key (f64_bits a.1)) (total_key (f64_bits b.1))) as [?|[->|?]]; [auto| |auto].
  destruct (str_compare (fe_term a.2) (fe_term b.2)); naive_solver.
Qed.

Lemma str_compare_ge_trans a b c : str_compare a b <> Gt -> str_compare b c <> Gt -> str_compare a c <> Gt.
Proof.
  destruct (str_compare a b) eqn:H1, (str_compare b c) eqn:H2; try done; intros _ _.
  - apply str_compare_eq in H1 as ->. apply str_compare_eq in H2 as ->. by rewrite str_compare_refl.
  - apply str_compare_eq in H1 as ->. congruence.
  - apply str_compare_eq in H2 as ->. congruence.
  - by rewrite (str_compare_lt_trans _ _ _ H1 H2).
Qed.

Lemma scored_leb_trans a b c : scored_leb a b = true -> scored_leb b c = true -> scored_leb a c = true.
Proof.
  rewrite !scored_leb_spec. intros [H1|[H1 H1']] [H2|[H2 H2']]; try (left; lia).
  right. split; [lia|]. by eapply str_compare_ge_trans.
Qed.

Lemma scored_leb_antisym a b : scored_leb a b = true -> scored_leb b a = true -> fe_term a.2 = fe_term b.2.
Proof.
  rewrite !scored_leb_spec, (str_compare_antisym (fe_term a.2)). intros [H1|[H1 H1']] [H2|[H2 H2']]; try lia.
  apply str_compare_eq. by destruct (str_compare (fe_term a.2) (fe_term b.2)).
Qed.

(** Sorting entries with different terms does not depend on their order. *)
Lemma scored_sort_perm l l' :
  NoDup ((fe_term ∘ snd) <$> l) -> l ≡ₚ l' -> stable_sort scored_leb l = stable_sort scored_leb l'.
Proof.
  intros Hnd Hp. apply (StronglySorted_unique_strong (fun a b => scored_leb a b = true)).
  - intros x y Hx Hy H1 H2. rewrite stable_sort_perm in Hx, Hy. rewrite <-Hp in Hy.
    apply list_elem_of_lookup in Hx as [i Hi]. apply list_elem_of_lookup in Hy as [j Hj].
    assert (i = j) as ->; [|congruence].
    eapply NoDup_lookup; [exact Hnd|by rewrite list_lookup_fmap, Hi|]. rewrite list_lookup_fmap, Hj. simpl.
    f_equal. symmetry. by apply scored_leb_antisym.
  - apply stable_sort_sorted; [apply scored_leb_total|apply scored_leb_trans].
  - apply stable_sort_sorted; [apply scored_leb_total|apply scored_leb_trans].
  - by rewrite !stable_sort_perm.
Qed.

Lemma take_term_spec query l :
  match take_term query l with
  | Some (x, rest) => fe_term x.2 = query /\ exists l1 l2, l = l1 ++ x :: l2 /\ rest = l1 ++ l2
  | None => Forall (fun x => fe_term x.2 <> query) l
  end.
Proof.
  induction l as [|x l IH]; [constructor|]. cbn [take_term]. case_bool_decide as Hx.
  { split; [done|]. by exists [], l. }
  destruct (take_term query l) as [[y rest]|]; cbn.
  - destruct IH as (Hy & l1 & l2 & -> & ->). split; [done|]. by exists (x :: l1), l2.
  - by constructor.
Qed.

(** The loop keeps a prefix. *)
Lemma push_expansions_take max cutoff l sel :
  (length sel <= max)%nat ->
  exists n, push_expansions max cutoff l sel = sel ++ take n l /\ (length (sel ++ take n l) <= max)%nat.
Proof.
  revert sel. induction l as [|[s e] l IH]; intros sel Hl; cbn [push_expansions].
  { exists 0%nat. by rewrite app_nil_r. }
  destruct (Nat.leb_spec max (length sel)); cbn [orb]; [exists 0%nat; by rewrite app_nil_r|].
  destruct (SFltb s cutoff); [exists 0%nat; by rewrite app_nil_r|].
  destruct (IH (sel ++ [(s, e)])) as (n & -> & Hn); [rewrite length_app; simpl; lia|].
  exists (S n). rewrite <-app_assoc in *. done.
Qed.

Lemma StronglySorted_fmap_impl {A B} (R : A -> A -> Prop) (R' : B -> B -> Prop) (f : A -> B) l :
  (forall x y, x ∈ l -> y ∈ l -> R x y -> R' (f x) (f y)) -> StronglySorted R l -> StronglySorted R' (f <$> l).
Proof.
  intros Hf Hs. induction Hs as [|x l Hs IH Hx]; [constructor|]. constructor.
  - apply IH. intros. apply Hf; [by right|by right|done].
  - apply Forall_forall. intros y' (y & -> & Hy)%list_elem_of_fmap. rewrite Forall_forall in Hx.
    apply Hf; [left|by right|by apply Hx].
Qed.

Section select.
Context {LG : Log10} {CT : CaseTables}.

(** An expansion comes in front of another in the ranking for [query]. *)
Definition ranks_before (query : str) (a b : FuzzyExpansion) : Prop :=
  scored_leb (expansion_score query (fe_term a) (fe_doc_freq a), a)
             (expansion_score query (fe_term b) (fe_doc_freq b), b) = true.

Lemma elem_of_score_candidates query cands x :
  x ∈ score_candidates query cands <->
  x.1 = expansion_score query (fe_term x.2) (fe_doc_freq x.2) /\
  (fe_term x.2, fe_edits x.2, fe_doc_freq x.2) ∈ cands /\ 0 < fe_doc_freq x.2.
Proof.
  unfold score_candidates. rewrite list_elem_of_fmap. split.
  - intros ([[t e] df] & -> & [Hdf Hin]%list_elem_of_filter). done.
  - intros (Hs & Hin & Hdf). destruct x as [sc [t e df]]. simpl in *. exists (t, e, df). split; [by f_equal|].
    by apply list_elem_of_filter.
Qed.

Lemma score_candidates_nodup query cands :
  NoDup ((fst ∘ fst) <$> cands) -> NoDup ((fe_term ∘ snd) <$> score_candidates query cands).
Proof.
  intros Hnd. unfold score_candidates. rewrite <-list_fmap_compose.
  eapply sublist_NoDup; [exact Hnd|].
  replace (((fe_term ∘ snd) ∘ _) <$> filter _ cands) with ((fst ∘ fst) <$> filter (fun '(_, _, df) => 0 < df) cands).
  - apply fmap_sublist, sublist_filter.
  - apply list_fmap_ext. by intros ? [[??]?].
Qed.

Lemma select_shape term cands max :
  (0 < max)%nat ->
  let query := to_lowercase term in
  let sorted := stable_sort scored_leb (score_candidates query cands) in
  exists typed rest n,
    sorted ≡ₚ typed ++ rest /\ StronglySorted (fun a b => scored_leb a b = true) rest /\
    (typed = [] /\ Forall (fun x => fe_term x.2 <> query) sorted \/ exists x, typed = [x] /\ fe_term x.2 = query) /\
    (length (typed ++ take n rest) <= max)%nat /\
    select_expansions term cands max = snd <$> stable_sort scored_leb (typed ++ take n rest).
Proof.
  intros Hmax query sorted.
  assert (Hs : StronglySorted (fun a b => scored_leb a b = true) sorted)
    by (apply stable_sort_sorted; [apply scored_leb_total|apply scored_leb_trans]).
  unfold select_expansions. rewrite (proj2 (Nat.eqb_neq max 0)) by lia. cbv zeta. fold query.
  assert (Hso : stable_sort scored_leb (score_candidates query cands) = sorted) by done. clearbody sorted.
  destruct (score_candidates query cands) as [|y l] eqn:Hsc.
  { exists [], [], 0%nat. subst sorted. split_and!; [done|constructor| |simpl; lia|done]. left. split; [done|constructor]. }
  cbv beta iota. rewrite Hso. pose proof (take_term_spec query sorted) as Htt.
  assert (Hpush : forall rest sel, (length sel <= max)%nat -> exists n,
    match rest with [] => sel | (best, _) :: _ => push_expansions max (f64_sub best SCORE_MARGIN) rest sel end
      = sel ++ take n rest /\ (length (sel ++ take n rest) <= max)%nat).
  { intros [|[b e] rest] sel Hl; [exists 0%nat; by rewrite app_nil_r|]. by apply push_expansions_take. }
  destruct (take_term query sorted) as [[x rest]|]; cbv beta iota.
  - destruct Htt as (Hx & l1 & l2 & Heq & ->).
    destruct (Hpush (l1 ++ l2) [x]) as (n & -> & Hn); [done|]. exists [x], (l1 ++ l2), n. split_and!; [|..|done|done].
    + rewrite Heq. symmetry. exact (Permutation_middle l1 l2 x).
    + rewrite Heq in Hs. apply StronglySorted_app in Hs as (H12 & H1 & H2).
      apply StronglySorted_cons in H2 as [_ H2]. apply StronglySorted_app. split_and!; [|done|done].
      intros a b Ha Hb. apply H12; [done|]. by right.
    + right. by exists x.
  - destruct (Hpush sorted []) as (n & -> & Hn); [simpl; lia|]. exists [], sorted, n. split_and!; [done|done| |done|done].
    by left.
Qed.

Lemma select_perm term cands cands' max :
  NoDup ((fst ∘ fst) <$> cands) -> cands ≡ₚ cands' ->
  select_expansions term cands max = select_expansions term cands' max.
Proof.
  intros Hnd Hp. unfold select_expansions. destruct (max =? 0)%nat; [done|]. cbv zeta.
  assert (Hsp : score_candidates (to_lowercase term) cands ≡ₚ score_candidates (to_lowercase term) cands')
    by (unfold score_candidates; by rewrite Hp).
  rewrite <-(scored_sort_perm _ _ (score_candidates_nodup _ _ Hnd) Hsp).
  destruct (score_candidates (to_lowercase term) cands) as [|x l], (score_candidates (to_lowercase term) cands') as [|x' l'].
  - done.
  - by apply Permutation_nil_cons in Hsp.
  - symmetry in Hsp. by apply Permutation_nil_cons in Hsp.
  - done.
Qed.

(** The choice of the expansions of a fuzzy term, for candidates with different terms (the
    keys of the gathered map): at most [max_expansions] are kept, all of them candidates that
    occur in some document; the typed term itself is kept whenever it is such a candidate; the
    result is in ranking order, and a correction that is kept ranks in front of every candidate
    that is not; and the choice does not depend on the order in which the hash map yields the
    candidates, so every shard picks the same terms. *)
Theorem select_expansions_correct term cands max :
  NoDup ((fst ∘ fst) <$> cands) -> (0 < max)%nat ->
  let query := to_lowercase term in
  let r := select_expansions term cands max in
  let eligible e := (fe_term e, fe_edits e, fe_doc_freq e) ∈ cands /\ 0 < fe_doc_freq e in
  (length r <= max)%nat /\
  (forall e, e ∈ r -> eligible e) /\
  (forall e, eligible e -> fe_term e = query -> e ∈ r) /\
  StronglySorted (ranks_before query) r /\
  (forall e e', e ∈ r -> fe_term e <> query -> eligible e' -> e' ∉ r -> ranks_before query e e') /\
  (forall cands', cands ≡ₚ cands' -> select_expansions term cands' max = r).
Proof.
  intros Hnd Hmax query r eligible. destruct (select_shape term cands max Hmax) as (typed & rest & n & Hp & Hs & Htyped & Hlen & Hr).
  fold query in Hp, Htyped. rewrite (stable_sort_perm scored_leb (score_candidates query cands)) in Hp.
  fold r in Hr. set (kept := typed ++ take n rest) in *.
  assert (Hin : forall x, x ∈ typed ++ rest <-> x.1 = expansion_score query (fe_term x.2) (fe_doc_freq x.2) /\ eligible x.2)
    by (intros x; rewrite <-Hp; apply elem_of_score_candidates).
  assert (Hkept : forall x, x ∈ kept -> x ∈ typed ++ rest).
  { intros x [?|?%elem_of_take]%elem_of_app; apply elem_of_app; [by left|right]. destruct H as (i & ? & _). by eapply list_elem_of_lookup_2. }
  assert (Hr' : forall e, e ∈ r <-> (expansion_score query (fe_term e) (fe_doc_freq e), e) ∈ kept).
  { intros e. rewrite Hr, list_elem_of_fmap. setoid_rewrite (stable_sort_perm scored_leb kept). split.
    - intros ([s e'] & -> & Hx). pose proof (proj1 (Hin _) (Hkept _ Hx)) as [? _]. simpl in *. by subst.
    - intros Hx. by exists (expansion_score query (fe_term e) (fe_doc_freq e), e). }
  assert (Hlo : Forall (fun x => fe_term x.2 = query) typed)
    by (destruct Htyped as [[-> _]|(x & -> & ?)]; by repeat constructor).
  split_and!.
  - by rewrite Hr, length_fmap, (Permutation_length (stable_sort_perm scored_leb kept)).
  - intros e He%Hr'%Hkept%Hin. by apply He.
  - intros e He Hq. apply Hr'. set (x := (_, e)).
    assert (Hx : x ∈ typed ++ rest) by (by apply Hin). apply elem_of_app in Hx as [Hx|Hx]; [apply elem_of_app; by left|].
    exfalso. destruct Htyped as [[-> Hno]|(y & -> & Hy)].
    + rewrite Forall_forall in Hno. apply (Hno x); [|done]. by rewrite stable_sort_perm, Hp.
    + pose proof (score_candidates_nodup query cands Hnd) as Hnd'. rewrite Hp in Hnd'.
      apply NoDup_cons in Hnd' as [Hni _]. apply Hni. simpl. rewrite Hy, <-Hq. by apply (list_elem_of_fmap_2 (fe_term ∘ snd) rest x).
  - rewrite Hr. apply (StronglySorted_fmap_impl (fun a b => scored_leb a b = true));
      [|apply stable_sort_sorted; [apply scored_leb_total|apply scored_leb_trans]].
    intros x y Hx Hy. rewrite stable_sort_perm in Hx, Hy.
    apply Hkept, Hin in Hx as [Hx _]. apply Hkept, Hin in Hy as [Hy _].
    unfold ranks_before. rewrite <-Hx, <-Hy. by destruct x, y.
  - intros e e' He%Hr' Hq He' Hni. rewrite <-(take_drop n rest) in Hs. apply StronglySorted_app in Hs as (Hs & _ & _).
    apply Hs.
    + apply elem_of_app in He as [He|He]; [|done]. rewrite Forall_forall in Hlo. by specialize (Hlo _ He).
    + assert (Hx : (expansion_score query (fe_term e') (fe_doc_freq e'), e') ∈ typed ++ rest) by (by apply Hin).
      rewrite <-(take_drop n rest), app_assoc in Hx. apply elem_of_app in Hx as [Hx|Hx]; [|done].
      by apply Hr' in Hx.
  - intros cands' Hc. symmetry. by apply select_perm.
Qed.
End select.

(** Two candidates for "cats" (with "cat" in seven documents): both are kept, the typed term
    among them; the logarithm is constant and the words are in lower case already. *)
Lemma select_expansions_correct_witness :
  let LG : Log10 := fun _ => f64_zero in
  let CT : CaseTables := {| to_lowercase := id; is_uppercase := fun _ => false |} in
  mkExpansion [99; 97; 116; 115] 0 2 ∈ select_expansions [99; 97; 116; 115]
    [([99; 97; 116], 1, 7); ([99; 97; 116; 115], 0, 2)] 3.
Proof.
  intros LG CT.
  apply (select_expansions_correct [99; 97; 116; 115] [([99; 97; 116], 1, 7); ([99; 97; 116; 115], 0, 2)] 3);
    [by apply (bool_decide_unpack _)|lia| |done].
  split; [apply (bool_decide_unpack _); by vm_compute|done].
Defined.
