(* ===== verification/BinaryStore.v ===== *)
(** * The document store

    Models [crates/core-storage/src/binary_store.rs], [StoredDocument] and the trait of
    [document_store.rs] and [Format] of [core-protocol/src/format.rs]: the records of a segment,
    the store over its segments ([put], [put_batch], [get], [delete], [for_each_document],
    [sync]), opening it by a scan of all segments or from the saved maps, and the compaction of
    old segments.

    The directory of a store is a [SDisk]: its segment files by number, the temporary files of
    compactions and the maps file. Every call of the operating system succeeds unless a file is
    missing or too short; a crash is a separate step of [BinaryStoreCorrect]. The cache of
    documents evicts what it likes ([evict]). [bincode] is a parameter. *)
From Stdlib Require Import ZArith Lia SpecFloat String.
From stdpp Require Import base numbers list sorting gmap.
From S2P Require Import Prelude Types Utf8 Numeric Scorer Fuzzy FuzzyRank.
Local Open Scope Z_scope.
Local Open Scope io_scope.

Definition MAGIC : list Z := [66; 65; 78; 65; 78; 65; 95; 70].
Definition COMPACTED_MAGIC : list Z := [66; 65; 78; 65; 78; 65; 95; 68].
Definition MAPS_MAGIC : list Z := [67; 76; 77; 65; 80; 83; 48; 50].
Definition OP_PUT : Z := 1.
Definition OP_DELETE : Z := 2.
Definition DEFAULT_SEGMENT_SIZE : Z := 128 * 1024 * 1024.

(** ** Documents *)

Inductive Format : Type := JSON.
Definition format_to_u8 (f : Format) : Z := match f with JSON => 1 end.
Definition format_try_from (value : Z) : io_result Format :=
  if value =? 1 then Ok JSON else Err (IoError InvalidData "unknown document format id").
Record StoredDocument : Type := mkStoredDocument { external_id : str; internal_id : DocId; sd_format : Format; sd_source : list Z }.
#[global] Instance Format_eq_dec : EqDecision Format.
Proof. solve_decision. Defined.
#[global] Instance StoredDocument_eq_dec : EqDecision StoredDocument.
Proof. solve_decision. Defined.
Record DocLocation : Type := mkDocLocation { loc_internal_id : DocId; loc_offset : Z; loc_segment : Z; loc_len : Z }.
#[global] Instance DocLocation_eq_dec : EqDecision DocLocation.
Proof. solve_decision. Defined.

(** ** Reading and writing *)

Definition eof : io_error := IoError UnexpectedEof "failed to fill whole buffer".
Definition no_file : io_error := IoError NotFound "no such file".
(** [Read::read_exact]: the bytes and what is left of the reader. *)
Definition read_exact (n : Z) (r : list Z) : io_result (list Z * list Z) :=
  if zlen r <? n then Err eof else Ok (take (Z.to_nat n) r, drop (Z.to_nat n) r).
Definition read_u8 (r : list Z) : io_result (Z * list Z) := let! (b, r) := read_exact 1 r in Ok (from_le_bytes b, r).
Definition read_u32 (r : list Z) : io_result (Z * list Z) := let! (b, r) := read_exact 4 r in Ok (from_le_bytes b, r).
Definition read_u64 (r : list Z) : io_result (Z * list Z) := let! (b, r) := read_exact 8 r in Ok (from_le_bytes b, r).
Definition read_bytes (r : list Z) : io_result (list Z * list Z) := let! (len, r) := read_u32 r in read_exact len r.
Definition read_string (r : list Z) : io_result (str * list Z) :=
  let! (len, r) := read_u32 r in
  let! (b, r) := read_exact len r in
  match from_utf8 b with Some s => Ok (s, r) | None => Err (IoError InvalidData "invalid utf8 string") end.
Definition read_document (r : list Z) : io_result (StoredDocument * list Z) :=
  let! (external_id, r) := read_string r in
  let! (internal_id, r) := read_u64 r in
  let! (f, r) := read_u8 r in
  let! format := format_try_from f in
  let! (source, r) := read_bytes r in
  Ok (mkStoredDocument external_id internal_id format source, r).

Definition write_u8 (value : Z) : list Z := to_le_bytes 1 value.
Definition write_u32 (value : Z) : list Z := to_le_bytes 4 value.
Definition write_u64 (value : Z) : list Z := to_le_bytes 8 value.
Definition write_bytes (value : list Z) : list Z := write_u32 (wrap 32 (zlen value)) ++ value.
Definition write_string (value : str) : list Z := write_bytes (utf8 value).
Definition write_document (doc : StoredDocument) : list Z :=
  write_string (external_id doc) ++ write_u64 (internal_id doc) ++ write_u8 (format_to_u8 (sd_format doc)) ++ write_bytes (sd_source doc).

(** ** The directory *)

Record SDisk : Type := mkSDisk { dk_segments : gmap Z (list Z); dk_tmp : gmap Z (list Z); dk_maps : option (list Z) }.
Definition with_segment (disk : SDisk) (id : Z) (bytes : list Z) : SDisk := mkSDisk (<[id := bytes]> (dk_segments disk)) (dk_tmp disk) (dk_maps disk).
Definition remove_segment (disk : SDisk) (id : Z) : SDisk := mkSDisk (delete id (dk_segments disk)) (dk_tmp disk) (dk_maps disk).
Definition open_segment (disk : SDisk) (id : Z) : io_result (list Z) := io_of_option no_file (dk_segments disk !! id).
(** The numbers in the names of the files, in order. *)
Definition list_segment_ids (disk : SDisk) : list Z := sort_unstable (elements (dom (dk_segments disk))).
Definition segment_magic (disk : SDisk) (id : Z) : io_result (list Z) :=
  let! bytes := open_segment disk id in
  let! (magic, _) := read_exact 8 bytes in
  Ok magic.

Record BinaryDocumentStore : Type := mkStore {
  bs_docs : gmap str StoredDocument;
  bs_internal_to_external : gmap DocId str;
  bs_locations : gmap str DocLocation;
  bs_current_segment : Z;
  bs_next_segment_id : Z;
  bs_unsynced_from : Z;
  bs_highest_id : DocId
}.
(** The maps of a store and its highest id; the numbers of segments stay. *)
Definition with_maps (self : BinaryDocumentStore) (docs : gmap str StoredDocument) (i2e : gmap DocId str) (locations : gmap str DocLocation)
    (highest : DocId) : BinaryDocumentStore :=
  mkStore docs i2e locations (bs_current_segment self) (bs_next_segment_id self) (bs_unsynced_from self) highest.
Definition with_segments (self : BinaryDocumentStore) (current next unsynced : Z) : BinaryDocumentStore :=
  mkStore (bs_docs self) (bs_internal_to_external self) (bs_locations self) current next unsynced (bs_highest_id self).
(** The cache drops some of its entries. *)
Definition evict (self : BinaryDocumentStore) (gone : gset str) : BinaryDocumentStore :=
  with_maps self (filter (fun e => e.1 ∉ gone) (bs_docs self)) (bs_internal_to_external self) (bs_locations self) (bs_highest_id self).

(** ** Scanning *)

Definition apply_put (self : BinaryDocumentStore) (id : Z) (doc : StoredDocument) (offset len : Z) : BinaryDocumentStore :=
  let i2e := match bs_locations self !! external_id doc with
    | Some old => if loc_internal_id old =? internal_id doc then bs_internal_to_external self
                  else delete (loc_internal_id old) (bs_internal_to_external self)
    | None => bs_internal_to_external self
    end in
  with_maps self (delete (external_id doc) (bs_docs self)) (<[internal_id doc := external_id doc]> i2e)
    (<[external_id doc := mkDocLocation (internal_id doc) offset id len]> (bs_locations self)) (Z.max (bs_highest_id self) (internal_id doc)).
Definition apply_delete (self : BinaryDocumentStore) (external : str) (deleted : DocId) : BinaryDocumentStore :=
  let '(i2e, locations) := match bs_locations self !! external with
    | Some current => if loc_internal_id current <=? deleted
                      then (delete (loc_internal_id current) (bs_internal_to_external self), delete external (bs_locations self))
                      else (bs_internal_to_external self, bs_locations self)
    | None => (bs_internal_to_external self, bs_locations self)
    end in
  with_maps self (delete external (bs_docs self)) i2e locations (Z.max (bs_highest_id self) deleted).
Definition note_deleted (versions : gmap str DocId) (external : str) (deleted : DocId) : gmap str DocId :=
  <[external := match versions !! external with Some known => Z.max known deleted | None => deleted end]> versions.

(** The records of a reader that stands at byte [pos] of segment [id]. The result is the store, the
    deleted versions and, when the last record is cut short, the byte it starts at. Every record
    takes a byte, so the length is enough fuel. *)
Fixpoint scan_loop (fuel : nat) (id : Z) (may_end_torn : bool) (r : list Z) (pos : Z) (self : BinaryDocumentStore) (versions : gmap str DocId) :
    io_result (BinaryDocumentStore * gmap str DocId * option Z) :=
  match fuel with
  | O => Ok (self, versions, None)
  | S fuel =>
    match read_u8 r with
    | Err _ => Ok (self, versions, None)
    | Ok (op, r1) =>
      let torn e := if bool_decide (err_kind e = UnexpectedEof) && may_end_torn then Ok (self, versions, Some pos) else Err e in
      let past r' := pos + (zlen r - zlen r') in
      if op =? OP_PUT then
        match read_document r1 with
        | Err e => torn e
        | Ok (doc, r2) =>
          scan_loop fuel id may_end_torn r2 (past r2) (apply_put self id doc (past r1) (wrap 32 (past r2 - past r1))) versions
        end
      else if op =? OP_DELETE then
        match read_string r1 with
        | Err e => torn e
        | Ok (external, r2) =>
          match read_u64 r2 with
          | Err e => torn e
          | Ok (deleted, r3) =>
            scan_loop fuel id may_end_torn r3 (past r3) (apply_delete self external deleted) (note_deleted versions external deleted)
          end
        end
      else Err (IoError InvalidData "unknown document op")
    end
  end.
Definition scan_segment (disk : SDisk) (self : BinaryDocumentStore) (id : Z) (from : option Z) (versions : gmap str DocId) :
    io_result (SDisk * BinaryDocumentStore * gmap str DocId) :=
  let! magic := segment_magic disk id in
  let may_end_torn := bool_decide (magic = MAGIC) in
  let! bytes := open_segment disk id in
  let! start := match from with
    | Some offset => Ok offset
    | None =>
      let! (magic, _) := read_exact 8 bytes in
      if bool_decide (magic = MAGIC) || bool_decide (magic = COMPACTED_MAGIC) then Ok (zlen MAGIC)
      else Err (IoError InvalidData "bad document store magic")
    end in
  let r := drop (Z.to_nat start) bytes in
  let! (self, versions, cut) := scan_loop (length r) id may_end_torn r start self versions in
  match cut with
  | None => Ok (disk, self, versions)
  | Some record_start => Ok (with_segment disk id (take (Z.to_nat record_start) bytes), self, versions)
  end.
Fixpoint scan_segments (disk : SDisk) (self : BinaryDocumentStore) (segments : list (Z * option Z)) (versions : gmap str DocId) :
    io_result (SDisk * BinaryDocumentStore * gmap str DocId) :=
  match segments with
  | [] => Ok (disk, self, versions)
  | (id, from) :: segments =>
    let! (disk, self, versions) := scan_segment disk self id from versions in
    scan_segments disk self segments versions
  end.
Definition load (disk : SDisk) (self : BinaryDocumentStore) : io_result (SDisk * BinaryDocumentStore) :=
  let! (disk, self, _) := scan_segments disk self ((fun id => (id, None)) <$> list_segment_ids disk) ∅ in
  Ok (disk, self).

(** ** The saved maps *)

Record MapsFile : Type := mkMapsFile { mf_segment_ends : list (Z * Z); mf_entries : list (str * DocLocation); mf_highest_id : DocId }.
(** [bincode]: what it writes and reads back. *)
Class Bincode := { encode_maps : MapsFile -> list Z; decode_maps : list Z -> option MapsFile }.

Section store.
Context {BC : Bincode}.

Definition segment_ends (disk : SDisk) : list (Z * Z) := (fun id => (id, zlen (default [] (dk_segments disk !! id)))) <$> list_segment_ids disk.
Definition save_maps (disk : SDisk) (locations : gmap str DocLocation) (highest_id : DocId) : SDisk :=
  mkSDisk (dk_segments disk) (dk_tmp disk)
    (Some (MAPS_MAGIC ++ encode_maps (mkMapsFile (segment_ends disk) (map_to_list locations) highest_id))).
Definition read_maps (disk : SDisk) : option MapsFile :=
  bytes ← dk_maps disk;
  if bool_decide (take 8 bytes = MAPS_MAGIC) then decode_maps (drop 8 bytes) else None.

(** The segments of the snapshot that are still there, each with where the snapshot ends; [None]
    when the snapshot does not describe the files. *)
Fixpoint check_ends (disk : SDisk) (in_use : list Z) (ends : list (Z * Z)) : option (list (Z * Z)) :=
  match ends with
  | [] => Some []
  | (id, end_) :: ends =>
    match dk_segments disk !! id with
    | Some bytes => if end_ <=? zlen bytes then cons (id, end_) <$> check_ends disk in_use ends else None
    | None => if bool_decide (id ∈ in_use) then None else check_ends disk in_use ends
    end
  end.
Definition load_entry (self : BinaryDocumentStore) (e : str * DocLocation) : BinaryDocumentStore :=
  with_maps self (bs_docs self) (<[loc_internal_id e.2 := e.1]> (bs_internal_to_external self)) (<[e.1 := e.2]> (bs_locations self))
    (Z.max (bs_highest_id self) (loc_internal_id e.2)).
(** The segments the snapshot does not know: an unfinished compaction is removed, the others are
    scanned. *)
Fixpoint scan_unknown (disk : SDisk) (self : BinaryDocumentStore) (known ids : list Z) (versions : gmap str DocId) : io_result (SDisk * BinaryDocumentStore) :=
  match ids with
  | [] => Ok (disk, self)
  | id :: ids =>
    if bool_decide (id ∈ known) then scan_unknown disk self known ids versions
    else
      let! magic := segment_magic disk id in
      if bool_decide (magic = COMPACTED_MAGIC) then scan_unknown (remove_segment disk id) self known ids versions
      else
        let! (disk, self, versions) := scan_segment disk self id None versions in
        scan_unknown disk self known ids versions
  end.
Definition load_from_maps (disk : SDisk) (self : BinaryDocumentStore) : io_result (bool * SDisk * BinaryDocumentStore) :=
  match read_maps disk with
  | None => Ok (false, disk, self)
  | Some saved =>
    let ids := list_segment_ids disk in
    match check_ends disk ((fun e => loc_segment e.2) <$> mf_entries saved) (mf_segment_ends saved) with
    | None => Ok (false, disk, self)
    | Some tails =>
      let self := with_maps self (bs_docs self) (bs_internal_to_external self) (bs_locations self) (Z.max (bs_highest_id self) (mf_highest_id saved)) in
      let self := fold_left load_entry (mf_entries saved) self in
      let! (disk, self, versions) := scan_segments disk self ((fun t => (t.1, Some t.2)) <$> tails) ∅ in
      let! (disk, self) := scan_unknown disk self (mf_segment_ends saved).*1 ids versions in
      Ok (true, disk, self)
    end
  end.

(** ** Opening *)

(** [segment_ids], with a first segment in an empty directory. *)
Definition first_segments (disk : SDisk) : SDisk * list Z :=
  match list_segment_ids disk with
  | [] => (with_segment disk 0 MAGIC, [0])
  | ids => (disk, ids)
  end.
Definition new_store (ids : list Z) : BinaryDocumentStore :=
  let current := List.last ids 0 in
  mkStore ∅ ∅ ∅ current (wrap 32 (fold_right Z.max 0 ids + 1)) current 0.
(** New writes go to the newest append segment, never into a compaction output. *)
Definition append_segment (disk : SDisk) (self : BinaryDocumentStore) : io_result (SDisk * BinaryDocumentStore) :=
  let fresh :=
    let id := bs_next_segment_id self in
    Ok (with_segment disk id MAGIC, with_segments self id (wrap 32 (id + 1)) id) in
  match last (list_segment_ids disk) with
  | Some id =>
    let! magic := segment_magic disk id in
    if bool_decide (magic = MAGIC) then Ok (disk, with_segments self id (bs_next_segment_id self) id) else fresh
  | None => fresh
  end.
Definition store_open (disk : SDisk) : io_result (SDisk * BinaryDocumentStore) :=
  let '(disk, ids) := first_segments disk in
  let! (disk, self) := load disk (new_store ids) in
  append_segment disk self.
Definition open_with_maps (disk : SDisk) : io_result (SDisk * BinaryDocumentStore) :=
  let '(disk, ids) := first_segments disk in
  let! (loaded, disk, self) := load_from_maps disk (new_store ids) in
  let! (disk, self) :=
    if loaded then Ok (disk, self) else load disk (with_maps self (bs_docs self) ∅ ∅ (bs_highest_id self)) in
  append_segment disk self.

(** ** Writing *)

Definition append (disk : SDisk) (id : Z) (bytes : list Z) : io_result (SDisk * Z) :=
  let! old := open_segment disk id in Ok (with_segment disk id (old ++ bytes), zlen old).
Definition maybe_rotate_segment (disk : SDisk) (self : BinaryDocumentStore) : io_result (SDisk * BinaryDocumentStore) :=
  let! bytes := open_segment disk (bs_current_segment self) in
  if zlen bytes <? DEFAULT_SEGMENT_SIZE then Ok (disk, self)
  else
    let next_id := bs_next_segment_id self in
    Ok (with_segment disk next_id MAGIC, with_segments self next_id (wrap 32 (next_id + 1)) (bs_unsynced_from self)).
Definition append_put (disk : SDisk) (self : BinaryDocumentStore) (doc : StoredDocument) : io_result (SDisk * BinaryDocumentStore * DocLocation) :=
  let segment := bs_current_segment self in
  let! (disk, start) := append disk segment (write_u8 OP_PUT ++ write_document doc) in
  let offset := start + zlen (write_u8 OP_PUT) in
  let! (disk, self) := maybe_rotate_segment disk self in
  Ok (disk, self, mkDocLocation (internal_id doc) offset segment (wrap 32 (zlen (write_document doc)))).
Definition append_delete (disk : SDisk) (self : BinaryDocumentStore) (external : str) (internal : DocId) : io_result (SDisk * BinaryDocumentStore) :=
  let! (disk, _) := append disk (bs_current_segment self) (write_u8 OP_DELETE ++ write_string external ++ write_u64 internal) in
  maybe_rotate_segment disk self.

Definition put (disk : SDisk) (self : BinaryDocumentStore) (doc : StoredDocument) : io_result (SDisk * BinaryDocumentStore) :=
  let! (disk, self, location) := append_put disk self doc in
  Ok (disk, with_maps self (<[external_id doc := doc]> (bs_docs self)) (<[internal_id doc := external_id doc]> (bs_internal_to_external self))
    (<[external_id doc := location]> (bs_locations self)) (Z.max (bs_highest_id self) (internal_id doc))).
(** One document of a batch; the writer stands at byte [position]. *)
Definition batch_step (segment : Z) (st : list Z * Z * BinaryDocumentStore) (doc : StoredDocument) : list Z * Z * BinaryDocumentStore :=
  let '(out, position, self) := st in
  let record := write_document doc in
  let doc_offset := position + zlen (write_u8 OP_PUT) in
  (out ++ write_u8 OP_PUT ++ record, doc_offset + zlen record,
   with_maps self (<[external_id doc := doc]> (bs_docs self)) (<[internal_id doc := external_id doc]> (bs_internal_to_external self))
     (<[external_id doc := mkDocLocation (internal_id doc) doc_offset segment (wrap 32 (zlen record))]> (bs_locations self)) (bs_highest_id self)).
(** The file is created when it is missing. *)
Definition put_batch (disk : SDisk) (self : BinaryDocumentStore) (docs : list StoredDocument) : io_result (SDisk * BinaryDocumentStore) :=
  let segment := bs_current_segment self in
  let old := default [] (dk_segments disk !! segment) in
  let '(out, _, self) := fold_left (batch_step segment) docs ([], zlen old, self) in
  maybe_rotate_segment (with_segment disk segment (old ++ out)) self.
Definition contains (self : BinaryDocumentStore) (external : str) : bool := bool_decide (is_Some (bs_locations self !! external)).
Definition read_document_at (disk : SDisk) (segment offset : Z) : io_result StoredDocument :=
  let! bytes := open_segment disk segment in
  let! (doc, _) := read_document (drop (Z.to_nat offset) bytes) in
  Ok doc.
Definition get (disk : SDisk) (self : BinaryDocumentStore) (external : str) : io_result (option StoredDocument * BinaryDocumentStore) :=
  match bs_docs self !! external with
  | Some doc => Ok (Some doc, self)
  | None =>
    match bs_locations self !! external with
    | None => Ok (None, self)
    | Some loc =>
      let! doc := read_document_at disk (loc_segment loc) (loc_offset loc) in
      Ok (Some doc, with_maps self (<[external := doc]> (bs_docs self)) (bs_internal_to_external self) (bs_locations self) (bs_highest_id self))
    end
  end.
Definition store_delete (disk : SDisk) (self : BinaryDocumentStore) (external : str) : io_result (SDisk * BinaryDocumentStore) :=
  match bs_locations self !! external with
  | None => Ok (disk, self)
  | Some loc =>
    let! (disk, self) := append_delete disk self external (loc_internal_id loc) in
    Ok (disk, with_maps self (delete external (bs_docs self)) (delete (loc_internal_id loc) (bs_internal_to_external self))
      (delete external (bs_locations self)) (bs_highest_id self))
  end.
Definition max_internal_id (self : BinaryDocumentStore) : DocId := bs_highest_id self.
Definition document_count (self : BinaryDocumentStore) : nat := size (bs_locations self).

(** The live documents of one segment, read from its start. *)
Fixpoint visit_loop {A} (fuel : nat) (self : BinaryDocumentStore) (id : Z) (f : A -> StoredDocument -> io_result A) (r : list Z) (pos : Z) (a : A) : io_result A :=
  match fuel with
  | O => Ok a
  | S fuel =>
    match read_u8 r with
    | Err _ => Ok a
    | Ok (op, r1) =>
      let past r' := pos + (zlen r - zlen r') in
      if op =? OP_PUT then
        let! (doc, r2) := read_document r1 in
        let is_current := match bs_locations self !! external_id doc with
          | Some loc => (loc_segment loc =? id) && (loc_offset loc =? past r1)
          | None => false
          end in
        let! a := if is_current then f a doc else Ok a in
        visit_loop fuel self id f r2 (past r2) a
      else if op =? OP_DELETE then
        let! (_, r2) := read_string r1 in
        let! (_, r3) := read_u64 r2 in
        visit_loop fuel self id f r3 (past r3) a
      else Err (IoError InvalidData "unknown document op")
    end
  end.
Fixpoint visit_segments {A} (disk : SDisk) (self : BinaryDocumentStore) (f : A -> StoredDocument -> io_result A) (ids : list Z) (a : A) : io_result A :=
  match ids with
  | [] => Ok a
  | id :: ids =>
    let! bytes := open_segment disk id in
    let! (magic, r) := read_exact 8 bytes in
    if bool_decide (magic = MAGIC) || bool_decide (magic = COMPACTED_MAGIC) then
      let! a := visit_loop (length r) self id f r 8 a in
      visit_segments disk self f ids a
    else Err (IoError InvalidData "bad document store magic")
  end.
Definition for_each_document {A} (disk : SDisk) (self : BinaryDocumentStore) (f : A -> StoredDocument -> io_result A) (a : A) : io_result A :=
  visit_segments disk self f (list_segment_ids disk) a.
Definition all_documents (disk : SDisk) (self : BinaryDocumentStore) : io_result (list StoredDocument) :=
  for_each_document disk self (fun docs doc => Ok (docs ++ [doc])) [].
(** The files that are synced, and whether the directory is. *)
Definition sync (disk : SDisk) (self : BinaryDocumentStore) : list Z * bool * BinaryDocumentStore :=
  let from := bs_unsynced_from self in
  let current := bs_current_segment self in
  (filter (fun id => from <= id <= current) (list_segment_ids disk), negb (current =? from),
   with_segments self current (bs_next_segment_id self) current).

(** ** Compaction *)

Record SegmentCompactionJob : Type := mkJob { jb_segment_ids : list Z; jb_next_segment_id : Z; jb_locations : list (str * DocLocation) }.
Record CompletedSegmentCompaction : Type := mkCompleted { cp_old_segment_ids : list Z; cp_new_segment_id : Z; cp_new_locations : list (str * DocLocation) }.

(** [live as f64 / total as f64] and the comparison with the threshold. *)
Definition dead_enough (threshold : f64) (live total : Z) : bool :=
  SFleb threshold (f64_sub (f64_of 1) (f64_div (f64_of live) (f64_of total))).
Definition live_bytes (self : BinaryDocumentStore) (id : Z) : Z :=
  foldr (fun e total => if loc_segment e.2 =? id then wrap 64 (total + (loc_len e.2 + 1)) else total) 0 (map_to_list (bs_locations self)).
Definition candidate (disk : SDisk) (self : BinaryDocumentStore) (threshold : f64) (id : Z) : option (Z * Z) :=
  if bs_current_segment self <=? id then None
  else
    bytes ← dk_segments disk !! id;
    let total := Z.max 0 (zlen bytes - zlen MAGIC) in
    if total =? 0 then None
    else
      let live := Z.min (live_bytes self id) total in
      if dead_enough threshold live total then Some (id, live) else None.
(** [selected_ids]: segments until the target size is reached. *)
Fixpoint select_segments (target running : Z) (selected : list Z) (candidates : list (Z * Z)) : list Z :=
  match candidates with
  | [] => selected
  | (id, live) :: candidates =>
    if negb (bool_decide (selected = [])) && (target <? running + live) then selected
    else
      let running := running + live in
      let selected := selected ++ [id] in
      if target <=? running then selected else select_segments target running selected candidates
  end.
Definition location_le (a b : str * DocLocation) : Prop :=
  loc_segment a.2 < loc_segment b.2 \/ (loc_segment a.2 = loc_segment b.2 /\ loc_offset a.2 <= loc_offset b.2).
#[global] Instance location_le_dec a b : Decision (location_le a b).
Proof. unfold location_le. apply _. Defined.
Definition plan_compaction (disk : SDisk) (self : BinaryDocumentStore) (threshold : f64) (target : Z) : option SegmentCompactionJob * BinaryDocumentStore :=
  match sort_by_key snd (omap (candidate disk self threshold) (list_segment_ids disk)) with
  | [] => (None, self)
  | candidates =>
    let selected := select_segments target 0 [] candidates in
    let entries := merge_sort location_le (filter (fun e => loc_segment e.2 ∈ selected) (map_to_list (bs_locations self))) in
    let id := bs_next_segment_id self in
    (Some (mkJob selected id entries), with_segments self (bs_current_segment self) (wrap 32 (id + 1)) (bs_unsynced_from self))
  end.

(** The bytes a location names, when they are a record of the document. *)
Definition copied_record (disk : SDisk) (external : str) (location : DocLocation) : io_result (list Z) :=
  let! bytes := open_segment disk (loc_segment location) in
  let! (record, _) := read_exact (loc_len location) (drop (Z.to_nat (loc_offset location)) bytes) in
  let id_bytes := utf8 external in
  if (zlen record <? 4) || negb (from_le_bytes (take 4 record) =? zlen id_bytes) ||
     negb (bool_decide (slice 4 (length id_bytes) record = id_bytes))
  then Err (IoError InvalidData "record does not belong to the document")
  else Ok record.
Fixpoint copy_records (disk : SDisk) (new_id : Z) (entries : list (str * DocLocation)) (out : list Z) (locations : list (str * DocLocation)) :
    io_result (list Z * list (str * DocLocation)) :=
  match entries with
  | [] => Ok (out, locations)
  | (external, location) :: entries =>
    let! record := copied_record disk external location in
    let out := out ++ write_u8 OP_PUT in
    copy_records disk new_id entries (out ++ record)
      (locations ++ [(external, mkDocLocation (loc_internal_id location) (zlen out) new_id (loc_len location))])
  end.
Definition run_segment_compaction (disk : SDisk) (job : SegmentCompactionJob) : io_result (SDisk * CompletedSegmentCompaction) :=
  let! (out, locations) := copy_records disk (jb_next_segment_id job) (jb_locations job) COMPACTED_MAGIC [] in
  Ok (mkSDisk (dk_segments disk) (<[jb_next_segment_id job := out]> (dk_tmp disk)) (dk_maps disk),
      mkCompleted (jb_segment_ids job) (jb_next_segment_id job) locations).

Definition install_location (old_ids : list Z) (st : gmap str DocLocation * nat) (e : str * DocLocation) : gmap str DocLocation * nat :=
  let '(locations, installed) := st in
  match locations !! e.1 with
  | Some current => if bool_decide (loc_segment current ∈ old_ids) then (<[e.1 := e.2]> locations, S installed) else (locations, installed)
  | None => (locations, installed)
  end.
(** The steps an install goes through on disk: the new file in place, the maps saved, the old files
    removed and the maps saved again. *)
Definition install_renamed (disk : SDisk) (completed : CompletedSegmentCompaction) : io_result SDisk :=
  let! bytes := io_of_option no_file (dk_tmp disk !! cp_new_segment_id completed) in
  Ok (with_segment (mkSDisk (dk_segments disk) (delete (cp_new_segment_id completed) (dk_tmp disk)) (dk_maps disk)) (cp_new_segment_id completed) bytes).
Definition install_segment_compaction (disk : SDisk) (self : BinaryDocumentStore) (completed : CompletedSegmentCompaction) :
    io_result (SDisk * BinaryDocumentStore * bool) :=
  let! disk := install_renamed disk completed in
  let '(locations, installed) := fold_left (install_location (cp_old_segment_ids completed)) (cp_new_locations completed) (bs_locations self, 0%nat) in
  let self := with_maps self (bs_docs self) (bs_internal_to_external self) locations (bs_highest_id self) in
  let disk := save_maps disk locations (bs_highest_id self) in
  let disk := fold_left remove_segment (cp_old_segment_ids completed) disk in
  let disk := save_maps disk locations (bs_highest_id self) in
  Ok (disk, self, (0 <? installed)%nat).
End store.
