(* ===== verification/BinaryStoreScan.v ===== *)
(** * Records and scans of the document store

    What the bytes of a segment stand for: a header and records one after another ([seg_bytes]).
    Reading gives back what was written, and a record that is cut short is always read as the end
    of the file ([reads]); so a scan finds the records that are whole ([scan_loop_spec]) and the
    store it makes has the locations of those records ([replay]). *)
From Stdlib Require Import ZArith Lia String.
From stdpp Require Import base numbers list sorting gmap.
From S2P Require Import Prelude Types Utf8 BinaryStore.
Local Open Scope Z_scope.
Local Open Scope io_scope.

(** ** Readers *)

(** [f] reads [a] from the bytes [e], and runs into the end of any part of them. *)
Definition reads {A} (f : list Z -> io_result (A * list Z)) (e : list Z) (a : A) : Prop :=
  (forall rest, f (e ++ rest) = Ok (a, rest)) /\ (forall p q, e = p ++ q -> q <> [] -> f p = Err eof).

Lemma record_reads_bind {A B} (f : list Z -> io_result (A * list Z)) (g : A -> list Z -> io_result (B * list Z)) e1 e2 a b :
  reads f e1 a -> reads (g a) e2 b -> reads (fun r => let! (x, r) := f r in g x r) (e1 ++ e2) b.
Proof.
  intros [Hf1 Hf2] [Hg1 Hg2]. split.
  - intros rest. rewrite <-(assoc_L (++)), Hf1. cbn. apply Hg1.
  - intros p q E Hq. apply app_eq_app in E as (l & [[-> E]|[-> E]]).
    + destruct l as [|x l]; [rewrite app_nil_r in *|by rewrite (Hf2 p (x :: l))]. cbn in E. subst q.
      rewrite <-(app_nil_r p), Hf1. cbn. by apply (Hg2 [] e2).
    + rewrite Hf1. cbn. by apply (Hg2 l q).
Qed.
Lemma record_reads_ret {A} (a : A) : reads (fun r => Ok (a, r)) [] a.
Proof. split; [done|]. intros p q E Hq. symmetry in E. by apply app_eq_nil in E as [_ ?]. Qed.
Lemma record_reads_map {A B} (f : list Z -> io_result (A * list Z)) (g : A -> B) e a :
  reads f e a -> reads (fun r => let! (x, r) := f r in Ok (g x, r)) e (g a).
Proof.
  intros Hf. rewrite <-(app_nil_r e). apply (record_reads_bind f (fun x r => Ok (g x, r)) e [] a (g a) Hf), record_reads_ret.
Qed.
Lemma record_reads_exact e n : zlen e = n -> reads (read_exact n) e e.
Proof.
  intros <-. unfold read_exact. split.
  - intros rest. rewrite length_app. destruct (Z.ltb_spec (zlen e + zlen rest) (zlen e)); [lia|].
    destruct (Z.ltb_spec (Z.of_nat (length e + length rest)) (zlen e)); [lia|]. rewrite Nat2Z.id, take_app_length, drop_app_length. done.
  - intros p q -> Hq. rewrite length_app. destruct (Z.ltb_spec (zlen p) (Z.of_nat (length p + length q))); [done|]. destruct q; [done|cbn in *; lia].
Qed.
Lemma record_reads_le n x : in_u (8 * Z.of_nat n) x ->
  reads (fun r => let! (b, r) := read_exact (Z.of_nat n) r in Ok (from_le_bytes b, r)) (to_le_bytes n x) x.
Proof.
  intros Hx. rewrite <-(from_to_le_bytes_id n x Hx) at 2. apply (record_reads_map (read_exact (Z.of_nat n)) from_le_bytes).
  apply record_reads_exact. by rewrite length_to_le_bytes.
Qed.
Lemma record_reads_u8 x : in_u 8 x -> reads read_u8 (write_u8 x) x.
Proof. apply (record_reads_le 1). Qed.
Lemma record_reads_u32 x : in_u 32 x -> reads read_u32 (write_u32 x) x.
Proof. apply (record_reads_le 4). Qed.
Lemma record_reads_u64 x : in_u 64 x -> reads read_u64 (write_u64 x) x.
Proof. apply (record_reads_le 8). Qed.
Lemma zlen_wrap {A} (l : list A) : zlen l < 2 ^ 32 -> wrap 32 (zlen l) = zlen l /\ in_u 32 (zlen l).
Proof. intros H. unfold wrap, in_u. split; [apply Z.mod_small; lia|lia]. Qed.
Lemma record_reads_bytes v : zlen v < 2 ^ 32 -> reads read_bytes (write_bytes v) v.
Proof.
  intros H. destruct (zlen_wrap v H) as [Hw Hu]. unfold read_bytes, write_bytes. rewrite Hw.
  apply (record_reads_bind read_u32 read_exact _ _ (zlen v)); [by apply record_reads_u32|by apply record_reads_exact].
Qed.
Lemma record_reads_string s : Forall is_char s -> zlen (utf8 s) < 2 ^ 32 -> reads read_string (write_string s) s.
Proof.
  intros Hs H. destruct (zlen_wrap (utf8 s) H) as [Hw Hu]. unfold read_string, write_string, write_bytes. rewrite Hw.
  apply (record_reads_bind read_u32 (fun len r => let! (b, r) := read_exact len r in
    match from_utf8 b with Some s => Ok (s, r) | None => Err (IoError InvalidData "invalid utf8 string") end) _ _ (zlen (utf8 s))); [by apply record_reads_u32|].
  assert (Hr := record_reads_bind (read_exact (zlen (utf8 s))) (fun b r =>
    match from_utf8 b with Some s => Ok (s, r) | None => Err (IoError InvalidData "invalid utf8 string") end) (utf8 s) [] (utf8 s) s).
  rewrite app_nil_r in Hr. apply Hr; [by apply record_reads_exact|]. rewrite from_utf8_utf8 by done. apply record_reads_ret.
Qed.

(** Documents that fit the format: the lengths are written in 32 bits. *)
Record doc_ok (d : StoredDocument) : Prop := {
  do_chars : Forall is_char (external_id d);
  do_internal : in_u 64 (internal_id d);
  do_len : zlen (write_document d) < 2 ^ 32
}.
Lemma write_string_len s : zlen (write_string s) = 4 + zlen (utf8 s).
Proof. unfold write_string, write_bytes, write_u32. rewrite length_app, length_to_le_bytes. lia. Qed.
Lemma write_document_len d : zlen (write_document d) = 17 + zlen (utf8 (external_id d)) + zlen (sd_source d).
Proof.
  unfold write_document. rewrite !length_app. pose proof (write_string_len (external_id d)). unfold write_u64, write_u8, write_bytes, write_u32.
  rewrite length_app, !length_to_le_bytes. lia.
Qed.
Lemma record_reads_document d : doc_ok d -> reads read_document (write_document d) d.
Proof.
  intros [Hc Hi Hl]. rewrite write_document_len in Hl. destruct d as [ext int fmt src]. unfold write_document, read_document. cbn [external_id internal_id sd_format sd_source] in *.
  apply (record_reads_bind read_string (fun external_id r => let! (internal_id, r) := read_u64 r in let! (f, r) := read_u8 r in
    let! format := format_try_from f in let! (source, r) := read_bytes r in Ok (mkStoredDocument external_id internal_id format source, r)) _ _ ext).
  { apply record_reads_string; [done|lia]. }
  apply (record_reads_bind read_u64 (fun internal_id r => let! (f, r) := read_u8 r in
    let! format := format_try_from f in let! (source, r) := read_bytes r in Ok (mkStoredDocument ext internal_id format source, r)) _ _ int).
  { by apply record_reads_u64. }
  apply (record_reads_bind read_u8 (fun f r =>
    let! format := format_try_from f in let! (source, r) := read_bytes r in Ok (mkStoredDocument ext int format source, r)) _ _ (format_to_u8 fmt)).
  { apply record_reads_u8. by destruct fmt. }
  destruct fmt. cbn [format_to_u8 io_bind]. change (format_try_from 1) with (Ok JSON). cbn [io_bind]. apply (record_reads_map read_bytes (fun source => mkStoredDocument ext int JSON source)). apply record_reads_bytes. lia.
Qed.

(** C35: a record of a document that fits the format (its identifier is text, its id has 64 bits, its
    lengths 32) is read back as it was written, with what follows it left to read; a record that is
    cut short anywhere is an end of file, never another document. *)
Theorem document_record_roundtrip doc :
  doc_ok doc ->
  (forall rest, read_document (write_document doc ++ rest) = Ok (doc, rest)) /\
  (forall part rest, write_document doc = part ++ rest -> rest <> [] -> read_document part = Err (IoError UnexpectedEof "failed to fill whole buffer")).
Proof. intros H. apply (record_reads_document doc H). Qed.

(** ** Records *)

Inductive record : Type := RPut (doc : StoredDocument) | RDel (external : str) (internal : DocId).
Definition enc (r : record) : list Z :=
  match r with
  | RPut doc => write_u8 OP_PUT ++ write_document doc
  | RDel external internal => write_u8 OP_DELETE ++ write_string external ++ write_u64 internal
  end.
Definition record_ok (r : record) : Prop :=
  match r with
  | RPut doc => doc_ok doc
  | RDel external internal => Forall is_char external /\ zlen (utf8 external) < 2 ^ 32 /\ in_u 64 internal
  end.
Definition encs (rs : list record) : list Z := concat (enc <$> rs).

#[global] Arguments encs : simpl never.
#[global] Arguments write_document : simpl never.
#[global] Arguments write_u8 : simpl never.
#[global] Arguments write_string : simpl never.
#[global] Arguments write_u64 : simpl never.

Lemma u8_len x : length (write_u8 x) = 1%nat.
Proof. done. Qed.
Lemma encs_app a b : encs (a ++ b) = encs a ++ encs b.
Proof. unfold encs. by rewrite fmap_app, concat_app. Qed.
Lemma enc_pos r : 0 < zlen (enc r).
Proof. destruct r; cbn [enc]; rewrite !length_app; unfold write_u8; rewrite !length_to_le_bytes; lia. Qed.
Lemma encs_prefix_inj a b a' b' : a ++ b = a' ++ b' -> zlen (encs a) = zlen (encs a') -> a = a' /\ b = b'.
Proof.
  intros E Hl. apply app_eq_app in E as (l & [[-> ->]|[-> ->]]); rewrite encs_app, length_app in Hl; destruct l as [|r l]; try (by rewrite app_nil_r);
    change (encs (r :: l)) with (enc r ++ encs l) in Hl; rewrite length_app in Hl; pose proof (enc_pos r); lia.
Qed.

(** ** What a record does *)

(** The effect on the locations of a record that starts at byte [pos] of segment [id]. *)
Definition record_step (id pos : Z) (r : record) (L : gmap str DocLocation) : gmap str DocLocation :=
  match r with
  | RPut doc => <[external_id doc := mkDocLocation (internal_id doc) (pos + 1) id (wrap 32 (zlen (write_document doc)))]> L
  | RDel external internal =>
    match L !! external with Some current => if loc_internal_id current <=? internal then delete external L else L | None => L end
  end.
Fixpoint replay (id pos : Z) (rs : list record) (L : gmap str DocLocation) : gmap str DocLocation :=
  match rs with [] => L | r :: rs => replay id (pos + zlen (enc r)) rs (record_step id pos r L) end.
Lemma replay_app id pos a b L : replay id pos (a ++ b) L = replay id (pos + zlen (encs a)) b (replay id pos a L).
Proof.
  revert pos L. induction a as [|r a IH]; intros pos L; cbn [replay app]; [by rewrite Z.add_0_r|]. rewrite IH. change (encs (r :: a)) with (enc r ++ encs a).
  rewrite length_app. f_equal. lia.
Qed.

(** Stores that differ in their maps only. *)
Definition same_segments (s s' : BinaryDocumentStore) : Prop :=
  bs_current_segment s' = bs_current_segment s /\ bs_next_segment_id s' = bs_next_segment_id s /\ bs_unsynced_from s' = bs_unsynced_from s.
#[global] Instance same_segments_preorder : PreOrder same_segments.
Proof. split; [done|]. intros a b c (?&?&?) (?&?&?). unfold same_segments. split_and!; congruence. Qed.
Definition scanned (s s' : BinaryDocumentStore) (L : gmap str DocLocation) : Prop :=
  bs_locations s' = L /\ same_segments s s' /\ bs_docs s' ⊆ bs_docs s /\ bs_highest_id s <= bs_highest_id s'.

Lemma apply_put_scanned s id doc pos :
  scanned s (apply_put s id doc (pos + 1) (wrap 32 (zlen (write_document doc)))) (record_step id pos (RPut doc) (bs_locations s)).
Proof. unfold scanned, apply_put. cbn. split_and!; try done; [apply delete_subseteq|lia]. Qed.
Lemma apply_delete_scanned s id external internal pos :
  scanned s (apply_delete s external internal) (record_step id pos (RDel external internal) (bs_locations s)).
Proof.
  unfold scanned, apply_delete. cbn. destruct (bs_locations s !! external) as [current|]; [destruct (loc_internal_id current <=? internal)|]; cbn;
    (split_and!; try done; [apply delete_subseteq|lia]).
Qed.
Lemma scanned_trans a b c L L' : scanned a b L -> scanned b c L' -> scanned a c L'.
Proof. intros (_ & H1 & H2 & H3) (? & H4 & H5 & H6). split_and!; [done|by etransitivity|by etransitivity|lia]. Qed.

Lemma cons_eq_inv {A} (x y : A) l k : x :: l = y :: k -> x = y /\ l = k.
Proof. intros E. by injection E. Qed.
(** A part of a record at the end of the file: nothing, or a record cut short. *)
Definition torn (t : list Z) : Prop := t = [] \/ exists r q, record_ok r /\ q <> [] /\ t <> [] /\ enc r = t ++ q.

Lemma scan_loop_spec fuel id may rs t pos s versions :
  Forall record_ok rs -> torn t -> (t = [] \/ may = true) -> (length (encs rs ++ t) <= fuel)%nat ->
  exists s' versions', scan_loop fuel id may (encs rs ++ t) pos s versions =
    Ok (s', versions', if bool_decide (t = []) then None else Some (pos + zlen (encs rs))) /\ scanned s s' (replay id pos rs (bs_locations s)).
Proof.
  intros Hrs Ht Hmay. revert fuel pos s versions. induction Hrs as [|r rs Hr Hrs IH]; intros fuel pos s versions Hfuel.
  - cbn [encs fmap list_fmap concat app]. exists s, versions. split; [|by split_and!; [|reflexivity|reflexivity|lia]].
    change (encs []) with (@nil Z) in *. cbn [app] in *. rewrite Z.add_0_r. destruct Ht as [->|(r & q & Hr & Hq & Hne & E)].
    { rewrite bool_decide_eq_true_2 by done. by destruct fuel. }
    rewrite bool_decide_eq_false_2 by done. destruct Hmay as [->| ->]; [done|]. destruct fuel as [|fuel]; [destruct t; [done|cbn in Hfuel; lia]|].
    cbn [scan_loop]. destruct t as [|b t]; [done|]. destruct r as [doc|external internal].
    + destruct (record_reads_u8 OP_PUT) as [H8 _]; [done|]. cbn [enc] in E. change (write_u8 OP_PUT) with [OP_PUT] in *. cbn [app] in E. apply cons_eq_inv in E as [Eb E]. assert (E8 : read_u8 (b :: t) = Ok (OP_PUT, t)).
      { rewrite <-Eb. apply (H8 t). }
      rewrite E8. change (OP_PUT =? OP_PUT) with true. cbn iota. destruct (record_reads_document doc Hr) as [_ Hd]. rewrite (Hd t q E Hq). done.
    + destruct (record_reads_u8 OP_DELETE) as [H8 _]; [done|]. cbn [enc] in E. change (write_u8 OP_DELETE) with [OP_DELETE] in *. cbn [app] in E. apply cons_eq_inv in E as [Eb E]. assert (E8 : read_u8 (b :: t) = Ok (OP_DELETE, t)).
      { rewrite <-Eb. apply (H8 t). }
      rewrite E8. change (OP_DELETE =? OP_PUT) with false. change (OP_DELETE =? OP_DELETE) with true. cbn iota. destruct Hr as (Hc & Hl & Hi).
      destruct (record_reads_string external Hc Hl) as [Hs1 Hs2]. destruct (record_reads_u64 internal Hi) as [_ Hu]. apply app_eq_app in E as (l & [[E1 E2]|[-> E2]]).
      * destruct l as [|x l]; [|by rewrite (Hs2 t (x :: l) E1)]. rewrite app_nil_r in E1. subst t. cbn in E2.
        rewrite <-(app_nil_r (write_string external)), Hs1, (Hu [] q) by done. done.
      * rewrite Hs1, (Hu l q) by done. done.
  - change (encs (r :: rs)) with (enc r ++ encs rs) in *. rewrite <-(assoc_L (++)) in *. rewrite length_app in Hfuel. pose proof (enc_pos r) as Hpos.
    destruct fuel as [|fuel]; [lia|]. cbn [scan_loop]. set (rest := encs rs ++ t) in *.
    destruct r as [doc|external internal]; cbn [enc] in *.
    + rewrite <-(assoc_L (++)). destruct (record_reads_u8 OP_PUT) as [H8 _]; [done|]. rewrite H8. change (OP_PUT =? OP_PUT) with true. cbn iota.
      destruct (record_reads_document doc Hr) as [Hd _]. rewrite Hd.
      replace (pos + (Z.of_nat (length (write_u8 OP_PUT ++ write_document doc ++ rest)) - zlen (write_document doc ++ rest))) with (pos + 1)
        by (rewrite (length_app (write_u8 OP_PUT)), u8_len; lia).
      replace (pos + (Z.of_nat (length (write_u8 OP_PUT ++ write_document doc ++ rest)) - zlen rest)) with (pos + zlen (write_u8 OP_PUT ++ write_document doc))
        by (rewrite !length_app; lia).
      replace (pos + zlen (write_u8 OP_PUT ++ write_document doc) - (pos + 1)) with (zlen (write_document doc)) by (rewrite length_app, u8_len; lia).
      pose proof (apply_put_scanned s id doc pos) as Hs1.
      destruct (IH fuel (pos + zlen (write_u8 OP_PUT ++ write_document doc)) (apply_put s id doc (pos + 1) (wrap 32 (zlen (write_document doc)))) versions) as (s' & v' & E & Hs2); [lia|].
      exists s', v'. rewrite E. split; [do 2 f_equal; case_bool_decide; [done|f_equal; rewrite !length_app; lia]|]. eapply scanned_trans; [exact Hs1|]. destruct Hs1 as [El _]. rewrite El in Hs2. exact Hs2.
    + rewrite <-!(assoc_L (++)). destruct (record_reads_u8 OP_DELETE) as [H8 _]; [done|]. rewrite H8. change (OP_DELETE =? OP_PUT) with false.
      change (OP_DELETE =? OP_DELETE) with true. cbn iota. destruct Hr as (Hc & Hl & Hi).
      destruct (record_reads_string external Hc Hl) as [Hs1 _]. rewrite Hs1. destruct (record_reads_u64 internal Hi) as [Hu _]. rewrite Hu.
      replace (pos + (Z.of_nat (length (write_u8 OP_DELETE ++ write_string external ++ write_u64 internal ++ rest)) - zlen rest))
        with (pos + zlen (write_u8 OP_DELETE ++ write_string external ++ write_u64 internal)) by (rewrite !length_app; lia).
      pose proof (apply_delete_scanned s id external internal pos) as Hd1.
      destruct (IH fuel (pos + zlen (write_u8 OP_DELETE ++ write_string external ++ write_u64 internal)) (apply_delete s external internal)
        (note_deleted versions external internal)) as (s' & v' & E & Hs2); [lia|].
      exists s', v'. rewrite E. split; [do 2 f_equal; case_bool_decide; [done|f_equal; rewrite !length_app; lia]|]. eapply scanned_trans; [exact Hd1|]. destruct Hd1 as [El _]. rewrite El in Hs2. exact Hs2.
Qed.

(** ** Segments *)

(** A segment: whether a compaction wrote it, and its records. *)
Abbreviation Segs := (gmap Z (bool * list record)).
Definition magic_of (compacted : bool) : list Z := if compacted then COMPACTED_MAGIC else MAGIC.
Definition seg_bytes (s : bool * list record) : list Z := magic_of s.1 ++ encs s.2.
Definition segs_ok (segs : Segs) : Prop := map_Forall (fun id s => Forall record_ok s.2) segs.

(** The files are the segments, append segments with a torn tail. *)
Record represents (disk : SDisk) (segs : Segs) (tails : Z -> list Z) : Prop := {
  rp_files : forall id, dk_segments disk !! id = (fun s => seg_bytes s ++ tails id) <$> segs !! id;
  rp_torn : forall id, torn (tails id);
  rp_append : forall id c rs, segs !! id = Some (c, rs) -> tails id = [] \/ c = false
}.
Definition whole (id : Z) : list Z := [].
Definition clean (tails : Z -> list Z) (id : Z) : Z -> list Z := fun i => if decide (i = id) then [] else tails i.

Lemma magic_len c : length (magic_of c) = 8%nat.
Proof. by destruct c. Qed.
Lemma segment_magic_spec disk segs tails id c rs :
  represents disk segs tails -> segs !! id = Some (c, rs) -> segment_magic disk id = Ok (magic_of c).
Proof.
  intros Hr Hs. unfold segment_magic, open_segment. rewrite (rp_files _ _ _ Hr), Hs. cbn [fmap option_fmap option_map io_of_option io_bind].
  unfold seg_bytes. rewrite <-(assoc_L (++)). destruct (record_reads_exact (magic_of c) 8) as [H _]; [by rewrite magic_len|]. cbn [fst]. rewrite H. done.
Qed.
Lemma magic_compacted c : bool_decide (magic_of c = MAGIC) = negb c /\ bool_decide (magic_of c = COMPACTED_MAGIC) = c.
Proof. by destruct c. Qed.

Lemma scan_segment_spec disk segs tails s id c l1 l2 from versions :
  segs_ok segs -> represents disk segs tails -> segs !! id = Some (c, l1 ++ l2) -> (from = Some (8 + zlen (encs l1)) \/ (from = None /\ l1 = [])) ->
  exists disk' s' versions', scan_segment disk s id from versions = Ok (disk', s', versions') /\ represents disk' segs (clean tails id) /\
    dk_tmp disk' = dk_tmp disk /\ dk_maps disk' = dk_maps disk /\ scanned s s' (replay id (8 + zlen (encs l1)) l2 (bs_locations s)).
Proof.
  intros Hok Hr Hs Hfrom. unfold scan_segment. rewrite (segment_magic_spec _ _ _ _ _ _ Hr Hs). cbn [io_bind].
  unfold open_segment. rewrite (rp_files _ _ _ Hr), Hs. cbn [fmap option_fmap option_map io_of_option io_bind].
  set (bytes := seg_bytes (c, l1 ++ l2) ++ tails id). set (start := 8 + zlen (encs l1)).
  assert (Hstart : match from with Some offset => Ok offset | None =>
      let! (magic, _) := read_exact 8 bytes in
      if bool_decide (magic = MAGIC) || bool_decide (magic = COMPACTED_MAGIC) then Ok (zlen MAGIC) else Err (IoError InvalidData "bad document store magic")
    end = Ok start).
  { destruct Hfrom as [->|[-> ->]]; [done|]. unfold bytes, seg_bytes. rewrite <-(assoc_L (++)).
    destruct (record_reads_exact (magic_of c) 8) as [H _]; [by rewrite magic_len|]. cbn [fst]. rewrite H. cbn [io_bind].
    destruct (magic_compacted c) as [-> ->]. by destruct c. }
  rewrite Hstart. cbn [io_bind].
  assert (Hdrop : drop (Z.to_nat start) bytes = encs l2 ++ tails id).
  { unfold bytes, seg_bytes, start. cbn [fst snd]. rewrite encs_app, !(assoc_L (++)), <-(assoc_L (++) _ (encs l2)). apply drop_app_length'.
    rewrite length_app, magic_len. lia. }
  rewrite Hdrop. assert (Hrs : Forall record_ok l2) by (specialize (Hok id _ Hs); cbn in Hok; by apply Forall_app in Hok as [_ ?]).
  destruct (scan_loop_spec (length (encs l2 ++ tails id)) id (bool_decide (magic_of c = MAGIC)) l2 (tails id) start s versions Hrs (rp_torn _ _ _ Hr id)) as (s' & v' & E & Hsc).
  { destruct (rp_append _ _ _ Hr _ _ _ Hs) as [?| ->]; [by left|by right]. }
  { done. }
  rewrite E. cbn [io_bind]. clear E Hstart. destruct (decide (tails id = [])) as [Et|Et].
  - rewrite bool_decide_eq_true_2 by done. exists disk, s', v'. split_and!; try done. destruct Hr as [H1 H2 H3]. split.
    + intros i. rewrite H1. unfold clean. destruct (decide (i = id)) as [->|]; [by rewrite Et|done].
    + intros i. unfold clean. case_decide; [by left|apply H2].
    + intros i c' rs Hi. unfold clean. case_decide; [by left|by eapply H3].
  - rewrite bool_decide_eq_false_2 by done. eexists _, s', v'. split_and!; try done. destruct Hr as [H1 H2 H3]. split.
    + intros i. cbn [with_segment dk_segments]. unfold clean. destruct (decide (i = id)) as [->|Hi].
      * rewrite lookup_insert_eq, Hs. cbn. f_equal. rewrite app_nil_r. unfold bytes. apply take_app_length'. unfold seg_bytes. cbn [fst snd].
        rewrite encs_app, !length_app, magic_len. unfold start. lia.
      * rewrite lookup_insert_ne by done. apply H1.
    + intros i. unfold clean. case_decide; [by left|apply H2].
    + intros i c' rs Hi. unfold clean. case_decide; [by left|by eapply H3].
Qed.

(** ** Plans *)

(** The records a list of scans reads: of each segment, from where and which. *)
Definition Plan : Type := list (Z * option Z * list record).
Definition item_ok (segs : Segs) (it : Z * option Z * list record) : Prop :=
  exists c l1, segs !! it.1.1 = Some (c, l1 ++ it.2) /\ (it.1.2 = Some (8 + zlen (encs l1)) \/ (it.1.2 = None /\ l1 = [])).
Definition item_pos (from : option Z) : Z := default 8 from.
Definition replay_plan (plan : Plan) (L : gmap str DocLocation) : gmap str DocLocation :=
  fold_left (fun L it => replay it.1.1 (item_pos it.1.2) it.2 L) plan L.
Definition clean_all (tails : Z -> list Z) (ids : list Z) : Z -> list Z := fun i => if decide (i ∈ ids) then [] else tails i.

Lemma represents_ext disk segs tails tails' : (forall id, tails id = tails' id) -> represents disk segs tails -> represents disk segs tails'.
Proof.
  intros H [H1 H2 H3]. split; intros id; rewrite <-?H; [apply H1|apply H2|apply H3].
Qed.
Lemma scan_segments_spec plan disk segs tails s versions :
  segs_ok segs -> represents disk segs tails -> Forall (item_ok segs) plan ->
  exists disk' s' versions', scan_segments disk s plan.*1 versions = Ok (disk', s', versions') /\ represents disk' segs (clean_all tails plan.*1.*1) /\
    dk_tmp disk' = dk_tmp disk /\ dk_maps disk' = dk_maps disk /\ scanned s s' (replay_plan plan (bs_locations s)).
Proof.
  intros Hok Hr Hp. revert disk tails s versions Hr. induction Hp as [|[[id from] l2] plan (c & l1 & Hs & Hfrom) Hp IH]; intros disk tails s versions Hr.
  - exists disk, s, versions. split_and!; [done| |done|done|]; [|by split_and!; [|reflexivity|reflexivity|lia]].
    eapply represents_ext; [|exact Hr]. intros id. unfold clean_all. rewrite decide_False; [done|]. apply not_elem_of_nil.
  - cbn [fst snd] in *. cbn [fmap list_fmap fst scan_segments].
    destruct (scan_segment_spec disk segs tails s id c l1 l2 from versions Hok Hr Hs Hfrom) as (d1 & s1 & v1 & E1 & Hr1 & Ht1 & Hm1 & Hs1).
    rewrite E1. cbn [io_bind]. destruct (IH d1 (clean tails id) s1 v1 Hr1) as (d2 & s2 & v2 & E2 & Hr2 & Ht2 & Hm2 & Hs2). rewrite E2.
    exists d2, s2, v2. split; [done|]. split; [|split; [congruence|split; [congruence|]]].
    + eapply represents_ext; [|exact Hr2]. intros i. unfold clean_all, clean. cbn [fmap list_fmap fst].
      destruct (decide (i ∈ plan.*1.*1)) as [Hin|Hin], (decide (i ∈ id :: plan.*1.*1)) as [Hin'|Hin'], (decide (i = id)) as [Hi|Hi]; try done;
        rewrite elem_of_cons in Hin'; tauto.
    + eapply scanned_trans; [exact Hs1|]. destruct Hs1 as [El _]. rewrite El in Hs2. cbn [replay_plan fold_left fst snd].
      assert (item_pos from = 8 + zlen (encs l1)) as -> by (destruct Hfrom as [->|[-> ->]]; done). exact Hs2.
Qed.
