(* ===== verification/BinaryStoreCorrect.v ===== *)
(** * The document store as a map

    What a store promises: it is a map from external ids to documents. [store_inv] relates the
    files, the maps in memory and the cache to such a map; every operation changes the map as its
    name says and keeps the relation. *)
From Stdlib Require Import ZArith Lia String.
From stdpp Require Import base numbers list sorting gmap.
From S2P Require Import Prelude Types Utf8 BinaryStore BinaryStoreScan.
Local Open Scope Z_scope.
Local Open Scope io_scope.

(** ** Locations *)

Abbreviation Docs := (gmap str StoredDocument).
(** The record a location names is that of the document. *)
Definition located (segs : Segs) (external : str) (loc : DocLocation) (doc : StoredDocument) : Prop :=
  external_id doc = external /\ exists c l1 l2, segs !! loc_segment loc = Some (c, l1 ++ RPut doc :: l2) /\
    loc = mkDocLocation (internal_id doc) (8 + zlen (encs l1) + 1) (loc_segment loc) (zlen (write_document doc)).
Definition abs_rel (segs : Segs) (L : gmap str DocLocation) (A : Docs) : Prop :=
  forall external, match L !! external, A !! external with
    | Some loc, Some doc => located segs external loc doc
    | None, None => True
    | _, _ => False
    end.
Definition abs_step (A : Docs) (r : record) : Docs :=
  match r with
  | RPut doc => <[external_id doc := doc]> A
  | RDel external internal => match A !! external with Some doc => if internal_id doc <=? internal then delete external A else A | None => A end
  end.
Definition abs_steps (rs : list record) (A : Docs) : Docs := fold_left abs_step rs A.

(** Segments that only grew. *)
Definition grows (segs segs' : Segs) : Prop := forall id c rs, segs !! id = Some (c, rs) -> exists more, segs' !! id = Some (c, rs ++ more).
#[global] Instance grows_preorder : PreOrder grows.
Proof.
  split; [intros segs id c rs H; exists []; by rewrite app_nil_r|]. intros a b c H1 H2 id k rs H. apply H1 in H as [more H]. apply H2 in H as [more' H].
  exists (more ++ more'). by rewrite (assoc_L (++)).
Qed.
Lemma located_grows segs segs' external loc doc : grows segs segs' -> located segs external loc doc -> located segs' external loc doc.
Proof.
  intros Hg (E & c & l1 & l2 & Hs & El). split; [done|]. apply Hg in Hs as [more Hs]. exists c, l1, (l2 ++ more). split; [|done].
  rewrite Hs. by rewrite <-(assoc_L (++)).
Qed.
Lemma abs_rel_grows segs segs' L A : grows segs segs' -> abs_rel segs L A -> abs_rel segs' L A.
Proof.
  intros Hg Ha external. specialize (Ha external). destruct (L !! external), (A !! external); try done. by eapply located_grows.
Qed.
Lemma located_internal segs external loc doc : located segs external loc doc -> loc_internal_id loc = internal_id doc.
Proof. intros (_ & c & l1 & l2 & _ & ->). done. Qed.
Lemma abs_rel_internal segs L A external loc : abs_rel segs L A -> L !! external = Some loc -> exists doc, A !! external = Some doc /\ located segs external loc doc.
Proof. intros Ha Hl. specialize (Ha external). rewrite Hl in Ha. destruct (A !! external) as [doc|]; [|done]. by exists doc. Qed.

(** One record, at the place it has in the segments. *)
Lemma abs_rel_step segs L A id c l1 r l2 :
  segs_ok segs -> segs !! id = Some (c, l1 ++ r :: l2) -> abs_rel segs L A -> abs_rel segs (record_step id (8 + zlen (encs l1)) r L) (abs_step A r).
Proof.
  intros Hok Hs Ha external. assert (Hr : record_ok r).
  { specialize (Hok id _ Hs). cbn in Hok. apply Forall_app in Hok as [_ Hok]. by apply Forall_cons in Hok as [? _]. }
  destruct r as [doc|ext internal]; cbn [record_step abs_step].
  - destruct (decide (external = external_id doc)) as [->|Hne].
    + rewrite lookup_insert_eq, lookup_insert_eq. split; [done|]. exists c, l1, l2. split; [done|]. cbn [loc_segment]. f_equal. apply zlen_wrap. apply Hr.
    + rewrite lookup_insert_ne, lookup_insert_ne by done. apply Ha.
  - pose proof (Ha ext) as He. destruct (L !! ext) as [loc|] eqn:El, (A !! ext) as [doc|] eqn:Ed; try done; [|apply Ha].
    rewrite (located_internal _ _ _ _ He). destruct (internal_id doc <=? internal); [|apply Ha].
    destruct (decide (external = ext)) as [->|Hne]; [by rewrite lookup_delete_eq, lookup_delete_eq|rewrite lookup_delete_ne, lookup_delete_ne by done; apply Ha].
Qed.
Lemma abs_rel_steps segs L A id c l1 rs l2 :
  segs_ok segs -> segs !! id = Some (c, l1 ++ rs ++ l2) -> abs_rel segs L A -> abs_rel segs (replay id (8 + zlen (encs l1)) rs L) (abs_steps rs A).
Proof.
  intros Hok. revert l1 L A. induction rs as [|r rs IH]; intros l1 L A Hs Ha; [done|]. cbn [replay abs_steps fold_left].
  pose proof (abs_rel_step _ _ _ _ _ _ _ _ Hok Hs Ha) as H. specialize (IH (l1 ++ [r]) (record_step id (8 + zlen (encs l1)) r L) (abs_step A r)).
  rewrite <-(assoc_L (++)) in IH. specialize (IH Hs H). rewrite encs_app, length_app in IH. unfold encs at 2 in IH. cbn [fmap list_fmap concat] in IH. rewrite app_nil_r in IH.
  replace (8 + Z.of_nat (length (encs l1) + length (enc r))) with (8 + zlen (encs l1) + zlen (enc r)) in IH by lia. exact IH.
Qed.

(** ** The invariant *)

Record store_inv (disk : SDisk) (st : BinaryDocumentStore) (segs : Segs) (A : Docs) : Prop := {
  si_disk : represents disk segs whole;
  si_ok : segs_ok segs;
  si_abs : abs_rel segs (bs_locations st) A;
  si_cache : bs_docs st ⊆ A;
  si_current : exists rs, segs !! bs_current_segment st = Some (false, rs);
  si_ids : forall id, is_Some (segs !! id) -> 0 <= id < bs_next_segment_id st;
  si_next : bs_next_segment_id st < 2 ^ 32
}.
(** Records added to the end of a segment, and an empty segment. *)
Definition grow (segs : Segs) (id : Z) (rs : list record) : Segs :=
  match segs !! id with Some (c, old) => <[id := (c, old ++ rs)]> segs | None => segs end.
Lemma grow_grows segs id rs : grows segs (grow segs id rs).
Proof.
  intros i c old H. unfold grow. destruct (decide (i = id)) as [->|Hne].
  - rewrite H. exists rs. apply lookup_insert_eq.
  - exists []. rewrite app_nil_r. destruct (segs !! id) as [[]|]; [by rewrite lookup_insert_ne|done].
Qed.
Lemma insert_grows segs id s : segs !! id = None -> grows segs (<[id := s]> segs).
Proof. intros Hn i c rs H. exists []. rewrite app_nil_r, lookup_insert_ne; [done|]. intros ->. congruence. Qed.
Lemma grow_ok segs id rs : segs_ok segs -> Forall record_ok rs -> segs_ok (grow segs id rs).
Proof.
  intros Hok Hrs. unfold grow. destruct (segs !! id) as [[c old]|] eqn:E; [|done]. apply map_Forall_insert_2; [|done]. cbn.
  apply Forall_app. split; [apply (Hok _ _ E)|done].
Qed.

(** What a write leaves: the records are in the current segment, which a new one may have replaced. *)
Inductive written (segs : Segs) (st : BinaryDocumentStore) (rs : list record) (segs' : Segs) (current next : Z) : Prop :=
| written_same : segs' = grow segs (bs_current_segment st) rs -> current = bs_current_segment st -> next = bs_next_segment_id st -> written segs st rs segs' current next
| written_rotated : segs' = <[bs_next_segment_id st := (false, [])]> (grow segs (bs_current_segment st) rs) ->
    current = bs_next_segment_id st -> next = bs_next_segment_id st + 1 -> written segs st rs segs' current next.

Lemma represents_grow disk segs id c old rs :
  represents disk segs whole -> segs !! id = Some (c, old) ->
  represents (with_segment disk id (seg_bytes (c, old) ++ encs rs)) (grow segs id rs) whole.
Proof.
  intros [H1 H2 H3] Hs. unfold grow. rewrite Hs. split; [|by left|by left]. intros i. cbn [with_segment dk_segments]. destruct (decide (i = id)) as [->|Hne].
  - rewrite lookup_insert_eq, lookup_insert_eq. cbn. f_equal. unfold seg_bytes. cbn. by rewrite encs_app, !app_nil_r, <-(assoc_L (++)).
  - rewrite lookup_insert_ne, lookup_insert_ne by done. apply H1.
Qed.
Lemma represents_new disk segs id : represents disk segs whole -> represents (with_segment disk id MAGIC) (<[id := (false, [])]> segs) whole.
Proof.
  intros [H1 H2 H3]. split; [|by left|by left]. intros i. cbn [with_segment dk_segments]. destruct (decide (i = id)) as [->|Hne].
  - by rewrite lookup_insert_eq, lookup_insert_eq.
  - rewrite lookup_insert_ne, lookup_insert_ne by done. apply H1.
Qed.

(** A write of records in the current segment; [st1] is the store with its new maps. *)
Lemma write_spec disk st segs A rs old st1 A' :
  store_inv disk st segs A -> Forall record_ok rs -> bs_next_segment_id st + 1 < 2 ^ 32 -> segs !! bs_current_segment st = Some (false, old) ->
  same_segments st st1 -> bs_locations st1 = replay (bs_current_segment st) (8 + zlen (encs old)) rs (bs_locations st) -> A' = abs_steps rs A -> bs_docs st1 ⊆ A' ->
  exists disk' st' segs', maybe_rotate_segment (with_segment disk (bs_current_segment st) (seg_bytes (false, old) ++ encs rs)) st1 = Ok (disk', st') /\
    store_inv disk' st' segs' A' /\ written segs st rs segs' (bs_current_segment st') (bs_next_segment_id st') /\
    dk_tmp disk' = dk_tmp disk /\ dk_maps disk' = dk_maps disk /\ bs_locations st' = bs_locations st1 /\ bs_docs st' = bs_docs st1 /\ bs_highest_id st' = bs_highest_id st1.
Proof.
  intros Hi Hrs Hroom Hcur (Ec & En & Eu) El -> Hdocs. set (cur := bs_current_segment st) in *.
  pose proof (represents_grow disk segs cur false old rs (si_disk _ _ _ _ Hi) Hcur) as Hr. pose proof (grow_ok segs cur rs (si_ok _ _ _ _ Hi) Hrs) as Hok.
  assert (Hg : grow segs cur rs !! cur = Some (false, old ++ rs)) by (unfold grow; rewrite Hcur; apply lookup_insert_eq).
  assert (Habs : abs_rel (grow segs cur rs) (bs_locations st1) (abs_steps rs A)).
  { rewrite El. apply (abs_rel_steps _ _ _ _ false old rs []); [done|by rewrite app_nil_r|]. apply (abs_rel_grows segs); [apply grow_grows|apply (si_abs _ _ _ _ Hi)]. }
  assert (Hids : forall id, is_Some (grow segs cur rs !! id) -> 0 <= id < bs_next_segment_id st).
  { intros id [s Hs]. apply (si_ids _ _ _ _ Hi). unfold grow in Hs. rewrite Hcur in Hs. destruct (decide (id = cur)) as [->|Hne]; [by eauto|]. rewrite lookup_insert_ne in Hs by done. eauto. }
  unfold maybe_rotate_segment, open_segment. rewrite Ec. fold cur. cbn [with_segment dk_segments]. rewrite lookup_insert_eq. cbn [io_of_option io_bind].
  destruct (zlen (seg_bytes (false, old) ++ encs rs) <? DEFAULT_SEGMENT_SIZE).
  - eexists _, st1, _. split; [done|]. split; [|split; [by apply written_same; rewrite ?Ec, ?En|done]].
    split; rewrite ?Ec, ?En; [exact Hr|done|done|done|by exists (old ++ rs)|done|]. lia.
  - eexists _, _, (<[bs_next_segment_id st := (false, [])]> (grow segs cur rs)). split; [done|]. rewrite En.
    assert (Hw : wrap 32 (bs_next_segment_id st + 1) = bs_next_segment_id st + 1).
    { unfold wrap. apply Z.mod_small. pose proof (si_ids _ _ _ _ Hi cur (mk_is_Some _ _ Hcur)). lia. }
    cbn [with_segments bs_current_segment bs_next_segment_id]. rewrite Hw. split; [|split; [by apply written_rotated|done]].
    assert (Hfresh : grow segs cur rs !! bs_next_segment_id st = None).
    { destruct (grow segs cur rs !! bs_next_segment_id st) eqn:E; [|done]. specialize (Hids _ (mk_is_Some _ _ E)). lia. }
    split; cbn [with_segments bs_current_segment bs_next_segment_id bs_locations bs_docs].
    + by apply represents_new.
    + apply map_Forall_insert_2; [constructor|done].
    + by apply (abs_rel_grows (grow segs cur rs)); [apply insert_grows|].
    + done.
    + exists []. apply lookup_insert_eq.
    + intros id [s Hs]. destruct (decide (id = bs_next_segment_id st)) as [->|Hne].
      * pose proof (si_ids _ _ _ _ Hi cur (mk_is_Some _ _ Hcur)). lia.
      * rewrite lookup_insert_ne in Hs by done. specialize (Hids id (mk_is_Some _ _ Hs)). lia.
    + lia.
Qed.

(** ** Operations *)

Lemma current_bytes disk st segs A old :
  store_inv disk st segs A -> segs !! bs_current_segment st = Some (false, old) -> dk_segments disk !! bs_current_segment st = Some (seg_bytes (false, old)).
Proof. intros Hi Hc. rewrite (rp_files _ _ _ (si_disk _ _ _ _ Hi)), Hc. cbn. by rewrite app_nil_r. Qed.
Lemma seg_bytes_len c rs : zlen (seg_bytes (c, rs)) = 8 + zlen (encs rs).
Proof. unfold seg_bytes. cbn [fst snd]. rewrite length_app, magic_len. lia. Qed.
Lemma encs_single r : encs [r] = enc r.
Proof. unfold encs. cbn [fmap list_fmap concat]. apply app_nil_r. Qed.

(** The store after a write of records. *)
Definition wrote (disk : SDisk) (st : BinaryDocumentStore) (segs : Segs) (A : Docs) (rs : list record) (disk' : SDisk) (st' : BinaryDocumentStore) : Prop :=
  exists segs', store_inv disk' st' segs' (abs_steps rs A) /\ written segs st rs segs' (bs_current_segment st') (bs_next_segment_id st') /\
    dk_tmp disk' = dk_tmp disk /\ dk_maps disk' = dk_maps disk /\
    exists old, segs !! bs_current_segment st = Some (false, old) /\
      bs_locations st' = replay (bs_current_segment st) (8 + zlen (encs old)) rs (bs_locations st).

Lemma put_spec disk st segs A doc :
  store_inv disk st segs A -> doc_ok doc -> bs_next_segment_id st + 1 < 2 ^ 32 ->
  exists disk' st', put disk st doc = Ok (disk', st') /\ wrote disk st segs A [RPut doc] disk' st' /\
    bs_highest_id st' = Z.max (bs_highest_id st) (internal_id doc).
Proof.
  intros Hi Hd Hroom. destruct (si_current _ _ _ _ Hi) as [old Hc]. pose proof (current_bytes _ _ _ _ _ Hi Hc) as Hb.
  unfold put, append_put, append, open_segment. rewrite Hb. cbn [io_of_option io_bind]. rewrite seg_bytes_len.
  set (loc := mkDocLocation (internal_id doc) (8 + zlen (encs old) + 1) (bs_current_segment st) (wrap 32 (zlen (write_document doc)))).
  set (st1 := with_maps st (<[external_id doc := doc]> (bs_docs st)) (<[internal_id doc := external_id doc]> (bs_internal_to_external st))
    (<[external_id doc := loc]> (bs_locations st)) (Z.max (bs_highest_id st) (internal_id doc))).
  destruct (write_spec disk st segs A [RPut doc] old st1 (abs_steps [RPut doc] A)) as (disk' & st' & segs' & E & Hi' & Hw & Ht & Hm & Hl & Hdocs & Hh); try done.
  { by apply Forall_singleton. }
  { cbn. apply insert_mono, (si_cache _ _ _ _ Hi). }
  rewrite encs_single in E. cbn [enc] in E. unfold maybe_rotate_segment in *. cbn [st1 with_maps bs_current_segment] in E.
  destruct (open_segment _ _) as [bytes|]; [|done]. cbn [io_bind] in *. destruct (zlen bytes <? DEFAULT_SEGMENT_SIZE); cbn [io_bind]; simplify_eq;
    (eexists _, _; split; [done|]; split; [|done]; exists segs'; split; [exact Hi'|]; split; [exact Hw|]; split; [done|]; split; [done|]; by exists old).
Qed.

Lemma batch_fold segment docs out position st :
  exists st', fold_left (batch_step segment) docs (out, position, st) = (out ++ encs (RPut <$> docs), position + zlen (encs (RPut <$> docs)), st') /\
    same_segments st st' /\ bs_locations st' = replay segment position (RPut <$> docs) (bs_locations st) /\
    bs_docs st' = fold_left (fun m doc => <[external_id doc := doc]> m) docs (bs_docs st) /\ bs_highest_id st' = bs_highest_id st.
Proof.
  revert out position st. induction docs as [|doc docs IH]; intros out position st.
  { exists st. cbn [fold_left fmap list_fmap]. unfold encs. cbn. by rewrite app_nil_r, Z.add_0_r. }
  cbn [fold_left]. unfold batch_step at 2. rewrite u8_len.
  match goal with |- context [fold_left _ docs (?o, ?p, ?s)] => destruct (IH o p s) as (st' & E & Hs & Hl & Hd & Hh) end.
  exists st'. rewrite E. cbn [fmap list_fmap]. change (encs (RPut doc :: (RPut <$> docs))) with (enc (RPut doc) ++ encs (RPut <$> docs)).
  split_and!.
  - f_equal; f_equal.
    + by rewrite <-!(assoc_L (++)).
    + cbn [enc]. rewrite !length_app, u8_len. lia.
  - exact Hs.
  - rewrite Hl. cbn [replay record_step enc with_maps bs_locations]. rewrite length_app, u8_len. f_equal. lia.
  - exact Hd.
  - exact Hh.
Qed.
Lemma abs_puts (docs : list StoredDocument) A : abs_steps (RPut <$> docs) A = fold_left (fun m doc => <[external_id doc := doc]> m) docs A.
Proof. revert A. induction docs as [|d docs IH]; intros A; [done|]. cbn. apply IH. Qed.
Lemma puts_mono (docs : list StoredDocument) (m m' : Docs) : m ⊆ m' ->
  fold_left (fun m doc => <[external_id doc := doc]> m) docs m ⊆ fold_left (fun m doc => <[external_id doc := doc]> m) docs m'.
Proof. revert m m'. induction docs as [|d docs IH]; intros m m' H; [done|]. cbn. apply IH. by apply insert_mono. Qed.

Lemma put_batch_spec disk st segs A docs :
  store_inv disk st segs A -> Forall doc_ok docs -> bs_next_segment_id st + 1 < 2 ^ 32 ->
  exists disk' st', put_batch disk st docs = Ok (disk', st') /\ wrote disk st segs A (RPut <$> docs) disk' st' /\ bs_highest_id st' = bs_highest_id st.
Proof.
  intros Hi Hd Hroom. destruct (si_current _ _ _ _ Hi) as [old Hc]. pose proof (current_bytes _ _ _ _ _ Hi Hc) as Hb.
  unfold put_batch. rewrite Hb. change (default [] (Some (seg_bytes (false, old)))) with (seg_bytes (false, old)). rewrite seg_bytes_len.
  destruct (batch_fold (bs_current_segment st) docs [] (8 + zlen (encs old)) st) as (st1 & E & Hs & Hl & Hds & Hh). rewrite E, app_nil_l.
  destruct (write_spec disk st segs A (RPut <$> docs) old st1 (abs_steps (RPut <$> docs) A)) as (disk' & st' & segs' & E' & Hi' & Hw & Ht & Hm & Hl' & Hdocs & Hh'); try done.
  { apply Forall_fmap. eapply Forall_impl; [exact Hd|]. done. }
  { rewrite Hds, abs_puts. apply puts_mono, (si_cache _ _ _ _ Hi). }
  exists disk', st'. split; [exact E'|]. split; [|congruence]. exists segs'. split; [exact Hi'|]. split; [exact Hw|]. split; [done|]. split; [done|]. exists old. split; [done|congruence].
Qed.

Lemma located_doc_ok segs external loc doc : segs_ok segs -> located segs external loc doc -> doc_ok doc.
Proof.
  intros Hok (_ & c & l1 & l2 & Hs & _). specialize (Hok _ _ Hs). cbn in Hok. apply Forall_app in Hok as [_ Hok]. by apply Forall_cons in Hok as [? _].
Qed.
Lemma delete_spec disk st segs A external doc :
  store_inv disk st segs A -> bs_next_segment_id st + 1 < 2 ^ 32 -> A !! external = Some doc ->
  exists disk' st', store_delete disk st external = Ok (disk', st') /\ wrote disk st segs A [RDel external (internal_id doc)] disk' st' /\
    abs_steps [RDel external (internal_id doc)] A = delete external A.
Proof.
  intros Hi Hroom HA. destruct (si_current _ _ _ _ Hi) as [old Hc]. pose proof (current_bytes _ _ _ _ _ Hi Hc) as Hb.
  pose proof (si_abs _ _ _ _ Hi external) as Ha. rewrite HA in Ha. destruct (bs_locations st !! external) as [loc|] eqn:El; [|done].
  pose proof (located_internal _ _ _ _ Ha) as Eint. pose proof (located_doc_ok _ _ _ _ (si_ok _ _ _ _ Hi) Ha) as Hd.
  assert (Eabs : abs_steps [RDel external (internal_id doc)] A = delete external A) by (cbn; by rewrite HA, Z.leb_refl).
  unfold store_delete. rewrite El, Eint. unfold append_delete, append, open_segment. rewrite Hb. cbn [io_of_option io_bind].
  set (st1 := with_maps st (delete external (bs_docs st)) (delete (internal_id doc) (bs_internal_to_external st)) (delete external (bs_locations st)) (bs_highest_id st)).
  destruct (write_spec disk st segs A [RDel external (internal_id doc)] old st1 (abs_steps [RDel external (internal_id doc)] A))
    as (disk' & st' & segs' & E & Hi' & Hw & Ht & Hm & Hl & Hdocs & Hh); try done.
  { apply Forall_singleton. destruct Ha as [<- _]. destruct Hd as [H1 H2 H3]. rewrite write_document_len in H3. unfold record_ok. split; [done|split; [lia|done]]. }
  { cbn. rewrite El, Eint, Z.leb_refl. done. }
  { rewrite Eabs. apply delete_mono, (si_cache _ _ _ _ Hi). }
  rewrite encs_single in E. cbn [enc] in E. unfold maybe_rotate_segment in *. cbn [st1 with_maps bs_current_segment] in E.
  destruct (open_segment _ _) as [bytes|]; [|done]. cbn [io_bind] in *. destruct (zlen bytes <? DEFAULT_SEGMENT_SIZE); cbn [io_bind]; simplify_eq;
    (eexists _, _; split; [done|]; split; [|done]; exists segs'; split; [exact Hi'|]; split; [exact Hw|]; split; [done|]; split; [done|]; exists old; split; [done|]; cbn; by rewrite El, Eint, Z.leb_refl).
Qed.
Lemma delete_missing disk st segs A external :
  store_inv disk st segs A -> A !! external = None -> store_delete disk st external = Ok (disk, st).
Proof.
  intros Hi HA. pose proof (si_abs _ _ _ _ Hi external) as Ha. rewrite HA in Ha. unfold store_delete. by destruct (bs_locations st !! external).
Qed.

Lemma seg_drop c l1 r l2 : drop (Z.to_nat (8 + zlen (encs l1) + 1)) (seg_bytes (c, l1 ++ r :: l2)) = drop 1 (enc r) ++ encs l2.
Proof.
  unfold seg_bytes. cbn [fst snd]. rewrite encs_app. change (encs (r :: l2)) with (enc r ++ encs l2). rewrite (assoc_L (++)).
  replace (Z.to_nat (8 + zlen (encs l1) + 1)) with (length (magic_of c ++ encs l1) + 1)%nat by (rewrite length_app, magic_len; lia).
  rewrite drop_app_add. pose proof (enc_pos r). rewrite drop_app_le by lia. done.
Qed.
Lemma located_read disk segs external loc doc :
  segs_ok segs -> represents disk segs whole -> located segs external loc doc -> read_document_at disk (loc_segment loc) (loc_offset loc) = Ok doc.
Proof.
  intros Hok Hr Hl. pose proof (located_doc_ok _ _ _ _ Hok Hl) as Hd. destruct Hl as (_ & c & l1 & l2 & Hs & El).
  unfold read_document_at, open_segment. rewrite (rp_files _ _ _ Hr), Hs. cbn [fmap option_fmap option_map io_of_option io_bind]. rewrite app_nil_r, El. cbn [loc_offset].
  rewrite seg_drop. change (drop 1 (enc (RPut doc))) with (write_document doc). destruct (record_reads_document doc Hd) as [H _]. by rewrite H.
Qed.
Lemma store_inv_docs disk st segs A docs :
  store_inv disk st segs A -> docs ⊆ A -> store_inv disk (with_maps st docs (bs_internal_to_external st) (bs_locations st) (bs_highest_id st)) segs A.
Proof. intros [H1 H2 H3 H4 H5 H6 H7] Hd. by split. Qed.
Lemma get_spec disk st segs A external :
  store_inv disk st segs A ->
  exists st', get disk st external = Ok (A !! external, st') /\ store_inv disk st' segs A /\ same_segments st st' /\ bs_locations st' = bs_locations st.
Proof.
  intros Hi. unfold get. destruct (bs_docs st !! external) as [doc|] eqn:Ed.
  { exists st. rewrite (lookup_weaken _ _ _ _ Ed (si_cache _ _ _ _ Hi)). done. }
  pose proof (si_abs _ _ _ _ Hi external) as Ha. destruct (bs_locations st !! external) as [loc|], (A !! external) as [doc|] eqn:EA; try done; [|by exists st].
  rewrite (located_read _ _ _ _ _ (si_ok _ _ _ _ Hi) (si_disk _ _ _ _ Hi) Ha). cbn [io_bind]. eexists. split; [done|]. split; [|done].
  apply store_inv_docs; [done|]. by apply insert_subseteq_l, (si_cache _ _ _ _ Hi).
Qed.
Lemma evict_spec disk st segs A gone : store_inv disk st segs A -> store_inv disk (evict st gone) segs A.
Proof. intros Hi. apply store_inv_docs; [done|]. etransitivity; [apply map_filter_subseteq|apply (si_cache _ _ _ _ Hi)]. Qed.
Lemma sync_spec disk st segs A : store_inv disk st segs A -> store_inv disk (sync disk st).2 segs A.
Proof. intros [H1 H2 H3 H4 H5 H6 H7]. by split. Qed.

(** ** Visiting *)

Definition is_live (L : gmap str DocLocation) (id pos : Z) (doc : StoredDocument) : bool :=
  match L !! external_id doc with Some loc => (loc_segment loc =? id) && (loc_offset loc =? pos + 1) | None => false end.
Fixpoint live (L : gmap str DocLocation) (id pos : Z) (rs : list record) : list StoredDocument :=
  match rs with
  | [] => []
  | r :: rs =>
    match r with RPut doc => if is_live L id pos doc then [doc] else [] | RDel _ _ => [] end ++ live L id (pos + zlen (enc r)) rs
  end.
Fixpoint io_fold {A} (f : A -> StoredDocument -> io_result A) (l : list StoredDocument) (a : A) : io_result A :=
  match l with [] => Ok a | d :: l => let! a := f a d in io_fold f l a end.
Lemma io_fold_app {A} (f : A -> StoredDocument -> io_result A) l k a : io_fold f (l ++ k) a = let! a := io_fold f l a in io_fold f k a.
Proof. revert a. induction l as [|d l IH]; intros a; [done|]. cbn. destruct (f a d); [apply IH|done]. Qed.
Lemma visit_loop_spec {A} fuel st id (f : A -> StoredDocument -> io_result A) rs pos a :
  Forall record_ok rs -> (length (encs rs) <= fuel)%nat -> visit_loop fuel st id f (encs rs) pos a = io_fold f (live (bs_locations st) id pos rs) a.
Proof.
  intros Hrs. revert fuel pos a. induction Hrs as [|r rs Hr Hrs IH]; intros fuel pos a Hf; [by destruct fuel|].
  change (encs (r :: rs)) with (enc r ++ encs rs) in *. rewrite length_app in Hf. pose proof (enc_pos r). destruct fuel as [|fuel]; [lia|].
  cbn [visit_loop live]. destruct r as [doc|external internal]; cbn [enc] in *.
  - rewrite <-(assoc_L (++)). destruct (record_reads_u8 OP_PUT) as [H8 _]; [done|]. rewrite H8. change (OP_PUT =? OP_PUT) with true. cbn iota.
    destruct (record_reads_document doc Hr) as [Hd _]. rewrite Hd. cbn [io_bind].
    replace (pos + (Z.of_nat (length (write_u8 OP_PUT ++ write_document doc ++ encs rs)) - zlen (write_document doc ++ encs rs))) with (pos + 1)
      by (rewrite (length_app (write_u8 OP_PUT)), u8_len; lia).
    replace (pos + (Z.of_nat (length (write_u8 OP_PUT ++ write_document doc ++ encs rs)) - zlen (encs rs))) with (pos + zlen (write_u8 OP_PUT ++ write_document doc))
      by (rewrite !length_app; lia).
    fold (is_live (bs_locations st) id pos doc). destruct (is_live (bs_locations st) id pos doc); cbn [io_bind app io_fold].
    + destruct (f a doc) as [a'|]; [|done]. cbn [io_bind]. apply IH. lia.
    + apply IH. lia.
  - rewrite <-!(assoc_L (++)). destruct (record_reads_u8 OP_DELETE) as [H8 _]; [done|]. rewrite H8. change (OP_DELETE =? OP_PUT) with false.
    change (OP_DELETE =? OP_DELETE) with true. cbn iota. destruct Hr as (Hc & Hl & Hi).
    destruct (record_reads_string external Hc Hl) as [Hs1 _]. rewrite Hs1. cbn [io_bind]. destruct (record_reads_u64 internal Hi) as [Hu _]. rewrite Hu. cbn [io_bind app].
    replace (pos + (Z.of_nat (length (write_u8 OP_DELETE ++ write_string external ++ write_u64 internal ++ encs rs)) - zlen (encs rs)))
      with (pos + zlen (write_u8 OP_DELETE ++ write_string external ++ write_u64 internal)) by (rewrite !length_app; lia).
    apply IH. lia.
Qed.
Definition live_of (segs : Segs) (L : gmap str DocLocation) (id : Z) : list StoredDocument :=
  match segs !! id with Some (_, rs) => live L id 8 rs | None => [] end.
Lemma visit_segments_spec {A} disk segs st (f : A -> StoredDocument -> io_result A) ids a :
  segs_ok segs -> represents disk segs whole -> (forall id, id ∈ ids -> is_Some (segs !! id)) ->
  visit_segments disk st f ids a = io_fold f (concat (live_of segs (bs_locations st) <$> ids)) a.
Proof.
  intros Hok Hr. revert a. induction ids as [|id ids IH]; intros a Hids; [done|]. cbn [visit_segments fmap list_fmap concat]. rewrite io_fold_app.
  destruct (Hids id) as [[c rs] Hs]; [left|]. unfold open_segment. rewrite (rp_files _ _ _ Hr), Hs. cbn [fmap option_fmap option_map io_of_option io_bind].
  rewrite app_nil_r. unfold seg_bytes. cbn [fst snd]. destruct (record_reads_exact (magic_of c) 8) as [H _]; [by rewrite magic_len|]. rewrite H. cbn [io_bind].
  destruct (magic_compacted c) as [-> ->]. replace (negb c || c) with true by (by destruct c).
  rewrite visit_loop_spec; [|apply (Hok _ _ Hs)|done]. unfold live_of at 1. rewrite Hs. destruct (io_fold f (live (bs_locations st) id 8 rs) a); [|done].
  cbn [io_bind]. apply IH. intros i Hi. apply Hids. by right.
Qed.
Lemma io_fold_push l docs : io_fold (fun docs doc => Ok (docs ++ [doc])) l docs = Ok (docs ++ l).
Proof. revert docs. induction l as [|d l IH]; intros docs; cbn; [by rewrite app_nil_r|]. rewrite IH. by rewrite <-(assoc_L (++)). Qed.

Lemma elem_of_live_docs L id pos rs doc :
  doc ∈ live L id pos rs <-> exists l1 l2, rs = l1 ++ RPut doc :: l2 /\ is_live L id (pos + zlen (encs l1)) doc = true.
Proof.
  revert pos. induction rs as [|r rs IH]; intros pos; cbn [live].
  { rewrite elem_of_nil. split; [done|]. intros (l1 & l2 & E & _). by destruct l1. }
  rewrite elem_of_app, IH. split.
  - intros [H|(l1 & l2 & -> & H)].
    + destruct r as [d|]; [|by apply elem_of_nil in H]. destruct (is_live L id pos d) eqn:E; [|by apply elem_of_nil in H].
      apply list_elem_of_singleton in H as ->. exists [], rs. split; [done|]. change (zlen (encs [])) with 0. by rewrite Z.add_0_r.
    + exists (r :: l1), l2. split; [done|]. change (encs (r :: l1)) with (enc r ++ encs l1). rewrite length_app.
      replace (pos + Z.of_nat (length (enc r) + length (encs l1))) with (pos + zlen (enc r) + zlen (encs l1)) by lia. done.
  - intros ([|r' l1] & l2 & E & H); cbn in E; injection E as -> ->.
    + left. change (zlen (encs [])) with 0 in H. rewrite Z.add_0_r in H. rewrite H. left.
    + right. exists l1, l2. split; [done|]. change (encs (r' :: l1)) with (enc r' ++ encs l1) in H. rewrite length_app in H.
      replace (pos + Z.of_nat (length (enc r') + length (encs l1))) with (pos + zlen (enc r') + zlen (encs l1)) in H by lia. done.
Qed.
Lemma is_live_loc L id pos doc : is_live L id pos doc = true <-> exists loc, L !! external_id doc = Some loc /\ loc_segment loc = id /\ loc_offset loc = pos + 1.
Proof.
  unfold is_live. destruct (L !! external_id doc) as [loc|]; [|split; [done|by intros (? & ? & _)]]. rewrite andb_true_iff, !Z.eqb_eq. naive_solver.
Qed.
Lemma live_nodup L id pos rs : NoDup (live L id pos rs).
Proof.
  revert pos. induction rs as [|r rs IH]; intros pos; cbn [live]; [constructor|]. apply NoDup_app. split_and!; [|intros d H1 H2|apply IH].
  - destruct r as [d|]; [|constructor]. destruct (is_live L id pos d); [apply NoDup_singleton|constructor].
  - destruct r as [d'|]; [|by apply elem_of_nil in H1]. destruct (is_live L id pos d') eqn:E; [|by apply elem_of_nil in H1]. apply list_elem_of_singleton in H1 as ->.
    apply elem_of_live_docs in H2 as (l1 & l2 & _ & H). apply is_live_loc in E as (loc & El & _ & Eo), H as (loc' & El' & _ & Eo').
    rewrite El in El'. simplify_eq. pose proof (enc_pos (RPut d')). lia.
Qed.
Lemma concat_nodup {A B} (f : A -> list B) (l : list A) :
  NoDup l -> (forall x, NoDup (f x)) -> (forall x y b, b ∈ f x -> b ∈ f y -> x = y) -> NoDup (concat (f <$> l)).
Proof.
  intros Hl Hf Hd. induction Hl as [|x l Hx Hl IH]; [constructor|]. cbn [fmap list_fmap concat]. apply NoDup_app. split_and!; [apply Hf| |done].
  intros b Hb (k & Hk & Hbk)%list_elem_of_In%in_concat. apply list_elem_of_In in Hk, Hbk. apply list_elem_of_fmap in Hk as (y & -> & Hy).
  destruct (Hd _ _ _ Hb Hbk). done.
Qed.
Lemma segment_ids_spec disk segs tails id : represents disk segs tails -> id ∈ list_segment_ids disk <-> is_Some (segs !! id).
Proof.
  intros Hr. unfold list_segment_ids. rewrite elem_of_sort_unstable, elem_of_elements, elem_of_dom, (rp_files _ _ _ Hr). by rewrite fmap_is_Some.
Qed.
Lemma sort_nodup (l : list Z) : NoDup l -> NoDup (sort_unstable l).
Proof. intros H. unfold sort_unstable. by rewrite (sort_by_key_perm id l). Qed.
Lemma all_documents_spec disk st segs A :
  store_inv disk st segs A -> exists docs, all_documents disk st = Ok docs /\ docs ≡ₚ (map_to_list A).*2.
Proof.
  intros Hi. pose proof (si_disk _ _ _ _ Hi) as Hr. unfold all_documents, for_each_document.
  rewrite (visit_segments_spec disk segs); [|apply (si_ok _ _ _ _ Hi)|done|intros id; by apply (segment_ids_spec disk segs whole id Hr)]. rewrite io_fold_push, app_nil_l. eexists. split; [done|].
  assert (Hkey : forall external doc, A !! external = Some doc -> exists loc, bs_locations st !! external = Some loc /\ located segs external loc doc).
  { intros external doc HA. pose proof (si_abs _ _ _ _ Hi external) as Ha. rewrite HA in Ha. destruct (bs_locations st !! external) as [loc|]; [|done]. by exists loc. }
  assert (Hlive : forall id doc, doc ∈ live_of segs (bs_locations st) id -> A !! external_id doc = Some doc /\
    exists loc, bs_locations st !! external_id doc = Some loc /\ loc_segment loc = id).
  { intros id doc Hd. unfold live_of in Hd. destruct (segs !! id) as [[c rs]|] eqn:Es; [|by apply elem_of_nil in Hd].
    apply elem_of_live_docs in Hd as (l1 & l2 & -> & (loc & El & <- & Eo)%is_live_loc). split; [|by exists loc].
    destruct (abs_rel_internal _ _ _ _ _ (si_abs _ _ _ _ Hi) El) as (doc' & HA & _ & c' & l1' & l2' & Es' & El'). rewrite Es in Es'. injection Es' as <- E.
    rewrite El' in Eo. cbn [loc_offset] in Eo. apply encs_prefix_inj in E as [_ E]; [|lia]. injection E as <- _. done. }
  apply NoDup_Permutation.
  - apply concat_nodup; [apply sort_nodup, NoDup_elements|..].
    + intros id. unfold live_of. destruct (segs !! id) as [[]|]; [apply live_nodup|constructor].
    + intros i j d [_ (loc & E & <-)]%Hlive [_ (loc' & E' & <-)]%Hlive. congruence.
  - apply NoDup_fmap_2_strong; [|apply NoDup_map_to_list]. intros [e1 d1] [e2 d2] H1%elem_of_map_to_list H2%elem_of_map_to_list E. cbn in E. subst d2.
    apply Hkey in H1 as (? & _ & <- & _), H2 as (? & _ & <- & _). done.
  - intros doc. rewrite list_elem_of_In, in_concat. split.
    + intros (k & Hk & Hd). apply list_elem_of_In in Hk, Hd. apply list_elem_of_fmap in Hk as (id & -> & _). apply Hlive in Hd as [HA _].
      apply list_elem_of_fmap. exists (external_id doc, doc). split; [done|]. by apply elem_of_map_to_list.
    + intros ([external doc'] & -> & HA%elem_of_map_to_list)%list_elem_of_fmap. cbn.
      destruct (Hkey _ _ HA) as (loc & El & Eid & c & l1 & l2 & Es & Eloc). exists (live_of segs (bs_locations st) (loc_segment loc)).
      rewrite <-!list_elem_of_In. split.
      * apply list_elem_of_fmap_2. apply (segment_ids_spec disk segs whole); [done|by eauto].
      * unfold live_of. rewrite Es. apply elem_of_live_docs. exists l1, l2. split; [done|]. apply is_live_loc. exists loc. rewrite Eid. split_and!; [done|done|]. by rewrite Eloc.
Qed.
