(* ===== verification/BinaryStoreCompact.v ===== *)
(** * Compaction of the document store

    A compaction copies the live records of some old segments into a new one while the store goes
    on. [job_ok] is what stays true of a planned job however many writes come before it is
    installed; the installed store is the same map of documents. *)
From Stdlib Require Import ZArith Lia String SpecFloat.
From stdpp Require Import base numbers list sorting gmap.
From S2P Require Import Prelude Types Utf8 BinaryStore BinaryStoreScan BinaryStoreCorrect.
Local Open Scope Z_scope.
Local Open Scope io_scope.

Record job_ok (st : BinaryDocumentStore) (segs : Segs) (job : SegmentCompactionJob) : Prop := {
  jo_located : forall external loc, (external, loc) ∈ jb_locations job -> exists doc, located segs external loc doc;
  jo_complete : forall external loc, bs_locations st !! external = Some loc -> loc_segment loc ∈ jb_segment_ids job -> (external, loc) ∈ jb_locations job;
  jo_keys : NoDup (jb_locations job).*1;
  jo_new : segs !! jb_next_segment_id job = None /\ 0 <= jb_next_segment_id job < bs_next_segment_id st;
  jo_sealed : forall id, id ∈ jb_segment_ids job -> id < bs_current_segment st;
  jo_current : bs_current_segment st <> jb_next_segment_id job;
  jo_apart : jb_next_segment_id job ∉ jb_segment_ids job
}.

(** ** Planning *)

Lemma select_in target running selected candidates id :
  id ∈ select_segments target running selected candidates -> id ∈ selected \/ id ∈ candidates.*1.
Proof.
  revert running selected. induction candidates as [|[i live] candidates IH]; intros running selected H; cbn in *; [by left|].
  destruct (_ && _); [by left|]. destruct (target <=? running + live).
  - apply elem_of_app in H as [?| ->%list_elem_of_singleton]; [by left|right; left].
  - apply IH in H as [[?| ->%list_elem_of_singleton]%elem_of_app|?]; [by left|right; left|right; by right].
Qed.
Lemma candidate_old disk st threshold id c : candidate disk st threshold id = Some c -> c.1 = id /\ id < bs_current_segment st.
Proof.
  unfold candidate. destruct (Z.leb_spec (bs_current_segment st) id); [done|]. destruct (dk_segments disk !! id); [|done]. cbn.
  destruct (_ =? 0); [done|]. destruct (dead_enough _ _ _); [|done]. by intros [= <-].
Qed.
Lemma plan_spec disk st segs A threshold target job st' :
  store_inv disk st segs A -> bs_next_segment_id st + 1 < 2 ^ 32 -> plan_compaction disk st threshold target = (Some job, st') ->
  store_inv disk st' segs A /\ job_ok st' segs job /\ bs_locations st' = bs_locations st /\ bs_current_segment st' = bs_current_segment st.
Proof.
  intros Hi Hroom. unfold plan_compaction. set (cands := sort_by_key snd _). destruct cands as [|c0 cands'] eqn:Ec; [done|]. rewrite <-Ec. clear c0 cands' Ec.
  intros E. injection E as <- <-. set (selected := select_segments target 0 [] cands).
  destruct (si_current _ _ _ _ Hi) as [rs Hcur]. pose proof (si_ids _ _ _ _ Hi _ (mk_is_Some _ _ Hcur)) as Hc.
  assert (Hw : wrap 32 (bs_next_segment_id st + 1) = bs_next_segment_id st + 1) by (unfold wrap; apply Z.mod_small; lia).
  assert (Hsel : forall id, id ∈ selected -> id < bs_current_segment st).
  { intros id Hin. apply select_in in Hin as [Hin|Hin]; [by apply elem_of_nil in Hin|]. apply list_elem_of_fmap in Hin as ([i live] & -> & Hin).
    unfold cands in Hin. rewrite (sort_by_key_perm snd _) in Hin. apply list_elem_of_omap in Hin as (j & _ & Hj). by apply candidate_old in Hj as [-> Hj]. }
  rewrite Hw. split; [|split; [|done]].
  - destruct Hi as [H1 H2 H3 H4 H5 H6 H7]. split; cbn; [exact H1|done|done|done|by exists rs| |lia]. intros id Hid. specialize (H6 id Hid). lia.
  - split; cbn [jb_locations jb_segment_ids jb_next_segment_id with_segments bs_locations bs_next_segment_id bs_current_segment].
    + intros external loc Hin. rewrite merge_sort_Permutation in Hin. apply list_elem_of_filter in Hin as [_ Hin%elem_of_map_to_list].
      destruct (abs_rel_internal _ _ _ _ _ (si_abs _ _ _ _ Hi) Hin) as (doc & _ & Hl). eauto.
    + intros external loc Hl Hs. rewrite merge_sort_Permutation. apply list_elem_of_filter. split; [done|]. by apply elem_of_map_to_list.
    + rewrite merge_sort_Permutation. apply NoDup_fmap_fst; [|apply NoDup_filter, NoDup_map_to_list]. intros x l1 l2 [_ H1%elem_of_map_to_list]%list_elem_of_filter [_ H2%elem_of_map_to_list]%list_elem_of_filter. congruence.
    + split; [|lia]. destruct (segs !! bs_next_segment_id st) eqn:E; [|done]. pose proof (si_ids _ _ _ _ Hi _ (mk_is_Some _ _ E)). lia.
    + exact Hsel.
    + lia.
    + intros Hin. apply Hsel in Hin. lia.
Qed.
Lemma plan_none disk st segs A threshold target st' :
  store_inv disk st segs A -> plan_compaction disk st threshold target = (None, st') -> st' = st.
Proof. intros _. unfold plan_compaction. destruct (sort_by_key snd _); [by intros [= <-]|done]. Qed.

(** A write keeps a job good. *)
Lemma written_grows disk st segs A rs segs' current next :
  store_inv disk st segs A -> written segs st rs segs' current next -> grows segs segs'.
Proof.
  intros Hi Hw. destruct (si_current _ _ _ _ Hi) as [old Hcur]. pose proof (si_ids _ _ _ _ Hi _ (mk_is_Some _ _ Hcur)) as Hc.
  destruct Hw as [-> _ _| -> _ _]; [apply grow_grows|]. etransitivity; [apply grow_grows|]. apply insert_grows. unfold grow. rewrite Hcur, lookup_insert_ne by lia.
  destruct (segs !! bs_next_segment_id st) eqn:E; [|done]. pose proof (si_ids _ _ _ _ Hi _ (mk_is_Some _ _ E)). lia.
Qed.
Lemma job_write disk st segs A rs old st' segs' job :
  store_inv disk st segs A -> written segs st rs segs' (bs_current_segment st') (bs_next_segment_id st') -> segs !! bs_current_segment st = Some (false, old) ->
  bs_locations st' = replay (bs_current_segment st) (8 + zlen (encs old)) rs (bs_locations st) -> job_ok st segs job -> job_ok st' segs' job.
Proof.
  intros Hi Hw Hcur Hl [H1 H2 H3 H4 H5 H6 H7]. pose proof (si_ids _ _ _ _ Hi _ (mk_is_Some _ _ Hcur)) as Hc. pose proof (written_grows _ _ _ _ _ _ _ _ Hi Hw) as Hg.
  assert (Hold : forall external loc, bs_locations st' !! external = Some loc -> loc_segment loc ∈ jb_segment_ids job -> bs_locations st !! external = Some loc).
  { rewrite Hl. clear Hl Hw Hg. generalize (8 + zlen (encs old)). generalize (bs_locations st). induction rs as [|r rs IH]; intros L pos external loc E Hs; [done|].
    cbn [replay] in E. apply IH in E; [|done]. destruct r as [doc|ext int]; cbn [record_step] in E.
    - destruct (decide (external = external_id doc)) as [->|Hne]; [|by rewrite lookup_insert_ne in E].
      rewrite lookup_insert_eq in E. injection E as <-. cbn in Hs. apply H5 in Hs. lia.
    - destruct (L !! ext) as [cl|]; [|done]. destruct (_ <=? int); [|done]. by apply lookup_delete_Some in E as [_ ?]. }
  split.
  - intros external loc Hin. destruct (H1 _ _ Hin) as [doc Hd]. exists doc. by eapply located_grows.
  - intros external loc E Hs. apply H2; [|done]. by apply Hold.
  - done.
  - destruct H4 as [H4 H4']. assert (Hg1 : grow segs (bs_current_segment st) rs !! jb_next_segment_id job = None) by (unfold grow; rewrite Hcur, lookup_insert_ne; congruence).
    destruct Hw as [Es _ En|Es _ En]; rewrite Es, En; [split; [done|lia]|]. rewrite lookup_insert_ne by lia. split; [done|lia].
  - intros id Hin. specialize (H5 id Hin). destruct Hw as [_ Ec _|_ Ec _]; lia.
  - destruct Hw as [_ Ec _|_ Ec _]; lia.
  - done.
Qed.

(** ** Copying *)

Lemma copied_record_spec disk segs external loc doc :
  segs_ok segs -> represents disk segs whole -> located segs external loc doc -> copied_record disk external loc = Ok (write_document doc).
Proof.
  intros Hok Hr Hl. pose proof (located_doc_ok _ _ _ _ Hok Hl) as [_ _ Hlen]. destruct Hl as (<- & c & l1 & l2 & Hs & El).
  unfold copied_record, open_segment. rewrite (rp_files _ _ _ Hr), Hs. cbn [fmap option_fmap option_map io_of_option io_bind]. rewrite app_nil_r, El. cbn [loc_offset loc_len].
  rewrite seg_drop. change (drop 1 (enc (RPut doc))) with (write_document doc). destruct (record_reads_exact (write_document doc) _ eq_refl) as [H _]. rewrite H. cbn [io_bind].
  pose proof (write_document_len doc) as Hwl. destruct (zlen_wrap (utf8 (external_id doc))) as [Hw Hu]; [lia|].
  assert (E : exists rest, write_document doc = write_u32 (zlen (utf8 (external_id doc))) ++ utf8 (external_id doc) ++ rest).
  { unfold write_document, write_string, write_bytes. rewrite Hw, <-!(assoc_L (++)). by eexists. }
  destruct E as [rest E]. destruct (Z.ltb_spec (zlen (write_document doc)) 4) as [?|_]; [lia|]. rewrite E.
  rewrite (take_app_length' (write_u32 _)) by done. unfold write_u32 at 1. rewrite from_to_le_bytes_id by done. rewrite Z.eqb_refl.
  unfold slice. rewrite (drop_app_length' (write_u32 _)) by done. rewrite take_app_length, bool_decide_eq_true_2 by done. done.
Qed.
(** The copies name the documents their originals name. *)
Definition copies (segs segs' : Segs) (id : Z) (entries copied : list (str * DocLocation)) : Prop :=
  copied.*1 = entries.*1 /\ forall external loc', (external, loc') ∈ copied ->
    exists loc doc, (external, loc) ∈ entries /\ located segs external loc doc /\ located segs' external loc' doc /\ loc_segment loc' = id.
Lemma copy_records_spec disk segs id entries (ds : list StoredDocument) out locs :
  segs_ok segs -> represents disk segs whole -> (forall external loc, (external, loc) ∈ entries -> exists doc, located segs external loc doc) ->
  out = COMPACTED_MAGIC ++ encs (RPut <$> ds) ->
  exists docs copied, copy_records disk id entries out locs = Ok (seg_bytes (true, RPut <$> ds ++ docs), locs ++ copied) /\ Forall doc_ok docs /\
    forall segs', segs' !! id = Some (true, RPut <$> ds ++ docs) -> copies segs segs' id entries copied.
Proof.
  intros Hok Hr. revert ds out locs. induction entries as [|[external loc] entries IH]; intros ds out locs He ->.
  { exists [], []. rewrite !app_nil_r. split_and!; [done|done|]. intros segs' _. split; [done|]. intros ? ? Hin. by apply elem_of_nil in Hin. }
  cbn [copy_records]. destruct (He external loc) as [doc Hl]; [left|]. rewrite (copied_record_spec _ _ _ _ _ Hok Hr Hl). cbn [io_bind].
  set (out := (COMPACTED_MAGIC ++ encs (RPut <$> ds)) ++ write_u8 OP_PUT).
  destruct (IH (ds ++ [doc]) (out ++ write_document doc) (locs ++ [(external, mkDocLocation (loc_internal_id loc) (zlen out) id (loc_len loc))]))
    as (docs & copied & E & Hds & Hc).
  { intros e l Hin. apply He. by right. }
  { rewrite fmap_app, encs_app. cbn [fmap list_fmap]. rewrite encs_single. cbn [enc]. unfold out. by rewrite <-!(assoc_L (++)). }
  rewrite E. exists (doc :: docs), ((external, mkDocLocation (loc_internal_id loc) (zlen out) id (loc_len loc)) :: copied).
  rewrite <-(assoc_L (++) ds) in Hc. split; [by rewrite <-!(assoc_L (++))|]. split; [constructor; [by eapply located_doc_ok|done]|].
  intros segs' Hs'. destruct (Hc segs' Hs') as [Ek Hcop]. split; [cbn; by rewrite Ek|]. intros e l' [E'|Hin]%elem_of_cons.
  - injection E' as -> ->. exists loc, doc. split_and!; [left|done| |done]. rewrite fmap_app in Hs'. destruct Hl as (Eid & c & l1 & l2 & _ & El).
    split; [done|]. exists true, (RPut <$> ds), (RPut <$> docs). split; [exact Hs'|]. rewrite El. cbn [loc_internal_id loc_len loc_segment].
    f_equal. unfold out. rewrite !length_app, u8_len. cbn [length COMPACTED_MAGIC]. lia.
  - destruct (Hcop e l' Hin) as (l0 & d & ? & ?). exists l0, d. split; [by right|done].
Qed.

(** A finished compaction: its file waits under its temporary name. *)
Definition completed_ok (disk : SDisk) (st : BinaryDocumentStore) (segs : Segs) (completed : CompletedSegmentCompaction) : Prop :=
  exists job docs, job_ok st segs job /\ cp_old_segment_ids completed = jb_segment_ids job /\ cp_new_segment_id completed = jb_next_segment_id job /\
    dk_tmp disk !! jb_next_segment_id job = Some (seg_bytes (true, RPut <$> docs)) /\ Forall doc_ok docs /\
    forall segs', segs' !! jb_next_segment_id job = Some (true, RPut <$> docs) -> copies segs segs' (jb_next_segment_id job) (jb_locations job) (cp_new_locations completed).
Lemma run_spec disk st segs A job :
  store_inv disk st segs A -> job_ok st segs job ->
  exists disk' completed, run_segment_compaction disk job = Ok (disk', completed) /\ store_inv disk' st segs A /\ completed_ok disk' st segs completed.
Proof.
  intros Hi Hj. destruct (copy_records_spec disk segs (jb_next_segment_id job) (jb_locations job) [] COMPACTED_MAGIC []) as (docs & copied & E & Hds & Hc).
  { apply (si_ok _ _ _ _ Hi). }
  { apply (si_disk _ _ _ _ Hi). }
  { apply (jo_located _ _ _ Hj). }
  { done. }
  unfold run_segment_compaction. rewrite E. cbn [io_bind]. eexists _, _. split; [done|]. split.
  - destruct Hi as [[H1 H1' H1''] H2 H3 H4 H5 H6 H7]. by split; try done.
  - exists job, docs. split_and!; try done. apply lookup_insert_eq.
Qed.

(** ** Installing *)

Lemma install_fold old_ids copied L n :
  NoDup copied.*1 -> exists n', fold_left (install_location old_ids) copied (L, n) =
    (map_imap (fun external current => Some (if bool_decide (loc_segment current ∈ old_ids) then default current ((list_to_map copied : gmap str DocLocation) !! external) else current)) L, n').
Proof.
  revert L n. induction copied as [|[e l] copied IH]; intros L n Hnd.
  { exists n. cbn [fold_left]. f_equal. apply map_eq. intros i. rewrite map_lookup_imap. destruct (L !! i) as [c|]; [|done]. cbn. rewrite lookup_empty. by destruct (bool_decide _). }
  cbn [fmap list_fmap] in Hnd. apply NoDup_cons in Hnd as [Hn Hnd]. cbn [fold_left]. unfold install_location at 2. cbn [fst snd].
  assert (Hnone : (list_to_map copied : gmap str DocLocation) !! e = None) by (by apply not_elem_of_list_to_map_1).
  set (L1 := match L !! e with Some c => if bool_decide (loc_segment c ∈ old_ids) then <[e := l]> L else L | None => L end).
  destruct (IH L1 (match L !! e with Some c => if bool_decide (loc_segment c ∈ old_ids) then S n else n | None => n end) Hnd) as [n' E]. exists n'.
  transitivity (fold_left (install_location old_ids) copied (L1, match L !! e with Some c => if bool_decide (loc_segment c ∈ old_ids) then S n else n | None => n end)).
  { f_equal. unfold L1. destruct (L !! e); [|done]. by destruct (bool_decide _). }
  rewrite E. f_equal. apply map_eq. intros i. rewrite !map_lookup_imap. cbn [list_to_map foldr uncurry fst snd]. destruct (decide (i = e)) as [->|Hne].
  - unfold L1. rewrite lookup_insert_eq. destruct (L !! e) as [c|] eqn:El; [|by rewrite El]. destruct (bool_decide (loc_segment c ∈ old_ids)) eqn:Eb.
    + rewrite lookup_insert_eq. cbn. rewrite Hnone, Eb. cbn. by destruct (bool_decide (loc_segment l ∈ old_ids)).
    + rewrite El. cbn. by rewrite Eb.
  - rewrite lookup_insert_ne by done. unfold L1. destruct (L !! e) as [c|] eqn:El; [|done]. destruct (bool_decide _); [|done]. by rewrite lookup_insert_ne.
Qed.
Lemma located_fun segs external loc doc doc' : located segs external loc doc -> located segs external loc doc' -> doc = doc'.
Proof.
  intros (_ & c & l1 & l2 & Hs & El) (_ & c' & l1' & l2' & Hs' & El'). rewrite Hs in Hs'. injection Hs' as <- E. apply (f_equal loc_offset) in El, El'. cbn [loc_offset] in *.
  apply encs_prefix_inj in E as [_ E]; [by injection E|lia].
Qed.

(** The segments after an install. *)
Definition installed_segs (segs : Segs) (old_ids : list Z) (id : Z) (docs : list StoredDocument) : Segs :=
  foldr delete (<[id := (true, RPut <$> docs)]> segs) old_ids.
Lemma lookup_installed segs old_ids id docs i :
  installed_segs segs old_ids id docs !! i = if decide (i ∈ old_ids) then None else <[id := (true, RPut <$> docs)]> segs !! i.
Proof.
  unfold installed_segs. induction old_ids as [|o old_ids IH]; [by rewrite decide_False by apply not_elem_of_nil|]. cbn [foldr].
  destruct (decide (i = o)) as [->|Hne]; [rewrite lookup_delete_eq, decide_True; [done|left]|]. rewrite lookup_delete_ne, IH by done.
  destruct (decide (i ∈ old_ids)), (decide (i ∈ o :: old_ids)) as [H|H]; try done; rewrite elem_of_cons in H; tauto.
Qed.
Lemma removed_segments old_ids disk i :
  dk_segments (fold_left remove_segment old_ids disk) !! i = if decide (i ∈ old_ids) then None else dk_segments disk !! i.
Proof.
  revert disk. induction old_ids as [|o old_ids IH]; intros disk; [by rewrite decide_False by apply not_elem_of_nil|]. cbn [fold_left]. rewrite IH. cbn [remove_segment dk_segments].
  destruct (decide (i = o)) as [->|Hne].
  - rewrite lookup_delete_eq. rewrite (decide_True _ _ (list_elem_of_here o old_ids)). by destruct (decide _).
  - rewrite lookup_delete_ne by done. destruct (decide (i ∈ old_ids)), (decide (i ∈ o :: old_ids)) as [H|H]; try done; rewrite elem_of_cons in H; tauto.
Qed.

(** The locations after an install: no document is in an old segment, and all are where they were
    or in the new one. *)
Definition installed_locations (old_ids : list Z) (copied : list (str * DocLocation)) (L : gmap str DocLocation) : gmap str DocLocation :=
  map_imap (fun external current => Some (if bool_decide (loc_segment current ∈ old_ids)
    then default current ((list_to_map copied : gmap str DocLocation) !! external) else current)) L.
Lemma installed_abs disk st segs A job docs copied :
  store_inv disk st segs A -> job_ok st segs job ->
  (forall segs', segs' !! jb_next_segment_id job = Some (true, RPut <$> docs) -> copies segs segs' (jb_next_segment_id job) (jb_locations job) copied) ->
  abs_rel (installed_segs segs (jb_segment_ids job) (jb_next_segment_id job) docs) (installed_locations (jb_segment_ids job) copied (bs_locations st)) A.
Proof.
  intros Hi Hj Hcop external. set (segs' := installed_segs _ _ _ _).
  assert (Hnew : segs' !! jb_next_segment_id job = Some (true, RPut <$> docs)).
  { unfold segs'. rewrite lookup_installed, decide_False by apply (jo_apart _ _ _ Hj). apply lookup_insert_eq. }
  destruct (Hcop segs' Hnew) as [Ek Hc]. unfold installed_locations. rewrite map_lookup_imap.
  pose proof (si_abs _ _ _ _ Hi external) as Ha. destruct (bs_locations st !! external) as [cur|] eqn:El, (A !! external) as [doc|]; try done. cbn.
  destruct (bool_decide_reflect (loc_segment cur ∈ jb_segment_ids job)) as [Hold|Hold].
  - pose proof (jo_complete _ _ _ Hj _ _ El Hold) as Hin. pose proof (jo_keys _ _ _ Hj) as Hnd.
    destruct ((list_to_map copied : gmap str DocLocation) !! external) as [loc'|] eqn:Em.
    + cbn. apply elem_of_list_to_map_2 in Em. destruct (Hc _ _ Em) as (loc & doc' & Hin' & Hl & Hl' & _).
      assert (loc = cur) as ->.
      { apply (elem_of_list_to_map_1 (M := gmap str)) in Hin, Hin'; [congruence|done|done]. }
      by rewrite (located_fun _ _ _ _ _ Ha Hl).
    + apply not_elem_of_list_to_map in Em. rewrite Ek in Em. destruct Em. apply list_elem_of_fmap. by exists (external, cur).
  - destruct Ha as (E & c & l1 & l2 & Hs & Eloc). split; [done|]. exists c, l1, l2. split; [|done]. unfold segs'. rewrite lookup_installed, decide_False by done.
    rewrite lookup_insert_ne; [done|]. intros Ei. destruct (jo_new _ _ _ Hj) as [Hn _]. rewrite Ei in Hn. congruence.
Qed.

Section install.
Context {BC : Bincode}.

Lemma install_spec disk st segs A completed :
  store_inv disk st segs A -> completed_ok disk st segs completed ->
  exists disk' st' b docs, install_segment_compaction disk st completed = Ok (disk', st', b) /\
    store_inv disk' st' (installed_segs segs (cp_old_segment_ids completed) (cp_new_segment_id completed) docs) A /\
    same_segments st st' /\ bs_docs st' = bs_docs st /\ bs_highest_id st' = bs_highest_id st /\
    dk_maps disk' = dk_maps (save_maps disk' (bs_locations st') (bs_highest_id st')).
Proof using.
  intros Hi (job & docs & Hj & Eo & En & Et & Hds & Hc). pose proof (installed_abs _ _ _ _ _ _ _ Hi Hj Hc) as Habs.
  destruct (Hc (<[jb_next_segment_id job := (true, RPut <$> docs)]> segs)) as [Ek _]; [apply lookup_insert_eq|].
  unfold install_segment_compaction, install_renamed. rewrite En, Et, Eo. cbn [io_of_option io_bind].
  destruct (install_fold (jb_segment_ids job) (cp_new_locations completed) (bs_locations st) 0) as [n Ef]; [rewrite Ek; apply (jo_keys _ _ _ Hj)|].
  rewrite Ef. fold (installed_locations (jb_segment_ids job) (cp_new_locations completed) (bs_locations st)). eexists _, _, _, docs. split; [done|].
  split; [|done]. destruct Hi as [Hr Hok _ Hca [rs Hcur] Hids Hnext]. destruct (jo_new _ _ _ Hj) as [Hfresh Hlt].
  split; cbn [with_maps bs_locations bs_docs bs_current_segment bs_next_segment_id]; [|..|done].
  - split; [|by left|by left]. intros i. cbn [save_maps dk_segments]. rewrite removed_segments, lookup_installed. cbn [save_maps with_segment dk_segments].
    destruct (decide (i ∈ jb_segment_ids job)); [done|]. destruct (decide (i = jb_next_segment_id job)) as [->|Hne].
    + rewrite lookup_insert_eq, lookup_insert_eq. cbn. by rewrite app_nil_r.
    + rewrite lookup_insert_ne, lookup_insert_ne by done. apply (rp_files _ _ _ Hr).
  - intros i s. rewrite lookup_installed. destruct (decide _); [done|]. destruct (decide (i = jb_next_segment_id job)) as [->|Hne].
    + rewrite lookup_insert_eq. intros [= <-]. cbn. by apply Forall_fmap.
    + rewrite lookup_insert_ne by done. apply Hok.
  - exact Habs.
  - exact Hca.
  - exists rs. rewrite lookup_installed, decide_False. { rewrite lookup_insert_ne; [done|]. apply not_eq_sym, (jo_current _ _ _ Hj). }
    intros Hin%(jo_sealed _ _ _ Hj). lia.
  - intros i [s Hs]. rewrite lookup_installed in Hs. destruct (decide _); [done|]. destruct (decide (i = jb_next_segment_id job)) as [->|Hne]; [done|].
    rewrite lookup_insert_ne in Hs by done. apply Hids. by eauto.
Qed.
End install.
