(* ===== verification/BinaryStoreRecover.v ===== *)
(** * Opening the document store

    What the saved maps and the segments together stand for ([snap_ok]): the maps are those of an
    earlier moment, and the records written since are the ends of the segments the maps know and
    the segments they do not know, in that order ([Plan]). Every operation keeps this, so a store
    that is killed at any moment is opened as it was ([open_spec]). *)
From Stdlib Require Import ZArith Lia String.
From stdpp Require Import base numbers list sorting gmap.
From S2P Require Import Prelude Types Utf8 BinaryStore BinaryStoreScan BinaryStoreCorrect BinaryStoreCompact.
Local Open Scope Z_scope.
Local Open Scope io_scope.

(** ** Numbers of segments *)

Definition seg_ids (segs : Segs) : list Z := sort_unstable (elements (dom segs)).
Lemma strictly_sorted l : StronglySorted Z.le l -> NoDup l -> StronglySorted Z.lt l.
Proof.
  induction 1 as [|x l Hs IH Hf]; intros Hn; constructor; apply NoDup_cons in Hn as [Hx Hn]; [by apply IH|].
  apply Forall_forall. intros y Hy. rewrite Forall_forall in Hf. specialize (Hf y Hy). assert (x <> y) by (by intros ->). lia.
Qed.
Lemma sorted_lt_ext l k : StronglySorted Z.lt l -> StronglySorted Z.lt k -> (forall x, x ∈ l <-> x ∈ k) -> l = k.
Proof.
  assert (Hnd : forall l, StronglySorted Z.lt l -> NoDup l).
  { induction 1 as [|x l0 Hs IH Hf]; constructor; [|done]. intros Hx. rewrite Forall_forall in Hf. specialize (Hf x Hx). lia. }
  intros Hl Hk He. apply (StronglySorted_unique_strong Z.lt); [intros; lia|done|done|]. by apply NoDup_Permutation; [apply Hnd|apply Hnd|].
Qed.
Lemma sorted_lt_filter (P : Z -> Prop) `{!forall x, Decision (P x)} l : StronglySorted Z.lt l -> StronglySorted Z.lt (filter P l).
Proof.
  induction 1 as [|x l Hs IH Hf]; [constructor|]. rewrite filter_cons. destruct (decide (P x)); [|done]. constructor; [done|].
  rewrite Forall_forall in *. intros y [_ Hy]%list_elem_of_filter. by apply Hf.
Qed.
Lemma seg_ids_sorted segs : StronglySorted Z.lt (seg_ids segs).
Proof. apply strictly_sorted; [apply sort_unstable_sorted|apply sort_nodup, NoDup_elements]. Qed.
Lemma elem_of_seg_ids segs id : id ∈ seg_ids segs <-> is_Some (segs !! id).
Proof. unfold seg_ids. by rewrite elem_of_sort_unstable, elem_of_elements, elem_of_dom. Qed.
Lemma list_ids_spec disk segs tails : represents disk segs tails -> list_segment_ids disk = seg_ids segs.
Proof.
  intros Hr. apply sorted_lt_ext; [|apply seg_ids_sorted|].
  - apply strictly_sorted; [apply sort_unstable_sorted|apply sort_nodup, NoDup_elements].
  - intros x. rewrite elem_of_seg_ids. by apply (segment_ids_spec disk segs tails).
Qed.
Lemma max_ids ids : (forall id, id ∈ ids -> 0 <= id) -> forall id, id ∈ ids -> id <= fold_right Z.max 0 ids.
Proof. intros _ id Hid. induction Hid; cbn; lia. Qed.
Lemma sorted_last l (x : Z) : StronglySorted Z.lt l -> last l = Some x -> forall y, y ∈ l -> y <= x.
Proof.
  intros Hs (k & ->)%last_Some y [Hy|Hy%list_elem_of_singleton]%elem_of_app; [|lia].
  apply StronglySorted_app in Hs as (Hlt & _ & _). specialize (Hlt y x Hy (list_elem_of_here x [])). lia.
Qed.

Lemma filter_in_ext {A} (P Q : A -> Prop) `{!forall x, Decision (P x), !forall x, Decision (Q x)} (l : list A) :
  (forall x, x ∈ l -> P x <-> Q x) -> filter P l = filter Q l.
Proof.
  induction l as [|x l IH]; intros Hx; [done|]. rewrite !filter_cons. specialize (IH (fun y Hy => Hx y (list_elem_of_further _ _ _ Hy))).
  specialize (Hx x (list_elem_of_here _ _)). destruct (decide (P x)), (decide (Q x)); try tauto. by rewrite IH.
Qed.

Lemma filter_everything {A} (P : A -> Prop) `{!forall x, Decision (P x)} (l : list A) : (forall x, x ∈ l -> P x) -> filter P l = l.
Proof.
  induction l as [|x l IH]; intros Hx; [done|]. rewrite filter_cons, decide_True by (apply Hx; left). f_equal. apply IH. intros y Hy. apply Hx. by right.
Qed.

(** ** Snapshots *)

Definition abs_plan (plan : Plan) (A : Docs) : Docs := fold_left (fun A it => abs_steps it.2 A) plan A.
Lemma abs_rel_plan segs plan L A :
  segs_ok segs -> Forall (item_ok segs) plan -> abs_rel segs L A -> abs_rel segs (replay_plan plan L) (abs_plan plan A).
Proof.
  intros Hok Hp. revert L A. induction Hp as [|[[id from] l2] plan (c & l1 & Hs & Hfrom) Hp IH]; intros L A Ha; [done|].
  cbn [replay_plan abs_plan fold_left fst snd] in *. apply IH.
  assert (item_pos from = 8 + zlen (encs l1)) as -> by (destruct Hfrom as [->|[-> ->]]; done).
  apply (abs_rel_steps _ _ _ _ c l1 l2 []); [done|by rewrite app_nil_r|done].
Qed.

(** The items of a plan whose records are not all before a later one's. *)
Record snap_ok (segs : Segs) (saved : MapsFile) (pt pu : Plan) (A : Docs) : Prop := {
  sn_items : Forall (item_ok segs) (pt ++ pu);
  sn_known : pt.*1 = (fun t => (t.1, Some t.2)) <$> filter (fun t => is_Some (segs !! t.1)) (mf_segment_ends saved);
  sn_unknown : pu.*1 = (fun id => (id, None)) <$> filter (fun id => id ∉ (mf_segment_ends saved).*1) (seg_ids segs);
  sn_compacted : forall id rs, segs !! id = Some (true, rs) -> id ∈ (mf_segment_ends saved).*1;
  sn_keys : NoDup (mf_entries saved).*1;
  sn_base : exists A0, abs_rel segs (list_to_map (mf_entries saved)) A0 /\ A = abs_plan (pt ++ pu) A0;
  sn_sorted : StronglySorted Z.lt (mf_segment_ends saved).*1;
  sn_order : forall k id, k ∈ (mf_segment_ends saved).*1 -> is_Some (segs !! id) -> id ∉ (mf_segment_ends saved).*1 -> k < id;
  sn_max : forall k, k ∈ (mf_segment_ends saved).*1 -> exists id, is_Some (segs !! id) /\ k <= id
}.
(** The current segment is the last one with records. *)
Definition current_last (plan : Plan) (current : Z) : Prop :=
  exists pre from rs post, plan = pre ++ (current, from, rs) :: post /\ Forall (fun it => it.2 = []) post.

(** ** Loading *)

Lemma check_ends_spec disk segs orphans tails in_use pt ends :
  represents disk (segs ∪ orphans) tails -> segs_ok segs -> Forall (item_ok segs) pt -> (forall t, t ∈ ends -> orphans !! t.1 = None) ->
  pt.*1 = (fun t => (t.1, Some t.2)) <$> filter (fun t => is_Some (segs !! t.1)) ends ->
  (forall id, id ∈ in_use -> is_Some (segs !! id)) ->
  check_ends disk in_use ends = Some (filter (fun t => is_Some (segs !! t.1)) ends).
Proof.
  intros Hr Hok. revert pt. induction ends as [|[id end_] ends IH]; intros pt Hpt Ho Ek Hu; [done|]. cbn [check_ends]. rewrite filter_cons in Ek |- *. cbn [fst] in *.
  assert (Ho' : forall t, t ∈ ends -> orphans !! t.1 = None) by (intros t Ht; apply Ho; by right). specialize (Ho (id, end_) (list_elem_of_here _ _)). cbn in Ho.
  rewrite (rp_files _ _ _ Hr), lookup_union_l by done. destruct (segs !! id) as [s|] eqn:Es; cbn [fmap option_fmap option_map].
  - destruct (decide (is_Some (Some s))) as [_|Hn]; [|by destruct Hn]. destruct pt as [|[[i f] l2] pt]; [done|]. cbn [fmap list_fmap] in Ek. injection Ek as -> -> Ek.
    apply Forall_cons in Hpt as [(c & l1 & Hs & Hf) Hpt]. cbn [fst snd] in *. rewrite Es in Hs. injection Hs as ->.
    destruct Hf as [[= ->]|[? _]]; [|done]. rewrite length_app. pose proof (seg_bytes_len c (l1 ++ l2)) as Hlen. rewrite encs_app, length_app in Hlen.
    destruct (Z.leb_spec (8 + zlen (encs l1)) (Z.of_nat (length (seg_bytes (c, l1 ++ l2)) + length (tails id)))); [|lia]. by rewrite (IH pt).
  - destruct (decide (is_Some None)) as [[? ?]|_]; [done|]. rewrite bool_decide_eq_false_2; [by apply (IH pt)|]. intros [? ?]%Hu. congruence.
Qed.
Lemma load_entries entries s :
  NoDup entries.*1 -> bs_locations s = ∅ -> exists s', fold_left load_entry entries s = s' /\ bs_locations s' = list_to_map entries /\ same_segments s s' /\
    bs_docs s' = bs_docs s /\ bs_highest_id s <= bs_highest_id s'.
Proof.
  intros Hnd Hs. cut (forall (L : gmap str DocLocation), (forall e, e ∈ entries.*1 -> L !! e = None) -> bs_locations s = L ->
    exists s', fold_left load_entry entries s = s' /\ bs_locations s' = list_to_map entries ∪ L /\ same_segments s s' /\ bs_docs s' = bs_docs s /\ bs_highest_id s <= bs_highest_id s').
  { intros H. destruct (H ∅) as (s' & ? & E & ?); [by intros; apply lookup_empty|done|]. exists s'. rewrite map_union_empty in E. done. }
  clear Hs. revert s. induction entries as [|[e l] entries IH]; intros s L HL Hs.
  { exists s. rewrite list_to_map_nil, map_empty_union. by split_and!. }
  cbn [fmap list_fmap] in Hnd. apply NoDup_cons in Hnd as [Hn Hnd]. cbn [fold_left].
  destruct (IH Hnd (load_entry s (e, l)) (<[e := l]> L)) as (s' & E & El & Hss & Hd & Hh).
  { intros x Hx. rewrite lookup_insert_ne; [apply HL; by right|]. by intros ->. }
  { cbn. by rewrite Hs. }
  exists s'. split; [done|]. split; [|split; [done|split; [done|]]].
  - rewrite El, list_to_map_cons. rewrite <-insert_union_r by (by apply not_elem_of_list_to_map_1). by rewrite insert_union_l.
  - cbn in Hh. lia.
Qed.
Lemma scan_unknown_spec known ids : forall disk segs orphans tails s versions pu,
  segs_ok segs -> segs_ok orphans -> represents disk (segs ∪ orphans) tails -> orphans ##ₘ segs -> NoDup ids ->
  (forall id, id ∈ ids -> is_Some (segs !! id) \/ is_Some (orphans !! id)) ->
  (forall id s, orphans !! id = Some s -> s.1 = true /\ id ∈ ids /\ id ∉ known) -> (forall id rs, segs !! id = Some (true, rs) -> id ∈ known) ->
  Forall (item_ok segs) pu -> pu.*1 = (fun id => (id, None)) <$> filter (fun id => id ∉ known) (filter (fun id => is_Some (segs !! id)) ids) ->
  exists disk' s', scan_unknown disk s known ids versions = Ok (disk', s') /\ represents disk' segs (clean_all tails pu.*1.*1) /\
    dk_tmp disk' = dk_tmp disk /\ dk_maps disk' = dk_maps disk /\ scanned s s' (replay_plan pu (bs_locations s)).
Proof.
  induction ids as [|id ids IH]; intros disk segs orphans tails s versions pu Hok Hoo Hr Hd Hnd Hids Ho Hc Hp Eu.
  - cbn in Eu. apply fmap_nil_inv in Eu as ->. exists disk, s. split; [done|]. split; [|split; [done|split; [done|by split_and!; [|reflexivity|reflexivity|lia]]]].
    assert (orphans = ∅) as ->. { apply map_empty. intros i. destruct (orphans !! i) as [o|] eqn:E; [|done]. apply Ho in E as (_ & E & _). by apply elem_of_nil in E. }
    rewrite map_union_empty in Hr. eapply represents_ext; [|exact Hr]. intros i. unfold clean_all. rewrite decide_False; [done|]. apply not_elem_of_nil.
  - apply NoDup_cons in Hnd as [Hn Hnd]. cbn [scan_unknown]. rewrite filter_cons in Eu.
    assert (Hids' : forall i, i ∈ ids -> is_Some (segs !! i) \/ is_Some (orphans !! i)) by (intros i Hi; apply Hids; by right).
    assert (Hsegs : is_Some (segs !! id) -> forall i s, orphans !! i = Some s -> s.1 = true /\ i ∈ ids /\ i ∉ known).
    { intros [x Hx] i o Hi. destruct (Ho i o Hi) as (? & [->|?]%elem_of_cons & ?); [|done]. by rewrite (map_disjoint_Some_l _ _ _ _ Hd Hi) in Hx. }
    destruct (bool_decide_reflect (id ∈ known)) as [Hk|Hk].
    { destruct (Hids id (list_elem_of_here _ _)) as [His|[o Hio]]; [|by destruct (Ho _ _ Hio) as (_ & _ & ?)].
      rewrite decide_True in Eu by done. rewrite filter_cons, decide_False in Eu by tauto.
      eapply (IH disk segs orphans); try done. by apply Hsegs. }
    destruct (segs !! id) as [[c rs]|] eqn:Es.
    + rewrite decide_True in Eu by eauto. rewrite filter_cons, decide_True in Eu by done.
      assert (Hu : (segs ∪ orphans) !! id = Some (c, rs)) by (by apply lookup_union_Some_l). rewrite (segment_magic_spec _ _ _ _ _ _ Hr Hu). cbn [io_bind].
      destruct (magic_compacted c) as [_ ->]. destruct c; [by apply Hc in Es|]. destruct pu as [|[[i f] l2] pu]; [done|]. cbn [fmap list_fmap] in Eu. injection Eu as -> -> Eu.
      apply Forall_cons in Hp as [(c & l1 & Hs & Hf) Hp]. cbn [fst snd] in *. destruct Hf as [?|[_ ->]]; [done|]. rewrite Es in Hs. injection Hs as <- ->.
      assert (Hok' : segs_ok (segs ∪ orphans)) by (by apply map_Forall_union_2).
      destruct (scan_segment_spec disk (segs ∪ orphans) tails s id false [] l2 None versions Hok' Hr Hu) as (d1 & s1 & v1 & E1 & Hr1 & Ht1 & Hm1 & Hs1); [by right|].
      rewrite E1. cbn [io_bind]. destruct (IH d1 segs orphans (clean tails id) s1 v1 pu) as (d2 & s2 & E2 & Hr2 & Ht2 & Hm2 & Hs2); try done; [by apply Hsegs; eauto|].
      exists d2, s2. split; [done|]. split; [|split; [congruence|split; [congruence|]]].
      * eapply represents_ext; [|exact Hr2]. intros i. unfold clean_all, clean. cbn [fmap list_fmap fst].
        destruct (decide (i ∈ pu.*1.*1)) as [Hin|Hin], (decide (i ∈ id :: pu.*1.*1)) as [Hin'|Hin'], (decide (i = id)) as [Hi|Hi]; try done;
          rewrite elem_of_cons in Hin'; tauto.
      * eapply scanned_trans; [exact Hs1|]. destruct Hs1 as [El _]. rewrite El in Hs2. exact Hs2.
    + rewrite decide_False in Eu by (by intros [? ?]). destruct (Hids id (list_elem_of_here _ _)) as [[? ?]|[[c rs] Hio]]; [congruence|].
      destruct (Ho _ _ Hio) as (Ec & _ & _). cbn in Ec. subst c. assert (Hu : (segs ∪ orphans) !! id = Some (true, rs)) by (by apply lookup_union_Some_r).
      rewrite (segment_magic_spec _ _ _ _ _ _ Hr Hu). cbn [io_bind]. destruct (magic_compacted true) as [_ ->].
      destruct (IH (remove_segment disk id) segs (delete id orphans) tails s versions pu) as (d2 & s2 & E2 & Hr2 & Ht2 & Hm2 & Hs2); try done.
      * by apply map_Forall_delete.
      * destruct Hr as [H1 H2 H3]. split; [|done|].
        -- intros i. cbn [remove_segment dk_segments]. destruct (decide (i = id)) as [->|Hne].
           ++ rewrite lookup_delete_eq. rewrite lookup_union_r by done. by rewrite lookup_delete_eq.
           ++ rewrite lookup_delete_ne by done. rewrite H1. f_equal. rewrite !lookup_union. by rewrite lookup_delete_ne.
        -- intros i c l Hi. apply (H3 i c l). rewrite !lookup_union in *. destruct (decide (i = id)) as [->|Hne]; [by rewrite lookup_delete_eq, Es in Hi|].
           by rewrite lookup_delete_ne in Hi.
      * by apply map_disjoint_delete_l.
      * intros i Hi. destruct (Hids' i Hi) as [?|?]; [by left|]. right. rewrite lookup_delete_ne; [done|]. by intros ->.
      * intros i o [Hne Hi]%lookup_delete_Some. destruct (Ho i o Hi) as (? & [->|?]%elem_of_cons & ?); done.
      * exists d2, s2. done.
Qed.

(** ** The segment new writes go to *)

Lemma plan_last (p : Plan) cur : StronglySorted Z.lt p.*1.*1 -> cur ∈ p.*1.*1 -> (forall id, id ∈ p.*1.*1 -> id <= cur) -> exists pre from rs, p = pre ++ [(cur, from, rs)].
Proof.
  destruct p as [|[[id from] rs] p _] using rev_ind; [intros _ H; by apply elem_of_nil in H|]. rewrite !fmap_app. cbn [fmap list_fmap fst]. intros Hs Hc Hm. exists p, from, rs.
  assert (id = cur) as ->; [|done]. apply elem_of_app in Hc as [Hc|Hc%list_elem_of_singleton]; [|done].
  apply StronglySorted_app in Hs as (Hlt & _ & _). specialize (Hlt cur id Hc (list_elem_of_here _ _)). specialize (Hm id). rewrite elem_of_app in Hm.
  specialize (Hm (or_intror (list_elem_of_here _ _))). lia.
Qed.
Lemma known_ids segs saved pt pu A : snap_ok segs saved pt pu A -> pt.*1.*1 = filter (fun k => is_Some (segs !! k)) (mf_segment_ends saved).*1.
Proof.
  intros Hs. rewrite (sn_known _ _ _ _ _ Hs). generalize (mf_segment_ends saved). intros l. induction l as [|[k e] l IH]; [done|]. cbn [fmap list_fmap fst]. rewrite !filter_cons. cbn [fst].
  destruct (decide _); [|done]. cbn. by f_equal.
Qed.
Lemma unknown_ids segs saved pt pu A : snap_ok segs saved pt pu A -> pu.*1.*1 = filter (fun id => id ∉ (mf_segment_ends saved).*1) (seg_ids segs).
Proof. intros Hs. rewrite (sn_unknown _ _ _ _ _ Hs), <-list_fmap_compose. by apply list_fmap_id. Qed.
Lemma snap_current segs saved pt pu A cur : snap_ok segs saved pt pu A -> last (seg_ids segs) = Some cur -> current_last (pt ++ pu) cur.
Proof.
  intros Hs Hl. pose proof (sorted_last _ _ (seg_ids_sorted segs) Hl) as Hm. assert (Hc : cur ∈ seg_ids segs) by (by apply last_Some_elem_of).
  pose proof (unknown_ids _ _ _ _ _ Hs) as Eu. pose proof (known_ids _ _ _ _ _ Hs) as Ek. destruct (decide (cur ∈ (mf_segment_ends saved).*1)) as [Hk|Hk].
  - assert (pu = []) as ->.
    { destruct pu as [|[[id f] rs] pu]; [done|]. assert (Hid : id ∈ filter (fun id => id ∉ (mf_segment_ends saved).*1) (seg_ids segs)) by (rewrite <-Eu; left).
      apply list_elem_of_filter in Hid as [Hid Hin]. pose proof (sn_order _ _ _ _ _ Hs cur id Hk) as Ho. rewrite <-elem_of_seg_ids in Ho. specialize (Ho Hin Hid). specialize (Hm id Hin). lia. }
    destruct (plan_last pt cur) as (pre & from & rs & ->).
    + rewrite Ek. apply sorted_lt_filter, (sn_sorted _ _ _ _ _ Hs).
    + rewrite Ek. apply list_elem_of_filter. split; [by apply elem_of_seg_ids|done].
    + intros id. rewrite Ek. intros [Hid _]%list_elem_of_filter. apply Hm. by apply elem_of_seg_ids.
    + exists pre, from, rs, []. by rewrite app_nil_r.
  - destruct (plan_last pu cur) as (pre & from & rs & ->).
    + rewrite Eu. apply sorted_lt_filter, seg_ids_sorted.
    + rewrite Eu. by apply list_elem_of_filter.
    + intros id. rewrite Eu. intros [_ Hid]%list_elem_of_filter. by apply Hm.
    + exists (pt ++ pre), from, rs, []. by rewrite <-(assoc_L (++)).
Qed.
Lemma item_ok_grow segs segs' it : (forall s, segs !! it.1.1 = Some s -> segs' !! it.1.1 = Some s) -> item_ok segs it -> item_ok segs' it.
Proof. intros H (c & l1 & Hs & Hf). exists c, l1. split; [by apply H|done]. Qed.
(** A new segment, later than all. *)
Lemma snap_rotate segs saved pt pu A id :
  snap_ok segs saved pt pu A -> (forall i, is_Some (segs !! i) -> i < id) ->
  snap_ok (<[id := (false, [])]> segs) saved pt (pu ++ [(id, None, [])]) A /\ current_last (pt ++ pu ++ [(id, None, [])]) id.
Proof.
  intros Hs Hid. assert (Hn : segs !! id = None). { destruct (segs !! id) eqn:E; [|done]. specialize (Hid id (mk_is_Some _ _ E)). lia. }
  assert (Hk : id ∉ (mf_segment_ends saved).*1). { intros Hin. destruct (sn_max _ _ _ _ _ Hs id Hin) as (i & Hi & Hle). specialize (Hid i Hi). lia. }
  assert (Hg : grows segs (<[id := (false, [])]> segs)) by (by apply insert_grows). split; [|by exists (pt ++ pu), None, [], []; rewrite <-(assoc_L (++))].
  assert (Hsub : forall i, is_Some (segs !! i) -> is_Some (<[id := (false, [])]> segs !! i)).
  { intros i [s Hi]. rewrite lookup_insert_ne; [by eauto|]. intros ->. congruence. }
  destruct Hs as [H1 H2 H3 H4 H5 (A0 & H6 & H6') H7 H8 H9]. split; [..|done|exists A0; split|done| |].
  - rewrite (assoc_L (++)). apply Forall_app. split.
    + eapply Forall_impl; [exact H1|]. intros it. apply item_ok_grow. intros s Hi. rewrite lookup_insert_ne; [done|]. intros ->. congruence.
    + apply Forall_singleton. exists false, []. split; [apply lookup_insert_eq|by right].
  - rewrite H2. f_equal. apply filter_in_ext. intros t Ht. split; [apply Hsub|]. intros Hi. rewrite lookup_insert_ne in Hi; [done|].
    intros ->. apply Hk. by apply list_elem_of_fmap_2.
  - rewrite fmap_app, H3. change (([(id, None, [])] : Plan).*1) with ((fun i : Z => (i, @None Z)) <$> [id]). rewrite <-fmap_app. f_equal. apply sorted_lt_ext.
    + apply StronglySorted_app. split_and!; [|apply sorted_lt_filter, seg_ids_sorted|repeat constructor].
      intros x y [_ Hx%elem_of_seg_ids]%list_elem_of_filter ->%list_elem_of_singleton. by apply Hid.
    + apply sorted_lt_filter, seg_ids_sorted.
    + intros x. rewrite elem_of_app, list_elem_of_singleton, !list_elem_of_filter, !elem_of_seg_ids. split.
      * intros [[? ?]| ->]; [by eauto|]. split; [done|]. rewrite lookup_insert_eq. eauto.
      * intros [Hx Hi]. destruct (decide (x = id)) as [->|]; [by right|]. rewrite lookup_insert_ne in Hi by done. by left.
  - intros i rs Hi. destruct (decide (i = id)) as [->|]; [by rewrite lookup_insert_eq in Hi|]. rewrite lookup_insert_ne in Hi by done. by eapply H4.
  - by eapply abs_rel_grows.
  - rewrite H6'. unfold abs_plan. rewrite (assoc_L (++)), (fold_left_app _ (pt ++ pu)). done.
  - intros k i Hki Hi Hu. destruct (decide (i = id)) as [->|]; [|rewrite lookup_insert_ne in Hi by done; by apply H8].
    destruct (H9 k Hki) as (j & Hj & Hle). specialize (Hid j Hj). lia.
  - intros k Hki. destruct (H9 k Hki) as (j & Hj & Hle). exists j. split; [by apply Hsub|done].
Qed.

Section open.
Context {BC : Bincode}.

Lemma append_segment_spec disk s segs saved pt pu A :
  represents disk segs whole -> segs_ok segs -> segs <> ∅ -> abs_rel segs (bs_locations s) A -> bs_docs s ⊆ A ->
  (forall id, is_Some (segs !! id) -> 0 <= id < bs_next_segment_id s) -> bs_next_segment_id s + 1 < 2 ^ 32 -> snap_ok segs saved pt pu A ->
  exists disk' s' segs' pu', append_segment disk s = Ok (disk', s') /\ store_inv disk' s' segs' A /\ snap_ok segs' saved pt pu' A /\
    current_last (pt ++ pu') (bs_current_segment s') /\ bs_next_segment_id s' <= bs_next_segment_id s + 1 /\ dk_maps disk' = dk_maps disk.
Proof using.
  intros Hr Hok Hne Ha Hd Hids Hroom Hs. unfold append_segment. rewrite (list_ids_spec _ _ _ Hr). destruct (last (seg_ids segs)) as [id|] eqn:El.
  2:{ apply last_None in El. destruct (map_choose segs Hne) as (i & s0 & Hi). assert (Hin : i ∈ seg_ids segs) by (apply elem_of_seg_ids; eauto). rewrite El in Hin. by apply elem_of_nil in Hin. }
  assert (Hin : id ∈ seg_ids segs) by (by apply last_Some_elem_of). apply elem_of_seg_ids in Hin as [[c rs] Hid]. pose proof (Hids id (mk_is_Some _ _ Hid)) as Hb.
  rewrite (segment_magic_spec _ _ _ _ _ _ Hr Hid). cbn [io_bind]. destruct (magic_compacted c) as [-> _]. destruct c; cbn [negb].
  - assert (Hw : wrap 32 (bs_next_segment_id s + 1) = bs_next_segment_id s + 1) by (unfold wrap; apply Z.mod_small; lia).
    destruct (snap_rotate segs saved pt pu A (bs_next_segment_id s) Hs) as [Hs' Hc']; [intros i Hi; by apply Hids|].
    eexists _, _, _, _. split; [done|]. split; [|split; [exact Hs'|split; [exact Hc'|cbn; rewrite Hw; split; [lia|done]]]].
    assert (Hf : segs !! bs_next_segment_id s = None). { destruct (segs !! bs_next_segment_id s) eqn:E; [|done]. specialize (Hids _ (mk_is_Some _ _ E)). lia. }
    split; cbn [with_segments bs_locations bs_docs bs_current_segment bs_next_segment_id].
    + by apply represents_new.
    + apply map_Forall_insert_2; [constructor|done].
    + by apply (abs_rel_grows segs); [apply insert_grows|].
    + done.
    + exists []. apply lookup_insert_eq.
    + intros i Hi. rewrite Hw. destruct (decide (i = bs_next_segment_id s)) as [->|]; [lia|]. rewrite lookup_insert_ne in Hi by done. specialize (Hids i Hi). lia.
    + lia.
  - eexists _, _, segs, pu. split; [done|]. split; [|split; [done|split; [by apply (snap_current segs saved pt pu A)|cbn; split; [lia|done]]]].
    split; cbn [with_segments bs_locations bs_docs bs_current_segment bs_next_segment_id]; [done|done|done|done|by exists rs|done|lia].
Qed.

(** The maps file of a directory: none, or the one that was saved. *)
Definition saved_in (disk : SDisk) (saved : MapsFile) : Prop :=
  (dk_maps disk = None /\ mf_segment_ends saved = [] /\ mf_entries saved = []) \/ read_maps disk = Some saved.

Lemma below_empty (m : Docs) : m ⊆ ∅ -> m = ∅.
Proof using. intros H. apply (anti_symm (⊆)); [done|apply map_empty_subseteq]. Qed.
Lemma represents_whole disk segs tails : represents disk segs tails -> (forall id, is_Some (segs !! id) -> tails id = []) -> represents disk segs whole.
Proof using.
  intros [H1 H2 H3] Ht. split; [|by left|by left]. intros id. rewrite H1. destruct (segs !! id) as [s|] eqn:E; [|done]. cbn. by rewrite (Ht id (mk_is_Some _ _ E)).
Qed.
(** What loading leaves. *)
Definition loaded (disk : SDisk) (s : BinaryDocumentStore) (segs : Segs) (A : Docs) (disk' : SDisk) (s' : BinaryDocumentStore) : Prop :=
  represents disk' segs whole /\ dk_maps disk' = dk_maps disk /\ same_segments s s' /\ abs_rel segs (bs_locations s') A /\ bs_docs s' = ∅.
Lemma plan_covers segs saved pt pu A id : snap_ok segs saved pt pu A -> is_Some (segs !! id) -> id ∈ pt.*1.*1 \/ id ∈ pu.*1.*1.
Proof using.
  intros Hs Hid. rewrite (known_ids _ _ _ _ _ Hs), (unknown_ids _ _ _ _ _ Hs), !list_elem_of_filter, elem_of_seg_ids.
  destruct (decide (id ∈ (mf_segment_ends saved).*1)); tauto.
Qed.
Lemma load_spec disk s segs tails saved pt pu A :
  segs_ok segs -> represents disk segs tails -> snap_ok segs saved pt pu A -> mf_segment_ends saved = [] -> mf_entries saved = [] ->
  bs_locations s = ∅ -> bs_docs s = ∅ -> exists disk' s', load disk s = Ok (disk', s') /\ loaded disk s segs A disk' s'.
Proof using.
  intros Hok Hr Hs Ee En Hl Hd. assert (pt = []) as ->. { pose proof (sn_known _ _ _ _ _ Hs) as E. rewrite Ee in E. by apply fmap_nil_inv in E. }
  pose proof (sn_unknown _ _ _ _ _ Hs) as Eu. rewrite Ee in Eu.
  rewrite (filter_everything _ (seg_ids segs)) in Eu by (intros; apply not_elem_of_nil).
  destruct (scan_segments_spec pu disk segs tails s ∅ Hok Hr (sn_items _ _ _ _ _ Hs)) as (d1 & s1 & v1 & E1 & Hr1 & _ & Hm1 & Hs1 & Hss & Hds & _).
  unfold load. rewrite (list_ids_spec _ _ _ Hr), <-Eu, E1. cbn [io_bind]. exists d1, s1. split; [done|]. split; [|split; [done|split; [done|split]]].
  - apply (represents_whole _ _ _ Hr1). intros id Hid. unfold clean_all. rewrite decide_True; [done|]. by destruct (plan_covers _ _ _ _ _ id Hs Hid) as [?%elem_of_nil|?].
  - rewrite Hs1, Hl. destruct (sn_base _ _ _ _ _ Hs) as (A0 & Ha & ->). rewrite En in Ha. by apply abs_rel_plan; [|apply (sn_items _ _ _ _ _ Hs)|].
  - rewrite Hd in Hds. by apply below_empty.
Qed.
Lemma load_maps_spec disk s segs orphans tails saved pt pu A :
  segs_ok segs -> segs_ok orphans -> orphans ##ₘ segs -> represents disk (segs ∪ orphans) tails ->
  (forall id s, orphans !! id = Some s -> s.1 = true /\ id ∉ (mf_segment_ends saved).*1) -> read_maps disk = Some saved ->
  snap_ok segs saved pt pu A -> bs_locations s = ∅ -> bs_docs s = ∅ ->
  exists disk' s', load_from_maps disk s = Ok (true, disk', s') /\ loaded disk s segs A disk' s'.
Proof using.
  intros Hok Hoo Hd Hr Ho Em Hs Hl Hds. unfold load_from_maps. rewrite Em. destruct (sn_base _ _ _ _ _ Hs) as (A0 & Ha & EA).
  pose proof (sn_items _ _ _ _ _ Hs) as Hitems. apply Forall_app in Hitems as [Hpt Hpu].
  rewrite (check_ends_spec disk segs orphans tails _ pt); [|done|done|done| |apply (sn_known _ _ _ _ _ Hs)|].
  2:{ intros t Ht. destruct (orphans !! t.1) as [o|] eqn:E; [|done]. apply Ho in E as [_ []]. by apply list_elem_of_fmap_2. }
  2:{ intros id ([e l] & -> & He)%list_elem_of_fmap. cbn. specialize (Ha e). rewrite (elem_of_list_to_map_1 _ e l (sn_keys _ _ _ _ _ Hs) He) in Ha.
      destruct (A0 !! e) as [doc|]; [|done]. destruct Ha as (_ & c & l1 & l2 & E & _). eauto. }
  destruct (load_entries (mf_entries saved) (with_maps s (bs_docs s) (bs_internal_to_external s) (bs_locations s) (Z.max (bs_highest_id s) (mf_highest_id saved))) (sn_keys _ _ _ _ _ Hs) Hl)
    as (s1 & E1 & El1 & Hss1 & Hd1 & _). rewrite E1. rewrite <-(sn_known _ _ _ _ _ Hs).
  assert (Hoku : segs_ok (segs ∪ orphans)) by (by apply map_Forall_union_2).
  destruct (scan_segments_spec pt disk (segs ∪ orphans) tails s1 ∅ Hoku Hr) as (d2 & s2 & v2 & E2 & Hr2 & _ & Hm2 & Hl2 & Hss2 & Hd2 & _).
  { eapply Forall_impl; [exact Hpt|]. intros it. apply item_ok_grow. intros x Hx. by apply lookup_union_Some_l. }
  rewrite E2. cbn [io_bind]. rewrite (list_ids_spec _ _ _ Hr).
  destruct (scan_unknown_spec (mf_segment_ends saved).*1 (seg_ids (segs ∪ orphans)) d2 segs orphans (clean_all tails pt.*1.*1) s2 v2 pu)
    as (d3 & s3 & E3 & Hr3 & _ & Hm3 & Hl3 & Hss3 & Hd3 & _); try done.
  { apply sort_nodup, NoDup_elements. }
  { intros id Hid%elem_of_seg_ids. by rewrite lookup_union_is_Some in Hid. }
  { intros id o E. destruct (Ho id o E). split_and!; [done| |done]. apply elem_of_seg_ids, lookup_union_is_Some. right. eauto. }
  { apply (sn_compacted _ _ _ _ _ Hs). }
  { rewrite (sn_unknown _ _ _ _ _ Hs). do 2 f_equal. apply sorted_lt_ext; [apply seg_ids_sorted|apply sorted_lt_filter, seg_ids_sorted|].
    intros x. rewrite list_elem_of_filter, !elem_of_seg_ids, lookup_union_is_Some. tauto. }
  rewrite E3. cbn [io_bind]. exists d3, s3. split; [done|]. split; [|split; [congruence|split; [|split]]].
  - apply (represents_whole _ _ _ Hr3). intros id Hid. unfold clean_all. destruct (plan_covers _ _ _ _ _ id Hs Hid) as [Hin|Hin].
    + destruct (decide (id ∈ pu.*1.*1)); [done|]. by rewrite decide_True.
    + by rewrite decide_True.
  - etransitivity; [exact Hss1|]. etransitivity; [exact Hss2|exact Hss3].
  - rewrite Hl3, Hl2, El1, EA. unfold abs_plan, replay_plan. rewrite fold_left_app. by apply abs_rel_plan, abs_rel_plan.
  - apply below_empty. rewrite <-Hds. etransitivity; [exact Hd3|]. etransitivity; [exact Hd2|]. by rewrite Hd1.
Qed.

Lemma open_spec disk segs orphans tails saved pt pu A n :
  segs_ok segs -> segs_ok orphans -> orphans ##ₘ segs -> represents disk (segs ∪ orphans) tails -> segs <> ∅ ->
  (forall id s, orphans !! id = Some s -> s.1 = true /\ id ∉ (mf_segment_ends saved).*1) -> saved_in disk saved -> (dk_maps disk = None -> orphans = ∅) ->
  snap_ok segs saved pt pu A -> (forall id, is_Some ((segs ∪ orphans) !! id) -> 0 <= id < n) -> n + 1 < 2 ^ 32 ->
  exists disk' s' segs' pu', open_with_maps disk = Ok (disk', s') /\ store_inv disk' s' segs' A /\ snap_ok segs' saved pt pu' A /\
    current_last (pt ++ pu') (bs_current_segment s') /\ bs_next_segment_id s' <= n + 1 /\ dk_maps disk' = dk_maps disk.
Proof using.
  intros Hok Hoo Hd Hr Hne Ho Hsv Hon Hs Hids Hroom. unfold open_with_maps, first_segments. pose proof (list_ids_spec _ _ _ Hr) as Eids.
  set (ids := seg_ids (segs ∪ orphans)) in *. rewrite Eids.
  destruct (map_choose segs Hne) as (i0 & s0 & Hi0). assert (Hin0 : i0 ∈ ids) by (apply elem_of_seg_ids; rewrite (lookup_union_Some_l _ _ _ _ Hi0); eauto).
  destruct ids as [|id0 ids0] eqn:Ei; [by apply elem_of_nil in Hin0|]. rewrite <-Ei in *. clear Ei id0 ids0.
  assert (Hb : forall id, id ∈ ids -> 0 <= id < n) by (intros id Hid; apply Hids; by apply elem_of_seg_ids).
  assert (Hmax : 0 <= fold_right Z.max 0 ids < n).
  { clear -Hb Hin0. assert (0 <= i0 < n) by (by apply Hb). clear Hin0. induction ids as [|x ids IH]; cbn; [lia|].
    assert (0 <= x < n) by (apply Hb; left). assert (0 <= fold_right Z.max 0 ids < n) by (apply IH; intros y Hy; apply Hb; by right). lia. }
  set (st0 := new_store ids).
  assert (Hn0 : bs_next_segment_id st0 = fold_right Z.max 0 ids + 1) by (cbn; unfold wrap; apply Z.mod_small; lia).
  assert (Hlt : forall id, is_Some (segs !! id) -> 0 <= id < bs_next_segment_id st0).
  { intros id [x Hx]. assert (Hin : id ∈ ids) by (apply elem_of_seg_ids; rewrite (lookup_union_Some_l _ _ _ _ Hx); eauto).
    rewrite Hn0. pose proof (Hb id Hin). pose proof (max_ids ids (fun i Hi => proj1 (Hb i Hi)) id Hin). lia. }
  assert (Hfin : forall disk1 s1, represents disk1 segs whole -> dk_maps disk1 = dk_maps disk -> same_segments st0 s1 -> abs_rel segs (bs_locations s1) A -> bs_docs s1 = ∅ ->
    exists disk' s' segs' pu', append_segment disk1 s1 = Ok (disk', s') /\ store_inv disk' s' segs' A /\ snap_ok segs' saved pt pu' A /\
      current_last (pt ++ pu') (bs_current_segment s') /\ bs_next_segment_id s' <= n + 1 /\ dk_maps disk' = dk_maps disk).
  { intros disk1 s1 Hr1 Hm1 (_ & En & _) Ha1 Hd1. destruct (append_segment_spec disk1 s1 segs saved pt pu A) as (disk' & s' & segs' & pu' & E & H1 & H2 & H3 & H4 & H5); try done.
    - rewrite Hd1. apply map_empty_subseteq.
    - intros id Hid. rewrite En. by apply Hlt.
    - lia.
    - eexists disk', s', segs', pu'. split_and!; try done; [lia|congruence]. }
  destruct Hsv as [(Em & Ee & En)|Em].
  - unfold load_from_maps at 1. unfold read_maps at 1. rewrite Em. cbn [mbind option_bind io_bind]. rewrite (Hon Em), map_union_empty in Hr.
    destruct (load_spec disk (with_maps st0 (bs_docs st0) ∅ ∅ (bs_highest_id st0)) segs tails saved pt pu A) as (d1 & s1 & E1 & H1 & H2 & H3 & H4 & H5); try done.
    rewrite E1. cbn [io_bind]. rewrite <-Em. by apply Hfin.
  - destruct (load_maps_spec disk st0 segs orphans tails saved pt pu A) as (d1 & s1 & E1 & H1 & H2 & H3 & H4 & H5); try done.
    rewrite E1. cbn [io_bind]. by apply Hfin.
Qed.
End open.

(** ** What keeps a snapshot *)

Lemma plan_nodup segs saved pt pu A : snap_ok segs saved pt pu A -> NoDup (pt ++ pu).*1.*1.
Proof.
  intros Hs. rewrite !fmap_app. apply NoDup_app. rewrite (known_ids _ _ _ _ _ Hs), (unknown_ids _ _ _ _ _ Hs). split_and!.
  - apply NoDup_filter. pose proof (sn_sorted _ _ _ _ _ Hs) as H. induction H as [|x l H IH Hf]; constructor; [|done]. intros Hx. rewrite Forall_forall in Hf. specialize (Hf x Hx). lia.
  - intros x [_ H1]%list_elem_of_filter [H2 _]%list_elem_of_filter. done.
  - apply NoDup_filter, sort_nodup, NoDup_elements.
Qed.
(** The item of the current segment takes the records that are written. *)
Definition grow_item (cur : Z) (rs : list record) (it : Z * option Z * list record) : Z * option Z * list record :=
  if decide (it.1.1 = cur) then (it.1, it.2 ++ rs) else it.
Lemma grow_items_fst cur rs (p : Plan) : (grow_item cur rs <$> p).*1 = p.*1.
Proof. rewrite <-list_fmap_compose. apply list_fmap_ext. intros i it _. unfold grow_item. cbn. by destruct (decide _). Qed.
Lemma grow_items_other cur rs (p : Plan) : cur ∉ p.*1.*1 -> grow_item cur rs <$> p = p.
Proof.
  intros H. induction p as [|it p IH]; [done|]. cbn [fmap list_fmap] in *. apply not_elem_of_cons in H as [Hne H]. rewrite IH by done. f_equal.
  unfold grow_item. by rewrite decide_False.
Qed.
Lemma abs_plan_empty (p : Plan) A : Forall (fun it => it.2 = []) p -> abs_plan p A = A.
Proof. intros H. revert A. induction H as [|it p E H IH]; intros A; [done|]. cbn. rewrite E. apply IH. Qed.
Lemma abs_steps_app a b A : abs_steps (a ++ b) A = abs_steps b (abs_steps a A).
Proof. apply fold_left_app. Qed.
Lemma grow_is_Some segs id rs i : is_Some (grow segs id rs !! i) <-> is_Some (segs !! i).
Proof.
  unfold grow. destruct (segs !! id) as [[c old]|] eqn:E; [|done]. destruct (decide (i = id)) as [->|]; [|by rewrite lookup_insert_ne]. rewrite lookup_insert_eq, E. split; by eauto.
Qed.
Lemma seg_ids_ext segs segs' : (forall i, is_Some (segs' !! i) <-> is_Some (segs !! i)) -> seg_ids segs' = seg_ids segs.
Proof. intros H. apply sorted_lt_ext; [apply seg_ids_sorted..|]. intros x. by rewrite !elem_of_seg_ids. Qed.
Lemma snap_write segs saved pt pu A cur old rs :
  snap_ok segs saved pt pu A -> current_last (pt ++ pu) cur -> segs !! cur = Some (false, old) ->
  snap_ok (grow segs cur rs) saved (grow_item cur rs <$> pt) (grow_item cur rs <$> pu) (abs_steps rs A) /\
  current_last ((grow_item cur rs <$> pt) ++ (grow_item cur rs <$> pu)) cur.
Proof.
  intros Hs (pre & from & rs0 & post & Ep & Hpost) Hcur. pose proof (plan_nodup _ _ _ _ _ Hs) as Hnd.
  assert (Eg : (grow_item cur rs <$> pt) ++ (grow_item cur rs <$> pu) = pre ++ (cur, from, rs0 ++ rs) :: post).
  { rewrite <-fmap_app, Ep in *. rewrite !fmap_app in Hnd. cbn [fmap list_fmap fst] in Hnd. apply NoDup_app in Hnd as (_ & Hpre & [Hcp _]%NoDup_cons).
    rewrite fmap_app. cbn [fmap list_fmap]. rewrite (grow_items_other cur rs pre), (grow_items_other cur rs post); [|done|intros Hin; apply (Hpre cur Hin); left].
    unfold grow_item. by rewrite decide_True. }
  split; [|rewrite Eg; by exists pre, from, (rs0 ++ rs), post]. destruct Hs as [H1 H2 H3 H4 H5 (A0 & H6 & H6') H7 H8 H9]. split.
  - rewrite <-fmap_app. apply Forall_fmap. eapply Forall_impl; [exact H1|]. intros [[id f] l2] (c & l1 & Hi & Hf). unfold item_ok, grow_item, grow. cbn [compose fst snd] in *. rewrite Hcur.
    destruct (decide (id = cur)) as [->|Hne]; cbn [fst snd].
    + exists false, l1. rewrite lookup_insert_eq, (assoc_L (++)). rewrite Hi in Hcur. injection Hcur as -> ->. done.
    + exists c, l1. by rewrite lookup_insert_ne.
  - rewrite grow_items_fst, H2. f_equal. apply filter_in_ext. intros t _. by rewrite grow_is_Some.
  - rewrite grow_items_fst, H3. by rewrite (seg_ids_ext segs (grow segs cur rs)) by apply grow_is_Some.
  - intros id l Hi. unfold grow in Hi. rewrite Hcur in Hi. destruct (decide (id = cur)) as [->|Hne]; [by rewrite lookup_insert_eq in Hi|]. rewrite lookup_insert_ne in Hi by done. by eapply H4.
  - done.
  - exists A0. split; [eapply abs_rel_grows; [apply grow_grows|done]|]. rewrite H6', Ep, Eg. unfold abs_plan. rewrite !fold_left_app. cbn [fold_left snd].
    fold (abs_plan pre A0). rewrite !(abs_plan_empty post) by done. by rewrite abs_steps_app.
  - done.
  - intros k id Hk Hi. rewrite grow_is_Some in Hi. by apply H8.
  - intros k Hk. destruct (H9 k Hk) as (i & Hi & Hle). exists i. by rewrite grow_is_Some.
Qed.

Definition saved_now (disk : SDisk) (L : gmap str DocLocation) (highest : DocId) : MapsFile := mkMapsFile (segment_ends disk) (map_to_list L) highest.
Lemma ends_spec disk segs : represents disk segs whole -> segment_ends disk = (fun id => (id, zlen (default [] (dk_segments disk !! id)))) <$> seg_ids segs.
Proof. intros Hr. unfold segment_ends. by rewrite (list_ids_spec _ _ _ Hr). Qed.
(** Maps that were just saved, some of whose segments are gone already. *)
Lemma snap_save disk segs (gone : list Z) L highest A :
  represents disk segs whole -> abs_rel (filter (fun s => s.1 ∉ gone) segs) L A ->
  (forall k, k ∈ gone -> exists id, is_Some (segs !! id) /\ (id ∉ gone) /\ k <= id) ->
  exists pt, snap_ok (filter (fun s => s.1 ∉ gone) segs) (saved_now disk L highest) pt [] A /\
    forall cur, is_Some (segs !! cur) -> cur ∉ gone -> current_last (pt ++ []) cur.
Proof.
  intros Hr Ha Hgone. set (segs' := filter (fun s => s.1 ∉ gone) segs).
  assert (Hsegs' : forall id, segs' !! id = if decide (id ∈ gone) then None else segs !! id).
  { intros id. unfold segs'. rewrite map_lookup_filter. destruct (segs !! id) as [s|]; cbn; [|by destruct (decide _)].
    case_guard as Hg; cbn in Hg; destruct (decide (id ∈ gone)); done. }
  set (item := fun id => (id, Some (zlen (default [] (dk_segments disk !! id))), @nil record)). pose proof (ends_spec _ _ Hr) as Ee.
  assert (Ek : (segment_ends disk).*1 = seg_ids segs) by (rewrite Ee, <-list_fmap_compose; by apply list_fmap_id).
  exists (item <$> filter (fun id => is_Some (segs' !! id)) (seg_ids segs)). split.
  - split; rewrite ?app_nil_r; cbn [saved_now mf_segment_ends mf_entries]; rewrite ?Ek.
    + apply Forall_fmap, Forall_forall. intros id [[[c rs] Hid] _]%list_elem_of_filter. exists c, rs. cbn. rewrite app_nil_r. split; [done|left].
      assert (Hs : segs !! id = Some (c, rs)) by (rewrite Hsegs' in Hid; by destruct (decide _)).
      rewrite (rp_files _ _ _ Hr), Hs. cbn. rewrite app_nil_r. f_equal. apply seg_bytes_len.
    + rewrite Ee. clear. induction (seg_ids segs) as [|id l IH]; [done|]. cbn [fmap list_fmap]. rewrite !filter_cons. cbn [fst]. destruct (decide _); [|done]. cbn. by f_equal.
    + cbn. rewrite (elem_of_nil_inv (filter _ (seg_ids segs'))); [done|]. intros x [Hx Hin]%list_elem_of_filter. apply Hx.
      apply elem_of_seg_ids in Hin. rewrite Hsegs' in Hin. apply elem_of_seg_ids. destruct (decide _); [by destruct Hin|done].
    + intros id rs Hi. rewrite Hsegs' in Hi. apply elem_of_seg_ids. destruct (decide _); [done|eauto].
    + apply NoDup_fst_map_to_list.
    + exists A. split; [by rewrite list_to_map_to_list|]. symmetry. apply abs_plan_empty, Forall_fmap. by apply Forall_true.
    + apply seg_ids_sorted.
    + intros k id _ Hi []. apply elem_of_seg_ids. rewrite Hsegs' in Hi. destruct (decide _); [by destruct Hi|done].
    + intros k Hk%elem_of_seg_ids. destruct (decide (k ∈ gone)) as [Hg|Hg].
      * destruct (Hgone k Hg) as (id & Hi & Hn & Hle). exists id. rewrite Hsegs', decide_False by done. done.
      * exists k. rewrite Hsegs', decide_False by done. done.
  - intros cur Hc Hn. rewrite app_nil_r. assert (Hin : cur ∈ filter (fun id => is_Some (segs' !! id)) (seg_ids segs)).
    { apply list_elem_of_filter. rewrite elem_of_seg_ids, Hsegs', decide_False by done. done. }
    apply list_elem_of_split in Hin as (l1 & l2 & ->). exists (item <$> l1). eexists _, _, (item <$> l2). split; [by rewrite fmap_app|]. apply Forall_fmap. by apply Forall_true.
Qed.
