(* ===== verification/BinaryStoreWorld.v ===== *)
(** * The document store in use

    The store with the compaction that may be under way and the ways it can be killed: in the
    middle of a write, and at each step of an install. [exec] runs one operation; whatever the
    operations and however often the process is killed and opened again, the store answers as a map
    of documents does. *)
From Stdlib Require Import ZArith Lia String.
From stdpp Require Import base numbers list sorting gmap.
From S2P Require Import Prelude Types Utf8 Numeric Scorer Fuzzy FuzzyRank BinaryStore BinaryStoreScan BinaryStoreCorrect BinaryStoreCompact BinaryStoreRecover.
Local Open Scope Z_scope.
Local Open Scope io_scope.

Inductive Pending : Type := Idle | Planned (job : SegmentCompactionJob) | Finished (completed : CompletedSegmentCompaction).
Record World : Type := mkWorld { w_disk : SDisk; w_store : BinaryDocumentStore; w_pending : Pending }.
(** Where the process is killed: after some documents of a batch and a part of a record, after an
    install renamed its file, or after it saved the maps and removed some of the old files. *)
Inductive Kill : Type := KWrite (docs : list StoredDocument) (part : list Z) | KRenamed | KRemoved (removed : nat).
Inductive Op : Type :=
| OPut (doc : StoredDocument) | OPutBatch (docs : list StoredDocument) | ODelete (external : str)
| OGet (external : str) | OContains (external : str) | OCount | OAll
| OEvict (gone : gset str) | OSync | OSave
| OPlan (threshold : f64) (target : Z) | ORun | OInstall
| OKill (k : Kill).
Inductive Answer : Type := ANone | ADoc (doc : option StoredDocument) | ABool (b : bool) | ACount (n : nat) | ADocs (docs : list StoredDocument).

Section world.
Context {BC : Bincode}.

(** The files a killed process leaves. *)
Definition killed (w : World) (k : Kill) : io_result SDisk :=
  match k, w_pending w with
  | KWrite docs part, _ =>
    let! (disk, _) := append (w_disk w) (bs_current_segment (w_store w)) (encs (RPut <$> docs) ++ part) in
    Ok disk
  | KRenamed, Finished completed => install_renamed (w_disk w) completed
  | KRemoved removed, Finished completed =>
    let! disk := install_renamed (w_disk w) completed in
    let locations := (fold_left (install_location (cp_old_segment_ids completed)) (cp_new_locations completed) (bs_locations (w_store w), 0%nat)).1 in
    Ok (fold_left remove_segment (take removed (cp_old_segment_ids completed)) (save_maps disk locations (bs_highest_id (w_store w))))
  | _, _ => Ok (w_disk w)
  end.
Definition exec (w : World) (op : Op) : io_result (World * Answer) :=
  let 'mkWorld disk st pending := w in
  match op with
  | OPut doc => let! (disk, st) := put disk st doc in Ok (mkWorld disk st pending, ANone)
  | OPutBatch docs => let! (disk, st) := put_batch disk st docs in Ok (mkWorld disk st pending, ANone)
  | ODelete external => let! (disk, st) := store_delete disk st external in Ok (mkWorld disk st pending, ANone)
  | OGet external => let! (doc, st) := get disk st external in Ok (mkWorld disk st pending, ADoc doc)
  | OContains external => Ok (w, ABool (contains st external))
  | OCount => Ok (w, ACount (document_count st))
  | OAll => let! docs := all_documents disk st in Ok (w, ADocs docs)
  | OEvict gone => Ok (mkWorld disk (evict st gone) pending, ANone)
  | OSync => Ok (mkWorld disk (sync disk st).2 pending, ANone)
  | OSave => Ok (mkWorld (save_maps disk (bs_locations st) (bs_highest_id st)) st pending, ANone)
  | OPlan threshold target =>
    let '(job, st) := plan_compaction disk st threshold target in
    Ok (mkWorld disk st (match job with Some job => Planned job | None => Idle end), ANone)
  | ORun =>
    match pending with
    | Planned job => let! (disk, completed) := run_segment_compaction disk job in Ok (mkWorld disk st (Finished completed), ANone)
    | _ => Ok (w, ANone)
    end
  | OInstall =>
    match pending with
    | Finished completed => let! (disk, st, _) := install_segment_compaction disk st completed in Ok (mkWorld disk st Idle, ANone)
    | _ => Ok (w, ANone)
    end
  | OKill k => let! disk := killed w k in let! (disk, st) := open_with_maps disk in Ok (mkWorld disk st Idle, ANone)
  end.
Fixpoint run (w : World) (ops : list Op) : io_result (World * list Answer) :=
  match ops with
  | [] => Ok (w, [])
  | op :: ops => let! (w, answer) := exec w op in let! (w, answers) := run w ops in Ok (w, answer :: answers)
  end.

(** ** The map of documents *)

Definition abs_op (A : Docs) (op : Op) : Docs :=
  match op with
  | OPut doc => <[external_id doc := doc]> A
  | OPutBatch docs | OKill (KWrite docs _) => fold_left (fun A doc => <[external_id doc := doc]> A) docs A
  | ODelete external => delete external A
  | _ => A
  end.
Definition answer_ok (A : Docs) (op : Op) (answer : Answer) : Prop :=
  match op with
  | OGet external => answer = ADoc (A !! external)
  | OContains external => answer = ABool (bool_decide (is_Some (A !! external)))
  | OCount => answer = ACount (size A)
  | OAll => exists docs, answer = ADocs docs /\ docs ≡ₚ (map_to_list A).*2
  | _ => answer = ANone
  end.
Fixpoint answers_ok (A : Docs) (ops : list Op) (answers : list Answer) : Prop :=
  match ops, answers with
  | [], [] => True
  | op :: ops, answer :: answers => answer_ok A op answer /\ answers_ok (abs_op A op) ops answers
  | _, _ => False
  end.
(** Documents fit the format, a part of a record is one, and a kill between the rename of an
    install and its maps is of a store that has saved maps. *)
Definition op_ok (w : World) (op : Op) : Prop :=
  match op with
  | OPut doc => doc_ok doc
  | OPutBatch docs => Forall doc_ok docs
  | OKill (KWrite docs part) => Forall doc_ok docs /\ torn part
  | OKill KRenamed => is_Some (dk_maps (w_disk w))
  | _ => True
  end.
Fixpoint ops_ok (w : World) (ops : list Op) : Prop :=
  match ops with
  | [] => True
  | op :: ops => op_ok w op /\ match exec w op with Ok (w', _) => ops_ok w' ops | Err _ => True end
  end.

(** ** The invariant *)

Definition pending_ok (disk : SDisk) (st : BinaryDocumentStore) (segs : Segs) (saved : MapsFile) (pending : Pending) : Prop :=
  match pending with
  | Idle => True
  | Planned job => job_ok st segs job /\ jb_next_segment_id job ∉ (mf_segment_ends saved).*1
  | Finished completed => completed_ok disk st segs completed /\ cp_new_segment_id completed ∉ (mf_segment_ends saved).*1
  end.
Definition winv (w : World) (A : Docs) (n : Z) : Prop :=
  exists segs saved pt pu, store_inv (w_disk w) (w_store w) segs A /\ snap_ok segs saved pt pu A /\ current_last (pt ++ pu) (bs_current_segment (w_store w)) /\
    saved_in (w_disk w) saved /\ pending_ok (w_disk w) (w_store w) segs saved (w_pending w) /\ bs_next_segment_id (w_store w) <= n.

Lemma saved_in_maps disk disk' saved : dk_maps disk' = dk_maps disk -> saved_in disk saved -> saved_in disk' saved.
Proof using. unfold saved_in, read_maps. by intros ->. Qed.
Lemma job_ok_same st st' segs job :
  bs_locations st' = bs_locations st -> same_segments st st' -> job_ok st segs job -> job_ok st' segs job.
Proof using. intros El (Ec & En & _) [H1 H2 H3 H4 H5 H6 H7]. split; rewrite ?El, ?Ec, ?En; done. Qed.
Lemma pending_same disk st disk' st' segs saved pending :
  bs_locations st' = bs_locations st -> same_segments st st' -> dk_tmp disk' = dk_tmp disk -> pending_ok disk st segs saved pending -> pending_ok disk' st' segs saved pending.
Proof using.
  intros El Hs Et. destruct pending as [|job|completed]; [done|..]; intros [H Hn]; (split; [|done]).
  - by eapply job_ok_same.
  - destruct H as (job & docs & Hj & ?). exists job, docs. rewrite Et. split; [by eapply job_ok_same|done].
Qed.
Lemma winv_same disk st disk' st' pending A n :
  winv (mkWorld disk st pending) A n -> dk_segments disk' = dk_segments disk -> dk_tmp disk' = dk_tmp disk -> dk_maps disk' = dk_maps disk ->
  bs_locations st' = bs_locations st -> same_segments st st' -> bs_docs st' ⊆ A -> winv (mkWorld disk' st' pending) A n.
Proof using.
  intros (segs & saved & pt & pu & Hi & Hs & Hc & Hv & Hp & Hn) Es Et Em El Hss Hd. exists segs, saved, pt, pu. cbn [w_disk w_store w_pending] in *.
  destruct Hi as [[H1 H1' H1''] H2 H3 H4 H5 H6 H7]. destruct Hss as (Ec & En & Eu). split_and!.
  - split; rewrite ?Ec, ?En, ?El; try done. split; [by rewrite Es|done|done].
  - done.
  - by rewrite Ec.
  - by eapply saved_in_maps.
  - eapply pending_same; [done|done|done|done].
  - lia.
Qed.

(** ** Writes *)

Lemma copies_grows segs segs1 segs' id entries copied : grows segs segs1 -> copies segs segs' id entries copied -> copies segs1 segs' id entries copied.
Proof using.
  intros Hg [Ek Hc]. split; [done|]. intros e l' Hin. destruct (Hc e l' Hin) as (l & d & ? & ? & ?). exists l, d. split; [done|]. split; [by eapply located_grows|done].
Qed.
Lemma winv_write disk st pending A n segs saved pt pu rs disk' st' :
  store_inv disk st segs A -> snap_ok segs saved pt pu A -> current_last (pt ++ pu) (bs_current_segment st) -> saved_in disk saved ->
  pending_ok disk st segs saved pending -> bs_next_segment_id st <= n -> wrote disk st segs A rs disk' st' ->
  winv (mkWorld disk' st' pending) (abs_steps rs A) (n + 1).
Proof using.
  intros Hi Hs Hc Hv Hp Hn (segs' & Hi' & Hw & Et & Em & old & Hcur & Hl).
  destruct (snap_write _ _ _ _ _ _ _ rs Hs Hc Hcur) as [Hs1 Hc1].
  assert (Hp' : pending_ok disk' st' segs' saved pending).
  { pose proof (written_grows _ _ _ _ _ _ _ _ Hi Hw) as Hg. destruct pending as [|job|completed]; [done|..]; destruct Hp as [Hp Hk]; (split; [|done]).
    - by apply (job_write disk st segs A rs old st' segs' job).
    - destruct Hp as (job & docs & Hj & H1 & H2 & H3 & H4 & H5). exists job, docs. rewrite Et. split; [by apply (job_write disk st segs A rs old st' segs' job)|]. split_and!; try done.
      intros segs2 E2. eapply copies_grows; [exact Hg|]. by apply H5. }
  destruct Hw as [Es Ec En|Es Ec En]; subst segs'.
  - exists (grow segs (bs_current_segment st) rs), saved. eexists _, _. cbn [w_disk w_store w_pending]. rewrite Ec. split_and!; try done; [by eapply saved_in_maps|lia].
  - destruct (snap_rotate _ _ _ _ _ (bs_next_segment_id st) Hs1) as [Hs2 Hc2].
    { intros i Hi0. rewrite grow_is_Some in Hi0. by apply (si_ids _ _ _ _ Hi). }
    eexists _, saved, _, _. cbn [w_disk w_store w_pending]. rewrite Ec. split_and!; try done; [by eapply saved_in_maps|lia].
Qed.

(** ** Saving and compacting *)

(** What [bincode] writes it reads back. *)
Hypothesis bincode_roundtrip : forall m, decode_maps (encode_maps m) = Some m.

Lemma read_saved disk L highest disk0 : dk_maps disk = dk_maps (save_maps disk0 L highest) -> saved_in disk (saved_now disk0 L highest).
Proof using bincode_roundtrip.
  intros E. right. unfold read_maps. rewrite E. cbn [save_maps dk_maps mbind option_bind]. rewrite take_app_length', bool_decide_eq_true_2 by done.
  rewrite drop_app_length' by done. apply bincode_roundtrip.
Qed.
Lemma keep_all (segs : Segs) : filter (fun s => s.1 ∉ []) segs = segs.
Proof using. apply map_filter_id. intros. apply not_elem_of_nil. Qed.
(** Maps that were just saved. *)
Lemma snap_saved disk st segs A highest :
  store_inv disk st segs A -> exists pt, snap_ok segs (saved_now disk (bs_locations st) highest) pt [] A /\ current_last (pt ++ []) (bs_current_segment st) /\
    forall id, segs !! id = None -> id ∉ (mf_segment_ends (saved_now disk (bs_locations st) highest)).*1.
Proof using.
  intros Hi. destruct (snap_save disk segs [] (bs_locations st) highest A) as (pt & Hs & Hc); rewrite ?keep_all in *.
  - apply (si_disk _ _ _ _ Hi).
  - apply (si_abs _ _ _ _ Hi).
  - intros k Hk. by apply elem_of_nil in Hk.
  - exists pt. split; [done|]. split. { apply Hc; [|apply not_elem_of_nil]. destruct (si_current _ _ _ _ Hi). eauto. }
    intros id Hid Hin. cbn [saved_now mf_segment_ends] in Hin. rewrite (ends_spec _ _ (si_disk _ _ _ _ Hi)), <-list_fmap_compose in Hin.
    apply list_elem_of_fmap in Hin as (x & -> & Hx). cbn in Hid. apply elem_of_seg_ids in Hx as [? ?]. congruence.
Qed.
Lemma pending_fresh disk st segs saved pending id : pending_ok disk st segs saved pending ->
  match pending with Idle => False | Planned job => id = jb_next_segment_id job | Finished completed => id = cp_new_segment_id completed end -> segs !! id = None.
Proof using.
  destruct pending as [|job|completed]; [done|..]; intros [H _] ->; [apply (jo_new _ _ _ H)|]. destruct H as (job & docs & Hj & _ & -> & _). apply (jo_new _ _ _ Hj).
Qed.
Lemma winv_save disk st pending A n : winv (mkWorld disk st pending) A n -> winv (mkWorld (save_maps disk (bs_locations st) (bs_highest_id st)) st pending) A n.
Proof using bincode_roundtrip.
  intros (segs & saved & pt & pu & Hi & Hs & Hc & Hv & Hp & Hn). cbn [w_disk w_store w_pending] in *.
  destruct (snap_saved disk st segs A (bs_highest_id st) Hi) as (pt' & Hs' & Hc' & Hf).
  exists segs, (saved_now disk (bs_locations st) (bs_highest_id st)), pt', []. cbn [w_disk w_store w_pending]. split_and!; try done.
  - destruct Hi as [[H1 H1' H1''] H2 H3 H4 H5 H6 H7]. by split; try done.
  - by apply read_saved.
  - pose proof (fun id => pending_fresh _ _ _ _ _ id Hp) as Hfr. destruct pending as [|job|completed]; [done|..]; destruct Hp as [Hp _]; (split; [exact Hp|]); apply Hf; by apply Hfr.
Qed.
Lemma winv_plan disk st pending A n threshold target job st' :
  winv (mkWorld disk st pending) A n -> n + 1 < 2 ^ 32 -> plan_compaction disk st threshold target = (job, st') ->
  winv (mkWorld disk st' (match job with Some job => Planned job | None => Idle end)) A (n + 1).
Proof using.
  intros (segs & saved & pt & pu & Hi & Hs & Hc & Hv & Hp & Hn) Hroom E. cbn [w_disk w_store w_pending] in *. destruct job as [job|].
  - destruct (plan_spec disk st segs A threshold target job st' Hi) as (Hi' & Hj & El & Ec); [lia|done|]. exists segs, saved, pt, pu. cbn [w_disk w_store w_pending]. rewrite Ec.
    assert (jb_next_segment_id job = bs_next_segment_id st /\ bs_next_segment_id st' <= bs_next_segment_id st + 1) as [En Hn'].
    { unfold plan_compaction in E. destruct (sort_by_key snd _); [done|]. injection E as <- <-. split; [done|]. cbn. unfold wrap.
      destruct (si_current _ _ _ _ Hi) as [rs Hcur]. pose proof (si_ids _ _ _ _ Hi _ (mk_is_Some _ _ Hcur)). apply Z.mod_le; lia. }
    split_and!; try done; [|lia]. split; [done|]. rewrite En. intros Hin. destruct (sn_max _ _ _ _ _ Hs _ Hin) as (id & Hid & Hle).
    pose proof (si_ids _ _ _ _ Hi id Hid). lia.
  - pose proof (plan_none _ _ _ _ _ _ _ Hi E) as ->. exists segs, saved, pt, pu. cbn [w_disk w_store w_pending]. split_and!; try done. lia.
Qed.
Lemma winv_run disk st job A n :
  winv (mkWorld disk st (Planned job)) A n -> exists disk' completed, run_segment_compaction disk job = Ok (disk', completed) /\ winv (mkWorld disk' st (Finished completed)) A n.
Proof using.
  intros (segs & saved & pt & pu & Hi & Hs & Hc & Hv & [Hj Hk] & Hn). cbn [w_disk w_store w_pending] in *.
  destruct (run_spec disk st segs A job Hi Hj) as (disk' & completed & E & Hi' & Hco). exists disk', completed. split; [done|].
  assert (dk_maps disk' = dk_maps disk /\ cp_new_segment_id completed = jb_next_segment_id job) as [Em En].
  { unfold run_segment_compaction in E. destruct (copy_records _ _ _ _ _) as [[out locs]|]; [|done]. cbn [io_bind] in E. by injection E as <- <-. }
  exists segs, saved, pt, pu. cbn [w_disk w_store w_pending]. split_and!; try done; [by eapply saved_in_maps|]. split; [done|by rewrite En].
Qed.
Lemma winv_install disk st completed A n :
  winv (mkWorld disk st (Finished completed)) A n -> exists disk' st' b, install_segment_compaction disk st completed = Ok (disk', st', b) /\ winv (mkWorld disk' st' Idle) A n.
Proof using bincode_roundtrip.
  intros (segs & saved & pt & pu & Hi & Hs & Hc & Hv & [Hco Hk] & Hn). cbn [w_disk w_store w_pending] in *.
  destruct (install_spec disk st segs A completed Hi Hco) as (disk' & st' & b & docs & E & Hi' & (Ec & En & Eu) & _ & _ & Em). exists disk', st', b. split; [done|].
  destruct (snap_saved disk' st' _ A (bs_highest_id st') Hi') as (pt' & Hs' & Hc' & _). eexists _, _, pt', []. cbn [w_disk w_store w_pending].
  split; [exact Hi'|]. split; [exact Hs'|]. split; [done|]. split; [by apply read_saved|]. split; [done|lia].
Qed.

(** ** Kills *)

Lemma open_world disk segs orphans tails saved pt pu A n :
  segs_ok segs -> segs_ok orphans -> orphans ##ₘ segs -> represents disk (segs ∪ orphans) tails -> segs <> ∅ ->
  (forall id s, orphans !! id = Some s -> s.1 = true /\ id ∉ (mf_segment_ends saved).*1) -> saved_in disk saved -> (dk_maps disk = None -> orphans = ∅) ->
  snap_ok segs saved pt pu A -> (forall id, is_Some ((segs ∪ orphans) !! id) -> 0 <= id < n) -> n + 1 < 2 ^ 32 ->
  exists disk' st', open_with_maps disk = Ok (disk', st') /\ winv (mkWorld disk' st' Idle) A (n + 1).
Proof using.
  intros H1 H2 H3 H4 H5 H6 H7 H8 H9 H10 H11. destruct (open_spec disk segs orphans tails saved pt pu A n) as (disk' & st' & segs' & pu' & E & Hi & Hs & Hc & Hn & Em); try done.
  exists disk', st'. split; [done|]. exists segs', saved, pt, pu'. split_and!; try done. by eapply saved_in_maps.
Qed.
Lemma open_plain disk segs tails saved pt pu A n :
  segs_ok segs -> represents disk segs tails -> segs <> ∅ -> saved_in disk saved -> snap_ok segs saved pt pu A ->
  (forall id, is_Some (segs !! id) -> 0 <= id < n) -> n + 1 < 2 ^ 32 ->
  exists disk' st', open_with_maps disk = Ok (disk', st') /\ winv (mkWorld disk' st' Idle) A (n + 1).
Proof using.
  intros H1 H2 H3 H4 H5 H6 H7. apply (open_world disk segs ∅ tails saved pt pu A n); try done.
  - apply map_disjoint_empty_l.
  - by rewrite map_union_empty.
  - rewrite map_union_empty. done.
Qed.
Lemma some_segs disk st segs A : store_inv disk st segs A -> segs <> ∅.
Proof using. intros Hi ->. destruct (si_current _ _ _ _ Hi) as [rs E]. by rewrite lookup_empty in E. Qed.
Lemma kill_idle disk st pending A n :
  winv (mkWorld disk st pending) A n -> n + 1 < 2 ^ 32 -> exists disk' st', open_with_maps disk = Ok (disk', st') /\ winv (mkWorld disk' st' Idle) A (n + 1).
Proof using.
  intros (segs & saved & pt & pu & Hi & Hs & Hc & Hv & Hp & Hn) Hroom. cbn [w_disk w_store w_pending] in *. apply (open_plain disk segs whole saved pt pu A n); try done.
  - apply (si_ok _ _ _ _ Hi).
  - apply (si_disk _ _ _ _ Hi).
  - by eapply some_segs.
  - intros id Hid. pose proof (si_ids _ _ _ _ Hi id Hid). lia.
Qed.
Lemma kill_write disk st pending A n docs part :
  winv (mkWorld disk st pending) A n -> n + 1 < 2 ^ 32 -> Forall doc_ok docs -> torn part ->
  exists disk1 disk' st', killed (mkWorld disk st pending) (KWrite docs part) = Ok disk1 /\ open_with_maps disk1 = Ok (disk', st') /\
    winv (mkWorld disk' st' Idle) (abs_steps (RPut <$> docs) A) (n + 1).
Proof using.
  intros (segs & saved & pt & pu & Hi & Hs & Hc & Hv & Hp & Hn) Hroom Hd Ht. cbn [w_disk w_store w_pending killed] in *.
  destruct (si_current _ _ _ _ Hi) as [old Hcur]. unfold append, open_segment. rewrite (current_bytes _ _ _ _ _ Hi Hcur). cbn [io_of_option io_bind]. eexists. 
  set (cur := bs_current_segment st) in *. set (rs := RPut <$> docs). destruct (snap_write _ _ _ _ _ _ _ rs Hs Hc Hcur) as [Hs1 Hc1].
  assert (Hrs : Forall record_ok rs) by (by apply Forall_fmap).
  destruct (open_plain (with_segment disk cur (seg_bytes (false, old) ++ encs rs ++ part)) (grow segs cur rs) (fun i => if decide (i = cur) then part else []) saved
    (grow_item cur rs <$> pt) (grow_item cur rs <$> pu) (abs_steps rs A) n) as (disk' & st' & E & Hw); try done.
  - by apply grow_ok; [apply (si_ok _ _ _ _ Hi)|].
  - destruct (represents_grow disk segs cur false old rs (si_disk _ _ _ _ Hi) Hcur) as [H1 _ _]. split.
    + intros i. specialize (H1 i). cbn [with_segment dk_segments] in *. destruct (decide (i = cur)) as [->|Hne].
      * rewrite lookup_insert_eq in H1 |- *. destruct (grow segs cur rs !! cur); [|done]. cbn [fmap option_fmap option_map] in H1 |- *.
        apply (inj Some) in H1. unfold whole in H1. rewrite app_nil_r in H1. by rewrite (assoc_L (++)), H1.
      * rewrite lookup_insert_ne in H1 |- * by done. exact H1.
    + intros i. destruct (decide (i = cur)); [done|by left].
    + intros i c l Hi'. destruct (decide (i = cur)) as [->|]; [right|by left]. unfold grow in Hi'. rewrite Hcur, lookup_insert_eq in Hi'. by injection Hi' as <- _.
  - intros E. assert (is_Some (grow segs cur rs !! cur)) as [? E'] by (apply grow_is_Some; eauto). by rewrite E, lookup_empty in E'.
  - intros id Hid. rewrite grow_is_Some in Hid. pose proof (si_ids _ _ _ _ Hi id Hid). lia.
  - exists disk', st'. done.
Qed.
Lemma kill_renamed disk st completed A n :
  winv (mkWorld disk st (Finished completed)) A n -> n + 1 < 2 ^ 32 -> is_Some (dk_maps disk) ->
  exists disk1 disk' st', install_renamed disk completed = Ok disk1 /\ open_with_maps disk1 = Ok (disk', st') /\ winv (mkWorld disk' st' Idle) A (n + 1).
Proof using.
  intros (segs & saved & pt & pu & Hi & Hs & Hc & Hv & [Hco Hk] & Hn) Hroom Hm. cbn [w_disk w_store w_pending] in *.
  destruct Hco as (job & docs & Hj & Eo & En & Et & Hds & _). destruct (jo_new _ _ _ Hj) as [Hf Hlt]. unfold install_renamed. rewrite En in *. rewrite Et. cbn [io_of_option io_bind].
  set (id := jb_next_segment_id job) in *. eexists. set (orphans := {[id := (true, RPut <$> docs)]} : Segs).
  assert (Hd : orphans ##ₘ segs) by (by apply map_disjoint_singleton_l).
  destruct (open_world (with_segment (mkSDisk (dk_segments disk) (delete id (dk_tmp disk)) (dk_maps disk)) id (seg_bytes (true, RPut <$> docs))) segs orphans whole saved pt pu A n)
    as (disk' & st' & E & Hw); try done.
  - apply (si_ok _ _ _ _ Hi).
  - apply map_Forall_singleton. cbn. by apply Forall_fmap.
  - split; [|by left|by left]. intros i. cbn [with_segment dk_segments]. destruct (decide (i = id)) as [->|Hne].
    + rewrite lookup_insert_eq, lookup_union_r by done. unfold orphans. rewrite lookup_singleton_eq. cbn. by rewrite app_nil_r.
    + rewrite lookup_insert_ne, (rp_files _ _ _ (si_disk _ _ _ _ Hi)) by done. unfold orphans. rewrite lookup_union, (lookup_singleton_ne id) by done. by destruct (segs !! i).
  - by eapply some_segs.
  - intros i o [<- <-]%lookup_singleton_Some. done.
  - intros Hnone. cbn in Hnone. rewrite Hnone in Hm. by destruct Hm.
  - intros i [Hi0|Hi0]%lookup_union_is_Some; [pose proof (si_ids _ _ _ _ Hi i Hi0); lia|]. destruct Hi0 as [? [<- _]%lookup_singleton_Some]. lia.
  - exists disk', st'. done.
Qed.
Lemma kill_removed disk st completed A n removed :
  winv (mkWorld disk st (Finished completed)) A n -> n + 1 < 2 ^ 32 ->
  exists disk1 disk' st', killed (mkWorld disk st (Finished completed)) (KRemoved removed) = Ok disk1 /\ open_with_maps disk1 = Ok (disk', st') /\
    winv (mkWorld disk' st' Idle) A (n + 1).
Proof using bincode_roundtrip.
  intros (segs & saved & pt & pu & Hi & Hs & Hc & Hv & [Hco Hk] & Hn) Hroom. cbn [w_disk w_store w_pending killed] in *.
  destruct Hco as (job & docs & Hj & Eo & En & Et & Hds & Hcop). destruct (jo_new _ _ _ Hj) as [Hf Hlt]. unfold install_renamed. rewrite En in *. rewrite Et, Eo. cbn [io_of_option io_bind].
  destruct (Hcop (<[jb_next_segment_id job := (true, RPut <$> docs)]> segs)) as [Ek _]; [apply lookup_insert_eq|].
  destruct (install_fold (jb_segment_ids job) (cp_new_locations completed) (bs_locations st) 0) as [m Ef]; [rewrite Ek; apply (jo_keys _ _ _ Hj)|]. rewrite Ef. cbn [fst].
  fold (installed_locations (jb_segment_ids job) (cp_new_locations completed) (bs_locations st)). set (L := installed_locations _ _ _).
  set (id := jb_next_segment_id job) in *. set (gone := take removed (jb_segment_ids job)). set (segs1 := <[id := (true, RPut <$> docs)]> segs).
  set (disk1 := with_segment (mkSDisk (dk_segments disk) (delete id (dk_tmp disk)) (dk_maps disk)) id (seg_bytes (true, RPut <$> docs))).
  assert (Hr1 : represents disk1 segs1 whole).
  { split; [|by left|by left]. intros i. unfold segs1. cbn [disk1 with_segment dk_segments]. destruct (decide (i = id)) as [->|Hne].
    - rewrite lookup_insert_eq, lookup_insert_eq. cbn. by rewrite app_nil_r.
    - rewrite lookup_insert_ne, lookup_insert_ne by done. apply (rp_files _ _ _ (si_disk _ _ _ _ Hi)). }
  assert (Hgone : forall k, k ∈ gone -> k ∈ jb_segment_ids job) by (intros k Hin; rewrite <-(take_drop removed (jb_segment_ids job)); apply elem_of_app; by left).
  assert (Hlk : forall i, filter (fun s => s.1 ∉ gone) segs1 !! i = if decide (i ∈ gone) then None else segs1 !! i).
  { intros i. rewrite map_lookup_filter. destruct (segs1 !! i) as [s|]; cbn; [|by destruct (decide _)]. case_guard as Hg; cbn in Hg; destruct (decide (i ∈ gone)); done. }
  assert (Hcur : is_Some (segs1 !! bs_current_segment st) /\ bs_current_segment st ∉ gone).
  { destruct (si_current _ _ _ _ Hi) as [rs Hcur]. split; [|intros Hin%Hgone%(jo_sealed _ _ _ Hj); lia].
    unfold segs1. rewrite lookup_insert_ne by apply not_eq_sym, (jo_current _ _ _ Hj). eauto. }
  destruct (snap_save disk1 segs1 gone L (bs_highest_id st) A Hr1) as (pt' & Hs' & _).
  { apply (abs_rel_grows (installed_segs segs (jb_segment_ids job) id docs)); [|by apply (installed_abs disk st)].
    intros i c rs E. exists []. rewrite app_nil_r, Hlk. rewrite lookup_installed in E. destruct (decide (i ∈ jb_segment_ids job)); [done|].
    rewrite decide_False; [done|]. by intros ?%Hgone. }
  { intros k Hin. exists (bs_current_segment st). destruct Hcur. split_and!; [done|done|]. apply Hgone, (jo_sealed _ _ _ Hj) in Hin. lia. }
  eexists. destruct (open_plain (fold_left remove_segment gone (save_maps disk1 L (bs_highest_id st))) (filter (fun s => s.1 ∉ gone) segs1) whole
    (saved_now disk1 L (bs_highest_id st)) pt' [] A n) as (disk' & st' & E & Hw); try done.
  - intros i s. rewrite Hlk. destruct (decide _); [done|]. unfold segs1. destruct (decide (i = id)) as [->|Hne].
    + rewrite lookup_insert_eq. intros [= <-]. cbn. by apply Forall_fmap.
    + rewrite lookup_insert_ne by done. apply (si_ok _ _ _ _ Hi).
  - split; [|by left|by left]. intros i. rewrite removed_segments, Hlk. destruct (decide _); [done|]. apply (rp_files _ _ _ Hr1).
  - intros E. destruct Hcur as [[s Hc1] Hc2]. assert (E' := Hlk (bs_current_segment st)). rewrite E, lookup_empty, decide_False in E' by done. congruence.
  - apply read_saved. clear. generalize (save_maps disk1 L (bs_highest_id st)). intros d. revert d. induction gone as [|g gone IH]; intros d; [done|]. cbn [fold_left]. by rewrite IH.
  - intros i Hi0. rewrite Hlk in Hi0. destruct (decide _); [by destruct Hi0|]. unfold segs1 in Hi0. destruct (decide (i = id)) as [->|Hne]; [lia|].
    rewrite lookup_insert_ne in Hi0 by done. pose proof (si_ids _ _ _ _ Hi i Hi0). lia.
  - exists disk', st'. done.
Qed.

(** ** One operation *)

Lemma winv_le w A n : winv w A n -> winv w A (n + 1).
Proof using. intros (segs & saved & pt & pu & H1 & H2 & H3 & H4 & H5 & H6). exists segs, saved, pt, pu. split_and!; try done. lia. Qed.
Lemma abs_dom segs L A external : abs_rel segs L A -> is_Some (L !! external) <-> is_Some (A !! external).
Proof using. intros Ha. specialize (Ha external). destruct (L !! external), (A !! external); try done; split; intros [? ?]; done. Qed.
Lemma abs_size segs L A : abs_rel segs L A -> size L = size A.
Proof using.
  intros Ha. rewrite <-!size_dom. assert (dom L = dom A) as -> by (apply set_eq; intros x; rewrite !elem_of_dom; by eapply abs_dom). done.
Qed.
(** The operations that change the map. *)
Lemma exec_write w A n op :
  winv w A n -> op_ok w op -> n + 1 < 2 ^ 32 -> match op with OPut _ | OPutBatch _ | ODelete _ => True | _ => False end ->
  exists w', exec w op = Ok (w', ANone) /\ winv w' (abs_op A op) (n + 1).
Proof using.
  destruct w as [disk st pending]. intros Hw Hop Hroom Hkind. pose proof Hw as (segs & saved & pt & pu & Hi & Hs & Hc & Hv & Hp & Hn). cbn [w_disk w_store w_pending] in *.
  destruct op as [doc|docs|external| | | | | | | | | | |]; try done; clear Hkind; cbn [exec abs_op op_ok] in *.
  - destruct (put_spec disk st segs A doc Hi Hop) as (disk' & st' & E & Hwr & _); [lia|]. rewrite E. cbn [io_bind]. eexists. split; [done|].
    by apply (winv_write disk st pending A n segs saved pt pu [RPut doc]).
  - destruct (put_batch_spec disk st segs A docs Hi Hop) as (disk' & st' & E & Hwr & _); [lia|]. rewrite E. cbn [io_bind]. eexists. split; [done|].
    rewrite <-abs_puts. by apply (winv_write disk st pending A n segs saved pt pu).
  - destruct (A !! external) as [doc|] eqn:EA.
    + destruct (delete_spec disk st segs A external doc Hi) as (disk' & st' & E & Hwr & Ea); [lia|done|]. rewrite E. cbn [io_bind]. eexists. split; [done|].
      rewrite <-Ea. by apply (winv_write disk st pending A n segs saved pt pu).
    + rewrite (delete_missing disk st segs A external Hi EA). cbn [io_bind]. eexists. split; [done|]. rewrite delete_id by done. by apply winv_le.
Qed.
Lemma exec_kill w A n k : winv w A n -> op_ok w (OKill k) -> n + 1 < 2 ^ 32 -> exists w', exec w (OKill k) = Ok (w', ANone) /\ winv w' (abs_op A (OKill k)) (n + 1).
Proof using bincode_roundtrip.
  destruct w as [disk st pending]. intros Hw Hop Hroom. destruct (kill_idle _ _ _ _ _ Hw Hroom) as (d0 & s0 & E0 & Hw0). destruct k as [docs part| |removed]; cbn [exec abs_op op_ok] in *.
  - destruct Hop as [Hd Ht]. destruct (kill_write _ _ _ _ _ docs part Hw Hroom Hd Ht) as (d1 & d' & s' & E1 & E2 & Hw'). rewrite E1. cbn [io_bind]. rewrite E2. eexists. split; [done|].
    by rewrite abs_puts in Hw'.
  - destruct pending as [|job|completed]; cbn [killed w_pending w_disk io_bind]; [by rewrite E0; eauto..|].
    destruct (kill_renamed _ _ _ _ _ Hw Hroom Hop) as (d1 & d' & s' & E1 & E2 & Hw'). rewrite E1. cbn [io_bind]. rewrite E2. by eauto.
  - destruct pending as [|job|completed]; [cbn [killed w_pending w_disk io_bind]; by rewrite E0; eauto..|].
    destruct (kill_removed _ _ _ _ _ removed Hw Hroom) as (d1 & d' & s' & E1 & E2 & Hw'). rewrite E1. cbn [io_bind]. rewrite E2. by eauto.
Qed.
Lemma exec_spec w A n op :
  winv w A n -> op_ok w op -> n + 1 < 2 ^ 32 ->
  exists w' answer, exec w op = Ok (w', answer) /\ winv w' (abs_op A op) (n + 1) /\ answer_ok A op answer.
Proof using bincode_roundtrip.
  intros Hw Hop Hroom. pose proof (exec_write w A n op Hw Hop Hroom) as Hwrite. destruct w as [disk st pending].
  pose proof Hw as (segs & saved & pt & pu & Hi & Hs & Hc & Hv & Hp & Hn). cbn [w_disk w_store w_pending] in *. pose proof (winv_le _ _ _ Hw) as Hw1.
  destruct op as [doc|docs|external|external|external| | |gone| | |threshold target| | |k].
  1-3: destruct (Hwrite I) as (w' & E & H); rewrite E; exists w', ANone; done.
  all: clear Hwrite; cbn [exec abs_op answer_ok].
  - destruct (get_spec disk st segs A external Hi) as (st' & E & Hi' & Hss & El). rewrite E. cbn [io_bind]. eexists _, _. split; [done|]. split; [|done].
    apply (winv_same disk st); try done. apply (si_cache _ _ _ _ Hi').
  - eexists _, _. split; [done|]. split; [done|]. unfold contains. f_equal. apply bool_decide_ext. apply (abs_dom segs), (si_abs _ _ _ _ Hi).
  - eexists _, _. split; [done|]. split; [done|]. unfold document_count. f_equal. apply (abs_size segs), (si_abs _ _ _ _ Hi).
  - destruct (all_documents_spec disk st segs A Hi) as (docs & E & Hd). rewrite E. cbn [io_bind]. eexists _, _. split; [done|]. eauto.
  - eexists _, _. split; [done|]. split; [|done]. apply (winv_same disk st); try done. apply (si_cache _ _ _ _ (evict_spec _ _ _ _ gone Hi)).
  - eexists _, _. split; [done|]. split; [|done]. apply winv_le in Hw. clear -Hw. destruct Hw as (segs & saved & pt & pu & Hi & Hs & Hc & Hv & Hp & Hn). cbn [w_disk w_store w_pending] in *.
    exists segs, saved, pt, pu. cbn [w_disk w_store w_pending sync snd]. split_and!; try done; [apply (sync_spec _ _ _ _ Hi)|].
    destruct pending as [|job|completed]; [done|..]; destruct Hp as [Hp Hk]; (split; [|done]).
    + destruct Hp as [H1 H2 H3 H4 H5 H6 H7]. by split.
    + destruct Hp as (job & docs & [H1 H2 H3 H4 H5 H6 H7] & Hrest). exists job, docs. split; [by split|done].
  - eexists _, _. split; [done|]. split; [|done]. by apply winv_le, winv_save.
  - destruct (plan_compaction disk st threshold target) as [job st'] eqn:E. eexists _, _. split; [done|]. split; [|done]. by eapply winv_plan.
  - destruct pending as [|job|completed]; [by eauto| |by eauto]. destruct (winv_run _ _ _ _ _ Hw) as (d' & c & E & Hw'). rewrite E. cbn [io_bind]. eexists _, _. split; [done|]. split; [by apply winv_le|done].
  - destruct pending as [|job|completed]; [by eauto..|]. destruct (winv_install _ _ _ _ _ Hw) as (d' & s' & b & E & Hw'). rewrite E. cbn [io_bind]. eexists _, _. split; [done|]. split; [by apply winv_le|done].
  - destruct (exec_kill (mkWorld disk st pending) A n k Hw Hop Hroom) as (w' & E & Hw'). cbn [exec abs_op] in *. rewrite E. eexists _, _. split; [done|]. split; [done|]. by destruct k.
Qed.
Lemma run_ops w A n ops :
  winv w A n -> ops_ok w ops -> n + zlen ops < 2 ^ 32 -> exists w' answers, run w ops = Ok (w', answers) /\ answers_ok A ops answers.
Proof using bincode_roundtrip.
  revert w A n. induction ops as [|op ops IH]; intros w A n Hw Hok Hroom; [by exists w, []|]. cbn [ops_ok run length] in *. destruct Hok as [Hop Hok].
  destruct (exec_spec w A n op Hw Hop) as (w1 & answer & E & Hw1 & Ha); [lia|]. rewrite E in Hok |- *. cbn [io_bind].
  destruct (IH w1 (abs_op A op) (n + 1) Hw1 Hok) as (w2 & answers & E2 & Has); [lia|]. rewrite E2. cbn [io_bind]. exists w2, (answer :: answers). done.
Qed.

(** ** From a directory *)

(** The documents of append segments, oldest first. *)
Definition documents (segs : Segs) : Docs := fold_left (fun A id => abs_steps (default (false, []) (segs !! id)).2 A) (seg_ids segs) ∅.
Lemma snap_plain segs : (forall id c rs, segs !! id = Some (c, rs) -> c = false) ->
  exists pu, snap_ok segs (mkMapsFile [] [] 0) [] pu (documents segs).
Proof using.
  intros Hc. set (item := fun id => (id, @None Z, (default (false, []) (segs !! id)).2)). exists (item <$> seg_ids segs). split; cbn [mf_segment_ends mf_entries app].
  - apply Forall_fmap, Forall_forall. intros id Hid%elem_of_seg_ids. destruct Hid as [[c rs] Hid]. exists c, []. cbn. rewrite Hid. split; [done|by right].
  - done.
  - rewrite <-list_fmap_compose. cbn. rewrite (filter_everything _ (seg_ids segs)) by (intros; apply not_elem_of_nil). done.
  - intros id rs E. by apply Hc in E.
  - constructor.
  - exists ∅. split; [intros external; cbn; by rewrite !lookup_empty|]. unfold documents, abs_plan. generalize (∅ : Docs). induction (seg_ids segs) as [|id l IH]; intros A; [done|]. cbn. apply IH.
  - constructor.
  - intros k id Hk. by apply elem_of_nil in Hk.
  - intros k Hk. by apply elem_of_nil in Hk.
Qed.
Lemma open_directory_some segs tails disk n :
  segs_ok segs -> (forall id c rs, segs !! id = Some (c, rs) -> c = false) -> represents disk segs tails -> dk_maps disk = None -> segs <> ∅ ->
  (forall id, is_Some (segs !! id) -> 0 <= id < n) -> n + 1 < 2 ^ 32 ->
  exists disk' st', open_with_maps disk = Ok (disk', st') /\ winv (mkWorld disk' st' Idle) (documents segs) (n + 1).
Proof using.
  intros Hok Hc Hr Hm Hne Hids Hroom. destruct (snap_plain segs Hc) as [pu Hs]. apply (open_plain disk segs tails (mkMapsFile [] [] 0) [] pu); try done. by left.
Qed.
(** A directory without segments gets its first one. *)
Lemma open_first disk : dk_segments disk = ∅ -> open_with_maps disk = open_with_maps (with_segment disk 0 MAGIC).
Proof using.
  intros E. unfold open_with_maps. assert (first_segments disk = (with_segment disk 0 MAGIC, [0])) as ->.
  { unfold first_segments, list_segment_ids. by rewrite E. }
  assert (first_segments (with_segment disk 0 MAGIC) = (with_segment disk 0 MAGIC, [0])) as ->; [|done].
  unfold first_segments, list_segment_ids. cbn [with_segment dk_segments]. rewrite E. done.
Qed.
Lemma open_directory segs tails disk n :
  segs_ok segs -> (forall id c rs, segs !! id = Some (c, rs) -> c = false) -> represents disk segs tails -> dk_maps disk = None ->
  (forall id, is_Some (segs !! id) -> 0 <= id < n) -> 1 <= n -> n + 1 < 2 ^ 32 ->
  exists disk' st', open_with_maps disk = Ok (disk', st') /\ winv (mkWorld disk' st' Idle) (documents segs) (n + 1).
Proof using.
  intros Hok Hc Hr Hm Hids Hn Hroom. destruct (decide (segs = ∅)) as [->|Hne]; [|by eapply open_directory_some].
  rewrite open_first by (apply map_empty; intros i; by rewrite (rp_files _ _ _ Hr), lookup_empty).
  set (segs1 := {[0 := (false, [])]} : Segs). assert (Hlk : forall i x, segs1 !! i = Some x -> i = 0 /\ x = (false, [])) by (intros i x [<- <-]%lookup_singleton_Some; done).
  change (documents ∅) with (documents segs1). apply (open_directory_some segs1 whole); try done.
  - by apply map_Forall_singleton.
  - intros i c rs [_ E]%Hlk. by injection E.
  - split; [|by left|by left]. intros i. cbn [with_segment dk_segments]. destruct (decide (i = 0)) as [->|Hne]; [by rewrite lookup_insert_eq|].
    rewrite lookup_insert_ne, (rp_files _ _ _ Hr), lookup_empty by done. unfold segs1. by rewrite lookup_singleton_ne.
  - intros i [x [-> _]%Hlk]. lia.
Qed.
Lemma use_spec segs tails disk n ops :
  segs_ok segs -> (forall id c rs, segs !! id = Some (c, rs) -> c = false) -> represents disk segs tails -> dk_maps disk = None ->
  (forall id, is_Some (segs !! id) -> 0 <= id < n) -> 1 <= n -> n + 1 + zlen ops < 2 ^ 32 ->
  exists disk' st', open_with_maps disk = Ok (disk', st') /\
    (ops_ok (mkWorld disk' st' Idle) ops -> exists w' answers, run (mkWorld disk' st' Idle) ops = Ok (w', answers) /\ answers_ok (documents segs) ops answers).
Proof using bincode_roundtrip.
  intros Hok Hc Hr Hm Hids Hn Hroom. destruct (open_directory segs tails disk n) as (disk' & st' & E & Hw); try done; [lia|]. exists disk', st'. split; [done|].
  intros Hops. by apply (run_ops _ _ (n + 1)).
Qed.
End world.

