(* ===== verification/BinaryStoreUse.v ===== *)
(** * The document store at work

    An example run with a compaction and kills, the witnesses of the claims about the document store,
    and what a scan of all segments does after a compaction. *)
From Stdlib Require Import ZArith Lia String.
From stdpp Require Import base numbers list sorting gmap countable.
From S2P Require Import Prelude Types Utf8 Numeric Scorer Fuzzy FuzzyRank BinaryStore BinaryStoreScan BinaryStoreCorrect BinaryStoreCompact BinaryStoreRecover BinaryStoreWorld.
Local Open Scope Z_scope.
Local Open Scope io_scope.

(** ** An example *)

Definition maps_tuple (m : MapsFile) : list (Z * Z) * list (str * (Z * Z * Z * Z)) * Z :=
  (mf_segment_ends m, (fun e => (e.1, (loc_internal_id e.2, loc_offset e.2, loc_segment e.2, loc_len e.2))) <$> mf_entries m, mf_highest_id m).
Definition tuple_maps (t : list (Z * Z) * list (str * (Z * Z * Z * Z)) * Z) : MapsFile :=
  let '(ends, entries, highest) := t in
  mkMapsFile ends ((fun e => let '(k, (i, o, s, l)) := e in (k, mkDocLocation i o s l)) <$> entries) highest.
Lemma tuple_maps_id m : tuple_maps (maps_tuple m) = m.
Proof.
  destruct m as [ends entries highest]. unfold tuple_maps, maps_tuple. cbn. f_equal. rewrite <-list_fmap_compose. induction entries as [|[k []] entries IH]; [done|]. cbn. by rewrite IH.
Qed.
#[local] Instance example_bincode : Bincode := {
  encode_maps m := [Z.pos (encode (maps_tuple m))];
  decode_maps l := match l with [Z.pos p] => tuple_maps <$> decode p | _ => None end
}.
Lemma example_roundtrip m : decode_maps (encode_maps m) = Some m.
Proof. unfold decode_maps, encode_maps, example_bincode. rewrite countable.decode_encode. cbn [fmap option_fmap option_map]. by rewrite tuple_maps_id. Qed.

Definition doc (name id : Z) (source : list Z) : StoredDocument := mkStoredDocument [name] id JSON source.
Definition example_segs : Segs := {[
  0 := (false, [RPut (doc 97 1 [1; 1]); RPut (doc 98 2 [2]); RDel [98] 2; RPut (doc 97 3 [3; 3])]);
  1 := (false, [RPut (doc 99 4 [4])])]}.
Definition example_part : list Z := take 9 (enc (RPut (doc 100 5 [5; 5; 5]))).
Definition example_tails (id : Z) : list Z := if id =? 1 then example_part else [].
Definition example_disk : SDisk := mkSDisk (map_imap (fun id s => Some (seg_bytes s ++ example_tails id)) example_segs) ∅ None.
Definition example_ops : list Op :=
  [OAll; OPlan (f64_div (f64_of 3) (f64_of 10)) 100; ODelete [99]; ORun; OPut (doc 97 6 [6]); OSave; OKill (KRemoved 1); OGet [97]; OCount;
   OKill (KWrite [doc 101 7 [7]] example_part); OContains [99]; OAll].
Definition example_run : io_result (list Answer) :=
  let! (disk, st) := open_with_maps example_disk in
  let! (_, answers) := run (mkWorld disk st Idle) example_ops in
  Ok answers.
Lemma example_answers : example_run = Ok
  [ADocs [doc 97 3 [3; 3]; doc 99 4 [4]]; ANone; ANone; ANone; ANone; ANone; ANone; ADoc (Some (doc 97 6 [6])); ACount 1; ANone; ABool false;
   ADocs [doc 97 6 [6]; doc 101 7 [7]]].
Proof. vm_compute. reflexivity. Qed.

Lemma doc_ok_small name id source :
  0 <= name < 128 -> 0 <= id < 2 ^ 64 -> zlen source < 1000 -> doc_ok (doc name id source).
Proof.
  intros Hn Hi Hs. assert (Hlen : zlen (utf8 [name]) <= 4).
  { unfold utf8. cbn. rewrite app_nil_r. unfold encode_utf8. repeat case_match; cbn; lia. }
  split; [..|rewrite write_document_len; cbn [doc external_id sd_source]; lia].
  - apply Forall_singleton. unfold is_char. lia.
  - cbn. unfold in_u. lia.
Qed.
Lemma example_part_torn : torn example_part.
Proof.
  right. exists (RPut (doc 100 5 [5; 5; 5])), (drop 9 (enc (RPut (doc 100 5 [5; 5; 5])))). split_and!; [apply doc_ok_small; cbn; lia|done|done|].
  unfold example_part. by rewrite take_drop.
Qed.
(** Operations that are good in every store. *)
Lemma plain_ops_ok ops w : Forall (fun op => forall w, op_ok w op) ops -> ops_ok w ops.
Proof. intros H. revert w. induction H as [|op ops Hop _ IH]; intros w; [done|]. cbn. split; [apply Hop|]. destruct (exec w op) as [[]|]; [apply IH|done]. Qed.
Lemma example_ops_ok w : ops_ok w example_ops.
Proof.
  apply plain_ops_ok. unfold example_ops. repeat (apply Forall_cons_2; [intros ?; cbn [op_ok]; try done|]); [| |apply Forall_nil_2].
  - apply doc_ok_small; cbn; lia.
  - split; [|apply example_part_torn]. apply Forall_singleton, doc_ok_small; cbn; lia.
Qed.

Lemma document_record_roundtrip_witness :
  read_document (write_document (doc 97 1 [1; 1]) ++ [7]) = Ok (doc 97 1 [1; 1], [7]) /\
  read_document (take 5 (write_document (doc 97 1 [1; 1]))) = Err (IoError UnexpectedEof "failed to fill whole buffer").
Proof.
  destruct (document_record_roundtrip (doc 97 1 [1; 1])) as [H1 H2]; [apply doc_ok_small; cbn; lia|]. split; [apply H1|].
  apply (H2 _ (drop 5 (write_document (doc 97 1 [1; 1])))); [by rewrite take_drop|done].
Defined.


(** ** A scan of everything *)

(** A document that is deleted while its segment is compacted: the store and a restart from its maps
    do not have it. A scan of all segments, oldest number first, does: the output of the compaction
    has a higher number than the segment of the deletion. The scan also starts a new segment. *)
Definition compacted_world : io_result World :=
  let! (disk, st) := open_with_maps example_disk in
  let! (w, _) := run (mkWorld disk st Idle) [OPlan (f64_div (f64_of 3) (f64_of 10)) 100; ORun; ODelete [97]; OInstall] in
  Ok w.
Lemma scan_resurrects : exists w disk st restarted st',
  compacted_world = Ok w /\ contains (w_store w) [97] = false /\
  open_with_maps (w_disk w) = Ok (restarted, st') /\ contains st' [97] = false /\
  store_open (w_disk w) = Ok (disk, st) /\ contains st [97] = true /\ dk_segments (w_disk w) !! 3 = None /\ dk_segments disk !! 3 = Some MAGIC.
Proof. eexists _, _, _, _, _. split; [vm_compute; reflexivity|]. repeat (split; [vm_compute; reflexivity|]). vm_compute. reflexivity. Qed.

(** ** A kill in a rotation *)

(** A process that is killed after it created the next segment and before it wrote the header leaves
    an empty file, and no store opens over it. *)
Lemma empty_segment_refused : open_with_maps (with_segment example_disk 2 []) = Err eof /\ store_open (with_segment example_disk 2 []) = Err eof.
Proof. split; vm_compute; reflexivity. Qed.
(** A batch does not raise the highest id the saved maps keep. *)
Lemma batch_keeps_highest : exists disk st w,
  open_with_maps example_disk = Ok (disk, st) /\ exec (mkWorld disk st Idle) (OPutBatch [doc 102 9 [9]]) = Ok (w, ANone) /\ max_internal_id (w_store w) = 4.
Proof. eexists _, _, _. repeat (split; [vm_compute; reflexivity|]). vm_compute. reflexivity. Qed.
