(* ===== verification/FuzzyIndex.v ===== *)
(** * Fuzzy lookups of the readers

    Models the fuzzy part of the readers: the trait's default [fuzzy_expansions] and
    [lookup_fuzzy] of [crates/core-index/src/search.rs] (used by frozen segments), the memtable's
    [fuzzy_expansions] of [mem/index.rs], and [fuzzy_expansions] of [term_dict.rs], which segment
    files use. The memtable and the trait run the automaton of [fuzzy.rs]; the dictionary runs
    the automaton of the crate [levenshtein_automata], which is a parameter here. The theorems
    show that the two agree when part of the term is left to the edits, and where they do not. *)
From Stdlib Require Import ZArith Lia ZifyBool.
From stdpp Require Import base numbers list gmap sorting.
From S2P Require Import Prelude Types Posting ArrayRows Btree TermDict Segment MemIndex DocLengths SegmentFile SegmentRead SegmentRoundtrip SegmentDisk Utf8 Osa Fuzzy FuzzyRank.
Local Open Scope Z_scope.

(** ** Memtable and default *)

(** The loop over the terms: [doc_freq] skips terms without documents, and the walk stops at the
    limit. *)
Fixpoint default_expansions_loop (aut : LevenshteinAutomaton) (doc_freq : str -> Z) (terms : list str)
    (candidates : list FuzzyExpansion) : list FuzzyExpansion :=
  match terms with
  | [] => candidates
  | t :: terms' =>
    match distance_to aut t with
    | None => default_expansions_loop aut doc_freq terms' candidates
    | Some edits =>
      if doc_freq t =? 0 then default_expansions_loop aut doc_freq terms' candidates
      else
        let candidates := candidates ++ [mkExpansion t edits (doc_freq t)] in
        if (DEFAULT_MAX_CANDIDATES <=? length candidates)%nat then candidates
        else default_expansions_loop aut doc_freq terms' candidates
    end
  end.
Definition default_fuzzy_expansions (terms : list str) (doc_freq : str -> Z) (term : str)
    (opts : FuzzyOptions) : list FuzzyExpansion :=
  default_expansions_loop (Lev_new [] term (fo_max_edits opts) (fo_prefix_length opts)) doc_freq terms [].
Definition default_lookup_fuzzy (lookup : str -> PostingList) (expansions : list FuzzyExpansion) : PostingList :=
  from_items (concat ((fun e => items (lookup (fe_term e))) <$> expansions)).

Definition seg_fuzzy_expansions (self : ImmutableSegment) (term : str) (xpath : XPathId) (opts : FuzzyOptions)
    : list FuzzyExpansion :=
  default_fuzzy_expansions (seg_terms_of self xpath) (fun t => seg_doc_freq self t xpath) term opts.

(** The entries come in the order of the hash map. *)
Fixpoint mem_expansions_loop (self : MemIndex) (aut : LevenshteinAutomaton) (xpath : XPathId)
    (entries : list (TermKey * PostingList)) (candidates : list FuzzyExpansion) : list FuzzyExpansion :=
  match entries with
  | [] => candidates
  | (key, list) :: entries' =>
    if negb (tk_xpath key =? xpath) || (length (items list) =? 0)%nat then
      mem_expansions_loop self aut xpath entries' candidates
    else
      match distance_to aut (tk_term key) with
      | None => mem_expansions_loop self aut xpath entries' candidates
      | Some edits =>
        let candidates := candidates ++ [mkExpansion (tk_term key) edits (mem_doc_freq self (tk_term key) xpath)] in
        if (DEFAULT_MAX_CANDIDATES <=? length candidates)%nat then candidates
        else mem_expansions_loop self aut xpath entries' candidates
      end
  end.
Definition mem_fuzzy_expansions (self : MemIndex) (term : str) (xpath : XPathId) (opts : FuzzyOptions)
    : list FuzzyExpansion :=
  mem_expansions_loop self (Lev_new [] term (fo_max_edits opts) (fo_prefix_length opts)) xpath
    (map_to_list (mem_terms self)) [].

(** ** The term dictionary *)

(** The crate [levenshtein_automata] and the search of the crate [fst] with its automata;
    [None] is [Distance::AtLeast]. *)
Class DfaLib `{FstLib} := {
  DFA : Type;
  DfaState : Type;
  build_dfa : Z -> str -> DFA;
  dfa_distance : DFA -> DfaState -> option Z;
  dfa_eval : DFA -> str -> option Z;
  fst_search : FstMap -> DFA -> list (str * Z * DfaState)
}.

Class DfaLaws `{DfaLib} := {
  (** [LevenshteinAutomatonBuilder::new(k, true)]: the distance of a word up to [k] edits,
      transpositions included. *)
  dfa_eval_law : forall k query w, 0 <= k ->
    dfa_eval (build_dfa k query) w = (let d := Z.of_nat (osa w query) in if d <=? k then Some d else None);
  (** [search_with_state] visits the keys the automaton accepts, in order, with their states. *)
  fst_search_law : forall m dfa,
    omap (fun '(t, ord, state) => (fun d => (t, ord, d)) <$> dfa_distance dfa state) (fst_search m dfa) =
    omap (fun '(t, ord) => (fun d => (t, ord, d)) <$> dfa_eval dfa t) (fst_stream m)
}.

Section dict.
Context `{DfaLib}.

Definition td_exact (self : TermDict) (term : str) (edits : Z) : list (FuzzyExpansion * TermMeta) :=
  match td_get self term with
  | Some meta => [(mkExpansion term edits (tm_doc_freq meta), meta)]
  | None => []
  end.

(** The loop over the keys that carry the fixed prefix. *)
Fixpoint td_prefix_loop (self : TermDict) (dfa : DFA) (prefix : str) (stream : list (str * Z))
    : list (FuzzyExpansion * TermMeta) :=
  match stream with
  | [] => []
  | (t, ord) :: stream' =>
    if starts_with prefix t then
      match dfa_eval dfa (drop (length prefix) t) with
      | Some edits =>
        let meta := meta_at self ord in
        (mkExpansion t edits (tm_doc_freq meta), meta) :: td_prefix_loop self dfa prefix stream'
      | None => td_prefix_loop self dfa prefix stream'
      end
    else []
  end.

Definition td_fuzzy_expansions (self : TermDict) (term : str) (opts : FuzzyOptions)
    : list (FuzzyExpansion * TermMeta) :=
  match td_map self with
  | None => []
  | Some map =>
    if fo_max_edits opts =? 0 then td_exact self term 0
    else
      let '(prefix, suffix) := split_prefix term (fo_prefix_length opts) in
      match suffix with
      | [] => td_exact self term 0
      | _ :: _ =>
        let dfa := build_dfa (Z.min (fo_max_edits opts) 3) suffix in
        match prefix with
        | [] =>
          omap (fun '(t, ord, state) =>
            match dfa_distance dfa state with
            | Some edits => let meta := meta_at self ord in Some (mkExpansion t edits (tm_doc_freq meta), meta)
            | None => None
            end) (fst_search map dfa)
        | _ :: _ => td_prefix_loop self dfa prefix (fst_range_ge map prefix)
        end
      end
  end.
Definition td_fuzzy (self : TermDict) (term : str) (opts : FuzzyOptions) : list (str * TermMeta) :=
  (fun e => (fe_term e.1, e.2)) <$> td_fuzzy_expansions self term opts.
End dict.

(** ** The memtable *)

Lemma spec_distance_to term max_edits p w :
  0 <= max_edits -> Forall is_char term -> short w ->
  distance_to (Lev_new [] term max_edits p) w = spec_distance term max_edits p w.
Proof. intros ? ? [? ?]. unfold distance_to. rewrite <-(app_nil_l (utf8 w)). by apply key_distance. Qed.

(** What one entry of the memtable contributes. *)
Definition mem_expansion (self : MemIndex) (aut : LevenshteinAutomaton) (xpath : XPathId)
    (e : TermKey * PostingList) : option FuzzyExpansion :=
  if negb (tk_xpath e.1 =? xpath) || (length (items e.2) =? 0)%nat then None
  else (fun edits => mkExpansion (tk_term e.1) edits (mem_doc_freq self (tk_term e.1) xpath)) <$> distance_to aut (tk_term e.1).

Lemma mem_expansions_loop_take self aut xpath entries cands :
  (length cands < DEFAULT_MAX_CANDIDATES)%nat ->
  mem_expansions_loop self aut xpath entries cands =
  take DEFAULT_MAX_CANDIDATES (cands ++ omap (mem_expansion self aut xpath) entries).
Proof.
  revert cands. induction entries as [|[key l] entries IH]; intros cands Hc; cbn [mem_expansions_loop omap list_omap].
  { rewrite app_nil_r, take_ge by lia. done. }
  unfold mem_expansion at 1. cbn [fst snd]. destruct (_ || _); [by apply IH|].
  destruct (distance_to aut (tk_term key)) as [d|]; cbn [fmap option_fmap option_map]; [|by apply IH].
  set (e := mkExpansion _ _ _). cbv zeta.
  replace (cands ++ e :: omap (mem_expansion self aut xpath) entries) with ((cands ++ [e]) ++ omap (mem_expansion self aut xpath) entries) by (by rewrite <-app_assoc).
  destruct (Nat.leb_spec DEFAULT_MAX_CANDIDATES (length (cands ++ [e]))) as [Hle|Hlt].
  - rewrite take_app_le by exact Hle. rewrite take_ge; [done|]. rewrite length_app in *. cbn [length] in *. lia.
  - by apply IH.
Qed.

Lemma mem_fuzzy_expansions_take self term xpath opts :
  mem_fuzzy_expansions self term xpath opts =
  take DEFAULT_MAX_CANDIDATES (omap (mem_expansion self (Lev_new [] term (fo_max_edits opts) (fo_prefix_length opts)) xpath)
    (map_to_list (mem_terms self))).
Proof. unfold mem_fuzzy_expansions. rewrite mem_expansions_loop_take; [done|]. unfold DEFAULT_MAX_CANDIDATES. simpl. lia. Qed.

(** Below the limit, the memtable yields its terms within the distance. *)
Lemma mem_fuzzy_elem self term xpath opts e :
  0 <= fo_max_edits opts -> Forall is_char term ->
  (forall k l, mem_terms self !! k = Some l -> short (tk_term k)) ->
  (length (mem_fuzzy_expansions self term xpath opts) < DEFAULT_MAX_CANDIDATES)%nat ->
  e ∈ mem_fuzzy_expansions self term xpath opts <->
  exists l, mem_terms self !! TermKey_new (fe_term e) xpath = Some l /\ items l <> [] /\
    fe_doc_freq e = list_len_u32 l /\
    spec_distance term (fo_max_edits opts) (fo_prefix_length opts) (fe_term e) = Some (fe_edits e).
Proof.
  intros Hk Ht Hshort. rewrite mem_fuzzy_expansions_take, length_take. intros Hlen.
  rewrite take_ge by lia. rewrite list_elem_of_omap. split.
  - intros ([[x t] l] & Hin & He). apply elem_of_map_to_list in Hin. unfold mem_expansion in He. cbn [fst snd tk_xpath tk_term] in He.
    destruct (Z.eqb_spec x xpath) as [->|]; [|done]. destruct l as [ps]; cbn [items] in *.
    destruct ps as [|po ps]; [done|]. cbn [negb orb length Nat.eqb] in He.
    rewrite spec_distance_to in He by (done || by eapply (Hshort _ _ Hin)).
    destruct (spec_distance term _ _ t) as [d|] eqn:Hd; [|done]. injection He as <-. cbn [fe_term fe_doc_freq fe_edits].
    eexists. split_and!; [exact Hin|done| |done]. unfold mem_doc_freq, mem_lookup, TermKey_new. by rewrite Hin.
  - intros (l & Hl & Hne & Hdf & Hd). exists (TermKey_new (fe_term e) xpath, l). split; [by apply elem_of_map_to_list|].
    unfold mem_expansion. cbn [fst snd tk_xpath tk_term TermKey_new]. rewrite Z.eqb_refl.
    destruct (items l) eqn:Hi; [done|]. cbn [negb orb length Nat.eqb].
    rewrite spec_distance_to, Hd by (done || by eapply (Hshort _ _ Hl)). cbn. f_equal.
    unfold mem_doc_freq, mem_lookup. rewrite Hl. destruct e; simpl in *. by subst.
Qed.

(** ** The dictionary *)

Lemma align_zero w q : align w q 0 -> w = q.
Proof. intros H. remember 0%nat as n eqn:Hn. induction H; try done. by rewrite IHalign. Qed.

Lemma osa_refl w : osa w w = 0%nat.
Proof.
  assert (align w w 0) as Ha by (induction w; by constructor).
  destruct (osa_distance w w) as [_ H]. specialize (H _ Ha). lia.
Qed.

(** With no edits, or with nothing left to edit but the exact term, only the term matches. *)
Lemma spec_distance_zero term p w :
  spec_distance term 0 p w = if bool_decide (w = term) then Some 0 else None.
Proof.
  unfold spec_distance. case_bool_decide as Hp.
  - destruct Hp as [w' ->]. rewrite drop_app_length. cbv zeta. unfold MAX_SUPPORTED_EDITS.
    destruct (osa_distance w' (drop p term)) as [Ha _]. case_bool_decide as He.
    + assert (w' = drop p term) as -> by (rewrite <-(take_drop p term) in He at 2; by apply app_inv_head in He).
      by rewrite osa_refl.
    + rewrite (proj2 (Z.leb_gt _ _)); [done|]. destruct (osa w' (drop p term)) eqn:Ho; [|lia].
      destruct He. apply align_zero in Ha as ->. apply take_drop.
  - rewrite bool_decide_eq_false_2; [done|]. intros ->. apply Hp. exists (drop p term). by rewrite take_drop.
Qed.

Lemma omap_ext_in {A B} (f g : A -> option B) (l : list A) :
  (forall x, x ∈ l -> f x = g x) -> omap f l = omap g l.
Proof.
  induction l as [|x l IH]; intros H; [done|]. cbn [omap list_omap].
  rewrite (H x) by left. rewrite IH; [done|]. intros y Hy. apply H. by right.
Qed.

Lemma omap_fmap {A B C} (f : B -> option C) (g : A -> B) (l : list A) : omap f (g <$> l) = omap (f ∘ g) l.
Proof. induction l as [|x l IH]; [done|]. cbn [fmap list_fmap omap list_omap]. unfold compose at 1. by rewrite IH. Qed.

Lemma omap_filter {A B} (P : A -> Prop) `{!forall x, Decision (P x)} (f : A -> option B) (l : list A) :
  (forall x, ~ P x -> f x = None) -> omap f (filter P l) = omap f l.
Proof.
  intros Hf. induction l as [|x l IH]; [done|]. rewrite filter_cons. case_decide as Hx; cbn [omap list_omap].
  - by rewrite IH.
  - by rewrite (Hf x Hx), IH.
Qed.

Section dict_facts.
Context `{DL : DfaLib} `{!FstLaws} `{!DfaLaws}.

(** What one term of the dictionary contributes. *)
Definition td_expansion (term : str) (opts : FuzzyOptions) (e : str * TermMeta) : option (FuzzyExpansion * TermMeta) :=
  (fun d => (mkExpansion e.1 d (tm_doc_freq e.2), e.2)) <$> spec_distance term (fo_max_edits opts) (fo_prefix_length opts) e.1.

Lemma td_exact_omap terms d term :
  ascending_keys terms -> dict_of terms d ->
  td_exact d term 0 =
  omap (fun e => if bool_decide (e.1 = term) then Some (mkExpansion e.1 0 (tm_doc_freq e.2), e.2) else None) terms.
Proof.
  intros Hs Hd. unfold td_exact. rewrite (td_get_ok terms) by done.
  pose proof (ascending_NoDup _ Hs) as Hn. clear Hs Hd.
  induction terms as [|[t m] terms IH]; [done|]. apply NoDup_cons in Hn as [Hni Hn]. specialize (IH Hn).
  rewrite filter_cons. cbn [omap list_omap fst snd]. case_bool_decide as Ht.
  - rewrite decide_True by done. cbn. subst t. f_equal. rewrite head_filter_none in IH by done. exact IH.
  - rewrite decide_False by done. exact IH.
Qed.

Lemma td_prefix_loop_omap d dfa prefix stream :
  td_prefix_loop d dfa prefix stream =
  omap (fun e => (fun n => (mkExpansion e.1 n (tm_doc_freq e.2), e.2)) <$> dfa_eval dfa (drop (length prefix) e.1))
    ((fun e => (e.1, meta_at d e.2)) <$> take_while (fun e => starts_with prefix e.1) stream).
Proof.
  induction stream as [|[t ord] stream IH]; [done|]. cbn [td_prefix_loop take_while fst snd].
  destruct (starts_with prefix t); [|done]. cbn [fmap list_fmap omap list_omap fst snd].
  destruct (dfa_eval dfa (drop (length prefix) t)); cbn [fmap option_fmap option_map]; by rewrite IH.
Qed.

(** The expansions of a dictionary are its terms within the distance, in order. *)
Lemma td_fuzzy_expansions_omap terms d term opts :
  ascending_keys terms -> dict_of terms d -> 0 <= fo_max_edits opts ->
  fo_max_edits opts = 0 \/ drop (fo_prefix_length opts) term <> [] ->
  td_fuzzy_expansions d term opts = omap (td_expansion term opts) terms.
Proof.
  intros Hs Hd Hk Hcase. unfold td_fuzzy_expansions.
  destruct (td_map d) as [map|] eqn:Hm; [|by destruct Hd as [_ Hd]; rewrite Hm in Hd; subst terms].
  destruct (Z.eqb_spec (fo_max_edits opts) 0) as [Hz|Hz].
  { rewrite (td_exact_omap terms) by done. unfold td_expansion. rewrite Hz. apply omap_ext_in.
    intros e _. rewrite spec_distance_zero. by case_bool_decide. }
  destruct Hcase as [|Hne]; [done|]. cbn [split_prefix].
  set (p := fo_prefix_length opts) in *.
  destruct (drop p term) as [|c r] eqn:Hsuf; [done|]. rewrite <-Hsuf. clear Hne.
  set (dfa := build_dfa _ _).
  assert (Heval : forall t, starts_with (take p term) t = true ->
    dfa_eval dfa (drop (length (take p term)) t) = spec_distance term (fo_max_edits opts) p t).
  { intros t Hst. unfold dfa. rewrite dfa_eval_law by lia. unfold spec_distance, MAX_SUPPORTED_EDITS.
    rewrite bool_decide_eq_true_2; [done|]. apply starts_with_spec in Hst as [t' ->]. by exists t'. }
  assert (Hno : forall t, starts_with (take p term) t = false -> spec_distance term (fo_max_edits opts) p t = None).
  { intros t Hst. unfold spec_distance. rewrite bool_decide_eq_false_2; [done|]. intros [t' ->].
    apply not_true_iff_false in Hst. apply Hst, starts_with_spec. by exists t'. }
  destruct (take p term) as [|c' r'] eqn:Hpre.
  - transitivity ((fun '(t, ord, n) => (mkExpansion t n (tm_doc_freq (meta_at d ord)), meta_at d ord)) <$>
      omap (fun '(t, ord, state) => (fun n => (t, ord, n)) <$> dfa_distance dfa state) (fst_search map dfa)).
    { rewrite list_fmap_omap. apply omap_ext_in. intros [[t ord] state] _. by destruct (dfa_distance dfa state). }
    rewrite fst_search_law, list_fmap_omap. rewrite <-(td_entries_ok terms d Hd). unfold td_entries. rewrite Hm, omap_fmap.
    apply omap_ext_in. intros [t ord] _. unfold compose, td_expansion. cbn [fst snd]. fold p.
    rewrite <-(Heval t) by apply starts_with_nil. change (drop (length []) t) with t.
    by destruct (dfa_eval dfa t).
  - rewrite <-Hpre in *. rewrite td_prefix_loop_omap.
    pose proof (td_prefix_ok terms d (take p term) Hs Hd) as Hp. unfold td_prefix in Hp. rewrite Hm in Hp. rewrite Hp.
    transitivity (omap (td_expansion term opts) (filter (fun e => starts_with (take p term) e.1 = true) terms)).
    + apply omap_ext_in. intros [t m] [Ht _]%list_elem_of_filter. unfold td_expansion. fold p. by rewrite Heval.
    + apply omap_filter. intros [t m] Ht%not_true_iff_false. unfold td_expansion. cbn [fst snd] in *. fold p. by rewrite Hno.
Qed.
End dict_facts.

(** ** Memtable and segment file *)

(** A fuzzy term expands to the same terms, with the same edits and document frequencies, in
    the memtable and in the dictionary of the segment file its field is written to, unless the
    memtable reaches its limit of candidates or the exact prefix covers the whole term: the
    automaton of the memtable and the one of the dictionary, the walk with a fixed prefix and the
    one without agree. *)
Theorem fuzzy_expansions_agree `{DL : DfaLib} `{!FstLaws} `{!DfaLaws} (m : MemIndex) xpath terms d term opts :
  ascending_keys terms -> dict_of terms d ->
  (forall t df, (exists meta, (t, meta) ∈ terms /\ tm_doc_freq meta = df) <->
     exists l, mem_terms m !! TermKey_new t xpath = Some l /\ items l <> [] /\ df = list_len_u32 l) ->
  (forall k l, mem_terms m !! k = Some l -> short (tk_term k)) -> Forall is_char term ->
  0 <= fo_max_edits opts -> fo_max_edits opts = 0 \/ drop (fo_prefix_length opts) term <> [] ->
  (length (mem_fuzzy_expansions m term xpath opts) < DEFAULT_MAX_CANDIDATES)%nat ->
  forall e, e ∈ mem_fuzzy_expansions m term xpath opts <-> e ∈ (td_fuzzy_expansions d term opts).*1.
Proof.
  intros Hs Hd Hsame Hshort Hterm Hk Hcase Hlen e.
  rewrite mem_fuzzy_elem by done. rewrite (td_fuzzy_expansions_omap terms) by done.
  rewrite list_elem_of_fmap. setoid_rewrite list_elem_of_omap. unfold td_expansion. split.
  - intros (l & Hl & Hne & Hdf & Hsd). destruct (proj2 (Hsame (fe_term e) (fe_doc_freq e))) as (meta & Hin & Hm); [by exists l|].
    exists (e, meta). split; [done|]. exists (fe_term e, meta). split; [done|]. cbn [fst snd]. rewrite Hsd. cbn.
    rewrite Hm. by destruct e.
  - intros (y & -> & ([t meta] & Hin & Hf)). cbn [fst snd] in Hf.
    destruct (spec_distance term _ _ t) as [n|] eqn:Hn; [|done]. injection Hf as <-. cbn [fst fe_term fe_doc_freq fe_edits].
    destruct (proj1 (Hsame t (tm_doc_freq meta))) as (l & Hl & Hne & Hdf); [by exists meta|]. by exists l.
Qed.

(** Where the two differ: when the exact prefix covers the whole term and edits are allowed,
    the memtable still accepts every term that goes on for up to [max_edits] characters, while
    the dictionary of a segment file returns nothing but the term itself. *)
Theorem pinned_term_differs `{DL : DfaLib} (m : MemIndex) xpath term w l opts :
  Forall is_char term -> (forall k l, mem_terms m !! k = Some l -> short (tk_term k)) ->
  (length term <= fo_prefix_length opts)%nat -> w <> [] ->
  zlen w <= fo_max_edits opts <= MAX_SUPPORTED_EDITS ->
  mem_terms m !! TermKey_new (term ++ w) xpath = Some l -> items l <> [] ->
  (length (mem_fuzzy_expansions m term xpath opts) < DEFAULT_MAX_CANDIDATES)%nat ->
  (term ++ w) ∈ fe_term <$> mem_fuzzy_expansions m term xpath opts /\
  forall d, (term ++ w) ∉ (fe_term ∘ fst) <$> td_fuzzy_expansions d term opts.
Proof.
  intros Hterm Hshort Hp Hw Hk Hl Hne Hlen.
  assert (Hd : spec_distance term (fo_max_edits opts) (fo_prefix_length opts) (term ++ w) = Some (zlen w)).
  { unfold spec_distance. rewrite (take_ge term), (drop_ge term) by done. rewrite bool_decide_eq_true_2 by (by exists w).
    rewrite drop_app_length. cbv zeta. unfold osa. simpl (rev []). rewrite osa_r_nil_r, length_rev.
    by rewrite (proj2 (Z.leb_le _ _)) by lia. }
  split.
  - apply list_elem_of_fmap. exists (mkExpansion (term ++ w) (zlen w) (list_len_u32 l)). split; [done|].
    apply mem_fuzzy_elem; [lia|done|done|done|]. by exists l.
  - intros d (e & He & Hin)%list_elem_of_fmap. unfold td_fuzzy_expansions in Hin.
    assert (Hex : e ∈ td_exact d term 0).
    { destruct (td_map d); [|by apply elem_of_nil in Hin]. destruct (fo_max_edits opts =? 0); [done|].
      cbn [split_prefix] in Hin. by rewrite drop_ge in Hin by done. }
    unfold td_exact in Hex. destruct (td_get d term); [|by apply elem_of_nil in Hex].
    apply list_elem_of_singleton in Hex as ->. unfold compose in He. cbn in He.
    apply Hw. apply (f_equal length) in He. rewrite length_app in He. destruct w; [done|simpl in He; lia].
Qed.

(** ** The parameters can be met *)

Module FuzzyToy.
(** An automaton is its parameters, a state is the distance it stands for. *)
Definition eval (dfa : Z * str) (w : str) : option Z :=
  let d := Z.of_nat (osa w dfa.2) in if d <=? dfa.1 then Some d else None.

#[local, refine] Instance dfa_lib : @DfaLib Toy.fst_lib := {|
  DFA := Z * str;
  DfaState := option Z;
  build_dfa k q := (k, q);
  dfa_distance _ state := state;
  dfa_eval := eval;
  fst_search m dfa := (fun e => (e.1, e.2, eval dfa e.1)) <$> @fst_stream Toy.fst_lib m
|}.
Proof. Defined.

#[local] Instance dfa_laws : @DfaLaws Toy.fst_lib dfa_lib.
Proof.
  constructor; [done|]. intros m dfa. cbn [fst_search dfa_lib]. rewrite omap_fmap. apply omap_ext_in.
  by intros [t ord] _.
Defined.

Definition cat : str := [99; 97; 116].
Definition cats : str := cat ++ [115].

(** A memtable with "cat" and "cats" in one document. *)
Definition mem : MemIndex :=
  mkMem {[ TermKey_new cat 1 := mkPostingList [mkPosting 7 [16] 5] 5; TermKey_new cats 1 := mkPostingList [mkPosting 7 [32] 5] 5 ]}
    ∅ ∅ ∅ ∅ 0 None None (ArrayRowIndex_new 0).
Definition terms : list (str * TermMeta) := [(cat, mkTermMeta 12 4 1 5); (cats, mkTermMeta 16 4 1 5)].

Lemma mem_short k l : mem_terms mem !! k = Some l -> short (tk_term k).
Proof.
  cbn [mem_terms mem]. intros [[<- _]|[_ [<- _]%lookup_singleton_Some]]%lookup_insert_Some;
    (split; [by apply (bool_decide_unpack _)|by vm_compute]).
Qed.
Lemma mem_same t df :
  (exists meta, (t, meta) ∈ terms /\ tm_doc_freq meta = df) <->
  exists l, mem_terms mem !! TermKey_new t 1 = Some l /\ items l <> [] /\ df = list_len_u32 l.
Proof.
  unfold terms. setoid_rewrite elem_of_cons. setoid_rewrite list_elem_of_singleton. split.
  - intros (meta & [[= -> ->]|[= -> ->]] & <-); eexists; (split; [by vm_compute|done]).
  - cbn [mem_terms mem]. intros (l & [[[= <-] <-]|[_ [[= <-] <-]%lookup_singleton_Some]]%lookup_insert_Some & _ & ->); eauto.
Qed.
End FuzzyToy.

Lemma fuzzy_expansions_agree_witness :
  exists d : @TermDict Toy.fst_lib,
    mkExpansion FuzzyToy.cats 1 1 ∈ (@td_fuzzy_expansions _ FuzzyToy.dfa_lib d FuzzyToy.cat (mkFuzzyOptions 1 1 3)).*1.
Proof.
  destruct (@TermDict_build_ok Toy.fst_lib Toy.fst_laws FuzzyToy.terms) as (d & _ & Hd); [by repeat constructor|].
  exists d.
  apply (@fuzzy_expansions_agree Toy.fst_lib FuzzyToy.dfa_lib Toy.fst_laws FuzzyToy.dfa_laws FuzzyToy.mem 1 FuzzyToy.terms d
    FuzzyToy.cat (mkFuzzyOptions 1 1 3)); [by repeat constructor|done|apply FuzzyToy.mem_same|apply FuzzyToy.mem_short| | | | |].
  - by apply (bool_decide_unpack _).
  - done.
  - by right.
  - apply Nat.ltb_lt. by vm_compute.
  - apply list_elem_of_In. vm_compute. auto.
Defined.

Lemma pinned_term_differs_witness :
  FuzzyToy.cats ∈ fe_term <$> mem_fuzzy_expansions FuzzyToy.mem FuzzyToy.cat 1 (mkFuzzyOptions 1 3 3) /\
  forall d, FuzzyToy.cats ∉ (fe_term ∘ fst) <$> @td_fuzzy_expansions _ FuzzyToy.dfa_lib d FuzzyToy.cat (mkFuzzyOptions 1 3 3).
Proof.
  apply (@pinned_term_differs _ FuzzyToy.dfa_lib FuzzyToy.mem 1 FuzzyToy.cat [115] (mkPostingList [mkPosting 7 [32] 5] 5));
    [by apply (bool_decide_unpack _)|apply FuzzyToy.mem_short|done|done|done|by vm_compute|done|].
  apply Nat.ltb_lt. by vm_compute.
Defined.
