(* ===== verification/Phrase.v ===== *)
(** * Phrases and the closeness of words

    Models the functions of [crates/core-query/src/executor.rs] that read the positions of words:
    [phrase_matches] (the words of a phrase one after the other), the loop of [execute_phrase]
    over the posting lists of the words, [postings_of] and [min_cover_span] (the smallest stretch
    of a field that holds every word, by a sliding window).

    The theorems show that a phrase matches exactly the documents in which some occurrences of
    the words follow each other with the typed gaps, and that the sliding window finds the
    smallest stretch. *)
From Stdlib Require Import ZArith Lia.
From stdpp Require Import base numbers list sorting countable gmap.
From S2P Require Import Prelude Types Posting.
Local Open Scope Z_scope.

Record PhraseTerm : Type := mkPhraseTerm { pt_text : str; pt_offset : Z }.
#[global] Instance PhraseTerm_eq_dec : EqDecision PhraseTerm.
Proof. solve_decision. Defined.
#[global] Instance PhraseTerm_countable : Countable PhraseTerm.
Proof.
  refine (inj_countable' (fun t => (pt_text t, pt_offset t)) (fun p => mkPhraseTerm p.1 p.2) _). by intros [].
Defined.

(** ** Words one after the other *)

(** Query words dropped between two words (stopwords) leave a gap. *)
Definition typed_gap (offsets : list Z) (i : nat) : Z :=
  saturating_sub (saturating_sub (offsets !!! (i + 1)%nat) (offsets !!! i)) 1.

(** The inner loop: [next] is where the next word has to start. *)
Fixpoint follow (offsets : list Z) (i : nat) (next : Z) (rest : list (list Position)) : bool :=
  match rest with
  | [] => true
  | positions :: rest =>
    let want := wrap 32 (next + typed_gap offsets i) in
    match positions !! partition_point (fun p => position_start p <? want) positions with
    | Some p =>
      if position_start p =? want then follow offsets (S i) (wrap 32 (want + position_span p)) rest else false
    | None => false
    end
  end.

Definition phrase_matches (position_lists : list (list Position)) (offsets : list Z) : bool :=
  match position_lists with
  | [] => false
  | first :: rest =>
    existsb (fun encoded => follow offsets 0 (wrap 32 (position_start encoded + position_span encoded)) rest) first
  end.

(** ** The postings of a phrase *)

(** [(0..lists.len()).min_by_key(|&i| lists[i].len())]: the first of the shortest. *)
Fixpoint min_by_len (i best : nat) (len : nat) (lists : list PostingList) : nat :=
  match lists with
  | [] => best
  | l :: rest =>
    if (length (items l) <? len)%nat then min_by_len (S i) i (length (items l)) rest else min_by_len (S i) best len rest
  end.
Definition rarest_list (lists : list PostingList) : nat :=
  match lists with [] => 0%nat | l :: rest => min_by_len 1 0 (length (items l)) rest end.

Definition posting_at (l : PostingList) (d : DocId) : option Posting :=
  match binary_search_by_key doc_id d (items l) with inl index => items l !! index | inr _ => None end.

(** The postings of the document of [driver] in every list, in the order of the words. *)
Fixpoint gather (driver : Posting) (rarest i : nat) (lists : list PostingList) : option (list Posting) :=
  match lists with
  | [] => Some []
  | l :: rest =>
    match if (i =? rarest)%nat then Some driver else posting_at l (doc_id driver) with
    | Some p => match gather driver rarest (S i) rest with Some ps => Some (p :: ps) | None => None end
    | None => None
    end
  end.

Definition phrase_posting (lists : list PostingList) (offsets : list Z) (rarest : nat) (driver : Posting)
    : option Posting :=
  match gather driver rarest 0 lists with
  | Some ps =>
    let first := default driver (head ps) in
    if phrase_matches (positions <$> ps) offsets
    then Some (Posting_with_weight (doc_id driver) (positions first) (weight first)) else None
  | None => None
  end.

Definition phrase_list (lists : list PostingList) (offsets : list Z) : PostingList :=
  match lists with
  | [] => PostingList_new
  | _ =>
    if existsb (fun l => (length (items l) =? 0)%nat) lists then PostingList_new
    else
      let rarest := rarest_list lists in
      let driven := default PostingList_new (lists !! rarest) in
      from_items (omap (phrase_posting lists offsets rarest) (items driven))
  end.

(** The postings of the given documents (sorted), each found by binary search. *)
Definition postings_of (l : PostingList) (wanted : list DocId) : PostingList := from_sorted (omap (posting_at l) wanted).

(** ** The smallest stretch that holds every word *)

Definition event_leb (a b : Z * nat) : bool := (a.1 <? b.1) || ((a.1 =? b.1) && (a.2 <=? b.2)%nat).
Definition word_events (word : nat) (positions : list Position) : list (Z * nat) :=
  (fun p => (position_start p, word)) <$> positions.
Definition cover_events (lists : list (list Position)) : list (Z * nat) :=
  stable_sort event_leb (concat (imap word_events lists)).

Record Window : Type := mkWindow { counts : list Z; covered : nat; best : option Z; left : nat }.

Definition enter (word : nat) (w : Window) : Window :=
  mkWindow (<[word := wrap 32 (counts w !!! word + 1)]> (counts w))
    (if counts w !!! word =? 0 then S (covered w) else covered w) (best w) (left w).

(** Shrinks from the left while the window still holds every word. *)
Fixpoint shrink (fuel : nat) (n : nat) (events : list (Z * nat)) (right : nat) (w : Window) : Window :=
  match fuel with
  | O => w
  | S fuel =>
    if (covered w =? n)%nat then
      let span := wrap 32 ((events !!! right).1 - (events !!! left w).1 + 1) in
      let best := Some match best w with Some known => Z.min known span | None => span end in
      let leaving := (events !!! left w).2 in
      let c := wrap 32 (counts w !!! leaving - 1) in
      shrink fuel n events right
        (mkWindow (<[leaving := c]> (counts w)) (if c =? 0 then pred (covered w) else covered w) best (S (left w)))
    else w
  end.

Definition slide (n : nat) (events : list (Z * nat)) (w : Window) (right : nat) : Window :=
  shrink (S (length events)) n events right (enter (events !!! right).2 w).

Definition min_cover_span (lists : list (list Position)) : option Z :=
  if bool_decide (lists = []) || existsb (fun l => (length l =? 0)%nat) lists then None
  else
    let events := cover_events lists in
    let n := length lists in
    best (fold_left (slide n events) (seq 0 (length events)) (mkWindow (replicate n 0) 0 None 0)).

(** ** What a phrase means *)

(** The occurrences [ps] follow [prev], each where the one before ends plus the typed gap. *)
Fixpoint consecutive (offsets : list Z) (i : nat) (prev : Position) (ps : list Position) : Prop :=
  match ps with
  | [] => True
  | p :: ps =>
    position_start p = position_start prev + position_span prev + typed_gap offsets i /\
    consecutive offsets (S i) p ps
  end.

(** One occurrence of every word, one after the other. *)
Definition phrase_at (position_lists : list (list Position)) (offsets : list Z) : Prop :=
  exists p ps first rest, position_lists = first :: rest /\ p ∈ first /\ Forall2 (fun p l => p ∈ l) ps rest /\
    consecutive offsets 0 p ps.

(** Positions of one word, no two of them at the same place. *)
Definition starts_ascending (l : list Position) : Prop :=
  StronglySorted (key_lt position_start) l /\ Forall (in_u 32) l.
Definition offsets_small (offsets : list Z) : Prop := Forall (fun o => 0 <= o < 2 ^ 31) offsets.

Lemma position_bounds p : in_u 32 p -> 0 <= position_start p < 2 ^ 28 /\ 1 <= position_span p <= 16.
Proof.
  unfold in_u, position_start, position_span, MAX_SPAN, SPAN_BITS. intros Hp. rewrite Z.shiftr_div_pow2 by lia.
  change (Z.shiftl 1 4 - 1) with (Z.ones 4). rewrite Z.land_ones by lia.
  change (2 ^ 4) with 16. pose proof (Z.div_mod p 16). pose proof (Z.mod_pos_bound p 16). split; [split|]; [|apply Z.div_lt_upper_bound|]; lia.
Qed.

Lemma typed_gap_bounds offsets i : offsets_small offsets -> 0 <= typed_gap offsets i < 2 ^ 31.
Proof.
  unfold offsets_small, typed_gap, saturating_sub. intros Ho.
  assert (Hb : forall j, 0 <= offsets !!! j < 2 ^ 31).
  { intros j. rewrite list_lookup_total_alt. destruct (offsets !! j) as [o|] eqn:E; [|done]. cbn.
    by apply (Forall_lookup_1 _ _ _ _ Ho E). }
  pose proof (Hb i). pose proof (Hb (i + 1)%nat). lia.
Qed.

Lemma strongly_sorted_lookup {A} (R : A -> A -> Prop) l i j x y :
  StronglySorted R l -> l !! i = Some x -> l !! j = Some y -> (i < j)%nat -> R x y.
Proof.
  intros Hs. revert i j. induction Hs as [|z l Hs IH Hz]; intros i j Hi Hj Hij; [done|].
  destruct j as [|j]; [lia|]. cbn in Hj. destruct i as [|i].
  - injection Hi as ->. by apply (Forall_lookup_1 _ _ _ _ Hz Hj).
  - apply (IH i j); [done..|lia].
Qed.

(** The search in a list of ascending starts finds the one position that starts at [want]. *)
Lemma start_search l want :
  StronglySorted (key_lt position_start) l ->
  match l !! partition_point (fun p => position_start p <? want) l with
  | Some p => if position_start p =? want then p ∈ l /\ (forall q, q ∈ l -> position_start q = want -> q = p)
              else forall q, q ∈ l -> position_start q <> want
  | None => forall q, q ∈ l -> position_start q <> want
  end.
Proof.
  intros Hs. assert (Hle : StronglySorted (key_le position_start) l) by (by apply StronglySorted_lt_le).
  rewrite partition_point_spec by (by apply sorted_partitioned_lt).
  set (at_ := count_while (fun p => position_start p <? want) l).
  assert (Hlow : forall j q, l !! j = Some q -> (j < at_)%nat -> position_start q < want).
  { intros j q Hj Hlt. apply Z.ltb_lt. by apply (count_while_prefix (fun p => position_start p <? want) l j). }
  destruct (l !! at_) as [p|] eqn:E.
  - assert (Hp : want <= position_start p) by (apply Z.ltb_ge, (count_while_stop _ _ _ E)).
    assert (Huniq : forall q, q ∈ l -> position_start q = want -> position_start p = want /\ q = p).
    { intros q Hq Hw. apply list_elem_of_lookup in Hq as [j Hj].
      destruct (lt_eq_lt_dec j at_) as [[Hlt| ->]|Hgt].
      - pose proof (Hlow j q Hj Hlt). lia.
      - split; congruence.
      - pose proof (strongly_sorted_lookup _ _ _ _ _ _ Hs E Hj Hgt) as Hlt. unfold key_lt in Hlt. lia. }
    destruct (Z.eqb_spec (position_start p) want) as [Heq|Hne].
    + split; [by eapply list_elem_of_lookup_2|]. intros q Hq Hw. by apply Huniq.
    + intros q Hq Hw. destruct (Huniq q Hq Hw). lia.
  - intros q Hq Hw. apply list_elem_of_lookup in Hq as [j Hj]. apply lookup_ge_None in E.
    pose proof (lookup_lt_Some _ _ _ Hj). pose proof (Hlow j q Hj ltac:(lia)). lia.
Qed.

Lemma follow_spec offsets rest i prev :
  offsets_small offsets -> in_u 32 prev -> Forall starts_ascending rest ->
  follow offsets i (wrap 32 (position_start prev + position_span prev)) rest = true <->
  exists ps, Forall2 (fun p l => p ∈ l) ps rest /\ consecutive offsets i prev ps.
Proof.
  intros Ho. revert i prev. induction rest as [|l rest IH]; intros i prev Hprev Hrest.
  - cbn. split; [|done]. intros _. exists []. by split; [constructor|].
  - apply Forall_cons in Hrest as [[Hs Hin] Hrest]. cbn [follow].
    pose proof (position_bounds prev Hprev) as [Hb1 Hb2]. pose proof (typed_gap_bounds offsets i Ho) as Hg.
    set (want := position_start prev + position_span prev + typed_gap offsets i).
    replace (wrap 32 (wrap 32 (position_start prev + position_span prev) + typed_gap offsets i)) with want
      by (unfold wrap, want; rewrite (Z.mod_small (position_start prev + position_span prev)) by lia;
          rewrite Z.mod_small by lia; lia).
    pose proof (start_search l want Hs) as Hfind.
    destruct (l !! partition_point (fun p => position_start p <? want) l) as [p|] eqn:E.
    + destruct (Z.eqb_spec (position_start p) want) as [Hp|Hp].
      * destruct Hfind as [Hpl Huniq]. rewrite <-Hp, IH; [|by apply (proj1 (Forall_forall _ _) Hin)|done].
        split.
        -- intros (ps & H2 & Hc). exists (p :: ps). split; [by constructor|]. by split.
        -- intros (ps & H2 & Hc). inversion H2 as [|q l' ps' rest' Hq H2']; subst. destruct Hc as [Hq1 Hc].
           rewrite (Huniq q Hq Hq1) in Hc. by exists ps'.
      * split; [done|]. intros (ps & H2 & Hc). inversion H2 as [|q l' ps' rest' Hq H2']; subst.
        destruct Hc as [Hq1 _]. by destruct (Hfind q Hq).
    + split; [done|]. intros (ps & H2 & Hc). inversion H2 as [|q l' ps' rest' Hq H2']; subst.
      destruct Hc as [Hq1 _]. by destruct (Hfind q Hq).
Qed.

Lemma phrase_matches_spec lists offsets :
  offsets_small offsets -> Forall starts_ascending lists ->
  phrase_matches lists offsets = true <-> phrase_at lists offsets.
Proof.
  intros Ho Hl. unfold phrase_matches, phrase_at. destruct lists as [|first rest].
  - split; [done|]. by intros (p & ps & ? & ? & ? & _).
  - apply Forall_cons in Hl as [[_ Hin] Hrest]. rewrite existsb_exists. split.
    + intros (p & Hp & Hf). apply list_elem_of_In in Hp. apply follow_spec in Hf as (ps & H2 & Hc);
        [|done|by apply (proj1 (Forall_forall _ _) Hin)|done]. by exists p, ps, first, rest.
    + intros (p & ps & f & r & [= <- <-] & Hp & H2 & Hc). exists p. split; [by apply list_elem_of_In|].
      apply follow_spec; [done|by apply (proj1 (Forall_forall _ _) Hin)|done|]. by exists ps.
Qed.

(** ** The postings of a phrase *)

Lemma posting_at_spec l d : docs_ascending (items l) -> posting_at l d = posting_of d (items l).
Proof.
  intros Hs. unfold posting_at, binary_search_by_key.
  destruct (binary_search_by_spec (fun p => doc_id p ?= d) (items l)) as [(i & p & -> & Hi & Hp)|[-> Hno]].
  - apply cmp_sorted_key. by apply StronglySorted_lt_le.
  - apply Z.compare_eq in Hp. subst d. rewrite Hi. symmetry. apply posting_of_ascending; [done|].
    by eapply list_elem_of_lookup_2.
  - symmetry. apply posting_of_None. eapply Forall_impl; [exact Hno|]. intros p Hp Hd. apply Hp. by rewrite Hd, Z.compare_refl.
Qed.

(** A partial map that keeps the document. *)
Lemma omap_postings (f : Posting -> option Posting) l :
  (forall p q, f p = Some q -> doc_id q = doc_id p) -> docs_ascending l ->
  docs_ascending (omap f l) /\ forall d, posting_of d (omap f l) = posting_of d l ≫= f.
Proof.
  intros Hf. induction 1 as [|p l Hs [IH1 IH2] Hp]; [by split; [constructor|]|].
  assert (Hlt : forall q, f p = Some q -> Forall (key_lt doc_id q) (omap f l)).
  { intros q Hq. apply Forall_forall. intros r Hr. apply list_elem_of_omap in Hr as (p' & Hp' & Hr).
    unfold key_lt. rewrite (Hf _ _ Hq), (Hf _ _ Hr). by apply (proj1 (Forall_forall _ _) Hp). }
  assert (Hnone : posting_of (doc_id p) l = None).
  { apply posting_of_None. eapply Forall_impl; [exact Hp|]. unfold key_lt. lia. }
  change (omap f (p :: l)) with (match f p with Some q => q :: omap f l | None => omap f l end). split.
  - destruct (f p) as [q|] eqn:E; [|done]. constructor; [done|]. by apply Hlt.
  - intros d. unfold posting_of in *. rewrite (filter_cons (fun p => doc_id p = d)). destruct (decide (doc_id p = d)) as [<-|Hne].
    + cbn [head mbind option_bind]. destruct (f p) as [q|] eqn:E.
      * rewrite filter_cons, decide_True by (by apply Hf). done.
      * by rewrite IH2, Hnone.
    + destruct (f p) as [q|] eqn:E; [|apply IH2]. rewrite filter_cons, decide_False by (by rewrite (Hf _ _ E)). apply IH2.
Qed.

Lemma posting_of_filter (P : DocId -> Prop) `{!forall d, Decision (P d)} d l :
  posting_of d (filter (fun p => P (doc_id p)) l) = if decide (P d) then posting_of d l else None.
Proof.
  unfold posting_of. induction l as [|p l IH]; [by case_decide|]. rewrite !filter_cons.
  destruct (decide (doc_id p = d)) as [<-|Hne].
  - destruct (decide (P (doc_id p))) eqn:E; [|exact IH]. rewrite filter_cons, decide_True by done. done.
  - destruct (decide (P (doc_id p))); [|exact IH]. rewrite filter_cons, decide_False by done. exact IH.
Qed.

Lemma postings_of_spec l wanted :
  docs_ascending (items l) -> StronglySorted Z.lt wanted ->
  items (postings_of l wanted) = filter (fun p => doc_id p ∈ wanted) (items l).
Proof.
  intros Hs Hw. unfold postings_of.
  assert (Hx : docs_ascending (omap (posting_at l) wanted) /\
    forall d, posting_of d (omap (posting_at l) wanted) = if decide (d ∈ wanted) then posting_of d (items l) else None).
  { induction Hw as [|d0 wanted Hw [IH1 IH2] Hd]; [by split; [constructor|]|]. change (omap (posting_at l) (d0 :: wanted)) with
      (match posting_at l d0 with Some q => q :: omap (posting_at l) wanted | None => omap (posting_at l) wanted end).
    rewrite posting_at_spec by done. rewrite Forall_forall in Hd. destruct (posting_of d0 (items l)) as [p|] eqn:E.
    - pose proof (posting_of_Some _ _ _ E) as [Hp <-]. split.
      + constructor; [done|]. apply Forall_forall. intros q Hq. apply list_elem_of_omap in Hq as (d & Hdw & Hq).
        rewrite posting_at_spec in Hq by done. apply posting_of_Some in Hq as [_ <-]. by apply Hd.
      + intros d. specialize (IH2 d). unfold posting_of in IH2 |- *. rewrite filter_cons.
        destruct (decide (doc_id p = d)) as [<-|Hne].
        * rewrite decide_True by set_solver. cbn. by rewrite <-E.
        * rewrite IH2. destruct (decide (d ∈ wanted)), (decide (d ∈ doc_id p :: wanted)); set_solver.
    - split; [done|]. intros d. rewrite IH2. destruct (decide (d ∈ wanted)), (decide (d ∈ d0 :: wanted)); [done|set_solver| |done].
      replace d with d0 by set_solver. done. }
  destruct Hx as [Hasc Hget]. rewrite from_sorted_ascending by done. cbn [items].
  apply ascending_ext; [done|by apply filter_ascending|]. intros d.
  rewrite Hget. symmetry. etransitivity; [exact (posting_of_filter (fun d => d ∈ wanted) d (items l))|].
  repeat case_decide; done.
Qed.

(** The positions of a document's words form the phrase. *)
Definition phrase_in (lists : list PostingList) (offsets : list Z) (d : DocId) : bool :=
  match mapM (fun l => posting_of d (items l)) lists with
  | Some ps => phrase_matches (positions <$> ps) offsets
  | None => false
  end.

Lemma min_by_len_bound lists i b len : (b < i)%nat -> (min_by_len i b len lists < i + length lists)%nat.
Proof.
  revert i b len. induction lists as [|l lists IH]; intros i b len Hb; cbn [min_by_len length]; [lia|].
  destruct (length (items l) <? len)%nat; [pose proof (IH (S i) i (length (items l)) ltac:(lia))|pose proof (IH (S i) b len ltac:(lia))]; lia.
Qed.

Lemma gather_spec driver rarest lists i :
  Forall (fun l => docs_ascending (items l)) lists ->
  (forall l, (i <= rarest)%nat -> lists !! (rarest - i)%nat = Some l -> posting_of (doc_id driver) (items l) = Some driver) ->
  gather driver rarest i lists = mapM (fun l => posting_of (doc_id driver) (items l)) lists.
Proof.
  intros Ha. revert i. induction Ha as [|l lists Hl Ha IH]; intros i Hd; [done|]. cbn.
  assert (E : (if (i =? rarest)%nat then Some driver else posting_at l (doc_id driver)) = posting_of (doc_id driver) (items l)).
  { rewrite posting_at_spec by done. destruct (Nat.eqb_spec i rarest) as [->|]; [|done].
    symmetry. apply Hd; [lia|]. by replace (rarest - rarest)%nat with 0%nat by lia. }
  rewrite E. destruct (posting_of (doc_id driver) (items l)); [|done]. cbn. rewrite IH.
  - by destruct (mapM _ lists).
  - intros l' Hle Hl'. apply Hd; [lia|]. by replace (rarest - i)%nat with (S (rarest - S i)) by lia.
Qed.

Lemma mapM_posting_None (lists : list PostingList) d l :
  l ∈ lists -> posting_of d (items l) = None -> mapM (fun l => posting_of d (items l)) lists = None.
Proof.
  intros Hl Hn. induction lists as [|l' lists IH]; [set_solver|]. cbn.
  apply elem_of_cons in Hl as [<-|Hl]; [by rewrite Hn|]. rewrite (IH Hl).
  by destruct (posting_of d (items l')).
Qed.

(** The phrase keeps the first word's postings of the documents that hold it. *)
Lemma phrase_list_spec l lists offsets :
  Forall (fun l => docs_ascending (items l)) (l :: lists) ->
  items (phrase_list (l :: lists) offsets) = filter (fun p => phrase_in (l :: lists) offsets (doc_id p) = true) (items l).
Proof.
  intros Ha. unfold phrase_list. set (all := l :: lists) in *.
  assert (Hl : docs_ascending (items l)) by (by inversion Ha).
  destruct (existsb (fun l => (length (items l) =? 0)%nat) all) eqn:Eany.
  - apply existsb_exists in Eany as (e & He & Hz). apply list_elem_of_In in He. apply Nat.eqb_eq, length_zero_iff_nil in Hz.
    cbn [PostingList_new items]. symmetry. apply filter_none. intros p _. unfold phrase_in.
    rewrite (mapM_posting_None _ _ e He); [done|]. by rewrite Hz.
  - set (r := rarest_list all).
    assert (Hr : (r < length all)%nat) by (unfold r, all; cbn; pose proof (min_by_len_bound lists 1 0 (length (items l)) ltac:(lia)); lia).
    destruct (lookup_lt_is_Some_2 _ _ Hr) as [driven Hdriven]. rewrite Hdriven. cbn [default from_option id].
    assert (Hda : docs_ascending (items driven)) by (by apply (Forall_lookup_1 _ _ _ _ Ha Hdriven)).
    destruct (omap_postings (phrase_posting all offsets r) (items driven)) as [Hxa Hxd]; [|done|].
    { intros p q Hq. unfold phrase_posting in Hq. destruct (gather p r 0 all); [|done].
      destruct (phrase_matches _ _); [|done]. by injection Hq as <-. }
    rewrite from_items_ascending by done. cbn [items]. apply ascending_ext; [done|by apply filter_ascending|].
    intros d. rewrite Hxd. etransitivity; [|symmetry; exact (posting_of_filter (fun d => phrase_in all offsets d = true) d (items l))].
    destruct (posting_of d (items driven)) as [p|] eqn:Ep; cbn.
    + pose proof (posting_of_Some _ _ _ Ep) as [_ Hd]. unfold phrase_posting. rewrite gather_spec; [|done|].
      2:{ intros l' _ Hl'. rewrite Nat.sub_0_r in Hl'. change (all !! r = Some l') in Hl'.
        assert (l' = driven) as -> by congruence. by rewrite Hd. }
      rewrite Hd. unfold phrase_in. destruct (mapM (fun l => posting_of d (items l)) all) as [ps|] eqn:Em; [|done].
      unfold all in Em. cbn in Em. destruct (posting_of d (items l)) as [q|] eqn:Eq; [|done]. cbn in Em.
      destruct (mapM _ lists) as [qs|]; [|done]. injection Em as <-. cbn [head default from_option id].
      destruct (phrase_matches _ _); [|done]. pose proof (posting_of_Some _ _ _ Eq) as [_ <-]. by destruct q.
    + unfold phrase_in. by rewrite (mapM_posting_None _ _ driven (list_elem_of_lookup_2 _ _ _ Hdriven) Ep).
Qed.

Definition word_list_ok (l : PostingList) : Prop :=
  docs_ascending (items l) /\ Forall (fun p => starts_ascending (positions p)) (items l).

Lemma phrase_in_spec lists offsets d :
  offsets_small offsets -> Forall word_list_ok lists ->
  phrase_in lists offsets d = true <->
  exists qs, Forall2 (fun q l => posting_of d (items l) = Some q) qs lists /\ phrase_at (positions <$> qs) offsets.
Proof.
  intros Ho Hok. unfold phrase_in. destruct (mapM _ lists) as [qs|] eqn:Em.
  - pose proof Em as Em0. apply mapM_Some in Em. apply Forall2_flip in Em. rewrite phrase_matches_spec; [|done|].
    + split; [by exists qs|]. intros (qs' & H2 & Hat).
      apply Forall2_flip, mapM_Some in H2. assert (qs' = qs) as -> by congruence. done.
    + apply Forall_fmap, Forall_forall. intros q Hq. apply list_elem_of_lookup in Hq as [i Hi].
      destruct (Forall2_lookup_l _ _ _ _ _ Em Hi) as (l & Hl & Hp). apply posting_of_Some in Hp as [Hp _].
      destruct (Forall_lookup_1 _ _ _ _ Hok Hl) as [_ Hs]. by apply (proj1 (Forall_forall _ _) Hs).
  - split; [done|]. intros (qs & H2 & _). apply Forall2_flip, mapM_Some in H2. congruence.
Qed.

(** C29: A phrase search returns, in document order, exactly the first word's postings of the documents
    in which one occurrence of every word can be chosen such that each starts where the one
    before it ends plus the gap that was typed; which list drives the search makes no
    difference. *)
Theorem phrase_correct l lists offsets p :
  offsets_small offsets -> Forall word_list_ok (l :: lists) ->
  docs_ascending (items (phrase_list (l :: lists) offsets)) /\
  (p ∈ items (phrase_list (l :: lists) offsets) <->
   p ∈ items l /\
   exists qs, Forall2 (fun q l => posting_of (doc_id p) (items l) = Some q) qs (l :: lists) /\
     phrase_at (positions <$> qs) offsets).
Proof.
  intros Ho Hok.
  assert (Ha : Forall (fun l => docs_ascending (items l)) (l :: lists)) by (eapply Forall_impl; [exact Hok|]; by intros ? []).
  rewrite phrase_list_spec by done. split; [apply filter_ascending; by inversion Ha|].
  rewrite list_elem_of_filter, phrase_in_spec by done. tauto.
Qed.

Lemma phrase_correct_witness :
  let red := from_items [mkPosting 1 [encode_position 0 1] 3; mkPosting 2 [encode_position 7 1] 3] in
  let balloon := from_items [mkPosting 1 [encode_position 4 1] 2; mkPosting 2 [encode_position 2 1; encode_position 8 1] 2] in
  mkPosting 2 [encode_position 7 1] 3 ∈ items (phrase_list [red; balloon] [0; 1]).
Proof.
  intros red balloon.
  apply (phrase_correct red [balloon] [0; 1] (mkPosting 2 [encode_position 7 1] 3)).
  - repeat constructor; lia.
  - repeat constructor; unfold key_lt; try (vm_compute; congruence).
  - split; [apply list_elem_of_lookup_2 with 1%nat; reflexivity|].
    exists [mkPosting 2 [encode_position 7 1] 3; mkPosting 2 [encode_position 2 1; encode_position 8 1] 2].
    split; [repeat constructor|]. exists (encode_position 7 1), [encode_position 8 1], [encode_position 7 1],
      [[encode_position 2 1; encode_position 8 1]].
    split; [done|]. split; [left|]. split; [|by vm_compute]. constructor; [|constructor].
    apply list_elem_of_lookup_2 with 1%nat; reflexivity.
Defined.

(** ** The sliding window *)

Definition covered_of (cs : list Z) : nat := length (filter (fun c => c <> 0) cs).

Lemma covered_insert cs (i : nat) (c x : Z) :
  cs !! i = Some c ->
  (covered_of (<[i := x]> cs) + (if decide (c = 0)%Z then 0 else 1) = covered_of cs + (if decide (x = 0)%Z then 0 else 1))%nat.
Proof.
  intros Hi. unfold covered_of. pose proof (lookup_lt_Some _ _ _ Hi).
  rewrite insert_take_drop by done. rewrite <-(take_drop_middle cs i c Hi) at 3.
  rewrite !filter_app, !length_app, !filter_cons. do 4 case_decide; cbn [length]; lia || tauto.
Qed.

Lemma covered_all cs : covered_of cs = length cs <-> Forall (fun c => c <> 0) cs.
Proof.
  unfold covered_of. induction cs as [|c cs IH]; [done|]. rewrite filter_cons, Forall_cons, <-IH.
  pose proof (length_filter (fun c => c <> 0) cs). case_decide; cbn [length]; split; intros; try split; lia || tauto.
Qed.

Section window.
Context (n : nat) (events : list (Z * nat)).

Definition window (l r : nat) : list (Z * nat) := slice l (r - l) events.
Definition word_count (word : nat) (es : list (Z * nat)) : Z := zlen (filter (fun e => e.2 = word) es).
Definition counts_of (l r : nat) : list Z := (fun word => word_count word (window l r)) <$> seq 0 n.
(** The events from [l] up to [r] hold every word. *)
Definition full (l r : nat) : Prop :=
  forall word, (word < n)%nat -> exists i e, (l <= i < r)%nat /\ events !! i = Some e /\ e.2 = word.

Lemma window_enter l r e : (l <= r)%nat -> events !! r = Some e -> window l (S r) = window l r ++ [e].
Proof.
  intros Hlr He. unfold window, slice. replace (S r - l)%nat with (S (r - l)) by lia. apply take_S_r.
  rewrite lookup_drop. by replace (l + (r - l))%nat with r by lia.
Qed.

Lemma window_leave l r e : (l < r)%nat -> events !! l = Some e -> window l r = e :: window (S l) r.
Proof.
  intros Hlr He. unfold window, slice. rewrite (drop_S _ _ _ He). by replace (r - l)%nat with (S (r - S l)) by lia.
Qed.

Lemma word_count_app word a b : word_count word (a ++ b) = word_count word a + word_count word b.
Proof. unfold word_count. rewrite filter_app, length_app. lia. Qed.

Lemma word_count_one word e : word_count word [e] = if decide (e.2 = word) then 1 else 0.
Proof. unfold word_count. rewrite filter_cons. by case_decide. Qed.

Lemma word_count_bound word l r : 0 <= word_count word (window l r) <= zlen events.
Proof.
  unfold word_count, window, slice. pose proof (length_filter (fun e => e.2 = word) (take (r - l) (drop l events))).
  rewrite length_take, length_drop in *. lia.
Qed.

Lemma word_count_pos word l r :
  word_count word (window l r) <> 0 <-> exists i e, (l <= i < r)%nat /\ events !! i = Some e /\ e.2 = word.
Proof.
  unfold word_count. split.
  - intros Hne. destruct (filter _ (window l r)) as [|e es] eqn:Ef; [done|].
    assert (He : e ∈ filter (fun e => e.2 = word) (window l r)) by (rewrite Ef; left).
    apply list_elem_of_filter in He as [Hw He]. apply list_elem_of_lookup in He as [k Hk]. unfold window, slice in Hk.
    apply lookup_take_Some in Hk as [Hk Hlt]. rewrite lookup_drop in Hk. exists (l + k)%nat, e. split; [lia|done].
  - intros (i & e & Hi & He & Hw).
    assert (Hin : e ∈ filter (fun e => e.2 = word) (window l r)).
    { apply list_elem_of_filter. split; [done|]. apply list_elem_of_lookup. exists (i - l)%nat. unfold window, slice.
      apply lookup_take_Some. rewrite lookup_drop. split; [|lia]. by replace (l + (i - l))%nat with i by lia. }
    destruct (filter _ (window l r)); [set_solver|]. cbn [length]. lia.
Qed.

Lemma full_covered l r : full l r <-> covered_of (counts_of l r) = n.
Proof.
  assert (Hl : length (counts_of l r) = n) by (unfold counts_of; by rewrite length_fmap, length_seq).
  transitivity (covered_of (counts_of l r) = length (counts_of l r)); [|by rewrite Hl]. rewrite covered_all. unfold counts_of. rewrite Forall_fmap, Forall_forall. unfold full.
  split.
  - intros Hf word Hw. apply elem_of_seq in Hw. apply word_count_pos, Hf. lia.
  - intros Hf word Hw. apply word_count_pos, Hf, elem_of_seq. lia.
Qed.

Lemma counts_lookup l r word : (word < n)%nat -> counts_of l r !! word = Some (word_count word (window l r)).
Proof. intros Hw. unfold counts_of. rewrite list_lookup_fmap, lookup_seq_lt by done. done. Qed.

(** Changing the window by one event changes the count of its word. *)
Lemma counts_change l r l' r' (e : Z * nat) c :
  (e.2 < n)%nat -> c = word_count e.2 (window l' r') ->
  (forall word, word <> e.2 -> word_count word (window l r) = word_count word (window l' r')) ->
  <[e.2 := c]> (counts_of l r) = counts_of l' r'.
Proof.
  intros He -> Hsame. apply list_eq. intros word. destruct (decide (word < n)%nat) as [Hw|Hw].
  - rewrite (counts_lookup l' r') by done. destruct (decide (word = e.2)) as [->|Hne].
    + rewrite list_lookup_insert_eq; [done|]. unfold counts_of. by rewrite length_fmap, length_seq.
    + rewrite list_lookup_insert_ne by done. rewrite counts_lookup by done. by rewrite Hsame.
  - rewrite !lookup_ge_None_2; [done|unfold counts_of; rewrite ?length_insert, length_fmap, length_seq; lia..].
Qed.

Context (Hpos : (0 < n)%nat).
Context (Hsort : StronglySorted (key_le fst) events).
Context (Hwords : Forall (fun e => (e.2 < n)%nat /\ 0 <= e.1 < 2 ^ 28) events).
Context (Hlen : zlen events < 2 ^ 32).

Record win_inv (r : nat) (w : Window) : Prop := {
  wi_left : (left w <= r <= length events)%nat;
  wi_counts : counts w = counts_of (left w) r;
  wi_covered : covered w = covered_of (counts w);
  wi_attained b : best w = Some b ->
    exists i j ei ej, (i <= j < r)%nat /\ events !! i = Some ei /\ events !! j = Some ej /\ full i (S j) /\
      b = ej.1 - ei.1 + 1;
  wi_passed i ei : (i < left w)%nat -> events !! i = Some ei ->
    exists b j ej, best w = Some b /\ (j < r)%nat /\ events !! j = Some ej /\ b <= ej.1 - ei.1 + 1
}.

Lemma event_at i e : events !! i = Some e -> events !!! i = e /\ (e.2 < n)%nat /\ 0 <= e.1 < 2 ^ 28.
Proof using All.
  intros He. split; [by apply list_lookup_total_correct|]. by apply (Forall_lookup_1 _ _ _ _ Hwords He).
Qed.

Lemma enter_inv r w e :
  win_inv r w -> events !! r = Some e -> win_inv (S r) (enter e.2 w).
Proof using All.
  intros [Hl Hc Hcov Hat Hpass] He. destruct (event_at r e He) as (_ & Hw & _).
  pose proof (lookup_lt_Some _ _ _ He) as Hr. pose proof (word_count_bound e.2 (left w) r) as Hb.
  pose proof (word_count_bound e.2 (left w) (S r)) as Hb'.
  pose proof (counts_lookup (left w) r _ Hw) as Hlook. rewrite <-Hc in Hlook.
  assert (Hcnt : word_count e.2 (window (left w) (S r)) = word_count e.2 (window (left w) r) + 1).
  { rewrite (window_enter _ _ e), word_count_app, word_count_one, decide_True by (done || lia). lia. }
  assert (Hnew : wrap 32 (counts w !!! e.2 + 1) = word_count e.2 (window (left w) (S r))).
  { rewrite (list_lookup_total_correct _ _ _ Hlook). unfold wrap. rewrite Z.mod_small; lia. }
  unfold enter. constructor; cbn [left counts covered best]; [lia| | | |].
  - rewrite Hnew, Hc. apply counts_change; [done|done|]. intros word Hne.
    rewrite (window_enter _ _ e), word_count_app, word_count_one, decide_False by (done || lia). lia.
  - rewrite Hnew, (list_lookup_total_correct _ _ _ Hlook).
    pose proof (covered_insert _ _ _ (word_count e.2 (window (left w) (S r))) Hlook) as Hci. rewrite <-Hcov in Hci.
    destruct (Z.eqb_spec (word_count e.2 (window (left w) r)) 0); do 2 case_decide; lia.
  - intros b Hb0. destruct (Hat b Hb0) as (i & j & ei & ej & Hij & Hrest). exists i, j, ei, ej. split; [lia|done].
  - intros i ei Hi Hei. destruct (Hpass i ei Hi Hei) as (b & j & ej & Hb0 & Hj & Hrest). exists b, j, ej. split; [done|]. split; [lia|done].
Qed.

Lemma shrink_inv fuel r w e :
  win_inv (S r) w -> events !! r = Some e -> (S r - left w < fuel)%nat ->
  let w' := shrink fuel n events r w in
  win_inv (S r) w' /\ ~ full (left w') (S r) /\ (left w <= left w')%nat /\
  (forall b, best w = Some b -> exists b', best w' = Some b' /\ b' <= b).
Proof using All.
  revert w. induction fuel as [|fuel IH]; intros w Hinv He Hf; [lia|].
  pose proof Hinv as [Hl Hc Hcov Hat Hpass]. cbn [shrink]. destruct (Nat.eqb_spec (covered w) n) as [Hfull|Hnot].
  2:{ cbv zeta. split; [done|]. split; [|split; [lia|]].
      - rewrite full_covered, <-Hc, <-Hcov. done.
      - intros b Hb. exists b. split; [done|lia]. }
  rewrite Hcov, Hc in Hfull. apply full_covered in Hfull.
  assert (Hlr : (left w < S r)%nat) by (destruct (Hfull 0%nat Hpos) as (i & ? & Hi & _); lia).
  destruct (lookup_lt_is_Some_2 events (left w)) as [el Hel]; [lia|].
  destruct (event_at _ _ Hel) as (-> & Hw & Hs1). destruct (event_at _ _ He) as (-> & _ & Hs2).
  pose proof (sorted_lookup_le fst _ _ _ _ _ Hsort Hel He ltac:(lia)) as Hle.
  pose proof (word_count_bound el.2 (left w) (S r)) as Hb. pose proof (word_count_bound el.2 (S (left w)) (S r)) as Hb'.
  pose proof (counts_lookup (left w) (S r) _ Hw) as Hlook. rewrite <-Hc in Hlook.
  assert (Hcnt : word_count el.2 (window (left w) (S r)) = 1 + word_count el.2 (window (S (left w)) (S r))).
  { rewrite (window_leave _ _ el) by (done || lia). change (?x :: ?y) with ([x] ++ y).
    rewrite word_count_app, word_count_one, decide_True by done. lia. }
  rewrite (list_lookup_total_correct _ _ _ Hlook).
  replace (wrap 32 (word_count el.2 (window (left w) (S r)) - 1)) with (word_count el.2 (window (S (left w)) (S r)))
    by (unfold wrap; rewrite Z.mod_small; lia).
  replace (wrap 32 (e.1 - el.1 + 1)) with (e.1 - el.1 + 1) by (unfold wrap; rewrite Z.mod_small; lia).
  set (b0 := match best w with Some known => Z.min known (e.1 - el.1 + 1) | None => e.1 - el.1 + 1 end).
  match goal with |- context [shrink fuel n events r ?x] => set (w1 := x) end.
  assert (Hb0 : b0 <= e.1 - el.1 + 1) by (unfold b0; destruct (best w); lia).
  assert (Hinv1 : win_inv (S r) w1).
  { unfold w1. constructor; cbn [left counts covered best]; [lia| | | |].
    - rewrite Hc. apply counts_change; [done|done|]. intros word Hne.
      rewrite (window_leave _ _ el) by (done || lia). change (?x :: ?y) with ([x] ++ y).
      rewrite word_count_app, word_count_one, decide_False by done. lia.
    - pose proof (covered_insert _ _ _ (word_count el.2 (window (S (left w)) (S r))) Hlook) as Hci. rewrite <-Hcov in Hci.
      destruct (Z.eqb_spec (word_count el.2 (window (S (left w)) (S r))) 0); revert Hci; do 2 case_decide; lia.
    - intros b [= <-]. unfold b0. destruct (best w) as [known|] eqn:Eb.
      + destruct (Z.min_spec known (e.1 - el.1 + 1)) as [[_ ->]|[_ ->]]; [by apply Hat|].
        exists (left w), r, el, e. split; [lia|done].
      + exists (left w), r, el, e. split; [lia|done].
    - intros i ei Hi Hei. destruct (decide (i = left w)) as [->|Hne].
      + exists b0, r, e. split; [done|]. split; [lia|]. split; [done|]. replace ei with el by congruence. lia.
      + destruct (Hpass i ei ltac:(lia) Hei) as (b & j & ej & Hbw & Hj & Hej & Hbe). exists b0, j, ej.
        split; [done|]. split; [done|]. split; [done|]. unfold b0. rewrite Hbw. lia. }
  destruct (IH w1 Hinv1 He ltac:(unfold w1; cbn [left]; lia)) as (H1 & H2 & H3 & H4). cbv zeta.
  split; [done|]. split; [done|]. assert (Hw1 : left w1 = S (left w)) by reflexivity. split; [lia|].
  intros b Hbw. destruct (H4 b0 eq_refl) as (b' & Hb1 & Hb2). exists b'. split; [done|]. unfold b0 in Hb2. rewrite Hbw in Hb2. lia.
Qed.

(** Every window that holds all words is at least as wide as the best one found. *)
Definition optimal (r : nat) (w : Window) : Prop :=
  forall i j ei ej, (j < r)%nat -> events !! i = Some ei -> events !! j = Some ej -> full i (S j) ->
    exists b, best w = Some b /\ b <= ej.1 - ei.1 + 1.

Lemma slide_inv r w :
  (r < length events)%nat -> win_inv r w -> optimal r w ->
  win_inv (S r) (slide n events w r) /\ optimal (S r) (slide n events w r).
Proof using All.
  intros Hr Hinv Hopt. destruct (lookup_lt_is_Some_2 events r Hr) as [e He]. destruct (event_at _ _ He) as (Het & _).
  unfold slide. rewrite Het. pose proof (enter_inv r w e Hinv He) as Hinv1.
  destruct (shrink_inv (S (length events)) r _ e Hinv1 He) as (H1 & H2 & H3 & H4); [unfold enter; cbn [left]; lia|]. split; [done|].
  set (w' := shrink _ _ _ _ _) in *. intros i j ei ej Hj Hei Hej Hf. destruct (decide (j < r)%nat) as [Hjr|Hjr].
  - destruct (Hopt i j ei ej Hjr Hei Hej Hf) as (b & Hb & Hle). destruct (H4 b Hb) as (b' & Hb' & Hle').
    exists b'. split; [done|lia].
  - replace j with r in * by lia. destruct (decide (i < left w')%nat) as [Hi|Hi].
    + destruct (wi_passed _ _ H1 i ei Hi Hei) as (b & j' & ej' & Hb & Hj' & Hej' & Hle). exists b. split; [done|].
      pose proof (sorted_lookup_le fst _ _ _ _ _ Hsort Hej' Hej ltac:(lia)). lia.
    + exfalso. apply H2. intros word Hword. destruct (Hf word Hword) as (k & ek & Hk & Hrest).
      exists k, ek. split; [lia|done].
Qed.

Lemma slide_all r :
  (r <= length events)%nat ->
  let w := fold_left (slide n events) (seq 0 r) (mkWindow (replicate n 0) 0 None 0) in
  win_inv r w /\ optimal r w.
Proof using All.
  induction r as [|r IH]; intros Hr.
  - cbn. split; [|intros i j ? ? Hj; lia]. constructor; cbn [left counts covered best]; [lia| | |done|lia].
    + apply list_eq. intros word. destruct (decide (word < n)%nat) as [Hw|Hw].
      * rewrite counts_lookup, lookup_replicate_2 by done. done.
      * rewrite !lookup_ge_None_2; [done|unfold counts_of; rewrite length_fmap, length_seq; lia|rewrite length_replicate; lia].
    + unfold covered_of. rewrite filter_none; [done|]. intros c Hc. apply elem_of_replicate in Hc as [-> _]. lia.
  - rewrite seq_S, fold_left_app. cbn [fold_left]. apply slide_inv; [lia|apply IH; lia..].
Qed.
End window.

(** ** The smallest stretch *)

(** One start of every word. *)
Definition is_choice (lists : list (list Position)) (c : list Z) : Prop :=
  Forall2 (fun x l => exists p, p ∈ l /\ x = position_start p) c lists.
(** From the first to the last chosen start, both included. *)
Definition spans (c : list Z) (m : Z) : Prop :=
  exists a b, a ∈ c /\ b ∈ c /\ Forall (fun x => a <= x <= b) c /\ m = b - a + 1.

Lemma spans_exists c : c <> [] -> exists m, spans c m.
Proof.
  unfold spans. induction c as [|x [|y c] IH]; intros Hc; [done| |].
  - exists 1, x, x. repeat split; [left|left|repeat constructor; lia|lia].
  - destruct IH as (_ & a & b & Ha & Hb & Hall & _); [done|].
    exists (Z.max x b - Z.min x a + 1), (Z.min x a), (Z.max x b).
    split; [destruct (Z.min_spec x a) as [[_ ->]|[_ ->]]; set_solver|].
    split; [destruct (Z.max_spec x b) as [[_ ->]|[_ ->]]; set_solver|]. split; [|done].
    constructor; [lia|]. eapply Forall_impl; [exact Hall|]. cbn. lia.
Qed.

Lemma choose_all {A B} (P : A -> B -> Prop) (l : list B) :
  Forall (fun b => exists a, P a b) l -> exists c, Forall2 P c l.
Proof.
  induction 1 as [|b l [a Ha] _ [c IH]]; [by exists []|]. exists (a :: c). by constructor.
Qed.

Lemma event_leb_total a b : event_leb a b = true \/ event_leb b a = true.
Proof. unfold event_leb. destruct (Z.ltb_spec a.1 b.1), (Z.ltb_spec b.1 a.1), (Z.eqb_spec a.1 b.1), (Z.eqb_spec b.1 a.1); try lia; cbn;
  rewrite ?Nat.leb_le; lia || tauto. Qed.

Lemma event_leb_trans a b c : event_leb a b = true -> event_leb b c = true -> event_leb a c = true.
Proof. unfold event_leb. rewrite !orb_true_iff, !andb_true_iff, !Z.ltb_lt, !Z.eqb_eq, !Nat.leb_le. lia. Qed.

Lemma cover_events_sorted lists : StronglySorted (key_le fst) (cover_events lists).
Proof.
  pose proof (stable_sort_sorted event_leb event_leb_total event_leb_trans (concat (imap word_events lists))) as Hs.
  unfold cover_events. induction Hs as [|x l Hs IH Hx]; [constructor|]. constructor; [done|].
  eapply Forall_impl; [exact Hx|]. intros y Hy. unfold event_leb in Hy. unfold key_le.
  apply orb_true_iff in Hy. rewrite andb_true_iff, Z.ltb_lt, Z.eqb_eq in Hy. lia.
Qed.

Lemma elem_of_cover_events lists e :
  e ∈ cover_events lists <-> exists l p, lists !! e.2 = Some l /\ p ∈ l /\ e.1 = position_start p.
Proof.
  unfold cover_events. rewrite stable_sort_perm, elem_of_concat. split.
  - intros (es & He & Hes). apply elem_of_lookup_imap in Hes as (w & l & -> & Hl).
    apply list_elem_of_fmap in He as (p & -> & Hp). by exists l, p.
  - intros (l & p & Hl & Hp & He). exists (word_events e.2 l). split.
    + apply list_elem_of_fmap. exists p. split; [|done]. destruct e. cbn in *. by subst.
    + apply elem_of_lookup_imap. by exists e.2, l.
Qed.

Lemma length_cover_events lists : length (cover_events lists) = length (concat lists).
Proof.
  unfold cover_events. rewrite stable_sort_perm. 
  assert (H : forall k, length (concat (imap (fun i => word_events (k + i)) lists)) = length (concat lists)).
  { induction lists as [|l lists IH]; intros k; [done|]. cbn. rewrite !length_app. unfold word_events at 1. rewrite length_fmap. f_equal.
    rewrite <-(IH (S k)). f_equal. f_equal. apply imap_ext. intros i x _. cbn. f_equal. lia. }
  exact (H 0%nat).
Qed.

Lemma cover_events_words lists :
  Forall (Forall (in_u 32)) lists ->
  Forall (fun e => (e.2 < length lists)%nat /\ 0 <= e.1 < 2 ^ 28) (cover_events lists).
Proof.
  intros Hin. apply Forall_forall. intros e He. apply elem_of_cover_events in He as (l & p & Hl & Hp & ->).
  split; [by eapply lookup_lt_Some|]. apply position_bounds.
  pose proof (Forall_lookup_1 _ _ _ _ Hin Hl) as Hl'. by apply (proj1 (Forall_forall _ _) Hl').
Qed.

(** A choice lies in a window as wide as the choice. *)
Lemma choice_window lists c m :
  lists <> [] -> is_choice lists c -> spans c m ->
  exists i j ei ej, (j < length (cover_events lists))%nat /\ cover_events lists !! i = Some ei /\
    cover_events lists !! j = Some ej /\ full (length lists) (cover_events lists) i (S j) /\ ej.1 - ei.1 + 1 <= m.
Proof.
  intros Hne Hc (a & b & Ha & Hb & Hall & ->). set (events := cover_events lists).
  pose proof (cover_events_sorted lists) as Hs.
  set (i := count_while (fun e => e.1 <? a) events). set (j := count_while (fun e => e.1 <=? b) events).
  assert (Hin : forall k e, events !! k = Some e -> a <= e.1 <= b -> (i <= k < j)%nat).
  { intros k e Hk He. split.
    - destruct (decide (i <= k)%nat) as [|Hlt]; [done|].
      pose proof (count_while_prefix (fun e => e.1 <? a) events k e ltac:(lia) Hk) as Hp. apply Z.ltb_lt in Hp. lia.
    - destruct (decide (k < j)%nat) as [|Hge]; [done|].
      destruct (lookup_lt_is_Some_2 events j) as [ej Hej]; [pose proof (lookup_lt_Some _ _ _ Hk); lia|].
      pose proof (count_while_stop _ _ _ Hej) as Hp. apply Z.leb_gt in Hp.
      pose proof (sorted_lookup_le fst _ _ _ _ _ Hs Hej Hk ltac:(lia)). lia. }
  assert (Hword : forall w x, c !! w = Some x -> exists k, events !! k = Some (x, w)).
  { intros w x Hx. apply list_elem_of_lookup. apply elem_of_cover_events.
    destruct (Forall2_lookup_l _ _ _ _ _ Hc Hx) as (l & Hl & p & Hp & ->). by exists l, p. }
  assert (Hbound : forall w x, c !! w = Some x -> a <= x <= b) by (intros w x Hx; exact (Forall_lookup_1 _ _ _ _ Hall Hx)).
  apply list_elem_of_lookup in Ha as [wa Hwa]. destruct (Hword _ _ Hwa) as [ka Hka].
  pose proof (Hin ka _ Hka (Hbound _ _ Hwa)) as Hki. pose proof (lookup_lt_Some _ _ _ Hka) as Hlt.
  pose proof (count_while_le (fun e => e.1 <=? b) events) as Hjl. fold j in Hjl.
  destruct (lookup_lt_is_Some_2 events i) as [ei Hei]; [lia|].
  destruct (lookup_lt_is_Some_2 events (j - 1)) as [ej Hej]; [lia|].
  exists i, (j - 1)%nat, ei, ej. split; [lia|]. split; [done|]. split; [done|]. split.
  - intros w Hw. destruct (lookup_lt_is_Some_2 c w) as [x Hx]; [rewrite (Forall2_length _ _ _ Hc); lia|].
    destruct (Hword _ _ Hx) as [k Hk]. exists k, (x, w). split; [|done].
    pose proof (Hin k _ Hk (Hbound _ _ Hx)). lia.
  - pose proof (count_while_stop _ _ _ Hei) as H1. apply Z.ltb_ge in H1.
    pose proof (count_while_prefix (fun e => e.1 <=? b) events (j - 1) ej ltac:(lia) Hej) as H2. apply Z.leb_le in H2. lia.
Qed.

(** A window that holds every word contains a choice. *)
Lemma window_choice lists i j ei ej :
  cover_events lists !! i = Some ei -> cover_events lists !! j = Some ej ->
  full (length lists) (cover_events lists) i (S j) ->
  exists c, is_choice lists c /\ Forall (fun x => ei.1 <= x <= ej.1) c.
Proof.
  intros Hi Hj Hf. pose proof (cover_events_sorted lists) as Hs.
  destruct (choose_all (fun x l => (exists p, p ∈ l /\ x = position_start p) /\ ei.1 <= x <= ej.1) lists) as [c Hc].
  - apply Forall_lookup. intros w l Hl. destruct (Hf w) as (k & e & Hk & He & Hw); [by eapply lookup_lt_Some|].
    pose proof (list_elem_of_lookup_2 _ _ _ He) as Hin. apply elem_of_cover_events in Hin as (l' & p & Hl' & Hp & Hx).
    rewrite Hw, Hl in Hl'. injection Hl' as <-. exists e.1. split; [by exists p|].
    pose proof (sorted_lookup_le fst _ _ _ _ _ Hs Hi He ltac:(lia)).
    pose proof (sorted_lookup_le fst _ _ _ _ _ Hs He Hj ltac:(lia)). lia.
  - exists c. split.
    + eapply Forall2_impl; [exact Hc|]. by intros ? ? [? _].
    + apply Forall_lookup. intros w x Hx. by destruct (Forall2_lookup_l _ _ _ _ _ Hc Hx) as (l & _ & _ & ?).
Qed.

(** The sliding window finds the smallest stretch that holds at least one occurrence of every
    word: some choice of one start per word spans exactly the result and none spans less; there is
    no result only when there is no word or some word has no occurrence. *)
Theorem min_cover_span_correct lists :
  Forall (Forall (in_u 32)) lists -> zlen (concat lists) < 2 ^ 32 ->
  match min_cover_span lists with
  | Some b =>
    (exists c, is_choice lists c /\ spans c b) /\ (forall c m, is_choice lists c -> spans c m -> b <= m)
  | None => lists = [] \/ [] ∈ lists
  end.
Proof.
  intros Hin Hlen. unfold min_cover_span.
  destruct (bool_decide (lists = []) || existsb (fun l => (length l =? 0)%nat) lists) eqn:Ee.
  { apply orb_true_iff in Ee as [He|He]; [left; by apply bool_decide_eq_true in He|right].
    apply existsb_exists in He as (l & Hl & Hz). apply list_elem_of_In in Hl. apply Nat.eqb_eq, length_zero_iff_nil in Hz. by subst l. }
  apply orb_false_iff in Ee as [Hne Hall]. apply bool_decide_eq_false in Hne.
  set (events := cover_events lists). set (n := length lists).
  assert (Hn : (0 < n)%nat) by (unfold n; destruct lists; [done|cbn; lia]).
  destruct (slide_all n events Hn (cover_events_sorted lists) (cover_events_words lists Hin)
    ltac:(unfold events; by rewrite length_cover_events) (length events) ltac:(lia)) as [Hinv Hopt].
  set (w := fold_left _ _ _) in *.
  assert (Hlow : forall c m, is_choice lists c -> spans c m -> exists b, best w = Some b /\ b <= m).
  { intros c m Hc Hm. destruct (choice_window lists c m Hne Hc Hm) as (i & j & ei & ej & Hj & Hei & Hej & Hf & Hle).
    destruct (Hopt i j ei ej Hj Hei Hej Hf) as (b & Hb & Hbl). exists b. split; [done|lia]. }
  assert (Hcn : forall c, is_choice lists c -> c <> []).
  { intros c Hc ->. apply Forall2_nil_inv_l in Hc. done. }
  destruct (best w) as [b|] eqn:Eb.
  - destruct (wi_attained _ _ _ _ Hinv b Eb) as (i & j & ei & ej & Hij & Hei & Hej & Hf & ->).
    destruct (window_choice lists i j ei ej Hei Hej Hf) as (c & Hc & Hb).
    destruct (spans_exists c (Hcn c Hc)) as [m Hm]. destruct (Hlow c m Hc Hm) as (b & [= <-] & Hle).
    split; [|intros c' m' Hc' Hm'; by destruct (Hlow c' m' Hc' Hm') as (b & [= <-] & Hle')].
    exists c. split; [done|]. destruct Hm as (a & b & Ha & Hb' & Hall' & ->). exists a, b. split; [done|]. split; [done|]. split; [done|].
    pose proof (proj1 (Forall_forall _ _) Hb a Ha). pose proof (proj1 (Forall_forall _ _) Hb b Hb'). cbn in *. lia.
  - exfalso. destruct (choose_all (fun x l => exists p, p ∈ l /\ x = position_start p) lists) as [c Hc].
    + apply Forall_forall. intros l Hl. destruct l as [|p l].
      * exfalso. apply not_true_iff_false in Hall. apply Hall. apply existsb_exists. exists []. split; [by apply list_elem_of_In|done].
      * exists (position_start p), p. split; [left|done].
    + destruct (spans_exists c (Hcn c Hc)) as [m Hm]. by destruct (Hlow c m Hc Hm) as (b & ? & _).
Qed.

Lemma min_cover_span_correct_witness :
  match min_cover_span [[encode_position 1 1; encode_position 9 1]; [encode_position 4 1; encode_position 11 1]] with
  | Some b => b = 3
  | None => False
  end.
Proof.
  pose proof (min_cover_span_correct [[encode_position 1 1; encode_position 9 1]; [encode_position 4 1; encode_position 11 1]]) as H.
  assert (E : min_cover_span [[encode_position 1 1; encode_position 9 1]; [encode_position 4 1; encode_position 11 1]] = Some 3)
    by (by vm_compute).
  rewrite E in H |- *. destruct H as [_ Hmin].
  - repeat constructor; vm_compute; congruence.
  - vm_compute. congruence.
  - assert (3 <= 3); [|done]. apply (Hmin [9; 11]).
    + repeat constructor; [exists (encode_position 9 1)|exists (encode_position 11 1)]; (split; [|reflexivity]);
        apply list_elem_of_lookup_2 with 1%nat; reflexivity.
    + exists 9, 11. split; [left|]. split; [right; left|]. split; [|done]. repeat constructor; lia.
Defined.
