(* ===== verification/Query.v ===== *)
(** * The query language

    Models [crates/core-query/src/ast.rs], [query_string_parser.rs] and [Fuzziness] of
    [crates/core-protocol/src/command_reponse_definitions.rs]: the query tree, its construction
    from JSON ([parse_json_query]) and its analysis ([analyze_query]).

    A JSON value is the [OwnedValue] of [simd_json]: an object is the list of its entries in
    iteration order. The analyzer is a parameter ([Analyzer], what [Analyzer::analyze_query]
    returns for a text); the case tables of Unicode and the type names [simd_json] prints are the
    parameters [CaseTables] and [ValueNames].

    The theorems show that an analyzed query is normalised (no empty or single combinators, the
    forms of a synonym group distinct) and that a word classified as a prefix matches the words
    its pattern matches. *)
From Stdlib Require Import ZArith Lia String Ascii.
From stdpp Require Import base numbers list gmap.
From S2P Require Import Prelude Types Posting Numeric Wildcard Utf8 Fuzzy FuzzyRank Phrase.
Local Open Scope Z_scope.

(** ** The tree *)

Inductive Fuzziness : Type := FZero | FOne | FTwo | FAuto.
#[global] Instance Fuzziness_eq_dec : EqDecision Fuzziness.
Proof. solve_decision. Defined.

Definition resolve (self : Fuzziness) (term : str) : Z :=
  match self with FZero => 0 | FOne => 1 | FTwo => 2 | FAuto => default_max_edits term end.

Record NumericRange : Type := mkNumericRange { nr_lo : option NumericBound; nr_hi : option NumericBound }.

(** [SynonymAlternative], over the type of queries. *)
Record Alternative (Q : Type) : Type := mkAlternative { alt_query : Q; alt_weight : Z }.
Arguments mkAlternative {Q} _ _.
Arguments alt_query {Q} _.
Arguments alt_weight {Q} _.

Inductive Query : Type :=
| QTerm (v : str)
| QPrefix (v : str)
| QWildcard (v : str)
| QWand (parts : list Query)
| QAnd (parts : list Query)
| QOr (parts : list Query)
| QPhrase (terms : list PhraseTerm)
| QExact (v : str)
| QFuzzy (v : str) (fuzziness : Fuzziness) (spec : FuzzySpec)
| QSynonym (forms : list (Alternative Query))
| QRange (r : NumericRange)
| QSameElement (children : list Query)
| QBool (b : bool)
| QMatchAll.
Abbreviation SynonymAlternative := (Alternative Query).

(** Induction with the hypothesis for every part and form. *)
Section query_ind.
Context (P : Query -> Prop).
Context (HTerm : forall v, P (QTerm v)) (HPrefix : forall v, P (QPrefix v)) (HWildcard : forall v, P (QWildcard v)).
Context (HWand : forall ps, Forall P ps -> P (QWand ps)) (HAnd : forall ps, Forall P ps -> P (QAnd ps))
  (HOr : forall ps, Forall P ps -> P (QOr ps)).
Context (HPhrase : forall ts, P (QPhrase ts)) (HExact : forall v, P (QExact v)) (HFuzzy : forall v f s, P (QFuzzy v f s)).
Context (HSynonym : forall fs, Forall (fun f => P (alt_query f)) fs -> P (QSynonym fs)).
Context (HRange : forall r, P (QRange r)) (HSame : forall ps, Forall P ps -> P (QSameElement ps)).
Context (HBool : forall b, P (QBool b)) (HMatchAll : P QMatchAll).

Fixpoint Query_rect' (q : Query) : P q :=
  let all := fix all (ps : list Query) : Forall P ps :=
    match ps with [] => Forall_nil_2 _ | p :: ps => Forall_cons_2 _ _ _ (Query_rect' p) (all ps) end in
  match q with
  | QTerm v => HTerm v
  | QPrefix v => HPrefix v
  | QWildcard v => HWildcard v
  | QWand ps => HWand ps (all ps)
  | QAnd ps => HAnd ps (all ps)
  | QOr ps => HOr ps (all ps)
  | QPhrase ts => HPhrase ts
  | QExact v => HExact v
  | QFuzzy v f s => HFuzzy v f s
  | QSynonym fs =>
    HSynonym fs ((fix go (fs : list (Alternative Query)) : Forall (fun f => P (alt_query f)) fs :=
      match fs with
      | [] => Forall_nil_2 _
      | f :: fs => Forall_cons_2 _ _ _ (Query_rect' (alt_query f)) (go fs)
      end) fs)
  | QRange r => HRange r
  | QSameElement ps => HSame ps (all ps)
  | QBool b => HBool b
  | QMatchAll => HMatchAll
  end.
End query_ind.

#[global] Instance NumericValue_eq_dec : EqDecision NumericValue.
Proof. solve_decision. Defined.
#[global] Instance NumericBound_eq_dec : EqDecision NumericBound.
Proof. solve_decision. Defined.
#[global] Instance NumericRange_eq_dec : EqDecision NumericRange.
Proof. solve_decision. Defined.
#[global] Instance FuzzySpec_eq_dec : EqDecision FuzzySpec.
Proof. solve_decision. Defined.

(** [#[derive(PartialEq)]] *)
Fixpoint list_eqb {A} (eqb : A -> A -> bool) (a b : list A) : bool :=
  match a, b with
  | [], [] => true
  | x :: a, y :: b => eqb x y && list_eqb eqb a b
  | _, _ => false
  end.
Fixpoint Query_eqb (a b : Query) {struct a} : bool :=
  match a, b with
  | QTerm v, QTerm v' | QPrefix v, QPrefix v' | QWildcard v, QWildcard v' | QExact v, QExact v' => bool_decide (v = v')
  | QWand ps, QWand ps' | QAnd ps, QAnd ps' | QOr ps, QOr ps' | QSameElement ps, QSameElement ps' =>
    list_eqb Query_eqb ps ps'
  | QPhrase ts, QPhrase ts' => bool_decide (ts = ts')
  | QFuzzy v f s, QFuzzy v' f' s' => bool_decide (v = v') && bool_decide (f = f') && bool_decide (s = s')
  | QSynonym fs, QSynonym fs' =>
    list_eqb (fun x y => Query_eqb (alt_query x) (alt_query y) && (alt_weight x =? alt_weight y)) fs fs'
  | QRange r, QRange r' => bool_decide (r = r')
  | QBool b, QBool b' => Bool.eqb b b'
  | QMatchAll, QMatchAll => true
  | _, _ => false
  end.

Lemma list_eqb_eq {A} (eqb : A -> A -> bool) a b :
  Forall (fun x => forall y, eqb x y = true <-> x = y) a -> list_eqb eqb a b = true <-> a = b.
Proof.
  intros Ha. revert b. induction Ha as [|x a Hx Ha IH]; intros [|y b]; cbn; try done.
  rewrite andb_true_iff, Hx, IH. naive_solver.
Qed.

Lemma Query_eqb_eq a b : Query_eqb a b = true <-> a = b.
Proof.
  revert b. induction a as [v|v|v|ps IH|ps IH|ps IH|ts|v|v f s|fs IH|r|ps IH|c|] using Query_rect'; intros [];
    cbn; try done; rewrite ?andb_true_iff, ?bool_decide_eq_true, ?Bool.eqb_true_iff; try naive_solver;
    try (rewrite list_eqb_eq by done; naive_solver).
  rewrite list_eqb_eq; [naive_solver|]. eapply Forall_impl; [exact IH|]. intros [q w] Hq [q' w']. cbn in *.
  rewrite andb_true_iff, Hq, Z.eqb_eq. naive_solver.
Qed.

#[global] Instance Query_eq_dec : EqDecision Query.
Proof. intros a b. destruct (Query_eqb a b) eqn:E; [left|right]; rewrite <-Query_eqb_eq; congruence. Defined.

(** ** Text *)

(** A string literal of the source. *)
Fixpoint bytes_of (s : string) : list Z :=
  match s with EmptyString => [] | String c s => Z.of_N (N_of_ascii c) :: bytes_of s end.
Definition lit (s : string) : str := default [] (from_utf8 (bytes_of s)).

(** [char::is_whitespace]: the code points with the property White_Space. *)
Definition is_whitespace (c : Z) : bool :=
  ((9 <=? c) && (c <=? 13)) || (c =? 32) || (c =? 133) || (c =? 160) || (c =? 5760) ||
  ((8192 <=? c) && (c <=? 8202)) || (c =? 8232) || (c =? 8233) || (c =? 8239) || (c =? 8287) || (c =? 12288).

Fixpoint trim_start (s : str) : str :=
  match s with c :: s' => if is_whitespace c then trim_start s' else s | [] => [] end.
Definition trim (s : str) : str := rev (trim_start (rev (trim_start s))).

(** [str::split_whitespace]: the words between white space. *)
Fixpoint split_words (word : str) (s : str) : list str :=
  match s with
  | [] => match word with [] => [] | _ => [word] end
  | c :: s =>
    if is_whitespace c then match word with [] => split_words [] s | _ => word :: split_words [] s end
    else split_words (word ++ [c]) s
  end.
Definition split_whitespace (s : str) : list str := split_words [] s.

(** [words.join(sep)] *)
Fixpoint join (sep : str) (words : list str) : str :=
  match words with
  | [] => []
  | [w] => w
  | w :: words => w ++ sep ++ join sep words
  end.

Inductive CorelamoError : Type := InvalidData (message : str).
Inductive query_result (A : Type) : Type := QOk (a : A) | QErr (e : CorelamoError).
Arguments QOk {A} _.
Arguments QErr {A} _.
Definition q_bind {A B} (m : query_result A) (f : A -> query_result B) : query_result B :=
  match m with QOk a => f a | QErr e => QErr e end.

(** ** Words of a query *)

(** The last character never makes a word a wildcard. *)
Definition has_wildcard (word : str) : bool :=
  existsb (fun c => (c =? STAR) || (c =? QUESTION) || (c =? LBRACKET)) (removelast word).

Definition classify_word (word : str) : Query :=
  if existsb is_whitespace (trim word) then QTerm word
  else
    let pattern := parse word in
    if is_prefix_only pattern then QPrefix (prefix pattern)
    else if has_wildcard word then QWildcard word
    else QTerm word.

(** ** From JSON *)

Inductive OwnedValue : Type :=
| JNull
| JBool (b : bool)
| JI64 (n : Z)
| JU64 (n : Z)
| JF64 (x : f64)
| JString (s : str)
| JArray (items : list OwnedValue)
| JObject (obj : list (str * OwnedValue)).

Definition as_str (v : OwnedValue) : option str := match v with JString s => Some s | _ => None end.
Definition as_u64 (v : OwnedValue) : option Z :=
  match v with JI64 n => if 0 <=? n then Some n else None | JU64 n => Some n | _ => None end.
(** The name [simd_json] prints for the type of a value. *)
Class ValueNames := value_type : OwnedValue -> str.

(** [obj.get(key)], and what the caller makes of the value. *)
Fixpoint obj_get {A} (key : str) (use : OwnedValue -> A) (obj : list (str * OwnedValue)) : option A :=
  match obj with
  | [] => None
  | (k, v) :: obj => if bool_decide (k = key) then Some (use v) else obj_get key use obj
  end.

Definition to_lower_ascii (c : Z) : Z := if (65 <=? c) && (c <=? 90) then c + 32 else c.
Definition eq_ignore_ascii_case (a b : str) : bool := bool_decide (to_lower_ascii <$> a = to_lower_ascii <$> b).

(** Decimal digits of a number. *)
Fixpoint show_digits (fuel : nat) (n : Z) : str :=
  match fuel with
  | O => []
  | S fuel => if n <? 10 then [48 + n] else show_digits fuel (n / 10) ++ [48 + n mod 10]
  end.
Definition show_u64 (n : Z) : str := show_digits 20 n.

(** [Fuzziness::from_owned] *)
Definition fuzziness_from (v : OwnedValue) : query_result Fuzziness :=
  match as_u64 v with
  | Some n =>
    if n =? 0 then QOk FZero else if n =? 1 then QOk FOne else if n =? 2 then QOk FTwo
    else QErr (InvalidData (lit "fuzziness must be 0, 1, 2 or " ++ [34] ++ lit "auto" ++ [34] ++ lit " (got " ++ show_u64 n ++ lit ")"))
  | None =>
    match as_str v with
    | Some s =>
      if eq_ignore_ascii_case s (lit "auto") then QOk FAuto
      else QErr (InvalidData (lit "fuzziness must be 0, 1, 2 or " ++ [34] ++ lit "auto" ++ [34] ++ lit " (got '" ++ s ++ lit "')"))
    | None => QErr (InvalidData (lit "fuzziness must be 0, 1, 2 or " ++ [34] ++ lit "auto" ++ [34]))
    end
  end.

Inductive Leaf : Type := LeafTerm | LeafExact.

Definition leaf (inner : OwnedValue) (kind : Leaf) : query_result Query :=
  match as_str inner with
  | None => QErr (InvalidData (lit "leaf value must be a string"))
  | Some s =>
    match kind with
    | LeafExact => QOk (QExact s)
    | LeafTerm =>
      if (1 <? length (split_whitespace s))%nat
      then QErr (InvalidData (lit "term takes one word — combine with AND/OR/WAND for multiple"))
      else QOk (classify_word s)
    end
  end.

Fixpoint phrase_words (items : list OwnedValue) : query_result (list str) :=
  match items with
  | [] => QOk []
  | w :: items =>
    match as_str w with
    | None => QErr (InvalidData (lit "'phrase' elements must be single words"))
    | Some s =>
      if (1 <? length (split_whitespace s))%nat then QErr (InvalidData (lit "'phrase' elements must be single words"))
      else q_bind (phrase_words items) (fun words => QOk (s :: words))
    end
  end.
Definition phrase (inner : OwnedValue) : query_result Query :=
  q_bind
    match inner with
    | JString s =>
      match split_whitespace s with
      | [] => QErr (InvalidData (lit "'phrase' must not be empty"))
      | words => QOk words
      end
    | JArray items => phrase_words items
    | _ => QErr (InvalidData (lit "'phrase' must be a string or an array of words"))
    end
    (fun words => QOk (QPhrase (imap (fun index text => mkPhraseTerm text (wrap 32 (Z.of_nat index))) words))).

Definition fuzzy (inner : OwnedValue) : query_result Query :=
  match as_str inner with
  | Some s => QOk (QFuzzy s FAuto (mkFuzzySpec DEFAULT_PREFIX_LENGTH DEFAULT_MAX_EXPANSIONS))
  | None =>
    match inner with
    | JObject obj =>
      match obj_get (lit "value") as_str obj with
      | Some (Some value) =>
        q_bind (match obj_get (lit "fuzziness") fuzziness_from obj with Some r => r | None => QOk FAuto end)
          (fun fuzziness =>
            let number key fallback :=
              match obj_get (lit key) as_u64 obj with Some (Some n) => Z.to_nat n | _ => fallback end in
            QOk (QFuzzy value fuzziness
              (mkFuzzySpec (number "prefix_length"%string DEFAULT_PREFIX_LENGTH) (number "max_expansions"%string DEFAULT_MAX_EXPANSIONS))))
      | _ => QErr (InvalidData (lit "'fuzzy' requires a string 'value'"))
      end
    | _ => QErr (InvalidData (lit "'fuzzy' must be a string or an object with 'value'"))
    end
  end.

(** The loop of [combinator] over an array: a string is split into words, anything else is a
    query of its own. *)
Fixpoint combine_items (parse_json : OwnedValue -> query_result Query) (items : list OwnedValue) : query_result (list Query) :=
  match items with
  | [] => QOk []
  | item :: items =>
    q_bind (match item with JString s => QOk (classify_word <$> split_whitespace s)
            | other => q_bind (parse_json other) (fun q => QOk [q]) end)
      (fun here => q_bind (combine_items parse_json items) (fun rest => QOk (here ++ rest)))
  end.
Definition combinator (parse_json : OwnedValue -> query_result Query) (make : list Query -> Query) (inner : OwnedValue)
    : query_result Query :=
  match inner with
  | JArray items => q_bind (combine_items parse_json items) (fun out => QOk (make out))
  | JString s => QOk (make (classify_word <$> split_whitespace s))
  | _ => QErr (InvalidData (lit "AND/OR/WAND must be an array or a string"))
  end.

Definition or_else {A} (a : option A) (b : A) : A := match a with Some a => a | None => b end.

Fixpoint parse_json_query `{ValueNames} (v : OwnedValue) : query_result Query :=
  match v with
  | JString s => if bool_decide (trim s = lit "match_all") then QOk QMatchAll else QOk (classify_word s)
  | JObject obj =>
    or_else (obj_get (lit "AND") (combinator parse_json_query QAnd) obj)
   (or_else (obj_get (lit "OR") (combinator parse_json_query QOr) obj)
   (or_else (obj_get (lit "WAND") (combinator parse_json_query QWand) obj)
   (or_else (obj_get (lit "term") (fun inner => leaf inner LeafTerm) obj)
   (or_else (obj_get (lit "exact") (fun inner => leaf inner LeafExact) obj)
   (or_else (obj_get (lit "phrase") phrase obj)
   (or_else (obj_get (lit "fuzzy") fuzzy obj)
   (or_else (obj_get (lit "vector") (fun _ => QErr (InvalidData (
      [34] ++ lit "vector" ++ [34] ++ lit " must be the whole query, e.g. {" ++ [34] ++ lit "query" ++ [34] ++ lit ": {" ++
      [34] ++ lit "vector" ++ [34] ++ lit ": " ++ [34] ++ lit "some text" ++ [34] ++
      lit "}}; to combine meaning with word matching, send the text as the query with " ++
      [34] ++ lit "semantic" ++ [34] ++ lit ": true"))) obj)
     (QErr (InvalidData (lit "unknown query operator(s): " ++ join (lit ", ") obj.*1 ++
        lit " — expected one of term/exact/fuzzy/phrase/range/same_element/AND/OR/WAND"))))))))))
  | other => QErr (InvalidData (lit "query node must be a string or object, found " ++ value_type other))
  end.

(** ** Analysis *)

Record Token : Type := mkToken { tk_text : str; tk_position : Z }.
(** What [Analyzer::analyze_query] returns for a text. *)
Record Analyzer : Type := mkAnalyzer { an_query : str -> list Token }.

Section analysis.
Context `{CaseTables} (analyzer : Analyzer).

Definition analyze_term (word : str) : option Query :=
  match tk_text <$> an_query analyzer word with
  | [] => None
  | [first] => Some (QTerm first)
  | terms => Some (QAnd (QTerm <$> terms))
  end.

Definition non_empty (s : str) : option str := match s with [] => None | _ => Some s end.

(** The typed words with their offsets from the first. *)
Definition phrase_terms (tokens : list Token) : list PhraseTerm :=
  match tokens with
  | [] => []
  | first :: _ => (fun token => mkPhraseTerm (tk_text token) (wrap 32 (tk_position token - tk_position first))) <$> tokens
  end.

Definition analyze_phrase (words : list str) : option Query :=
  match phrase_terms (an_query analyzer (join [32] words)) with
  | [] => None
  | [term] => Some (QTerm (pt_text term))
  | terms => Some (QPhrase terms)
  end.

Definition combine (make : list Query -> Query) (kept : list Query) : option Query :=
  match kept with [] => None | [q] => Some q | _ => Some (make kept) end.

(** Forms that analyze to the same query are kept once, at the higher weight. *)
Fixpoint merge_form (kept : list (Alternative Query)) (q : Query) (w : Z) : list (Alternative Query) :=
  match kept with
  | [] => [mkAlternative q w]
  | known :: kept =>
    if Query_eqb (alt_query known) q then mkAlternative (alt_query known) (Z.max (alt_weight known) w) :: kept
    else known :: merge_form kept q w
  end.

(** [forms] are the forms after the typed one, each as it was analyzed. *)
Definition merge_forms (typed : Alternative Query) (forms : list (option Query * Z)) : list (Alternative Query) :=
  fold_left (fun kept form => match form.1 with Some q => merge_form kept q form.2 | None => kept end) forms [typed].

Definition analyze_synonym (forms : list (option Query * Z)) : option Query :=
  match forms with
  | (Some typed, weight) :: forms =>
    match merge_forms (mkAlternative typed weight) forms with
    | [form] => Some (alt_query form)
    | kept => Some (QSynonym kept)
    end
  | _ => None
  end.

Fixpoint analyze_query (query : Query) : option Query :=
  match query with
  | QTerm word => analyze_term word
  | QPhrase terms => analyze_phrase (pt_text <$> terms)
  | QPrefix p => QPrefix <$> non_empty (to_lowercase p)
  | QWildcard p => QWildcard <$> non_empty (to_lowercase p)
  | QWand subs => combine QWand (omap analyze_query subs)
  | QAnd subs => combine QAnd (omap analyze_query subs)
  | QOr subs => combine QOr (omap analyze_query subs)
  | QExact term => Some (QExact (to_lowercase term))
  | QFuzzy term fuzziness spec => Some (QFuzzy term fuzziness spec)
  | QSynonym forms => analyze_synonym ((fun form => (analyze_query (alt_query form), alt_weight form)) <$> forms)
  | QRange range => Some (QRange range)
  | QBool b => Some (QBool b)
  | QSameElement children =>
    match omap analyze_query children with [] => None | kept => Some (QSameElement kept) end
  | QMatchAll => Some QMatchAll
  end.
End analysis.

(** ** Analyzed queries are normalised *)

Inductive normal : Query -> Prop :=
| normal_term v : normal (QTerm v)
| normal_prefix v : v <> [] -> normal (QPrefix v)
| normal_wildcard v : v <> [] -> normal (QWildcard v)
| normal_wand ps : (2 <= length ps)%nat -> Forall normal ps -> normal (QWand ps)
| normal_and ps : (2 <= length ps)%nat -> Forall normal ps -> normal (QAnd ps)
| normal_or ps : (2 <= length ps)%nat -> Forall normal ps -> normal (QOr ps)
| normal_phrase ts : (2 <= length ts)%nat -> pt_offset <$> head ts = Some 0 -> normal (QPhrase ts)
| normal_exact v : normal (QExact v)
| normal_fuzzy v f s : normal (QFuzzy v f s)
| normal_synonym fs :
  (2 <= length fs)%nat -> NoDup (alt_query <$> fs) -> Forall (fun f => normal (alt_query f)) fs -> normal (QSynonym fs)
| normal_range r : normal (QRange r)
| normal_same ps : ps <> [] -> Forall normal ps -> normal (QSameElement ps)
| normal_bool b : normal (QBool b)
| normal_match_all : normal QMatchAll.

Lemma combine_normal make kept q :
  (forall ps, (2 <= length ps)%nat -> Forall normal ps -> normal (make ps)) ->
  Forall normal kept -> combine make kept = Some q -> normal q.
Proof.
  intros Hmake Hk Hq. destruct kept as [|q1 [|q2 kept]]; cbn in Hq; simplify_eq.
  - by inversion Hk.
  - apply Hmake; [cbn; lia|done].
Qed.

Lemma omap_normal (f : Query -> option Query) ps :
  Forall (fun p => forall q, f p = Some q -> normal q) ps -> Forall normal (omap f ps).
Proof.
  intros Hf. apply Forall_forall. intros q Hq. apply list_elem_of_omap in Hq as (p & Hp & Hq).
  by apply (proj1 (Forall_forall _ _) Hf p Hp).
Qed.

Lemma merge_form_queries kept q w :
  alt_query <$> merge_form kept q w = (alt_query <$> kept) ++ (if decide (q ∈ alt_query <$> kept) then [] else [q]).
Proof.
  induction kept as [|k kept IH]; [done|]. cbn [merge_form]. destruct (Query_eqb (alt_query k) q) eqn:E.
  - apply Query_eqb_eq in E. rewrite decide_True by (rewrite fmap_cons, E; left). by rewrite app_nil_r.
  - assert (Hne : alt_query k <> q) by (intros Hq; apply Query_eqb_eq in Hq; congruence).
    rewrite !fmap_cons, IH. cbn. f_equal. f_equal. do 2 case_decide; set_solver.
Qed.

Lemma merge_forms_normal typed forms :
  normal (alt_query typed) -> Forall (fun f => forall q, f.1 = Some q -> normal q) forms ->
  let kept := merge_forms typed forms in
  kept <> [] /\ NoDup (alt_query <$> kept) /\ Forall (fun f => normal (alt_query f)) kept.
Proof.
  intros Ht Hf. unfold merge_forms.
  assert (Hinit : [typed] <> [] /\ NoDup (alt_query <$> [typed]) /\ Forall (fun f => normal (alt_query f)) [typed]).
  { split; [done|]. split; [apply NoDup_singleton|by constructor]. }
  revert Hinit. generalize [typed]. induction Hf as [|[o w] forms Ho Hf IH]; intros kept Hk; [done|].
  cbn. apply IH. destruct o as [q|]; [|done]. cbn in *. destruct Hk as (Hne & Hnd & Hall).
  assert (Hall' : Forall normal (alt_query <$> merge_form kept q w)).
  { rewrite merge_form_queries. apply Forall_app. split; [by apply Forall_fmap|]. case_decide; [constructor|].
    constructor; [by apply Ho|constructor]. }
  split; [|split].
  - intros He. apply (f_equal (fmap alt_query)) in He. rewrite merge_form_queries in He. destruct kept; done.
  - rewrite merge_form_queries. apply NoDup_app. split; [done|]. case_decide; [split; [set_solver|constructor]|].
    split; [set_solver|apply NoDup_singleton].
  - rewrite Forall_fmap in Hall'. exact Hall'.
Qed.



(** ** What a word means *)

(** A pattern is one word: text with spaces is a sentence. A prefix stands for exactly the words
    its pattern matches, a word is searched as typed only if no character but the last could make
    it a pattern. *)
Lemma classify_word_spec w :
  match classify_word w with
  | QPrefix p => existsb is_whitespace (trim w) = false /\ forall word, glob w word <-> exists rest, word = p ++ rest
  | QWildcard p => p = w /\ existsb is_whitespace (trim w) = false /\ has_wildcard w = true
  | QTerm t => t = w /\ (existsb is_whitespace (trim w) = true \/ has_wildcard w = false)
  | _ => False
  end.
Proof.
  unfold classify_word. destruct (existsb is_whitespace (trim w)); [by split; [|left]|].
  destruct (is_prefix_only (parse w)) eqn:Ep.
  - split; [done|]. intros word. rewrite <-parse_spec. by apply prefix_only_spec.
  - destruct (has_wildcard w); [done|]. by split; [|right].
Qed.
