(* ===== verification/Tokenizers.v ===== *)
(** * Tokenizers

    Models the tokenizers and token filters of [crates/core-index/src/analyzer/]:
    [word_delimiter.rs], [url_tokenizer.rs], [filepath_tokenizer.rs], [tokenizer.rs],
    [stip_html.rs], [strip_markdown.rs], the length filter of [analyzer_config.rs] and
    [cached_stemmer.rs].

    A token stream is the list of its tokens. A text is the list of its characters, offsets are
    byte offsets of its UTF-8 form. The character classes of Unicode ([CharClasses]) and the
    stemmer are parameters. The theorems show what the tokens of a text are: the words between
    white space, each expanded to tokens that tile the positions, and that the stem cache does not
    show. *)
From Stdlib Require Import ZArith Lia.
From stdpp Require Import base numbers list sorting strings gmap.
From S2P Require Import Prelude Types Utf8 FuzzyRank Query.
Local Open Scope Z_scope.

Class CharClasses := { is_alphanumeric : Z -> bool; is_alphabetic : Z -> bool; is_lowercase : Z -> bool }.

(** ** Text *)

Definition len_utf8 (c : Z) : Z := zlen (encode_utf8 c).
(** [str::len] *)
Definition str_len (s : str) : Z := foldr (fun c n => len_utf8 c + n) 0 s.
(** [str::char_indices], from a byte offset. *)
Fixpoint char_indices (at_ : Z) (s : str) : list (Z * Z) :=
  match s with [] => [] | c :: s => (at_, c) :: char_indices (at_ + len_utf8 c) s end.
(** [&s[from..to]], between characters. *)
Definition str_slice (s : str) (from to : Z) : str := (filter (fun e => from <= e.1 < to) (char_indices 0 s)).*2.

(** [str::split] by a predicate, empty pieces included. *)
Fixpoint split_on (p : Z -> bool) (s : str) : list str :=
  match s with
  | [] => [[]]
  | c :: s =>
    if p c then [] :: split_on p s
    else match split_on p s with w :: ws => (c :: w) :: ws | [] => [[c]] end
  end.
Fixpoint starts_with (pat s : str) : bool :=
  match pat, s with
  | [], _ => true
  | c :: pat, d :: s => (c =? d) && starts_with pat s
  | _, [] => false
  end.
(** [str::find] and [str::rfind], as numbers of characters. *)
Fixpoint find_sub (pat s : str) : option nat :=
  if starts_with pat s then Some 0%nat
  else match s with [] => None | _ :: s => S <$> find_sub pat s end.
Fixpoint rfind_sub (pat s : str) : option nat :=
  match s with
  | [] => if starts_with pat [] then Some 0%nat else None
  | _ :: s' =>
    match rfind_sub pat s' with
    | Some i => Some (S i)
    | None => if starts_with pat s then Some 0%nat else None
    end
  end.
Definition split_once (pat s : str) : option (str * str) :=
  i ← find_sub pat s; Some (take i s, drop (i + length pat) s).

(** ** The word delimiter *)

Record TokenT : Type := mkTokenT {
  tt_from : Z;
  tt_to : Z;
  tt_position : nat;
  tt_text : str;
  tt_length : nat
}.

(** The pieces of [l] that start at the bounds. *)
Fixpoint cut (l : str) (bounds : list nat) : list str :=
  match bounds with
  | [] => []
  | [a] => [drop a l]
  | a :: (b :: _) as rest => take (b - a) (drop a l) :: cut l rest
  end.
Definition split_where (segment : str) (boundary : Z -> Z -> option Z -> bool) : list str :=
  if (length segment <? 2)%nat then [segment]
  else
    let bounds := filter (fun i => boundary (segment !!! (i - 1)%nat) (segment !!! i) (segment !! S i) = true)
      (seq 1 (length segment - 1)) in
    cut segment (0%nat :: bounds).

Section tokenizers.
Context {CC : CharClasses} {CT : CaseTables}.

Definition case_boundary (prev curr : Z) (next : option Z) : bool :=
  (is_lowercase prev && is_uppercase curr) ||
  (is_uppercase prev && is_uppercase curr && match next with Some c => is_lowercase c | None => false end).
Definition split_on_case (segment : str) : list str := split_where segment case_boundary.
Definition numeric_boundary (prev curr : Z) (_ : option Z) : bool := negb (eqb (is_alphabetic prev) (is_alphabetic curr)).
Definition split_on_numerics (segment : str) : list str := split_where segment numeric_boundary.

Definition is_delim (literal_symbols : gset Z) (c : Z) : bool := negb (is_alphanumeric c) && negb (bool_decide (c ∈ literal_symbols)).
(** [chunk.split(is_delim).filter(|s| !s.is_empty())] *)
Definition chunk_segments (literal_symbols : gset Z) (chunk : str) : list str :=
  filter (fun s => s <> []) (split_on (is_delim literal_symbols) chunk).

Definition split_forms (chunk : str) (literal_symbols : gset Z) (split_case split_numerics : bool) : str * list str * str :=
  let parts := chunk_segments literal_symbols chunk ≫= fun segment =>
    let sub := if split_case then split_on_case segment else [segment] in
    if split_numerics then sub ≫= split_on_numerics else sub in
  (chunk, parts, concat parts).

Definition expand_word_delimiters (word : str) (literal_symbols : gset Z) (split_case split_numerics : bool) : list str :=
  let '(original, parts, joined) := split_forms word literal_symbols split_case split_numerics in
  if (length parts <=? 1)%nat then [original]
  else
    [original] ++ filter (fun p => (1 < length p)%nat) parts ++
    (if negb (bool_decide (joined = [])) && negb (bool_decide (joined = original)) then [joined] else []).

Record WordDelimiterTokenizer : Type := mkWordDelimiter {
  wd_literal_symbols : gset Z;
  wd_split_case : bool;
  wd_split_numerics : bool;
  wd_preserve_original : bool
}.
Definition WordDelimiterTokenizer_new (literal_symbols : gset Z) : WordDelimiterTokenizer :=
  mkWordDelimiter literal_symbols false false true.

(** The texts a chunk stands for as a whole, and its parts. *)
Definition push_forms (from to : Z) (start : nat) (whole : list str) (parts : list str) : list TokenT :=
  let span := Nat.max (length parts) 1 in
  ((fun text => mkTokenT from to start text span) <$> whole) ++
  imap (fun index part => mkTokenT from to (start + index) part 1) parts.

(** [emit]: the tokens of a chunk at a position, and the position after them. *)
Definition wd_emit (self : WordDelimiterTokenizer) (chunk : str) (from to : Z) (position : nat) : nat * list TokenT :=
  let '(original, parts, joined) := split_forms chunk (wd_literal_symbols self) (wd_split_case self) (wd_split_numerics self) in
  let parts_to_emit := if (1 <? length parts)%nat then filter (fun p => (1 < length p)%nat) parts else [] in
  ((position + Nat.max (length parts_to_emit) 1)%nat,
   push_forms from to position
     ((if wd_preserve_original self then [original] else []) ++
      (if negb (bool_decide (joined = [])) && negb (bool_decide (joined = original)) then [joined] else [])) parts_to_emit).

(** ** The loop over the chunks *)

Abbreviation emit_fn := (str -> Z -> Z -> nat -> nat * list TokenT)%type.
Record ChunkState : Type := mkChunkState { ks_position : nat; ks_start : option Z; ks_tokens : list TokenT }.
Definition emit_chunk (emit : emit_fn) (text : str) (s to : Z) (st : ChunkState) : ChunkState :=
  let '(position, tokens) := emit (str_slice text s to) s to (ks_position st) in
  mkChunkState position None (ks_tokens st ++ tokens).
Definition chunk_step (emit : emit_fn) (text : str) (st : ChunkState) (e : Z * Z) : ChunkState :=
  if is_whitespace e.2 then
    match ks_start st with Some s => emit_chunk emit text s e.1 st | None => st end
  else match ks_start st with None => mkChunkState (ks_position st) (Some e.1) (ks_tokens st) | Some _ => st end.
Definition chunk_stream (emit : emit_fn) (text : str) : list TokenT :=
  let st := fold_left (chunk_step emit text) (char_indices 0 text) (mkChunkState 0 None []) in
  ks_tokens match ks_start st with Some s => emit_chunk emit text s (str_len text) st | None => st end.

Definition wd_token_stream (self : WordDelimiterTokenizer) : str -> list TokenT := chunk_stream (wd_emit self).

(** ** Addresses and paths *)

Definition domain_of (url : str) : option str :=
  let after_scheme := match split_once (lit "://") url with Some (_, rest) => rest | None => url end in
  let host := default [] (head (split_on (fun c => (c =? 47) || (c =? 63) || (c =? 35)) after_scheme)) in
  let host := default host (last (split_on (fun c => c =? 64) host)) in
  match host with
  | [] => None
  | _ =>
    if (2 <=? length (filter (fun c : Z => c = 46%Z) host))%nat
    then Some match split_once [46] host with Some (_, domain) => domain | None => host end
    else Some host
  end.

Record UrlTokenizer : Type := mkUrlTokenizer { ut_literal_symbols : gset Z; ut_preserve_original : bool }.
Definition url_emit (self : UrlTokenizer) (chunk : str) (from to : Z) (position : nat) : nat * list TokenT :=
  let parts := chunk_segments (ut_literal_symbols self) chunk in
  ((position + Nat.max (length parts) 1)%nat,
   push_forms from to position
     ((if ut_preserve_original self then [chunk] else []) ++
      (match domain_of chunk with Some domain => if bool_decide (domain = chunk) then [] else [domain] | None => [] end)) parts).
Definition url_token_stream (self : UrlTokenizer) : str -> list TokenT := chunk_stream (url_emit self).

Record FilepathTokenizer : Type := mkFilepathTokenizer { pt_literal_symbols : gset Z; pt_preserve_original : bool }.
Definition path_emit (self : FilepathTokenizer) (chunk : str) (from to : Z) (position : nat) : nat * list TokenT :=
  let parts := chunk_segments (pt_literal_symbols self) chunk in
  ((position + Nat.max (length parts) 1)%nat,
   push_forms from to position (if pt_preserve_original self then [chunk] else []) parts).
Definition path_token_stream (self : FilepathTokenizer) : str -> list TokenT := chunk_stream (path_emit self).

(** ** The simple tokenizer *)

Record RawToken : Type := mkRawToken { rt_text : str; rt_position : Z; rt_start_byte : Z; rt_end_byte : Z }.
Record SimpleState : Type := mkSimple { si_start : option Z; si_position : Z; si_tokens : list RawToken }.
Definition simple_step (input : str) (st : SimpleState) (e : Z * Z) : SimpleState :=
  if is_alphanumeric e.2 then
    match si_start st with None => mkSimple (Some e.1) (si_position st) (si_tokens st) | Some _ => st end
  else
    match si_start st with
    | Some s =>
      mkSimple None (wrap 32 (si_position st + 1)) (si_tokens st ++ [mkRawToken (str_slice input s e.1) (si_position st) s e.1])
    | None => st
    end.
Definition simple_tokenize (input : str) : list RawToken :=
  let st := fold_left (simple_step input) (char_indices 0 input) (mkSimple None 0 []) in
  match si_start st with
  | Some s => si_tokens st ++ [mkRawToken (str_slice input s (str_len input)) (si_position st) s (str_len input)]
  | None => si_tokens st
  end.
End tokenizers.

(** ** Filters on the text *)

Fixpoint strip_html_loop (in_tag : bool) (input : str) : str :=
  match input with
  | [] => []
  | c :: input =>
    if c =? 60 then 32 :: strip_html_loop true input
    else if c =? 62 then 32 :: strip_html_loop false input
    else if in_tag then strip_html_loop in_tag input
    else c :: strip_html_loop in_tag input
  end.
Definition strip_html (input : str) : str := strip_html_loop false input.

(** Every round takes the text past a bracket, so its length is enough fuel
    ([strip_links_fuel]). *)
Fixpoint strip_links_loop (fuel : nat) (rest : str) : str :=
  match fuel with
  | O => rest
  | S fuel =>
    match find_sub [91] rest with
    | None => rest
    | Some start =>
      let after := drop (start + 1) rest in
      let linked :=
        close ← find_sub (lit "](") after;
        let after_paren := drop (close + 2) after in
        end_ ← find_sub [41] after_paren;
        Some (take close after, drop (end_ + 1) after_paren) in
      match linked with
      | Some (text, rest') => take start rest ++ text ++ strip_links_loop fuel rest'
      | None => take start rest ++ [91] ++ strip_links_loop fuel after
      end
    end
  end.
Definition strip_links (input : str) : str := strip_links_loop (S (length input)) input.
Definition strip_markdown (input : str) : str :=
  trim (filter (fun c => ~ (c = 35 \/ c = 42 \/ c = 95 \/ c = 96 \/ c = 126 \/ c = 62)) (strip_links input)).

(** ** Filters on the tokens *)

Record LengthFilter : Type := mkLengthFilter { lf_min : option nat; lf_max : option nat }.
Definition length_keeps (self : LengthFilter) (token : TokenT) : bool :=
  let text := tt_text token in
  let keeps_meaning := forallb (fun c => (48 <=? c) && (c <=? 57)) text in
  let too_short := negb keeps_meaning && match lf_min self with Some m => (length text <? m)%nat | None => false end in
  let too_long := match lf_max self with Some m => (m <? length text)%nat | None => false end in
  negb too_short && negb too_long.
Definition length_filter (self : LengthFilter) (tokens : list TokenT) : list TokenT :=
  filter (fun token => length_keeps self token = true) tokens.

Definition with_text (token : TokenT) (text : str) : TokenT :=
  mkTokenT (tt_from token) (tt_to token) (tt_position token) text (tt_length token).

(** The cache of a stemmer: word to stem. *)
Record StemCache : Type := mkStemCache { sc_capacity : nat; sc_stems : gmap str str }.
Definition StemCache_new (capacity : nat) : StemCache := mkStemCache capacity ∅.
Definition CachedStemmer_new (capacity : nat) : nat := Nat.max capacity 1.

Section stemmer.
Context (stem : str -> str).

(** [advance] of [CachedStemmerTokenStream], on the tail's token. *)
Definition stem_advance (cache : StemCache) (token : TokenT) : StemCache * TokenT :=
  match sc_stems cache !! tt_text token with
  | Some stemmed => (cache, if bool_decide (stemmed = tt_text token) then token else with_text token stemmed)
  | None =>
    let stemmed := stem (tt_text token) in
    let stems := if (sc_capacity cache <=? size (sc_stems cache))%nat then ∅ else sc_stems cache in
    (mkStemCache (sc_capacity cache) (<[tt_text token := stemmed]> stems), with_text token stemmed)
  end.
Fixpoint stem_stream (cache : StemCache) (tokens : list TokenT) : StemCache * list TokenT :=
  match tokens with
  | [] => (cache, [])
  | token :: tokens =>
    let '(cache, token) := stem_advance cache token in
    let '(cache, tokens) := stem_stream cache tokens in
    (cache, token :: tokens)
  end.
End stemmer.

(** ** Offsets *)

Lemma len_utf8_pos c : 0 < len_utf8 c.
Proof. unfold len_utf8, encode_utf8. repeat case_match; cbn; lia. Qed.
Lemma str_len_app a b : str_len (a ++ b) = str_len a + str_len b.
Proof. unfold str_len. induction a as [|c a IH]; cbn [foldr app]; lia. Qed.
Lemma str_len_cons c s : str_len (c :: s) = len_utf8 c + str_len s.
Proof. done. Qed.
Lemma str_len_nonneg s : 0 <= str_len s.
Proof. induction s as [|c s IH]; [done|]. rewrite str_len_cons. pose proof (len_utf8_pos c). lia. Qed.
Lemma char_indices_app i a b : char_indices i (a ++ b) = char_indices i a ++ char_indices (i + str_len a) b.
Proof.
  revert i. induction a as [|c a IH]; intros i; cbn [char_indices app]; [by rewrite Z.add_0_r|]. rewrite IH, str_len_cons. f_equal. f_equal. f_equal. lia.
Qed.
Lemma char_indices_range i s e : e ∈ char_indices i s -> i <= e.1 < i + str_len s.
Proof.
  revert i. induction s as [|c s IH]; intros i; [by intros ?%elem_of_nil|]. cbn [char_indices]. rewrite str_len_cons.
  pose proof (len_utf8_pos c). pose proof (str_len_nonneg s). intros [->|He]%elem_of_cons; cbn; [lia|]. specialize (IH _ He). lia.
Qed.
Lemma char_indices_chars i s : (char_indices i s).*2 = s.
Proof. revert i. induction s as [|c s IH]; intros i; [done|]. cbn. by rewrite IH. Qed.

Lemma filter_all_of {A} (P : A -> Prop) `{forall x, Decision (P x)} (l : list A) : (forall x, x ∈ l -> P x) -> filter P l = l.
Proof.
  induction l as [|x l IH]; intros HP; [done|]. rewrite filter_cons, decide_True by (apply HP; left). f_equal. apply IH. intros y Hy. apply HP. by right.
Qed.
Lemma filter_none_of {A} (P : A -> Prop) `{forall x, Decision (P x)} (l : list A) : (forall x, x ∈ l -> ~ P x) -> filter P l = [].
Proof.
  induction l as [|x l IH]; intros HP; [done|]. rewrite filter_cons, decide_False by (apply HP; left). apply IH. intros y Hy. apply HP. by right.
Qed.
Lemma str_slice_mid pre mid post : str_slice (pre ++ mid ++ post) (str_len pre) (str_len pre + str_len mid) = mid.
Proof.
  unfold str_slice. rewrite !char_indices_app, !filter_app, !Z.add_0_l.
  rewrite (filter_none_of _ (char_indices 0 pre)) by (intros e He%char_indices_range; lia).
  rewrite (filter_all_of _ (char_indices (str_len pre) mid)) by (intros e He%char_indices_range; lia).
  rewrite (filter_none_of _ (char_indices _ post)) by (intros e He%char_indices_range; lia).
  by rewrite app_nil_l, app_nil_r, char_indices_chars.
Qed.

(** ** The words of a text *)

(** The words between white space with their byte offsets; [word] is the word being read, which
    starts at [start]. *)
Fixpoint words_from (start : Z) (word s : str) : list (str * Z * Z) :=
  let done := match word with [] => [] | _ => [(word, start, start + str_len word)] end in
  match s with
  | [] => done
  | c :: s =>
    if is_whitespace c then done ++ words_from (start + str_len word + len_utf8 c) [] s
    else words_from start (word ++ [c]) s
  end.
Definition text_words (text : str) : list (str * Z * Z) := words_from 0 [] text.

Lemma words_from_split start word s : (words_from start word s).*1.*1 = split_words word s.
Proof.
  revert start word. induction s as [|c s IH]; intros start word; cbn [words_from split_words]; [by destruct word|].
  destruct (is_whitespace c); [|apply IH]. destruct word; cbn; by rewrite IH.
Qed.

Lemma words_from_slices pre word s w from to :
  (w, from, to) ∈ words_from (str_len pre) word s -> str_slice (pre ++ word ++ s) from to = w /\ to = from + str_len w.
Proof.
  revert pre word. induction s as [|c s IH]; intros pre word; cbn [words_from].
  - destruct word as [|d word]; [by intros ?%elem_of_nil|]. intros [= -> -> ->]%list_elem_of_singleton.
    split; [|done]. apply (str_slice_mid pre (d :: word) []).
  - destruct (is_whitespace c).
    + intros [Hd|Hin]%elem_of_app.
      * destruct word as [|d word]; [by apply elem_of_nil in Hd|]. apply list_elem_of_singleton in Hd as [= -> -> ->].
        split; [|done]. apply (str_slice_mid pre (d :: word) (c :: s)).
      * specialize (IH (pre ++ word ++ [c]) []). rewrite !str_len_app in IH. cbn [str_len foldr] in IH. rewrite Z.add_0_r, Z.add_assoc in IH.
        specialize (IH Hin). by rewrite <-!app_assoc in IH.
    + intros Hin. specialize (IH pre (word ++ [c]) Hin). by rewrite <-!app_assoc in IH.
Qed.

(** The tokens of words, each placed after the one before. *)
Fixpoint emit_all (emit : str -> Z -> Z -> nat -> nat * list TokenT) (position : nat) (words : list (str * Z * Z)) : list TokenT :=
  match words with
  | [] => []
  | (w, from, to) :: words => let r := emit w from to position in r.2 ++ emit_all emit r.1 words
  end.

Lemma emit_chunk_eq emit text w from to st :
  str_slice text from to = w ->
  emit_chunk emit text from to st =
  mkChunkState (emit w from to (ks_position st)).1 None (ks_tokens st ++ (emit w from to (ks_position st)).2).
Proof. intros <-. unfold emit_chunk. by destruct (emit _ _ _ _). Qed.

Definition started (start : Z) (word : str) : option Z := match word with [] => None | _ => Some start end.
Lemma chunk_fold emit text pre word s position tokens :
  text = pre ++ word ++ s ->
  let st := fold_left (chunk_step emit text) (char_indices (str_len pre + str_len word) s)
    (mkChunkState position (started (str_len pre) word) tokens) in
  ks_tokens match ks_start st with Some s => emit_chunk emit text s (str_len text) st | None => st end =
  tokens ++ emit_all emit position (words_from (str_len pre) word s).
Proof.
  cbv zeta. revert pre word position tokens. induction s as [|c s IH]; intros pre word position tokens Ht; cbn [char_indices fold_left words_from].
  - destruct word as [|d word]; cbn [started ks_start]; [cbn; by rewrite app_nil_r|].
    assert (Hl : str_len text = str_len pre + str_len (d :: word)) by (rewrite Ht, !str_len_app; cbn; lia).
    rewrite Hl, (emit_chunk_eq _ _ (d :: word)) by (rewrite Ht; apply (str_slice_mid pre (d :: word) [])).
    cbn [ks_tokens ks_position emit_all]. by rewrite app_nil_r.
  - unfold chunk_step at 2 4 6. cbn [fst snd ks_start ks_position ks_tokens]. destruct (is_whitespace c).
    + assert (Htext : text = (pre ++ word ++ [c]) ++ [] ++ s) by (by rewrite Ht, <-!app_assoc).
      specialize (IH (pre ++ word ++ [c]) []). rewrite !str_len_app in IH. cbn [str_len foldr started] in IH.
      rewrite !Z.add_0_r, !Z.add_assoc in IH.
      destruct word as [|d word]; cbn [started ks_start].
      * rewrite IH by done. done.
      * rewrite (emit_chunk_eq _ _ (d :: word)) by (rewrite Ht; apply (str_slice_mid pre (d :: word) (c :: s))). cbn [ks_position ks_tokens].
        rewrite IH by done. cbn [app emit_all]. by rewrite <-app_assoc.
    + assert (Hat : str_len pre + str_len word + len_utf8 c = str_len pre + str_len (word ++ [c])).
      { rewrite !str_len_app. cbn. lia. }
      specialize (IH pre (word ++ [c]) position tokens). rewrite <-app_assoc in IH. specialize (IH Ht). rewrite <-Hat in IH.
      assert (Hst : started (str_len pre) (word ++ [c]) = Some (str_len pre)) by (by destruct word). rewrite Hst in IH.
      destruct word as [|d word]; cbn [started] in *.
      * cbn [str_len foldr] in *. rewrite Z.add_0_r in *. exact IH.
      * exact IH.
Qed.
Lemma chunk_stream_words emit text : chunk_stream emit text = emit_all emit 0 (text_words text).
Proof. exact (chunk_fold emit text [] [] text 0 [] eq_refl). Qed.

(** ** The parts of a word *)

Lemma cut_concat l a bounds : StronglySorted lt (a :: bounds) -> concat (cut l (a :: bounds)) = drop a l.
Proof.
  revert a. induction bounds as [|b bounds IH]; intros a Hs; [cbn; by rewrite app_nil_r|].
  inversion Hs as [|? ? Hs' Hlt]; subst. apply Forall_cons in Hlt as [Hlt _]. cbn [cut concat]. cbn [cut] in IH. rewrite (IH b Hs').
  replace (drop b l) with (drop (b - a) (drop a l)) by (rewrite drop_drop; f_equal; lia). apply take_drop.
Qed.
Lemma cut_nonempty l a bounds w :
  StronglySorted lt (a :: bounds) -> Forall (fun b => b < length l)%nat (a :: bounds) -> w ∈ cut l (a :: bounds) -> w <> [].
Proof.
  revert a. induction bounds as [|b bounds IH]; intros a Hs Hl Hw; apply Forall_cons in Hl as [Ha Hl]; cbn [cut] in Hw.
  - apply list_elem_of_singleton in Hw as ->. intros E%(f_equal length). rewrite length_drop in E. cbn in E. lia.
  - inversion Hs as [|? ? Hs' Hlt]; subst. apply Forall_cons in Hlt as [Hlt _]. apply elem_of_cons in Hw as [->|Hw]; [|by eapply IH].
    intros E%(f_equal length). rewrite length_take, length_drop in E. apply Forall_cons in Hl as [Hb _]. cbn in E. lia.
Qed.

Lemma bounds_sorted P `{forall i, Decision (P i)} n : StronglySorted lt (0%nat :: filter P (seq 1 n)).
Proof.
  assert (Hseq : forall m k, StronglySorted lt (filter P (seq m k)) /\ Forall (fun i => m <= i < m + k)%nat (filter P (seq m k))).
  { intros m k. revert m. induction k as [|k IH]; intros m; [split; constructor|]. cbn [seq]. destruct (IH (S m)) as [H1 H2]. rewrite filter_cons.
    case_decide.
    - split; [constructor; [done|]; eapply Forall_impl; [exact H2|]; cbn; lia|]. constructor; [lia|]. eapply Forall_impl; [exact H2|]. cbn; lia.
    - split; [done|]. eapply Forall_impl; [exact H2|]. cbn. lia. }
  destruct (Hseq 1%nat n) as [H1 H2]. constructor; [done|]. eapply Forall_impl; [exact H2|]. cbn. lia.
Qed.

Lemma split_where_concat segment boundary : concat (split_where segment boundary) = segment.
Proof.
  unfold split_where. destruct (Nat.ltb_spec (length segment) 2); [cbn; by rewrite app_nil_r|]. by rewrite cut_concat by apply bounds_sorted.
Qed.
Lemma split_where_nonempty segment boundary w : segment <> [] -> w ∈ split_where segment boundary -> w <> [].
Proof.
  intros Hs. unfold split_where. destruct (Nat.ltb_spec (length segment) 2) as [|Hl]; [by intros ->%list_elem_of_singleton|].
  apply cut_nonempty; [apply bounds_sorted|]. constructor; [lia|]. apply Forall_forall. intros i [_ Hi]%list_elem_of_filter.
  apply elem_of_seq in Hi. lia.
Qed.

Lemma split_on_filter p s : concat (split_on p s) = filter (fun c => p c = false) s.
Proof.
  induction s as [|c s IH]; [done|]. cbn [split_on]. rewrite filter_cons. destruct (p c) eqn:E; cbn; [done|].
  rewrite <-IH. by destruct (split_on p s).
Qed.
Lemma concat_nonempty {A} (ls : list (list A)) : concat (filter (fun l => l <> []) ls) = concat ls.
Proof. induction ls as [|l ls IH]; [done|]. rewrite filter_cons. destruct l; cbn; by rewrite <-IH. Qed.
Lemma concat_bind {A} (f : list A -> list (list A)) ls : (forall l, concat (f l) = l) -> concat (ls ≫= f) = concat ls.
Proof. intros Hf. induction ls as [|l ls IH]; [done|]. cbn. by rewrite concat_app, Hf, <-IH. Qed.

Section parts.
Context {CC : CharClasses} {CT : CaseTables}.

(** The characters of a word that are not delimiters. *)
Definition kept_chars (literal_symbols : gset Z) (chunk : str) : str := filter (fun c => is_delim literal_symbols c = false) chunk.
Definition chunk_parts (chunk : str) (symbols : gset Z) (split_case split_numerics : bool) : list str :=
  (split_forms chunk symbols split_case split_numerics).1.2.

(** The parts hold the characters that are not delimiters, all of them in order, none empty. *)
Lemma parts_complete chunk symbols split_case split_numerics :
  concat (chunk_parts chunk symbols split_case split_numerics) = kept_chars symbols chunk /\
  Forall (fun p => p <> []) (chunk_parts chunk symbols split_case split_numerics).
Proof.
  unfold chunk_parts, split_forms, kept_chars. cbn [fst snd].
  set (f := fun segment => if split_numerics then (if split_case then split_on_case segment else [segment]) ≫= split_on_numerics
    else if split_case then split_on_case segment else [segment]).
  assert (Hf : forall l, concat (f l) = l).
  { intros l. unfold f. destruct split_numerics, split_case; try (cbn; by rewrite app_nil_r).
    - rewrite (concat_bind split_on_numerics) by (intros; apply split_where_concat). apply split_where_concat.
    - cbn. rewrite app_nil_r. apply split_where_concat.
    - apply split_where_concat. }
  assert (Hn : forall l w, l <> [] -> w ∈ f l -> w <> []).
  { intros l w Hl. unfold f. destruct split_numerics, split_case.
    - intros (u & Hw & Hu)%list_elem_of_bind. eapply split_where_nonempty; [|exact Hw]. by eapply split_where_nonempty.
    - intros (u & Hw & Hu)%list_elem_of_bind. apply list_elem_of_singleton in Hu as ->. by eapply split_where_nonempty.
    - by apply split_where_nonempty.
    - by intros ->%list_elem_of_singleton. }
  split.
  - change (concat (chunk_segments symbols chunk ≫= f) = filter (fun c => is_delim symbols c = false) chunk).
    rewrite (concat_bind f) by done. unfold chunk_segments. by rewrite concat_nonempty, split_on_filter.
  - apply Forall_forall. intros w (l & Hw & Hl)%list_elem_of_bind. apply list_elem_of_filter in Hl as [Hl _]. by apply (Hn l).
Qed.
End parts.

(** ** The layout of the tokens *)

(** What the three tokenizers emit of a word: its tokens within the positions it takes up. *)
Record emits (emit : str -> Z -> Z -> nat -> nat * list TokenT) : Prop := {
  em_moves : forall w from to p, (p < (emit w from to p).1)%nat;
  em_inside : forall w from to p t, t ∈ (emit w from to p).2 ->
    tt_from t = from /\ tt_to t = to /\ (p <= tt_position t)%nat /\ (0 < tt_length t)%nat /\
    (tt_position t + tt_length t <= (emit w from to p).1)%nat
}.

Lemma push_forms_inside from to p whole parts t :
  t ∈ push_forms from to p whole parts ->
  tt_from t = from /\ tt_to t = to /\ (p <= tt_position t)%nat /\ (0 < tt_length t)%nat /\
  (tt_position t + tt_length t <= p + Nat.max (length parts) 1)%nat.
Proof.
  unfold push_forms. intros [Hw|Hp]%elem_of_app.
  - apply list_elem_of_fmap in Hw as (w & -> & _). cbn. split_and!; [done|done|lia..].
  - apply elem_of_lookup_imap in Hp as (i & part & -> & Hi). apply lookup_lt_Some in Hi. cbn. split_and!; [done|done|lia..].
Qed.

(** The parts of a word follow one another from the word's position on. *)
Lemma push_forms_part from to p whole parts i part :
  parts !! i = Some part -> mkTokenT from to (p + i) part 1 ∈ push_forms from to p whole parts.
Proof. intros Hi. unfold push_forms. apply elem_of_app. right. apply elem_of_lookup_imap. by exists i, part. Qed.
Lemma push_forms_whole from to p whole parts w :
  w ∈ whole -> mkTokenT from to p w (Nat.max (length parts) 1) ∈ push_forms from to p whole parts.
Proof. intros Hw. unfold push_forms. apply elem_of_app. left. apply list_elem_of_fmap. by exists w. Qed.

Section layout.
Context {CC : CharClasses} {CT : CaseTables}.

Lemma wd_emits self : emits (wd_emit self).
Proof. split; unfold wd_emit, split_forms; intros; cbn [fst snd] in *; [lia|by eapply push_forms_inside]. Qed.
Lemma url_emits self : emits (url_emit self).
Proof. split; unfold url_emit; intros; cbn [fst snd] in *; [lia|by eapply push_forms_inside]. Qed.
Lemma path_emits self : emits (path_emit self).
Proof. split; unfold path_emit; intros; cbn [fst snd] in *; [lia|by eapply push_forms_inside]. Qed.

(** The words of a text with the positions they start at. *)
Fixpoint word_places (emit : str -> Z -> Z -> nat -> nat * list TokenT) (position : nat) (words : list (str * Z * Z))
    : list (str * Z * Z * nat) :=
  match words with
  | [] => []
  | (w, from, to) :: words => (w, from, to, position) :: word_places emit (emit w from to position).1 words
  end.

Lemma emit_all_places emit position words :
  emit_all emit position words = word_places emit position words ≫= fun e => (emit e.1.1.1 e.1.1.2 e.1.2 e.2).2.
Proof.
  revert position. induction words as [|[[w from] to] words IH]; intros position; [done|]. cbn [emit_all word_places mbind list_bind fst snd]. by rewrite IH.
Qed.
Lemma word_places_words emit position words : (word_places emit position words).*1 = words.
Proof. revert position. induction words as [|[[w from] to] words IH]; intros position; [done|]. cbn. by rewrite IH. Qed.
(** The positions of a word come after those of all words before it. *)
Lemma word_places_after emit position words i j e e' :
  emits emit -> word_places emit position words !! i = Some e -> word_places emit position words !! j = Some e' -> (i < j)%nat ->
  ((emit e.1.1.1 e.1.1.2 e.1.2 e.2).1 <= e'.2)%nat.
Proof.
  intros He.
  assert (Hle : forall words position j e', word_places emit position words !! j = Some e' -> (position <= e'.2)%nat).
  { clear -He. induction words as [|[[w from] to] words IH]; intros position j e' Hj; [done|]. destruct j as [|j]; cbn in Hj; [by injection Hj as <-|].
    specialize (IH _ _ _ Hj). pose proof (em_moves _ He w from to position). lia. }
  revert position i j. induction words as [|[[w from] to] words IH]; intros position i j Hi Hj Hij; [done|].
  destruct j as [|j]; [lia|]. destruct i as [|i]; cbn in Hi, Hj.
  - injection Hi as <-. by apply (Hle _ _ _ _ Hj).
  - eapply IH; [exact Hi|exact Hj|lia].
Qed.

(** C34: tokenizing a text goes word by word: the words between white space, each at its byte
    offsets, give their tokens in order, and the positions of a word's tokens come after those
    of every word before it. With [preserve_original] every word is a token itself; the parts of
    a word hold its characters that are not delimiters. *)
Theorem word_tokens_correct (self : WordDelimiterTokenizer) (text : str) :
  let places := word_places (wd_emit self) 0 (text_words text) in
  wd_token_stream self text = (places ≫= fun e => (wd_emit self e.1.1.1 e.1.1.2 e.1.2 e.2).2) /\
  places.*1.*1.*1 = split_whitespace text /\
  (forall e, e ∈ places ->
    str_slice text e.1.1.2 e.1.2 = e.1.1.1 /\
    (wd_preserve_original self = true ->
      exists n, mkTokenT e.1.1.2 e.1.2 e.2 e.1.1.1 n ∈ wd_token_stream self text) /\
    concat (chunk_parts e.1.1.1 (wd_literal_symbols self) (wd_split_case self) (wd_split_numerics self)) =
      kept_chars (wd_literal_symbols self) e.1.1.1) /\
  (forall i j e e' t t', places !! i = Some e -> places !! j = Some e' -> (i < j)%nat ->
    t ∈ (wd_emit self e.1.1.1 e.1.1.2 e.1.2 e.2).2 -> t' ∈ (wd_emit self e'.1.1.1 e'.1.1.2 e'.1.2 e'.2).2 ->
    (tt_position t + tt_length t <= tt_position t')%nat).
Proof.
  cbv zeta. set (places := word_places _ _ _).
  assert (Hstream : wd_token_stream self text = places ≫= fun e => (wd_emit self e.1.1.1 e.1.1.2 e.1.2 e.2).2).
  { unfold wd_token_stream. by rewrite chunk_stream_words, emit_all_places. }
  split; [done|]. split; [|split].
  - unfold places. rewrite word_places_words. unfold text_words. by rewrite words_from_split.
  - intros e He. assert (Hw : (e.1.1.1, e.1.1.2, e.1.2) ∈ text_words text).
    { unfold places in He. rewrite <-(word_places_words (wd_emit self) 0 (text_words text)). apply list_elem_of_fmap. exists e.
      split; [by destruct e as [[[? ?] ?] ?]|done]. }
    split_and!.
    + by destruct (words_from_slices [] [] text _ _ _ Hw) as [? _].
    + intros Hp. eexists. rewrite Hstream. apply list_elem_of_bind. exists e. split; [|exact He]. unfold wd_emit, split_forms. cbn [snd].
      apply push_forms_whole. rewrite Hp. left.
    + apply parts_complete.
  - intros i j e e' t t' Hi Hj Hij Ht Ht'. pose proof (word_places_after _ _ _ i j e e' (wd_emits self) Hi Hj Hij) as Hle.
    apply (em_inside _ (wd_emits self)) in Ht as (_ & _ & _ & _ & Ht). apply (em_inside _ (wd_emits self)) in Ht' as (_ & _ & Ht' & _). lia.
Qed.

(** Without [preserve_original] a word that has no delimiter in it and is not split is not
    emitted at all. *)
Lemma plain_word_dropped symbols w from to p :
  w <> [] -> Forall (fun c => is_delim symbols c = false) w ->
  (wd_emit (mkWordDelimiter symbols false false false) w from to p).2 = [].
Proof.
  intros Hne Hw. assert (Hs : split_on (is_delim symbols) w = [w]).
  { clear Hne. induction Hw as [|c w Hc Hw IH]; [done|]. cbn. by rewrite Hc, IH. }
  unfold wd_emit, split_forms, chunk_segments. cbn [wd_literal_symbols wd_split_case wd_split_numerics wd_preserve_original].
  rewrite Hs. rewrite filter_cons, decide_True by done. cbn. rewrite !app_nil_r. rewrite (bool_decide_eq_true_2 (w = w)) by done.
  by rewrite andb_false_r.
Qed.
End layout.

(** ** Links *)

Lemma find_sub_bound pat s i : find_sub pat s = Some i -> (i + length pat <= length s)%nat.
Proof.
  assert (Hp : forall pat s, starts_with pat s = true -> (length pat <= length s)%nat).
  { clear. induction pat as [|c pat IH]; intros [|d s] H; cbn in *; try lia; try done. apply andb_true_iff in H as [_ H]. specialize (IH _ H). lia. }
  revert i. induction s as [|c s IH]; intros i; cbn [find_sub]; case_match eqn:E; intros H; simplify_eq; [by apply Hp|by apply Hp|].
  destruct (find_sub pat s) as [j|]; simplify_eq/=. specialize (IH j eq_refl). lia.
Qed.
(** The fuel of [strip_links] is enough: any more gives the same text. *)
Lemma strip_links_fuel fuel more rest :
  (length rest < fuel)%nat -> strip_links_loop (fuel + more) rest = strip_links_loop fuel rest.
Proof.
  revert rest. induction fuel as [|fuel IH]; intros rest Hf; [lia|]. cbn [Nat.add strip_links_loop].
  destruct (find_sub [91] rest) as [start|] eqn:Es; [|done]. apply find_sub_bound in Es. cbn in Es.
  destruct (find_sub (lit "](") (drop (start + 1) rest)) as [close|] eqn:Ec; cbn [mbind option_bind].
  - destruct (find_sub [41] (drop (close + 2) (drop (start + 1) rest))) as [end_|] eqn:Ee; cbn [mbind option_bind];
      rewrite IH by (rewrite ?length_drop; lia); done.
  - rewrite IH by (rewrite ?length_drop; lia); done.
Qed.

(** ** The stem cache *)

Section stem_cache.
Context (stem : str -> str).

(** The cache holds stems, and not more than it may. *)
Definition cache_stems (cache : StemCache) : Prop :=
  (0 < sc_capacity cache)%nat /\ (size (sc_stems cache) <= sc_capacity cache)%nat /\
  map_Forall (fun word stemmed => stemmed = stem word) (sc_stems cache).

Lemma stem_advance_ok cache token :
  cache_stems cache -> cache_stems (stem_advance stem cache token).1 /\
  sc_capacity (stem_advance stem cache token).1 = sc_capacity cache /\
  (stem_advance stem cache token).2 = with_text token (stem (tt_text token)).
Proof.
  intros (Hc & Hsize & Hs). unfold stem_advance. destruct (sc_stems cache !! tt_text token) as [stemmed|] eqn:E; cbn [fst snd].
  - split; [done|]. split; [done|]. pose proof (Hs _ _ E) as Hst. cbn in Hst. subst stemmed. case_bool_decide as Heq; [|done]. rewrite Heq. by destruct token.
  - split; [|done]. split; [done|]. cbn [sc_capacity sc_stems]. destruct (Nat.leb_spec (sc_capacity cache) (size (sc_stems cache))).
    + split; [rewrite map_size_insert_None by apply lookup_empty; rewrite map_size_empty; lia|].
      apply map_Forall_insert_2; [done|]. apply map_Forall_empty.
    + split; [rewrite map_size_insert_None by done; lia|]. by apply map_Forall_insert_2.
Qed.

Lemma stem_stream_ok cache tokens :
  cache_stems cache ->
  (stem_stream stem cache tokens).2 = (fun token => with_text token (stem (tt_text token))) <$> tokens /\
  cache_stems (stem_stream stem cache tokens).1 /\ sc_capacity (stem_stream stem cache tokens).1 = sc_capacity cache.
Proof.
  revert cache. induction tokens as [|token tokens IH]; intros cache Hc; [done|]. cbn [stem_stream].
  destruct (stem_advance_ok cache token Hc) as (Hc' & Hcap & Ht). destruct (stem_advance stem cache token) as [cache1 token1]. cbn [fst snd] in *.
  specialize (IH cache1 Hc'). destruct (stem_stream stem cache1 tokens) as [cache2 tokens2]. cbn [fst snd] in *. destruct IH as (-> & IH & IHc).
  rewrite fmap_cons, Ht. split_and!; [done|done|congruence].
Qed.
End stem_cache.
