(* ===== verification/Analyzers.v ===== *)
(** * Analyzers

    Models [crates/core-index/src/analyzer/analyzer.rs] and the configuration of
    [analyzer_config.rs]: the pipelines of tokenizer and filters, the analyzers each thread keeps,
    the analysis of documents and queries, and the names a field value is filed under.

    The tokenizers and filters of [tantivy], the stemmers of [rust_stemmers] and [regex] are the
    parameter [TantivyLib]. A filter works on the list of the tokens: both readers of a stream
    ([tokenize], [for_each_token]) take it to its end. A thread's [LOCAL_ANALYZERS] is a map passed
    along.

    The theorems show that neither the analyzers of a thread nor their stem caches show in the
    result of an analysis, and what the name key of a text is. *)
From Stdlib Require Import ZArith Lia.
From stdpp Require Import base numbers list sorting strings gmap.
From S2P Require Import Prelude Types Utf8 FuzzyRank Query Tokenizers.
Local Open Scope Z_scope.

(** ** Configuration *)

Inductive CorelamoTokenizer : Type := WordDelimiter | Keyword | Whitespace | Standard | Url | Code | Filepath.

(** [Language], and [Algorithm] of [rust_stemmers]: the same languages. *)
Inductive Language : Type :=
| Arabic | Danish | Dutch | English | Finnish | French | German | Greek | Hungarian
| Italian | Norwegian | Portuguese | Romanian | Russian | Spanish | Swedish | Tamil | Turkish.
#[global] Instance Language_eq_dec : EqDecision Language.
Proof. solve_decision. Defined.
Inductive Algorithm : Type :=
| AArabic | ADanish | ADutch | AEnglish | AFinnish | AFrench | AGerman | AGreek | AHungarian
| AItalian | ANorwegian | APortuguese | ARomanian | ARussian | ASpanish | ASwedish | ATamil | ATurkish.

Definition Language_name (self : Language) : str :=
  match self with
  | Arabic => lit "arabic" | Danish => lit "danish" | Dutch => lit "dutch" | English => lit "english"
  | Finnish => lit "finnish" | French => lit "french" | German => lit "german" | Greek => lit "greek"
  | Hungarian => lit "hungarian" | Italian => lit "italian" | Norwegian => lit "norwegian"
  | Portuguese => lit "portuguese" | Romanian => lit "romanian" | Russian => lit "russian"
  | Spanish => lit "spanish" | Swedish => lit "swedish" | Tamil => lit "tamil" | Turkish => lit "turkish"
  end.
Definition to_ascii_lowercase (s : str) : str := (fun c => if (65 <=? c) && (c <=? 90) then c + 32 else c) <$> s.
(** The arms of the match, in order. *)
Definition language_names : list (str * Language) :=
  [(lit "arabic", Arabic); (lit "danish", Danish); (lit "dutch", Dutch); (lit "english", English);
   (lit "finnish", Finnish); (lit "french", French); (lit "german", German); (lit "greek", Greek);
   (lit "hungarian", Hungarian); (lit "italian", Italian); (lit "norwegian", Norwegian);
   (lit "portuguese", Portuguese); (lit "romanian", Romanian); (lit "russian", Russian);
   (lit "spanish", Spanish); (lit "swedish", Swedish); (lit "tamil", Tamil); (lit "turkish", Turkish)].
Definition Language_from_name (s : str) : option Language :=
  snd ∘ snd <$> list_find (fun arm => arm.1 = to_ascii_lowercase s) language_names.
Definition algorithm (self : Language) : Algorithm :=
  match self with
  | Arabic => AArabic | Danish => ADanish | Dutch => ADutch | English => AEnglish
  | Finnish => AFinnish | French => AFrench | German => AGerman | Greek => AGreek
  | Hungarian => AHungarian | Italian => AItalian | Norwegian => ANorwegian
  | Portuguese => APortuguese | Romanian => ARomanian | Russian => ARussian
  | Spanish => ASpanish | Swedish => ASwedish | Tamil => ATamil | Turkish => ATurkish
  end.

Inductive Stopwords : Type := LanguageDefaults (lang : Language) | Words (words : gset str).
Inductive CharFilter : Type := HtmlStrip | MarkdownStrip | PatternReplace (pattern replacement : str).
Record AnalyzerConfig : Type := mkAnalyzerConfig {
  ac_tokenizer : CorelamoTokenizer;
  ac_stemming : option Language;
  ac_lowercase : bool;
  ac_ascii_folding : bool;
  ac_stopwords : option Stopwords;
  ac_min_length : option nat;
  ac_max_length : option nat;
  ac_preserve_original : bool;
  ac_literal_symbols : gset Z;
  ac_char_filters : list CharFilter
}.
Definition AnalyzerConfig_default : AnalyzerConfig :=
  mkAnalyzerConfig WordDelimiter None true false None (Some 2%nat) (Some 40%nat) true {[ 95 ]} [].
Definition builtin_default : AnalyzerConfig :=
  mkAnalyzerConfig WordDelimiter (Some English) true false None (Some 2%nat) (Some 40%nat) true {[ 95 ]} [].

(** ** Pipelines *)

(** What the code takes from [tantivy], [rust_stemmers] and [regex]. *)
Class TantivyLib := {
  raw_tokenizer : str -> list TokenT;
  whitespace_tokenizer : str -> list TokenT;
  simple_tokenizer : str -> list TokenT;
  lower_caser : str -> str;
  ascii_folding : str -> str;
  long_keeps : Z -> str -> bool;
  StopWordFilter : Type;
  StopWordFilter_new : Language -> option StopWordFilter;
  StopWordFilter_remove : gset str -> StopWordFilter;
  stop_keeps : StopWordFilter -> str -> bool;
  stem_with : Algorithm -> str -> str;
  Regex : Type;
  Regex_new : str -> option Regex;
  replace_all : Regex -> str -> str -> str
}.

Section analyzers.
Context {CC : CharClasses} {CT : CaseTables} {TL : TantivyLib}.

Inductive ConfigTokenizer : Type :=
| CTWordDelimiter (t : WordDelimiterTokenizer) | CTKeyword | CTWhitespace | CTStandard
| CTUrl (t : UrlTokenizer) | CTFilepath (t : FilepathTokenizer).
Definition config_token_stream (self : ConfigTokenizer) (text : str) : list TokenT :=
  match self with
  | CTWordDelimiter t => wd_token_stream t text
  | CTKeyword => raw_tokenizer text
  | CTWhitespace => whitespace_tokenizer text
  | CTStandard => simple_tokenizer text
  | CTUrl t => url_token_stream t text
  | CTFilepath t => path_token_stream t text
  end.
Definition build_tokenizer (config : AnalyzerConfig) : ConfigTokenizer :=
  let symbols := ac_literal_symbols config in
  match ac_tokenizer config with
  | WordDelimiter => CTWordDelimiter (mkWordDelimiter symbols false false (ac_preserve_original config))
  | Code => CTWordDelimiter (mkWordDelimiter symbols true true (ac_preserve_original config))
  | Keyword => CTKeyword
  | Whitespace => CTWhitespace
  | Standard => CTStandard
  | Filepath => CTFilepath (mkFilepathTokenizer symbols (ac_preserve_original config))
  | Url => CTUrl (mkUrlTokenizer symbols (ac_preserve_original config))
  end.

(** The filters of a pipeline, a stemmer with its cache. *)
Inductive TokenFilter : Type :=
| FLength (f : LengthFilter)
| FRemoveLong (limit : Z)
| FLowerCaser
| FAsciiFolding
| FStopWords (f : StopWordFilter)
| FStemmer (algorithm : Algorithm) (cache : StemCache).
Definition CachedStemmer_filter (a : Algorithm) (capacity : nat) : TokenFilter :=
  FStemmer a (StemCache_new (CachedStemmer_new capacity)).
Definition stopword_filter (stop : Stopwords) : option TokenFilter :=
  match stop with
  | LanguageDefaults lang => FStopWords <$> StopWordFilter_new lang
  | Words words => Some (FStopWords (StopWordFilter_remove words))
  end.
(** A stream through a filter: the filter after it, and its tokens. *)
Definition run_filter (self : TokenFilter) (tokens : list TokenT) : TokenFilter * list TokenT :=
  match self with
  | FLength f => (self, length_filter f tokens)
  | FRemoveLong limit => (self, filter (fun token => long_keeps limit (tt_text token) = true) tokens)
  | FLowerCaser => (self, (fun token => with_text token (lower_caser (tt_text token))) <$> tokens)
  | FAsciiFolding => (self, (fun token => with_text token (ascii_folding (tt_text token))) <$> tokens)
  | FStopWords f => (self, filter (fun token => stop_keeps f (tt_text token) = true) tokens)
  | FStemmer a cache => let '(cache, tokens) := stem_stream (stem_with a) cache tokens in (FStemmer a cache, tokens)
  end.
Fixpoint run_filters (filters : list TokenFilter) (tokens : list TokenT) : list TokenFilter * list TokenT :=
  match filters with
  | [] => ([], tokens)
  | f :: filters =>
    let '(f, tokens) := run_filter f tokens in
    let '(filters, tokens) := run_filters filters tokens in (f :: filters, tokens)
  end.

Record TextAnalyzer : Type := mkTextAnalyzer { ta_tokenizer : ConfigTokenizer; ta_filters : list TokenFilter }.
Definition token_stream (self : TextAnalyzer) (text : str) : TextAnalyzer * list TokenT :=
  let '(filters, tokens) := run_filters (ta_filters self) (config_token_stream (ta_tokenizer self) text) in
  (mkTextAnalyzer (ta_tokenizer self) filters, tokens).
(** A clone of a stemmer has a cache of its own. *)
Definition clone_filter (f : TokenFilter) : TokenFilter :=
  match f with FStemmer a cache => FStemmer a (StemCache_new (sc_capacity cache)) | _ => f end.
Definition clone (self : TextAnalyzer) : TextAnalyzer := mkTextAnalyzer (ta_tokenizer self) (clone_filter <$> ta_filters self).

Inductive CompiledCharFilter : Type := StripHtml | StripMarkdown | CPatternReplace (regex : Regex) (replacement : str).
Definition apply_char_filter (self : CompiledCharFilter) (text : str) : str :=
  match self with
  | StripHtml => strip_html text
  | StripMarkdown => strip_markdown text
  | CPatternReplace regex replacement => replace_all regex text replacement
  end.
Definition compile_char_filter (f : CharFilter) : option CompiledCharFilter :=
  match f with
  | HtmlStrip => Some StripHtml
  | MarkdownStrip => Some StripMarkdown
  | PatternReplace pattern replacement => (fun regex => CPatternReplace regex replacement) <$> Regex_new pattern
  end.

(** ** Analyzers *)

Record Analyzer : Type := AnalyzerOf {
  an_id : Z;
  an_analyzer : TextAnalyzer;
  an_literal_symbols : gset Z;
  an_char_filters : list CompiledCharFilter
}.
Definition STEM_CACHE_CAPACITY : nat := N.to_nat 100000.
Definition MAX_CACHED_ANALYZERS_PER_THREAD : nat := 64.

(** The counter [NEXT_ANALYZER_ID] before and after. *)
Definition with_literal_symbols (next_id : Z) (symbols : gset Z) : Z * Analyzer :=
  let stopwords : gset str := list_to_set (lit <$> ["the"; "a"; "of"; "in"; "to"; "and"; "is"]%string) in
  (wrap 64 (next_id + 1),
   AnalyzerOf next_id
     (mkTextAnalyzer (CTWordDelimiter (WordDelimiterTokenizer_new symbols))
       [FRemoveLong 40; FLowerCaser; FStopWords (StopWordFilter_remove stopwords); CachedStemmer_filter AEnglish STEM_CACHE_CAPACITY])
     symbols []).
Definition Analyzer_new (next_id : Z) : Z * Analyzer := with_literal_symbols next_id {[ 95 ]}.

Definition config_filters (config : AnalyzerConfig) : list TokenFilter :=
  (if bool_decide (is_Some (ac_min_length config) \/ is_Some (ac_max_length config))
   then [FLength (mkLengthFilter (ac_min_length config) (ac_max_length config))] else []) ++
  (if ac_lowercase config then [FLowerCaser] else []) ++
  (if ac_ascii_folding config then [FAsciiFolding] else []) ++
  (match ac_stopwords config with
   | Some stop => match stopword_filter stop with Some f => [f] | None => [] end
   | None => []
   end) ++
  (match ac_stemming config with Some lang => [CachedStemmer_filter (algorithm lang) STEM_CACHE_CAPACITY] | None => [] end).
Definition from_config (next_id : Z) (config : AnalyzerConfig) : Z * Analyzer :=
  (wrap 64 (next_id + 1),
   AnalyzerOf next_id (mkTextAnalyzer (build_tokenizer config) (config_filters config))
     (ac_literal_symbols config) (omap compile_char_filter (ac_char_filters config))).

Definition apply_char_filters (self : Analyzer) (input : str) : str :=
  fold_left (fun text filter => apply_char_filter filter text) (an_char_filters self) input.

(** The analyzers of a thread. *)
Abbreviation Locals := (gmap Z TextAnalyzer).
Definition with_text_analyzer {R} (self : Analyzer) (cache : Locals) (f : TextAnalyzer -> TextAnalyzer * R) : Locals * R :=
  let cache :=
    if negb (bool_decide (is_Some (cache !! an_id self))) && (MAX_CACHED_ANALYZERS_PER_THREAD <=? size cache)%nat
    then ∅ else cache in
  let '(analyzer, r) := f (default (clone (an_analyzer self)) (cache !! an_id self)) in
  (<[an_id self := analyzer]> cache, r).

(** [Token] of [token.rs]: position and offsets of the stream's token. *)
Record AToken : Type := mkAToken { at_text : str; at_position : Z; at_start_byte : Z; at_end_byte : Z }.
Definition to_token (t : TokenT) : AToken := mkAToken (tt_text t) (wrap 32 (Z.of_nat (tt_position t))) (tt_from t) (tt_to t).
Definition tokenize (self : Analyzer) (cache : Locals) (input : str) : Locals * list AToken :=
  with_text_analyzer self cache (fun analyzer =>
    let '(analyzer, tokens) := token_stream analyzer input in (analyzer, to_token <$> tokens)).
Definition analyze (self : Analyzer) (cache : Locals) (input : str) : Locals * list AToken :=
  tokenize self cache (apply_char_filters self input).

Definition is_unicode_punctuation (c : Z) : bool :=
  ((0xA1 <=? c) && (c <=? 0xBF)) || ((0x2010 <=? c) && (c <=? 0x2027)) ||
  ((0x2030 <=? c) && (c <=? 0x205E)) || ((0x3000 <=? c) && (c <=? 0x303F)).
Definition is_word_char (self : Analyzer) (c : Z) : bool := is_alphanumeric c || bool_decide (c ∈ an_literal_symbols self).
Definition canonical_char (self : Analyzer) (c : Z) : bool :=
  is_alphanumeric c || is_whitespace c || bool_decide (c ∈ an_literal_symbols self) ||
  negb ((c <? 128) || is_unicode_punctuation c).
Definition analyze_query (self : Analyzer) (cache : Locals) (input : str) : Locals * list AToken :=
  tokenize self cache (filter (fun c => canonical_char self c = true) (apply_char_filters self input)).

(** The callback [f] gets the text, position and length of every token; the result is the number
    of positions. *)
Definition token_step {A} (f : A -> str -> Z -> Z -> A) (st : A * Z * nat) (token : TokenT) : A * Z * nat :=
  let '(a, count, next_unseen) := st in
  let a := f a (tt_text token) (wrap 32 (Z.of_nat (tt_position token))) (wrap 32 (Z.of_nat (Nat.max (tt_length token) 1))) in
  if (next_unseen <=? tt_position token)%nat then (a, saturating_add 32 count 1, S (tt_position token)) else (a, count, next_unseen).
Definition for_each_token {A} (self : Analyzer) (cache : Locals) (input : str) (f : A -> str -> Z -> Z -> A) (a : A) : Locals * (A * Z) :=
  let filtered := apply_char_filters self input in
  with_text_analyzer self cache (fun analyzer =>
    let '(analyzer, tokens) := token_stream analyzer filtered in
    let '(a, count, _) := fold_left (token_step f) tokens (a, 0, 0%nat) in (analyzer, (a, count))).

(** ** Names *)

Definition NAME_KEY : Z := 1.
Definition QUALIFIED_NAME_KEY : Z := 2.
Definition MAX_NAME_WORDS : nat := 12.
Definition MAX_NAME_BYTES : Z := 200.

(** The callback of [name_key] and [named_runs]: one word per position, no joined form. *)
Definition keep_word (words : list (Z * str)) (term : str) (position length : Z) : list (Z * str) :=
  if (length =? 1) && match last words with None => true | Some (last, _) => last <? position end
  then words ++ [(position, term)] else words.
Definition key_step (st : str * Z) (e : Z * str) : str * Z :=
  let '(key, next) := st in
  ((if next <? e.1 then key ++ lit "_ " else key) ++ e.2 ++ [32], wrap 32 (e.1 + 1)).
(** [String::pop] *)
Definition pop (s : str) : str := take (length s - 1) s.
Definition leading_article (text : str) : bool :=
  match head (split_whitespace text) with
  | Some first => bool_decide (to_lowercase first ∈ lit <$> ["the"; "a"; "an"]%string)
  | None => false
  end.
Definition key_of (text : str) (words : list (Z * str)) : option str :=
  match words with
  | [] => None
  | first :: _ =>
    if (MAX_NAME_WORDS <? length words)%nat then None
    else
      let next := if (first.1 =? 1) && leading_article text then 1 else 0 in
      Some (pop (fold_left key_step words ([], next)).1)
  end.
Definition name_key (self : Analyzer) (cache : Locals) (text : str) : Locals * option str :=
  let '(cache, (words, _)) := for_each_token self cache text keep_word [] in
  (cache, key_of text words).

Definition trim_end (s : str) : str := rev (trim_start (rev s)).
Definition unqualified (value : str) : list str :=
  let bracketed :=
    if bool_decide (last value = Some 41) then
      match rfind_sub (lit " (") value with
      | Some open => let head := trim_end (take open value) in if bool_decide (head = []) then [] else [head]
      | None => []
      end
    else [] in
  match find_sub (lit ", ") value with
  | Some comma =>
    let head := trim_end (take comma value) in
    if bool_decide (head = []) || bool_decide (head ∈ bracketed) then bracketed else bracketed ++ [head]
  | None => bracketed
  end.
Definition term_step (self : Analyzer) (st : Locals * list str) (stripped : str) : Locals * list str :=
  let '(cache, terms) := st in
  match name_key self cache stripped with
  | (cache, Some key) =>
    let term := QUALIFIED_NAME_KEY :: key in (cache, if bool_decide (term ∈ terms) then terms else terms ++ [term])
  | (cache, None) => (cache, terms)
  end.
Definition name_terms (self : Analyzer) (cache : Locals) (value : str) : Locals * list str :=
  let value := trim value in
  if MAX_NAME_BYTES <? str_len value then (cache, [])
  else
    match name_key self cache value with
    | (cache, None) => (cache, [])
    | (cache, Some key) => fold_left (term_step self) (unqualified value) (cache, [NAME_KEY :: key])
    end.

(** ** The analyzers of a policy *)

Record AnalyzerSet : Type := mkAnalyzerSet { as_analyzers : gmap str Analyzer; as_default : Analyzer }.
(** The configurations in the order of their names. *)
Definition from_policy (next_id : Z) (configs : list (str * AnalyzerConfig)) : Z * AnalyzerSet :=
  let '(next_id, analyzers) := fold_left (fun '(next_id, analyzers) '(name, config) =>
    let '(next_id, analyzer) := from_config next_id config in (next_id, <[name := analyzer]> analyzers))
    configs (next_id, (∅ : gmap str Analyzer)) in
  let '(next_id, default_) := from_config next_id
    match list_find (fun e => e.1 = lit "$default") configs with Some (_, (_, config)) => config | None => builtin_default end in
  (next_id, mkAnalyzerSet analyzers default_).
Definition AnalyzerSet_get (self : AnalyzerSet) (name : str) : option Analyzer := as_analyzers self !! name.
Definition default_analyzer (self : AnalyzerSet) : Analyzer := as_default self.
End analyzers.

(** ** Analysis without caches *)

Section transparent.
Context {CC : CharClasses} {CT : CaseTables} {TL : TantivyLib}.

Abbreviation Locals := (gmap Z TextAnalyzer).

Definition plain_filter (self : TokenFilter) (tokens : list TokenT) : list TokenT :=
  match self with
  | FStemmer a _ => (fun token => with_text token (stem_with a (tt_text token))) <$> tokens
  | _ => (run_filter self tokens).2
  end.
(** The tokens a pipeline gives, every word stemmed anew. *)
Definition plain_tokens (self : TextAnalyzer) (text : str) : list TokenT :=
  fold_left (fun tokens f => plain_filter f tokens) (ta_filters self) (config_token_stream (ta_tokenizer self) text).
Definition filter_ok (f : TokenFilter) : Prop :=
  match f with FStemmer a cache => cache_stems (stem_with a) cache | _ => True end.

Lemma run_filter_ok f tokens :
  filter_ok f ->
  (run_filter f tokens).2 = plain_filter f tokens /\ filter_ok (run_filter f tokens).1 /\
  clone_filter (run_filter f tokens).1 = clone_filter f.
Proof.
  destruct f as [| | | | |a cache]; try done. cbn [filter_ok run_filter]. intros Hc.
  destruct (stem_stream_ok (stem_with a) cache tokens Hc) as (Ht & Hc' & Hcap). destruct (stem_stream _ _ _) as [cache' tokens']. cbn in *.
  split; [exact Ht|]. split; [exact Hc'|]. by rewrite Hcap.
Qed.
Lemma run_filters_ok filters tokens :
  Forall filter_ok filters ->
  (run_filters filters tokens).2 = fold_left (fun tokens f => plain_filter f tokens) filters tokens /\
  Forall filter_ok (run_filters filters tokens).1 /\ clone_filter <$> (run_filters filters tokens).1 = clone_filter <$> filters.
Proof.
  intros Hf. revert tokens. induction Hf as [|f filters Hf Hfs IH]; intros tokens; [done|]. cbn [run_filters].
  destruct (run_filter_ok f tokens Hf) as (Ht & Hf' & Hc). destruct (run_filter f tokens) as [f' tokens']. cbn [fst snd] in *. subst tokens'.
  destruct (IH (plain_filter f tokens)) as (Ht' & Hfs' & Hc'). destruct (run_filters filters _) as [filters' tokens'']. cbn [fst snd fold_left] in *.
  split; [done|]. split; [by constructor|]. rewrite !fmap_cons. by rewrite Hc, Hc'.
Qed.
(** What a pipeline gives does not depend on its caches. *)
Lemma plain_tokens_clone a b text : clone a = clone b -> plain_tokens a text = plain_tokens b text.
Proof.
  intros E. unfold plain_tokens. injection E as -> E. generalize (config_token_stream (ta_tokenizer b) text).
  revert E. generalize (ta_filters b) as gs. induction (ta_filters a) as [|f fs IH]; intros [|g gs] E tokens; try done.
  rewrite !fmap_cons in E. injection E as E1 E2. cbn [fold_left].
  assert (plain_filter f tokens = plain_filter g tokens) as -> by (destruct f, g; simplify_eq/=; done). by apply IH.
Qed.

Definition made_ok (self : Analyzer) : Prop := Forall (fun f => filter_ok (clone_filter f)) (ta_filters (an_analyzer self)).
(** The thread's copy of the analyzer, when there is one, is that analyzer. *)
Definition copy_ok (self : Analyzer) (ta : TextAnalyzer) : Prop :=
  clone ta = clone (an_analyzer self) /\ Forall filter_ok (ta_filters ta).
Definition locals_ok (self : Analyzer) (cache : Locals) : Prop :=
  made_ok self /\ forall ta, cache !! an_id self = Some ta -> copy_ok self ta.

Lemma clone_clone a : clone (clone a) = clone a.
Proof.
  unfold clone. cbn [ta_tokenizer ta_filters]. f_equal. rewrite <-list_fmap_compose. apply list_fmap_ext. by intros ? [] _.
Qed.

Lemma with_text_analyzer_ok {R} (self : Analyzer) (cache : Locals) (text : str) (g : list TokenT -> R) :
  locals_ok self cache ->
  exists ta, copy_ok self ta /\
  with_text_analyzer self cache (fun a => let '(a, tokens) := token_stream a text in (a, g tokens)) =
  (<[an_id self := ta]> (if negb (bool_decide (is_Some (cache !! an_id self))) && (MAX_CACHED_ANALYZERS_PER_THREAD <=? size cache)%nat then ∅ else cache),
   g (plain_tokens (an_analyzer self) text)).
Proof.
  intros [Hm Hl]. unfold with_text_analyzer. set (cache' := if _ && _ then _ else _).
  set (a := default (clone (an_analyzer self)) (cache' !! an_id self)).
  assert (Ha : copy_ok self a).
  { unfold a. destruct (cache' !! an_id self) as [ta|] eqn:E; cbn [default].
    - apply Hl. unfold cache' in E. destruct (_ && _); [|done]. by rewrite lookup_empty in E.
    - split; [apply clone_clone|]. cbn [clone ta_filters]. by apply Forall_fmap. }
  destruct Ha as [Hc Hok]. unfold token_stream.
  destruct (run_filters_ok (ta_filters a) (config_token_stream (ta_tokenizer a) text) Hok) as (Ht & Hok' & Hc').
  destruct (run_filters _ _) as [filters tokens]. cbn [fst snd] in *. exists (mkTextAnalyzer (ta_tokenizer a) filters). split.
  - split; [|done]. rewrite <-Hc. unfold clone. cbn [ta_tokenizer ta_filters]. by rewrite Hc'.
  - rewrite <-(plain_tokens_clone a _ _ Hc). unfold plain_tokens. by rewrite <-Ht.
Qed.

(** What an analyzer reads of a text. *)
Definition plain_analysis (self : Analyzer) (text : str) : list TokenT :=
  plain_tokens (an_analyzer self) (apply_char_filters self text).
Definition plain_query (self : Analyzer) (text : str) : list TokenT :=
  plain_tokens (an_analyzer self) (filter (fun c => canonical_char self c = true) (apply_char_filters self text)).

Lemma analyze_plain self cache text : locals_ok self cache -> (analyze self cache text).2 = to_token <$> plain_analysis self text.
Proof.
  intros Hl. unfold analyze, tokenize. destruct (with_text_analyzer_ok self cache (apply_char_filters self text) (fmap to_token) Hl) as (ta & _ & E).
  by rewrite E.
Qed.
Lemma analyze_query_plain self cache text : locals_ok self cache -> (analyze_query self cache text).2 = to_token <$> plain_query self text.
Proof.
  intros Hl. unfold analyze_query, tokenize.
  edestruct (with_text_analyzer_ok self cache (filter (fun c => canonical_char self c = true) (apply_char_filters self text)) (fmap to_token) Hl) as (ta & _ & E).
  by rewrite E.
Qed.
Lemma for_each_plain {A} self cache text (f : A -> str -> Z -> Z -> A) a :
  locals_ok self cache ->
  (for_each_token self cache text f a).2 = (fold_left (token_step f) (plain_analysis self text) (a, 0, 0%nat)).1.
Proof.
  intros Hl. unfold for_each_token.
  edestruct (with_text_analyzer_ok self cache (apply_char_filters self text) (fun tokens => (fold_left (token_step f) tokens (a, 0, 0%nat)).1) Hl) as (ta & _ & E).
  unfold with_text_analyzer in *. cbv zeta in *. revert E. set (cache' := if _ && _ then _ else _). set (base := default _ _).
  destruct (token_stream base _) as [ta' tokens]. intros E%(f_equal snd). cbn in E. unfold plain_analysis. rewrite <-E. by destruct (fold_left _ tokens _) as [[a' count] next].
Qed.

(** ** Threads *)

(** A process: the counter of the analyzers, those made so far, and each thread's copies. *)
Record System : Type := mkSystem { sy_next : Z; sy_made : list Analyzer; sy_threads : gmap Z Locals }.
Definition locals_of (s : System) (thread : Z) : Locals := default ∅ (sy_threads s !! thread).
Definition with_locals (s : System) (thread : Z) (cache : Locals) : System :=
  mkSystem (sy_next s) (sy_made s) (<[thread := cache]> (sy_threads s)).
Definition with_made (s : System) (made : Z * Analyzer) : System := mkSystem made.1 (sy_made s ++ [made.2]) (sy_threads s).

Inductive sys_step : System -> System -> Prop :=
| step_config s config : sys_step s (with_made s (from_config (sy_next s) config))
| step_symbols s symbols : sys_step s (with_made s (with_literal_symbols (sy_next s) symbols))
| step_analyze s thread self text :
    self ∈ sy_made s -> sys_step s (with_locals s thread (analyze self (locals_of s thread) text).1)
| step_query s thread self text :
    self ∈ sy_made s -> sys_step s (with_locals s thread (analyze_query self (locals_of s thread) text).1)
| step_for_each s thread self text (A : Type) (f : A -> str -> Z -> Z -> A) (a : A) :
    self ∈ sy_made s -> sys_step s (with_locals s thread (for_each_token self (locals_of s thread) text f a).1)
| step_names s thread self value :
    self ∈ sy_made s -> sys_step s (with_locals s thread (name_terms self (locals_of s thread) value).1).
Definition reachable (s : System) : Prop := rtc sys_step (mkSystem 0 [] ∅) s.

Definition thread_ok (made : list Analyzer) (cache : Locals) : Prop :=
  (size cache <= MAX_CACHED_ANALYZERS_PER_THREAD)%nat /\
  forall id ta, cache !! id = Some ta -> exists self, self ∈ made /\ an_id self = id /\ copy_ok self ta.
(** Every analyzer has the number it was made with. *)
Definition numbered (made : list Analyzer) : Prop := forall i self, made !! i = Some self -> an_id self = Z.of_nat i /\ made_ok self.

Lemma numbered_unique made self other :
  numbered made -> self ∈ made -> other ∈ made -> an_id self = an_id other -> self = other.
Proof.
  intros Hn [i Hi]%list_elem_of_lookup [j Hj]%list_elem_of_lookup E. destruct (Hn _ _ Hi) as [Hi' _], (Hn _ _ Hj) as [Hj' _].
  assert (i = j) as -> by lia. by simplify_eq.
Qed.
Lemma thread_locals_ok made cache self : numbered made -> thread_ok made cache -> self ∈ made -> locals_ok self cache.
Proof.
  intros Hn [_ Ht] Hs. split; [apply list_elem_of_lookup in Hs as [i Hi]; by destruct (Hn _ _ Hi)|].
  intros ta (other & Ho & E & Hc)%Ht. by rewrite (numbered_unique made self other Hn Hs Ho).
Qed.
Lemma thread_ok_insert made cache self ta :
  thread_ok made cache -> self ∈ made -> copy_ok self ta ->
  thread_ok made (<[an_id self := ta]>
    (if negb (bool_decide (is_Some (cache !! an_id self))) && (MAX_CACHED_ANALYZERS_PER_THREAD <=? size cache)%nat then ∅ else cache)).
Proof.
  intros [Hsize Ht] Hs Hc. set (cache' := if _ && _ then _ else _). split.
  - unfold cache'. case_bool_decide as Hin; cbn [negb andb].
    + rewrite map_size_insert_Some by done. done.
    + destruct (Nat.leb_spec MAX_CACHED_ANALYZERS_PER_THREAD (size cache)).
      * rewrite map_size_insert_None, map_size_empty by apply lookup_empty. unfold MAX_CACHED_ANALYZERS_PER_THREAD. lia.
      * rewrite map_size_insert_None by (by apply eq_None_not_Some). unfold MAX_CACHED_ANALYZERS_PER_THREAD in *. lia.
  - intros id ta' [[<- <-]|[Hne Hl]]%lookup_insert_Some; [by exists self|]. apply Ht. unfold cache' in Hl. destruct (_ && _); [|done].
    by rewrite lookup_empty in Hl.
Qed.
Lemma with_text_thread {R} made self cache text (g : list TokenT -> R) :
  numbered made -> thread_ok made cache -> self ∈ made ->
  thread_ok made (with_text_analyzer self cache (fun a => let '(a, tokens) := token_stream a text in (a, g tokens))).1.
Proof.
  intros Hn Ht Hs. destruct (with_text_analyzer_ok self cache text g (thread_locals_ok _ _ _ Hn Ht Hs)) as (ta & Hc & ->).
  by apply thread_ok_insert.
Qed.
Lemma for_each_thread {A} made self cache text (f : A -> str -> Z -> Z -> A) a :
  numbered made -> thread_ok made cache -> self ∈ made -> thread_ok made (for_each_token self cache text f a).1.
Proof.
  intros Hn Ht Hs. pose proof (with_text_thread made self cache (apply_char_filters self text) (fun _ => tt) Hn Ht Hs) as H.
  unfold for_each_token, with_text_analyzer in *. cbv zeta in *. revert H. set (cache' := if _ && _ then _ else _). set (base := default _ _).
  destruct (token_stream base _) as [ta tokens]. by destruct (fold_left _ tokens _) as [[? ?] ?].
Qed.
Lemma name_key_thread made self cache text :
  numbered made -> thread_ok made cache -> self ∈ made -> thread_ok made (name_key self cache text).1.
Proof.
  intros Hn Ht Hs. pose proof (for_each_thread made self cache text keep_word [] Hn Ht Hs) as H. unfold name_key.
  by destruct (for_each_token self cache text keep_word []) as [cache' [words count]].
Qed.
Lemma name_terms_thread made self cache value :
  numbered made -> thread_ok made cache -> self ∈ made -> thread_ok made (name_terms self cache value).1.
Proof.
  intros Hn Ht Hs. unfold name_terms. destruct (_ <? _); [done|]. pose proof (name_key_thread made self cache (trim value) Hn Ht Hs) as H.
  destruct (name_key self cache (trim value)) as [cache1 [key|]]; [|done]. cbn [fst] in H. clear Ht. generalize [NAME_KEY :: key] as terms.
  revert cache1 H. generalize (unqualified (trim value)) as heads. induction heads as [|head heads IH]; intros cache1 H terms; [done|]. cbn [fold_left].
  pose proof (name_key_thread made self cache1 head Hn H Hs) as H'. unfold term_step at 2.
  destruct (name_key self cache1 head) as [cache2 [key'|]]; by apply IH.
Qed.

Lemma stems_new stem n : cache_stems stem (StemCache_new (CachedStemmer_new n)).
Proof.
  unfold CachedStemmer_new, StemCache_new. split; [cbn [sc_capacity]; lia|]. split; [cbn [sc_stems]; rewrite map_size_empty; lia|apply map_Forall_empty].
Qed.
Lemma stemmer_ok a n : filter_ok (clone_filter (CachedStemmer_filter a n)).
Proof. apply stems_new. Qed.
Lemma config_made_ok n config : made_ok (from_config n config).2.
Proof.
  unfold made_ok, from_config, config_filters. cbn [snd an_analyzer ta_filters]. repeat apply Forall_app_2.
  - by case_bool_decide; repeat constructor.
  - by destruct (ac_lowercase config); repeat constructor.
  - by destruct (ac_ascii_folding config); repeat constructor.
  - destruct (ac_stopwords config) as [stop|]; [|constructor]. unfold stopword_filter.
    destruct stop as [lang|words]; [destruct (StopWordFilter_new lang)|]; by repeat constructor.
  - destruct (ac_stemming config); constructor; [apply stemmer_ok|constructor].
Qed.
Lemma symbols_made_ok n symbols : made_ok (with_literal_symbols n symbols).2.
Proof. unfold made_ok, with_literal_symbols. cbn [snd an_analyzer ta_filters]. do 3 (constructor; [done|]). constructor; [apply stemmer_ok|constructor]. Qed.

Record sys_inv (s : System) : Prop := {
  si_next : sy_next s = Z.of_nat (length (sy_made s));
  si_numbered : numbered (sy_made s);
  si_threads : forall thread, thread_ok (sy_made s) (locals_of s thread)
}.

Lemma sys_inv_made s made :
  sys_inv s -> Z.of_nat (length (sy_made s)) + 1 < 2 ^ 64 -> made.1 = wrap 64 (sy_next s + 1) -> an_id made.2 = sy_next s -> made_ok made.2 ->
  sys_inv (with_made s made).
Proof.
  intros [Hn Hnum Ht] Hb E1 E2 Hm. split; cbn [with_made sy_next sy_made sy_threads].
  - rewrite E1, Hn. unfold wrap. rewrite Z.mod_small by lia. rewrite length_app. cbn. lia.
  - intros i self [Hi|[Hi Hl]]%lookup_app_Some; [by apply Hnum|]. destruct (i - length (sy_made s))%nat eqn:E; [|done]. injection Hl as <-.
    split; [|done]. rewrite E2, Hn. lia.
  - intros thread. destruct (Ht thread) as [H1 H2]. split; [done|]. intros id ta (self & Hs & ? & ?)%H2. exists self. split; [|done].
    apply elem_of_app. by left.
Qed.
Lemma sys_inv_locals s thread cache : sys_inv s -> thread_ok (sy_made s) cache -> sys_inv (with_locals s thread cache).
Proof.
  intros [Hn Hnum Ht] Hc. split; [done|done|]. intros thread'. unfold locals_of, with_locals. cbn [sy_threads sy_made].
  destruct (decide (thread' = thread)) as [->|Hne]; [by rewrite lookup_insert_eq|]. rewrite lookup_insert_ne by done. apply Ht.
Qed.
Lemma step_made s s' : sys_step s s' -> (length (sy_made s) <= length (sy_made s'))%nat.
Proof. destruct 1; cbn; rewrite ?length_app; lia. Qed.
Lemma step_inv s s' : sys_step s s' -> Z.of_nat (length (sy_made s')) < 2 ^ 64 -> sys_inv s -> sys_inv s'.
Proof.
  intros Hstep Hb Hi. pose proof (si_numbered _ Hi) as Hn. pose proof (si_threads _ Hi) as Ht. destruct Hstep.
  1,2: cbn [with_made sy_made] in Hb; rewrite length_app in Hb; cbn [length] in Hb; apply sys_inv_made;
    [done|lia|done|done|apply config_made_ok || apply symbols_made_ok].
  - apply sys_inv_locals; [done|]. by apply with_text_thread.
  - apply sys_inv_locals; [done|]. by apply with_text_thread.
  - apply sys_inv_locals; [done|]. by apply for_each_thread.
  - apply sys_inv_locals; [done|]. by apply name_terms_thread.
Qed.
Lemma reachable_inv s : reachable s -> Z.of_nat (length (sy_made s)) < 2 ^ 64 -> sys_inv s.
Proof.
  unfold reachable. apply (rtc_ind_r (fun s => Z.of_nat (length (sy_made s)) < 2 ^ 64 -> sys_inv s)).
  - intros _. split; [done|done|]. intros thread. unfold locals_of. cbn [sy_threads]. rewrite lookup_empty. cbn [default].
    split; [rewrite map_size_empty; lia|]. intros id ta Hl. by rewrite lookup_empty in Hl.
  - intros s1 s2 _ Hstep IH Hb. pose proof (step_made _ _ Hstep). eapply step_inv; [done|done|]. apply IH. lia.
Qed.

(** C21: neither the copies of the analyzers a thread keeps nor their stem caches show: after any
    course of making analyzers and analysing texts on any threads, an analyzer reads the same of a
    text on every thread, every word stemmed anew; and no thread keeps more than 64 analyzers. *)
Theorem analysis_transparent (s : System) (thread : Z) (self : Analyzer) (text : str) :
  reachable s -> Z.of_nat (length (sy_made s)) < 2 ^ 64 -> self ∈ sy_made s ->
  (size (locals_of s thread) <= MAX_CACHED_ANALYZERS_PER_THREAD)%nat /\
  (analyze self (locals_of s thread) text).2 = to_token <$> plain_analysis self text /\
  (analyze_query self (locals_of s thread) text).2 = to_token <$> plain_query self text /\
  (forall (A : Type) (f : A -> str -> Z -> Z -> A) (a : A),
    (for_each_token self (locals_of s thread) text f a).2 = (fold_left (token_step f) (plain_analysis self text) (a, 0, 0%nat)).1).
Proof.
  intros Hr Hb Hs. destruct (reachable_inv s Hr Hb) as [_ Hn Ht]. specialize (Ht thread). pose proof (thread_locals_ok _ _ _ Hn Ht Hs) as Hl.
  split_and!; [apply Ht|by apply analyze_plain|by apply analyze_query_plain|]. intros A f a. by apply for_each_plain.
Qed.

(** ** Names *)

Definition name_words (self : Analyzer) (text : str) : list (Z * str) :=
  (fold_left (token_step keep_word) (plain_analysis self text) ([], 0, 0%nat)).1.1.
(** The words, each with whether a gap comes before it. *)
Fixpoint gaps (next : Z) (words : list (Z * str)) : list (bool * str) :=
  match words with [] => [] | (p, w) :: words => (next <? p, w) :: gaps (wrap 32 (p + 1)) words end.
Definition first_place (text : str) (words : list (Z * str)) : Z :=
  match words with (p, _) :: _ => if (p =? 1) && leading_article text then 1 else 0 | [] => 0 end.
Definition name_gaps (self : Analyzer) (text : str) : list (bool * str) :=
  let words := name_words self text in gaps (first_place text words) words.
Definition spell (e : bool * str) : list str := if e.1 then [lit "_"; e.2] else [e.2].

Lemma key_fold words key next :
  (fold_left key_step words (key, next)).1 = key ++ concat ((fun w => w ++ [32]) <$> (gaps next words ≫= spell)).
Proof.
  revert key next. induction words as [|[p w] words IH]; intros key next; [cbn; by rewrite app_nil_r|]. cbn [fold_left gaps mbind list_bind].
  unfold key_step at 2. cbn [fst snd]. rewrite IH. unfold spell at 2. cbn [fst snd]. rewrite fmap_app, concat_app. destruct (next <? p); cbn [fmap list_fmap concat app];
    rewrite <-!app_assoc; done.
Qed.
Lemma pop_join ws : ws <> [] -> pop (concat ((fun w => w ++ [32]) <$> ws)) = join [32] ws.
Proof.
  intros Hne. assert (E : concat ((fun w => w ++ [32]) <$> ws) = join [32] ws ++ [32]).
  { induction ws as [|w ws IH]; [done|]. destruct ws as [|w' ws]; [cbn; by rewrite app_nil_r|]. rewrite fmap_cons. cbn [concat]. rewrite IH by done.
    change (join [32] (w :: w' :: ws)) with (w ++ [32] ++ join [32] (w' :: ws)). by rewrite <-!app_assoc. }
  rewrite E. unfold pop. rewrite length_app. cbn [length]. rewrite Nat.add_sub. apply take_app_length.
Qed.
Lemma gaps_nonempty next words : words <> [] -> (gaps next words ≫= spell) <> [].
Proof. destruct words as [|[p w] words]; [done|]. intros _. cbn. unfold spell at 1. by destruct (_ <? _). Qed.

Lemma name_key_spec self cache text :
  locals_ok self cache ->
  (name_key self cache text).2 =
    let words := name_words self text in
    if bool_decide (words = [] \/ (MAX_NAME_WORDS < length words)%nat) then None else Some (join [32] (name_gaps self text ≫= spell)).
Proof.
  intros Hl. pose proof (for_each_plain self cache text keep_word [] Hl) as E. unfold name_key, name_gaps, name_words. cbv zeta. revert E.
  destruct (for_each_token self cache text keep_word []) as [cache' [words count]]. cbn [snd]. intros <-. cbn [fst]. unfold key_of.
  destruct words as [|[p w] words]; [by rewrite bool_decide_eq_true_2 by (by left)|]. destruct (Nat.ltb_spec MAX_NAME_WORDS (length ((p, w) :: words))).
  - by rewrite bool_decide_eq_true_2 by (by right).
  - rewrite bool_decide_eq_false_2 by (intros [?|?]; [done|lia]). rewrite key_fold. cbn [app]. rewrite pop_join; [done|]. by apply gaps_nonempty.
Qed.

(** Words that a key can be read back from. *)
Definition plain_word (w : str) : Prop := (32 ∉ w) /\ (w <> lit "_").
Lemma split_join ws : ws <> [] -> Forall (fun w => 32 ∉ w) ws -> split_on (fun c => c =? 32) (join [32] ws) = ws.
Proof.
  intros Hne Hw. induction Hw as [|w ws Hw Hws IH]; [done|]. clear Hne. assert (Hs : forall rest,
    split_on (fun c => c =? 32) (w ++ rest) = match split_on (fun c => c =? 32) rest with u :: us => (w ++ u) :: us | [] => [w] end).
  { intros rest. clear IH Hws. assert (Hn : forall s, split_on (fun c => c =? 32) s <> []).
    { intros s. destruct s as [|c s]; cbn; [done|]. destruct (c =? 32); [done|]. by destruct (split_on _ s). }
    induction w as [|c w IHw]; cbn [app]; [destruct (split_on _ rest) eqn:E; [by apply Hn in E|done]|].
    apply not_elem_of_cons in Hw as [Hc Hw]. cbn [split_on]. destruct (Z.eqb_spec c 32); [congruence|]. rewrite IHw by done.
    destruct (split_on _ rest) eqn:E; [by apply Hn in E|done]. }
  destruct ws as [|w' ws].
  - cbn [join]. rewrite <-(app_nil_r w) at 1. rewrite Hs. cbn. by rewrite app_nil_r.
  - change (join [32] (w :: w' :: ws)) with (w ++ 32 :: join [32] (w' :: ws)). rewrite Hs. cbn [split_on]. rewrite Z.eqb_refl, app_nil_r.
    by rewrite IH.
Qed.
Lemma spell_inj l l' :
  Forall plain_word l.*2 -> Forall plain_word l'.*2 -> l ≫= spell = l' ≫= spell -> l = l'.
Proof.
  revert l'. induction l as [|[g w] l IH]; intros l' Hw Hw' E.
  - destruct l' as [|[g' w'] l']; [done|]. cbn in E. unfold spell in E at 1. by destruct g'.
  - destruct l' as [|[g' w'] l']; [cbn in E; unfold spell in E at 1; by destruct g|].
    rewrite fmap_cons in Hw, Hw'. apply Forall_cons in Hw as [[Hc Hn] Hw], Hw' as [[Hc' Hn'] Hw']. cbn in Hn, Hn'.
    cbn [mbind list_bind] in E. unfold spell in E at 1 3. destruct g, g'; cbn [fst snd app] in E; injection E as E1 E; subst; try done;
      f_equal; by apply IH.
Qed.

Lemma name_words_sorted self text : StronglySorted Z.lt (name_words self text).*1.
Proof.
  unfold name_words. generalize (plain_analysis self text) as tokens. intros tokens.
  assert (H : forall tokens words count next, StronglySorted Z.lt words.*1 ->
    StronglySorted Z.lt (fold_left (token_step keep_word) tokens (words, count, next)).1.1.*1); [|apply H; constructor].
  clear. induction tokens as [|t tokens IH]; intros words count next Hs; [done|]. cbn [fold_left]. unfold token_step at 2.
  set (words' := keep_word _ _ _ _). assert (Hs' : StronglySorted Z.lt words'.*1); [|by destruct (_ <=? _)%nat; apply IH].
  unfold words', keep_word. destruct (_ =? 1); [|done]. cbn [andb]. destruct (last words) as [[p w]|] eqn:El.
  - destruct (Z.ltb_spec p (wrap 32 (Z.of_nat (tt_position t)))); [|done]. rewrite fmap_app. apply last_Some in El as [init ->].
    rewrite fmap_app in *. cbn in *. apply StronglySorted_app in Hs as (H1 & Hi & _).
    apply StronglySorted_app. split_and!; [|apply StronglySorted_app; split_and!; [|done|by repeat constructor]|by repeat constructor].
    + intros x y Hx ->%list_elem_of_singleton. apply elem_of_app in Hx as [Hx| ->%list_elem_of_singleton]; [|done].
      specialize (H1 x p Hx ltac:(left)). lia.
    + intros x y Hx Hy. by apply H1.
  - apply last_None in El as ->. repeat constructor.
Qed.
Lemma gaps_words next words : (gaps next words).*2 = words.*2.
Proof. revert next. induction words as [|[p w] words IH]; intros next; [done|]. cbn. by rewrite IH. Qed.

End transparent.

(** ** A small alphabet *)

(** The ASCII characters, and a stemmer that drops a final "s". *)
Definition ascii_upper (c : Z) : bool := (65 <=? c) && (c <=? 90).
Definition ascii_lower (c : Z) : bool := (97 <=? c) && (c <=? 122).
Definition ascii_classes : CharClasses := {|
  is_alphanumeric c := ascii_upper c || ascii_lower c || ((48 <=? c) && (c <=? 57));
  is_alphabetic c := ascii_upper c || ascii_lower c;
  is_lowercase := ascii_lower
|}.
Definition ascii_cases : CaseTables := {| to_lowercase := to_ascii_lowercase; is_uppercase := ascii_upper |}.
Definition drop_s (w : str) : str := if bool_decide (last w = Some 115) then take (length w - 1) w else w.
Definition whole_token (text : str) : list TokenT := [mkTokenT 0 (str_len text) 0 text 1].
Definition ascii_lib : TantivyLib := {|
  raw_tokenizer := whole_token;
  whitespace_tokenizer := whole_token;
  simple_tokenizer := whole_token;
  lower_caser := to_ascii_lowercase;
  ascii_folding w := w;
  long_keeps limit w := str_len w <? limit;
  StopWordFilter := gset str;
  StopWordFilter_new _ := None;
  StopWordFilter_remove words := words;
  stop_keeps words w := bool_decide (w ∉ words);
  stem_with _ := drop_s;
  Regex := unit;
  Regex_new _ := None;
  replace_all _ text _ := text
|}.

#[local] Existing Instances ascii_classes ascii_cases ascii_lib.

Lemma analysis_transparent_witness :
  let s1 := with_made (mkSystem 0 [] ∅) (with_literal_symbols 0 {[ 95 ]}) in
  let self := (with_literal_symbols 0 {[ 95 ]}).2 in
  let s2 := with_locals s1 7 (analyze self (locals_of s1 7) (lit "Spider-Mans")).1 in
  (at_text <$> (analyze self (locals_of s2 7) (lit "the Spider-Mans")).2) =
  lit <$> ["spider-man"; "spiderman"; "spider"; "man"]%string.
Proof.
  intros s1 self s2.
  destruct (analysis_transparent s2 7 self (lit "the Spider-Mans")) as (_ & -> & _).
  - eapply rtc_r; [apply rtc_once; apply (step_symbols (mkSystem 0 [] ∅) {[ 95 ]})|]. apply step_analyze. left.
  - vm_compute. reflexivity.
  - left.
  - vm_compute. reflexivity.
Defined.

