(* ===== verification/Planner.v ===== *)
(** * The ranking plan

    Models [crates/core-query/src/planner.rs]: the tiers of a ranking search, the places the
    configured order gives them, and the names a query may stand for: its name keys with the
    dictionary's forms ([name_keys], [written_forms]) and the runs of its words ([named_runs]).

    What the plan asks of the analyzer is the interface [Reading]; [reading_correct] shows that an
    analyzer answers it on every thread. The theorems show which keys a query is looked up by. *)
From Stdlib Require Import ZArith Lia.
From stdpp Require Import base numbers list sorting strings gmap.
From S2P Require Import Prelude Types Utf8 Fuzzy FuzzyRank Phrase Query Tokenizers Analyzers.
Local Open Scope Z_scope.

Definition MAX_ALL_BUT_ONE_WORDS : nat := 7.
Definition MAX_NAMED_QUERY_WORDS : nat := 32.
Definition MAX_NAME_KEYS : nat := 32.

Inductive TierKind : Type := KName | KExact | KPhrase | KFuzzy | KAll | KAllButOne | KAny.
#[global] Instance TierKind_eq_dec : EqDecision TierKind.
Proof. solve_decision. Defined.
Definition is_relevance_source (self : TierKind) : bool := match self with KName | KExact => false | _ => true end.
Definition DEFAULT_ORDER : list TierKind := [KName; KExact; KPhrase; KFuzzy; KAll; KAllButOne; KAny].

Inductive Tier : Type :=
| TName (keys : list str) (score_with : Query)
| TExact (q : Query)
| TPhrase (terms : list PhraseTerm) (score_with : Query)
| TAll (q : Query)
| TAllButOne (q : Query)
| TAny (q : Query)
| TFuzzy (q : Query).

Record TierRanks : Type := mkTierRanks { tr_name : Z; tr_exact : Z; tr_relevance : Z }.
(** The place of the first kind that satisfies [p], as a [u8]; [u8::MAX] when there is none. *)
Definition rank_place (p : TierKind -> bool) (order : list TierKind) : Z :=
  match list_find (fun kind => p kind = true) order with
  | Some (position, _) => if Z.of_nat position <=? u_max 8 then Z.of_nat position else u_max 8
  | None => u_max 8
  end.
Definition from_order (order : list TierKind) : TierRanks :=
  mkTierRanks (rank_place (fun kind => bool_decide (kind = KName)) order)
    (rank_place (fun kind => bool_decide (kind = KExact)) order) (rank_place is_relevance_source order).

Record RankPlan : Type := mkRankPlan {
  rp_tiers : list Tier;
  rp_stop_after : nat;
  rp_named_runs : list str;
  rp_words : list str;
  rp_ranks : TierRanks;
  rp_clauses : list Query;
  rp_terms : list PhraseTerm
}.
Definition RankPlan_default : RankPlan := mkRankPlan [] 0 [] [] (from_order DEFAULT_ORDER) [] [].
Definition is_fuzzy (tier : Tier) : bool := match tier with TFuzzy _ => true | _ => false end.
Definition without_fuzzy (self : RankPlan) : RankPlan :=
  mkRankPlan (filter (fun tier => is_fuzzy tier = false) (rp_tiers self)) (rp_stop_after self) (rp_named_runs self) (rp_words self)
    (rp_ranks self) (rp_clauses self) (rp_terms self).
Definition stopping_after (self : RankPlan) (results : nat) : RankPlan :=
  mkRankPlan (rp_tiers self) results (rp_named_runs self) (rp_words self) (rp_ranks self) (rp_clauses self) (rp_terms self).
Definition tier_query (tier : Tier) : Query :=
  match tier with
  | TExact q | TAll q | TAllButOne q | TAny q | TFuzzy q => q
  | TPhrase _ score_with | TName _ score_with => score_with
  end.
Definition queries (self : RankPlan) : list Query := tier_query <$> rp_tiers self.

Definition named_tier_limit (self : RankPlan) : Z :=
  let ranks := rp_ranks self in
  let named_first := forallb (fun tier => match tier with
    | TName _ _ => tr_name ranks <? tr_relevance ranks
    | TExact _ => tr_exact ranks <? tr_relevance ranks
    | _ => true
    end) (rp_tiers self) in
  if named_first then tr_relevance ranks else 0.

(** ** The forms of a query *)

(** The words of a phrase with an underscore for a gap. *)
Definition phrase_key_step (st : str * Z) (term : PhraseTerm) : str * Z :=
  let '(key, next) := st in
  ((if next <? pt_offset term then key ++ lit "_ " else key) ++ pt_text term ++ [32], wrap 32 (pt_offset term + 1)).
Definition phrase_key (terms : list PhraseTerm) : str := pop (fold_left phrase_key_step terms ([], 0)).1.

(** [out.push] of one written form, unless it is there or the list is full (where the loops
    return). *)
Definition push_form (out : list str) (written : str) : list str :=
  if (MAX_NAME_KEYS <=? length out)%nat then out
  else if bool_decide (written ∈ out) then out else out ++ [written].
Definition add_word (head form : str) : str := match head with [] => form | _ => head ++ [32] ++ form end.
(** The inner loop over the forms, up to the [break]. *)
Fixpoint extend_head (next : list str) (head : str) (forms : list str) : list str :=
  match forms with
  | [] => next
  | form :: forms => if (MAX_NAME_KEYS <=? length next)%nat then next else extend_head (next ++ [add_word head form]) head forms
  end.
Definition extend (out forms : list str) : list str := fold_left (fun next head => extend_head next head forms) out [].

Fixpoint written_forms (query : Query) : list str :=
  match query with
  | QTerm term => [term]
  | QPhrase terms => [phrase_key terms]
  | QExact _ => []
  | QSynonym forms =>
    (fix go (forms : list (Alternative Query)) (out : list str) : list str :=
      match forms with [] => out | form :: forms => go forms (fold_left push_form (written_forms (alt_query form)) out) end) forms []
  | QAnd parts =>
    (fix go (parts : list Query) (out : list str) : list str :=
      match parts with
      | [] => out
      | part :: parts => match written_forms part with [] => [] | forms => go parts (extend out forms) end
      end) parts [[]]
  | _ => []
  end.

(** ** What the plan asks of the analyzer *)

Record Reading : Type := mkReading {
  rd_name_key : str -> option str;
  (** The words [for_each_token] gives the callback of [named_runs]. *)
  rd_words : str -> list (Z * str);
  rd_query : str -> list Token
}.

Section plan.
Context `{CaseTables} (analyzer : Reading).

Definition push_key (keys : list str) (key : str) : list str :=
  if (MAX_NAME_KEYS <=? length keys)%nat then keys
  else if bool_decide (key = []) || bool_decide (key ∈ keys) then keys else keys ++ [key].
Definition name_keys (raw : str) (resolved : Query) : list str :=
  let keys := match rd_name_key analyzer raw with Some typed => [typed] | None => [] end in
  if match keys with typed :: _ => bool_decide (95 ∈ typed) | [] => false end then keys
  else fold_left push_key (written_forms resolved) keys.

(** [start..end] for every run of at most [MAX_NAME_WORDS] of [n] words. *)
Definition word_runs (n : nat) : list (nat * nat) :=
  seq 0 n ≫= fun start => (fun end_ => (start, end_)) <$> seq (start + 1) (Nat.min n (start + MAX_NAME_WORDS) - start).
Definition run_key (typed : list str) (run : nat * nat) : option str :=
  rd_name_key analyzer (join [32] (take (run.2 - run.1) (drop run.1 typed))).
(** [seen] and [keys] have the same elements. *)
Definition push_run (keys : list str) (key : str) : list str := if bool_decide (key ∈ keys) then keys else keys ++ [key].
Definition named_runs (raw : str) : list str * list str :=
  let typed := split_whitespace raw in
  if (MAX_NAMED_QUERY_WORDS <? length typed)%nat then ([], [])
  else (fold_left push_run (omap (run_key typed) (word_runs (length typed))) [], (rd_words analyzer raw).*2).

Definition terms_from_text (raw : str) : list PhraseTerm := phrase_terms (rd_query analyzer raw).

(** ** The cascade *)

Definition tier_of (raw : str) (resolved : Query) (has_exact_field : bool) (parts : list Query) (kind : TierKind) : option Tier :=
  match kind with
  | KName =>
    if has_exact_field then
      match name_keys raw resolved with [] => None | keys => Some (TName keys resolved) end
    else None
  | KExact =>
    if has_exact_field && negb (bool_decide (trim raw = [])) then Some (TExact (QExact (to_lowercase (trim raw)))) else None
  | KPhrase =>
    if (2 <=? length parts)%nat then
      let terms := terms_from_text raw in
      if (2 <=? length terms)%nat then Some (TPhrase terms resolved) else None
    else None
  | KFuzzy => Some (TFuzzy (QFuzzy (trim raw) FAuto (mkFuzzySpec DEFAULT_PREFIX_LENGTH DEFAULT_MAX_EXPANSIONS)))
  | KAll => Some (TAll resolved)
  | KAllButOne =>
    if (3 <=? length parts)%nat && (length parts <=? MAX_ALL_BUT_ONE_WORDS)%nat then Some (TAllButOne (QWand parts)) else None
  | KAny => if (2 <=? length parts)%nat then Some (TAny (QWand parts)) else None
  end.
Definition clauses_of (resolved : Query) : list Query :=
  match resolved with
  | QAnd parts | QWand parts | QOr parts => parts
  | QTerm _ | QPhrase _ | QSynonym _ | QExact _ => [resolved]
  | _ => []
  end.
Definition cascade (raw : str) (resolved : Query) (has_exact_field : bool) (order : list TierKind) : RankPlan :=
  match resolved with
  | QMatchAll => RankPlan_default
  | _ =>
    let parts := match resolved with QAnd parts => parts | _ => [] end in
    let '(runs, words) := if has_exact_field then named_runs raw else ([], []) in
    mkRankPlan (omap (tier_of raw resolved has_exact_field parts) order) 0 runs words (from_order order)
      (clauses_of resolved) (terms_from_text raw)
  end.
End plan.

(** ** The analyzer as the plan sees it *)

Section reading.
Context {CC : CharClasses} {CT : CaseTables} {TL : TantivyLib}.

Definition reading (self : Analyzer) : Reading :=
  mkReading (fun text => key_of text (name_words self text)) (name_words self)
    (fun text => (fun t => mkToken (tt_text t) (wrap 32 (Z.of_nat (tt_position t)))) <$> plain_query self text).

(** On every thread whose copies are sound an analyzer reads what the plan takes it to read. *)
Lemma reading_correct (self : Analyzer) (cache : gmap Z TextAnalyzer) text :
  locals_ok self cache ->
  (name_key self cache text).2 = rd_name_key (reading self) text /\
  (for_each_token self cache text keep_word []).2.1 = rd_words (reading self) text /\
  (fun t => mkToken (at_text t) (at_position t)) <$> (analyze_query self cache text).2 = rd_query (reading self) text.
Proof.
  intros Hl. pose proof (for_each_plain self cache text keep_word [] Hl) as E. split_and!.
  - unfold name_key. revert E. destruct (for_each_token self cache text keep_word []) as [cache' [words count]]. cbn. intros E.
    unfold name_words. by rewrite <-E.
  - by rewrite E.
  - rewrite analyze_query_plain by done. by rewrite <-list_fmap_compose.
Qed.
End reading.

(** ** The forms a query is written in *)

(** The word sequences a query matches as a whole. *)
Inductive writes : Query -> str -> Prop :=
| writes_term t : writes (QTerm t) t
| writes_phrase ts : writes (QPhrase ts) (phrase_key ts)
| writes_synonym fs f w : f ∈ fs -> writes (alt_query f) w -> writes (QSynonym fs) w
| writes_and ps ws : Forall2 writes ps ws -> writes (QAnd ps) (fold_left add_word ws []).

(** How many there are, counted with repetition. *)
Fixpoint form_count (q : Query) : nat :=
  match q with
  | QTerm _ | QPhrase _ => 1
  | QSynonym fs => sum_list ((fun f => form_count (alt_query f)) <$> fs)
  | QAnd ps => foldr (fun q n => form_count q * n)%nat 1%nat ps
  | _ => 0
  end.

Lemma push_forms_spec ws out w :
  w ∈ fold_left push_form ws out -> w ∈ out \/ w ∈ ws.
Proof.
  revert out. induction ws as [|v ws IH]; intros out Hw; [by left|]. cbn [fold_left] in Hw. apply IH in Hw as [Hw|Hw]; [|right; by right].
  unfold push_form in Hw. destruct (_ <=? _)%nat; [by left|]. case_bool_decide; [by left|].
  apply elem_of_app in Hw as [Hw| ->%list_elem_of_singleton]; [by left|right; left].
Qed.
Lemma push_forms_length ws out :
  (length out <= MAX_NAME_KEYS)%nat ->
  (length (fold_left push_form ws out) <= MAX_NAME_KEYS)%nat /\ (length (fold_left push_form ws out) <= length out + length ws)%nat.
Proof.
  revert out. induction ws as [|v ws IH]; intros out Ho; [cbn; lia|]. cbn [fold_left]. unfold push_form at 2 4. cbn [length].
  destruct (Nat.leb_spec MAX_NAME_KEYS (length out)); [specialize (IH out Ho); lia|]. case_bool_decide; [specialize (IH out Ho); lia|].
  specialize (IH (out ++ [v])). rewrite length_app in IH. cbn [length] in IH. lia.
Qed.
Lemma push_forms_complete ws out w :
  (length out + length ws <= MAX_NAME_KEYS)%nat -> w ∈ out \/ w ∈ ws -> w ∈ fold_left push_form ws out.
Proof.
  revert out. induction ws as [|v ws IH]; intros out Hl [Hw|Hw]; [done|by apply elem_of_nil in Hw|..]; cbn [fold_left length] in *;
    unfold push_form at 2; (destruct (Nat.leb_spec MAX_NAME_KEYS (length out)); [lia|]); case_bool_decide as Hin.
  - apply IH; [lia|by left].
  - apply IH; [rewrite length_app; cbn [length]; lia|]. left. apply elem_of_app. by left.
  - apply IH; [lia|]. apply elem_of_cons in Hw as [->|Hw]; [by left|by right].
  - apply IH; [rewrite length_app; cbn [length]; lia|]. apply elem_of_cons in Hw as [->|Hw]; [left; apply elem_of_app; right; left|by right].
Qed.

Lemma extend_head_take next head forms :
  extend_head next head forms = next ++ take (MAX_NAME_KEYS - length next) (add_word head <$> forms).
Proof.
  revert next. induction forms as [|form forms IH]; intros next; cbn [extend_head fmap list_fmap]; [by rewrite take_nil, app_nil_r|].
  destruct (Nat.leb_spec MAX_NAME_KEYS (length next)).
  - replace (MAX_NAME_KEYS - length next)%nat with 0%nat by lia. by rewrite app_nil_r.
  - rewrite IH. replace (MAX_NAME_KEYS - length next)%nat with (S (MAX_NAME_KEYS - length (next ++ [add_word head form])))
      by (rewrite length_app; cbn [length]; lia). cbn [take]. by rewrite <-app_assoc.
Qed.
(** The first 32 ways of going on. *)
Lemma extend_take out forms : extend out forms = take MAX_NAME_KEYS (out ≫= fun head => add_word head <$> forms).
Proof.
  unfold extend. assert (H : forall out next, (length next <= MAX_NAME_KEYS)%nat ->
    fold_left (fun next head => extend_head next head forms) out next =
    next ++ take (MAX_NAME_KEYS - length next) (out ≫= fun head => add_word head <$> forms)).
  { clear out. induction out as [|head out IH]; intros next Hn; cbn [fold_left mbind list_bind]; [by rewrite take_nil, app_nil_r|].
    rewrite extend_head_take, IH; [|rewrite length_app, length_take; lia]. rewrite <-app_assoc. f_equal. rewrite take_app, length_app, length_take.
    f_equal. f_equal. lia. }
  rewrite H by (cbn; lia). cbn [app length]. by rewrite Nat.sub_0_r.
Qed.

(** The loops of [written_forms], by name. *)
Definition synonym_forms : list (Alternative Query) -> list str -> list str :=
  fix go forms out := match forms with [] => out | form :: forms => go forms (fold_left push_form (written_forms (alt_query form)) out) end.
Definition and_forms : list Query -> list str -> list str :=
  fix go parts out :=
    match parts with
    | [] => out
    | part :: parts => match written_forms part with [] => [] | forms => go parts (extend out forms) end
    end.

Lemma written_forms_length q : (length (written_forms q) <= MAX_NAME_KEYS)%nat /\ (length (written_forms q) <= form_count q)%nat.
Proof.
  unfold MAX_NAME_KEYS. induction q as [v|v|v|ps IH|ps IH|ps IH|ts|v|v f s|fs IH|r|ps IH|c|] using Query_rect'; try (cbn; lia).
  - change (written_forms (QAnd ps)) with (and_forms ps [[]]).
    assert (H : forall out, (length out <= 32)%nat -> (length (and_forms ps out) <= 32)%nat /\
      (length (and_forms ps out) <= length out * foldr (fun q n => form_count q * n) 1 ps)%nat).
    { induction IH as [|p ps [Hp Hp'] _ IHps]; intros out Ho; [cbn; lia|]. cbn [and_forms foldr].
      destruct (written_forms p) as [|w ws] eqn:E; [cbn; lia|]. rewrite <-E. rewrite <-E in Hp'.
      destruct (IHps (extend out (written_forms p))) as [H1 H2]; [rewrite extend_take, length_take; unfold MAX_NAME_KEYS; lia|]. split; [done|].
      etrans; [exact H2|]. rewrite extend_take, length_take.
      assert (Hlen : length (out ≫= fun head => add_word head <$> written_forms p) = (length out * length (written_forms p))%nat).
      { clear. induction out as [|h out IH]; [done|]. cbn [mbind list_bind]. rewrite length_app, length_fmap, IH. cbn. lia. }
      rewrite Hlen. rewrite Nat.mul_assoc. apply Nat.mul_le_mono_r. nia. }
    destruct (H [[]]) as [H1 H2]; [cbn; lia|]. cbn [length] in H2. cbn [form_count]. lia.
  - change (written_forms (QSynonym fs)) with (synonym_forms fs []).
    assert (H : forall out, (length out <= 32)%nat -> (length (synonym_forms fs out) <= 32)%nat /\
      (length (synonym_forms fs out) <= length out + sum_list ((fun f => form_count (alt_query f)) <$> fs))%nat).
    { induction IH as [|f fs [Hf Hf'] _ IHfs]; intros out Ho; [cbn; lia|]. cbn [synonym_forms fmap list_fmap sum_list].
      destruct (push_forms_length (written_forms (alt_query f)) out Ho) as [H1 H2]. destruct (IHfs _ H1) as [H3 H4]. split; [done|]. etrans; [exact H4|]. cbn. unfold id. lia. }
    destruct (H []) as [H1 H2]; [cbn; lia|]. cbn [length] in H2. cbn [form_count]. lia.
Qed.

Lemma synonym_forms_sound fs out w :
  w ∈ synonym_forms fs out -> w ∈ out \/ exists f, f ∈ fs /\ w ∈ written_forms (alt_query f).
Proof.
  revert out. induction fs as [|f fs IH]; intros out Hw; [by left|]. cbn [synonym_forms] in Hw. apply IH in Hw as [Hw|(g & Hg & Hw)].
  - apply push_forms_spec in Hw as [Hw|Hw]; [by left|]. right. exists f. split; [left|done].
  - right. exists g. split; [by right|done].
Qed.
Lemma synonym_forms_complete fs out w :
  (length out + sum_list ((fun f => form_count (alt_query f)) <$> fs) <= MAX_NAME_KEYS)%nat ->
  w ∈ out \/ (exists f, f ∈ fs /\ w ∈ written_forms (alt_query f)) -> w ∈ synonym_forms fs out.
Proof.
  revert out. induction fs as [|f fs IH]; intros out Hl Hw; [destruct Hw as [Hw|(f & Hf & _)]; [done|by apply elem_of_nil in Hf]|].
  cbn [synonym_forms]. rewrite fmap_cons in Hl. change (sum_list (?x :: ?l)) with (x + sum_list l)%nat in Hl.
  destruct (written_forms_length (alt_query f)) as [_ Hf]. apply IH.
  - destruct (push_forms_length (written_forms (alt_query f)) out); lia.
  - destruct Hw as [Hw|(g & [->|Hg]%elem_of_cons & Hw)].
    + left. apply push_forms_complete; [lia|by left].
    + left. apply push_forms_complete; [lia|by right].
    + right. by exists g.
Qed.

Lemma extend_elem out forms w : w ∈ extend out forms -> exists h f, h ∈ out /\ f ∈ forms /\ w = add_word h f.
Proof.
  rewrite extend_take. intros Hw. apply elem_of_take in Hw as (i & Hi & _). apply list_elem_of_lookup_2 in Hi.
  apply list_elem_of_bind in Hi as (h & Hi & Hh). apply list_elem_of_fmap in Hi as (f & -> & Hf). by exists h, f.
Qed.
Lemma and_forms_sound ps out w :
  w ∈ and_forms ps out -> exists h ws, h ∈ out /\ Forall2 (fun p v => v ∈ written_forms p) ps ws /\ w = fold_left add_word ws h.
Proof.
  revert out. induction ps as [|p ps IH]; intros out Hw; [by exists w, []|]. cbn [and_forms] in Hw.
  destruct (written_forms p) as [|v vs] eqn:E; [by apply elem_of_nil in Hw|]. rewrite <-E in Hw.
  apply IH in Hw as (h' & ws & (h & f & Hh & Hf & ->)%extend_elem & Hws & ->). exists h, (f :: ws). split_and!; [done|by constructor|done].
Qed.
Lemma and_forms_complete ps out h ws :
  (length out * foldr (fun q n => form_count q * n) 1 ps <= MAX_NAME_KEYS)%nat -> h ∈ out ->
  Forall2 (fun p v => v ∈ written_forms p) ps ws -> fold_left add_word ws h ∈ and_forms ps out.
Proof.
  intros Hl Hh Hw. revert out h Hl Hh. induction Hw as [|p v ps ws Hv Hw IH]; intros out h Hl Hh; [done|]. cbn [and_forms fold_left].
  destruct (written_forms p) as [|u us] eqn:E; [by apply elem_of_nil in Hv|]. rewrite <-E in *. cbn [foldr] in Hl.
  destruct (written_forms_length p) as [_ Hp].
  assert (Hlen : length (out ≫= fun head => add_word head <$> written_forms p) = (length out * length (written_forms p))%nat).
  { clear. induction out as [|o out IHo]; [done|]. cbn [mbind list_bind]. rewrite length_app, length_fmap, IHo. cbn. lia. }
  assert (Hrest : (1 <= foldr (fun q n => form_count q * n) 1 ps)%nat).
  { clear -Hw. induction Hw as [|q w ps ws Hq Hw IHw]; [done|]. cbn [foldr]. destruct (written_forms_length q) as [_ Hlen].
    assert (0 < length (written_forms q))%nat by (destruct (written_forms q); [by apply elem_of_nil in Hq|cbn; lia]). nia. }
  assert (Hfit : (length out * length (written_forms p) <= MAX_NAME_KEYS)%nat).
  { etrans; [|exact Hl]. rewrite Nat.mul_assoc. etrans; [|apply Nat.mul_le_mono_l, Hrest]. rewrite Nat.mul_1_r. by apply Nat.mul_le_mono_l. }
  assert (Hext : extend out (written_forms p) = out ≫= fun head => add_word head <$> written_forms p).
  { rewrite extend_take. apply take_ge. lia. }
  apply IH.
  - rewrite Hext, Hlen. etrans; [|exact Hl]. rewrite Nat.mul_assoc. apply Nat.mul_le_mono_r. by apply Nat.mul_le_mono_l.
  - rewrite Hext. apply list_elem_of_bind. exists h. split; [|done]. apply list_elem_of_fmap. by exists v.
Qed.

Lemma written_forms_sound q w : w ∈ written_forms q -> writes q w.
Proof.
  revert w. induction q as [v|v|v|ps IH|ps IH|ps IH|ts|v|v f s|fs IH|r|ps IH|c|] using Query_rect'; intros w Hw; try by apply elem_of_nil in Hw.
  - apply list_elem_of_singleton in Hw as ->. constructor.
  - change (w ∈ and_forms ps [[]]) in Hw. apply and_forms_sound in Hw as (h & ws & ->%list_elem_of_singleton & Hws & ->). constructor.
    revert IH. induction Hws as [|p v ps ws Hv Hws IHws]; intros IH; [constructor|]. apply Forall_cons in IH as [Hp IH]. constructor; auto.
  - apply list_elem_of_singleton in Hw as ->. constructor.
  - change (w ∈ synonym_forms fs []) in Hw. apply synonym_forms_sound in Hw as [Hw|(f & Hf & Hw)]; [by apply elem_of_nil in Hw|].
    apply (writes_synonym fs f w Hf). rewrite Forall_forall in IH. by apply IH.
Qed.
Lemma written_forms_complete q w : (form_count q <= MAX_NAME_KEYS)%nat -> writes q w -> w ∈ written_forms q.
Proof.
  revert w. induction q as [v|v|v|ps IH|ps IH|ps IH|ts|v|v f s|fs IH|r|ps IH|c|] using Query_rect'; intros w Hc Hw; inversion Hw; subst; try left.
  - change (fold_left add_word ws [] ∈ and_forms ps [[]]). apply and_forms_complete; [cbn [length form_count] in *; lia|left|].
    assert (Hps : Forall (fun p => form_count p <= MAX_NAME_KEYS)%nat ps \/ foldr (fun q n => form_count q * n)%nat 1%nat ps = 0%nat).
    { cbn [form_count] in Hc. clear -Hc. revert Hc. generalize MAX_NAME_KEYS as k. intros k. induction ps as [|p ps IHp]; intros Hc; [by left|]. cbn [foldr] in *.
      destruct (decide (foldr (fun q n => form_count q * n)%nat 1%nat ps = 0%nat)) as [Hz|Hz]; [right; rewrite Hz; lia|].
      destruct (decide (form_count p = 0%nat)) as [Hp|Hp]; [right; rewrite Hp; lia|].
      destruct IHp as [IHp|IHp]; [nia| |done]. left. constructor; [nia|done]. }
    destruct Hps as [Hps|Hz].
    + match goal with H : Forall2 writes _ _ |- _ => revert IH Hps; clear -H; induction H as [|p v ps ws Hv Hws IHws] end; intros IH Hps; [constructor|].
      apply Forall_cons in IH as [Hp IH], Hps as [Hps' Hps]. constructor; auto.
    + exfalso. match goal with H : Forall2 writes _ _ |- _ => revert IH Hz; clear -H; induction H as [|p v ps ws Hv Hws IHws] end; intros IH Hz; [done|].
      apply Forall_cons in IH as [Hp IH]. cbn [foldr] in Hz. apply Nat.mul_eq_0 in Hz as [Hz|Hz]; [|by apply IHws].
      assert (Hin : v ∈ written_forms p) by (apply Hp; [lia|done]). destruct (written_forms_length p) as [_ Hl].
      destruct (written_forms p); [by apply elem_of_nil in Hin|cbn in Hl; lia].
  - change (w ∈ synonym_forms fs []). match goal with H : ?f ∈ fs, H' : writes (alt_query ?f) w |- _ => rename H into Hf, H' into Hfw; rename f into g end.
    apply synonym_forms_complete; [cbn [form_count length] in *; lia|]. right. exists g. split; [done|]. rewrite Forall_forall in IH. apply IH; [done| |done].
    cbn [form_count] in Hc. etrans; [|exact Hc]. clear -Hf. induction Hf as [h fs|h h' fs Hf IHf]; cbn; unfold id in *; lia.
Qed.

(** ** The keys of a query *)

Section keys.
Context (analyzer : Reading).

Lemma push_keys_nodup ws keys : NoDup keys -> NoDup (fold_left push_key ws keys).
Proof.
  revert keys. induction ws as [|w ws IH]; intros keys Hn; [done|]. cbn [fold_left]. apply IH. unfold push_key. destruct (_ <=? _)%nat; [done|].
  do 2 (case_bool_decide; cbn [orb]; [done|]). apply NoDup_app. split_and!; [done| |apply NoDup_singleton]. intros x Hx ->%list_elem_of_singleton. done.
Qed.
Lemma push_keys_length ws keys : (length keys <= MAX_NAME_KEYS)%nat -> (length (fold_left push_key ws keys) <= MAX_NAME_KEYS)%nat.
Proof.
  revert keys. induction ws as [|w ws IH]; intros keys Hk; [done|]. cbn [fold_left]. apply IH. unfold push_key.
  destruct (Nat.leb_spec MAX_NAME_KEYS (length keys)); [done|]. destruct (_ || _); [done|]. rewrite length_app. cbn [length]. lia.
Qed.
Lemma push_keys_prefix ws keys : keys `prefix_of` fold_left push_key ws keys.
Proof.
  revert keys. induction ws as [|w ws IH]; intros keys; [done|]. cbn [fold_left]. etrans; [|apply IH]. unfold push_key.
  destruct (_ <=? _)%nat; [done|]. destruct (_ || _); [done|]. by apply prefix_app_r.
Qed.
Lemma push_keys_elem ws keys k : k ∈ fold_left push_key ws keys -> k ∈ keys \/ k ∈ ws.
Proof.
  revert keys. induction ws as [|w ws IH]; intros keys Hk; [by left|]. cbn [fold_left] in Hk. apply IH in Hk as [Hk|Hk]; [|right; by right].
  unfold push_key in Hk. destruct (_ <=? _)%nat; [by left|]. destruct (_ || _); [by left|].
  apply elem_of_app in Hk as [Hk| ->%list_elem_of_singleton]; [by left|right; left].
Qed.
Lemma push_keys_complete ws keys k :
  (length keys + length ws <= MAX_NAME_KEYS)%nat -> k <> [] -> k ∈ ws -> k ∈ fold_left push_key ws keys.
Proof.
  revert keys. induction ws as [|w ws IH]; intros keys Hl Hne Hk; [by apply elem_of_nil in Hk|]. cbn [fold_left length] in *.
  assert (Hlen : (length (push_key keys w) <= S (length keys))%nat).
  { unfold push_key. destruct (_ <=? _)%nat; [lia|]. destruct (_ || _); [lia|]. rewrite length_app. cbn [length]. lia. }
  apply elem_of_cons in Hk as [<-|Hk]; [|apply IH; [lia|done|done]].
  assert (Hin : k ∈ push_key keys k).
  { unfold push_key. destruct (Nat.leb_spec MAX_NAME_KEYS (length keys)); [lia|]. rewrite (bool_decide_eq_false_2 (k = [])) by done. cbn [orb].
    case_bool_decide; [done|]. apply elem_of_app. right. left. }
  destruct (push_keys_prefix ws (push_key keys k)) as [more ->]. apply elem_of_app. by left.
Qed.

(** A whole value is looked up by at most 32 distinct keys, the typed text's own key first;
    every other key is a way of writing the resolved query; and all ways of writing it are
    among them when there are fewer than 32 and the typed text has no gap. *)
Theorem name_keys_correct (raw : str) (resolved : Query) :
  let keys := name_keys analyzer raw resolved in
  NoDup keys /\ (length keys <= MAX_NAME_KEYS)%nat /\
  (forall k, rd_name_key analyzer raw = Some k -> head keys = Some k) /\
  (forall k, k ∈ keys -> rd_name_key analyzer raw = Some k \/ writes resolved k) /\
  ((form_count resolved < MAX_NAME_KEYS)%nat -> (forall k, rd_name_key analyzer raw = Some k -> 95 ∉ k) ->
    forall w, w <> [] -> writes resolved w -> w ∈ keys).
Proof.
  cbv zeta. unfold name_keys. set (typed := match rd_name_key analyzer raw with Some k => [k] | None => [] end).
  assert (Ht : NoDup typed /\ (length typed <= 1)%nat /\ forall k, k ∈ typed <-> rd_name_key analyzer raw = Some k).
  { unfold typed. destruct (rd_name_key analyzer raw) as [k|].
    - split_and!; [apply NoDup_singleton|done|]. intros k'. rewrite list_elem_of_singleton. naive_solver.
    - split_and!; [constructor|cbn; lia|]. intros k'. rewrite elem_of_nil. naive_solver. }
  destruct Ht as (Hn & Hl & Helem). assert (Hhead : forall k, rd_name_key analyzer raw = Some k -> head typed = Some k).
  { intros k Hk. unfold typed. by rewrite Hk. }
  destruct (match typed with _ :: _ => _ | [] => false end) eqn:Eg.
  - split_and!; [done|unfold MAX_NAME_KEYS; lia|done|intros k Hk; left; by apply Helem|].
    intros _ Hgap. exfalso. destruct typed as [|k ks]; [done|]. apply bool_decide_eq_true in Eg. apply (Hgap k); [|done]. apply Helem. left.
  - split_and!.
    + by apply push_keys_nodup.
    + apply push_keys_length. unfold MAX_NAME_KEYS. lia.
    + intros k Hk. specialize (Hhead k Hk). destruct (push_keys_prefix (written_forms resolved) typed) as [more ->].
      destruct typed; [done|exact Hhead].
    + intros k [Hk|Hk]%push_keys_elem; [left; by apply Helem|right; by apply written_forms_sound].
    + intros Hc _ w Hne Hw. destruct (written_forms_length resolved) as [_ Hwl]. apply push_keys_complete; [lia|done|].
      apply written_forms_complete; [lia|done].
Qed.
End keys.

(** ** The runs of a query *)

Section run_keys.
Context (analyzer : Reading).

Lemma push_runs_spec ks keys :
  NoDup keys -> NoDup (fold_left push_run ks keys) /\ forall k, k ∈ fold_left push_run ks keys <-> k ∈ keys \/ k ∈ ks.
Proof.
  revert keys. induction ks as [|x ks IH]; intros keys Hn; [split; [done|]; intros k; rewrite elem_of_nil; tauto|]. cbn [fold_left].
  assert (Hp : NoDup (push_run keys x) /\ forall k, k ∈ push_run keys x <-> k ∈ keys \/ k = x).
  { unfold push_run. case_bool_decide as Hin; [split; [done|naive_solver]|]. split.
    - apply NoDup_app. split_and!; [done| |apply NoDup_singleton]. intros y Hy ->%list_elem_of_singleton. done.
    - intros k. by rewrite elem_of_app, list_elem_of_singleton. }
  destruct Hp as [Hp He]. destruct (IH _ Hp) as [H1 H2]. split; [done|]. intros k. rewrite H2, He, elem_of_cons. tauto.
Qed.
Lemma elem_of_runs n start end_ :
  (start, end_) ∈ word_runs n <-> (start < end_ <= n)%nat /\ (end_ - start <= MAX_NAME_WORDS)%nat.
Proof.
  unfold word_runs. rewrite list_elem_of_bind. setoid_rewrite list_elem_of_fmap. setoid_rewrite elem_of_seq. split.
  - intros (s & (e & [= -> ->] & He) & Hs). lia.
  - intros [H1 H2]. exists start. split; [|lia]. exists end_. split; [done|]. lia.
Qed.

(** The named runs of a query of at most 32 words are the name keys of its runs of one to
    twelve words, all of them and each once; a longer query has none. *)
Lemma named_runs_correct (raw : str) :
  let typed := split_whitespace raw in
  let '(keys, words) := named_runs analyzer raw in
  NoDup keys /\
  (forall key, key ∈ keys <->
    (length typed <= MAX_NAMED_QUERY_WORDS)%nat /\
    exists start n, (1 <= n <= MAX_NAME_WORDS)%nat /\ (start + n <= length typed)%nat /\
      rd_name_key analyzer (join [32] (take n (drop start typed))) = Some key) /\
  words = (if bool_decide (length typed <= MAX_NAMED_QUERY_WORDS)%nat then (rd_words analyzer raw).*2 else []).
Proof.
  cbv zeta. unfold named_runs. destruct (Nat.ltb_spec MAX_NAMED_QUERY_WORDS (length (split_whitespace raw))) as [Hlt|Hle].
  - rewrite bool_decide_eq_false_2 by lia. split_and!; [constructor| |done]. intros key. rewrite elem_of_nil. split; [done|]. intros [? _]. lia.
  - rewrite bool_decide_eq_true_2 by done.
    destruct (push_runs_spec (omap (run_key analyzer (split_whitespace raw)) (word_runs (length (split_whitespace raw)))) []) as [H1 H2]; [constructor|].
    split_and!; [done| |done]. intros key. rewrite H2, elem_of_nil, list_elem_of_omap. split.
    + intros [[]|([start end_] & [Hr1 Hr2]%elem_of_runs & Hk)]. split; [done|]. exists start, (end_ - start)%nat. split_and!; [lia|lia|lia|]. exact Hk.
    + intros (_ & start & n & Hn & Hs & Hk). right. exists (start, start + n)%nat. split; [apply elem_of_runs; lia|].
      unfold run_key. cbn [fst snd]. by replace (start + n - start)%nat with n by lia.
Qed.
End run_keys.

(** ** The places of the tiers *)

Definition tier_rank (ranks : TierRanks) (tier : Tier) : Z :=
  match tier with TName _ _ => tr_name ranks | TExact _ => tr_exact ranks | _ => tr_relevance ranks end.
Definition is_named (tier : Tier) : bool := match tier with TName _ _ | TExact _ => true | _ => false end.

(** Below the limit there are only the tiers that match the query as typed, and all of them,
    unless the limit is zero. *)
Lemma named_tier_limit_correct (self : RankPlan) tier :
  tier ∈ rp_tiers self -> 0 < named_tier_limit self -> tier_rank (rp_ranks self) tier < named_tier_limit self <-> is_named tier = true.
Proof.
  intros Ht. unfold named_tier_limit. destruct (forallb _ _) eqn:E; [|lia]. intros _. rewrite forallb_forall in E.
  specialize (E tier ltac:(by apply list_elem_of_In)). destruct tier; cbn in *; rewrite ?Z.ltb_lt in E; split; intros; try done; lia.
Qed.

(** A key with an underscore counts as one with a gap, even when the underscore is typed: the
    dictionary's forms are then not looked up. *)
Lemma underscore_skips_forms (analyzer : Reading) raw resolved k :
  rd_name_key analyzer raw = Some k -> 95 ∈ k -> name_keys analyzer raw resolved = [k].
Proof. intros Hk Hin. unfold name_keys. rewrite Hk. by rewrite bool_decide_eq_true_2. Qed.
