(* ===== verification/Synonyms.v ===== *)
(** * Synonyms

    Models [crates/core-query/src/synonyms.rs]: the forms of a dictionary ([Variant]), Roman
    numerals ([to_roman], [parse_roman]), the trie a dictionary is built into ([build],
    [match_at]), the layers a database searches with ([Synonyms]) and the expansion of a query
    ([expand_synonyms]).

    The analyzer is what it makes of a word ([analyze], the texts of the tokens). Where the code
    indexes a vector the model returns [None] for an index out of range, so [None] of [build],
    [match_at] and [expand_synonyms] is a panic.

    The theorems of this file are about Roman numerals and about dictionaries: a dictionary built
    from accepted entries finds the longest form the words were typed as, and nothing else. *)
From Stdlib Require Import ZArith Lia String.
From stdpp Require Import base numbers list sorting strings gmap.
From S2P Require Import Prelude Types Utf8 Osa Fuzzy FuzzyRank Phrase Query Tokenizers Analyzers.
Local Open Scope Z_scope.

Definition MAX_PHRASE_TOKENS : nat := 8.

(** ** Data *)

Inductive DictionaryError : Type :=
| EmptyVariant (text : str)
| PhraseTooLong (text : str) (max : nat)
| GroupTooSmall (variants : nat).
Abbreviation dict_result A := (A + DictionaryError)%type.

Inductive CaseMode : Type := Sensitive | Insensitive.
#[global] Instance CaseMode_eq_dec : EqDecision CaseMode.
Proof. solve_decision. Defined.

Record Variant : Type := mkVariant { va_tokens : list str; va_exact : str; va_case : CaseMode }.
#[global] Instance Variant_eq_dec : EqDecision Variant.
Proof. solve_decision. Defined.

Inductive QueryNode : Type := NTerm (term : str) | NPhrase (terms : list PhraseTerm) | NExact (text : str).
#[global] Instance QueryNode_eq_dec : EqDecision QueryNode.
Proof. solve_decision. Defined.

(** [Alternative] of [synonyms.rs]. *)
Record NodeAlternative : Type := mkNodeAlternative { na_node : QueryNode; na_numeral : bool }.

Record Match : Type := mkMatch {
  ma_len : nat;
  ma_alternatives : list NodeAlternative;
  ma_typed_exact : option str;
  ma_typed_short_form : bool
}.

Record RomanConfig : Type := mkRomanConfig {
  ro_enabled : bool;
  ro_min_value : Z;
  ro_max_value : Z;
  ro_min_len : nat;
  ro_arabic_to_roman : bool;
  ro_denylist : gset str
}.
Definition RomanConfig_default : RomanConfig :=
  mkRomanConfig true 2 3999 2 true (list_to_set (lit <$>
    ["MIX"; "DIX"; "LIV"; "CIV"; "DIV"; "DC"; "CD"; "MD"; "MC"; "CC"; "CL"; "CV"; "XL"; "LI"; "DI"; "MI"; "MM"]%string)).

Record Group : Type := mkGroup { gr_variants : list Variant; gr_one_way : bool }.
Record VariantRef : Type := mkVariantRef { vr_group : nat; vr_variant : nat }.
#[global] Instance VariantRef_eq_dec : EqDecision VariantRef.
Proof. solve_decision. Defined.
Record TrieNode : Type := mkTrieNode { tn_children : gmap str nat; tn_terminals : list VariantRef }.
Definition TrieNode_default : TrieNode := mkTrieNode ∅ [].
Record DictionaryBuilder : Type := mkDictionaryBuilder { db_groups : list Group; db_roman : RomanConfig }.
Record SynonymDictionary : Type := mkSynonymDictionary { sd_nodes : list TrieNode; sd_groups : list Group; sd_roman : RomanConfig }.
Record Synonyms : Type := mkSynonyms { sy_layers : list SynonymDictionary }.

(** ** Roman numerals *)

Definition ROMAN_TABLE : list (Z * str) :=
  [(1000, lit "M"); (900, lit "CM"); (500, lit "D"); (400, lit "CD"); (100, lit "C"); (90, lit "XC"); (50, lit "L");
   (40, lit "XL"); (10, lit "X"); (9, lit "IX"); (5, lit "V"); (4, lit "IV"); (1, lit "I")].

(** [while value >= unit]; the value is enough fuel. *)
Fixpoint push_symbol (fuel : nat) (unit_ : Z) (symbol : str) (st : str * Z) : str * Z :=
  match fuel with
  | O => st
  | S fuel => if unit_ <=? st.2 then push_symbol fuel unit_ symbol (st.1 ++ symbol, st.2 - unit_) else st
  end.
Definition to_roman (value : Z) : option str :=
  if (value =? 0) || (3999 <? value) then None
  else Some (fold_left (fun st e => push_symbol (Z.to_nat st.2) e.1 e.2 st) ROMAN_TABLE ([], value)).1.

Definition roman_digit (c : Z) : option Z :=
  if c =? 73 then Some 1 else if c =? 86 then Some 5 else if c =? 88 then Some 10 else if c =? 76 then Some 50
  else if c =? 67 then Some 100 else if c =? 68 then Some 500 else if c =? 77 then Some 1000 else None.
(** The characters from the last to the first; the state is the total and the largest value seen. *)
Fixpoint roman_total (chars : str) (total largest_seen : Z) : option Z :=
  match chars with
  | [] => Some total
  | c :: chars =>
    value ← roman_digit c;
    if value <? largest_seen then
      if total <? value then None else roman_total chars (total - value) largest_seen
    else roman_total chars (wrap 32 (total + value)) value
  end.
Definition parse_roman (surface : str) : option Z :=
  if bool_decide (surface = []) || (15 <? str_len surface) then None
  else
    total ← roman_total (rev surface) 0 0;
    if u_max 16 <? total then None
    else
      roman ← to_roman total;
      if bool_decide (roman = surface) then Some total else None.

Definition accepts (self : RomanConfig) (roman : str) (value : Z) : bool :=
  (Z.of_nat (ro_min_len self) <=? str_len roman) && ((ro_min_value self <=? value) && (value <=? ro_max_value self)) &&
  negb (bool_decide (roman ∈ ro_denylist self)).
Definition roman_value (self : RomanConfig) (surface : str) : option Z :=
  value ← parse_roman surface; if accepts self surface value then Some value else None.
Definition is_ascii_digit (c : Z) : bool := (48 <=? c) && (c <=? 57).
(** [str::parse::<u16>] of a text of digits. *)
Definition parse_u16 (digits : str) : option Z :=
  match digits with
  | [] => None
  | _ => fold_left (fun value c => v ← value; let v := 10 * v + (c - 48) in if u_max 16 <? v then None else Some v) digits (Some 0)
  end.
Definition roman_for_arabic (self : RomanConfig) (surface : str) : option str :=
  if bool_decide (surface = []) || (4 <? str_len surface) || bool_decide (head surface = Some 48) || negb (forallb is_ascii_digit surface)
  then None
  else
    value ← parse_u16 surface;
    roman ← to_roman value;
    if accepts self roman value then Some roman else None.

Section synonyms.
Context {CC : CharClasses} {CT : CaseTables}.
Context (analyze : str -> list str).

(** ** Forms *)

Definition tokenize (text : str) : list str := filter (fun token => token <> []) (split_on (fun c => negb (is_alphanumeric c)) text).
Definition lookup_key (token : str) : str := match analyze token with text :: _ => text | [] => to_lowercase token end.

Definition with_case (text : str) (case_ : CaseMode) : dict_result Variant :=
  let tokens := tokenize text in
  if bool_decide (tokens = []) then inr (EmptyVariant text)
  else if (MAX_PHRASE_TOKENS <? length tokens)%nat then inr (PhraseTooLong text MAX_PHRASE_TOKENS)
  else inl (mkVariant tokens (join [32] (split_whitespace text)) case_).
Definition Variant_new (text : str) : dict_result Variant :=
  with_case text (if existsb is_uppercase text then Sensitive else Insensitive).
Definition is_short_form (self : Variant) : bool :=
  match va_tokens self with [token] => existsb (fun c => is_uppercase c || is_ascii_digit c) token | _ => false end.
Definition key (self : Variant) : list str := lookup_key <$> va_tokens self.
Definition matches (self : Variant) (surface : list str) : bool :=
  match va_case self with
  | Insensitive => true
  | Sensitive => forallb (fun p => bool_decide (p.1 = p.2)) (zip (va_tokens self) surface)
  end.
Definition from_terms (terms : list str) : QueryNode :=
  match terms with
  | [term] => NTerm term
  | _ => NPhrase (imap (fun index text => mkPhraseTerm text (wrap 32 (Z.of_nat index))) terms)
  end.
Definition to_node (self : Variant) : QueryNode :=
  match va_case self with Sensitive => NExact (va_exact self) | Insensitive => from_terms (to_lowercase <$> va_tokens self) end.

(** ** Building *)

(** The first of equal variants stays. *)
Definition dedupe_variants (variants : list Variant) : dict_result (list Variant) :=
  let unique := fold_left (fun seen variant => if bool_decide (variant ∈ seen) then seen else seen ++ [variant]) variants [] in
  if (length unique <? 2)%nat then inr (GroupTooSmall (length unique)) else inl unique.
Definition parse_variant (spec : str) : dict_result Variant :=
  match spec with
  | c :: rest => if c =? 126 then with_case rest Insensitive else Variant_new spec
  | [] => Variant_new spec
  end.
Definition builder_new : DictionaryBuilder := mkDictionaryBuilder [] RomanConfig_default.
Definition builder_roman (self : DictionaryBuilder) (config : RomanConfig) : DictionaryBuilder := mkDictionaryBuilder (db_groups self) config.
Definition push_group (self : DictionaryBuilder) (variants : list Variant) (one_way : bool) : dict_result DictionaryBuilder :=
  match dedupe_variants variants with
  | inl variants => inl (mkDictionaryBuilder (db_groups self ++ [mkGroup variants one_way]) (db_roman self))
  | inr e => inr e
  end.
Definition add_group (self : DictionaryBuilder) (variants : list Variant) : dict_result DictionaryBuilder := push_group self variants false.
Definition add_one_way (self : DictionaryBuilder) (variants : list Variant) : dict_result DictionaryBuilder := push_group self variants true.
(** [collect::<Result<Vec<_>, _>>]: the first error. *)
Fixpoint parse_variants (specs : list str) : dict_result (list Variant) :=
  match specs with
  | [] => inl []
  | spec :: specs =>
    match parse_variant spec with
    | inl variant => match parse_variants specs with inl variants => inl (variant :: variants) | inr e => inr e end
    | inr e => inr e
    end
  end.
Definition builder_add (self : DictionaryBuilder) (variants : list str) : dict_result DictionaryBuilder :=
  match parse_variants variants with inl parsed => add_group self parsed | inr e => inr e end.

Definition trie_step (st : option (list TrieNode * nat)) (k : str) : option (list TrieNode * nat) :=
  '(nodes, node) ← st;
  here ← nodes !! node;
  match tn_children here !! k with
  | Some next => Some (nodes, next)
  | None =>
    let id := length nodes in
    Some (<[node := mkTrieNode (<[k := id]> (tn_children here)) (tn_terminals here)]> nodes ++ [TrieNode_default], id)
  end.
Definition insert_variant (nodes : list TrieNode) (r : VariantRef) (k : list str) : option (list TrieNode) :=
  '(nodes, node) ← fold_left trie_step k (Some (nodes, 0%nat));
  here ← nodes !! node;
  Some (<[node := mkTrieNode (tn_children here) (tn_terminals here ++ [r])]> nodes).
Definition findable (group : Group) : option (list Variant) :=
  if gr_one_way group then match gr_variants group with first :: _ => Some [first] | [] => None end else Some (gr_variants group).
Definition insert_group (nodes : option (list TrieNode)) (e : nat * Group) : option (list TrieNode) :=
  nodes ← nodes;
  variants ← findable e.2;
  fold_left (fun nodes '(variant_index, variant) => nodes ← nodes; insert_variant nodes (mkVariantRef e.1 variant_index) (key variant))
    (imap pair variants) (Some nodes).
Definition build (self : DictionaryBuilder) : option SynonymDictionary :=
  nodes ← fold_left insert_group (imap pair (db_groups self)) (Some [TrieNode_default]);
  Some (mkSynonymDictionary nodes (db_groups self) (db_roman self)).

(** ** Looking up *)

Definition variant_at (groups : list Group) (r : VariantRef) : option Variant := group ← groups !! vr_group r; gr_variants group !! vr_variant r.
(** [filter] over the terminals of a node. *)
Fixpoint matched_refs (groups : list Group) (surface : list str) (refs : list VariantRef) : option (list VariantRef) :=
  match refs with
  | [] => Some []
  | r :: refs =>
    variant ← variant_at groups r;
    rest ← matched_refs groups surface refs;
    Some (if matches variant surface then r :: rest else rest)
  end.
(** [&surface[..len]] *)
Definition slice_to (surface : list str) (len : nat) : option (list str) :=
  if (len <=? length surface)%nat then Some (take len surface) else None.
Fixpoint match_loop (self : SynonymDictionary) (surface : list str) (accept_len : nat -> bool) (keys : list str) (depth node : nat)
    (best : option (nat * list VariantRef)) : option (option (nat * list VariantRef)) :=
  match keys with
  | [] => Some best
  | k :: keys =>
    here ← sd_nodes self !! node;
    match tn_children here !! k with
    | None => Some best
    | Some node =>
      let len := S depth in
      if negb (accept_len len) then match_loop self surface accept_len keys len node best
      else
        here ← sd_nodes self !! node;
        matched ← (if bool_decide (tn_terminals here = []) then Some []
                   else typed ← slice_to surface len; matched_refs (sd_groups self) typed (tn_terminals here));
        match_loop self surface accept_len keys len node (if bool_decide (matched = []) then best else Some (len, matched))
    end
  end.

Definition is_number (text : str) : bool := negb (bool_decide (text = [])) && forallb is_ascii_digit text.
Fixpoint push_unique (out : list NodeAlternative) (alternative : NodeAlternative) : list NodeAlternative :=
  match out with
  | [] => [alternative]
  | known :: out =>
    if bool_decide (na_node known = na_node alternative)
    then mkNodeAlternative (na_node known) (na_numeral known || na_numeral alternative) :: out
    else known :: push_unique out alternative
  end.

Definition expand_number (self : SynonymDictionary) (surface : str) : option (list NodeAlternative) :=
  if negb (ro_enabled (sd_roman self)) then None
  else
    other ← match roman_value (sd_roman self) surface with
            | Some value => Some (show_u64 value)
            | None => if ro_arabic_to_roman (sd_roman self) then to_lowercase <$> roman_for_arabic (sd_roman self) surface else None
            end;
    Some [mkNodeAlternative (NTerm (to_lowercase surface)) true; mkNodeAlternative (NTerm other) true].

Definition alternative_of (variant : Variant) : NodeAlternative :=
  let node := to_node variant in
  mkNodeAlternative node (match node with NTerm term => is_number term | _ => false end).
Definition typed_exact_of (variants : list Variant) : option str :=
  match filter (fun variant => va_case variant = Sensitive) variants with variant :: _ => Some (va_exact variant) | [] => None end.
(** The alternatives of the groups with the given numbers, and of a single number. *)
Definition group_alternatives (groups : list Group) (numbers : list nat) : option (list NodeAlternative) :=
  groups ← mapM (fun g => groups !! g) numbers;
  Some (fold_left push_unique (alternative_of <$> concat (gr_variants <$> groups)) []).
Definition match_at (self : SynonymDictionary) (surface keys : list str) (accept_len : nat -> bool) : option (option Match) :=
  best ← match_loop self surface accept_len (take MAX_PHRASE_TOKENS keys) 0 0 None;
  match best with
  | None => Some None
  | Some (len, matched) =>
    variants ← mapM (variant_at (sd_groups self)) matched;
    alternatives ← group_alternatives (sd_groups self) (remove_dups (merge_sort (≤)%nat (vr_group <$> matched)));
    alternatives ← (if (len =? 1)%nat
                    then first ← head surface; Some (fold_left push_unique (default [] (expand_number self first)) alternatives)
                    else Some alternatives);
    Some (Some (mkMatch len alternatives (typed_exact_of variants) (existsb is_short_form variants)))
  end.

Definition merge_match (best : option Match) (found : Match) : option Match :=
  match best with
  | Some known =>
    if (ma_len known =? ma_len found)%nat then
      Some (mkMatch (ma_len known) (fold_left push_unique (ma_alternatives found) (ma_alternatives known))
        (match ma_typed_exact known with Some text => Some text | None => ma_typed_exact found end)
        (ma_typed_short_form known || ma_typed_short_form found))
    else if (ma_len found <? ma_len known)%nat then Some known
    else Some found
  | None => Some found
  end.
Definition Synonyms_match_at (self : Synonyms) (surface keys : list str) (accept_len : nat -> bool) : option (option Match) :=
  fold_left (fun best layer =>
    best ← best;
    found ← match_at layer surface keys accept_len;
    Some (match found with None => best | Some found => merge_match best found end)) (sy_layers self) (Some None).
Definition Synonyms_expand_number (self : Synonyms) (surface : str) : option (list NodeAlternative) :=
  head (omap (fun layer => expand_number layer surface) (sy_layers self)).

(** ** Expansion *)

Definition FULL_WEIGHT : Z := 1000.
Definition NUMERAL_WEIGHT : Z := 1000.
Definition SYNONYM_WEIGHT : Z := 700.

Definition is_multi_word (text : str) : bool := bool_decide (is_Some (split_whitespace text !! 1%nat)).
Definition is_typed_form (node : QueryNode) (typed_words : list str) : bool :=
  match node with
  | NTerm term => match typed_words with [word] => bool_decide (term = word) | _ => false end
  | NPhrase terms =>
    (length terms =? length typed_words)%nat && forallb (fun p => bool_decide (pt_text p.1 = p.2)) (zip terms typed_words)
  | NExact _ => false
  end.
Definition weight_of (alternative : NodeAlternative) (typed_short_form typed_several_words : bool) : Z :=
  if na_numeral alternative then NUMERAL_WEIGHT
  else
    let spelled_out := match na_node alternative with
      | NPhrase words => (1 <? length words)%nat
      | NExact text => is_multi_word text
      | NTerm _ => false
      end in
    if spelled_out && (typed_short_form || typed_several_words) then FULL_WEIGHT else SYNONYM_WEIGHT.
Definition to_query (node : QueryNode) : Query :=
  match node with NTerm word => QTerm word | NPhrase words => QPhrase words | NExact text => QExact text end.
Definition original_form (words : list str) (wrap_ : list Query -> Query) : Query :=
  match words with [word] => QTerm word | _ => wrap_ (QTerm <$> words) end.
Definition synonym (typed : Query) (alternatives : list SynonymAlternative) : Query :=
  match alternatives with [] => typed | _ => QSynonym (mkAlternative typed FULL_WEIGHT :: alternatives) end.

(** [surface], [owner], [word_start] (without its last entry) of the words from number [index]. *)
Fixpoint run_tokens (index at_ : nat) (words : list str) : list str * list nat * list nat :=
  match words with
  | [] => ([], [], [])
  | word :: words =>
    let tokens := tokenize word in
    let '(surface, owner, word_start) := run_tokens (S index) (at_ + length tokens) words in
    (tokens ++ surface, replicate (length tokens) index ++ owner, at_ :: word_start)
  end.
Definition boundaries (len : nat) (word_start : list nat) : list bool :=
  fold_left (fun boundary start => <[start := true]> boundary) word_start (replicate (S len) false).

Definition matched_alternatives (found : Match) (typed_words : list str) (several_words : bool) : list SynonymAlternative :=
  let short_form := negb several_words && ma_typed_short_form found in
  (fun alternative =>
    let typed_exact := match na_node alternative, ma_typed_exact found with NExact text, Some typed => bool_decide (text = typed) | _, _ => false end in
    mkAlternative (to_query (na_node alternative)) (if typed_exact then FULL_WEIGHT else weight_of alternative short_form several_words)) <$>
  filter (fun alternative => is_typed_form (na_node alternative) typed_words = false) (ma_alternatives found).
Definition number_alternatives (numbers : list NodeAlternative) (typed_words : list str) : list SynonymAlternative :=
  (fun alternative => mkAlternative (to_query (na_node alternative)) (weight_of alternative false false)) <$>
  filter (fun alternative => is_typed_form (na_node alternative) typed_words = false) numbers.

(** [while index < words.len()]; every turn moves past a word, so the number of words is enough
    fuel. [match_at] asks [boundary[start + len]] for lengths of the words left only. *)
Fixpoint run_loop (fuel : nat) (dictionary : Synonyms) (wrap_ : list Query -> Query) (words surface keys : list str) (owner word_start : list nat)
    (boundary : list bool) (index : nat) : option (list Query) :=
  match fuel with
  | O => Some []
  | S fuel =>
    if (length words <=? index)%nat then Some []
    else
      word ← words !! index;
      start ← word_start !! index;
      end_ ← word_start !! S index;
      if (start =? end_)%nat then
        rest ← run_loop fuel dictionary wrap_ words surface keys owner word_start boundary (S index);
        Some (QTerm word :: rest)
      else
        found ← Synonyms_match_at dictionary (drop start surface) (drop start keys) (fun len => default false (boundary !! (start + len)%nat));
        match found with
        | Some found =>
          last ← owner !! (start + ma_len found - 1)%nat;
          let covered := take (S last - index) (drop index words) in
          let several_words := (1 <? length covered)%nat || (1 <? ma_len found)%nat in
          let typed_words := to_lowercase <$> take (ma_len found) (drop start surface) in
          rest ← run_loop fuel dictionary wrap_ words surface keys owner word_start boundary (S last);
          Some (synonym (original_form covered wrap_) (matched_alternatives found typed_words several_words) :: rest)
        | None =>
          first ← surface !! start;
          rest ← run_loop fuel dictionary wrap_ words surface keys owner word_start boundary (S index);
          match (if (end_ - start =? 1)%nat then Synonyms_expand_number dictionary first else None) with
          | Some numbers => Some (synonym (QTerm word) (number_alternatives numbers [to_lowercase first]) :: rest)
          | None => Some (QTerm word :: rest)
          end
        end
  end.
Definition expand_run (words : list str) (dictionary : Synonyms) (wrap_ : list Query -> Query) : option (list Query) :=
  let '(surface, owner, starts) := run_tokens 0 0 words in
  let word_start := starts ++ [length surface] in
  run_loop (length words) dictionary wrap_ words surface (lookup_key <$> surface) owner word_start (boundaries (length surface) word_start) 0.

Definition expand_multi_word (text : str) (dictionary : Synonyms) : option Query :=
  expanded ← expand_run (split_whitespace text) dictionary QAnd;
  Some (if forallb (fun part => match part with QTerm _ => true | _ => false end) expanded then QTerm text else QAnd expanded).
Definition expand_word (word : str) (dictionary : Synonyms) : option Query :=
  expanded ← expand_run [word] dictionary QWand;
  Some (match expanded with [only] => only | many => QWand many end).

(** The run of words before a sibling, when there is one. *)
Definition flush_run (run : list str) (dictionary : Synonyms) (wrap_ : list Query -> Query) : option (list Query) :=
  match run with [] => Some [] | _ => expand_run run dictionary wrap_ end.
Definition expand_children (expand : Query -> option Query) (dictionary : Synonyms) (wrap_ : list Query -> Query) : list str -> list Query -> option (list Query) :=
  fix go (run : list str) (subs : list Query) {struct subs} : option (list Query) :=
    match subs with
    | [] => flush_run run dictionary wrap_
    | sub :: subs =>
      let other :=
        before ← flush_run run dictionary wrap_;
        sub ← expand sub;
        rest ← go [] subs;
        Some (before ++ sub :: rest) in
      match sub with
      | QTerm word => if is_multi_word word then other else go (run ++ [word]) subs
      | _ => other
      end
    end.
Fixpoint expand_synonyms (dictionary : Synonyms) (query : Query) {struct query} : option Query :=
  match query with
  | QTerm text => if is_multi_word text then expand_multi_word text dictionary else expand_word text dictionary
  | QWand subs => QWand <$> expand_children (expand_synonyms dictionary) dictionary QWand [] subs
  | QAnd subs => QAnd <$> expand_children (expand_synonyms dictionary) dictionary QAnd [] subs
  | QOr subs => QOr <$> expand_children (expand_synonyms dictionary) dictionary QOr [] subs
  | QSameElement children => QSameElement <$> mapM (expand_synonyms dictionary) children
  | other => Some other
  end.
End synonyms.

(** ** Numerals *)

(** One decimal place of a numeral, written with the symbols for one, five and ten. *)
Definition roman_place (one five ten : Z) (d : Z) : str :=
  if d =? 9 then [one; ten]
  else if 5 <=? d then five :: replicate (Z.to_nat (d - 5)) one
  else if d =? 4 then [one; five]
  else replicate (Z.to_nat d) one.
(** The numeral of a number, place by place. *)
Definition numeral (v : Z) : str :=
  replicate (Z.to_nat (v / 1000)) 77 ++ roman_place 67 68 77 (v / 100 mod 10) ++ roman_place 88 76 67 (v / 10 mod 10) ++
  roman_place 73 86 88 (v mod 10).

Definition numeral_check (v : Z) : bool :=
  bool_decide (to_roman v = Some (numeral v)) && bool_decide (roman_total (rev (numeral v)) 0 0 = Some v) &&
  (str_len (numeral v) <=? 15) && negb (bool_decide (numeral v = [])).
Lemma numerals_checked : forallb (fun n => numeral_check (Z.of_nat n)) (seq 1 3999) = true.
Proof. vm_compute. reflexivity. Qed.
Lemma numeral_checked v : 1 <= v <= 3999 -> numeral_check v = true.
Proof.
  intros Hv. pose proof numerals_checked as H. rewrite forallb_forall in H. specialize (H (Z.to_nat v)).
  rewrite Z2Nat.id in H by lia. apply H. apply in_seq. lia.
Qed.
Lemma to_roman_some v s : in_u 16 v -> to_roman v = Some s <-> 1 <= v <= 3999 /\ s = numeral v.
Proof.
  intros [Hv _]. split.
  - intros E. unfold to_roman in E. destruct (Z.eqb_spec v 0) as [|Hz]; [done|]. destruct (Z.ltb_spec 3999 v) as [|Hm]; [done|]. cbn [orb] in E.
    assert (Hr : 1 <= v <= 3999) by lia. split; [done|]. pose proof (numeral_checked v Hr) as H. unfold numeral_check in H.
    rewrite !andb_true_iff, !bool_decide_eq_true in H. destruct H as [[[H _] _] _]. unfold to_roman in H.
    rewrite (proj2 (Z.eqb_neq v 0)), (proj2 (Z.ltb_ge 3999 v)) in H by lia. cbn [orb] in H. congruence.
  - intros [Hr ->]. pose proof (numeral_checked v Hr) as H. unfold numeral_check in H.
    rewrite !andb_true_iff, !bool_decide_eq_true in H. apply H.
Qed.
Lemma roman_total_nonneg chars total largest v :
  0 <= total -> roman_total chars total largest = Some v -> 0 <= v.
Proof.
  revert total largest. induction chars as [|c chars IH]; intros total largest Ht E; cbn in E; [by simplify_eq|].
  destruct (roman_digit c) as [d|] eqn:Ed; [|done]. cbn in E. destruct (d <? largest).
  - destruct (Z.ltb_spec total d); [done|]. eapply IH; [|exact E]. lia.
  - eapply IH; [|exact E]. unfold wrap. apply Z.mod_pos_bound. lia.
Qed.
Lemma parse_roman_spec s v : parse_roman s = Some v <-> 1 <= v <= 3999 /\ s = numeral v.
Proof.
  split.
  - unfold parse_roman. intros E. destruct (_ || _); [done|]. destruct (roman_total (rev s) 0 0) as [total|] eqn:Et; [|done]. cbn in E.
    destruct (Z.ltb_spec (u_max 16) total) as [|Hu]; [done|]. destruct (to_roman total) as [roman|] eqn:Er; [|done]. cbn in E.
    case_bool_decide; [|done]. simplify_eq/=. apply to_roman_some; [|done].
    apply roman_total_nonneg in Et; [|done]. unfold in_u, u_max in *. lia.
  - intros [Hr ->]. pose proof (numeral_checked v Hr) as H. unfold numeral_check in H.
    rewrite !andb_true_iff, negb_true_iff, !bool_decide_eq_true, bool_decide_eq_false, Z.leb_le in H. destruct H as [[[H1 H2] H3] H4].
    unfold parse_roman. rewrite bool_decide_eq_false_2 by done. destruct (Z.ltb_spec 15 (str_len (numeral v))); [lia|]. cbn [orb].
    rewrite H2. cbn. destruct (Z.ltb_spec (u_max 16) v) as [Hu|_]; [unfold u_max in Hu; lia|]. rewrite H1. cbn. by rewrite bool_decide_eq_true_2.
Qed.

(** The decimal form of a [u16], which [roman_for_arabic] reads back when it is short enough. *)
Definition show_check (v : Z) : bool :=
  let t := show_u64 v in
  negb (bool_decide (t = [])) && forallb is_ascii_digit t && bool_decide (parse_u16 t = Some v) &&
  ((v =? 0) || negb (bool_decide (head t = Some 48))) && (Bool.eqb (4 <? str_len t) (9999 <? v)).
Fixpoint all_from (p : Z -> bool) (n : nat) (v : Z) : bool :=
  match n with O => true | S n => if p v then all_from p n (v + 1) else false end.
Lemma all_from_spec p n v u : all_from p n v = true -> v <= u < v + Z.of_nat n -> p u = true.
Proof.
  revert v. induction n as [|n IH]; intros v H Hu; [lia|]. cbn [all_from] in H. destruct (p v) eqn:E; [|done].
  destruct (decide (u = v)) as [->|]; [done|]. apply (IH (v + 1)); [done|lia].
Qed.
Lemma shown_checked : all_from show_check (Z.to_nat 65536) 0 = true.
Proof. vm_compute. reflexivity. Qed.
Lemma show_checked v : in_u 16 v -> show_check v = true.
Proof. intros Hv. apply (all_from_spec _ _ _ _ shown_checked). unfold in_u in Hv. lia. Qed.
Lemma roman_value_some self s v : roman_value self s = Some v <-> parse_roman s = Some v /\ accepts self s v = true.
Proof.
  unfold roman_value. destruct (parse_roman s) as [u|]; cbn; [|by split; [|intros []]].
  destruct (accepts self s u) eqn:Ea; split; try done; [intros E; simplify_eq; done|by intros [? _]|intros [E ?]; simplify_eq; congruence].
Qed.
Lemma roman_arabic self s v :
  in_u 16 v -> roman_value self s = Some v <-> roman_for_arabic self (show_u64 v) = Some s.
Proof.
  intros Hv. pose proof (show_checked v Hv) as H. unfold show_check in H. cbv zeta in H.
  rewrite !andb_true_iff, negb_true_iff, bool_decide_eq_false, bool_decide_eq_true, Bool.eqb_true_iff in H.
  destruct H as [[[[H1 H2] H3] H4] H5]. rewrite roman_value_some, parse_roman_spec, <-to_roman_some by done.
  unfold roman_for_arabic. rewrite bool_decide_eq_false_2, H2, H5, H3 by done. cbn [orb negb option_bind mbind]. rewrite orb_false_r.
  destruct (to_roman v) as [roman|] eqn:Er.
  - assert (Hr : 1 <= v <= 3999) by (by apply to_roman_some in Er as [? _]). rewrite (proj2 (Z.ltb_ge 9999 v)) by lia.
    rewrite (proj2 (Z.eqb_neq v 0)) in H4 by lia. cbn [orb] in H4 |- *. apply negb_true_iff in H4. rewrite H4. cbn.
    destruct (accepts self roman v) eqn:Ea; split; [intros []; congruence|intros; split; congruence|intros []; congruence|done].
  - split; [by intros [X _]|]. by destruct (9999 <? v); [|destruct (bool_decide _)].
Qed.

(** A number from 1 to 3999 has one Roman numeral, written place by place: the code writes it
    for every number that has one and reads nothing else; and under any rules a numeral is searched
    as a number exactly when that number is searched as the numeral. *)
Theorem roman_numerals_correct :
  (forall v s, in_u 16 v -> to_roman v = Some s <-> 1 <= v <= 3999 /\ s = numeral v) /\
  (forall s v, parse_roman s = Some v <-> 1 <= v <= 3999 /\ s = numeral v) /\
  (forall self s v, in_u 16 v -> roman_value self s = Some v <-> roman_for_arabic self (show_u64 v) = Some s).
Proof. split_and!; [apply to_roman_some|apply parse_roman_spec|apply roman_arabic]. Qed.

(** ** The trie *)

(** What a trie holds: [paths] gives the words that lead to every node, [entries] the forms that
    were inserted, in order. *)
Record trie_ok (nodes : list TrieNode) (paths : list (list str)) (entries : list (list str * VariantRef)) : Prop := {
  to_len : length paths = length nodes;
  to_nodup : NoDup paths;
  to_root : paths !! 0%nat = Some [];
  to_child : forall i n p k j, nodes !! i = Some n -> paths !! i = Some p -> tn_children n !! k = Some j <-> paths !! j = Some (p ++ [k]);
  to_closed : forall p k, p ++ [k] ∈ paths -> p ∈ paths;
  to_terminals : forall i n p, nodes !! i = Some n -> paths !! i = Some p -> tn_terminals n = (filter (fun e => e.1 = p) entries).*2;
  to_entries : forall e, e ∈ entries -> e.1 ∈ paths
}.

Lemma children_default k : tn_children TrieNode_default !! k = None.
Proof. apply lookup_empty. Qed.
Lemma trie_ok_new : trie_ok [TrieNode_default] [[]] [].
Proof.
  split; try done.
  - apply NoDup_singleton.
  - intros [|i] n p k j Hn Hp; [|done]. injection Hn as <-. injection Hp as <-. rewrite children_default. split; [done|]. by destruct j.
  - intros p k Hp. apply list_elem_of_singleton in Hp. by destruct p.
  - intros [|i] n p Hn Hp; by simplify_eq/=.
  - intros e He. by apply elem_of_nil in He.
Qed.

Lemma paths_lookup nodes paths entries i j p : trie_ok nodes paths entries -> paths !! i = Some p -> paths !! j = Some p -> i = j.
Proof. intros Ht Hi Hj. by eapply NoDup_lookup; [apply (to_nodup _ _ _ Ht)| |]. Qed.

(** A new node under [node]. *)
Lemma trie_push nodes paths entries node here p k :
  trie_ok nodes paths entries -> nodes !! node = Some here -> paths !! node = Some p -> tn_children here !! k = None ->
  trie_ok (<[node := mkTrieNode (<[k := length nodes]> (tn_children here)) (tn_terminals here)]> nodes ++ [TrieNode_default])
    (paths ++ [p ++ [k]]) entries.
Proof.
  intros Ht Hh Hp Hk. pose proof (to_len _ _ _ Ht) as Hlen.
  assert (Hnew : p ++ [k] ∉ paths).
  { intros [j Hj]%list_elem_of_lookup. apply (to_child _ _ _ Ht _ _ _ _ _ Hh Hp) in Hj. congruence. }
  assert (Hold : forall i n, (<[node := mkTrieNode (<[k := length nodes]> (tn_children here)) (tn_terminals here)]> nodes ++ [TrieNode_default]) !! i = Some n ->
    (i = node /\ n = mkTrieNode (<[k := length nodes]> (tn_children here)) (tn_terminals here)) \/ (i <> node /\ nodes !! i = Some n) \/ (i = length nodes /\ n = TrieNode_default)).
  { intros i n Hi. pose proof (lookup_lt_Some _ _ _ Hh). apply lookup_app_Some in Hi as [Hi|[Hi1 Hi2]].
    - destruct (decide (i = node)) as [->|Hne]; [left|right; left].
      + rewrite list_lookup_insert_eq in Hi by done. by simplify_eq.
      + by rewrite list_lookup_insert_ne in Hi.
    - right; right. rewrite length_insert in *. apply list_lookup_singleton_Some in Hi2 as [? <-]. split; [lia|done]. }
  assert (Hpath : forall i q, (paths ++ [p ++ [k]]) !! i = Some q <-> paths !! i = Some q \/ (i = length nodes /\ q = p ++ [k])).
  { intros i q. rewrite lookup_app_Some, list_lookup_singleton_Some. split.
    - intros [Hi|(Hi & Hd & <-)]; [by left|right; split; [lia|done]].
    - intros [Hi|[-> ->]]; [by left|right; split_and!; [lia|lia|done]]. }
  pose proof (lookup_lt_Some _ _ _ Hh) as Hlt.
  split.
  - rewrite !length_app, length_insert. cbn. lia.
  - apply NoDup_app. split_and!; [apply (to_nodup _ _ _ Ht)| |apply NoDup_singleton]. by intros q Hq ->%list_elem_of_singleton.
  - apply Hpath. left. apply (to_root _ _ _ Ht).
  - intros i n q c j Hi Hq. rewrite Hpath in *. destruct Hq as [Hq|[Hq1 Hq2]]; apply Hold in Hi as [[-> ->]|[[Hne Hi]|[-> ->]]]; subst.
    + simplify_eq. cbn [tn_children]. destruct (decide (c = k)) as [->|Hc].
      * rewrite lookup_insert_eq. split; [intros [= <-]; by right|]. intros [Hj|[-> _]]; [|done]. destruct Hnew. by eapply list_elem_of_lookup_2.
      * rewrite lookup_insert_ne by done. rewrite (to_child _ _ _ Ht _ _ _ _ _ Hh Hp). split; [by left|]. intros [?|[_ [_ ?]%app_inj_2]]; [done| |done]; by simplify_eq.
    + rewrite (to_child _ _ _ Ht _ _ _ _ _ Hi Hq). split; [by left|]. intros [?|[_ [E ?]%app_inj_2]]; [done| |done].
      destruct Hne. subst. by eapply paths_lookup.
    + apply lookup_lt_Some in Hq. lia.
    + apply lookup_lt_Some in Hp. lia.
    + apply lookup_lt_Some in Hi. lia.
    + rewrite children_default. split; [done|]. intros [Hj|[_ [E _]%app_inj_2]]; [| |done].
      * destruct Hnew. apply (to_closed _ _ _ Ht _ c). by eapply list_elem_of_lookup_2.
      * exfalso. apply (f_equal length) in E. rewrite length_app in E. cbn in E. lia.
  - intros q c Hq. apply elem_of_app in Hq as [Hq|Hq%list_elem_of_singleton]; apply elem_of_app; left.
    + by eapply (to_closed _ _ _ Ht).
    + apply app_inj_2 in Hq as [-> _]; [|done]. by eapply list_elem_of_lookup_2.
  - intros i n q Hi Hq. rewrite Hpath in Hq. destruct Hq as [Hq|[-> ->]]; apply Hold in Hi as [[Hi1 ->]|[[Hne Hi]|[Hi1 ->]]]; subst.
    + cbn. by apply (to_terminals _ _ _ Ht node).
    + by apply (to_terminals _ _ _ Ht i).
    + apply lookup_lt_Some in Hq. lia.
    + apply lookup_lt_Some in Hp. lia.
    + apply lookup_lt_Some in Hi. lia.
    + rewrite filter_none; [done|]. intros e He%(to_entries _ _ _ Ht) E. by rewrite E in He.
  - intros e He. apply elem_of_app. left. by apply (to_entries _ _ _ Ht).
Qed.

Lemma trie_step_ok nodes paths entries node p k :
  trie_ok nodes paths entries -> paths !! node = Some p ->
  exists nodes' paths' node', trie_step (Some (nodes, node)) k = Some (nodes', node') /\ trie_ok nodes' paths' entries /\
    paths' !! node' = Some (p ++ [k]).
Proof.
  intros Ht Hp. assert (is_Some (nodes !! node)) as [here Hh].
  { apply lookup_lt_is_Some. rewrite <-(to_len _ _ _ Ht). by eapply lookup_lt_Some. }
  cbn. rewrite Hh. cbn. destruct (tn_children here !! k) as [next|] eqn:Ek.
  - exists nodes, paths, next. split_and!; [done|done|]. by apply (to_child _ _ _ Ht _ _ _ _ _ Hh Hp).
  - eexists _, (paths ++ [p ++ [k]]), (length nodes). split_and!; [done|by apply trie_push|].
    rewrite <-(to_len _ _ _ Ht). apply list_lookup_middle. done.
Qed.
Lemma trie_steps_ok ks nodes paths entries node p :
  trie_ok nodes paths entries -> paths !! node = Some p ->
  exists nodes' paths' node', fold_left trie_step ks (Some (nodes, node)) = Some (nodes', node') /\ trie_ok nodes' paths' entries /\
    paths' !! node' = Some (p ++ ks).
Proof.
  revert nodes paths node p. induction ks as [|k ks IH]; intros nodes paths node p Ht Hp.
  { exists nodes, paths, node. by rewrite app_nil_r. }
  destruct (trie_step_ok _ _ _ _ _ k Ht Hp) as (nodes' & paths' & node' & E & Ht' & Hp').
  destruct (IH _ _ _ _ Ht' Hp') as (n2 & p2 & i2 & E2 & Ht2 & Hp2). exists n2, p2, i2. cbn [fold_left]. rewrite E, E2.
  split_and!; [done|done|]. by rewrite <-(assoc_L (++)) in Hp2.
Qed.

Lemma insert_variant_ok nodes paths entries r ks :
  trie_ok nodes paths entries ->
  exists nodes' paths', insert_variant nodes r ks = Some nodes' /\ trie_ok nodes' paths' (entries ++ [(ks, r)]).
Proof.
  intros Ht. destruct (trie_steps_ok ks _ _ _ _ _ Ht (to_root _ _ _ Ht)) as (nodes' & paths' & node & E & Ht' & Hp).
  rewrite app_nil_l in Hp. unfold insert_variant. rewrite E. cbn. assert (is_Some (nodes' !! node)) as [here Hh].
  { apply lookup_lt_is_Some. rewrite <-(to_len _ _ _ Ht'). by eapply lookup_lt_Some. }
  rewrite Hh. cbn. eexists _, paths'. split; [done|].
  assert (Hlook : forall i n, <[node := mkTrieNode (tn_children here) (tn_terminals here ++ [r])]> nodes' !! i = Some n ->
    (i = node /\ n = mkTrieNode (tn_children here) (tn_terminals here ++ [r])) \/ (i <> node /\ nodes' !! i = Some n)).
  { intros i n Hi. apply list_lookup_insert_Some in Hi as [(<- & <- & _)|[? ?]]; [by left|right]. by split. }
  destruct Ht' as [H1 H2 H3 H4 H5 H6 H7]. split; try done.
  - by rewrite length_insert.
  - intros i n p k j Hi Hq. apply Hlook in Hi as [[-> ->]|[Hne Hi]]; [|by eapply H4]. cbn. by eapply H4.
  - intros i n p Hi Hq. rewrite filter_app, fmap_app. apply Hlook in Hi as [[-> ->]|[Hne Hi]].
    + simplify_eq. cbn [tn_terminals]. rewrite (H6 _ _ _ Hh Hp). f_equal. by rewrite filter_cons_True.
    + rewrite (H6 _ _ _ Hi Hq), (filter_none _ [_]); [by rewrite app_nil_r|]. intros e ->%list_elem_of_singleton. cbn. intros <-.
      destruct Hne. by eapply NoDup_lookup.
  - intros e [He| ->%list_elem_of_singleton]%elem_of_app; [by apply H7|]. cbn. by eapply list_elem_of_lookup_2.
Qed.

(** ** Dictionaries *)

Section dictionary.
Context {CC : CharClasses} {CT : CaseTables}.
Context (analyze : str -> list str).
Abbreviation key := (key analyze).

(** The entries a builder can be given: forms the parsers return. *)
Definition made (v : Variant) : Prop := exists text case_, with_case text case_ = inl v.
Inductive built : DictionaryBuilder -> Prop :=
| built_new : built builder_new
| built_roman b config : built b -> built (builder_roman b config)
| built_group b variants one_way b' : built b -> Forall made variants -> push_group b variants one_way = inl b' -> built b'.

Definition group_ok (g : Group) : Prop :=
  (2 <= length (gr_variants g))%nat /\ NoDup (gr_variants g) /\
  Forall (fun v => (1 <= length (va_tokens v) <= MAX_PHRASE_TOKENS)%nat) (gr_variants g).

Lemma made_tokens v : made v -> (1 <= length (va_tokens v) <= MAX_PHRASE_TOKENS)%nat.
Proof.
  intros (text & c & E). unfold with_case in E. case_bool_decide as Hn; [done|].
  destruct (Nat.ltb_spec MAX_PHRASE_TOKENS (length (tokenize text))) as [|Hle]; [done|]. simplify_eq/=.
  destruct (tokenize text); [done|]. cbn [length] in *. lia.
Qed.
Lemma parse_variant_made spec v : parse_variant spec = inl v -> made v.
Proof.
  unfold parse_variant, Variant_new. destruct spec as [|c rest]; [|destruct (c =? 126)]; intros E; by eexists _, _.
Qed.
Lemma parse_variants_made specs vs : parse_variants specs = inl vs -> Forall made vs.
Proof.
  revert vs. induction specs as [|spec specs IH]; intros vs E; cbn in E; [simplify_eq; constructor|].
  destruct (parse_variant spec) as [v|] eqn:Ev; [|done]. destruct (parse_variants specs) as [ws|] eqn:Ew; [|done]. simplify_eq.
  constructor; [by eapply parse_variant_made|by apply IH].
Qed.
Lemma dedupe_acc variants seen :
  NoDup seen -> let unique := fold_left (fun seen variant => if bool_decide (variant ∈ seen) then seen else seen ++ [variant]) variants seen in
  NoDup unique /\ forall v : Variant, v ∈ unique <-> v ∈ seen \/ v ∈ variants.
Proof.
  revert seen. induction variants as [|v variants IH]; intros seen Hs; cbn [fold_left].
  { split; [done|]. intros v. rewrite elem_of_nil. naive_solver. }
  case_bool_decide as Hv.
  - destruct (IH seen Hs) as [H1 H2]. split; [done|]. intros w. rewrite H2, elem_of_cons. naive_solver.
  - destruct (IH (seen ++ [v])) as [H1 H2].
    { apply NoDup_app. split_and!; [done| |apply NoDup_singleton]. by intros w Hw ->%list_elem_of_singleton. }
    split; [done|]. intros w. rewrite H2, elem_of_cons, elem_of_app, list_elem_of_singleton. tauto.
Qed.
Lemma dedupe_ok variants unique :
  dedupe_variants variants = inl unique -> (2 <= length unique)%nat /\ NoDup unique /\ forall v, v ∈ unique <-> v ∈ variants.
Proof.
  unfold dedupe_variants. destruct (dedupe_acc variants []) as [H1 H2]; [constructor|]. intros E.
  destruct (Nat.ltb_spec (length (fold_left (fun seen variant => if bool_decide (variant ∈ seen) then seen else seen ++ [variant]) variants [])) 2); [done|].
  injection E as <-. split_and!; [done|done|]. intros v. rewrite H2, elem_of_nil. tauto.
Qed.
Lemma built_ok b : built b -> Forall group_ok (db_groups b).
Proof.
  induction 1 as [|b config _ IH|b variants one_way b' _ IH Hm E]; [constructor|done|]. unfold push_group in E.
  destruct (dedupe_variants variants) as [unique|] eqn:Ed; [|done]. injection E as <-. cbn [db_groups]. apply Forall_app. split; [done|].
  apply Forall_singleton. apply dedupe_ok in Ed as (H1 & H2 & H3). split_and!; [done|done|]. apply Forall_forall. intros v Hv%H3.
  apply made_tokens. rewrite Forall_forall in Hm. by apply Hm.
Qed.

(** The forms that are looked up, each with its place. *)
Definition group_forms (g : nat) (group : Group) : list (Variant * VariantRef) :=
  imap (fun v variant => (variant, mkVariantRef g v)) (if gr_one_way group then take 1 (gr_variants group) else gr_variants group).
Definition forms (groups : list Group) : list (Variant * VariantRef) := concat (imap group_forms groups).
Definition form_entry (f : Variant * VariantRef) : list str * VariantRef := (key f.1, f.2).

Lemma insert_forms_ok (g : nat) (variants : list Variant) (start : nat) nodes paths entries :
  trie_ok nodes paths entries ->
  exists nodes' paths',
    fold_left (fun nodes '(variant_index, variant) => nodes ← nodes; insert_variant nodes (mkVariantRef g variant_index) (key variant))
      (imap (fun v variant => ((start + v)%nat, variant)) variants) (Some nodes) = Some nodes' /\
    trie_ok nodes' paths' (entries ++ imap (fun v variant => (key variant, mkVariantRef g (start + v))) variants).
Proof.
  revert start nodes paths entries. induction variants as [|v variants IH]; intros start nodes paths entries Ht.
  { exists nodes, paths. by rewrite app_nil_r. }
  destruct (insert_variant_ok _ _ _ (mkVariantRef g start) (key v) Ht) as (n1 & p1 & E1 & Ht1).
  destruct (IH (S start) _ _ _ Ht1) as (n2 & p2 & E2 & Ht2). exists n2, p2. rewrite !imap_cons. cbn [fold_left].
  rewrite Nat.add_0_r. cbn [mbind option_bind]. rewrite E1. rewrite <-(assoc_L (++)) in Ht2.
  split; [rewrite <-E2; f_equal; apply imap_ext; intros; cbn; f_equal; lia|].
  erewrite imap_ext; [exact Ht2|]. intros i x Hx. cbn. do 2 f_equal. lia.
Qed.

Lemma build_forms_ok (groups : list Group) (start : nat) nodes paths entries :
  Forall group_ok groups -> trie_ok nodes paths entries ->
  exists nodes' paths',
    fold_left (insert_group analyze) (imap (fun g group => ((start + g)%nat, group)) groups) (Some nodes) = Some nodes' /\
    trie_ok nodes' paths' (entries ++ (form_entry <$> concat (imap (fun g => group_forms (start + g)) groups))).
Proof.
  intros Hg. revert start nodes paths entries. induction Hg as [|group groups Hgr Hg IH]; intros start nodes paths entries Ht.
  { exists nodes, paths. by rewrite app_nil_r. }
  rewrite !imap_cons. cbn [fold_left concat]. rewrite Nat.add_0_r, fmap_app, (assoc_L (++)).
  assert (exists n1 p1, insert_group analyze (Some nodes) (start, group) = Some n1 /\ trie_ok n1 p1 (entries ++ (form_entry <$> group_forms start group)))
    as (n1 & p1 & E1 & Ht1).
  { unfold insert_group, group_forms. cbn [mbind option_bind fst snd].
    assert (Hne : gr_variants group <> []) by (destruct Hgr as [Hl _]; destruct (gr_variants group); [cbn in Hl; lia|done]).
    assert (exists variants, findable group = Some variants /\ variants = if gr_one_way group then take 1 (gr_variants group) else gr_variants group)
      as (variants & Ev & <-).
    { unfold findable. destruct (gr_one_way group); [|by eexists]. by destruct (gr_variants group) as [|first variants]; [|eexists]. }
    rewrite Ev. cbn [mbind option_bind].
    destruct (insert_forms_ok start variants 0 _ _ _ Ht) as (n1 & p1 & E1 & Ht1). exists n1, p1. split; [exact E1|].
    rewrite fmap_imap. exact Ht1. }
  rewrite E1. destruct (IH (S start) _ _ _ Ht1) as (n2 & p2 & E2 & Ht2). exists n2, p2.
  split; [rewrite <-E2; f_equal; apply imap_ext; intros; cbn; f_equal; lia|].
  erewrite imap_ext; [exact Ht2|]. intros i x Hx. cbn. f_equal. lia.
Qed.
Lemma build_ok b :
  Forall group_ok (db_groups b) ->
  exists nodes paths, build analyze b = Some (mkSynonymDictionary nodes (db_groups b) (db_roman b)) /\
    trie_ok nodes paths (form_entry <$> forms (db_groups b)).
Proof.
  intros Hg. destruct (build_forms_ok (db_groups b) 0 _ _ _ Hg trie_ok_new) as (nodes & paths & E & Ht).
  exists nodes, paths. unfold build. split; [|exact Ht]. change (imap pair (db_groups b)) with (imap (fun g group => ((0 + g)%nat, group)) (db_groups b)).
  by rewrite E.
Qed.

(** ** Matches *)

(** The forms that the first [len] words were typed as. *)
Definition typed_as (groups : list Group) (surface keys : list str) (len : nat) : list (Variant * VariantRef) :=
  filter (fun f => key f.1 = take len keys /\ matches f.1 (take len surface) = true) (forms groups).

Lemma forms_variant groups f : f ∈ forms groups -> variant_at groups f.2 = Some f.1.
Proof.
  unfold forms. intros (l & Hl & Hf)%list_elem_of_In%in_concat. apply list_elem_of_In in Hl, Hf.
  apply elem_of_lookup_imap in Hl as (g & group & -> & Hg). unfold group_forms in Hf. apply elem_of_lookup_imap in Hf as (v & variant & -> & Hv).
  unfold variant_at. cbn. rewrite Hg. cbn. destruct (gr_one_way group); [|done]. by apply lookup_take_Some in Hv as [? _].
Qed.
Lemma matched_refs_spec groups typed p fs :
  (forall f, f ∈ fs -> variant_at groups f.2 = Some f.1) ->
  matched_refs groups typed (filter (fun e => e.1 = p) (form_entry <$> fs)).*2 =
  Some (filter (fun f => key f.1 = p /\ matches f.1 typed = true) fs).*2.
Proof.
  induction fs as [|f fs IH]; intros Hf; [done|]. cbn [fmap list_fmap].
  assert (IH' := IH (fun f' H => Hf f' (proj2 (elem_of_cons _ _ _) (or_intror H)))). clear IH.
  destruct (decide (key f.1 = p)) as [Hk|Hk].
  - rewrite filter_cons_True by done. cbn [fmap list_fmap matched_refs form_entry snd]. rewrite Hf by left. cbn [mbind option_bind].
    rewrite IH'. cbn [mbind option_bind]. rewrite filter_cons. destruct (matches f.1 typed) eqn:Em; [rewrite decide_True by done|rewrite decide_False by naive_solver]; done.
  - rewrite filter_cons_False by done. rewrite IH'. by rewrite filter_cons_False by naive_solver.
Qed.
Lemma trie_prefix nodes paths entries p q : trie_ok nodes paths entries -> p ++ q ∈ paths -> p ∈ paths.
Proof.
  intros Ht. induction q as [|k q IH] using rev_ind; [by rewrite app_nil_r|]. rewrite (assoc_L (++)). intros H. apply IH. by eapply (to_closed _ _ _ Ht).
Qed.
(** No form goes on below a missing child. *)
Lemma no_child_no_form nodes paths groups surface pre k rest len :
  trie_ok nodes paths (form_entry <$> forms groups) -> (pre ++ [k]) ∉ paths -> (length pre < len)%nat ->
  typed_as groups surface (pre ++ k :: rest) len = [].
Proof.
  intros Ht Hn Hl. apply filter_none. intros f Hf [Hk _]. apply Hn.
  assert (He : key f.1 ∈ paths) by (apply (to_entries _ _ _ Ht (form_entry f)); by apply list_elem_of_fmap_2).
  rewrite Hk in He. replace (take len (pre ++ k :: rest)) with ((pre ++ [k]) ++ take (len - length pre - 1) rest) in He.
  - by eapply trie_prefix.
  - rewrite take_app, (take_ge pre) by lia. rewrite <-(assoc_L (++)). f_equal. destruct (len - length pre)%nat eqn:E; [lia|]. cbn. do 2 f_equal. lia.
Qed.

Lemma match_loop_spec nodes paths groups roman surface accept_len keys pre node best :
  trie_ok nodes paths (form_entry <$> forms groups) -> paths !! node = Some pre -> (length pre + length keys <= length surface)%nat ->
  let K := pre ++ keys in
  exists r, match_loop (mkSynonymDictionary nodes groups roman) surface accept_len keys (length pre) node best = Some r /\
    ((r = best /\ forall len, (length pre < len <= length K)%nat -> accept_len len = true -> typed_as groups surface K len = []) \/
     exists len, (length pre < len <= length K)%nat /\ accept_len len = true /\ typed_as groups surface K len <> [] /\
       r = Some (len, (typed_as groups surface K len).*2) /\
       forall len', (len < len' <= length K)%nat -> accept_len len' = true -> typed_as groups surface K len' = []).
Proof.
  intros Ht. revert pre node best. induction keys as [|k keys IH]; intros pre node best Hp Hlen K.
  { exists best. split; [done|]. left. split; [done|]. intros len Hl. unfold K in Hl. rewrite app_nil_r in Hl. lia. }
  assert (HK : K = (pre ++ [k]) ++ keys) by (unfold K; by rewrite <-(assoc_L (++))).
  assert (Hlook : forall i q, paths !! i = Some q -> is_Some (nodes !! i)).
  { intros i q Hi. apply lookup_lt_is_Some. rewrite <-(to_len _ _ _ Ht). by eapply lookup_lt_Some. }
  destruct (Hlook _ _ Hp) as [here Hh]. cbn [match_loop sd_nodes]. rewrite Hh. cbn [mbind option_bind].
  destruct (tn_children here !! k) as [next|] eqn:Ek.
  2: { exists best. split; [done|]. left. split; [done|]. intros len Hl _. eapply no_child_no_form; [done| |lia].
    intros [j Hj]%list_elem_of_lookup. apply (to_child _ _ _ Ht _ _ _ _ _ Hh Hp) in Hj. congruence. }
  apply (to_child _ _ _ Ht _ _ _ _ _ Hh Hp) in Ek as Hn. cbn [length] in Hlen.
  specialize (fun best => IH (pre ++ [k]) next best Hn). rewrite length_app in IH. cbn [length] in IH. rewrite Nat.add_1_r in IH.
  specialize (fun best => IH best ltac:(lia)). cbv zeta in IH. rewrite <-HK in IH.
  destruct (accept_len (S (length pre))) eqn:Ea; cbn [negb].
  2: { destruct (IH best) as (r & -> & Hr). exists r. split; [done|]. destruct Hr as [[-> Hr]|(len & Hl & Hr)].
    - left. split; [done|]. intros len Hl Hal. apply Hr; [|done]. destruct (decide (len = S (length pre))); [congruence|lia].
    - right. exists len. split; [lia|done]. }
  destruct (Hlook _ _ Hn) as [there Hth]. rewrite Hth. cbn [mbind option_bind].
  assert (Hm : (if bool_decide (tn_terminals there = []) then Some []
    else typed ← slice_to surface (S (length pre)); matched_refs groups typed (tn_terminals there)) = Some (typed_as groups surface K (S (length pre))).*2).
  { assert (Htk : take (S (length pre)) K = pre ++ [k]) by (rewrite HK; apply take_app_length'; rewrite length_app; cbn; lia).
    pose proof (matched_refs_spec groups (take (S (length pre)) surface) (pre ++ [k]) (forms groups) (forms_variant groups)) as Hm.
    rewrite <-(to_terminals _ _ _ Ht _ _ _ Hth Hn) in Hm. unfold typed_as. rewrite Htk, <-Hm. case_bool_decide as E; [by rewrite E|].
    unfold slice_to. destruct (Nat.leb_spec (S (length pre)) (length surface)); [done|lia]. }
  cbn [sd_groups]. rewrite Hm. cbn [mbind option_bind].
  destruct (IH (if bool_decide ((typed_as groups surface K (S (length pre))).*2 = []) then best
    else Some (S (length pre), (typed_as groups surface K (S (length pre))).*2))) as (r & -> & Hr). exists r. split; [done|].
  destruct Hr as [[-> Hr]|(len & Hl & Hr)]; [|right; exists len; split; [lia|done]].
  destruct (bool_decide_reflect ((typed_as groups surface K (S (length pre))).*2 = [])) as [E|E].
  - left. split; [done|]. intros len Hl Hal. destruct (decide (len = S (length pre))) as [->|]; [by apply fmap_nil_inv in E|apply Hr; [lia|done]].
  - right. exists (S (length pre)). split_and!; [lia| |done| |done|].
    + unfold K. rewrite length_app. cbn. lia.
    + intros E'. apply E. by rewrite E'.
    + intros len' Hl'. apply Hr. lia.
Qed.

(** What a list of alternatives collects: every node once, marked when it was offered as a number. *)
Definition collects (out : list NodeAlternative) (offered : NodeAlternative -> Prop) : Prop :=
  NoDup (na_node <$> out) /\
  (forall node, node ∈ na_node <$> out <-> exists b, offered b /\ na_node b = node) /\
  (forall a, a ∈ out -> na_numeral a = true <-> exists b, offered b /\ na_node b = na_node a /\ na_numeral b = true).
Lemma push_unique_cases out a :
  ((na_node a ∉ na_node <$> out) /\ push_unique out a = out ++ [a]) \/
  exists l1 known l2, out = l1 ++ known :: l2 /\ na_node known = na_node a /\
    push_unique out a = l1 ++ mkNodeAlternative (na_node known) (na_numeral known || na_numeral a) :: l2.
Proof.
  induction out as [|x out IH]; cbn; [left; split; [apply not_elem_of_nil|done]|].
  case_bool_decide as E; [right; by exists [], x, out|]. destruct IH as [[H1 ->]|(l1 & known & l2 & -> & Hk & ->)].
  - left. split; [|done]. rewrite not_elem_of_cons. split; [congruence|done].
  - right. by exists (x :: l1), known, l2.
Qed.
Lemma collects_push out offered a : collects out offered -> collects (push_unique out a) (fun b => offered b \/ b = a).
Proof.
  unfold collects. intros (Hn & Hd & Hf). destruct (push_unique_cases out a) as [[Hna ->]|(l1 & known & l2 & -> & Hk & ->)].
  - rewrite fmap_app. cbn [fmap list_fmap]. split_and!.
    + apply NoDup_app. split_and!; [done| |apply NoDup_singleton]. by intros n Hin ->%list_elem_of_singleton.
    + intros node. rewrite elem_of_app, list_elem_of_singleton, Hd. split; [intros [(b & ? & <-)| ->]; eauto|]. intros (b & [?|<-] & <-); eauto.
    + intros b [Hb| ->%list_elem_of_singleton]%elem_of_app.
      * rewrite Hf by done. split; [intros (c & ? & ? & ?); eauto|]. intros (c & [?| ->] & E & ?); [by eauto|].
        destruct Hna. rewrite E. by apply list_elem_of_fmap_2.
      * split; [intros E; exists a; auto|]. intros (c & [Hc| ->] & E & ?); [|done]. destruct Hna. apply Hd. eauto.
  - rewrite fmap_app, fmap_cons in *. cbn [na_node] in *. split_and!; [done| |].
    + intros node. rewrite Hd. split; [intros (b & ? & <-); eauto|]. intros (b & [?| ->] & <-); [by eauto|].
      apply Hd. rewrite <-Hk. apply elem_of_app. right. left.
    + intros b Hb. assert (Hnum : forall c, c ∈ l1 ++ known :: l2 -> na_node c = na_node known -> c = known).
      { intros c Hc E. apply list_elem_of_lookup in Hc as [i Hi]. assert (i = length l1) as ->.
        - eapply (NoDup_lookup (na_node <$> l1 ++ known :: l2)); [by rewrite fmap_app, fmap_cons| |].
          + rewrite list_lookup_fmap, Hi. cbn. by rewrite E.
          + by rewrite list_lookup_fmap, list_lookup_middle.
        - rewrite list_lookup_middle in Hi by done. congruence. }
      assert (Hcase : b = mkNodeAlternative (na_node known) (na_numeral known || na_numeral a) \/ (b ∈ l1 ++ known :: l2 /\ na_node b <> na_node known)).
      { apply elem_of_app in Hb as [Hb|[->|Hb]%elem_of_cons]; [right|by left|right]; (split; [set_solver|]); intros E;
          apply NoDup_app in Hn as (_ & Hn1 & [Hn2 _]%NoDup_cons).
        - apply (Hn1 (na_node b)); [by apply list_elem_of_fmap_2|]. rewrite E. left.
        - apply Hn2. rewrite <-E. by apply list_elem_of_fmap_2. }
      destruct Hcase as [->|[Hin Hne]].
      * cbn. rewrite orb_true_iff, Hf by (apply elem_of_app; right; left). split.
        -- intros [(c & ? & ? & ?)|Ha]; [by eauto|exists a; auto].
        -- intros (c & [?| ->] & ? & ?); [left; eauto|by right].
      * rewrite Hf by done. split; [intros (c & ? & ? & ?); eauto|]. intros (c & [?| ->] & E & ?); [by eauto|congruence].
Qed.
Lemma collects_ext out P Q : (forall b, P b <-> Q b) -> collects out P -> collects out Q.
Proof.
  intros H (H1 & H2 & H3). split_and!; [done| |].
  - intros node. rewrite H2. by setoid_rewrite H.
  - intros a Ha. rewrite H3 by done. by setoid_rewrite H.
Qed.
Lemma collects_fold more out offered :
  collects out offered -> collects (fold_left push_unique more out) (fun b => offered b \/ b ∈ more).
Proof.
  revert out offered. induction more as [|a more IH]; intros out offered Ho; cbn.
  - eapply collects_ext; [|exact Ho]. intros b. rewrite elem_of_nil. tauto.
  - eapply collects_ext; [|apply IH, collects_push, Ho]. intros b. cbn. rewrite elem_of_cons. tauto.
Qed.
Lemma collects_nil : collects [] (fun _ => False).
Proof. split_and!; [constructor| |]; [intros node; cbn; rewrite elem_of_nil; naive_solver|intros a Ha; by apply elem_of_nil in Ha]. Qed.

(** The alternatives of a match: every form of every entry that matched, and the other form of a
    single number. *)
Definition offers (self : SynonymDictionary) (surface : list str) (len : nat) (typed : list (Variant * VariantRef)) (a : NodeAlternative) : Prop :=
  (exists f group v, f ∈ typed /\ sd_groups self !! vr_group f.2 = Some group /\ v ∈ gr_variants group /\ a = alternative_of v) \/
  (len = 1%nat /\ exists first numbers, head surface = Some first /\ expand_number self first = Some numbers /\ a ∈ numbers).

Lemma mapM_variants groups (typed : list (Variant * VariantRef)) :
  (forall f, f ∈ typed -> variant_at groups f.2 = Some f.1) -> mapM (variant_at groups) typed.*2 = Some typed.*1.
Proof.
  intros H. apply mapM_Some. rewrite Forall2_fmap. apply Forall_Forall2_diag, Forall_forall. intros f Hf. by apply H.
Qed.
Lemma group_alternatives_spec self surface typed :
  (forall f, f ∈ typed -> variant_at (sd_groups self) f.2 = Some f.1) ->
  exists out, group_alternatives (sd_groups self) (remove_dups (merge_sort (≤)%nat (vr_group <$> typed.*2))) = Some out /\
    collects out (offers self surface 0 typed).
Proof.
  intros Hv. set (numbers := remove_dups (merge_sort (≤)%nat (vr_group <$> typed.*2))).
  assert (Hin : forall g, g ∈ numbers <-> exists f, f ∈ typed /\ vr_group f.2 = g).
  { intros g. unfold numbers. rewrite elem_of_remove_dups, merge_sort_Permutation, !list_elem_of_fmap. split.
    - intros (r & -> & (f & -> & Hf)%list_elem_of_fmap). eauto.
    - intros (f & Hf & <-). exists f.2. split; [done|]. by apply list_elem_of_fmap_2. }
  assert (Hsome : Forall (fun g => is_Some (sd_groups self !! g)) numbers).
  { apply Forall_forall. intros g (f & Hf & <-)%Hin. apply Hv in Hf. unfold variant_at in Hf. by destruct (sd_groups self !! vr_group f.2). }
  apply mapM_is_Some_2 in Hsome as [groups Hm]. unfold group_alternatives. rewrite Hm. cbn. eexists. split; [done|].
  eapply collects_ext; [|apply (collects_fold (alternative_of <$> concat (gr_variants <$> groups)) _ _ collects_nil)]. intros a. cbn beta.
  apply mapM_Some in Hm. rewrite list_elem_of_fmap. unfold offers. split.
  - intros [[]|(v & -> & (vs & Hvs & Hvin)%list_elem_of_In%in_concat)]. apply list_elem_of_In in Hvs, Hvin.
    apply list_elem_of_fmap in Hvs as (group & -> & Hg). apply list_elem_of_lookup in Hg as [i Hi].
    destruct (Forall2_lookup_r _ _ _ _ _ Hm Hi) as (g & Hgi & Hgg). apply list_elem_of_lookup_2, Hin in Hgi as (f & Hf & <-). left. eauto 10.
  - intros [(f & group & v & Hf & Hg & Hvin & ->)|[? _]]; [|done]. right. exists v. split; [done|].
    apply list_elem_of_In, in_concat. exists (gr_variants group). rewrite <-!list_elem_of_In. split; [|done]. apply list_elem_of_fmap_2.
    assert (Hn : vr_group f.2 ∈ numbers) by (apply Hin; eauto). apply list_elem_of_lookup in Hn as [i Hi].
    destruct (Forall2_lookup_l _ _ _ _ _ Hm Hi) as (g' & Hgi & Hgg). rewrite Hg in Hgg. simplify_eq. by eapply list_elem_of_lookup_2.
Qed.

(** What [match_at] answers for words typed as [typed]. *)
Definition match_of (self : SynonymDictionary) (surface : list str) (typed : list (Variant * VariantRef)) (len : nat) (m : Match) : Prop :=
  ma_len m = len /\ collects (ma_alternatives m) (offers self surface len typed) /\
  ma_typed_exact m = typed_exact_of typed.*1 /\ ma_typed_short_form m = existsb is_short_form typed.*1.
(** The longest accepted number of words that are a form of the dictionary, or that there is none. *)
Definition longest_match (self : SynonymDictionary) (surface keys : list str) (accept_len : nat -> bool) (found : option Match) : Prop :=
  let n := Nat.min MAX_PHRASE_TOKENS (length keys) in
  match found with
  | None => forall len, (1 <= len <= n)%nat -> accept_len len = true -> typed_as (sd_groups self) surface keys len = []
  | Some m =>
    (1 <= ma_len m <= n)%nat /\ accept_len (ma_len m) = true /\ typed_as (sd_groups self) surface keys (ma_len m) <> [] /\
    match_of self surface (typed_as (sd_groups self) surface keys (ma_len m)) (ma_len m) m /\
    forall len, (ma_len m < len <= n)%nat -> accept_len len = true -> typed_as (sd_groups self) surface keys len = []
  end.

Lemma typed_as_take groups surface keys n len :
  (len <= n)%nat -> typed_as groups surface (take n keys) len = typed_as groups surface keys len.
Proof. intros H. unfold typed_as. by rewrite take_take, Nat.min_l. Qed.

Lemma match_at_spec nodes paths groups roman surface keys accept_len :
  let self := mkSynonymDictionary nodes groups roman in
  trie_ok nodes paths (form_entry <$> forms groups) -> (length keys <= length surface)%nat ->
  exists found, match_at self surface keys accept_len = Some found /\ longest_match self surface keys accept_len found.
Proof.
  intros self Ht Hl. set (n := Nat.min MAX_PHRASE_TOKENS (length keys)). set (K := take MAX_PHRASE_TOKENS keys).
  assert (HK : length K = n) by (unfold K; by rewrite length_take).
  assert (Htyped : forall len, (len <= n)%nat -> typed_as groups surface K len = typed_as groups surface keys len).
  { intros len Hlen. apply typed_as_take. unfold n in Hlen. lia. }
  destruct (match_loop_spec nodes paths groups roman surface accept_len K [] 0 None Ht (to_root _ _ _ Ht)) as (r & E & Hr).
  { rewrite HK. cbn [length]. lia. }
  rewrite app_nil_l in Hr. cbn [length] in E, Hr. rewrite HK in Hr. unfold match_at. fold K self. unfold self in E. fold self in E. rewrite E. cbn [mbind option_bind].
  destruct Hr as [[-> Hr]|(len & Hlen & Ha & Hne & -> & Hr)].
  { exists None. split; [done|]. intros len Hlen Hacc. fold n in Hlen. cbn [self sd_groups]. rewrite <-Htyped by lia. apply Hr; [lia|done]. }
  rewrite Htyped in * by lia. set (typed := typed_as groups surface keys len) in *.
  assert (Hv : forall f, f ∈ typed -> variant_at (sd_groups self) f.2 = Some f.1).
  { intros f [_ Hf]%list_elem_of_filter. by apply forms_variant. }
  rewrite (mapM_variants _ _ Hv). cbn [mbind option_bind].
  destruct (group_alternatives_spec self surface typed Hv) as (out & -> & Hc). cbn [mbind option_bind].
  assert (exists out', (if (len =? 1)%nat then first ← head surface; Some (fold_left push_unique (default [] (expand_number self first)) out)
    else Some out) = Some out' /\ collects out' (offers self surface len typed)) as (out' & -> & Hc').
  { destruct (Nat.eqb_spec len 1) as [->|Hlen1].
    - destruct surface as [|first surface]; [cbn [length] in Hl; unfold n in Hlen; lia|]. cbn [head mbind option_bind]. eexists. split; [done|].
      eapply collects_ext; [|apply collects_fold, Hc]. intros a. cbn beta. unfold offers. cbn [head].
      destruct (expand_number self first) as [numbers|] eqn:En; cbn [default]; split.
      + intros [[H|[? _]]|H]; [by left|done|]. right. split; [done|]. exists first, numbers. done.
      + intros [H|(_ & f & ns & [= <-] & ? & ?)]; [by left; left|]. right. by simplify_eq.
      + intros [[H|[? _]]|H]; [by left|done|]. by apply elem_of_nil in H.
      + intros [H|(_ & f & ns & [= <-] & ? & ?)]; [by left; left|congruence].
    - eexists. split; [done|]. eapply collects_ext; [|exact Hc]. intros a. unfold offers. naive_solver. }
  cbn [mbind option_bind]. eexists. split; [done|]. unfold longest_match, match_of. fold n. cbn [ma_len ma_alternatives ma_typed_exact ma_typed_short_form self sd_groups].
  fold typed. split_and!; try done; try lia. intros len' Hl' Ha'. rewrite <-Htyped by lia. apply Hr; [lia|done].
Qed.

(** C24: a dictionary made through its builder is built, never out of bounds, and finds the longest
    accepted run of words that one of its forms was typed as, trying one-way entries by their first
    form only; it answers with every form of every entry found, each once. A form typed at an
    accepted length is found, itself or inside a longer one. *)
Theorem match_at_longest (b : DictionaryBuilder) :
  built b ->
  exists d, build analyze b = Some d /\ forall surface keys accept_len, (length keys <= length surface)%nat ->
    exists found, match_at d surface keys accept_len = Some found /\ longest_match d surface keys accept_len found /\
      (forall v r, (v, r) ∈ forms (db_groups b) -> key v = take (length (va_tokens v)) keys -> matches v (take (length (va_tokens v)) surface) = true ->
        accept_len (length (va_tokens v)) = true -> exists m, found = Some m /\ (length (va_tokens v) <= ma_len m)%nat).
Proof.
  intros Hb%built_ok. destruct (build_ok b Hb) as (nodes & paths & E & Ht). eexists. split; [exact E|]. intros surface keys accept_len Hl.
  destruct (match_at_spec nodes paths (db_groups b) (db_roman b) surface keys accept_len Ht Hl) as (found & Ef & Hf). exists found.
  split_and!; [done|done|]. intros v r Hv Hk Hm Ha.
  assert (Hn : (1 <= length (va_tokens v) <= Nat.min MAX_PHRASE_TOKENS (length keys))%nat).
  { apply forms_variant in Hv. unfold variant_at in Hv. cbn in Hv. destruct (db_groups b !! vr_group r) as [g|] eqn:Eg; [|done]. cbn in Hv.
    rewrite Forall_forall in Hb. destruct (Hb g) as (_ & _ & Ht'); [by eapply list_elem_of_lookup_2|]. rewrite Forall_forall in Ht'.
    specialize (Ht' v (list_elem_of_lookup_2 _ _ _ Hv)). apply (f_equal length) in Hk. rewrite length_take in Hk. unfold Synonyms.key in Hk.
    rewrite length_fmap in Hk. lia. }
  assert (Hin : (v, r) ∈ typed_as (db_groups b) surface keys (length (va_tokens v))) by (apply list_elem_of_filter; done).
  destruct found as [m|]; unfold longest_match in Hf; cbn [sd_groups] in Hf.
  - exists m. split; [done|]. destruct (decide (length (va_tokens v) <= ma_len m)%nat); [done|]. destruct Hf as (_ & _ & _ & _ & Hf).
    rewrite (Hf (length (va_tokens v))) in Hin by (done || lia). by apply elem_of_nil in Hin.
  - rewrite (Hf (length (va_tokens v))) in Hin by (done || lia). by apply elem_of_nil in Hin.
Qed.
End dictionary.
