(* ===== verification/SynonymsExpand.v ===== *)
(** * The expansion of a query

    The layers a database searches with and [expand_synonyms], both defined in [Synonyms]. The
    index arithmetic of [expand_run] over the tokens of all words is shown to do what a rule reads
    off the words left ([expands]): take the longest match that ends with a word, a number's other
    form, or the word as it is. [sat] is the meaning of a query for one document; an expanded
    query holds wherever the typed one did. *)
From Stdlib Require Import ZArith Lia String.
From stdpp Require Import base numbers list sorting strings gmap.
From S2P Require Import Prelude Types Utf8 Osa Fuzzy FuzzyRank Phrase Query Tokenizers Analyzers Synonyms.
Local Open Scope Z_scope.

Section expansion.
Context {CC : CharClasses} {CT : CaseTables}.
Context (analyze : str -> list str).

(** ** Layers *)

Definition dictionary_ok (d : SynonymDictionary) : Prop :=
  exists paths, trie_ok (sd_nodes d) paths (form_entry analyze <$> forms (sd_groups d)).
Definition layers_ok (self : Synonyms) : Prop := Forall dictionary_ok (sy_layers self).

Lemma build_dictionary_ok b d : built b -> build analyze b = Some d -> dictionary_ok d.
Proof.
  intros Hb%built_ok E. destruct (build_ok analyze b Hb) as (nodes & paths & E' & Ht). rewrite E' in E. simplify_eq. by exists paths.
Qed.
Lemma match_at_ok d surface keys accept_len :
  dictionary_ok d -> (length keys <= length surface)%nat ->
  exists found, match_at d surface keys accept_len = Some found /\ longest_match analyze d surface keys accept_len found.
Proof. intros [paths Ht] Hl. destruct d as [nodes groups roman]. by eapply match_at_spec. Qed.

(** The longest match of any layer, with the alternatives of every layer that has one as long. *)
Definition layered_match (self : Synonyms) (surface keys : list str) (accept_len : nat -> bool) (found : option Match) : Prop :=
  let layer_finds d m := d ∈ sy_layers self /\ match_at d surface keys accept_len = Some (Some m) in
  match found with
  | None => forall d m, ~ layer_finds d m
  | Some m =>
    (exists d m', layer_finds d m' /\ ma_len m' = ma_len m) /\
    (forall d m', layer_finds d m' -> (ma_len m' <= ma_len m)%nat) /\
    (forall node, node ∈ na_node <$> ma_alternatives m <->
      exists d m', layer_finds d m' /\ ma_len m' = ma_len m /\ node ∈ na_node <$> ma_alternatives m')
  end.

Lemma push_unique_nodes more out node :
  node ∈ na_node <$> fold_left push_unique more out <-> node ∈ na_node <$> out \/ node ∈ na_node <$> more.
Proof.
  revert out. induction more as [|a more IH]; intros out; cbn; [rewrite elem_of_nil; tauto|]. rewrite IH, elem_of_cons.
  destruct (push_unique_cases out a) as [[_ ->]|(l1 & known & l2 & -> & Hk & ->)]; rewrite !fmap_app; cbn; rewrite !elem_of_app.
  - rewrite list_elem_of_singleton. tauto.
  - rewrite !elem_of_cons, <-Hk. tauto.
Qed.
Lemma Synonyms_match_spec self surface keys accept_len :
  layers_ok self -> (length keys <= length surface)%nat ->
  exists found, Synonyms_match_at self surface keys accept_len = Some found /\ layered_match self surface keys accept_len found.
Proof.
  destruct self as [layers]. unfold layers_ok, Synonyms_match_at. cbn [sy_layers]. intros Hok Hl.
  induction layers as [|d layers IH] using rev_ind.
  { exists None. split; [done|]. intros d m [Hd _]. by apply elem_of_nil in Hd. }
  apply Forall_app in Hok as [Hok Hd]. rewrite Forall_singleton in Hd. destruct (IH Hok) as (found & E & Hf). rewrite fold_left_app, E. cbn [fold_left mbind option_bind].
  destruct (match_at_ok d surface keys accept_len Hd Hl) as (fd & Ed & _). rewrite Ed. cbn [mbind option_bind]. eexists. split; [done|].
  assert (Hsnoc : forall e m, e ∈ layers ++ [d] /\ match_at e surface keys accept_len = Some (Some m) <->
    (e ∈ layers /\ match_at e surface keys accept_len = Some (Some m)) \/ (e = d /\ fd = Some m)).
  { intros e m. rewrite elem_of_app, list_elem_of_singleton. split; [intros [[?| ->] ?]; [by left|right; split; congruence]|].
    intros [[? ?]|[-> ->]]; [split; [by left|done]|split; [by right|done]]. }
  unfold layered_match in *. cbn [sy_layers] in *. destruct fd as [fd|].
  2: { destruct found as [m|]; setoid_rewrite Hsnoc; [|intros e m [H|[_ ?]]; [by eapply Hf|done]].
    destruct Hf as (H1 & H2 & H3). split_and!.
    - destruct H1 as (e & m' & ? & ?). exists e, m'. split; [by left|done].
    - intros e m' [?|[_ ?]]; [by eapply H2|done].
    - intros node. rewrite H3. split; intros (e & m' & H & ? & ?); exists e, m'; (split; [|done]); [by left|]. destruct H as [?|[_ ?]]; done. }
  destruct found as [m|]; cbn [merge_match].
  2: { setoid_rewrite Hsnoc. split_and!.
    - exists d, fd. split; [by right|done].
    - intros e m' [H|[_ [= ->]]]; [by destruct (Hf e m')|lia].
    - intros node. split; [intros Hn; exists d, fd; split; [by right|done]|]. intros (e & m' & [H|[_ [= ->]]] & ? & ?); [by destruct (Hf e m')|done]. }
  destruct Hf as (H1 & H2 & H3). destruct (Nat.eqb_spec (ma_len m) (ma_len fd)) as [Heq|Hne]; [|destruct (Nat.ltb_spec (ma_len fd) (ma_len m))];
    setoid_rewrite Hsnoc; cbn [ma_len ma_alternatives].
  - split_and!.
    + exists d, fd. split; [by right|done].
    + intros e m' [H|[_ [= ->]]]; [by eapply H2|lia].
    + intros node. rewrite push_unique_nodes, H3. split.
      * intros [(e & m' & ? & ? & ?)|?]; [exists e, m'; split; [by left|done]|exists d, fd; split; [by right|done]].
      * intros (e & m' & [H|[_ [= ->]]] & ? & ?); [left; eauto|by right].
  - split_and!.
    + destruct H1 as (e & m' & ? & ?). exists e, m'. split; [by left|done].
    + intros e m' [?|[_ [= ->]]]; [by eapply H2|lia].
    + intros node. rewrite H3. split; intros (e & m' & Hm & ? & ?); exists e, m'; (split; [|done]); [by left|]. destruct Hm as [?|[_ [= ->]]]; [done|lia].
  - split_and!.
    + exists d, fd. split; [by right|done].
    + intros e m' [Hm|[_ [= ->]]]; [|lia]. apply H2 in Hm. lia.
    + intros node. split; [intros Hn; exists d, fd; split; [by right|done]|]. intros (e & m' & [Hm|[_ [= ->]]] & ? & ?); [|done]. apply H2 in Hm. lia.
Qed.

(** The length of a match, whichever layers it is from. *)
Lemma layered_len self surface keys accept_len m :
  layers_ok self -> (length keys <= length surface)%nat -> Synonyms_match_at self surface keys accept_len = Some (Some m) ->
  (1 <= ma_len m <= length keys)%nat /\ accept_len (ma_len m) = true.
Proof.
  intros Hok Hl E. destruct (Synonyms_match_spec self surface keys accept_len Hok Hl) as (found & E' & Hf). rewrite E' in E. simplify_eq.
  destruct Hf as ((d & m' & [Hd Em] & <-) & _). unfold layers_ok in Hok. rewrite Forall_forall in Hok.
  destruct (match_at_ok d surface keys accept_len (Hok _ Hd) Hl) as (fd & Ed & Hfd). rewrite Ed in Em. simplify_eq.
  destruct Hfd as (? & ? & _). split; [lia|done].
Qed.
Lemma match_loop_ext d surface p q ks depth node best :
  (forall len, p len = q len) -> match_loop d surface p ks depth node best = match_loop d surface q ks depth node best.
Proof.
  intros H. revert depth node best. induction ks as [|k ks IH]; intros depth node best; [done|]. cbn [match_loop].
  destruct (sd_nodes d !! node) as [here|]; [|done]. cbn [mbind option_bind]. destruct (tn_children here !! k) as [next|]; [|done]. rewrite H.
  destruct (negb (q (S depth))); [apply IH|]. destruct (sd_nodes d !! next) as [there|]; [|done]. cbn [mbind option_bind].
  destruct (if bool_decide (tn_terminals there = []) then _ else _); [apply IH|done].
Qed.
Lemma Synonyms_match_ext self surface keys p q :
  (forall len, p len = q len) -> Synonyms_match_at self surface keys p = Synonyms_match_at self surface keys q.
Proof.
  intros H. unfold Synonyms_match_at. generalize (Some (None : option Match)). induction (sy_layers self) as [|d layers IH]; intros best; [done|]. cbn [fold_left].
  rewrite IH. f_equal. destruct best as [best|]; [|done]. cbn [mbind option_bind]. unfold match_at. by rewrite (match_loop_ext d surface p q).
Qed.

(** ** The words of a run *)

(** The tokens of some words, and how many come before a word. *)
Definition toks (words : list str) : list str := concat (tokenize <$> words).
Definition start_of (words : list str) (i : nat) : nat := length (toks (take i words)).

Lemma toks_app a b : toks (a ++ b) = toks a ++ toks b.
Proof. unfold toks. by rewrite fmap_app, concat_app. Qed.
Lemma toks_split words i : toks words = toks (take i words) ++ toks (drop i words).
Proof. by rewrite <-toks_app, take_drop. Qed.
Lemma toks_drop words i : toks (drop i words) = drop (start_of words i) (toks words).
Proof. unfold start_of. rewrite (toks_split words i). by rewrite drop_app_length. Qed.
Lemma start_of_add words i n : (start_of words (i + n) = start_of words i + start_of (drop i words) n)%nat.
Proof.
  unfold start_of. rewrite <-length_app, <-toks_app. do 2 f_equal. symmetry. apply take_take_drop.
Qed.
Lemma start_of_le words i j : (i <= j)%nat -> (start_of words i <= start_of words j)%nat.
Proof. intros H. replace j with (i + (j - i))%nat by lia. rewrite start_of_add. lia. Qed.
Lemma start_of_total words i : (start_of words i <= length (toks words))%nat.
Proof. unfold start_of. rewrite (toks_split words i), length_app. lia. Qed.
Lemma start_of_S words i word : words !! i = Some word -> start_of words (S i) = (start_of words i + length (tokenize word))%nat.
Proof.
  intros Hi. unfold start_of. rewrite (take_S_r _ _ _ Hi), toks_app, length_app. f_equal. unfold toks. cbn. by rewrite app_nil_r.
Qed.

Definition owners (index : nat) (words : list str) : list nat := concat (imap (fun i word => replicate (length (tokenize word)) (index + i)%nat) words).
Lemma run_tokens_spec index at_ words :
  run_tokens index at_ words =
  (toks words, owners index words, (fun i => (at_ + start_of words i)%nat) <$> seq 0 (length words)).
Proof.
  revert index at_. induction words as [|word words IH]; intros index at_; [done|]. cbn [run_tokens]. rewrite IH. unfold owners. cbn [length seq].
  rewrite imap_cons, Nat.add_0_r. cbn [concat]. f_equal; [f_equal|].
  - f_equal. f_equal. apply imap_ext. intros i w _. cbn. f_equal. lia.
  - rewrite fmap_cons. f_equal; [unfold start_of; cbn; lia|]. rewrite <-fmap_S_seq, <-list_fmap_compose. apply list_fmap_ext. intros _ i _. cbn.
    unfold start_of, toks. cbn. rewrite length_app. lia.
Qed.
Lemma owners_lookup index words j :
  (j < length (toks words))%nat ->
  exists l, owners index words !! j = Some (index + l)%nat /\ (l < length words)%nat /\ (start_of words l <= j < start_of words (S l))%nat.
Proof.
  revert index j. induction words as [|word words IH]; intros index j Hj; [cbn in Hj; lia|]. unfold owners. rewrite imap_cons. cbn [concat].
  rewrite Nat.add_0_r. destruct (decide (j < length (tokenize word))%nat) as [Hw|Hw].
  - exists 0%nat. rewrite lookup_app_l by (by rewrite length_replicate). rewrite lookup_replicate_2 by done. split_and!; [f_equal; lia|cbn; lia|..];
      unfold start_of, toks; cbn; rewrite ?app_nil_r; lia.
  - unfold toks in Hj. rewrite fmap_cons in Hj. cbn [concat] in Hj. rewrite length_app in Hj.
    destruct (IH (S index) (j - length (tokenize word))%nat) as (l & Hl & Hlt & Hs); [unfold toks; lia|]. exists (S l). rewrite lookup_app_r by (rewrite length_replicate; lia).
    rewrite length_replicate. unfold owners in Hl. split_and!.
    + erewrite imap_ext; [rewrite Hl; f_equal; lia|]. intros i w _. cbn. f_equal. lia.
    + cbn. lia.
    + unfold start_of, toks in *. rewrite !firstn_cons, !fmap_cons. cbn [concat]. rewrite !length_app. lia.
    + unfold start_of, toks in *. rewrite !firstn_cons, !fmap_cons. cbn [concat]. rewrite !length_app. lia.
Qed.

Lemma boundaries_acc starts acc i :
  default false (fold_left (fun boundary start => <[start := true]> boundary) starts acc !! i) =
  bool_decide (i ∈ starts /\ (i < length acc)%nat) || default false (acc !! i).
Proof.
  revert acc. induction starts as [|x starts IH]; intros acc; cbn [fold_left].
  { by rewrite bool_decide_eq_false_2 by (intros [H _]; by apply elem_of_nil in H). }
  rewrite IH, length_insert. destruct (decide (i = x)) as [->|Hne].
  - destruct (decide (x < length acc)%nat) as [Hx|Hx].
    + rewrite list_lookup_insert_eq by done. cbn. rewrite orb_true_r, bool_decide_eq_true_2; [done|]. split; [left|done].
    + rewrite (bool_decide_eq_false_2 (x ∈ starts /\ _)), (bool_decide_eq_false_2 (x ∈ x :: starts /\ _)) by (intros [_ ?]; lia). cbn.
      by rewrite list_insert_ge by lia.
  - rewrite list_lookup_insert_ne by done. f_equal. apply bool_decide_ext. rewrite elem_of_cons. naive_solver.
Qed.

(** Whether a number of tokens ends with a word. *)
Definition ends_word (words : list str) (len : nat) : bool := existsb (fun k => len =? start_of words k)%nat (seq 0 (S (length words))).
Lemma boundary_ends words index len :
  (index <= length words)%nat ->
  default false (boundaries (length (toks words)) ((start_of words <$> seq 0 (length words)) ++ [length (toks words)]) !! (start_of words index + len)%nat) =
  ends_word (drop index words) len.
Proof.
  intros Hi. unfold boundaries. rewrite boundaries_acc.
  replace (default false (replicate (S (length (toks words))) false !! (start_of words index + len)%nat)) with false.
  2: { destruct (_ !! _) eqn:E; [|done]. by apply lookup_replicate in E as [-> _]. }
  rewrite orb_false_r, length_replicate. apply eq_true_iff_eq. unfold ends_word. rewrite bool_decide_eq_true, existsb_exists.
  assert (Hlast : start_of words (length words) = length (toks words)) by (unfold start_of; by rewrite firstn_all).
  rewrite elem_of_app, list_elem_of_fmap, list_elem_of_singleton. split.
  - intros [Hs Hlen]. assert (exists k, (k <= length words)%nat /\ (start_of words index + len = start_of words k)%nat) as (k & Hk & E).
    { destruct Hs as [(k & E & Hk%elem_of_seq)|E]; [exists k; split; [lia|done]|exists (length words); split; [done|congruence]]. }
    destruct (decide (index <= k)%nat) as [Hle|Hgt].
    + exists (k - index)%nat. rewrite in_seq, length_drop, Nat.eqb_eq. split; [lia|]. replace k with (index + (k - index))%nat in E by lia.
      rewrite start_of_add in E. lia.
    + exists 0%nat. rewrite in_seq, Nat.eqb_eq. split; [lia|]. pose proof (start_of_le words k index ltac:(lia)).
      change (start_of (drop index words) 0) with 0%nat. lia.
  - intros (k & Hk%in_seq & E%Nat.eqb_eq). rewrite length_drop in Hk. rewrite E, <-start_of_add. split; [|pose proof (start_of_total words (index + k)); lia].
    destruct (decide (index + k < length words)%nat); [left; exists (index + k)%nat; split; [done|apply elem_of_seq; lia]|right].
    replace (index + k)%nat with (length words) by lia. done.
Qed.

(** ** A run, word by word *)

(** What [expand_run] makes of the words left: a word without letters or digits is kept; otherwise
    the longest match of their tokens that ends with a word takes the words it covers, a number
    gets its other form, and any other word is kept. *)
Section run.
Context (dictionary : Synonyms) (wrap_ : list Query -> Query).

Definition run_match (words : list str) : option (option Match) :=
  Synonyms_match_at dictionary (toks words) (lookup_key analyze <$> toks words) (ends_word words).
Inductive expands : list str -> list Query -> Prop :=
| expands_nil : expands [] []
| expands_punctuation word words out : tokenize word = [] -> expands words out -> expands (word :: words) (QTerm word :: out)
| expands_match covered words out found :
  covered <> [] -> last (tokenize <$> covered) <> Some [] -> (tokenize <$> covered) !! 0%nat <> Some [] ->
  run_match (covered ++ words) = Some (Some found) -> toks covered = take (ma_len found) (toks (covered ++ words)) -> expands words out ->
  expands (covered ++ words)
    (synonym (original_form covered wrap_) (matched_alternatives found (to_lowercase <$> toks covered)
      ((1 <? length covered)%nat || (1 <? ma_len found)%nat)) :: out)
| expands_number word words out token numbers :
  tokenize word = [token] -> run_match (word :: words) = Some None -> Synonyms_expand_number dictionary token = Some numbers -> expands words out ->
  expands (word :: words) (synonym (QTerm word) (number_alternatives numbers [to_lowercase token]) :: out)
| expands_word word words out :
  tokenize word <> [] -> run_match (word :: words) = Some None ->
  (forall token, tokenize word = [token] -> Synonyms_expand_number dictionary token = None) -> expands words out ->
  expands (word :: words) (QTerm word :: out).

Context (Hok : layers_ok dictionary).

(** The word a match ends in: the tokens up to its end are those of the words covered. *)
Lemma match_covers words found last_ :
  run_match words = Some (Some found) -> tokenize <$> head words <> Some [] ->
  (last_ < length words)%nat -> (start_of words last_ <= ma_len found - 1 < start_of words (S last_))%nat ->
  let covered := take (S last_) words in
  last (tokenize <$> covered) <> Some [] /\ toks covered = take (ma_len found) (toks words).
Proof using Hok.
  intros E Hh Hl Hs covered. unfold run_match in E. apply layered_len in E as [Hlen Hacc]; [|done|by rewrite length_fmap]. rewrite length_fmap in Hlen.
  destruct (lookup_lt_is_Some_2 words last_ Hl) as [word Hw]. rewrite (start_of_S _ _ _ Hw) in Hs.
  assert (Hcov : covered = take last_ words ++ [word]) by (unfold covered; by apply take_S_r). split.
  - rewrite Hcov, fmap_app. cbn [fmap list_fmap]. rewrite last_snoc. intros [= E]. rewrite E in Hs. cbn in Hs. lia.
  - unfold ends_word in Hacc. rewrite existsb_exists in Hacc. destruct Hacc as (k & Hk%in_seq & E%Nat.eqb_eq).
    assert (start_of words (S last_) = ma_len found) as Hend.
    { rewrite (start_of_S _ _ _ Hw). destruct (decide (k <= last_)%nat) as [Hle|Hgt].
      - pose proof (start_of_le words k last_ Hle). lia.
      - pose proof (start_of_le words (S last_) k ltac:(lia)) as H. rewrite (start_of_S _ _ _ Hw) in H. lia. }
    rewrite (toks_split words (S last_)). fold covered. rewrite <-Hend. unfold start_of. fold covered. symmetry. apply take_app_length.
Qed.

Lemma run_loop_spec fuel words index :
  (length words <= index + fuel)%nat -> (index <= length words)%nat ->
  exists out, run_loop fuel dictionary wrap_ words (toks words) (lookup_key analyze <$> toks words) (owners 0 words)
    ((start_of words <$> seq 0 (length words)) ++ [length (toks words)])
    (boundaries (length (toks words)) ((start_of words <$> seq 0 (length words)) ++ [length (toks words)])) index = Some out /\
    expands (drop index words) out.
Proof using Hok.
  set (word_start := (start_of words <$> seq 0 (length words)) ++ [length (toks words)]).
  assert (Hstart : forall i, (i <= length words)%nat -> word_start !! i = Some (start_of words i)).
  { intros i Hi. unfold word_start. destruct (decide (i < length words)%nat) as [Hlt|Hge].
    - rewrite lookup_app_l by (rewrite length_fmap, length_seq; lia). rewrite list_lookup_fmap, lookup_seq_lt by done. done.
    - rewrite lookup_app_r by (rewrite length_fmap, length_seq; lia). rewrite length_fmap, length_seq. replace i with (length words) by lia.
      rewrite Nat.sub_diag. unfold start_of. by rewrite firstn_all. }
  revert index. induction fuel as [|fuel IH]; intros index Hf Hi.
  { exists []. split; [done|]. rewrite drop_ge by lia. constructor. }
  cbn [run_loop]. destruct (Nat.leb_spec (length words) index) as [Hge|Hlt]; [exists []; split; [done|]; rewrite drop_ge by lia; constructor|].
  destruct (lookup_lt_is_Some_2 words index Hlt) as [word Hw]. rewrite Hw, !Hstart by lia. cbn [mbind option_bind].
  rewrite (start_of_S _ _ _ Hw), (drop_S _ _ _ Hw). destruct (IH (S index)) as (rest & Er & Hr); [lia|lia|].
  destruct (Nat.eqb_spec (start_of words index) (start_of words index + length (tokenize word))) as [E0|Hn0].
  { rewrite Er. cbn [mbind option_bind]. eexists. split; [done|]. constructor; [|done]. apply nil_length_inv. lia. }
  rewrite <-fmap_drop, <-toks_drop.
  rewrite (Synonyms_match_ext dictionary _ _ _ (ends_word (drop index words))) by (intros len; by apply boundary_ends).
  fold (run_match (drop index words)).
  assert (exists found, run_match (drop index words) = Some found) as [found Em].
  { unfold run_match. edestruct Synonyms_match_spec as (found & E & _); [exact Hok| |by exists found]. by rewrite length_fmap. }
  rewrite Em. cbn [mbind option_bind]. rewrite (drop_S _ _ _ Hw) in Em. destruct found as [found|].
  - pose proof Em as Hlen. unfold run_match in Hlen. apply layered_len in Hlen as [Hlen _]; [|done|by rewrite length_fmap]. rewrite length_fmap in Hlen.
    rewrite <-(drop_S _ _ _ Hw) in Hlen, Em. rewrite toks_drop, length_drop in Hlen.
    destruct (owners_lookup 0 words (start_of words index + ma_len found - 1)) as (l & Eo & Hl & Hs); [lia|]. rewrite Eo. cbn [mbind option_bind Nat.add].
    assert (Hil : (index <= l)%nat).
    { destruct (decide (index <= l)%nat); [done|]. pose proof (start_of_le words (S l) index ltac:(lia)). lia. }
    destruct (IH (S l)) as (out & Eout & Hout); [lia|lia|]. rewrite Eout. cbn [mbind option_bind]. eexists. split; [done|].
    replace l with (index + (l - index))%nat in Hs by lia. rewrite start_of_add in Hs.
    replace (S (index + (l - index)))%nat with (index + S (l - index))%nat in Hs by lia. rewrite start_of_add in Hs.
    destruct (match_covers (drop index words) found (l - index) Em) as [Hlast Htoks].
    { rewrite (drop_S _ _ _ Hw). cbn. intros [= E]. rewrite E in Hn0. cbn in Hn0. lia. }
    { rewrite length_drop. lia. }
    { lia. }
    rewrite <-(drop_S _ _ _ Hw). replace (S l - index)%nat with (S (l - index)) by lia. set (covered := take (S (l - index)) (drop index words)) in *.
    assert (Hsplit : drop index words = covered ++ drop (S l) words).
    { unfold covered. rewrite <-(take_drop (S (l - index)) (drop index words)) at 1. f_equal. rewrite drop_drop. f_equal. lia. }
    assert (Hne : covered <> [] /\ (tokenize <$> covered) !! 0%nat <> Some []).
    { unfold covered. rewrite (drop_S _ _ _ Hw). split; [done|]. cbn. intros [= E]. rewrite E in Hn0. cbn in Hn0. lia. }
    clearbody covered. rewrite <-Htoks. rewrite Hsplit in Em, Htoks |- *. destruct Hne. by apply expands_match.
  - assert (exists first, toks words !! start_of words index = Some first /\ head (tokenize word) = Some first) as (first & Ef & Eh).
    { rewrite (toks_split words index). unfold start_of. rewrite lookup_app_r, Nat.sub_diag by done. rewrite (drop_S _ _ _ Hw). unfold toks at 1. cbn.
      destruct (tokenize word) as [|first ?]; [cbn in Hn0; lia|]. by exists first. }
    rewrite Ef. cbn [mbind option_bind]. rewrite Er. cbn [mbind option_bind].
    replace (start_of words index + length (tokenize word) - start_of words index)%nat with (length (tokenize word)) by lia.
    destruct (tokenize word) as [|first' [|second more]] eqn:Et; cbn in Eh; [done|..]; simplify_eq; cbn [length Nat.eqb].
    + destruct (Synonyms_expand_number dictionary first) as [numbers|] eqn:En; eexists; (split; [done|]).
      * by eapply expands_number.
      * apply expands_word; [by rewrite Et|done| |done]. intros token. rewrite Et. intros [= <-]. done.
    + eexists. split; [done|]. apply expands_word; [by rewrite Et|done| |done]. intros token. by rewrite Et.
Qed.
Lemma expand_run_spec words : exists out, expand_run analyze words dictionary wrap_ = Some out /\ expands words out.
Proof using Hok.
  unfold expand_run. rewrite run_tokens_spec. destruct (run_loop_spec (length words) words 0) as (out & E & H); [lia|lia|]. exists out. by split.
Qed.
End run.

(** ** Meaning *)

(** Whether a document satisfies a query, given which words, phrases and ranges it has ([atom])
    and what it means for several conditions to hold of one element ([same]). A text of several
    words asks for all of them; a form of a synonym group is as good as any other. *)
Section meaning.
Context (atom : Query -> Prop) (same : list Prop -> Prop).
Context (Hsame : forall ps qs, Forall2 impl ps qs -> same ps -> same qs).

Definition sat_word (text : str) : Prop := if is_multi_word text then Forall (fun w => atom (QTerm w)) (split_whitespace text) else atom (QTerm text).
Fixpoint sat (q : Query) : Prop :=
  match q with
  | QTerm text => sat_word text
  | QAnd ps => foldr (fun p acc => sat p /\ acc) True ps
  | QWand ps | QOr ps => foldr (fun p acc => sat p \/ acc) False ps
  | QSynonym forms => foldr (fun f acc => sat (alt_query f) \/ acc) False forms
  | QSameElement ps => same (sat <$> ps)
  | q => atom q
  end.
Lemma sat_all ps : foldr (fun p acc => sat p /\ acc) True ps <-> Forall sat ps.
Proof. induction ps as [|p ps IH]; cbn; [split; [constructor|done]|]. by rewrite Forall_cons, IH. Qed.
Lemma sat_any ps : foldr (fun p acc => sat p \/ acc) False ps <-> Exists sat ps.
Proof. induction ps as [|p ps IH]; cbn; [split; [done|inversion 1]|]. by rewrite Exists_cons, IH. Qed.

(** The words of a text have no white space. *)
Lemma split_words_plain s word w :
  existsb is_whitespace word = false -> w ∈ split_words word s -> existsb is_whitespace w = false.
Proof.
  revert word. induction s as [|c s IH]; intros word Hw Hin; cbn in Hin.
  - destruct word; [by apply elem_of_nil in Hin|]. by apply list_elem_of_singleton in Hin as ->.
  - destruct (is_whitespace c) eqn:Ec.
    + destruct word; [by apply (IH [])|]. apply elem_of_cons in Hin as [->|Hin]; [done|by apply (IH [])].
    + eapply IH; [|exact Hin]. by rewrite existsb_app, Hw; cbn; rewrite Ec.
Qed.
Lemma plain_split s word : existsb is_whitespace s = false -> word ++ s <> [] -> split_words word s = [word ++ s].
Proof.
  revert word. induction s as [|c s IH]; intros word Hs Hne; cbn.
  - rewrite app_nil_r in *. by destruct word.
  - cbn in Hs. apply orb_false_iff in Hs as [-> Hs]. rewrite IH; [by rewrite <-(assoc_L (++))|done|]. by rewrite <-(assoc_L (++)).
Qed.
Lemma split_single s w : w ∈ split_whitespace s -> is_multi_word w = false.
Proof.
  intros H. apply split_words_plain in H; [|done]. unfold is_multi_word, split_whitespace. destruct w as [|c w].
  - done.
  - by rewrite plain_split.
Qed.

(** The typed form of a group holds where the typed words do. *)
Lemma sat_synonym typed alternatives : sat typed -> sat (synonym typed alternatives).
Proof. unfold synonym. destruct alternatives; [done|]. intros H. cbn [sat foldr]. by left. Qed.
Definition single_words (words : list str) : Prop := Forall (fun w => is_multi_word w = false) words.
Definition sat_words (words : list str) : list Prop := (fun w => atom (QTerm w)) <$> words.
Lemma sat_plain words : single_words words -> Forall (fun w => sat (QTerm w) <-> atom (QTerm w)) words.
Proof. intros H. eapply Forall_impl; [exact H|]. intros w Hw. cbn. unfold sat_word. by rewrite Hw. Qed.

Lemma original_all covered :
  covered <> [] -> single_words covered -> Forall (fun w => atom (QTerm w)) covered -> sat (original_form covered QAnd).
Proof.
  intros Hne Hs Ha. apply sat_plain in Hs. assert (Hall : Forall (fun w => sat (QTerm w)) covered).
  { rewrite Forall_forall in *. intros w Hw. by apply Hs, Ha. }
  unfold original_form. destruct covered as [|w [|w' ws]]; [done|by inversion Hall|]. cbn [sat]. rewrite sat_all. by apply Forall_fmap.
Qed.
Lemma original_any wrap_ covered :
  wrap_ = QWand \/ wrap_ = QOr -> single_words covered -> Exists (fun w => atom (QTerm w)) covered -> sat (original_form covered wrap_).
Proof.
  intros Hw Hs Ha. apply sat_plain in Hs. assert (Hany : Exists (fun w => sat (QTerm w)) covered).
  { rewrite Exists_exists in *. rewrite Forall_forall in Hs. destruct Ha as (w & Hin & Ha). exists w. split; [done|]. by apply Hs. }
  unfold original_form. destruct covered as [|w [|w' ws]]; [by inversion Ha|by apply Exists_cons in Hany as [?|H%Exists_nil]|].
  destruct Hw as [-> | ->]; cbn [sat]; rewrite sat_any; by apply Exists_fmap.
Qed.

Lemma expands_all dictionary words out :
  expands dictionary QAnd words out -> single_words words -> Forall (fun w => atom (QTerm w)) words -> Forall sat out.
Proof.
  assert (Hone : forall word, single_words [word] -> atom (QTerm word) -> sat (QTerm word)).
  { intros word Hs%sat_plain Ha. rewrite Forall_singleton in Hs. by apply Hs. }
  unfold single_words. induction 1 as [|word words out _ _ IH|covered words out found Hne _ _ _ _ _ IH|word words out token numbers _ _ _ _ IH|word words out _ _ _ _ IH];
    intros Hs Ha; [constructor|..].
  2: { apply Forall_app in Hs as [Hs1 Hs2]. apply Forall_app in Ha as [Ha1 Ha2]. constructor; [|by apply IH]. by apply sat_synonym, original_all. }
  all: apply Forall_cons in Hs as [Hs1 Hs2]; apply Forall_cons in Ha as [Ha1 Ha2]; constructor; [|by apply IH]; try apply sat_synonym;
    apply Hone; [by apply Forall_singleton|done].
Qed.
Lemma expands_any dictionary wrap_ words out :
  wrap_ = QWand \/ wrap_ = QOr -> expands dictionary wrap_ words out -> single_words words -> Exists (fun w => atom (QTerm w)) words -> Exists sat out.
Proof.
  intros Hw. assert (Hone : forall word, single_words [word] -> atom (QTerm word) -> sat (QTerm word)).
  { intros word Hs%sat_plain Ha. rewrite Forall_singleton in Hs. by apply Hs. }
  unfold single_words. induction 1 as [|word words out _ _ IH|covered words out found Hne _ _ _ _ _ IH|word words out token numbers _ _ _ _ IH|word words out _ _ _ _ IH];
    intros Hs Ha; [by inversion Ha|..].
  2: { apply Forall_app in Hs as [Hs1 Hs2]. apply Exists_app in Ha as [Ha|Ha]; [left; by apply sat_synonym, original_any|right; by apply IH]. }
  all: apply Forall_cons in Hs as [Hs1 Hs2]; apply Exists_cons in Ha as [Ha|Ha]; [left|right; by apply IH]; try apply sat_synonym;
    (apply Hone; [by apply Forall_singleton|done]).
Qed.
End meaning.

(** ** Queries *)

(** [q'] holds of every document [q] holds of. *)
Definition subsumes (q q' : Query) : Prop :=
  forall atom same, (forall ps qs, Forall2 impl ps qs -> same ps -> same qs) -> sat atom same q -> sat atom same q'.
Definition expansion_ok (dictionary : Synonyms) (q : Query) : Prop :=
  exists q', expand_synonyms analyze dictionary q = Some q' /\ subsumes q q'.

Lemma expand_multi_ok dictionary text :
  layers_ok dictionary -> is_multi_word text = true -> expansion_ok dictionary (QTerm text).
Proof.
  intros Hok Em. unfold expansion_ok. cbn [expand_synonyms]. rewrite Em. unfold expand_multi_word.
  destruct (expand_run_spec dictionary QAnd Hok (split_whitespace text)) as (out & -> & Hx). cbn [mbind option_bind]. eexists. split; [done|].
  intros atom same _ Hs. destruct (forallb _ out); [done|]. cbn [sat] in *. rewrite sat_all. unfold sat_word in Hs. rewrite Em in Hs.
  eapply expands_all; [exact Hx| |done]. apply Forall_forall. intros w. apply split_single.
Qed.
Lemma expand_single_ok dictionary word :
  layers_ok dictionary -> is_multi_word word = false -> expansion_ok dictionary (QTerm word).
Proof.
  intros Hok Em. unfold expansion_ok. cbn [expand_synonyms]. rewrite Em. unfold expand_word.
  destruct (expand_run_spec dictionary QWand Hok [word]) as (out & -> & Hx). cbn [mbind option_bind]. eexists. split; [done|].
  intros atom same _ Hs. cbn [sat] in Hs. unfold sat_word in Hs. rewrite Em in Hs.
  assert (He : Exists (sat atom same) out).
  { eapply expands_any; [by left|exact Hx|by apply Forall_singleton|by left]. }
  destruct out as [|x [|y out]]; [by inversion He| |cbn [sat]; by rewrite sat_any]. by apply Exists_cons in He as [?|He%Exists_nil].
Qed.

Lemma flush_run_ok dictionary wrap_ run :
  layers_ok dictionary -> exists out, flush_run analyze run dictionary wrap_ = Some out /\ expands dictionary wrap_ run out.
Proof.
  intros Hok. destruct run as [|w run]; [exists []; split; [done|constructor]|]. by apply expand_run_spec.
Qed.
Lemma expand_children_ok dictionary wrap_ subs run :
  layers_ok dictionary -> Forall (expansion_ok dictionary) subs -> single_words run ->
  exists out, expand_children analyze (expand_synonyms analyze dictionary) dictionary wrap_ run subs = Some out /\
    forall atom same, (forall ps qs, Forall2 impl ps qs -> same ps -> same qs) ->
      (wrap_ = QAnd -> Forall (fun w => atom (QTerm w)) run -> Forall (sat atom same) subs -> Forall (sat atom same) out) /\
      (wrap_ = QWand \/ wrap_ = QOr -> Exists (fun w => atom (QTerm w)) run \/ Exists (sat atom same) subs -> Exists (sat atom same) out).
Proof.
  intros Hok Hsubs. revert run. induction Hsubs as [|sub subs Hsub Hsubs IH]; intros run Hrun.
  { destruct (flush_run_ok dictionary wrap_ run Hok) as (out & E & Hx). exists out. split; [exact E|]. intros atom same _. split.
    - intros -> Ha _. by eapply expands_all.
    - intros Hw [Ha|Ha]; [by eapply expands_any|by inversion Ha]. }
  assert (Hother : exists out, (before ← flush_run analyze run dictionary wrap_; sub ← expand_synonyms analyze dictionary sub;
      rest ← expand_children analyze (expand_synonyms analyze dictionary) dictionary wrap_ [] subs; Some (before ++ sub :: rest)) = Some out /\
    forall atom same, (forall ps qs, Forall2 impl ps qs -> same ps -> same qs) ->
      (wrap_ = QAnd -> Forall (fun w => atom (QTerm w)) run -> Forall (sat atom same) (sub :: subs) -> Forall (sat atom same) out) /\
      (wrap_ = QWand \/ wrap_ = QOr -> Exists (fun w => atom (QTerm w)) run \/ Exists (sat atom same) (sub :: subs) -> Exists (sat atom same) out)).
  { destruct (flush_run_ok dictionary wrap_ run Hok) as (before & -> & Hx). destruct Hsub as (sub' & -> & Hc).
    destruct (IH [] (Forall_nil_2 _)) as (rest & -> & Hr). cbn [mbind option_bind]. eexists. split; [done|]. intros atom same Hs.
    destruct (Hr atom same Hs) as [Hr1 Hr2]. split.
    - intros E Ha [H1 H2]%Forall_cons. apply Forall_app. split; [subst; by eapply expands_all|]. constructor; [by apply Hc|]. by apply Hr1; [|constructor|].
    - intros Hw Ha. apply Exists_app. destruct Ha as [Ha|[Ha|Ha]%Exists_cons]; [left; by eapply expands_any|right; left; by apply Hc|].
      right. right. apply Hr2; [done|by right]. }
  destruct sub; try exact Hother. cbn [expand_children]. destruct (is_multi_word v) eqn:Em; [exact Hother|].
  destruct (IH (run ++ [v])) as (out & E & Ho). { apply Forall_app. split; [done|by apply Forall_singleton]. }
  exists out. split; [exact E|]. intros atom same Hs. destruct (Ho atom same Hs) as [H1 H2].
  assert (Hv : sat atom same (QTerm v) <-> atom (QTerm v)) by (cbn; unfold sat_word; by rewrite Em). split.
  - intros Ew Ha [Hh%Hv Ht]%Forall_cons. apply H1; [done|apply Forall_app; split; [done|by apply Forall_singleton]|done].
  - intros Ew Ha. apply H2; [done|]. rewrite Exists_app. destruct Ha as [?|[Hh%Hv|?]%Exists_cons]; [by left; left|left; right; by left|by right].
Qed.

Lemma expand_spec dictionary q : layers_ok dictionary -> expansion_ok dictionary q.
Proof.
  intros Hok. induction q as [v|v|v|ps IH|ps IH|ps IH|ts|v|v f s|fs IH|r|ps IH|c|] using Query_rect'; try (eexists; split; [done|by intros atom same _]).
  - destruct (is_multi_word v) eqn:Em; [by apply expand_multi_ok|by apply expand_single_ok].
  - destruct (expand_children_ok dictionary QWand ps [] Hok IH (Forall_nil_2 _)) as (out & E & Ho). eexists. cbn. rewrite E. split; [done|].
    intros atom same Hs. cbn [sat]. rewrite !sat_any. intros H. by apply (Ho atom same Hs); [left|right].
  - destruct (expand_children_ok dictionary QAnd ps [] Hok IH (Forall_nil_2 _)) as (out & E & Ho). eexists. cbn. rewrite E. split; [done|].
    intros atom same Hs. cbn [sat]. rewrite !sat_all. intros H. by apply (Ho atom same Hs); [|constructor|].
  - destruct (expand_children_ok dictionary QOr ps [] Hok IH (Forall_nil_2 _)) as (out & E & Ho). eexists. cbn. rewrite E. split; [done|].
    intros atom same Hs. cbn [sat]. rewrite !sat_any. intros H. by apply (Ho atom same Hs); [right|right].
  - assert (exists out, mapM (expand_synonyms analyze dictionary) ps = Some out /\ Forall2 subsumes ps out) as (out & E & Ho).
    { induction IH as [|p ps (p' & Ep & Hp) _ (out & E & Ho)]; [by exists []|]. exists (p' :: out). cbn. rewrite Ep. cbn. rewrite E. cbn. split; [done|by constructor]. }
    exists (QSameElement out). cbn [expand_synonyms]. rewrite E. split; [done|]. intros atom same Hs. cbn [sat]. apply Hs.
    apply Forall2_fmap. eapply Forall2_impl; [exact Ho|]. intros p p' Hc H. by apply Hc.
Qed.

Lemma forallb_fmap_term (words : list str) : forallb (fun part => match part with QTerm _ => true | _ => false end) (QTerm <$> words) = true.
Proof. by induction words. Qed.
(** Without a dictionary a query stays what it is. *)
Lemma expands_no_layers dictionary wrap_ words out : sy_layers dictionary = [] -> expands dictionary wrap_ words out -> out = QTerm <$> words.
Proof.
  intros Hl. assert (Hm : forall ws, run_match dictionary ws = Some None) by (intros ws; unfold run_match, Synonyms_match_at; by rewrite Hl).
  induction 1 as [|word words out _ _ IH|covered words out found _ _ _ E _ _ _|word words out token numbers _ _ E _ _|word words out _ _ _ _ IH];
    [done|by rewrite IH|by rewrite Hm in E|unfold Synonyms_expand_number in E; by rewrite Hl in E|by rewrite IH].
Qed.
Lemma expand_no_layers dictionary q : sy_layers dictionary = [] -> expand_synonyms analyze dictionary q = Some q.
Proof.
  intros Hl. assert (Hok : layers_ok dictionary) by (unfold layers_ok; rewrite Hl; constructor).
  assert (Hrun : forall wrap_ run, flush_run analyze run dictionary wrap_ = Some (QTerm <$> run) /\ expand_run analyze run dictionary wrap_ = Some (QTerm <$> run)).
  { intros wrap_ run. split.
    - destruct (flush_run_ok dictionary wrap_ run Hok) as (out & -> & H%expands_no_layers); [by subst|done].
    - destruct (expand_run_spec dictionary wrap_ Hok run) as (out & -> & H%expands_no_layers); [by subst|done]. }
  assert (Hchildren : forall wrap_ ps run, Forall (fun p => expand_synonyms analyze dictionary p = Some p) ps ->
    expand_children analyze (expand_synonyms analyze dictionary) dictionary wrap_ run ps = Some ((QTerm <$> run) ++ ps)).
  { intros wrap_ ps run Hps. revert run. induction Hps as [|p ps Hp Hps IH]; intros run; [cbn; rewrite app_nil_r; apply Hrun|].
    assert (Hother : (before ← flush_run analyze run dictionary wrap_; sub ← expand_synonyms analyze dictionary p;
      rest ← expand_children analyze (expand_synonyms analyze dictionary) dictionary wrap_ [] ps; Some (before ++ sub :: rest)) = Some ((QTerm <$> run) ++ p :: ps)).
    { rewrite (proj1 (Hrun wrap_ run)), Hp, IH. done. }
    destruct p; try exact Hother. cbn [expand_children]. destruct (is_multi_word v); [exact Hother|]. etransitivity; [apply IH|]. by rewrite fmap_app, <-(assoc_L (++)). }
  induction q as [v|v|v|ps IH|ps IH|ps IH|ts|v|v f s|fs IH|r|ps IH|c|] using Query_rect'; try done.
  - cbn [expand_synonyms]. unfold expand_multi_word, expand_word. rewrite (proj2 (Hrun QAnd _)), (proj2 (Hrun QWand _)). cbn.
    destruct (is_multi_word v); [|done]. by rewrite forallb_fmap_term.
  - cbn [expand_synonyms]. by rewrite Hchildren.
  - cbn [expand_synonyms]. by rewrite Hchildren.
  - cbn [expand_synonyms]. by rewrite Hchildren.
  - cbn [expand_synonyms]. assert (mapM (expand_synonyms analyze dictionary) ps = Some ps) as ->; [|done].
    apply mapM_Some, Forall_Forall2_diag, IH.
Qed.

(** C23: whatever a database's dictionaries hold, a query is expanded without running out of bounds
    and every document the typed query finds the expanded one finds too; with no dictionary the
    query stays as it was typed. *)
Theorem expansion_conservative (dictionary : Synonyms) (q : Query) :
  layers_ok dictionary ->
  exists q', expand_synonyms analyze dictionary q = Some q' /\ subsumes q q' /\ (sy_layers dictionary = [] -> q' = q).
Proof.
  intros Hok. destruct (expand_spec dictionary q Hok) as (q' & E & Hc). exists q'. split_and!; [done|done|].
  intros Hl. rewrite (expand_no_layers _ _ Hl) in E. congruence.
Qed.

(** C25: a run of sibling words is expanded as a reading from left to right says: the index
    arithmetic over the tokens of all words never leaves them, a match covers exactly the words its
    tokens are from, and it is the longest match of the words left that ends with a word. *)
Theorem expand_run_correct (dictionary : Synonyms) (wrap_ : list Query -> Query) (words : list str) :
  layers_ok dictionary ->
  exists out, expand_run analyze words dictionary wrap_ = Some out /\ expands dictionary wrap_ words out /\
    (forall ws, exists found, run_match dictionary ws = Some found /\
      layered_match dictionary (toks ws) (lookup_key analyze <$> toks ws) (ends_word ws) found).
Proof.
  intros Hok. destruct (expand_run_spec dictionary wrap_ Hok words) as (out & E & Hx). exists out. split_and!; [done|done|].
  intros ws. apply Synonyms_match_spec; [done|]. by rewrite length_fmap.
Qed.
End expansion.

(** ** A small dictionary *)

#[local] Existing Instances ascii_classes ascii_cases.
(** Lowercased and without a final "s". *)
Definition stem_word (w : str) : list str := [drop_s (to_ascii_lowercase w)].
Definition add_entry (one_way : bool) (specs : list string) (b : DictionaryBuilder) : DictionaryBuilder :=
  match parse_variants (lit <$> specs) with inl variants => match push_group b variants one_way with inl b => b | inr _ => b end | inr _ => b end.
Definition small_builder : DictionaryBuilder :=
  add_entry true ["king"; "monarch"]%string (add_entry false ["CaP"; "calcium phosphate"]%string builder_new).
Definition small_dictionary : SynonymDictionary :=
  match build stem_word small_builder with Some d => d | None => mkSynonymDictionary [] [] RomanConfig_default end.

Lemma add_entry_built one_way specs b : built b -> built (add_entry one_way specs b).
Proof.
  intros Hb. unfold add_entry. destruct (parse_variants (lit <$> specs)) as [vs|] eqn:Ev; [|done].
  destruct (push_group b vs one_way) as [b'|] eqn:Ep; [|done]. apply (built_group b vs one_way b' Hb); [by eapply parse_variants_made|done].
Qed.
Lemma small_built : built small_builder.
Proof. apply add_entry_built, add_entry_built, built_new. Qed.
Lemma small_layers : layers_ok stem_word (mkSynonyms [small_dictionary]).
Proof. apply Forall_singleton. apply (build_dictionary_ok stem_word small_builder); [apply small_built|vm_compute; reflexivity]. Qed.

Lemma match_at_longest_witness :
  exists m, match_at small_dictionary (lit <$> ["Kings"; "of"]%string) (lit <$> ["king"; "of"]%string) (fun _ => true) = Some (Some m) /\
    ma_len m = 1%nat /\ na_node <$> ma_alternatives m = [NTerm (lit "king"); NTerm (lit "monarch")].
Proof.
  destruct (match_at_longest stem_word small_builder small_built) as (d & E & H).
  destruct (H (lit <$> ["Kings"; "of"]%string) (lit <$> ["king"; "of"]%string) (fun _ => true)) as (found & Ef & _ & _); [cbn; lia|].
  assert (d = small_dictionary) as -> by (unfold small_dictionary; by rewrite E). clear H E. vm_compute in Ef.
  destruct found as [m|]; [|discriminate Ef]. exists m. injection Ef as <-. vm_compute. split_and!; reflexivity.
Defined.
Lemma roman_numerals_correct_witness :
  to_roman 1994 = Some (lit "MCMXCIV") /\ parse_roman (lit "MCMXCIV") = Some 1994 /\ parse_roman (lit "IIII") = None /\
  roman_for_arabic RomanConfig_default (lit "11") = Some (lit "XI").
Proof.
  destruct roman_numerals_correct as (H1 & H2 & H3). split_and!.
  - apply H1; [split; [lia|done]|]. split; [lia|vm_compute; reflexivity].
  - apply H2. split; [lia|vm_compute; reflexivity].
  - vm_compute. reflexivity.
  - apply (H3 RomanConfig_default (lit "XI") 11); [split; [lia|done]|vm_compute; reflexivity].
Defined.
Lemma expand_run_correct_witness :
  exists out, expand_run stem_word (lit <$> ["calcium"; "phosphate"; "II"]%string) (mkSynonyms [small_dictionary]) QAnd = Some out /\
    out = [QSynonym [mkAlternative (QAnd [QTerm (lit "calcium"); QTerm (lit "phosphate")]) 1000; mkAlternative (QExact (lit "CaP")) 700];
           QSynonym [mkAlternative (QTerm (lit "II")) 1000; mkAlternative (QTerm (lit "2")) 1000]].
Proof.
  destruct (expand_run_correct stem_word (mkSynonyms [small_dictionary]) QAnd (lit <$> ["calcium"; "phosphate"; "II"]%string) small_layers) as (out & E & _).
  exists out. split; [exact E|]. vm_compute in E. injection E as <-. vm_compute. reflexivity.
Defined.
Lemma expansion_conservative_witness :
  subsumes (QTerm (lit "CaP levels"))
    (QAnd [QSynonym [mkAlternative (QTerm (lit "CaP")) 1000; mkAlternative (QExact (lit "CaP")) 1000;
                     mkAlternative (QPhrase [mkPhraseTerm (lit "calcium") 0; mkPhraseTerm (lit "phosphate") 1]) 1000];
           QTerm (lit "levels")]).
Proof.
  destruct (expansion_conservative stem_word (mkSynonyms [small_dictionary]) (QTerm (lit "CaP levels")) small_layers) as (q' & E & H & _).
  vm_compute in E. injection E as <-. exact H.
Defined.
