(* ===== verification/Dictionary.v ===== *)
(** * Dictionary files

    Models [crates/core-query/src/dictionary.rs] and [SynonymStore] of [synonyms.rs]: the files a
    dictionary is read from and written to ([Document]), their compilation
    ([compile_default], [compile_database]), the registry of the server and the manager of one
    database.

    The disk is the map from paths to bytes ([Disk]). A call that reads or writes takes what goes
    wrong with it as an argument: a read fails with an error of its own ([option FsError]), a
    write fails before the new file is in place or after ([WriteFault]). [toml::from_str] is a
    parameter. The locks make every operation of a manager one step ([manager_step]); other
    programs may write the files between them.

    The theorems show that the synonyms in use are always those of the dictionary in use, and what
    an operation that fails leaves behind. *)
From Stdlib Require Import ZArith Lia String.
From stdpp Require Import base numbers list sorting strings gmap relations.
From S2P Require Import Prelude Types Utf8 Osa Fuzzy FuzzyRank Phrase Query Tokenizers Analyzers Synonyms SynonymsExpand.
Local Open Scope Z_scope.

(** ** Errors and files *)

Inductive FsError : Type := FsNotFound | FsInvalidUtf8 | FsOther (code : Z).
(** The messages the code formats. *)
Inductive Message : Type :=
| TomlMessage (text : str)
| NotRoman (entry : str).
Inductive InvalidReason : Type :=
| ValueRange (key : str) (value : Z)
| MinExceedsMax (min max : Z)
| MinLenRange (min_len : nat).
Inductive ConfigError : Type :=
| CIo (path : str) (source : FsError)
| CSyntax (source_name : str) (line : option nat) (message : Message)
| CDictionary (source_name : str) (line : option nat) (source : DictionaryError)
| CInvalid (source_name : str) (reason : InvalidReason)
| CConflict (path : str)
| CNoPath (source_name : str).
Abbreviation config_result A := (A + ConfigError)%type.

(** [toml::Spanned]: a value with the bytes it was read from. *)
Record Spanned (A : Type) : Type := mkSpanned { span_start : nat; span_end : nat; get_ref : A }.
Arguments mkSpanned {A} _ _ _.
Arguments span_start {A} _.
Arguments span_end {A} _.
Arguments get_ref {A} _.
Record GroupSection : Type := mkGroupSection { gs_groups : list (Spanned (list str)) }.
Record RomanSection : Type := mkRomanSection {
  rs_enabled : bool;
  rs_min_value : Z;
  rs_max_value : Z;
  rs_min_len : nat;
  rs_arabic_to_roman : bool;
  rs_denylist : list (Spanned str)
}.
Record DefaultFile : Type := mkDefaultFile {
  df_roman : RomanSection;
  df_acronyms : GroupSection;
  df_formulas : GroupSection;
  df_synonyms : GroupSection;
  df_one_way : GroupSection
}.
Record DatabaseFile : Type := mkDatabaseFile { dbf_default : bool; dbf_synonyms : GroupSection; dbf_one_way : GroupSection }.

Definition line_of (text : str) (offset : nat) : nat := (length (filter (fun b => b = 10%Z) (take offset (utf8 text))) + 1)%nat.
Definition span_line {A} (text : str) (v : Spanned A) : option nat :=
  if (0 <? span_end v)%nat then Some (line_of text (span_start v)) else None.
Definition fingerprint (bytes : list Z) : Z :=
  fold_left (fun hash byte => wrap 64 (Z.lxor hash byte * 0x100000001b3)) bytes 0xcbf29ce484222325.

(** ** The disk *)

Definition Disk : Type := gmap str (list Z).
(** [fs::read] *)
Definition fs_read (disk : Disk) (fault : option FsError) (path : str) : list Z + FsError :=
  match fault with
  | Some e => inr e
  | None => match disk !! path with Some bytes => inl bytes | None => inr FsNotFound end
  end.
(** Where [write_atomic] stops: while the temporary file is made and moved into place, or when the
    directory is synced. *)
Inductive WriteFault : Type := WOk | WBefore (e : FsError) | WAfter (e : FsError).
Definition write_atomic (disk : Disk) (fault : WriteFault) (path : str) (bytes : list Z) : Disk * (unit + FsError) :=
  match fault with
  | WBefore e => (disk, inr e)
  | WOk => (<[path := bytes]> disk, inl tt)
  | WAfter e => (<[path := bytes]> disk, inr e)
  end.
Definition check_unchanged (disk : Disk) (fault : option FsError) (path : str) (expected : option Z) : config_result unit :=
  match fs_read disk fault path with
  | inr (FsInvalidUtf8 as e) | inr (FsOther _ as e) => inr (CIo path e)
  | r =>
    let on_disk := match r with inl bytes => Some (fingerprint bytes) | inr _ => None end in
    if bool_decide (on_disk = expected) then inl tt else inr (CConflict path)
  end.

(** ** Documents *)

Section document.
Context {F : Type}.
(** [toml::from_str]: the file, or where it fails and why. *)
Context (from_str : str -> F + (option nat * str)).

Record Document : Type := mkDocument {
  dc_name : str;
  dc_path : option str;
  dc_text : str;
  dc_file : F;
  dc_disk_fingerprint : option Z
}.
Definition parse (name text : str) : config_result Document :=
  match from_str text with
  | inl file => inl (mkDocument name None text file None)
  | inr (start, message) => inr (CSyntax name (line_of text <$> start) (TomlMessage message))
  end.
Definition with_source (self : Document) (path : option str) (fp : option Z) : Document :=
  mkDocument (dc_name self) path (dc_text self) (dc_file self) fp.
Definition load (disk : Disk) (fault : option FsError) (path missing : str) : config_result Document :=
  match fs_read disk fault path with
  | inl bytes =>
    match from_utf8 bytes with
    | None => inr (CIo path FsInvalidUtf8)
    | Some text =>
      match parse path text with
      | inl doc => inl (with_source doc (Some path) (Some (fingerprint (utf8 text))))
      | inr e => inr e
      end
    end
  | inr FsNotFound =>
    match parse path missing with
    | inl doc => inl (with_source doc (Some path) (dc_disk_fingerprint doc))
    | inr e => inr e
    end
  | inr e => inr (CIo path e)
  end.
Definition exists_on_disk (self : Document) : bool := bool_decide (is_Some (dc_disk_fingerprint self)).
Definition require_path (self : Document) : config_result str :=
  match dc_path self with Some path => inl path | None => inr (CNoPath (dc_name self)) end.
Definition bound_to (self target : Document) : Document := with_source self (dc_path target) (dc_disk_fingerprint target).
(** What may go wrong with the read and the write of a [save]. *)
Definition SaveFaults : Type := option FsError * WriteFault.
Definition save (self : Document) (disk : Disk) (faults : SaveFaults) : Disk * config_result Document :=
  match require_path self with
  | inr e => (disk, inr e)
  | inl path =>
    match check_unchanged disk faults.1 path (dc_disk_fingerprint self) with
    | inr e => (disk, inr e)
    | inl _ =>
      match write_atomic disk faults.2 path (utf8 (dc_text self)) with
      | (disk, inr e) => (disk, inr (CIo path e))
      | (disk, inl _) => (disk, inl (with_source self (dc_path self) (Some (fingerprint (utf8 (dc_text self))))))
      end
    end
  end.
Definition load_or_seed (disk : Disk) (load_fault : option FsError) (faults : SaveFaults) (path seed : str) : Disk * config_result Document :=
  match load disk load_fault path seed with
  | inr e => (disk, inr e)
  | inl doc =>
    if exists_on_disk doc then (disk, inl doc)
    else
      match parse (dc_name doc) seed with
      | inr e => (disk, inr e)
      | inl seeded => save (bound_to seeded doc) disk faults
      end
  end.
End document.
Arguments Document F : clear implicits.

(** ** Compiling *)

Section compiling.
Context {CC : CharClasses} {CT : CaseTables}.
Context (analyze : str -> list str).

(** [parse_variant(spec.trim())] of every form, the first error. *)
Definition group_variants (group : list str) : dict_result (list Variant) := parse_variants (trim <$> group).
Fixpoint add_groups (b : DictionaryBuilder) (name text : str) (one_way : bool) (groups : list (Spanned (list str))) : config_result DictionaryBuilder :=
  match groups with
  | [] => inl b
  | group :: groups =>
    let error source := CDictionary name (span_line text group) source in
    match group_variants (get_ref group) with
    | inr e => inr (error e)
    | inl variants =>
      match (if one_way then add_one_way b variants else add_group b variants) with
      | inr e => inr (error e)
      | inl b => add_groups b name text one_way groups
      end
    end
  end.
Fixpoint add_sections (b : DictionaryBuilder) (name text : str) (sections : list (GroupSection * bool)) : config_result DictionaryBuilder :=
  match sections with
  | [] => inl b
  | (section, one_way) :: sections =>
    match add_groups b name text one_way (gs_groups section) with
    | inl b => add_sections b name text sections
    | inr e => inr e
    end
  end.

Definition to_ascii_uppercase (s : str) : str := (fun c => if (97 <=? c) && (c <=? 122) then c - 32 else c) <$> s.
Fixpoint read_denylist (name text : str) (items : list (Spanned str)) (denylist : gset str) : config_result (gset str) :=
  match items with
  | [] => inl denylist
  | item :: items =>
    let upper := to_ascii_uppercase (trim (get_ref item)) in
    if bool_decide (upper = []) || negb (forallb (fun c => bool_decide (c ∈ lit "IVXLCDM")) upper)
    then inr (CSyntax name (span_line text item) (NotRoman (get_ref item)))
    else read_denylist name text items (denylist ∪ {[ upper ]})
  end.
(** The checks of the Roman numeral rules, in order. *)
Definition check_roman (name : str) (roman : RomanSection) : config_result unit :=
  if negb ((1 <=? rs_min_value roman) && (rs_min_value roman <=? 3999)) then inr (CInvalid name (ValueRange (lit "min_value") (rs_min_value roman)))
  else if negb ((1 <=? rs_max_value roman) && (rs_max_value roman <=? 3999)) then inr (CInvalid name (ValueRange (lit "max_value") (rs_max_value roman)))
  else if rs_max_value roman <? rs_min_value roman then inr (CInvalid name (MinExceedsMax (rs_min_value roman) (rs_max_value roman)))
  else if negb ((1 <=? rs_min_len roman)%nat && (rs_min_len roman <=? 15)%nat) then inr (CInvalid name (MinLenRange (rs_min_len roman)))
  else inl tt.
(** [None] of the dictionary is a panic of [build]. *)
Definition compile_default (doc : Document DefaultFile) : config_result (option SynonymDictionary) :=
  let file := dc_file doc in
  let roman := df_roman file in
  match check_roman (dc_name doc) roman with
  | inr e => inr e
  | inl _ =>
    match read_denylist (dc_name doc) (dc_text doc) (rs_denylist roman) ∅ with
    | inr e => inr e
    | inl denylist =>
      match add_sections builder_new (dc_name doc) (dc_text doc)
              [(df_acronyms file, false); (df_formulas file, false); (df_synonyms file, false); (df_one_way file, true)] with
      | inr e => inr e
      | inl b =>
        inl (build analyze (builder_roman b (mkRomanConfig (rs_enabled roman) (rs_min_value roman) (rs_max_value roman) (rs_min_len roman)
          (rs_arabic_to_roman roman) denylist)))
      end
    end
  end.
Definition compile_database (doc : Document DatabaseFile) : config_result (option SynonymDictionary) :=
  match add_sections builder_new (dc_name doc) (dc_text doc) [(dbf_synonyms (dc_file doc), false); (dbf_one_way (dc_file doc), true)] with
  | inr e => inr e
  | inl b =>
    let d := RomanConfig_default in
    inl (build analyze (builder_roman b (mkRomanConfig false (ro_min_value d) (ro_max_value d) (ro_min_len d) (ro_arabic_to_roman d) (ro_denylist d))))
  end.
End compiling.

(** ** Stores, registry and managers *)

(** [SynonymStore]: the synonyms queries are expanded with. *)
Record SynonymStore : Type := mkSynonymStore { ss_current : Synonyms }.
Definition snapshot (self : SynonymStore) : Synonyms := ss_current self.
Definition replace_synonyms (self : SynonymStore) (synonyms : Synonyms) : SynonymStore * Synonyms := (mkSynonymStore synonyms, ss_current self).

Record SynonymRegistry : Type := mkSynonymRegistry { sr_template_path : str; sr_default : SynonymDictionary }.
Record SynonymManager : Type := mkSynonymManager { sm_default : SynonymDictionary; sm_file : Document DatabaseFile; sm_store : SynonymStore }.

Section manager.
Context {CC : CharClasses} {CT : CaseTables}.
Context (analyze : str -> list str).
Context (default_from_str : str -> DefaultFile + (option nat * str)) (database_from_str : str -> DatabaseFile + (option nat * str)).
(** The texts compiled into the server. *)
Context (DEFAULT_DICTIONARY NEW_DATABASE_DICTIONARY : str).

Definition registry_open (disk : Disk) (load_fault : option FsError) (faults : SaveFaults) (template_path : str) :
    Disk * config_result (option SynonymRegistry) :=
  match load_or_seed default_from_str disk load_fault faults template_path DEFAULT_DICTIONARY with
  | (disk, inr e) => (disk, inr e)
  | (disk, inl template) =>
    match compile_default analyze template with
    | inr e => (disk, inr e)
    | inl default_ => (disk, inl (mkSynonymRegistry template_path <$> default_))
    end
  end.

Definition manager_synonyms (default_ : SynonymDictionary) (doc : Document DatabaseFile) : config_result (option Synonyms) :=
  match compile_database analyze doc with
  | inr e => inr e
  | inl own => inl ((fun own => mkSynonyms (if dbf_default (dc_file doc) then [default_; own] else [own])) <$> own)
  end.
(** A manager whose synonyms could not be made; [None] is a panic. *)
Definition open_database (self : SynonymRegistry) (disk : Disk) (load_fault : option FsError) (faults : SaveFaults) (path : str) :
    Disk * config_result (option SynonymManager) :=
  match load_or_seed database_from_str disk load_fault faults path NEW_DATABASE_DICTIONARY with
  | (disk, inr e) => (disk, inr e)
  | (disk, inl file) =>
    let manager := mkSynonymManager (sr_default self) file (mkSynonymStore (mkSynonyms [])) in
    match manager_synonyms (sr_default self) file with
    | inr e => (disk, inr e)
    | inl synonyms =>
      (disk, inl ((fun synonyms => mkSynonymManager (sr_default self) file (replace_synonyms (sm_store manager) synonyms).1) <$> synonyms))
    end
  end.

(** The result of an operation: [None] is a panic. *)
Definition manager_result : Type := Disk * SynonymManager * option (config_result unit).
Definition replace_document (self : SynonymManager) (disk : Disk) (faults : SaveFaults) (doc : Document DatabaseFile) : manager_result :=
  let draft := bound_to doc (sm_file self) in
  match manager_synonyms (sm_default self) draft with
  | inr e => (disk, self, Some (inr e))
  | inl None => (disk, self, None)
  | inl (Some synonyms) =>
    match save draft disk faults with
    | (disk, inr e) => (disk, self, Some (inr e))
    | (disk, inl draft) => (disk, mkSynonymManager (sm_default self) draft (replace_synonyms (sm_store self) synonyms).1, Some (inl tt))
    end
  end.
Definition reload (self : SynonymManager) (disk : Disk) (load_fault : option FsError) (faults : SaveFaults) : manager_result :=
  match require_path (sm_file self) with
  | inr e => (disk, self, Some (inr e))
  | inl path =>
    match load_or_seed database_from_str disk load_fault faults path NEW_DATABASE_DICTIONARY with
    | (disk, inr e) => (disk, self, Some (inr e))
    | (disk, inl fresh) =>
      match manager_synonyms (sm_default self) fresh with
      | inr e => (disk, self, Some (inr e))
      | inl None => (disk, self, None)
      | inl (Some synonyms) => (disk, mkSynonymManager (sm_default self) fresh (replace_synonyms (sm_store self) synonyms).1, Some (inl tt))
      end
    end
  end.
Definition config_text (self : SynonymManager) : str := dc_text (sm_file self).
Definition manager_snapshot (self : SynonymManager) : Synonyms := snapshot (sm_store self).

(** ** The dictionary in use *)

Lemma add_groups_built b name text one_way groups b' : built b -> add_groups b name text one_way groups = inl b' -> built b'.
Proof.
  revert b. induction groups as [|group groups IH]; intros b Hb E; cbn in E; [by simplify_eq|].
  destruct (group_variants (get_ref group)) as [variants|] eqn:Ev; [|done].
  destruct (if one_way then add_one_way b variants else add_group b variants) as [b1|] eqn:Eb; [|done]. apply (IH b1); [|done].
  assert (Hm : Forall made variants) by (by eapply parse_variants_made).
  destruct one_way; [by apply (built_group b variants true b1)|by apply (built_group b variants false b1)].
Qed.
Lemma add_sections_built b name text sections b' : built b -> add_sections b name text sections = inl b' -> built b'.
Proof.
  revert b. induction sections as [|[section one_way] sections IH]; intros b Hb E; cbn in E; [by simplify_eq|].
  destruct (add_groups b name text one_way (gs_groups section)) as [b1|] eqn:Eb; [|done]. apply (IH b1); [by eapply add_groups_built|done].
Qed.
Lemma build_built b : built b -> exists d, build analyze b = Some d /\ dictionary_ok analyze d.
Proof.
  intros Hb. destruct (build_ok analyze b (built_ok b Hb)) as (nodes & paths & E & Ht). eexists. split; [exact E|]. by exists paths.
Qed.
Lemma compile_database_ok doc r : compile_database analyze doc = inl r -> exists d, r = Some d /\ dictionary_ok analyze d.
Proof.
  unfold compile_database. destruct (add_sections builder_new _ _ _) as [b|] eqn:Eb; [|done]. intros E. injection E as <-.
  apply build_built. constructor. eapply add_sections_built; [constructor|exact Eb].
Qed.
Lemma compile_default_ok doc r : compile_default analyze doc = inl r -> exists d, r = Some d /\ dictionary_ok analyze d.
Proof.
  unfold compile_default. destruct (check_roman _ _); [|done]. destruct (read_denylist _ _ _ _); [|done].
  destruct (add_sections builder_new _ _ _) as [b|] eqn:Eb; [|done]. intros E. injection E as <-.
  apply build_built. constructor. eapply add_sections_built; [constructor|exact Eb].
Qed.
Lemma manager_synonyms_ok default_ doc r :
  dictionary_ok analyze default_ -> manager_synonyms default_ doc = inl r -> exists s, r = Some s /\ layers_ok analyze s.
Proof.
  intros Hd. unfold manager_synonyms. destruct (compile_database analyze doc) as [own|] eqn:Eo; [|done]. intros E. injection E as <-.
  apply compile_database_ok in Eo as (d & -> & Ho). eexists. split; [done|]. unfold layers_ok. cbn. destruct (dbf_default (dc_file doc)); by repeat constructor.
Qed.

(** A document that was read from its file or written to it. *)
Definition synced {F} (doc : Document F) (path : str) : Prop :=
  dc_path doc = Some path /\ dc_disk_fingerprint doc = Some (fingerprint (utf8 (dc_text doc))).
Lemma save_synced {F} (doc doc' : Document F) disk disk' faults path :
  dc_path doc = Some path -> save doc disk faults = (disk', inl doc') ->
  synced doc' path /\ dc_file doc' = dc_file doc /\ dc_name doc' = dc_name doc /\ dc_text doc' = dc_text doc /\
  disk' = <[path := utf8 (dc_text doc)]> disk /\ faults.2 = WOk /\
  match fs_read disk faults.1 path with inl bytes => Some (fingerprint bytes) | inr _ => None end = dc_disk_fingerprint doc.
Proof.
  intros Hp. unfold save, require_path. rewrite Hp. unfold check_unchanged.
  destruct (fs_read disk faults.1 path) as [bytes|[| |code]]; try done; case_bool_decide as Hu; try done;
    unfold write_atomic; destruct faults.2; intros E; simplify_eq; done.
Qed.
Lemma save_error {F} (doc : Document F) disk disk' faults path e :
  dc_path doc = Some path -> save doc disk faults = (disk', inr e) ->
  disk' = disk \/ exists io, faults.2 = WAfter io /\ e = CIo path io /\ disk' = <[path := utf8 (dc_text doc)]> disk.
Proof.
  intros Hp. unfold save, require_path. rewrite Hp. destruct (check_unchanged _ _ _ _); [|intros E; simplify_eq; by left].
  unfold write_atomic. destruct faults.2; intros E; simplify_eq; [by left|right; eauto].
Qed.
Lemma load_or_seed_synced {F} (from_str : str -> F + (option nat * str)) disk load_fault faults path seed disk' doc :
  load_or_seed from_str disk load_fault faults path seed = (disk', inl doc) -> synced doc path.
Proof.
  unfold load_or_seed. destruct (load from_str disk load_fault path seed) as [loaded|] eqn:El; [|done].
  assert (Hp : dc_path loaded = Some path /\ (exists_on_disk loaded = true -> synced loaded path)).
  { revert El. unfold load, parse. destruct (fs_read disk load_fault path) as [bytes|[| |code]]; try done.
    - destruct (from_utf8 bytes) as [text|]; [|done]. destruct (from_str text) as [file|[]]; [|done]. intros E. injection E as <-. by split.
    - destruct (from_str seed) as [file|[]]; [|done]. intros E. injection E as <-. by split; [|done]. }
  destruct Hp as [Hp Hs]. destruct (exists_on_disk loaded) eqn:Ex; [intros E; simplify_eq; by apply Hs|].
  destruct (parse from_str (dc_name loaded) seed) as [seeded|] eqn:Es; [|done]. intros E. by eapply save_synced in E as [? _]; [|cbn].
Qed.

(** ** Steps *)

(** A server's manager of one database and the disk: operations, and edits by other programs. *)
Inductive manager_step : Disk * SynonymManager -> Disk * SynonymManager -> Prop :=
| step_replace disk m faults doc disk' m' r : replace_document m disk faults doc = (disk', m', r) -> manager_step (disk, m) (disk', m')
| step_reload disk m load_fault faults disk' m' r : reload m disk load_fault faults = (disk', m', r) -> manager_step (disk, m) (disk', m')
| step_edit disk m disk' : manager_step (disk, m) (disk', m).
Inductive opened (path : str) : Disk * SynonymManager -> Prop :=
| opened_intro disk0 fault0 faults0 template disk1 registry fault1 faults1 disk2 m :
  registry_open disk0 fault0 faults0 template = (disk1, inl (Some registry)) ->
  open_database registry disk1 fault1 faults1 path = (disk2, inl (Some m)) -> opened path (disk2, m).
Definition manager_reachable (path : str) (st : Disk * SynonymManager) : Prop := exists st0, opened path st0 /\ rtc manager_step st0 st.

Record manager_ok (path : str) (m : SynonymManager) : Prop := {
  mo_default : dictionary_ok analyze (sm_default m);
  mo_file : synced (sm_file m) path;
  mo_store : manager_synonyms (sm_default m) (sm_file m) = inl (Some (manager_snapshot m))
}.
Lemma synonyms_of_file default_ doc doc' :
  dc_file doc' = dc_file doc -> dc_name doc' = dc_name doc -> dc_text doc' = dc_text doc ->
  manager_synonyms default_ doc' = manager_synonyms default_ doc.
Proof. intros E1 E2 E3. unfold manager_synonyms, compile_database. by rewrite E1, E2, E3. Qed.
Lemma opened_ok path st : opened path st -> manager_ok path st.2.
Proof.
  destruct 1 as [disk0 fault0 faults0 template disk1 registry fault1 faults1 disk2 m Er Eo]. cbn.
  unfold registry_open in Er. destruct (load_or_seed default_from_str _ _ _ _ _) as [d0 [tdoc|]]; [|done].
  destruct (compile_default analyze tdoc) as [def|] eqn:Ec; [|done]. apply compile_default_ok in Ec as (def' & -> & Hd). simplify_eq/=.
  unfold open_database in Eo. destruct (load_or_seed database_from_str _ _ _ _ _) as [d1 [doc|]] eqn:El; [|done]. apply load_or_seed_synced in El.
  cbn [sr_default] in Eo. destruct (manager_synonyms def' doc) as [s|] eqn:Es; [|done]. destruct s as [s|]; simplify_eq/=. by split.
Qed.
Lemma replace_ok path m disk faults doc disk' m' r :
  manager_ok path m -> replace_document m disk faults doc = (disk', m', r) ->
  manager_ok path m' /\
  ((exists e, r = Some (inr e) /\ m' = m /\
     (disk' = disk \/ exists io, faults.2 = WAfter io /\ e = CIo path io /\ disk' = <[path := utf8 (dc_text doc)]> disk)) \/
   (r = Some (inl tt) /\ disk' = <[path := utf8 (dc_text doc)]> disk /\ config_text m' = dc_text doc /\
     exists bytes, disk !! path = Some bytes /\ faults.1 = None /\ fingerprint bytes = fingerprint (utf8 (config_text m)))).
Proof.
  intros Hm. unfold replace_document. pose proof (mo_file _ _ Hm) as [Hp Hfp]. set (draft := bound_to doc (sm_file m)).
  destruct (manager_synonyms (sm_default m) draft) as [s|e] eqn:Es.
  2: { intros E. simplify_eq. split; [done|]. left. exists e. split_and!; [done|done|by left]. }
  destruct (manager_synonyms_ok _ _ _ (mo_default _ _ Hm) Es) as (s' & -> & Hs). destruct (save draft disk faults) as [d [draft'|e]] eqn:Esv.
  - intros E. simplify_eq. apply (save_synced draft draft' disk disk' faults path) in Esv as (H1 & H2 & H3 & H4 & H5 & _ & H6); [|done].
    split.
    + split; cbn; [apply (mo_default _ _ Hm)|done|]. rewrite (synonyms_of_file _ draft) by done. done.
    + right. split_and!; [done|done|done|]. cbn in H6. rewrite Hfp in H6. unfold fs_read in H6. destruct faults.1; [done|].
      destruct (disk !! path) as [bytes|]; [|done]. exists bytes. split_and!; [done|done|]. by injection H6.
  - intros E. simplify_eq. split; [done|]. left. exists e. split_and!; [done|done|]. by apply (save_error draft disk disk' faults path).
Qed.
Lemma reload_ok path m disk load_fault faults disk' m' r :
  manager_ok path m -> reload m disk load_fault faults = (disk', m', r) ->
  manager_ok path m' /\ ((exists e, r = Some (inr e) /\ m' = m) \/ r = Some (inl tt)).
Proof.
  intros Hm. unfold reload, require_path. rewrite (proj1 (mo_file _ _ Hm)).
  destruct (load_or_seed database_from_str disk load_fault faults path NEW_DATABASE_DICTIONARY) as [d [fresh|e]] eqn:El.
  2: { intros E. simplify_eq. split; [done|]. left. eauto. }
  destruct (manager_synonyms (sm_default m) fresh) as [s|e] eqn:Es.
  2: { intros E. simplify_eq. split; [done|]. left. eauto. }
  destruct (manager_synonyms_ok _ _ _ (mo_default _ _ Hm) Es) as (s' & -> & Hs). intros E. simplify_eq. split; [|by right].
  split; cbn; [apply (mo_default _ _ Hm)|by eapply load_or_seed_synced|done].
Qed.
Lemma reachable_ok path st : manager_reachable path st -> manager_ok path st.2.
Proof.
  intros (st0 & Ho & Hs). apply opened_ok in Ho. induction Hs as [|a b c Hstep _ IH]; [done|]. apply IH.
  destruct Hstep as [disk m faults doc disk' m' r E|disk m load_fault faults disk' m' r E|]; cbn in *; [|by eapply reload_ok|done].
  by eapply replace_ok.
Qed.

(** C26: in every state a server reaches, whatever files were edited or writes failed, the synonyms
    in use are those of the dictionary text in use and of the default, and every query is expanded
    with them: none is lost, and nothing runs out of bounds. *)
Theorem dictionary_in_use (path : str) (st : Disk * SynonymManager) (q : Query) :
  manager_reachable path st ->
  manager_synonyms (sm_default st.2) (sm_file st.2) = inl (Some (manager_snapshot st.2)) /\
  exists q', expand_synonyms analyze (manager_snapshot st.2) q = Some q' /\ subsumes q q'.
Proof.
  intros Hm%reachable_ok. split; [apply (mo_store _ _ Hm)|].
  destruct (manager_synonyms_ok _ _ _ (mo_default _ _ Hm) (mo_store _ _ Hm)) as (s & [= <-] & Hs). by apply expand_spec.
Qed.

(** C27: replacing the dictionary of a database either does it, on disk and in use, and only over
    the text it had loaded (the same fingerprint), or reports an error and leaves everything in
    use as it was; the file is left too, unless the error is that of syncing the directory after
    the new file was put in place. *)
Theorem replace_document_atomic (path : str) (disk : Disk) (m : SynonymManager) (faults : SaveFaults) (doc : Document DatabaseFile) :
  manager_reachable path (disk, m) ->
  let '(disk', m', r) := replace_document m disk faults doc in
  (exists e, r = Some (inr e) /\ m' = m /\
     (disk' = disk \/ exists io, faults.2 = WAfter io /\ e = CIo path io /\ disk' = <[path := utf8 (dc_text doc)]> disk)) \/
  (r = Some (inl tt) /\ disk' = <[path := utf8 (dc_text doc)]> disk /\ config_text m' = dc_text doc /\
     (exists bytes, disk !! path = Some bytes /\ fingerprint bytes = fingerprint (utf8 (config_text m))) /\
     manager_synonyms (sm_default m') (sm_file m') = inl (Some (manager_snapshot m'))).
Proof.
  intros Hm%reachable_ok. destruct (replace_document m disk faults doc) as [[disk' m'] r] eqn:E.
  destruct (replace_ok path _ _ _ _ _ _ _ Hm E) as [Hm' [He|(H1 & H2 & H3 & bytes & H4 & _ & H5)]]; [by left|right].
  split_and!; [done|done|done|by exists bytes|apply (mo_store _ _ Hm')].
Qed.
End manager.

(** ** The analyzer *)

Section analyzer.
Context {CC : CharClasses} {CT : CaseTables} {TL : TantivyLib}.

(** What a dictionary takes an analyzer to make of a word; every thread finds the same. *)
Definition word_analysis (self : Analyzer) (word : str) : list str := tt_text <$> plain_analysis self word.
Lemma word_analysis_correct (self : Analyzer) (cache : gmap Z TextAnalyzer) (word : str) :
  locals_ok self cache -> at_text <$> (Analyzers.analyze self cache word).2 = word_analysis self word.
Proof. intros Hl. rewrite analyze_plain by done. unfold word_analysis. by rewrite <-list_fmap_compose. Qed.
End analyzer.

(** ** A small database *)

#[local] Existing Instances ascii_classes ascii_cases.
(** Every text stands for one group of two forms. *)
Definition one_group (forms : list string) : GroupSection := mkGroupSection [mkSpanned 0 1 (lit <$> forms)].
Definition small_default (text : str) : DefaultFile + (option nat * str) :=
  inl (mkDefaultFile (mkRomanSection true 2 3999 2 true []) (one_group ["CaP"; "calcium phosphate"]%string) (mkGroupSection []) (mkGroupSection []) (mkGroupSection [])).
Definition small_database (text : str) : DatabaseFile + (option nat * str) :=
  inl (mkDatabaseFile true (one_group ["car"; "automobile"]%string) (mkGroupSection [])).
Definition small_path : str := lit "db/dictionary.toml".
Definition small_open : option (Disk * SynonymManager) :=
  let '(disk, r) := registry_open stem_word small_default (lit "seed") ∅ None (None, WOk) (lit "default") in
  r ← match r with inl r => r | inr _ => None end;
  let '(disk, m) := open_database stem_word small_database (lit "new") r disk None (None, WOk) small_path in
  match m with inl (Some m) => Some (disk, m) | _ => None end.
Definition small_doc (text : string) : Document DatabaseFile :=
  mkDocument (lit "api") None (lit text) (mkDatabaseFile false (one_group ["king"; "monarch"]%string) (mkGroupSection [])) None.

Lemma small_opened st : small_open = Some st -> opened stem_word small_default small_database (lit "seed") (lit "new") small_path st.
Proof.
  unfold small_open. destruct (registry_open _ _ _ _ _ _ _) as [d0 [r|]] eqn:Er; cbn [mbind option_bind]; [|done]. destruct r as [r|]; cbn [mbind option_bind]; [|done].
  destruct (open_database _ _ _ _ _ _ _ _) as [d1 [[m|]|]] eqn:Eo; try done. intros E. injection E as <-.
  by eapply (opened_intro stem_word small_default small_database _ _ small_path ∅ None (None, WOk) (lit "default") d0 r).
Qed.
Lemma small_opens : exists st, small_open = Some st /\ manager_reachable stem_word small_default small_database (lit "seed") (lit "new") small_path st.
Proof.
  destruct small_open as [st|] eqn:E; [|vm_compute in E; discriminate E]. exists st. split; [done|]. exists st. split; [by apply small_opened|done].
Qed.

Lemma dictionary_in_use_witness :
  exists st, small_open = Some st /\ length (sy_layers (manager_snapshot st.2)) = 2%nat /\
    exists q', expand_synonyms stem_word (manager_snapshot st.2) (QTerm (lit "cars")) = Some q' /\ subsumes (QTerm (lit "cars")) q'.
Proof.
  destruct small_opens as (st & E & Hr). exists st. split; [exact E|]. split; [vm_compute in E; injection E as <-; reflexivity|].
  exact (proj2 (dictionary_in_use stem_word small_default small_database (lit "seed") (lit "new") small_path st (QTerm (lit "cars")) Hr)).
Defined.
Lemma replace_document_atomic_witness :
  exists st, small_open = Some st /\
    let '(disk', m', r) := replace_document stem_word st.2 st.1 (None, WOk) (small_doc "king") in
    r = Some (inl tt) /\ disk' !! small_path = Some (utf8 (lit "king")) /\ config_text m' = lit "king".
Proof.
  destruct small_opens as (st & E & Hr). exists st. split; [exact E|]. destruct st as [disk m].
  pose proof (replace_document_atomic stem_word small_default small_database (lit "seed") (lit "new") small_path disk m (None, WOk) (small_doc "king") Hr) as H.
  destruct (replace_document stem_word (disk, m).2 (disk, m).1 (None, WOk) (small_doc "king")) as [[disk' m'] r] eqn:Ed. cbn [fst snd] in Ed. rewrite Ed in H.
  destruct H as [(e & -> & _)|(-> & -> & -> & _)].
  - exfalso. vm_compute in E. injection E as <- <-. vm_compute in Ed. discriminate Ed.
  - split_and!; [reflexivity|apply lookup_insert_eq|reflexivity].
Defined.

(** A write that fails after the file is in place is reported as an error, but the file has the
    new text, and the next change is refused as a conflict. *)
Lemma late_failure_changes_file :
  exists st, small_open = Some st /\
    let '(disk', m', r) := replace_document stem_word st.2 st.1 (None, WAfter (FsOther 5)) (small_doc "king") in
    r = Some (inr (CIo small_path (FsOther 5))) /\ m' = st.2 /\ disk' !! small_path = Some (utf8 (lit "king")) /\
    (replace_document stem_word m' disk' (None, WOk) (small_doc "queen")).2 = Some (inr (CConflict small_path)).
Proof.
  destruct small_open as [st|] eqn:E; [|vm_compute in E; discriminate E]. exists st. split; [done|]. vm_compute in E. injection E as <-. vm_compute. done.
Qed.
