(* ===== verification/Snapshot.v ===== *)
(** * Snapshots

    Models [crates/core-index/src/lsm/snapshot.rs] without its vector search, and the trait
    objects of [search.rs] ([dyn SearchReader]): a snapshot holds a memtable, readers over the
    generations and segments, and the tombstones. Every lookup combines the parts and drops the
    deleted documents.

    A trait object is the record [SearchReader] of its methods; [mem_reader], [seg_reader] and
    [disk_reader] are its three implementations. The theorems show that a lookup is the union of
    the parts without the deleted documents and that the statistics count the live documents. *)
From Stdlib Require Import ZArith Lia.
From stdpp Require Import base numbers list gmap sorting.
From S2P Require Import Prelude Types Posting PostingOps Numeric ArrayRows Wildcard Btree TermDict Segment MemIndex DocLengths SegmentFile Fuzzy FuzzyRank FuzzyIndex.
Local Open Scope Z_scope.

(** ** Readers *)

Record SearchReader : Type := mkReader {
  r_lookup : str -> XPathId -> PostingList;
  r_lookup_prefix : str -> XPathId -> PostingList;
  r_lookup_wildcard : WildcardPattern -> XPathId -> PostingList;
  r_lookup_fuzzy : str -> XPathId -> FuzzyOptions -> PostingList;
  r_fuzzy_expansions : str -> XPathId -> FuzzyOptions -> list FuzzyExpansion;
  r_terms : XPathId -> list str;
  r_doc_freq : str -> XPathId -> Z;
  r_rows : ArrayRowIndex;
  r_bool_fields : BoolFields;
  r_numeric_range : XPathId -> option NumericBound -> option NumericBound -> PostingList;
  r_numeric_value : XPathId -> DocId -> option NumericValue;
  r_numeric_bounds : XPathId -> option NumericValue * option NumericValue;
  r_stats : Stats;
  r_doc_len : DocId -> XPathId -> option Z;
  r_doc_range : option (DocId * DocId)
}.

Definition mem_reader (m : MemIndex) : SearchReader := {|
  r_lookup := mem_lookup_or_empty m;
  r_lookup_prefix := mem_lookup_prefix m;
  r_lookup_wildcard := mem_lookup_wildcard m;
  r_lookup_fuzzy t x o := default_lookup_fuzzy (fun t => mem_lookup_or_empty m t x) (mem_fuzzy_expansions m t x o);
  r_fuzzy_expansions := mem_fuzzy_expansions m;
  r_terms := mem_terms_of m;
  r_doc_freq := mem_doc_freq m;
  r_rows := mem_array_row_index m;
  r_bool_fields := mem_bool_fields m;
  r_numeric_range := mem_numeric_range m;
  r_numeric_value := np_get (mem_numeric_points m);
  r_numeric_bounds := np_bounds (mem_numeric_points m);
  r_stats := mem_field_stats m;
  r_doc_len d x := mem_doc_lengths m !! (d, x);
  r_doc_range := mem_doc_id_range m
|}.

Definition seg_reader (s : ImmutableSegment) : SearchReader := {|
  r_lookup := seg_lookup_or_empty s;
  r_lookup_prefix := seg_lookup_prefix s;
  r_lookup_wildcard := seg_lookup_wildcard s;
  r_lookup_fuzzy t x o := default_lookup_fuzzy (fun t => seg_lookup_or_empty s t x) (seg_fuzzy_expansions s t x o);
  r_fuzzy_expansions := seg_fuzzy_expansions s;
  r_terms := seg_terms_of s;
  r_doc_freq := seg_doc_freq s;
  r_rows := seg_array_row_index s;
  r_bool_fields := seg_bool_fields s;
  r_numeric_range := seg_numeric_range s;
  r_numeric_value := nfs_get (seg_numeric_fields s);
  r_numeric_bounds := nfs_bounds (seg_numeric_fields s);
  r_stats := seg_field_stats s;
  r_doc_len := seg_doc_len s;
  r_doc_range := seg_doc_id_range s
|}.

Section disk_reader.
Context `{DfaLib}.

Definition disk_lookup_fuzzy (self : DiskSegment) (term : str) (xpath : XPathId) (opts : FuzzyOptions) : PostingList :=
  match ds_dictionary self !! xpath with
  | None => PostingList_new
  | Some dict => from_items (fold_left (fun out e => read_postings_into self e.2 out) (td_fuzzy dict term opts) [])
  end.
Definition disk_fuzzy_expansions (self : DiskSegment) (term : str) (xpath : XPathId) (opts : FuzzyOptions)
    : list FuzzyExpansion :=
  match ds_dictionary self !! xpath with
  | Some dict => (td_fuzzy_expansions dict term opts).*1
  | None => []
  end.

Definition disk_reader (s : DiskSegment) : SearchReader := {|
  r_lookup := disk_lookup s;
  r_lookup_prefix := disk_lookup_prefix s;
  r_lookup_wildcard := disk_lookup_wildcard s;
  r_lookup_fuzzy := disk_lookup_fuzzy s;
  r_fuzzy_expansions := disk_fuzzy_expansions s;
  r_terms := disk_terms_of s;
  r_doc_freq := disk_doc_freq s;
  r_rows := ds_array_row_index s;
  r_bool_fields := ds_bool_fields s;
  r_numeric_range x lo hi := docs_to_list (nfs_range (ds_numeric_fields s) x lo hi);
  r_numeric_value := nfs_get (ds_numeric_fields s);
  r_numeric_bounds := nfs_bounds (ds_numeric_fields s);
  r_stats := ds_field_stats s;
  r_doc_len := disk_doc_len s;
  r_doc_range := ds_doc_id_range s
|}.
End disk_reader.

(** The methods the three implementations share. *)
Definition resolve_rows (r : SearchReader) (rows : gset Z) : gset Z :=
  list_to_set (omap (doc_of (r_rows r)) (elements rows)).
Definition r_doc_count (r : SearchReader) (xpath : XPathId) : Z := stats_doc_count (r_stats r) xpath.
Definition r_total_doc_len (r : SearchReader) (xpath : XPathId) : Z := stats_total_doc_len (r_stats r) xpath.
Definition r_bool_value (r : SearchReader) (xpath : XPathId) (d : DocId) : option bool :=
  bool_value (r_bool_fields r) xpath d.

(** ** The snapshot *)

Record IndexSnapshot : Type := mkSnapshot {
  sn_mem : MemIndex;
  sn_segments : list SearchReader;
  sn_deleted : DeleteSet
}.
Definition IndexSnapshot_new := mkSnapshot.
Definition IndexSnapshot_default : IndexSnapshot := mkSnapshot MemIndex_new [] DeleteSet_new.

Section snapshot.
Context (self : IndexSnapshot).
Local Abbreviation mem := (mem_reader (sn_mem self)).
Local Abbreviation segments := (sn_segments self).

Definition apply_deletes (postings : PostingList) : PostingList := filter_in_place (sn_deleted self) postings.

(** Removing the deleted documents one by one. *)
Definition apply_deletes_to_bitset (bitset : gset Z) : gset Z :=
  if DeleteSet_is_empty (sn_deleted self) then bitset
  else fold_left (fun b d => b ∖ {[d]}) (elements (deleted (sn_deleted self))) bitset.

(** [union_many] of the parts' lists. *)
Definition union_lists (lists : list PostingList) : PostingList := default PostingList_new (union_many lists).

Definition sn_lookup (term : str) (xpath : XPathId) : PostingList :=
  let mem_list := mem_lookup (sn_mem self) term xpath in
  let segment_lists := (fun s => r_lookup s term xpath) <$> segments in
  if bool_decide (mem_list = None) && (length segment_lists <=? 1)%nat
  then apply_deletes (default PostingList_new (last segment_lists))
  else
    let lists := match mem_list with Some list => [list] | None => [] end ++ segment_lists in
    apply_deletes (union_lists lists).

Definition sn_lookup_prefix (prefix : str) (xpath : XPathId) : PostingList :=
  apply_deletes (union_lists (r_lookup_prefix mem prefix xpath :: ((fun s => r_lookup_prefix s prefix xpath) <$> segments))).
Definition sn_lookup_wildcard (pattern : WildcardPattern) (xpath : XPathId) : PostingList :=
  apply_deletes (union_lists (r_lookup_wildcard mem pattern xpath :: ((fun s => r_lookup_wildcard s pattern xpath) <$> segments))).
Definition sn_lookup_fuzzy (term : str) (xpath : XPathId) (opts : FuzzyOptions) : PostingList :=
  apply_deletes (union_lists (r_lookup_fuzzy mem term xpath opts :: ((fun s => r_lookup_fuzzy s term xpath opts) <$> segments))).

(** A [BTreeSet] of the terms, in order. *)
Definition sn_terms (xpath : XPathId) : list str :=
  (btree_iter (list_to_map ((fun t => (t, tt)) <$> (r_terms mem xpath ++ concat ((fun s => r_terms s xpath) <$> segments)))
     : gmap str unit)).*1.

Definition sn_is_deleted (d : DocId) : bool := is_deleted (sn_deleted self) d.

Definition sn_resolve_array_rows (rows : gset Z) : gset Z :=
  let out := fold_left (fun out s => out ∪ resolve_rows s rows) segments (resolve_rows mem rows) in
  filter (fun d => negb (is_deleted (sn_deleted self) d) = true) out.

(** The memtable first, then the first segment that answers. *)
Definition first_some {A} (f : SearchReader -> option A) : option A :=
  match f mem with Some a => Some a | None => head (omap f segments) end.
Definition sn_parent_of_row (row : ArrayRowId) : option ArrayRowId := first_some (fun s => parent_of (r_rows s) row).
Definition sn_doc_of_row (row : ArrayRowId) : option DocId := first_some (fun s => doc_of (r_rows s) row).

Definition sn_bool_true_ids (xpath : XPathId) : gset Z :=
  apply_deletes_to_bitset (fold_left (fun out s => out ∪ bool_true_ids (r_bool_fields s) xpath) segments
    (bool_true_ids (r_bool_fields mem) xpath)).
Definition sn_bool_false_ids (xpath : XPathId) : gset Z :=
  apply_deletes_to_bitset (fold_left (fun out s => out ∪ bool_false_ids (r_bool_fields s) xpath) segments
    (bool_false_ids (r_bool_fields mem) xpath)).
Definition sn_bool_value (xpath : XPathId) (d : DocId) : option bool :=
  if is_deleted (sn_deleted self) d then None else first_some (fun s => r_bool_value s xpath d).

Definition sn_doc_freq (term : str) (xpath : XPathId) : Z :=
  fold_left (fun total s => saturating_add 32 total (r_doc_freq s term xpath)) segments (r_doc_freq mem term xpath).

(** One step of the loop that merges the expansions of the parts. *)
Definition merge_expansion (out : gmap str FuzzyExpansion) (e : FuzzyExpansion) : gmap str FuzzyExpansion :=
  match out !! fe_term e with
  | Some existing =>
    <[fe_term e := mkExpansion (fe_term existing) (Z.min (fe_edits existing) (fe_edits e))
        (saturating_add 32 (fe_doc_freq existing) (fe_doc_freq e))]> out
  | None => <[fe_term e := e]> out
  end.
Definition sn_fuzzy_expansions (term : str) (xpath : XPathId) (opts : FuzzyOptions) : list FuzzyExpansion :=
  let all := r_fuzzy_expansions mem term xpath opts
    ++ concat ((fun s => r_fuzzy_expansions s term xpath opts) <$> segments) in
  (btree_iter (fold_left merge_expansion all ∅)).*2.

Definition sn_numeric_range (xpath : XPathId) (lo hi : option NumericBound) : PostingList :=
  apply_deletes (union_lists (r_numeric_range mem xpath lo hi :: ((fun s => r_numeric_range s xpath lo hi) <$> segments))).
Definition sn_numeric_value (xpath : XPathId) (d : DocId) : option NumericValue :=
  if is_deleted (sn_deleted self) d then None else first_some (fun s => r_numeric_value s xpath d).

(** [a.min(b)], [a.max(b)] of [NumericValue]'s order. *)
Definition value_min (a b : NumericValue) : NumericValue := match value_cmp b a with Lt => b | _ => a end.
Definition value_max (a b : NumericValue) : NumericValue := match value_cmp b a with Lt => a | _ => b end.
Definition merge_bound (pick : NumericValue -> NumericValue -> NumericValue) (a b : option NumericValue) : option NumericValue :=
  match a, b with
  | Some a, Some b => Some (pick a b)
  | None, b => b
  | a, _ => a
  end.
Definition sn_numeric_bounds (xpath : XPathId) : option NumericValue * option NumericValue :=
  fold_left (fun result s =>
    let b := r_numeric_bounds s xpath in (merge_bound value_min result.1 b.1, merge_bound value_max result.2 b.2))
    segments (r_numeric_bounds mem xpath).

Definition out_of_range (range : option (DocId * DocId)) (d : DocId) : bool :=
  match range with Some (lo, hi) => (d <? lo) || (hi <? d) | None => false end.
(** Newest segment first; a segment whose range excludes the document is skipped. *)
Definition sn_doc_len (d : DocId) (xpath : XPathId) : option Z :=
  match r_doc_len mem d xpath with
  | Some len => Some len
  | None => head (omap (fun s => if out_of_range (r_doc_range s) d then None else r_doc_len s d xpath) (rev segments))
  end.

(** [u64] sums. *)
Definition sum_u64 (l : list Z) : Z := fold_left (fun t x => wrap 64 (t + x)) l 0.
Definition sn_doc_count (xpath : XPathId) : Z :=
  let raw := wrap 64 (r_doc_count mem xpath + sum_u64 ((fun s => r_doc_count s xpath) <$> segments)) in
  let deleted := zlen (filter (fun d => is_Some (sn_doc_len d xpath)) (elements (deleted (sn_deleted self)))) in
  saturating_sub raw deleted.
Definition sn_total_doc_len (xpath : XPathId) : Z :=
  let raw := wrap 64 (r_total_doc_len mem xpath + sum_u64 ((fun s => r_total_doc_len s xpath) <$> segments)) in
  let deleted := sum_u64 (omap (fun d => sn_doc_len d xpath) (elements (deleted (sn_deleted self)))) in
  saturating_sub raw deleted.

Definition widen_range (range : option (DocId * DocId)) (s : SearchReader) : option (DocId * DocId) :=
  match r_doc_range s with
  | Some (lo, hi) => Some match range with None => (lo, hi) | Some (mn, mx) => (Z.min mn lo, Z.max mx hi) end
  | None => range
  end.
Definition sn_doc_range : option (DocId * DocId) := fold_left widen_range segments (r_doc_range mem).
End snapshot.

(** ** Laws of a reader *)

(** The lists a reader returns are sorted by document, and its statistics are those of the
    field lengths it stores, all of them within its document range. *)
Record reader_ok (r : SearchReader) (lengths : gmap (Z * Z) Z) : Prop := {
  ro_lookup t x : wf_list (r_lookup r t x);
  ro_prefix p x : wf_list (r_lookup_prefix r p x);
  ro_wildcard p x : wf_list (r_lookup_wildcard r p x);
  ro_fuzzy t x o : wf_list (r_lookup_fuzzy r t x o);
  ro_numeric x lo hi : wf_list (r_numeric_range r x lo hi);
  ro_len d x : r_doc_len r d x = lengths !! (d, x);
  ro_stats : stats_inv lengths (r_stats r);
  ro_range d x len : lengths !! (d, x) = Some len -> out_of_range (r_doc_range r) d = false
}.

(** The parts of a snapshot with the lengths they store. *)
Record snapshot_ok (self : IndexSnapshot) (lengths : list (gmap (Z * Z) Z)) : Prop := {
  so_parts : Forall2 reader_ok (mem_reader (sn_mem self) :: sn_segments self) lengths;
  so_disjoint : forall i j m1 m2, i <> j -> lengths !! i = Some m1 -> lengths !! j = Some m2 -> m1 ##ₘ m2
}.

(** ** Lookups *)

Section lookups.
Context (self : IndexSnapshot).
Local Abbreviation parts := (mem_reader (sn_mem self) :: sn_segments self).

(** The postings of live documents, one per document, in document order. *)
Definition live (l : list Posting) : list Posting :=
  filter (fun p => doc_id p ∉ deleted (sn_deleted self)) (items (from_items l)).

Lemma filter_in_place_items s l : items (filter_in_place s l) = filter (fun p => doc_id p ∉ deleted s) (items l).
Proof.
  unfold filter_in_place, DeleteSet_is_empty. case_bool_decide as He.
  - symmetry. apply filter_all, Forall_forall. intros p _. rewrite He. apply not_elem_of_empty.
  - cbn [retain items]. apply list_filter_iff. intros p. unfold is_deleted. rewrite negb_true_iff, bool_decide_eq_false. done.
Qed.

Lemma apply_union lists :
  Forall wf_list lists -> items (apply_deletes self (union_lists lists)) = live (concat (items <$> lists)).
Proof.
  intros Hwf. unfold apply_deletes, union_lists, live. rewrite filter_in_place_items, union_many_spec by done. done.
Qed.

Lemma from_items_wf_items l : wf_list l -> items (from_items (items l)) = items l.
Proof. intros [Ha _]. by rewrite from_items_ascending. Qed.

Lemma sn_lookup_spec t x :
  Forall (fun r => wf_list (r_lookup r t x)) parts ->
  items (sn_lookup self t x) = live (concat ((fun r => items (r_lookup r t x)) <$> parts)).
Proof.
  intros Hwf. apply Forall_cons in Hwf as [Hm Hs]. cbn [mem_reader r_lookup] in Hm.
  assert (Hsl : Forall wf_list ((fun s => r_lookup s t x) <$> sn_segments self)) by (by apply Forall_fmap).
  unfold sn_lookup. cbv zeta. unfold mem_lookup_or_empty in Hm.
  rewrite fmap_cons. cbn [mem_reader r_lookup concat]. unfold mem_lookup_or_empty.
  replace (concat ((fun r => items (r_lookup r t x)) <$> sn_segments self))
    with (concat (items <$> ((fun s => r_lookup s t x) <$> sn_segments self))) by (by rewrite <-list_fmap_compose).
  destruct (mem_lookup (sn_mem self) t x) as [l|] eqn:Hl; cbn [default from_option id] in *.
  - rewrite bool_decide_eq_false_2 by done. cbn [andb]. rewrite apply_union by (by constructor). done.
  - rewrite bool_decide_eq_true_2 by done. cbn [andb PostingList_new items app].
    destruct (Nat.leb_spec (length ((fun s => r_lookup s t x) <$> sn_segments self)) 1) as [Hle|Hgt].
    + unfold apply_deletes, live. rewrite filter_in_place_items.
      destruct ((fun s => r_lookup s t x) <$> sn_segments self) as [|l [|]]; simpl in Hle; [done| |lia].
      cbn [last default from_option id fmap list_fmap concat]. rewrite app_nil_r, from_items_wf_items; [done|].
      by inversion Hsl.
    + by apply apply_union.
Qed.

(** The other lookups are unions of the same shape. *)
Lemma union_parts_spec (f : SearchReader -> PostingList) :
  Forall (fun r => wf_list (f r)) parts ->
  items (apply_deletes self (union_lists (f <$> parts))) = live (concat ((fun r => items (f r)) <$> parts)).
Proof.
  intros Hwf. rewrite apply_union by (by apply Forall_fmap). by rewrite <-list_fmap_compose.
Qed.
End lookups.

Lemma parts_wf self lengths (f : SearchReader -> PostingList) :
  snapshot_ok self lengths -> (forall r m, reader_ok r m -> wf_list (f r)) ->
  Forall (fun r => wf_list (f r)) (mem_reader (sn_mem self) :: sn_segments self).
Proof.
  intros Hok Hf. apply Forall_forall. intros r Hr. apply list_elem_of_lookup in Hr as [i Hi].
  destruct (Forall2_lookup_l _ _ _ _ _ (so_parts _ _ Hok) Hi) as (m & _ & Hm). by eapply Hf.
Qed.

(** C16: Every lookup of a snapshot (a term, a prefix, a wildcard pattern, a fuzzy term, a numeric
    range) returns exactly the postings of its parts without those of deleted documents: all
    postings of the memtable and of every segment together, sorted by document, the postings of
    one document merged. The shortcut for a term that only one segment holds changes nothing. *)
Theorem snapshot_lookups_correct self lengths t p pat o x lo hi :
  snapshot_ok self lengths ->
  let parts := mem_reader (sn_mem self) :: sn_segments self in
  let union (f : SearchReader -> PostingList) := live self (concat ((fun r => items (f r)) <$> parts)) in
  items (sn_lookup self t x) = union (fun r => r_lookup r t x) /\
  items (sn_lookup_prefix self p x) = union (fun r => r_lookup_prefix r p x) /\
  items (sn_lookup_wildcard self pat x) = union (fun r => r_lookup_wildcard r pat x) /\
  items (sn_lookup_fuzzy self t x o) = union (fun r => r_lookup_fuzzy r t x o) /\
  items (sn_numeric_range self x lo hi) = union (fun r => r_numeric_range r x lo hi).
Proof.
  intros Hok parts union. unfold union, parts. split_and!.
  - apply sn_lookup_spec, (parts_wf _ _ _ Hok). intros r m Hr. apply Hr.
  - apply (union_parts_spec self (fun r => r_lookup_prefix r p x)), (parts_wf _ _ _ Hok). intros r m Hr. apply Hr.
  - apply (union_parts_spec self (fun r => r_lookup_wildcard r pat x)), (parts_wf _ _ _ Hok). intros r m Hr. apply Hr.
  - apply (union_parts_spec self (fun r => r_lookup_fuzzy r t x o)), (parts_wf _ _ _ Hok). intros r m Hr. apply Hr.
  - apply (union_parts_spec self (fun r => r_numeric_range r x lo hi)), (parts_wf _ _ _ Hok). intros r m Hr. apply Hr.
Qed.

(** ** Statistics *)

(** The lengths of all parts. *)
Definition all_lengths (lengths : list (gmap (Z * Z) Z)) : gmap (Z * Z) Z :=
  foldr (fun m all => m ∪ all) ∅ lengths.

(** The lengths of live documents. *)
Definition live_lengths (self : IndexSnapshot) (lengths : list (gmap (Z * Z) Z)) : gmap (Z * Z) Z :=
  filter (fun e => e.1.1 ∉ deleted (sn_deleted self)) (all_lengths lengths).

Lemma all_lengths_lookup lengths k v :
  (forall i j m1 m2, i <> j -> lengths !! i = Some m1 -> lengths !! j = Some m2 -> m1 ##ₘ m2) ->
  all_lengths lengths !! k = Some v <-> exists m, m ∈ lengths /\ m !! k = Some v.
Proof.
  unfold all_lengths. induction lengths as [|m ms IH]; intros Hd.
  { cbn [foldr]. rewrite lookup_empty. setoid_rewrite elem_of_nil. naive_solver. }
  assert (Hd' : forall i j m1 m2, i <> j -> ms !! i = Some m1 -> ms !! j = Some m2 -> m1 ##ₘ m2).
  { intros i j m1 m2 Hij H1 H2. apply (Hd (S i) (S j)); [lia|done|done]. }
  cbn [foldr]. rewrite lookup_union_Some_raw, IH by done. setoid_rewrite elem_of_cons. split.
  - intros [Hm|[_ (m' & Hm' & Hk)]]; [exists m; auto|]. exists m'. auto.
  - intros (m' & [->|Hm'] & Hk); [by left|]. right. split; [|by exists m'].
    apply list_elem_of_lookup in Hm' as [i Hi]. specialize (Hd 0%nat (S i) m m' ltac:(lia) eq_refl Hi).
    apply eq_None_not_Some. intros [v' Hv']. by apply (map_disjoint_spec m m') with k v' v.
Qed.

Lemma all_lengths_perm lengths :
  (forall i j m1 m2, i <> j -> lengths !! i = Some m1 -> lengths !! j = Some m2 -> m1 ##ₘ m2) ->
  map_to_list (all_lengths lengths) ≡ₚ concat (map_to_list <$> lengths).
Proof.
  induction lengths as [|m ms IH]; intros Hd; [unfold all_lengths; cbn [foldr]; by rewrite map_to_list_empty|].
  assert (Hd' : forall i j m1 m2, i <> j -> ms !! i = Some m1 -> ms !! j = Some m2 -> m1 ##ₘ m2).
  { intros i j m1 m2 Hij H1 H2. apply (Hd (S i) (S j)); [lia|done|done]. }
  change (all_lengths (m :: ms)) with (m ∪ all_lengths ms). rewrite fmap_cons. cbn [concat].
  rewrite <-IH by done. apply map_to_list_disjoint_union. apply map_disjoint_spec. intros k v v' Hv Hv'.
  apply all_lengths_lookup in Hv' as (m' & Hm' & Hk); [|done]. apply list_elem_of_lookup in Hm' as [i Hi].
  apply (map_disjoint_spec m m') with k v v'; [|done|done]. by apply (Hd 0%nat (S i)).
Qed.

Section stats.
Context (self : IndexSnapshot) (lengths : list (gmap (Z * Z) Z)) (Hok : snapshot_ok self lengths).

Lemma part_len r m d x : (exists i, (mem_reader (sn_mem self) :: sn_segments self) !! i = Some r /\ lengths !! i = Some m) ->
  (if out_of_range (r_doc_range r) d then None else r_doc_len r d x) = m !! (d, x) /\ r_doc_len r d x = m !! (d, x).
Proof using Hok.
  intros (i & Hr & Hm). pose proof (Forall2_lookup_lr _ _ _ _ _ _ (so_parts _ _ Hok) Hr Hm) as Ho.
  rewrite (ro_len _ _ Ho). split; [|done]. destruct (m !! (d, x)) as [len|] eqn:El; [|by destruct (out_of_range _ _)].
  by rewrite (ro_range _ _ Ho _ _ _ El).
Qed.

(** Searching the parts finds the stored length. *)
Lemma sn_doc_len_spec d x : sn_doc_len self d x = all_lengths lengths !! (d, x).
Proof using Hok.
  apply option_eq. intros len. rewrite (all_lengths_lookup lengths) by (apply (so_disjoint _ _ Hok)).
  unfold sn_doc_len. destruct (Forall2_lookup_l _ _ _ 0%nat _ (so_parts _ _ Hok) eq_refl) as (m0 & Hm0 & _).
  destruct (part_len _ m0 d x (ex_intro _ 0%nat (conj eq_refl Hm0))) as [_ H0]. rewrite H0.
  set (f := fun s => if out_of_range (r_doc_range s) d then None else r_doc_len s d x).
  assert (Hseg : forall l, l ∈ omap f (rev (sn_segments self)) <-> exists i m, lengths !! S i = Some m /\ m !! (d, x) = Some l).
  { intros l. rewrite list_elem_of_omap. split.
    - intros (r & Hr & Hf). rewrite list_elem_of_In, <-in_rev, <-list_elem_of_In in Hr. apply list_elem_of_lookup in Hr as [i Hi].
      destruct (Forall2_lookup_l _ _ _ (S i) r (so_parts _ _ Hok) Hi) as (m & Hm & _).
      exists i, m. split; [done|]. destruct (part_len r m d x) as [Hp _]; [by exists (S i)|]. unfold f in Hf. congruence.
    - intros (i & m & Hm & Hk). destruct (Forall2_lookup_r _ _ _ (S i) m (so_parts _ _ Hok) Hm) as (r & Hr & _).
      exists r. split; [rewrite list_elem_of_In, <-in_rev, <-list_elem_of_In; by eapply list_elem_of_lookup_2|].
      destruct (part_len r m d x) as [Hp _]; [by exists (S i)|]. unfold f. congruence. }
  assert (Hu : forall i j m1 m2 l1 l2, lengths !! i = Some m1 -> lengths !! j = Some m2 -> m1 !! (d, x) = Some l1 ->
    m2 !! (d, x) = Some l2 -> l1 = l2).
  { intros i j m1 m2 l1 l2 H1 H2 Hk1 Hk2. destruct (decide (i = j)) as [->|Hij]; [congruence|].
    exfalso. by apply (map_disjoint_spec m1 m2) with (d, x) l1 l2; [by apply (so_disjoint _ _ Hok i j)|..]. }
  destruct (m0 !! (d, x)) as [l0|] eqn:E0.
  - split; [intros [= <-]; exists m0; split; [by eapply list_elem_of_lookup_2|done]|].
    intros (m & Hm & Hk). apply list_elem_of_lookup in Hm as [i Hi]. f_equal. by eapply (Hu 0%nat i).
  - split.
    + intros Hh. apply head_Some in Hh as [l' Hl']. destruct (proj1 (Hseg len)) as (i & m & Hm & Hk); [rewrite Hl'; left|].
      exists m. split; [by eapply list_elem_of_lookup_2|done].
    + intros (m & Hm & Hk). apply list_elem_of_lookup in Hm as [[|i] Hi]; [congruence|].
      assert (Hin : len ∈ omap f (rev (sn_segments self))) by (apply Hseg; eauto).
      destruct (omap f (rev (sn_segments self))) as [|l' rest]; [by apply elem_of_nil in Hin|]. simpl. f_equal.
      destruct (proj1 (Hseg l')) as (j & m' & Hm' & Hk'); [left|]. by eapply (Hu (S j) (S i)).
Qed.

Lemma stats_reader r m x :
  reader_ok r m ->
  r_doc_count r x = wrap 64 (zlen (lengths_of x (map_to_list m))) /\
  r_total_doc_len r x = wrap 64 (sum_Z (lengths_of x (map_to_list m))).
Proof.
  intros Ho. unfold r_doc_count, r_total_doc_len, stats_doc_count, stats_total_doc_len. rewrite (ro_stats _ _ Ho x).
  unfold stats_of. by destruct (lengths_of x (map_to_list m)).
Qed.

Lemma sum_u64_spec l : sum_u64 l = wrap 64 (sum_Z l).
Proof.
  unfold sum_u64. assert (H : forall t, fold_left (fun t x => wrap 64 (t + x)) l (wrap 64 t) = wrap 64 (t + sum_Z l)).
  { induction l as [|x l IH]; intros t; simpl; [by rewrite Z.add_0_r|]. rewrite wrap_add_l, IH. f_equal. lia. }
  apply (H 0).
Qed.

(** The raw sums over the parts, before the deleted documents are taken off. *)
Lemma raw_sum (f : SearchReader -> Z) (g : list Z -> Z) x :
  g [] = 0 -> (forall l1 l2, g (l1 ++ l2) = g l1 + g l2) ->
  (forall l1 l2, l1 ≡ₚ l2 -> g l1 = g l2) ->
  (forall r m, reader_ok r m -> f r = wrap 64 (g (lengths_of x (map_to_list m)))) ->
  wrap 64 (f (mem_reader (sn_mem self)) + sum_u64 (f <$> sn_segments self)) =
  wrap 64 (g (lengths_of x (map_to_list (all_lengths lengths)))).
Proof using Hok.
  intros H0 Happ Hperm Hf. rewrite sum_u64_spec, wrap_add_r.
  change (f (mem_reader (sn_mem self)) + sum_Z (f <$> sn_segments self))
    with (sum_Z (f <$> (mem_reader (sn_mem self) :: sn_segments self))).
  rewrite (Hperm _ _ (lengths_of_perm x _ _ (all_lengths_perm lengths (so_disjoint _ _ Hok)))).
  pose proof (so_parts _ _ Hok) as Hparts. clear Hok.
  induction Hparts as [|r m rs ms Hr _ IH]; [change (wrap 64 0 = wrap 64 (g [])); by rewrite H0|].
  rewrite !fmap_cons. cbn [sum_Z foldr concat].
  change (foldr Z.add 0 (f <$> rs)) with (sum_Z (f <$> rs)).
  rewrite lengths_of_app, Happ, (Hf _ _ Hr), wrap_add_l. rewrite <-(wrap_add_r 64), IH, wrap_add_r. done.
Qed.
End stats.

Lemma sum_Z_nonneg l : (forall x, x ∈ l -> 0 <= x) -> 0 <= sum_Z l.
Proof.
  induction l as [|x l IH]; intros H; [done|]. simpl. pose proof (H x ltac:(left)).
  assert (0 <= sum_Z l) by (apply IH; intros; apply H; by right). lia.
Qed.

Lemma NoDup_omap_inj {A B} (f : A -> option B) (l : list A) :
  (forall a a' b, f a = Some b -> f a' = Some b -> a = a') -> NoDup l -> NoDup (omap f l).
Proof.
  intros Hf Hn. induction Hn as [|a l Ha Hn IH]; cbn [omap list_omap]; [constructor|].
  destruct (f a) as [b|] eqn:Hb; [|done]. constructor; [|done]. intros (a' & Ha' & Hb')%list_elem_of_omap.
  by rewrite (Hf _ _ _ Hb Hb') in Ha.
Qed.

(** The lengths split into those of live and those of deleted documents. *)
Lemma lengths_split (U : gmap (Z * Z) Z) (dels : gset Z) x :
  lengths_of x (map_to_list U) ≡ₚ
  lengths_of x (map_to_list (filter (fun e => e.1.1 ∉ dels) U)) ++ omap (fun d => U !! (d, x)) (elements dels).
Proof.
  transitivity (lengths_of x (map_to_list (filter (fun e => e.1.1 ∉ dels) U)
    ++ omap (fun d => (fun l => ((d, x), l)) <$> U !! (d, x)) (elements dels))).
  - transitivity (lengths_of x (filter (fun e => e.1.2 = x) (map_to_list U))).
    { unfold lengths_of. rewrite list_filter_filter. by erewrite list_filter_iff; [done|]; intros ?; tauto. }
    transitivity (lengths_of x (filter (fun e => e.1.2 = x) (map_to_list (filter (fun e => e.1.1 ∉ dels) U)
      ++ omap (fun d => (fun l => ((d, x), l)) <$> U !! (d, x)) (elements dels)))).
    2: { unfold lengths_of. rewrite list_filter_filter. by erewrite list_filter_iff; [done|]; intros ?; tauto. }
    apply lengths_of_perm, NoDup_Permutation.
    + apply NoDup_filter, NoDup_map_to_list.
    + apply NoDup_filter, NoDup_app. split_and!; [apply NoDup_map_to_list| |].
      * intros [[d y] l] H1 (d' & Hd' & Hf)%list_elem_of_omap. apply elem_of_map_to_list in H1.
        apply map_lookup_filter_Some in H1 as [_ H1]. simpl in H1. destruct (U !! (d', x)); [|done].
        injection Hf as -> ->. by apply H1, elem_of_elements.
      * apply NoDup_omap_inj; [|apply NoDup_elements]. intros a a' b Ha Ha'.
        destruct (U !! (a, x)), (U !! (a', x)); try done. simpl in *. congruence.
    + intros [[d y] l]. rewrite !list_elem_of_filter, elem_of_app, elem_of_map_to_list, elem_of_map_to_list,
        map_lookup_filter_Some, list_elem_of_omap. simpl. split.
      * intros [-> Hl]. split; [done|]. destruct (decide (d ∈ dels)) as [Hd|Hd]; [right|by left].
        exists d. split; [by apply elem_of_elements|]. by rewrite Hl.
      * intros [-> [[Hl _]|(d' & _ & Hf)]]; [done|]. split; [done|]. destruct (U !! (d', x)) eqn:E; [|done].
        injection Hf as -> ->. done.
  - rewrite lengths_of_app. apply Permutation_app_head. unfold lengths_of. rewrite filter_all.
    + induction (elements dels) as [|d l IH]; [done|]. cbn [omap list_omap].
      destruct (U !! (d, x)); cbn [fmap option_fmap option_map map]; [by f_equiv|done].
    + apply Forall_forall. intros e (d & _ & Hf)%list_elem_of_omap. by destruct (U !! (d, x)); inversion Hf.
Qed.

(** The collection statistics of a snapshot are those of its live documents: when every
    document's field lengths are stored in one part, [doc_len] finds the stored length (skipping
    segments by their document range hides nothing), and the document count and the total length
    of a field are the number and the sum of the lengths of documents that are not deleted,
    although the parts count deleted documents too. *)
Theorem snapshot_stats_correct self lengths x :
  snapshot_ok self lengths ->
  zlen (lengths_of x (map_to_list (all_lengths lengths))) < 2 ^ 64 ->
  0 <= sum_Z (lengths_of x (map_to_list (all_lengths lengths))) < 2 ^ 64 ->
  (forall d y len, all_lengths lengths !! (d, y) = Some len -> 0 <= len) ->
  (forall d, sn_doc_len self d x = all_lengths lengths !! (d, x)) /\
  sn_doc_count self x = zlen (lengths_of x (map_to_list (live_lengths self lengths))) /\
  sn_total_doc_len self x = sum_Z (lengths_of x (map_to_list (live_lengths self lengths))).
Proof.
  intros Hok Hcount Hsum Hpos. split; [intros d; by apply sn_doc_len_spec|].
  pose proof (lengths_split (all_lengths lengths) (deleted (sn_deleted self)) x) as Hsplit. fold (live_lengths self lengths) in Hsplit.
  assert (Hdel : omap (fun d => sn_doc_len self d x) (elements (deleted (sn_deleted self)))
    = omap (fun d => all_lengths lengths !! (d, x)) (elements (deleted (sn_deleted self)))).
  { apply omap_ext_in. intros d _. by apply sn_doc_len_spec. }
  pose proof (sum_Z_perm _ _ Hsplit) as Hs. rewrite sum_Z_app in Hs. apply Permutation_length in Hsplit.
  rewrite length_app in Hsplit. split.
  - unfold sn_doc_count. rewrite (raw_sum self lengths Hok (fun s => r_doc_count s x) (fun l => zlen l) x);
      [|done|intros; rewrite length_app; lia|intros ? ? ->; done|intros r m Hr; by apply stats_reader].
    replace (length (filter _ _)) with (length (omap (fun d => sn_doc_len self d x) (elements (deleted (sn_deleted self))))).
    2: { clear. induction (elements (deleted (sn_deleted self))) as [|d l IH]; [done|]. rewrite filter_cons. cbn [omap list_omap].
      destruct (sn_doc_len self d x); case_decide as Hc; simpl; [by rewrite IH|by destruct Hc|by destruct Hc|done]. }
    rewrite Hdel. unfold wrap, saturating_sub. rewrite Z.mod_small by lia. lia.
  - unfold sn_total_doc_len. rewrite (raw_sum self lengths Hok (fun s => r_total_doc_len s x) sum_Z x);
      [|done|apply sum_Z_app|apply sum_Z_perm|intros r m Hr; by apply stats_reader].
    rewrite sum_u64_spec, Hdel.
    assert (Hd0 : 0 <= sum_Z (omap (fun d => all_lengths lengths !! (d, x)) (elements (deleted (sn_deleted self))))).
    { apply sum_Z_nonneg. intros len (d & _ & Hl)%list_elem_of_omap. by eapply Hpos. }
    assert (Hl0 : 0 <= sum_Z (lengths_of x (map_to_list (live_lengths self lengths)))).
    { apply sum_Z_nonneg. intros len ([[d y] l] & -> & [_ Hl]%list_elem_of_filter)%list_elem_of_fmap.
      apply elem_of_map_to_list, map_lookup_filter_Some in Hl as [Hl _]. by eapply Hpos. }
    unfold wrap, saturating_sub. rewrite !Z.mod_small by lia. lia.
Qed.


(** ** The readers meet the laws *)

Lemma wf_new : wf_list PostingList_new.
Proof. split; [constructor|constructor]. Qed.

Lemma mem_reader_ok m :
  mem_wf m -> mem_stats_inv m ->
  (forall d x len, mem_doc_lengths m !! (d, x) = Some len -> out_of_range (mem_doc_id_range m) d = false) ->
  reader_ok (mem_reader m) (mem_doc_lengths m).
Proof.
  intros Hwf Hst Hr. constructor; cbn [mem_reader r_lookup r_lookup_prefix r_lookup_wildcard r_lookup_fuzzy r_numeric_range r_doc_len r_stats r_doc_range];
    intros; try done; try apply from_items_wf; [| |by eapply Hr].
  - unfold mem_lookup_or_empty, mem_lookup. destruct (mem_terms m !! _) eqn:E; [by eapply Hwf|apply wf_new].
  - unfold mem_lookup_wildcard. destruct (is_prefix_only _); apply from_items_wf.
Qed.

Lemma seg_reader_ok s :
  (forall k l, seg_terms s !! k = Some l -> wf_list l) -> stats_inv (seg_doc_lengths s) (seg_field_stats s) ->
  seg_doc_id_range s = compute_doc_id_range (seg_doc_lengths s) (seg_numeric_fields s) ->
  reader_ok (seg_reader s) (seg_doc_lengths s).
Proof.
  intros Hwf Hst Hr. constructor; cbn [seg_reader r_lookup r_lookup_prefix r_lookup_wildcard r_lookup_fuzzy r_numeric_range r_doc_len r_stats r_doc_range];
    intros; try done; try apply from_items_wf.
  - unfold seg_lookup_or_empty, seg_lookup. destruct (seg_terms s !! _) eqn:E; [by eapply Hwf|apply wf_new].
  - unfold seg_lookup_wildcard. destruct (is_prefix_only _); apply from_items_wf.
  - rewrite Hr. pose proof (doc_id_range_spec (seg_doc_lengths s) (seg_numeric_fields s)) as Hs.
    destruct (compute_doc_id_range _ _) as [[lo hi]|]; [|done]. destruct Hs as (_ & _ & Hd & _).
    specialize (Hd d x ltac:(by eexists)). unfold out_of_range. rewrite orb_false_iff, !Z.ltb_ge. lia.
Qed.


(** ** An index with one document in memory and one deleted document in a segment *)
Module SnapshotExample.
Definition doc (d : DocId) (len : Z) : AnalyzedDocument :=
  mkDocument d (mkTarget [mkAnalyzedField 1 len [mkAnalyzedTerm [104; 105] [16] 5]] [] []) [].
Definition mem : MemIndex := add_analyzed_document MemIndex_new (doc 7 3).
Definition segment : ImmutableSegment := freeze (add_analyzed_document MemIndex_new (doc 8 4)).
Definition snapshot : IndexSnapshot := mkSnapshot mem [seg_reader segment] (mkDeleteSet {[ 8 ]}).
Definition lengths : list (gmap (Z * Z) Z) := [ {[ (7, 1) := 3 ]}; {[ (8, 1) := 4 ]} ].

Lemma new_mem_ok d : mem_wf (add_analyzed_document MemIndex_new d) /\ mem_stats_inv (add_analyzed_document MemIndex_new d).
Proof.
  split.
  - apply add_document_spec. intros k l H. cbn [mem_terms MemIndex_new] in H. by rewrite lookup_empty in H.
  - apply add_document_stats_inv. intros x. cbn [mem_doc_lengths mem_field_stats MemIndex_new].
    by rewrite lookup_empty, map_to_list_empty.
Qed.

Lemma ok : snapshot_ok snapshot lengths.
Proof.
  destruct (new_mem_ok (doc 7 3)) as [H1 H2]. destruct (new_mem_ok (doc 8 4)) as [H3 H4]. split.
  - constructor; [|constructor; [|constructor]].
    + change {[ (7, 1) := 3 ]} with (mem_doc_lengths mem). apply mem_reader_ok; [done|done|]. intros d x len Hl.
      change (mem_doc_lengths mem) with ({[ (7, 1) := 3 ]} : gmap (Z * Z) Z) in Hl. by apply lookup_singleton_Some in Hl as [[= <- <-] _].
    + change {[ (8, 1) := 4 ]} with (seg_doc_lengths segment). by apply seg_reader_ok.
  - intros i j m1 m2 Hij Hi Hj. destruct i as [|[|]], j as [|[|]]; try done; injection Hi as <-; injection Hj as <-;
      apply map_disjoint_singleton_l; by rewrite lookup_singleton_ne.
Qed.

Lemma snapshot_lookups_correct_witness :
  items (sn_lookup snapshot [104; 105] 1) = [mkPosting 7 [16] 5] /\
  items (sn_lookup_prefix snapshot [104] 1) = [mkPosting 7 [16] 5].
Proof.
  destruct (snapshot_lookups_correct snapshot lengths [104; 105] [104] (Wildcard.parse [104; 42]) (mkFuzzyOptions 1 0 50) 1 None None ok)
    as (-> & -> & _).
  by split; vm_compute.
Defined.

Lemma snapshot_stats_correct_witness :
  sn_doc_len snapshot 8 1 = Some 4 /\ sn_doc_count snapshot 1 = 1 /\ sn_total_doc_len snapshot 1 = 3.
Proof.
  destruct (snapshot_stats_correct snapshot lengths 1 ok) as (Hl & Hc & Ht).
  - by vm_compute.
  - by vm_compute.
  - intros d y len H. apply all_lengths_lookup in H as (m & Hm & Hk); [|apply ok].
    apply elem_of_cons in Hm as [->|Hm]; [by apply lookup_singleton_Some in Hk as [_ <-]|].
    apply list_elem_of_singleton in Hm as ->. by apply lookup_singleton_Some in Hk as [_ <-].
  - rewrite Hl, Hc, Ht. by split_and!; vm_compute.
Defined.
End SnapshotExample.
