(* ===== verification/CorpusStats.v ===== *)
(** * The statistics of a search

    Models [crates/core-query/src/corpus_stats.rs] and [prepared.rs]: what every shard reports
    about a query before it is scored ([CorpusStats]), how the reports are added up ([merge]),
    the statistics a query is scored with ([ScoringStats]) and the posting lists an index keeps
    from reading them ([PreparedQuery]).

    A [HashMap] is a [gmap]; a loop over one goes through [map_to_list]. The theorem shows that the merged
    statistics are the sums over the shards, whatever the order in which they are merged. *)
From Stdlib Require Import ZArith Lia.
From stdpp Require Import base numbers countable list gmap.
From S2P Require Import Prelude Types Posting Btree Fuzzy FuzzyRank Scorer Phrase.
Local Open Scope Z_scope.

Record FieldTotals : Type := mkFieldTotals { ft_doc_count : Z; ft_total_doc_len : Z }.
Definition FieldTotals_default : FieldTotals := mkFieldTotals 0 0.

Inductive LeafKey : Type :=
| KTerm (v : str)
| KPrefix (v : str)
| KWildcard (v : str)
| KPhrase (terms : list PhraseTerm)
| KExact (v : str).
#[global] Instance LeafKey_eq_dec : EqDecision LeafKey.
Proof. solve_decision. Defined.
#[global] Instance LeafKey_countable : Countable LeafKey.
Proof.
  refine (inj_countable'
    (fun k => match k with
      | KTerm v => inl (0%Z, v) | KPrefix v => inl (1, v) | KWildcard v => inl (2, v) | KExact v => inl (3, v)
      | KPhrase ts => inr ts end)
    (fun e => match e with
      | inl (0%Z, v) => KTerm v | inl (1, v) => KPrefix v | inl (2, v) => KWildcard v | inl (_, v) => KExact v
      | inr ts => KPhrase ts end) _).
  by intros [].
Defined.

Record FuzzyKey : Type := mkFuzzyKey { fk_word : str; fk_max_edits : Z; fk_prefix_length : nat }.
#[global] Instance FuzzyKey_eq_dec : EqDecision FuzzyKey.
Proof. solve_decision. Defined.
#[global] Instance FuzzyKey_countable : Countable FuzzyKey.
Proof.
  refine (inj_countable' (fun k => (fk_word k, fk_max_edits k, fk_prefix_length k))
    (fun t => mkFuzzyKey t.1.1 t.1.2 t.2) _). by intros [].
Defined.
Definition FuzzyKey_new (word : str) (opts : FuzzyOptions) : FuzzyKey :=
  mkFuzzyKey word (fo_max_edits opts) (fo_prefix_length opts).

Record CorpusStats : Type := mkCorpusStats {
  cs_fields : gmap Z FieldTotals;
  cs_doc_freqs : gmap Z (gmap LeafKey Z);
  cs_fuzzy : gmap Z (gmap FuzzyKey (gmap str FuzzyExpansion))
}.
Definition CorpusStats_new : CorpusStats := mkCorpusStats ∅ ∅ ∅.

Definition insert_field (self : CorpusStats) (xpath : XPathId) (totals : FieldTotals) : CorpusStats :=
  mkCorpusStats (<[xpath := totals]> (cs_fields self)) (cs_doc_freqs self) (cs_fuzzy self).
Definition insert_doc_freq (self : CorpusStats) (xpath : XPathId) (key : LeafKey) (doc_freq : Z) : CorpusStats :=
  mkCorpusStats (cs_fields self)
    (<[xpath := <[key := doc_freq]> (default ∅ (cs_doc_freqs self !! xpath))]> (cs_doc_freqs self)) (cs_fuzzy self).
Definition insert_fuzzy (self : CorpusStats) (xpath : XPathId) (key : FuzzyKey) (candidates : list FuzzyExpansion) : CorpusStats :=
  let keys := default ∅ (cs_fuzzy self !! xpath) in
  let words := fold_left (fun words c => <[fe_term c := c]> words) candidates (default ∅ (keys !! key)) in
  mkCorpusStats (cs_fields self) (cs_doc_freqs self) (<[xpath := <[key := words]> keys]> (cs_fuzzy self)).
Definition has_fuzzy (self : CorpusStats) (xpath : XPathId) (key : FuzzyKey) : bool :=
  match cs_fuzzy self !! xpath with Some keys => bool_decide (is_Some (keys !! key)) | None => false end.

(** [for (k, v) in other { let entry = self.entry(k).or_default(); *entry = f(entry, v) }] *)
Definition merge_entries {K V} `{Countable K} (f : V -> V -> V) (fresh : V) (self other : gmap K V) : gmap K V :=
  fold_left (fun m e => <[e.1 := f (default fresh (m !! e.1)) e.2]> m) (map_to_list other) self.

Definition merge_totals (entry totals : FieldTotals) : FieldTotals :=
  mkFieldTotals (saturating_add 64 (ft_doc_count entry) (ft_doc_count totals))
    (saturating_add 64 (ft_total_doc_len entry) (ft_total_doc_len totals)).

(** The words of one fuzzy key; a word both sides know keeps the fewer edits and adds up its
    documents. *)
Definition merge_word (words : gmap str FuzzyExpansion) (e : FuzzyExpansion) : gmap str FuzzyExpansion :=
  match words !! fe_term e with
  | Some existing =>
    <[fe_term e := mkExpansion (fe_term existing) (Z.min (fe_edits existing) (fe_edits e))
        (saturating_add 32 (fe_doc_freq existing) (fe_doc_freq e))]> words
  | None => <[fe_term e := e]> words
  end.
Definition merge_words (words expansions : gmap str FuzzyExpansion) : gmap str FuzzyExpansion :=
  fold_left merge_word (btree_iter expansions).*2 words.

Definition merge (self other : CorpusStats) : CorpusStats :=
  mkCorpusStats
    (merge_entries merge_totals FieldTotals_default (cs_fields self) (cs_fields other))
    (merge_entries (merge_entries (saturating_add 64) 0) ∅ (cs_doc_freqs self) (cs_doc_freqs other))
    (merge_entries (merge_entries merge_words ∅) ∅ (cs_fuzzy self) (cs_fuzzy other)).

Definition cs_fuzzy_words (self : CorpusStats) (xpath : XPathId) (key : FuzzyKey) : option (list FuzzyExpansion) :=
  keys ← cs_fuzzy self !! xpath; words ← keys !! key; Some (btree_iter words).*2.
Definition cs_field (self : CorpusStats) (xpath : XPathId) : option FieldTotals := cs_fields self !! xpath.
(** [u32::try_from(doc_freq).unwrap_or(u32::MAX)] *)
Definition cs_doc_freq (self : CorpusStats) (xpath : XPathId) (key : LeafKey) : option Z :=
  keys ← cs_doc_freqs self !! xpath; doc_freq ← keys !! key; Some (Z.min doc_freq (u_max 32)).
Definition term_doc_freq (self : CorpusStats) (xpath : XPathId) (term : str) : Z :=
  default 0 (cs_doc_freq self xpath (KTerm term)).

(** [ScoringStats]: the totals of the search where there are any, the index's own otherwise. *)
Definition scoring_stats (index : SearchStats) (corpus : option CorpusStats) : SearchStats :=
  let field xpath := corpus ≫= fun c => cs_field c xpath in
  mkSearchStats
    (fun xpath => match field xpath with Some totals => ft_doc_count totals | None => ss_doc_count index xpath end)
    (fun xpath => match field xpath with Some totals => ft_total_doc_len totals | None => ss_total_doc_len index xpath end)
    (ss_doc_len index).

(** ** Prepared queries *)

Record PreparedQuery : Type := mkPrepared {
  pq_stats : CorpusStats;
  pq_lists : gmap Z (gmap LeafKey PostingList)
}.
Definition PreparedQuery_default : PreparedQuery := mkPrepared CorpusStats_new ∅.
Definition pq_insert_fuzzy (self : PreparedQuery) (xpath : XPathId) (key : FuzzyKey) (candidates : list FuzzyExpansion) :=
  mkPrepared (insert_fuzzy (pq_stats self) xpath key candidates) (pq_lists self).
Definition pq_has_fuzzy (self : PreparedQuery) : XPathId -> FuzzyKey -> bool := has_fuzzy (pq_stats self).
Definition pq_insert_field (self : PreparedQuery) (xpath : XPathId) (totals : FieldTotals) : PreparedQuery :=
  mkPrepared (insert_field (pq_stats self) xpath totals) (pq_lists self).
Definition pq_insert_leaf (self : PreparedQuery) (xpath : XPathId) (key : LeafKey) (l : PostingList) : PreparedQuery :=
  mkPrepared (insert_doc_freq (pq_stats self) xpath key (zlen (items l)))
    (<[xpath := <[key := l]> (default ∅ (pq_lists self !! xpath))]> (pq_lists self)).
Definition pq_list (self : PreparedQuery) (xpath : XPathId) (key : LeafKey) : option PostingList :=
  keys ← pq_lists self !! xpath; keys !! key.

(** ** Merging adds up *)

Lemma merge_entries_list {K V} `{Countable K} (f : V -> V -> V) fresh (l : list (K * V)) (m : gmap K V) k :
  NoDup l.*1 ->
  fold_left (fun m e => <[e.1 := f (default fresh (m !! e.1)) e.2]> m) l m !! k =
  match (list_to_map l : gmap K V) !! k with Some v => Some (f (default fresh (m !! k)) v) | None => m !! k end.
Proof.
  revert m. induction l as [|[k' v] l IH]; intros m Hnd; [done|]. apply NoDup_cons in Hnd as [Hk Hnd]. cbn in *.
  rewrite IH by done. destruct (decide (k = k')) as [->|Hne].
  - rewrite lookup_insert_eq, (not_elem_of_list_to_map_1 l) by done. by rewrite lookup_insert_eq.
  - by rewrite !(lookup_insert_ne _ k' k) by done.
Qed.

Lemma merge_entries_lookup {K V} `{Countable K} (f : V -> V -> V) fresh (a b : gmap K V) k :
  merge_entries f fresh a b !! k = match b !! k with Some v => Some (f (default fresh (a !! k)) v) | None => a !! k end.
Proof.
  unfold merge_entries. rewrite merge_entries_list by apply NoDup_fst_map_to_list. by rewrite list_to_map_to_list.
Qed.

(** The words are filed under themselves. *)
Definition words_ok (words : gmap str FuzzyExpansion) : Prop := map_Forall (fun k e => fe_term e = k) words.
Definition merge_expansions (a b : FuzzyExpansion) : FuzzyExpansion :=
  mkExpansion (fe_term a) (Z.min (fe_edits a) (fe_edits b)) (saturating_add 32 (fe_doc_freq a) (fe_doc_freq b)).

Lemma merge_words_lookup a b k :
  words_ok b -> merge_words a b !! k = union_with (fun x y => Some (merge_expansions x y)) (a !! k) (b !! k).
Proof.
  intros Hb. unfold merge_words.
  assert (Hgen : forall l a, NoDup l.*1 -> Forall (fun e => fe_term e.2 = e.1) l ->
    fold_left merge_word l.*2 a !! k =
    union_with (fun x y => Some (merge_expansions x y)) (a !! k) ((list_to_map l : gmap str FuzzyExpansion) !! k)).
  { clear. induction l as [|[t e] l IH]; intros a Hnd Hok; [cbn; rewrite lookup_empty; by destruct (a !! k)|].
    apply NoDup_cons in Hnd as [Ht Hnd]. apply Forall_cons in Hok as [He Hok]. cbn in *. subst t. rewrite IH by done.
    unfold merge_word. destruct (decide (k = fe_term e)) as [->|Hne].
    - rewrite (not_elem_of_list_to_map_1 l), lookup_insert_eq by done.
      destruct (a !! fe_term e); rewrite lookup_insert_eq; done.
    - rewrite (lookup_insert_ne _ (fe_term e) k) by done. f_equal.
      destruct (a !! fe_term e); rewrite lookup_insert_ne by done; done. }
  rewrite Hgen.
  - by rewrite list_to_map_btree_iter.
  - rewrite btree_iter_perm. apply NoDup_fst_map_to_list.
  - apply Forall_forall. intros [t e] He. rewrite btree_iter_perm in He. apply elem_of_map_to_list in He. by apply Hb.
Qed.

(** A report as an index makes it. *)
Record stats_ok (s : CorpusStats) : Prop := {
  sk_fields x t : cs_fields s !! x = Some t -> in_u 64 (ft_doc_count t) /\ in_u 64 (ft_total_doc_len t);
  sk_doc_freqs x keys key df : cs_doc_freqs s !! x = Some keys -> keys !! key = Some df -> in_u 64 df;
  sk_fuzzy x keys key words : cs_fuzzy s !! x = Some keys -> keys !! key = Some words -> words_ok words
}.

Definition freq_at (x : XPathId) (key : LeafKey) (s : CorpusStats) : option Z := keys ← cs_doc_freqs s !! x; keys !! key.
Definition word_at (x : XPathId) (key : FuzzyKey) (t : str) (s : CorpusStats) : option FuzzyExpansion :=
  keys ← cs_fuzzy s !! x; words ← keys !! key; words !! t.

Lemma saturating_zero w x : in_u w x -> saturating_add w 0 x = x.
Proof. unfold in_u, saturating_add, u_max. lia. Qed.

Lemma merge_field a b x :
  stats_ok b -> cs_fields (merge a b) !! x = union_with (fun t u => Some (merge_totals t u)) (cs_fields a !! x) (cs_fields b !! x).
Proof.
  intros Hb. cbn. rewrite merge_entries_lookup. destruct (cs_fields b !! x) as [t|] eqn:E; [|by destruct (cs_fields a !! x)].
  destruct (sk_fields _ Hb x t E) as [H1 H2]. destruct (cs_fields a !! x); cbn; [done|]. unfold merge_totals. cbn.
  rewrite !saturating_zero by done. by destruct t.
Qed.

Lemma merge_freq a b x key :
  stats_ok b -> freq_at x key (merge a b) = union_with (fun t u => Some (saturating_add 64 t u)) (freq_at x key a) (freq_at x key b).
Proof.
  intros Hb. unfold freq_at. cbn. rewrite merge_entries_lookup.
  destruct (cs_doc_freqs b !! x) as [kb|] eqn:E; cbn; [|by destruct (cs_doc_freqs a !! x ≫= _)].
  rewrite merge_entries_lookup. destruct (kb !! key) as [df|] eqn:Ek.
  - pose proof (sk_doc_freqs _ Hb x kb key df E Ek) as Hdf.
    destruct (cs_doc_freqs a !! x) as [ka|]; cbn; [|by rewrite lookup_empty; cbn; rewrite saturating_zero].
    destruct (ka !! key); cbn; [done|]. by rewrite saturating_zero.
  - destruct (cs_doc_freqs a !! x) as [ka|]; cbn; [by destruct (ka !! key)|done].
Qed.

Lemma merge_word_at a b x key t :
  stats_ok b -> word_at x key t (merge a b) = union_with (fun e u => Some (merge_expansions e u)) (word_at x key t a) (word_at x key t b).
Proof.
  intros Hb. unfold word_at. cbn. rewrite merge_entries_lookup.
  destruct (cs_fuzzy b !! x) as [kb|] eqn:E; cbn; [|by destruct (cs_fuzzy a !! x ≫= _)].
  rewrite merge_entries_lookup. destruct (kb !! key) as [wb|] eqn:Ek; cbn.
  - pose proof (sk_fuzzy _ Hb x kb key wb E Ek) as Hok. rewrite merge_words_lookup by done.
    destruct (cs_fuzzy a !! x) as [ka|]; cbn; [|by rewrite lookup_empty; cbn; rewrite lookup_empty; destruct (wb !! t)].
    destruct (ka !! key) as [wa|]; cbn; [done|]. by rewrite lookup_empty; destruct (wb !! t).
  - destruct (cs_fuzzy a !! x) as [ka|]; cbn; [by destruct (ka !! key ≫= _)|done].
Qed.

(** Merging the reports of all shards, one after the other. *)
Definition merge_all_stats (shards : list CorpusStats) : CorpusStats := fold_left merge shards CorpusStats_new.

Lemma merge_all_get {V} (get : CorpusStats -> option V) (f : V -> V -> V) shards :
  (forall a b, stats_ok b -> get (merge a b) = union_with (fun x y => Some (f x y)) (get a) (get b)) ->
  get CorpusStats_new = None -> Forall stats_ok shards ->
  get (merge_all_stats shards) = match omap get shards with [] => None | v :: vs => Some (fold_left f vs v) end.
Proof.
  intros Hm Hn Hok. unfold merge_all_stats. induction shards as [|s shards IH] using rev_ind; [done|].
  apply Forall_app in Hok as [Hok Hs]. apply Forall_cons in Hs as [Hs _].
  rewrite fold_left_app. cbn [fold_left]. rewrite Hm, IH, omap_app by done. cbn.
  destruct (omap get shards) as [|v vs], (get s) as [u|]; cbn; try done.
  - by rewrite fold_left_app.
  - by rewrite app_nil_r.
Qed.

Definition sum_of (l : list Z) : Z := foldr Z.add 0 l.

Lemma fold_saturating w vs v :
  0 <= w -> in_u w v -> Forall (in_u w) vs -> fold_left (saturating_add w) vs v = Z.min (sum_of (v :: vs)) (u_max w).
Proof.
  intros Hw. revert v. induction vs as [|u vs IH]; intros v Hv Hvs.
  - cbn. unfold in_u, u_max in *. lia.
  - apply Forall_cons in Hvs as [Hu Hvs]. cbn [fold_left].
    assert (Hs : in_u w (saturating_add w v u)) by (unfold in_u, saturating_add, u_max in *; lia).
    assert (Hn : 0 <= sum_of vs) by (clear -Hvs; unfold sum_of; induction Hvs as [|x l Hx _ IH]; cbn; [lia|]; unfold in_u in Hx; lia).
    rewrite IH by done. unfold sum_of in *. cbn [foldr]. unfold in_u, saturating_add, u_max in *. lia.
Qed.

(** C32: Merging the reports of the shards adds them up: a field has the sum of its document counts
    and lengths, a leaf the sum of its document frequencies (saturated to what the scorer takes),
    a fuzzy word its fewest edits and the sum of its frequencies, and a value is there exactly if
    some shard reported it. *)
Theorem merged_stats_correct shards x :
  Forall stats_ok shards ->
  cs_field (merge_all_stats shards) x =
    match omap (fun s => cs_field s x) shards with
    | [] => None
    | ts => Some (mkFieldTotals (Z.min (sum_of (ft_doc_count <$> ts)) (u_max 64))
                                (Z.min (sum_of (ft_total_doc_len <$> ts)) (u_max 64)))
    end /\
  (forall key, cs_doc_freq (merge_all_stats shards) x key =
    match omap (freq_at x key) shards with [] => None | dfs => Some (Z.min (sum_of dfs) (u_max 32)) end) /\
  (forall key t, word_at x key t (merge_all_stats shards) =
    match omap (word_at x key t) shards with [] => None | e :: es => Some (fold_left merge_expansions es e) end).
Proof.
  intros Hok. split; [|split].
  - unfold cs_field at 1. rewrite (merge_all_get (fun s => cs_fields s !! x) merge_totals); [|by intros; apply merge_field|done|done].
    change (omap (fun s => cs_field s x) shards) with (omap (fun s => cs_fields s !! x) shards).
    assert (Hin : Forall (fun t => in_u 64 (ft_doc_count t) /\ in_u 64 (ft_total_doc_len t)) (omap (fun s => cs_fields s !! x) shards)).
    { apply Forall_forall. intros t Ht. apply list_elem_of_omap in Ht as (s & Hs & Ht).
      exact (sk_fields s (proj1 (Forall_forall _ _) Hok s Hs) x t Ht). }
    destruct (omap _ shards) as [|t ts]; [done|]. apply Forall_cons in Hin as [[Ht1 Ht2] Hin]. f_equal.
    assert (Hf : forall ts t, fold_left merge_totals ts t =
      mkFieldTotals (fold_left (saturating_add 64) (ft_doc_count <$> ts) (ft_doc_count t))
        (fold_left (saturating_add 64) (ft_total_doc_len <$> ts) (ft_total_doc_len t))).
    { clear. induction ts as [|u ts IH]; intros t; [by destruct t|]. cbn. by rewrite IH. }
    rewrite Hf, !fold_saturating; [done|lia|done|..]; [|lia|done|]; apply Forall_fmap;
      (eapply Forall_impl; [exact Hin|]); by intros ? [].
  - intros key. unfold cs_doc_freq.
    transitivity (freq_at x key (merge_all_stats shards) ≫= fun df => Some (Z.min df (u_max 32))).
    { unfold freq_at. by destruct (cs_doc_freqs (merge_all_stats shards) !! x). }
    rewrite (merge_all_get (freq_at x key) (saturating_add 64)); [|by intros; apply merge_freq|done|done].
    assert (Hin : Forall (in_u 64) (omap (freq_at x key) shards)).
    { apply Forall_forall. intros df Hd. apply list_elem_of_omap in Hd as (s & Hs & Hd). unfold freq_at in Hd.
      destruct (cs_doc_freqs s !! x) as [ks|] eqn:E; [|done].
      exact (sk_doc_freqs s (proj1 (Forall_forall _ _) Hok s Hs) x ks key df E Hd). }
    destruct (omap _ shards) as [|v vs]; [done|]. apply Forall_cons in Hin as [Hv Hin]. cbn [mbind option_bind].
    rewrite fold_saturating by (done || lia). f_equal. unfold u_max. lia.
  - intros key t. apply (merge_all_get (word_at x key t) merge_expansions); [by intros; apply merge_word_at|done|done].
Qed.

(** A report with the totals of one field and the frequency of one term. *)
Definition one_field_report (x : XPathId) (totals : FieldTotals) (term : str) (df : Z) : CorpusStats :=
  insert_doc_freq (insert_field CorpusStats_new x totals) x (KTerm term) df.

Lemma one_field_report_ok x totals term df :
  in_u 64 (ft_doc_count totals) -> in_u 64 (ft_total_doc_len totals) -> in_u 64 df -> stats_ok (one_field_report x totals term df).
Proof.
  intros H1 H2 H3. constructor; cbn.
  - intros y t Ht. apply lookup_insert_Some in Ht as [[_ <-]|[_ Ht]]; [done|]. by rewrite lookup_empty in Ht.
  - intros y keys key d Hk Hd. apply lookup_insert_Some in Hk as [[_ <-]|[_ Hk]]; [|by rewrite lookup_empty in Hk].
    apply lookup_insert_Some in Hd as [[_ <-]|[_ Hd]]; [done|]. rewrite lookup_empty in Hd. cbn in Hd. by rewrite lookup_empty in Hd.
  - intros y keys key words Hk. by rewrite lookup_empty in Hk.
Qed.

Lemma merged_stats_correct_witness :
  let shards := [one_field_report 1 (mkFieldTotals 10 50) [97] 3; one_field_report 1 (mkFieldTotals 5 20) [97] 4] in
  cs_field (merge_all_stats shards) 1 = Some (mkFieldTotals 15 70) /\
  cs_doc_freq (merge_all_stats shards) 1 (KTerm [97]) = Some 7.
Proof.
  intros shards. destruct (merged_stats_correct shards 1) as (H1 & H2 & _).
  - constructor; [|constructor; [|constructor]]; apply one_field_report_ok; vm_compute; split; congruence.
  - rewrite H1, H2. split; reflexivity.
Defined.
