(* ===== verification/Executor.v ===== *)
(** * The query executor

    Models the evaluation half of [crates/core-query/src/executor.rs] ([QueryExecutor]): reading
    the leaves of a query from an index or from lists read before ([prepare], [PreparedQuery]),
    evaluating a query tree to the set of its documents ([EvalMode::Filter]) or to scored
    documents ([EvalMode::Rank]), synonym groups, fuzzy words, phrases scored by their words, the
    [same_element] filters over array rows, and the filters and hit count of a search.

    The traits [SearchIndex], [SearchStats] and [SearchNumeric] are the class [SearchIndex] of
    operations, of which snapshots are an instance. A [HashSet] is a [gset] and a [HashMap] a
    [gmap]; [into_values] is [map_to_list], so lists made from a map are meant up to their order. *)
From Stdlib Require Import ZArith Lia String.
From stdpp Require Import base numbers list gmap.
From S2P Require Import Prelude Types Posting PostingOps Numeric ArrayRows Wildcard Btree Segment MemIndex Scorer Fuzzy FuzzyRank FuzzyIndex Phrase Query Snapshot CorpusStats.
Local Open Scope Z_scope.

(** ** The index *)

Class SearchIndex (I : Type) := {
  ix_lookup : I -> str -> XPathId -> PostingList;
  ix_lookup_prefix : I -> str -> XPathId -> PostingList;
  ix_lookup_wildcard : I -> WildcardPattern -> XPathId -> PostingList;
  ix_fuzzy_expansions : I -> str -> XPathId -> FuzzyOptions -> list FuzzyExpansion;
  ix_is_deleted : I -> DocId -> bool;
  ix_resolve_array_rows : I -> gset Z -> gset Z;
  ix_parent_of_row : I -> ArrayRowId -> option ArrayRowId;
  ix_doc_of_row : I -> ArrayRowId -> option DocId;
  ix_bool_true_ids : I -> XPathId -> gset Z;
  ix_bool_false_ids : I -> XPathId -> gset Z;
  ix_numeric_range : I -> XPathId -> option NumericBound -> option NumericBound -> PostingList;
  ix_doc_count : I -> XPathId -> Z;
  ix_total_doc_len : I -> XPathId -> Z;
  ix_doc_len : I -> DocId -> XPathId -> option Z;
  ix_doc_range : I -> option (DocId * DocId)
}.

#[global] Instance snapshot_index : SearchIndex IndexSnapshot := {|
  ix_lookup := sn_lookup;
  ix_lookup_prefix := sn_lookup_prefix;
  ix_lookup_wildcard := sn_lookup_wildcard;
  ix_fuzzy_expansions := sn_fuzzy_expansions;
  ix_is_deleted := sn_is_deleted;
  ix_resolve_array_rows := sn_resolve_array_rows;
  ix_parent_of_row := sn_parent_of_row;
  ix_doc_of_row := sn_doc_of_row;
  ix_bool_true_ids := sn_bool_true_ids;
  ix_bool_false_ids := sn_bool_false_ids;
  ix_numeric_range := sn_numeric_range;
  ix_doc_count := sn_doc_count;
  ix_total_doc_len := sn_total_doc_len;
  ix_doc_len := sn_doc_len;
  ix_doc_range := sn_doc_range
|}.

(** ** Data *)

Record FieldCtx : Type := mkCtx { cx_xpath : XPathId; cx_exact_xpath : option XPathId; cx_row_keyed : bool }.

Inductive EvalMode : Type := Filter | Rank.
Inductive EvalOutcome : Type := Docs (docs : gset Z) | Scored (scored : list ScoredPosting).

Record LeafRead : Type := mkLeafRead { lf_key : LeafKey; lf_xpath : XPathId; lf_postings : PostingList }.

Inductive SameElementBinding : Type := mkBinding (depth : Z) (clauses : list ClauseBinding)
with ClauseBinding : Type := mkClause (ctx : FieldCtx) (clause_depth : Z) (nested : option SameElementBinding).

Record FieldQuery : Type := mkFieldQuery {
  fq_ctx : FieldCtx;
  fq_query : Query;
  fq_row_keyed : bool;
  fq_same_element : option SameElementBinding
}.

Definition MAX_FUZZY_WORDS : nat := 64.

(** [usize::saturating_add] *)
Definition sat_usize (a b : nat) : nat := Z.to_nat (saturating_add 64 (Z.of_nat a) (Z.of_nat b)).
(** [entry.score.saturating_add(hit.score)], or the hit when the document is new. *)
Definition add_hit (acc : gmap Z ScoredPosting) (hit : ScoredPosting) : gmap Z ScoredPosting :=
  match acc !! sp_doc_id hit with
  | None => <[sp_doc_id hit := hit]> acc
  | Some cur =>
    <[sp_doc_id hit := mkScored (sp_doc_id cur) (saturating_add 64 (sp_score cur) (sp_score hit))
        (sat_usize (sp_matched_terms cur) (sp_matched_terms hit)) (sp_density cur)]> acc
  end.
Definition into_values {V} (m : gmap Z V) : list V := (map_to_list m).*2.

Definition with_doc (hit : ScoredPosting) (d : DocId) : ScoredPosting :=
  mkScored d (sp_score hit) (sp_matched_terms hit) (sp_density hit).
Definition with_score (hit : ScoredPosting) (score : Z) : ScoredPosting :=
  mkScored (sp_doc_id hit) score (sp_matched_terms hit) (sp_density hit).

Definition posting_ids (postings : PostingList) : gset Z := list_to_set (doc_id <$> items postings).
Definition scored_docs (scored : list ScoredPosting) : gset Z := list_to_set (sp_doc_id <$> scored).

(** ** Fuzzy words *)

Definition is_ascii_digit (c : Z) : bool := (48 <=? c) && (c <=? 57).
(** A number is never a typo. *)
Definition fuzzy_options (word : str) (fuzziness : Fuzziness) (spec : FuzzySpec) : FuzzyOptions :=
  let max_edits := if negb (bool_decide (word = [])) && forallb is_ascii_digit word then 0 else resolve fuzziness word in
  mkFuzzyOptions max_edits (fs_prefix_length spec) (fs_max_expansions spec).

Definition fuzzable_words (analyzer : Analyzer) (raw : str) : list str :=
  omap (fun w => tk_text <$> head (an_query analyzer w)) (split_whitespace raw).

(** ** Combining outcomes *)

(** [eval_union] of the evaluated parts; a part that has the other outcome is skipped. *)
Definition union_docs (outs : list EvalOutcome) : gset Z :=
  fold_left (fun out o => match o with Docs docs => out ∪ docs | Scored _ => out end) outs ∅.
Definition score_union (outs : list EvalOutcome) : list ScoredPosting :=
  into_values (fold_left (fun by_doc o => match o with Scored scored => fold_left add_hit scored by_doc | Docs _ => by_doc end) outs ∅).
Definition eval_union (mode : EvalMode) (outs : list EvalOutcome) : EvalOutcome :=
  match mode with Filter => Docs (union_docs outs) | Rank => Scored (score_union outs) end.

(** The loop of [eval_and] in filter mode, which stops as soon as nothing is left. *)
Fixpoint and_docs (candidates : option (gset Z)) (outs : list EvalOutcome) : gset Z :=
  match outs with
  | [] => default ∅ candidates
  | Docs docs :: outs =>
    let next := match candidates with Some cur => cur ∩ docs | None => docs end in
    if bool_decide (next = ∅) then ∅ else and_docs (Some next) outs
  | Scored _ :: outs => and_docs candidates outs
  end.
(** The scored parts, all of them, or nothing. (Ranking an AND without parts panics in the code,
    at [scored_parts[0]]; analysed queries have no such AND, and the theorems about ranking
    exclude it.) *)
Fixpoint scored_parts (outs : list EvalOutcome) : option (list (list ScoredPosting)) :=
  match outs with
  | [] => Some []
  | Scored (hit :: scored) :: outs => parts ← scored_parts outs; Some ((hit :: scored) :: parts)
  | _ => None
  end.
Definition shared_docs (parts : list (list ScoredPosting)) : gset Z :=
  match parts with
  | [] => ∅
  | first :: rest => fold_left (fun candidates scored => scored_docs scored ∩ candidates) rest (scored_docs first)
  end.
Definition score_and (outs : list EvalOutcome) : list ScoredPosting :=
  match scored_parts outs with
  | None | Some [] => []
  | Some parts =>
    let parts := stable_sort (fun a b => (length a <=? length b)%nat) parts in
    let candidates := shared_docs parts in
    if bool_decide (candidates = ∅) then []
    else into_values (fold_left (fun by_doc scored =>
           fold_left (fun by_doc hit => if bool_decide (sp_doc_id hit ∈ candidates) then add_hit by_doc hit else by_doc)
             scored by_doc) parts ∅)
  end.
Definition eval_and (mode : EvalMode) (outs : list EvalOutcome) : EvalOutcome :=
  match mode with Filter => Docs (and_docs None outs) | Rank => Scored (score_and outs) end.

(** The best weighted form of every document. *)
Definition best_form (best : gmap Z ScoredPosting) (hit : ScoredPosting) : gmap Z ScoredPosting :=
  match best !! sp_doc_id hit with
  | None => <[sp_doc_id hit := hit]> best
  | Some cur => if sp_score cur <? sp_score hit then <[sp_doc_id hit := hit]> best else best
  end.
Definition best_forms (forms : list (list ScoredPosting * Z)) : list ScoredPosting :=
  into_values (fold_left (fun best form =>
    fold_left (fun best hit => best_form best (with_score hit (saturating_mul 64 (sp_score hit) form.2 / 1000))) form.1 best)
    forms ∅).

(** ** The executor *)

Record QueryExecutor (I : Type) : Type := mkExecutor {
  qe_index : I;
  qe_analyzer : Analyzer;
  qe_corpus : option CorpusStats;
  qe_prepared : option PreparedQuery
}.
Arguments mkExecutor {I} _ _ _ _.
Arguments qe_index {I} _.
Arguments qe_analyzer {I} _.
Arguments qe_corpus {I} _.
Arguments qe_prepared {I} _.
Definition Executor_new {I} (index : I) (analyzer : Analyzer) : QueryExecutor I := mkExecutor index analyzer None None.
Definition with_corpus {I} (self : QueryExecutor I) (corpus : CorpusStats) : QueryExecutor I :=
  mkExecutor (qe_index self) (qe_analyzer self) (Some corpus) (qe_prepared self).
Definition with_prepared {I} (self : QueryExecutor I) (prepared : PreparedQuery) : QueryExecutor I :=
  mkExecutor (qe_index self) (qe_analyzer self) (qe_corpus self) (Some prepared).

(** The key a leaf query's list is filed under and the field it is read from. *)
Definition leaf_key (query : Query) (ctx : FieldCtx) : option (LeafKey * XPathId) :=
  match query with
  | QTerm v => Some (KTerm v, cx_xpath ctx)
  | QPrefix v => Some (KPrefix v, cx_xpath ctx)
  | QWildcard p => Some (KWildcard p, cx_xpath ctx)
  | QPhrase terms => Some (KPhrase terms, cx_xpath ctx)
  | QExact v => Some (KExact v, default (cx_xpath ctx) (cx_exact_xpath ctx))
  | _ => None
  end.

Definition strip_quotes (raw : str) : str :=
  match raw with
  | 34 :: s => match rev s with 34 :: s' => rev s' | _ => raw end
  | _ => raw
  end.

Section executor.
Context {I : Type} {SI : SearchIndex I} {LN : Ln} {LG : Log10} {CT : CaseTables}.
Context (self : QueryExecutor I).
Local Abbreviation index := (qe_index self).

Definition index_stats : SearchStats :=
  mkSearchStats (ix_doc_count index) (ix_total_doc_len index) (ix_doc_len index).
Definition stats : SearchStats := scoring_stats index_stats (qe_corpus self).

Definition fold_to_doc (ctx : FieldCtx) (id : DocId) : option DocId :=
  if cx_row_keyed ctx then ix_doc_of_row index id else Some id.

Definition fuzzy_candidates (word : str) (xpath : XPathId) (opts : FuzzyOptions) : list FuzzyExpansion :=
  match qe_corpus self ≫= fun corpus => cs_fuzzy_words corpus xpath (FuzzyKey_new word opts) with
  | Some words => words
  | None => ix_fuzzy_expansions index word xpath opts
  end.

Definition field_totals (xpath : XPathId) : FieldTotals :=
  mkFieldTotals (ix_doc_count index xpath) (ix_total_doc_len index xpath).

(** [local as u32] *)
Definition leaf_doc_freq (xpath : XPathId) (key : LeafKey) (local : Z) : Z :=
  match qe_corpus self ≫= fun corpus => cs_doc_freq corpus xpath key with Some df => df | None => wrap 32 local end.

(** [lookup_term]'s default: its document frequency is the length of the list. *)
Definition fetch_term_list (term : str) (xpath : XPathId) : PostingList * Z :=
  let postings :=
    match qe_prepared self ≫= fun p => pq_list p xpath (KTerm term) with
    | Some l => l
    | None => ix_lookup index term xpath
    end in
  (postings, leaf_doc_freq xpath (KTerm term) (wrap 32 (zlen (items postings)))).

Definition execute_term (term : str) (xpath : XPathId) : option PostingList :=
  match term with [] => None | _ => Some (ix_lookup index term xpath) end.
Definition execute_prefix (pre : str) (xpath : XPathId) : option PostingList :=
  match pre with [] => None | _ => Some (ix_lookup_prefix index pre xpath) end.
Definition execute_wildcard (pattern : str) (xpath : XPathId) : PostingList :=
  ix_lookup_wildcard index (parse pattern) xpath.
Definition execute_phrase (terms : list PhraseTerm) (xpath : XPathId) : PostingList :=
  phrase_list ((fun t => (fetch_term_list (pt_text t) xpath).1) <$> terms) (pt_offset <$> terms).
Definition execute_exact (raw : str) (xpath : XPathId) : PostingList :=
  let raw := strip_quotes (trim raw) in
  match split_whitespace raw with
  | [] => PostingList_new
  | [word] => ix_lookup index word xpath
  | _ => ix_lookup index raw xpath
  end.

Definition fetch_leaf (query : Query) (xpath : XPathId) : PostingList :=
  match query with
  | QTerm v => default PostingList_new (execute_term v xpath)
  | QPrefix v => default PostingList_new (execute_prefix v xpath)
  | QWildcard p => execute_wildcard p xpath
  | QPhrase terms => execute_phrase terms xpath
  | QExact v => execute_exact v xpath
  | _ => PostingList_new
  end.
Definition read_leaf (query : Query) (ctx : FieldCtx) : option LeafRead :=
  match leaf_key query ctx with
  | None => None
  | Some (key, xpath) =>
    let postings :=
      match qe_prepared self ≫= fun p => pq_list p xpath key with
      | Some l => l
      | None => fetch_leaf query xpath
      end in
    Some (mkLeafRead key xpath postings)
  end.

(** The words a fuzzy word may stand for, in one field. *)
Definition fuzzy_picks (word : str) (xpath : XPathId) (opts : FuzzyOptions) (max_expansions : nat) : list FuzzyExpansion :=
  select_expansions word ((fun e => (fe_term e, fe_edits e, fe_doc_freq e)) <$> fuzzy_candidates word xpath opts) max_expansions.

Definition execute_fuzzy (raw : str) (xpath : XPathId) (fuzziness : Fuzziness) (spec : FuzzySpec) : PostingList :=
  let lists :=
    (fun w =>
      let picks := fuzzy_picks w xpath (fuzzy_options w fuzziness spec) (fs_max_expansions spec) in
      union_lists ((fun p => ix_lookup index (fe_term p) xpath) <$> picks)) <$> fuzzable_words (qe_analyzer self) raw in
  match lists with
  | [] => PostingList_new
  | first :: rest => fold_left intersection rest first
  end.

(** ** Scoring *)

(** One field of [score_leaf]. *)
Definition score_leaf_field (query : Query) (floor : option Z) (ctx : FieldCtx) (acc : gmap Z ScoredPosting)
    : gmap Z ScoredPosting :=
  match read_leaf query ctx with
  | None => acc
  | Some leaf =>
    let own := leaf_doc_freq (lf_xpath leaf) (lf_key leaf) (zlen (items (lf_postings leaf))) in
    let doc_freq := match floor with Some floor => Z.max own floor | None => own end in
    let scored := (score_term_into stats (lf_postings leaf) (lf_xpath leaf) doc_freq ∅ []).2 in
    fold_left (fun acc hit =>
      match fold_to_doc ctx (sp_doc_id hit) with Some doc => add_hit acc (with_doc hit doc) | None => acc end) scored acc
  end.
Definition score_leaf (query : Query) (ctxs : list FieldCtx) (min_doc_freqs : list (option Z)) : list ScoredPosting :=
  into_values (fold_left (fun acc e => score_leaf_field query (mjoin (min_doc_freqs !! e.1)) e.2 acc) (imap pair ctxs) ∅).

Definition eval_leaf (query : Query) (ctxs : list FieldCtx) (mode : EvalMode) : EvalOutcome :=
  match mode with
  | Filter =>
    Docs (fold_left (fun out ctx =>
      match read_leaf query ctx with Some leaf => out ∪ posting_ids (lf_postings leaf) | None => out end) ctxs ∅)
  | Rank => Scored (score_leaf query ctxs [])
  end.

(** Documents containing the phrase in at least one plain field. *)
Definition plain_ctxs (ctxs : list FieldCtx) : list FieldCtx := filter (fun ctx => cx_row_keyed ctx = false) ctxs.
Definition phrase_docs (terms : list PhraseTerm) (ctxs : list FieldCtx) : gset Z :=
  fold_left (fun docs ctx => docs ∪ posting_ids (execute_phrase terms (cx_xpath ctx))) (plain_ctxs ctxs) ∅.

(** The words of one field, with the cache of document lengths they share. *)
Definition score_words_field (matched : list DocId) (terms : list PhraseTerm) (acc : gmap Z ScoredPosting) (ctx : FieldCtx)
    : gmap Z ScoredPosting :=
  (fold_left (fun (st : gmap DocId f32 * gmap Z ScoredPosting) term =>
      let '(l, doc_freq) := fetch_term_list (pt_text term) (cx_xpath ctx) in
      let '(doc_len, scored) := score_term_into stats (postings_of l matched) (cx_xpath ctx) doc_freq st.1 [] in
      (doc_len, fold_left add_hit scored st.2)) terms (∅, acc)).2.
Definition score_phrase_as_words (terms : list PhraseTerm) (ctxs : list FieldCtx) : list ScoredPosting :=
  let matched := phrase_docs terms ctxs in
  if bool_decide (matched = ∅) then []
  else into_values (fold_left (score_words_field (sort_unstable (elements matched)) terms) (plain_ctxs ctxs) ∅).

(** The best expansion of one word in one field. *)
Definition fuzzy_word_field (word : str) (opts : FuzzyOptions) (max_expansions : nat) (ctx : FieldCtx) : gmap Z ScoredPosting :=
  (fold_left (fun (st : gmap DocId f32 * gmap Z ScoredPosting) expansion =>
      let postings := ix_lookup index (fe_term expansion) (cx_xpath ctx) in
      let '(doc_len, scored) := score_term_into stats postings (cx_xpath ctx) (fe_doc_freq expansion) st.1 [] in
      (doc_len,
       fold_left (fun best hit =>
         let hit := with_score hit (f32_to_u 64 (f32_mul (f32_of (sp_score hit)) (fuzzy_decay (fe_edits expansion)))) in
         match fold_to_doc ctx (sp_doc_id hit) with Some doc => best_form best (with_doc hit doc) | None => best end)
         scored st.2))
    (fuzzy_picks word (cx_xpath ctx) opts max_expansions) (∅, ∅)).2.

(** [f32::max] *)
Definition f32_max (x y : f32) : f32 := if f32_is_nan x then y else if f32_is_nan y then x else if f32_le x y then y else x.

(** A document's total and the bits of the words found in it. *)
Definition add_word_hit (bit : Z) (acc : gmap Z (ScoredPosting * Z)) (scored : ScoredPosting) : gmap Z (ScoredPosting * Z) :=
  match acc !! sp_doc_id scored with
  | None => <[sp_doc_id scored := (scored, bit)]> acc
  | Some (hit, mask) =>
    let density := if sp_score hit <? sp_score scored then f32_max (sp_density hit) (sp_density scored) else sp_density hit in
    let matched := if Z.land mask bit =? 0 then sat_usize (sp_matched_terms hit) 1 else sp_matched_terms hit in
    <[sp_doc_id scored := (mkScored (sp_doc_id hit) (saturating_add 64 (sp_score hit) (sp_score scored)) matched density,
                           Z.lor mask bit)]> acc
  end.

Definition execute_scored_fuzzy (raw : str) (ctxs : list FieldCtx) (fuzziness : Fuzziness) (spec : FuzzySpec) : list ScoredPosting :=
  let words := fuzzable_words (qe_analyzer self) raw in
  if bool_decide (words = []) || (MAX_FUZZY_WORDS <=? length words)%nat then []
  else
    let acc := fold_left (fun acc e =>
      let '(word_index, word) := e in
      let opts := fuzzy_options word fuzziness spec in
      fold_left (fun acc ctx =>
        fold_left (add_word_hit (Z.shiftl 1 (Z.of_nat word_index))) (into_values (fuzzy_word_field word opts (fs_max_expansions spec) ctx)) acc)
        ctxs acc) (imap pair words) ∅ in
    let all_words := Z.shiftl 1 (zlen words) - 1 in
    (filter (fun h => h.2 = all_words) (into_values acc)).*1.

(** ** Evaluation *)

(** The documents of the whole index that are not deleted. *)
Definition all_docs : gset Z :=
  match ix_doc_range index with
  | Some (lo, hi) => list_to_set (filter (fun d => ix_is_deleted index d = false) (seqZ lo (hi - lo + 1)))
  | None => ∅
  end.

(** The lowest document frequency the other words of a group are scored with. *)
Definition typed_doc_freqs (forms : list (Alternative Query)) (ctxs : list FieldCtx) : list (option Z) :=
  match forms with
  | form :: _ =>
    match alt_query form with
    | QTerm _ as typed =>
      (fun ctx =>
        leaf ← read_leaf typed ctx;
        let doc_freq := leaf_doc_freq (lf_xpath leaf) (lf_key leaf) (zlen (items (lf_postings leaf))) in
        if 0 <? doc_freq then Some doc_freq else None) <$> ctxs
    | _ => []
    end
  | [] => []
  end.

(** A form's scored documents; [None] for a form that only filters. *)
Definition score_form (evaluated : EvalOutcome) (floors : list (option Z)) (ctxs : list FieldCtx) (form : Query)
    : option (list ScoredPosting) :=
  match form with
  | QTerm _ => Some (score_leaf form ctxs floors)
  | QPhrase terms => Some (score_phrase_as_words terms ctxs)
  | _ => match evaluated with Scored scored => Some scored | Docs _ => None end
  end.

Fixpoint evaluate (query : Query) (ctxs : list FieldCtx) (mode : EvalMode) : EvalOutcome :=
  match query with
  | QTerm _ | QPrefix _ | QWildcard _ | QPhrase _ | QExact _ => eval_leaf query ctxs mode
  | QFuzzy v fz spec =>
    match mode with
    | Filter => Docs (fold_left (fun out ctx => out ∪ posting_ids (execute_fuzzy v (cx_xpath ctx) fz spec)) ctxs ∅)
    | Rank => Scored (execute_scored_fuzzy v ctxs fz spec)
    end
  | QRange r =>
    Docs (fold_left (fun out ctx => out ∪ posting_ids (ix_numeric_range index (cx_xpath ctx) (nr_lo r) (nr_hi r))) ctxs ∅)
  | QBool b =>
    Docs (fold_left (fun out ctx =>
      out ∪ (if b : bool then ix_bool_true_ids index (cx_xpath ctx) else ix_bool_false_ids index (cx_xpath ctx))) ctxs ∅)
  | QWand parts | QOr parts => eval_union mode (map (fun part => evaluate part ctxs mode) parts)
  | QAnd parts => eval_and mode (map (fun part => evaluate part ctxs mode) parts)
  | QSynonym forms =>
    match mode with
    | Filter => Docs (union_docs (map (fun form => evaluate (alt_query form) ctxs Filter) forms))
    | Rank =>
      let floors := typed_doc_freqs forms ctxs in
      Scored (best_forms (omap (fun x => x) (map (fun form =>
        scored ← score_form (evaluate (alt_query form) ctxs Rank) floors ctxs (alt_query form);
        Some (scored, alt_weight form)) forms)))
    end
  | QSameElement _ => Docs ∅
  | QMatchAll => Docs all_docs
  end.

(** ** Array rows *)

Fixpoint ascend (levels : nat) (rows : gset Z) : gset Z :=
  match levels with
  | O => rows
  | S levels => ascend levels (list_to_set (omap (ix_parent_of_row index) (elements rows)))
  end.

(** [same_element_rows]: every clause names rows of some depth; they are followed up to the rows
    of the element, which all clauses have to share. The recursion is on the query; a clause
    bound to the wrong shape is skipped. *)
Fixpoint same_element_rows (query : Query) (binding : SameElementBinding) {struct query} : gset Z :=
  match query, binding with
  | QSameElement children, mkBinding depth clauses =>
    (fix go (children : list Query) (clauses : list ClauseBinding) (rows : option (gset Z)) : gset Z :=
      match children, clauses with
      | child :: children, mkClause ctx clause_depth nested :: clauses =>
        match
          match nested with
          | Some nested => match child with QSameElement _ => Some (same_element_rows child nested) | _ => None end
          | None => Some match evaluate child [ctx] Filter with Docs d => d | Scored _ => ∅ end
          end
        with
        | None => go children clauses rows
        | Some r =>
          let r := ascend (Z.to_nat (saturating_sub clause_depth depth)) r in
          go children clauses (Some match rows with Some cur => cur ∩ r | None => r end)
        end
      | _, _ => default ∅ rows
      end) children clauses None
  | _, _ => ∅
  end.

(** ** Filters and counts *)

(** The documents one filter allows; [None] for a filter without a binding, which the caller
    does not make. *)
Definition filter_docs (fq : FieldQuery) : option (gset Z) :=
  match fq_query fq with
  | QSameElement _ =>
    binding ← fq_same_element fq; Some (ix_resolve_array_rows index (same_element_rows (fq_query fq) binding))
  | _ =>
    match evaluate (fq_query fq) [fq_ctx fq] Filter with
    | Docs raw => Some (if fq_row_keyed fq then ix_resolve_array_rows index raw else raw)
    | Scored _ => None
    end
  end.
(** The loop over the filters, which stops when nothing is left. *)
Fixpoint restrict_loop (restrict : option (gset Z)) (filters : list FieldQuery) : option (gset Z) :=
  match filters with
  | [] => restrict
  | fq :: filters =>
    match filter_docs fq with
    | None => restrict_loop restrict filters
    | Some matched =>
      let next := match restrict with Some cur => cur ∩ matched | None => matched end in
      if bool_decide (next = ∅) then Some next else restrict_loop (Some next) filters
    end
  end.
Definition filter_doc_ids (filters : list FieldQuery) : option (gset Z) :=
  match filters with [] => None | _ => restrict_loop None filters end.

Definition allowed (restrict : option (gset Z)) (d : DocId) : bool :=
  match restrict with Some limit => bool_decide (d ∈ limit) | None => true end.

(** [total_hit_count] of the queries of a plan (or the one query). *)
Definition total_hit_count (queries : list Query) (ctxs : list FieldCtx) (restrict : option (gset Z)) : nat :=
  size (fold_left (fun matched query =>
    match evaluate query ctxs Filter with
    | Docs docs => matched ∪ filter (fun d => ix_is_deleted index d = false /\ allowed restrict d = true) docs
    | Scored _ => matched
    end) queries (∅ : gset Z)).

Definition all_words_known (raw : str) (xpaths : list XPathId) : bool :=
  forallb (fun word => existsb (fun xpath => 0 <? (fetch_term_list word xpath).2) xpaths) (fuzzable_words (qe_analyzer self) raw).

(** ** Preparing a query *)

(** A leaf's list, its field's totals and its statistics, read once. *)
Definition prepare_leaf (query : Query) (ctx : FieldCtx) (out : PreparedQuery) : PreparedQuery :=
  match leaf_key query ctx with
  | None => out
  | Some (key, xpath) =>
    match pq_list out xpath key with
    | Some _ => out
    | None => pq_insert_leaf (pq_insert_field out xpath (field_totals xpath)) xpath key (fetch_leaf query xpath)
    end
  end.
Definition prepare_fuzzy_word (xpath : XPathId) (fuzziness : Fuzziness) (spec : FuzzySpec) (out : PreparedQuery) (word : str)
    : PreparedQuery :=
  let opts := fuzzy_options word fuzziness spec in
  let key := FuzzyKey_new word opts in
  if pq_has_fuzzy out xpath key then out else pq_insert_fuzzy out xpath key (ix_fuzzy_expansions index word xpath opts).

Fixpoint prepare_leaves (query : Query) (ctx : FieldCtx) (out : PreparedQuery) : PreparedQuery :=
  match query with
  | QWand parts | QOr parts | QAnd parts => fold_left (fun out part => prepare_leaves part ctx out) parts out
  | QSynonym forms => fold_left (fun out form => prepare_leaves (alt_query form) ctx out) forms out
  | QPhrase terms =>
    prepare_leaf query ctx (fold_left (fun out term => prepare_leaf (QTerm (pt_text term)) ctx out) terms out)
  | QFuzzy raw fuzziness spec =>
    let xpath := cx_xpath ctx in
    fold_left (prepare_fuzzy_word xpath fuzziness spec) (fuzzable_words (qe_analyzer self) raw)
      (pq_insert_field out xpath (field_totals xpath))
  | _ => prepare_leaf query ctx out
  end.
Definition prepare (queries : list Query) (ctxs : list FieldCtx) : PreparedQuery :=
  fold_left (fun prepared query => fold_left (fun prepared ctx => prepare_leaves query ctx prepared) ctxs prepared)
    queries PreparedQuery_default.
End executor.
