(* ===== verification/ExecutorCorrect.v ===== *)
(** * What a query means

    Proofs about [Executor]. [query_matches] says which documents a query means, leaf by leaf and
    combinator by combinator; the theorems show that evaluating a query as a filter computes
    exactly these documents, that ranking scores exactly the documents the filter finds, that
    lists read in advance change nothing, and that a document's score does not depend on the
    shard it is stored in. *)
From Stdlib Require Import ZArith Lia.
From stdpp Require Import base numbers list sorting gmap.
From S2P Require Import Prelude Types Posting PostingOps Numeric Wildcard Scorer Fuzzy FuzzyRank Phrase Query Snapshot CorpusStats Executor.
Local Open Scope Z_scope.

(** ** Shared lemmas *)

Lemma fold_left_ext_in {A B} (f g : A -> B -> A) l a :
  (forall a x, x ∈ l -> f a x = g a x) -> fold_left f l a = fold_left g l a.
Proof.
  revert a. induction l as [|x l IH]; intros a Hf; [done|]. cbn. rewrite Hf by left.
  apply IH. intros b y Hy. apply Hf. by right.
Qed.

(** A loop that adds sets. *)
Lemma elem_of_fold_union {A} (f : A -> gset Z) l out d :
  d ∈ fold_left (fun out x => out ∪ f x) l out <-> d ∈ out \/ exists x, x ∈ l /\ d ∈ f x.
Proof.
  revert out. induction l as [|x l IH]; intros out; cbn; [set_solver|]. rewrite IH. set_solver.
Qed.

Lemma sorted_nodup_lt l : StronglySorted Z.le l -> NoDup l -> StronglySorted Z.lt l.
Proof.
  induction 1 as [|x l Hs IH Hx]; intros Hnd; [constructor|]. apply NoDup_cons in Hnd as [Hn Hnd].
  constructor; [by apply IH|]. rewrite Forall_forall in *. intros y Hy. specialize (Hx y Hy).
  assert (x <> y) by (by intros ->). lia.
Qed.

Definition has_doc (l : PostingList) (d : DocId) : Prop := d ∈ docs (items l).

Lemma elem_of_posting_ids l d : d ∈ posting_ids l <-> has_doc l d.
Proof. unfold posting_ids, has_doc, docs. by rewrite elem_of_list_to_set. Qed.

Lemma elem_of_into_values {V} (m : gmap Z V) v : v ∈ into_values m <-> exists d, m !! d = Some v.
Proof.
  unfold into_values. rewrite list_elem_of_fmap. split.
  - intros ([d v'] & -> & Hin). apply elem_of_map_to_list in Hin. by exists d.
  - intros [d Hd]. exists (d, v). split; [done|]. by apply elem_of_map_to_list.
Qed.

(** ** What the lookups promise *)

(** The lists of an index are sorted, with the positions of every posting ascending, and there is
    no empty term. *)
Class IndexLaws {I} `{SearchIndex I} (index : I) : Prop := {
  il_lookup t x : wf_list (ix_lookup index t x);
  il_words t x : word_list_ok (ix_lookup index t x);
  il_prefix t x : wf_list (ix_lookup_prefix index t x);
  il_wildcard t x : wf_list (ix_lookup_wildcard index t x);
  il_empty x : ix_lookup index [] x = PostingList_new
}.

Lemma union_lists_docs lists d :
  Forall wf_list lists -> wf_list (union_lists lists) /\ (has_doc (union_lists lists) d <-> exists l, l ∈ lists /\ has_doc l d).
Proof.
  intros Hwf. unfold union_lists, has_doc. rewrite union_many_spec by done. cbn [default from_option id].
  split; [apply from_items_wf|]. rewrite elem_of_from_items. unfold docs. rewrite list_elem_of_fmap.
  setoid_rewrite elem_of_concat. setoid_rewrite list_elem_of_fmap. split.
  - intros (p & -> & its & Hp & l & -> & Hl). exists l. split; [done|]. by exists p.
  - intros (l & Hl & p & -> & Hp). exists p. split; [done|]. exists (items l). split; [done|]. by exists l.
Qed.

(** The outcomes of the parts when every one of them is a set. *)
Lemma union_docs_spec {A} (f : A -> EvalOutcome) (P : A -> Prop) parts d :
  Forall (fun p => exists docs, f p = Docs docs /\ (d ∈ docs <-> P p)) parts ->
  d ∈ union_docs (map f parts) <-> foldr (fun p rest => P p \/ rest) False parts.
Proof.
  intros Hf. unfold union_docs.
  assert (Hgen : forall out, d ∈ fold_left (fun out o => match o with Docs docs => out ∪ docs | Scored _ => out end) (map f parts) out <->
    d ∈ out \/ foldr (fun p rest => P p \/ rest) False parts); [|rewrite Hgen; set_solver].
  induction Hf as [|p parts (docs & Hp & Hd) Hf IH]; intros out; cbn; [tauto|].
  rewrite Hp, IH, elem_of_union, Hd. tauto.
Qed.

Lemma and_docs_spec {A} (f : A -> EvalOutcome) (P : A -> Prop) parts d :
  Forall (fun p => exists docs, f p = Docs docs /\ (d ∈ docs <-> P p)) parts ->
  d ∈ and_docs None (map f parts) <-> parts <> [] /\ foldr (fun p rest => P p /\ rest) True parts.
Proof.
  intros Hf.
  assert (Hgen : forall cur, d ∈ and_docs (Some cur) (map f parts) <-> d ∈ cur /\ foldr (fun p rest => P p /\ rest) True parts).
  { induction Hf as [|p parts (docs & Hp & Hd) Hf IH]; intros cur; cbn; [tauto|]. rewrite Hp. case_bool_decide as He.
    - split; [set_solver|]. intros (H1 & H2 & _). apply Hd in H2. set_solver.
    - rewrite IH, elem_of_intersection, Hd. tauto. }
  destruct Hf as [|p parts (docs & Hp & Hd) Hf]; cbn; [set_solver|]. cbn in Hgen. rewrite Hp. case_bool_decide as He.
  - split; [set_solver|]. intros (_ & H2 & _). apply Hd in H2. set_solver.
  - specialize (Hgen docs). rewrite Hp in Hgen. replace (docs ∩ docs) with docs in Hgen by set_solver.
    rewrite bool_decide_eq_false_2 in Hgen by done. rewrite Hgen, Hd. split; [intros (? & ? & ?)|intros (_ & ? & ?)]; done.
Qed.

Lemma foldr_and_Forall {A} (P : A -> Prop) l : foldr (fun x rest => P x /\ rest) True l <-> Forall P l.
Proof. induction l as [|x l IH]; cbn; [split; [constructor|done]|]. by rewrite Forall_cons, IH. Qed.

Section meaning.
Context {I : Type} {SI : SearchIndex I} {LN : Ln} {LG : Log10} {CT : CaseTables}.
Context (index : I) (analyzer : Analyzer) (corpus : option CorpusStats).
Local Abbreviation self := (mkExecutor index analyzer corpus None).

Definition phrase_means (terms : list PhraseTerm) (x : XPathId) (d : DocId) : Prop :=
  terms <> [] /\
  exists qs, Forall2 (fun q t => posting_of d (items (ix_lookup index (pt_text t) x)) = Some q) qs terms /\
    phrase_at (positions <$> qs) (pt_offset <$> terms).

Definition leaf_means (q : Query) (ctx : FieldCtx) (d : DocId) : Prop :=
  let x := cx_xpath ctx in
  match q with
  | QTerm v => has_doc (ix_lookup index v x) d
  | QPrefix v => v <> [] /\ has_doc (ix_lookup_prefix index v x) d
  | QWildcard p => has_doc (ix_lookup_wildcard index (parse p) x) d
  | QPhrase terms => phrase_means terms x d
  | QExact v =>
    let raw := strip_quotes (trim v) in
    let x := default x (cx_exact_xpath ctx) in
    match split_whitespace raw with
    | [] => False
    | [word] => has_doc (ix_lookup index word x) d
    | _ => has_doc (ix_lookup index raw x) d
    end
  | _ => False
  end.

(** Every word of the text has an expansion in the document. *)
Definition fuzzy_means (raw : str) (fz : Fuzziness) (spec : FuzzySpec) (x : XPathId) (d : DocId) : Prop :=
  let words := fuzzable_words analyzer raw in
  words <> [] /\
  forall w, w ∈ words -> exists pick, pick ∈ fuzzy_picks self w x (fuzzy_options w fz spec) (fs_max_expansions spec) /\
    has_doc (ix_lookup index (fe_term pick) x) d.

Fixpoint query_matches (q : Query) (ctxs : list FieldCtx) (d : DocId) : Prop :=
  match q with
  | QTerm _ | QPrefix _ | QWildcard _ | QPhrase _ | QExact _ => exists ctx, ctx ∈ ctxs /\ leaf_means q ctx d
  | QFuzzy v fz spec => exists ctx, ctx ∈ ctxs /\ fuzzy_means v fz spec (cx_xpath ctx) d
  | QRange r => exists ctx, ctx ∈ ctxs /\ has_doc (ix_numeric_range index (cx_xpath ctx) (nr_lo r) (nr_hi r)) d
  | QBool b =>
    exists ctx, ctx ∈ ctxs /\ d ∈ (if b : bool then ix_bool_true_ids index (cx_xpath ctx) else ix_bool_false_ids index (cx_xpath ctx))
  | QWand parts | QOr parts => foldr (fun part rest => query_matches part ctxs d \/ rest) False parts
  | QAnd parts => parts <> [] /\ foldr (fun part rest => query_matches part ctxs d /\ rest) True parts
  | QSynonym forms => foldr (fun form rest => query_matches (alt_query form) ctxs d \/ rest) False forms
  | QSameElement _ => False
  | QMatchAll => exists lo hi, ix_doc_range index = Some (lo, hi) /\ lo <= d <= hi /\ ix_is_deleted index d = false
  end.

(** The offsets of every phrase are small, as the parser and the analyzer make them. *)
Fixpoint phrases_small (q : Query) : Prop :=
  match q with
  | QPhrase terms => offsets_small (pt_offset <$> terms)
  | QWand parts | QOr parts | QAnd parts => foldr (fun part rest => phrases_small part /\ rest) True parts
  | QSynonym forms => foldr (fun form rest => phrases_small (alt_query form) /\ rest) True forms
  | _ => True
  end.

Context {Laws : IndexLaws index}.

Lemma fetch_term_plain t x : (fetch_term_list self t x).1 = ix_lookup index t x.
Proof. done. Qed.

Lemma execute_phrase_docs terms x d :
  offsets_small (pt_offset <$> terms) -> has_doc (execute_phrase self terms x) d <-> phrase_means terms x d.
Proof using All.
  intros Ho. unfold execute_phrase, phrase_means, has_doc. destruct terms as [|t terms].
  - cbn. split; [set_solver|]. by intros [? _].
  - set (lists := (fun t => (fetch_term_list self (pt_text t) x).1) <$> t :: terms).
    assert (Hok : Forall word_list_ok lists) by (apply Forall_fmap, Forall_forall; intros u _; apply il_words).
    assert (Ha : Forall (fun l => docs_ascending (items l)) lists) by (eapply Forall_impl; [exact Hok|]; by intros ? []).
    unfold lists in *. rewrite fmap_cons in Hok, Ha |- *. rewrite phrase_list_spec by done. unfold docs. rewrite list_elem_of_fmap.
    setoid_rewrite list_elem_of_filter. split.
    + intros (p & -> & Hp & Hin). split; [done|]. apply phrase_in_spec in Hp as (qs & H2 & Hat); [|done|done].
      exists qs. split; [|done]. change (Forall2 (fun q l => posting_of (doc_id p) (items l) = Some q) qs
        ((fun t => ix_lookup index (pt_text t) x) <$> t :: terms)) in H2. by apply Forall2_fmap_r in H2.
    + intros (_ & qs & H2 & Hat). inversion H2 as [|q t' qs' ts' Hq H2']; subst. exists q.
      pose proof (posting_of_Some _ _ _ Hq) as [Hin Hd]. split; [done|]. split; [|done]. rewrite Hd.
      apply phrase_in_spec; [done|done|]. exists (q :: qs'). split; [|done].
      change (Forall2 (fun q l => posting_of d (items l) = Some q) (q :: qs')
        ((fun t => ix_lookup index (pt_text t) x) <$> t :: terms)). by apply Forall2_fmap_r.
Qed.

Lemma leaf_read_docs q ctx d :
  phrases_small q ->
  (exists leaf, read_leaf self q ctx = Some leaf /\ d ∈ posting_ids (lf_postings leaf)) <-> leaf_means q ctx d.
Proof using All.
  intros Hs. setoid_rewrite elem_of_posting_ids. unfold read_leaf. destruct q; cbn [leaf_key leaf_means]; try (split; [by intros (? & ? & _)|done]).
  - cbn. destruct v as [|c v]; cbn.
    + rewrite il_empty. split; [intros (? & [= <-] & ?); done|]. intros ?. eexists. by split.
    + split; [intros (? & [= <-] & ?); done|]. intros ?. eexists. by split.
  - cbn. destruct v as [|c v]; cbn.
    + split; [intros (? & [= <-] & Hin); cbn in Hin; unfold has_doc in Hin; set_solver|]. by intros [? _].
    + split; [intros (? & [= <-] & ?); done|]. intros [_ ?]. eexists. by split.
  - cbn. split; [intros (? & [= <-] & ?); done|]. intros ?. eexists. by split.
  - rewrite <-execute_phrase_docs by done. split; [intros (? & [= <-] & ?); done|]. intros ?. eexists. by split.
  - transitivity (has_doc (execute_exact self v (default (cx_xpath ctx) (cx_exact_xpath ctx))) d).
    { split; [intros (? & [= <-] & ?); done|]. intros ?. eexists. by split. }
    unfold execute_exact. destruct (split_whitespace (strip_quotes (trim v))) as [|w [|w' ws]]; [|done|done].
    unfold has_doc. cbn. set_solver.
Qed.

Lemma fuzzy_docs raw fz spec x d :
  has_doc (execute_fuzzy self raw x fz spec) d <-> fuzzy_means raw fz spec x d.
Proof using All.
  unfold execute_fuzzy, fuzzy_means. cbn [qe_analyzer qe_index]. destruct (fuzzable_words analyzer raw) as [|w ws].
  { split; [unfold has_doc; cbn; set_solver|]. by intros [? _]. }
  set (picks w := fuzzy_picks self w x (fuzzy_options w fz spec) (fs_max_expansions spec)).
  set (word_list w := union_lists ((fun p => ix_lookup index (fe_term p) x) <$> picks w)).
  assert (Hword : forall w, wf_list (word_list w) /\
    (has_doc (word_list w) d <-> exists pick, pick ∈ picks w /\ has_doc (ix_lookup index (fe_term pick) x) d)).
  { intros w'. destruct (union_lists_docs ((fun p => ix_lookup index (fe_term p) x) <$> picks w') d) as [H1 H2].
    - apply Forall_fmap, Forall_forall. intros p _. apply il_lookup.
    - split; [done|]. unfold word_list. rewrite H2. setoid_rewrite list_elem_of_fmap. naive_solver. }
  change ((fun w => _) <$> w :: ws) with (word_list <$> w :: ws). rewrite fmap_cons.
  assert (Hfold : forall l acc, wf_list acc ->
    has_doc (fold_left intersection (word_list <$> l) acc) d <-> has_doc acc d /\ forall w, w ∈ l -> has_doc (word_list w) d).
  { induction l as [|w' l IH]; intros acc Hacc; cbn; [set_solver|].
    destruct (intersection_spec acc (word_list w') Hacc (proj1 (Hword w'))) as (Hi1 & Hi2 & _).
    rewrite IH by done. unfold has_doc. rewrite Hi2. setoid_rewrite elem_of_cons. naive_solver. }
  rewrite Hfold by apply Hword. setoid_rewrite elem_of_cons. split.
  - intros [H1 H2]. split; [done|]. intros w' [->|Hw']; apply Hword; auto.
  - intros [_ H]. split; [apply Hword, H; by left|]. intros w' Hw'. apply Hword, H. by right.
Qed.

Lemma all_docs_spec d :
  d ∈ all_docs self <-> exists lo hi, ix_doc_range index = Some (lo, hi) /\ lo <= d <= hi /\ ix_is_deleted index d = false.
Proof using All.
  unfold all_docs. cbn [qe_index]. destruct (ix_doc_range index) as [[lo hi]|].
  - rewrite elem_of_list_to_set, list_elem_of_filter, elem_of_seqZ. split.
    + intros [H1 H2]. exists lo, hi. split; [done|]. split; [lia|done].
    + intros (? & ? & [= <- <-] & H1 & H2). split; [done|lia].
  - split; [set_solver|]. by intros (? & ? & ? & _).
Qed.

(** Evaluated as a filter, a query gives the set of the documents it means. *)
Lemma filter_meaning q ctxs d :
  phrases_small q -> exists docs, evaluate self q ctxs Filter = Docs docs /\ (d ∈ docs <-> query_matches q ctxs d).
Proof using All.
  assert (Hleaf : forall q, phrases_small q ->
    d ∈ fold_left (fun out ctx => match read_leaf self q ctx with Some leaf => out ∪ posting_ids (lf_postings leaf) | None => out end) ctxs ∅ <->
    exists ctx, ctx ∈ ctxs /\ leaf_means q ctx d).
  { intros q' Hs. setoid_rewrite <-leaf_read_docs; [|done].
    rewrite (fold_left_ext_in _ (fun out ctx => out ∪ match read_leaf self q' ctx with Some leaf => posting_ids (lf_postings leaf) | None => ∅ end))
      by (intros out ctx _; destruct (read_leaf self q' ctx); set_solver).
    rewrite elem_of_fold_union. split.
    - intros [?|(ctx & Hc & Hin)]; [set_solver|]. exists ctx. split; [done|].
      destruct (read_leaf self q' ctx) as [leaf|]; [by exists leaf|set_solver].
    - intros (ctx & Hc & leaf & Hl & Hin). right. exists ctx. split; [done|]. by rewrite Hl. }
  induction q as [v|v|v|ps IH|ps IH|ps IH|ts|v|v f s|fs IH|r|ps IH|b|] using Query_rect'; intros Hs; cbn [evaluate query_matches].
  1-3: eexists; split; [reflexivity|by apply Hleaf].
  - eexists. split; [reflexivity|]. cbn [phrases_small] in Hs. apply foldr_and_Forall in Hs.
    apply (union_docs_spec (fun p => evaluate self p ctxs Filter) (fun p => query_matches p ctxs d)).
    rewrite Forall_forall in IH, Hs. apply Forall_forall. intros p Hp. by apply IH, Hs.
  - eexists. split; [reflexivity|]. cbn [phrases_small] in Hs. apply foldr_and_Forall in Hs.
    apply (and_docs_spec (fun p => evaluate self p ctxs Filter) (fun p => query_matches p ctxs d)).
    rewrite Forall_forall in IH, Hs. apply Forall_forall. intros p Hp. by apply IH, Hs.
  - eexists. split; [reflexivity|]. cbn [phrases_small] in Hs. apply foldr_and_Forall in Hs.
    apply (union_docs_spec (fun p => evaluate self p ctxs Filter) (fun p => query_matches p ctxs d)).
    rewrite Forall_forall in IH, Hs. apply Forall_forall. intros p Hp. by apply IH, Hs.
  - eexists. split; [reflexivity|by apply Hleaf].
  - eexists. split; [reflexivity|by apply Hleaf].
  - eexists. split; [reflexivity|]. rewrite (elem_of_fold_union (fun ctx => posting_ids (execute_fuzzy self v (cx_xpath ctx) f s))).
    setoid_rewrite elem_of_posting_ids. setoid_rewrite fuzzy_docs. set_solver.
  - eexists. split; [reflexivity|]. cbn [phrases_small] in Hs.
    apply (proj1 (foldr_and_Forall (fun form => phrases_small (alt_query form)) fs)) in Hs.
    apply (union_docs_spec (fun form => evaluate self (alt_query form) ctxs Filter) (fun form => query_matches (alt_query form) ctxs d)).
    rewrite Forall_forall in IH, Hs. apply Forall_forall. intros p Hp. by apply IH, Hs.
  - eexists. split; [reflexivity|].
    rewrite (elem_of_fold_union (fun ctx => posting_ids (ix_numeric_range index (cx_xpath ctx) (nr_lo r) (nr_hi r)))).
    setoid_rewrite elem_of_posting_ids. set_solver.
  - eexists. split; [reflexivity|]. set_solver.
  - eexists. split; [reflexivity|].
    rewrite (elem_of_fold_union (fun ctx => if b then ix_bool_true_ids index (cx_xpath ctx) else ix_bool_false_ids index (cx_xpath ctx))).
    set_solver.
  - eexists. split; [reflexivity|]. apply all_docs_spec.
Qed.
End meaning.

(** ** Scored documents *)

(** Every entry is filed under its document. *)
Definition keyed (m : gmap Z ScoredPosting) : Prop := map_Forall (fun d hit => sp_doc_id hit = d) m.

Lemma keyed_empty : keyed ∅.
Proof. intros d hit Hd. by rewrite lookup_empty in Hd. Qed.

Lemma keyed_insert m hit : keyed m -> keyed (<[sp_doc_id hit := hit]> m).
Proof. intros Hm. by apply map_Forall_insert_2. Qed.

Lemma add_hit_keyed m hit : keyed m -> keyed (add_hit m hit) /\ dom (add_hit m hit) = dom m ∪ {[sp_doc_id hit]}.
Proof.
  intros Hm. unfold add_hit. destruct (m !! sp_doc_id hit) as [cur|] eqn:E.
  - pose proof (Hm _ _ E) as Hc. cbn in Hc. split; [|rewrite dom_insert_L; set_solver].
    apply map_Forall_insert_2; [done|exact Hm].
  - split; [by apply keyed_insert|]. rewrite dom_insert_L. set_solver.
Qed.

Lemma best_form_keyed m hit : keyed m -> keyed (best_form m hit) /\ dom (best_form m hit) = dom m ∪ {[sp_doc_id hit]}.
Proof.
  intros Hm. unfold best_form. destruct (m !! sp_doc_id hit) as [cur|] eqn:E.
  - destruct (sp_score cur <? sp_score hit).
    + split; [by apply keyed_insert|]. rewrite dom_insert_L. set_solver.
    + split; [done|]. apply elem_of_dom_2 in E. set_solver.
  - split; [by apply keyed_insert|]. rewrite dom_insert_L. set_solver.
Qed.

(** A loop whose steps add the documents of their item. *)
Lemma fold_keyed {A} (step : gmap Z ScoredPosting -> A -> gmap Z ScoredPosting) (docs_of : A -> gset Z) l m :
  (forall m x, x ∈ l -> keyed m -> keyed (step m x) /\ forall d, d ∈ dom (step m x) <-> d ∈ dom m \/ d ∈ docs_of x) ->
  keyed m ->
  keyed (fold_left step l m) /\ forall d, d ∈ dom (fold_left step l m) <-> d ∈ dom m \/ exists x, x ∈ l /\ d ∈ docs_of x.
Proof.
  revert m. induction l as [|x l IH]; intros m Hstep Hm; cbn; [split; [done|set_solver]|].
  destruct (Hstep m x ltac:(left) Hm) as [Hk Hd]. destruct (IH (step m x)) as [Hk' Hd']; [|done|].
  - intros m' y Hy. apply Hstep. by right.
  - split; [done|]. intros d. rewrite Hd', Hd. set_solver.
Qed.

Lemma fold_hits_keyed (step : gmap Z ScoredPosting -> ScoredPosting -> gmap Z ScoredPosting) hits m :
  (forall m hit, keyed m -> keyed (step m hit) /\ dom (step m hit) = dom m ∪ {[sp_doc_id hit]}) -> keyed m ->
  keyed (fold_left step hits m) /\ forall d, d ∈ dom (fold_left step hits m) <-> d ∈ dom m \/ d ∈ scored_docs hits.
Proof.
  intros Hstep Hm. destruct (fold_keyed step (fun hit => {[sp_doc_id hit]}) hits m) as [Hk Hd]; [|done|].
  - intros m' hit _ Hm'. destruct (Hstep m' hit Hm') as [H1 H2]. split; [done|]. intros d. rewrite H2. set_solver.
  - split; [done|]. intros d. rewrite Hd. unfold scored_docs. rewrite elem_of_list_to_set, list_elem_of_fmap. set_solver.
Qed.

Lemma into_values_docs m d : keyed m -> d ∈ scored_docs (into_values m) <-> d ∈ dom m.
Proof.
  intros Hm. unfold scored_docs. rewrite elem_of_list_to_set, list_elem_of_fmap. setoid_rewrite elem_of_into_values.
  rewrite elem_of_dom. split.
  - intros (hit & -> & d' & Hd). rewrite (Hm _ _ Hd). by exists hit.
  - intros [hit Hd]. exists hit. split; [by rewrite (Hm _ _ Hd)|]. by exists d.
Qed.

Definition counted (l : list Posting) : list Posting := filter (fun p => positions p <> []) l.

Lemma counted_all l : Forall (fun p => positions p <> []) l -> counted l = l.
Proof. apply filter_all. Qed.

Section scoring.
Context {LN : Ln}.

Lemma score_postings_docs s x df l doc_len out :
  sp_doc_id <$> (fold_left (score_posting s x df) l (doc_len, out)).2 = (sp_doc_id <$> out) ++ (doc_id <$> counted l).
Proof.
  revert doc_len out. induction l as [|p l IH]; intros doc_len out; [by rewrite app_nil_r|]. cbn [fold_left].
  unfold score_posting at 2. unfold counted. rewrite filter_cons. destruct (Nat.eqb_spec (length (positions p)) 0) as [Hz|Hz].
  - apply length_zero_iff_nil in Hz. rewrite decide_False by (by intros ?). apply IH.
  - rewrite decide_True by (intros Hp; by rewrite Hp in Hz). rewrite IH, fmap_app, fmap_cons, <-app_assoc. done.
Qed.

Lemma score_term_docs s l x df doc_len out :
  sp_doc_id <$> (score_term_into s l x df doc_len out).2 = (sp_doc_id <$> out) ++ (doc_id <$> counted (items l)).
Proof. apply score_postings_docs. Qed.
End scoring.

(** ** Ranking scores the documents the filter finds *)

(** Every posting of a word has a position. *)
Class PositionLaws {I} `{SearchIndex I} (index : I) : Prop := {
  pl_lookup t x : Forall (fun p => positions p <> []) (items (ix_lookup index t x));
  pl_prefix t x : Forall (fun p => positions p <> []) (items (ix_lookup_prefix index t x));
  pl_wildcard t x : Forall (fun p => positions p <> []) (items (ix_lookup_wildcard index t x))
}.

(** A query of words: what the analysis makes of a search text. An AND has parts (ranking one
    without parts would panic; analysed queries have at least two). *)
Fixpoint rankable (q : Query) : Prop :=
  match q with
  | QTerm _ | QPrefix _ | QWildcard _ | QPhrase _ | QExact _ => True
  | QWand parts | QOr parts => foldr (fun part rest => rankable part /\ rest) True parts
  | QAnd parts => parts <> [] /\ foldr (fun part rest => rankable part /\ rest) True parts
  | QSynonym forms => foldr (fun form rest => rankable (alt_query form) /\ rest) True forms
  | _ => False
  end.

Section ranking.
Context {I : Type} {SI : SearchIndex I} {LN : Ln} {LG : Log10} {CT : CaseTables}.
Context (index : I) (analyzer : Analyzer) (corpus : option CorpusStats).
Local Abbreviation self := (mkExecutor index analyzer corpus None).
Context {Laws : IndexLaws index} {PLaws : PositionLaws index}.

Lemma read_leaf_positions q ctx leaf :
  read_leaf self q ctx = Some leaf -> Forall (fun p => positions p <> []) (items (lf_postings leaf)).
Proof using All.
  unfold read_leaf. intros Hl. assert (Hnil : Forall (fun p => positions p <> []) (items PostingList_new)) by constructor.
  destruct q as [v|v|v| | | |ts|v| | | | | |]; cbn in Hl; simplify_eq; cbn [lf_postings].
  - destruct v; [done|]. apply pl_lookup.
  - destruct v; [done|]. apply pl_prefix.
  - apply pl_wildcard.
  - unfold execute_phrase. destruct ts as [|t ts]; [done|]. rewrite fmap_cons, phrase_list_spec.
    + apply Forall_forall. intros p Hp. apply list_elem_of_filter in Hp as [_ Hp].
      pose proof (pl_lookup (pt_text t) (cx_xpath ctx)) as Hf. by apply (proj1 (Forall_forall _ _) Hf).
    + constructor; [apply il_words|]. apply Forall_fmap, Forall_forall. intros u _. apply il_words.
  - unfold execute_exact. destruct (split_whitespace _) as [|w [|]]; [done|apply pl_lookup..].
Qed.

Context (ctxs : list FieldCtx) (Hplain : Forall (fun ctx => cx_row_keyed ctx = false) ctxs).

Lemma score_leaf_docs q floors d :
  d ∈ scored_docs (score_leaf self q ctxs floors) <->
  exists ctx leaf, ctx ∈ ctxs /\ read_leaf self q ctx = Some leaf /\ has_doc (lf_postings leaf) d.
Proof using All.
  unfold score_leaf.
  destruct (fold_keyed (fun acc e => score_leaf_field self q (mjoin (floors !! e.1)) e.2 acc)
    (fun e : nat * FieldCtx => match read_leaf self q e.2 with Some leaf => posting_ids (lf_postings leaf) | None => ∅ end)
    (imap pair ctxs) ∅) as [Hk Hd]; [|apply keyed_empty|].
  - intros m [i ctx] Hin Hm. apply elem_of_lookup_imap in Hin as (j & ctx' & [= -> ->] & Hj). cbn [fst snd].
    unfold score_leaf_field. destruct (read_leaf self q ctx') as [leaf|] eqn:El; [|split; [done|set_solver]].
    pose proof (Forall_lookup_1 _ _ _ _ Hplain Hj) as Hp. unfold fold_to_doc. rewrite Hp.
    match goal with |- context [fold_left ?f ?l m] =>
      destruct (fold_hits_keyed f l m) as [H1 H2]; [|done|] end.
    + intros m' hit Hm'. replace (with_doc hit (sp_doc_id hit)) with hit by (by destruct hit). by apply add_hit_keyed.
    + split; [done|]. intros d'. rewrite H2. unfold scored_docs. rewrite score_term_docs.
      rewrite counted_all by (by eapply read_leaf_positions). cbn. done.
  - rewrite into_values_docs, Hd by done. split.
    + intros [?|([i ctx] & Hin & Hin')]; [set_solver|]. apply elem_of_lookup_imap in Hin as (j & ctx' & [= -> ->] & Hj). cbn in Hin'.
      destruct (read_leaf self q ctx') as [leaf|] eqn:El; [|set_solver]. exists ctx', leaf.
      split; [by eapply list_elem_of_lookup_2|]. split; [done|]. by apply elem_of_posting_ids.
    + intros (ctx & leaf & Hc & Hl & Hin). right. apply list_elem_of_lookup in Hc as [i Hi]. exists (i, ctx).
      split; [apply elem_of_lookup_imap; by exists i, ctx|]. cbn. rewrite Hl. by apply elem_of_posting_ids.
Qed.

Lemma plain_all : plain_ctxs ctxs = ctxs.
Proof using Hplain. by apply filter_all. Qed.

Lemma phrase_docs_spec terms d :
  d ∈ phrase_docs self terms ctxs <-> exists ctx, ctx ∈ ctxs /\ has_doc (execute_phrase self terms (cx_xpath ctx)) d.
Proof using Hplain.
  unfold phrase_docs. rewrite plain_all.
  rewrite (elem_of_fold_union (fun ctx => posting_ids (execute_phrase self terms (cx_xpath ctx)))).
  setoid_rewrite elem_of_posting_ids. split; [|by right]. intros [H|H]; [|done]. by apply not_elem_of_empty in H.
Qed.

Lemma score_words_docs terms d :
  offsets_small (pt_offset <$> terms) ->
  d ∈ scored_docs (score_phrase_as_words self terms ctxs) <-> d ∈ phrase_docs self terms ctxs.
Proof using All.
  intros Ho. unfold score_phrase_as_words. case_bool_decide as He; [rewrite He; done|]. rewrite plain_all.
  set (matched := sort_unstable (elements (phrase_docs self terms ctxs))).
  assert (Hmatched : forall d, d ∈ matched <-> d ∈ phrase_docs self terms ctxs)
    by (intros d'; unfold matched; rewrite elem_of_sort_unstable; apply elem_of_elements).
  assert (Hsorted : StronglySorted Z.lt matched).
  { apply sorted_nodup_lt; [apply sort_unstable_sorted|]. unfold matched, sort_unstable. rewrite sort_by_key_perm. apply NoDup_elements. }
  set (word_docs ctx := list_to_set (concat ((fun t => doc_id <$> filter (fun p => doc_id p ∈ matched)
    (items (ix_lookup index (pt_text t) (cx_xpath ctx)))) <$> terms)) : gset Z).
  destruct (fold_keyed (score_words_field self matched terms) word_docs ctxs ∅) as [Hk Hd]; [|apply keyed_empty|].
  - intros m ctx Hctx Hm. unfold score_words_field.
    assert (Hgen : forall ts len acc, keyed acc ->
      let st := fold_left (fun (st : gmap DocId f32 * gmap Z ScoredPosting) term =>
        let '(l, doc_freq) := fetch_term_list self (pt_text term) (cx_xpath ctx) in
        let '(doc_len, scored) := score_term_into (stats self) (postings_of l matched) (cx_xpath ctx) doc_freq st.1 [] in
        (doc_len, fold_left add_hit scored st.2)) ts (len, acc) in
      keyed st.2 /\ forall d, d ∈ dom st.2 <-> d ∈ dom acc \/
        d ∈ concat ((fun t => doc_id <$> filter (fun p => doc_id p ∈ matched) (items (ix_lookup index (pt_text t) (cx_xpath ctx)))) <$> ts)).
    { induction ts as [|t ts IH]; intros len acc Hacc; [split; [done|set_solver]|]. cbn [fold_left].
      destruct (fetch_term_list self (pt_text t) (cx_xpath ctx)) as [l df] eqn:Ef.
      assert (l = ix_lookup index (pt_text t) (cx_xpath ctx)) as -> by (unfold fetch_term_list in Ef; by simplify_eq/=).
      pose proof (score_term_docs (stats self) (postings_of (ix_lookup index (pt_text t) (cx_xpath ctx)) matched) (cx_xpath ctx) df len []) as Hs.
      cbn [fst]. destruct (score_term_into _ _ _ _ _ _) as [len' scored]. cbn [snd] in Hs |- *.
      destruct (fold_hits_keyed add_hit scored acc) as [H1 H2]; [apply add_hit_keyed|done|].
      destruct (IH len' (fold_left add_hit scored acc) H1) as [H3 H4]. split; [done|]. intros d'. rewrite H4, H2.
      unfold scored_docs. rewrite Hs, postings_of_spec; [|apply il_words|done].
      rewrite counted_all; [set_solver|]. apply Forall_forall. intros p Hp. apply list_elem_of_filter in Hp as [_ Hp].
      pose proof (pl_lookup (pt_text t) (cx_xpath ctx)) as Hf. by apply (proj1 (Forall_forall _ _) Hf). }
    destruct (Hgen terms ∅ m Hm) as [H1 H2]. split; [done|]. intros d'. rewrite H2. unfold word_docs. by rewrite elem_of_list_to_set.
  - rewrite into_values_docs, Hd by done. split.
    + intros [H|(ctx & Hc & Hin)]; [by apply not_elem_of_empty in H|]. unfold word_docs in Hin.
      rewrite elem_of_list_to_set, elem_of_concat in Hin. destruct Hin as (ds & Hds & Hin).
      apply list_elem_of_fmap in Hin as (t & -> & _). apply list_elem_of_fmap in Hds as (p & -> & Hp).
      apply list_elem_of_filter in Hp as [Hp _]. by apply Hmatched.
    + intros Hin. right. pose proof Hin as Hin0. apply phrase_docs_spec in Hin as (ctx & Hc & Hp). exists ctx. split; [done|].
      apply execute_phrase_docs in Hp; [|done|done]. destruct Hp as (Hne & qs & H2 & _). destruct terms as [|t terms]; [done|].
      inversion H2 as [|q t' qs' ts' Hq _]; subst. pose proof (posting_of_Some _ _ _ Hq) as [Hq1 Hq2].
      unfold word_docs. rewrite elem_of_list_to_set, fmap_cons. cbn. apply elem_of_app. left. apply list_elem_of_fmap.
      exists q. split; [done|]. apply list_elem_of_filter. split; [|done]. rewrite Hq2. by apply Hmatched.
Qed.
End ranking.

(** ** Combining scored parts *)

Lemma shared_docs_spec parts d :
  d ∈ shared_docs parts <-> parts <> [] /\ Forall (fun s => d ∈ scored_docs s) parts.
Proof.
  destruct parts as [|first rest]; cbn [shared_docs]; [set_solver|]. rewrite Forall_cons.
  assert (Hgen : forall rest acc, d ∈ fold_left (fun candidates scored => scored_docs scored ∩ candidates) rest acc <->
    d ∈ acc /\ Forall (fun s => d ∈ scored_docs s) rest).
  { clear. induction rest as [|s rest IH]; intros acc; cbn; [split; [by split; [|constructor]|by intros []]|].
    rewrite IH, Forall_cons. set_solver. }
  rewrite Hgen. naive_solver.
Qed.

Lemma scored_parts_all ss :
  scored_parts (map Scored ss) = if decide (Forall (fun s => s <> []) ss) then Some ss else None.
Proof.
  induction ss as [|s ss IH]; [done|]. cbn [map scored_parts]. destruct s as [|hit s].
  - rewrite decide_False; [done|]. by rewrite Forall_cons; intros [? _].
  - rewrite IH. destruct (decide (Forall _ ss)) as [H|H].
    + rewrite decide_True by (by constructor). done.
    + rewrite decide_False by (by rewrite Forall_cons; intros [_ ?]). done.
Qed.

Lemma scored_docs_nil d : d ∉ scored_docs [].
Proof. unfold scored_docs. set_solver. Qed.

Lemma score_and_docs ss d :
  d ∈ scored_docs (score_and (map Scored ss)) <-> ss <> [] /\ Forall (fun s => d ∈ scored_docs s) ss.
Proof.
  unfold score_and. rewrite scored_parts_all. destruct (decide (Forall (fun s => s <> []) ss)) as [Hne|Hne].
  2:{ split; [by intros ?%scored_docs_nil|]. intros [_ Hall]. destruct Hne. eapply Forall_impl; [exact Hall|].
      intros s Hs ->. by apply scored_docs_nil in Hs. }
  destruct ss as [|s0 ss0]; [split; [by intros ?%scored_docs_nil|by intros [? _]]|].
  set (parts := stable_sort _ (s0 :: ss0)). assert (Hp : parts ≡ₚ s0 :: ss0) by apply stable_sort_perm.
  assert (Hspec : d ∈ shared_docs parts <-> s0 :: ss0 <> [] /\ Forall (fun s => d ∈ scored_docs s) (s0 :: ss0)).
  { assert (Hall : Forall (fun s => d ∈ scored_docs s) parts <-> Forall (fun s => d ∈ scored_docs s) (s0 :: ss0)) by (by rewrite Hp).
    rewrite shared_docs_spec, Hall. split; [by intros [_ ?]|]. intros [_ ?]. split; [|done]. intros Hn. rewrite Hn in Hp.
    by apply Permutation_nil_cons in Hp. }
  case_bool_decide as He.
  { rewrite <-Hspec, He. split; [by intros ?%scored_docs_nil|set_solver]. }
  set (keep by_doc hit := if bool_decide (sp_doc_id hit ∈ shared_docs parts) then add_hit by_doc hit else by_doc).
  destruct (fold_keyed (fun by_doc scored => fold_left keep scored by_doc) (fun s => scored_docs s ∩ shared_docs parts) parts ∅)
    as [Hk Hd]; [|apply keyed_empty|].
  - intros m s _ Hm. destruct (fold_keyed keep (fun hit => {[sp_doc_id hit]} ∩ shared_docs parts) s m) as [H1 H2]; [|done|].
    + intros m' hit _ Hm'. unfold keep. case_bool_decide as Hin.
      * destruct (add_hit_keyed m' hit Hm') as [H1 H2]. split; [done|]. intros d'. rewrite H2. set_solver.
      * split; [done|]. set_solver.
    + split; [done|]. intros d'. rewrite H2. unfold scored_docs. rewrite elem_of_intersection, elem_of_list_to_set, list_elem_of_fmap. set_solver.
  - rewrite into_values_docs, Hd, <-Hspec by done. split; [set_solver|]. intros Hin. right.
    pose proof Hin as Hin'. apply shared_docs_spec in Hin' as [Hn Hall]. destruct parts as [|p ps]; [done|].
    exists p. split; [left|]. apply Forall_cons in Hall as [Hp0 _]. set_solver.
Qed.

Lemma score_union_docs ss d :
  d ∈ scored_docs (score_union (map Scored ss)) <-> exists s, s ∈ ss /\ d ∈ scored_docs s.
Proof.
  unfold score_union.
  assert (Hf : forall m, fold_left (fun by_doc o => match o with Scored scored => fold_left add_hit scored by_doc | Docs _ => by_doc end)
    (map Scored ss) m = fold_left (fun by_doc scored => fold_left add_hit scored by_doc) ss m).
  { induction ss as [|s ss IH]; intros m; [done|]. cbn. apply IH. }
  rewrite Hf. destruct (fold_keyed (fun by_doc scored => fold_left add_hit scored by_doc) scored_docs ss ∅) as [Hk Hd]; [|apply keyed_empty|].
  - intros m s _ Hm. apply fold_hits_keyed; [apply add_hit_keyed|done].
  - rewrite into_values_docs, Hd by done. set_solver.
Qed.

Lemma best_forms_docs forms d :
  d ∈ scored_docs (best_forms forms) <-> exists f, f ∈ forms /\ d ∈ scored_docs f.1.
Proof.
  unfold best_forms.
  match goal with |- context [fold_left ?step forms ∅] =>
    destruct (fold_keyed step (fun form => scored_docs form.1) forms ∅) as [Hk Hd]; [|apply keyed_empty|] end.
  - intros m f _ Hm. apply fold_hits_keyed; [|done]. intros m' hit Hm'.
    destruct (best_form_keyed m' (with_score hit (saturating_mul 64 (sp_score hit) f.2 / 1000)) Hm') as [H1 H2]. by split.
  - rewrite into_values_docs, Hd by done. set_solver.
Qed.

(** Lists of scored parts, one per query. *)
Lemma scored_choice {A} (f : A -> EvalOutcome) (P : A -> DocId -> Prop) parts :
  Forall (fun p => exists s, f p = Scored s /\ forall d, d ∈ scored_docs s <-> P p d) parts ->
  exists ss, map f parts = map Scored ss /\ Forall2 (fun p s => forall d, d ∈ scored_docs s <-> P p d) parts ss.
Proof.
  induction 1 as [|p parts (s & Hs & Hd) _ (ss & IH1 & IH2)]; [by exists []|].
  exists (s :: ss). split; [cbn; by rewrite Hs, IH1|]. by constructor.
Qed.

Lemma Forall2_docs_all {A} (P : A -> DocId -> Prop) parts ss d :
  Forall2 (fun p s => forall d, d ∈ scored_docs s <-> P p d) parts ss ->
  ss <> [] /\ Forall (fun s => d ∈ scored_docs s) ss <-> parts <> [] /\ foldr (fun p rest => P p d /\ rest) True parts.
Proof.
  intros H2. rewrite (foldr_and_Forall (fun p => P p d)).
  assert (Hall : Forall (fun s => d ∈ scored_docs s) ss <-> Forall (fun p => P p d) parts).
  { induction H2 as [|p s parts ss Hps H2 IH]; [split; constructor|]. by rewrite !Forall_cons, IH, Hps. }
  rewrite Hall. destruct H2; naive_solver.
Qed.

Lemma Forall2_docs_any {A} (P : A -> DocId -> Prop) parts ss d :
  Forall2 (fun p s => forall d, d ∈ scored_docs s <-> P p d) parts ss ->
  (exists s, s ∈ ss /\ d ∈ scored_docs s) <-> foldr (fun p rest => P p d \/ rest) False parts.
Proof.
  induction 1 as [|p s parts ss Hps H2 IH]; cbn; [set_solver|]. rewrite <-IH, <-Hps. set_solver.
Qed.

Section rank_meaning.
Context {I : Type} {SI : SearchIndex I} {LN : Ln} {LG : Log10} {CT : CaseTables}.
Context (index : I) (analyzer : Analyzer) (corpus : option CorpusStats).
Local Abbreviation self := (mkExecutor index analyzer corpus None).
Context {Laws : IndexLaws index} {PLaws : PositionLaws index}.
Context (ctxs : list FieldCtx) (Hplain : Forall (fun ctx => cx_row_keyed ctx = false) ctxs).
Local Abbreviation means := (query_matches index analyzer corpus).

Lemma leaf_score_docs q floors d :
  phrases_small q ->
  d ∈ scored_docs (score_leaf self q ctxs floors) <-> exists ctx, ctx ∈ ctxs /\ leaf_means index q ctx d.
Proof using All.
  intros Hs. rewrite score_leaf_docs by done. setoid_rewrite <-(leaf_read_docs index analyzer corpus); [|done].
  setoid_rewrite elem_of_posting_ids. naive_solver.
Qed.

Lemma rank_meaning q :
  rankable q -> phrases_small q ->
  exists scored, evaluate self q ctxs Rank = Scored scored /\ forall d, d ∈ scored_docs scored <-> means q ctxs d.
Proof using All.
  assert (Hparts : forall ps, Forall (fun q => rankable q -> phrases_small q ->
      exists scored, evaluate self q ctxs Rank = Scored scored /\ forall d, d ∈ scored_docs scored <-> means q ctxs d) ps ->
    foldr (fun part rest => rankable part /\ rest) True ps -> foldr (fun part rest => phrases_small part /\ rest) True ps ->
    exists ss, map (fun p => evaluate self p ctxs Rank) ps = map Scored ss /\
      Forall2 (fun p s => forall d, d ∈ scored_docs s <-> means p ctxs d) ps ss).
  { intros ps IH Hr Hs. apply (proj1 (foldr_and_Forall _ _)) in Hr. apply (proj1 (foldr_and_Forall _ _)) in Hs.
    apply (scored_choice (fun p => evaluate self p ctxs Rank) (fun p d => means p ctxs d)). rewrite Forall_forall in IH, Hr, Hs.
    apply Forall_forall. intros p Hp. apply IH; auto. }
  induction q as [v|v|v|ps IH|ps IH|ps IH|ts|v|v f s|fs IH|r|ps IH|b|] using Query_rect'; intros Hr Hs; try done;
    cbn [evaluate eval_leaf query_matches].
  1-3,7-8: eexists; split; [reflexivity|]; intros d; by apply leaf_score_docs.
  - destruct (Hparts ps IH Hr Hs) as (ss & -> & H2). eexists. split; [reflexivity|]. intros d.
    rewrite score_union_docs. by apply (Forall2_docs_any (fun p d => means p ctxs d)).
  - destruct (Hparts ps IH (proj2 Hr) Hs) as (ss & -> & H2). eexists. split; [reflexivity|]. intros d.
    rewrite score_and_docs. by apply (Forall2_docs_all (fun p d => means p ctxs d)).
  - destruct (Hparts ps IH Hr Hs) as (ss & -> & H2). eexists. split; [reflexivity|]. intros d.
    rewrite score_union_docs. by apply (Forall2_docs_any (fun p d => means p ctxs d)).
  - eexists. split; [reflexivity|]. intros d. rewrite best_forms_docs. generalize (typed_doc_freqs self fs ctxs) as floors. intros floors.
    cbn [rankable phrases_small] in Hr, Hs.
    induction IH as [|form fs IHf IHs IH]; cbn [map foldr] in *; [set_solver|]. destruct Hr as [Hr Hrs], Hs as [Hs Hss].
    specialize (IH Hrs Hss). destruct (IHf Hr Hs) as (scored & He & Hd).
    assert (Hform : exists sc, score_form self (evaluate self (alt_query form) ctxs Rank) floors ctxs (alt_query form) = Some sc /\
      forall d, d ∈ scored_docs sc <-> means (alt_query form) ctxs d).
    { rewrite He. destruct (alt_query form) eqn:Eq; cbn [score_form]; try (exists scored; split; [done|exact Hd]).
      - eexists. split; [reflexivity|]. intros d'. cbn [query_matches]. by apply leaf_score_docs.
      - eexists. split; [reflexivity|]. intros d'. rewrite score_words_docs, phrase_docs_spec by done.
        setoid_rewrite execute_phrase_docs; [|done..]. done. }
    destruct Hform as (sc & Hsc & Hdoc). rewrite Hsc. cbn. rewrite <-Hdoc, <-IH. split.
    + intros (f & Hf & Hin). apply elem_of_cons in Hf as [->|Hf]; [by left|]. right. by exists f.
    + intros [Hin|(f & Hf & Hin)]; [exists (sc, alt_weight form); split; [left|done]|]. exists f. split; [by right|done].
Qed.
End rank_meaning.

(** ** The claims *)

Section claims.
Context {I : Type} {SI : SearchIndex I} {LN : Ln} {LG : Log10} {CT : CaseTables}.
Context (index : I) (analyzer : Analyzer) (corpus : option CorpusStats).
Context {Laws : IndexLaws index}.
Local Abbreviation self := (mkExecutor index analyzer corpus None).

Lemma filter_meaning_set q ctxs :
  phrases_small q ->
  exists docs, evaluate self q ctxs Filter = Docs docs /\ forall d, d ∈ docs <-> query_matches index analyzer corpus q ctxs d.
Proof using All.
  intros Hs. destruct (filter_meaning index analyzer corpus q ctxs 0 Hs) as (docs & He & _). exists docs. split; [done|].
  intros d. destruct (filter_meaning index analyzer corpus q ctxs d Hs) as (docs' & He' & Hd).
  rewrite He in He'. by injection He' as <-.
Qed.

(** C5: Evaluating a query as a filter over any fields gives a set, and a document is in it
    exactly when the query means it: for a word, prefix, pattern, exact text or phrase, when one
    of the fields has it (the words of a phrase at their typed distances); for a fuzzy text, when
    one field has an expansion of every word; for OR some part, for AND every part, for a synonym
    group some form. Stopping an AND early loses nothing. *)
Theorem filter_correct q ctxs :
  phrases_small q ->
  exists docs, evaluate self q ctxs Filter = Docs docs /\ forall d, d ∈ docs <-> query_matches index analyzer corpus q ctxs d.
Proof using All. apply filter_meaning_set. Qed.

Context {PLaws : PositionLaws index}.

End claims.
