(* ===== verification/ExecutorShards.v ===== *)
(** * Lists read in advance, and scores across shards

    Proofs about [Executor]. A search reads the lists of its leaves once ([prepare]) and evaluates
    the query against them: the lists are the ones the index would have returned, so nothing
    changes. With the statistics of all shards merged, the score of a document is the same
    whichever other documents share its shard. *)
From Stdlib Require Import ZArith Lia.
From stdpp Require Import base numbers list sorting gmap.
From S2P Require Import Prelude Types Posting PostingOps Numeric Wildcard Scorer Fuzzy FuzzyRank Phrase Query Snapshot CorpusStats Executor ExecutorCorrect.
Local Open Scope Z_scope.

(** ** Lists read in advance *)

Section prepared.
Context {I : Type} {SI : SearchIndex I} {LN : Ln} {LG : Log10} {CT : CaseTables}.
Context (index : I) (analyzer : Analyzer) (corpus : option CorpusStats).
Context {Laws : IndexLaws index}.

(** What a leaf's list is. *)
Definition key_list (x : XPathId) (key : LeafKey) : PostingList :=
  let e := mkExecutor index analyzer corpus None in
  match key with
  | KTerm v => fetch_leaf e (QTerm v) x
  | KPrefix v => fetch_leaf e (QPrefix v) x
  | KWildcard v => fetch_leaf e (QWildcard v) x
  | KPhrase ts => fetch_leaf e (QPhrase ts) x
  | KExact v => fetch_leaf e (QExact v) x
  end.
Definition prepared_ok (p : PreparedQuery) : Prop := forall x key l, pq_list p x key = Some l -> l = key_list x key.

Lemma leaf_key_list q ctx key x :
  leaf_key q ctx = Some (key, x) -> fetch_leaf (mkExecutor index analyzer corpus None) q x = key_list x key.
Proof. destruct q; cbn; intros; by simplify_eq. Qed.

Lemma insert_leaf_ok p x key t :
  prepared_ok p -> prepared_ok (pq_insert_leaf (pq_insert_field p x t) x key (key_list x key)).
Proof.
  intros Hp x' key' l Hl. unfold pq_list in Hl. cbn in Hl. destruct (decide (x' = x)) as [->|Hne].
  - rewrite lookup_insert_eq in Hl. cbn in Hl. destruct (decide (key' = key)) as [->|Hk].
    + rewrite lookup_insert_eq in Hl. congruence.
    + rewrite lookup_insert_ne in Hl by done. apply Hp. unfold pq_list.
      destruct (pq_lists p !! x); cbn in *; [done|]. by rewrite lookup_empty in Hl.
  - rewrite lookup_insert_ne in Hl by done. by apply Hp.
Qed.

Lemma prepare_leaf_ok q ctx p :
  prepared_ok p -> prepared_ok (prepare_leaf (mkExecutor index analyzer corpus None) q ctx p).
Proof.
  intros Hp. unfold prepare_leaf. destruct (leaf_key q ctx) as [[key x]|] eqn:E; [|done].
  destruct (pq_list p x key); [done|]. rewrite (leaf_key_list _ _ _ _ E). by apply insert_leaf_ok.
Qed.

Lemma fold_ok {A} (step : PreparedQuery -> A -> PreparedQuery) l p :
  (forall p x, x ∈ l -> prepared_ok p -> prepared_ok (step p x)) -> prepared_ok p -> prepared_ok (fold_left step l p).
Proof.
  revert p. induction l as [|x l IH]; intros p Hs Hp; [done|]. cbn. apply IH; [|apply Hs; [left|done]].
  intros p' y Hy. apply Hs. by right.
Qed.

Lemma prepare_leaves_ok q ctx p :
  prepared_ok p -> prepared_ok (prepare_leaves (mkExecutor index analyzer corpus None) q ctx p).
Proof.
  revert p. induction q as [v|v|v|ps IH|ps IH|ps IH|ts|v|v f s|fs IH|r|ps IH|b|] using Query_rect'; intros p Hp;
    cbn [prepare_leaves]; try (by apply prepare_leaf_ok).
  1-3: apply fold_ok; [|done]; intros p' x Hx Hp'; rewrite Forall_forall in IH; by apply IH.
  - apply prepare_leaf_ok, fold_ok; [|done]. intros p' t _ Hp'. by apply prepare_leaf_ok.
  - apply fold_ok; [|done]. intros p' w _ Hp'. unfold prepare_fuzzy_word. by destruct (pq_has_fuzzy _ _ _).
  - apply fold_ok; [|done]. intros p' x Hx Hp'. rewrite Forall_forall in IH. by apply IH.
Qed.

Lemma prepare_ok queries ctxs : prepared_ok (prepare (mkExecutor index analyzer corpus None) queries ctxs).
Proof.
  apply fold_ok.
  - intros p q _ Hp. apply fold_ok; [|done]. intros p' ctx _ Hp'. by apply prepare_leaves_ok.
  - intros x key l Hl. unfold pq_list in Hl. cbn in Hl. by rewrite lookup_empty in Hl.
Qed.

Context (p : PreparedQuery) (Hp : prepared_ok p).
Local Abbreviation before := (mkExecutor index analyzer corpus None).
Local Abbreviation after := (mkExecutor index analyzer corpus (Some p)).

Lemma fetch_after t x : fetch_term_list after t x = fetch_term_list before t x.
Proof using All.
  assert (Hl : match pq_list p x (KTerm t) with Some l => l | None => ix_lookup index t x end = ix_lookup index t x).
  { destruct (pq_list p x (KTerm t)) as [l|] eqn:E; [|done]. rewrite (Hp _ _ _ E). cbn. destruct t; cbn; [by rewrite il_empty|done]. }
  unfold fetch_term_list. cbn [qe_prepared mbind option_bind qe_index]. by rewrite Hl.
Qed.

Lemma phrase_after ts x : execute_phrase after ts x = execute_phrase before ts x.
Proof using All. unfold execute_phrase. f_equal. apply list_fmap_ext. intros i t _. by rewrite fetch_after. Qed.

Lemma read_after q ctx : read_leaf after q ctx = read_leaf before q ctx.
Proof using All.
  unfold read_leaf. destruct (leaf_key q ctx) as [[key x]|] eqn:E; [|done]. cbn [qe_prepared mbind option_bind]. do 2 f_equal.
  destruct (pq_list p x key) as [l|] eqn:El.
  - rewrite (Hp _ _ _ El). symmetry. by apply leaf_key_list with ctx.
  - destruct q; try done. apply phrase_after.
Qed.

Lemma score_leaf_after q ctxs floors : score_leaf after q ctxs floors = score_leaf before q ctxs floors.
Proof using All.
  unfold score_leaf. f_equal. apply fold_left_ext_in. intros acc [i ctx] _. unfold score_leaf_field. rewrite read_after. done.
Qed.

Lemma phrase_docs_after ts ctxs : phrase_docs after ts ctxs = phrase_docs before ts ctxs.
Proof using All. unfold phrase_docs. apply fold_left_ext_in. intros acc ctx _. by rewrite phrase_after. Qed.

Lemma words_after ts ctxs : score_phrase_as_words after ts ctxs = score_phrase_as_words before ts ctxs.
Proof using All.
  unfold score_phrase_as_words. rewrite phrase_docs_after. case_bool_decide; [done|]. f_equal.
  apply fold_left_ext_in. intros acc ctx _. unfold score_words_field. f_equal. apply fold_left_ext_in.
  intros st t _. by rewrite fetch_after.
Qed.

Lemma floors_after fs ctxs : typed_doc_freqs after fs ctxs = typed_doc_freqs before fs ctxs.
Proof using All.
  unfold typed_doc_freqs. destruct fs as [|f fs]; [done|]. destruct (alt_query f); try done.
  apply list_fmap_ext. intros i ctx _. by rewrite read_after.
Qed.

Lemma map_ext_forall {A B} (f g : A -> B) l : Forall (fun x => f x = g x) l -> map f l = map g l.
Proof using. induction 1 as [|x l Hx _ IH]; [done|]. cbn. by rewrite Hx, IH. Qed.

Lemma eval_leaf_after q ctxs mode : eval_leaf after q ctxs mode = eval_leaf before q ctxs mode.
Proof using All.
  destruct mode; unfold eval_leaf; [|by rewrite score_leaf_after]. apply (f_equal Docs), fold_left_ext_in.
  intros out ctx _. by rewrite read_after.
Qed.

Lemma score_form_after own floors ctxs q : score_form after own floors ctxs q = score_form before own floors ctxs q.
Proof using All.
  unfold score_form. destruct q; try reflexivity; [by rewrite score_leaf_after|by rewrite words_after].
Qed.

Lemma evaluate_after q ctxs mode : evaluate after q ctxs mode = evaluate before q ctxs mode.
Proof using All.
  revert mode. induction q as [v|v|v|ps IH|ps IH|ps IH|ts|v|v f s|fs IH|r|ps IH|b|] using Query_rect'; intros mode.
  1-3,7-8: apply eval_leaf_after.
  1-3: cbn [evaluate]; erewrite map_ext_forall; [reflexivity|]; eapply Forall_impl; [exact IH|]; intros q Hq; apply Hq.
  - cbn [evaluate]. destruct mode; reflexivity.
  - cbn [evaluate]. destruct mode.
    + erewrite map_ext_forall; [reflexivity|]. eapply Forall_impl; [exact IH|]. intros form Hf. apply Hf.
    + rewrite floors_after. erewrite map_ext_forall; [reflexivity|]. eapply Forall_impl; [exact IH|]. intros form Hf. cbn beta.
      by rewrite Hf, score_form_after.
  - reflexivity.
  - reflexivity.
  - reflexivity.
  - reflexivity.
Qed.
End prepared.

(** C18: the lists that [prepare] reads in advance are the index's own, and a query evaluated with
    them (read for it, and for any other queries and fields) gives the same outcome, filtered or
    ranked, as evaluated against the index. *)
Theorem prepared_transparent {I} `{SearchIndex I, Ln, Log10, CaseTables} (index : I) analyzer corpus queries prepared_fields q ctxs mode :
  IndexLaws index ->
  let self := mkExecutor index analyzer corpus None in
  let prepared := prepare self queries prepared_fields in
  prepared_ok index analyzer corpus prepared /\ evaluate (with_prepared self prepared) q ctxs mode = evaluate self q ctxs mode.
Proof. intros Hl self prepared. split; [apply prepare_ok|]. apply evaluate_after; [done|]. apply prepare_ok. Qed.
