(* ===== verification/ExecutorScore.v ===== *)
(** * Scores, document by document

    Proofs about [Executor]. Ranking works list by list: every leaf is scored into a map, maps are
    added, intersected or folded to the best form. [doc_score] computes the hit of one document
    from that document's postings alone; the theorems show that ranking returns exactly these
    hits, one per document, and that with the statistics of all shards merged a document's score
    does not depend on the shard that holds it. *)
From Stdlib Require Import ZArith Lia.
From stdpp Require Import base numbers list sorting gmap.
From S2P Require Import Prelude Types Posting PostingOps Numeric Wildcard Scorer Wand Fuzzy FuzzyRank Phrase Query Snapshot CorpusStats Executor ExecutorCorrect.
Local Open Scope Z_scope.

(** ** Adding hits *)

Definition hits_at (d : DocId) (l : list ScoredPosting) : list ScoredPosting := filter (fun h => sp_doc_id h = d) l.

Definition add_scores (cur hit : ScoredPosting) : ScoredPosting :=
  mkScored (sp_doc_id cur) (saturating_add 64 (sp_score cur) (sp_score hit))
    (sat_usize (sp_matched_terms cur) (sp_matched_terms hit)) (sp_density cur).
Definition better_form (cur hit : ScoredPosting) : ScoredPosting := if sp_score cur <? sp_score hit then hit else cur.
(** [acc] with one more hit, combined by [f]. *)
Definition join (f : ScoredPosting -> ScoredPosting -> ScoredPosting) (acc : option ScoredPosting) (hit : ScoredPosting)
    : option ScoredPosting := Some match acc with Some cur => f cur hit | None => hit end.
Definition join_opt (f : ScoredPosting -> ScoredPosting -> ScoredPosting) (acc hit : option ScoredPosting) : option ScoredPosting :=
  match hit with Some hit => join f acc hit | None => acc end.

Lemma hits_at_cons d h l : hits_at d (h :: l) = if decide (sp_doc_id h = d) then h :: hits_at d l else hits_at d l.
Proof. unfold hits_at. by rewrite filter_cons. Qed.

Lemma hits_pairs (l : list (Z * ScoredPosting)) d :
  NoDup l.*1 -> (forall k v, (k, v) ∈ l -> sp_doc_id v = k) ->
  (forall v, (d, v) ∈ l -> hits_at d l.*2 = [v]) /\ (d ∉ l.*1 -> hits_at d l.*2 = []).
Proof.
  unfold hits_at. induction l as [|[k v] l IH]; intros Hn Hk; [split; [intros v Hv; set_solver|done]|].
  rewrite fmap_cons in *. cbn [fst snd] in *. apply NoDup_cons in Hn as [Hk' Hn].
  destruct IH as [IH1 IH2]; [done|intros; apply Hk; by right|]. rewrite filter_cons.
  assert (sp_doc_id v = k) as Hv by (apply Hk; left). rewrite Hv. split.
  - intros v' Hin. apply elem_of_cons in Hin as [[= <- <-]|Hin].
    + rewrite decide_True by done. by rewrite IH2.
    + rewrite decide_False; [by apply IH1|]. intros ->. destruct Hk'. apply list_elem_of_fmap. by exists (d, v').
  - intros Hd. rewrite decide_False by set_solver. apply IH2. set_solver.
Qed.

(** One hit per document. *)
Lemma into_values_hits m d : keyed m -> hits_at d (into_values m) = option_list (m !! d).
Proof.
  intros Hk. destruct (hits_pairs (map_to_list m) d) as [H1 H2].
  - apply NoDup_fst_map_to_list.
  - intros k v Hin. apply elem_of_map_to_list in Hin. by apply (Hk k v).
  - unfold into_values. destruct (m !! d) as [v|] eqn:E.
    + by apply H1, elem_of_map_to_list.
    + apply H2. intros Hin. apply list_elem_of_fmap in Hin as ([k v] & -> & Hin). apply elem_of_map_to_list in Hin. cbn in E. congruence.
Qed.

(** A step that changes only the entry of its hit. *)
Definition local_step (step : gmap Z ScoredPosting -> ScoredPosting -> gmap Z ScoredPosting) f : Prop :=
  forall m hit d, step m hit !! d = if decide (sp_doc_id hit = d) then join f (m !! d) hit else m !! d.

Lemma add_hit_local : local_step add_hit add_scores.
Proof.
  intros m hit d. unfold add_hit, join. case_decide as Hd; subst.
  - destruct (m !! sp_doc_id hit); by rewrite lookup_insert_eq.
  - destruct (m !! sp_doc_id hit); by rewrite lookup_insert_ne.
Qed.

Lemma best_form_local : local_step best_form better_form.
Proof.
  intros m hit d. unfold best_form, join, better_form. case_decide as Hd; subst.
  - destruct (m !! sp_doc_id hit) as [cur|] eqn:E; [|by rewrite lookup_insert_eq]. case_match; [by rewrite lookup_insert_eq|done].
  - destruct (m !! sp_doc_id hit); [case_match; [by rewrite lookup_insert_ne|done]|by rewrite lookup_insert_ne].
Qed.

Lemma fold_local step f l m d :
  local_step step f -> fold_left step l m !! d = fold_left (join f) (hits_at d l) (m !! d).
Proof.
  intros Hs. revert m. induction l as [|hit l IH]; intros m; [done|]. cbn [fold_left]. rewrite IH, Hs, hits_at_cons. by case_decide.
Qed.

Lemma fold_local_opt step f l m d o :
  local_step step f -> hits_at d l = option_list o -> fold_left step l m !! d = join_opt f (m !! d) o.
Proof. intros Hs Ho. rewrite (fold_local step f) by done. rewrite Ho. by destruct o. Qed.

(** A loop over lists of hits, one list per item. *)
Lemma fold_lists {A} (step : gmap Z ScoredPosting -> A -> gmap Z ScoredPosting) f (hit : A -> option ScoredPosting) l m d :
  (forall m x, x ∈ l -> step m x !! d = join_opt f (m !! d) (hit x)) ->
  fold_left step l m !! d = fold_left (fun acc x => join_opt f acc (hit x)) l (m !! d).
Proof.
  revert m. induction l as [|x l IH]; intros m Hs; [done|]. cbn. rewrite IH; [by rewrite Hs by left|].
  intros m' y Hy. apply Hs. by right.
Qed.

Lemma fold_keyed_only {A} (step : gmap Z ScoredPosting -> A -> gmap Z ScoredPosting) l m :
  (forall m x, x ∈ l -> keyed m -> keyed (step m x)) -> keyed m -> keyed (fold_left step l m).
Proof.
  revert m. induction l as [|x l IH]; intros m Hs Hm; [done|]. cbn. apply IH; [|apply Hs; [left|done]].
  intros m' y Hy. apply Hs. by right.
Qed.

(** ** Hits that differ only in their scores *)

(** A hit of [d] as scoring a word makes it. *)
Definition plain_hit (d : DocId) (h : ScoredPosting) : Prop := sp_doc_id h = d /\ sp_density h = f32_one /\ 0 <= sp_score h.

Lemma add_scores_plain d a b : plain_hit d a -> plain_hit d b -> plain_hit d (add_scores a b).
Proof. unfold plain_hit, add_scores, saturating_add, u_max. cbn. intros (? & ? & ?) (? & ? & ?). split_and!; [done..|lia]. Qed.

Lemma sat_usize_assoc a b c : sat_usize (sat_usize a b) c = sat_usize (sat_usize a c) b.
Proof. unfold sat_usize, saturating_add, u_max. apply (f_equal Z.to_nat). rewrite !Z2Nat.id; lia. Qed.
Lemma sat_usize_comm a b : sat_usize a b = sat_usize b a.
Proof. unfold sat_usize, saturating_add. by rewrite Z.add_comm. Qed.

Lemma add_scores_swap d a b c : plain_hit d a -> plain_hit d b -> plain_hit d c -> add_scores (add_scores a b) c = add_scores (add_scores a c) b.
Proof.
  intros (_ & _ & Ha) (_ & _ & Hb) (_ & _ & Hc). unfold add_scores. cbn. f_equal; [|apply sat_usize_assoc].
  unfold saturating_add, u_max. lia.
Qed.
Lemma add_scores_comm d a b : plain_hit d a -> plain_hit d b -> add_scores a b = add_scores b a.
Proof.
  intros (Ha1 & Ha2 & Ha) (Hb1 & Hb2 & Hb). unfold add_scores. rewrite Ha1, Ha2, Hb1, Hb2, sat_usize_comm. f_equal.
  unfold saturating_add. by rewrite Z.add_comm.
Qed.

(** The order in which the hits of a document are added does not matter. *)
Lemma fold_plus_perm d l1 l2 acc :
  l1 ≡ₚ l2 -> Forall (plain_hit d) l1 -> (forall a, acc = Some a -> plain_hit d a) ->
  fold_left (join add_scores) l1 acc = fold_left (join add_scores) l2 acc.
Proof.
  intros Hp. revert acc. induction Hp as [|x l1 l2 Hp IH|x y l|l1 l2 l3 H1 IH1 H2 IH2]; intros acc Hl Hacc.
  - done.
  - apply Forall_cons in Hl as [Hx Hl]. cbn. apply IH; [done|]. intros a [= <-].
    destruct acc as [a|]; [apply add_scores_plain; auto|done].
  - apply Forall_cons in Hl as [Hy Hl]. apply Forall_cons in Hl as [Hx Hl]. cbn. f_equal. unfold join.
    destruct acc as [a|]; f_equal; [eapply add_scores_swap; eauto|by eapply add_scores_comm].
  - rewrite IH1 by done. apply IH2; [|done]. by rewrite <-H1.
Qed.

Lemma join_plain d acc hit :
  (forall a, acc = Some a -> plain_hit d a) -> (forall a, hit = Some a -> plain_hit d a) ->
  forall a, join_opt add_scores acc hit = Some a -> plain_hit d a.
Proof.
  intros Ha Hh a. unfold join_opt, join. destruct hit as [h|]; [|by apply Ha]. intros [= <-].
  destruct acc as [a|]; [|by apply Hh]. by apply add_scores_plain; [apply Ha|apply Hh].
Qed.
Lemma better_form_plain d acc hit :
  (forall a, acc = Some a -> plain_hit d a) -> (forall a, hit = Some a -> plain_hit d a) ->
  forall a, join_opt better_form acc hit = Some a -> plain_hit d a.
Proof.
  intros Ha Hh a. unfold join_opt, join, better_form. destruct hit as [h|]; [|by apply Ha]. intros [= <-].
  destruct acc as [a|]; [|by apply Hh]. case_match; auto.
Qed.
Lemma fold_plain {A} d f (hit : A -> option ScoredPosting) l acc :
  (forall acc hit, (forall a, acc = Some a -> plain_hit d a) -> (forall a, hit = Some a -> plain_hit d a) ->
    forall a, join_opt f acc hit = Some a -> plain_hit d a) ->
  (forall x a, x ∈ l -> hit x = Some a -> plain_hit d a) -> (forall a, acc = Some a -> plain_hit d a) ->
  forall a, fold_left (fun acc x => join_opt f acc (hit x)) l acc = Some a -> plain_hit d a.
Proof.
  intros Hf. revert acc. induction l as [|x l IH]; intros acc Hl Hacc; [done|]. cbn. apply IH.
  - intros y a Hy. apply Hl. by right.
  - apply Hf; [done|]. intros a. apply Hl. left.
Qed.

(** ** Combining lists of hits *)

(** A hit of every part, added. *)
Definition all_hits (hits : list (option ScoredPosting)) : option ScoredPosting :=
  match mapM (fun h => h) hits with Some hits => fold_left (join add_scores) hits None | None => None end.

Definition hit_of (d : DocId) (scored : list ScoredPosting) : option ScoredPosting := head (hits_at d scored).

Lemma fold_join_omap {A} f (hit : A -> option ScoredPosting) l acc :
  fold_left (fun acc x => join_opt f acc (hit x)) l acc = fold_left (join f) (omap hit l) acc.
Proof. revert acc. induction l as [|x l IH]; intros acc; [done|]. cbn. rewrite IH. by destruct (hit x). Qed.

Lemma hits_docs d s : d ∈ scored_docs s <-> hits_at d s <> [].
Proof.
  unfold scored_docs. rewrite elem_of_list_to_set, list_elem_of_fmap. unfold hits_at. split.
  - intros (h & -> & Hh) Hn. assert (h ∈ filter (fun h' => sp_doc_id h' = sp_doc_id h) s) as Hin by (by apply list_elem_of_filter).
    rewrite Hn in Hin. by apply elem_of_nil in Hin.
  - intros Hn. destruct (filter _ s) as [|h hs] eqn:E; [done|]. exists h.
    assert (h ∈ filter (fun h => sp_doc_id h = d) s) as Hin by (rewrite E; left). apply list_elem_of_filter in Hin as [<- Hin]. done.
Qed.

Lemma fold_left_fmap {A B C} (f : C -> B -> C) (g : A -> B) l c : fold_left (fun c x => f c (g x)) l c = fold_left f (map g l) c.
Proof. revert c. induction l as [|x l IH]; intros c; [done|]. apply IH. Qed.

Section parts.
Context {A : Type} (d : DocId) (hit : A -> option ScoredPosting).
Definition part_ok (p : A) (s : list ScoredPosting) : Prop := hits_at d s = option_list (hit p).

Lemma part_hit p s : part_ok p s -> hit_of d s = hit p.
Proof. unfold part_ok, hit_of. intros ->. by destruct (hit p). Qed.
Lemma parts_hits parts ss : Forall2 part_ok parts ss -> omap (hit_of d) ss = omap hit parts.
Proof. induction 1 as [|p s parts ss Hp _ IH]; [done|]. cbn. by rewrite IH, (part_hit _ _ Hp). Qed.
Lemma part_docs p s : part_ok p s -> d ∈ scored_docs s <-> is_Some (hit p).
Proof. intros Hp. rewrite hits_docs, Hp. destruct (hit p); cbn; split; try done; intros []; done. Qed.

Lemma union_hits parts ss :
  Forall2 part_ok parts ss ->
  hits_at d (score_union (map Scored ss)) = option_list (fold_left (fun acc p => join_opt add_scores acc (hit p)) parts None).
Proof.
  intros H2. unfold score_union.
  assert (Hf : forall m, fold_left (fun by_doc o => match o with Scored scored => fold_left add_hit scored by_doc | Docs _ => by_doc end)
    (map Scored ss) m = fold_left (fun by_doc scored => fold_left add_hit scored by_doc) ss m).
  { clear H2. induction ss as [|s ss IH]; intros m; [done|]. cbn. apply IH. }
  rewrite Hf, into_values_hits.
  - rewrite (fold_lists _ add_scores (hit_of d)), lookup_empty, !fold_join_omap, (parts_hits _ _ H2); [done|].
    intros m s Hs. apply fold_local_opt; [apply add_hit_local|]. apply list_elem_of_lookup in Hs as [i Hi].
    destruct (Forall2_lookup_r _ _ _ _ _ H2 Hi) as (p & _ & Hp). by rewrite (part_hit _ _ Hp).
  - apply fold_keyed_only; [|apply keyed_empty]. intros m s _ Hm. apply fold_keyed_only; [|done].
    intros m' h _ Hm'. by apply add_hit_keyed.
Qed.

(** The hits of the documents all parts share. *)
Lemma keep_local (cands : gset Z) s m :
  fold_left (fun by_doc h => if bool_decide (sp_doc_id h ∈ cands) then add_hit by_doc h else by_doc) s m !! d =
  if decide (d ∈ cands) then fold_left (join add_scores) (hits_at d s) (m !! d) else m !! d.
Proof.
  revert m. induction s as [|h s IH]; intros m; [by case_decide|]. cbn [fold_left]. rewrite IH, hits_at_cons.
  case_bool_decide as Hc; [rewrite add_hit_local|]; repeat case_decide; subst; done.
Qed.

Lemma all_hits_some parts :
  all_hits (map hit parts) = if decide (Forall (fun p => is_Some (hit p)) parts) then fold_left (join add_scores) (omap hit parts) None else None.
Proof.
  unfold all_hits. destruct (mapM (fun h => h) (map hit parts)) as [hs|] eqn:E.
  - apply mapM_Some in E. assert (Forall (fun p => is_Some (hit p)) parts /\ omap hit parts = hs) as [Hall <-].
    { revert hs E. induction parts as [|p parts IH]; intros hs E; inversion E as [|? h ? hs' Hh E']; subst; [by split|].
      cbn in Hh. destruct (IH _ E') as [H1 H2]. split; [constructor; [by eexists|done]|]. cbn. by rewrite Hh, H2. }
    by rewrite decide_True.
  - rewrite decide_False; [done|]. intros Hall. apply mapM_None_1 in E. apply Exists_exists in E as (o & Ho & Hn).
    apply list_elem_of_fmap in Ho as (p & -> & Hp). apply (proj1 (Forall_forall _ _) Hall) in Hp as [? ?]. congruence.
Qed.

Lemma and_hits parts ss :
  Forall2 part_ok parts ss -> (forall p a, p ∈ parts -> hit p = Some a -> plain_hit d a) ->
  hits_at d (score_and (map Scored ss)) = option_list (all_hits (map hit parts)).
Proof.
  intros H2 Hplain. rewrite all_hits_some. unfold score_and. rewrite scored_parts_all.
  assert (Hall : Forall (fun s => d ∈ scored_docs s) ss <-> Forall (fun p => is_Some (hit p)) parts).
  { clear Hplain. induction H2 as [|p s parts ss Hp _ IH]; [by split; constructor|]. by rewrite !Forall_cons, IH, (part_docs _ _ Hp). }
  destruct (decide (Forall (fun s => s <> []) ss)) as [Hne|Hne].
  2:{ rewrite decide_False; [done|]. rewrite <-Hall. intros Hd. destruct Hne. eapply Forall_impl; [exact Hd|].
      intros s Hs ->. by apply scored_docs_nil in Hs. }
  destruct ss as [|s0 ss0]; [inversion H2; subst; by rewrite decide_True by constructor|].
  set (sorted := stable_sort _ (s0 :: ss0)). assert (Hp : sorted ≡ₚ s0 :: ss0) by apply stable_sort_perm.
  assert (Hspec : d ∈ shared_docs sorted <-> Forall (fun p => is_Some (hit p)) parts).
  { assert (Hsame : Forall (fun s => d ∈ scored_docs s) sorted <-> Forall (fun s => d ∈ scored_docs s) (s0 :: ss0)) by (by rewrite Hp).
    rewrite shared_docs_spec, <-Hall, Hsame. split; [by intros [_ ?]|]. split; [|done]. intros Hn. rewrite Hn in Hp.
    by apply Permutation_nil_cons in Hp. }
  case_bool_decide as He.
  { rewrite decide_False; [done|]. rewrite <-Hspec, He. apply not_elem_of_empty. }
  rewrite into_values_hits.
  2:{ apply fold_keyed_only; [|apply keyed_empty]. intros m s _ Hm. apply fold_keyed_only; [|done].
      intros m' h _ Hm'. case_bool_decide; [by apply add_hit_keyed|done]. }
  f_equal. destruct (decide (d ∈ shared_docs sorted)) as [Hd|Hd].
  - rewrite (fold_lists _ add_scores (hit_of d)).
    + rewrite decide_True by (by apply Hspec). rewrite lookup_empty, fold_join_omap. apply fold_plus_perm with d; [|..|done].
      * rewrite Hp. by rewrite (parts_hits _ _ H2).
      * rewrite Hp, (parts_hits _ _ H2). apply Forall_forall. intros h Hh. apply list_elem_of_omap in Hh as (p & Hin & Hh).
        by apply Hplain with p.
    + intros m s Hs. rewrite keep_local, decide_True by done. rewrite Hp in Hs. apply list_elem_of_lookup in Hs as [i Hi].
      destruct (Forall2_lookup_r _ _ _ _ _ H2 Hi) as (p & _ & Hps). rewrite (part_hit _ _ Hps), Hps. by destruct (hit p).
  - rewrite decide_False by (by rewrite <-Hspec).
    rewrite (fold_lists _ add_scores (fun _ => None)); [|intros m s _; by rewrite keep_local, decide_False].
    rewrite lookup_empty, fold_join_omap. replace (omap (fun _ => None) sorted) with (@nil ScoredPosting); [done|].
    clear. by induction sorted.
Qed.

(** The best weighted form. *)
Lemma best_hits (forms : list A) (scored : list (list ScoredPosting * Z)) :
  Forall2 (fun form f => hit form =
    (fun h => with_score h (saturating_mul 64 (sp_score h) f.2 / 1000)) <$> hit_of d f.1 /\ hits_at d f.1 = option_list (hit_of d f.1)) forms scored ->
  hits_at d (best_forms scored) = option_list (fold_left (fun best form => join_opt better_form best (hit form)) forms None).
Proof.
  intros H2. unfold best_forms. rewrite into_values_hits.
  - f_equal. rewrite <-(lookup_empty (M := gmap Z) d). generalize (∅ : gmap Z ScoredPosting) as m.
    induction H2 as [|form f forms scored [Hh Hone] _ IH]; intros m; [done|]. cbn [fold_left]. rewrite IH. f_equal.
    rewrite (fold_left_fmap best_form (fun h => with_score h (saturating_mul 64 (sp_score h) f.2 / 1000))).
    apply fold_local_opt; [apply best_form_local|]. rewrite Hh.
    trans (map (fun h => with_score h (saturating_mul 64 (sp_score h) f.2 / 1000)) (hits_at d f.1)).
    + clear. unfold hits_at. induction f.1 as [|h l IH]; [done|]. cbn [map]. rewrite !filter_cons. cbn [sp_doc_id with_score].
      case_decide; cbn [map]; by rewrite IH.
    + rewrite Hone. by destruct (hit_of d f.1).
  - apply fold_keyed_only; [|apply keyed_empty]. intros m f _ Hm. apply fold_keyed_only; [|done].
    intros m' h _ Hm'. by apply best_form_keyed.
Qed.
End parts.

(** ** The hit of one document *)

Section doc_score.
Context {I : Type} {SI : SearchIndex I} {LN : Ln} {LG : Log10} {CT : CaseTables}.
Context (self : QueryExecutor I).

Definition posting_hit (x : XPathId) (doc_freq : Z) (p : Posting) : option ScoredPosting :=
  if (length (positions p) =? 0)%nat then None
  else Some (mkScored (doc_id p)
    (posting_score (stats self) x doc_freq (f32_to_u 32 (f32_of (doc_len_or_avg (stats self) (doc_id p) x))) p) 1 f32_one).

(** A leaf in one field. *)
Definition leaf_hit (q : Query) (floor : option Z) (ctx : FieldCtx) (d : DocId) : option ScoredPosting :=
  leaf ← read_leaf self q ctx;
  p ← posting_of d (items (lf_postings leaf));
  let own := leaf_doc_freq self (lf_xpath leaf) (lf_key leaf) (zlen (items (lf_postings leaf))) in
  posting_hit (lf_xpath leaf) (match floor with Some floor => Z.max own floor | None => own end) p.
(** A leaf in all fields. *)
Definition doc_leaf (q : Query) (ctxs : list FieldCtx) (floors : list (option Z)) (d : DocId) : option ScoredPosting :=
  fold_left (fun acc e => join_opt add_scores acc (leaf_hit q (mjoin (floors !! e.1)) e.2 d)) (imap pair ctxs) None.

(** The words of a phrase, for a document that has the phrase in some field. *)
Definition word_hit (term : PhraseTerm) (ctx : FieldCtx) (d : DocId) : option ScoredPosting :=
  let '(l, doc_freq) := fetch_term_list self (pt_text term) (cx_xpath ctx) in
  p ← posting_of d (items l); posting_hit (cx_xpath ctx) doc_freq p.
Definition has_phrase (terms : list PhraseTerm) (ctx : FieldCtx) (d : DocId) : bool :=
  bool_decide (is_Some (posting_of d (items (execute_phrase self terms (cx_xpath ctx))))).
Definition doc_words (terms : list PhraseTerm) (ctxs : list FieldCtx) (d : DocId) : option ScoredPosting :=
  if existsb (fun ctx => has_phrase terms ctx d) ctxs
  then fold_left (fun acc e => join_opt add_scores acc (word_hit e.2 e.1 d)) (ctx ← ctxs; term ← terms; [(ctx, term)]) None
  else None.

Definition form_hit (own : option ScoredPosting) (floors : list (option Z)) (ctxs : list FieldCtx) (form : Alternative Query) (d : DocId)
    : option ScoredPosting :=
  (fun h => with_score h (saturating_mul 64 (sp_score h) (alt_weight form) / 1000)) <$>
  match alt_query form with
  | QTerm _ as q => doc_leaf q ctxs floors d
  | QPhrase terms => doc_words terms ctxs d
  | _ => own
  end.

Fixpoint doc_score (q : Query) (ctxs : list FieldCtx) (d : DocId) : option ScoredPosting :=
  match q with
  | QTerm _ | QPrefix _ | QWildcard _ | QPhrase _ | QExact _ => doc_leaf q ctxs [] d
  | QWand parts | QOr parts => fold_left (fun acc part => join_opt add_scores acc (doc_score part ctxs d)) parts None
  | QAnd parts => all_hits (map (fun part => doc_score part ctxs d) parts)
  | QSynonym forms =>
    fold_left (fun best form =>
      join_opt better_form best (form_hit (doc_score (alt_query form) ctxs d) (typed_doc_freqs self forms ctxs) ctxs form d)) forms None
  | _ => None
  end.

(** ** Scoring a list *)

Definition lens_ok (x : XPathId) (lens : gmap DocId f32) : Prop :=
  map_Forall (fun d len => len = f32_of (doc_len_or_avg (stats self) d x)) lens.

Lemma score_posting_hits x df l lens out d :
  lens_ok x lens ->
  let st := fold_left (score_posting (stats self) x df) l (lens, out) in
  lens_ok x st.1 /\ hits_at d st.2 = hits_at d out ++ omap (posting_hit x df) (filter (fun p => doc_id p = d) l).
Proof using Type.
  revert lens out. induction l as [|p l IH]; intros lens out Hl; [by rewrite app_nil_r|]. cbn [fold_left].
  unfold score_posting at 2 4. destruct (length (positions p) =? 0)%nat eqn:Ez.
  - destruct (IH lens out Hl) as [H1 H2]. split; [done|]. rewrite H2, filter_cons. case_decide; [|done]. cbn. unfold posting_hit. by rewrite Ez.
  - set (dl := default _ (lens !! doc_id p)).
    assert (Hdl : dl = f32_of (doc_len_or_avg (stats self) (doc_id p) x)).
    { unfold dl. destruct (lens !! doc_id p) as [len|] eqn:E; [|done]. by apply (Hl _ _ E). }
    match goal with |- context [fold_left _ l (?a, ?b)] => destruct (IH a b) as [H1 H2] end; [by apply map_Forall_insert_2|].
    split; [done|]. rewrite H2. unfold hits_at. rewrite filter_app, <-app_assoc, !filter_cons, filter_nil. cbn [sp_doc_id]. f_equal.
    case_decide; [|done]. cbn [omap list_omap app]. unfold posting_hit at 2. by rewrite Ez, Hdl.
Qed.

Lemma score_term_hits x df l lens d :
  lens_ok x lens -> docs_ascending (items l) ->
  let st := score_term_into (stats self) l x df lens [] in
  lens_ok x st.1 /\ hits_at d st.2 = option_list (posting_of d (items l) ≫= posting_hit x df).
Proof using Type.
  intros Hl Ha st. destruct (score_posting_hits x df (items l) lens [] d Hl) as [H1 H2]. split; [done|].
  etransitivity; [apply H2|]. rewrite ascending_filter_eq by done. cbn. destruct (posting_of d (items l)) as [p|]; [|done].
  cbn. by destruct (posting_hit x df p).
Qed.
End doc_score.

Section rank_hits.
Context {I : Type} {SI : SearchIndex I} {LN : Ln} {LG : Log10} {CT : CaseTables}.
Context (index : I) (analyzer : Analyzer) (corpus : option CorpusStats).
Context {Laws : IndexLaws index}.
Context (ctxs : list FieldCtx) (Hplain : Forall (fun ctx => cx_row_keyed ctx = false) ctxs).
Local Abbreviation self := (mkExecutor index analyzer corpus None).

Lemma phrase_list_ascending terms x : docs_ascending (items (execute_phrase self terms x)).
Proof using Laws.
  unfold execute_phrase. destruct terms as [|t ts]; [constructor|]. rewrite fmap_cons, phrase_list_spec.
  - apply filter_ascending, il_words.
  - constructor; [apply il_words|]. apply Forall_fmap, Forall_forall. intros u _. apply il_words.
Qed.

Lemma read_leaf_ascending q ctx leaf : read_leaf self q ctx = Some leaf -> docs_ascending (items (lf_postings leaf)).
Proof using Laws.
  assert (Hnil : docs_ascending (items PostingList_new)) by constructor.
  unfold read_leaf. intros Hl. destruct q as [v|v|v| | | |ts|v| | | | | |]; cbn in Hl; simplify_eq; cbn [lf_postings].
  - destruct v; [done|]. apply il_words.
  - destruct v; [done|]. apply il_prefix.
  - apply il_wildcard.
  - apply phrase_list_ascending.
  - unfold execute_exact. destruct (split_whitespace _) as [|w [|]]; [done|apply il_words..].
Qed.

Lemma lens_empty x : lens_ok self x ∅.
Proof using Type. apply map_Forall_empty. Qed.

Lemma leaf_field_step q floor ctx m d :
  cx_row_keyed ctx = false ->
  (keyed m -> keyed (score_leaf_field self q floor ctx m)) /\
  score_leaf_field self q floor ctx m !! d = join_opt add_scores (m !! d) (leaf_hit self q floor ctx d).
Proof using Laws.
  intros Hc. unfold score_leaf_field, leaf_hit. destruct (read_leaf self q ctx) as [leaf|] eqn:El; [|done]. cbn [mbind option_bind].
  set (df := match floor with Some floor => Z.max _ floor | None => _ end). unfold fold_to_doc. rewrite Hc.
  rewrite (fold_left_ext_in _ add_hit) by (intros acc hit _; by destruct hit). split.
  - intros Hm. apply fold_keyed_only; [|done]. intros m' hit _ Hm'. by apply add_hit_keyed.
  - apply fold_local_opt; [apply add_hit_local|].
    destruct (score_term_hits self (lf_xpath leaf) df (lf_postings leaf) ∅ d (lens_empty _)) as [_ ->]; [by eapply read_leaf_ascending|].
    done.
Qed.

Lemma score_leaf_hits q floors d : hits_at d (score_leaf self q ctxs floors) = option_list (doc_leaf self q ctxs floors d).
Proof using Hplain Laws.
  assert (Hc : forall e, e ∈ imap pair ctxs -> cx_row_keyed e.2 = false).
  { intros e He. apply elem_of_lookup_imap in He as (j & ctx & -> & Hj). cbn. by apply (Forall_lookup_1 _ _ _ _ Hplain Hj). }
  unfold score_leaf, doc_leaf. rewrite into_values_hits.
  - rewrite (fold_lists _ add_scores (fun e => leaf_hit self q (mjoin (floors !! e.1)) e.2 d)); [done|].
    intros m e He. apply leaf_field_step. by apply Hc.
  - apply fold_keyed_only; [|apply keyed_empty]. intros m e He Hm. apply (leaf_field_step _ _ _ m d); [by apply Hc|done].
Qed.

(** The words of one field. *)
Lemma words_field_step matched terms m ctx d :
  StronglySorted Z.lt matched ->
  (keyed m -> keyed (score_words_field self matched terms m ctx)) /\
  score_words_field self matched terms m ctx !! d =
    if decide (d ∈ matched) then fold_left (fun acc t => join_opt add_scores acc (word_hit self t ctx d)) terms (m !! d) else m !! d.
Proof using Laws.
  intros Hsorted. unfold score_words_field. generalize (lens_empty (cx_xpath ctx)). generalize (∅ : gmap DocId f32) as lens.
  revert m. induction terms as [|t terms IH]; intros m lens Hlens; [by case_decide|]. cbn [fold_left].
  set (l := ix_lookup index (pt_text t) (cx_xpath ctx)). set (df := (fetch_term_list self (pt_text t) (cx_xpath ctx)).2).
  change (fetch_term_list self (pt_text t) (cx_xpath ctx)) with (l, df). cbn [fst snd].
  assert (Hw : word_hit self t ctx d = posting_of d (items l) ≫= posting_hit self (cx_xpath ctx) df) by done. rewrite Hw.
  assert (Ha : docs_ascending (items (postings_of l matched))).
  { rewrite postings_of_spec; [|apply il_words|done]. apply filter_ascending, il_words. }
  destruct (score_term_hits self (cx_xpath ctx) df _ lens d Hlens Ha) as [Hl1 Hl2].
  destruct (score_term_into _ _ _ _ _ _) as [lens' scored]. cbn [fst snd] in *.
  destruct (IH (fold_left add_hit scored m) lens' Hl1) as [IH1 IH2]. split.
  - intros Hm. apply IH1, fold_keyed_only; [|done]. intros m' hit _ Hm'. by apply add_hit_keyed.
  - rewrite IH2, (fold_local_opt _ add_scores _ _ _ _ add_hit_local Hl2), postings_of_spec; [|apply il_words|done].
    pose proof (posting_of_filter (fun d : Z => d ∈ matched) d (items l)) as Hf. rewrite Hf. by case_decide.
Qed.

Lemma fold_left_bind {A B C} (f : C -> A * B -> C) (la : list A) (lb : list B) c :
  fold_left f (a ← la; b ← lb; [(a, b)]) c = fold_left (fun c a => fold_left (fun c b => f c (a, b)) lb c) la c.
Proof using Type.
  revert c. induction la as [|a la IH]; intros c; [done|]. cbn. rewrite fold_left_app, IH. f_equal.
  clear. revert c. induction lb as [|b lb IH]; intros c; [done|]. cbn. by rewrite IH.
Qed.

Lemma score_words_hits terms d :
  hits_at d (score_phrase_as_words self terms ctxs) = option_list (doc_words self terms ctxs d).
Proof using Hplain Laws.
  assert (Hin : existsb (fun ctx => has_phrase self terms ctx d) ctxs = bool_decide (d ∈ phrase_docs self terms ctxs)).
  { apply Bool.eq_iff_eq_true. rewrite existsb_exists, bool_decide_eq_true, phrase_docs_spec by done.
    unfold has_phrase, has_doc. setoid_rewrite bool_decide_eq_true. setoid_rewrite elem_of_docs. setoid_rewrite <-list_elem_of_In. done. }
  unfold score_phrase_as_words, doc_words. rewrite Hin, plain_all by done.
  destruct (decide (phrase_docs self terms ctxs = ∅)) as [He|He].
  { rewrite bool_decide_eq_true_2 by done. rewrite bool_decide_eq_false_2; [done|]. rewrite He. apply not_elem_of_empty. }
  rewrite bool_decide_eq_false_2 by done.
  set (matched := sort_unstable (elements (phrase_docs self terms ctxs))).
  assert (Hm : d ∈ matched <-> d ∈ phrase_docs self terms ctxs) by (unfold matched; rewrite elem_of_sort_unstable; apply elem_of_elements).
  assert (Hs : StronglySorted Z.lt matched).
  { apply sorted_nodup_lt; [apply sort_unstable_sorted|]. unfold matched, sort_unstable. rewrite sort_by_key_perm. apply NoDup_elements. }
  rewrite into_values_hits.
  2:{ apply fold_keyed_only; [|apply keyed_empty]. intros m ctx _ Hk. by apply (words_field_step _ _ _ _ d Hs). }
  f_equal. case_bool_decide as Hd.
  - rewrite fold_left_bind. cbn [fst snd].
    assert (Hf : forall l (m : gmap Z ScoredPosting), fold_left (score_words_field self matched terms) l m !! d =
      fold_left (fun acc ctx => fold_left (fun acc t => join_opt add_scores acc (word_hit self t ctx d)) terms acc) l (m !! d)).
    { induction l as [|ctx l IH]; intros m; [done|]. cbn. rewrite IH. f_equal.
      rewrite (proj2 (words_field_step _ _ _ _ d Hs)), decide_True by (by apply Hm). done. }
    by rewrite Hf.
  - assert (Hf : forall l (m : gmap Z ScoredPosting), fold_left (score_words_field self matched terms) l m !! d = m !! d).
    { induction l as [|ctx l IH]; intros m; [done|]. cbn. rewrite IH.
      rewrite (proj2 (words_field_step _ _ _ _ d Hs)), decide_False by (by rewrite Hm). done. }
    by rewrite Hf.
Qed.

(** The reference's hits are of the document and not negative. *)
Lemma posting_hit_plain x df p a : posting_hit self x df p = Some a -> plain_hit (doc_id p) a.
Proof using Type.
  unfold posting_hit. case_match; [done|]. intros [= <-]. split_and!; [done..|]. cbn. unfold posting_score, bm25_score_scaled.
  apply f32_to_u_range. lia.
Qed.
Lemma leaf_hit_plain q floor ctx d a : leaf_hit self q floor ctx d = Some a -> plain_hit d a.
Proof using Type.
  unfold leaf_hit. intros (leaf & _ & H)%bind_Some. apply bind_Some in H as (p & Hp & H). apply posting_hit_plain in H.
  by apply posting_of_Some in Hp as [_ <-].
Qed.
Lemma word_hit_plain t ctx d a : word_hit self t ctx d = Some a -> plain_hit d a.
Proof using Type.
  unfold word_hit. destruct (fetch_term_list _ _ _) as [l df]. intros (p & Hp & H)%bind_Some. apply posting_hit_plain in H.
  by apply posting_of_Some in Hp as [_ <-].
Qed.
Lemma doc_leaf_plain q floors d a : doc_leaf self q ctxs floors d = Some a -> plain_hit d a.
Proof using Type. apply fold_plain; [apply join_plain| |done]. intros e b _. apply leaf_hit_plain. Qed.
Lemma doc_words_plain terms d a : doc_words self terms ctxs d = Some a -> plain_hit d a.
Proof using Type.
  unfold doc_words. case_match; [|done]. apply (fold_plain d add_scores (fun e => word_hit self e.2 e.1 d)); [apply join_plain| |done].
  intros e b _. apply word_hit_plain.
Qed.
Lemma form_hit_plain own floors form d a :
  0 <= alt_weight form -> (forall a, own = Some a -> plain_hit d a) -> form_hit self own floors ctxs form d = Some a -> plain_hit d a.
Proof using Type.
  intros Hw Ho. unfold form_hit. intros (h & Hh & ->)%fmap_Some.
  assert (plain_hit d h) as (H1 & H2 & H3).
  { destruct (alt_query form); eauto using doc_leaf_plain, doc_words_plain. }
  split_and!; [done..|]. cbn. unfold saturating_mul, u_max. apply Z.div_pos; lia.
Qed.

(** The weights of the forms are of type [u16]. *)
Fixpoint weights_ok (q : Query) : Prop :=
  match q with
  | QWand parts | QOr parts | QAnd parts => foldr (fun part rest => weights_ok part /\ rest) True parts
  | QSynonym forms => foldr (fun form rest => (in_u 16 (alt_weight form) /\ weights_ok (alt_query form)) /\ rest) True forms
  | _ => True
  end.

Lemma doc_score_plain q d : weights_ok q -> forall a, doc_score self q ctxs d = Some a -> plain_hit d a.
Proof using Type.
  induction q as [v|v|v|ps IH|ps IH|ps IH|ts|v|v f s|fs IH|r|ps IH|b|] using Query_rect'; intros Hw a; try done;
    cbn [doc_score weights_ok] in *; try apply doc_leaf_plain.
  1-3: apply (proj1 (foldr_and_Forall _ _)) in Hw; rewrite Forall_forall in IH, Hw.
  - apply fold_plain; [apply join_plain| |done]. intros p b Hp. by apply IH; [|apply Hw].
  - rewrite all_hits_some. case_decide; [|done]. rewrite <-fold_join_omap. apply fold_plain; [apply join_plain| |done].
    intros p b Hp. by apply IH; [|apply Hw].
  - apply fold_plain; [apply join_plain| |done]. intros p b Hp. by apply IH; [|apply Hw].
  - apply (proj1 (foldr_and_Forall _ _)) in Hw. rewrite Forall_forall in IH, Hw.
    apply fold_plain; [apply better_form_plain| |done]. intros form b Hf. destruct (Hw _ Hf) as [Hu Hq].
    apply form_hit_plain; [apply Hu|]. intros c. by apply IH.
Qed.

Lemma parts_scored {A} (f : A -> EvalOutcome) (hit : A -> DocId -> option ScoredPosting) parts :
  Forall (fun p => exists s, f p = Scored s /\ forall d, hits_at d s = option_list (hit p d)) parts ->
  exists ss, map f parts = map Scored ss /\ forall d, Forall2 (part_ok d (fun p => hit p d)) parts ss.
Proof using Type.
  induction 1 as [|p parts (s & Hs & Hd) _ (ss & IH1 & IH2)]; [by exists []|].
  exists (s :: ss). split; [cbn; by rewrite Hs, IH1|]. intros d. constructor; [apply Hd|apply IH2].
Qed.

Lemma hit_of_option d s o : hits_at d s = option_list o -> hit_of d s = o.
Proof using Type. unfold hit_of. intros ->. by destruct o. Qed.

(** Ranking gives the reference's hit of every document. *)
Lemma rank_hits_spec q :
  rankable q -> weights_ok q ->
  exists scored, evaluate self q ctxs Rank = Scored scored /\ forall d, hits_at d scored = option_list (doc_score self q ctxs d).
Proof using All.
  assert (Hparts : forall ps, Forall (fun q => rankable q -> weights_ok q ->
      exists scored, evaluate self q ctxs Rank = Scored scored /\ forall d, hits_at d scored = option_list (doc_score self q ctxs d)) ps ->
    foldr (fun part rest => rankable part /\ rest) True ps -> foldr (fun part rest => weights_ok part /\ rest) True ps ->
    exists ss, map (fun p => evaluate self p ctxs Rank) ps = map Scored ss /\
      forall d, Forall2 (part_ok d (fun p => doc_score self p ctxs d)) ps ss).
  { intros ps IH Hr Hw. apply (proj1 (foldr_and_Forall _ _)) in Hr. apply (proj1 (foldr_and_Forall _ _)) in Hw.
    apply (parts_scored (fun p => evaluate self p ctxs Rank) (fun p d => doc_score self p ctxs d)).
    rewrite Forall_forall in IH, Hr, Hw. apply Forall_forall. intros p Hp. apply IH; auto. }
  induction q as [v|v|v|ps IH|ps IH|ps IH|ts|v|v f s|fs IH|r|ps IH|b|] using Query_rect'; intros Hr Hw; try done;
    cbn [evaluate eval_leaf doc_score].
  1-3,7-8: eexists; split; [reflexivity|]; intros d; apply score_leaf_hits.
  - destruct (Hparts ps IH Hr Hw) as (ss & -> & H2). eexists. split; [reflexivity|]. intros d.
    by apply (union_hits d (fun p => doc_score self p ctxs d)).
  - destruct (Hparts ps IH (proj2 Hr) Hw) as (ss & -> & H2). eexists. split; [reflexivity|]. intros d.
    apply (and_hits d (fun p => doc_score self p ctxs d)); [done|]. intros p a Hp. apply doc_score_plain.
    cbn [weights_ok] in Hw. apply (proj1 (foldr_and_Forall _ _)) in Hw. by apply (proj1 (Forall_forall _ _) Hw).
  - destruct (Hparts ps IH Hr Hw) as (ss & -> & H2). eexists. split; [reflexivity|]. intros d.
    by apply (union_hits d (fun p => doc_score self p ctxs d)).
  - eexists. split; [reflexivity|]. intros d.
    apply (best_hits d (fun form => form_hit self (doc_score self (alt_query form) ctxs d) (typed_doc_freqs self fs ctxs) ctxs form d)).
    generalize (typed_doc_freqs self fs ctxs) as floors. intros floors. cbn [rankable weights_ok] in Hr, Hw.
    induction IH as [|form fs IHf IHs IH]; cbn [map foldr omap list_omap] in *; [constructor|].
    destruct Hr as [Hr Hrs], Hw as [[_ Hw] Hws]. specialize (IH Hrs Hws). destruct (IHf Hr Hw) as (scored & He & Hd).
    assert (Hform : exists sc, score_form self (evaluate self (alt_query form) ctxs Rank) floors ctxs (alt_query form) = Some sc /\
      exists o, hits_at d sc = option_list o /\ form_hit self (doc_score self (alt_query form) ctxs d) floors ctxs form d =
        (fun h => with_score h (saturating_mul 64 (sp_score h) (alt_weight form) / 1000)) <$> o).
    { rewrite He. unfold form_hit. specialize (Hd d).
      destruct (alt_query form) eqn:Eq; cbn [score_form]; try (exists scored; split; [done|]; eexists; split; [exact Hd|]; done).
      - eexists. split; [reflexivity|]. eexists. split; [apply score_leaf_hits|]. done.
      - eexists. split; [reflexivity|]. eexists. split; [apply score_words_hits|]. done. }
    destruct Hform as (sc & Hsc & o & Ho & Hf). rewrite Hsc. cbn. constructor; [|done]. cbn [fst snd].
    by rewrite (hit_of_option _ _ _ Ho).
Qed.
End rank_hits.

(** ** The shard of a document *)

(** Both indexes hold the document with the same words, positions, weights and field lengths. *)
Record same_doc {I} `{SearchIndex I} (d : DocId) (index1 index2 : I) : Prop := {
  sd_lookup t x : posting_of d (items (ix_lookup index1 t x)) = posting_of d (items (ix_lookup index2 t x));
  sd_prefix t x : posting_of d (items (ix_lookup_prefix index1 t x)) = posting_of d (items (ix_lookup_prefix index2 t x));
  sd_wildcard t x : posting_of d (items (ix_lookup_wildcard index1 t x)) = posting_of d (items (ix_lookup_wildcard index2 t x));
  sd_len x : ix_doc_len index1 d x = ix_doc_len index2 d x
}.

(** The merged statistics hold the totals of the field and the frequency of the leaf. *)
Definition knows (c : CorpusStats) (x : XPathId) (key : LeafKey) : Prop := is_Some (cs_field c x) /\ is_Some (cs_doc_freq c x key).
Definition knows_leaf (c : CorpusStats) (q : Query) (ctx : FieldCtx) : Prop :=
  match leaf_key q ctx with Some (key, x) => knows c x key | None => True end.
Fixpoint knows_query (c : CorpusStats) (q : Query) (ctxs : list FieldCtx) : Prop :=
  match q with
  | QPhrase terms =>
    Forall (fun ctx => knows_leaf c q ctx /\ Forall (fun t => knows c (cx_xpath ctx) (KTerm (pt_text t))) terms) ctxs
  | QWand parts | QOr parts | QAnd parts => foldr (fun part rest => knows_query c part ctxs /\ rest) True parts
  | QSynonym forms => foldr (fun form rest => knows_query c (alt_query form) ctxs /\ rest) True forms
  | _ => Forall (knows_leaf c q) ctxs
  end.

Section shards.
Context {I : Type} {SI : SearchIndex I} {LN : Ln} {LG : Log10} {CT : CaseTables}.
Context (index1 index2 : I) (analyzer : Analyzer) (c : CorpusStats).
Context {Laws1 : IndexLaws index1} {Laws2 : IndexLaws index2}.
Context (ctxs : list FieldCtx) (d : DocId) (Hsame : same_doc d index1 index2).
Local Abbreviation one := (mkExecutor index1 analyzer (Some c) None).
Local Abbreviation two := (mkExecutor index2 analyzer (Some c) None).

Lemma posting_hit_same x df p :
  is_Some (cs_field c x) -> doc_id p = d -> posting_hit one x df p = posting_hit two x df p.
Proof using Hsame.
  intros [totals Ht] Hd. unfold posting_hit. case_match; [done|].
  assert (Ha : avg_doc_len (stats one) x = avg_doc_len (stats two) x).
  { unfold avg_doc_len, stats, scoring_stats. cbn. by rewrite Ht. }
  assert (Hl : doc_len_or_avg (stats one) (doc_id p) x = doc_len_or_avg (stats two) (doc_id p) x).
  { unfold doc_len_or_avg. rewrite Ha. unfold stats, scoring_stats. cbn. by rewrite Hd, (sd_len _ _ _ Hsame). }
  rewrite Hl. unfold posting_score. rewrite Ha. unfold stats, scoring_stats. cbn. by rewrite Ht.
Qed.

Lemma phrase_same terms x :
  posting_of d (items (execute_phrase one terms x)) = posting_of d (items (execute_phrase two terms x)).
Proof using All.
  unfold execute_phrase. destruct terms as [|t terms]; [done|]. rewrite !fmap_cons.
  assert (Hok : forall (index : I) (L : IndexLaws index), Forall (fun l => docs_ascending (items l))
    ((fetch_term_list (mkExecutor index analyzer (Some c) None) (pt_text t) x).1 ::
     ((fun t => (fetch_term_list (mkExecutor index analyzer (Some c) None) (pt_text t) x).1) <$> terms))).
  { intros index L. constructor; [apply il_words|]. apply Forall_fmap, Forall_forall. intros u _. apply il_words. }
  rewrite !phrase_list_spec by (by apply Hok).
  pose proof (posting_of_filter (fun d => phrase_in ((fetch_term_list one (pt_text t) x).1 ::
    ((fun t => (fetch_term_list one (pt_text t) x).1) <$> terms)) (pt_offset t :: (pt_offset <$> terms)) d = true) d) as ->.
  pose proof (posting_of_filter (fun d => phrase_in ((fetch_term_list two (pt_text t) x).1 ::
    ((fun t => (fetch_term_list two (pt_text t) x).1) <$> terms)) (pt_offset t :: (pt_offset <$> terms)) d = true) d) as ->.
  assert (Hlists : forall ts, mapM (fun l => posting_of d (items l)) ((fun t => (fetch_term_list one (pt_text t) x).1) <$> ts) =
    mapM (fun l => posting_of d (items l)) ((fun t => (fetch_term_list two (pt_text t) x).1) <$> ts)).
  { induction ts as [|u ts IH]; [done|]. rewrite !fmap_cons. cbn [mapM]. by rewrite IH, !fetch_term_plain, (sd_lookup _ _ _ Hsame). }
  unfold phrase_in. specialize (Hlists (t :: terms)). rewrite !fmap_cons in Hlists. rewrite Hlists.
  by rewrite !fetch_term_plain, (sd_lookup _ _ _ Hsame).
Qed.

Lemma fetch_leaf_same q x : posting_of d (items (fetch_leaf one q x)) = posting_of d (items (fetch_leaf two q x)).
Proof using All.
  destruct q as [v|v|v| | | |ts|v| | | | | |]; try done; cbn [fetch_leaf].
  - destruct v; [done|]. apply (sd_lookup _ _ _ Hsame).
  - destruct v; [done|]. apply (sd_prefix _ _ _ Hsame).
  - apply (sd_wildcard _ _ _ Hsame).
  - apply phrase_same.
  - unfold execute_exact. destruct (split_whitespace _) as [|w [|]]; [done|apply (sd_lookup _ _ _ Hsame)..].
Qed.

Lemma known_freq x key l1 l2 : knows c x key -> leaf_doc_freq one x key l1 = leaf_doc_freq two x key l2.
Proof using Type. intros [_ [df Hdf]]. unfold leaf_doc_freq. cbn. by rewrite Hdf. Qed.

Lemma leaf_hit_same q floor ctx : knows_leaf c q ctx -> leaf_hit one q floor ctx d = leaf_hit two q floor ctx d.
Proof using All.
  unfold knows_leaf, leaf_hit, read_leaf. destruct (leaf_key q ctx) as [[key x]|]; [|done]. intros Hk.
  cbn [mbind option_bind qe_prepared lf_postings lf_xpath lf_key]. rewrite fetch_leaf_same.
  destruct (posting_of d (items (fetch_leaf two q x))) as [p|] eqn:E; [|done].
  rewrite (known_freq x key _ (zlen (items (fetch_leaf two q x)))) by done.
  apply posting_hit_same; [apply Hk|]. by apply posting_of_Some in E as [_ ?].
Qed.

Lemma doc_leaf_same q floors : Forall (knows_leaf c q) ctxs -> doc_leaf one q ctxs floors d = doc_leaf two q ctxs floors d.
Proof using All.
  intros Hk. unfold doc_leaf. apply fold_left_ext_in. intros acc e He. apply elem_of_lookup_imap in He as (j & ctx & -> & Hj).
  cbn [fst snd]. by rewrite leaf_hit_same by (by apply (Forall_lookup_1 _ _ _ _ Hk Hj)).
Qed.

Lemma doc_words_same terms :
  Forall (fun ctx => Forall (fun t => knows c (cx_xpath ctx) (KTerm (pt_text t))) terms) ctxs ->
  doc_words one terms ctxs d = doc_words two terms ctxs d.
Proof using All.
  intros Hk. unfold doc_words.
  assert (Hh : forall l, existsb (fun ctx => has_phrase one terms ctx d) l = existsb (fun ctx => has_phrase two terms ctx d) l).
  { induction l as [|ctx l IH]; [done|]. cbn. rewrite IH. unfold has_phrase. by rewrite phrase_same. }
  rewrite Hh. case_match; [|done].
  apply fold_left_ext_in. intros acc [ctx t] Hin. apply list_elem_of_bind in Hin as (ctx' & Hin & Hc).
  apply list_elem_of_bind in Hin as (t' & Hin & Ht). apply list_elem_of_singleton in Hin as [= <- <-]. cbn [fst snd]. f_equal.
  rewrite Forall_forall in Hk. specialize (Hk _ Hc). rewrite Forall_forall in Hk. specialize (Hk _ Ht).
  unfold word_hit, fetch_term_list. cbn [qe_prepared mbind option_bind qe_index].
  rewrite (known_freq _ _ _ (wrap 32 (zlen (items (ix_lookup index2 (pt_text t) (cx_xpath ctx)))))) by done.
  rewrite (sd_lookup _ _ _ Hsame). destruct (posting_of d _) as [p|] eqn:E; [|done]. cbn.
  apply posting_hit_same; [apply Hk|]. by apply posting_of_Some in E as [_ ?].
Qed.

Lemma floors_same forms :
  (forall form, form ∈ forms -> knows_query c (alt_query form) ctxs) -> typed_doc_freqs one forms ctxs = typed_doc_freqs two forms ctxs.
Proof using Type.
  intros Hk. unfold typed_doc_freqs. destruct forms as [|form forms]; [done|]. specialize (Hk form (ltac:(left))).
  destruct (alt_query form); try done. cbn [knows_query] in Hk. apply list_fmap_ext. intros i ctx Hi.
  pose proof (Forall_lookup_1 _ _ _ _ Hk Hi) as Hkn. cbn. by rewrite (known_freq _ _ _ (zlen (items (fetch_leaf two (QTerm v) (cx_xpath ctx))))).
Qed.

Lemma doc_score_same q : knows_query c q ctxs -> doc_score one q ctxs d = doc_score two q ctxs d.
Proof using All.
  induction q as [v|v|v|ps IH|ps IH|ps IH|ts|v|v f s|fs IH|r|ps IH|b|] using Query_rect'; intros Hk; try done;
    cbn [doc_score knows_query] in *; try (by apply doc_leaf_same).
  1-3: apply (proj1 (foldr_and_Forall _ _)) in Hk; rewrite Forall_forall in IH, Hk.
  - apply fold_left_ext_in. intros acc p Hp. by rewrite IH by auto.
  - f_equal. apply map_ext_in. intros p Hp%list_elem_of_In. by rewrite IH by auto.
  - apply fold_left_ext_in. intros acc p Hp. by rewrite IH by auto.
  - apply doc_leaf_same. eapply Forall_impl; [exact Hk|]. by intros ctx [? _].
  - apply (proj1 (foldr_and_Forall _ _)) in Hk. rewrite Forall_forall in IH, Hk.
    rewrite (floors_same fs) by done. apply fold_left_ext_in. intros acc form Hf. rewrite IH by auto.
    f_equal. unfold form_hit. f_equal. specialize (Hk _ Hf). destruct (alt_query form); try done; cbn [knows_query] in Hk.
    + by apply doc_leaf_same.
    + apply doc_words_same. eapply Forall_impl; [exact Hk|]. by intros ctx [_ ?].
Qed.
End shards.


