(* ===== verification/SnapshotIndex.v ===== *)
(** * Snapshots behind the executor

    The instance of the executor's interface: a snapshot whose parts keep sorted lists of
    ascending positions, each document in one part only, satisfies [IndexLaws] and
    [PositionLaws], so the theorems about evaluation hold of searches over snapshots. The example
    at the end runs them on a memtable and a segment. *)
From Stdlib Require Import ZArith Lia.
From stdpp Require Import base numbers list sorting gmap.
From S2P Require Import Prelude Types Posting PostingOps Numeric Wildcard Btree Segment MemIndex Scorer Wand Fuzzy FuzzyRank Phrase Query Snapshot CorpusStats Executor ExecutorCorrect ExecutorShards ExecutorScore.
Local Open Scope Z_scope.

Definition has_positions (l : PostingList) : Prop := Forall (fun p => positions p <> []) (items l).

Lemma Forall_filtered {A} (P Q : A -> Prop) `{!forall x, Decision (Q x)} l : Forall P l -> Forall P (filter Q l).
Proof. rewrite !Forall_forall. intros Hl x [_ Hx]%list_elem_of_filter. by apply Hl. Qed.

(** What the parts of a snapshot keep for every word. *)
Record part_words (r : SearchReader) : Prop := {
  pw_words t x : word_list_ok (r_lookup r t x);
  pw_empty x : r_lookup r [] x = PostingList_new;
  pw_lookup t x : has_positions (r_lookup r t x);
  pw_prefix t x : has_positions (r_lookup_prefix r t x);
  pw_wildcard t x : has_positions (r_lookup_wildcard r t x)
}.
Definition parts (self : IndexSnapshot) : list SearchReader := mem_reader (sn_mem self) :: sn_segments self.
Record snapshot_words (self : IndexSnapshot) : Prop := {
  sw_parts : Forall part_words (parts self);
  sw_disjoint : forall i j r1 r2 t x d, i <> j -> parts self !! i = Some r1 -> parts self !! j = Some r2 ->
    d ∈ docs (items (r_lookup r1 t x)) -> d ∉ docs (items (r_lookup r2 t x))
}.

(** A posting of a union is the posting of a part, or several of them merged. *)
Lemma from_items_single l d p :
  posting_of d (items (from_items l)) = Some p -> (length (filter (fun q => doc_id q = d) l) <= 1)%nat -> p ∈ l.
Proof.
  rewrite from_items_lookup. intros Hm Hlen. destruct (filter _ l) as [|q [|]] eqn:E; cbn in *; [done| |lia].
  injection Hm as <-. assert (q ∈ filter (fun q => doc_id q = d) l) as Hq by (rewrite E; left).
  by apply list_elem_of_filter in Hq as [_ Hq].
Qed.

Lemma merge_keeps_positions l p : Forall (fun p => positions p <> []) l -> merge_all l = Some p -> positions p <> [].
Proof.
  destruct l as [|q l]; [done|]. intros Hl [= <-]. apply Forall_cons in Hl as [Hq Hl]. revert q Hq.
  induction Hl as [|r l Hr _ IH]; intros q Hq; [done|]. cbn. apply IH. unfold merge_posting. cbn [positions].
  destruct (positions q) as [|x xs] eqn:Eq; [done|]. intros Hn.
  assert (x ∈ dedup (sort_unstable ((x :: xs) ++ positions r))) as Hx by (apply elem_of_dedup, elem_of_sort_unstable; left).
  rewrite Hn in Hx. by apply elem_of_nil in Hx.
Qed.
Lemma from_items_positions l : Forall (fun p => positions p <> []) l -> has_positions (from_items l).
Proof.
  intros Hl. apply Forall_forall. intros p Hp. pose proof (from_items_wf l) as [Ha _].
  pose proof (posting_of_ascending _ _ Ha Hp) as Hof. rewrite from_items_lookup in Hof. eapply merge_keeps_positions; [|done].
  by apply Forall_filtered.
Qed.

Section laws.
Context (self : IndexSnapshot) (lengths : list (gmap (Z * Z) Z)).
Context (Hok : snapshot_ok self lengths) (Hw : snapshot_words self).

Lemma live_positions (f : SearchReader -> PostingList) l :
  (forall r, part_words r -> has_positions (f r)) ->
  items l = live self (concat ((fun r => items (f r)) <$> parts self)) -> has_positions l.
Proof using Hw.
  intros Hf Hl. unfold has_positions. rewrite Hl. unfold live. apply Forall_filtered, from_items_positions.
  apply Forall_concat, Forall_fmap. eapply Forall_impl; [apply Hw|]. intros r Hr. by apply Hf.
Qed.

(** The postings of a word in all parts: at most one per document. *)
Lemma one_part t x d :
  (length (filter (fun q => doc_id q = d) (concat ((fun r => items (r_lookup r t x)) <$> parts self))) <= 1)%nat.
Proof using Hw.
  destruct Hw as [Hp Hd]. induction (parts self) as [|r rs IH]; [cbn; lia|]. apply Forall_cons in Hp as [Hr Hrs].
  rewrite fmap_cons. cbn [concat]. rewrite filter_app, length_app, ascending_filter_eq by apply Hr.
  destruct (posting_of d (items (r_lookup r t x))) as [p|] eqn:E.
  - replace (filter (fun q => doc_id q = d) (concat ((fun r => items (r_lookup r t x)) <$> rs))) with (@nil Posting); [cbn; lia|].
    symmetry. destruct (filter _ _) as [|q qs] eqn:Ef; [done|]. exfalso.
    assert (q ∈ q :: qs) as Hq by left. rewrite <-Ef in Hq. apply list_elem_of_filter in Hq as [<- Hq]. apply elem_of_concat in Hq as (its & Hq & Hits).
    apply list_elem_of_fmap in Hits as (r' & -> & Hr'). apply list_elem_of_lookup in Hr' as [j Hj].
    apply (Hd 0%nat (S j) r r' t x (doc_id q)); [done..| |].
    + apply elem_of_docs. by eexists.
    + by apply list_elem_of_fmap_2.
  - apply IH; [done|]. intros i j r1 r2 t' x' d' Hij Hi Hj. apply (Hd (S i) (S j)); [congruence|done..].
Qed.

Lemma sn_lookup_live t x : items (sn_lookup self t x) = live self (concat ((fun r => items (r_lookup r t x)) <$> parts self)).
Proof using Hok. apply sn_lookup_spec, (parts_wf _ _ _ Hok). intros r m Hr. apply Hr. Qed.

Lemma live_elem l p : p ∈ live self l -> p ∈ items (from_items l).
Proof. unfold live. by intros [_ ?]%list_elem_of_filter. Qed.
Lemma live_kept l d : d ∉ deleted (sn_deleted self) -> posting_of d (live self l) = posting_of d (items (from_items l)).
Proof.
  intros Hd. pose proof (posting_of_filter (fun d => d ∉ deleted (sn_deleted self)) d (items (from_items l))) as Hf.
  rewrite decide_True in Hf by done. exact Hf.
Qed.
Lemma live_ascending l : docs_ascending (live self l).
Proof. apply filter_ascending, from_items_wf. Qed.

Lemma sn_words t x : word_list_ok (sn_lookup self t x).
Proof using All.
  unfold word_list_ok. rewrite sn_lookup_live. split; [apply live_ascending|]. apply Forall_forall. intros p Hp%live_elem.
  pose proof (from_items_wf (concat ((fun r => items (r_lookup r t x)) <$> parts self))) as [Ha _].
  pose proof (from_items_single _ _ _ (posting_of_ascending _ _ Ha Hp) (one_part t x (doc_id p))) as Hin.
  apply elem_of_concat in Hin as (its & Hin & Hits). apply list_elem_of_fmap in Hits as (r & -> & Hr).
  destruct (pw_words _ (proj1 (Forall_forall _ _) (sw_parts _ Hw) _ Hr) t x) as [_ Hs]. by apply (proj1 (Forall_forall _ _) Hs).
Qed.

Lemma apply_deletes_wf l : wf_list l -> wf_list (apply_deletes self l).
Proof.
  intros [Ha Hm]. unfold apply_deletes, filter_in_place. case_match; [done|]. split; cbn [retain items max_weight].
  - by apply filter_ascending.
  - by apply Forall_filtered.
Qed.
Lemma union_deleted_wf lists : Forall wf_list lists -> wf_list (apply_deletes self (union_lists lists)).
Proof. intros Hl. apply apply_deletes_wf. unfold union_lists. rewrite union_many_spec by done. apply from_items_wf. Qed.

Lemma deletes_new : apply_deletes self PostingList_new = PostingList_new.
Proof. unfold apply_deletes, filter_in_place. by case_match. Qed.
Lemma union_new lists : Forall (fun l => l = PostingList_new) lists -> apply_deletes self (union_lists lists) = PostingList_new.
Proof.
  intros Hl. unfold union_lists. rewrite union_many_spec by (eapply Forall_impl; [exact Hl|]; intros l ->; apply wf_new).
  replace (concat (map items lists)) with (@nil Posting); [apply deletes_new|].
  induction Hl as [|l lists -> _ IH]; [done|]. cbn. done.
Qed.

#[export] Instance snapshot_laws : IndexLaws self.
Proof using All.
  split; cbn [ix_lookup ix_lookup_prefix ix_lookup_wildcard snapshot_index].
  - intros t x. unfold sn_lookup. case_match.
    + apply apply_deletes_wf. destruct (last _) as [l|] eqn:El; [|apply wf_new]. apply last_Some_elem_of in El.
      apply list_elem_of_fmap in El as (r & -> & Hr).
      apply (proj1 (Forall_forall _ _) (parts_wf self lengths (fun r => r_lookup r t x) Hok (fun r m Hr => ro_lookup r m Hr t x))). by right.
    + apply union_deleted_wf. pose proof (parts_wf self lengths (fun r => r_lookup r t x) Hok (fun r m Hr => ro_lookup r m Hr t x)) as Hwf.
      apply Forall_cons in Hwf as [Hm Hs]. apply Forall_app. split; [|by apply Forall_fmap].
      cbn [mem_reader r_lookup] in Hm. unfold mem_lookup_or_empty in Hm.
      destruct (mem_lookup (sn_mem self) t x); [constructor; [exact Hm|constructor]|constructor].
  - apply sn_words.
  - intros t x. apply union_deleted_wf.
    change (Forall wf_list ((fun r => r_lookup_prefix r t x) <$> parts self)). apply Forall_fmap.
    apply (parts_wf self lengths (fun r => r_lookup_prefix r t x) Hok (fun r m Hr => ro_prefix r m Hr t x)).
  - intros t x. apply union_deleted_wf.
    change (Forall wf_list ((fun r => r_lookup_wildcard r t x) <$> parts self)). apply Forall_fmap.
    apply (parts_wf self lengths (fun r => r_lookup_wildcard r t x) Hok (fun r m Hr => ro_wildcard r m Hr t x)).
  - intros x. destruct (proj1 (Forall_cons _ _ _) (sw_parts _ Hw)) as [Hm Hs]. apply pw_empty with (x := x) in Hm.
    cbn [mem_reader r_lookup] in Hm. unfold mem_lookup_or_empty in Hm.
    assert (Hnew : Forall (fun l => l = PostingList_new) ((fun s => r_lookup s [] x) <$> sn_segments self)).
    { apply Forall_fmap. eapply Forall_impl; [exact Hs|]. intros r Hr. by apply Hr. }
    unfold sn_lookup. case_match.
    + destruct (last _) as [l|] eqn:El; [|apply deletes_new]. apply last_Some_elem_of in El.
      rewrite (proj1 (Forall_forall _ _) Hnew _ El). apply deletes_new.
    + apply union_new, Forall_app. split; [|done]. destruct (mem_lookup (sn_mem self) [] x); [|constructor].
      constructor; [exact Hm|constructor].
Qed.

#[export] Instance snapshot_positions : PositionLaws self.
Proof using All.
  split; intros t x; cbn [ix_lookup ix_lookup_prefix ix_lookup_wildcard snapshot_index].
  - apply (live_positions (fun r => r_lookup r t x)); [intros r Hr; apply Hr|]. apply sn_lookup_live.
  - apply (live_positions (fun r => r_lookup_prefix r t x)); [intros r Hr; apply Hr|].
    apply (union_parts_spec self (fun r => r_lookup_prefix r t x)), (parts_wf _ _ _ Hok). intros r m Hr. apply Hr.
  - apply (live_positions (fun r => r_lookup_wildcard r t x)); [intros r Hr; apply Hr|].
    apply (union_parts_spec self (fun r => r_lookup_wildcard r t x)), (parts_wf _ _ _ Hok). intros r m Hr. apply Hr.
Qed.
End laws.

(** ** Memtables and frozen segments *)

Definition terms_words (terms : gmap TermKey PostingList) : Prop :=
  map_Forall (fun k l => tk_term k <> [] /\ word_list_ok l /\ has_positions l) terms.

Lemma capped_positions found : Forall (fun e => has_positions e.2) found -> has_positions (capped_union found).
Proof.
  intros Hf. unfold capped_union. cbv zeta. apply from_items_positions, Forall_concat, Forall_fmap, Forall_take.
  by rewrite stable_sort_perm.
Qed.
Lemma named_positions terms found :
  terms_words terms -> (forall e, e ∈ found -> terms !! e.1 = Some e.2) -> has_positions (capped_union (map named found)).
Proof.
  intros Ht Hf. apply capped_positions, Forall_fmap, Forall_forall. intros e He. by apply (Ht _ _ (Hf _ He)).
Qed.
Lemma take_while_elem {K A} (P : K * A -> bool) l e : e ∈ take_while P l -> e ∈ l.
Proof. induction l as [|x l IH]; cbn; [done|]. case_match; rewrite ?elem_of_cons; [naive_solver|by intros ?%elem_of_nil]. Qed.

Lemma lookup_words terms k :
  terms_words terms -> word_list_ok (default PostingList_new (terms !! k)) /\ has_positions (default PostingList_new (terms !! k)).
Proof.
  intros Ht. destruct (terms !! k) as [l|] eqn:E; [by apply (Ht _ _ E)|]. split; [split; constructor|constructor].
Qed.
Lemma lookup_no_word terms x : terms_words terms -> default PostingList_new (terms !! TermKey_new [] x) = PostingList_new.
Proof. intros Ht. destruct (terms !! TermKey_new [] x) eqn:E; [|done]. by destruct (Ht _ _ E). Qed.

Lemma mem_words m : terms_words (mem_terms m) -> part_words (mem_reader m).
Proof.
  intros Ht. assert (Hp : forall t x, has_positions (mem_lookup_prefix m t x)).
  { intros t x. apply named_positions with (mem_terms m); [done|]. intros [k l] [_ He]%list_elem_of_filter. by apply elem_of_map_to_list. }
  split; cbn [mem_reader r_lookup r_lookup_prefix r_lookup_wildcard]; [by intros; apply lookup_words|by intros; apply lookup_no_word|by intros; apply lookup_words|done|].
  intros p x. unfold mem_lookup_wildcard. case_match; [apply Hp|].
  apply named_positions with (mem_terms m); [done|]. intros [k l] [_ He]%list_elem_of_filter. by apply elem_of_map_to_list.
Qed.
Lemma seg_words s : terms_words (seg_terms s) -> part_words (seg_reader s).
Proof.
  intros Ht. assert (Hr : forall k e, e ∈ btree_range_from k (seg_terms s) -> seg_terms s !! e.1 = Some e.2).
  { intros k [k' l] He. by apply elem_of_btree_range_from in He as [He _]. }
  assert (Hp : forall t x, has_positions (seg_lookup_prefix s t x)).
  { intros t x. apply named_positions with (seg_terms s); [done|]. intros e He%take_while_elem. by eapply Hr. }
  split; cbn [seg_reader r_lookup r_lookup_prefix r_lookup_wildcard]; [by intros; apply lookup_words|by intros; apply lookup_no_word|by intros; apply lookup_words|done|].
  intros p x. unfold seg_lookup_wildcard. case_match; [apply Hp|].
  apply named_positions with (seg_terms s); [done|]. intros e [_ He%take_while_elem]%list_elem_of_filter. by eapply Hr.
Qed.

(** ** A search over a memtable and a segment *)
Module SearchExample.
Import SnapshotExample.

#[local] Instance ln : Ln := toy_ln.
#[local] Instance log10 : Log10 := fun _ => f64_zero.
#[local] Instance ascii_case : CaseTables := {| to_lowercase := id; is_uppercase := fun _ => false |}.

(** Words as they are written. *)
Definition plain : Analyzer := mkAnalyzer (fun s => [mkToken s 0]).
Definition hi : str := [104; 105].
Definition body : FieldCtx := mkCtx 1 None false.
(** The same index before document 8 was deleted. *)
Definition earlier : IndexSnapshot := mkSnapshot mem [seg_reader segment] DeleteSet_new.

Lemma example_terms d len : terms_words (mem_terms (add_analyzed_document MemIndex_new (doc d len))).
Proof.
  change (mem_terms (add_analyzed_document MemIndex_new (doc d len)))
    with ({[ TermKey_new hi 1 := insert_posting PostingList_new d [16] 5 ]} : gmap TermKey PostingList).
  apply map_Forall_singleton. split; [done|]. split; [|by repeat constructor].
  split; [repeat constructor|]. constructor; [|constructor]. split; [repeat constructor|]. by repeat constructor.
Qed.

Lemma parts_words dels : snapshot_words (mkSnapshot mem [seg_reader segment] dels).
Proof.
  split.
  - constructor; [apply mem_words, example_terms|]. constructor; [apply seg_words, example_terms|constructor].
  - assert (Hdocs : forall i r t x d, parts (mkSnapshot mem [seg_reader segment] dels) !! i = Some r ->
      d ∈ docs (items (r_lookup r t x)) -> d = 7 + Z.of_nat i).
    { intros i r t x d Hi Hd. destruct i as [|[|]]; [..|done]; injection Hi as <-;
        cbn [r_lookup mem_reader seg_reader] in Hd; unfold mem_lookup_or_empty, seg_lookup_or_empty, mem_lookup, seg_lookup in Hd.
      - change (mem_terms mem) with ({[ TermKey_new hi 1 := insert_posting PostingList_new 7 [16] 5 ]} : gmap TermKey PostingList) in Hd.
        destruct (_ !! _) as [l|] eqn:E; [|set_solver]. apply lookup_singleton_Some in E as [_ <-]. set_solver.
      - change (seg_terms segment) with ({[ TermKey_new hi 1 := insert_posting PostingList_new 8 [16] 5 ]} : gmap TermKey PostingList) in Hd.
        destruct (_ !! _) as [l|] eqn:E; [|set_solver]. apply lookup_singleton_Some in E as [_ <-]. set_solver. }
    intros i j r1 r2 t x d Hij Hi Hj H1 H2. apply (Hdocs _ _ _ _ _ Hi) in H1. apply (Hdocs _ _ _ _ _ Hj) in H2. lia.
Qed.
Lemma earlier_ok : snapshot_ok earlier lengths.
Proof. destruct ok as [H1 H2]. by split. Qed.

#[local] Instance now_laws : IndexLaws snapshot.
Proof. eapply snapshot_laws; [apply ok|apply parts_words]. Qed.
#[local] Instance now_positions : PositionLaws snapshot.
Proof. eapply snapshot_positions; [apply ok|apply parts_words]. Qed.
#[local] Instance earlier_laws : IndexLaws earlier.
Proof. eapply snapshot_laws; [apply earlier_ok|apply parts_words]. Qed.

Lemma filter_correct_witness :
  exists docs, evaluate (mkExecutor snapshot plain None None) (QOr [QTerm hi; QPrefix [104]]) [body] Filter = Docs docs /\
    7 ∈ docs /\ 8 ∉ docs.
Proof.
  destruct (filter_correct snapshot plain None (QOr [QTerm hi; QPrefix [104]]) [body]) as (docs & He & Hd); [by cbn|].
  exists docs. split; [done|]. split.
  - apply Hd. left. exists body. split; [left|]. change (7 ∈ [7]). left.
  - rewrite Hd. intros [(ctx & Hc & Hm)|[(ctx & Hc & _ & Hm)|[]]]; apply list_elem_of_singleton in Hc as ->;
      change (8 ∈ [7]) in Hm; by apply list_elem_of_singleton in Hm.
Defined.


Lemma prepared_transparent_witness :
  let self := mkExecutor snapshot plain None None in
  evaluate (with_prepared self (prepare self [QTerm hi] [body])) (QTerm hi) [body] Filter = Docs {[ 7 ]}.
Proof.
  intros self. unfold self. destruct (prepared_transparent snapshot plain None [QTerm hi] [body] (QTerm hi) [body] Filter _) as [_ ->].
  by vm_compute.
Defined.


(** A part that only filters empties a ranked AND, while the same AND as a filter finds its
    documents. *)
Lemma match_all_in_ranked_and :
  let self := mkExecutor snapshot plain None None in
  evaluate self (QAnd [QTerm hi; QMatchAll]) [body] Filter = Docs {[ 7 ]} /\
  evaluate self (QAnd [QTerm hi; QMatchAll]) [body] Rank = Scored [].
Proof. by split; vm_compute. Qed.

Definition corpus : CorpusStats := pq_stats (prepare (mkExecutor earlier plain None None) [QTerm hi] [body]).

Lemma same_seven : same_doc 7 snapshot earlier.
Proof.
  assert (Hlive : forall l, posting_of 7 (live snapshot l) = posting_of 7 (live earlier l)).
  { intros l. by rewrite !live_kept by (by vm_compute). }
  split.
  - intros t x. cbn. rewrite (sn_lookup_live snapshot lengths ok), (sn_lookup_live earlier lengths earlier_ok). apply Hlive.
  - intros t x. pose proof (union_parts_spec snapshot (fun r => r_lookup_prefix r t x)) as H1.
    pose proof (union_parts_spec earlier (fun r => r_lookup_prefix r t x)) as H2.
    etransitivity; [apply (f_equal (posting_of 7)), H1, (parts_wf _ _ _ ok); intros r m Hr; apply Hr|].
    etransitivity; [apply Hlive|]. symmetry.
    apply (f_equal (posting_of 7)), H2, (parts_wf _ _ _ earlier_ok); intros r m Hr; apply Hr.
  - intros t x. pose proof (union_parts_spec snapshot (fun r => r_lookup_wildcard r t x)) as H1.
    pose proof (union_parts_spec earlier (fun r => r_lookup_wildcard r t x)) as H2.
    etransitivity; [apply (f_equal (posting_of 7)), H1, (parts_wf _ _ _ ok); intros r m Hr; apply Hr|].
    etransitivity; [apply Hlive|]. symmetry.
    apply (f_equal (posting_of 7)), H2, (parts_wf _ _ _ earlier_ok); intros r m Hr; apply Hr.
  - done.
Qed.

End SearchExample.
