(* ===== verification/Highlight.v ===== *)
(** * Highlighting

    Models [crates/core-query/src/highlight.rs] and the options of [core-protocol]: what a query
    looks for in a text ([collect]), where the text matches ([find_ranges], [merge_ranges]) and the
    fragments that are shown with the matches between tags. Offsets are bytes, and cutting a text
    between two of them fails unless both are between characters ([slice_at]); the claim is that it
    never does, that a fragment is a part of the text, and that exactly what matches is tagged. *)
From Stdlib Require Import ZArith Lia String.
From stdpp Require Import base numbers list sorting gmap.
From S2P Require Import Prelude Types Wildcard Utf8 Fuzzy FuzzyRank Phrase Query Tokenizers Analyzers Executor.
Local Open Scope Z_scope.

Inductive HighlightMatcher : Type :=
| HPrefix (p : str) | HWildcard (p : WildcardPattern) | HExact (s : str) | HPhrase (phrase : list str) | HFuzzy (f : LevenshteinAutomaton).
Record HighlightFieldOptions : Type := mkOptions {
  ho_fragment_size : Z; ho_number_of_fragments : Z; ho_pre_tags : list str; ho_post_tags : list str; ho_sentence : bool }.

(** ** What a query looks for *)

Section collect.
Context {CT : CaseTables} (analyzer : Query.Analyzer).

Fixpoint collect (query : Query) : list HighlightMatcher :=
  match query with
  | QTerm s | QPrefix s => [HPrefix (to_lowercase s)]
  | QWildcard p => [HWildcard (Wildcard.parse (to_lowercase p))]
  | QPhrase terms => [HPhrase ((fun t => to_lowercase (pt_text t)) <$> terms)]
  | QExact s => [HExact s]
  | QFuzzy s fuzziness spec =>
    (fun word => HFuzzy (FuzzyMatcher_new word (resolve fuzziness word) (fs_prefix_length spec))) <$> fuzzable_words analyzer s
  | QWand children | QAnd children | QOr children | QSameElement children => concat (collect <$> children)
  | QSynonym forms => concat ((fun form => collect (alt_query form)) <$> forms)
  | QRange _ | QBool _ | QMatchAll => []
  end.
Definition collect_highlight_matchers (query : Query) : list HighlightMatcher := collect query.
End collect.

(** ** Cutting a text *)

Definition is_char_boundary (text : str) (i : Z) : bool := (i =? str_len text) || bool_decide (i ∈ (char_indices 0 text).*1).
(** [&text[from..to]], which panics off the boundaries. *)
Definition slice_at (text : str) (from to : Z) : option str :=
  if (from <=? to) && is_char_boundary text from && is_char_boundary text to then Some (str_slice text from to) else None.
Fixpoint snap_down_loop (fuel : nat) (text : str) (i : Z) : Z :=
  match fuel with
  | O => i
  | S fuel => if (0 <? i) && negb (is_char_boundary text i) then snap_down_loop fuel text (i - 1) else i
  end.
Definition snap_down (text : str) (i : Z) : Z := snap_down_loop (Z.to_nat i) text i.
Fixpoint snap_up_loop (fuel : nat) (text : str) (i : Z) : Z :=
  match fuel with
  | O => i
  | S fuel => if (i <? str_len text) && negb (is_char_boundary text i) then snap_up_loop fuel text (i + 1) else i
  end.
Definition snap_up (text : str) (i : Z) : Z := snap_up_loop (Z.to_nat (str_len text - i)) text i.
(** [str::match_indices]: matches from the left that do not overlap; an empty pattern matches
    between all characters. *)
Fixpoint match_loop (fuel : nat) (pat s : str) (at_ : Z) : list Z :=
  match fuel with
  | O => []
  | S fuel =>
    let next := match s with [] => [] | c :: s => match_loop fuel pat s (at_ + len_utf8 c) end in
    if Tokenizers.starts_with pat s then
      at_ :: (if bool_decide (pat = []) then next else match_loop fuel pat (drop (length pat) s) (at_ + str_len pat))
    else next
  end.
Definition match_indices (pat s : str) : list Z := match_loop (S (length s)) pat s 0.

(** ** Matching *)

Section find.
Context {CC : CharClasses} {CT : CaseTables} {TL : TantivyLib} (analyzer : Analyzers.Analyzer).

Record WordsState : Type := mkWords { wo_out : list (str * Z * Z); wo_word : str; wo_start : Z }.
Definition words_step (st : WordsState) (e : Z * Z) : WordsState :=
  let '(i, c) := e in
  if is_word_char analyzer c then
    mkWords (wo_out st) (wo_word st ++ [to_lower_ascii c]) (if bool_decide (wo_word st = []) then i else wo_start st)
  else if bool_decide (wo_word st = []) then st
  else mkWords (wo_out st ++ [(wo_word st, wo_start st, i)]) [] (wo_start st).
Definition words (text : str) : list (str * Z * Z) :=
  let st := fold_left words_step (char_indices 0 text) (mkWords [] [] 0) in
  if bool_decide (wo_word st = []) then wo_out st else wo_out st ++ [(wo_word st, wo_start st, str_len text)].

Definition matches_word (word : str) (m : HighlightMatcher) : bool :=
  match m with
  | HPrefix p => Tokenizers.starts_with p word
  | HWildcard pat => Wildcard.matches pat word
  | HFuzzy f => matcher_matches f word
  | HExact _ | HPhrase _ => false
  end.
(** [phrase.iter().enumerate().all(..)]; [None] is an index out of bounds. *)
Fixpoint phrase_starts_at (ws : list (str * Z * Z)) (i : nat) (phrase : list str) : option bool :=
  match phrase with
  | [] => Some true
  | p :: phrase => w ← ws !! i; if Tokenizers.starts_with p w.1.1 then phrase_starts_at ws (S i) phrase else Some false
  end.
Definition phrase_range (ws : list (str * Z * Z)) (phrase : list str) (i : nat) : option (list (Z * Z)) :=
  ok ← phrase_starts_at ws i phrase;
  if ok : bool then
    first ← ws !! i; last_ ← ws !! (i + length phrase - 1)%nat; Some [(first.1.2, last_.2)]
  else Some [].
Definition phrase_ranges (ws : list (str * Z * Z)) (m : HighlightMatcher) : option (list (Z * Z)) :=
  match m with
  | HPhrase phrase =>
    if (length phrase <? 2)%nat then Some []
    else found ← mapM (phrase_range ws phrase) (seq 0 (length ws - (length phrase - 1))); Some (concat found)
  | _ => Some []
  end.
Definition exact_ranges (text : str) (m : HighlightMatcher) : list (Z * Z) :=
  match m with HExact s => (fun start => (start, start + str_len s)) <$> match_indices s text | _ => [] end.
Definition find_ranges (text : str) (matchers : list HighlightMatcher) : option (list (Z * Z)) :=
  let ws := words text in
  let single := omap (fun w => if existsb (matches_word w.1.1) matchers then Some (w.1.2, w.2) else None) ws in
  phrases ← mapM (phrase_ranges ws) matchers;
  Some (single ++ concat phrases ++ concat (exact_ranges text <$> matchers)).
End find.

Definition range_leb (a b : Z * Z) : bool := (a.1 <? b.1) || ((a.1 =? b.1) && (a.2 <=? b.2)).
Definition merge_step (merged : list (Z * Z)) (r : Z * Z) : list (Z * Z) :=
  match last merged with
  | Some l => if r.1 <=? l.2 then removelast merged ++ [(l.1, Z.max l.2 r.2)] else merged ++ [r]
  | None => [r]
  end.
Definition merge_ranges (ranges : list (Z * Z)) : list (Z * Z) := fold_left merge_step (stable_sort range_leb ranges) [].

(** ** Fragments *)

Definition tags (opts : HighlightFieldOptions) : str * str := (default [] (head (ho_pre_tags opts)), default [] (head (ho_post_tags opts))).
Fixpoint snippet_loop (text : str) (ws we : Z) (opts : HighlightFieldOptions) (ranges : list (Z * Z)) (pos : Z) (out : str) : option str :=
  match ranges with
  | [] => tail ← slice_at text pos we; Some (out ++ tail)
  | (rs, re) :: ranges =>
    if (re <=? ws) || (we <=? rs) then snippet_loop text ws we opts ranges pos out
    else
      let s := Z.max rs ws in
      let e := Z.min re we in
      before ← slice_at text pos s;
      inside ← slice_at text s e;
      snippet_loop text ws we opts ranges e (out ++ before ++ (tags opts).1 ++ inside ++ (tags opts).2)
  end.
Definition build_snippet (text : str) (ws we : Z) (ranges : list (Z * Z)) (opts : HighlightFieldOptions) : option str :=
  snippet_loop text ws we opts ranges ws [].
Definition fragments_by_chars (text : str) (ranges : list (Z * Z)) (opts : HighlightFieldOptions) : option (list str) :=
  if str_len text <=? ho_fragment_size opts then s ← build_snippet text 0 (str_len text) ranges opts; Some [s]
  else
    mapM (fun r : Z * Z =>
      let half := ho_fragment_size opts / 2 in
      let ws := snap_down text (Z.max 0 (r.1 - half)) in
      let we := snap_up text (Z.min (r.2 + half) (str_len text)) in
      build_snippet text ws we ranges opts) (take (Z.to_nat (ho_number_of_fragments opts)) ranges).
Definition sentence_step (st : list (Z * Z) * Z) (e : Z * Z) : list (Z * Z) * Z :=
  let '(out, start) := st in
  let '(i, c) := e in
  if bool_decide (c ∈ [46; 33; 63]) then (out ++ [(start, i + len_utf8 c)], i + len_utf8 c) else st.
Definition split_sentences (text : str) : list (Z * Z) :=
  let '(out, start) := fold_left sentence_step (char_indices 0 text) ([], 0) in
  if start <? str_len text then out ++ [(start, str_len text)] else out.
Fixpoint sentence_loop (text : str) (ranges : list (Z * Z)) (opts : HighlightFieldOptions) (sentences : list (Z * Z)) (out : list str) : option (list str) :=
  match sentences with
  | [] => Some out
  | (start, end_) :: sentences =>
    if existsb (fun r => (r.1 <? end_) && (start <? r.2)) ranges then
      s ← build_snippet text start end_ ranges opts;
      let out := out ++ [s] in
      if ho_number_of_fragments opts <=? zlen out then Some out else sentence_loop text ranges opts sentences out
    else sentence_loop text ranges opts sentences out
  end.
Definition fragments_by_sentence (text : str) (ranges : list (Z * Z)) (opts : HighlightFieldOptions) : option (list str) :=
  sentence_loop text ranges opts (split_sentences text) [].
Definition highlight_text {CC : CharClasses} {CT : CaseTables} {TL : TantivyLib} (text : str) (analyzer : Analyzers.Analyzer) (matchers : list HighlightMatcher)
    (opts : HighlightFieldOptions) : option (list str) :=
  found ← find_ranges analyzer text matchers;
  let ranges := merge_ranges found in
  if bool_decide (ranges = []) then Some []
  else if ho_sentence opts then fragments_by_sentence text ranges opts else fragments_by_chars text ranges opts.

(** ** The texts of a field *)

Fixpoint walk_segments (value : OwnedValue) (path : list str) : option OwnedValue :=
  match path with
  | [] => Some value
  | seg :: path => match value with JObject obj => mjoin (obj_get seg (fun v => walk_segments v path) obj) | _ => None end
  end.
Definition walk_path (value : OwnedValue) (path : str) : option OwnedValue := walk_segments value (split_on (fun c => c =? 47) path).
Definition field_texts (value : OwnedValue) (path : str) : list str :=
  match walk_path value path with
  | Some (JString s) => [s]
  | Some (JArray items) => omap as_str items
  | _ => []
  end.

(** ** Offsets *)

Definition off (text : str) (k : nat) : Z := str_len (take k text).
Definition boundary (text : str) (i : Z) : Prop := exists k, (k <= length text)%nat /\ i = off text k.

Lemma off_S text k c : text !! k = Some c -> off text (S k) = off text k + len_utf8 c.
Proof. intros H. unfold off. rewrite (take_S_r _ _ _ H), str_len_app. cbn. lia. Qed.
Lemma off_mono text j k : (j <= k)%nat -> off text j <= off text k.
Proof.
  intros H. unfold off. replace k with (j + (k - j))%nat by lia. rewrite <-(take_drop j (take (j + (k - j)) text)), take_take, str_len_app.
  replace (j `min` (j + (k - j)))%nat with j by lia. pose proof (str_len_nonneg (drop j (take (j + (k - j)) text))). lia.
Qed.
Lemma off_strict text j k : (j < k)%nat -> (k <= length text)%nat -> off text j < off text k.
Proof.
  intros Hj Hk. destruct (lookup_lt_is_Some_2 text j) as [c Hc]; [lia|]. pose proof (off_S text j c Hc). pose proof (len_utf8_pos c).
  pose proof (off_mono text (S j) k). lia.
Qed.
Lemma off_end text : off text (length text) = str_len text.
Proof. unfold off. by rewrite firstn_all. Qed.
Lemma char_indices_lookup text a k : char_indices a text !! k = (fun c => (a + off text k, c)) <$> text !! k.
Proof.
  revert a k. induction text as [|c text IH]; intros a k; [by destruct k|]. cbn [char_indices]. destruct k as [|k]; cbn [lookup list_lookup].
  - change (off (c :: text) 0) with 0. cbn. by rewrite Z.add_0_r.
  - rewrite IH. destruct (text !! k); [|done]. cbn [fmap option_fmap option_map]. unfold off. rewrite firstn_cons, str_len_cons. do 2 f_equal. lia.
Qed.
Lemma boundary_spec text i : is_char_boundary text i = true <-> boundary text i.
Proof.
  unfold is_char_boundary. rewrite orb_true_iff, Z.eqb_eq, bool_decide_eq_true. split.
  - intros [->|H]; [exists (length text); split; [lia|by rewrite off_end]|]. apply list_elem_of_fmap in H as ([j c] & -> & Hin). apply list_elem_of_lookup in Hin as [k Hk].
    rewrite char_indices_lookup in Hk. destruct (text !! k) as [d|] eqn:E; [|done]. cbn in Hk. injection Hk as <- <-. apply lookup_lt_Some in E. exists k. split; [lia|done].
  - intros (k & Hk & ->). destruct (decide (k = length text)) as [->|Hne]; [left; apply off_end|right]. destruct (lookup_lt_is_Some_2 text k) as [c Hc]; [lia|].
    apply list_elem_of_fmap. exists (off text k, c). split; [done|]. apply list_elem_of_lookup. exists k. by rewrite char_indices_lookup, Hc.
Qed.
Lemma boundary_range text i : boundary text i -> 0 <= i <= str_len text.
Proof. intros (k & Hk & ->). rewrite <-off_end. split; [apply str_len_nonneg|by apply off_mono]. Qed.
Lemma boundary_0 text : boundary text 0.
Proof. exists 0%nat. split; [lia|done]. Qed.
Lemma boundary_len text : boundary text (str_len text).
Proof. exists (length text). split; [lia|by rewrite off_end]. Qed.

(** ** Windows *)

(** The characters from one offset to another, with their offsets. *)
Definition window (text : str) (a b : Z) : list (Z * Z) := filter (fun e => a <= e.1 < b) (char_indices 0 text).
Lemma char_indices_sorted text a : StronglySorted (fun x y : Z * Z => x.1 < y.1) (char_indices a text).
Proof.
  revert a. induction text as [|c text IH]; intros a; constructor; [apply IH|]. apply Forall_forall. intros e He%char_indices_range. cbn. pose proof (len_utf8_pos c). lia.
Qed.
Lemma window_app text a b c : a <= b -> b <= c -> window text a b ++ window text b c = window text a c.
Proof.
  intros Hab Hbc. unfold window. generalize (char_indices_sorted text 0). induction 1 as [|e l Hs IH Hf]; [done|]. rewrite !filter_cons.
  destruct (decide (a <= e.1 < b)) as [H1|H1], (decide (b <= e.1 < c)) as [H2|H2], (decide (a <= e.1 < c)) as [H3|H3]; try lia; cbn; [by rewrite IH| |done].
  rewrite (filter_none_of (fun e => a <= e.1 < b)) in IH |- *; [cbn in *; by rewrite IH|intros x Hx; rewrite Forall_forall in Hf; specialize (Hf x Hx); lia..].
Qed.
Lemma window_empty text a : window text a a = [].
Proof. apply filter_none_of. intros. lia. Qed.
Lemma window_all text : window text 0 (str_len text) = char_indices 0 text.
Proof. apply filter_all_of. intros e He%char_indices_range. lia. Qed.
Lemma slice_at_spec text a b : boundary text a -> boundary text b -> a <= b -> slice_at text a b = Some (window text a b).*2.
Proof.
  intros Ha Hb Hab. unfold slice_at. apply boundary_spec in Ha, Hb. rewrite Ha, Hb. by destruct (Z.leb_spec a b); [|lia].
Qed.

(** ** Ranges *)

Definition covered (ranges : list (Z * Z)) (i : Z) : bool := existsb (fun r => (r.1 <=? i) && (i <? r.2)) ranges.
Definition range_ok (text : str) (r : Z * Z) : Prop := boundary text r.1 /\ boundary text r.2 /\ r.1 <= r.2.
Definition apart (ranges : list (Z * Z)) : Prop := StronglySorted (fun a b : Z * Z => a.2 < b.1) ranges.
Lemma covered_app a b i : covered (a ++ b) i = covered a i || covered b i.
Proof. apply existsb_app. Qed.
Lemma covered_perm a b i : a ≡ₚ b -> covered a i = covered b i.
Proof. unfold covered. induction 1 as [|x l k H IH|x y l|l k m _ IH1 _ IH2]; cbn; [done|by rewrite IH|by rewrite !orb_assoc, (orb_comm (_ && _))|congruence]. Qed.
Lemma boundary_max text a b : boundary text a -> boundary text b -> boundary text (Z.max a b).
Proof. intros Ha Hb. by destruct (Z.max_spec a b) as [[_ ->]|[_ ->]]. Qed.
Lemma boundary_min text a b : boundary text a -> boundary text b -> boundary text (Z.min a b).
Proof. intros Ha Hb. by destruct (Z.min_spec a b) as [[_ ->]|[_ ->]]. Qed.

(** Merging keeps what is covered, and leaves gaps between the ranges. *)
Definition merge_inv (text : str) (done merged : list (Z * Z)) : Prop :=
  apart merged /\ Forall (range_ok text) merged /\ (forall i, covered merged i = covered done i) /\ (merged = [] <-> done = []) /\
  (forall l, last merged = Some l -> exists r, r ∈ done /\ r.1 = l.1).
Lemma merge_step_inv text done merged r :
  merge_inv text done merged -> range_ok text r -> (forall d, d ∈ done -> d.1 <= r.1) -> merge_inv text (done ++ [r]) (merge_step merged r).
Proof.
  intros (Ha & Hr & Hc & Hn & Hf) Hok Hle. unfold merge_step. destruct merged as [|l merged _] using rev_ind.
  { cbn. destruct Hn as [Hn _]. rewrite (Hn eq_refl) in *. cbn. split_and!; [repeat constructor|by apply Forall_singleton|done|done|].
    intros l [= <-]. exists r. split; [left|done]. }
  rewrite last_snoc. assert (Hl1 : l.1 <= r.1). { destruct (Hf l) as (d & Hd & <-); [by rewrite last_snoc|]. by apply Hle. }
  apply Forall_app in Hr as [Hr Hrl]. apply Forall_singleton in Hrl as (Hl_b & Hl_e & Hl_le). destruct Hok as (Hr_b & Hr_e & Hr_le).
  assert (Happ : forall x, StronglySorted (fun a b : Z * Z => a.2 < b.1) (merged ++ [x]) <-> apart merged /\ Forall (fun m => m.2 < x.1) merged).
  { intros x. unfold apart. rewrite StronglySorted_app. split.
    - intros (H1 & H2 & _). split; [done|]. apply Forall_forall. intros m Hm. apply H1; [done|left].
    - intros [H1 H2]. split_and!; [|done|repeat constructor]. intros m y Hm ->%list_elem_of_singleton. rewrite Forall_forall in H2. by apply H2. }
  pose proof (proj1 (Happ l) Ha) as [Ham Hal].
  destruct (Z.leb_spec r.1 l.2) as [Hov|Hov].
  - rewrite removelast_last. split_and!.
    + by apply Happ.
    + apply Forall_app. split; [done|]. apply Forall_singleton. split_and!; cbn; [done|by apply boundary_max|lia].
    + intros i. specialize (Hc i). rewrite covered_app in Hc. rewrite !covered_app, <-Hc. cbn. rewrite !orb_false_r, <-orb_assoc. f_equal.
      destruct (Z.leb_spec l.1 i), (Z.ltb_spec i (Z.max l.2 r.2)), (Z.ltb_spec i l.2), (Z.leb_spec r.1 i), (Z.ltb_spec i r.2); cbn; try done; lia.
    + split; intros E; [by destruct merged|by destruct done].
    + intros x. rewrite last_snoc. intros [= <-]. cbn. destruct (Hf l (last_snoc _ _)) as (d & Hd & E). exists d. split; [by apply elem_of_app; left|done].
  - split_and!.
    + unfold apart. apply StronglySorted_app. split_and!; [|done|repeat constructor]. intros m y [Hm| ->%list_elem_of_singleton]%elem_of_app ->%list_elem_of_singleton; [|done].
      rewrite Forall_forall in Hal. specialize (Hal m Hm). lia.
    + apply Forall_app. split; [apply Forall_app; split; [done|]|]; by apply Forall_singleton.
    + intros i. rewrite !covered_app. rewrite <-(Hc i), covered_app. done.
    + split; intros E; [by destruct merged|by destruct done].
    + intros x. rewrite last_snoc. intros [= <-]. exists r. split; [apply elem_of_app; right; left|done].
Qed.
Lemma merge_fold text l done merged :
  merge_inv text done merged -> Forall (range_ok text) l -> StronglySorted (fun a b : Z * Z => a.1 <= b.1) (done ++ l) ->
  merge_inv text (done ++ l) (fold_left merge_step l merged).
Proof.
  revert done merged. induction l as [|r l IH]; intros done merged Hi Hl Hs; [by rewrite app_nil_r|]. cbn [fold_left]. apply Forall_cons in Hl as [Hr Hl].
  rewrite cons_middle, (assoc_L (++)) in *. apply IH; [|done|done]. apply merge_step_inv; [done|done|].
  intros d Hd. apply StronglySorted_app in Hs as (_ & Hs & _). apply StronglySorted_app in Hs as (Hs & _ & _). apply (Hs d r Hd). left.
Qed.
Lemma merge_ranges_spec text ranges :
  Forall (range_ok text) ranges ->
  apart (merge_ranges ranges) /\ Forall (range_ok text) (merge_ranges ranges) /\ (forall i, covered (merge_ranges ranges) i = covered ranges i) /\
  (merge_ranges ranges = [] <-> ranges = []).
Proof.
  intros Hr. pose proof (stable_sort_perm range_leb ranges) as Hp.
  assert (Hs : StronglySorted (fun a b : Z * Z => a.1 <= b.1) (stable_sort range_leb ranges)).
  { assert (H : StronglySorted (fun a b => range_leb a b = true) (stable_sort range_leb ranges)).
    { apply stable_sort_sorted.
      - intros a b. unfold range_leb. destruct (Z.ltb_spec a.1 b.1), (Z.eqb_spec a.1 b.1), (Z.leb_spec a.2 b.2), (Z.ltb_spec b.1 a.1), (Z.eqb_spec b.1 a.1), (Z.leb_spec b.2 a.2); cbn; try (by left); try (by right); lia.
      - intros a b c. unfold range_leb. rewrite !orb_true_iff, !andb_true_iff, !Z.ltb_lt, !Z.eqb_eq, !Z.leb_le. lia. }
    rewrite <-(list_fmap_id (stable_sort range_leb ranges)). eapply (StronglySorted_fmap_impl _ _ id); [|exact H]. intros a b _ _. unfold range_leb. rewrite orb_true_iff, andb_true_iff, Z.ltb_lt, Z.eqb_eq. cbn. lia. }
  destruct (merge_fold text (stable_sort range_leb ranges) [] []) as (H1 & H2 & H3 & H4 & _).
  - split_and!; [constructor|constructor|done|done|done].
  - by rewrite Hp.
  - done.
  - cbn [app] in *. unfold merge_ranges. split_and!; [done|done| |].
    + intros i. rewrite H3. by apply covered_perm.
    + rewrite H4. split; intros E; [by rewrite E in Hp; apply Permutation_nil_l in Hp|by rewrite E].
Qed.

(** ** Snippets *)

(** A snippet is pieces of the text, some of them between tags. *)
Definition render (opts : HighlightFieldOptions) (pieces : list (bool * str)) : str :=
  concat ((fun p : bool * str => if p.1 then (tags opts).1 ++ p.2 ++ (tags opts).2 else p.2) <$> pieces).
(** The characters of the pieces, and whether they are tagged. *)
Definition marks (pieces : list (bool * str)) : list (bool * Z) := concat ((fun p : bool * str => (fun c => (p.1, c)) <$> p.2) <$> pieces).
(** The characters of a window, and whether they are in a range. *)
Definition marked_window (text : str) (ranges : list (Z * Z)) (a b : Z) : list (bool * Z) := (fun e => (covered ranges e.1, e.2)) <$> window text a b.
Lemma marked_flag text ranges a b flag :
  (forall i, a <= i < b -> covered ranges i = flag) -> (fun c => (flag, c)) <$> (window text a b).*2 = marked_window text ranges a b.
Proof.
  intros H. unfold marked_window. rewrite <-list_fmap_compose. apply list_fmap_ext. intros k e He. cbn. rewrite H; [done|].
  apply list_elem_of_lookup_2 in He. by apply list_elem_of_filter in He as [? _].
Qed.
Lemma marked_ext text r1 r2 a b : (forall i, a <= i < b -> covered r1 i = covered r2 i) -> marked_window text r1 a b = marked_window text r2 a b.
Proof.
  intros H. apply list_fmap_ext. intros k e He. f_equal. apply H. apply list_elem_of_lookup_2 in He. by apply list_elem_of_filter in He as [? _].
Qed.
Lemma marked_app text ranges a b c : a <= b -> b <= c -> marked_window text ranges a b ++ marked_window text ranges b c = marked_window text ranges a c.
Proof. intros H1 H2. unfold marked_window. by rewrite <-fmap_app, window_app. Qed.
Lemma covered_false ranges i : (forall r, r ∈ ranges -> ~ r.1 <= i < r.2) -> covered ranges i = false.
Proof.
  intros H. unfold covered. apply not_true_iff_false. rewrite existsb_exists. intros (r & Hr%list_elem_of_In & E). rewrite andb_true_iff, Z.leb_le, Z.ltb_lt in E. by apply (H r Hr).
Qed.
Lemma snippet_spec text ws we opts ranges pos out :
  boundary text ws -> boundary text we -> boundary text pos -> ws <= pos <= we -> apart ranges -> Forall (range_ok text) ranges ->
  Forall (fun r => pos <= Z.max r.1 ws \/ we <= r.1) ranges ->
  exists pieces, snippet_loop text ws we opts ranges pos out = Some (out ++ render opts pieces) /\ marks pieces = marked_window text ranges pos we.
Proof.
  intros Hws Hwe. revert pos out. induction ranges as [|[rs re] ranges IH]; intros pos out Hpos Hle Ha Hr Hp; cbn [snippet_loop].
  - rewrite slice_at_spec by (done || lia). cbn. exists [(false, (window text pos we).*2)]. unfold render, marks. cbn. rewrite !app_nil_r. split; [done|]. by apply marked_flag.
  - apply Forall_cons in Hr as [(Hb & He & Hbe) Hr]. apply Forall_cons in Hp as [Hp0 Hp]. cbn [fst snd] in *. inversion Ha as [|? ? Ha' Hf]; subst. cbn [fst snd] in Hf.
    destruct (Z.leb_spec re ws) as [H1|H1]; cbn [orb].
    { destruct (IH pos out) as (pieces & E & Hm); try done. exists pieces. split; [done|]. rewrite Hm. apply marked_ext. intros i Hi. cbn. destruct (Z.leb_spec rs i), (Z.ltb_spec i re); try done. lia. }
    destruct (Z.leb_spec we rs) as [H2|H2].
    { destruct (IH pos out) as (pieces & E & Hm); try done. exists pieces. split; [done|]. rewrite Hm. apply marked_ext. intros i Hi. cbn. destruct (Z.leb_spec rs i), (Z.ltb_spec i re); try done. lia. }
    set (s := Z.max rs ws). set (e := Z.min re we). assert (Hs : boundary text s) by (by apply boundary_max). assert (Hee : boundary text e) by (by apply boundary_min).
    assert (pos <= s <= e /\ e <= we) by lia. rewrite !slice_at_spec by (done || lia). cbn [mbind option_bind].
    assert (Hlater : forall r, r ∈ ranges -> re < r.1) by (intros r Hin; rewrite Forall_forall in Hf; by apply Hf).
    destruct (IH e (out ++ (window text pos s).*2 ++ (tags opts).1 ++ (window text s e).*2 ++ (tags opts).2)) as (pieces & E & Hm); try done; [lia| |].
    { apply Forall_forall. intros r Hin. specialize (Hlater r Hin). lia. }
    exists ((false, (window text pos s).*2) :: (true, (window text s e).*2) :: pieces). split.
    + rewrite E. unfold render. cbn [fmap list_fmap concat fst snd]. by rewrite <-!(assoc_L (++)).
    + unfold marks in *. cbn [fmap list_fmap concat fst snd]. rewrite Hm, (assoc_L (++)).
      rewrite <-(marked_app text _ pos s we), <-(marked_app text _ s e we), (assoc_L (++)) by lia. f_equal; [f_equal|].
      * apply marked_flag. intros i Hi. apply covered_false. intros r [->|Hin]%elem_of_cons; cbn; [lia|]. specialize (Hlater r Hin). lia.
      * apply marked_flag. intros i Hi. cbn. destruct (Z.leb_spec rs i), (Z.ltb_spec i re); try done; lia.
      * apply marked_ext. intros i Hi. cbn. destruct (Z.leb_spec rs i), (Z.ltb_spec i re); try done. lia.
Qed.

(** ** Words *)

Section words.
Context {CC : CharClasses} {CT : CaseTables} {TL : TantivyLib} (analyzer : Analyzers.Analyzer).
Abbreviation word_char := (is_word_char analyzer).

Definition no_word (c : option Z) : Prop := match c with Some c => word_char c = false | None => True end.
(** A run of word characters that is as long as can be. *)
Definition is_run (text pre run post : str) : Prop :=
  text = pre ++ run ++ post /\ run <> [] /\ Forall (fun c => word_char c = true) run /\ no_word (last pre) /\ no_word (head post).

Lemma suffix_run p m p' m' :
  p ++ m = p' ++ m' -> Forall (fun c => word_char c = true) m -> Forall (fun c => word_char c = true) m' -> no_word (last p) -> no_word (last p') -> p = p' /\ m = m'.
Proof using.
  assert (Hx : forall p m l, Forall (fun c => word_char c = true) (l ++ m) -> no_word (last (p ++ l)) -> l = []).
  { intros q k l Hf Hn. destruct l as [|c l _] using rev_ind; [done|]. rewrite (assoc_L (++)), last_snoc in Hn. cbn in Hn. rewrite !Forall_app, Forall_singleton in Hf. destruct Hf as [[_ ?] _]. congruence. }
  intros E Hm Hm' Hp Hp'. apply app_eq_app in E as (l & [[-> ->]|[-> ->]]).
  - by rewrite (Hx p' m l Hm' Hp), app_nil_r.
  - by rewrite (Hx p m' l Hm Hp'), app_nil_r.
Qed.
Record words_inv (pre : str) (st : WordsState) : Prop := {
  wi_out : forall w s e, (w, s, e) ∈ wo_out st <->
    exists p run q, is_run pre p run q /\ q <> [] /\ w = to_lower_ascii <$> run /\ s = str_len p /\ e = str_len p + str_len run;
  wi_word : exists p run, pre = p ++ run /\ wo_word st = to_lower_ascii <$> run /\ Forall (fun c => word_char c = true) run /\ no_word (last p) /\ (run <> [] -> wo_start st = str_len p)
}.
Lemma fmap_eq_nil {A B} (f : A -> B) l : f <$> l = [] <-> l = [].
Proof using. split; [apply fmap_nil_inv|by intros ->]. Qed.
Lemma words_step_inv pre st c : words_inv pre st -> words_inv (pre ++ [c]) (words_step analyzer st (str_len pre, c)).
Proof using.
  intros [Hout (p0 & run0 & Epre & Ew & Hrun & Hp0 & Hst)]. unfold words_step. destruct (word_char c) eqn:Ec.
  - split; cbn [wo_out wo_word wo_start].
    + intros w s e. rewrite Hout. split; intros (p & run & q & (E & Hne & Hr & Hp & Hq) & Hqne & Hrest).
      * exists p, run, (q ++ [c]). split; [|split; [by destruct q|done]]. split_and!; [by rewrite E, <-!(assoc_L (++))|done|done|done|by destruct q].
      * destruct q as [|x q _] using rev_ind; [done|]. rewrite !(assoc_L (++)) in E. apply app_inj_tail in E as [E ->]. rewrite <-(assoc_L (++)) in E.
        destruct q as [|y q]; [cbn in Hq; congruence|]. exists p, run, (y :: q). split; [|done]. by split_and!.
    + exists p0, (run0 ++ [c]). split_and!; [by rewrite Epre, <-(assoc_L (++))|by rewrite Ew, fmap_app|by apply Forall_app; split; [|apply Forall_singleton]|done|].
      intros _. rewrite Ew. destruct run0 as [|x run0]; [rewrite bool_decide_eq_true_2 by done; by rewrite Epre, app_nil_r|rewrite bool_decide_eq_false_2 by done; by apply Hst].
  - assert (Hnew : forall w s e, (exists p run q, is_run (pre ++ [c]) p run q /\ q <> [] /\ w = to_lower_ascii <$> run /\ s = str_len p /\ e = str_len p + str_len run) <->
      (w, s, e) ∈ wo_out st \/ (run0 <> [] /\ w = to_lower_ascii <$> run0 /\ s = str_len p0 /\ e = str_len pre)).
    { intros w s e. rewrite Hout. split.
      - intros (p & run & q & (E & Hne & Hr & Hp & Hq) & Hqne & Hw & Hs & He). destruct q as [|x q _] using rev_ind; [done|].
        rewrite !(assoc_L (++)) in E. apply app_inj_tail in E as [E ->]. rewrite <-(assoc_L (++)) in E. destruct q as [|y q].
        + right. rewrite app_nil_r in E. rewrite Epre in E. destruct (suffix_run p0 run0 p run) as [-> ->]; try done. split_and!; [done|done|done|]. by rewrite Epre, str_len_app.
        + left. exists p, run, (y :: q). split; [by split_and!|done].
      - intros [(p & run & q & (E & Hne & Hr & Hp & Hq) & Hqne & Hrest)|(Hne & -> & -> & ->)].
        + exists p, run, (q ++ [c]). split; [|split; [by destruct q|done]]. split_and!; [by rewrite E, <-!(assoc_L (++))|done|done|done|by destruct q].
        + exists p0, run0, [c]. split; [|split; [done|split_and!; [done|done|by rewrite Epre, str_len_app]]]. split_and!; [by rewrite Epre, <-(assoc_L (++))|done|done|done|done]. }
    assert (Hword : exists p run, pre ++ [c] = p ++ run /\ [] = to_lower_ascii <$> run /\ Forall (fun c => word_char c = true) run /\ no_word (last p) /\ (run <> [] -> wo_start st = str_len p)).
    { exists (pre ++ [c]), []. split_and!; [by rewrite app_nil_r|done|constructor|by rewrite last_snoc|done]. }
    destruct (bool_decide_reflect (wo_word st = [])) as [En|En]; rewrite Ew, fmap_eq_nil in En.
    + split; [intros w s e; rewrite Hnew; tauto|]. by rewrite Ew, En in *.
    + split; [|exact Hword]. intros w s e. cbn [wo_out]. rewrite Hnew, elem_of_app, list_elem_of_singleton, Ew, (Hst En). split.
      * intros [?|[= -> -> ->]]; [by left|right; done].
      * intros [?|(_ & -> & -> & ->)]; [by left|by right].
Qed.
Lemma words_fold pre s st : words_inv pre st -> words_inv (pre ++ s) (fold_left (words_step analyzer) (char_indices (str_len pre) s) st).
Proof using.
  revert pre st. induction s as [|c s IH]; intros pre st Hi; [by rewrite app_nil_r|]. cbn [char_indices fold_left]. rewrite cons_middle, (assoc_L (++)).
  replace (str_len pre + len_utf8 c) with (str_len (pre ++ [c])) by (rewrite str_len_app; cbn; lia). apply IH. by apply words_step_inv.
Qed.
(** The words of a text are its runs, in lower case as far as ASCII goes. *)
Lemma words_spec text w s e :
  (w, s, e) ∈ words analyzer text <-> exists p run q, is_run text p run q /\ w = to_lower_ascii <$> run /\ s = str_len p /\ e = str_len p + str_len run.
Proof using.
  unfold words. set (st := fold_left _ _ _). assert (Hi : words_inv text st).
  { apply (words_fold [] text). split.
    - intros x y z. cbn. split; [by intros ?%elem_of_nil|]. intros (p & run & q & (E & Hne & _) & _). by destruct p, run.
    - exists [], []. split_and!; done. }
  destruct Hi as [Hout (p0 & run0 & Epre & Ew & Hrun & Hp0 & Hst)].
  assert (Hall : (exists p run q, is_run text p run q /\ w = to_lower_ascii <$> run /\ s = str_len p /\ e = str_len p + str_len run) <->
    (w, s, e) ∈ wo_out st \/ (run0 <> [] /\ (w, s, e) = (to_lower_ascii <$> run0, str_len p0, str_len text))).
  { rewrite Hout. split.
    - intros (p & run & q & (E & Hne & Hr & Hp & Hq) & -> & -> & ->). destruct q as [|y q].
      + right. rewrite app_nil_r in E. rewrite Epre in E. destruct (suffix_run p0 run0 p run) as [-> ->]; try done. split; [done|]. by rewrite Epre, str_len_app.
      + left. exists p, run, (y :: q). split; [by split_and!|done].
    - intros [(p & run & q & Hr & _ & ?)|[Hne [= -> -> ->]]]; [by exists p, run, q|]. exists p0, run0, []. split; [|split_and!; [done|done|by rewrite Epre, str_len_app]].
      split_and!; [by rewrite app_nil_r|done|done|done|done]. }
  rewrite Hall. destruct (bool_decide_reflect (wo_word st = [])) as [En|En]; rewrite Ew, fmap_eq_nil in En; [tauto|].
  rewrite elem_of_app, list_elem_of_singleton, Ew, (Hst En). tauto.
Qed.
Lemma words_ok text w : w ∈ words analyzer text -> range_ok text (w.1.2, w.2).
Proof using.
  destruct w as [[w s] e]. intros (p & run & q & (E & _) & _ & -> & ->)%words_spec. cbn [fst snd]. pose proof (str_len_nonneg run). split_and!; cbn [fst snd]; [| |lia].
  - exists (length p). rewrite E. split; [rewrite length_app; lia|]. unfold off. by rewrite take_app_length.
  - exists (length (p ++ run)). rewrite E, (assoc_L (++)). split; [rewrite (length_app (p ++ run)); lia|]. unfold off. by rewrite take_app_length, str_len_app.
Qed.

(** The words are in order. *)
Definition in_order (ws : list (str * Z * Z)) : Prop := StronglySorted (fun a b => a.2 <= b.1.2) ws.
Lemma words_before pre st w : words_inv pre st -> w ∈ wo_out st -> forall p run, pre = p ++ run -> Forall (fun c => word_char c = true) run -> w.2 <= str_len p.
Proof using.
  destruct w as [[w s] e]. intros Hi Hw p run Epre Hrun. apply (wi_out _ _ Hi) in Hw as (p1 & r1 & q1 & (E & _ & _ & _ & Hq) & Hqne & _ & _ & ->). cbn [snd].
  rewrite Epre, (assoc_L (++)) in E. symmetry in E. apply app_eq_app in E as (l & [[E1 E2]|[E1 E2]]).
  - rewrite E2 in Hrun. apply Forall_app in Hrun as [_ Hrun]. destruct q1 as [|c q1]; [done|]. apply Forall_cons in Hrun as [? _]. cbn in Hq. congruence.
  - rewrite E1, !str_len_app. pose proof (str_len_nonneg l). lia.
Qed.
Lemma words_order pre s st : words_inv pre st -> in_order (wo_out st) -> in_order (wo_out (fold_left (words_step analyzer) (char_indices (str_len pre) s) st)).
Proof using.
  revert pre st. induction s as [|c s IH]; intros pre st Hi Ho; [done|]. cbn [char_indices fold_left].
  replace (str_len pre + len_utf8 c) with (str_len (pre ++ [c])) by (rewrite str_len_app; cbn; lia). apply IH; [by apply words_step_inv|].
  unfold words_step. destruct (word_char c); [done|]. destruct (bool_decide_reflect (wo_word st = [])) as [En|En]; [done|]. cbn [wo_out].
  apply StronglySorted_app. split_and!; [|done|repeat constructor]. intros w y Hw ->%list_elem_of_singleton. cbn [fst snd].
  destruct (wi_word _ _ Hi) as (p & run & Ep & Ew & Hr & _ & Hst). rewrite Hst; [by eapply words_before|]. intros ->. done.
Qed.
Lemma words_in_order text : in_order (words analyzer text).
Proof using.
  assert (Hi0 : words_inv [] (mkWords [] [] 0)).
  { split; [|by exists [], []; split_and!]. intros x y z. cbn. split; [by intros ?%elem_of_nil|]. intros (p & run & q & (E & Hne & _) & _). by destruct p, run. }
  pose proof (words_fold [] text _ Hi0) as Hi. pose proof (words_order [] text _ Hi0 ltac:(constructor)) as Ho. change (str_len []) with 0 in *. cbn [app] in Hi.
  unfold words. set (st := fold_left _ _ _) in *. destruct (bool_decide_reflect (wo_word st = [])) as [En|En]; [done|].
  apply StronglySorted_app. split_and!; [|done|repeat constructor]. intros w y Hw ->%list_elem_of_singleton. cbn [fst snd].
  destruct (wi_word _ _ Hi) as (p & run & Ep & Ew & Hr & _ & Hst). rewrite Hst; [by eapply words_before|]. intros ->. done.
Qed.
Lemma in_order_lookup ws i j a b : in_order ws -> ws !! i = Some a -> ws !! j = Some b -> (i < j)%nat -> a.2 <= b.1.2.
Proof using.
  intros Ho Hi Hj Hij. rewrite <-(take_drop (S i) ws) in Ho. apply StronglySorted_app in Ho as (Ho & _ & _). apply Ho.
  - apply list_elem_of_lookup_2 with i. rewrite lookup_take_lt by lia. done.
  - apply list_elem_of_lookup_2 with (j - S i)%nat. rewrite lookup_drop. by replace (S i + (j - S i))%nat with j by lia.
Qed.

(** ** Matches *)

(** The words from [i] on start as those of the phrase. *)
Definition phrase_here (ws : list (str * Z * Z)) (i : nat) (phrase : list str) : Prop :=
  forall k p, phrase !! k = Some p -> exists w, ws !! (i + k)%nat = Some w /\ Tokenizers.starts_with p w.1.1 = true.
Lemma phrase_at_spec ws i phrase : (i + length phrase <= length ws)%nat -> exists b, phrase_starts_at ws i phrase = Some b /\ (b = true <-> phrase_here ws i phrase).
Proof using.
  revert i. induction phrase as [|p phrase IH]; intros i Hi; cbn [phrase_starts_at length] in *; [exists true; by split|].
  destruct (lookup_lt_is_Some_2 ws i) as [w Hw]; [lia|]. rewrite Hw. cbn [mbind option_bind]. destruct (Tokenizers.starts_with p w.1.1) eqn:E.
  - destruct (IH (S i)) as (b & Eb & Hb); [lia|]. exists b. split; [done|]. rewrite Hb. split; intros H k x Hk.
    + destruct k as [|k]; cbn in Hk; [injection Hk as <-; exists w; by rewrite Nat.add_0_r|]. destruct (H k x Hk) as (w' & ? & ?). exists w'. by rewrite Nat.add_succ_r.
    + destruct (H (S k) x Hk) as (w' & Hw' & ?). exists w'. by rewrite Nat.add_succ_r in Hw'.
  - exists false. split; [done|]. split; [done|]. intros H. destruct (H 0%nat p eq_refl) as (w' & Hw' & E'). rewrite Nat.add_0_r in Hw'. congruence.
Qed.
Definition phrase_hit (ws : list (str * Z * Z)) (phrase : list str) (r : Z * Z) : Prop :=
  exists i first last_, phrase_here ws i phrase /\ ws !! i = Some first /\ ws !! (i + length phrase - 1)%nat = Some last_ /\ r = (first.1.2, last_.2).
Lemma phrase_ranges_spec ws m : exists found, phrase_ranges ws m = Some found /\
  forall r, r ∈ found <-> exists phrase, m = HPhrase phrase /\ (2 <= length phrase)%nat /\ phrase_hit ws phrase r.
Proof using.
  destruct m as [p|p|p|phrase|f]; cbn [phrase_ranges]; try (exists []; split; [done|]; intros r; split; [by intros ?%elem_of_nil|by intros (? & ? & _)]).
  destruct (Nat.ltb_spec (length phrase) 2) as [Hl|Hl].
  { exists []. split; [done|]. intros r. split; [by intros ?%elem_of_nil|]. intros (x & [= <-] & ? & _). lia. }
  set (n := (length ws - (length phrase - 1))%nat).
  assert (Hone : forall i, i ∈ seq 0 n -> exists l, phrase_range ws phrase i = Some l /\ forall r, r ∈ l <-> exists first last_, phrase_here ws i phrase /\
    ws !! i = Some first /\ ws !! (i + length phrase - 1)%nat = Some last_ /\ r = (first.1.2, last_.2)).
  { intros i Hi%elem_of_seq. destruct (phrase_at_spec ws i phrase) as (b & Eb & Hb); [lia|]. unfold phrase_range. rewrite Eb. cbn [mbind option_bind]. destruct b.
    - destruct (lookup_lt_is_Some_2 ws i) as [w1 H1]; [lia|]. destruct (lookup_lt_is_Some_2 ws (i + length phrase - 1)) as [w2 H2]; [lia|]. rewrite H1, H2. cbn.
      eexists. split; [done|]. intros r. rewrite list_elem_of_singleton. split; [intros ->; exists w1, w2; by rewrite <-Hb|]. intros (f & l & _ & [= <-] & [= <-] & ->). done.
    - exists []. split; [done|]. intros r. split; [by intros ?%elem_of_nil|]. intros (f & l & H & _). by apply Hb in H. }
  assert (Hmap : forall l, (forall i, i ∈ l -> i ∈ seq 0 n) -> exists ls, mapM (phrase_range ws phrase) l = Some ls /\
    forall r, r ∈ concat ls <-> exists i first last_, i ∈ l /\ phrase_here ws i phrase /\ ws !! i = Some first /\ ws !! (i + length phrase - 1)%nat = Some last_ /\ r = (first.1.2, last_.2)).
  { induction l as [|i l IH]; intros Hin; [exists []; split; [done|]; intros r; cbn; split; [by intros ?%elem_of_nil|by intros (? & ? & ? & ?%elem_of_nil & _)]|].
    destruct (Hone i) as (x & Ex & Hx); [apply Hin; left|]. destruct IH as (ls & El & Hls); [intros j Hj; apply Hin; by right|]. exists (x :: ls). cbn [mapM]. rewrite Ex. cbn. rewrite El. split; [done|].
    intros r. cbn [concat]. rewrite elem_of_app, Hx, Hls. split.
    - intros [(f & l0 & ?)|(j & f & l0 & ? & ?)]; [exists i, f, l0; split; [left|done]|exists j, f, l0; split; [by right|done]].
    - intros (j & f & l0 & [->|?]%elem_of_cons & ?); [left; by exists f, l0|right; by exists j, f, l0]. }
  destruct (Hmap (seq 0 n)) as (ls & El & Hls); [done|]. rewrite El. cbn. eexists. split; [done|]. intros r. rewrite Hls. split.
  - intros (i & f & l & _ & H). exists phrase. split; [done|]. split; [lia|]. by exists i, f, l.
  - intros (x & [= <-] & _ & (i & f & l & H & H1 & H2 & E)). exists i, f, l. split; [|done]. apply elem_of_seq. apply lookup_lt_Some in H2. lia.
Qed.
End words.

Lemma starts_with_app pat s : Tokenizers.starts_with pat s = true -> s = pat ++ drop (length pat) s.
Proof.
  revert s. induction pat as [|c pat IH]; intros [|d s] H; cbn in *; try done. apply andb_true_iff in H as [->%Z.eqb_eq H]. f_equal. by apply IH.
Qed.
(** What [match_indices] finds is there. *)
Lemma match_loop_finds fuel pat s a i : i ∈ match_loop fuel pat s a -> exists pre post, s = pre ++ pat ++ post /\ i = a + str_len pre.
Proof.
  revert s a. induction fuel as [|fuel IH]; intros s a; cbn [match_loop]; [by intros ?%elem_of_nil|].
  assert (Hnext : i ∈ match s with [] => [] | c :: s => match_loop fuel pat s (a + len_utf8 c) end -> exists pre post, s = pre ++ pat ++ post /\ i = a + str_len pre).
  { destruct s as [|c s]; [by intros ?%elem_of_nil|]. intros (pre & post & -> & ->)%IH. exists (c :: pre), post. split; [done|]. rewrite str_len_cons. lia. }
  destruct (Tokenizers.starts_with pat s) eqn:E; [|done]. apply starts_with_app in E. intros [->|Hi]%elem_of_cons.
  - exists [], (drop (length pat) s). split; [done|]. cbn. lia.
  - destruct (bool_decide (pat = [])); [by apply Hnext|]. apply IH in Hi as (pre & post & E2 & ->). exists (pat ++ pre), post. rewrite E at 1. rewrite E2, str_len_app, <-(assoc_L (++)). split; [done|lia].
Qed.
Lemma boundary_pre pre post : boundary (pre ++ post) (str_len pre).
Proof. exists (length pre). split; [rewrite length_app; lia|]. unfold off. by rewrite take_app_length. Qed.
Lemma exact_ok text m r : r ∈ exact_ranges text m -> range_ok text r.
Proof.
  destruct m as [| |s| |]; cbn [exact_ranges]; try by intros ?%elem_of_nil. intros (i & -> & (pre & post & -> & ->)%match_loop_finds)%list_elem_of_fmap. cbn [fst snd]. rewrite Z.add_0_l.
  pose proof (str_len_nonneg s). split_and!; cbn [fst snd]; [apply boundary_pre| |lia]. rewrite <-str_len_app, (assoc_L (++)). apply boundary_pre.
Qed.

Section found.
Context {CC : CharClasses} {CT : CaseTables} {TL : TantivyLib} (analyzer : Analyzers.Analyzer).

(** Where a text matches: a word that a matcher matches, words that follow each other as a phrase
    has them, and a text that is looked for as it is. *)
Definition hit (text : str) (matchers : list HighlightMatcher) (r : Z * Z) : Prop :=
  (exists word, (word, r.1, r.2) ∈ words analyzer text /\ exists m, m ∈ matchers /\ matches_word word m = true) \/
  (exists phrase, HPhrase phrase ∈ matchers /\ (2 <= length phrase)%nat /\ phrase_hit (words analyzer text) phrase r) \/
  (exists s, HExact s ∈ matchers /\ exists start, start ∈ match_indices s text /\ r = (start, start + str_len s)).
Lemma phrases_spec ws matchers : exists found, mapM (phrase_ranges ws) matchers = Some found /\
  forall r, r ∈ concat found <-> exists phrase, HPhrase phrase ∈ matchers /\ (2 <= length phrase)%nat /\ phrase_hit ws phrase r.
Proof using.
  induction matchers as [|m matchers (found & Ef & Hf)].
  { exists []. split; [done|]. intros r. cbn. split; [by intros ?%elem_of_nil|by intros (? & ?%elem_of_nil & _)]. }
  destruct (phrase_ranges_spec ws m) as (x & Ex & Hx). exists (x :: found). cbn [mapM]. rewrite Ex. cbn. rewrite Ef. split; [done|]. intros r. cbn [concat]. rewrite elem_of_app, Hx, Hf. split.
  - intros [(p & -> & ?)|(p & ? & ?)]; exists p; (split; [|done]); [left|by right].
  - intros (p & [<-|?]%elem_of_cons & ?); [left; by exists p|right; by exists p].
Qed.
Lemma find_ranges_spec text matchers : exists found, find_ranges analyzer text matchers = Some found /\ forall r, r ∈ found <-> hit text matchers r.
Proof using.
  destruct (phrases_spec (words analyzer text) matchers) as (ps & Ep & Hp). unfold find_ranges. rewrite Ep. cbn [mbind option_bind]. eexists. split; [done|]. intros r.
  rewrite !elem_of_app, Hp. unfold hit. f_equiv; [|f_equiv].
  - rewrite list_elem_of_omap. split.
    + intros ([[w s] e] & Hw & E). cbn [fst snd] in E. destruct (existsb _ _) eqn:Eb; [|done]. injection E as <-. exists w. split; [done|].
      apply existsb_exists in Eb as (m & Hm%list_elem_of_In & ?). by exists m.
    + intros (w & Hw & m & Hm & E). exists (w, r.1, r.2). split; [done|]. cbn [fst snd]. assert (existsb (matches_word w) matchers = true) as ->; [|by destruct r].
      apply existsb_exists. exists m. by rewrite <-list_elem_of_In.
  - rewrite list_elem_of_In, in_concat. setoid_rewrite <-list_elem_of_In. split.
    + intros (l & (m & -> & Hm)%list_elem_of_fmap & Hr). destruct m as [| |s| |]; cbn [exact_ranges] in Hr; try by apply elem_of_nil in Hr.
      apply list_elem_of_fmap in Hr as (st & -> & Hst). exists s. split; [done|]. by exists st.
    + intros (s & Hs & st & Hst & ->). exists (exact_ranges text (HExact s)). split; [by apply list_elem_of_fmap_2|]. cbn [exact_ranges]. apply list_elem_of_fmap. by exists st.
Qed.
Lemma hit_ok text matchers r : hit text matchers r -> range_ok text r.
Proof using.
  intros [(w & Hw & _)|[(phrase & _ & Hl & i & f & l & _ & Hf & Hl0 & ->)|(s & _ & st & Hst & ->)]].
  - apply words_ok in Hw. by destruct r.
  - pose proof (words_ok analyzer text f (list_elem_of_lookup_2 _ _ _ Hf)) as (Hb & _ & _). pose proof (words_ok analyzer text l (list_elem_of_lookup_2 _ _ _ Hl0)) as (_ & He & Hle).
    pose proof (words_ok analyzer text f (list_elem_of_lookup_2 _ _ _ Hf)) as (_ & _ & Hle').
    pose proof (in_order_lookup _ _ _ _ _ (words_in_order analyzer text) Hf Hl0 ltac:(lia)). cbn [fst snd] in *. split_and!; cbn [fst snd]; [done|done|lia].
  - apply (exact_ok text (HExact s)). cbn [exact_ranges]. apply list_elem_of_fmap. by exists st.
Qed.
End found.

(** ** Where fragments start and end *)

Lemma snap_down_spec text i : 0 <= i <= str_len text -> boundary text (snap_down text i) /\ 0 <= snap_down text i <= i.
Proof.
  intros Hi. unfold snap_down. assert (Hf : i <= Z.of_nat (Z.to_nat i)) by lia. revert Hf. generalize (Z.to_nat i) as fuel. intros fuel. revert i Hi.
  induction fuel as [|fuel IH]; intros i Hi Hf; cbn [snap_down_loop]; [assert (i = 0) as -> by lia; split; [apply boundary_0|lia]|].
  destruct (Z.ltb_spec 0 i) as [H0|H0]; cbn [andb]; [|assert (i = 0) as -> by lia; split; [apply boundary_0|lia]].
  destruct (is_char_boundary text i) eqn:E; cbn [negb]; [split; [by apply boundary_spec|lia]|]. destruct (IH (i - 1)) as [H1 H2]; [lia|lia|]. split; [done|lia].
Qed.
Lemma snap_up_spec text i : 0 <= i <= str_len text -> boundary text (snap_up text i) /\ i <= snap_up text i <= str_len text.
Proof.
  intros Hi. unfold snap_up. assert (Hf : str_len text - i <= Z.of_nat (Z.to_nat (str_len text - i))) by lia. revert Hf. generalize (Z.to_nat (str_len text - i)) as fuel. intros fuel. revert i Hi.
  induction fuel as [|fuel IH]; intros i Hi Hf; cbn [snap_up_loop]; [assert (i = str_len text) as -> by lia; split; [apply boundary_len|lia]|].
  destruct (Z.ltb_spec i (str_len text)) as [H0|H0]; cbn [andb]; [|assert (i = str_len text) as -> by lia; split; [apply boundary_len|lia]].
  destruct (is_char_boundary text i) eqn:E; cbn [negb]; [split; [by apply boundary_spec|lia]|]. destruct (IH (i + 1)) as [H1 H2]; [lia|lia|]. split; [done|lia].
Qed.
(** Sentences follow each other from the start of the text to its end. *)
Fixpoint tiles (text : str) (a : Z) (l : list (Z * Z)) (b : Z) : Prop :=
  match l with [] => a = b | (s, e) :: l => s = a /\ s < e /\ boundary text e /\ tiles text e l b end.
Lemma tiles_snoc text a l b c : tiles text a l b -> b < c -> boundary text c -> tiles text a (l ++ [(b, c)]) c.
Proof.
  revert a. induction l as [|[s e] l IH]; intros a; cbn; [by intros ->|]. intros (-> & ? & ? & ?) ? ?. split_and!; try done. by apply IH.
Qed.
Lemma sentences_fold text pre s out start :
  text = pre ++ s -> tiles text 0 out start -> start <= str_len pre ->
  exists out' start', fold_left sentence_step (char_indices (str_len pre) s) (out, start) = (out', start') /\ tiles text 0 out' start' /\ start' <= str_len text.
Proof.
  revert pre out start. induction s as [|c s IH]; intros pre out start E Ht Hs; cbn [char_indices fold_left].
  - exists out, start. split_and!; [done|done|]. rewrite E, app_nil_r. done.
  - replace (str_len pre + len_utf8 c) with (str_len (pre ++ [c])) by (rewrite str_len_app; cbn; lia). rewrite cons_middle, (assoc_L (++)) in E. pose proof (len_utf8_pos c).
    assert (El : str_len (pre ++ [c]) = str_len pre + len_utf8 c) by (rewrite str_len_app; cbn; lia).
    cbn [sentence_step]. destruct (bool_decide _); apply IH; try done; try lia. rewrite <-El. apply tiles_snoc; [done|lia|]. rewrite E. apply boundary_pre.
Qed.
Lemma split_sentences_spec text : tiles text 0 (split_sentences text) (str_len text).
Proof.
  unfold split_sentences. destruct (sentences_fold text [] text [] 0) as (out & start & E & Ht & Hs); [done|done|done|]. change (str_len []) with 0 in E. rewrite E.
  destruct (Z.ltb_spec start (str_len text)); [apply tiles_snoc; [done|done|apply boundary_len]|]. by replace (str_len text) with start by lia.
Qed.
Lemma tiles_ok text a l b s e : boundary text a -> tiles text a l b -> (s, e) ∈ l -> boundary text s /\ boundary text e /\ s < e.
Proof.
  revert a. induction l as [|[s' e'] l IH]; intros a Ha; cbn; [intros _ H; by apply elem_of_nil in H|]. intros (-> & Hlt & He & Ht) [E|Hin]%elem_of_cons; [injection E as -> ->; by split_and!|by eapply IH].
Qed.

(** ** Fragments *)

(** A fragment shows the text from one offset to another, and tags what the ranges cover. *)
Definition shown (text : str) (ranges : list (Z * Z)) (opts : HighlightFieldOptions) (w : Z * Z) (fragment : str) : Prop :=
  range_ok text w /\ exists pieces, fragment = render opts pieces /\ marks pieces = marked_window text ranges w.1 w.2.
Definition touches (ranges : list (Z * Z)) (w : Z * Z) : Prop := existsb (fun r => (r.1 <? w.2) && (w.1 <? r.2)) ranges = true.
#[local] Instance touches_dec ranges w : Decision (touches ranges w).
Proof. unfold touches. apply _. Defined.
Lemma build_snippet_spec text ws we ranges opts :
  range_ok text (ws, we) -> apart ranges -> Forall (range_ok text) ranges -> exists fragment, build_snippet text ws we ranges opts = Some fragment /\ shown text ranges opts (ws, we) fragment.
Proof.
  intros (Hs & He & Hle) Ha Hr. cbn [fst snd] in *. destruct (snippet_spec text ws we opts ranges ws []) as (pieces & E & Hm); [done|done|done|lia|done|done| |].
  { apply Forall_forall. intros r _. left. lia. }
  eexists. split; [exact E|]. split; [done|]. by exists pieces.
Qed.
Lemma sentence_loop_spec text ranges opts sentences out :
  apart ranges -> Forall (range_ok text) ranges -> Forall (range_ok text) sentences -> zlen out < Z.max 1 (ho_number_of_fragments opts) ->
  exists fragments, sentence_loop text ranges opts sentences out = Some (out ++ fragments) /\
    Forall2 (shown text ranges opts) (take (Z.to_nat (Z.max 1 (ho_number_of_fragments opts)) - length out) (filter (touches ranges) sentences)) fragments.
Proof.
  intros Ha Hr Hs. revert out. induction Hs as [|[s e] sentences Hse Hs IH]; intros out Ho; cbn [sentence_loop].
  { exists []. rewrite app_nil_r. split; [done|]. rewrite filter_nil, take_nil. constructor. }
  rewrite filter_cons. destruct (existsb _ ranges) eqn:Et.
  - rewrite decide_True by done. destruct (build_snippet_spec text s e ranges opts Hse Ha Hr) as (f & Ef & Hf). rewrite Ef. cbn [mbind option_bind].
    replace (Z.to_nat (Z.max 1 (ho_number_of_fragments opts)) - length out)%nat with (S (Z.to_nat (Z.max 1 (ho_number_of_fragments opts)) - length (out ++ [f])))%nat by (rewrite length_app; cbn; lia).
    rewrite firstn_cons. destruct (Z.leb_spec (ho_number_of_fragments opts) (zlen (out ++ [f]))) as [Hn|Hn]; rewrite length_app in Hn; cbn in Hn.
    + exists [f]. split; [done|]. replace (Z.to_nat (Z.max 1 (ho_number_of_fragments opts)) - length (out ++ [f]))%nat with 0%nat by (rewrite length_app; cbn; lia). rewrite take_0. by apply Forall2_cons; split; [|apply Forall2_nil].
    + destruct (IH (out ++ [f])) as (fs & E & H); [rewrite length_app; cbn; lia|]. exists (f :: fs). split; [rewrite E; by rewrite <-(assoc_L (++))|]. by constructor.
  - rewrite decide_False by (unfold touches; cbn; congruence). by apply IH.
Qed.
(** The windows of the fragments by characters: around each of the first ranges. *)
Definition around (text : str) (opts : HighlightFieldOptions) (r w : Z * Z) : Prop :=
  w.1 <= Z.max 0 (r.1 - ho_fragment_size opts / 2) <= r.1 /\ r.2 <= Z.min (r.2 + ho_fragment_size opts / 2) (str_len text) <= w.2.
Lemma chars_spec text ranges opts l :
  0 <= ho_fragment_size opts -> apart ranges -> Forall (range_ok text) ranges -> Forall (range_ok text) l ->
  exists windows fragments, mapM (fun r : Z * Z => build_snippet text (snap_down text (Z.max 0 (r.1 - ho_fragment_size opts / 2)))
      (snap_up text (Z.min (r.2 + ho_fragment_size opts / 2) (str_len text))) ranges opts) l = Some fragments /\
    Forall2 (shown text ranges opts) windows fragments /\ Forall2 (around text opts) l windows.
Proof.
  intros H0 Ha Hr Hl. assert (Hh : 0 <= ho_fragment_size opts / 2) by (apply Z.div_pos; lia). induction Hl as [|[rs re] l (Hb & He & Hle) Hl (ws & fs & E & H1 & H2)]; [by exists [], []|].
  cbn [fst snd] in *. pose proof (boundary_range _ _ Hb). pose proof (boundary_range _ _ He). cbn [mapM fst snd].
  destruct (snap_down_spec text (Z.max 0 (rs - ho_fragment_size opts / 2))) as [Hd1 Hd2]; [lia|].
  destruct (snap_up_spec text (Z.min (re + ho_fragment_size opts / 2) (str_len text))) as [Hu1 Hu2]; [lia|].
  set (a := snap_down _ _) in *. set (b := snap_up _ _) in *. destruct (build_snippet_spec text a b ranges opts) as (f & Ef & Hf); [split_and!; cbn; [done|done|lia]|done|done|].
  exists ((a, b) :: ws), (f :: fs). rewrite Ef. cbn. rewrite E. split; [done|]. split; [by constructor|]. constructor; [|done]. unfold around. cbn [fst snd]. lia.
Qed.
(** Which parts of the text are shown. *)
Definition windows_of (text : str) (ranges : list (Z * Z)) (opts : HighlightFieldOptions) (windows : list (Z * Z)) : Prop :=
  if bool_decide (ranges = []) then windows = []
  else if ho_sentence opts then windows = take (Z.to_nat (Z.max 1 (ho_number_of_fragments opts))) (filter (touches ranges) (split_sentences text))
  else if str_len text <=? ho_fragment_size opts then windows = [(0, str_len text)]
  else Forall2 (around text opts) (take (Z.to_nat (ho_number_of_fragments opts)) ranges) windows.
Lemma fragments_spec text ranges opts :
  0 <= ho_fragment_size opts -> apart ranges -> Forall (range_ok text) ranges -> ranges <> [] ->
  exists windows fragments, (if ho_sentence opts then fragments_by_sentence text ranges opts else fragments_by_chars text ranges opts) = Some fragments /\
    windows_of text ranges opts windows /\ Forall2 (shown text ranges opts) windows fragments.
Proof.
  intros H0 Ha Hr Hne. unfold windows_of. rewrite bool_decide_eq_false_2 by done. destruct (ho_sentence opts).
  - destruct (sentence_loop_spec text ranges opts (split_sentences text) []) as (fs & E & H); [done|done| |cbn; lia|].
    { apply Forall_forall. intros [s e] Hin. destruct (tiles_ok _ _ _ _ _ _ (boundary_0 text) (split_sentences_spec text) Hin) as (? & ? & ?). split_and!; cbn; [done|done|lia]. }
    cbn [length] in H. rewrite Nat.sub_0_r in H. unfold fragments_by_sentence. rewrite E. by eexists _, fs.
  - unfold fragments_by_chars. destruct (str_len text <=? ho_fragment_size opts).
    + destruct (build_snippet_spec text 0 (str_len text) ranges opts) as (f & E & H); [|done|done|].
      { split_and!; cbn; [apply boundary_0|apply boundary_len|apply str_len_nonneg]. }
      rewrite E. cbn. exists [(0, str_len text)], [f]. split; [done|]. split; [done|]. by apply Forall2_cons; split; [|apply Forall2_nil].
    + destruct (chars_spec text ranges opts (take (Z.to_nat (ho_number_of_fragments opts)) ranges)) as (ws & fs & E & H1 & H2); [done|done|done|by apply Forall_take|]. rewrite E. by exists ws, fs.
Qed.

(** C28: highlighting never cuts a text inside a character or reads past it. The fragments are parts
    of the text: the sentences a match touches, the whole of a short text, or the surroundings of
    the first matches; in each of them exactly the characters of the matches are between tags, and
    a match is a word some matcher of the query matches, words in a row that start as those of a
    phrase, or an exact text. *)
Theorem highlight_correct {CC : CharClasses} {CT : CaseTables} {TL : TantivyLib} (analyzer : Analyzers.Analyzer) text matchers opts :
  0 <= ho_fragment_size opts ->
  exists found windows fragments,
    (forall r, r ∈ found <-> hit analyzer text matchers r) /\
    highlight_text text analyzer matchers opts = Some fragments /\
    windows_of text (merge_ranges found) opts windows /\
    Forall2 (shown text found opts) windows fragments /\
    tiles text 0 (split_sentences text) (str_len text).
Proof.
  intros H0. destruct (find_ranges_spec analyzer text matchers) as (found & Ef & Hf).
  assert (Hok : Forall (range_ok text) found) by (apply Forall_forall; intros r Hr; apply (hit_ok analyzer text matchers); by apply Hf).
  destruct (merge_ranges_spec text found Hok) as (Ha & Hr & Hc & Hn). unfold highlight_text. rewrite Ef. cbn [mbind option_bind].
  destruct (bool_decide_reflect (merge_ranges found = [])) as [En|En].
  - exists found, [], []. unfold windows_of. rewrite bool_decide_eq_true_2 by done. split_and!; [done|done|done|constructor|apply split_sentences_spec].
  - destruct (fragments_spec text (merge_ranges found) opts H0 Ha Hr En) as (windows & fragments & E & Hw & Hs). exists found, windows, fragments.
    split; [done|]. split; [exact E|]. split; [done|]. split; [|apply split_sentences_spec]. eapply Forall2_impl; [exact Hs|]. intros w f (Hw0 & pieces & -> & Hm). split; [done|].
    exists pieces. split; [done|]. rewrite Hm. apply marked_ext. intros i _. apply Hc.
Qed.

(** ** Examples *)

#[local] Existing Instances ascii_classes ascii_cases ascii_lib.

Definition example_options (size fragments : Z) (sentence : bool) : HighlightFieldOptions :=
  mkOptions size fragments [lit "<em>"] [lit "</em>"] sentence.
Definition example_analyzer : Analyzers.Analyzer := (with_literal_symbols 0 ∅).2.
Definition example_matchers : list HighlightMatcher :=
  collect (mkAnalyzer (fun w => [mkToken w 0])) (QOr [QTerm (lit "spider"); QPhrase [mkPhraseTerm (lit "new") 0; mkPhraseTerm (lit "york") 1]; QExact (lit "a B")]).
Lemma highlight_example :
  highlight_text (lit "Spiders in New York. A cat! a Big spider") example_analyzer example_matchers (example_options 150 5 true) =
    Some [lit "<em>Spiders</em> in <em>New York</em>."; lit " <em>a B</em>ig <em>spider</em>"] /\
  highlight_text (lit "Spiders in New York. A cat! a Big spider") example_analyzer example_matchers (example_options 12 2 false) =
    Some [lit "<em>Spiders</em> in <em>Ne</em>"; lit "<em>rs</em> in <em>New York</em>. A ca"].
Proof. split; vm_compute; reflexivity. Qed.

Lemma highlight_correct_witness :
  exists found windows fragments,
    (forall r, r ∈ found <-> hit example_analyzer (lit "a spider. New cat.") example_matchers r) /\
    highlight_text (lit "a spider. New cat.") example_analyzer example_matchers (example_options 5 1 false) = Some fragments /\
    windows_of (lit "a spider. New cat.") (merge_ranges found) (example_options 5 1 false) windows /\
    Forall2 (shown (lit "a spider. New cat.") found (example_options 5 1 false)) windows fragments /\
    tiles (lit "a spider. New cat.") 0 (split_sentences (lit "a spider. New cat.")) (str_len (lit "a spider. New cat.")).
Proof. apply (highlight_correct example_analyzer (lit "a spider. New cat.") example_matchers (example_options 5 1 false)). cbn. lia. Defined.

(** A number is looked up as it is, and highlighted with the edits of a word. *)
Lemma fuzzy_number_highlighted :
  fo_max_edits (fuzzy_options (lit "2024") FAuto (mkFuzzySpec 0 50)) = 0 /\
  highlight_text (lit "in 2025") example_analyzer (collect (mkAnalyzer (fun w => [mkToken w 0])) (QFuzzy (lit "2024") FAuto (mkFuzzySpec 0 50))) (example_options 150 5 false) =
    Some [lit "in <em>2025</em>"].
Proof. split; vm_compute; reflexivity. Qed.
(** A capital outside ASCII is lowered in the query and not in the text: a word is not highlighted
    when it is searched for as it is written. *)
Lemma capital_not_highlighted :
  let CC := {| is_alphanumeric c := true; is_alphabetic c := true; is_lowercase c := c =? 233 |} : CharClasses in
  let CT := {| to_lowercase w := (fun c => if c =? 201 then 233 else c) <$> w; is_uppercase c := c =? 201 |} : CaseTables in
  highlight_text [201] example_analyzer (collect (mkAnalyzer (fun w => [mkToken w 0])) (QTerm [201])) (example_options 150 5 false) = Some [] /\
  highlight_text [233] example_analyzer (collect (mkAnalyzer (fun w => [mkToken w 0])) (QTerm [201])) (example_options 150 5 false) = Some [lit "<em>" ++ [233] ++ lit "</em>"].
Proof. split; vm_compute; reflexivity. Qed.
