(* ===== verification/Ranking.v ===== *)
(** * The final ranking

    Models [crates/core-query/src/search_hit.rs] ([SearchHit], [rank_order], [TopHit]),
    [crates/core-query/src/ranking.rs] (coverage, the final score, [finalize]) and
    [top_k_from_hits] of [crates/core-query/src/executor.rs]. [f32::powf] depends on the
    platform's mathematical library and is a parameter; a [HashMap] of hits is a [gmap], and the
    theorems show that the order it is read in does not matter. *)
From Stdlib Require Import ZArith Lia SpecFloat.
From stdpp Require Import base numbers list sorting gmap.
From S2P Require Import Prelude Types Numeric Scorer FuzzyRank Executor.
Local Open Scope Z_scope.

(** ** [f32] *)

(** [f32::to_bits]; the one NaN stands for the quiet one. *)
Definition f32_bits (x : f32) : Z :=
  let sign (s : bool) := if s then 2 ^ 31 else 0 in
  match x with
  | S754_zero s => sign s
  | S754_infinity s => sign s + Z.shiftl 255 23
  | S754_nan => Z.shiftl 255 23 + 2 ^ 22
  | S754_finite s m e =>
    if Z.pos m <? 2 ^ 23 then sign s + Z.pos m
    else sign s + Z.shiftl (e + 150) 23 + (Z.pos m - 2 ^ 23)
  end.
(** [f32::total_cmp]: the bits as a signed integer, the magnitude of negative ones inverted. *)
Definition f32_total_key (x : f32) : Z :=
  let b := f32_bits x in if b <? 2 ^ 31 then b else 2 ^ 31 - 1 - b.
Definition f32_total_cmp (x y : f32) : comparison := f32_total_key x ?= f32_total_key y.

Definition f32_lt : f32 -> f32 -> bool := SFltb.
Definition f32_is_finite (x : f32) : bool := match x with S754_zero _ | S754_finite _ _ _ => true | _ => false end.
(** [Sum for f32] starts from [-0.0]. *)
Definition f32_sum (l : list f32) : f32 := fold_left f32_add l (S754_zero true).
Definition f32_clamp (x lo hi : f32) : f32 :=
  let x := if f32_lt x lo then lo else x in if f32_lt hi x then hi else x.
Class Powf := f32_powf : f32 -> f32 -> f32.

(** ** Hits *)

Record SearchHit : Type := mkSearchHit {
  sh_doc_id : DocId;
  sh_matched_terms : nat;
  sh_weight_sum : Z;
  sh_distance_factor : f32;
  sh_score : f32;
  sh_tier : Z;
  sh_level : Z;
  sh_base : f32;
  sh_mask : Z;
  sh_name_share : f32
}.
Definition SearchHit_default : SearchHit :=
  mkSearchHit 0 0 0 (S754_zero false) (S754_zero false) 0 0 (S754_zero false) 0 (S754_zero false).

Definition cmp_then (a b : comparison) : comparison := match a with Eq => b | _ => a end.
Definition rank_order (a b : SearchHit) : comparison :=
  cmp_then (sh_tier a ?= sh_tier b) (cmp_then (sh_level a ?= sh_level b)
    (cmp_then (f32_total_cmp (sh_score b) (sh_score a)) (sh_doc_id a ?= sh_doc_id b))).
Definition rank_leb (a b : SearchHit) : bool := match rank_order a b with Gt => false | _ => true end.
(** [TopHit]: the heap gives out the greatest, which is the worst. *)
Definition top_hit_first (a b : SearchHit) : bool := match rank_order a b with Lt => false | _ => true end.

(** [heap.push(..); if heap.len() > k { heap.pop(); }] *)
Definition push_hit (k : nat) (heap : list SearchHit) (hit : SearchHit) : list SearchHit :=
  let heap := hit :: heap in
  if (k <? length heap)%nat
  then match heap_pop top_hit_first heap with Some (_, rest) => rest | None => heap end
  else heap.
Definition top_k_from_hits (hits : list SearchHit) (k : nat) : list SearchHit :=
  stable_sort rank_leb (fold_left (push_hit k) hits []).

(** ** Scores *)

Definition f32_two : f32 := f32_of 2.
Definition COVERAGE_POWER : f32 := f32_two.
Definition DENSITY_BOOST : f32 := f32_half.
Definition NAME_BONUS : f32 := f32_div (f32_of 3) f32_two.
Definition MAX_CLAUSES : nat := 64.

Record RankedGroup : Type := mkGroup { rg_hits : list SearchHit; rg_clause_weights : list f32 }.

Definition coverage (mask : Z) (weights : list f32) : f32 :=
  let total := f32_sum weights in
  if f32_is_nan total || f32_le total f32_zero then f32_one
  else
    let held := f32_sum (snd <$> filter (fun e => Z.testbit mask (Z.of_nat e.1) = true) (take MAX_CLAUSES (imap pair weights))) in
    f32_clamp (f32_div held total) f32_zero f32_one.

Section scores.
Context `{Powf}.

Definition final_score (hit : SearchHit) (coverage : f32) : f32 :=
  let score :=
    f32_mul (f32_mul (f32_mul (sh_base hit) (f32_powf coverage COVERAGE_POWER))
      (f32_add f32_one (f32_mul DENSITY_BOOST (sh_distance_factor hit))))
      (f32_add f32_one (f32_mul NAME_BONUS (sh_name_share hit))) in
  if f32_is_finite score then f32_max score f32_zero else f32_zero.

(** ** Merging the groups *)

Record Merged : Type := mkMerged { mg_hit : SearchHit; mg_best_coverage : f32; mg_measured : bool }.

(** [(a.tier, a.level) < (b.tier, b.level)] *)
Definition place_lt (a b : SearchHit) : bool :=
  (sh_tier a <? sh_tier b) || ((sh_tier a =? sh_tier b) && (sh_level a <? sh_level b)).

(** Another group's hit of the same document. *)
Definition merge_known (known : Merged) (hit : SearchHit) (group_coverage : f32) (measured : bool) : Merged :=
  let old := mg_hit known in
  let place := if place_lt hit old then hit else old in
  mkMerged
    (mkSearchHit (sh_doc_id old) (Nat.max (sh_matched_terms old) (sh_matched_terms hit))
      (saturating_add 32 (sh_weight_sum old) (sh_weight_sum hit))
      (f32_max (sh_distance_factor old) (sh_distance_factor hit)) (sh_score old) (sh_tier place) (sh_level place)
      (f32_add (sh_base old) (sh_base hit)) (Z.lor (sh_mask old) (sh_mask hit))
      (f32_max (sh_name_share old) (sh_name_share hit)))
    (f32_max (mg_best_coverage known) group_coverage) (mg_measured known || measured).
Definition is_measured (group : RankedGroup) : bool := match rg_clause_weights group with [] => false | _ => true end.
Definition merge_hit (group : RankedGroup) (merged : gmap Z Merged) (hit : SearchHit) : gmap Z Merged :=
  let group_coverage := coverage (sh_mask hit) (rg_clause_weights group) in
  <[sh_doc_id hit := match merged !! sh_doc_id hit with
                     | Some known => merge_known known hit group_coverage (is_measured group)
                     | None => mkMerged hit group_coverage (is_measured group)
                     end]> merged.
Definition merge_groups (groups : list RankedGroup) : gmap Z Merged :=
  fold_left (fun merged group => fold_left (merge_hit group) (rg_hits group) merged) groups ∅.

(** The lowest weight of every clause, when all groups have the same clauses. *)
Definition combined_weights (groups : list RankedGroup) : option (list f32) :=
  match filter (fun w => w <> []) (rg_clause_weights <$> groups) with
  | [] => None
  | first :: rest =>
    if forallb (fun w => (length w =? length first)%nat) (first :: rest)
    then Some ((fun i => fold_left f32_min ((fun w => w !!! i) <$> first :: rest) (S754_infinity false)) <$> seq 0 (length first))
    else None
  end.

Definition score_merged (combined : option (list f32)) (entry : Merged) : SearchHit :=
  let hit := mg_hit entry in
  let doc_coverage :=
    match combined with
    | Some weights => if mg_measured entry then coverage (sh_mask hit) weights else mg_best_coverage entry
    | None => mg_best_coverage entry
    end in
  mkSearchHit (sh_doc_id hit) (sh_matched_terms hit) (sh_weight_sum hit) (sh_distance_factor hit)
    (final_score hit doc_coverage) (sh_tier hit) (sh_level hit) (sh_base hit) (sh_mask hit) (sh_name_share hit).

Definition finalize (groups : list RankedGroup) (k : nat) : list SearchHit :=
  if (k =? 0)%nat then []
  else
    let hits := score_merged (combined_weights groups) <$> into_values (merge_groups groups) in
    take k (stable_sort rank_leb hits).
End scores.

(** ** The order *)

(** [a] is ranked in front of [b]. *)
Definition before (a b : SearchHit) : Prop :=
  sh_tier a < sh_tier b \/ (sh_tier a = sh_tier b /\
  (sh_level a < sh_level b \/ (sh_level a = sh_level b /\
  (f32_total_key (sh_score b) < f32_total_key (sh_score a) \/ (f32_total_key (sh_score a) = f32_total_key (sh_score b) /\
   sh_doc_id a < sh_doc_id b))))).

Lemma rank_order_cases a b :
  match rank_order a b with
  | Lt => before a b
  | Gt => before b a
  | Eq => sh_tier a = sh_tier b /\ sh_level a = sh_level b /\ f32_total_key (sh_score a) = f32_total_key (sh_score b) /\ sh_doc_id a = sh_doc_id b
  end.
Proof.
  unfold rank_order, cmp_then, f32_total_cmp, before.
  destruct (Z.compare_spec (sh_tier a) (sh_tier b)); [|lia..].
  destruct (Z.compare_spec (sh_level a) (sh_level b)); [|lia..].
  destruct (Z.compare_spec (f32_total_key (sh_score b)) (f32_total_key (sh_score a))); [|lia..].
  destruct (Z.compare_spec (sh_doc_id a) (sh_doc_id b)); lia.
Qed.

Lemma before_trans a b c : before a b -> before b c -> before a c.
Proof. unfold before. lia. Qed.
Lemma before_irrefl a : ~ before a a.
Proof. unfold before. lia. Qed.
Lemma before_total a b : sh_doc_id a <> sh_doc_id b -> before a b \/ before b a.
Proof. unfold before. lia. Qed.

Lemma rank_order_lt a b : rank_order a b = Lt <-> before a b.
Proof. pose proof (rank_order_cases a b) as H. unfold before in *. destruct (rank_order a b); split; intros; try done; lia. Qed.
Lemma rank_leb_spec a b : rank_leb a b = true <-> ~ before b a.
Proof. unfold rank_leb. pose proof (rank_order_cases a b) as H. unfold before in *. destruct (rank_order a b); split; intros; try done; lia. Qed.
Lemma rank_leb_total a b : rank_leb a b = true \/ rank_leb b a = true.
Proof. rewrite !rank_leb_spec. unfold before. lia. Qed.
Lemma rank_leb_trans a b c : rank_leb a b = true -> rank_leb b c = true -> rank_leb a c = true.
Proof. rewrite !rank_leb_spec. unfold before. lia. Qed.
Lemma top_hit_first_spec a b : top_hit_first a b = true <-> ~ before a b.
Proof. unfold top_hit_first. rewrite <-rank_order_lt. by destruct (rank_order a b). Qed.
Lemma top_hit_first_total a b : top_hit_first a b = true \/ top_hit_first b a = true.
Proof. rewrite !top_hit_first_spec. unfold before. lia. Qed.
Lemma top_hit_first_trans a b c : top_hit_first a b = true -> top_hit_first b c = true -> top_hit_first a c = true.
Proof. rewrite !top_hit_first_spec. unfold before. lia. Qed.

Abbreviation ranked := (StronglySorted before).

(** A sorted list of hits of different documents is strictly sorted. *)
Lemma sorted_ranked l : StronglySorted (fun a b => rank_leb a b = true) l -> NoDup (sh_doc_id <$> l) -> ranked l.
Proof.
  induction 1 as [|x l Hs IH Hx]; intros Hn; [constructor|]. rewrite fmap_cons in Hn. apply NoDup_cons in Hn as [Hd Hn].
  constructor; [by apply IH|]. rewrite Forall_forall in *. intros y Hy. specialize (Hx y Hy). apply rank_leb_spec in Hx.
  destruct (before_total x y); [|done|done]. intros He. apply Hd. rewrite He. by apply list_elem_of_fmap_2.
Qed.

Lemma sort_ranked l : NoDup (sh_doc_id <$> l) -> ranked (stable_sort rank_leb l) /\ stable_sort rank_leb l ≡ₚ l.
Proof.
  intros Hn. pose proof (stable_sort_perm rank_leb l) as Hp. split; [|done].
  apply sorted_ranked; [apply (stable_sort_sorted rank_leb rank_leb_total rank_leb_trans)|]. by rewrite Hp.
Qed.

Lemma ranked_take k l : ranked l -> ranked (take k l).
Proof. revert k. induction l as [|x l IH]; intros [|k] Hl; [constructor..|]. apply StronglySorted_inv in Hl as [Hl Hx].
  cbn. constructor; [by apply IH|]. by apply Forall_take. Qed.

(** Some hits have one list in rank order. *)
Lemma hits_order_unique l1 l2 : ranked l1 -> ranked l2 -> l1 ≡ₚ l2 -> l1 = l2.
Proof. apply StronglySorted_unique_strong. intros a b _ _ H1 H2. destruct (before_irrefl a). by eapply before_trans. Qed.

Lemma ranked_app l1 l2 : ranked l1 -> ranked l2 -> (forall a b, a ∈ l1 -> b ∈ l2 -> before a b) -> ranked (l1 ++ l2).
Proof.
  induction 1 as [|x l1 Hs IH Hx]; intros H2 Hb; [done|]. cbn. constructor.
  - apply IH; [done|]. intros a b Ha Hb'. apply Hb; [by right|done].
  - apply Forall_app. split; [done|]. apply Forall_forall. intros b Hb'. apply Hb; [left|done].
Qed.

(** ** The best hits *)

(** [heap] holds the best [k] of [seen]. *)
Definition best_hits_of (k : nat) (seen heap : list SearchHit) : Prop :=
  exists rest, seen ≡ₚ heap ++ rest /\ (forall a b, a ∈ heap -> b ∈ rest -> before a b) /\
    (length heap <= k)%nat /\ (rest <> [] -> length heap = k).

Lemma push_hit_best k seen heap hit :
  NoDup (sh_doc_id <$> hit :: seen) -> best_hits_of k seen heap -> best_hits_of k (hit :: seen) (push_hit k heap hit).
Proof.
  intros Hn (rest & Hp & Hb & Hlen & Hfull). unfold push_hit.
  destruct (Nat.ltb_spec k (length (hit :: heap))) as [Hk|Hk].
  2:{ exists rest. cbn in *. assert (rest = []) as -> by (destruct rest; [done|]; specialize (Hfull ltac:(done)); lia).
      split; [by rewrite Hp|]. split; [|split; [lia|done]]. intros a b _ Hx. by apply elem_of_nil in Hx. }
  destruct (heap_pop top_hit_first (hit :: heap)) as [[worst kept]|] eqn:Epop; [|by apply heap_pop_None in Epop].
  apply (heap_pop_spec _ top_hit_first_total top_hit_first_trans) in Epop as [Hperm Hworst].
  assert (Hall : hit :: seen ≡ₚ (worst :: kept) ++ rest) by (by rewrite <-Hperm, Hp).
  assert (Hd : NoDup (sh_doc_id <$> (worst :: kept) ++ rest)) by (by rewrite <-Hall).
  assert (Hw : forall a, a ∈ kept -> before a worst).
  { intros a Ha. rewrite Forall_forall in Hworst. specialize (Hworst a Ha). apply top_hit_first_spec in Hworst.
    destruct (before_total a worst); [|done|done]. intros He. rewrite fmap_app, fmap_cons in Hd. cbn in Hd. apply NoDup_cons in Hd as [Hd _].
    apply Hd. rewrite <-He. apply elem_of_app. left. by apply list_elem_of_fmap_2. }
  exists (worst :: rest). split; [|split; [|split]].
  - rewrite Hall. cbn. by rewrite Permutation_middle.
  - intros a b Ha Hb'. apply elem_of_cons in Hb' as [->|Hb']; [by apply Hw|].
    assert (a ∈ hit :: heap) as Hin by (rewrite Hperm; by right). apply elem_of_cons in Hin as [->|Hin]; [|by apply Hb].
    assert (worst ∈ hit :: heap) as Hwin by (rewrite Hperm; left). apply elem_of_cons in Hwin as [->|Hwin].
    + exfalso. apply (before_irrefl hit). by apply Hw.
    + eapply before_trans; [by apply Hw|]. by apply Hb.
  - apply Permutation_length in Hperm. cbn in *. lia.
  - intros _. apply Permutation_length in Hperm. cbn in *. lia.
Qed.

Lemma best_hits_fold k hits seen heap :
  NoDup (sh_doc_id <$> hits ++ seen) -> best_hits_of k seen heap -> best_hits_of k (rev hits ++ seen) (fold_left (push_hit k) hits heap).
Proof.
  revert seen heap. induction hits as [|hit hits IH]; intros seen heap Hn Hb; [done|]. cbn [fold_left rev].
  rewrite <-app_assoc. apply IH.
  - cbn. rewrite <-Permutation_middle. done.
  - apply push_hit_best; [|done]. cbn in Hn. rewrite fmap_app in Hn. rewrite fmap_cons.
    apply NoDup_cons in Hn as [Hx Hn]. apply NoDup_app in Hn as (_ & _ & Hn). apply NoDup_cons. split; [|done]. set_solver.
Qed.

(** The heap gives the first [k] hits of the ranking, whatever order they come in. *)
Lemma top_k_from_hits_spec hits k :
  NoDup (sh_doc_id <$> hits) -> top_k_from_hits hits k = take k (stable_sort rank_leb hits).
Proof.
  intros Hn. unfold top_k_from_hits. set (heap := fold_left (push_hit k) hits []).
  assert (Hb : best_hits_of k (rev hits ++ []) heap).
  { apply best_hits_fold; [by rewrite app_nil_r|]. exists []. split; [done|]. split; [|split; [cbn; lia|done]].
    intros a b Ha. by apply elem_of_nil in Ha. }
  destruct Hb as (rest & Hp & Hb & Hlen & Hfull). rewrite app_nil_r in Hp.
  assert (Hp' : hits ≡ₚ heap ++ rest) by (by rewrite <-Hp, <-Permutation_rev).
  assert (Hd : NoDup (sh_doc_id <$> heap ++ rest)) by (by rewrite <-Hp').
  rewrite fmap_app in Hd. apply NoDup_app in Hd as (Hd1 & _ & Hd2).
  destruct (sort_ranked heap Hd1) as [Hs1 Hq1]. destruct (sort_ranked rest Hd2) as [Hs2 Hq2]. destruct (sort_ranked hits Hn) as [Hs Hq].
  assert (stable_sort rank_leb hits = stable_sort rank_leb heap ++ stable_sort rank_leb rest) as ->.
  { apply hits_order_unique; [done| |by rewrite Hq, Hq1, Hq2]. apply ranked_app; [done..|].
    intros a b Ha Hb'. rewrite Hq1 in Ha. rewrite Hq2 in Hb'. by apply Hb. }
  destruct rest as [|r rest].
  - cbn. rewrite app_nil_r, take_ge; [done|]. by rewrite (Permutation_length Hq1).
  - rewrite take_app_length'; [done|]. rewrite (Permutation_length Hq1). symmetry. by apply Hfull.
Qed.

(** ** The merged groups *)

Section finalize.
Context `{Powf}.

(** What the groups say of one document, in their order. *)
Definition doc_hits (d : DocId) (groups : list RankedGroup) : list (RankedGroup * SearchHit) :=
  concat ((fun g => pair g <$> filter (fun h => sh_doc_id h = d) (rg_hits g)) <$> groups).
Definition add_evidence (acc : option Merged) (e : RankedGroup * SearchHit) : option Merged :=
  let group_coverage := coverage (sh_mask e.2) (rg_clause_weights e.1) in
  Some match acc with
       | Some known => merge_known known e.2 group_coverage (is_measured e.1)
       | None => mkMerged e.2 group_coverage (is_measured e.1)
       end.
Definition evidence (d : DocId) (groups : list RankedGroup) : option Merged :=
  fold_left add_evidence (doc_hits d groups) None.

Lemma merge_group_lookup g hits m d :
  fold_left (merge_hit g) hits m !! d = fold_left add_evidence (pair g <$> filter (fun h => sh_doc_id h = d) hits) (m !! d).
Proof using Type.
  revert m. induction hits as [|h hits IH]; intros m; [done|]. cbn [fold_left]. rewrite IH, filter_cons. unfold merge_hit.
  case_decide as Hd; subst; [by rewrite lookup_insert_eq|by rewrite lookup_insert_ne].
Qed.
Lemma merge_groups_lookup groups d : merge_groups groups !! d = evidence d groups.
Proof using Type.
  unfold merge_groups, evidence, doc_hits. rewrite <-(lookup_empty (M := gmap Z) d). generalize (∅ : gmap Z Merged) as m.
  induction groups as [|g groups IH]; intros m; [done|]. cbn [fold_left]. rewrite IH, merge_group_lookup.
  by rewrite fmap_cons, concat_cons, fold_left_app.
Qed.

Lemma evidence_doc d groups m : evidence d groups = Some m -> sh_doc_id (mg_hit m) = d.
Proof using Type.
  unfold evidence. assert (Hall : Forall (fun e => sh_doc_id e.2 = d) (doc_hits d groups)).
  { apply Forall_concat, Forall_fmap, Forall_forall. intros g _. apply Forall_fmap, Forall_forall. intros h Hh.
    by apply list_elem_of_filter in Hh as [? _]. }
  assert (Hgen : forall acc, (forall m, acc = Some m -> sh_doc_id (mg_hit m) = d) -> forall m,
    fold_left add_evidence (doc_hits d groups) acc = Some m -> sh_doc_id (mg_hit m) = d).
  2:{ intros Hm. eapply Hgen; [|exact Hm]. by intros ? ?. }
  induction Hall as [|e l He _ IH]; intros acc Hacc; [done|]. cbn. apply IH. intros m' [= <-].
  destruct acc as [known|]; [exact (Hacc _ eq_refl)|exact He].
Qed.

(** ** Scores are numbers *)

Lemma final_score_ok hit c : f32_is_finite (final_score hit c) = true /\ f32_le f32_zero (final_score hit c) = true.
Proof using Type.
  unfold final_score. cbv zeta. set (x := f32_mul _ _). destruct (f32_is_finite x) eqn:Hf; [|done].
  unfold f32_max. destruct x as [s| | |s m e]; try done.
  destruct s; done.
Qed.

Lemma finalize_spec groups k :
  exists all,
    ranked all /\ NoDup (sh_doc_id <$> all) /\
    (forall h, h ∈ all <-> exists d m, evidence d groups = Some m /\ h = score_merged (combined_weights groups) m) /\
    finalize groups k = take k all.
Proof using Type.
  set (hits := score_merged (combined_weights groups) <$> into_values (merge_groups groups)).
  assert (Hin : forall h, h ∈ hits <-> exists d m, evidence d groups = Some m /\ h = score_merged (combined_weights groups) m).
  { intros h. unfold hits, into_values. rewrite list_elem_of_fmap. split.
    - intros (m & -> & Hm). apply list_elem_of_fmap in Hm as ([d m'] & -> & Hm). apply elem_of_map_to_list in Hm.
      rewrite merge_groups_lookup in Hm. by exists d, m'.
    - intros (d & m & Hm & ->). exists m. split; [done|]. apply list_elem_of_fmap. exists (d, m). split; [done|].
      by apply elem_of_map_to_list; rewrite merge_groups_lookup. }
  assert (Hn : NoDup (sh_doc_id <$> hits)).
  { unfold hits, into_values. rewrite <-!list_fmap_compose.
    erewrite list_fmap_ext; [apply (NoDup_fst_map_to_list (merge_groups groups))|].
    intros i [d m] Hi. cbn. apply evidence_doc with groups. rewrite <-merge_groups_lookup. apply elem_of_map_to_list.
    by eapply list_elem_of_lookup_2. }
  destruct (sort_ranked hits Hn) as [Hs Hp]. exists (stable_sort rank_leb hits). split; [done|]. split; [by rewrite Hp|]. split.
  - intros h. by rewrite Hp.
  - unfold finalize. fold hits. destruct (Nat.eqb_spec k 0) as [->|Hk]; done.
Qed.

(** What the hits [es] of one document, the first being [e], add up to: the best tier and level,
    the sums, the joined clauses, the greatest shares; all in the order of the groups. *)
Record gathered (e : RankedGroup * SearchHit) (es : list (RankedGroup * SearchHit)) (m : Merged) : Prop := {
  ga_doc : sh_doc_id (mg_hit m) = sh_doc_id e.2;
  ga_place : exists g h, (g, h) ∈ e :: es /\ sh_tier (mg_hit m) = sh_tier h /\ sh_level (mg_hit m) = sh_level h;
  ga_first : forall g h, (g, h) ∈ e :: es -> place_lt h (mg_hit m) = false;
  ga_base : sh_base (mg_hit m) = fold_left f32_add (sh_base ∘ snd <$> es) (sh_base e.2);
  ga_mask : forall i, Z.testbit (sh_mask (mg_hit m)) i = existsb (fun e => Z.testbit (sh_mask e.2) i) (e :: es);
  ga_matched : sh_matched_terms (mg_hit m) = fold_left Nat.max (sh_matched_terms ∘ snd <$> es) (sh_matched_terms e.2);
  ga_weight : sh_weight_sum (mg_hit m) = fold_left (saturating_add 32) (sh_weight_sum ∘ snd <$> es) (sh_weight_sum e.2);
  ga_distance : sh_distance_factor (mg_hit m) = fold_left f32_max (sh_distance_factor ∘ snd <$> es) (sh_distance_factor e.2);
  ga_name : sh_name_share (mg_hit m) = fold_left f32_max (sh_name_share ∘ snd <$> es) (sh_name_share e.2);
  ga_coverage : mg_best_coverage m =
    fold_left f32_max ((fun e => coverage (sh_mask e.2) (rg_clause_weights e.1)) <$> es) (coverage (sh_mask e.2) (rg_clause_weights e.1));
  ga_measured : mg_measured m = existsb (fun e => is_measured e.1) (e :: es)
}.

Lemma place_lt_spec a b :
  place_lt a b = true <-> sh_tier a < sh_tier b \/ (sh_tier a = sh_tier b /\ sh_level a < sh_level b).
Proof using Type. unfold place_lt. rewrite orb_true_iff, andb_true_iff, Z.eqb_eq, !Z.ltb_lt. done. Qed.
Lemma place_lt_false a b :
  place_lt a b = false <-> sh_tier b < sh_tier a \/ (sh_tier a = sh_tier b /\ sh_level b <= sh_level a).
Proof using Type. rewrite <-not_true_iff_false, place_lt_spec. lia. Qed.

Lemma gathered_one g h : gathered (g, h) [] (mkMerged h (coverage (sh_mask h) (rg_clause_weights g)) (is_measured g)).
Proof using Type.
  split; cbn; try done.
  - exists g, h. split; [left|done].
  - intros g' h' Hin. apply list_elem_of_singleton in Hin. injection Hin as -> ->. apply place_lt_false. lia.
  - intros i. by rewrite orb_false_r.
  - by rewrite orb_false_r.
Qed.
Lemma gathered_snoc e es m g h :
  gathered e es m ->
  gathered e (es ++ [(g, h)]) (merge_known m h (coverage (sh_mask h) (rg_clause_weights g)) (is_measured g)).
Proof using Type.
  intros [H1 (g0 & h0 & Hin0 & Ht & Hl) H3 H4 H5 H6 H7 H8 H9 H10 H11].
  assert (Hcat : forall e', e' ∈ e :: es ++ [(g, h)] <-> e' ∈ e :: es \/ e' = (g, h)).
  { intros e'. rewrite app_comm_cons, elem_of_app, list_elem_of_singleton. done. }
  split; cbn [merge_known mg_hit mg_best_coverage mg_measured sh_doc_id sh_tier sh_level sh_base sh_mask sh_matched_terms sh_weight_sum sh_distance_factor sh_name_share].
  - done.
  - destruct (place_lt h (mg_hit m)).
    + exists g, h. split; [apply Hcat; by right|done].
    + exists g0, h0. split; [apply Hcat; by left|done].
  - intros g' h' [Hin|[= -> ->]]%Hcat.
    + specialize (H3 g' h' Hin). apply place_lt_false in H3. apply place_lt_false. cbn [sh_tier sh_level].
      destruct (place_lt h (mg_hit m)) eqn:E; [apply place_lt_spec in E|]; lia.
    + apply place_lt_false. cbn [sh_tier sh_level]. destruct (place_lt h (mg_hit m)) eqn:E; [lia|]. apply place_lt_false in E. lia.
  - by rewrite fmap_app, fold_left_app, H4.
  - intros i. rewrite Z.lor_spec, H5, app_comm_cons, existsb_app. cbn. by rewrite orb_false_r.
  - by rewrite fmap_app, fold_left_app, H6.
  - by rewrite fmap_app, fold_left_app, H7.
  - by rewrite fmap_app, fold_left_app, H8.
  - by rewrite fmap_app, fold_left_app, H9.
  - by rewrite fmap_app, fold_left_app, H10.
  - rewrite H11, app_comm_cons, existsb_app. cbn. by rewrite orb_false_r.
Qed.

Lemma add_gathered es e es' m :
  gathered e es' m -> exists m', fold_left add_evidence es (Some m) = Some m' /\ gathered e (es' ++ es) m'.
Proof using Type.
  revert es' m. induction es as [|[g h] es IH]; intros es' m Hm; [exists m; by rewrite app_nil_r|]. cbn [fold_left add_evidence fst snd].
  destruct (IH (es' ++ [(g, h)]) _ (gathered_snoc e es' m g h Hm)) as (m' & He & Hg). exists m'. split; [done|].
  by rewrite <-app_assoc in Hg.
Qed.
Lemma evidence_gathered d groups :
  match doc_hits d groups with
  | [] => evidence d groups = None
  | e :: es => exists m, evidence d groups = Some m /\ gathered e es m
  end.
Proof using Type.
  unfold evidence. destruct (doc_hits d groups) as [|[g h] es]; [done|]. cbn [fold_left add_evidence fst snd].
  exact (add_gathered es (g, h) [] _ (gathered_one g h)).
Qed.
(** The hits leave no choice. *)
Lemma gathered_unique c e es m m' : gathered e es m -> gathered e es m' -> score_merged c m = score_merged c m'.
Proof using Type.
  intros [A1 (g & h & Hin & At & Al) A3 A4 A5 A6 A7 A8 A9 A10 A11] [B1 (g' & h' & Hin' & Bt & Bl) B3 B4 B5 B6 B7 B8 B9 B10 B11].
  assert (Hplace : sh_tier (mg_hit m) = sh_tier (mg_hit m') /\ sh_level (mg_hit m) = sh_level (mg_hit m')).
  { pose proof (A3 _ _ Hin') as H1. pose proof (B3 _ _ Hin) as H2. apply place_lt_false in H1, H2. lia. }
  assert (Hmask : sh_mask (mg_hit m) = sh_mask (mg_hit m')) by (apply Z.bits_inj; intros i; by rewrite A5, B5).
  destruct Hplace as [Ht Hl]. unfold score_merged, final_score. rewrite A1, B1, A4, B4, Hmask, A6, B6, A7, B7, A8, B8, A9, B9, A10, B10, A11, B11, Ht, Hl. done.
Qed.

(** C30: the final ranking of the groups of a search holds every document once, with what its hits
    add up to ([gathered]: best tier and level, summed base, joined clauses, greatest shares), in
    rank order (tier, level, score, document id) and cut to the best [k]: there is one such list,
    so the order in which the hash map gives out the documents does not show. Every score in it
    is a number, finite and not negative. *)
Theorem finalize_correct groups k :
  exists all,
    ranked all /\
    (forall h, h ∈ all <-> exists d e es m,
      doc_hits d groups = e :: es /\ gathered e es m /\ h = score_merged (combined_weights groups) m) /\
    finalize groups k = take k all /\
    Forall (fun h => f32_is_finite (sh_score h) = true /\ f32_le f32_zero (sh_score h) = true) (finalize groups k).
Proof using Type.
  destruct (finalize_spec groups k) as (all & Hr & _ & Hin & Hf). exists all. split_and!; [done| |done|].
  - intros h. rewrite Hin. split.
    + intros (d & m & Hm & ->). pose proof (evidence_gathered d groups) as Hg. destruct (doc_hits d groups) as [|e es] eqn:Ed; [congruence|].
      destruct Hg as (m' & Hm' & Hg). assert (m' = m) as -> by congruence. by exists d, e, es, m.
    + intros (d & e & es & m & Ed & Hg & ->). pose proof (evidence_gathered d groups) as Hg'. rewrite Ed in Hg'. destruct Hg' as (m' & Hm' & Hg').
      exists d, m'. split; [done|]. by eapply gathered_unique.
  - rewrite Hf. apply Forall_take, Forall_forall. intros h Hh. apply Hin in Hh as (d & m & _ & ->). apply final_score_ok.
Qed.

(** The bounded heap returns the first [k] hits of the whole ranking, in order, for hits of
    different documents in any order. *)
Theorem top_k_from_hits_correct hits k :
  NoDup (sh_doc_id <$> hits) ->
  exists all, all ≡ₚ hits /\ ranked all /\ top_k_from_hits hits k = take k all.
Proof using Type.
  intros Hn. destruct (sort_ranked hits Hn) as [Hs Hp]. exists (stable_sort rank_leb hits). split_and!; [done..|].
  by apply top_k_from_hits_spec.
Qed.
End finalize.

Lemma top_k_from_hits_correct_witness :
  let hit d s := mkSearchHit d 1 0 f32_zero (f32_of s) 0 0 f32_zero 0 f32_zero in
  exists all, all ≡ₚ [hit 1 5; hit 2 9; hit 3 7] /\ ranked all /\ top_k_from_hits [hit 1 5; hit 2 9; hit 3 7] 2 = take 2 all.
Proof.
  intros hit. apply (top_k_from_hits_correct [hit 1 5; hit 2 9; hit 3 7] 2).
  repeat constructor; set_solver.
Defined.

Example top_k_order :
  let hit d s := mkSearchHit d 1 0 f32_zero (f32_of s) 0 0 f32_zero 0 f32_zero in
  sh_doc_id <$> top_k_from_hits [hit 1 5; hit 2 9; hit 3 7] 2 = [2; 3].
Proof. by vm_compute. Qed.
