(* ===== verification/Grouped.v ===== *)
(** * Grouped searches

    Models the grouped half of [crates/core-query/src/wand.rs]: query clauses that may be synonym
    groups, walked as unions of forms, each form the intersection of its lists ([FormCursor],
    [ClauseCursor]); the disjunctive search with coverage ([wand_top_k_grouped]) and the
    conjunctive one ([conjunctive_top_k_grouped]).

    Both [FormCursor::align] and [next_common] repeat "advance all walkers to the greatest
    document until they agree": [meet_loop], for any kind of walker. [f64::powf] is a
    parameter. *)
From Stdlib Require Import ZArith Lia SpecFloat.
From stdpp Require Import base numbers list sorting gmap.
From S2P Require Import Prelude Types Posting PostingOps Scorer TopK Wand FuzzyRank Executor Ranking.
Local Open Scope Z_scope.

(** ** Walkers *)

(** [target = Some(target.map_or(doc, |known| known.max(doc)))] over all walkers; nothing when one
    of them has no document left. *)
Definition meet_target (docs : list (option DocId)) : option DocId :=
  match mapM (fun d => d) docs with Some (d :: ds) => Some (fold_left Z.max ds d) | _ => None end.
Fixpoint meet_loop {W} (doc : W -> option DocId) (advance : W -> DocId -> W) (fuel : nat) (ws : list W)
    : option (list W * option DocId) :=
  match fuel with
  | O => None
  | S fuel =>
    match meet_target (doc <$> ws) with
    | None => Some (ws, None)
    | Some target =>
      let ws := (fun w => advance w target) <$> ws in
      if forallb (fun w => bool_decide (doc w = Some target)) ws then Some (ws, Some target)
      else meet_loop doc advance fuel ws
    end
  end.

(** ** Forms *)

Record FormRef : Type := mkFormRef { fr_xpath : XPathId; fr_field : nat; fr_lists : list TermRef; fr_weight : Z }.
Definition FieldClauses : Type := list (list FormRef).

Record FormCursor : Type := mkForm {
  fm_field : nat;
  fm_idf : f32;
  fm_cursors : list PostingCursor;
  fm_doc_freqs : list Z;
  fm_xpath : XPathId;
  fm_doc_count : Z;
  fm_avg_doc_len : f32;
  fm_weight : Z;
  fm_upper_bound : Z;
  fm_doc : option DocId
}.
Definition set_form (f : FormCursor) (cursors : list PostingCursor) (doc : option DocId) : FormCursor :=
  mkForm (fm_field f) (fm_idf f) cursors (fm_doc_freqs f) (fm_xpath f) (fm_doc_count f) (fm_avg_doc_len f) (fm_weight f)
    (fm_upper_bound f) doc.

Definition weighted (score weight : Z) : Z := saturating_mul 64 score weight / 1000.

Class Powf64 := f64_powf : f64 -> f64 -> f64.

Section grouped.
Context {LN : Ln} (stats : SearchStats).

(** [rarity] of [FormCursor::new]: the idf, as [bm25_idf] computes it. *)
Definition rarity (doc_count doc_freq : Z) : f32 := bm25_idf doc_freq doc_count.

(** Every round that does not return moves a cursor, so the number of postings is enough fuel
    ([align_spec]). *)
Definition align (f : FormCursor) : FormCursor :=
  let fuel := S (S (sum_list ((fun c => length (c_postings c)) <$> fm_cursors f))) in
  let '(cursors, doc) := default (fm_cursors f, None) (meet_loop cursor_doc_id advance_to fuel (fm_cursors f)) in
  set_form f cursors doc.

(** The cursor [FormCursor::new] builds, before it is aligned. *)
Definition form_start (form : FormRef) : option FormCursor :=
  if bool_decide (fr_lists form = []) || existsb (fun l => (length (items (tr_postings l)) =? 0)%nat) (fr_lists form) then None
  else
    let doc_count := ss_doc_count stats (fr_xpath form) in
    let upper := fold_left (fun acc l => saturating_add 64 acc (bm25_upper_bound (tr_max_weight l) doc_count (tr_doc_freq l)))
      (fr_lists form) 0 in
    Some (mkForm (fr_field form) (f32_sum ((fun l => rarity doc_count (tr_doc_freq l)) <$> fr_lists form))
      ((fun l => cursor_new (tr_postings l)) <$> fr_lists form) (tr_doc_freq <$> fr_lists form) (fr_xpath form) doc_count
      (avg_doc_len stats (fr_xpath form)) (fr_weight form) (weighted upper (fr_weight form)) None).
Definition FormCursor_new (form : FormRef) : option FormCursor := align <$> form_start form.

Definition form_advance (f : FormCursor) (target : DocId) : FormCursor :=
  match fm_doc f with
  | Some doc => if doc <? target then align (set_form f ((fun c => advance_to c target) <$> fm_cursors f) (fm_doc f)) else f
  | None => f
  end.
(** [self.cursors[0].next()] *)
Definition form_step (f : FormCursor) (doc : DocId) : FormCursor :=
  if decide (fm_doc f = Some doc)
  then align (set_form f (match fm_cursors f with c :: cs => cursor_next c :: cs | [] => [] end) (fm_doc f))
  else f.
(** The weighted score of the document every cursor is on. *)
Definition form_score (f : FormCursor) (doc : DocId) : Z :=
  let doc_len := default (f32_to_u 32 (fm_avg_doc_len f)) (ss_doc_len stats doc (fm_xpath f)) in
  weighted (fold_left (fun score e =>
    match cursor_current e.1 with
    | Some p => saturating_add 64 score (bm25_score_scaled (wrap 32 (zlen (positions p))) (weight p) doc_len
        (fm_avg_doc_len f) (fm_doc_count f) e.2)
    | None => score
    end) (zip (fm_cursors f) (fm_doc_freqs f)) 0) (fm_weight f).

(** ** Clauses *)

(** The best value of each field, added up; the values of a field follow one another. *)
Definition best_step (st : Z * option (nat * Z)) (e : nat * Z) : Z * option (nat * Z) :=
  let '(total, current) := st in
  match current with
  | Some (at_field, best) =>
    if (at_field =? e.1)%nat then (total, Some (at_field, Z.max best e.2)) else (saturating_add 64 total best, Some e)
  | None => (total, Some e)
  end.
Definition best_per_field (values : list (nat * Z)) : Z :=
  let '(total, current) := fold_left best_step values (0, None) in
  saturating_add 64 total (match current with Some (_, best) => best | None => 0 end).

Record ClauseCursor : Type := mkClauseCursor { cl_forms : list FormCursor; cl_upper_bound : Z; cl_weight : f32 }.
Definition set_forms (c : ClauseCursor) (forms : list FormCursor) : ClauseCursor :=
  mkClauseCursor forms (cl_upper_bound c) (cl_weight c).

(** [reduce(f32::min).unwrap_or(0.0)] *)
Definition reduce_min (l : list f32) : f32 := match l with [] => f32_zero | x :: l => fold_left f32_min l x end.
(** A clause of forms, unless there is none. *)
Definition clause_of (forms : list FormCursor) : option ClauseCursor :=
  match forms with
  | [] => None
  | forms =>
    let upper := best_per_field ((fun f => (fm_field f, fm_upper_bound f)) <$> forms) in
    let largest := foldr Z.max 0 (fm_doc_count <$> forms) in
    Some (mkClauseCursor forms upper (reduce_min (fm_idf <$> filter (fun f => fm_doc_count f = largest) forms)))
  end.
Definition ClauseCursor_new (forms : list FormRef) : option ClauseCursor := clause_of (omap FormCursor_new forms).

(** [Iterator::min] *)
Definition min_doc (docs : list DocId) : option DocId :=
  match docs with [] => None | d :: ds => Some (fold_left Z.min ds d) end.
Definition clause_doc_id (c : ClauseCursor) : option DocId := min_doc (omap fm_doc (cl_forms c)).
Definition clause_advance (c : ClauseCursor) (target : DocId) : ClauseCursor :=
  set_forms c ((fun f => form_advance f target) <$> cl_forms c).
Definition clause_step (doc : DocId) (c : ClauseCursor) : ClauseCursor :=
  set_forms c ((fun f => form_step f doc) <$> cl_forms c).
Definition clause_score (c : ClauseCursor) (doc : DocId) : Z :=
  best_per_field ((fun f => (fm_field f, form_score f doc)) <$> filter (fun f => fm_doc f = Some doc) (cl_forms c)).

(** ** The disjunctive search *)

Context `{Powf64}.

Definition DIRECT_RESTRICT_MAX : nat := 4096.
(** The literal [1e-4], rounded to [f32]. *)
Definition COVER_SLACK : f32 := f32_div f32_one (f32_of 10000).
(** [f64::from(x)] of an [f32] *)
Definition f64_from (x : f32) : f64 :=
  match x with
  | S754_finite s m e => binary_normalize 53 1024 (if s then Z.neg m else Z.pos m) e s
  | _ => x
  end.

Definition total_weight (clauses : list ClauseCursor) : f32 := f32_sum (cl_weight <$> clauses).
Definition needed (coverage : option f32) (total : f32) : f32 :=
  match coverage with Some share => f32_mul (f32_clamp share f32_zero f32_one) total | None => f32_zero end.
Definition covers (needed weight : f32) : bool := f32_le needed (f32_add weight COVER_SLACK).

(** The closure [evaluate]. *)
Definition evaluate_doc (coverage : option f32) (total need : f32) (clauses : list ClauseCursor) (doc : DocId)
    : option (Z * Z * nat) :=
  let '(score, matched, weight) := fold_left (fun (st : Z * nat * f32) c =>
      let '(score, matched, weight) := st in
      if decide (clause_doc_id c = Some doc)
      then (saturating_add 64 score (clause_score c doc), S matched, f32_add weight (cl_weight c)) else st)
    clauses (0, O, f32_zero) in
  if (matched =? 0)%nat || negb (covers need weight) then None
  else
    let raw := score in
    let score :=
      match coverage with
      | Some _ =>
        if f32_lt f32_zero total then
          let covered := f64_from (f32_min (f32_div weight total) f32_one) in
          f32_to_u 64 (f64_mul (f64_of score) (f64_powf covered (f64_from COVERAGE_POWER)))
        else score
      | None => score
      end in
    Some (score, raw, matched).

Definition offer (k : nat) (heap : list HeapHit) (doc : DocId) (found : option (Z * Z * nat)) : list HeapHit :=
  match found with Some (score, raw, matched) => push_top_k heap doc score raw matched k | None => heap end.

(** The few allowed documents, one by one. *)
Definition direct_step (k : nat) (coverage : option f32) (total need : f32) (st : list ClauseCursor * list HeapHit) (doc : DocId)
    : list ClauseCursor * list HeapHit :=
  let clauses := (fun c => clause_advance c doc) <$> st.1 in
  (clauses, offer k st.2 doc (evaluate_doc coverage total need clauses doc)).

Fixpoint find_group_pivot (threshold : Z) (need : f32) (accumulated : Z) (weight : f32) (index : nat) (clauses : list ClauseCursor)
    : option nat :=
  match clauses with
  | [] => None
  | c :: clauses =>
    let accumulated := saturating_add 64 accumulated (cl_upper_bound c) in
    let weight := f32_add weight (cl_weight c) in
    if (threshold <=? accumulated) && (0 <? accumulated) && covers need weight then Some index
    else find_group_pivot threshold need accumulated weight (S index) clauses
  end.

Definition clause_doc (c : ClauseCursor) : DocId := default 0 (clause_doc_id c).

Fixpoint group_loop (fuel : nat) (k : nat) (coverage : option f32) (total need : f32) (restrict : option (gset DocId))
    (clauses : list ClauseCursor) (heap : list HeapHit) : option (list HeapHit) :=
  match fuel with
  | O => None
  | S fuel =>
    let clauses := filter (fun c => clause_doc_id c <> None) clauses in
    if (length clauses =? 0)%nat then Some heap
    else
      let clauses := sort_by_key clause_doc clauses in
      match find_group_pivot (threshold heap k) need 0 f32_zero 0 clauses with
      | None => Some heap
      | Some pivot_index =>
        let pivot_doc := default 0 (clause_doc <$> clauses !! pivot_index) in
        let smallest_doc := default 0 (clause_doc <$> clauses !! 0%nat) in
        if smallest_doc =? pivot_doc then
          let heap :=
            if Wand.allowed restrict pivot_doc then offer k heap pivot_doc (evaluate_doc coverage total need clauses pivot_doc) else heap in
          group_loop fuel k coverage total need restrict (clause_step pivot_doc <$> clauses) heap
        else
          group_loop fuel k coverage total need restrict
            (((fun c => clause_advance c pivot_doc) <$> take pivot_index clauses) ++ drop pivot_index clauses) heap
      end
  end.

Definition form_postings (f : FormCursor) : nat := sum_list ((fun c => length (c_postings c)) <$> fm_cursors f).
Definition clause_postings (c : ClauseCursor) : nat := sum_list (form_postings <$> cl_forms c).

Definition group_clauses (fields : list FieldClauses) : list ClauseCursor :=
  concat ((fun field : FieldClauses => omap ClauseCursor_new (field : list (list FormRef))) <$> fields).

Definition wand_top_k_grouped (fields : list FieldClauses) (k : nat) (coverage : option f32) (restrict : option (gset DocId))
    : list WandHit :=
  if (k =? 0)%nat then []
  else
    let clauses := group_clauses fields in
    let total := total_weight clauses in
    let need := needed coverage total in
    let walk := finish_heap (default [] (group_loop (S (sum_list (clause_postings <$> clauses))) k coverage total need restrict clauses [])) in
    match restrict with
    | Some docs =>
      if (size docs <=? DIRECT_RESTRICT_MAX)%nat
      then finish_heap (fold_left (direct_step k coverage total need) (sort_unstable (elements docs)) (clauses, [])).2
      else walk
    | None => walk
    end.

(** ** The conjunctive search *)

Definition next_common (clauses : list ClauseCursor) (after : option DocId) : list ClauseCursor * option DocId :=
  let clauses := match after with Some doc => clause_step doc <$> clauses | None => clauses end in
  default (clauses, None)
    (meet_loop clause_doc_id clause_advance (S (S (sum_list (clause_postings <$> clauses)))) clauses).

Abbreviation clauses_on := (list ClauseCursor * option DocId)%type.
Definition min_common (cs : list clauses_on) : option DocId := min_doc (omap snd cs).
Definition common_score (doc : DocId) (cs : list clauses_on) : Z * nat :=
  fold_left (fun acc c =>
    if decide (c.2 = Some doc)
    then (fold_left (fun score cl => saturating_add 64 score (clause_score cl doc)) c.1 acc.1, (acc.2 + length c.1)%nat)
    else acc) cs (0, O).
Definition step_common (doc : DocId) (c : clauses_on) : clauses_on :=
  if decide (c.2 = Some doc) then next_common c.1 (Some doc) else c.

Fixpoint common_loop (fuel k : nat) (restrict : option (gset DocId)) (cs : list clauses_on) (heap : list HeapHit)
    : option (list HeapHit) :=
  match fuel with
  | O => None
  | S fuel =>
    match min_common cs with
    | None => Some heap
    | Some doc =>
      let heap :=
        if Wand.allowed restrict doc then let '(score, matched) := common_score doc cs in push_top_k heap doc score score matched k
        else heap in
      common_loop fuel k restrict (step_common doc <$> cs) heap
    end
  end.

(** Every clause of a field, or nothing when one of them cannot match there. *)
Definition field_conjunction (field : FieldClauses) : option (list ClauseCursor) :=
  match field with [] => None | _ => mapM ClauseCursor_new (field : list (list FormRef)) end.
Definition conjunctive_top_k_grouped (fields : list FieldClauses) (k : nat) (restrict : option (gset DocId)) : list WandHit :=
  if (k =? 0)%nat then []
  else
    let conjunctions := omap field_conjunction fields in
    let fuel := S (sum_list ((fun cs => sum_list (clause_postings <$> cs)) <$> conjunctions)) in
    finish_heap (default [] (common_loop fuel k restrict ((fun cs => next_common cs None) <$> conjunctions) [])).
End grouped.
