(* ===== verification/GroupedWalk.v ===== *)
(** * The walkers of grouped searches

    Proofs about the cursors of [Grouped]. A walker is at a frontier [F] when it is on its first
    document from [F] on; forms and clauses keep this through every move, so that a clause is a
    union of intersections of lists ([in_clause]) and its score is the reference's
    ([clause_value]). *)
From Stdlib Require Import ZArith Lia SpecFloat.
From stdpp Require Import base numbers list sorting gmap.
From S2P Require Import Prelude Types Posting PostingOps Scorer TopK Wand FuzzyRank Executor Ranking Grouped.
Local Open Scope Z_scope.


(** ** Non-negative sums *)

Definition f32_nonneg (x : f32) : bool :=
  match x with S754_zero _ | S754_infinity false | S754_finite false _ _ => true | _ => false end.

Lemma shr_1_nonneg r : 0 <= shr_m r -> 0 <= shr_m (shr_1 r).
Proof. destruct r as [m ? ?]. cbn. destruct m as [|[p|p|]|[p|p|]]; cbn; lia. Qed.
Lemma shr_fexp_nonneg prec emax m e l : 0 <= m -> 0 <= shr_m (shr_fexp prec emax m e l).1.
Proof.
  intros Hm. unfold shr_fexp, shr. assert (Hr : 0 <= shr_m (shr_record_of_loc m l)) by (by destruct l as [|[]]).
  destruct (fexp _ _ _ - e) as [|p|p]; cbn [fst]; [done| |done]. revert Hr. generalize (shr_record_of_loc m l).
  assert (Hiter : forall p r, 0 <= shr_m r -> 0 <= shr_m (SpecFloat.iter_pos shr_1 p r)).
  { clear p. induction p as [p IH|p IH|]; intros r Hr; cbn; [apply IH, IH, shr_1_nonneg|apply IH, IH|apply shr_1_nonneg]; done. }
  intros r Hr. by apply Hiter.
Qed.
Lemma binary_round_nonneg prec emax m e : f32_nonneg (binary_round prec emax false m e) = true.
Proof.
  unfold binary_round. destruct (shl_align _ _ _) as [mz ez]. unfold binary_round_aux.
  pose proof (shr_fexp_nonneg prec emax (Z.pos mz) ez loc_Exact ltac:(lia)) as H1.
  destruct (shr_fexp prec emax (Z.pos mz) ez loc_Exact) as [r1 e1]. cbn [fst] in H1.
  set (m1 := round_nearest_even _ _). assert (0 <= m1).
  { unfold m1, round_nearest_even. destruct (loc_of_shr_record r1) as [|[]]; try destruct (Z.even _); lia. }
  pose proof (shr_fexp_nonneg prec emax m1 e1 loc_Exact ltac:(lia)) as H2.
  destruct (shr_fexp prec emax m1 e1 loc_Exact) as [r2 e2]. cbn [fst] in H2.
  destruct (shr_m r2) as [|p|p]; [done| |lia]. by destruct (e2 <=? emax - prec).
Qed.
Lemma f32_add_nonneg x y : f32_nonneg x = true -> f32_nonneg y = true -> f32_nonneg (f32_add x y) = true.
Proof.
  unfold f32_add, SFadd. destruct x as [[]|[]| |[]], y as [[]|[]| |[]]; try done. intros _ _. apply binary_round_nonneg.
Qed.
Lemma f32_sum_from_nonneg l x : f32_nonneg x = true -> Forall (fun y => f32_nonneg y = true) l -> f32_nonneg (fold_left f32_add l x) = true.
Proof. intros Hx Hl. revert x Hx. induction Hl as [|y l Hy Hl IH]; intros x Hx; [done|]. by apply IH, f32_add_nonneg. Qed.

(** ** Walkers *)

(** [o] is the first document from [F] on with [P]. *)
Definition first_at (F : DocId) (P : DocId -> bool) (o : option DocId) : Prop :=
  match o with
  | None => forall d, F <= d -> P d = false
  | Some d => F <= d /\ P d = true /\ forall d', F <= d' < d -> P d' = false
  end.

Lemma first_at_later F F' P o : first_at F P o -> F <= F' -> (forall d, o = Some d -> F' <= d) -> first_at F' P o.
Proof.
  intros Ho HF Hd. destruct o as [d|]; cbn in *; [|intros d Hd'; apply Ho; lia]. specialize (Hd d eq_refl).
  destruct Ho as (H1 & H2 & H3). split_and!; [lia|done|]. intros d' Hd'. apply H3. lia.
Qed.
Lemma first_at_on F P o d : first_at F P o -> F <= d -> (forall e, o = Some e -> d <= e) -> o = Some d <-> P d = true.
Proof.
  intros Ho HF He. destruct o as [e|]; cbn in *.
  - destruct Ho as (H1 & H2 & H3). specialize (He e eq_refl). split; [by intros [= ->]|]. intros Hp.
    destruct (decide (d = e)) as [->|]; [done|]. rewrite H3 in Hp by lia. done.
  - specialize (Ho d HF). split; congruence.
Qed.

Lemma meet_target_spec docs :
  match meet_target docs with
  | None => docs = [] \/ None ∈ docs
  | Some T => Some T ∈ docs /\ forall o, o ∈ docs -> exists d, o = Some d /\ d <= T
  end.
Proof.
  unfold meet_target. destruct (mapM (fun d => d) docs) as [ds|] eqn:E.
  - apply mapM_Some in E. assert (docs = Some <$> ds) as -> by (clear -E; induction E; [done|]; rewrite fmap_cons; congruence).
    destruct ds as [|d ds]; [by left|]. rewrite fmap_cons.
    assert (Hm : forall acc, let m := fold_left Z.max ds acc in (m = acc \/ m ∈ ds) /\ acc <= m /\ forall x, x ∈ ds -> x <= m).
    { clear E. induction ds as [|x ds IH]; intros acc; cbn; [split; [by left|]; split; [lia|by intros ? ?%elem_of_nil]|].
      destruct (IH (Z.max acc x)) as (H1 & H2 & H3). split; [|split; [lia|]].
      - destruct H1 as [->|H1]; [|right; by right]. destruct (Z.max_spec acc x) as [[_ ->]|[_ ->]]; [right; left|by left].
      - intros y [->|Hy]%elem_of_cons; [lia|by apply H3]. }
    specialize (Hm d). cbv zeta in Hm. destruct Hm as (H1 & H2 & H3). split.
    + destruct H1 as [->|H1]; [left|right]. by apply list_elem_of_fmap_2.
    + intros o [->|(x & -> & Hx)%list_elem_of_fmap]%elem_of_cons; [by exists d|exists x; split; [done|by apply H3]].
  - right. apply mapM_None_1 in E. apply Exists_exists in E as (o & Ho & ->). done.
Qed.

Section meet.
Context {X W : Type} (has : X -> DocId -> bool) (doc : W -> option DocId) (advance : W -> DocId -> W).
Context (R : DocId -> X -> W -> Prop).
Context (Hdoc : forall F x w, R F x w -> first_at F (has x) (doc w)).
Context (Hadv : forall F x w t, R F x w -> F <= t -> R t x (advance w t)).

Definition all_have (xs : list X) (d : DocId) : bool := forallb (fun x => has x d) xs.

Lemma all_have_false xs x d : x ∈ xs -> has x d = false -> all_have xs d = false.
Proof using Type.
  intros Hx Hf. apply not_true_iff_false. unfold all_have. rewrite forallb_forall. intros Hall.
  rewrite Hall in Hf by (by apply list_elem_of_In). done.
Qed.

(** Every walker is at some frontier up to [F]. *)
Definition behind (F : DocId) (xs : list X) (ws : list W) : Prop := Forall2 (fun x w => exists G, G <= F /\ R G x w) xs ws.

Lemma behind_of F xs ws : Forall2 (R F) xs ws -> behind F xs ws.
Proof using Type. intros Hr. eapply Forall2_impl; [exact Hr|]. intros x w Hxw. by exists F. Qed.

Lemma meet_none F xs ws :
  behind F xs ws -> xs <> [] -> meet_target (doc <$> ws) = None -> forall d, F <= d -> all_have xs d = false.
Proof using Hdoc.
  intros Hb Hne Hn d Hd. pose proof (meet_target_spec (doc <$> ws)) as Hs. rewrite Hn in Hs. destruct Hs as [Hs|Hs].
  - destruct Hb; [done|by rewrite fmap_cons in Hs].
  - apply list_elem_of_fmap in Hs as (w & Hw & Hin). apply list_elem_of_lookup in Hin as [i Hi].
    destruct (Forall2_lookup_r _ _ _ _ _ Hb Hi) as (x & Hx & G & HG & Hr). apply Hdoc in Hr. rewrite <-Hw in Hr.
    apply all_have_false with x; [by eapply list_elem_of_lookup_2|]. apply Hr. lia.
Qed.

Lemma meet_some F xs ws T :
  behind F xs ws -> meet_target (doc <$> ws) = Some T -> F <= T ->
  Forall2 (R T) xs ((fun w => advance w T) <$> ws) /\ forall d, F <= d < T -> all_have xs d = false.
Proof using Hdoc Hadv.
  intros Hb HT HF. pose proof (meet_target_spec (doc <$> ws)) as Hs. rewrite HT in Hs. destruct Hs as [Hs _]. split.
  - apply Forall2_fmap_r. eapply Forall2_impl; [exact Hb|]. intros x w (G & HG & Hr). cbn. eapply Hadv; [done|lia].
  - intros d Hd. apply list_elem_of_fmap in Hs as (w & Hw & Hin). apply list_elem_of_lookup in Hin as [i Hi].
    destruct (Forall2_lookup_r _ _ _ _ _ Hb Hi) as (x & Hx & G & HG & Hr). apply Hdoc in Hr. rewrite <-Hw in Hr.
    apply all_have_false with x; [by eapply list_elem_of_lookup_2|]. apply Hr. lia.
Qed.

Lemma meet_agree T xs ws :
  Forall2 (R T) xs ws -> forallb (fun w => bool_decide (doc w = Some T)) ws = true -> all_have xs T = true.
Proof using Hdoc.
  intros Hr Ha. rewrite forallb_forall in Ha. apply forallb_forall. intros x Hx%list_elem_of_In.
  apply list_elem_of_lookup in Hx as [i Hi]. destruct (Forall2_lookup_l _ _ _ _ _ Hr Hi) as (w & Hw & Hxw). apply Hdoc in Hxw.
  specialize (Ha w (proj1 (list_elem_of_In _ _) (list_elem_of_lookup_2 _ _ _ Hw))). apply bool_decide_eq_true in Ha.
  rewrite Ha in Hxw. apply Hxw.
Qed.

(** The documents that are left, a bound on the rounds. *)
Context (D : list DocId).
Definition left_from (F : DocId) : nat := length (filter (fun d => F <= d) D).
Lemma left_from_le F F' : F <= F' -> (left_from F' <= left_from F)%nat.
Proof using Type.
  intros HF. unfold left_from. induction D as [|d l IH]; [done|]. rewrite !filter_cons. do 2 case_decide; cbn; lia.
Qed.
Lemma left_from_lt F F' d : F <= d < F' -> d ∈ D -> (left_from F' < left_from F)%nat.
Proof using Type.
  intros Hd Hin. unfold left_from. apply list_elem_of_split in Hin as (l1 & l2 & ->). rewrite !filter_app, !filter_cons, !length_app.
  assert (Hle : forall l, (length (filter (fun d => (F' <= d)%Z) l) <= length (filter (fun d => (F <= d)%Z) l))%nat).
  { induction l as [|x l IH]; [done|]. rewrite !filter_cons. do 2 case_decide; cbn; lia. }
  pose proof (Hle l1). pose proof (Hle l2). do 2 case_decide; cbn; lia.
Qed.
Definition docs_in (xs : list X) : Prop := forall x d, x ∈ xs -> has x d = true -> d ∈ D.

(** [None] of the loop: no common document; else all walkers are on the first one. *)
Definition met (F : DocId) (xs : list X) (r : option (list W * option DocId)) : Prop :=
  exists ws o, r = Some (ws, o) /\ first_at F (all_have xs) o /\ forall d, o = Some d -> Forall2 (R d) xs ws.

Lemma meet_loop_at fuel F xs ws :
  docs_in xs -> xs <> [] -> Forall2 (R F) xs ws -> (left_from F < fuel)%nat -> met F xs (meet_loop doc advance fuel ws).
Proof using All.
  intros HD Hne. revert F ws. induction fuel as [|fuel IH]; intros F ws Hr Hf; [lia|]. cbn [meet_loop].
  pose proof (behind_of _ _ _ Hr) as Hb. pose proof (meet_target_spec (doc <$> ws)) as Hs.
  destruct (meet_target (doc <$> ws)) as [T|] eqn:ET.
  2:{ exists ws, None. split; [done|]. split; [|done]. exact (meet_none F xs ws Hb Hne ET). }
  destruct Hs as [HT Hmax].
  assert (Hpos : forall w d, w ∈ ws -> doc w = Some d -> F <= d /\ d ∈ D).
  { intros w d Hw Hd. apply list_elem_of_lookup in Hw as [i Hi]. destruct (Forall2_lookup_r _ _ _ _ _ Hr Hi) as (x & Hx & Hxw).
    apply Hdoc in Hxw. rewrite Hd in Hxw. destruct Hxw as (H1 & H2 & _). split; [done|]. eapply HD; [by eapply list_elem_of_lookup_2|done]. }
  assert (HF : F <= T) by (apply list_elem_of_fmap in HT as (w & Hw & Hin); by apply (Hpos w T)).
  destruct (meet_some F xs ws T Hb ET HF) as [Hr' Hno].
  destruct (forallb _ _) eqn:Eall.
  - exists ((fun w => advance w T) <$> ws), (Some T). split; [done|]. split; [|by intros d [= <-]].
    split_and!; [done|by eapply meet_agree|done].
  - assert (Hlow : exists w d, w ∈ ws /\ doc w = Some d /\ d < T).
    { destruct (decide (Forall (fun w => doc w = Some T) ws)) as [Hall|Hnot].
      - exfalso. apply not_true_iff_false in Eall. apply Eall, forallb_forall. intros w' Hw'%list_elem_of_In.
        apply list_elem_of_fmap in Hw' as (w & -> & Hw). apply list_elem_of_lookup in Hw as [i Hi].
        pose proof (Forall_lookup_1 _ _ _ _ Hall Hi) as Hd. apply bool_decide_eq_true.
        destruct (Forall2_lookup_r _ _ _ _ _ Hr Hi) as (x & Hx & Hxw).
        pose proof (Hdoc _ _ _ Hxw) as H1. rewrite Hd in H1. destruct H1 as (_ & H1 & _).
        pose proof (Hdoc _ _ _ (Hadv _ _ _ T Hxw HF)) as H2. destruct (doc (advance w T)) as [e|]; cbn in H2.
        + destruct H2 as (H2 & H3 & H4). f_equal. destruct (decide (e = T)); [done|]. rewrite H4 in H1 by lia. done.
        + by rewrite H2 in H1 by lia.
      - apply not_Forall_Exists in Hnot; [|apply _]. apply Exists_exists in Hnot as (w & Hw & Hd).
        destruct (Hmax (doc w)) as (d & Hd' & Hle); [by apply list_elem_of_fmap_2|]. exists w, d. split_and!; [done..|].
        assert (d <> T) by (intros ->; by apply Hd). lia. }
    destruct Hlow as (w & d & Hw & Hd & Hlt). destruct (Hpos w d Hw Hd) as [HFd HdD].
    destruct (IH T _ Hr') as (ws' & o & He & Ho & Hrel).
    { pose proof (left_from_lt F T d ltac:(lia) HdD). lia. }
    exists ws', o. split; [done|]. split; [|done]. destruct o as [e|]; cbn in *.
    + destruct Ho as (H1 & H2 & H3). split_and!; [lia|done|]. intros d' Hd'. destruct (Z.lt_ge_cases d' T); [apply Hno; lia|apply H3; lia].
    + intros d' Hd'. destruct (Z.lt_ge_cases d' T); [apply Hno; lia|by apply Ho].
Qed.

(** The walkers may be behind, if one of them is at the frontier. *)
Lemma meet_loop_behind fuel F xs ws :
  docs_in xs -> behind F xs ws -> (exists i x w, xs !! i = Some x /\ ws !! i = Some w /\ R F x w) -> (S (left_from F) < fuel)%nat ->
  met F xs (meet_loop doc advance fuel ws).
Proof using All.
  intros HD Hb (i & x & w & Hx & Hw & Hxw) Hf. destruct fuel as [|fuel]; [lia|]. cbn [meet_loop].
  assert (Hne : xs <> []) by (by intros ->).
  pose proof (meet_target_spec (doc <$> ws)) as Hs.
  destruct (meet_target (doc <$> ws)) as [T|] eqn:ET.
  2:{ exists ws, None. split; [done|]. split; [|done]. exact (meet_none F xs ws Hb Hne ET). }
  assert (HF : F <= T).
  { destruct Hs as [_ Hmax]. destruct (Hmax (doc w)) as (d & Hd & Hle); [apply list_elem_of_fmap_2; by eapply list_elem_of_lookup_2|].
    apply Hdoc in Hxw. rewrite Hd in Hxw. destruct Hxw as [? _]. lia. }
  destruct (meet_some F xs ws T Hb ET HF) as [Hr' Hno].
  assert (Hjoin : forall o, first_at T (all_have xs) o -> first_at F (all_have xs) o).
  { intros [e|]; cbn.
    - intros (H1 & H2 & H3). split_and!; [lia|done|]. intros d' Hd'. destruct (Z.lt_ge_cases d' T); [apply Hno; lia|apply H3; lia].
    - intros Ho d' Hd'. destruct (Z.lt_ge_cases d' T); [apply Hno; lia|by apply Ho]. }
  destruct (forallb _ _) eqn:Eall.
  - exists ((fun w => advance w T) <$> ws), (Some T). split; [done|]. split; [|by intros d [= <-]].
    apply Hjoin. split_and!; [lia|by eapply meet_agree|intros; lia].
  - destruct (meet_loop_at fuel T xs _ HD Hne Hr') as (ws' & o & He & Ho & Hrel).
    { pose proof (left_from_le F T HF). lia. }
    exists ws', o. split; [done|]. split; [by apply Hjoin|done].
Qed.
End meet.

(** ** Forms *)

Definition has_posting (l : list Posting) (d : DocId) : bool := bool_decide (is_Some (posting_of d l)).
Definition cursor_walk (F : DocId) (l : list Posting) (c : PostingCursor) : Prop := docs_ascending l /\ c = cursor_at F l.

Lemma cursor_first F l c : cursor_walk F l c -> first_at F (has_posting l) (cursor_doc_id c).
Proof.
  intros [Hs ->]. unfold cursor_doc_id, has_posting. destruct (cursor_current (cursor_at F l)) as [p|] eqn:E; cbn.
  - destruct (cursor_at_current l Hs F p E) as (Hin & HF & Hmin). split_and!; [done| |].
    + apply bool_decide_eq_true. rewrite posting_of_ascending by done. by eexists.
    + intros d' Hd'. apply bool_decide_eq_false. intros [q Hq]. apply posting_of_Some in Hq as [Hq <-]. specialize (Hmin q Hq ltac:(lia)). lia.
  - intros d Hd. apply bool_decide_eq_false. intros [q Hq]. apply posting_of_Some in Hq as [Hq <-].
    assert (He : is_exhausted (cursor_at F l) = true) by (apply not_false_iff_true; intros Hn; apply cursor_at_live in Hn as [? ?]; congruence).
    pose proof (cursor_at_exhausted l F He q Hq). lia.
Qed.
Lemma cursor_walk_advance F l c t : cursor_walk F l c -> F <= t -> cursor_walk t l (advance_to c t).
Proof. intros [Hs ->] Ht. split; [done|]. by apply cursor_at_advance. Qed.

Definition fm_lists (f : FormCursor) : list (list Posting) := c_postings <$> fm_cursors f.
Definition form_ok (f : FormCursor) : Prop := fm_cursors f <> [] /\ Forall docs_ascending (fm_lists f).
Definition in_form (f : FormCursor) : DocId -> bool := all_have has_posting (fm_lists f).
Definition form_docs (f : FormCursor) : list DocId := concat (docs <$> fm_lists f).

(** [f] is the form [f0] at the frontier [F]. *)
Definition form_at (F : DocId) (f0 f : FormCursor) : Prop :=
  exists cursors doc, f = set_form f0 cursors doc /\ first_at F (in_form f0) doc /\
    forall d, doc = Some d -> cursors = cursor_at d <$> fm_lists f0.

Lemma has_posting_docs l d : has_posting l d = true <-> d ∈ docs l.
Proof. unfold has_posting. by rewrite bool_decide_eq_true, elem_of_docs. Qed.

Lemma form_docs_in f : docs_in has_posting (form_docs f) (fm_lists f).
Proof.
  intros l d Hl Hd. apply elem_of_concat. exists (docs l). split; [by apply has_posting_docs|by apply list_elem_of_fmap_2].
Qed.
Lemma in_form_docs f d : form_ok f -> in_form f d = true -> d ∈ form_docs f.
Proof.
  intros [Hne _] Hd. unfold in_form, all_have in Hd. rewrite forallb_forall in Hd.
  assert (exists l, l ∈ fm_lists f) as [l Hl].
  { unfold fm_lists. destruct (fm_cursors f) as [|c cs]; [done|]. exists (c_postings c). left. }
  apply (form_docs_in f l); [done|]. by apply Hd, list_elem_of_In.
Qed.

Lemma left_from_length D F : (left_from D F <= length D)%nat.
Proof. unfold left_from. apply length_filter. Qed.

Lemma walk_postings F lists cs :
  behind cursor_walk F lists cs -> sum_list ((fun c => length (c_postings c)) <$> cs) = length (concat (docs <$> lists)).
Proof.
  induction 1 as [|l c lists cs (G & _ & _ & ->) _ IH]; [done|]. rewrite !fmap_cons, sum_list_cons. cbn [concat].
  rewrite length_app, <-IH. unfold docs. by rewrite length_map.
Qed.

Lemma walk_on d lists cs : Forall2 (cursor_walk d) lists cs -> cs = cursor_at d <$> lists.
Proof. induction 1 as [|l c lists cs [_ ->] _ IH]; [done|]. rewrite fmap_cons. congruence. Qed.

Lemma align_spec F f0 cs o :
  behind cursor_walk F (fm_lists f0) cs ->
  (exists i l c, fm_lists f0 !! i = Some l /\ cs !! i = Some c /\ cursor_walk F l c) ->
  form_at F f0 (align (set_form f0 cs o)).
Proof.
  intros Hb Hone. unfold align. cbn [fm_cursors set_form].
  destruct (meet_loop_behind has_posting cursor_doc_id advance_to cursor_walk cursor_first cursor_walk_advance (form_docs f0)
    (S (S (sum_list ((fun c => length (c_postings c)) <$> cs)))) F (fm_lists f0) cs (form_docs_in f0) Hb Hone) as (ws & doc & -> & Ho & Hr).
  { rewrite (walk_postings F (fm_lists f0) cs Hb). pose proof (left_from_length (form_docs f0) F). unfold form_docs in *. lia. }
  cbn [default from_option id]. exists ws, doc. split; [done|]. split; [done|]. intros d Hd. by apply walk_on, Hr.
Qed.

Lemma lists_behind G F f0 : form_ok f0 -> G <= F -> behind cursor_walk F (fm_lists f0) (cursor_at G <$> fm_lists f0).
Proof.
  intros [_ Ha] HG. apply Forall2_fmap_r, Forall_Forall2_diag. eapply Forall_impl; [exact Ha|]. intros l Hl. by exists G.
Qed.

Lemma form_at_later F F' f0 f : form_at F f0 f -> F <= F' -> (forall d, fm_doc f = Some d -> F' <= d) -> form_at F' f0 f.
Proof.
  intros (cs & doc & -> & Ho & Hc) HF Hd. exists cs, doc. split; [done|]. split; [|done]. by apply first_at_later with F.
Qed.

Lemma set_form_twice f0 cs o cs' o' : set_form (set_form f0 cs o) cs' o' = set_form f0 cs' o'.
Proof. done. Qed.

Lemma form_advance_at F f0 f t : form_ok f0 -> form_at F f0 f -> F <= t -> form_at t f0 (form_advance f t).
Proof.
  intros Hok Hf Ht. pose proof Hf as (cs & doc & -> & Ho & Hc). unfold form_advance. cbn [fm_doc set_form].
  destruct doc as [d|]; [|apply form_at_later with F; done]. destruct (Z.ltb_spec d t) as [Hlt|Hge].
  - rewrite set_form_twice. change (fm_cursors (set_form f0 cs (Some d))) with cs. rewrite (Hc d eq_refl).
    assert (Hmap : (fun c => advance_to c t) <$> (cursor_at d <$> fm_lists f0) = cursor_at t <$> fm_lists f0).
    { rewrite <-list_fmap_compose. apply Forall_fmap_ext_1. destruct Hok as [_ Ha]. eapply Forall_impl; [exact Ha|].
      intros l Hl. apply cursor_at_advance; [done|lia]. }
    rewrite Hmap.
    apply align_spec; [by apply lists_behind|]. destruct Hok as [Hne Ha]. unfold fm_lists in *.
    destruct (fm_cursors f0) as [|c0 cs0]; [done|]. rewrite fmap_cons in *. apply Forall_cons in Ha as [Ha _].
    by exists 0%nat, (c_postings c0), (cursor_at t (c_postings c0)).
  - apply form_at_later with F; [done|done|]. intros e [= <-]. done.
Qed.

Lemma form_step_at F f0 f p :
  form_ok f0 -> form_at F f0 f -> F <= p -> (forall d, fm_doc f = Some d -> p <= d) -> form_at (p + 1) f0 (form_step f p).
Proof.
  intros Hok Hf HF Hd. pose proof Hf as (cs & doc & -> & Ho & Hc). unfold form_step. cbn [fm_doc set_form fm_cursors] in *.
  destruct (decide (doc = Some p)) as [->|Hne].
  - rewrite set_form_twice, (Hc p eq_refl).
    destruct Hok as [Hne Ha]. unfold fm_lists in *. destruct (fm_cursors f0) as [|c0 cs0] eqn:Ecs; [done|].
    rewrite fmap_cons in *. apply Forall_cons in Ha as [Ha0 Ha].
    assert (Hnext : cursor_walk (p + 1) (c_postings c0) (cursor_next (cursor_at p (c_postings c0)))).
    { split; [done|]. destruct Ho as (_ & Hin & _). unfold in_form, all_have, fm_lists in Hin. rewrite Ecs, fmap_cons in Hin.
      cbn in Hin. apply andb_true_iff in Hin as [Hin _]. apply bool_decide_eq_true in Hin as [q Hq].
      pose proof (cursor_first p _ _ (conj Ha0 eq_refl)) as Hfirst. pose proof (posting_of_Some _ _ _ Hq) as [Hq1 Hq2].
      destruct (cursor_current (cursor_at p (c_postings c0))) as [q'|] eqn:Ecur.
      - rewrite (cursor_at_next _ Ha0 p q' Ecur). destruct (cursor_at_current _ Ha0 p q' Ecur) as (_ & Hge & Hmin).
        specialize (Hmin q Hq1 ltac:(lia)). by replace (doc_id q') with p by lia.
      - unfold cursor_doc_id in Hfirst. rewrite Ecur in Hfirst. specialize (Hfirst p ltac:(lia)).
        unfold has_posting in Hfirst. rewrite Hq in Hfirst. done. }
    apply align_spec; unfold fm_lists; rewrite Ecs, fmap_cons.
    + constructor; [by exists (p + 1)|]. apply Forall2_fmap_r, Forall_Forall2_diag. eapply Forall_impl; [exact Ha|].
      intros l Hl. exists p. split; [lia|done].
    + by exists 0%nat, (c_postings c0), (cursor_next (cursor_at p (c_postings c0))).
  - apply form_at_later with F; [done|lia|]. cbn. intros e He. specialize (Hd e He). assert (e <> p) by congruence. lia.
Qed.

(** ** Clauses *)

Lemma current_posting l d : docs_ascending l -> has_posting l d = true -> cursor_current (cursor_at d l) = posting_of d l.
Proof.
  intros Hs Hd. pose proof (cursor_first d l _ (conj Hs eq_refl)) as Hf. apply bool_decide_eq_true in Hd as [q Hq].
  pose proof (posting_of_Some _ _ _ Hq) as [Hin Hdoc].
  destruct (cursor_current (cursor_at d l)) as [p|] eqn:E.
  - destruct (cursor_at_current l Hs d p E) as (_ & HF & Hmin). specialize (Hmin q Hin ltac:(lia)).
    rewrite (cursor_at_find l Hs d d p E) by lia. by destruct (Z.eqb_spec (doc_id p) d); [|lia].
  - unfold cursor_doc_id in Hf. rewrite E in Hf. specialize (Hf d ltac:(lia)). unfold has_posting in Hf. by rewrite Hq in Hf.
Qed.

Lemma min_doc_spec docs : match min_doc docs with None => docs = [] | Some m => m ∈ docs /\ forall d, d ∈ docs -> m <= d end.
Proof.
  unfold min_doc. destruct docs as [|d ds]; [done|].
  assert (Hm : forall acc, let m := fold_left Z.min ds acc in (m = acc \/ m ∈ ds) /\ m <= acc /\ forall x, x ∈ ds -> m <= x).
  { induction ds as [|x ds IH]; intros acc; cbn; [split; [by left|]; split; [lia|by intros ? ?%elem_of_nil]|].
    destruct (IH (Z.min acc x)) as (H1 & H2 & H3). split; [|split; [lia|]].
    - destruct H1 as [->|H1]; [|right; by right]. destruct (Z.min_spec acc x) as [[_ ->]|[_ ->]]; [by left|right; left].
    - intros y [->|Hy]%elem_of_cons; [lia|by apply H3]. }
  destruct (Hm d) as (H1 & H2 & H3). split; [destruct H1 as [->|?]; [left|by right]|]. intros x [->|Hx]%elem_of_cons; auto.
Qed.

Section clauses.
Context {LN : Ln} (stats : SearchStats).

(** What a form adds to a document that all its lists have. *)
Definition form_value (f0 : FormCursor) (d : DocId) : Z :=
  let doc_len := default (f32_to_u 32 (fm_avg_doc_len f0)) (ss_doc_len stats d (fm_xpath f0)) in
  weighted (fold_left (fun score e =>
    match posting_of d e.1 with
    | Some p => saturating_add 64 score (bm25_score_scaled (wrap 32 (zlen (positions p))) (weight p) doc_len
        (fm_avg_doc_len f0) (fm_doc_count f0) e.2)
    | None => score
    end) (zip (fm_lists f0) (fm_doc_freqs f0)) 0) (fm_weight f0).

Lemma form_score_on F f0 f d : form_ok f0 -> form_at F f0 f -> fm_doc f = Some d -> form_score stats f d = form_value f0 d.
Proof using Type.
  intros [_ Ha] (cs & doc & -> & Ho & Hc) Hd. cbn in Hd. subst doc. rewrite (Hc d eq_refl). unfold form_score, form_value.
  cbn [fm_avg_doc_len fm_xpath fm_cursors fm_doc_freqs fm_doc_count fm_weight set_form]. f_equal.
  destruct Ho as (_ & Hin & _). unfold in_form, all_have in Hin. revert Ha Hin. generalize (fm_lists f0) as L, (fm_doc_freqs f0) as dfs, 0 as acc.
  intros L dfs acc Ha Hin. revert dfs acc. induction Ha as [|l L Hl Ha IH]; intros dfs acc; [done|]. rewrite fmap_cons.
  destruct dfs as [|df dfs]; [done|]. cbn [zip zip_with fold_left fst snd forallb] in *. apply andb_true_iff in Hin as [H1 H2].
  rewrite current_posting by done. by apply IH.
Qed.

Definition in_clause (c0 : ClauseCursor) (d : DocId) : bool := existsb (fun f0 => in_form f0 d) (cl_forms c0).
Definition clause_value (c0 : ClauseCursor) (d : DocId) : Z :=
  best_per_field ((fun f0 => (fm_field f0, form_value f0 d)) <$> filter (fun f0 => in_form f0 d = true) (cl_forms c0)).
Definition clause_ok (c0 : ClauseCursor) : Prop := Forall form_ok (cl_forms c0).
Definition clause_at (F : DocId) (c0 c : ClauseCursor) : Prop :=
  cl_upper_bound c = cl_upper_bound c0 /\ cl_weight c = cl_weight c0 /\ Forall2 (form_at F) (cl_forms c0) (cl_forms c).
Definition clause_docs (c0 : ClauseCursor) : list DocId := concat (form_docs <$> cl_forms c0).

Lemma form_first F f0 f : form_at F f0 f -> first_at F (in_form f0) (fm_doc f).
Proof using Type. by intros (cs & doc & -> & Ho & _). Qed.

Lemma in_clause_true c0 d : in_clause c0 d = true <-> exists f0, f0 ∈ cl_forms c0 /\ in_form f0 d = true.
Proof using Type. unfold in_clause. rewrite existsb_exists. by setoid_rewrite list_elem_of_In. Qed.
Lemma in_clause_false c0 d : in_clause c0 d = false <-> forall f0, f0 ∈ cl_forms c0 -> in_form f0 d = false.
Proof using Type.
  rewrite <-not_true_iff_false, in_clause_true. split.
  - intros Hn f0 Hf. apply not_true_iff_false. intros Ht. apply Hn. by exists f0.
  - intros Hall (f0 & Hf & Ht). by rewrite Hall in Ht.
Qed.

Lemma clause_first F c0 c : clause_at F c0 c -> first_at F (in_clause c0) (clause_doc_id c).
Proof using Type.
  intros (_ & _ & H2). unfold clause_doc_id. pose proof (min_doc_spec (omap fm_doc (cl_forms c))) as Hm.
  assert (Hpair : forall f0, f0 ∈ cl_forms c0 -> exists f, f ∈ cl_forms c /\ form_at F f0 f).
  { intros f0 [i Hi]%list_elem_of_lookup. destruct (Forall2_lookup_l _ _ _ _ _ H2 Hi) as (f & Hf & Hat). exists f.
    split; [by eapply list_elem_of_lookup_2|done]. }
  destruct (min_doc _) as [m|]; cbn.
  - destruct Hm as [Hin Hmin]. apply list_elem_of_omap in Hin as (f & Hf & Hd). apply list_elem_of_lookup in Hf as [i Hi].
    destruct (Forall2_lookup_r _ _ _ _ _ H2 Hi) as (f0 & Hf0 & Hat). apply form_first in Hat. rewrite Hd in Hat.
    destruct Hat as (HF & Hin & _). split_and!; [done| |].
    + apply in_clause_true. exists f0. split; [by eapply list_elem_of_lookup_2|done].
    + intros d' Hd'. apply in_clause_false. intros f1 Hf1. destruct (Hpair f1 Hf1) as (g & Hg & Hat). apply form_first in Hat.
      destruct (fm_doc g) as [e|] eqn:Eg; cbn in Hat; [|apply Hat; lia]. destruct Hat as (_ & _ & Hno). apply Hno.
      specialize (Hmin e). assert (m <= e) by (apply Hmin, list_elem_of_omap; by exists g). lia.
  - intros d Hd. apply in_clause_false. intros f0 Hf0. destruct (Hpair f0 Hf0) as (g & Hg & Hat). apply form_first in Hat.
    destruct (fm_doc g) as [e|] eqn:Eg; [|by apply Hat].
    assert (e ∈ omap fm_doc (cl_forms c)) as He by (apply list_elem_of_omap; by exists g). rewrite Hm in He. by apply elem_of_nil in He.
Qed.

(** Every form of a clause is at or behind the clause's document. *)
Lemma clause_forms_from c d f : (forall e, clause_doc_id c = Some e -> d <= e) -> f ∈ cl_forms c -> forall e, fm_doc f = Some e -> d <= e.
Proof using Type.
  intros Hc Hf e He. unfold clause_doc_id in Hc. pose proof (min_doc_spec (omap fm_doc (cl_forms c))) as Hm.
  assert (e ∈ omap fm_doc (cl_forms c)) as Hin by (apply list_elem_of_omap; by exists f).
  destruct (min_doc _) as [m|]; [|rewrite Hm in Hin; by apply elem_of_nil in Hin].
  destruct Hm as [_ Hm]. specialize (Hm e Hin). specialize (Hc m eq_refl). lia.
Qed.

Lemma clause_advance_at F c0 c t : clause_ok c0 /\ clause_at F c0 c -> F <= t -> clause_ok c0 /\ clause_at t c0 (clause_advance c t).
Proof using Type.
  intros (Hok & H1 & H2 & Hf) Ht. split; [done|]. split; [done|]. split; [done|]. cbn. apply Forall2_fmap_r. unfold clause_ok in Hok.
  revert Hok. induction Hf as [|f0 f l0 l Hff Hf IH]; intros Hok; [constructor|]. apply Forall_cons in Hok as [Hok0 Hok].
  constructor; [by apply form_advance_at with F|by apply IH].
Qed.

Lemma clause_step_at F c0 c p :
  clause_ok c0 -> clause_at F c0 c -> F <= p -> (forall d, clause_doc_id c = Some d -> p <= d) -> clause_at (p + 1) c0 (clause_step p c).
Proof using Type.
  intros Hok (H1 & H2 & Hf) HF Hd. split; [done|]. split; [done|]. cbn. apply Forall2_fmap_r.
  pose proof (clause_forms_from c p) as Hforms. specialize (fun f => Hforms f Hd). unfold clause_ok in Hok.
  revert Hok Hforms. induction Hf as [|f0 f l0 l Hff Hf IH]; intros Hok Hforms; [constructor|]. apply Forall_cons in Hok as [Hok0 Hok].
  constructor; [apply form_step_at with F; [done..|]; apply Hforms; left|]. apply IH; [done|]. intros g Hg. apply Hforms. by right.
Qed.

Lemma clause_at_later F F' c0 c : clause_at F c0 c -> F <= F' -> (forall d, clause_doc_id c = Some d -> F' <= d) -> clause_at F' c0 c.
Proof using Type.
  intros (H1 & H2 & Hf) HF Hd. split; [done|]. split; [done|]. pose proof (clause_forms_from c F') as Hforms.
  specialize (fun f => Hforms f Hd). revert Hforms. induction Hf as [|f0 f l0 l Hff Hf IH]; intros Hforms; [constructor|].
  constructor; [apply form_at_later with F; [done..|]; apply Hforms; left|]. apply IH. intros g Hg. apply Hforms. by right.
Qed.

Lemma clause_score_on F c0 c d :
  clause_ok c0 -> clause_at F c0 c -> F <= d -> (forall e, clause_doc_id c = Some e -> d <= e) ->
  clause_score stats c d = clause_value c0 d.
Proof using Type.
  intros Hok (_ & _ & Hf) HF Hd. unfold clause_score, clause_value. f_equal. pose proof (clause_forms_from c d) as Hforms.
  specialize (fun f => Hforms f Hd). unfold clause_ok in Hok. revert Hok Hforms.
  induction Hf as [|f0 f l0 l Hff Hf IH]; intros Hok Hforms; [done|]. apply Forall_cons in Hok as [Hok0 Hok].
  specialize (IH Hok (fun g Hg => Hforms g (list_elem_of_further _ _ _ Hg))). rewrite !filter_cons.
  pose proof (first_at_on F (in_form f0) (fm_doc f) d (form_first _ _ _ Hff) HF (Hforms f (list_elem_of_here _ _))) as Hon.
  do 2 case_decide; try tauto. rewrite !fmap_cons, IH. f_equal. f_equal; [by destruct Hff as (? & ? & -> & _)|].
  by apply form_score_on with F.
Qed.

Lemma clause_docs_in c0 d : clause_ok c0 -> in_clause c0 d = true -> d ∈ clause_docs c0.
Proof using Type.
  intros Hok Hd. apply in_clause_true in Hd as (f0 & Hf & Hd). apply elem_of_concat. exists (form_docs f0).
  split; [|by apply list_elem_of_fmap_2]. apply in_form_docs; [|done]. by apply (proj1 (Forall_forall _ _) Hok).
Qed.
End clauses.
