(* ===== verification/GroupedExact.v ===== *)
(** * The disjunctive grouped search is exact

    Proofs about [wand_top_k_grouped] without coverage: the pivot search over clauses, and the
    visit of few allowed documents one by one, return what scoring every document returns, when
    no list's score exceeds its bound and no clause's weight is negative. *)
From Stdlib Require Import ZArith Lia SpecFloat.
From stdpp Require Import base numbers list sorting gmap.
From S2P Require Import Prelude Types Posting PostingOps Scorer TopK Wand FuzzyRank Executor Ranking Grouped GroupedWalk.
Local Open Scope Z_scope.

(** ** The disjunctive search *)

Section disjunctive.
Context {LN : Ln} {PF : Powf64} (stats : SearchStats) (C0 : list ClauseCursor) (k : nat) (restrict : option (gset DocId)).
Context (Hok : Forall clause_ok C0).
Context (Hub : Forall (fun c => 0 <= cl_upper_bound c) C0).
Context (Hval : forall c0 d, c0 ∈ C0 -> 0 <= clause_value stats c0 d).

Definition group_value (d : DocId) (c0 : ClauseCursor) : option Z :=
  if in_clause c0 d then Some (clause_value stats c0 d) else None.
Definition group_bound (d : DocId) (c0 : ClauseCursor) : option Z := if in_clause c0 d then Some (cl_upper_bound c0) else None.
(** The hit of a document: the clauses it is on, added up. *)
Definition group_hit (d : DocId) : HeapHit :=
  let scores := omap (group_value d) C0 in
  let score := Z.min (sumZ scores) (u_max 64) in
  mkHeapHit d score score (length scores).
(** Allowed and on a clause, one with a positive bound unless [any]. *)
Definition group_candidate (any : bool) (d : DocId) : bool :=
  Wand.allowed restrict d && existsb (fun c0 => (any || (0 <? cl_upper_bound c0)) && in_clause c0 d) C0.

(** The clauses that are left, each at the frontier. *)
Definition clauses_at (F : DocId) (cs : list ClauseCursor) : Prop :=
  exists l0 dead, C0 ≡ₚ l0 ++ dead /\ Forall2 (clause_at F) l0 cs /\ forall c0 d, c0 ∈ dead -> F <= d -> in_clause c0 d = false.

Lemma Forall2_perm {A B} (P : A -> B -> Prop) l k1 k2 :
  k1 ≡ₚ k2 -> Forall2 P l k1 -> exists l', l ≡ₚ l' /\ Forall2 P l' k2.
Proof using Type.
  intros Hp. revert l. induction Hp as [|x k1 k2 Hp IH|x y k1|k1 k2 k3 H1 IH1 H2 IH2]; intros l Hl.
  - exists l. done.
  - inversion Hl as [|a ? l0 ? Ha Hl0]; subst. destruct (IH _ Hl0) as (l' & Hp' & Hl'). exists (a :: l'). split; [by rewrite Hp'|by constructor].
  - inversion Hl as [|a ? l0 ? Ha Hl0]; subst. inversion Hl0 as [|b ? l1 ? Hb Hl1]; subst. exists (b :: a :: l1).
    split; [apply Permutation_swap|by repeat constructor].
  - destruct (IH1 _ Hl) as (l' & Hp' & Hl'). destruct (IH2 _ Hl') as (l'' & Hp'' & Hl''). exists l''. split; [by rewrite Hp', Hp''|done].
Qed.

Lemma clauses_at_perm F cs cs' : cs ≡ₚ cs' -> clauses_at F cs -> clauses_at F cs'.
Proof using Type.
  intros Hp (l0 & dead & HC & H2 & Hdead). destruct (Forall2_perm _ _ _ _ Hp H2) as (l0' & Hp' & H2').
  exists l0', dead. split; [by rewrite HC, Hp'|]. done.
Qed.

Lemma live_split F l0 cs :
  Forall2 (clause_at F) l0 cs ->
  exists l1 l2, l0 ≡ₚ l1 ++ l2 /\ Forall2 (clause_at F) l1 (filter (fun c => clause_doc_id c <> None) cs) /\
    forall c0 d, c0 ∈ l2 -> F <= d -> in_clause c0 d = false.
Proof using Type.
  induction 1 as [|c0 c l0 cs Hc H2 (l1 & l2 & Hp & Hl & Hd)]; [exists [], []; split_and!; [done|constructor|by intros ? ? ?%elem_of_nil]|].
  rewrite filter_cons. case_decide as Hdoc.
  - exists (c0 :: l1), l2. split_and!; [by rewrite Hp|by constructor|done].
  - exists l1, (c0 :: l2). split_and!; [rewrite Hp; by rewrite Permutation_middle|done|].
    intros c1 d [->|Hin]%elem_of_cons HF; [|by apply Hd]. apply clause_first in Hc. rewrite Hdoc in Hc. by apply Hc.
Qed.
Lemma clauses_at_live F cs : clauses_at F cs -> clauses_at F (filter (fun c => clause_doc_id c <> None) cs).
Proof using Type.
  intros (l0 & dead & HC & H2 & Hdead). destruct (live_split F l0 cs H2) as (l1 & l2 & Hp & Hl & Hd).
  exists l1, (l2 ++ dead). split; [by rewrite HC, Hp, app_assoc|]. split; [done|]. intros c0 d [?|?]%elem_of_app; auto.
Qed.

Lemma omap_none {A B} (f : A -> option B) l : (forall x, x ∈ l -> f x = None) -> omap f l = [].
Proof using Type.
  induction l as [|x l IH]; intros Hf; [done|]. rewrite omap_cons, Hf by left. apply IH. intros y Hy. apply Hf. by right.
Qed.

(** What is left decides the documents from the frontier on. *)
Lemma omap_left {B} (f : DocId -> ClauseCursor -> option B) F l0 dead d :
  (forall c0, in_clause c0 d = false -> f d c0 = None) ->
  C0 ≡ₚ l0 ++ dead -> (forall c0 d, c0 ∈ dead -> F <= d -> in_clause c0 d = false) -> F <= d ->
  omap (f d) C0 ≡ₚ omap (f d) l0.
Proof using Type.
  intros Hf HC Hdead HF. rewrite HC, omap_app, (omap_none (f d) dead), app_nil_r; [done|]. intros c0 Hc. apply Hf. by apply Hdead.
Qed.

Lemma group_value_out d c0 : in_clause c0 d = false -> group_value d c0 = None.
Proof using Type. unfold group_value. by intros ->. Qed.
Lemma group_bound_out d c0 : in_clause c0 d = false -> group_bound d c0 = None.
Proof using Type. unfold group_bound. by intros ->. Qed.

Lemma elem_C0 l0 dead c0 : C0 ≡ₚ l0 ++ dead -> c0 ∈ l0 -> c0 ∈ C0.
Proof using Type. intros HC Hc. rewrite HC. apply elem_of_app. by left. Qed.

(** Documents the clauses of [B] have not reached are on clauses of [A] only. *)
Lemma bound_of_clauses F A B d :
  clauses_at F (A ++ B) -> F <= d -> (forall c e, c ∈ B -> clause_doc_id c = Some e -> d < e) ->
  sumZ (omap (group_bound d) C0) <= sumZ (cl_upper_bound <$> A).
Proof using Hub.
  intros (l0 & dead & HC & H2 & Hdead) HF HB. rewrite (omap_left group_bound F l0 dead d (group_bound_out d) HC Hdead HF).
  apply Forall2_app_inv_r in H2 as (lA & lB & HA & HBB & ->). rewrite omap_app, sumZ_app, (omap_none _ lB), sumZ_nil, Z.add_0_r.
  - assert (HubA : Forall (fun c => 0 <= cl_upper_bound c) lA).
    { apply Forall_forall. intros c Hc. apply (proj1 (Forall_forall _ _) Hub). rewrite HC. apply elem_of_app. left. apply elem_of_app. by left. }
    clear -HA HubA. induction HA as [|c0 c lA A (Hu & _) _ IH]; [done|]. apply Forall_cons in HubA as [Hu0 HubA]. specialize (IH HubA).
    rewrite omap_cons, fmap_cons, sumZ_cons, Hu. unfold group_bound at 1. destruct (in_clause c0 d); rewrite ?sumZ_cons; lia.
  - intros c0 Hc0. apply group_bound_out. apply list_elem_of_lookup in Hc0 as [i Hi].
    destruct (Forall2_lookup_l _ _ _ _ _ HBB Hi) as (c & Hc & Hat). apply clause_first in Hat.
    specialize (HB c). destruct (clause_doc_id c) as [e|]; cbn in Hat; [|by apply Hat].
    apply Hat. specialize (HB e (list_elem_of_lookup_2 _ _ _ Hc) eq_refl). lia.
Qed.

Lemma group_value_bound d :
  (forall c0, c0 ∈ C0 -> in_clause c0 d = true -> clause_value stats c0 d <= cl_upper_bound c0) ->
  hh_score (group_hit d) <= Z.min (sumZ (omap (group_bound d) C0)) (u_max 64).
Proof using Hub.
  intros Hb. unfold group_hit. cbn [hh_score].
  assert (sumZ (omap (group_value d) C0) <= sumZ (omap (group_bound d) C0)); [|lia]. apply sumZ_omap_le2.
  - intros c v Hc Hv. unfold group_value, group_bound in *. destruct (in_clause c d) eqn:E; [|done]. injection Hv as <-.
    eexists. split; [reflexivity|]. by apply Hb.
  - intros c w Hc Hw. unfold group_bound in Hw. destruct (in_clause c d); [|done]. injection Hw as <-. by apply (proj1 (Forall_forall _ _) Hub).
Qed.
Lemma group_hit_nonneg d : 0 <= hh_score (group_hit d).
Proof using Hval.
  unfold group_hit. cbn [hh_score]. assert (0 <= sumZ (omap (group_value d) C0)); [|assert (0 < u_max 64) by done; lia].
  apply sumZ_nonneg, Forall_forall. intros s (c & Hc & Hs)%list_elem_of_omap. unfold group_value in Hs.
  destruct (in_clause c d); [|done]. injection Hs as <-. by apply Hval.
Qed.
Lemma group_candidate_bound d : group_candidate false d = true -> 0 < sumZ (omap (group_bound d) C0).
Proof using Hub.
  unfold group_candidate. intros [_ Hex]%andb_true_iff. apply existsb_exists in Hex as (c & Hc%list_elem_of_In & Hp).
  apply andb_true_iff in Hp as [Hp Hin]. apply Z.ltb_lt in Hp.
  assert (cl_upper_bound c <= sumZ (omap (group_bound d) C0)); [|lia]. apply sumZ_pos_elem.
  - apply Forall_forall. intros w (c' & Hc' & Hw)%list_elem_of_omap. unfold group_bound in Hw.
    destruct (in_clause c' d); [|done]. injection Hw as <-. by apply (proj1 (Forall_forall _ _) Hub).
  - apply list_elem_of_omap. exists c. split; [done|]. unfold group_bound. by rewrite Hin.
Qed.

Context (Hwt : Forall (fun c => f32_nonneg (cl_weight c) = true) C0).
Context (Hbnd : forall c0 d, c0 ∈ C0 -> in_clause c0 d = true -> clause_value stats c0 d <= cl_upper_bound c0).

Abbreviation live_clauses cs := (filter (fun c => clause_doc_id c <> None) cs).

(** Without coverage any weight will do. *)
Lemma covers_any w : f32_nonneg w = true -> covers f32_zero w = true.
Proof using Type.
  intros Hw. unfold covers. assert (H : f32_nonneg (f32_add w COVER_SLACK) = true) by (by apply f32_add_nonneg).
  destruct (f32_add w COVER_SLACK) as [[]|[]| |[] ? ?]; done.
Qed.

Lemma clauses_in F cs c : clauses_at F cs -> c ∈ cs -> exists c0, c0 ∈ C0 /\ clause_at F c0 c.
Proof using Type.
  intros (l0 & dead & HC & H2 & _) [i Hi]%list_elem_of_lookup. destruct (Forall2_lookup_r _ _ _ _ _ H2 Hi) as (c0 & Hc0 & Hat).
  exists c0. split; [|done]. eapply elem_C0; [done|]. by eapply list_elem_of_lookup_2.
Qed.
Lemma weights_ok F cs : clauses_at F cs -> Forall (fun c => f32_nonneg (cl_weight c) = true) cs.
Proof using Hwt.
  intros Hc. apply Forall_forall. intros c Hin. destruct (clauses_in F cs c Hc Hin) as (c0 & Hc0 & _ & -> & _).
  by apply (proj1 (Forall_forall _ _) Hwt).
Qed.

(** The pivot search is the one of the terms. *)
Definition bound_term (c : ClauseCursor) : MultiFieldTerm := mkMFT (mkCursor [] 0) 0 0 (cl_upper_bound c).
Lemma find_group_pivot_terms thr acc w i cs :
  f32_nonneg w = true -> Forall (fun c => f32_nonneg (cl_weight c) = true) cs ->
  find_group_pivot thr f32_zero acc w i cs = find_pivot thr acc i (bound_term <$> cs).
Proof using Type.
  intros Hw Hcs. revert acc w i Hw. induction Hcs as [|c cs Hc Hcs IH]; intros acc w i Hw; [done|].
  cbn [find_group_pivot]. rewrite fmap_cons. cbn [find_pivot mt_upper_bound bound_term].
  assert (Hw' : f32_nonneg (f32_add w (cl_weight c)) = true) by (by apply f32_add_nonneg).
  rewrite (covers_any _ Hw'), andb_true_r, IH by done. done.
Qed.

(** The value of a document none of the clauses has passed. *)
Lemma clauses_values F l0 cs d :
  Forall clause_ok l0 -> Forall2 (clause_at F) l0 cs -> F <= d -> (forall c e, c ∈ cs -> clause_doc_id c = Some e -> d <= e) ->
  omap (fun c => if decide (clause_doc_id c = Some d) then Some (clause_score stats c d) else None) cs = omap (group_value d) l0.
Proof using Type.
  intros Hl H2 HF. revert Hl. induction H2 as [|c0 c l0 cs Hc H2 IH]; intros Hl Hd; [done|]. apply Forall_cons in Hl as [Hl0 Hl].
  rewrite !omap_cons, IH by (done || (intros; eapply Hd; [by right|done])). change (group_value d c0) with (if in_clause c0 d then Some (clause_value stats c0 d) else None).
  specialize (fun e => Hd c e (list_elem_of_here _ _)).
  pose proof (first_at_on F _ _ d (clause_first _ _ _ Hc) HF Hd) as Hon. rewrite (clause_score_on stats F c0 c d) by done.
  destruct (decide (clause_doc_id c = Some d)) as [E|E], (in_clause c0 d) eqn:Ei.
  1,4: done. 1: by apply (proj1 Hon) in E. by destruct (E (proj2 Hon eq_refl)).
Qed.

Lemma evaluate_fold d cs s m w :
  0 <= s -> (forall c, c ∈ cs -> 0 <= clause_score stats c d) ->
  let vals := omap (fun c => if decide (clause_doc_id c = Some d) then Some (clause_score stats c d) else None) cs in
  fold_left (fun (st : Z * nat * f32) c =>
      let '(score, matched, weight) := st in
      if decide (clause_doc_id c = Some d)
      then (saturating_add 64 score (clause_score stats c d), S matched, f32_add weight (cl_weight c)) else st)
    cs (Z.min s (u_max 64), m, w) =
  (Z.min (s + sumZ vals) (u_max 64), (m + length vals)%nat,
   fold_left f32_add (cl_weight <$> filter (fun c => clause_doc_id c = Some d) cs) w).
Proof using Type.
  intros Hs Hc. cbv zeta. revert s m w Hs. induction cs as [|c cs IH]; intros s m w Hs.
  - cbn. by rewrite Z.add_0_r, Nat.add_0_r.
  - cbn [fold_left]. rewrite omap_cons, filter_cons. specialize (IH (fun c' H => Hc c' (list_elem_of_further _ _ _ H))).
    specialize (Hc c (list_elem_of_here _ _)). destruct (decide _).
    + rewrite sat_add_min, IH by lia. rewrite fmap_cons, sumZ_cons. cbn [length fold_left]. f_equal; [f_equal; [f_equal; lia|lia]].
    + by apply IH.
Qed.

Lemma evaluate_pivot F cs d total :
  clauses_at F cs -> F <= d -> (forall c e, c ∈ cs -> clause_doc_id c = Some e -> d <= e) ->
  evaluate_doc stats None total f32_zero cs d =
  if existsb (fun c0 => in_clause c0 d) C0
  then Some (hh_score (group_hit d), hh_raw (group_hit d), hh_matched_terms (group_hit d)) else None.
Proof using Hok Hval Hwt.
  intros Hat HF Hd. pose proof (weights_ok F cs Hat) as Hw. unfold evaluate_doc.
  assert (Hnn : forall c, c ∈ cs -> 0 <= clause_score stats c d).
  { intros c Hc. destruct (clauses_in F cs c Hat Hc) as (c0 & Hc0 & Hat0).
    rewrite (clause_score_on stats F c0 c d); [by apply Hval|by apply (proj1 (Forall_forall _ _) Hok)|done|done|]. intros e. by apply Hd. }
  pose proof (evaluate_fold d cs 0 0 f32_zero ltac:(lia) Hnn) as E. cbv zeta in E. change (Z.min 0 (u_max 64)) with 0 in E. rewrite E.
  rewrite Z.add_0_l, Nat.add_0_l. destruct Hat as (l0 & dead & HC & H2 & Hdead).
  assert (Hl0 : Forall clause_ok l0).
  { apply Forall_forall. intros c0 Hc0. apply (proj1 (Forall_forall _ _) Hok). by eapply elem_C0. }
  rewrite (clauses_values F l0 cs d Hl0 H2 HF Hd).
  pose proof (omap_left group_value F l0 dead d (group_value_out d) HC Hdead HF) as Hp. assert (length (omap (group_value d) l0) = length (omap (group_value d) C0)) as -> by (by rewrite Hp).
  assert (sumZ (omap (group_value d) l0) = sumZ (omap (group_value d) C0)) as -> by (by rewrite Hp).
  rewrite covers_any; [|apply f32_sum_from_nonneg; [done|]; apply Forall_fmap, Forall_forall; intros c [_ Hc]%list_elem_of_filter; by apply (proj1 (Forall_forall _ _) Hw)].
  rewrite orb_false_r. unfold group_hit. cbn [hh_score hh_raw hh_matched_terms].
  assert (Hex : existsb (fun c0 => in_clause c0 d) C0 = negb (length (omap (group_value d) C0) =? 0)%nat).
  { clear. induction C0 as [|c l IH]; [done|]. cbn [existsb]. rewrite omap_cons. unfold group_value at 1. destruct (in_clause c d); [done|exact IH]. }
  rewrite Hex. by destruct (_ =? 0)%nat.
Qed.

(** ** The loop *)

Abbreviation cand := (group_candidate false).
Abbreviation hit := group_hit.
Abbreviation bound := (fun d => sumZ (omap (group_bound d) C0)).

Lemma group_scores_bounded d : 0 <= hh_score (hit d) <= Z.min (bound d) (u_max 64).
Proof using Hub Hval Hbnd. split; [apply group_hit_nonneg|]. apply group_value_bound. intros c0 Hc. by apply Hbnd. Qed.
Definition group_skip_rest := offered_rest k cand hit bound group_scores_bounded group_candidate_bound.
Definition group_skip_to := offered_skip k cand hit bound group_scores_bounded group_candidate_bound.

(** What a round knows of its sorted clauses. *)
Lemma sorted_clauses F cs :
  clauses_at F cs ->
  let clauses := sort_by_key clause_doc (live_clauses cs) in
  clauses_at F clauses /\
  (forall i j c c', clauses !! i = Some c -> clauses !! j = Some c' -> (i <= j)%nat -> clause_doc c <= clause_doc c') /\
  forall c, c ∈ clauses -> clause_doc_id c = Some (clause_doc c) /\ F <= clause_doc c.
Proof using Type.
  intros Hat. cbv zeta. apply clauses_at_live in Hat. assert (Hp : sort_by_key clause_doc (live_clauses cs) ≡ₚ live_clauses cs) by apply sort_by_key_perm.
  split; [by eapply clauses_at_perm; [symmetry|]|]. split.
  - intros i j c c' Hi Hj Hij. eapply (sorted_lookup_le clause_doc); [apply sort_by_key_sorted|exact Hi|exact Hj|done].
  - intros c Hc. rewrite Hp in Hc. destruct (clauses_in F _ c Hat Hc) as (c0 & Hc0 & Hat0). apply list_elem_of_filter in Hc as [Hl _].
    apply clause_first in Hat0. unfold clause_doc. destruct (clause_doc_id c) as [d|]; [|done]. split; [done|apply Hat0].
Qed.

(** The two ways the clauses move. *)
Lemma clauses_step F p cs :
  clauses_at F cs -> F <= p -> (forall c d, c ∈ cs -> clause_doc_id c = Some d -> p <= d) -> clauses_at (p + 1) (clause_step p <$> cs).
Proof using Hok.
  intros (l0 & dead & HC & H2 & Hdead) HF Hd. exists l0, dead. split; [done|]. split; [|intros; apply Hdead; [done|lia]].
  apply Forall2_fmap_r, Forall2_same_length_lookup. split; [by eapply Forall2_length|]. intros i c0 c Hi Hj.
  apply (clause_step_at F); [|by eapply Forall2_lookup_lr|done|].
  - apply (proj1 (Forall_forall _ _) Hok). eapply elem_C0; [done|]. by eapply list_elem_of_lookup_2.
  - intros d. apply Hd. by eapply list_elem_of_lookup_2.
Qed.
Lemma clauses_advance F p A B :
  clauses_at F (A ++ B) -> F <= p -> (forall c d, c ∈ B -> clause_doc_id c = Some d -> p <= d) ->
  clauses_at p (((fun c => clause_advance c p) <$> A) ++ B).
Proof using Hok.
  intros (l0 & dead & HC & H2 & Hdead) HF Hd. exists l0, dead. split; [done|]. split; [|intros; apply Hdead; [done|lia]].
  apply Forall2_app_inv_r in H2 as (lA & lB & HA & HB & ->). apply Forall2_app.
  - apply Forall2_fmap_r, Forall2_same_length_lookup. split; [by eapply Forall2_length|]. intros i c0 c Hi Hj.
    apply (clause_advance_at F c0 c p); [|done]. split; [|exact (Forall2_lookup_lr _ _ _ _ _ _ HA Hi Hj)].
    apply (proj1 (Forall_forall _ _) Hok). eapply elem_C0; [done|]. apply elem_of_app. left. by eapply list_elem_of_lookup_2.
  - apply Forall2_same_length_lookup. split; [by eapply Forall2_length|]. intros i c0 c Hi Hj.
    apply (clause_at_later F); [exact (Forall2_lookup_lr _ _ _ _ _ _ HB Hi Hj)|done|]. intros d. apply Hd. by eapply list_elem_of_lookup_2.
Qed.

(** The documents of all clauses, a bound on the rounds. *)
Definition group_docs : list DocId := concat (clause_docs <$> C0).
Lemma in_group_docs c0 d : c0 ∈ C0 -> in_clause c0 d = true -> d ∈ group_docs.
Proof using Hok.
  intros Hc Hd. apply elem_of_concat. exists (clause_docs c0). split; [|by apply list_elem_of_fmap_2].
  apply clause_docs_in; [|done]. by apply (proj1 (Forall_forall _ _) Hok).
Qed.

Lemma bound_terms (l : list ClauseCursor) : mt_upper_bound <$> (bound_term <$> l) = cl_upper_bound <$> l.
Proof using Type. by rewrite <-list_fmap_compose. Qed.

(** The pivot: the clauses before it cannot reach the threshold, and with it they have a bound. *)
Lemma group_pivot_spec F thr cs :
  clauses_at F cs ->
  match find_group_pivot thr f32_zero 0 f32_zero 0 cs with
  | None => low thr (sumZ (cl_upper_bound <$> cs))
  | Some i => exists c, cs !! i = Some c /\ low thr (sumZ (cl_upper_bound <$> take i cs)) /\ 0 < sumZ (cl_upper_bound <$> take (S i) cs)
  end.
Proof using Hub Hwt.
  intros Hat. rewrite find_group_pivot_terms; [|done|by eapply weights_ok].
  pose proof (find_pivot_spec thr 0 0 (bound_term <$> cs)) as Hpiv. change (Z.min 0 (u_max 64)) with 0 in Hpiv.
  rewrite bound_terms in Hpiv. assert (Hubt : Forall (fun t => 0 <= mt_upper_bound t) (bound_term <$> cs)).
  { apply Forall_fmap, Forall_forall. intros c Hc. destruct (clauses_in F cs c Hat Hc) as (c0 & Hc0 & Hu & _). cbn. rewrite Hu.
    by apply (proj1 (Forall_forall _ _) Hub). }
  specialize (Hpiv Hubt ltac:(by right)). destruct (find_pivot _ _ _ _) as [j|]; [|by rewrite Z.add_0_l in Hpiv].
  destruct Hpiv as (i & t & -> & Hi & Hlow & Hpos). rewrite !Z.add_0_l, <-!fmap_take, bound_terms in *. rewrite Nat.add_0_l.
  apply list_lookup_fmap_Some in Hi as (c & -> & Hc). by exists c.
Qed.

Lemma pivot_is_candidate F p cs i :
  clauses_at F cs -> F <= p -> (forall c, c ∈ take (S i) cs -> clause_doc_id c = Some p) ->
  0 < sumZ (cl_upper_bound <$> take (S i) cs) -> Wand.allowed restrict p = true -> cand p = true.
Proof using Type.
  intros Hat HF Hdoc Hpos Hal. unfold group_candidate. rewrite Hal. cbn [andb]. apply existsb_exists.
  assert (Hex : exists c, c ∈ take (S i) cs /\ 0 < cl_upper_bound c).
  { clear -Hpos. induction (take (S i) cs) as [|t l IH]; [rewrite fmap_nil, sumZ_nil in Hpos; lia|].
    rewrite fmap_cons, sumZ_cons in Hpos. destruct (Z.lt_ge_cases 0 (cl_upper_bound t)) as [H|H]; [exists t; split; [left|done]|].
    destruct IH as (t' & Ht' & H'); [lia|]. exists t'. split; [by right|done]. }
  destruct Hex as (c & Hc & Hcpos). specialize (Hdoc c Hc).
  assert (Hin : c ∈ cs) by (rewrite <-(take_drop (S i) cs); apply elem_of_app; by left).
  destruct (clauses_in F cs c Hat Hin) as (c0 & Hc0 & Hat0). exists c0. split; [by apply list_elem_of_In|].
  pose proof (clause_first _ _ _ Hat0) as Hfirst. rewrite Hdoc in Hfirst. destruct Hfirst as (_ & -> & _). destruct Hat0 as (Hu & _).
  rewrite andb_true_r, <-Hu. by apply Z.ltb_lt.
Qed.

Lemma candidate_evaluated F cs p total heap :
  clauses_at F cs -> F <= p -> (forall c e, c ∈ cs -> clause_doc_id c = Some e -> p <= e) ->
  (Wand.allowed restrict p = true -> cand p = true) ->
  (if Wand.allowed restrict p then offer k heap p (evaluate_doc stats None total f32_zero cs p) else heap) =
  (if cand p then push_top_k heap p (hh_score (hit p)) (hh_raw (hit p)) (hh_matched_terms (hit p)) k else heap).
Proof using Hok Hval Hwt.
  intros Hat HF Hd Hc. destruct (Wand.allowed restrict p) eqn:Hal; [|unfold group_candidate; by rewrite Hal].
  specialize (Hc eq_refl). rewrite Hc, (evaluate_pivot F cs p total Hat HF Hd).
  unfold group_candidate in Hc. apply andb_true_iff in Hc as [_ Hc]. apply existsb_exists in Hc as (c0 & Hc0 & [_ Hin]%andb_true_iff).
  rewrite (proj2 (existsb_exists _ C0)); [done|by exists c0].
Qed.

Lemma group_loop_correct fuel F cs heap total :
  (0 < k)%nat -> clauses_at F cs -> heap_for k (offered cand hit F) heap -> (left_from group_docs F < fuel)%nat ->
  exists heap', group_loop stats fuel k None total f32_zero restrict cs heap = Some heap' /\ heap_for k (offered_all cand hit) heap'.
Proof using Hok Hub Hval Hwt Hbnd.
  intros Hk. revert F cs heap. induction fuel as [|fuel IH]; intros F cs heap Hat Hh Hf; [lia|]. cbn [group_loop].
  destruct (sorted_clauses F cs Hat) as (Hcl & Hsort & Hmin). cbv zeta in *.
  destruct (Nat.eqb_spec (length (live_clauses cs)) 0) as [Hz|Hnz].
  { exists heap. split; [done|]. apply length_zero_iff_nil in Hz. apply (group_skip_rest F heap 0 Hh); [by right|]. intros d HF.
    apply clauses_at_live in Hat. rewrite Hz in Hat. apply (bound_of_clauses F [] [] d Hat HF). by intros c e ?%elem_of_nil. }
  set (clauses := sort_by_key clause_doc _) in *.
  pose proof (group_pivot_spec F (threshold heap k) clauses Hcl) as Hpiv.
  destruct (find_group_pivot _ _ _ _ _ _) as [i|].
  2:{ exists heap. split; [done|]. apply (group_skip_rest F heap _ Hh Hpiv). intros d HF.
      apply (bound_of_clauses F clauses [] d); [by rewrite app_nil_r|done|]. by intros c e ?%elem_of_nil. }
  destruct Hpiv as (ci & Hi & Hlow & Hpos). rewrite Hi. cbn [fmap option_fmap option_map default id from_option]. set (p := clause_doc ci) in *.
  destruct (clauses !! 0%nat) as [c1|] eqn:E0; [|apply lookup_ge_None in E0; apply lookup_lt_Some in Hi; lia].
  cbn [fmap option_fmap option_map default id from_option].
  assert (Hci : ci ∈ clauses) by (by eapply list_elem_of_lookup_2). assert (Hc1 : c1 ∈ clauses) by (by eapply list_elem_of_lookup_2).
  assert (HFp : F <= p) by (by apply Hmin).
  assert (Hsp : clause_doc c1 <= p) by (apply (Hsort 0%nat i c1 ci); [done|done|lia]).
  destruct (Hmin c1 Hc1) as [Hd1 HF1]. destruct (clauses_in F clauses c1 Hcl Hc1) as (c0 & Hc0 & Hat0).
  apply clause_first in Hat0. rewrite Hd1 in Hat0. destruct Hat0 as (_ & Hin1 & _). pose proof (in_group_docs c0 _ Hc0 Hin1) as Hdocs.
  destruct (Z.eqb_spec (clause_doc c1) p) as [Hsame|Hdiff].
  - assert (Hall : forall c d, c ∈ clauses -> clause_doc_id c = Some d -> p <= d).
    { intros c d Hc Hd. destruct (Hmin c Hc) as [Hd' _]. assert (d = clause_doc c) as -> by congruence.
      apply list_elem_of_lookup in Hc as (j & Hj). rewrite <-Hsame. apply (Hsort 0%nat j c1 c); [done|done|lia]. }
    apply (IH (p + 1)); [by apply (clauses_step F)| |].
    + apply (offered_next k cand hit p heap); [done|done| |].
      * apply (group_skip_to F p heap 0 HFp Hh); [by right|]. intros d Hd. apply (bound_of_clauses F [] clauses d); [done|lia|].
        intros c e Hc He. specialize (Hall c e Hc He). lia.
      * apply (candidate_evaluated F clauses p total heap Hcl HFp Hall). apply (pivot_is_candidate F p clauses i); try done.
        intros c Hc. apply list_elem_of_lookup in Hc as (j & Hj). apply lookup_take_Some in Hj as [Hj Hlt].
        pose proof (list_elem_of_lookup_2 _ _ _ Hj) as Hjin. destruct (Hmin c Hjin) as [Hd _]. rewrite Hd. f_equal.
        pose proof (Hall c _ Hjin Hd). pose proof (Hsort j i c ci Hj Hi ltac:(lia)) as Hle. fold p in Hle. lia.
    + pose proof (left_from_lt group_docs F (p + 1) (clause_doc c1) ltac:(lia) Hdocs). lia.
  - assert (Hafter : forall c d, c ∈ drop i clauses -> clause_doc_id c = Some d -> p <= d).
    { intros c d Hc Hd. apply list_elem_of_lookup in Hc as (j & Hj). rewrite lookup_drop in Hj.
      destruct (Hmin c (list_elem_of_lookup_2 _ _ _ Hj)) as [Hd' _]. assert (d = clause_doc c) as -> by congruence.
      apply (Hsort i (i + j)%nat ci c); [done|done|lia]. }
    apply (IH p).
    + apply (clauses_advance F); [by rewrite take_drop|done|done].
    + apply (group_skip_to F p heap _ HFp Hh Hlow). intros d Hd. apply (bound_of_clauses F (take i clauses) (drop i clauses) d).
      * by rewrite take_drop.
      * lia.
      * intros c e Hc He. specialize (Hafter c e Hc He). lia.
    + pose proof (left_from_lt group_docs F p (clause_doc c1) ltac:(lia) Hdocs). lia.
Qed.

(** The allowed documents one by one. *)
Lemma direct_correct ds G F cs heap total :
  (0 < k)%nat -> StronglySorted Z.lt ds -> (forall d, d ∈ ds -> F <= d) -> (forall d, F <= d -> Wand.allowed restrict d = true <-> d ∈ ds) ->
  G <= F -> clauses_at G cs -> heap_for k (offered (group_candidate true) hit F) heap ->
  heap_for k (offered_all (group_candidate true) hit) (fold_left (direct_step stats k None total f32_zero) ds (cs, heap)).2.
Proof using Hok Hval Hwt.
  intros Hk Hs. revert G F cs heap. induction Hs as [|p ds Hs IH Hlt]; intros G F cs heap HF Hds HG Hat Hh; cbn [fold_left].
  - cbn. apply (offered_end k _ _ F); [|done]. intros d Hd. unfold group_candidate.
    destruct (Wand.allowed restrict d) eqn:E; [|done]. apply Hds in E; [|done]. by apply elem_of_nil in E.
  - rewrite Forall_forall in Hlt. pose proof (HF p (list_elem_of_here _ _)) as HFp.
    assert (Hat' : clauses_at p ((fun c => clause_advance c p) <$> cs)).
    { pose proof (clauses_advance G p cs []) as Ha. rewrite !app_nil_r in Ha. apply Ha; [done|lia|]. by intros c d ?%elem_of_nil. }
    assert (Hd : forall c e, c ∈ (fun c => clause_advance c p) <$> cs -> clause_doc_id c = Some e -> p <= e).
    { intros c e Hc He. destruct (clauses_in p _ c Hat' Hc) as (c0 & _ & Hat0). apply clause_first in Hat0. rewrite He in Hat0. apply Hat0. }
    unfold direct_step at 2. cbn [fst snd]. apply (IH p (p + 1)).
    + intros d Hin. specialize (Hlt d Hin). lia.
    + intros d Hle. rewrite Hds by lia. rewrite elem_of_cons. split; [intros [->|?]; [lia|done]|by right].
    + lia.
    + exact Hat'.
    + apply (offered_next k _ _ p heap); [done|done| |].
      * apply (offered_gap k _ _ F); [done| |done]. intros d Hlt'. unfold group_candidate.
        destruct (Wand.allowed restrict d) eqn:E; [|done]. apply Hds in E; [|lia]. apply elem_of_cons in E as [->|E]; [lia|]. specialize (Hlt d E). lia.
      * rewrite (evaluate_pivot p _ p total Hat' ltac:(lia) Hd). unfold group_candidate.
        rewrite (proj2 (Hds p HFp)) by left. cbn [andb orb]. by destruct (existsb _ C0).
Qed.
End disjunctive.

(** ** Bounds of clauses *)

Lemma sat_add_mono a a' b b' : a <= a' -> b <= b' -> saturating_add 64 a b <= saturating_add 64 a' b'.
Proof. unfold saturating_add. lia. Qed.
Lemma sat_add_nonneg a b : 0 <= a -> 0 <= b -> 0 <= saturating_add 64 a b.
Proof. unfold saturating_add. assert (0 < u_max 64) by done. lia. Qed.
Lemma weighted_mono s s' w : 0 <= w -> s <= s' -> weighted s w <= weighted s' w.
Proof. intros Hw Hs. unfold weighted, saturating_mul. apply Z.div_le_mono; [lia|]. nia. Qed.
Lemma weighted_nonneg s w : 0 <= w -> 0 <= s -> 0 <= weighted s w.
Proof. intros Hw Hs. unfold weighted, saturating_mul. assert (0 < u_max 64) by done. apply Z.div_pos; nia. Qed.

(** One state of [best_per_field] is worth at most another: what is added up and what would be if the walk ended. *)
Definition best_end (st : Z * option (nat * Z)) : Z := saturating_add 64 st.1 (match st.2 with Some (_, b) => b | None => 0 end).
Definition best_below (st st' : Z * option (nat * Z)) : Prop :=
  0 <= st.1 <= st'.1 /\ st.1 <= u_max 64 /\ st'.1 <= u_max 64 /\
  match st.2, st'.2 with
  | None, None => True
  | None, Some (_, b') => 0 <= b'
  | Some _, None => False
  | Some (f, b), Some (f', b') => 0 <= b /\ 0 <= b' /\ best_end st <= (if decide (f = f') then best_end st' else st'.1)
  end.

Lemma best_below_both st st' f v v' : best_below st st' -> 0 <= v <= v' -> best_below (best_step st (f, v)) (best_step st' (f, v')).
Proof.
  destruct st as [t [[g b]|]], st' as [t' [[g' b']|]]; unfold best_below, best_end, best_step, saturating_add; cbn [fst snd]; assert (0 < u_max 64) by done; try (intros; lia).
  - intros (H1 & H2 & H3 & H4 & H5 & H6) Hv. destruct (Nat.eqb_spec g f) as [->|], (Nat.eqb_spec g' f) as [->|]; cbn [fst snd];
      destruct (decide _); cbn [fst snd] in *; try congruence; rewrite ?decide_True by done; try (split_and!; lia).
    all: destruct (decide _); cbn [fst snd] in *; try congruence; split_and!; lia.
  - intros (H1 & H2 & H3 & H4) Hv. destruct (Nat.eqb_spec g' f) as [->|]; cbn [fst snd]; rewrite decide_True by done; cbn [fst snd]; split_and!; lia.
  - intros (H1 & H2 & H3 & H4) Hv. rewrite decide_True by done. cbn [fst snd]. split_and!; lia.
Qed.
Lemma best_below_right st st' f v' : best_below st st' -> 0 <= v' -> best_below st (best_step st' (f, v')).
Proof.
  destruct st as [t [[g b]|]], st' as [t' [[g' b']|]]; unfold best_below, best_end, best_step, saturating_add; cbn [fst snd]; assert (0 < u_max 64) by done; try (intros; lia).
  - intros (H1 & H2 & H3 & H4 & H5 & H6) Hv. destruct (Nat.eqb_spec g' f) as [->|]; cbn [fst snd];
      repeat destruct (decide _); cbn [fst snd] in *; try congruence; split_and!; lia.
  - intros (H1 & H2 & H3 & H4) Hv. destruct (Nat.eqb_spec g' f) as [->|]; cbn [fst snd]; split_and!; lia.
Qed.

Lemma best_below_fold {A} (g : A -> nat) (v ub : A -> Z) (P : A -> Prop) `{forall x, Decision (P x)} l st st' :
  (forall x, x ∈ l -> 0 <= ub x /\ (P x -> 0 <= v x <= ub x)) -> best_below st st' ->
  best_below (fold_left best_step ((fun x => (g x, v x)) <$> filter P l) st) (fold_left best_step ((fun x => (g x, ub x)) <$> l) st').
Proof.
  revert st st'. induction l as [|x l IH]; intros st st' Hl Hb; [done|]. rewrite filter_cons, fmap_cons. cbn [fold_left].
  destruct (Hl x (list_elem_of_here _ _)) as [H1 H2]. assert (Hl' := fun y Hy => Hl y (list_elem_of_further _ _ _ Hy)).
  destruct (decide (P x)) as [Hp|]; [rewrite fmap_cons; cbn [fold_left]|]; apply IH; try done.
  - apply best_below_both; auto.
  - by apply best_below_right.
Qed.

(** The best values of some of the forms are below the best bounds of all of them. *)
Lemma best_per_field_le {A} (g : A -> nat) (v ub : A -> Z) (P : A -> Prop) `{forall x, Decision (P x)} l :
  (forall x, x ∈ l -> 0 <= ub x /\ (P x -> 0 <= v x <= ub x)) ->
  0 <= best_per_field ((fun x => (g x, v x)) <$> filter P l) <= best_per_field ((fun x => (g x, ub x)) <$> l).
Proof.
  intros Hl. assert (Hb : best_below (0, None) (0, None)) by (assert (0 < u_max 64) by done; unfold best_below; cbn; lia).
  pose proof (best_below_fold g v ub P l _ _ Hl Hb) as Hf. unfold best_per_field.
  destruct (fold_left _ _ _) as [t o], (fold_left _ _ _) as [t' o']. unfold best_below, best_end, saturating_add in *. cbn [fst snd] in Hf.
  assert (0 < u_max 64) by done. destruct o as [[f b]|], o' as [[f' b']|]; [destruct (decide _)|..]; lia.
Qed.

(** ** The clauses of a search *)

Section start.
Context {LN : Ln} (stats : SearchStats).

(** The clauses before their forms are aligned: what the search reads. *)
Definition start_clauses (fields : list FieldClauses) : list ClauseCursor :=
  concat ((fun field : FieldClauses => omap (fun forms => clause_of (omap (form_start stats) forms)) (field : list (list FormRef))) <$> fields).

(** The score of a list's posting is at most the bound the list is given. *)
Definition list_bounded (form : FormRef) (l : TermRef) : Prop :=
  let xpath := fr_xpath form in
  let avg := avg_doc_len stats xpath in
  forall p, p ∈ items (tr_postings l) ->
    bm25_score_scaled (wrap 32 (zlen (positions p))) (weight p) (default (f32_to_u 32 avg) (ss_doc_len stats (doc_id p) xpath)) avg
      (ss_doc_count stats xpath) (tr_doc_freq l)
    <= bm25_upper_bound (tr_max_weight l) (ss_doc_count stats xpath) (tr_doc_freq l).
Definition form_ref_ok (form : FormRef) : Prop :=
  0 <= fr_weight form /\ Forall (fun l => docs_ascending (items (tr_postings l))) (fr_lists form).

Lemma scaled_nonneg tf w len avg n df : 0 <= bm25_score_scaled tf w len avg n df.
Proof using Type.
  unfold bm25_score_scaled. repeat case_match; try lia. apply f32_to_u_range. lia.
Qed.
Lemma upper_nonneg w n df : 0 <= bm25_upper_bound w n df.
Proof using Type. unfold bm25_upper_bound. destruct (_ || _); [done|]. apply f32_to_u_range. lia. Qed.

Lemma form_start_ok form f :
  form_ref_ok form -> form_start stats form = Some f -> form_ok f /\ fm_lists f = (fun l => items (tr_postings l)) <$> fr_lists form.
Proof using Type.
  intros [_ Ha] Hf. unfold form_start in Hf. destruct (_ || _) eqn:E; [done|]. injection Hf as <-. apply orb_false_iff in E as [E _].
  apply bool_decide_eq_false in E. unfold form_ok, fm_lists. cbn [fm_cursors]. rewrite <-list_fmap_compose. split; [split|done].
  - by destruct (fr_lists form).
  - by apply Forall_fmap.
Qed.

(** The sum of the scores of a document's postings and the sum of the bounds. *)
Lemma sums_le d avg len n ls acc acc' :
  0 <= acc <= acc' /\ acc <= u_max 64 ->
  Forall (fun l => forall p, posting_of d (items (tr_postings l)) = Some p ->
    bm25_score_scaled (wrap 32 (zlen (positions p))) (weight p) len avg n (tr_doc_freq l) <= bm25_upper_bound (tr_max_weight l) n (tr_doc_freq l)) ls ->
  0 <= fold_left (fun score (e : list Posting * Z) =>
    match posting_of d e.1 with
    | Some p => saturating_add 64 score (bm25_score_scaled (wrap 32 (zlen (positions p))) (weight p) len avg n e.2)
    | None => score
    end) (zip ((fun l => items (tr_postings l)) <$> ls) (tr_doc_freq <$> ls)) acc
  <= fold_left (fun acc l => saturating_add 64 acc (bm25_upper_bound (tr_max_weight l) n (tr_doc_freq l))) ls acc'.
Proof using Type.
  intros Hacc Hls. revert acc acc' Hacc. induction Hls as [|l ls Hl Hls IH]; intros acc acc' Hacc; [cbn; lia|]. rewrite !fmap_cons.
  cbn [zip zip_with fold_left fst snd]. apply IH. pose proof (upper_nonneg (tr_max_weight l) n (tr_doc_freq l)) as Hu.
  assert (0 < u_max 64) by done.
  destruct (posting_of d (items (tr_postings l))) as [p|] eqn:Ep.
  - pose proof (scaled_nonneg (wrap 32 (zlen (positions p))) (weight p) len avg n (tr_doc_freq l)). specialize (Hl p eq_refl).
    unfold saturating_add. lia.
  - unfold saturating_add. lia.
Qed.

Lemma form_start_bound form f d :
  form_ref_ok form -> Forall (list_bounded form) (fr_lists form) -> form_start stats form = Some f ->
  0 <= form_value stats f d <= fm_upper_bound f.
Proof using Type.
  intros Hok Hb Hf. destruct (form_start_ok form f Hok Hf) as [_ Hl]. destruct Hok as [Hw _]. unfold form_value. rewrite Hl.
  unfold form_start in Hf. destruct (_ || _); [done|]. injection Hf as <-. cbn [fm_avg_doc_len fm_xpath fm_doc_count fm_doc_freqs fm_weight fm_upper_bound].
  pose proof (sums_le d (avg_doc_len stats (fr_xpath form))
    (default (f32_to_u 32 (avg_doc_len stats (fr_xpath form))) (ss_doc_len stats d (fr_xpath form))) (ss_doc_count stats (fr_xpath form)) (fr_lists form) 0 0) as Hs.
  assert (Hz : 0 <= 0 <= 0 /\ 0 <= u_max 64) by (assert (0 < u_max 64) by done; lia). specialize (Hs Hz). cbv zeta in Hs.
  assert (Hbd : Forall (fun l => forall p, posting_of d (items (tr_postings l)) = Some p ->
    bm25_score_scaled (wrap 32 (zlen (positions p))) (weight p)
      (default (f32_to_u 32 (avg_doc_len stats (fr_xpath form))) (ss_doc_len stats d (fr_xpath form))) (avg_doc_len stats (fr_xpath form))
      (ss_doc_count stats (fr_xpath form)) (tr_doc_freq l) <= bm25_upper_bound (tr_max_weight l) (ss_doc_count stats (fr_xpath form)) (tr_doc_freq l)) (fr_lists form)).
  { eapply Forall_impl; [exact Hb|]. intros l Hlb p Hp. apply posting_of_Some in Hp as [Hin <-]. by apply Hlb. }
  destruct (Hs Hbd) as [H1 H2]. split; [by apply weighted_nonneg|by apply weighted_mono].
Qed.
Lemma form_start_upper form f : 0 <= fr_weight form -> form_start stats form = Some f -> 0 <= fm_upper_bound f.
Proof using Type.
  intros Hw Hf. unfold form_start in Hf. destruct (_ || _); [done|]. injection Hf as <-. cbn [fm_upper_bound]. apply weighted_nonneg; [done|].
  assert (Hfold : forall ls acc, 0 <= acc -> 0 <= fold_left (fun acc l => saturating_add 64 acc (bm25_upper_bound (tr_max_weight l)
    (ss_doc_count stats (fr_xpath form)) (tr_doc_freq l))) ls acc); [|by apply Hfold].
  induction ls as [|l ls IH]; intros acc Hacc; [done|]. apply IH, sat_add_nonneg; [done|apply upper_nonneg].
Qed.

(** A clause's value is between 0 and its bound. *)
Lemma clause_bounds forms c d :
  Forall form_ref_ok forms -> Forall (fun form => Forall (list_bounded form) (fr_lists form)) forms ->
  clause_of (omap (form_start stats) forms) = Some c -> clause_ok c /\ 0 <= clause_value stats c d <= cl_upper_bound c.
Proof using Type.
  intros Hok Hb Hc. assert (Hforms : forall f, f ∈ omap (form_start stats) forms -> exists form, form_start stats form = Some f /\ form_ref_ok form /\ Forall (list_bounded form) (fr_lists form)).
  { intros f (form & Hin & Hf)%list_elem_of_omap. exists form. split; [done|]. split; [by apply (proj1 (Forall_forall _ _) Hok)|].
    by apply (proj1 (Forall_forall _ _) Hb form). }
  revert Hc Hforms. generalize (omap (form_start stats) forms) as fs. intros fs Hc Hforms. destruct fs as [|f fs]; [done|].
  injection Hc as <-. unfold clause_ok, clause_value. cbn [cl_forms cl_upper_bound]. split.
  - apply Forall_forall. intros g Hg. destruct (Hforms g Hg) as (form & Hf & Ho & _). by destruct (form_start_ok form g Ho Hf).
  - apply (best_per_field_le fm_field (fun f => form_value stats f d) fm_upper_bound (fun f => in_form f d = true) (f :: fs)). intros g Hg. destruct (Hforms g Hg) as (form & Hf & Ho & Hbd). split.
    + destruct Ho as [Hw _]. by apply (form_start_upper form).
    + intros _. by apply (form_start_bound form).
Qed.

Lemma elem_start_clauses fields c :
  c ∈ start_clauses fields -> exists forms, forms ∈ concat fields /\ clause_of (omap (form_start stats) forms) = Some c.
Proof using Type.
  unfold start_clauses. rewrite elem_of_concat. intros (cs & Hc & Hcs). apply list_elem_of_fmap in Hcs as (field & -> & Hf).
  apply list_elem_of_omap in Hc as (forms & Hin & Hc). exists forms. split; [|done]. apply elem_of_concat. by exists field.
Qed.

(** ** Aligning the clauses *)

Lemma cursor_new_at F l : docs_ascending (items l) -> (forall d, d ∈ docs (items l) -> F <= d) -> cursor_walk F (items l) (cursor_new l).
Proof using Type.
  intros Hs HF. split; [done|]. apply cursor_at_unique; [cbn; lia|intros; cbn in *; lia|]. intros q Hq. apply HF.
  apply list_elem_of_lookup_2 in Hq. unfold docs. apply list_elem_of_In, in_map, list_elem_of_In, Hq.
Qed.

Lemma form_new_at F form f :
  form_ref_ok form -> form_start stats form = Some f -> (forall d, d ∈ form_docs f -> F <= d) -> form_at F f (align f).
Proof using Type.
  intros Hok Hf HF. destruct (form_start_ok form f Hok Hf) as [[Hne _] Hl]. destruct Hok as [_ Ha].
  assert (Hw : Forall2 (cursor_walk F) (fm_lists f) (fm_cursors f)).
  { assert (Hc : fm_cursors f = (fun l => cursor_new (tr_postings l)) <$> fr_lists form).
    { unfold form_start in Hf. destruct (_ || _); [done|]. by injection Hf as <-. }
    unfold form_docs in HF. rewrite Hl in HF |- *. rewrite Hc. apply Forall2_fmap, Forall_Forall2_diag, Forall_forall. intros l Hin.
    apply cursor_new_at; [by apply (proj1 (Forall_forall _ _) Ha)|]. intros d Hd. apply HF, elem_of_concat.
    exists (docs (items (tr_postings l))). split; [done|]. rewrite <-list_fmap_compose.
    apply list_elem_of_fmap. by exists l. }
  replace (align f) with (align (set_form f (fm_cursors f) (fm_doc f))) by (by destruct f).
  apply align_spec; [by apply behind_of|]. destruct (fm_cursors f) as [|c cs]; [done|]. inversion Hw as [|l ? ls ? Hc]; subst.
  by exists 0%nat, l, c.
Qed.

Lemma align_fields f : fm_field (align f) = fm_field f /\ fm_upper_bound (align f) = fm_upper_bound f /\ fm_doc_count (align f) = fm_doc_count f /\ fm_idf (align f) = fm_idf f.
Proof using Type. unfold align. by destruct (default _ _). Qed.

Lemma clause_new_at F forms :
  Forall form_ref_ok forms -> (forall f d, f ∈ omap (form_start stats) forms -> d ∈ form_docs f -> F <= d) ->
  match clause_of (omap (form_start stats) forms), ClauseCursor_new stats forms with
  | Some c0, Some c => clause_at F c0 c
  | None, None => True
  | _, _ => False
  end.
Proof using Type.
  intros Hok HF. unfold ClauseCursor_new.
  assert (E : omap (FormCursor_new stats) forms = align <$> omap (form_start stats) forms).
  { clear. induction forms as [|form forms IH]; [done|]. rewrite !omap_cons, IH. unfold FormCursor_new. by destruct (form_start stats form). }
  assert (Hat : Forall2 (form_at F) (omap (form_start stats) forms) (align <$> omap (form_start stats) forms)).
  { apply Forall2_fmap_r, Forall_Forall2_diag, Forall_forall. intros f Hf. pose proof Hf as (form & Hin & Hs)%list_elem_of_omap.
    apply (form_new_at F form); [by apply (proj1 (Forall_forall _ _) Hok)|done|]. intros d. by apply HF. }
  rewrite E. clear E HF. revert Hat. generalize (omap (form_start stats) forms) as fs. intros fs Hat. destruct fs as [|f fs]; [done|].
  rewrite fmap_cons. unfold clause_of. rewrite <-fmap_cons. set (l := f :: fs) in *.
  split; [|split]; cbn [cl_upper_bound cl_weight cl_forms]; [| |exact Hat].
  - f_equal. rewrite <-list_fmap_compose. apply list_fmap_ext. intros i x _. unfold compose. destruct (align_fields x) as (-> & -> & _). done.
  - assert (Hn : fm_doc_count <$> (align <$> l) = fm_doc_count <$> l).
    { rewrite <-list_fmap_compose. apply list_fmap_ext. intros i x _. apply align_fields. }
    rewrite Hn. f_equal. generalize (foldr Z.max 0 (fm_doc_count <$> l)) as m. intros m. clear. induction l as [|x l IH]; [done|].
    rewrite fmap_cons, !filter_cons. destruct (align_fields x) as (_ & _ & Hc & Hi).
    do 2 case_decide; [|congruence..|apply IH]. rewrite !fmap_cons, Hi. f_equal. apply IH.
Qed.

(** ** The moves keep the lists *)

Lemma meet_loop_keeps {W A} (doc : W -> option DocId) advance (g : W -> A) fuel ws ws' o :
  (forall w t, g (advance w t) = g w) -> meet_loop doc advance fuel ws = Some (ws', o) -> g <$> ws' = g <$> ws.
Proof using Type.
  intros Hg. revert ws. induction fuel as [|fuel IH]; intros ws Hm; [done|]. cbn [meet_loop] in Hm.
  destruct (meet_target _) as [t|]; [|by injection Hm as <- _].
  assert (E : g <$> ((fun w => advance w t) <$> ws) = g <$> ws).
  { rewrite <-list_fmap_compose. apply list_fmap_ext. intros i w _. apply Hg. }
  destruct (forallb _ _); [by injection Hm as <- _|]. rewrite <-E. by apply IH.
Qed.
Lemma advance_keeps c t : c_postings (advance_to c t) = c_postings c.
Proof using Type.
  unfold advance_to, advance_to_raw. destruct (_ !! _); [|done]. destruct (_ <=? _); [done|]. destruct (gallop _ _ _ _ _); [|done].
  by destruct (bisect _ _ _ _ _).
Qed.
Lemma align_keeps f : fm_lists (align f) = fm_lists f.
Proof using Type.
  unfold align. destruct (meet_loop _ _ _ _) as [[cs o]|] eqn:E; cbn [default from_option id]; [|done].
  apply (meet_loop_keeps _ _ c_postings) in E; [|apply advance_keeps]. exact E.
Qed.
Lemma form_advance_keeps f t : fm_lists (form_advance f t) = fm_lists f.
Proof using Type.
  unfold form_advance. destruct (fm_doc f); [|done]. destruct (_ <? _); [|done]. rewrite align_keeps. unfold fm_lists. cbn.
  rewrite <-list_fmap_compose. apply list_fmap_ext. intros i c _. apply advance_keeps.
Qed.
Lemma form_step_keeps f d : fm_lists (form_step f d) = fm_lists f.
Proof using Type.
  unfold form_step. destruct (decide _); [|done]. rewrite align_keeps. unfold fm_lists. cbn. destruct (fm_cursors f) as [|c cs]; [done|].
  rewrite !fmap_cons. f_equal. unfold cursor_next. by destruct (is_exhausted c).
Qed.

Definition clause_lists (c : ClauseCursor) : list (list (list Posting)) := fm_lists <$> cl_forms c.
Lemma clause_advance_keeps c t : clause_lists (clause_advance c t) = clause_lists c.
Proof using Type. unfold clause_lists. cbn. rewrite <-list_fmap_compose. apply list_fmap_ext. intros i f _. apply form_advance_keeps. Qed.
Lemma clause_step_keeps d c : clause_lists (clause_step d c) = clause_lists c.
Proof using Type. unfold clause_lists. cbn. rewrite <-list_fmap_compose. apply list_fmap_ext. intros i f _. apply form_step_keeps. Qed.

Lemma clause_postings_docs c0 c : clause_lists c = clause_lists c0 -> clause_postings c = length (clause_docs c0).
Proof using Type.
  unfold clause_lists, clause_postings, clause_docs. generalize (cl_forms c0) as fs0, (cl_forms c) as fs. intros fs0 fs. revert fs0.
  induction fs as [|f fs IH]; intros [|f0 fs0] E; rewrite ?fmap_cons in *; try done. injection E as Ef E. rewrite sum_list_cons, (IH fs0 E).
  cbn [concat]. rewrite length_app. f_equal. unfold form_postings, form_docs, fm_lists in *. rewrite <-Ef. clear.
  induction (fm_cursors f) as [|c cs IH]; [done|]. rewrite !fmap_cons, sum_list_cons, IH. cbn [concat]. rewrite length_app. f_equal.
  unfold docs. by rewrite length_map.
Qed.

(** The clauses of the search, before any document. *)
Definition clauses_start (F : DocId) (c0 c : ClauseCursor) : Prop := clause_at F c0 c /\ clause_lists c = clause_lists c0.
Definition fields_forms (fields : list FieldClauses) : list FormRef := concat (concat fields).

Lemma clause_new_start F forms :
  Forall form_ref_ok forms -> (forall f d, f ∈ omap (form_start stats) forms -> d ∈ form_docs f -> F <= d) ->
  match clause_of (omap (form_start stats) forms), ClauseCursor_new stats forms with
  | Some c0, Some c => clauses_start F c0 c
  | None, None => True
  | _, _ => False
  end.
Proof using Type.
  intros Hok HF. pose proof (clause_new_at F forms Hok HF) as Hat. unfold ClauseCursor_new in *.
  assert (E : omap (FormCursor_new stats) forms = align <$> omap (form_start stats) forms).
  { clear. induction forms as [|form forms IH]; [done|]. rewrite !omap_cons, IH. unfold FormCursor_new. by destruct (form_start stats form). }
  rewrite E in *. clear E. revert Hat. generalize (omap (form_start stats) forms) as fs. intros fs. destruct fs as [|f fs]; [done|].
  rewrite fmap_cons. unfold clause_of. intros Hat. split; [exact Hat|]. unfold clause_lists. cbn [cl_forms]. rewrite <-!fmap_cons, <-list_fmap_compose.
  apply list_fmap_ext. intros i g _. apply align_keeps.
Qed.

Lemma forms_of_clause fields forms : Forall form_ref_ok (fields_forms fields) -> forms ∈ concat fields -> Forall form_ref_ok forms.
Proof using Type.
  intros Hok Hf. apply Forall_forall. intros form Hin. apply (proj1 (Forall_forall _ _) Hok). apply elem_of_concat. by exists forms.
Qed.
Lemma clause_of_cons fs : clause_of fs = None \/ exists c, clause_of fs = Some c /\ cl_forms c = fs.
Proof using Type. destruct fs; [by left|right; by eexists]. Qed.

Lemma start_group_clauses F fields :
  Forall form_ref_ok (fields_forms fields) -> (forall c d, c ∈ start_clauses fields -> d ∈ clause_docs c -> F <= d) ->
  Forall2 (clauses_start F) (start_clauses fields) (group_clauses stats fields).
Proof using Type.
  intros Hok HF. unfold start_clauses, group_clauses in *.
  assert (Hfields : forall field, field ∈ fields -> Forall2 (clauses_start F)
    (omap (fun forms => clause_of (omap (form_start stats) forms)) (field : list (list FormRef)))
    (omap (ClauseCursor_new stats) (field : list (list FormRef)))).
  { intros field Hf. assert (Hforms : forall forms, forms ∈ field -> Forall form_ref_ok forms /\
      forall f d, f ∈ omap (form_start stats) forms -> d ∈ form_docs f -> F <= d).
    { intros forms Hin. split; [apply (forms_of_clause fields); [done|]; apply elem_of_concat; by exists field|]. intros f d Hf' Hd.
      destruct (clause_of_cons (omap (form_start stats) forms)) as [Hn|(c & Hc & Hcf)].
      - destruct (omap (form_start stats) forms); [by apply elem_of_nil in Hf'|done].
      - apply (HF c).
        + apply elem_of_concat. eexists. split; [|apply list_elem_of_fmap; by exists field]. apply list_elem_of_omap. by exists forms.
        + unfold clause_docs. apply elem_of_concat. exists (form_docs f). split; [done|]. apply list_elem_of_fmap_2. by rewrite Hcf. }
    clear Hf HF. induction field as [|forms field IH]; [constructor|]. rewrite !omap_cons.
    destruct (Hforms forms (list_elem_of_here _ _)) as [H1 H2]. pose proof (clause_new_start F forms H1 H2) as Hc.
    specialize (IH (fun fs Hfs => Hforms fs (list_elem_of_further _ _ _ Hfs))).
    destruct (clause_of _), (ClauseCursor_new stats forms); try done. by constructor. }
  clear HF Hok. induction fields as [|field fields IH]; [constructor|]. rewrite !fmap_cons. cbn [concat]. apply Forall2_app.
  - apply Hfields. left.
  - apply IH. intros fl Hfl. apply Hfields. by right.
Qed.

(** ** The whole search *)

Definition visits_all (restrict : option (gset DocId)) : bool :=
  match restrict with Some docs => (size docs <=? DIRECT_RESTRICT_MAX)%nat | None => false end.

(** The reference: every document on a clause, scored and ranked. *)
Definition brute_grouped (fields : list FieldClauses) (k : nat) (restrict : option (gset DocId)) : list WandHit :=
  let C0 := start_clauses fields in
  take k (TopK.ranked (group_hit stats C0 <$> filter (fun d => group_candidate C0 restrict (visits_all restrict) d = true)
    (dedup (sort_unstable (group_docs C0))))).

Lemma dedup_nodup l : NoDup (dedup (sort_unstable l)).
Proof using Type.
  pose proof (dedup_sorted _ (sort_unstable_sorted l)) as Hs. induction Hs as [|x l' _ IH Hx]; constructor; [|done].
  rewrite Forall_forall in Hx. intros Hin. specialize (Hx x Hin). lia.
Qed.
Lemma sorted_elements (docs : gset DocId) : StronglySorted Z.lt (sort_unstable (elements docs)).
Proof using Type.
  assert (Hn : NoDup (sort_unstable (elements docs))) by (unfold sort_unstable; rewrite (sort_by_key_perm id); apply NoDup_elements).
  pose proof (sort_unstable_sorted (elements docs)) as Hs. induction Hs as [|x l Hs IH Hx]; [constructor|].
  apply NoDup_cons in Hn as [Hx' Hn]. constructor; [by apply IH|]. rewrite Forall_forall in Hx |- *. intros y Hy. specialize (Hx y Hy).
  assert (x <> y) by (by intros ->). lia.
Qed.

Section search.
Context `{Powf64} (fields : list FieldClauses) (k : nat) (restrict : option (gset DocId)).
Context (Hforms : Forall form_ref_ok (fields_forms fields)).
Context (Hbounds : Forall (fun form => Forall (list_bounded form) (fr_lists form)) (fields_forms fields)).
Context (Hweights : Forall (fun c => f32_nonneg (cl_weight c) = true) (start_clauses fields)).
Abbreviation C0 := (start_clauses fields).

Lemma start_bounds c d : c ∈ C0 -> clause_ok c /\ 0 <= clause_value stats c d <= cl_upper_bound c.
Proof using Hforms Hbounds.
  intros (forms & Hin & Hc)%elem_start_clauses. apply (clause_bounds forms); [by apply (forms_of_clause fields)| |done].
  apply Forall_forall. intros form Hf. apply (proj1 (Forall_forall _ _) Hbounds form). apply elem_of_concat. by exists forms.
Qed.
Lemma start_ok : Forall clause_ok C0.
Proof using Hforms Hbounds. apply Forall_forall. intros c Hc. apply (start_bounds c 0 Hc). Qed.
Lemma start_upper : Forall (fun c => 0 <= cl_upper_bound c) C0.
Proof using Hforms Hbounds. apply Forall_forall. intros c Hc. destruct (start_bounds c 0 Hc). lia. Qed.

Lemma candidate_doc any d : group_candidate C0 restrict any d = true -> exists c, c ∈ C0 /\ in_clause c d = true.
Proof using Type.
  unfold group_candidate. intros [_ He]%andb_true_iff. apply existsb_exists in He as (c & Hc & [_ Hin]%andb_true_iff).
  exists c. split; [by apply list_elem_of_In|done].
Qed.

Lemma search_start (extra : list DocId) :
  exists F, (forall d, d ∈ extra -> F <= d) /\ clauses_at C0 F (group_clauses stats fields) /\ (forall any d, d < F -> group_candidate C0 restrict any d = false) /\
    sum_list (clause_postings <$> group_clauses stats fields) = length (group_docs C0).
Proof using Hforms Hbounds.
  destruct (lower_bound (extra ++ group_docs C0)) as [F HF]. exists F.
  assert (HF' : forall d, d ∈ group_docs C0 -> F <= d) by (intros d Hd; apply HF, elem_of_app; by right).
  assert (H2 : Forall2 (clauses_start F) C0 (group_clauses stats fields)).
  { apply start_group_clauses; [done|]. intros c d Hc Hd. apply HF', elem_of_concat. exists (clause_docs c). split; [done|by apply list_elem_of_fmap_2]. }
  split_and!.
  - intros d Hd. apply HF, elem_of_app. by left.
  - exists C0, []. rewrite app_nil_r. split; [done|]. split; [|by intros ? ? ?%elem_of_nil]. eapply Forall2_impl; [exact H2|]. by intros ? ? [? _].
  - intros any d Hd. apply not_true_iff_false. intros (c & Hc & Hin)%candidate_doc. pose proof (in_group_docs C0 start_ok c d Hc Hin) as Hi.
    specialize (HF' d Hi). lia.
  - clear -H2. unfold group_docs. induction H2 as [|c0 c l0 l [_ Hc] _ IH]; [done|]. rewrite !fmap_cons, sum_list_cons, IH, (clause_postings_docs c0 c Hc).
    cbn [concat]. by rewrite length_app.
Qed.

End search.
End start.

(** ** Witnesses *)

Definition toy_list (docs : list DocId) : TermRef := mkTermRef (mkPostingList (toy_posting <$> docs) 1) (zlen docs) 1.
(** Two fields of two clauses; the first clause of the first field has a synonym of two words. *)
Definition toy_groups : list FieldClauses :=
  [[[mkFormRef 1 0 [toy_list [1; 3; 5; 8]] 1000; mkFormRef 1 0 [toy_list [2; 4; 9]; toy_list [4; 9]] 800];
    [mkFormRef 1 0 [toy_list [3; 4; 8; 9]] 1000]];
   [[mkFormRef 2 1 [toy_list [2; 3]] 1000]; [mkFormRef 2 1 [toy_list [3; 7]] 1000]]].

Lemma toy_groups_ok : Forall form_ref_ok (fields_forms toy_groups).
Proof. repeat constructor; cbn; lia. Qed.


Definition lists_check {LN : Ln} (stats : SearchStats) (form : FormRef) : bool :=
  let xpath := fr_xpath form in
  let avg := avg_doc_len stats xpath in
  forallb (fun l => forallb (fun p =>
    bm25_score_scaled (wrap 32 (zlen (positions p))) (weight p) (default (f32_to_u 32 avg) (ss_doc_len stats (doc_id p) xpath)) avg
      (ss_doc_count stats xpath) (tr_doc_freq l)
    <=? bm25_upper_bound (tr_max_weight l) (ss_doc_count stats xpath) (tr_doc_freq l)) (items (tr_postings l))) (fr_lists form).
Lemma lists_check_ok {LN : Ln} stats forms :
  forallb (lists_check stats) forms = true -> Forall (fun form => Forall (list_bounded stats form) (fr_lists form)) forms.
Proof.
  intros Hc. apply Forall_forall. intros form Hf. apply Forall_forall. intros l Hl p Hp. rewrite forallb_forall in Hc.
  specialize (Hc form (proj1 (list_elem_of_In _ _) Hf)). unfold lists_check in Hc. rewrite forallb_forall in Hc.
  specialize (Hc l (proj1 (list_elem_of_In _ _) Hl)). rewrite forallb_forall in Hc.
  specialize (Hc p (proj1 (list_elem_of_In _ _) Hp)). by apply Z.leb_le.
Qed.

Definition toy_powf64 : Powf64 := fun x _ => x.
