(* ===== verification/GroupedConj.v ===== *)
(** * The conjunctive grouped search is exact

    Proofs about [conjunctive_top_k_grouped]: the clauses of a field meet on the documents that
    are on all of them, a document is worth what the clauses of those fields add up to, and the
    search returns what ranking all such documents returns. *)
From Stdlib Require Import ZArith Lia SpecFloat.
From stdpp Require Import base numbers list sorting gmap.
From S2P Require Import Prelude Types Posting PostingOps Scorer TopK Wand FuzzyRank Executor Ranking Grouped GroupedWalk GroupedExact.
Local Open Scope Z_scope.

(** The clauses of a field, and the document they are on. *)
Abbreviation clauses_on := (list ClauseCursor * option DocId)%type.

Section conjunctive.
Context {LN : Ln} (stats : SearchStats) (conjs : list (list ClauseCursor)) (k : nat) (restrict : option (gset DocId)).
Context (Hne : Forall (fun cs0 => cs0 <> []) conjs).
Context (Hok : Forall (Forall clause_ok) conjs).
Context (Hval : forall c0 d, c0 ∈ concat conjs -> 0 <= clause_value stats c0 d).

(** The document is on every clause of the field. *)
Definition in_common (cs0 : list ClauseCursor) (d : DocId) : bool := all_have in_clause cs0 d.
Definition common_clauses (d : DocId) : list ClauseCursor := concat (filter (fun cs0 => in_common cs0 d = true) conjs).
Definition common_hit (d : DocId) : HeapHit :=
  let score := Z.min (sumZ ((fun c0 => clause_value stats c0 d) <$> common_clauses d)) (u_max 64) in
  mkHeapHit d score score (length (common_clauses d)).
Definition common_candidate (d : DocId) : bool := Wand.allowed restrict d && existsb (fun cs0 => in_common cs0 d) conjs.
Definition common_docs : list DocId := concat (clause_docs <$> concat conjs).

(** A clause at the frontier, its lists kept. *)
Definition walk (F : DocId) (c0 c : ClauseCursor) : Prop := clause_ok c0 /\ clause_at F c0 c /\ clause_lists c = clause_lists c0.
Definition on_common (F : DocId) (cs0 : list ClauseCursor) (c : clauses_on) : Prop :=
  first_at F (in_common cs0) c.2 /\ forall d, c.2 = Some d -> Forall2 (walk d) cs0 c.1.

Lemma walk_first F c0 c : walk F c0 c -> first_at F (in_clause c0) (clause_doc_id c).
Proof using Type. intros (_ & Hat & _). by apply clause_first. Qed.
Lemma walk_advance F c0 c t : walk F c0 c -> F <= t -> walk t c0 (clause_advance c t).
Proof using Type.
  intros (Ho & Hat & Hl) Ht. destruct (clause_advance_at F c0 c t (conj Ho Hat) Ht) as [_ Hat']. split; [done|]. split; [done|].
  by rewrite clause_advance_keeps.
Qed.
Lemma walk_step F c0 c p : walk F c0 c -> F <= p -> (forall d, clause_doc_id c = Some d -> p <= d) -> walk (p + 1) c0 (clause_step p c).
Proof using Type.
  intros (Ho & Hat & Hl) Hp Hd. split; [done|]. split; [by apply (clause_step_at F)|]. by rewrite clause_step_keeps.
Qed.

Lemma walks_postings F cs0 cs : Forall2 (walk F) cs0 cs -> sum_list (clause_postings <$> cs) = length (concat (clause_docs <$> cs0)).
Proof using Type.
  induction 1 as [|c0 c cs0 cs (_ & _ & Hl) _ IH]; [done|]. rewrite !fmap_cons, sum_list_cons, IH, (clause_postings_docs c0 c Hl).
  cbn [concat]. by rewrite length_app.
Qed.

(** The clauses of a field meet on the first document all of them have. *)
Lemma meet_common F cs0 cs :
  cs0 <> [] -> Forall2 (walk F) cs0 cs ->
  on_common F cs0 (default (cs, None) (meet_loop clause_doc_id clause_advance (S (S (sum_list (clause_postings <$> cs)))) cs)).
Proof using Type.
  intros Hn Hw.
  destruct (meet_loop_at in_clause clause_doc_id clause_advance walk walk_first walk_advance (concat (clause_docs <$> cs0))
    (S (S (sum_list (clause_postings <$> cs)))) F cs0 cs) as (ws & o & -> & Ho & Hr).
  - intros c0 d Hc Hd. apply elem_of_concat. exists (clause_docs c0). split; [|by apply list_elem_of_fmap_2].
    apply clause_docs_in; [|done]. apply list_elem_of_lookup in Hc as [i Hi].
    by destruct (Forall2_lookup_l _ _ _ _ _ Hw Hi) as (c & _ & Hok0 & _).
  - done.
  - done.
  - rewrite (walks_postings F cs0 cs Hw). pose proof (left_from_length (concat (clause_docs <$> cs0)) F). lia.
  - by split.
Qed.
Lemma next_common_start F cs0 cs : cs0 <> [] -> Forall2 (walk F) cs0 cs -> on_common F cs0 (next_common cs None).
Proof using Type. apply meet_common. Qed.
Lemma step_common_on F doc cs0 c :
  cs0 <> [] -> on_common F cs0 c -> F <= doc -> (forall d, c.2 = Some d -> doc <= d) -> on_common (doc + 1) cs0 (step_common doc c).
Proof using Type.
  intros Hn [Ho Hw] HF Hd. destruct c as [cs o]. unfold step_common. cbn [fst snd] in *. destruct (decide (o = Some doc)) as [->|Hno].
  - specialize (Hw doc eq_refl). unfold next_common. apply meet_common; [done|]. apply Forall2_fmap_r. eapply Forall2_impl; [exact Hw|].
    intros c0 c Hc. apply (walk_step doc); [done|lia|]. intros d Hcd. apply walk_first in Hc. rewrite Hcd in Hc. apply Hc.
  - split; [|done]. cbn. apply first_at_later with F; [done|lia|]. intros d Hod. specialize (Hd d Hod). assert (d <> doc) by congruence. lia.
Qed.

Lemma min_common_spec cs :
  match min_common cs with
  | None => forall c, c ∈ cs -> c.2 = None
  | Some m => (exists c, c ∈ cs /\ c.2 = Some m) /\ forall c d, c ∈ cs -> c.2 = Some d -> m <= d
  end.
Proof using Type.
  unfold min_common. pose proof (min_doc_spec (omap snd cs)) as Hm. destruct (min_doc _) as [m|].
  - destruct Hm as [(c & Hc & Hd)%list_elem_of_omap Hmin]. split; [by exists c|]. intros c' d Hc' Hd'. apply Hmin, list_elem_of_omap. by exists c'.
  - intros c Hc. destruct (c.2) as [d|] eqn:E; [|done]. assert (d ∈ omap snd cs) as Hin by (apply list_elem_of_omap; by exists c).
    rewrite Hm in Hin. by apply elem_of_nil in Hin.
Qed.

(** The scores of the clauses of one field. *)
Lemma field_scores d cs0 cs s :
  0 <= s -> (forall c0, c0 ∈ cs0 -> 0 <= clause_value stats c0 d) -> Forall2 (walk d) cs0 cs ->
  fold_left (fun score cl => saturating_add 64 score (clause_score stats cl d)) cs (Z.min s (u_max 64)) =
  Z.min (s + sumZ ((fun c0 => clause_value stats c0 d) <$> cs0)) (u_max 64).
Proof using Type.
  intros Hs Hv Hw. revert s Hs. induction Hw as [|c0 c cs0 cs Hc Hw IH]; intros s Hs; [cbn; by rewrite Z.add_0_r|]. cbn [fold_left].
  pose proof (Hv c0 (list_elem_of_here _ _)) as H0. rewrite (clause_score_on stats d c0 c d).
  - rewrite sat_add_min, IH, fmap_cons, sumZ_cons by (lia || (intros; apply Hv; by right)). f_equal. lia.
  - apply Hc.
  - apply Hc.
  - lia.
  - intros e He. apply walk_first in Hc. rewrite He in Hc. apply Hc.
Qed.

Lemma common_score_spec F doc cs :
  Forall2 (on_common F) conjs cs -> F <= doc -> (forall c d, c ∈ cs -> c.2 = Some d -> doc <= d) ->
  common_score stats doc cs = (hh_score (common_hit doc), hh_matched_terms (common_hit doc)).
Proof using Hval.
  intros Hc HF Hmin. unfold common_score, common_hit, common_clauses. cbn [hh_score hh_matched_terms].
  assert (Hgen : forall s m, 0 <= s ->
    fold_left (fun acc (c : clauses_on) => if decide (c.2 = Some doc)
      then (fold_left (fun score cl => saturating_add 64 score (clause_score stats cl doc)) c.1 acc.1, (acc.2 + length c.1)%nat) else acc)
      cs (Z.min s (u_max 64), m) =
    (Z.min (s + sumZ ((fun c0 => clause_value stats c0 doc) <$> concat (filter (fun cs0 => in_common cs0 doc = true) conjs))) (u_max 64),
     (m + length (concat (filter (fun cs0 => in_common cs0 doc = true) conjs)))%nat)).
  2:{ specialize (Hgen 0 0%nat ltac:(lia)). change (Z.min 0 (u_max 64)) with 0 in Hgen. rewrite Z.add_0_l, Nat.add_0_l in Hgen. exact Hgen. }
  clear Hne Hok. revert Hval. induction Hc as [|cs0 c l0 cs [Ho Hw] Hc IH]; intros Hv s m Hs; [cbn; by rewrite Z.add_0_r, Nat.add_0_r|].
  cbn [fold_left fst snd]. specialize (IH (fun c' d H => Hmin c' d (list_elem_of_further _ _ _ H))).
  assert (Hv' : forall c0 d, c0 ∈ concat l0 -> 0 <= clause_value stats c0 d).
  { intros c0 d H0. apply Hv. cbn [concat]. apply elem_of_app. by right. }
  specialize (IH Hv'). rewrite filter_cons.
  pose proof (first_at_on F (in_common cs0) (c.2) doc Ho HF (fun e => Hmin c e (list_elem_of_here _ _))) as Hon.
  destruct (decide (c.2 = Some doc)) as [Hd|Hd], (decide (in_common cs0 doc = true)) as [Hi|Hi]; [|tauto|tauto|by apply IH].
  cbn [concat]. assert (Hv0 : forall c0, c0 ∈ cs0 -> 0 <= clause_value stats c0 doc).
  { intros c0 H0. apply Hv. cbn [concat]. apply elem_of_app. by left. }
  rewrite (field_scores doc cs0 c.1 s Hs Hv0 (Hw doc Hd)), IH.
  - rewrite fmap_app, sumZ_app, length_app, (Forall2_length _ _ _ (Hw doc Hd)). f_equal; [f_equal|]; lia.
  - assert (0 <= sumZ ((fun c0 => clause_value stats c0 doc) <$> cs0)); [|lia].
    apply sumZ_nonneg, Forall_fmap, Forall_forall. exact Hv0.
Qed.

(** No candidate before the documents the fields are on. *)
Lemma common_between F cs d :
  Forall2 (on_common F) conjs cs -> F <= d -> (forall c e, c ∈ cs -> c.2 = Some e -> d < e) -> common_candidate d = false.
Proof using Type.
  intros Hc HF Hlt. unfold common_candidate. apply andb_false_intro2, not_true_iff_false. intros (cs0 & Hin & Hd)%existsb_exists.
  apply list_elem_of_In, list_elem_of_lookup in Hin as [i Hi]. destruct (Forall2_lookup_l _ _ _ _ _ Hc Hi) as (c & Hci & [Ho _]).
  apply list_elem_of_lookup_2 in Hci. specialize (Hlt c). destruct (c.2) as [e|]; cbn in Ho.
  - specialize (Hlt e Hci eq_refl). destruct Ho as (_ & _ & Ho). by rewrite Ho in Hd by lia.
  - by rewrite Ho in Hd.
Qed.
Lemma in_common_docs cs0 d : cs0 ∈ conjs -> in_common cs0 d = true -> d ∈ common_docs.
Proof using Hne Hok.
  intros Hc Hd. pose proof (proj1 (Forall_forall _ _) Hne cs0 Hc) as Hn. pose proof (proj1 (Forall_forall _ _) Hok cs0 Hc) as Ho.
  destruct cs0 as [|c0 cs0]; [done|]. unfold in_common, all_have in Hd. cbn in Hd. apply andb_true_iff in Hd as [Hd _].
  apply Forall_cons in Ho as [Ho _]. apply elem_of_concat. exists (clause_docs c0). split; [by apply clause_docs_in|].
  apply list_elem_of_fmap_2, elem_of_concat. exists (c0 :: cs0). split; [left|done].
Qed.

Lemma common_loop_correct fuel F cs heap :
  (0 < k)%nat -> Forall2 (on_common F) conjs cs -> heap_for k (offered common_candidate common_hit F) heap ->
  (left_from common_docs F < fuel)%nat ->
  exists heap', common_loop stats fuel k restrict cs heap = Some heap' /\ heap_for k (offered_all common_candidate common_hit) heap'.
Proof using Hne Hok Hval.
  intros Hk. revert F cs heap. induction fuel as [|fuel IH]; intros F cs heap Hc Hh Hf; [lia|]. cbn [common_loop].
  pose proof (min_common_spec cs) as Hmin. destruct (min_common cs) as [doc|].
  2:{ exists heap. split; [done|]. apply (offered_end k _ _ F); [|done]. intros d HF. apply (common_between F cs d); [done|done|].
      intros c e Hin He. specialize (Hmin c Hin). congruence. }
  destruct Hmin as [(c1 & Hc1 & Hd1) Hmin]. apply list_elem_of_lookup in Hc1 as [i Hi].
  destruct (Forall2_lookup_r _ _ _ _ _ Hc Hi) as (cs1 & Hcs1 & [Ho _]). apply list_elem_of_lookup_2 in Hcs1.
  rewrite Hd1 in Ho. destruct Ho as (HF & Hin1 & _). apply (IH (doc + 1)).
  - apply Forall2_fmap_r, Forall2_same_length_lookup. split; [by eapply Forall2_length|]. intros j cs0 c Hj Hj'.
    apply (step_common_on F); [|exact (Forall2_lookup_lr _ _ _ _ _ _ Hc Hj Hj')|done|].
    + apply (proj1 (Forall_forall _ _) Hne). by eapply list_elem_of_lookup_2.
    + intros d. apply Hmin. by eapply list_elem_of_lookup_2.
  - rewrite (common_score_spec F doc cs Hc HF Hmin).
    apply (offered_next k _ common_hit doc heap); [done|done| |].
    + apply (offered_gap k _ _ F); [done| |done]. intros d Hd. apply (common_between F cs d Hc); [lia|]. intros c e Hc' He.
      specialize (Hmin c e Hc' He). lia.
    + unfold common_candidate. rewrite (proj2 (existsb_exists _ conjs)); [by rewrite andb_true_r|].
      exists cs1. split; [by apply list_elem_of_In|done].
  - pose proof (left_from_lt common_docs F (doc + 1) doc ltac:(lia) (in_common_docs cs1 doc Hcs1 Hin1)). lia.
Qed.
End conjunctive.

(** ** The whole search *)

Section conj_search.
Context {LN : Ln} (stats : SearchStats).

(** The clauses of a field before they are aligned, or nothing when one of them cannot match. *)
Definition start_conjunction (field : FieldClauses) : option (list ClauseCursor) :=
  match field with
  | [] => None
  | _ => mapM (fun forms => clause_of (omap (form_start stats) forms)) (field : list (list FormRef))
  end.
Definition start_conjunctions (fields : list FieldClauses) : list (list ClauseCursor) := omap start_conjunction fields.

(** The reference: every document on all clauses of a field, scored and ranked. *)
Definition brute_common (fields : list FieldClauses) (k : nat) (restrict : option (gset DocId)) : list WandHit :=
  let conjs := start_conjunctions fields in
  take k (TopK.ranked (common_hit stats conjs <$> filter (fun d => common_candidate conjs restrict d = true)
    (dedup (sort_unstable (common_docs conjs))))).

Lemma form_value_nonneg f d : 0 <= fm_weight f -> 0 <= form_value stats f d.
Proof using Type.
  intros Hw. unfold form_value. apply weighted_nonneg; [done|]. generalize (zip (fm_lists f) (fm_doc_freqs f)) as l.
  set (step := fun score (e : list Posting * Z) => _). assert (Hfold : forall l acc, 0 <= acc -> 0 <= fold_left step l acc); [|intros l; by apply Hfold].
  induction l as [|e l IH]; intros acc Hacc; [done|]. cbn [fold_left]. apply IH. unfold step. destruct (posting_of d e.1); [|done].
  apply sat_add_nonneg; [done|apply scaled_nonneg].
Qed.

Lemma clause_start_ok forms c d :
  Forall form_ref_ok forms -> clause_of (omap (form_start stats) forms) = Some c -> clause_ok c /\ 0 <= clause_value stats c d.
Proof using Type.
  intros Hok Hc. assert (Hforms : forall f, f ∈ omap (form_start stats) forms -> form_ok f /\ 0 <= fm_weight f).
  { intros f (form & Hin & Hf)%list_elem_of_omap. pose proof (proj1 (Forall_forall _ _) Hok form Hin) as Ho.
    split; [by destruct (form_start_ok stats form f Ho Hf)|]. destruct Ho as [Hw _]. unfold form_start in Hf.
    destruct (_ || _); [done|]. by injection Hf as <-. }
  destruct (clause_of_cons (omap (form_start stats) forms)) as [Hn|(c' & Hc' & Hcf)]; [congruence|]. assert (c' = c) as -> by congruence.
  split; [apply Forall_forall; intros f Hf; rewrite Hcf in Hf; by apply Hforms|]. unfold clause_value.
  apply (best_per_field_le fm_field (fun f => form_value stats f d) (fun f => form_value stats f d) (fun f => in_form f d = true)).
  intros f Hf. rewrite Hcf in Hf. destruct (Hforms f Hf) as [_ Hw]. pose proof (form_value_nonneg f d Hw). lia.
Qed.

Section fields.
Context (fields : list FieldClauses) (Hforms : Forall form_ref_ok (fields_forms fields)).
Abbreviation conjs := (start_conjunctions fields).

Lemma elem_conjunction cs0 c : cs0 ∈ conjs -> c ∈ cs0 -> exists forms, forms ∈ concat fields /\ clause_of (omap (form_start stats) forms) = Some c.
Proof using Type.
  intros (field & Hf & Hcs)%list_elem_of_omap Hc. unfold start_conjunction in Hcs. destruct field as [|x field']; [done|].
  apply mapM_Some in Hcs. apply list_elem_of_lookup in Hc as [i Hi]. destruct (Forall2_lookup_r _ _ _ _ _ Hcs Hi) as (forms & Hx & Hc).
  exists forms. split; [|done]. apply elem_of_concat. exists (x :: field'). split; [by eapply list_elem_of_lookup_2|done].
Qed.
Lemma conjs_nonempty : Forall (fun cs0 => cs0 <> []) conjs.
Proof using Type.
  apply Forall_forall. intros cs0 (field & Hf & Hcs)%list_elem_of_omap. unfold start_conjunction in Hcs. destruct field as [|x field']; [done|].
  apply mapM_Some, Forall2_length in Hcs. by intros ->.
Qed.
Lemma conjs_ok : Forall (Forall clause_ok) conjs.
Proof using Hforms.
  apply Forall_forall. intros cs0 Hcs. apply Forall_forall. intros c Hc. destruct (elem_conjunction cs0 c Hcs Hc) as (forms & Hin & Hcl).
  apply (clause_start_ok forms c 0); [by apply (forms_of_clause fields)|done].
Qed.
Lemma conjs_values c0 d : c0 ∈ concat conjs -> 0 <= clause_value stats c0 d.
Proof using Hforms.
  intros (cs0 & Hc & Hcs)%elem_of_concat. destruct (elem_conjunction cs0 c0 Hcs Hc) as (forms & Hin & Hcl).
  apply (clause_start_ok forms c0 d); [by apply (forms_of_clause fields)|done].
Qed.

(** The field's clauses, aligned. A field that misses a clause has none in either. *)
Lemma field_conjunction_walk F field :
  (forall forms, forms ∈ field -> Forall form_ref_ok forms /\ forall f d, f ∈ omap (form_start stats) forms -> d ∈ form_docs f -> F <= d) ->
  match start_conjunction field, field_conjunction stats field with
  | Some cs0, Some cs => Forall2 (walk F) cs0 cs
  | None, None => True
  | _, _ => False
  end.
Proof using Type.
  intros Hf. unfold start_conjunction, field_conjunction. destruct field as [|x field']; [done|].
  generalize dependent (x :: field'). clear. intros field Hf. induction field as [|forms field IH]; [constructor|]. cbn.
  destruct (Hf forms (list_elem_of_here _ _)) as [H1 H2]. pose proof (clause_new_start stats F forms H1 H2) as Hc.
  destruct (clause_of _) as [c0|] eqn:E0, (ClauseCursor_new stats forms) as [c|]; cbn; try done.
  specialize (IH (fun fs Hfs => Hf fs (list_elem_of_further _ _ _ Hfs))).
  destruct (mapM _ field) as [cs0|], (mapM _ field) as [cs|]; cbn; try done. constructor; [|done].
  destruct Hc as [Hat Hl]. split; [|done]. by apply (clause_start_ok forms c0 0).
Qed.

Lemma conjunctions_walk F :
  (forall d, d ∈ group_docs (start_clauses stats fields) -> F <= d) ->
  Forall2 (fun cs0 cs => cs0 <> [] /\ Forall2 (walk F) cs0 cs) conjs (omap (field_conjunction stats) fields).
Proof using Hforms.
  intros HF. assert (Hf : forall field forms, field ∈ fields -> forms ∈ field -> Forall form_ref_ok forms /\
    forall f d, f ∈ omap (form_start stats) forms -> d ∈ form_docs f -> F <= d).
  { intros field forms Hfield Hin. assert (Hcat : forms ∈ concat fields) by (apply elem_of_concat; by exists field).
    split; [by apply (forms_of_clause fields)|]. intros f d Hf Hd. apply HF.
    destruct (clause_of_cons (omap (form_start stats) forms)) as [Hn|(c & Hc & Hcf)].
    - destruct (omap (form_start stats) forms); [by apply elem_of_nil in Hf|done].
    - apply elem_of_concat. exists (clause_docs c). split.
      + unfold clause_docs. apply elem_of_concat. exists (form_docs f). split; [done|]. apply list_elem_of_fmap_2. by rewrite Hcf.
      + apply list_elem_of_fmap_2, elem_of_concat. eexists. split; [|apply list_elem_of_fmap; by exists field].
        apply list_elem_of_omap. by exists forms. }
  pose proof conjs_nonempty as Hne. unfold start_conjunctions in *. clear HF Hforms. induction fields as [|field l IH]; [constructor|].
  rewrite !omap_cons in *. pose proof (field_conjunction_walk F field (fun forms => Hf field forms (list_elem_of_here _ _))) as Hw.
  specialize (IH (fun fl forms Hfl => Hf fl forms (list_elem_of_further _ _ _ Hfl))).
  destruct (start_conjunction field), (field_conjunction stats field); try done; [|by apply IH].
  apply Forall_cons in Hne as [Hn Hne]. constructor; [done|by apply IH].
Qed.

Lemma candidate_common_docs restrict d : common_candidate conjs restrict d = true -> d ∈ common_docs conjs.
Proof using Hforms.
  unfold common_candidate. intros [_ Hex]%andb_true_iff. apply existsb_exists in Hex as (cs0 & Hc & Hd).
  apply (in_common_docs conjs conjs_nonempty conjs_ok cs0 d); [by apply list_elem_of_In|done].
Qed.

Lemma conjunctive_grouped_spec k restrict :
  conjunctive_top_k_grouped stats fields k restrict = brute_common fields k restrict.
Proof using Hforms.
  unfold conjunctive_top_k_grouped, brute_common. destruct (Nat.eqb_spec k 0) as [->|Hk]; [done|].
  destruct (lower_bound (group_docs (start_clauses stats fields) ++ common_docs conjs)) as [F HF].
  pose proof (conjunctions_walk F (fun d Hd => HF d (proj2 (elem_of_app _ _ _) (or_introl Hd)))) as Hw.
  assert (Hin : forall d, common_candidate conjs restrict d = true -> d ∈ common_docs conjs) by apply candidate_common_docs.
  destruct (common_loop_correct stats conjs k restrict conjs_nonempty conjs_ok conjs_values
    (S (sum_list ((fun cs => sum_list (clause_postings <$> cs)) <$> omap (field_conjunction stats) fields))) F
    ((fun cs => next_common cs None) <$> omap (field_conjunction stats) fields) []) as (heap & -> & Hh).
  - lia.
  - apply Forall2_fmap_r. eapply Forall2_impl; [exact Hw|]. intros cs0 cs [Hn Hcs]. by apply next_common_start.
  - apply offered_start. intros d Hd. apply not_true_iff_false. intros Hc. apply Hin in Hc.
    pose proof (HF d (proj2 (elem_of_app _ _ _) (or_intror Hc))). lia.
  - pose proof (left_from_length (common_docs conjs) F).
    assert (sum_list ((fun cs => sum_list (clause_postings <$> cs)) <$> omap (field_conjunction stats) fields) = length (common_docs conjs)); [|lia].
    clear -Hw. unfold common_docs. induction Hw as [|cs0 cs l0 l [_ Hc] _ IH]; [done|]. rewrite fmap_cons, sum_list_cons, IH, (walks_postings F cs0 cs Hc).
    cbn [concat]. by rewrite fmap_app, concat_app, length_app.
  - cbn [default from_option id]. apply offered_finish; [done|done|apply dedup_nodup|]. intros d Hd. rewrite elem_of_dedup, elem_of_sort_unstable. by apply Hin.
Qed.

(** C20: the conjunctive grouped search is exact: with well-formed lists,
    [conjunctive_top_k_grouped] returns the best [k] of the allowed documents that are on every
    clause of some field (on a clause: on all lists of one of its forms), each with the sum of
    those fields' clause scores, the best form per field; the search always ends. *)
Theorem conjunctive_grouped_exact k restrict :
  conjunctive_top_k_grouped stats fields k restrict = brute_common fields k restrict.
Proof using Hforms. apply conjunctive_grouped_spec. Qed.
End fields.
End conj_search.

Lemma conjunctive_grouped_exact_witness :
  wh_doc_id <$> conjunctive_top_k_grouped (LN := toy_ln) toy_stats toy_groups 5 (Some {[ 3; 4; 9 ]}) = [3; 9; 4].
Proof. rewrite (conjunctive_grouped_exact (LN := toy_ln) toy_stats toy_groups toy_groups_ok). vm_compute. reflexivity. Defined.
