(* ===== verification/Retrieval.v ===== *)
(** * Retrieval and the ranking cascade

    Models the ranking half of [crates/core-query/src/executor.rs]: the fast paths over posting
    lists ([execute_top_k_retrieval], [execute_grouped_retrieval]), [rank_retrieve] in both match
    modes, and the cascade of a plan ([rank_cascade]): the tiers that match the query as typed,
    the sources of the relevance tier, the names a query holds ([name_shares]), coverage
    ([clause_masks]) and density ([apply_density]), up to [rank].

    [shared_hits], which the cascade evaluates once at its first use, is the value itself here. A
    [HashMap] is a [gmap]; where the code walks one, the model takes [map_to_list]. *)
From Stdlib Require Import ZArith Lia SpecFloat.
From stdpp Require Import base numbers list sorting gmap.
From S2P Require Import Prelude Types Posting PostingOps Numeric Scorer TopK Wand Conjunction Fuzzy FuzzyRank Phrase Query Tokenizers Analyzers Planner Snapshot CorpusStats Executor Ranking Grouped.
Local Open Scope Z_scope.

Inductive MatchMode : Type := CrossFields | BestFields.

Definition MIN_COVERAGE : f32 := f32_half.
Definition POOL_SIZE : nat := 200.
Definition ANY_POOL_SIZE : nat := 300.
(** The literal [0.8], rounded to [f32]. *)
Definition OUT_OF_ORDER : f32 := f32_div (f32_of 8) (f32_of 10).

(** ** Lists *)

Record FieldLists : Type := mkFieldLists { fl_xpath : XPathId; fl_terms : list (PostingList * Z) }.
Record FormLists : Type := mkFormLists { fo_xpath : XPathId; fo_lists : list (PostingList * Z); fo_weight : Z }.
Definition term_ref (e : PostingList * Z) : TermRef := mkTermRef e.1 e.2 (max_weight e.1).
(** [FormLists::as_ref] *)
Definition form_ref (field : nat) (form : FormLists) : FormRef :=
  mkFormRef (fo_xpath form) field (term_ref <$> fo_lists form) (fo_weight form).
Definition field_terms (lists : list FieldLists) : list FieldTerms :=
  (fun field => mkFieldTerms (fl_xpath field) (term_ref <$> fl_terms field)) <$> lists.

(** The words of parts that are all words. *)
Definition term_text (q : Query) : option str := match q with QTerm t => Some t | _ => None end.
Definition is_term (q : Query) : bool := match q with QTerm _ => true | _ => false end.
Definition additive_terms (query : Query) : option (list str) :=
  match query with
  | QTerm term => Some [term]
  | QWand parts => if forallb is_term parts then Some (omap term_text parts) else None
  | _ => None
  end.

Definition form_fits (form : Query) : bool :=
  match form with
  | QTerm _ | QPhrase _ | QExact _ => true
  | QAnd words => forallb is_term words
  | _ => false
  end.
Definition part_fits (part : Query) : bool :=
  match part with
  | QTerm _ => true
  | QSynonym forms => forallb (fun form => form_fits (alt_query form)) forms
  | _ => false
  end.
Definition is_group (part : Query) : bool := match part with QSynonym _ => true | _ => false end.
Definition grouped_parts (query : Query) (needs_group : bool) : option (bool * list Query) :=
  match
    match query with
    | QSynonym _ => Some (false, [query])
    | QWand parts | QOr parts => Some (false, parts)
    | QAnd parts => Some (true, parts)
    | _ => None
    end
  with
  | None => None
  | Some (conjunctive, parts) =>
    if forallb part_fits parts && (existsb is_group parts || negb needs_group) then Some (conjunctive, parts) else None
  end.

(** ** Hits *)

Definition per_mille (score : Z) : f32 := f32_div (f32_of score) (f32_of 1000).
Definition wand_hit_to_search_hit (hit : WandHit) : SearchHit :=
  let raw := per_mille (wh_raw hit) in
  mkSearchHit (wh_doc_id hit) (wh_matched_terms hit) (Z.min (wh_raw hit / 1000) (u_max 32)) (S754_zero false) raw 0 0 raw 0 (S754_zero false).
Definition scored_to_search_hit (p : ScoredPosting) : SearchHit :=
  mkSearchHit (sp_doc_id p) (sp_matched_terms p) (Z.min (sp_score p / 1000) (u_max 32)) (sp_density p)
    (f32_mul (per_mille (sp_score p)) (sp_density p)) 0 0 (S754_zero false) 0 (S754_zero false).
(** A document without a score. *)
Definition unscored_hit (d : DocId) : SearchHit :=
  mkSearchHit d 0 0 f32_one f32_zero 0 0 (S754_zero false) 0 (S754_zero false).
Definition bare_hit (d : DocId) : SearchHit :=
  mkSearchHit d 0 0 (S754_zero false) (S754_zero false) 0 0 (S754_zero false) 0 (S754_zero false).

(** [by_doc.entry(..).and_modify(..).or_insert(hit)] *)
Definition add_search_hit (by_doc : gmap Z SearchHit) (hit : SearchHit) : gmap Z SearchHit :=
  <[sh_doc_id hit :=
    match by_doc !! sh_doc_id hit with
    | Some e =>
      mkSearchHit (sh_doc_id e) (sat_usize (sh_matched_terms e) (sh_matched_terms hit)) (sh_weight_sum e)
        (f32_max (sh_distance_factor e) (sh_distance_factor hit)) (f32_add (sh_score e) (sh_score hit)) (sh_tier e) (sh_level e)
        (sh_base e) (sh_mask e) (sh_name_share e)
    | None => hit
    end]> by_doc.

Definition set_place (tier level : Z) (hit : SearchHit) : SearchHit :=
  mkSearchHit (sh_doc_id hit) (sh_matched_terms hit) (sh_weight_sum hit) (sh_distance_factor hit) (sh_score hit) tier level
    (sh_base hit) (sh_mask hit) (sh_name_share hit).
Definition set_share (share : f32) (hit : SearchHit) : SearchHit :=
  mkSearchHit (sh_doc_id hit) (sh_matched_terms hit) (sh_weight_sum hit) (sh_distance_factor hit) (sh_score hit) (sh_tier hit)
    (sh_level hit) (sh_base hit) (sh_mask hit) share.
Definition set_base (base : f32) (hit : SearchHit) : SearchHit :=
  mkSearchHit (sh_doc_id hit) (sh_matched_terms hit) (sh_weight_sum hit) (sh_distance_factor hit) (sh_score hit) (sh_tier hit)
    (sh_level hit) base (sh_mask hit) (sh_name_share hit).
Definition set_distance (distance : f32) (hit : SearchHit) : SearchHit :=
  mkSearchHit (sh_doc_id hit) (sh_matched_terms hit) (sh_weight_sum hit) distance (sh_score hit) (sh_tier hit)
    (sh_level hit) (sh_base hit) (sh_mask hit) (sh_name_share hit).
Definition set_mask (mask : Z) (matched : nat) (hit : SearchHit) : SearchHit :=
  mkSearchHit (sh_doc_id hit) matched (sh_weight_sum hit) (sh_distance_factor hit) (sh_score hit) (sh_tier hit)
    (sh_level hit) (sh_base hit) mask (sh_name_share hit).

(** The closure [keep]: every document once, at its best place, with its highest raw score. *)
Definition keep (found : gmap Z SearchHit) (hit : SearchHit) : gmap Z SearchHit :=
  let hit := set_base (sh_score hit) hit in
  <[sh_doc_id hit :=
    match found !! sh_doc_id hit with
    | Some known =>
      let place := if place_lt hit known then hit else known in
      let base := f32_max (sh_base known) (sh_base hit) in
      mkSearchHit (sh_doc_id known) (Nat.max (sh_matched_terms known) (sh_matched_terms hit)) (sh_weight_sum known)
        (sh_distance_factor known) base (sh_tier place) (sh_level place) base (sh_mask known)
        (f32_max (sh_name_share known) (sh_name_share hit))
    | None => hit
    end]> found.

Section retrieval.
Context {I : Type} {SI : SearchIndex I} {LN : Ln} {LG : Log10} {CT : CaseTables} {PW : Powf} {PW64 : Powf64}.
Context (self : QueryExecutor I).
Local Abbreviation index := (qe_index self).
Local Abbreviation own_stats := (stats self).

Definition fetch_field_lists (terms : list str) (xpaths : list XPathId) : list FieldLists :=
  (fun xpath => mkFieldLists xpath ((fun term => fetch_term_list self term xpath) <$> terms)) <$> xpaths.

Definition execute_top_k_retrieval (query : Query) (xpaths : list XPathId) (k : nat) (restrict : option (gset Z)) : option (list WandHit) :=
  match additive_terms query with
  | Some terms => Some (wand_top_k_multi_field own_stats (field_terms (fetch_field_lists terms xpaths)) k restrict)
  | None =>
    match query with
    | QAnd parts =>
      if forallb is_term parts
      then Some (conjunctive_top_k_multi_field own_stats (field_terms (fetch_field_lists (omap term_text parts) xpaths)) k restrict)
      else None
    | _ => None
    end
  end.

(** ** Forms *)

Definition leaf_form (query : Query) (ctx : FieldCtx) (min_doc_freq : option Z) (weight : Z) : option FormLists :=
  leaf ← read_leaf self query ctx;
  let own := leaf_doc_freq self (lf_xpath leaf) (lf_key leaf) (zlen (items (lf_postings leaf))) in
  let doc_freq := match min_doc_freq with Some floor => Z.max own floor | None => own end in
  Some (mkFormLists (lf_xpath leaf) [(lf_postings leaf, doc_freq)] weight).

Definition phrase_form (phrase : Query) (terms : list PhraseTerm) (ctx : FieldCtx) (weight : Z) : option FormLists :=
  leaf ← read_leaf self phrase ctx;
  let docs := doc_id <$> items (lf_postings leaf) in
  Some (mkFormLists (cx_xpath ctx)
    ((fun term => let '(l, doc_freq) := fetch_term_list self (pt_text term) (cx_xpath ctx) in (Phrase.postings_of l docs, doc_freq)) <$> terms) weight).

(** A typed span of several words, in one form. *)
Definition words_form (words : list Query) (ctx : FieldCtx) (weight : Z) : option FormLists :=
  lists ← mapM (fun word =>
    leaf ← read_leaf self word ctx;
    Some (lf_postings leaf, leaf_doc_freq self (lf_xpath leaf) (lf_key leaf) (zlen (items (lf_postings leaf))))) words;
  Some (mkFormLists (cx_xpath ctx) lists weight).
Definition build_form (form : Alternative Query) (ctx : FieldCtx) (floor : option Z) : option FormLists :=
  match alt_query form with
  | QTerm _ => leaf_form (alt_query form) ctx floor (alt_weight form)
  | QPhrase terms => phrase_form (alt_query form) terms ctx (alt_weight form)
  | QExact _ => leaf_form (alt_query form) ctx None (alt_weight form)
  | QAnd words => words_form words ctx (alt_weight form)
  | _ => None
  end.
(** The document frequency of the typed word, which the other words are scored with at least. *)
Definition typed_floor (form : Alternative Query) (built : option FormLists) : option Z :=
  if is_term (alt_query form) then
    built ≫= fun form => e ← head (fo_lists form); if 0 <? e.2 then Some e.2 else None
  else None.
Definition clause_forms (part : Query) (ctx : FieldCtx) : list FormLists :=
  match part with
  | QSynonym [] => []
  | QSynonym (typed :: forms) =>
    let first := build_form typed ctx None in
    let floor := typed_floor typed first in
    option_list first ++ omap (fun form => build_form form ctx floor) forms
  | _ => option_list (leaf_form part ctx None 1000)
  end.

(** The forms of every part, each with the field it counts for. *)
Definition grouped_fields (parts : list Query) (ctxs : list FieldCtx) (cross_fields : bool) : list FieldClauses :=
  let forms_in (part : Query) (e : nat * FieldCtx) : list FormRef := form_ref e.1 <$> clause_forms part e.2 in
  if cross_fields then [(fun part => imap pair ctxs ≫= forms_in part) <$> parts]
  else (fun e => (fun part => forms_in part e) <$> parts) <$> imap pair ctxs.
Definition execute_grouped_retrieval (query : Query) (ctxs : list FieldCtx) (k : nat) (restrict : option (gset Z))
    (cross_fields : bool) (coverage : option f32) : option (list WandHit) :=
  match grouped_parts query (negb cross_fields) with
  | None => None
  | Some (conjunctive, parts) =>
    let fields := grouped_fields parts ctxs cross_fields in
    Some (if conjunctive : bool then conjunctive_top_k_grouped own_stats fields k restrict
          else wand_top_k_grouped own_stats fields k coverage restrict)
  end.

(** ** Ranking one query *)

(** The scored documents that are allowed, added up. *)
Definition add_scored (restrict : option (gset Z)) (by_doc : gmap Z SearchHit) (scored : list ScoredPosting) : gmap Z SearchHit :=
  fold_left (fun by_doc p => if Executor.allowed restrict (sp_doc_id p) then add_search_hit by_doc (scored_to_search_hit p) else by_doc)
    scored by_doc.
Definition add_wand_hits (by_doc : gmap Z SearchHit) (hits : list WandHit) : gmap Z SearchHit :=
  fold_left (fun by_doc h => add_search_hit by_doc (wand_hit_to_search_hit h)) hits by_doc.

Definition rank_single_field (query : Query) (ctx : FieldCtx) (k : nat) (restrict : option (gset Z)) (by_doc : gmap Z SearchHit)
    : gmap Z SearchHit :=
  let slow := match evaluate self query [ctx] Rank with Scored scored => add_scored restrict by_doc scored | Docs _ => by_doc end in
  if cx_row_keyed ctx then slow
  else match execute_top_k_retrieval query [cx_xpath ctx] k restrict with Some hits => add_wand_hits by_doc hits | None => slow end.

Definition cross_field_hits (query : Query) (ctxs : list FieldCtx) (restrict : option (gset Z)) : list SearchHit :=
  match evaluate self query ctxs Rank with Scored scored => into_values (add_scored restrict ∅ scored) | Docs _ => [] end.

Definition all_plain (ctxs : list FieldCtx) : bool := forallb (fun ctx => negb (cx_row_keyed ctx)) ctxs.
Definition rank_best_fields (query : Query) (ctxs : list FieldCtx) (k : nat) (restrict : option (gset Z)) : list SearchHit :=
  let plain := plain_ctxs ctxs in
  let flat_hits :=
    match plain with
    | [] => None
    | _ =>
      match execute_top_k_retrieval query (cx_xpath <$> plain) k restrict with
      | Some hits => Some hits
      | None => execute_grouped_retrieval query plain k restrict false None
      end
    end in
  let by_doc := match flat_hits with Some hits => add_wand_hits ∅ hits | None => ∅ end in
  let by_doc := fold_left (fun by_doc ctx =>
    if bool_decide (is_Some flat_hits) && negb (cx_row_keyed ctx) then by_doc else rank_single_field query ctx k restrict by_doc) ctxs by_doc in
  top_k_from_hits (into_values by_doc) k.
Definition rank_cross_fields (query : Query) (ctxs : list FieldCtx) (k : nat) (restrict : option (gset Z)) : list SearchHit :=
  match query with
  | QWand _ | QTerm _ => rank_best_fields query ctxs k restrict
  | _ =>
    match (if all_plain ctxs then execute_grouped_retrieval query ctxs k restrict true None else None) with
    | Some hits => wand_hit_to_search_hit <$> hits
    | None => top_k_from_hits (cross_field_hits query ctxs restrict) k
    end
  end.

Definition rank_retrieve (query : option Query) (ctxs : list FieldCtx) (k : nat) (restrict : option (gset Z)) (match_mode : MatchMode)
    : list SearchHit :=
  if (k =? 0)%nat || match restrict with Some docs => bool_decide (docs = ∅) | None => false end
     || bool_decide (ix_doc_range index = None) then []
  else
    match query with
    | None =>
      match restrict with Some allowed => top_k_from_hits (unscored_hit <$> elements allowed) k | None => [] end
    | Some QMatchAll =>
      match restrict with
      | Some allowed => top_k_from_hits (unscored_hit <$> elements allowed) k
      | None =>
        match ix_doc_range index with
        | Some (lo, hi) =>
          top_k_from_hits (unscored_hit <$> filter (fun d => ix_is_deleted index d = false) (seqZ lo (hi - lo + 1))) k
        | None => []
        end
      end
    | Some query =>
      match match_mode with
      | BestFields => rank_best_fields query ctxs k restrict
      | CrossFields => rank_cross_fields query ctxs k restrict
      end
    end.

(** ** Names *)

Definition name_docs (keys : list str) (ctxs : list FieldCtx) (qualified : bool) : gset Z :=
  let marker := if qualified then QUALIFIED_NAME_KEY else NAME_KEY in
  fold_left (fun docs ctx =>
    match cx_exact_xpath ctx with
    | Some xpath => fold_left (fun docs key => docs ∪ posting_ids (ix_lookup index (marker :: key) xpath)) keys docs
    | None => docs
    end) (plain_ctxs ctxs) ∅.

(** The weight of a word: its lowest idf over the plain fields. *)
Definition word_weight (ctxs : list FieldCtx) (word : str) : f32 :=
  reduce_min (omap (fun ctx =>
    let doc_freq := (fetch_term_list self word (cx_xpath ctx)).2 in
    let docs := ss_doc_count own_stats (cx_xpath ctx) in
    if (0 <? doc_freq) && (0 <? docs) then Some (bm25_idf doc_freq docs) else None) (plain_ctxs ctxs)).
Definition f32_is_zero (x : f32) : bool := match x with S754_zero _ => true | _ => false end.
(** The words with their weights; one no document has weighs as much as the rarest. *)
Definition query_weights (ctxs : list FieldCtx) (words : list str) : gmap str f32 :=
  let weights : gmap str f32 := list_to_map ((fun word => (word, word_weight ctxs word)) <$> words) in
  let rarest := fold_left f32_max (map_to_list weights).*2 f32_zero in
  (fun weight => if f32_is_zero weight then rarest else weight) <$> weights.
Definition raise_share (share : f32) (shares : gmap Z f32) (doc : DocId) : gmap Z f32 :=
  <[doc := f32_max (default f32_zero (shares !! doc)) share]> shares.
(** The documents whose name is a run of the words, with the share of the query the run holds. *)
Definition run_shares (named_runs : list str) (ctxs : list FieldCtx) (restrict : option (gset Z)) (weights : gmap str f32) (total : f32)
    : gmap Z f32 :=
  fold_left (fun shares key =>
    let held := f32_sum (omap (fun word => weights !! word) (split_on (fun c => c =? 32) key)) in
    let share := f32_min (f32_div held total) f32_one in
    fold_left (fun shares qualified =>
      fold_left (raise_share share)
        (filter (fun doc => Executor.allowed restrict doc = true) (elements (name_docs [key] ctxs qualified))) shares)
      [false; true] shares) named_runs ∅.
(** The candidates that have every word in a field with names. *)
Definition full_shares (words : list str) (ctxs : list FieldCtx) (candidates : list DocId) (shares : gmap Z f32) : gmap Z f32 :=
  fold_left (fun shares ctx =>
    let lists := (fun word => (fetch_term_list self word (cx_xpath ctx)).1) <$> words in
    fold_left (fun shares doc =>
      if forallb (fun l => bool_decide (is_Some (posting_at l doc))) lists then <[doc := f32_one]> shares else shares) candidates shares)
    (filter (fun ctx => is_Some (cx_exact_xpath ctx)) (plain_ctxs ctxs)) shares.
Definition name_shares (plan : RankPlan) (ctxs : list FieldCtx) (restrict : option (gset Z)) (candidates : list DocId) : gmap Z f32 :=
  match rp_words plan with
  | [] => ∅
  | words =>
    let weights := query_weights ctxs words in
    let total := f32_sum ((fun word => default f32_zero (weights !! word)) <$> words) in
    let shares := if f32_lt f32_zero total then run_shares (rp_named_runs plan) ctxs restrict weights total else ∅ in
    if (2 <=? length words)%nat then full_shares words ctxs candidates shares else shares
  end.

(** ** Coverage *)

Definition form_present (form : FormLists) : bool :=
  negb (bool_decide (fo_lists form = [])) && forallb (fun e => negb (length (items e.1) =? 0)%nat) (fo_lists form).
Definition present_forms (clause : Query) (ctxs : list FieldCtx) : list FormLists :=
  filter (fun form => form_present form = true) (plain_ctxs ctxs ≫= clause_forms clause).
Definition clause_weight (forms : list FormLists) : f32 :=
  let largest := foldr Z.max 0 ((fun form => ss_doc_count own_stats (fo_xpath form)) <$> forms) in
  reduce_min ((fun form => f32_sum ((fun e => bm25_idf e.2 largest) <$> fo_lists form)) <$>
    filter (fun form => ss_doc_count own_stats (fo_xpath form) = largest) forms).
Definition form_on (doc : DocId) (form : FormLists) : bool :=
  forallb (fun e => bool_decide (is_Some (posting_at e.1 doc))) (fo_lists form).
Definition doc_mask (clauses : list (list FormLists)) (doc : DocId) : Z :=
  fold_left (fun mask e => if existsb (form_on doc) e.2 then Z.lor mask (Z.shiftl 1 (Z.of_nat e.1)) else mask) (imap pair clauses) 0.
(** [u64::count_ones] *)
Definition count_ones (mask : Z) : nat := length (filter (fun i => Z.testbit mask (Z.of_nat i) = true) (seq 0 64)).
Definition clause_masks (clauses : list Query) (ctxs : list FieldCtx) (hits : list SearchHit) : list f32 * list SearchHit :=
  if bool_decide (clauses = []) || (MAX_CLAUSES <? length clauses)%nat
  then ([], (fun hit => set_mask 0 (sh_matched_terms hit) hit) <$> hits)
  else
    let forms := (fun clause => present_forms clause ctxs) <$> clauses in
    (clause_weight <$> forms,
     (fun hit => let mask := doc_mask forms (sh_doc_id hit) in set_mask mask (count_ones mask) hit) <$> hits).

(** ** Density *)

(** How close together the typed words are in one field of a document. *)
Definition field_density (terms : list PhraseTerm) (lists : list PostingList) (doc : DocId) : option f32 :=
  let present := omap (fun e => (fun posting => (pt_offset e.1, positions posting)) <$> posting_at e.2 doc) (zip terms lists) in
  if (length present <? 2)%nat then None
  else
    span ← min_cover_span present.*2;
    let first := default 0 (min_doc present.*1) in
    let last_ := foldr Z.max 0 present.*1 in
    let ideal := saturating_add 32 (last_ - first) 1 in
    let closeness := f32_min (f32_div (f32_of ideal) (f32_of (Z.max span 1))) f32_one in
    let closeness := if phrase_matches present.*2 present.*1 then closeness else f32_mul closeness OUT_OF_ORDER in
    Some (f32_div (f32_mul closeness (f32_of (zlen present))) (f32_of (zlen terms))).
Definition best_density (densities : list f32) : f32 := match densities with [] => f32_zero | d :: ds => fold_left f32_max ds d end.
Definition apply_density (hits : list SearchHit) (terms : list PhraseTerm) (xpaths : list XPathId) : list SearchHit :=
  if (length terms <? 2)%nat then set_distance f32_zero <$> hits
  else
    let fields := (fun xpath => (fun term => (fetch_term_list self (pt_text term) xpath).1) <$> terms) <$> xpaths in
    (fun hit => set_distance (best_density (omap (fun lists => field_density terms lists (sh_doc_id hit)) fields)) hit) <$> hits.

(** ** The cascade *)

Section cascade.
Context (plan : RankPlan) (ctxs : list FieldCtx) (k : nat) (restrict : option (gset Z)) (match_mode : MatchMode).

Definition is_flat (query : Query) : bool := bool_decide (is_Some (grouped_parts query false)).
Definition shared_tier (tier : Tier) : option Query :=
  match tier with
  | TAll query =>
    match query with
    | QWand _ | QTerm _ => None
    | _ => if all_plain ctxs && is_flat query then None else Some query
    end
  | _ => None
  end.
Definition shared_query : option Query :=
  match match_mode with CrossFields => head (omap shared_tier (rp_tiers plan)) | BestFields => None end.
Definition pool_tier (tier : Tier) : option (list Query) :=
  match tier with
  | TAll (QAnd parts) => if (2 <=? length parts)%nat && is_flat (QWand parts) then Some parts else None
  | _ => None
  end.
Definition pool_parts : option (list Query) :=
  match match_mode with CrossFields => if all_plain ctxs then head (omap pool_tier (rp_tiers plan)) else None | BestFields => None end.

(** The closure [ranked]. *)
Definition ranked (query : Query) (fetch : nat) (allowed : option (gset Z)) : list SearchHit :=
  if bool_decide (shared_query = Some query) then
    let all := cross_field_hits query ctxs restrict in
    top_k_from_hits (match allowed with Some docs => filter (fun hit => sh_doc_id hit ∈ docs) all | None => all end) fetch
  else rank_retrieve (Some query) ctxs fetch (match allowed with Some docs => Some docs | None => restrict end) match_mode.

(** One level of the name tier. *)
Definition fill_level (level_hits : list SearchHit) (docs : gset Z) (wanted : nat) : list SearchHit :=
  if (length level_hits <? wanted)%nat then
    let rest := sort_unstable (filter (fun doc => doc ∉ sh_doc_id <$> level_hits) (elements docs)) in
    level_hits ++ (bare_hit <$> take (wanted - length level_hits) rest)
  else level_hits.
Definition name_level (keys : list str) (score_with : Query) (fetch : nat) (st : gset Z * gmap Z SearchHit) (level : Z * bool)
    : gset Z * gmap Z SearchHit :=
  let '(named, found) := st in
  let docs := filter (fun doc => (doc ∉ named) /\ Executor.allowed restrict doc = true) (name_docs keys ctxs level.2) in
  if bool_decide (docs = ∅) then st
  else
    let wanted := Nat.min (size docs) fetch in
    let level_hits := fill_level (ranked score_with wanted (Some docs)) docs wanted in
    (named ∪ docs, fold_left (fun found hit => keep found (set_share f32_one (set_place (tr_name (rp_ranks plan)) level.1 hit))) level_hits found).

(** The tiers that match the query as typed, until the page is full. *)
Fixpoint hard_tiers (tiers : list Tier) (named_count : nat) (found : gmap Z SearchHit) : nat * gmap Z SearchHit :=
  match tiers with
  | [] => (named_count, found)
  | tier :: tiers =>
    let fetch := (k - named_count)%nat in
    if (fetch =? 0)%nat then (named_count, found)
    else
      match tier with
      | TName keys score_with =>
        let found := (fold_left (name_level keys score_with fetch) [(0, false); (1, true)] (∅, found)).2 in
        hard_tiers tiers (size found) found
      | TExact query =>
        let found := fold_left (fun found hit => keep found (set_share f32_one (set_place (tr_exact (rp_ranks plan)) 0 hit)))
          (ranked query fetch None) found in
        hard_tiers tiers (size found) found
      | _ => hard_tiers tiers named_count found
      end
  end.

Definition below_hard : bool :=
  forallb (fun tier => match tier with
    | TName _ _ => tr_name (rp_ranks plan) <? tr_relevance (rp_ranks plan)
    | TExact _ => tr_exact (rp_ranks plan) <? tr_relevance (rp_ranks plan)
    | _ => true
    end) (rp_tiers plan).
Definition filled (named_count : nat) : bool :=
  (k <=? named_count)%nat || ((0 <? rp_stop_after plan)%nat && (rp_stop_after plan <=? named_count)%nat).
Definition is_source (tier : Tier) : bool := match tier with TName _ _ | TExact _ => false | _ => true end.

(** The words' ANDs, each with one word left out. *)
Definition all_but_one (parts : list Query) : Query :=
  QOr ((fun left_out => QAnd (snd <$> filter (fun e => e.1 <> left_out) (imap pair parts))) <$> seq 0 (length parts)).
Definition grouped_hits (parts : list Query) (fetch : nat) (limit : option (gset Z)) (coverage : option f32) : list SearchHit :=
  match execute_grouped_retrieval (QWand parts) ctxs fetch limit true coverage with
  | Some hits => wand_hit_to_search_hit <$> hits
  | None => []
  end.
Definition partial_allowed : bool := existsb (fun tier => match tier with TAllButOne _ | TAny _ => true | _ => false end) (rp_tiers plan).

(** The hits of one source; nothing for a tier that is skipped. *)
Definition source_hits (fetch : nat) (tier : Tier) : list SearchHit :=
  match tier with
  | TName _ _ | TExact _ => []
  | TAll query =>
    match pool_parts with
    | Some parts => grouped_hits parts (Nat.max fetch POOL_SIZE) restrict (Some (if partial_allowed then MIN_COVERAGE else f32_one))
    | None => ranked query fetch None
    end
  | TAllButOne query =>
    match pool_parts with
    | Some _ => []
    | None => match query with QWand parts => ranked (all_but_one parts) fetch None | _ => ranked query fetch None end
    end
  | TPhrase terms score_with =>
    let matched := phrase_docs self terms ctxs in
    let allowed := match restrict with Some limit => matched ∩ limit | None => matched end in
    if bool_decide (allowed = ∅) then [] else ranked score_with fetch (Some allowed)
  | TFuzzy query =>
    if match query with QFuzzy raw _ _ => all_words_known self raw (cx_xpath <$> plain_ctxs ctxs) | _ => false end
    then [] else ranked query fetch None
  | TAny query => ranked query (Nat.max fetch ANY_POOL_SIZE) None
  end.
Definition keep_relevant (relevance : gmap Z SearchHit) (hits : list SearchHit) : gmap Z SearchHit :=
  fold_left (fun relevance hit => keep relevance (set_place (tr_relevance (rp_ranks plan)) 0 hit)) hits relevance.

(** The named documents no source found, scored where the query's words score them. *)
Definition missing_hits (missing : gset Z) : list SearchHit :=
  let scored :=
    match pool_parts with
    | Some parts => grouped_hits parts (size missing) (Some missing) None
    | None =>
      match rp_clauses plan with
      | [] => []
      | [clause] => ranked clause (size missing) (Some missing)
      | clauses => ranked (QWand clauses) (size missing) (Some missing)
      end
    end in
  scored ++ (bare_hit <$> filter (fun doc => doc ∉ sh_doc_id <$> scored) (elements missing)).
Definition relevance_hits (found : gmap Z SearchHit) : gmap Z SearchHit :=
  let fetch := sat_usize k (size found) in
  let relevance := fold_left (fun relevance tier => keep_relevant relevance (source_hits fetch tier)) (rp_tiers plan) ∅ in
  let shares := name_shares plan ctxs restrict (elements (dom relevance)) in
  let missing := dom shares ∖ dom relevance in
  let relevance := if bool_decide (missing = ∅) then relevance else keep_relevant relevance (missing_hits missing) in
  fold_left (fun found e => keep found (set_share (default f32_zero (shares !! e.1)) e.2)) (map_to_list relevance) found.

Definition rank_cascade : RankedGroup :=
  let '(named_count, found) := hard_tiers (rp_tiers plan) 0 ∅ in
  let found :=
    if existsb is_source (rp_tiers plan) && negb (filled named_count && below_hard) then relevance_hits found else found in
  let '(weights, hits) := clause_masks (rp_clauses plan) ctxs (into_values found) in
  mkGroup (apply_density hits (rp_terms plan) (cx_xpath <$> plain_ctxs ctxs)) weights.

Definition rank_features (query : option Query) : RankedGroup :=
  match rp_tiers plan with
  | [] =>
    mkGroup ((fun hit => set_mask 0 (sh_matched_terms hit) (set_share f32_zero (set_distance f32_zero (set_base (sh_score hit) hit)))) <$>
      rank_retrieve query ctxs k restrict match_mode) []
  | _ => rank_cascade
  end.
Definition rank (query : option Query) : list SearchHit := finalize [rank_features query] k.
End cascade.
End retrieval.
