(* ===== verification/RetrievalCorrect.v ===== *)
(** * What a search returns

    The properties of [Retrieval.v]: whatever path a search takes, it returns documents the filters
    allow, each once and at most [k] of them, in the order of the ranking and in the tiers of the
    plan. *)
From Stdlib Require Import ZArith Lia SpecFloat.
From stdpp Require Import base numbers list sorting gmap.
From S2P Require Import Prelude Types Posting PostingOps Numeric Scorer TopK Wand Conjunction Fuzzy FuzzyRank Phrase Query Tokenizers Analyzers Planner Snapshot CorpusStats Executor Ranking Grouped Retrieval.
Local Open Scope Z_scope.

(** ** The searches over lists *)

Section listed.
Context (P : DocId -> Prop).

Lemma push_top_k_docs heap doc score raw matched k :
  P doc -> Forall (fun h => P (hh_doc_id h)) heap -> Forall (fun h => P (hh_doc_id h)) (push_top_k heap doc score raw matched k).
Proof.
  intros Hd Hh. unfold push_top_k. destruct (_ <? _)%nat; [by constructor|]. destruct (heap_peek heap_first heap) as [w|] eqn:Ew; [|by constructor].
  destruct (_ || _); [|done]. destruct (heap_peek_worst heap w Ew) as (_ & _ & rest & -> & Hp). rewrite Hp in Hh. apply Forall_cons in Hh as [_ Hh]. by constructor.
Qed.
Lemma finish_heap_docs heap : Forall (fun h => P (hh_doc_id h)) heap -> Forall (fun h => P (wh_doc_id h)) (finish_heap heap).
Proof.
  intros Hh. unfold finish_heap. rewrite stable_sort_perm. rewrite Forall_fmap. exact Hh.
Qed.
Lemma offer_docs k heap doc found :
  P doc -> Forall (fun h => P (hh_doc_id h)) heap -> Forall (fun h => P (hh_doc_id h)) (offer k heap doc found).
Proof. intros Hd Hh. destruct found as [[[score raw] matched]|]; [by apply push_top_k_docs|done]. Qed.

Lemma top_k_docs hits k : Forall (fun h => P (sh_doc_id h)) hits -> Forall (fun h => P (sh_doc_id h)) (top_k_from_hits hits k).
Proof.
  intros Hh. unfold top_k_from_hits. rewrite stable_sort_perm.
  assert (H : forall heap, Forall (fun h => P (sh_doc_id h)) heap -> Forall (fun h => P (sh_doc_id h)) (fold_left (push_hit k) hits heap)); [|by apply H].
  induction Hh as [|hit hits Hhit Hh IH]; intros heap Hheap; [done|]. cbn [fold_left]. apply IH. unfold push_hit.
  destruct (_ <? _)%nat; [|by constructor]. destruct (heap_pop top_hit_first (hit :: heap)) as [[w rest]|] eqn:E; [|by constructor].
  apply (heap_pop_spec _ top_hit_first_total top_hit_first_trans) in E as [Hp _].
  assert (Hall : Forall (fun h => P (sh_doc_id h)) (hit :: heap)) by (by constructor). rewrite Hp in Hall. by apply Forall_cons in Hall as [_ ?].
Qed.
End listed.

Section searches.
Context {LN : Ln} {PW64 : Powf64} (stats : SearchStats) (restrict : option (gset Z)).
Local Abbreviation P := (fun d => Wand.allowed restrict d = true).

Lemma default_docs (heap : option (list HeapHit)) :
  (forall h, heap = Some h -> Forall (fun x => P (hh_doc_id x)) h) -> Forall (fun x => P (wh_doc_id x)) (finish_heap (default [] heap)).
Proof. intros H. apply (finish_heap_docs P). destruct heap as [h|]; [by apply H|constructor]. Qed.

Lemma wand_docs fields k : Forall (fun x => P (wh_doc_id x)) (wand_top_k_multi_field stats fields k restrict).
Proof.
  unfold wand_top_k_multi_field. destruct (_ || _); [constructor|]. apply default_docs. intros h.
  assert (H : forall fuel terms heap, Forall (fun x => P (hh_doc_id x)) heap ->
    wand_loop stats fuel (field_stats stats fields) k restrict terms heap = Some h -> Forall (fun x => P (hh_doc_id x)) h); [|apply H; constructor].
  induction fuel as [|fuel IH]; intros terms heap Hh; cbn [wand_loop]; [done|]. cbv zeta. destruct (_ =? _)%nat; [by intros [= <-]|].
  destruct (find_pivot _ _ _ _) as [i|]; [|by intros [= <-]]. destruct (_ =? _); [|by apply IH]. apply IH.
  destruct (Wand.allowed restrict _) eqn:Ha; [|done]. destruct (score_terms _ _ _ _ _ _ _). by apply (push_top_k_docs P).
Qed.
Lemma conjunctive_docs fields k : Forall (fun x => P (wh_doc_id x)) (conjunctive_top_k_multi_field stats fields k restrict).
Proof.
  unfold conjunctive_top_k_multi_field. destruct (_ =? _)%nat; [constructor|]. apply default_docs. intros h.
  assert (H : forall fuel cs heap, Forall (fun x => P (hh_doc_id x)) heap ->
    conj_loop stats fuel k restrict cs heap = Some h -> Forall (fun x => P (hh_doc_id x)) h); [|apply H; constructor].
  induction fuel as [|fuel IH]; intros cs heap Hh; cbn [conj_loop]; [done|]. destruct (min_current cs) as [doc|]; [|by intros [= <-]].
  apply IH. destruct (Wand.allowed restrict doc) eqn:Ha; [|done]. destruct (conj_score _ _ _). by apply (push_top_k_docs P).
Qed.
Lemma common_docs_allowed fields k : Forall (fun x => P (wh_doc_id x)) (conjunctive_top_k_grouped stats fields k restrict).
Proof.
  unfold conjunctive_top_k_grouped. destruct (_ =? _)%nat; [constructor|]. apply default_docs. intros h.
  assert (H : forall fuel cs heap, Forall (fun x => P (hh_doc_id x)) heap ->
    common_loop stats fuel k restrict cs heap = Some h -> Forall (fun x => P (hh_doc_id x)) h); [|apply H; constructor].
  induction fuel as [|fuel IH]; intros cs heap Hh; cbn [common_loop]; [done|]. destruct (min_common cs) as [doc|]; [|by intros [= <-]].
  apply IH. destruct (Wand.allowed restrict doc) eqn:Ha; [|done]. destruct (common_score _ _ _). by apply (push_top_k_docs P).
Qed.
Lemma group_docs_allowed fields k coverage : Forall (fun x => P (wh_doc_id x)) (wand_top_k_grouped stats fields k coverage restrict).
Proof.
  unfold wand_top_k_grouped. destruct (_ =? _)%nat; [constructor|]. cbv zeta.
  set (walk := finish_heap (default [] _)). assert (Hwalk : Forall (fun x => P (wh_doc_id x)) walk).
  { apply default_docs. intros h.
    assert (H : forall fuel total need cs heap, Forall (fun x => P (hh_doc_id x)) heap ->
      group_loop stats fuel k coverage total need restrict cs heap = Some h -> Forall (fun x => P (hh_doc_id x)) h); [|apply H; constructor].
    induction fuel as [|fuel IH]; intros total need cs heap Hh; cbn [group_loop]; [done|]. cbv zeta. destruct (_ =? _)%nat; [by intros [= <-]|].
    destruct (find_group_pivot _ _ _ _ _ _) as [i|]; [|by intros [= <-]]. destruct (_ =? _); [|by apply IH]. apply IH.
    destruct (Wand.allowed restrict _) eqn:Ha; [|done]. by apply (offer_docs P). }
  destruct restrict as [docs|] eqn:Er; [|done]. destruct (_ <=? _)%nat; [|done]. apply (finish_heap_docs (fun d => Wand.allowed (Some docs) d = true)).
  assert (H : forall ds st, Forall (fun d => d ∈ docs) ds -> Forall (fun x => Wand.allowed (Some docs) (hh_doc_id x) = true) st.2 ->
    Forall (fun x => Wand.allowed (Some docs) (hh_doc_id x) = true)
      (fold_left (direct_step stats k coverage (total_weight (group_clauses stats fields)) (needed coverage (total_weight (group_clauses stats fields)))) ds st).2).
  { induction ds as [|d ds IH]; intros st Hds Hst; [done|]. apply Forall_cons in Hds as [Hd Hds]. cbn [fold_left]. apply IH; [done|].
    unfold direct_step. cbn [snd]. apply (offer_docs (fun d => Wand.allowed (Some docs) d = true)); [|done]. cbn. by apply bool_decide_eq_true. }
  apply H; [|constructor]. apply Forall_forall. intros d Hd. by rewrite elem_of_sort_unstable, elem_of_elements in Hd.
Qed.
End searches.

(** ** The paths of a search *)

Section paths.
Context {I : Type} {SI : SearchIndex I} {LN : Ln} {LG : Log10} {CT : CaseTables} {PW : Powf} {PW64 : Powf64}.
Context (self : QueryExecutor I).

Lemma top_k_retrieval_docs query xpaths k restrict hits :
  execute_top_k_retrieval self query xpaths k restrict = Some hits -> Forall (fun h => Wand.allowed restrict (wh_doc_id h) = true) hits.
Proof.
  unfold execute_top_k_retrieval. destruct (additive_terms query); [intros [= <-]; apply wand_docs|].
  destruct query; try done. destruct (forallb is_term parts); [|done]. intros [= <-]. apply conjunctive_docs.
Qed.
Lemma grouped_retrieval_docs query ctxs k restrict cross coverage hits :
  execute_grouped_retrieval self query ctxs k restrict cross coverage = Some hits -> Forall (fun h => Wand.allowed restrict (wh_doc_id h) = true) hits.
Proof.
  unfold execute_grouped_retrieval. destruct (grouped_parts _ _) as [[conjunctive parts]|]; [|done]. intros [= <-].
  destruct conjunctive; [apply common_docs_allowed|apply group_docs_allowed].
Qed.

(** A map of hits: each under its own document. *)
Definition hits_by_doc (P : DocId -> Prop) (m : gmap Z SearchHit) : Prop := map_Forall (fun d h => sh_doc_id h = d /\ P d) m.
Lemma hits_by_doc_values P m : hits_by_doc P m -> Forall (fun h => P (sh_doc_id h)) (into_values m) /\ NoDup (sh_doc_id <$> into_values m).
Proof.
  intros Hm. unfold into_values. assert (E : sh_doc_id <$> (map_to_list m).*2 = (map_to_list m).*1).
  { rewrite <-list_fmap_compose. apply list_fmap_ext. intros i [d h] Hd. apply list_elem_of_lookup_2, elem_of_map_to_list in Hd.
    by destruct (Hm _ _ Hd). }
  split; [|rewrite E; apply NoDup_fst_map_to_list]. apply Forall_forall. intros h Hh. apply list_elem_of_fmap in Hh as ([d h'] & -> & Hd).
  apply elem_of_map_to_list in Hd. destruct (Hm _ _ Hd) as [<- ?]. done.
Qed.
Lemma add_search_hit_docs P m hit : P (sh_doc_id hit) -> hits_by_doc P m -> hits_by_doc P (add_search_hit m hit).
Proof.
  intros Hp Hm. apply map_Forall_insert_2; [|done]. destruct (m !! sh_doc_id hit) as [e|] eqn:E; [|done]. by destruct (Hm _ _ E).
Qed.
Lemma add_wand_docs P m hits : Forall (fun h => P (wh_doc_id h)) hits -> hits_by_doc P m -> hits_by_doc P (add_wand_hits m hits).
Proof.
  intros Hh. revert m. induction Hh as [|h hits Hd Hh IH]; intros m Hm; [done|]. apply IH. by apply add_search_hit_docs.
Qed.
Lemma add_scored_docs restrict m scored :
  hits_by_doc (fun d => Wand.allowed restrict d = true) m -> hits_by_doc (fun d => Wand.allowed restrict d = true) (add_scored restrict m scored).
Proof.
  revert m. induction scored as [|p scored IH]; intros m Hm; [done|]. apply IH. destruct (Executor.allowed restrict (sp_doc_id p)) eqn:E; [|done].
  by apply add_search_hit_docs.
Qed.

Lemma single_field_docs query ctx k restrict m :
  hits_by_doc (fun d => Wand.allowed restrict d = true) m ->
  hits_by_doc (fun d => Wand.allowed restrict d = true) (rank_single_field self query ctx k restrict m).
Proof.
  intros Hm. unfold rank_single_field.
  assert (Hslow : hits_by_doc (fun d => Wand.allowed restrict d = true)
    match evaluate self query [ctx] Rank with Scored scored => add_scored restrict m scored | Docs _ => m end).
  { destruct (evaluate self query [ctx] Rank); [done|by apply add_scored_docs]. }
  destruct (cx_row_keyed ctx); [done|]. destruct (execute_top_k_retrieval _ _ _ _ _) as [hits|] eqn:E; [|done].
  apply add_wand_docs; [by eapply top_k_retrieval_docs|done].
Qed.
Lemma cross_field_docs query ctxs restrict :
  Forall (fun h => Wand.allowed restrict (sh_doc_id h) = true) (cross_field_hits self query ctxs restrict) /\
  NoDup (sh_doc_id <$> cross_field_hits self query ctxs restrict).
Proof.
  unfold cross_field_hits. destruct (evaluate _ _ _ _); [split; constructor|].
  apply (hits_by_doc_values (fun d => Wand.allowed restrict d = true)), add_scored_docs. intros ? ? Hd. by rewrite lookup_empty in Hd.
Qed.
Lemma best_fields_docs query ctxs k restrict :
  Forall (fun h => Wand.allowed restrict (sh_doc_id h) = true) (rank_best_fields self query ctxs k restrict).
Proof.
  unfold rank_best_fields. set (flat := match plain_ctxs ctxs with [] => None | _ => _ end).
  assert (Hflat : hits_by_doc (fun d => Wand.allowed restrict d = true) match flat with Some hits => add_wand_hits ∅ hits | None => ∅ end).
  { destruct flat as [hits|] eqn:Ef; [|intros ? ? Hd; by rewrite lookup_empty in Hd]. apply add_wand_docs; [|intros ? ? Hd; by rewrite lookup_empty in Hd].
    unfold flat in Ef. destruct (plain_ctxs ctxs) as [|c cs] eqn:Ec; [done|]. destruct (execute_top_k_retrieval _ _ _ _ _) as [hits'|] eqn:E.
    - injection Ef as <-. by eapply top_k_retrieval_docs.
    - by eapply grouped_retrieval_docs. }
  apply (top_k_docs (fun d => Wand.allowed restrict d = true)), (hits_by_doc_values (fun d => Wand.allowed restrict d = true)).
  revert Hflat. generalize (match flat with Some hits => add_wand_hits ∅ hits | None => ∅ end) as m.
  clearbody flat. induction ctxs as [|ctx ctxs' IH]; intros m Hm; [done|]. cbn [fold_left]. apply IH. destruct (_ && _); [done|]. by apply single_field_docs.
Qed.
Lemma retrieve_docs query ctxs k restrict mode :
  Forall (fun h => Wand.allowed restrict (sh_doc_id h) = true) (rank_retrieve self query ctxs k restrict mode).
Proof.
  unfold rank_retrieve. destruct (_ || _); [constructor|].
  assert (Hall : forall docs, restrict = Some docs ->
    Forall (fun h => Wand.allowed restrict (sh_doc_id h) = true) (top_k_from_hits (unscored_hit <$> elements docs) k)).
  { intros docs ->. apply (top_k_docs (fun d => Wand.allowed (Some docs) d = true)), Forall_fmap, Forall_forall. intros d Hd. cbn.
    apply bool_decide_eq_true. by apply elem_of_elements. }
  assert (Hrank : forall q, Forall (fun h => Wand.allowed restrict (sh_doc_id h) = true)
    match mode with BestFields => rank_best_fields self q ctxs k restrict | CrossFields => rank_cross_fields self q ctxs k restrict end).
  { intros q. destruct mode; [|apply best_fields_docs]. assert (Hc : Forall (fun h => Wand.allowed restrict (sh_doc_id h) = true)
      match (if all_plain ctxs then execute_grouped_retrieval self q ctxs k restrict true None else None) with
      | Some hits => wand_hit_to_search_hit <$> hits | None => top_k_from_hits (cross_field_hits self q ctxs restrict) k end).
    { destruct (if all_plain ctxs then _ else _) as [hits|] eqn:E.
      - destruct (all_plain ctxs); [|done]. apply Forall_fmap. by eapply grouped_retrieval_docs.
      - apply (top_k_docs (fun d => Wand.allowed restrict d = true)), cross_field_docs. }
    unfold rank_cross_fields. destruct q; try exact Hc; apply best_fields_docs. }
  destruct query as [q|]; [|destruct restrict; [by apply Hall|constructor]].
  destruct q; try apply Hrank. destruct restrict as [docs|]; [by apply Hall|]. destruct (ix_doc_range _) as [[lo hi]|]; [|constructor].
  apply (top_k_docs (fun _ => true = true)). by apply Forall_forall.
Qed.
End paths.

(** ** The cascade *)

Section cascade.
Context {I : Type} {SI : SearchIndex I} {LN : Ln} {LG : Log10} {CT : CaseTables} {PW : Powf} {PW64 : Powf64}.
Context (self : QueryExecutor I) (plan : RankPlan) (ctxs : list FieldCtx) (k : nat) (restrict : option (gset Z)) (mode : MatchMode).

(** What holds of every hit the cascade keeps: its document is allowed and it is in a tier of
    the plan. *)
Definition placed (ranks : TierRanks) (h : SearchHit) : Prop :=
  (sh_tier h = tr_name ranks /\ 0 <= sh_level h <= 1) \/
  ((sh_tier h = tr_exact ranks \/ sh_tier h = tr_relevance ranks) /\ sh_level h = 0).
Definition kept_ok (m : gmap Z SearchHit) : Prop :=
  map_Forall (fun d h => sh_doc_id h = d /\ Wand.allowed restrict d = true /\ placed (rp_ranks plan) h) m.
Definition hit_ok (h : SearchHit) : Prop := Wand.allowed restrict (sh_doc_id h) = true /\ placed (rp_ranks plan) h.

Lemma keep_ok m h : hit_ok h -> kept_ok m -> kept_ok (keep m h).
Proof.
  intros [Ha Hp] Hm. apply map_Forall_insert_2; [|done]. cbn [set_base sh_doc_id]. destruct (m !! sh_doc_id h) as [known|] eqn:E; [|done].
  destruct (Hm _ _ E) as (Hd & _ & Hk). split; [done|]. split; [done|]. unfold placed in *. cbn [sh_tier sh_level]. by destruct (place_lt _ known).
Qed.
Lemma keep_all_ok (f : SearchHit -> SearchHit) hits m :
  Forall (fun h => hit_ok (f h)) hits -> kept_ok m -> kept_ok (fold_left (fun m h => keep m (f h)) hits m).
Proof. intros Hh. revert m. induction Hh as [|h hits Hd Hh IH]; intros m Hm; [done|]. apply IH. by apply keep_ok. Qed.

Lemma ranked_docs query fetch docs :
  (forall d, d ∈ docs -> Wand.allowed restrict d = true) ->
  Forall (fun h => Wand.allowed restrict (sh_doc_id h) = true) (Retrieval.ranked self plan ctxs restrict mode query fetch (Some docs)).
Proof.
  intros Hdocs. unfold Retrieval.ranked. case_bool_decide.
  - apply (top_k_docs (fun d => Wand.allowed restrict d = true)). destruct (cross_field_docs self query ctxs restrict) as [Hc _].
    rewrite Forall_forall in *. intros h [_ Hh]%list_elem_of_filter. by apply Hc.
  - eapply Forall_impl; [apply retrieve_docs|]. intros h Hh. apply Hdocs. by apply bool_decide_eq_true in Hh.
Qed.
Lemma ranked_all_docs query fetch :
  Forall (fun h => Wand.allowed restrict (sh_doc_id h) = true) (Retrieval.ranked self plan ctxs restrict mode query fetch None).
Proof.
  unfold Retrieval.ranked. case_bool_decide; [|apply retrieve_docs]. apply (top_k_docs (fun d => Wand.allowed restrict d = true)), cross_field_docs.
Qed.

Lemma name_level_ok keys score_with fetch st level :
  0 <= level.1 <= 1 -> kept_ok st.2 -> kept_ok (name_level self plan ctxs restrict mode keys score_with fetch st level).2.
Proof.
  intros Hl Hm. destruct st as [named found]. unfold name_level. set (docs := filter _ _). case_bool_decide; [done|]. cbn [snd].
  assert (Hdocs : forall d, d ∈ docs -> Wand.allowed restrict d = true) by (intros d; unfold docs; rewrite elem_of_filter; tauto).
  apply keep_all_ok; [|done]. assert (Hplaced : forall h, Wand.allowed restrict (sh_doc_id h) = true -> hit_ok (set_share f32_one (set_place (tr_name (rp_ranks plan)) level.1 h))).
  { intros h Hh. split; [done|]. left. done. }
  unfold fill_level. destruct (_ <? _)%nat.
  - apply Forall_app_2; [eapply Forall_impl; [by apply ranked_docs|done]|]. apply Forall_fmap, Forall_forall. intros d Hd. apply Hplaced. cbn. apply Hdocs.
    apply elem_of_take in Hd as (i & Hi & _). apply list_elem_of_lookup_2 in Hi. rewrite elem_of_sort_unstable in Hi.
    apply list_elem_of_filter in Hi as [_ Hi]. by apply elem_of_elements.
  - eapply Forall_impl; [by apply ranked_docs|done].
Qed.
Lemma hard_tiers_ok tiers count found :
  kept_ok found -> kept_ok (hard_tiers self plan ctxs k restrict mode tiers count found).2.
Proof.
  revert count found. induction tiers as [|tier tiers IH]; intros count found Hm; [done|]. cbn [hard_tiers]. destruct (_ =? _)%nat; [done|].
  destruct tier; try by apply IH.
  - apply IH. cbn [fold_left]. apply name_level_ok; [cbn; lia|]. by apply name_level_ok; [cbn; lia|].
  - apply IH. apply keep_all_ok; [|done]. eapply Forall_impl; [apply ranked_all_docs|]. intros h Hh. split; [done|]. right. split; [by left|done].
Qed.

Lemma grouped_hits_docs parts fetch limit coverage :
  Forall (fun h => Wand.allowed limit (sh_doc_id h) = true) (grouped_hits self ctxs parts fetch limit coverage).
Proof.
  unfold grouped_hits. destruct (execute_grouped_retrieval _ _ _ _ _ _ _) as [hits|] eqn:E; [|constructor]. apply Forall_fmap. by eapply grouped_retrieval_docs.
Qed.
Lemma source_hits_docs fetch tier :
  Forall (fun h => Wand.allowed restrict (sh_doc_id h) = true) (source_hits self plan ctxs restrict mode fetch tier).
Proof.
  unfold source_hits. destruct tier; try constructor; try apply ranked_all_docs.
  - case_bool_decide; [constructor|]. apply ranked_docs. intros d Hd. destruct restrict; [|done]. cbn. apply bool_decide_eq_true. set_solver.
  - destruct (pool_parts _ _ _); [apply grouped_hits_docs|apply ranked_all_docs].
  - destruct (pool_parts _ _ _); [constructor|]. destruct q; apply ranked_all_docs.
  - match goal with |- context [if ?b then _ else _] => destruct b end; [constructor|apply ranked_all_docs].
Qed.
Lemma keep_relevant_ok hits m :
  Forall (fun h => Wand.allowed restrict (sh_doc_id h) = true) hits -> kept_ok m -> kept_ok (keep_relevant plan m hits).
Proof.
  intros Hh Hm. apply keep_all_ok; [|done]. eapply Forall_impl; [exact Hh|]. intros h Hd. split; [done|]. right. split; [by right|done].
Qed.
Lemma missing_hits_docs missing :
  (forall d, d ∈ missing -> Wand.allowed restrict d = true) ->
  Forall (fun h => Wand.allowed restrict (sh_doc_id h) = true) (missing_hits self plan ctxs restrict mode missing).
Proof.
  intros Hd. unfold missing_hits. apply Forall_app_2.
  - destruct (pool_parts _ _ _) as [parts|].
    + eapply Forall_impl; [apply grouped_hits_docs|]. intros h Hh. apply Hd. by apply bool_decide_eq_true in Hh.
    + destruct (rp_clauses plan) as [|c [|c' cs]]; [constructor|by apply ranked_docs..].
  - apply Forall_fmap, Forall_forall. intros d Hin. apply list_elem_of_filter in Hin as [_ Hin]. cbn. apply Hd. by apply elem_of_elements.
Qed.

Definition shares_ok (shares : gmap Z f32) : Prop := forall d, d ∈ dom shares -> Wand.allowed restrict d = true.
Lemma run_shares_docs runs weights total : shares_ok (run_shares self runs ctxs restrict weights total).
Proof.
  assert (Hraise : forall share ds m, Forall (fun d => Executor.allowed restrict d = true) ds -> shares_ok m -> shares_ok (fold_left (raise_share share) ds m)).
  { intros share ds m Hds. revert m. induction Hds as [|d ds Hd Hds IH]; intros m Hm; [done|]. cbn [fold_left]. apply IH. unfold raise_share.
    intros d'. rewrite dom_insert_L. intros [->%elem_of_singleton|Hd']%elem_of_union; [exact Hd|by apply Hm]. }
  unfold run_shares. assert (Hempty : shares_ok ∅) by (intros d; set_solver). revert Hempty. generalize (∅ : gmap Z f32) as m.
  induction runs as [|key runs IH]; intros m Hm; [done|]. cbn [fold_left]. apply IH. apply Hraise; [|apply Hraise; [|done]];
    apply Forall_forall; intros d [Hd _]%list_elem_of_filter; exact Hd.
Qed.
Lemma full_shares_docs words candidates shares :
  (forall d, d ∈ candidates -> Wand.allowed restrict d = true) -> shares_ok shares -> shares_ok (full_shares self words ctxs candidates shares).
Proof.
  intros Hc. unfold full_shares. generalize (filter (fun ctx => is_Some (cx_exact_xpath ctx)) (plain_ctxs ctxs)) as cs. intros cs.
  revert shares. induction cs as [|ctx cs IH]; intros shares Hs; [done|]. cbn [fold_left]. apply IH. clear IH. revert shares Hs.
  induction candidates as [|d ds IHd]; intros shares Hs; [done|]. cbn [fold_left]. apply IHd; [intros; apply Hc; by right|].
  destruct (forallb _ _); [|done]. intros d'. rewrite dom_insert_L. intros [->%elem_of_singleton|Hd']%elem_of_union; [apply Hc; left|by apply Hs].
Qed.
(** The documents with a share are allowed, or were candidates before. *)
Lemma name_shares_docs (candidates : list DocId) :
  (forall d, d ∈ candidates -> Wand.allowed restrict d = true) -> shares_ok (name_shares self plan ctxs restrict candidates).
Proof.
  intros Hc. assert (Hempty : shares_ok ∅) by (intros d; set_solver). unfold name_shares. destruct (rp_words plan) as [|w ws]; [done|]. cbv zeta.
  set (run := if f32_lt _ _ then _ else _). assert (Hrun : shares_ok run) by (unfold run; destruct (f32_lt _ _); [apply run_shares_docs|done]).
  destruct (_ <=? _)%nat; [by apply full_shares_docs|done].
Qed.

Lemma relevance_hits_ok found : kept_ok found -> kept_ok (relevance_hits self plan ctxs k restrict mode found).
Proof.
  intros Hf. unfold relevance_hits. set (relevance := fold_left _ (rp_tiers plan) ∅).
  assert (Hr : kept_ok relevance).
  { unfold relevance. assert (H : forall tiers m, kept_ok m -> kept_ok (fold_left (fun relevance tier =>
      keep_relevant plan relevance (source_hits self plan ctxs restrict mode (sat_usize k (size found)) tier)) tiers m)).
    { induction tiers as [|t ts IH]; intros m Hm; [done|]. cbn [fold_left]. apply IH. apply keep_relevant_ok; [apply source_hits_docs|done]. }
    apply H. intros ? ? Hd. by rewrite lookup_empty in Hd. }
  set (shares := name_shares _ _ _ _ _).
  assert (Hs : shares_ok shares).
  { apply name_shares_docs. intros d Hd. apply elem_of_elements, elem_of_dom in Hd as [h Hd]. by destruct (Hr _ _ Hd) as (_ & ? & _). }
  set (relevance' := if bool_decide _ then _ else _). assert (Hr' : kept_ok relevance').
  { unfold relevance'. case_bool_decide; [done|]. apply keep_relevant_ok; [|done]. apply missing_hits_docs. intros d Hd. apply Hs. set_solver. }
  assert (Hl : Forall (fun e => hit_ok e.2) (map_to_list relevance')).
  { apply Forall_forall. intros [d h] Hd. apply elem_of_map_to_list in Hd. destruct (Hr' _ _ Hd) as (<- & Ha & Hp). done. }
  revert Hl. generalize (map_to_list relevance') as l. intros l Hl. clearbody shares. clear -Hf Hl. revert found Hf.
  induction Hl as [|e l He Hl IH]; intros found Hf; [done|].
  cbn [fold_left]. apply IH. apply keep_ok; [|done]. destruct He as [Ha Hp]. by split.
Qed.

Lemma cascade_hits_ok : Forall hit_ok (rg_hits (rank_cascade self plan ctxs k restrict mode)).
Proof.
  unfold rank_cascade. pose proof (hard_tiers_ok (rp_tiers plan) 0 ∅) as Hh.
  destruct (hard_tiers self plan ctxs k restrict mode (rp_tiers plan) 0 ∅) as [count found]. cbn [snd] in Hh.
  assert (Hf : kept_ok found) by (apply Hh; intros ? ? Hd; by rewrite lookup_empty in Hd).
  set (found' := if _ && _ then _ else _). assert (Hf' : kept_ok found') by (unfold found'; destruct (_ && _); [by apply relevance_hits_ok|done]).
  assert (Hv : Forall hit_ok (into_values found')).
  { apply Forall_forall. intros h Hh'. unfold into_values in Hh'. apply list_elem_of_fmap in Hh' as ([d h'] & -> & Hd). apply elem_of_map_to_list in Hd.
    destruct (Hf' _ _ Hd) as (<- & Ha & Hp). done. }
  assert (Hm : Forall hit_ok (clause_masks self (rp_clauses plan) ctxs (into_values found')).2).
  { unfold clause_masks. destruct (_ || _); cbn [snd]; apply Forall_fmap; (eapply Forall_impl; [exact Hv|]); intros h Hk; exact Hk. }
  destruct (clause_masks _ _ _ _) as [weights hits]. cbn [snd rg_hits] in *. unfold apply_density.
  destruct (_ <? _)%nat; apply Forall_fmap; (eapply Forall_impl; [exact Hm|]); intros h Hk; exact Hk.
Qed.
End cascade.

(** ** The result *)

Section result.
Context {I : Type} {SI : SearchIndex I} {LN : Ln} {LG : Log10} {CT : CaseTables} {PW : Powf} {PW64 : Powf64}.
Context (self : QueryExecutor I).

(** What [finalize] keeps of its hits: their documents, and places among theirs. *)
Lemma finalize_docs (Q : DocId -> Z -> Z -> Prop) (g : RankedGroup) k :
  Forall (fun h => Q (sh_doc_id h) (sh_tier h) (sh_level h)) (rg_hits g) ->
  Forall (fun h => Q (sh_doc_id h) (sh_tier h) (sh_level h)) (finalize [g] k).
Proof.
  intros Hg. destruct (finalize_spec [g] k) as (all & _ & _ & Hin & ->). apply Forall_take, Forall_forall. intros h (d & m & Hm & ->)%Hin.
  cbn. pose proof (merge_groups_lookup [g] d) as Hl. rewrite Hm in Hl. unfold merge_groups in Hl. cbn [fold_left] in Hl.
  assert (H : forall hits m0, Forall (fun h => Q (sh_doc_id h) (sh_tier h) (sh_level h)) hits ->
    map_Forall (fun d m => sh_doc_id (mg_hit m) = d /\ Q (sh_doc_id (mg_hit m)) (sh_tier (mg_hit m)) (sh_level (mg_hit m))) m0 ->
    map_Forall (fun d m => sh_doc_id (mg_hit m) = d /\ Q (sh_doc_id (mg_hit m)) (sh_tier (mg_hit m)) (sh_level (mg_hit m))) (fold_left (merge_hit g) hits m0)).
  { intros hits m0 Hh. revert m0. induction Hh as [|h hits Hq Hh IH]; intros m0 Hm0; [done|]. cbn [fold_left]. apply IH. apply map_Forall_insert_2; [|done].
    destruct (m0 !! sh_doc_id h) as [known|] eqn:E; [|done]. destruct (Hm0 _ _ E) as [Hd Hk]. cbn [merge_known mg_hit sh_doc_id sh_tier sh_level].
    split; [done|]. destruct (place_lt h (mg_hit known)); [|done]. by rewrite Hd. }
  assert (H0 : map_Forall (fun d m => sh_doc_id (mg_hit m) = d /\ Q (sh_doc_id (mg_hit m)) (sh_tier (mg_hit m)) (sh_level (mg_hit m))) (∅ : gmap Z Merged)).
  { intros ? ? Hd. by rewrite lookup_empty in Hd. }
  by apply (H _ _ Hg H0 d m Hl).
Qed.

(** C4: a search returns at most [k] documents, each once, in the order of the ranking and with
    a finite score that is not negative; every one of them is allowed by the filters, whichever
    of the tiers, fast paths, synonym groups or names found it; and with a plan every hit is in
    one of the plan's three tiers. *)
Theorem rank_sound (plan : RankPlan) (ctxs : list FieldCtx) (k : nat) (restrict : option (gset Z)) (mode : MatchMode) (query : option Query) :
  let hits := rank self plan ctxs k restrict mode query in
  (length hits <= k)%nat /\ NoDup (sh_doc_id <$> hits) /\ Ranking.ranked hits /\
  Forall (fun h => Executor.allowed restrict (sh_doc_id h) = true /\ f32_is_finite (sh_score h) = true /\ f32_le f32_zero (sh_score h) = true /\
    (rp_tiers plan <> [] -> placed (rp_ranks plan) h)) hits.
Proof.
  cbv zeta. set (hits := rank self plan ctxs k restrict mode query). set (g := rank_features self plan ctxs k restrict mode query).
  assert (Hg : Forall (fun h => Wand.allowed restrict (sh_doc_id h) = true /\
    (rp_tiers plan <> [] -> placed (rp_ranks plan) h)) (rg_hits g)).
  { unfold g, rank_features. destruct (rp_tiers plan) as [|t ts] eqn:Et.
    - cbn [rg_hits]. apply Forall_fmap. eapply Forall_impl; [apply retrieve_docs|]. intros h Hh. by split.
    - eapply Forall_impl; [apply cascade_hits_ok|]. intros h [Ha Hp]. by split. }
  assert (Hq : Forall (fun h => Wand.allowed restrict (sh_doc_id h) = true /\ (rp_tiers plan <> [] -> placed (rp_ranks plan) h)) hits).
  { apply (finalize_docs (fun d t l => Wand.allowed restrict d = true /\ (rp_tiers plan <> [] ->
      (t = tr_name (rp_ranks plan) /\ 0 <= l <= 1) \/ ((t = tr_exact (rp_ranks plan) \/ t = tr_relevance (rp_ranks plan)) /\ l = 0)))). exact Hg. }
  destruct (finalize_spec [g] k) as (all & Hr & Hn & Hin & Hf). change hits with (finalize [g] k) in Hq |- *. rewrite Hf in Hq |- *. split_and!.
  - rewrite length_take. lia.
  - rewrite fmap_take. by eapply sublist_NoDup, sublist_take.
  - by apply ranked_take.
  - rewrite Forall_forall in Hq |- *. intros h Hh. destruct (Hq h Hh) as [Ha Hp]. split; [done|].
    assert (Hall : h ∈ all) by (by apply (sublist_subseteq (take k all) all (sublist_take _ _))).
    apply Hin in Hall as (d & m & _ & ->). split; [apply final_score_ok|]. split; [apply final_score_ok|done].
Qed.
End result.
