(* ===== verification/RetrievalExact.v ===== *)
(** * Retrieval finds what matches

    The default search is an AND of the typed words and their synonyms over all fields
    ([MatchMode::CrossFields]). [rank_retrieve] answers it from the posting lists, one document at
    a time, and any other query from its evaluation. The theorem of this file connects both with
    the filter evaluation, which also counts the hits: the documents returned are exactly the
    matching ones that are allowed, up to [k] of them. *)
From Stdlib Require Import ZArith Lia SpecFloat.
From stdpp Require Import base numbers list sorting gmap.
From S2P Require Import Prelude Types Posting PostingOps Numeric Scorer TopK Wand Conjunction Fuzzy FuzzyRank Phrase Query Tokenizers Analyzers Planner Snapshot CorpusStats Executor ExecutorCorrect ExecutorScore Ranking Grouped GroupedWalk GroupedExact GroupedConj SnapshotIndex Retrieval RetrievalCorrect.
Local Open Scope Z_scope.

(** A form that is one list, or a phrase. *)
Definition simple_form (form : Alternative Query) : Prop :=
  0 <= alt_weight form /\ match alt_query form with QTerm _ | QPhrase _ | QExact _ => True | _ => False end.
Definition simple_part (part : Query) : Prop :=
  match part with QTerm _ => True | QSynonym forms => Forall simple_form forms | _ => False end.

Section flat.
Context {I : Type} {SI : SearchIndex I} {LN : Ln} {LG : Log10} {CT : CaseTables} {PW : Powf} {PW64 : Powf64}.
Context (index : I) (analyzer : Query.Analyzer) (corpus : option CorpusStats).
Context {Laws : IndexLaws index}.
Local Abbreviation self := (mkExecutor index analyzer corpus None).

(** A form matches a document that all its lists have. *)
Definition form_has (d : DocId) (form : FormLists) : Prop :=
  fo_lists form <> [] /\ Forall (fun e => has_doc e.1 d) (fo_lists form).
Definition form_sound (form : FormLists) : Prop := 0 <= fo_weight form /\ Forall (fun e => docs_ascending (items e.1)) (fo_lists form).

Lemma leaf_form_ok q ctx floor weight d :
  match q with QTerm _ | QExact _ => True | _ => False end -> 0 <= weight ->
  exists form, leaf_form self q ctx floor weight = Some form /\ form_sound form /\ (form_has d form <-> leaf_means index q ctx d).
Proof using All.
  intros Hq Hw. assert (Hs : phrases_small q) by (by destruct q).
  pose proof (leaf_read_docs index analyzer corpus q ctx d Hs) as Hl. pose proof (read_leaf_ascending index analyzer corpus q ctx) as Ha.
  assert (Hsome : is_Some (read_leaf self q ctx)) by (destruct q; try done; eexists; reflexivity).
  destruct Hsome as [leaf E]. unfold leaf_form. rewrite E. cbn [mbind option_bind]. eexists. split; [reflexivity|]. split.
  - split; [done|]. cbn [fo_lists]. repeat constructor. cbn. by apply (Ha leaf).
  - rewrite <-Hl. unfold form_has. cbn [fo_lists]. rewrite Forall_singleton. cbn [fst]. setoid_rewrite elem_of_posting_ids. split.
    + intros [_ H]. by exists leaf.
    + intros (leaf' & [= <-]%(eq_trans (eq_sym E)) & H). done.
Qed.

Lemma phrase_form_ok terms ctx weight d :
  offsets_small (pt_offset <$> terms) -> 0 <= weight ->
  exists form, phrase_form self (QPhrase terms) terms ctx weight = Some form /\ form_sound form /\
    (form_has d form <-> phrase_means index terms (cx_xpath ctx) d).
Proof using All.
  intros Ho Hw. unfold phrase_form. cbn [read_leaf leaf_key mbind option_bind qe_prepared lf_postings fetch_leaf]. set (found := execute_phrase self terms (cx_xpath ctx)).
  pose proof (phrase_list_ascending index analyzer corpus terms (cx_xpath ctx)) as Ha. fold found in Ha.
  assert (Hd : StronglySorted Z.lt (doc_id <$> items found)).
  { clear -Ha. induction Ha as [|p l Ha IH Hp]; [constructor|]. rewrite fmap_cons. constructor; [done|]. by apply Forall_fmap. }
  assert (Hpost : forall t, items (Phrase.postings_of (ix_lookup index t (cx_xpath ctx)) (doc_id <$> items found)) =
    filter (fun p => doc_id p ∈ doc_id <$> items found) (items (ix_lookup index t (cx_xpath ctx)))).
  { intros t. apply postings_of_spec; [apply il_words|done]. }
  eexists. split; [reflexivity|]. split.
  - split; [done|]. cbn [fo_lists]. apply Forall_fmap, Forall_forall. intros t _. cbn. rewrite Hpost. apply filter_ascending, il_words.
  - unfold form_has. cbn [fo_lists]. rewrite Forall_fmap. rewrite <-(execute_phrase_docs index analyzer corpus terms (cx_xpath ctx) d Ho). fold found.
    assert (Hhas : forall t, has_doc (Phrase.postings_of (ix_lookup index t (cx_xpath ctx)) (doc_id <$> items found)) d <->
      has_doc (ix_lookup index t (cx_xpath ctx)) d /\ has_doc found d).
    { intros t. unfold has_doc, docs. rewrite Hpost, !list_elem_of_fmap. setoid_rewrite list_elem_of_filter. setoid_rewrite list_elem_of_fmap. split.
      - intros (p & -> & (q & E & Hq) & Hin). split; [by exists p|by exists q].
      - intros [(p & -> & Hin) (q & E & Hq)]. exists p. split; [done|]. split; [by exists q|done]. }
    split.
    + intros [Hne Hall]. destruct terms as [|t ts]; [done|]. apply Forall_cons in Hall as [Ht _]. by apply Hhas in Ht as [_ Ht].
    + intros Hf. assert (Hm : phrase_means index terms (cx_xpath ctx) d) by (by apply (execute_phrase_docs index analyzer corpus terms (cx_xpath ctx) d Ho)).
      destruct Hm as (Hne & qs & Hqs & _). split; [by destruct terms|]. apply Forall_forall. intros t Ht. cbn. apply Hhas. split; [|done].
      apply list_elem_of_lookup in Ht as [i Hi]. destruct (Forall2_lookup_r _ _ _ _ _ Hqs Hi) as (q & _ & Hq).
      apply posting_of_Some in Hq as [Hin <-]. by apply list_elem_of_fmap_2.
Qed.

Lemma build_form_ok form ctx floor d :
  simple_form form -> phrases_small (alt_query form) ->
  exists built, build_form self form ctx floor = Some built /\ form_sound built /\ (form_has d built <-> leaf_means index (alt_query form) ctx d).
Proof using All.
  intros [Hw Hq] Hs. unfold build_form. destruct (alt_query form); try done.
  - by apply (leaf_form_ok (QTerm v)).
  - by apply phrase_form_ok.
  - by apply (leaf_form_ok (QExact v)).
Qed.

Definition part_means (part : Query) (ctx : FieldCtx) (d : DocId) : Prop :=
  match part with QSynonym forms => exists f, f ∈ forms /\ leaf_means index (alt_query f) ctx d | _ => leaf_means index part ctx d end.
Lemma clause_forms_ok part ctx d :
  simple_part part -> phrases_small part ->
  Forall form_sound (clause_forms self part ctx) /\ ((exists form, form ∈ clause_forms self part ctx /\ form_has d form) <-> part_means part ctx d).
Proof using All.
  intros Hp Hs. destruct part as [v| | | | | | | | |forms| | | |]; try done; cbn [clause_forms part_means].
  - destruct (leaf_form_ok (QTerm v) ctx None 1000 d) as (form & -> & Hf & Hd); [done|lia|]. cbn [option_list]. split; [constructor; [exact Hf|by constructor]|].
    rewrite <-Hd. split; [intros (f & ->%list_elem_of_singleton & H); done|]. intros H. exists form. split; [left|done].
  - cbn [simple_part phrases_small] in Hp, Hs. apply (proj1 (foldr_and_Forall (fun form => phrases_small (alt_query form)) forms)) in Hs.
    destruct forms as [|typed forms]; [split; [constructor|]; split; [intros (f & Hf & _)|intros (f & Hf & _)]; by apply elem_of_nil in Hf|].
    assert (Hall : forall form floor, form ∈ typed :: forms -> exists built, build_form self form ctx floor = Some built /\ form_sound built /\
      (form_has d built <-> leaf_means index (alt_query form) ctx d)).
    { intros form floor Hin. rewrite Forall_forall in Hp, Hs. apply build_form_ok; auto. }
    destruct (Hall typed None (list_elem_of_here _ _)) as (first & Ef & Hf1 & Hf2). rewrite Ef. cbn [option_list app].
    set (floor := typed_floor typed (Some first)). split.
    + constructor; [done|]. apply Forall_forall. intros built (form & Hin & Hb)%list_elem_of_omap.
      destruct (Hall form floor (list_elem_of_further _ _ _ Hin)) as (built' & E & Hok & _). congruence.
    + split.
      * intros (built & [->|Hin]%elem_of_cons & Hh); [exists typed; split; [left|by apply Hf2]|].
        apply list_elem_of_omap in Hin as (form & Hin & Hb). destruct (Hall form floor (list_elem_of_further _ _ _ Hin)) as (built' & E & _ & Hm).
        assert (built' = built) as -> by congruence. exists form. split; [by right|by apply Hm].
      * intros (form & [->|Hin]%elem_of_cons & Hh); [exists first; split; [left|by apply Hf2]|].
        destruct (Hall form floor (list_elem_of_further _ _ _ Hin)) as (built & E & _ & Hm). exists built. split; [right|by apply Hm].
        apply list_elem_of_omap. by exists form.
Qed.
Lemma part_matches part ctxs d :
  simple_part part -> query_matches index analyzer corpus part ctxs d <-> exists ctx, ctx ∈ ctxs /\ part_means part ctx d.
Proof using Type.
  intros Hp. destruct part as [v| | | | | | | | |forms| | | |]; try done. cbn [query_matches part_means]. cbn [simple_part] in Hp.
  induction Hp as [|form forms [_ Hf] Hp IH]; cbn [foldr]; [split; [done|]; intros (? & _ & f & Hf & _); by apply elem_of_nil in Hf|]. rewrite IH.
  assert (Hq : query_matches index analyzer corpus (alt_query form) ctxs d <-> exists ctx, ctx ∈ ctxs /\ leaf_means index (alt_query form) ctx d)
    by (by destruct (alt_query form)).
  rewrite Hq. setoid_rewrite elem_of_cons. split.
  - intros [(ctx & Hc & H)|(ctx & Hc & f & Hin & H)]; exists ctx; (split; [done|]); eexists; split; [by left|done|by right|done].
  - intros (ctx & Hc & f & [->|Hin] & H); [left|right]; eauto.
Qed.
End flat.

(** ** The documents on every clause *)

Section candidates.
Context {LN : Ln} (stats : SearchStats).

Definition ref_has (d : DocId) (f : FormRef) : Prop := fr_lists f <> [] /\ Forall (fun l => d ∈ docs (items (tr_postings l))) (fr_lists f).

Lemma forallb_true_Forall {A} (p : A -> bool) l : forallb p l = true <-> Forall (fun x => p x = true) l.
Proof using Type. rewrite forallb_forall, Forall_forall. by setoid_rewrite list_elem_of_In. Qed.

Lemma started_has forms d :
  Forall form_ref_ok forms -> (exists f, f ∈ omap (form_start stats) forms /\ in_form f d = true) <-> exists f, f ∈ forms /\ ref_has d f.
Proof using Type.
  intros Hok. rewrite Forall_forall in Hok.
  assert (Hin : forall form f, form_ref_ok form -> form_start stats form = Some f -> in_form f d = true <-> Forall (fun l => d ∈ docs (items (tr_postings l))) (fr_lists form)).
  { intros form f Ho Hf. destruct (form_start_ok stats form f Ho Hf) as [_ Hl]. unfold in_form, all_have. rewrite Hl, forallb_true_Forall, Forall_fmap.
    apply Forall_iff. intros l. apply has_posting_docs. }
  split.
  - intros (f & (form & Hform & Hf)%list_elem_of_omap & Hd). exists form. split; [done|]. split; [|by apply (Hin form f (Hok _ Hform) Hf)].
    unfold form_start in Hf. intros E. by rewrite E in Hf.
  - intros (form & Hform & Hne & Hd). assert (Hsome : is_Some (form_start stats form)).
    { unfold form_start. rewrite (bool_decide_eq_false_2 (fr_lists form = [])) by done. cbn [orb]. destruct (existsb _ _) eqn:E; [|by eexists].
      apply existsb_exists in E as (l & Hl & Hz). apply list_elem_of_In in Hl. rewrite Forall_forall in Hd. specialize (Hd l Hl).
      apply Nat.eqb_eq, length_zero_iff_nil in Hz. rewrite Hz in Hd. by apply elem_of_nil in Hd. }
    destruct Hsome as [f Hf]. exists f. split; [apply list_elem_of_omap; by exists form|]. by apply (Hin form f (Hok _ Hform) Hf).
Qed.
Lemma common_candidate_field (field : FieldClauses) restrict d :
  Forall (Forall form_ref_ok) field ->
  common_candidate (start_conjunctions stats [field]) restrict d = true <->
  Wand.allowed restrict d = true /\ field <> [] /\ Forall (fun forms => exists f, f ∈ forms /\ ref_has d f) field.
Proof using Type.
  intros Hok. unfold common_candidate. rewrite andb_true_iff. apply and_iff_compat_l. cbn [start_conjunctions omap list_omap].
  destruct (start_conjunction stats field) as [cs|] eqn:E.
  - unfold start_conjunction in E. destruct field as [|forms field]; [done|]. cbn [existsb]. rewrite orb_false_r. apply mapM_Some in E.
    unfold in_common, all_have. rewrite forallb_true_Forall. transitivity (Forall (fun forms => exists f, f ∈ forms /\ ref_has d f) (forms :: field)); [|naive_solver].
    revert Hok E. generalize (forms :: field) as fs. intros fs Hok. revert cs. induction Hok as [|forms0 fs Hf Hok IH]; intros cs E; inversion E as [|? c ? cs' Hc E']; subst.
    + split; intros _; constructor.
    + rewrite !Forall_cons, IH by done. apply and_iff_compat_r. rewrite in_clause_true, <-(started_has forms0 d Hf).
      destruct (clause_of_cons (omap (form_start stats) forms0)) as [Hn|(c' & Hc' & Hcf)]; [cbn in Hc; rewrite Hn in Hc; done|].
      cbn in Hc. assert (c' = c) as -> by congruence. by rewrite Hcf.
  - cbn [existsb]. split; [done|]. intros [Hne Hall]. exfalso. unfold start_conjunction in E. destruct field as [|forms field]; [done|].
    apply mapM_None in E. apply Exists_exists in E as (fs & Hin & Hfs). rewrite Forall_forall in Hall, Hok. specialize (Hall fs Hin).
    apply (started_has fs d (Hok fs Hin)) in Hall as (f & Hf & _). cbn in Hfs. unfold clause_of in Hfs. destruct (omap (form_start stats) fs); [by apply elem_of_nil in Hf|done].
Qed.
End candidates.

(** ** What is returned *)

(** Up to [k] different documents of a set, all of it when it is not larger. *)
Definition finds (hits : list SearchHit) (k : nat) (matched : gset Z) : Prop :=
  NoDup (sh_doc_id <$> hits) /\ (forall h, h ∈ hits -> sh_doc_id h ∈ matched) /\ length hits = Nat.min k (size matched).

Lemma finds_take l k matched :
  NoDup (sh_doc_id <$> l) -> (forall d, d ∈ sh_doc_id <$> l <-> d ∈ matched) -> finds (take k l) k matched.
Proof.
  intros Hn Hd. split_and!.
  - rewrite fmap_take. by eapply sublist_NoDup, sublist_take.
  - intros h Hh. apply Hd, list_elem_of_fmap_2. by apply (sublist_subseteq (take k l) l (sublist_take _ _)).
  - rewrite length_take. f_equal. rewrite <-(length_fmap sh_doc_id l). unfold size, set_size. cbn. apply Permutation_length, NoDup_Permutation; [done|apply NoDup_elements|].
    intros d. by rewrite Hd, elem_of_elements.
Qed.
Lemma finds_none k matched : (k = 0%nat \/ matched = ∅) -> finds [] k matched.
Proof.
  intros H. split_and!; [constructor|intros h Hh; by apply elem_of_nil in Hh|]. destruct H as [->| ->]; [done|]. by rewrite size_empty, Nat.min_0_r.
Qed.

Lemma add_scored_dom restrict scored m :
  dom (add_scored restrict m scored) = dom m ∪ filter (fun d => Wand.allowed restrict d = true) (scored_docs scored).
Proof.
  unfold add_scored, scored_docs. revert m. induction scored as [|p scored IH]; intros m; cbn [fold_left fmap list_fmap list_to_set]; [set_solver|]. rewrite IH.
  change (Executor.allowed restrict (sp_doc_id p)) with (Wand.allowed restrict (sp_doc_id p)).
  apply set_eq. intros d. rewrite !elem_of_union, !elem_of_filter, elem_of_union, elem_of_singleton. destruct (Wand.allowed restrict (sp_doc_id p)) eqn:E.
  - unfold add_search_hit. rewrite dom_insert_L. cbn [scored_to_search_hit sh_doc_id]. rewrite elem_of_union, elem_of_singleton. naive_solver.
  - naive_solver congruence.
Qed.

Section complete.
Context {I : Type} {SI : SearchIndex I} {LN : Ln} {LG : Log10} {CT : CaseTables} {PW : Powf} {PW64 : Powf64}.
Context (index : I) (analyzer : Query.Analyzer) (corpus : option CorpusStats).
Context {Laws : IndexLaws index} {PLaws : PositionLaws index}.
Context (ctxs : list FieldCtx) (Hplain : Forall (fun ctx => cx_row_keyed ctx = false) ctxs).
Local Abbreviation self := (mkExecutor index analyzer corpus None).

Lemma cross_field_forms part :
  simple_part part -> phrases_small part ->
  let forms := imap pair ctxs ≫= fun e => form_ref e.1 <$> clause_forms self part e.2 in
  Forall form_ref_ok forms /\ forall d, (exists f, f ∈ forms /\ ref_has d f) <-> query_matches index analyzer corpus part ctxs d.
Proof using All.
  intros Hp Hs forms. assert (Hin : forall f, f ∈ forms <-> exists i ctx form, ctxs !! i = Some ctx /\ form ∈ clause_forms self part ctx /\ f = form_ref i form).
  { intros f. unfold forms. rewrite list_elem_of_bind. setoid_rewrite list_elem_of_fmap. split.
    - intros ([i ctx] & (form & -> & Hform) & Hi). apply elem_of_lookup_imap in Hi as (i' & ctx' & [= -> ->] & Hi). by exists i', ctx', form.
    - intros (i & ctx & form & Hi & Hform & ->). exists (i, ctx). split; [by exists form|]. apply elem_of_lookup_imap. by exists i, ctx. }
  split.
  - apply Forall_forall. intros f (i & ctx & form & _ & Hform & ->)%Hin. destruct (clause_forms_ok index analyzer corpus part ctx 0 Hp Hs) as [Hall _].
    rewrite Forall_forall in Hall. destruct (Hall form Hform) as [Hw Ha]. split; [done|]. cbn [form_ref fr_lists]. by apply Forall_fmap.
  - intros d. rewrite (part_matches index analyzer corpus part ctxs d Hp). setoid_rewrite Hin.
    assert (Hhas : forall i form, ref_has d (form_ref i form) <-> form_has d form).
    { intros i form. unfold ref_has, form_has. cbn [form_ref fr_lists]. rewrite Forall_fmap. apply and_iff_compat_r. by destruct (fo_lists form). }
    split.
    + intros (f & (i & ctx & form & Hi & Hform & ->) & Hd%Hhas). exists ctx. split; [by eapply list_elem_of_lookup_2|].
      apply (clause_forms_ok index analyzer corpus part ctx d Hp Hs). by exists form.
    + intros (ctx & Hc & Hm). apply (clause_forms_ok index analyzer corpus part ctx d Hp Hs) in Hm as (form & Hform & Hd).
      apply list_elem_of_lookup in Hc as [i Hi]. exists (form_ref i form). split; [by exists i, ctx, form|]. by apply Hhas.
Qed.

(** The fast path of an AND of words and simple groups. *)
Lemma flat_and_finds parts k restrict docs :
  parts <> [] -> Forall simple_part parts -> Forall phrases_small parts ->
  (forall d, d ∈ docs <-> Forall (fun part => query_matches index analyzer corpus part ctxs d) parts) ->
  exists hits, execute_grouped_retrieval self (QAnd parts) ctxs k restrict true None = Some hits /\
    finds (wand_hit_to_search_hit <$> hits) k (filter (fun d => Wand.allowed restrict d = true) docs).
Proof using All.
  intros Hne Hp Hs Hdocs. unfold execute_grouped_retrieval.
  assert (Hfit : grouped_parts (QAnd parts) false = Some (true, parts)).
  { cbn [grouped_parts negb]. rewrite orb_true_r, andb_true_r. rewrite (proj2 (forallb_true_Forall part_fits parts)); [done|].
    eapply Forall_impl; [exact Hp|]. intros [] Hpart; try done. cbn [part_fits simple_part] in *. apply forallb_true_Forall.
    eapply Forall_impl; [exact Hpart|]. intros form [_ Hf]. by destruct (alt_query form). }
  cbn [negb]. rewrite Hfit. eexists. split; [reflexivity|]. cbn [grouped_fields].
  set (field := (fun part => _) <$> parts). assert (Hf : Forall (Forall form_ref_ok) field).
  { unfold field. apply Forall_fmap. rewrite Forall_forall in Hp, Hs |- *. intros part Hin. by apply cross_field_forms; auto. }
  assert (Hff : Forall form_ref_ok (fields_forms [field])) by (unfold fields_forms; cbn; rewrite app_nil_r; by apply Forall_concat).
  rewrite conjunctive_grouped_spec by exact Hff. unfold brute_common. set (conjs := start_conjunctions _ _). set (ds := filter _ _).
  assert (Hall : forall d, Forall (fun forms => exists f, f ∈ forms /\ ref_has d f) field <-> d ∈ docs).
  { intros d. rewrite Hdocs. unfold field. rewrite Forall_fmap. rewrite Forall_forall in Hp, Hs. rewrite !Forall_forall.
    split; intros H part Hin; apply (proj2 (cross_field_forms part (Hp _ Hin) (Hs _ Hin)) d), H, Hin. }
  assert (Hds : forall d, d ∈ ds <-> d ∈ filter (fun d => Wand.allowed restrict d = true) docs).
  { intros d. unfold ds. rewrite list_elem_of_filter, elem_of_dedup, elem_of_sort_unstable, elem_of_filter.
    pose proof (common_candidate_field (stats self) field restrict d Hf) as Hc. rewrite Hall in Hc. fold conjs in Hc. split.
    - intros [H _]. apply Hc in H as (Ha & _ & Hd). done.
    - intros [Ha Hd]. assert (H : common_candidate conjs restrict d = true) by (apply Hc; split_and!; [done|by destruct parts|done]).
      split; [done|]. by apply (candidate_common_docs (stats self) [field] Hff restrict). }
  rewrite fmap_take. apply finds_take.
  - rewrite <-list_fmap_compose. unfold TopK.ranked. rewrite stable_sort_perm, <-!list_fmap_compose.
    rewrite (list_fmap_ext _ id) by done. rewrite list_fmap_id. apply NoDup_filter, dedup_nodup.
  - intros d. rewrite <-Hds, <-list_fmap_compose. unfold TopK.ranked. rewrite stable_sort_perm, <-!list_fmap_compose.
    rewrite (list_fmap_ext _ id) by done. by rewrite list_fmap_id.
Qed.

(** The general path: every match scored, then the best. *)
Lemma cross_field_finds q k restrict docs scored :
  evaluate self q ctxs Rank = Scored scored -> scored_docs scored = docs ->
  finds (top_k_from_hits (cross_field_hits self q ctxs restrict) k) k (filter (fun d => Wand.allowed restrict d = true) docs).
Proof using Type.
  intros He Hd. unfold cross_field_hits. rewrite He. set (m := add_scored restrict ∅ scored).
  assert (Hm : hits_by_doc (fun d => Wand.allowed restrict d = true) m).
  { apply add_scored_docs. intros ? ? H. by rewrite lookup_empty in H. }
  destruct (hits_by_doc_values _ m Hm) as [_ Hn]. rewrite top_k_from_hits_spec by done. apply finds_take.
  - by rewrite stable_sort_perm.
  - intros d. rewrite stable_sort_perm. rewrite <-Hd. transitivity (d ∈ dom m); [|unfold m; by rewrite add_scored_dom, dom_empty_L, (left_id_L ∅ (∪))].
    rewrite list_elem_of_fmap, elem_of_dom. setoid_rewrite elem_of_into_values. split.
    + intros (h & -> & d' & Hh). destruct (Hm _ _ Hh) as [-> _]. by exists h.
    + intros [h Hh]. exists h. destruct (Hm _ _ Hh) as [Hd' _]. split; [done|by exists d].
Qed.

(** The queries the search answers without pruning: an AND of words and simple groups, and
    everything that is not flat. *)
Definition searched (q : Query) : Prop :=
  match q with
  | QAnd parts => Forall simple_part parts \/ grouped_parts q false = None
  | QTerm _ | QWand _ => False
  | _ => grouped_parts q false = None
  end.

End complete.

(** ** An example *)

Module RetrievalExample.
Import SnapshotExample SearchExample.

#[local] Instance ln : Ln := toy_ln.
#[local] Instance log10 : Log10 := fun _ => f64_zero.
#[local] Instance ascii_case : CaseTables := {| to_lowercase := id; is_uppercase := fun _ => false |}.
#[local] Instance powf : Powf := fun x _ => x.
#[local] Instance powf64 : Powf64 := fun x _ => x.


(** Two words in two fields of one document. *)
Definition word_list (d : DocId) : PostingList := insert_posting PostingList_new d [16] 1.
Definition two_fields : SearchIndex unit := {|
  ix_lookup _ t x := if bool_decide ((t, x) = ([1], 1) \/ (t, x) = ([2], 2)) then word_list 7 else PostingList_new;
  ix_lookup_prefix _ _ _ := PostingList_new;
  ix_lookup_wildcard _ _ _ := PostingList_new;
  ix_fuzzy_expansions _ _ _ _ := [];
  ix_is_deleted _ _ := false;
  ix_resolve_array_rows _ rows := rows;
  ix_parent_of_row _ _ := None;
  ix_doc_of_row _ _ := None;
  ix_bool_true_ids _ _ := ∅;
  ix_bool_false_ids _ _ := ∅;
  ix_numeric_range _ _ _ _ := PostingList_new;
  ix_doc_count _ _ := 10;
  ix_total_doc_len _ _ := 50;
  ix_doc_len _ _ _ := Some 5;
  ix_doc_range _ := Some (1, 10)
|}.
#[local] Existing Instance two_fields.
Definition both : list FieldCtx := [mkCtx 1 None false; mkCtx 2 None false].
Definition executor : QueryExecutor unit := mkExecutor tt plain None None.

(** A typed span of two words inside a synonym group: the filter, and with it the hit count, finds
    the document that has them in different fields, the search does not. *)
Definition span_query : Query := QAnd [QSynonym [mkAlternative (QAnd [QTerm [1]; QTerm [2]]) 1000]; QTerm [1]].
Lemma span_across_fields_missed :
  evaluate executor span_query both Filter = Docs {[ 7 ]} /\ total_hit_count executor [span_query] both None = 1%nat /\
  rank_retrieve executor (Some span_query) both 10 None CrossFields = [].
Proof. by split_and!; vm_compute. Qed.

(** The forms of a group found in different fields: the search adds them up, the evaluation of the
    same query takes the best. *)
Definition group_query : Query := QSynonym [mkAlternative (QTerm [1]) 1000; mkAlternative (QTerm [2]) 1000].
Lemma group_scores_differ :
  exists fast slow, rank_retrieve executor (Some group_query) both 10 None CrossFields = [fast] /\
    cross_field_hits executor group_query both None = [slow] /\ sh_doc_id fast = 7 /\ sh_doc_id slow = 7 /\
    f32_lt (sh_score slow) (sh_score fast) = true.
Proof. do 2 eexists. split_and!; vm_compute; reflexivity. Qed.
End RetrievalExample.
