(* ===== verification/MergedTerms.v ===== *)
(** * Merging the terms of several segments

    Models [MergedTerms] of [crates/core-index/src/lsm/compaction.rs]: the iterator that merges
    the sorted terms of the segments of a compaction with a heap of their heads. The postings of
    one term are joined in the order of the segments, duplicates merged, deleted documents
    dropped, and terms without postings skipped. [merged_terms_spec] characterises the whole
    sequence: ascending keys, and for each key the union of what the sources hold. *)
From Stdlib Require Import ZArith Lia.
From stdpp Require Import base numbers list gmap sorting.
From S2P Require Import Prelude Types Posting Btree.
Local Open Scope Z_scope.

Abbreviation TermList := (list (TermKey * PostingList)) (only parsing).

(** An iterator is the list of what it has left. *)
Record MergedTerms : Type := mkMerged {
  mt_sources : list TermList;
  mt_heads : list (option PostingList);
  mt_heap : list (TermKey * nat)
}.

(** [Reverse((TermKey, usize))]: the least key first, then the least index. *)
Definition head_leb (a b : TermKey * nat) : bool :=
  match TermKey_compare a.1 b.1 with Lt => true | Eq => (a.2 <=? b.2)%nat | Gt => false end.

(** One iteration of the loop of [new]. *)
Definition push_source (acc : MergedTerms) (source : TermList) : MergedTerms :=
  let index := length (mt_sources acc) in
  match source with
  | (key, list) :: rest =>
    mkMerged (mt_sources acc ++ [rest]) (mt_heads acc ++ [Some list]) ((key, index) :: mt_heap acc)
  | [] => mkMerged (mt_sources acc ++ [[]]) (mt_heads acc ++ [None]) (mt_heap acc)
  end.
Definition MergedTerms_new (sources : list TermList) : MergedTerms :=
  fold_left push_source sources (mkMerged [] [] []).

Definition mt_advance (self : MergedTerms) (index : nat) : PostingList * MergedTerms :=
  let list := default PostingList_new (mjoin (mt_heads self !! index)) in
  match mt_sources self !! index with
  | Some ((key, next) :: rest) =>
    (list, mkMerged (<[index := rest]> (mt_sources self)) (<[index := Some next]> (mt_heads self))
             ((key, index) :: mt_heap self))
  | _ => (list, mkMerged (mt_sources self) (<[index := None]> (mt_heads self)) (mt_heap self))
  end.

Definition with_heap (self : MergedTerms) (heap : list (TermKey * nat)) : MergedTerms :=
  mkMerged (mt_sources self) (mt_heads self) heap.

(** The inner loop: while the heap's top has the same key. *)
Fixpoint pop_same (fuel : nat) (key : TermKey) (self : MergedTerms) (items_ : list Posting)
    : option (list Posting * MergedTerms) :=
  match fuel with
  | O => None
  | S fuel' =>
    match heap_pop head_leb (mt_heap self) with
    | Some ((next_key, other), heap') =>
      if bool_decide (next_key = key) then
        let '(list, self) := mt_advance (with_heap self heap') other in
        pop_same fuel' key self (items_ ++ items list)
      else Some (items_, self)
    | None => Some (items_, self)
    end
  end.

Section merge.
Context (dels : DeleteSet).

(** [Iterator::next]; the outer option is the fuel of the loops. *)
Fixpoint mt_next (fuel : nat) (self : MergedTerms) : option (option (TermKey * PostingList) * MergedTerms) :=
  match fuel with
  | O => None
  | S fuel' =>
    match heap_pop head_leb (mt_heap self) with
    | None => Some (None, self)
    | Some ((key, index), heap') =>
      let '(list, self) := mt_advance (with_heap self heap') index in
      match pop_same fuel key self (items list) with
      | None => None
      | Some (items_, self) =>
        let merged := filter_in_place dels (from_items items_) in
        if (length (items merged) =? 0)%nat then mt_next fuel' self
        else Some (Some (key, merged), self)
      end
    end
  end.

(** What the iterator yields until it is exhausted. *)
Fixpoint mt_collect (fuel : nat) (self : MergedTerms) : option TermList :=
  match fuel with
  | O => None
  | S fuel' =>
    match mt_next fuel self with
    | None => None
    | Some (None, _) => Some []
    | Some (Some e, self') => cons e <$> mt_collect fuel' self'
    end
  end.

(** Every step consumes a term, so their number is fuel enough ([merged_terms_spec]). *)
Definition merged_terms (sources : list TermList) : TermList :=
  default [] (mt_collect (S (length (concat sources))) (MergedTerms_new sources)).
End merge.

(** ** The state of the iterator *)

Lemma head_leb_total a b : head_leb a b = true \/ head_leb b a = true.
Proof.
  unfold head_leb. rewrite (TermKey_compare_antisym a.1 b.1). destruct (TermKey_compare a.1 b.1); simpl; auto.
  rewrite !Nat.leb_le. lia.
Qed.

Lemma head_leb_spec a b :
  head_leb a b = true <-> key_clt a.1 b.1 \/ (a.1 = b.1 /\ (a.2 <= b.2)%nat).
Proof.
  unfold head_leb, key_clt. cbn [key_compare TermKey_order]. destruct (TermKey_compare a.1 b.1) eqn:E.
  - apply TermKey_compare_eq in E. rewrite Nat.leb_le. naive_solver.
  - naive_solver.
  - split; [done|]. intros [?|[Heq _]]; [done|]. apply TermKey_compare_eq in Heq. congruence.
Qed.

Lemma head_leb_trans a b c : head_leb a b = true -> head_leb b c = true -> head_leb a c = true.
Proof.
  rewrite !head_leb_spec. intros [H1|[H1 H1']] [H2|[H2 H2']].
  - left. by eapply key_clt_trans.
  - left. by rewrite <-H2.
  - left. by rewrite H1.
  - right. split; [congruence|lia].
Qed.

(** The heap entries of the lists [ps] that are left, heads included, numbered from [n]. *)
Fixpoint head_entries (n : nat) (ps : list TermList) : list (TermKey * nat) :=
  match ps with
  | [] => []
  | ((k, _) :: _) :: ps' => (k, n) :: head_entries (S n) ps'
  | [] :: ps' => head_entries (S n) ps'
  end.

(** The iterator has the lists [ps] left. *)
Record left_over (self : MergedTerms) (ps : list TermList) : Prop := {
  lo_sources : mt_sources self = tail <$> ps;
  lo_heads : mt_heads self = (fun p => snd <$> head p) <$> ps;
  lo_heap : mt_heap self ≡ₚ head_entries 0 ps
}.

Lemma head_entries_app n ps qs : head_entries n (ps ++ qs) = head_entries n ps ++ head_entries (n + length ps) qs.
Proof.
  revert n. induction ps as [|p ps IH]; intros n; [simpl; by rewrite Nat.add_0_r|].
  simpl. rewrite IH, Nat.add_succ_r. by destruct p as [|[k l] p].
Qed.

Lemma elem_of_head_entries n ps k i :
  (k, i) ∈ head_entries n ps <-> exists l rest, (n <= i)%nat /\ ps !! (i - n)%nat = Some ((k, l) :: rest).
Proof.
  revert n. induction ps as [|p ps IH]; intros n; simpl.
  { split; [by intros ?%elem_of_nil|]. intros (l & rest & _ & H). by rewrite lookup_nil in H. }
  assert (Hrec : (k, i) ∈ head_entries (S n) ps <-> exists l rest, (n < i)%nat /\ (p :: ps) !! (i - n)%nat = Some ((k, l) :: rest)).
  { rewrite IH. split; intros (l & rest & Hi & Hl); exists l, rest.
    - split; [lia|]. replace (i - n)%nat with (S (i - S n)) by lia. done.
    - split; [lia|]. replace (i - n)%nat with (S (i - S n)) in Hl by lia. done. }
  destruct p as [|[k' l'] p].
  - rewrite Hrec. split; intros (l & rest & Hi & Hl); exists l, rest; [split; [lia|done]|].
    split; [|done]. destruct (decide (i = n)) as [->|]; [by rewrite Nat.sub_diag in Hl|lia].
  - rewrite elem_of_cons, Hrec. split.
    + intros [[= -> ->]|(l & rest & Hi & Hl)]; [exists l', p; split; [lia|by rewrite Nat.sub_diag]|].
      exists l, rest. split; [lia|done].
    + intros (l & rest & Hi & Hl). destruct (decide (i = n)) as [->|].
      * rewrite Nat.sub_diag in Hl. injection Hl as -> _ _. by left.
      * right. exists l, rest. split; [lia|done].
Qed.

Lemma MergedTerms_new_spec sources : left_over (MergedTerms_new sources) sources.
Proof.
  unfold MergedTerms_new.
  assert (H : forall acc ps, left_over acc ps -> left_over (fold_left push_source sources acc) (ps ++ sources)).
  { induction sources as [|s ss IH]; intros acc ps [H1 H2 H3]; [by rewrite app_nil_r|]. simpl.
    replace (ps ++ s :: ss) with ((ps ++ [s]) ++ ss) by (by rewrite <-app_assoc). apply IH.
    assert (Hlen : length (mt_sources acc) = length ps) by (by rewrite H1, length_fmap).
    unfold push_source. rewrite Hlen. destruct s as [|[k l] s]; constructor; cbn [mt_sources mt_heads mt_heap];
      rewrite ?fmap_app, ?H1, ?H2, ?head_entries_app; try done; simpl.
    - by rewrite app_nil_r.
    - rewrite H3. by rewrite Permutation_app_comm. }
  by apply (H _ []).
Qed.

Lemma insert_middle {A} (l1 l2 : list A) x y n : length l1 = n -> <[n := y]> (l1 ++ x :: l2) = l1 ++ y :: l2.
Proof. intros <-. rewrite insert_app_r_alt by lia. by rewrite Nat.sub_diag. Qed.

Lemma lookup_middle {A} (l1 l2 : list A) x n : length l1 = n -> (l1 ++ x :: l2) !! n = Some x.
Proof. intros <-. rewrite lookup_app_r by lia. by rewrite Nat.sub_diag. Qed.

(** Popping an entry and advancing its source drops the head of the source. *)
Lemma advance_spec self p1 p2 k l rest heap' :
  left_over self (p1 ++ ((k, l) :: rest) :: p2) -> mt_heap self ≡ₚ (k, length p1) :: heap' ->
  exists self', mt_advance (with_heap self heap') (length p1) = (l, self') /\ left_over self' (p1 ++ rest :: p2).
Proof.
  intros [H1 H2 H3] Hh. unfold mt_advance, with_heap. cbn [mt_sources mt_heads mt_heap].
  assert (Hl1 : length (tail <$> p1) = length p1) by by rewrite length_fmap.
  assert (Hl2 : length ((fun p : TermList => snd <$> head p) <$> p1) = length p1) by by rewrite length_fmap.
  rewrite fmap_app, fmap_cons in H1. rewrite fmap_app, fmap_cons in H2. cbn [tail head fmap option_fmap option_map] in H1, H2.
  assert (Hheap : heap' ≡ₚ head_entries 0 p1 ++ head_entries (S (length p1)) p2).
  { apply (Permutation_cons_inv (a := (k, length p1))). rewrite <-Hh, H3, head_entries_app. simpl.
    symmetry. apply Permutation_middle. }
  rewrite H1, H2, (lookup_middle _ _ _ _ Hl2). cbn [mjoin option_join default from_option id].
  rewrite (lookup_middle _ _ _ _ Hl1). destruct rest as [|[k' l'] rest].
  - eexists. split; [done|]. constructor; cbn [mt_sources mt_heads mt_heap].
    + by rewrite fmap_app, fmap_cons.
    + rewrite (insert_middle _ _ _ _ _ Hl2), fmap_app, fmap_cons. done.
    + rewrite head_entries_app. done.
  - eexists. split; [done|]. constructor; cbn [mt_sources mt_heads mt_heap].
    + rewrite (insert_middle _ _ _ _ _ Hl1), fmap_app, fmap_cons. done.
    + rewrite (insert_middle _ _ _ _ _ Hl2), fmap_app, fmap_cons. done.
    + rewrite head_entries_app. simpl. rewrite Hheap. apply Permutation_middle.
Qed.

(** ** The postings of one key *)

Definition has_key (k : TermKey) (e : TermKey * PostingList) : Prop := e.1 = k.
#[local] Instance has_key_dec k e : Decision (has_key k e).
Proof. unfold has_key. apply _. Defined.

(** What a source holds for a key. *)
Definition source_items (k : TermKey) (p : TermList) : list Posting :=
  concat ((fun e => items e.2) <$> filter (has_key k) p).
Definition all_items (k : TermKey) (ps : list TermList) : list Posting := concat (source_items k <$> ps).

Definition drop_key (k : TermKey) (p : TermList) : TermList :=
  match p with e :: rest => if bool_decide (e.1 = k) then rest else p | [] => [] end.

(** [k] is below every key of the source, or its head. *)
Definition starts_at (k : TermKey) (p : TermList) : Prop := Forall (fun e => key_cle k e.1 = true) p.

Lemma source_items_none k p : Forall (fun e => key_clt k e.1) p -> source_items k p = [].
Proof.
  intros Hp. unfold source_items. rewrite filter_none; [done|]. intros e He Hk. rewrite Forall_forall in Hp.
  specialize (Hp e He). unfold has_key in Hk. rewrite Hk in Hp. by apply key_clt_irrefl in Hp.
Qed.

Lemma source_items_head k l rest : ascending_keys ((k, l) :: rest) -> source_items k ((k, l) :: rest) = items l.
Proof.
  intros Hs. apply StronglySorted_cons in Hs as [Hk _]. unfold source_items. rewrite filter_cons, decide_True by done.
  rewrite fmap_cons. cbn [concat snd]. fold (source_items k rest). rewrite source_items_none by done. apply app_nil_r.
Qed.

Lemma source_items_other k e p : e.1 <> k -> source_items k (e :: p) = source_items k p.
Proof. intros He. unfold source_items. by rewrite filter_cons, decide_False. Qed.

Lemma source_items_elem k l p : ascending_keys p -> (k, l) ∈ p -> source_items k p = items l.
Proof.
  induction 1 as [|e p Hasc IH He]; intros Hin; [by apply elem_of_nil in Hin|]. apply elem_of_cons in Hin as [<-|Hin].
  - apply source_items_head. by constructor.
  - rewrite source_items_other; [by apply IH|]. rewrite Forall_forall in He. specialize (He _ Hin). intros Hk. rewrite Hk in He. by apply key_clt_irrefl in He.
Qed.

Lemma source_items_absent k p : k ∉ p.*1 -> source_items k p = [].
Proof.
  intros Hk. unfold source_items. rewrite filter_none; [done|]. intros e He He'. apply Hk. unfold has_key in He'.
  rewrite <-He'. by apply list_elem_of_fmap_2.
Qed.

(** A sorted source that starts at [k] holds [k] at its head or not at all. *)
Lemma starts_at_cases k p :
  ascending_keys p -> starts_at k p ->
  (Forall (fun e => key_clt k e.1) p /\ drop_key k p = p) \/ (exists l rest, p = (k, l) :: rest /\ drop_key k p = rest /\ Forall (fun e => key_clt k e.1) rest).
Proof.
  intros Hs Hk. destruct p as [|[k' l] rest]; [left; by split|].
  apply StronglySorted_cons in Hs as [Hr Hs]. apply Forall_cons in Hk as [Hk _]. cbn [fst] in *. unfold drop_key. cbn [fst].
  apply key_cle_lt in Hk as [Hlt| ->].
  - left. rewrite bool_decide_eq_false_2 by (intros ->; by apply key_clt_irrefl in Hlt). split; [|done].
    constructor; [done|]. eapply Forall_impl; [exact Hr|]. intros e He. by eapply key_clt_trans.
  - right. exists l, rest. rewrite bool_decide_eq_true_2 by done. done.
Qed.

(** Sources past the key hold nothing for it. *)
Lemma past_key k ps :
  Forall (Forall (fun e => key_clt k e.1)) ps -> all_items k ps = [] /\ drop_key k <$> ps = ps.
Proof.
  induction 1 as [|p ps Hp _ [IH1 IH2]]; [done|]. unfold all_items in *. rewrite !fmap_cons. cbn [concat].
  rewrite (source_items_none _ _ Hp), IH1, IH2. split; [done|]. f_equal. destruct p as [|e p]; [done|]. cbn [drop_key].
  apply Forall_cons in Hp as [He _]. rewrite bool_decide_eq_false_2; [done|]. intros Heq. rewrite Heq in He.
  by apply key_clt_irrefl in He.
Qed.

(** The inner loop takes what the sources hold for the key, in the order of the sources. *)
Lemma pop_same_spec fuel k self p1 p2 acc :
  Forall ascending_keys (p1 ++ p2) -> Forall (starts_at k) (p1 ++ p2) ->
  Forall (Forall (fun e => key_clt k e.1)) p1 -> left_over self (p1 ++ p2) -> (length (concat p2) < fuel)%nat ->
  exists self', pop_same fuel k self acc = Some (acc ++ all_items k p2, self') /\ left_over self' (p1 ++ (drop_key k <$> p2)).
Proof.
  revert self p1 p2 acc. induction fuel as [|fuel IH]; intros self p1 p2 acc Hasc Hst Hp1 Hlo Hf; [lia|].
  (* skip the leading sources that are past the key *)
  assert (Hsplit : (Forall (Forall (fun e => key_clt k e.1)) p2) \/
    exists q1 l rest q2, p2 = q1 ++ ((k, l) :: rest) :: q2 /\ Forall (Forall (fun e => key_clt k e.1)) q1).
  { clear IH Hf Hlo acc Hp1. apply Forall_app in Hasc as [_ Hasc]. apply Forall_app in Hst as [_ Hst].
    induction p2 as [|p p2 IHp]; [by left|]. apply Forall_cons in Hasc as [Ha Hasc]. apply Forall_cons in Hst as [Hs Hst].
    destruct (starts_at_cases k p Ha Hs) as [[Hlt _]|(l & rest & -> & _)]; [|right; by exists [], l, rest, p2].
    destruct (IHp Hasc Hst) as [Hall|(q1 & l & rest & q2 & -> & Hq)]; [left; by constructor|].
    right. exists (p :: q1), l, rest, q2. split; [done|by constructor]. }
  assert (Hhead : forall key i, (key, i) ∈ mt_heap self -> exists l rest, (p1 ++ p2) !! i = Some ((key, l) :: rest)).
  { intros key i Hi. rewrite (lo_heap _ _ Hlo) in Hi. apply elem_of_head_entries in Hi as (l & rest & _ & Hl).
    rewrite Nat.sub_0_r in Hl. eauto. }
  cbn [pop_same]. destruct Hsplit as [Hall|(q1 & l & rest & q2 & -> & Hq)].
  - destruct (past_key k p2 Hall) as [-> ->]. rewrite app_nil_r. exists self. split; [|done].
    destruct (heap_pop head_leb (mt_heap self)) as [[[nk o] h']|] eqn:Hp; [|done].
    rewrite bool_decide_eq_false_2; [done|]. intros ->. apply heap_pop_spec in Hp as [Hp _]; [|apply head_leb_total|apply head_leb_trans].
    destruct (Hhead k o) as (l & rest & Hl); [rewrite Hp; left|]. apply list_elem_of_lookup_2 in Hl.
    assert (Hlt : Forall (Forall (fun e => key_clt k e.1)) (p1 ++ p2)) by (by apply Forall_app).
    rewrite Forall_forall in Hlt. specialize (Hlt _ Hl). apply Forall_cons in Hlt as [Hlt _]. by apply key_clt_irrefl in Hlt.
  - rewrite app_assoc in Hlo. destruct (heap_pop head_leb (mt_heap self)) as [[[nk o] h']|] eqn:Hp.
    2: { apply heap_pop_None in Hp. pose proof (lo_heap _ _ Hlo) as Hh. rewrite Hp, head_entries_app in Hh.
      apply Permutation_nil in Hh. by apply app_eq_nil in Hh as [_ ?]. }
    apply heap_pop_spec in Hp as [Hp Hleast]; [|apply head_leb_total|apply head_leb_trans].
    assert (Hno : nk = k /\ o = length (p1 ++ q1)).
    { assert (Hin : (k, length (p1 ++ q1)) ∈ mt_heap self).
      { rewrite (lo_heap _ _ Hlo). apply elem_of_head_entries. exists l, rest. split; [lia|].
        rewrite Nat.sub_0_r. by apply lookup_middle. }
      rewrite Hp in Hin. apply elem_of_cons in Hin as [Heq|Hin]; [by injection Heq as -> ->|].
      rewrite Forall_forall in Hleast. specialize (Hleast _ Hin). apply head_leb_spec in Hleast. cbn [fst snd] in Hleast.
      destruct (Hhead nk o) as (l' & rest' & Hl'); [rewrite Hp; left|]. rewrite app_assoc in Hl'.
      assert (Hge : key_cle k nk = true).
      { rewrite Forall_forall in Hst. rewrite app_assoc in Hst. specialize (Hst _ (list_elem_of_lookup_2 _ _ _ Hl')).
        by apply Forall_cons in Hst as [? _]. }
      apply key_cle_lt in Hge. destruct Hleast as [Hlt|[-> Hle]].
      { destruct Hge as [Hge| ->]; [|by apply key_clt_irrefl in Hlt]. exfalso. by apply (key_clt_irrefl k), (key_clt_trans _ nk). }
      split; [done|]. destruct (decide (o = length (p1 ++ q1))) as [|Hne]; [done|]. exfalso.
      rewrite lookup_app_l in Hl' by lia.
      assert (Hpast : Forall (Forall (fun e => key_clt k e.1)) (p1 ++ q1)) by (by apply Forall_app).
      rewrite Forall_forall in Hpast. specialize (Hpast _ (list_elem_of_lookup_2 _ _ _ Hl')).
      apply Forall_cons in Hpast as [Hpast _]. by apply key_clt_irrefl in Hpast. }
    destruct Hno as [-> ->]. rewrite bool_decide_eq_true_2 by done.
    destruct (advance_spec self (p1 ++ q1) q2 k l rest h' Hlo Hp) as (self1 & -> & Hlo1).
    rewrite !Forall_app, Forall_cons in Hasc, Hst. destruct Hasc as (Ha1 & Ha2 & Ha3 & Ha4). destruct Hst as (Hs1 & Hs2 & Hs3 & Hs4).
    pose proof (source_items_head k l rest Ha3) as Hitems. apply StronglySorted_cons in Ha3 as [Hpast Ha3].
    apply Forall_cons in Hs3 as [_ Hs3]. destruct (past_key k q1 Hq) as [Hq0 Hqd].
    destruct (IH self1 (p1 ++ q1 ++ [rest]) q2 (acc ++ items l)) as (self2 & E & Hlo2).
    + rewrite !Forall_app. repeat split; try done. by constructor.
    + rewrite !Forall_app. repeat split; try done. by constructor.
    + rewrite !Forall_app. repeat split; try done. by constructor.
    + by rewrite <-!app_assoc in *.
    + rewrite concat_app, length_app in Hf. cbn [concat] in Hf. rewrite length_app in Hf. simpl in Hf. lia.
    + exists self2. rewrite E. unfold all_items in *. rewrite !fmap_app, !fmap_cons, concat_app, Hq0, Hqd. cbn [concat app].
      rewrite Hitems, <-app_assoc. split; [done|]. unfold drop_key at 1. cbn [fst]. rewrite bool_decide_eq_true_2 by done.
      by rewrite <-!app_assoc in Hlo2.
Qed.

(** ** The whole sequence *)

Lemma starts_at_head k l rest p k0 :
  ascending_keys p -> p = (k, l) :: rest -> key_cle k0 k = true -> starts_at k0 p.
Proof.
  intros Hs -> Hk. apply StronglySorted_cons in Hs as [Hr _]. constructor; [done|].
  eapply Forall_impl; [exact Hr|]. intros e He. eapply key_cle_trans; [exact Hk|]. apply key_cle_lt. by left.
Qed.

(** The popped entry is the least key, at the first source that holds it. *)
Lemma popped_first self ps k i h' :
  Forall ascending_keys ps -> left_over self ps -> heap_pop head_leb (mt_heap self) = Some ((k, i), h') ->
  exists p1 l rest p2, ps = p1 ++ ((k, l) :: rest) :: p2 /\ length p1 = i /\ mt_heap self ≡ₚ (k, i) :: h' /\
    Forall (starts_at k) ps /\ Forall (Forall (fun e => key_clt k e.1)) p1.
Proof.
  intros Hasc Hlo Hp. apply heap_pop_spec in Hp as [Hp Hleast]; [|apply head_leb_total|apply head_leb_trans].
  assert (Hin : (k, i) ∈ head_entries 0 ps) by (rewrite <-(lo_heap _ _ Hlo), Hp; left).
  apply elem_of_head_entries in Hin as (l & rest & _ & Hi). rewrite Nat.sub_0_r in Hi.
  assert (Hmin : forall j k' l' rest', ps !! j = Some ((k', l') :: rest') -> key_clt k k' \/ (k = k' /\ (i <= j)%nat)).
  { intros j k' l' rest' Hj. assert (Hin' : (k', j) ∈ mt_heap self).
    { rewrite (lo_heap _ _ Hlo). apply elem_of_head_entries. exists l', rest'. rewrite Nat.sub_0_r. split; [lia|done]. }
    rewrite Hp in Hin'. apply elem_of_cons in Hin' as [[= -> ->]|Hin']; [right; split; [done|lia]|].
    rewrite Forall_forall in Hleast. by apply Hleast, head_leb_spec in Hin'. }
  assert (Hst : Forall (starts_at k) ps).
  { apply Forall_forall. intros p Hpin. apply list_elem_of_lookup in Hpin as [j Hj]. destruct p as [|[k' l'] rest'] eqn:Ep; [constructor|].
    rewrite <-Ep. eapply (starts_at_head k' l' rest'); [|done|].
    - rewrite Forall_forall in Hasc. apply Hasc. rewrite Ep. by eapply list_elem_of_lookup_2.
    - apply key_cle_lt. destruct (Hmin _ _ _ _ Hj) as [?|[-> _]]; auto. }
  pose proof (lookup_lt_Some _ _ _ Hi) as Hlen.
  exists (take i ps), l, rest, (drop (S i) ps). split_and!; [by rewrite take_drop_middle|rewrite length_take; lia|done|done|].
  apply Forall_forall. intros p Hpin. apply list_elem_of_lookup in Hpin as [j Hj]. apply lookup_take_Some in Hj as [Hj Hji].
  rewrite Forall_forall in Hst, Hasc. pose proof (list_elem_of_lookup_2 _ _ _ Hj) as Hpin.
  destruct (starts_at_cases k p (Hasc _ Hpin) (Hst _ Hpin)) as [[? _]|(l' & rest' & -> & _)]; [done|].
  destruct (Hmin _ _ _ _ Hj) as [Hlt|[_ Hle]]; [by apply key_clt_irrefl in Hlt|lia].
Qed.

Lemma drop_key_items k ps :
  Forall ascending_keys ps -> Forall (starts_at k) ps ->
  Forall ascending_keys (drop_key k <$> ps) /\ Forall (Forall (fun e => key_clt k e.1)) (drop_key k <$> ps) /\
  (forall k', k' <> k -> all_items k' (drop_key k <$> ps) = all_items k' ps).
Proof.
  induction ps as [|p ps IH]; intros Ha Hs; [done|]. apply Forall_cons in Ha as [Ha Has]. apply Forall_cons in Hs as [Hs Hss].
  destruct (IH Has Hss) as (H1 & H2 & H3). rewrite fmap_cons. unfold all_items in *.
  destruct (starts_at_cases k p Ha Hs) as [[Hlt ->]|(l & rest & -> & -> & Hlt)].
  - split_and!; [by constructor|by constructor|]. intros k' Hk. rewrite !fmap_cons. cbn [concat]. by rewrite H3.
  - apply StronglySorted_cons in Ha as [_ Ha]. split_and!; [by constructor|by constructor|].
    intros k' Hk. rewrite !fmap_cons. cbn [concat]. rewrite H3 by done. by rewrite (source_items_other k' (k, l)).
Qed.

Lemma drop_key_length k ps : (length (concat (drop_key k <$> ps)) <= length (concat ps))%nat.
Proof.
  induction ps as [|p ps IH]; [done|]. rewrite fmap_cons. cbn [concat]. rewrite !length_app.
  assert (length (drop_key k p) <= length p)%nat; [|lia]. destruct p as [|e p]; [done|]. cbn [drop_key]. case_bool_decide; simpl; lia.
Qed.

Section spec.
Context (dels : DeleteSet).

(** What the iterator yields for a key. *)
Definition merged_value (k : TermKey) (ps : list TermList) : PostingList :=
  filter_in_place dels (from_items (all_items k ps)).

Lemma merged_value_nil k ps : all_items k ps = [] -> items (merged_value k ps) = [].
Proof.
  unfold merged_value. intros ->. unfold filter_in_place. destruct (DeleteSet_is_empty dels); [done|]. done.
Qed.

Lemma mt_next_spec fuel self ps :
  Forall ascending_keys ps -> left_over self ps -> (length (concat ps) < fuel)%nat ->
  exists r self', mt_next dels fuel self = Some (r, self') /\
    match r with
    | None => forall k, items (merged_value k ps) = []
    | Some (k, l) => l = merged_value k ps /\ items l <> [] /\ exists ps', left_over self' ps' /\ Forall ascending_keys ps' /\
        (length (concat ps') < length (concat ps))%nat /\ Forall (Forall (fun e => key_clt k e.1)) ps' /\
        (forall k', key_clt k k' -> all_items k' ps' = all_items k' ps) /\
        (forall k', key_clt k' k -> items (merged_value k' ps) = [])
    end.
Proof.
  revert self ps. induction fuel as [|fuel IH]; intros self ps Hasc Hlo Hf; [lia|]. cbn [mt_next].
  destruct (heap_pop head_leb (mt_heap self)) as [[[k i] h']|] eqn:Hp.
  2: { exists None, self. split; [done|]. intros k. apply merged_value_nil. apply heap_pop_None in Hp.
    pose proof (lo_heap _ _ Hlo) as Hh. rewrite Hp in Hh. apply Permutation_nil in Hh. clear -Hh. revert Hh. generalize 0%nat.
    induction ps as [|p ps IHp]; intros n Hh; [done|]. destruct p as [|[k' l] p]; [|done]. unfold all_items in *. rewrite fmap_cons. cbn [concat].
    rewrite (IHp (S n)) by done. done. }
  destruct (popped_first _ _ _ _ _ Hasc Hlo Hp) as (p1 & l & rest & p2 & -> & <- & Hh & Hst & Hp1).
  destruct (advance_spec _ _ _ _ _ _ _ Hlo Hh) as (self1 & -> & Hlo1).
  destruct (drop_key_items k _ Hasc Hst) as (Hasc' & Hpast' & Hother).
  pose proof (proj1 (Forall_app _ _ _) Hasc) as [Ha1 Ha2]. apply Forall_cons in Ha2 as [Ha2 Ha3].
  pose proof (proj1 (Forall_app _ _ _) Hst) as [Hs1 Hs2]. apply Forall_cons in Hs2 as [Hs2 Hs3].
  pose proof (source_items_head k l rest Ha2) as Hitems. apply StronglySorted_cons in Ha2 as [Hrest Ha2]. apply Forall_cons in Hs2 as [_ Hs2].
  destruct (past_key k p1 Hp1) as [Hi1 Hd1].
  rewrite concat_app, length_app in Hf. cbn [concat] in Hf. rewrite length_app in Hf. cbn [length] in Hf.
  destruct (pop_same_spec (S fuel) k self1 (p1 ++ [rest]) p2 (items l)) as (self2 & -> & Hlo2).
  { rewrite !Forall_app. repeat split; try done. by constructor. }
  { rewrite !Forall_app. repeat split; try done. by constructor. }
  { rewrite !Forall_app. repeat split; try done. by constructor. }
  { by rewrite <-app_assoc. }
  { lia. }
  assert (Hall : items l ++ all_items k p2 = all_items k (p1 ++ ((k, l) :: rest) :: p2)).
  { unfold all_items in *. rewrite fmap_app, fmap_cons, concat_app, Hi1. cbn [concat app]. by rewrite Hitems. }
  assert (Hps' : (p1 ++ [rest]) ++ (drop_key k <$> p2) = drop_key k <$> (p1 ++ ((k, l) :: rest) :: p2)).
  { rewrite fmap_app, fmap_cons, Hd1, <-app_assoc. cbn [app]. do 2 f_equal. cbn [drop_key fst]. by rewrite bool_decide_eq_true_2. }
  rewrite Hall, Hps' in *. fold (merged_value k (p1 ++ ((k, l) :: rest) :: p2)).
  set (ps := p1 ++ ((k, l) :: rest) :: p2) in *.
  assert (Hlen : (length (concat (drop_key k <$> ps)) < length (concat ps))%nat).
  { rewrite <-Hps'. unfold ps. rewrite !concat_app, !length_app. cbn [concat]. rewrite !length_app. cbn [length].
    pose proof (drop_key_length k p2). simpl. lia. }
  assert (Hsmall : forall k', key_clt k' k -> all_items k' ps = []).
  { intros k' Hk'. apply past_key. eapply Forall_impl; [exact Hst|]. intros p Hpk. eapply Forall_impl; [exact Hpk|].
    intros e He. apply key_cle_lt in He as [He|<-]; [by eapply key_clt_trans|done]. }
  assert (Hlenf : (length (concat ps) <= fuel)%nat).
  { unfold ps. rewrite concat_app, length_app. cbn [concat]. rewrite length_app. cbn [length]. lia. }
  destruct (Nat.eqb_spec (length (items (merged_value k ps))) 0) as [H0|H0].
  - apply length_zero_iff_nil in H0. destruct (IH self2 (drop_key k <$> ps) Hasc' Hlo2 ltac:(lia)) as (r & self3 & -> & Hr).
    exists r, self3. split; [done|].
    assert (Hval : forall k', items (merged_value k' (drop_key k <$> ps)) = items (merged_value k' ps)).
    { intros k'. destruct (decide (k' = k)) as [->|Hne]; [|unfold merged_value; by rewrite Hother].
      rewrite H0. apply merged_value_nil. by apply past_key. }
    destruct r as [[k2 l2]|]; [|intros k'; by rewrite <-Hval].
    destruct Hr as (-> & Hne & ps' & H1 & H2 & H3 & H4 & H5 & H6).
    assert (Hk2 : key_clt k k2).
    { apply key_cle_false. apply not_true_iff_false. intros Hle. apply Hne. apply merged_value_nil, past_key.
      eapply Forall_impl; [exact Hpast'|]. intros p Hpk. eapply Forall_impl; [exact Hpk|]. intros e He.
      apply key_cle_lt in Hle as [Hle|<-]; [by eapply key_clt_trans|done]. }
    assert (Hne2 : k2 <> k) by (intros ->; by apply key_clt_irrefl in Hk2).
    split; [unfold merged_value; by rewrite Hother|]. split; [done|]. exists ps'. split_and!; [done|done|lia|done| |].
    + intros k' Hk'. rewrite H5 by done. apply Hother. intros ->. by apply (key_clt_irrefl k), (key_clt_trans _ k2).
    + intros k' Hk'. rewrite <-Hval. by apply H6.
  - exists (Some (k, merged_value k ps)), self2. split; [done|]. split; [done|]. split; [intros Hz; by rewrite Hz in H0|].
    exists (drop_key k <$> ps). split_and!; [done|done|done|done| |].
    + intros k' Hk'. apply Hother. intros ->. by apply key_clt_irrefl in Hk'.
    + intros k' Hk'. apply merged_value_nil. by apply Hsmall.
Qed.

Lemma mt_collect_spec fuel self ps :
  Forall ascending_keys ps -> left_over self ps -> (length (concat ps) < fuel)%nat ->
  exists out, mt_collect dels fuel self = Some out /\ ascending_keys out /\
    (forall k l, (k, l) ∈ out <-> l = merged_value k ps /\ items l <> []).
Proof.
  revert self ps. induction fuel as [|fuel IH]; intros self ps Hasc Hlo Hf; [lia|].
  destruct (mt_next_spec (S fuel) self ps Hasc Hlo Hf) as (r & self' & Hn & Hr).
  cbn [mt_collect]. rewrite Hn. destruct r as [[k l]|].
  2: { exists []. split_and!; [done|constructor|]. intros k l. split; [by intros ?%elem_of_nil|].
    intros [-> Hne]. by rewrite Hr in Hne. }
  destruct Hr as (-> & Hne & ps' & Hlo' & Hasc' & Hlen & Hpast & Hgt & Hlt).
  destruct (IH self' ps' Hasc' Hlo' ltac:(lia)) as (out & -> & Hs & Hin). exists ((k, merged_value k ps) :: out).
  assert (Hout : forall k' l', (k', l') ∈ out -> key_clt k k').
  { intros k' l' [-> Hne']%Hin. apply key_cle_false, not_true_iff_false. intros Hle. apply Hne'. apply merged_value_nil, past_key.
    eapply Forall_impl; [exact Hpast|]. intros p Hp. eapply Forall_impl; [exact Hp|]. intros e He.
    apply key_cle_lt in Hle as [?|<-]; [by eapply key_clt_trans|done]. }
  split_and!; [done| |].
  - constructor; [done|]. apply Forall_forall. intros [k' l'] H'. by eapply Hout.
  - intros k' l'. rewrite elem_of_cons. split.
    + intros [[= -> ->]|H']; [done|]. pose proof (Hout _ _ H') as Hk. apply Hin in H' as [-> H'].
      unfold merged_value in *. by rewrite (Hgt _ Hk) in *.
    + intros [-> Hne']. destruct (key_cle k' k) eqn:Hle.
      * apply key_cle_lt in Hle as [Hle|<-]; [by rewrite (Hlt _ Hle) in Hne'|by left].
      * apply key_cle_false in Hle. right. apply Hin. unfold merged_value in *. by rewrite (Hgt _ Hle).
Qed.

(** The merge of sorted sources yields the keys in order, each once, with the union of what the
    sources hold for it, and skips keys without live postings. *)
Lemma merged_terms_spec sources :
  Forall ascending_keys sources ->
  mt_collect dels (S (length (concat sources))) (MergedTerms_new sources) = Some (merged_terms dels sources) /\
  ascending_keys (merged_terms dels sources) /\
  (forall k l, (k, l) ∈ merged_terms dels sources <-> l = merged_value k sources /\ items l <> []).
Proof.
  intros Hasc. unfold merged_terms.
  destruct (mt_collect_spec (S (length (concat sources))) (MergedTerms_new sources) sources Hasc
    (MergedTerms_new_spec sources) ltac:(lia)) as (out & -> & Hs & Hin).
  done.
Qed.
End spec.
