(* ===== verification/Compaction.v ===== *)
(** * Compaction of segments

    Models [compact_segments_streaming] of [crates/core-index/src/lsm/compaction.rs] and
    [segment/handle.rs]: the selected segments are opened, their lengths, numeric values, boolean
    fields and array rows merged without the deleted documents, their terms merged by
    [MergedTerms], and the result written as one segment file. The merge of the vector files is
    not modelled.

    A segment file is named by the number in [segment-<n>.idx]; the files are a map from numbers
    to bytes. *)
From Stdlib Require Import ZArith Lia.
From stdpp Require Import base numbers list gmap sorting strings.
From S2P Require Import Prelude Types Posting PostingOps Numeric ArrayRows Wildcard Btree Segment TermDict MemIndex DocLengths SegmentFile SegmentRead SegmentRoundtrip SegmentDisk MergedTerms.
Local Open Scope io_scope.
Local Open Scope Z_scope.

Inductive SegmentHandle : Type := HMemory (segment : ImmutableSegment) | HDisk (path : Z).

Definition not_found : io_error := IoError NotFound "no such file".

Section compaction.
Context {FL : FstLib} {RL : RoaringLib}.

Inductive OpenSegment : Type := OpenDisk (d : DiskSegment) | OpenMemory (m : ImmutableSegment).

Definition os_doc_lengths (self : OpenSegment) : list ((DocId * XPathId) * Z) :=
  match self with
  | OpenDisk d => dl_iter (ds_doc_lengths d)
  | OpenMemory m => btree_iter (seg_doc_lengths m)
  end.
Definition os_numeric_fields (self : OpenSegment) : gmap Z NumericField :=
  match self with OpenDisk d => ds_numeric_fields d | OpenMemory m => seg_numeric_fields m end.
Definition os_bool_fields (self : OpenSegment) : gmap Z BoolField :=
  match self with OpenDisk d => ds_bool_fields d | OpenMemory m => seg_bool_fields m end.
Definition os_iter_terms (self : OpenSegment) : list (TermKey * PostingList) :=
  match self with OpenDisk d => iter_terms d | OpenMemory m => btree_iter (seg_terms m) end.
Definition os_array_row_index (self : OpenSegment) : ArrayRowIndex :=
  match self with OpenDisk d => ds_array_row_index d | OpenMemory m => seg_array_row_index m end.

(** [DiskSegment::open]. *)
Definition open_path (files : gmap Z (list Z)) (path : Z) : io_result DiskSegment :=
  let! bytes := io_of_option not_found (files !! path) in open_segment bytes.

Fixpoint open_handles (files : gmap Z (list Z)) (handles : list SegmentHandle) : io_result (list OpenSegment) :=
  match handles with
  | [] => Ok []
  | handle :: handles' =>
    let! segment := match handle with
                    | HDisk path => let! d := open_path files path in Ok (OpenDisk d)
                    | HMemory segment => Ok (OpenMemory segment)
                    end in
    let! rest := open_handles files handles' in
    Ok (segment :: rest)
  end.

Section merge.
Context (dels : DeleteSet).

Definition merge_length (merged : gmap (Z * Z) Z) (e : (DocId * XPathId) * Z) : gmap (Z * Z) Z :=
  if is_deleted dels e.1.1 then merged else <[e.1 := e.2]> merged.
Definition merged_doc_lengths (opened : list OpenSegment) : gmap (Z * Z) Z :=
  fold_left (fun merged segment => fold_left merge_length (os_doc_lengths segment) merged) opened ∅.

Definition merge_point (xpath : XPathId) (kind : NumericKind) (points : NumericPoints) (e : DocId * Z) : NumericPoints :=
  if is_deleted dels e.1 then points else np_insert points xpath (unpack e.2 kind) e.1.
Definition merge_numeric_field (points : NumericPoints) (e : XPathId * NumericField) : NumericPoints :=
  let dv := nf_doc_values e.2 in fold_left (merge_point e.1 (dv_kind dv)) (dv_entries dv) points.
Definition merged_points (opened : list OpenSegment) : NumericPoints :=
  fold_left (fun points segment => fold_left merge_numeric_field (btree_iter (os_numeric_fields segment)) points) opened ∅.

(** [for id in ids { if !deleted.contains(id) { slot.insert(id) } }], ascending. *)
Definition keep_ids (slot ids : gset Z) : gset Z :=
  fold_left (fun slot id => if is_deleted dels id then slot else slot ∪ {[id]}) (elements ids) slot.
Definition merge_bool_field (merged : gmap Z BoolField) (e : XPathId * BoolField) : gmap Z BoolField :=
  let slot := default BoolField_default (merged !! e.1) in
  <[e.1 := mkBoolField (keep_ids (true_ids slot) (true_ids e.2)) (keep_ids (false_ids slot) (false_ids e.2))]> merged.
Definition merged_bool_fields (opened : list OpenSegment) : gmap Z BoolField :=
  fold_left (fun merged segment => fold_left merge_bool_field (btree_iter (os_bool_fields segment)) merged) opened ∅.

Definition merged_array_rows (opened : list OpenSegment) : ArrayRowIndex :=
  fold_left (fun merged segment => rows_merge_from merged (os_array_row_index segment)) opened (ArrayRowIndex_new 0).
End merge.

(** The bytes of the output file. *)
Definition compact_segments_streaming (files : gmap Z (list Z)) (handles : list SegmentHandle) (dels : DeleteSet)
    : io_result (list Z) :=
  let! opened := open_handles files handles in
  write_merged_segment_to [] (merged_terms dels (os_iter_terms <$> opened)) (merged_doc_lengths dels opened)
    (np_build (merged_points dels opened)) (merged_array_rows opened) (merged_bool_fields dels opened).
End compaction.

(** ** The merges of one segment's part *)

Section folds.
Context (dels : DeleteSet).

Lemma fold_merge_length l m k :
  NoDup l.*1 ->
  fold_left (merge_length dels) l m !! k =
  if is_deleted dels k.1 then m !! k
  else match (list_to_map l : gmap (Z * Z) Z) !! k with Some len => Some len | None => m !! k end.
Proof.
  revert m. induction l as [|[k' len] l IH]; intros m Hnd; cbn [fold_left]; [by destruct (is_deleted _ _)|].
  apply NoDup_cons in Hnd as [Hk Hnd]. rewrite list_to_map_cons, IH by done. unfold merge_length. cbn [fst snd].
  destruct (decide (k' = k)) as [->|Hne].
  - rewrite lookup_insert_eq. destruct (is_deleted dels k.1) eqn:E; [done|].
    rewrite lookup_insert_eq. by rewrite not_elem_of_list_to_map_1.
  - rewrite lookup_insert_ne by done. by destruct (is_deleted dels k'.1); rewrite ?lookup_insert_ne.
Qed.

Definition bools_of (fields : gmap Z BoolField) (x : XPathId) : BoolField := default BoolField_default (fields !! x).

Lemma elem_of_keep_ids slot ids d : d ∈ keep_ids dels slot ids <-> d ∈ slot \/ (d ∈ ids /\ d ∉ deleted dels).
Proof.
  unfold keep_ids. assert (Hel : d ∈ ids <-> d ∈ elements ids) by set_solver. rewrite Hel. clear Hel. revert slot.
  induction (elements ids) as [|e l IH]; intros slot; cbn [fold_left]; [set_solver|]. rewrite IH. unfold is_deleted. case_bool_decide; set_solver.
Qed.

Lemma fold_merge_bool l m x :
  NoDup l.*1 ->
  forall d, let b := bools_of (fold_left (merge_bool_field dels) l m) x in let c := bools_of (list_to_map l) x in
  (d ∈ true_ids b <-> d ∈ true_ids (bools_of m x) \/ (d ∈ true_ids c /\ d ∉ deleted dels)) /\
  (d ∈ false_ids b <-> d ∈ false_ids (bools_of m x) \/ (d ∈ false_ids c /\ d ∉ deleted dels)).
Proof.
  revert m. induction l as [|[x' f] l IH]; intros m Hnd d; cbv zeta; cbn [fold_left].
  - unfold bools_of at 3 6. cbn. set_solver.
  - apply NoDup_cons in Hnd as [Hx Hnd]. destruct (IH (merge_bool_field dels m (x', f)) Hnd d) as [-> ->].
    rewrite list_to_map_cons. unfold bools_of, merge_bool_field in *. cbn [fst snd]. destruct (decide (x' = x)) as [->|Hne].
    + rewrite !lookup_insert_eq, (not_elem_of_list_to_map_1 l) by done. cbn. rewrite !elem_of_keep_ids. set_solver.
    + by rewrite !lookup_insert_ne.
Qed.

Definition nf_values (f : NumericField) (d : DocId) : list NumericValue :=
  (fun e => unpack e.2 (dv_kind (nf_doc_values f))) <$> filter (fun e => e.1 = d) (dv_entries (nf_doc_values f)).
Definition values_in (fields : gmap Z NumericField) (x : XPathId) (d : DocId) : list NumericValue :=
  match fields !! x with Some f => nf_values f d | None => [] end.

Lemma fold_merge_point x kind l np x' d :
  np_wf np ->
  let np' := fold_left (merge_point dels x kind) l np in
  np_wf np' /\
  np_values np' x' d = np_values np x' d ++
    (if (x' =? x) && negb (is_deleted dels d) then (fun e => unpack e.2 kind) <$> filter (fun e => e.1 = d) l else []).
Proof.
  revert np. induction l as [|[d' p] l IH]; intros np Hwf; cbv zeta; cbn [fold_left].
  - split; [done|]. destruct (_ && _); simpl; by rewrite app_nil_r.
  - assert (Hi : np_wf (merge_point dels x kind np (d', p)) /\ np_values (merge_point dels x kind np (d', p)) x' d =
      np_values np x' d ++ (if (x' =? x) && negb (is_deleted dels d) && (d' =? d) then [unpack p kind] else [])).
    { unfold merge_point. cbn [fst snd]. destruct (Z.eqb_spec d' d) as [->|Hne].
      - destruct (is_deleted dels d); simpl; [by rewrite andb_false_r, app_nil_r|].
        destruct (np_insert_spec np x (unpack p kind) d Hwf) as [Hw Hv]. split; [done|]. by rewrite Hv, Z.eqb_refl, !andb_true_r.
      - rewrite andb_false_r, app_nil_r. destruct (is_deleted dels d'); [done|].
        destruct (np_insert_spec np x (unpack p kind) d' Hwf) as [Hw Hv]. split; [done|].
        rewrite Hv. destruct (Z.eqb_spec d d'); [congruence|]. by rewrite andb_false_r, app_nil_r. }
    destruct Hi as [Hw Hv]. destruct (IH _ Hw) as [Hw' ->]. split; [done|]. rewrite Hv, <-app_assoc. f_equal.
    rewrite filter_cons. cbn [fst]. destruct ((x' =? x) && negb (is_deleted dels d)); [|done].
    destruct (Z.eqb_spec d' d) as [->|Hne]; [by rewrite decide_True|by rewrite decide_False].
Qed.

Lemma fold_merge_numeric l np x d :
  NoDup l.*1 -> np_wf np ->
  let np' := fold_left (merge_numeric_field dels) l np in
  np_wf np' /\
  np_values np' x d = np_values np x d ++ (if is_deleted dels d then [] else values_in (list_to_map l) x d).
Proof.
  revert np. induction l as [|[x' f] l IH]; intros np Hnd Hwf; cbv zeta; cbn [fold_left].
  - split; [done|]. destruct (is_deleted dels d); by rewrite app_nil_r.
  - apply NoDup_cons in Hnd as [Hx Hnd]. unfold merge_numeric_field at 2 4. cbn [fst snd].
    destruct (fold_merge_point x' (dv_kind (nf_doc_values f)) (dv_entries (nf_doc_values f)) np x d Hwf) as [Hw Hv].
    destruct (IH _ Hnd Hw) as [Hw' ->]. split; [done|]. rewrite Hv, <-app_assoc. f_equal.
    rewrite list_to_map_cons. unfold values_in. destruct (Z.eqb_spec x x') as [->|Hne].
    + rewrite lookup_insert_eq, (not_elem_of_list_to_map_1 l) by done. destruct (is_deleted dels d); [done|]. apply app_nil_r.
    + by rewrite lookup_insert_ne.
Qed.

End folds.

(** ** What a merge holds *)

Section spec.
Context {FL : FstLib} {FLaws : FstLaws} {RL : RoaringLib} {RLaws : RoaringLaws}.

(** An opened segment has the contents of [s]. *)
Record opens_as (os : OpenSegment) (s : ImmutableSegment) : Prop := {
  oa_terms : os_iter_terms os = btree_iter (seg_terms s);
  oa_lengths : os_doc_lengths os ≡ₚ btree_iter (seg_doc_lengths s);
  oa_numeric : os_numeric_fields os = seg_numeric_fields s;
  oa_bool : os_bool_fields os = seg_bool_fields s;
  oa_rows : os_array_row_index os = seg_array_row_index s
}.

Lemma opens_as_memory s : opens_as (OpenMemory s) s.
Proof. by constructor. Qed.

Lemma opens_as_disk s ds : segment_ok s -> opened_from s ds -> opens_as (OpenDisk ds) s.
Proof using FLaws RLaws.
  intros Hs Ho. constructor; cbn [os_iter_terms os_doc_lengths os_numeric_fields os_bool_fields os_array_row_index].
  - by apply iter_terms_ok.
  - rewrite (of_lengths _ _ Ho). apply dl_iter_perm, lengths_ok_btree, Hs.
  - apply Ho.
  - apply Ho.
  - apply Ho.
Qed.

Lemma NoDup_lengths os s : opens_as os s -> NoDup (os_doc_lengths os).*1.
Proof. intros Ho. rewrite (oa_lengths _ _ Ho). apply ascending_NoDup, btree_iter_ascending. Qed.

Section merged.
Context (dels : DeleteSet) (opened : list OpenSegment) (ss : list ImmutableSegment).
Context (Hopen : Forall2 opens_as opened ss).

(** The segment a compaction writes. *)
Definition merged_segment : ImmutableSegment :=
  ImmutableSegment_new (list_to_map (merged_terms dels (os_iter_terms <$> opened))) (merged_doc_lengths dels opened)
    (build_field_stats (btree_iter (merged_doc_lengths dels opened))) (np_build (merged_points dels opened))
    (merged_bool_fields dels opened) (merged_array_rows opened).

Lemma sources_ascending : Forall ascending_keys (os_iter_terms <$> opened).
Proof using Hopen.
  induction Hopen as [|os s oss ss' Ho Hrest IH]; [constructor|]; specialize (IH Hrest). rewrite fmap_cons. constructor; [|exact IH].
  rewrite (oa_terms _ _ Ho). apply btree_iter_ascending.
Qed.

(** What the sources hold for a term is what the segments answer. *)
Lemma sources_items t x :
  all_items (TermKey_new t x) (os_iter_terms <$> opened) = concat ((fun s => items (seg_lookup_or_empty s t x)) <$> ss).
Proof using Hopen.
  unfold all_items. induction Hopen as [|os s oss ss' Ho Hrest IH]; [done|]; specialize (IH Hrest). rewrite !fmap_cons. cbn [concat]. rewrite IH. f_equal.
  rewrite (oa_terms _ _ Ho). unfold seg_lookup_or_empty, seg_lookup.
  destruct (seg_terms s !! TermKey_new t x) as [l|] eqn:El; cbn [default from_option id].
  - apply source_items_elem; [apply btree_iter_ascending|by apply elem_of_btree_iter].
  - apply source_items_absent. intros ((k & l) & Hk & Hin)%list_elem_of_fmap. apply elem_of_btree_iter in Hin. simpl in Hk. congruence.
Qed.

Lemma merged_segment_terms k l :
  seg_terms merged_segment !! k = Some l <-> l = merged_value dels k (os_iter_terms <$> opened) /\ items l <> [].
Proof using Hopen.
  destruct (merged_terms_spec dels _ sources_ascending) as (_ & Hasc & Hin). rewrite <-Hin.
  unfold merged_segment. cbn [seg_terms ImmutableSegment_new]. symmetry. apply elem_of_list_to_map. by apply ascending_NoDup.
Qed.

(** The term lookups of the merged segment. *)
Lemma merged_segment_lookup t x :
  items (seg_lookup_or_empty merged_segment t x) =
  filter (fun p => doc_id p ∉ deleted dels) (items (from_items (concat ((fun s => items (seg_lookup_or_empty s t x)) <$> ss)))).
Proof using Hopen.
  assert (Hv : items (merged_value dels (TermKey_new t x) (os_iter_terms <$> opened)) =
    filter (fun p => doc_id p ∉ deleted dels) (items (from_items (concat ((fun s => items (seg_lookup_or_empty s t x)) <$> ss))))).
  { unfold merged_value. rewrite sources_items. unfold filter_in_place, DeleteSet_is_empty. case_bool_decide as He.
    - symmetry. apply filter_all, Forall_forall. intros p _. rewrite He. apply not_elem_of_empty.
    - cbn [retain items]. apply list_filter_iff. intros p. unfold is_deleted. by rewrite negb_true_iff, bool_decide_eq_false. }
  rewrite <-Hv. unfold seg_lookup_or_empty, seg_lookup.
  destruct (seg_terms merged_segment !! TermKey_new t x) as [l|] eqn:El; cbn [default from_option id].
  - apply merged_segment_terms in El as [-> _]. done.
  - destruct (items (merged_value dels (TermKey_new t x) (os_iter_terms <$> opened))) eqn:Ei; [done|].
    assert (Hs : seg_terms merged_segment !! TermKey_new t x = Some (merged_value dels (TermKey_new t x) (os_iter_terms <$> opened))).
    { apply merged_segment_terms. by rewrite Ei. }
    congruence.
Qed.

(** *** Field lengths: the last segment that knows a length wins *)

Definition last_length (k : DocId * XPathId) (acc : option Z) (s : ImmutableSegment) : option Z :=
  match seg_doc_lengths s !! k with Some len => Some len | None => acc end.

Lemma merged_doc_lengths_lookup k :
  merged_doc_lengths dels opened !! k = if is_deleted dels k.1 then None else fold_left (last_length k) ss None.
Proof using Hopen.
  unfold merged_doc_lengths. change None with ((∅ : gmap (Z * Z) Z) !! k). generalize (∅ : gmap (Z * Z) Z) as m.
  clear - Hopen. induction Hopen as [|os s oss ss' Ho Hrest IH]; intros m; cbn [fold_left]; [by destruct (is_deleted _ _)|].
  rewrite (IH Hrest). rewrite fold_merge_length.
  - unfold last_length at 3. rewrite (list_to_map_proper _ _ (NoDup_lengths _ _ Ho) (oa_lengths _ _ Ho)).
    rewrite list_to_map_btree_iter. by destruct (is_deleted dels k.1).
  - apply (NoDup_lengths _ _ Ho).
Qed.

(** *** Boolean fields: the union, without the deleted documents *)

Lemma merged_bool_ids x d :
  let b := bools_of (merged_bool_fields dels opened) x in
  (d ∈ true_ids b <-> (d ∉ deleted dels) /\ (exists s, s ∈ ss /\ d ∈ true_ids (bools_of (seg_bool_fields s) x))) /\
  (d ∈ false_ids b <-> (d ∉ deleted dels) /\ (exists s, s ∈ ss /\ d ∈ false_ids (bools_of (seg_bool_fields s) x))).
Proof using FLaws RL RLaws Hopen.
  cbv zeta. unfold merged_bool_fields.
  assert (Hg : forall m, let b := bools_of (fold_left (fun m os => fold_left (merge_bool_field dels) (btree_iter (os_bool_fields os)) m) opened m) x in
    (d ∈ true_ids b <-> d ∈ true_ids (bools_of m x) \/
       ((d ∉ deleted dels) /\ (exists s, s ∈ ss /\ d ∈ true_ids (bools_of (seg_bool_fields s) x)))) /\
    (d ∈ false_ids b <-> d ∈ false_ids (bools_of m x) \/
       ((d ∉ deleted dels) /\ (exists s, s ∈ ss /\ d ∈ false_ids (bools_of (seg_bool_fields s) x))))).
  { induction Hopen as [|os s oss ss' Ho Hrest IH]; intros m; cbv zeta; cbn [fold_left]; [set_solver|].
    destruct (IH Hrest (fold_left (merge_bool_field dels) (btree_iter (os_bool_fields os)) m)) as [-> ->].
    destruct (fold_merge_bool dels (btree_iter (os_bool_fields os)) m x (ascending_NoDup _ (btree_iter_ascending _)) d) as [-> ->].
    rewrite list_to_map_btree_iter, (oa_bool _ _ Ho). split; set_solver. }
  destruct (Hg ∅) as [-> ->]. unfold bools_of at 1 3. cbn. set_solver.
Qed.

(** *** Numeric values: every value of a live document, in the order of the segments *)

Lemma merged_points_values x d :
  np_wf (merged_points dels opened) /\
  np_values (merged_points dels opened) x d =
  if is_deleted dels d then [] else concat ((fun s => values_in (seg_numeric_fields s) x d) <$> ss).
Proof using Hopen.
  unfold merged_points.
  assert (Hg : forall np, np_wf np ->
    let np' := fold_left (fun np os => fold_left (merge_numeric_field dels) (btree_iter (os_numeric_fields os)) np) opened np in
    np_wf np' /\ np_values np' x d = np_values np x d ++
      (if is_deleted dels d then [] else concat ((fun s => values_in (seg_numeric_fields s) x d) <$> ss))).
  { induction Hopen as [|os s oss ss' Ho Hrest IH]; intros np Hwf; cbv zeta; cbn [fold_left].
    - split; [done|]. destruct (is_deleted dels d); by rewrite app_nil_r.
    - destruct (fold_merge_numeric dels (btree_iter (os_numeric_fields os)) np x d (ascending_NoDup _ (btree_iter_ascending _)) Hwf) as [Hw Hv].
      destruct (IH Hrest _ Hw) as [Hw' ->]. split; [done|]. rewrite Hv, <-app_assoc, fmap_cons. f_equal.
      rewrite list_to_map_btree_iter, (oa_numeric _ _ Ho). by destruct (is_deleted dels d). }
  apply Hg. intros y pts Hy. by rewrite lookup_empty in Hy.
Qed.

Lemma merged_rows : merged_array_rows opened = fold_left rows_merge_from (seg_array_row_index <$> ss) (ArrayRowIndex_new 0).
Proof using Hopen.
  unfold merged_array_rows. generalize (ArrayRowIndex_new 0).
  induction Hopen as [|os s oss ss' Ho Hrest IH]; intros rows; [done|]. rewrite fmap_cons. cbn [fold_left].
  by rewrite (IH Hrest), (oa_rows _ _ Ho).
Qed.

(** The streamed file is the file of the merged segment. *)
Lemma write_merged_eq :
  write_merged_segment_to [] (merged_terms dels (os_iter_terms <$> opened)) (merged_doc_lengths dels opened)
    (np_build (merged_points dels opened)) (merged_array_rows opened) (merged_bool_fields dels opened) =
  write_segment_to [] merged_segment.
Proof using Hopen.
  destruct (merged_terms_spec dels _ sources_ascending) as (_ & Hasc & _).
  unfold write_merged_segment_to, write_segment_to, merged_segment, ImmutableSegment_new.
  cbn [seg_terms seg_doc_lengths seg_numeric_fields seg_doc_id_range seg_array_row_index seg_bool_fields].
  by rewrite btree_iter_list_to_map.
Qed.
End merged.

(** A handle whose segment holds [s]: in memory, or in a file that was written from it. *)
Definition handle_holds (files : gmap Z (list Z)) (h : SegmentHandle) (s : ImmutableSegment) : Prop :=
  match h with
  | HMemory m => m = s
  | HDisk path => segment_ok s /\ exists bytes, write_segment_to [] s = Ok bytes /\ files !! path = Some bytes
  end.

Lemma open_handles_ok files handles ss :
  Forall2 (handle_holds files) handles ss ->
  exists opened, open_handles files handles = Ok opened /\ Forall2 opens_as opened ss.
Proof using FLaws RLaws.
  induction 1 as [|h s hs ss Hh _ (opened & E & IH)]; [by exists []|]. cbn [open_handles]. rewrite E.
  destruct h as [m|path]; cbn [handle_holds] in Hh.
  - subst m. exists (OpenMemory s :: opened). split; [done|]. constructor; [apply opens_as_memory|done].
  - destruct Hh as [Hs (bytes & Hw & Hf)]. destruct (write_open_ok s Hs) as (bytes' & ds & Hw' & Hd & Ho).
    assert (bytes' = bytes) as -> by congruence. exists (OpenDisk ds :: opened). split.
    + unfold open_path. rewrite Hf. cbn [io_of_option io_bind]. by rewrite Hd.
    + constructor; [by apply opens_as_disk|done].
Qed.

(** The output is the file of the merged segment. *)
Lemma compact_run files handles ss dels :
  Forall2 (handle_holds files) handles ss ->
  (forall opened, open_handles files handles = Ok opened -> segment_ok (merged_segment dels opened)) ->
  exists opened bytes, Forall2 opens_as opened ss /\ segment_ok (merged_segment dels opened) /\
    compact_segments_streaming files handles dels = Ok bytes /\ write_segment_to [] (merged_segment dels opened) = Ok bytes.
Proof using FLaws RLaws.
  intros Hh Hok. destruct (open_handles_ok _ _ _ Hh) as (opened & Ho & Hopen). specialize (Hok opened Ho).
  destruct (write_open_ok _ Hok) as (bytes & ds & Hw & _). exists opened, bytes.
  unfold compact_segments_streaming. rewrite Ho. cbn [io_bind]. by rewrite (write_merged_eq dels opened ss Hopen).
Qed.

Lemma merged_segment_wf dels opened ss k l :
  Forall2 opens_as opened ss -> seg_terms (merged_segment dels opened) !! k = Some l -> wf_list l.
Proof.
  intros Hopen Hk. apply (merged_segment_terms dels opened ss Hopen) in Hk as [-> _]. unfold merged_value, filter_in_place.
  pose proof (from_items_wf (all_items k (os_iter_terms <$> opened))) as [Hs Hw]. case_match; [done|]. split; cbn [retain items max_weight].
  - by apply filter_ascending.
  - apply Forall_forall. intros p [_ Hp]%list_elem_of_filter. rewrite Forall_forall in Hw. by apply Hw.
Qed.

End spec.

(** A file with document 7 and a memory segment with the deleted document 8. *)
Module CompactionExample.
#[local] Existing Instance Toy.fst_lib.
#[local] Existing Instance Toy.fst_laws.
#[local] Existing Instance Toy.roaring_lib.
#[local] Existing Instance Toy.roaring_laws.

Definition newer : ImmutableSegment :=
  ImmutableSegment_new {[ TermKey_new [104; 105] 1 := mkPostingList [mkPosting 8 [16; 32] 4] 4 ]} {[ (8, 1) := 9 ]}
    (build_field_stats [((8, 1), 9)]) ∅ {[ 3 := mkBoolField ∅ {[ 8 ]} ]} (ArrayRowIndex_new 0).
Definition files : gmap Z (list Z) := {[ 1 := match write_segment_to [] Toy.segment with Ok bytes => bytes | Err _ => [] end ]}.

End CompactionExample.
