(* ===== verification/CompactionPlan.v ===== *)
(** * Which segments a compaction merges

    Models the window searches of [crates/core-index/src/lsm/manager.rs] ([merge_all_due],
    [tiered_window], [cheapest_window]) and [CompactionConfig] of [lsm/compaction.rs]. The sizes are
    those of the segments in order, [None] for a segment in memory. *)
From Stdlib Require Import ZArith Lia.
From stdpp Require Import base numbers list.
From S2P Require Import Prelude.
Local Open Scope Z_scope.

Record CompactionConfig : Type := mkConfig {
  max_segments_per_compaction : nat;
  compact_when_segments_at_least : nat;
  size_ratio : Z;
  min_width : nat;
  max_segments : nat;
  idle_merge_after : Z
}.
(** Durations in milliseconds. *)
Definition CompactionConfig_default : CompactionConfig := mkConfig 16 2 2 4 10 10000.

(** [iter().sum::<u64>()]. *)
Definition total_size (l : list Z) : Z := fold_left (fun t x => wrap 64 (t + x)) l 0.

Definition merge_all_due (sizes : list (option Z)) (ratio : Z) : bool :=
  let disk := omap id sizes in
  if (length disk <? 2)%nat then false
  else
    let largest := foldr Z.max 0 disk in
    let rest := wrap 64 (total_size disk - largest) in
    largest <=? saturating_mul 64 rest (Z.max ratio 1).

(** The inner loop of [tiered_window]: the width and the total of the run. *)
Fixpoint extend_tier (ratio : Z) (max_width : nat) (rest : list (option Z)) (width : nat) (smallest largest total : Z) : nat * Z :=
  match rest with
  | Some size :: rest =>
    if (width <? max_width)%nat then
      let next_smallest := Z.min smallest size in
      let next_largest := Z.max largest size in
      if saturating_mul 64 next_smallest ratio <? next_largest then (width, total)
      else extend_tier ratio max_width rest (S width) next_smallest next_largest (wrap 64 (total + size))
    else (width, total)
  | _ => (width, total)
  end.

(** The run that starts at the head. *)
Definition tier_run (ratio : Z) (max_width : nat) (sizes : list (option Z)) : option (nat * Z) :=
  match sizes with
  | Some first :: rest => Some (extend_tier ratio max_width rest 1 first first first)
  | _ => None
  end.

(** Keeps the window if it is wide enough and cheaper than the best so far. *)
Definition better (min_width start width : nat) (total : Z) (best : option (nat * nat * Z)) : option (nat * nat * Z) :=
  if (min_width <=? width)%nat && match best with Some (_, _, best_total) => total <? best_total | None => true end
  then Some (start, (start + width)%nat, total) else best.

Definition tiered_step (ratio : Z) (min_width max_width : nat) (sizes : list (option Z)) (best : option (nat * nat * Z))
    (start : nat) : option (nat * nat * Z) :=
  match tier_run ratio max_width (drop start sizes) with
  | Some (width, total) => better min_width start width total best
  | None => best
  end.
Definition tiered_window (sizes : list (option Z)) (ratio : Z) (min_width max_width : nat) : option (nat * nat) :=
  fst <$> fold_left (tiered_step ratio min_width max_width sizes) (seq 0 (length sizes)) None.

(** The inner loop of [cheapest_window]. *)
Fixpoint plain_run (width : nat) (sizes : list (option Z)) (n : nat) (total : Z) : nat * Z :=
  match sizes with
  | Some size :: rest => if (n <? width)%nat then plain_run width rest (S n) (wrap 64 (total + size)) else (n, total)
  | _ => (n, total)
  end.
Definition cheapest_step (width : nat) (sizes : list (option Z)) (best : option (nat * nat * Z)) (start : nat)
    : option (nat * nat * Z) :=
  let '(n, total) := plain_run width (drop start sizes) 0 0 in better 2 start n total best.
Definition cheapest_window (sizes : list (option Z)) (width : nat) : option (nat * nat) :=
  fst <$> fold_left (cheapest_step width sizes) (seq 0 (length sizes)) None.

(** ** Correctness *)

(** Every size is within [ratio] of every other. *)
Definition within_ratio (ratio : Z) (l : list Z) : Prop := forall a b, a ∈ l -> b ∈ l -> a <= saturating_mul 64 b ratio.
(** [n] segments from [start] on, all on disk, with sizes [vs]. *)
Definition disk_run (sizes : list (option Z)) (start n : nat) (vs : list Z) : Prop :=
  take n (drop start sizes) = Some <$> vs /\ length vs = n.

Lemma within_ratio_bounds ratio vs lo hi :
  0 <= ratio -> lo ∈ vs -> hi ∈ vs -> (forall v, v ∈ vs -> lo <= v <= hi) ->
  within_ratio ratio vs <-> hi <= saturating_mul 64 lo ratio.
Proof.
  intros Hr Hlo Hhi Hb. split; [intros H; by apply H|]. intros H a b Ha Hb'.
  pose proof (Hb a Ha). pose proof (Hb b Hb'). unfold saturating_mul in *. assert (lo * ratio <= b * ratio) by nia. lia.
Qed.

Lemma total_size_snoc l x : total_size (l ++ [x]) = wrap 64 (total_size l + x).
Proof. unfold total_size. by rewrite fold_left_app. Qed.

Section runs.
Context (ratio : Z) (max_width : nat) (Hratio : 0 <= ratio).

(** The loop keeps the extremes of the run, and stops at the first size that does not fit. *)
Lemma extend_tier_spec rest : forall vs lo hi w t,
  lo ∈ vs -> hi ∈ vs -> (forall v, v ∈ vs -> lo <= v <= hi) -> within_ratio ratio vs ->
  extend_tier ratio max_width rest (length vs) lo hi (total_size vs) = (w, t) ->
  exists us, take (length us) rest = Some <$> us /\ w = length (vs ++ us) /\ t = total_size (vs ++ us) /\
    within_ratio ratio (vs ++ us) /\ (w <= max (length vs) max_width)%nat /\
    (forall u, rest !! length us = Some (Some u) -> (w < max_width)%nat -> ~ within_ratio ratio ((vs ++ us) ++ [u])).
Proof using Hratio.
  induction rest as [|[size|] rest IH]; intros vs lo hi w t Hlo Hhi Hb Hw E; cbn [extend_tier] in E.
  - injection E as <- <-. exists []. rewrite app_nil_r. split_and!; try done; lia.
  - assert (Hstop : (length vs, total_size vs) = (w, t) ->
      ((length vs < max_width)%nat -> ~ within_ratio ratio (vs ++ [size])) -> exists us, take (length us) (Some size :: rest) = Some <$> us /\
      w = length (vs ++ us) /\ t = total_size (vs ++ us) /\ within_ratio ratio (vs ++ us) /\ (w <= max (length vs) max_width)%nat /\
      (forall u, (Some size :: rest) !! length us = Some (Some u) -> (w < max_width)%nat -> ~ within_ratio ratio ((vs ++ us) ++ [u]))).
    { intros [= <- <-] Hn. exists []. rewrite app_nil_r. split_and!; try done; [lia|]. by intros u [= <-]. }
    destruct (Nat.ltb_spec (length vs) max_width) as [Hlt|Hge]; [|apply Hstop; [done|lia]].
    assert (Hb' : forall v, v ∈ vs ++ [size] -> Z.min lo size <= v <= Z.max hi size).
    { intros v [Hv|Hv%list_elem_of_singleton]%elem_of_app; [pose proof (Hb v Hv)|]; lia. }
    assert (Hlo' : Z.min lo size ∈ vs ++ [size]).
    { rewrite elem_of_app, list_elem_of_singleton. destruct (Z.min_spec lo size) as [[_ ->]|[_ ->]]; auto. }
    assert (Hhi' : Z.max hi size ∈ vs ++ [size]).
    { rewrite elem_of_app, list_elem_of_singleton. destruct (Z.max_spec hi size) as [[_ ->]|[_ ->]]; auto. }
    pose proof (within_ratio_bounds ratio _ _ _ Hratio Hlo' Hhi' Hb') as Hiff.
    destruct (Z.ltb_spec (saturating_mul 64 (Z.min lo size) ratio) (Z.max hi size)) as [Hr|Hr].
    { apply Hstop; [done|]. intros _ Hc. pose proof (proj1 Hiff Hc). lia. }
    destruct (IH (vs ++ [size]) (Z.min lo size) (Z.max hi size) w t) as (us & H1 & H2 & H3 & H4 & H5 & H6); try done.
    { by apply (proj2 Hiff). }
    { by rewrite length_app, Nat.add_1_r, total_size_snoc. }
    exists (size :: us). rewrite <-app_assoc in *. cbn [app] in *. split_and!; try done.
    + cbn [length take]. by rewrite H1.
    + rewrite length_app in H5. simpl in H5. lia.
  - injection E as <- <-. exists []. rewrite app_nil_r. split_and!; try done; lia.
Qed.
End runs.

(** What the run from [start] is: sizes within the ratio, and it cannot be extended. *)
Lemma tier_run_spec ratio max_width sizes start w t :
  1 <= ratio -> (forall v, Some v ∈ sizes -> in_u 64 v) ->
  tier_run ratio max_width (drop start sizes) = Some (w, t) ->
  exists vs, disk_run sizes start w vs /\ within_ratio ratio vs /\ t = total_size vs /\ (1 <= w <= max 1 max_width)%nat /\
    (forall us, (w < max_width)%nat -> disk_run sizes start (S w) us -> ~ within_ratio ratio us).
Proof.
  intros Hr Hu E. unfold tier_run in E. destruct (drop start sizes) as [|[first|] rest] eqn:Hd; [done| |done].
  injection E as E.
  assert (Hf : in_u 64 first). { apply Hu. rewrite <-(take_drop start sizes), Hd. apply elem_of_app. right. left. }
  assert (Htot : total_size [first] = first) by (unfold total_size; simpl; by apply Z.mod_small).
  rewrite <-Htot in E at 3.
  destruct (extend_tier_spec ratio max_width ltac:(lia) rest [first] first first w t) as (us & H1 & H2 & H3 & H4 & H5 & H6);
    [left|left|intros v ->%list_elem_of_singleton; lia| |exact E|].
  { intros a b ->%list_elem_of_singleton ->%list_elem_of_singleton. unfold saturating_mul, u_max, in_u in *. nia. }
  exists (first :: us). subst w. split_and!; try done.
  - unfold disk_run. rewrite Hd. cbn [app length take]. split; [|done]. by rewrite H1.
  - simpl. lia.
  - intros us' Hlt [Hr1 Hr2]. rewrite Hd in Hr1. cbn [app length take] in Hr1. destruct us' as [|u' us']; [done|].
    rewrite fmap_cons in Hr1. injection Hr1 as <- Hr1. simpl in Hr2. injection Hr2 as Hr2.
    assert (Hu' : exists u, rest !! length us = Some (Some u) /\ us' = us ++ [u]).
    { destruct (rest !! length us) as [o|] eqn:Eo.
      - rewrite (take_S_r _ _ _ Eo), H1 in Hr1. destruct us' as [|u l _] using rev_ind; [by destruct us|].
        rewrite fmap_app in Hr1. apply app_inj_tail in Hr1 as [Hr1 ->]. apply list_fmap_eq_inj in Hr1 as ->; [|by intros ?? [=]]. by exists u.
      - apply lookup_ge_None in Eo. assert (Hle : (length (take (S (length us)) rest) <= length us)%nat) by (rewrite length_take; lia).
        rewrite Hr1, length_fmap in Hle. lia. }
    destruct Hu' as (u & Hlook & ->). by apply (H6 u).
Qed.

(** The search for the cheapest run: [run start] is the run found at [start]. *)
Lemma best_spec (run : nat -> option (nat * Z)) min_width n :
  let step best start := match run start with Some (width, total) => better min_width start width total best | None => best end in
  match fold_left step (seq 0 n) None with
  | Some (start, stop, total) => exists w, (start < n)%nat /\ run start = Some (w, total) /\ stop = (start + w)%nat /\ (min_width <= w)%nat /\
      forall s w' t', (s < n)%nat -> run s = Some (w', t') -> (min_width <= w')%nat -> total <= t'
  | None => forall s w' t', (s < n)%nat -> run s = Some (w', t') -> (w' < min_width)%nat
  end.
Proof.
  intros step. induction n as [|n IH]; [simpl; intros; lia|]. rewrite seq_S, fold_left_app, Nat.add_0_l. cbn [fold_left].
  destruct (fold_left step (seq 0 n) None) as [[[start stop] total]|]; unfold step at 1; cbn beta iota.
  - destruct IH as (w & Hs & Hrun & -> & Hmin & Hbest). destruct (run n) as [[w' t']|] eqn:En.
    + unfold better. destruct (Nat.leb_spec min_width w') as [Hle|Hlt]; cbn [andb].
      * destruct (Z.ltb_spec t' total) as [Ht|Ht].
        -- exists w'. split_and!; try done; [lia|]. intros s w2 t2 H1 H2 H3. destruct (decide (s = n)) as [->|]; [naive_solver lia|].
           pose proof (Hbest s w2 t2 ltac:(lia) H2 H3). lia.
        -- exists w. split_and!; try done; [lia|]. intros s w2 t2 H1 H2 H3. destruct (decide (s = n)) as [->|]; [|apply (Hbest s w2); [lia|done..]].
           rewrite En in H2. injection H2 as <- <-. lia.
      * exists w. split_and!; try done; [lia|]. intros s w2 t2 H1 H2 H3. destruct (decide (s = n)) as [->|]; [|apply (Hbest s w2); [lia|done..]].
        rewrite En in H2. injection H2 as <- <-. lia.
    + exists w. split_and!; try done; [lia|]. intros s w2 t2 H1 H2 H3. destruct (decide (s = n)) as [->|]; [congruence|apply (Hbest s w2); [lia|done..]].
  - destruct (run n) as [[w' t']|] eqn:En.
    + unfold better. destruct (Nat.leb_spec min_width w') as [Hle|Hlt]; cbn [andb].
      * exists w'. split_and!; try done; [lia|]. intros s w2 t2 H1 H2 H3. destruct (decide (s = n)) as [->|]; [naive_solver lia|].
        pose proof (IH s w2 t2 ltac:(lia) H2). lia.
      * intros s w2 t2 H1 H2. destruct (decide (s = n)) as [->|]; [naive_solver lia|apply (IH s w2 t2); [lia|done]].
    + intros s w2 t2 H1 H2. destruct (decide (s = n)) as [->|]; [congruence|apply (IH s w2 t2); [lia|done]].
Qed.

Lemma disk_run_prefix sizes start n m vs :
  (m <= n)%nat -> disk_run sizes start n vs -> disk_run sizes start m (take m vs).
Proof.
  intros Hm [H1 H2]. split; [|rewrite length_take; lia]. rewrite fmap_take, <-H1, take_take. f_equal. lia.
Qed.

Lemma within_ratio_take ratio m vs : within_ratio ratio vs -> within_ratio ratio (take m vs).
Proof. intros H a b Ha Hb. rewrite <-(take_drop m vs) in H. apply H; apply elem_of_app; by left. Qed.

Lemma disk_run_bound sizes start n vs : disk_run sizes start n vs -> (n <= length sizes - start)%nat.
Proof.
  intros [H1 H2]. apply (f_equal length) in H1. rewrite length_take, length_drop, length_fmap in H1. lia.
Qed.

(** The tiered search returns a run of adjacent disk segments, at least [min_width] and at most
    [max_width] long, whose sizes are within the ratio of each other, and the cheapest of the runs
    found from the possible starts; it finds nothing only if no run of [min_width] adjacent disk
    segments has sizes within the ratio. *)
Theorem tiered_window_correct sizes ratio min_width max_width :
  1 <= ratio -> (1 <= min_width <= max_width)%nat -> (forall v, Some v ∈ sizes -> in_u 64 v) ->
  match tiered_window sizes ratio min_width max_width with
  | Some (start, stop) => exists vs, (start < stop <= length sizes)%nat /\ disk_run sizes start (stop - start) vs /\
      within_ratio ratio vs /\ (min_width <= stop - start <= max_width)%nat /\
      forall s w t, (s < length sizes)%nat -> tier_run ratio max_width (drop s sizes) = Some (w, t) -> (min_width <= w)%nat -> total_size vs <= t
  | None => forall s n vs, (min_width <= n)%nat -> disk_run sizes s n vs -> ~ within_ratio ratio vs
  end.
Proof.
  intros Hr Hm Hu. unfold tiered_window, tiered_step.
  pose proof (best_spec (fun s => tier_run ratio max_width (drop s sizes)) min_width (length sizes)) as Hb. cbv zeta beta in Hb.
  destruct (fold_left _ _ None) as [[[start stop] total]|]; cbn [fmap option_fmap option_map fst].
  - destruct Hb as (w & Hs & Hrun & -> & Hmin & Hbest).
    destruct (tier_run_spec ratio max_width sizes start w total Hr Hu Hrun) as (vs & H1 & H2 & H3 & H4 & _).
    exists vs. pose proof (disk_run_bound _ _ _ _ H1). replace (start + w - start)%nat with w by lia. subst total.
    split_and!; try done; lia.
  - intros s n vs Hn Hd Hw. pose proof (disk_run_bound _ _ _ _ Hd).
    destruct (tier_run ratio max_width (drop s sizes)) as [[w t]|] eqn:Hrun.
    + pose proof (Hb s w t ltac:(lia) Hrun). destruct (tier_run_spec ratio max_width sizes s w t Hr Hu Hrun) as (_ & _ & _ & _ & _ & H6).
      apply (H6 (take (S w) vs)); [lia|eapply disk_run_prefix; [|done]; lia|by apply within_ratio_take].
    + destruct Hd as [Hd1 Hd2]. destruct n as [|n]; [lia|]. destruct vs as [|v vs]; [done|]. rewrite fmap_cons in Hd1. unfold tier_run in Hrun.
      destruct (drop s sizes) as [|[first|] rest]; done.
Qed.

Lemma plain_run_spec width sizes : forall n total n' t,
  (n <= width)%nat ->
  plain_run width sizes n total = (n', t) ->
  exists vs, take (length vs) sizes = Some <$> vs /\ n' = (n + length vs)%nat /\ (n' <= width)%nat /\
    t = fold_left (fun t x => wrap 64 (t + x)) vs total /\
    forall u, (n' < width)%nat -> sizes !! length vs <> Some (Some u).
Proof.
  induction sizes as [|[size|] sizes IH]; intros n total n' t Hn E; cbn [plain_run] in E.
  - injection E as <- <-. exists []. simpl. split_and!; try done; lia.
  - destruct (Nat.ltb_spec n width) as [Hlt|Hge].
    + destruct (IH (S n) _ n' t Hlt E) as (vs & H1 & H2 & H3 & H4 & H5). exists (size :: vs). simpl. rewrite H1.
      split_and!; try done. lia.
    + injection E as <- <-. exists []. simpl. split_and!; try done; lia.
  - injection E as <- <-. exists []. simpl. split_and!; try done; lia.
Qed.

(** The cheapest search: two or more adjacent disk segments, at most [width], or none exist. *)
Lemma cheapest_window_spec sizes width :
  (2 <= width)%nat ->
  match cheapest_window sizes width with
  | Some (start, stop) => exists vs, (start < stop <= length sizes)%nat /\ disk_run sizes start (stop - start) vs /\ (2 <= stop - start <= width)%nat
  | None => forall s vs, ~ disk_run sizes s 2 vs
  end.
Proof.
  intros Hw. unfold cheapest_window.
  pose proof (best_spec (fun s => Some (plain_run width (drop s sizes) 0 0)) 2 (length sizes)) as Hb. cbv zeta beta iota in Hb.
  assert (Hf : forall best l, fold_left (cheapest_step width sizes) l best =
    fold_left (fun best start => let (w, t) := plain_run width (drop start sizes) 0 0 in better 2 start w t best) l best) by done.
  rewrite Hf. clear Hf.
  destruct (fold_left _ _ None) as [[[start stop] total]|]; cbn [fmap option_fmap option_map fst].
  - destruct Hb as (w & Hs & Hrun & -> & Hmin & _). injection Hrun as Hrun.
    destruct (plain_run_spec width _ 0 0 w total ltac:(lia) Hrun) as (vs & H1 & H2 & H3 & _ & _). simpl in H2. subst w.
    assert (Hd : disk_run sizes start (length vs) vs) by done. pose proof (disk_run_bound _ _ _ _ Hd).
    exists vs. replace (start + length vs - start)%nat with (length vs) by lia. split_and!; try done; lia.
  - intros s vs Hd. pose proof (disk_run_bound _ _ _ _ Hd). destruct (plain_run width (drop s sizes) 0 0) as [n t] eqn:Hrun.
    pose proof (Hb s n t ltac:(lia) ltac:(by rewrite Hrun)) as Hlt.
    destruct (plain_run_spec width _ 0 0 n t ltac:(lia) Hrun) as (us & H1 & H2 & H3 & _ & H5). simpl in H2. subst n.
    destruct Hd as [Hd1 Hd2]. destruct vs as [|v1 [|v2 [|]]]; try done. rewrite !fmap_cons in Hd1.
    destruct (drop s sizes) as [|o1 [|o2 l]]; try done. injection Hd1 as -> ->.
    destruct us as [|u1 [|]]; [by apply (H5 v1); [simpl; lia|]|by apply (H5 v2); [simpl; lia|]|simpl in Hlt; lia].
Qed.

Lemma tiered_window_correct_witness :
  tiered_window [Some 100; Some 9; Some 8; None; Some 30; Some 40] 2 2 4 = Some (1%nat, 3%nat) /\
  exists vs, disk_run [Some 100; Some 9; Some 8; None; Some 30; Some 40] 1 2 vs /\ within_ratio 2 vs.
Proof.
  pose proof (tiered_window_correct [Some 100; Some 9; Some 8; None; Some 30; Some 40] 2 2 4) as H.
  assert (E : tiered_window [Some 100; Some 9; Some 8; None; Some 30; Some 40] 2 2 4 = Some (1%nat, 3%nat)) by reflexivity.
  rewrite E in H. split; [done|]. destruct H as (vs & _ & Hd & Hw & _).
  - lia.
  - lia.
  - intros v Hv. repeat (apply elem_of_cons in Hv as [[= ->]|Hv]; [split; vm_compute; congruence|]); try (by apply elem_of_cons in Hv as [?|?]).
    apply elem_of_cons in Hv as [?|Hv]; [done|].
    repeat (apply elem_of_cons in Hv as [[= ->]|Hv]; [split; vm_compute; congruence|]). by apply elem_of_nil in Hv.
  - by exists vs.
Defined.

(** Whatever the limits, a window is a non-empty run of disk segments. *)
Definition disk_window (sizes : list (option Z)) (window : nat * nat) : Prop :=
  (window.1 < window.2)%nat /\ exists vs, disk_run sizes window.1 (window.2 - window.1) vs.

Lemma extend_tier_disk ratio max_width rest : forall n lo hi total w t,
  extend_tier ratio max_width rest n lo hi total = (w, t) ->
  exists us, take (length us) rest = Some <$> us /\ w = (n + length us)%nat.
Proof.
  induction rest as [|[size|] rest IH]; intros n lo hi total w t E; cbn [extend_tier] in E.
  - injection E as <- <-. exists []. simpl. split; [done|lia].
  - destruct (n <? max_width)%nat; [destruct (_ <? _)|].
    + injection E as <- <-. exists []. simpl. split; [done|lia].
    + destruct (IH _ _ _ _ _ _ E) as (us & H1 & ->). exists (size :: us). simpl. rewrite H1. split; [done|lia].
    + injection E as <- <-. exists []. simpl. split; [done|lia].
  - injection E as <- <-. exists []. simpl. split; [done|lia].
Qed.

Lemma tiered_window_disk sizes ratio mn mx window : tiered_window sizes ratio mn mx = Some window -> disk_window sizes window.
Proof.
  unfold tiered_window, tiered_step. intros E.
  pose proof (best_spec (fun s => tier_run ratio mx (drop s sizes)) mn (length sizes)) as Hb. cbv zeta beta in Hb.
  destruct (fold_left _ _ None) as [[[start stop] total]|]; [|done]. cbn [fmap option_fmap option_map fst] in E. injection E as <-.
  destruct Hb as (w & _ & Hrun & -> & _). unfold tier_run in Hrun. destruct (drop start sizes) as [|[first|] rest] eqn:Hd; [done| |done].
  injection Hrun as Hrun. destruct (extend_tier_disk _ _ _ _ _ _ _ _ _ Hrun) as (us & H1 & ->). split; simpl; [lia|].
  exists (first :: us). unfold disk_run. rewrite Hd. replace (start + S (length us) - start)%nat with (S (length us)) by lia.
  simpl. by rewrite H1.
Qed.

Lemma cheapest_window_disk sizes width window : cheapest_window sizes width = Some window -> disk_window sizes window.
Proof.
  unfold cheapest_window. intros E.
  pose proof (best_spec (fun s => Some (plain_run width (drop s sizes) 0 0)) 2 (length sizes)) as Hb. cbv zeta beta iota in Hb.
  change (cheapest_step width sizes) with
    (fun best start => let (w, t) := plain_run width (drop start sizes) 0 0 in better 2 start w t best) in E.
  destruct (fold_left _ _ None) as [[[start stop] total]|]; [|done]. cbn [fmap option_fmap option_map fst] in E. injection E as <-.
  destruct Hb as (w & _ & Hrun & -> & Hw & _). injection Hrun as Hrun. split; simpl; [lia|].
  destruct (plain_run_spec width _ 0 0 w total ltac:(lia) Hrun) as (vs & H1 & H2 & _). simpl in H2. subst w.
  exists vs. unfold disk_run. by replace (start + length vs - start)%nat with (length vs) by lia.
Qed.
