(* ===== verification/Lsm.v ===== *)
(** * The LSM index: memtable, generations, queued flushes, segments and compaction

    Models [LsmIndex] of [crates/core-index/src/lsm/manager.rs] without its vector files: the
    memtable and its sealed generations, the queue of segment writes, the segments with their
    readers, tombstones, and the planning and installing of compactions. The disk is a record: the
    segment files by number ([segment-<n>.idx]), the lines of [manifest.txt] and of [deletes.txt].

    What the environment decides is an argument: [shared] says which generations a snapshot still
    holds ([Arc::strong_count]), [now] is the clock, and [Faults] are the errors the file system
    returns. *)
From Stdlib Require Import ZArith Lia.
From stdpp Require Import base numbers list gmap sorting strings pretty.
From S2P Require Import Prelude Types Posting PostingOps Numeric ArrayRows Btree TermDict Segment MemIndex DocLengths SegmentFile SegmentRead SegmentRoundtrip SegmentDisk FuzzyIndex Snapshot MergedTerms Compaction CompactionPlan.
Local Open Scope io_scope.
Local Open Scope Z_scope.

#[global] Instance Bkd_eq_dec : EqDecision Bkd.
Proof. solve_decision. Defined.
#[global] Instance DocValues_eq_dec : EqDecision DocValues.
Proof. solve_decision. Defined.
#[global] Instance NumericField_eq_dec : EqDecision NumericField.
Proof. solve_decision. Defined.
#[global] Instance FieldStats_eq_dec : EqDecision FieldStats.
Proof. solve_decision. Defined.
#[global] Instance ArrayRowIndex_eq_dec : EqDecision ArrayRowIndex.
Proof. solve_decision. Defined.
#[global] Instance ImmutableSegment_eq_dec : EqDecision ImmutableSegment.
Proof. solve_decision. Defined.
#[global] Instance SegmentHandle_eq_dec : EqDecision SegmentHandle.
Proof. solve_decision. Defined.

(** ** The flush queue *)

Record FlushJob : Type := mkJob { fj_seq : Z; fj_path : Z; fj_generations : list MemIndex }.
Record PendingFlush : Type := mkPending { pf_seq : Z; pf_path : Z; pf_generations : list MemIndex; pf_added_after : Z }.
Record FlushQueue : Type := mkQueue {
  made_not_flushed : list FlushJob;
  pending : list PendingFlush;
  next_seq : Z;
  failure : option string
}.
Definition FlushQueue_default : FlushQueue := mkQueue [] [] 0 None.

Definition fq_push (self : FlushQueue) (path : Z) (generations : list MemIndex) : FlushQueue :=
  let seq := next_seq self in
  mkQueue (made_not_flushed self ++ [mkJob seq path generations]) (pending self ++ [mkPending seq path generations 0])
    (wrap 64 (seq + 1)) (failure self).
Definition segment_added (self : FlushQueue) : FlushQueue :=
  mkQueue (made_not_flushed self)
    ((fun p => mkPending (pf_seq p) (pf_path p) (pf_generations p) (wrap 64 (pf_added_after p + 1))) <$> pending self)
    (next_seq self) (failure self).
Definition take_jobs (self : FlushQueue) : FlushQueue * list FlushJob :=
  (mkQueue [] (pending self) (next_seq self) (failure self), made_not_flushed self).
Definition out_of_order (seq : Z) : io_error :=
  IoError Other ("segment write " +:+ pretty seq +:+ " finished out of order").
Definition fq_complete (self : FlushQueue) (seq : Z) : io_result (PendingFlush * FlushQueue) :=
  match pending self with
  | front :: rest =>
    if pf_seq front =? seq then Ok (front, mkQueue (made_not_flushed self) rest (next_seq self) (failure self))
    else Err (out_of_order seq)
  | [] => Err (out_of_order seq)
  end.
Definition flushed_through (self : FlushQueue) : Z := wrap 64 (next_seq self - zlen (pending self)).
Definition writes_in_flight (self : FlushQueue) : bool :=
  (length (made_not_flushed self) <? length (pending self))%nat.
(** [get_or_insert_with]: the first failure stays. *)
Definition fq_fail (self : FlushQueue) (error : io_error) : FlushQueue :=
  mkQueue (made_not_flushed self) (pending self) (next_seq self)
    (Some match failure self with Some message => message | None => err_msg error end).
Definition health (self : FlushQueue) : io_result unit :=
  match failure self with
  | Some message => Err (IoError Other ("segment write failed earlier: " +:+ message))
  | None => Ok tt
  end.

(** ** The index and its disk *)

Record LsmIndex : Type := mkLsm {
  lsm_mem : MemIndex;
  generations : list MemIndex;
  segment_handles : list SegmentHandle;
  query_segments : list SearchReader;
  flush_threshold : Z;
  flush_queue : FlushQueue;
  lsm_deleted : DeleteSet;
  delete_generation : Z;
  root : bool;
  next_segment_id : Z;
  next_doc_id : DocId;
  next_compaction_job_id : Z;
  lsm_max_array_row : ArrayRowId;
  last_ingest : option Z
}.

Record Disk : Type := mkDisk { d_files : gmap Z (list Z); d_manifest : list Z; d_deletes : list DocId }.
Record Faults : Type := mkFaults { f_write : option io_error; f_manifest : option io_error; f_deletes : option io_error }.
Definition no_faults : Faults := mkFaults None None None.
Definition attempt (fault : option io_error) : io_result unit := match fault with Some e => Err e | None => Ok tt end.

(** The updates the operations make. *)
Definition set_memory (self : LsmIndex) (m : MemIndex) (gens : list MemIndex) : LsmIndex :=
  mkLsm m gens (segment_handles self) (query_segments self) (flush_threshold self) (flush_queue self) (lsm_deleted self)
    (delete_generation self) (root self) (next_segment_id self) (next_doc_id self) (next_compaction_job_id self)
    (lsm_max_array_row self) (last_ingest self).
Definition set_segments (self : LsmIndex) (hs : list SegmentHandle) (rs : list SearchReader) : LsmIndex :=
  mkLsm (lsm_mem self) (generations self) hs rs (flush_threshold self) (flush_queue self) (lsm_deleted self)
    (delete_generation self) (root self) (next_segment_id self) (next_doc_id self) (next_compaction_job_id self)
    (lsm_max_array_row self) (last_ingest self).
Definition set_queue (self : LsmIndex) (q : FlushQueue) : LsmIndex :=
  mkLsm (lsm_mem self) (generations self) (segment_handles self) (query_segments self) (flush_threshold self) q
    (lsm_deleted self) (delete_generation self) (root self) (next_segment_id self) (next_doc_id self)
    (next_compaction_job_id self) (lsm_max_array_row self) (last_ingest self).
Definition set_ids (self : LsmIndex) (segment_id doc_id job_id : Z) : LsmIndex :=
  mkLsm (lsm_mem self) (generations self) (segment_handles self) (query_segments self) (flush_threshold self) (flush_queue self)
    (lsm_deleted self) (delete_generation self) (root self) segment_id doc_id job_id (lsm_max_array_row self) (last_ingest self).
Definition set_deleted (self : LsmIndex) (dels : DeleteSet) (generation : Z) : LsmIndex :=
  mkLsm (lsm_mem self) (generations self) (segment_handles self) (query_segments self) (flush_threshold self) (flush_queue self)
    dels generation (root self) (next_segment_id self) (next_doc_id self) (next_compaction_job_id self)
    (lsm_max_array_row self) (last_ingest self).
Definition ingested (self : LsmIndex) (now : Z) : LsmIndex :=
  mkLsm (lsm_mem self) (generations self) (segment_handles self) (query_segments self) (flush_threshold self) (flush_queue self)
    (lsm_deleted self) (delete_generation self) (root self) (next_segment_id self) (next_doc_id self)
    (next_compaction_job_id self) (lsm_max_array_row self) (Some now).

Definition LsmIndex_new (threshold : Z) : LsmIndex :=
  mkLsm MemIndex_new [] [] [] threshold FlushQueue_default DeleteSet_new 0 false 0 0 0 0 None.

Definition highest_known_doc_id (self : LsmIndex) : DocId :=
  let in_segments := saturating_sub (next_doc_id self) 1 in
  let dels := foldr Z.max 0 (elements (deleted (lsm_deleted self))) in
  Z.max in_segments dels.

(** ** The memtable *)

(** The loop of [seal], newest generation first. *)
Fixpoint seal_loop (shared : nat -> bool) (newest_first : list MemIndex) (sealed : MemIndex) : list MemIndex * MemIndex :=
  match newest_first with
  | [] => ([], sealed)
  | newest :: older =>
    if mem_estimated_bytes sealed <? mem_estimated_bytes newest then (newest_first, sealed)
    else if shared (length older) then (newest_first, sealed)
    else seal_loop shared older (merge_from newest sealed)
  end.
Definition seal (shared : nat -> bool) (self : LsmIndex) : LsmIndex :=
  if bool_decide (size (mem_terms (lsm_mem self)) = 0%nat) && bool_decide (mem_doc_id_range (lsm_mem self) = None) then self
  else
    let '(newest_first, sealed) := seal_loop shared (rev (generations self)) (lsm_mem self) in
    set_memory self MemIndex_new (rev newest_first ++ [sealed]).

Definition memtable_size (self : LsmIndex) : Z :=
  wrap 64 (mem_estimated_bytes (lsm_mem self) + sum_u64 (mem_estimated_bytes <$> generations self)).
Definition should_flush (self : LsmIndex) : bool := flush_threshold self <=? memtable_size self.

Definition pending_generations (self : LsmIndex) : list MemIndex := concat (pf_generations <$> pending (flush_queue self)).
Definition build_snapshot (self : LsmIndex) (m : MemIndex) : IndexSnapshot :=
  IndexSnapshot_new m ((mem_reader <$> generations self) ++ (mem_reader <$> pending_generations self) ++ query_segments self)
    (lsm_deleted self).
Definition publish_snapshot (shared : nat -> bool) (self : LsmIndex) : LsmIndex * IndexSnapshot :=
  let self := seal shared self in (self, build_snapshot self MemIndex_new).
Definition lsm_snapshot (self : LsmIndex) : IndexSnapshot := build_snapshot self (lsm_mem self).

(** The search traits of the index read a snapshot. *)
Definition lsm_lookup (self : LsmIndex) (term : str) (xpath : XPathId) : PostingList := sn_lookup (lsm_snapshot self) term xpath.
Definition lsm_terms (self : LsmIndex) (xpath : XPathId) : list str := sn_terms (lsm_snapshot self) xpath.
Definition lsm_lookup_prefix (self : LsmIndex) (prefix : str) (xpath : XPathId) : PostingList := sn_lookup_prefix (lsm_snapshot self) prefix xpath.
Definition lsm_resolve_array_rows (self : LsmIndex) (rows : gset Z) : gset Z := sn_resolve_array_rows (lsm_snapshot self) rows.
Definition lsm_doc_len (self : LsmIndex) (d : DocId) (xpath : XPathId) : option Z := sn_doc_len (lsm_snapshot self) d xpath.
Definition lsm_doc_count (self : LsmIndex) (xpath : XPathId) : Z := sn_doc_count (lsm_snapshot self) xpath.
Definition lsm_total_doc_len (self : LsmIndex) (xpath : XPathId) : Z := sn_total_doc_len (lsm_snapshot self) xpath.

Definition merge_into_memtable (now : Z) (self : LsmIndex) (other : MemIndex) : LsmIndex :=
  set_memory (ingested self now) (merge_from (lsm_mem self) other) (generations self).

(** ** Files *)

Definition append_segment (fault : option io_error) (disk : Disk) (path : Z) : io_result Disk :=
  let! _ := attempt fault in Ok (mkDisk (d_files disk) (d_manifest disk ++ [path]) (d_deletes disk)).
Definition compact_manifest (fault : option io_error) (disk : Disk) (live : list Z) : io_result Disk :=
  let! _ := attempt fault in Ok (mkDisk (d_files disk) live (d_deletes disk)).
Definition append_delete (fault : option io_error) (disk : Disk) (d : DocId) : io_result Disk :=
  let! _ := attempt fault in Ok (mkDisk (d_files disk) (d_manifest disk) (d_deletes disk ++ [d])).
Definition clear_deletes (fault : option io_error) (disk : Disk) : io_result Disk :=
  let! _ := attempt fault in Ok (mkDisk (d_files disk) (d_manifest disk) []).
Definition remove_file (disk : Disk) (path : Z) : Disk :=
  mkDisk (delete path (d_files disk)) (d_manifest disk) (d_deletes disk).
Definition write_file (disk : Disk) (path : Z) (bytes : list Z) : Disk :=
  mkDisk (<[path := bytes]> (d_files disk)) (d_manifest disk) (d_deletes disk).

Definition delete_document (fa : Faults) (now : Z) (self : LsmIndex) (disk : Disk) (d : DocId)
    : io_result unit * LsmIndex * Disk :=
  let self := set_deleted (ingested self now) (delete_doc (lsm_deleted self) d) (wrap 64 (delete_generation self + 1)) in
  if root self then
    match append_delete (f_deletes fa) disk d with
    | Ok disk => (Ok tt, self, disk)
    | Err e => (Err e, self, disk)
    end
  else (Ok tt, self, disk).

(** ** Flushing *)

Section lsm.
Context {FL : FstLib} {RL : RoaringLib} {DL : DfaLib}.
(** How a segment's path is printed in an error. *)
Context (display : Z -> string).

Definition queue_flush (fa : Faults) (shared : nat -> bool) (self : LsmIndex) : io_result unit * LsmIndex :=
  match health (flush_queue self) with
  | Err e => (Err e, self)
  | Ok _ =>
    let self := seal shared self in
    match if root self then attempt (f_deletes fa) else Ok tt with
    | Err e => (Err e, self)
    | Ok _ =>
      if bool_decide (generations self = []) then (Ok tt, self)
      else
        let gens := generations self in
        let self := set_memory self (lsm_mem self) [] in
        match foldr (fun r acc => Some match acc with Some m => Z.max m r.2 | None => r.2 end) None
                (omap mem_doc_id_range gens) with
        | None => (Err (IoError InvalidData "flushed generations contain no document ids"), self)
        | Some max_doc_id =>
          let doc_id := saturating_add 64 max_doc_id 1 in
          if root self then
            let path := next_segment_id self in
            let self := set_ids self (wrap 64 (path + 1)) doc_id (next_compaction_job_id self) in
            (Ok tt, set_queue self (fq_push (flush_queue self) path gens))
          else
            let segment := freeze_shared gens in
            let self := set_ids self (next_segment_id self) doc_id (next_compaction_job_id self) in
            (Ok tt, set_segments self (segment_handles self ++ [HMemory segment])
               (query_segments self ++ [seg_reader segment]))
        end
    end
  end.

Definition take_flush_jobs (self : LsmIndex) : LsmIndex * list FlushJob :=
  let '(q, jobs) := take_jobs (flush_queue self) in (set_queue self q, jobs).

Definition with_path {A} (path : Z) (r : io_result A) : io_result A :=
  match r with Ok a => Ok a | Err e => Err (IoError (err_kind e) (display path +:+ ": " +:+ err_msg e)) end.

(** [write_segment]: the bytes of the file, or the error of the file system. *)
Definition write_segment (fa : Faults) (disk : Disk) (path : Z) (segment : ImmutableSegment) : io_result Disk :=
  let! _ := attempt (f_write fa) in
  let! bytes := write_segment_to [] segment in
  Ok (write_file disk path bytes).

(** [FlushJob::write]. *)
Definition job_write (fa : Faults) (disk : Disk) (job : FlushJob) : io_result DiskSegment * Disk :=
  let segment := freeze_shared (fj_generations job) in
  match with_path (fj_path job) (write_segment fa disk (fj_path job) segment) with
  | Err e => (Err e, disk)
  | Ok disk => (with_path (fj_path job) (open_path (d_files disk) (fj_path job)), disk)
  end.

Definition flush_position (self : LsmIndex) (p : PendingFlush) : nat :=
  Z.to_nat (saturating_sub (zlen (segment_handles self)) (pf_added_after p)).

Definition install_flushed (fa : Faults) (self : LsmIndex) (disk : Disk) (p : PendingFlush) (d : DiskSegment)
    : io_result (LsmIndex * Disk) :=
  if root self then
    let! disk := append_segment (f_manifest fa) disk (pf_path p) in
    let position := flush_position self p in
    Ok (set_segments self (vec_insert position (HDisk (pf_path p)) (segment_handles self))
          (vec_insert position (disk_reader d) (query_segments self)), disk)
  else Err (IoError Other "flushed segment without a root").

Definition keep_in_memory (self : LsmIndex) (p : PendingFlush) : LsmIndex :=
  let segment := freeze_shared (pf_generations p) in
  let position := flush_position self p in
  set_segments self (vec_insert position (HMemory segment) (segment_handles self))
    (vec_insert position (seg_reader segment) (query_segments self)).

Definition complete_flush (fa : Faults) (self : LsmIndex) (disk : Disk) (seq : Z) (written : io_result DiskSegment)
    : io_result unit * LsmIndex * Disk :=
  match fq_complete (flush_queue self) seq with
  | Err e => (Err e, set_queue self (fq_fail (flush_queue self) e), disk)
  | Ok (p, q) =>
    let self := set_queue self q in
    match let! d := written in install_flushed fa self disk p d with
    | Ok (self, disk) => (Ok tt, self, disk)
    | Err e =>
      let self := keep_in_memory self p in
      (Err e, set_queue self (fq_fail (flush_queue self) e), disk)
    end
  end.

(** The loop of [flush]: an error leaves the remaining jobs unwritten. *)
Fixpoint flush_jobs (fa : Faults) (self : LsmIndex) (disk : Disk) (jobs : list FlushJob) : io_result unit * LsmIndex * Disk :=
  match jobs with
  | [] => (Ok tt, self, disk)
  | job :: jobs =>
    let '(written, disk) := job_write fa disk job in
    match complete_flush fa self disk (fj_seq job) written with
    | (Ok _, self, disk) => flush_jobs fa self disk jobs
    | (Err e, self, disk) => (Err e, self, disk)
    end
  end.
Definition flush (fa : Faults) (shared : nat -> bool) (self : LsmIndex) (disk : Disk) : io_result unit * LsmIndex * Disk :=
  if writes_in_flight (flush_queue self)
  then (Err (IoError Other "flush() called while segment writes are in flight"), self, disk)
  else
    match queue_flush fa shared self with
    | (Err e, self) => (Err e, self, disk)
    | (Ok _, self) => let '(self, jobs) := take_flush_jobs self in flush_jobs fa self disk jobs
    end.

Fixpoint add_segments_loop (fa : Faults) (self : LsmIndex) (disk : Disk) (segments : list ImmutableSegment)
    : io_result unit * LsmIndex * Disk :=
  match segments with
  | [] => (Ok tt, self, disk)
  | segment :: segments =>
    if root self then
      let path := next_segment_id self in
      let self := set_ids self (wrap 64 (path + 1)) (next_doc_id self) (next_compaction_job_id self) in
      match write_segment fa disk path segment with
      | Err e => (Err e, self, disk)
      | Ok disk =>
        match open_path (d_files disk) path with
        | Err e => (Err e, self, disk)
        | Ok d =>
          match append_segment (f_manifest fa) disk path with
          | Err e => (Err e, self, disk)
          | Ok disk =>
            let self := set_segments self (segment_handles self ++ [HDisk path]) (query_segments self ++ [disk_reader d]) in
            add_segments_loop fa (set_queue self (segment_added (flush_queue self))) disk segments
          end
        end
      end
    else
      let self := set_segments self (segment_handles self ++ [HMemory segment]) (query_segments self ++ [seg_reader segment]) in
      add_segments_loop fa (set_queue self (segment_added (flush_queue self))) disk segments
  end.
Definition add_immutable_segment (fa : Faults) (now : Z) (self : LsmIndex) (disk : Disk) (segments : list ImmutableSegment)
    : io_result unit * LsmIndex * Disk := add_segments_loop fa (ingested self now) disk segments.

(** ** Compaction *)

Definition segment_size_bytes (disk : Disk) (handle : SegmentHandle) : Z :=
  match handle with
  | HDisk path => match d_files disk !! path with Some bytes => zlen bytes | None => 0 end
  | HMemory segment => Z.of_nat (size (seg_terms segment))
  end.
Definition segment_sizes (self : LsmIndex) (disk : Disk) : list (option Z) :=
  (fun handle => match handle with
                 | HDisk _ => Some (Z.max (segment_size_bytes disk handle) 1)
                 | HMemory _ => None
                 end) <$> segment_handles self.
Definition quiet_for (now : Z) (self : LsmIndex) (period : Z) : bool :=
  match last_ingest self with Some at_ => period <=? saturating_sub now at_ | None => true end.
Definition has_pending_flushes (self : LsmIndex) : bool := negb (bool_decide (pending (flush_queue self) = [])).

Record CompactionJob : Type := mkCompactionJob {
  cj_job_id : Z; cj_selected : list SegmentHandle; cj_deleted : DeleteSet; cj_delete_generation : Z; cj_output_path : Z
}.
Record CompletedCompaction : Type := mkCompleted {
  cc_job_id : Z; cc_selected : list SegmentHandle; cc_output_path : Z; cc_delete_generation : Z
}.

Definition compaction_window (now : Z) (config : CompactionConfig) (self : LsmIndex) (disk : Disk) : option (nat * nat) :=
  let sizes := segment_sizes self disk in
  let disk_segments := length (omap id sizes) in
  let quiet := quiet_for now self (idle_merge_after config) in
  if (disk_segments <? 2)%nat then None
  else if negb quiet && (has_pending_flushes self || (length sizes <=? max_segments config)%nat) then None
  else
    let all_disk := bool_decide (disk_segments = length sizes) in
    let max_width := max (max_segments_per_compaction config) (min_width config) in
    if quiet && all_disk then
      if merge_all_due sizes (size_ratio config) then Some (0%nat, length sizes)
      else tiered_window sizes (size_ratio config) 2 max_width
    else if (compact_when_segments_at_least config <=? length (segment_handles self))%nat then
      match tiered_window sizes (size_ratio config) (min_width config) max_width with
      | Some window => Some window
      | None =>
        if (max_segments config <? length (segment_handles self))%nat then cheapest_window sizes max_width else None
      end
    else None.

Definition plan_compaction (now : Z) (config : CompactionConfig) (self : LsmIndex) (disk : Disk)
    : LsmIndex * option CompactionJob :=
  if root self then
    match compaction_window now config self disk with
    | None => (self, None)
    | Some (start, stop) =>
      let selected := take (stop - start) (drop start (segment_handles self)) in
      let output_path := next_segment_id self in
      let job_id := next_compaction_job_id self in
      (set_ids self (wrap 64 (output_path + 1)) (next_doc_id self) (wrap 64 (job_id + 1)),
       Some (mkCompactionJob job_id selected (lsm_deleted self) (delete_generation self) output_path))
    end
  else (self, None).

Definition settling (now : Z) (config : CompactionConfig) (self : LsmIndex) (disk : Disk) : bool :=
  let in_memory := root self &&
    (negb (bool_decide (mem_doc_id_range (lsm_mem self) = None)) || negb (bool_decide (generations self = []))
     || existsb (fun h => match h with HMemory _ => true | HDisk _ => false end) (segment_handles self)) in
  negb (quiet_for now self (idle_merge_after config)) || in_memory
  || merge_all_due (segment_sizes self disk) (size_ratio config).

(** [run_compaction_job]: the output file is written. *)
Definition run_compaction_job (fa : Faults) (disk : Disk) (job : CompactionJob) : io_result (CompletedCompaction * Disk) :=
  let! _ := attempt (f_write fa) in
  let! bytes := compact_segments_streaming (d_files disk) (cj_selected job) (cj_deleted job) in
  Ok (mkCompleted (cj_job_id job) (cj_selected job) (cj_output_path job) (cj_delete_generation job),
      write_file disk (cj_output_path job) bytes).

Definition disk_segment_paths (self : LsmIndex) : list Z :=
  omap (fun h => match h with HDisk path => Some path | HMemory _ => None end) (segment_handles self).

(** [positions.into_iter().rev()]: the greatest position is removed first. *)
Definition remove_positions {A} (positions : list nat) (l : list A) : list A :=
  fold_left (fun l pos => delete pos l) (rev positions) l.

Definition install_compaction (fa : Faults) (self : LsmIndex) (disk : Disk) (completed : CompletedCompaction)
    : io_result bool * LsmIndex * Disk :=
  if negb (root self) then (Ok false, self, disk)
  else
    let positions := omap (fun handle => fst <$> list_find (fun live => live = handle) (segment_handles self)) (cc_selected completed) in
    if negb (length positions =? length (cc_selected completed))%nat
    then (Ok false, self, remove_file disk (cc_output_path completed))
    else
      let merged_all := (length positions =? length (segment_handles self))%nat in
      match open_path (d_files disk) (cc_output_path completed) with
      | Err e => (Err e, self, disk)
      | Ok d =>
        let positions := remove_dups (merge_sort (≤)%nat positions) in
        match positions with
        | [] => (Err (IoError Panicked "index out of bounds"), self, disk)
        | insert_pos :: _ =>
          let handles := vec_insert insert_pos (HDisk (cc_output_path completed)) (remove_positions positions (segment_handles self)) in
          let readers := vec_insert insert_pos (disk_reader d) (remove_positions positions (query_segments self)) in
          let self := set_segments self handles readers in
          match compact_manifest (f_manifest fa) disk (disk_segment_paths self) with
          | Err e => (Err e, self, disk)
          | Ok disk =>
            let disk := fold_left (fun disk handle => match handle with HDisk path => remove_file disk path | HMemory _ => disk end)
                          (cc_selected completed) disk in
            if merged_all && (cc_delete_generation completed =? delete_generation self) then
              let self := set_deleted self DeleteSet_new (delete_generation self) in
              match clear_deletes (f_deletes fa) disk with
              | Err e => (Err e, self, disk)
              | Ok disk => (Ok true, self, disk)
              end
            else (Ok true, self, disk)
          end
        end
      end.

(** ** Opening *)

(** The loop of [persistent] over the manifest. *)
Fixpoint open_segments (disk : Disk) (paths : list Z) (self : LsmIndex) : io_result LsmIndex :=
  match paths with
  | [] => Ok self
  | path :: paths =>
    let! d := open_path (d_files disk) path in
    let doc_id := match ds_doc_id_range d with Some (_, hi) => Z.max (next_doc_id self) (wrap 64 (hi + 1)) | None => next_doc_id self end in
    let row := Z.max (lsm_max_array_row self) (default 0 (max_array_row (ds_array_row_index d))) in
    let segment_id := Z.max (next_segment_id self) (wrap 64 (path + 1)) in
    open_segments disk paths
      (mkLsm (lsm_mem self) (generations self) (segment_handles self ++ [HDisk path]) (query_segments self ++ [disk_reader d])
         (flush_threshold self) (flush_queue self) (lsm_deleted self) (delete_generation self) (root self) segment_id doc_id
         (next_compaction_job_id self) row (last_ingest self))
  end.
Definition persistent (disk : Disk) (threshold : Z) : io_result LsmIndex :=
  open_segments disk (d_manifest disk)
    (mkLsm MemIndex_new [] [] [] threshold FlushQueue_default (fold_left delete_doc (d_deletes disk) DeleteSet_new) 0 true 0 0 0 0 None).
End lsm.
