(* ===== verification/LsmCorrect.v ===== *)
(** * The content of an LSM index

    What the parts of an index of [Lsm] hold together for a term, as a collection of postings, and
    that sealing the memtable, queueing a flush and turning a flush into a segment keep it. *)
From Stdlib Require Import ZArith Lia.
From stdpp Require Import base numbers list gmap sorting strings pretty.
From S2P Require Import Prelude Types Posting PostingOps Numeric ArrayRows Btree TermDict Segment MemIndex DocLengths SegmentFile SegmentRead SegmentRoundtrip SegmentDisk FuzzyIndex Snapshot MergedTerms Compaction CompactionPlan Lsm.
Local Open Scope io_scope.
Local Open Scope Z_scope.

(** ** Posting lists as collections *)

Lemma NoDup_docs_filter l d : NoDup (docs l) -> (length (filter (fun q => doc_id q = d) l) <= 1)%nat.
Proof.
  unfold docs. induction l as [|p l IH]; intros Hn; [simpl; lia|]. cbn [map] in Hn. apply NoDup_cons in Hn as [Hp Hn].
  rewrite filter_cons. case_decide as Hd; [|by apply IH]. rewrite filter_none; [simpl; lia|]. intros q Hq Hqd. apply Hp.
  rewrite Hd, <-Hqd. apply list_elem_of_fmap. by exists q.
Qed.

Lemma docs_ascending_NoDup l : docs_ascending l -> NoDup (docs l).
Proof.
  induction 1 as [|p l Hs IH Hp]; [constructor|]. cbn [docs map]. constructor; [|done].
  intros (q & Hq & Hin)%list_elem_of_fmap. rewrite Forall_forall in Hp. specialize (Hp q Hin). unfold key_lt in Hp. lia.
Qed.

(** A sorted list that holds the merges of [l]'s postings per document holds [l], if [l] has one
    posting per document. *)
Lemma ascending_permutation l l' :
  docs_ascending l' -> NoDup (docs l) ->
  (forall d, posting_of d l' = merge_all (filter (fun q => doc_id q = d) l)) -> l' ≡ₚ l.
Proof.
  intros Hs Hn He. apply NoDup_Permutation.
  - by apply (NoDup_fmap_1 doc_id), docs_ascending_NoDup.
  - by apply (NoDup_fmap_1 doc_id).
  - intros p. assert (Hm : merge_all (filter (fun q => doc_id q = doc_id p) l) = Some p <-> p ∈ l).
    { pose proof (NoDup_docs_filter l (doc_id p) Hn) as Hlen. destruct (filter (fun q => doc_id q = doc_id p) l) as [|q [|]] eqn:Ef; [| |simpl in Hlen; lia].
      - split; [done|]. intros Hp. exfalso. assert (Hin : p ∈ filter (fun q => doc_id q = doc_id p) l) by (by apply list_elem_of_filter).
        rewrite Ef in Hin. by apply elem_of_nil in Hin.
      - simpl. assert (Hq : q ∈ l) by (eapply list_elem_of_filter; rewrite Ef; left). split; [by intros [= <-]|]. intros Hp.
        assert (Hin : p ∈ filter (fun q => doc_id q = doc_id p) l) by (by apply list_elem_of_filter).
        rewrite Ef in Hin. apply list_elem_of_singleton in Hin as ->. done. }
    rewrite <-Hm, <-He. split; [by apply posting_of_ascending|]. by intros [? _]%posting_of_Some.
Qed.

Lemma from_items_permutation l : NoDup (docs l) -> items (from_items l) ≡ₚ l.
Proof.
  intros Hn. apply ascending_permutation; [apply from_items_wf|done|]. intros d. apply from_items_lookup.
Qed.

Lemma docs_ascending_unique l1 l2 : docs_ascending l1 -> docs_ascending l2 -> l1 ≡ₚ l2 -> l1 = l2.
Proof.
  intros H1 H2. apply (StronglySorted_unique_strong (key_lt doc_id)); [|done|done]. unfold key_lt. intros; lia.
Qed.

#[global] Instance docs_perm : Proper (Permutation ==> Permutation) docs.
Proof. intros l1 l2 H. by apply Permutation_map. Qed.

Lemma docs_app l1 l2 : docs (l1 ++ l2) = docs l1 ++ docs l2.
Proof. apply map_app. Qed.

(** ** Readers as collections *)

Definition postings_of (rs : list SearchReader) (t : str) (x : XPathId) : list Posting :=
  concat ((fun r => items (r_lookup r t x)) <$> rs).

Lemma postings_app rs1 rs2 t x : postings_of (rs1 ++ rs2) t x = postings_of rs1 t x ++ postings_of rs2 t x.
Proof. unfold postings_of. by rewrite fmap_app, concat_app. Qed.
Lemma postings_cons r rs t x : postings_of (r :: rs) t x = items (r_lookup r t x) ++ postings_of rs t x.
Proof. done. Qed.

#[global] Instance postings_of_perm : Proper (Permutation ==> eq ==> eq ==> Permutation) postings_of.
Proof. intros rs1 rs2 H t ? <- x ? <-. unfold postings_of. by rewrite H. Qed.

(** Merging two memtables with disjoint documents joins their postings. *)
Lemma merge_from_postings a b t x :
  mem_wf a -> mem_wf b -> NoDup (docs (postings_of [mem_reader a; mem_reader b] t x)) ->
  postings_of [mem_reader (merge_from a b)] t x ≡ₚ postings_of [mem_reader a; mem_reader b] t x.
Proof.
  intros Ha Hb. unfold postings_of. cbn [fmap list_fmap concat mem_reader r_lookup]. rewrite !app_nil_r.
  unfold mem_lookup_or_empty, mem_lookup. destruct (merge_from_fields a b) as (-> & _). unfold merge_terms. rewrite lookup_merge. unfold append_entry.
  destruct (mem_terms a !! TermKey_new t x) as [la|] eqn:Ea, (mem_terms b !! TermKey_new t x) as [lb|] eqn:Eb;
    cbn [diag_None default from_option id PostingList_new items]; rewrite ?app_nil_r; intros Hn; try done.
  destruct (append_spec la lb) as [Hw Hp]; [by eapply Ha|by eapply Hb|]. apply ascending_permutation; [apply Hw|done|].
  intros d. rewrite Hp, filter_app, !ascending_filter_eq; [done|by eapply Hb|by eapply Ha].
Qed.

Lemma freeze_postings m t x : postings_of [seg_reader (freeze m)] t x = postings_of [mem_reader m] t x.
Proof. done. Qed.

Lemma mem_new_wf : mem_wf MemIndex_new.
Proof. intros k l H. cbn [mem_terms MemIndex_new] in H. by rewrite lookup_empty in H. Qed.

Lemma mem_new_postings t x : postings_of [mem_reader MemIndex_new] t x = [].
Proof. done. Qed.

Lemma merge_all_postings gens : forall m t x,
  Forall mem_wf (m :: gens) -> NoDup (docs (postings_of (mem_reader <$> (m :: gens)) t x)) ->
  mem_wf (fold_left merge_from gens m) /\
  postings_of [mem_reader (fold_left merge_from gens m)] t x ≡ₚ postings_of (mem_reader <$> (m :: gens)) t x.
Proof.
  induction gens as [|g gens IH]; intros m t x Hwf Hn.
  - apply Forall_cons in Hwf as [Hm _]. done.
  - apply Forall_cons in Hwf as [Hm Hwf]. apply Forall_cons in Hwf as [Hg Hwf]. cbn [fold_left].
    rewrite !fmap_cons in *. change (mem_reader m :: mem_reader g :: (mem_reader <$> gens)) with ([mem_reader m; mem_reader g] ++ (mem_reader <$> gens)) in *.
    rewrite postings_app in *. pose proof Hn as Hn0. rewrite docs_app in Hn0. apply NoDup_app in Hn0 as [Hn1 _].
    pose proof (merge_from_postings m g t x Hm Hg Hn1) as Hp.
    destruct (IH (merge_from m g) t x) as [H1 H2].
    + constructor; [by apply merge_has|done].
    + rewrite fmap_cons. change (mem_reader (merge_from m g) :: (mem_reader <$> gens)) with ([mem_reader (merge_from m g)] ++ (mem_reader <$> gens)).
      by rewrite postings_app, Hp.
    + split; [done|]. rewrite H2, fmap_cons. change (mem_reader (merge_from m g) :: (mem_reader <$> gens)) with ([mem_reader (merge_from m g)] ++ (mem_reader <$> gens)).
      by rewrite postings_app, Hp.
Qed.

(** The segment of several generations holds their postings. *)
Lemma freeze_shared_postings gens t x :
  Forall mem_wf gens -> NoDup (docs (postings_of (mem_reader <$> gens) t x)) ->
  postings_of [seg_reader (freeze_shared gens)] t x ≡ₚ postings_of (mem_reader <$> gens) t x.
Proof.
  intros Hwf Hn. rewrite freeze_shared_spec, freeze_postings.
  destruct (merge_all_postings gens MemIndex_new t x) as [_ H]; [constructor; [apply mem_new_wf|done]|done|]. by rewrite H.
Qed.

Lemma freeze_shared_wf gens k l : Forall mem_wf gens -> seg_terms (freeze_shared gens) !! k = Some l -> wf_list l.
Proof.
  intros Hwf. rewrite freeze_shared_spec. change (seg_terms (freeze ?m)) with (mem_terms m).
  assert (Hm : mem_wf (fold_left merge_from gens MemIndex_new)); [|apply Hm].
  generalize MemIndex_new, mem_new_wf. induction Hwf as [|g gens Hg _ IH]; intros m Hm; [done|]. cbn [fold_left]. apply IH. by apply merge_has.
Qed.

(** ** The postings of an index *)

Definition readers_of (self : LsmIndex) : list SearchReader :=
  mem_reader (lsm_mem self) :: (mem_reader <$> generations self) ++ (mem_reader <$> pending_generations self) ++ query_segments self.

Lemma readers_postings self t x :
  postings_of (readers_of self) t x =
  postings_of (mem_reader <$> (lsm_mem self :: generations self)) t x ++ postings_of (mem_reader <$> pending_generations self) t x
  ++ postings_of (query_segments self) t x.
Proof. by rewrite <-!postings_app. Qed.

(** Every list is sorted, and no document has two postings for a term. *)
Record searchable (self : LsmIndex) : Prop := {
  se_mem : mem_wf (lsm_mem self);
  se_generations : Forall mem_wf (generations self);
  se_pending : Forall mem_wf (pending_generations self);
  se_segments : Forall (fun r => forall t x, wf_list (r_lookup r t x)) (query_segments self);
  se_nodup t x : NoDup (docs (postings_of (readers_of self) t x))
}.

Definition live_postings (self : LsmIndex) (t : str) (x : XPathId) : list Posting :=
  filter (fun p => doc_id p ∉ deleted (lsm_deleted self)) (postings_of (readers_of self) t x).

Lemma mem_reader_lookup_wf m t x : mem_wf m -> wf_list (r_lookup (mem_reader m) t x).
Proof.
  intros Hm. cbn [mem_reader r_lookup]. unfold mem_lookup_or_empty, mem_lookup. destruct (mem_terms m !! _) eqn:E; [by eapply Hm|apply wf_new].
Qed.

Lemma readers_wf self t x : searchable self -> Forall (fun r => wf_list (r_lookup r t x)) (readers_of self).
Proof.
  intros [Hm Hg Hp Hs _]. unfold readers_of. constructor; [by apply mem_reader_lookup_wf|]. rewrite !Forall_app, !Forall_fmap. split_and!.
  - eapply Forall_impl; [exact Hg|]. intros m Hm'. by apply mem_reader_lookup_wf.
  - eapply Forall_impl; [exact Hp|]. intros m Hm'. by apply mem_reader_lookup_wf.
  - eapply Forall_impl; [exact Hs|]. intros r Hr. apply Hr.
Qed.

(** A lookup of any snapshot over the same readers. *)
Lemma snapshot_lookup sn t x :
  Forall (fun r => wf_list (r_lookup r t x)) (mem_reader (sn_mem sn) :: sn_segments sn) ->
  NoDup (docs (postings_of (mem_reader (sn_mem sn) :: sn_segments sn) t x)) ->
  docs_ascending (items (sn_lookup sn t x)) /\
  items (sn_lookup sn t x) ≡ₚ filter (fun p => doc_id p ∉ deleted (sn_deleted sn)) (postings_of (mem_reader (sn_mem sn) :: sn_segments sn) t x).
Proof.
  intros Hwf Hn. rewrite sn_lookup_spec by done. unfold live. split; [apply filter_ascending, from_items_wf|].
  by rewrite from_items_permutation.
Qed.

Lemma lookup_live self t x :
  searchable self ->
  docs_ascending (items (sn_lookup (lsm_snapshot self) t x)) /\ items (sn_lookup (lsm_snapshot self) t x) ≡ₚ live_postings self t x.
Proof.
  intros Hs. apply (snapshot_lookup (lsm_snapshot self)); [by apply readers_wf|]. apply Hs.
Qed.

(** ** Sealing *)

Lemma seal_loop_postings shared nf : forall sealed,
  mem_wf sealed -> Forall mem_wf nf ->
  let r := seal_loop shared nf sealed in
  Forall mem_wf r.1 /\ mem_wf r.2 /\
  forall t x, NoDup (docs (postings_of (mem_reader <$> (sealed :: nf)) t x)) ->
    postings_of (mem_reader <$> (r.2 :: r.1)) t x ≡ₚ postings_of (mem_reader <$> (sealed :: nf)) t x.
Proof.
  induction nf as [|newest older IH]; intros sealed Hw Hf; cbv zeta; cbn [seal_loop]; [done|].
  destruct (mem_estimated_bytes sealed <? mem_estimated_bytes newest); [done|]. destruct (shared (length older)); [done|].
  apply Forall_cons in Hf as [Hn Hf]. destruct (IH (merge_from newest sealed)) as (H1 & H2 & H3); [by apply merge_has|done|].
  split; [done|]. split; [done|]. intros t x Hnd. rewrite !fmap_cons in *.
  assert (Hp : postings_of [mem_reader (merge_from newest sealed)] t x ≡ₚ postings_of [mem_reader sealed; mem_reader newest] t x).
  { rewrite (Permutation_swap (mem_reader newest) (mem_reader sealed) []). apply merge_from_postings; [done|done|].
    rewrite (Permutation_swap (mem_reader sealed) (mem_reader newest) []).
    change (mem_reader sealed :: mem_reader newest :: (mem_reader <$> older)) with ([mem_reader sealed; mem_reader newest] ++ (mem_reader <$> older)) in Hnd.
    rewrite postings_app, docs_app in Hnd. by apply NoDup_app in Hnd as [? _]. }
  change (mem_reader sealed :: mem_reader newest :: (mem_reader <$> older)) with ([mem_reader sealed; mem_reader newest] ++ (mem_reader <$> older)) in *.
  assert (Hq : postings_of (mem_reader (merge_from newest sealed) :: (mem_reader <$> older)) t x ≡ₚ
    postings_of ([mem_reader sealed; mem_reader newest] ++ (mem_reader <$> older)) t x).
  { change (mem_reader (merge_from newest sealed) :: (mem_reader <$> older)) with ([mem_reader (merge_from newest sealed)] ++ (mem_reader <$> older)).
    by rewrite !postings_app, Hp. }
  rewrite H3; [done|]. by rewrite Hq.
Qed.

(** The index kept its searchable content. *)
Record same_content (self self' : LsmIndex) : Prop := {
  sc_searchable : searchable self';
  sc_deleted : lsm_deleted self' = lsm_deleted self;
  sc_postings t x : postings_of (readers_of self') t x ≡ₚ postings_of (readers_of self) t x
}.

Lemma same_content_refl self : searchable self -> same_content self self.
Proof. done. Qed.
Lemma same_content_trans s1 s2 s3 : same_content s1 s2 -> same_content s2 s3 -> same_content s1 s3.
Proof.
  intros [_ H1 H2] [H3 H4 H5]. constructor; [done|congruence|]. intros t x. by rewrite H5, H2.
Qed.

(** Changing the memory parts to others with the same postings. *)
Lemma content_memory self self' :
  searchable self -> lsm_deleted self' = lsm_deleted self ->
  mem_wf (lsm_mem self') -> Forall mem_wf (generations self') -> Forall mem_wf (pending_generations self') ->
  Forall (fun r => forall t x, wf_list (r_lookup r t x)) (query_segments self') ->
  (forall t x, NoDup (docs (postings_of (readers_of self) t x)) -> postings_of (readers_of self') t x ≡ₚ postings_of (readers_of self) t x) ->
  same_content self self'.
Proof.
  intros Hs Hd H1 H2 H3 H4 Hp. assert (Hp' : forall t x, postings_of (readers_of self') t x ≡ₚ postings_of (readers_of self) t x).
  { intros t x. apply Hp, Hs. }
  constructor; [|done|done]. constructor; try done. intros t x. rewrite Hp'. apply Hs.
Qed.

Lemma seal_content shared self : searchable self -> same_content self (seal shared self).
Proof.
  intros Hs. unfold seal. destruct (_ && _); [by apply same_content_refl|].
  pose proof (seal_loop_postings shared (rev (generations self)) (lsm_mem self) (se_mem _ Hs)) as Hl. cbv zeta in Hl.
  destruct Hl as (H1 & H2 & H3); [apply Forall_rev, Hs|].
  destruct (seal_loop shared (rev (generations self)) (lsm_mem self)) as [nf sealed]. cbn [fst snd] in *.
  apply content_memory; [done|done|apply mem_new_wf| |apply Hs|apply Hs|].
  - cbn [generations set_memory]. apply Forall_app. split; [by apply Forall_rev|]. by constructor.
  - intros t x Hn. rewrite !readers_postings in *. apply Permutation_app_tail. cbn [lsm_mem generations set_memory].
    assert (Hr : forall l : list MemIndex, rev l ≡ₚ l) by (intros l; by rewrite <-Permutation_rev).
    assert (Hn' : NoDup (docs (postings_of (mem_reader <$> (lsm_mem self :: rev (generations self))) t x))).
    { rewrite Hr. rewrite docs_app in Hn. by apply NoDup_app in Hn as [? _]. }
    rewrite <-(Hr (generations self)), <-H3 by done. rewrite Hr, (Permutation_app_comm nf [sealed]).
    by rewrite fmap_cons, postings_cons.
Qed.

(** The published snapshot reads the sealed index. *)
Lemma publish_content shared self t x :
  searchable self ->
  items (sn_lookup (publish_snapshot shared self).2 t x) = items (sn_lookup (lsm_snapshot self) t x).
Proof.
  intros Hs. destruct (seal_content shared self Hs) as [Hs' Hd Hp].
  destruct (lookup_live self t x Hs) as [Ha1 Hl1].
  assert (Hmem : postings_of [mem_reader (lsm_mem (seal shared self))] t x = []).
  { unfold seal. destruct (_ && _) eqn:E.
    - apply andb_true_iff in E as [E _]. apply bool_decide_eq_true in E. unfold postings_of. cbn [fmap list_fmap concat mem_reader r_lookup].
      unfold mem_lookup_or_empty, mem_lookup. apply map_size_empty_inv in E. by rewrite E, lookup_empty.
    - by destruct (seal_loop _ _ _). }
  assert (Hread : forall y, postings_of (mem_reader (lsm_mem (seal shared self)) :: y) t x = postings_of y t x).
  { intros y. change (mem_reader (lsm_mem (seal shared self)) :: y) with ([mem_reader (lsm_mem (seal shared self))] ++ y).
    by rewrite postings_app, Hmem. }
  set (sn := (publish_snapshot shared self).2).
  assert (Hparts : postings_of (mem_reader (sn_mem sn) :: sn_segments sn) t x = postings_of (readers_of (seal shared self)) t x).
  { unfold readers_of. rewrite Hread. done. }
  destruct (snapshot_lookup sn t x) as [Ha2 Hl2].
  - pose proof (readers_wf _ t x Hs') as Hw. unfold readers_of in Hw. apply Forall_cons in Hw as [_ Hw]. constructor; [apply mem_reader_lookup_wf, mem_new_wf|done].
  - rewrite Hparts. apply Hs'.
  - apply docs_ascending_unique; [done|done|]. rewrite Hl2, Hparts, Hl1. unfold live_postings.
    change (sn_deleted sn) with (lsm_deleted (seal shared self)). by rewrite Hd, Hp.
Qed.

(** ** Flushing *)

(** The generations know their document ids. *)
Record has_ids (self : LsmIndex) : Prop := {
  hi_mem : size (mem_terms (lsm_mem self)) <> 0%nat -> mem_doc_id_range (lsm_mem self) <> None;
  hi_generations : Forall (fun g => mem_doc_id_range g <> None) (generations self)
}.

Lemma track_range m d : mem_doc_id_range (track_doc_id m d) <> None.
Proof. unfold mem_doc_id_range, track_doc_id. cbn [mem_min_doc_id mem_max_doc_id]. by destruct (mem_min_doc_id m), (mem_max_doc_id m). Qed.

Lemma merge_from_range a b :
  mem_doc_id_range a <> None \/ mem_doc_id_range b <> None -> mem_doc_id_range (merge_from a b) <> None.
Proof.
  intros H. unfold merge_from. destruct (mem_doc_id_range b) as [[lo hi]|]; [apply track_range|].
  destruct H as [H|H]; [|done]. unfold mem_doc_id_range in *. done.
Qed.

Lemma seal_loop_range shared nf : forall sealed,
  mem_doc_id_range sealed <> None -> Forall (fun g => mem_doc_id_range g <> None) nf ->
  Forall (fun g => mem_doc_id_range g <> None) (seal_loop shared nf sealed).1 /\ mem_doc_id_range (seal_loop shared nf sealed).2 <> None.
Proof.
  induction nf as [|newest older IH]; intros sealed Hs Hf; cbn [seal_loop]; [done|].
  destruct (_ <? _); [done|]. destruct (shared _); [done|]. apply Forall_cons in Hf as [_ Hf].
  apply IH; [apply merge_from_range; by right|done].
Qed.

Lemma seal_has_ids shared self : has_ids self -> has_ids (seal shared self).
Proof.
  intros [Hm Hg]. unfold seal. destruct (_ && _) eqn:E; [done|].
  assert (Hr : mem_doc_id_range (lsm_mem self) <> None).
  { apply andb_false_iff in E as [E|E]; apply bool_decide_eq_false in E; [by apply Hm|done]. }
  destruct (seal_loop_range shared (rev (generations self)) (lsm_mem self) Hr) as [H1 H2]; [by apply Forall_rev|].
  destruct (seal_loop _ _ _) as [nf sealed]. cbn [fst snd] in *. constructor; [by cbn|].
  cbn [generations set_memory]. apply Forall_app. split; [by apply Forall_rev|]. by constructor.
Qed.

Lemma vec_insert_perm {A} i (a : A) l : vec_insert i a l ≡ₚ a :: l.
Proof. unfold vec_insert. by rewrite <-Permutation_middle, take_drop. Qed.

(** A pending flush becomes a segment. *)
Lemma install_content self self' p rest r :
  searchable self -> pending (flush_queue self) = p :: rest -> pending (flush_queue self') = rest ->
  lsm_deleted self' = lsm_deleted self -> lsm_mem self' = lsm_mem self -> generations self' = generations self ->
  query_segments self' ≡ₚ r :: query_segments self -> (forall t x, wf_list (r_lookup r t x)) ->
  (forall t x, items (r_lookup r t x) = items (seg_lookup_or_empty (freeze_shared (pf_generations p)) t x)) ->
  same_content self self'.
Proof.
  intros Hs Hp Hp' Hd Hm Hg Hq Hw Hl.
  assert (Hsplit : pending_generations self = pf_generations p ++ pending_generations self').
  { unfold pending_generations. by rewrite Hp, Hp'. }
  pose proof (se_pending _ Hs) as Hpend. rewrite Hsplit in Hpend. apply Forall_app in Hpend as [Hpw Hpend].
  apply content_memory; [done|done|rewrite Hm; apply Hs|rewrite Hg; apply Hs|done|rewrite Hq; constructor; [done|apply Hs]|].
  intros t x Hn. rewrite !readers_postings, Hm, Hg, Hq, postings_cons, Hl in *. apply Permutation_app_head.
  rewrite Hsplit, fmap_app, postings_app in *. rewrite !docs_app in Hn. apply NoDup_app in Hn as (_ & _ & Hn).
  apply NoDup_app in Hn as (Hn & _ & _). apply NoDup_app in Hn as (Hn & _ & _).
  pose proof (freeze_shared_postings _ t x Hpw Hn) as Hf. unfold postings_of at 1 in Hf. cbn [fmap list_fmap concat seg_reader r_lookup] in Hf.
  rewrite app_nil_r in Hf. rewrite Hf, <-app_assoc.
  by rewrite Permutation_app_swap_app.
Qed.

Section ops.
Context {FL : FstLib} {FLaws : FstLaws} {RL : RoaringLib} {RLaws : RoaringLaws} {DL : DfaLib}.
Context (display : Z -> string).

Lemma max_range_Some gens :
  gens <> [] -> Forall (fun g => mem_doc_id_range g <> None) gens ->
  foldr (fun (r : DocId * DocId) acc => Some match acc with Some m => Z.max m r.2 | None => r.2 end) None (omap mem_doc_id_range gens) <> None.
Proof.
  intros Hne Hf. destruct gens as [|g gens]; [done|]. apply Forall_cons in Hf as [Hg _]. cbn [omap list_omap].
  by destruct (mem_doc_id_range g).
Qed.

Lemma queue_flush_content fa shared self :
  searchable self -> has_ids self ->
  let self' := (queue_flush fa shared self).2 in same_content self self' /\ has_ids self'.
Proof.
  intros Hs Hi. cbv zeta. unfold queue_flush. destruct (health (flush_queue self)); [|split; [by apply same_content_refl|done]].
  pose proof (seal_content shared self Hs) as Hc. pose proof (seal_has_ids shared self Hi) as Hi'. set (s1 := seal shared self) in *. clearbody s1.
  cbv zeta. destruct (if root s1 then attempt (f_deletes fa) else Ok tt); [|done].
  case_bool_decide as Hne; [done|]. pose proof (max_range_Some _ Hne (hi_generations _ Hi')) as Hmax.
  destruct (foldr _ None (omap mem_doc_id_range (generations s1))) as [max_doc_id|]; [|done].
  cbn [root set_memory next_segment_id]. destruct (root s1).
  - cbn [snd]. split; [|by constructor; [apply Hi'|constructor]]. eapply same_content_trans; [exact Hc|].
    assert (Hpg : forall i p, pending (flush_queue i) = pending (flush_queue s1) ++ [p] -> pf_generations p = generations s1 ->
      pending_generations i = pending_generations s1 ++ generations s1).
    { intros i p Hp1 Hp2. unfold pending_generations. rewrite Hp1, fmap_app, concat_app. cbn. by rewrite Hp2, app_nil_r. }
    destruct Hc as [Hc _ _]. apply content_memory; [done|done|apply Hc|constructor| |apply Hc|].
    + erewrite Hpg by done. apply Forall_app. split; apply Hc.
    + intros t x _. rewrite !readers_postings. erewrite Hpg by done. cbn [lsm_mem generations query_segments set_queue set_ids set_memory].
      rewrite fmap_app, !fmap_cons, postings_app, !postings_cons. change (postings_of (mem_reader <$> []) t x) with (@nil Posting).
      rewrite app_nil_r, <-!app_assoc. apply Permutation_app_head.
      rewrite (Permutation_app_swap_app (postings_of (mem_reader <$> pending_generations s1) t x)). done.
  - cbn [snd]. split; [|by constructor; [apply Hi'|constructor]]. eapply same_content_trans; [exact Hc|].
    destruct Hc as [Hc _ _]. apply content_memory; [done|done|apply Hc|constructor|apply Hc| |].
    + cbn. apply Forall_app. split; [apply Hc|]. constructor; [|constructor]. intros t x. cbn [seg_reader r_lookup].
      unfold seg_lookup_or_empty, seg_lookup. destruct (seg_terms _ !! _) eqn:E; [|apply wf_new]. by eapply freeze_shared_wf; [apply Hc|].
    + intros t x Hn. rewrite !readers_postings in *. cbn [lsm_mem generations query_segments set_segments set_ids set_memory].
      change (pending_generations (set_segments _ _ _)) with (pending_generations s1).
      rewrite postings_app, freeze_shared_postings; [|apply Hc|].
      * rewrite !fmap_cons, !postings_cons, <-!app_assoc. apply Permutation_app_head.
        change (postings_of (mem_reader <$> []) t x) with (@nil Posting). cbn [app]. rewrite app_assoc. apply Permutation_app_comm.
      * rewrite fmap_cons, postings_cons, !docs_app in Hn. apply NoDup_app in Hn as (Hn & _ & _). by apply NoDup_app in Hn as (_ & _ & Hn).
Qed.

(** ** Files *)

(** A reader over the segment a handle names. *)
Definition handle_reader (files : gmap Z (list Z)) (h : SegmentHandle) (r : SearchReader) : Prop :=
  exists s, handle_holds files h s /\ (forall t x, r_lookup r t x = seg_lookup_or_empty s t x) /\
    (forall k l, seg_terms s !! k = Some l -> wf_list l).

Definition handle_path (h : SegmentHandle) : option Z := match h with HDisk path => Some path | HMemory _ => None end.

Lemma handle_holds_files files files' h s :
  (forall path, handle_path h = Some path -> files' !! path = files !! path) -> handle_holds files h s -> handle_holds files' h s.
Proof.
  intros Hf. destruct h as [m|path]; cbn [handle_holds]; [done|]. intros [Hs (bytes & Hw & Hb)]. split; [done|]. exists bytes.
  split; [done|]. by rewrite Hf.
Qed.

Lemma handle_reader_files files files' h r :
  (forall path, handle_path h = Some path -> files' !! path = files !! path) -> handle_reader files h r -> handle_reader files' h r.
Proof. intros Hf (s & Hs & Hr). exists s. split; [by eapply handle_holds_files|done]. Qed.

Lemma seg_lookup_wf s t x : (forall k l, seg_terms s !! k = Some l -> wf_list l) -> wf_list (seg_lookup_or_empty s t x).
Proof. intros Hw. unfold seg_lookup_or_empty, seg_lookup. destruct (seg_terms s !! _) eqn:E; [by eapply Hw|apply wf_new]. Qed.

Lemma handle_reader_wf files h r t x : handle_reader files h r -> wf_list (r_lookup r t x).
Proof. intros (s & _ & -> & Hw). by apply seg_lookup_wf. Qed.

(** Two segments in one file answer alike. *)
Lemma handle_holds_unique files h s s' t x :
  handle_holds files h s -> handle_holds files h s' -> seg_lookup_or_empty s t x = seg_lookup_or_empty s' t x.
Proof using FLaws RLaws.
  destruct h as [m|path]; cbn [handle_holds]; [by intros -> ->|]. intros [Hs (b & Hw & Hf)] [Hs' (b' & Hw' & Hf')].
  destruct (write_open_ok s Hs) as (b1 & d & H1 & H2 & H3). destruct (write_open_ok s' Hs') as (b2 & d' & H4 & H5 & H6).
  assert (d' = d) as -> by congruence. by rewrite <-(disk_lookup_ok s d Hs H3), <-(disk_lookup_ok s' d Hs' H6).
Qed.

(** Writing a segment and opening its file. *)
Lemma write_then_open fa disk path s disk' :
  segment_ok s -> write_segment fa disk path s = Ok disk' ->
  exists bytes d, disk' = write_file disk path bytes /\ open_path (d_files disk') path = Ok d /\
    handle_holds (d_files disk') (HDisk path) s /\ (forall t x, disk_lookup d t x = seg_lookup_or_empty s t x).
Proof using FLaws RLaws.
  intros Hs Hw. unfold write_segment in Hw. destruct (attempt (f_write fa)); [|done]. cbn [io_bind] in Hw.
  destruct (write_open_ok s Hs) as (bytes & d & H1 & H2 & H3). rewrite H1 in Hw. cbn [io_bind] in Hw. injection Hw as <-.
  exists bytes, d. split; [done|]. unfold open_path. cbn [d_files write_file handle_holds]. rewrite lookup_insert_eq. split_and!.
  - done.
  - done.
  - exists bytes. done.
  - apply (disk_lookup_ok s d Hs H3).
Qed.
End ops.
