(* ===== verification/LsmRefine.v ===== *)
(** * The LSM index refines a collection of live documents

    The index of [Lsm] runs as a labelled transition system: documents are added and deleted, and in
    between the index seals its memtable, queues and finishes segment writes, and plans, runs and
    installs compactions, with the faults of the file system. The abstract state is the collection of
    live postings per term. Every internal step keeps the collection, ingest and delete change it as
    they should, and a lookup returns exactly the collection, in document order.

    A compaction is planned, run and installed in separate steps, so that documents arrive and are
    deleted in between; as in the code's cycle, one is under way at a time. *)
From Stdlib Require Import ZArith Lia.
From stdpp Require Import base numbers list gmap sorting strings pretty.
From S2P Require Import Prelude Types Posting PostingOps Numeric ArrayRows Btree TermDict Segment MemIndex DocLengths SegmentFile SegmentRead SegmentRoundtrip SegmentDisk FuzzyIndex Snapshot MergedTerms Compaction CompactionPlan Lsm LsmCorrect.
Local Open Scope io_scope.
Local Open Scope Z_scope.

Section refine.
Context {FL : FstLib} {FLaws : FstLaws} {RL : RoaringLib} {RLaws : RoaringLaws} {DL : DfaLib}.
Context (display : Z -> string).

(** ** Worlds *)

Inductive Phase : Type := CIdle | CPlanned (job : CompactionJob) | CWritten (job : CompactionJob).
Record World : Type := mkWorld { w_index : LsmIndex; w_disk : Disk; w_phase : Phase }.

Definition reserved (ph : Phase) : list Z := match ph with CIdle => [] | CPlanned job | CWritten job => [cj_output_path job] end.
Definition used_paths (self : LsmIndex) (ph : Phase) : list Z :=
  disk_segment_paths self ++ (pf_path <$> pending (flush_queue self)) ++ reserved ph.

(** The segments of a planned compaction stay in the index, and tombstones only grow. *)
Record job_ok (self : LsmIndex) (job : CompactionJob) : Prop := {
  jo_some : cj_selected job <> [];
  jo_nodup : NoDup (cj_selected job);
  jo_live : Forall (fun h => h ∈ segment_handles self /\ is_Some (handle_path h)) (cj_selected job);
  jo_deleted : deleted (cj_deleted job) ⊆ deleted (lsm_deleted self);
  jo_generation : cj_delete_generation job <= delete_generation self;
  jo_same : cj_delete_generation job = delete_generation self -> cj_deleted job = lsm_deleted self
}.
(** The output of a run holds the live postings of the selected segments. *)
Definition output_ok (files : gmap Z (list Z)) (job : CompactionJob) : Prop :=
  exists ss s, Forall2 (handle_holds files) (cj_selected job) ss /\ handle_holds files (HDisk (cj_output_path job)) s /\
    (forall k l, seg_terms s !! k = Some l -> wf_list l) /\
    forall t x, items (seg_lookup_or_empty s t x) =
      filter (fun p => doc_id p ∉ deleted (cj_deleted job)) (items (from_items (concat ((fun s => items (seg_lookup_or_empty s t x)) <$> ss)))).
Definition phase_ok (self : LsmIndex) (files : gmap Z (list Z)) (ph : Phase) : Prop :=
  match ph with CIdle => True | CPlanned job => job_ok self job | CWritten job => job_ok self job /\ output_ok files job end.

Record world_ok (w : World) : Prop := {
  wo_search : searchable (w_index w);
  wo_ids : has_ids (w_index w);
  wo_root : root (w_index w) = true;
  wo_segments : Forall2 (handle_reader (d_files (w_disk w))) (segment_handles (w_index w)) (query_segments (w_index w));
  wo_paths : NoDup (used_paths (w_index w) (w_phase w));
  wo_next : Forall (fun p => p < next_segment_id (w_index w)) (used_paths (w_index w) (w_phase w));
  wo_bound : 0 <= next_segment_id (w_index w) /\ 0 <= delete_generation (w_index w);
  wo_phase : phase_ok (w_index w) (d_files (w_disk w)) (w_phase w)
}.

(** ** Steps *)

Inductive event : Type := EIngest (other : MemIndex) | EAdd (s : ImmutableSegment) | EDelete (d : DocId) | EInternal.

(** New postings are of documents the index does not know. *)
Definition fresh (self : LsmIndex) (postings : str -> XPathId -> list Posting) : Prop :=
  forall t x p, p ∈ postings t x -> (doc_id p ∉ deleted (lsm_deleted self)) /\ (doc_id p ∉ docs (postings_of (readers_of self) t x)).

(** No deleted document is still in memory. *)
Definition memory_live (self : LsmIndex) : Prop :=
  forall t x p, p ∈ postings_of (mem_reader <$> (lsm_mem self :: generations self ++ pending_generations self)) t x ->
    doc_id p ∉ deleted (lsm_deleted self).
(** The install drops the tombstones. *)
Definition clears (self : LsmIndex) (job : CompactionJob) : Prop :=
  length (cj_selected job) = length (segment_handles self) /\ cj_delete_generation job = delete_generation self.

Definition room (self : LsmIndex) : Prop := next_segment_id self < 2 ^ 64 - 1.
Definition completed_of (job : CompactionJob) : CompletedCompaction :=
  mkCompleted (cj_job_id job) (cj_selected job) (cj_output_path job) (cj_delete_generation job).
Definition job_of (p : PendingFlush) : FlushJob := mkJob (pf_seq p) (pf_path p) (pf_generations p).

Inductive step : World -> event -> World -> Prop :=
  | step_ingest self disk ph now other :
      mem_wf other -> mem_doc_id_range other <> None -> fresh self (fun t x => items (mem_lookup_or_empty other t x)) ->
      step (mkWorld self disk ph) (EIngest other) (mkWorld (merge_into_memtable now self other) disk ph)
  | step_add self disk ph fa now s self' disk' :
      segment_ok s -> (forall k l, seg_terms s !! k = Some l -> wf_list l) -> fresh self (fun t x => items (seg_lookup_or_empty s t x)) ->
      room self -> add_immutable_segment fa now self disk [s] = (Ok tt, self', disk') ->
      step (mkWorld self disk ph) (EAdd s) (mkWorld self' disk' ph)
  | step_delete self disk ph fa now d r self' disk' :
      delete_generation self < 2 ^ 64 - 1 -> delete_document fa now self disk d = (r, self', disk') ->
      step (mkWorld self disk ph) (EDelete d) (mkWorld self' disk' ph)
  | step_publish self disk ph shared :
      step (mkWorld self disk ph) EInternal (mkWorld (publish_snapshot shared self).1 disk ph)
  | step_queue self disk ph fa shared :
      room self -> step (mkWorld self disk ph) EInternal (mkWorld (queue_flush fa shared self).2 disk ph)
  | step_take self disk ph :
      step (mkWorld self disk ph) EInternal (mkWorld (take_flush_jobs self).1 disk ph)
  | step_flushed self disk ph fa fa' p rest written disk' r self' disk'' :
      pending (flush_queue self) = p :: rest -> segment_ok (freeze_shared (pf_generations p)) ->
      job_write display fa disk (job_of p) = (written, disk') ->
      complete_flush fa' self disk' (pf_seq p) written = (r, self', disk'') ->
      step (mkWorld self disk ph) EInternal (mkWorld self' disk'' ph)
  | step_flush_failed self disk ph fa e p rest r self' disk' :
      pending (flush_queue self) = p :: rest -> complete_flush fa self disk (pf_seq p) (Err e) = (r, self', disk') ->
      step (mkWorld self disk ph) EInternal (mkWorld self' disk' ph)
  | step_plan self disk now config self' job :
      room self -> plan_compaction now config self disk = (self', Some job) ->
      step (mkWorld self disk CIdle) EInternal (mkWorld self' disk (CPlanned job))
  | step_run self disk fa job disk' :
      (forall opened, open_handles (d_files disk) (cj_selected job) = Ok opened -> segment_ok (merged_segment (cj_deleted job) opened)) ->
      run_compaction_job fa disk job = Ok (completed_of job, disk') ->
      step (mkWorld self disk (CPlanned job)) EInternal (mkWorld self disk' (CWritten job))
  | step_run_failed self disk fa job e :
      run_compaction_job fa disk job = Err e ->
      step (mkWorld self disk (CPlanned job)) EInternal (mkWorld self (remove_file disk (cj_output_path job)) CIdle)
  | step_install self disk fa job r self' disk' :
      (clears self job -> memory_live self) ->
      install_compaction fa self disk (completed_of job) = (r, self', disk') ->
      step (mkWorld self disk (CWritten job)) EInternal (mkWorld self' disk' CIdle).

(** ** The abstract collection *)

Definition spec_step (t : str) (x : XPathId) (live : list Posting) (e : event) : list Posting :=
  match e with
  | EIngest other => live ++ items (mem_lookup_or_empty other t x)
  | EAdd s => live ++ items (seg_lookup_or_empty s t x)
  | EDelete d => filter (fun p => doc_id p <> d) live
  | EInternal => live
  end.

(** The step keeps the invariant and does to the live postings what the event says. *)
Definition sound (w : World) (e : event) (w' : World) : Prop :=
  world_ok w' /\ forall t x, live_postings (w_index w') t x ≡ₚ spec_step t x (live_postings (w_index w) t x) e.

(** ** Every step is sound *)

Lemma live_same self self' t x : same_content self self' -> live_postings self' t x ≡ₚ live_postings self t x.
Proof. intros [_ Hd Hp]. unfold live_postings. by rewrite Hd, Hp. Qed.

Lemma job_ok_frame self self' job :
  (forall h, h ∈ segment_handles self -> h ∈ segment_handles self') -> lsm_deleted self' = lsm_deleted self ->
  delete_generation self' = delete_generation self -> job_ok self job -> job_ok self' job.
Proof.
  intros Hh Hd Hg [H1 H2 H3 H4 H5 H6]. constructor; rewrite ?Hd, ?Hg; try done.
  eapply Forall_impl; [exact H3|]. intros h [Hin Hs]. split; [by apply Hh|done].
Qed.

Lemma phase_ok_frame self self' files ph :
  (forall h, h ∈ segment_handles self -> h ∈ segment_handles self') -> lsm_deleted self' = lsm_deleted self ->
  delete_generation self' = delete_generation self -> phase_ok self files ph -> phase_ok self' files ph.
Proof.
  intros H1 H2 H3. destruct ph as [|job|job]; cbn [phase_ok]; [done|by apply job_ok_frame|].
  intros [Hj Ho]. split; [by apply (job_ok_frame self)|done].
Qed.

(** The steps that leave the segments and the ids alone. *)
Lemma frame_ok self disk ph self' :
  world_ok (mkWorld self disk ph) -> searchable self' -> has_ids self' -> root self' = root self ->
  segment_handles self' = segment_handles self -> query_segments self' = query_segments self ->
  pf_path <$> pending (flush_queue self') = pf_path <$> pending (flush_queue self) ->
  next_segment_id self' = next_segment_id self -> lsm_deleted self' = lsm_deleted self ->
  delete_generation self' = delete_generation self -> world_ok (mkWorld self' disk ph).
Proof.
  intros [H1 H2 H3 H4 H5 H6 H7 H8] Hs Hi Hr Hh Hq Hp Hn Hd Hg. cbn in *.
  assert (Hu : used_paths self' ph = used_paths self ph) by (unfold used_paths, disk_segment_paths; by rewrite Hh, Hp).
  constructor; cbn; rewrite ?Hu, ?Hh, ?Hq, ?Hn, ?Hg; try done; [congruence|].
  apply (phase_ok_frame self); [by intros h; rewrite Hh|done|done|done].
Qed.

Lemma sound_internal self disk ph self' disk' ph' :
  world_ok (mkWorld self' disk' ph') -> same_content self self' -> sound (mkWorld self disk ph) EInternal (mkWorld self' disk' ph').
Proof. intros Hw Hc. split; [done|]. intros t x. by apply live_same. Qed.

Lemma filter_live_all (dels : gset Z) (l : list Posting) : (forall p, p ∈ l -> doc_id p ∉ dels) -> filter (fun p => doc_id p ∉ dels) l = l.
Proof. intros H. apply filter_all, Forall_forall. done. Qed.

Lemma sound_ingest self disk ph now other :
  world_ok (mkWorld self disk ph) -> mem_wf other -> mem_doc_id_range other <> None ->
  fresh self (fun t x => items (mem_lookup_or_empty other t x)) ->
  sound (mkWorld self disk ph) (EIngest other) (mkWorld (merge_into_memtable now self other) disk ph).
Proof.
  intros Hw Ho Hr Hf. pose proof (wo_search _ Hw) as Hs. cbn in Hs.
  assert (Hn : forall t x, NoDup (docs (postings_of (mem_reader other :: readers_of self) t x))).
  { intros t x. rewrite postings_cons, docs_app. apply NoDup_app. split_and!; [|intros d Hd|apply Hs].
    - apply docs_ascending_NoDup. by apply (mem_reader_lookup_wf other t x).
    - apply list_elem_of_fmap in Hd as (p & -> & Hp). by apply (Hf t x p). }
  assert (Hp : forall t x, postings_of (readers_of (merge_into_memtable now self other)) t x ≡ₚ postings_of (mem_reader other :: readers_of self) t x).
  { intros t x. specialize (Hn t x). unfold readers_of in *. cbn [merge_into_memtable set_memory lsm_mem generations query_segments].
    change (pending_generations (merge_into_memtable now self other)) with (pending_generations self).
    set (rest := (mem_reader <$> generations self) ++ _) in *.
    change (mem_reader other :: mem_reader (lsm_mem self) :: rest) with ([mem_reader other; mem_reader (lsm_mem self)] ++ rest) in *.
    change (mem_reader (merge_from (lsm_mem self) other) :: rest) with ([mem_reader (merge_from (lsm_mem self) other)] ++ rest).
    rewrite !postings_app in *. apply Permutation_app_tail.
    rewrite (Permutation_swap (mem_reader (lsm_mem self)) (mem_reader other) []) in *. apply merge_from_postings; [apply Hs|done|].
    rewrite docs_app in Hn. by apply NoDup_app in Hn as [? _]. }
  assert (Hs' : searchable (merge_into_memtable now self other)).
  { destruct Hs as [S1 S2 S3 S4 S5]. constructor; [by apply merge_has|exact S2|exact S3|exact S4|]. intros t x. rewrite Hp. apply Hn. }
  assert (Hi : has_ids (merge_into_memtable now self other)).
  { constructor; [|apply (wo_ids _ Hw)]. intros _. apply merge_from_range. by right. }
  split; [by apply (frame_ok self)|]. intros t x. unfold live_postings. cbn [w_index spec_step].
  change (lsm_deleted (merge_into_memtable now self other)) with (lsm_deleted self). rewrite Hp, postings_cons, filter_app. cbn [mem_reader r_lookup].
  rewrite (filter_live_all _ (items _)) by (intros p Hin; by apply (Hf t x p)). apply Permutation_app_comm.
Qed.

Lemma sound_delete self disk ph fa now d r self' disk' :
  world_ok (mkWorld self disk ph) -> delete_generation self < 2 ^ 64 - 1 -> delete_document fa now self disk d = (r, self', disk') ->
  sound (mkWorld self disk ph) (EDelete d) (mkWorld self' disk' ph).
Proof.
  intros [H1 H2 H3 H4 H5 H6 H7 H8] Hg E. cbn in *. unfold delete_document in E. cbv zeta in E. cbn [root set_deleted ingested] in E.
  assert (Hfiles : d_files disk' = d_files disk /\ self' = set_deleted (ingested self now) (delete_doc (lsm_deleted self) d) (wrap 64 (delete_generation self + 1))).
  { destruct (root self); [|by injection E as <- <- <-]. unfold append_delete in E. destruct (attempt (f_deletes fa)); by injection E as <- <- <-. }
  destruct Hfiles as [Hfiles ->]. clear E.
  assert (Hgen : wrap 64 (delete_generation self + 1) = delete_generation self + 1) by (unfold wrap; rewrite Z.mod_small; lia).
  split.
  - constructor; cbn; rewrite ?Hfiles, ?Hgen; try done.
    + destruct H1 as [S1 S2 S3 S4 S5]. by constructor.
    + destruct H2. by constructor.
    + split; [apply H7|lia].
    + assert (Hj : forall job, job_ok self job -> job_ok (set_deleted (ingested self now) (delete_doc (lsm_deleted self) d) (delete_generation self + 1)) job).
      { intros job [J1 J2 J3 J4 J5 J6]. constructor; try done; cbn; [set_solver|lia|intros; lia]. }
      destruct ph as [|job|job]; cbn [phase_ok] in *; [done|by apply Hj|]. destruct H8 as [Hj8 Ho]. split; [by apply Hj|done].
  - intros t x. unfold live_postings. cbn [w_index spec_step set_deleted ingested lsm_deleted delete_doc deleted].
    rewrite list_filter_filter. apply Permutation_refl', list_filter_iff. intros p. set_solver.
Qed.

(** What sealing and queueing leave alone. *)
Record same_segments (self self' : LsmIndex) : Prop := {
  ss_handles : segment_handles self' = segment_handles self;
  ss_readers : query_segments self' = query_segments self;
  ss_root : root self' = root self;
  ss_deleted : lsm_deleted self' = lsm_deleted self;
  ss_generation : delete_generation self' = delete_generation self
}.

Lemma seal_segments shared self :
  same_segments self (seal shared self) /\ flush_queue (seal shared self) = flush_queue self /\ next_segment_id (seal shared self) = next_segment_id self.
Proof. unfold seal. destruct (_ && _); [done|]. by destruct (seal_loop _ _ _). Qed.

Lemma queue_flush_segments fa shared self :
  root self = true ->
  let self' := (queue_flush fa shared self).2 in
  same_segments self self' /\
  ((pending (flush_queue self') = pending (flush_queue self) /\ next_segment_id self' = next_segment_id self) \/
   (exists p, pending (flush_queue self') = pending (flush_queue self) ++ [p] /\ pf_path p = next_segment_id self /\
      next_segment_id self' = wrap 64 (next_segment_id self + 1))).
Proof.
  intros Hr. cbv zeta. unfold queue_flush. destruct (health (flush_queue self)); [|split; [done|by left]].
  destruct (seal_segments shared self) as (Hs & Hq & Hn). set (s1 := seal shared self) in *. clearbody s1. cbv zeta.
  destruct Hs as [S1 S2 S3 S4 S5]. rewrite <-Hq, <-Hn. rewrite S3, Hr.
  destruct (attempt (f_deletes fa)); [|split; [done|by left]]. case_bool_decide; [split; [done|by left]|].
  destruct (foldr _ None (omap mem_doc_id_range (generations s1))); [|split; [done|by left]].
  cbn [root set_memory]. rewrite S3, Hr. split; [by constructor|]. right. by eexists.
Qed.

Lemma sound_publish self disk ph shared :
  world_ok (mkWorld self disk ph) -> sound (mkWorld self disk ph) EInternal (mkWorld (publish_snapshot shared self).1 disk ph).
Proof.
  intros Hw. destruct (seal_segments shared self) as ([S1 S2 S3 S4 S5] & Hq & Hn).
  pose proof (seal_content shared self (wo_search _ Hw)) as Hc. apply sound_internal; [|exact Hc].
  apply (frame_ok self); try done; [apply Hc|apply seal_has_ids, (wo_ids _ Hw)|]. cbn [publish_snapshot fst]. by rewrite Hq.
Qed.

Lemma sound_queue self disk ph fa shared :
  world_ok (mkWorld self disk ph) -> room self -> sound (mkWorld self disk ph) EInternal (mkWorld (queue_flush fa shared self).2 disk ph).
Proof.
  intros Hw Hroom. destruct (queue_flush_content fa shared self (wo_search _ Hw) (wo_ids _ Hw)) as [Hc Hi].
  destruct (queue_flush_segments fa shared self (wo_root _ Hw)) as ([S1 S2 S3 S4 S5] & Hq). set (self' := (queue_flush fa shared self).2) in *.
  clearbody self'. apply sound_internal; [|exact Hc]. destruct Hq as [[Hq Hn]|(p & Hq & Hp & Hn)].
  { apply (frame_ok self); try done; [apply Hc|by rewrite Hq]. }
  destruct Hw as [H1 H2 H3 H4 H5 H6 H7 H8]. cbn in *. unfold room in Hroom.
  assert (Hn' : next_segment_id self' = next_segment_id self + 1) by (rewrite Hn; unfold wrap; rewrite Z.mod_small; lia).
  assert (Hu : used_paths self' ph ≡ₚ next_segment_id self :: used_paths self ph).
  { unfold used_paths, disk_segment_paths. rewrite S1, Hq, fmap_app. cbn. rewrite Hp, <-app_assoc, app_assoc. cbn [app].
    rewrite <-Permutation_middle. by rewrite <-app_assoc. }
  constructor; cbn; rewrite ?Hu, ?Hn', ?S1, ?S2, ?S5; try done; [apply Hc|congruence| | | |].
  - apply NoDup_cons. split; [|done]. intros Hin. rewrite Forall_forall in H6. specialize (H6 _ Hin). lia.
  - constructor; [lia|]. eapply Forall_impl; [exact H6|]. simpl. lia.
  - lia.
  - apply (phase_ok_frame self); [by intros h; rewrite S1|done|done|done].
Qed.

Lemma sound_take self disk ph :
  world_ok (mkWorld self disk ph) -> sound (mkWorld self disk ph) EInternal (mkWorld (take_flush_jobs self).1 disk ph).
Proof.
  intros Hw. assert (Hc : same_content self (take_flush_jobs self).1).
  { pose proof (wo_search _ Hw) as Hs. constructor; [|done|done]. destruct Hs as [S1 S2 S3 S4 S5]. by constructor. }
  apply sound_internal; [|exact Hc]. apply (frame_ok self); try done; [apply Hc|]. destruct (wo_ids _ Hw). by constructor.
Qed.

(** *** Files that change beside the index *)

Lemma elem_of_paths self path : path ∈ disk_segment_paths self <-> HDisk path ∈ segment_handles self.
Proof.
  unfold disk_segment_paths. rewrite list_elem_of_omap. split.
  - intros (h & Hin & Hh). by destruct h; inversion Hh; subst.
  - intros Hin. by exists (HDisk path).
Qed.

Lemma segments_files files files' handles readers :
  (forall path, HDisk path ∈ handles -> files' !! path = files !! path) ->
  Forall2 (handle_reader files) handles readers -> Forall2 (handle_reader files') handles readers.
Proof.
  intros Hf Hr. induction Hr as [|h r hs rs Hhr _ IH]; constructor.
  - eapply handle_reader_files; [|exact Hhr]. intros path Hp. destruct h; [done|]. injection Hp as ->. apply Hf. left.
  - apply IH. intros path Hp. apply Hf. by right.
Qed.

Lemma holds_files files files' handles ss :
  (forall path, HDisk path ∈ handles -> files' !! path = files !! path) ->
  Forall2 (handle_holds files) handles ss -> Forall2 (handle_holds files') handles ss.
Proof.
  intros Hf Hs. induction Hs as [|h s hs ss Hh _ IH]; constructor.
  - eapply handle_holds_files; [|exact Hh]. intros path Hp. destruct h; [done|]. injection Hp as ->. apply Hf. left.
  - apply IH. intros path Hp. apply Hf. by right.
Qed.

Lemma phase_files self files files' ph :
  (forall path, path ∈ disk_segment_paths self ++ reserved ph -> files' !! path = files !! path) -> phase_ok self files ph -> phase_ok self files' ph.
Proof.
  intros Hf. destruct ph as [|job|job]; [done|done|]. intros [Hj (ss & s & H1 & H2 & H3 & H4)]. split; [done|]. exists ss, s. split_and!; try done.
  - eapply holds_files; [|exact H1]. intros path Hin. apply Hf, elem_of_app. left. apply elem_of_paths.
    pose proof (jo_live _ _ Hj) as Hlive. rewrite Forall_forall in Hlive. by apply (Hlive (HDisk path)).
  - eapply handle_holds_files; [|exact H2]. intros path [= <-]. apply Hf, elem_of_app. right. left.
Qed.

Lemma Forall2_vec_insert {A B} (P : A -> B -> Prop) i a b l k :
  P a b -> Forall2 P l k -> Forall2 P (vec_insert i a l) (vec_insert i b k).
Proof. intros Hab Hl. unfold vec_insert. apply Forall2_app; [by apply Forall2_take|]. constructor; [done|by apply Forall2_drop]. Qed.

Lemma paths_of_perm hs hs' :
  hs ≡ₚ hs' -> omap (fun h => match h with HDisk path => Some path | HMemory _ => None end) hs ≡ₚ
    omap (fun h => match h with HDisk path => Some path | HMemory _ => None end) hs'.
Proof. intros H. by rewrite H. Qed.

(** The front of the queue becomes the segment [h] with reader [r]. *)
Lemma sound_installed self disk ph self' disk' p rest pos h r :
  world_ok (mkWorld self disk ph) -> pending (flush_queue self) = p :: rest -> pending (flush_queue self') = rest ->
  segment_handles self' = vec_insert pos h (segment_handles self) -> query_segments self' = vec_insert pos r (query_segments self) ->
  lsm_mem self' = lsm_mem self -> generations self' = generations self -> lsm_deleted self' = lsm_deleted self ->
  delete_generation self' = delete_generation self -> root self' = root self -> next_segment_id self' = next_segment_id self ->
  (handle_path h = None \/ handle_path h = Some (pf_path p)) ->
  (forall path, path <> pf_path p -> d_files disk' !! path = d_files disk !! path) ->
  handle_reader (d_files disk') h r ->
  (forall t x, items (r_lookup r t x) = items (seg_lookup_or_empty (freeze_shared (pf_generations p)) t x)) ->
  sound (mkWorld self disk ph) EInternal (mkWorld self' disk' ph).
Proof.
  intros [H1 H2 H3 H4 H5 H6 H7 H8] Hp Hp' Hh Hq Hm Hg Hd Hdg Hr Hn Hpath Hfiles Hhr Hl. cbn in *.
  assert (Hc : same_content self self').
  { apply (install_content self self' p rest r); try done; [rewrite Hq; apply vec_insert_perm|]. intros t x. by eapply handle_reader_wf. }
  set (others := disk_segment_paths self ++ (pf_path <$> rest) ++ reserved ph).
  assert (Hu : used_paths self ph ≡ₚ pf_path p :: others).
  { unfold used_paths, others. rewrite Hp, fmap_cons. cbn [app]. by rewrite <-Permutation_middle. }
  assert (Hu' : used_paths self' ph ≡ₚ option_list (handle_path h) ++ others).
  { unfold used_paths, others, disk_segment_paths. rewrite Hp', Hh, (app_assoc (option_list _)).
    apply Permutation_app_tail. rewrite (paths_of_perm _ _ (vec_insert_perm pos h (segment_handles self))). cbn [omap list_omap].
    by destruct h. }
  rewrite Hu in H5, H6. apply NoDup_cons in H5 as [Hp0 H5]. apply Forall_cons in H6 as [Hlt H6].
  assert (Hkeep : forall path, path ∈ disk_segment_paths self ++ reserved ph -> d_files disk' !! path = d_files disk !! path).
  { intros path Hin. apply Hfiles. intros ->. apply Hp0. unfold others. set_solver. }
  apply sound_internal; [|exact Hc]. constructor; cbn; rewrite ?Hu', ?Hn, ?Hdg; try done.
  - apply Hc.
  - destruct H2. constructor; by rewrite ?Hm, ?Hg.
  - congruence.
  - rewrite Hh, Hq. apply Forall2_vec_insert; [done|]. eapply segments_files; [|exact H4]. intros path Hin.
    apply Hkeep, elem_of_app. left. by apply elem_of_paths.
  - destruct Hpath as [->| ->]; cbn [option_list app]; [done|]. by apply NoDup_cons.
  - destruct Hpath as [->| ->]; cbn [option_list app]; [done|]. by constructor.
  - apply (phase_ok_frame self); [intros h' Hin; rewrite Hh, vec_insert_perm; by right|done|done|]. by eapply phase_files.
Qed.

(** A flush kept in memory. *)
Lemma sound_kept self disk ph disk' p rest q e :
  world_ok (mkWorld self disk ph) -> pending (flush_queue self) = p :: rest -> pending q = rest ->
  (forall path, path <> pf_path p -> d_files disk' !! path = d_files disk !! path) ->
  let kept := keep_in_memory (set_queue self q) p in
  sound (mkWorld self disk ph) EInternal (mkWorld (set_queue kept (fq_fail (flush_queue kept) e)) disk' ph).
Proof.
  intros Hw Hp Hq Hf. cbv zeta.
  assert (Hgen : Forall mem_wf (pf_generations p)).
  { pose proof (se_pending _ (wo_search _ Hw)) as Hpend. cbn in Hpend. unfold pending_generations in Hpend. rewrite Hp in Hpend. cbn in Hpend.
    by apply Forall_app in Hpend as [? _]. }
  eapply (sound_installed self disk ph _ disk' p rest _ (HMemory (freeze_shared (pf_generations p))) (seg_reader (freeze_shared (pf_generations p))));
    try done; [by left|]. exists (freeze_shared (pf_generations p)). split_and!; try done. intros k l. by apply freeze_shared_wf.
Qed.

(** Whatever the write returned: a segment that answers as the generations, or an error. *)
Lemma sound_complete self disk ph fa disk' p rest written r self' disk'' :
  world_ok (mkWorld self disk ph) -> pending (flush_queue self) = p :: rest ->
  (forall path, path <> pf_path p -> d_files disk' !! path = d_files disk !! path) ->
  (forall d, written = Ok d -> handle_reader (d_files disk') (HDisk (pf_path p)) (disk_reader d) /\
     forall t x, disk_lookup d t x = seg_lookup_or_empty (freeze_shared (pf_generations p)) t x) ->
  complete_flush fa self disk' (pf_seq p) written = (r, self', disk'') ->
  sound (mkWorld self disk ph) EInternal (mkWorld self' disk'' ph).
Proof.
  intros Hw Hp Hf Hok E. unfold complete_flush, fq_complete in E. rewrite Hp, Z.eqb_refl in E. cbv zeta in E.
  set (q := mkQueue _ rest _ _) in E. assert (Hq : pending q = rest) by done. clearbody q.
  destruct written as [d|e]; cbn [io_bind] in E.
  - unfold install_flushed, append_segment in E. cbn [root set_queue] in E. pose proof (wo_root _ Hw) as Hroot. cbn in Hroot. rewrite Hroot in E.
    destruct (attempt (f_manifest fa)) as [[]|e]; cbn [io_bind] in E.
    + injection E as <- <- <-. destruct (Hok d eq_refl) as [Hr Hl].
      eapply (sound_installed self disk ph _ _ p rest _ (HDisk (pf_path p)) (disk_reader d)); try done; [by right|].
      intros t x. cbn [disk_reader r_lookup]. by rewrite Hl.
    + injection E as <- <- <-. by apply (sound_kept self disk ph disk' p rest q e).
  - injection E as <- <- <-. by apply (sound_kept self disk ph disk' p rest q e).
Qed.

Lemma sound_flushed self disk ph fa fa' p rest written disk' r self' disk'' :
  world_ok (mkWorld self disk ph) -> pending (flush_queue self) = p :: rest -> segment_ok (freeze_shared (pf_generations p)) ->
  job_write display fa disk (job_of p) = (written, disk') -> complete_flush fa' self disk' (pf_seq p) written = (r, self', disk'') ->
  sound (mkWorld self disk ph) EInternal (mkWorld self' disk'' ph).
Proof using FLaws RLaws display.
  intros Hw Hp Hs Hj Hc. pose proof (wo_search _ Hw) as Hse. cbn in Hse.
  assert (Hgen : Forall mem_wf (pf_generations p)).
  { pose proof (se_pending _ Hse) as Hpend. unfold pending_generations in Hpend. rewrite Hp in Hpend. cbn in Hpend. by apply Forall_app in Hpend as [? _]. }
  unfold job_write in Hj. cbn [job_of fj_path fj_generations] in Hj.
  destruct (write_segment fa disk (pf_path p) (freeze_shared (pf_generations p))) as [disk1|e] eqn:Ew; cbn [with_path] in Hj.
  - destruct (write_then_open _ _ _ _ _ Hs Ew) as (bytes & d & -> & Ho & Hh & Hl). rewrite Ho in Hj. cbn [with_path] in Hj. injection Hj as <- <-.
    eapply (sound_complete self disk ph fa' (write_file disk (pf_path p) bytes) p rest (Ok d)); [done|done| | |exact Hc].
    + intros path Hne. cbn [d_files write_file]. by rewrite lookup_insert_ne.
    + intros d' [= <-]. split; [|done]. exists (freeze_shared (pf_generations p)). split_and!; [done|done|]. intros k l. by apply freeze_shared_wf.
  - injection Hj as <- <-. eapply (sound_complete self disk ph fa' disk p rest); [done|done|done| |exact Hc]. intros d Hd. discriminate Hd.
Qed.

(** *** Adding a segment *)

Lemma segment_added_pending q :
  pf_generations <$> pending (segment_added q) = pf_generations <$> pending q /\ pf_path <$> pending (segment_added q) = pf_path <$> pending q.
Proof. unfold segment_added. cbn [pending]. rewrite <-!list_fmap_compose. done. Qed.

Lemma sound_add self disk ph fa now s self' disk' :
  world_ok (mkWorld self disk ph) -> segment_ok s -> (forall k l, seg_terms s !! k = Some l -> wf_list l) ->
  fresh self (fun t x => items (seg_lookup_or_empty s t x)) -> room self ->
  add_immutable_segment fa now self disk [s] = (Ok tt, self', disk') -> sound (mkWorld self disk ph) (EAdd s) (mkWorld self' disk' ph).
Proof using FLaws RLaws display.
  intros [H1 H2 H3 H4 H5 H6 H7 H8] Hs Hwf Hf Hroom E. cbn in *. unfold room in Hroom.
  unfold add_immutable_segment in E. cbn [add_segments_loop root ingested next_segment_id] in E. rewrite H3 in E. cbv zeta in E.
  set (path := next_segment_id self) in *.
  destruct (write_segment fa disk path s) as [disk1|] eqn:Ew; [|done]. destruct (write_then_open _ _ _ _ _ Hs Ew) as (bytes & d & -> & Ho & Hh & Hl).
  rewrite Ho in E. unfold append_segment in E. destruct (attempt (f_manifest fa)); [|done]. cbn [io_bind] in E.
  set (self1 := set_queue _ _) in E. injection E as <- <-.
  assert (Hnext : next_segment_id self1 = path + 1). { cbn. unfold wrap. rewrite Z.mod_small; lia. }
  destruct (segment_added_pending (flush_queue self)) as [Hpg Hpp].
  assert (Hpg1 : pending_generations self1 = pending_generations self) by (unfold pending_generations; cbn [flush_queue self1 set_queue set_segments set_ids ingested]; by rewrite Hpg).
  assert (Hdp : disk_segment_paths self1 = disk_segment_paths self ++ [path]) by (unfold disk_segment_paths; cbn; by rewrite omap_app).
  assert (Hu : used_paths self1 ph ≡ₚ path :: used_paths self ph).
  { unfold used_paths. rewrite Hdp. cbn [flush_queue self1 set_queue set_segments set_ids ingested]. rewrite Hpp, <-app_assoc. cbn [app].
    by rewrite <-Permutation_middle. }
  assert (Hpost : forall t x, postings_of (readers_of self1) t x ≡ₚ postings_of (readers_of self) t x ++ items (seg_lookup_or_empty s t x)).
  { intros t x. rewrite !readers_postings, Hpg1. cbn [lsm_mem generations query_segments self1 set_queue set_segments set_ids ingested].
    rewrite postings_app, postings_cons. cbn [disk_reader r_lookup]. rewrite Hl. change (postings_of [] t x) with (@nil Posting).
    by rewrite app_nil_r, !app_assoc. }
  assert (Hfresh : path ∉ used_paths self ph). { intros Hin. rewrite Forall_forall in H6. specialize (H6 _ Hin). unfold path in H6. lia. }
  assert (Hkeep : forall path', path' ∈ disk_segment_paths self ++ reserved ph -> <[path:=bytes]> (d_files disk) !! path' = d_files disk !! path').
  { intros path' Hin. apply lookup_insert_ne. intros <-. apply Hfresh. unfold used_paths. set_solver. }
  assert (Hr : handle_reader (<[path:=bytes]> (d_files disk)) (HDisk path) (disk_reader d)) by (by exists s).
  split.
  - constructor; cbn [w_index w_disk w_phase d_files write_file]; rewrite ?Hu, ?Hnext; try done.
    + destruct H1 as [S1 S2 S3 S4 S5]. constructor; [done|done|by rewrite Hpg1| |].
      * cbn. apply Forall_app. split; [done|]. constructor; [|constructor]. intros t x. by eapply handle_reader_wf.
      * intros t x. rewrite Hpost, docs_app. apply NoDup_app. split_and!; [done| |apply docs_ascending_NoDup; by apply seg_lookup_wf].
        intros dd Hd (p & -> & Hin)%list_elem_of_fmap. by destruct (Hf t x p Hin).
    + destruct H2. by constructor.
    + cbn. apply Forall2_app; [|by constructor]. eapply segments_files; [|exact H4]. intros path' Hin. apply Hkeep, elem_of_app. left. by apply elem_of_paths.
    + by apply NoDup_cons.
    + constructor; [lia|]. eapply Forall_impl; [exact H6|]. unfold path. simpl. lia.
    + cbn. unfold path. lia.
    + apply (phase_ok_frame self); [cbn; intros h Hin; apply elem_of_app; by left|done|done|]. by eapply phase_files.
  - intros t x. unfold live_postings. cbn [w_index spec_step]. change (lsm_deleted self1) with (lsm_deleted self). rewrite Hpost, filter_app.
    by rewrite (filter_live_all _ (items _)) by (intros p Hin; by apply (Hf t x p)).
Qed.

(** *** Planning *)

Lemma compaction_window_disk now config self disk window :
  compaction_window now config self disk = Some window -> disk_window (segment_sizes self disk) window.
Proof.
  unfold compaction_window. cbv zeta. destruct (Nat.ltb_spec (length (omap id (segment_sizes self disk))) 2) as [|Hge]; [done|].
  destruct (_ && _); [done|]. destruct (quiet_for now self (idle_merge_after config) && _) eqn:Eq.
  - destruct (merge_all_due _ _); [|apply tiered_window_disk]. intros [= <-]. apply andb_true_iff in Eq as [_ Eq]. apply bool_decide_eq_true in Eq.
    split; cbn [fst snd]; [lia|]. exists (omap id (segment_sizes self disk)). unfold disk_run. rewrite Nat.sub_0_r, drop_0, firstn_all. split; [|done].
    clear Hge. revert Eq. induction (segment_sizes self disk) as [|[v|] l IH]; [done| |].
    + intros Eq. cbn in Eq. injection Eq as Eq. cbn. f_equal. by apply IH.
    + intros Eq. exfalso. cbn in Eq. assert (Hle : forall l : list (option Z), (length (omap id l) <= length l)%nat).
      { clear. induction l as [|[v|] l IH]; cbn; lia. } specialize (Hle l). cbn in Hle. lia.
  - destruct (_ <=? _)%nat; [|done]. destruct (tiered_window _ _ _ _) eqn:Et; [intros [= <-]; by eapply tiered_window_disk|].
    destruct (_ <? _)%nat; [apply cheapest_window_disk|done].
Qed.

Lemma selected_disk self disk start stop :
  disk_window (segment_sizes self disk) (start, stop) ->
  let selected := take (stop - start) (drop start (segment_handles self)) in
  selected <> [] /\ Forall (fun h => h ∈ segment_handles self /\ is_Some (handle_path h)) selected.
Proof.
  intros [Hlt (vs & Hrun & Hlen)]. cbv zeta. cbn [fst snd] in *.
  assert (Hr : (fun h => match h with HDisk _ => Some (Z.max (segment_size_bytes disk h) 1) | HMemory _ => None end) <$>
    take (stop - start) (drop start (segment_handles self)) = Some <$> vs).
  { rewrite fmap_take, fmap_drop. exact Hrun. }
  split.
  - intros Hnil. rewrite Hnil in Hr. destruct vs; [cbn in Hlen; lia|done].
  - apply Forall_forall. intros h Hin. split.
    + rewrite <-(take_drop start (segment_handles self)), <-(take_drop (stop - start) (drop start (segment_handles self))). set_solver.
    + destruct h as [m|path]; [|by exists path]. exfalso.
      apply (list_elem_of_fmap_2 (fun h => match h with HDisk _ => Some (Z.max (segment_size_bytes disk h) 1) | HMemory _ => None end)) in Hin.
      rewrite Hr in Hin. by apply list_elem_of_fmap in Hin as (v & ? & _).
Qed.

Lemma disk_handles_NoDup hs :
  Forall (fun h => is_Some (handle_path h)) hs -> NoDup (omap handle_path hs) -> NoDup hs.
Proof.
  induction hs as [|h hs IH]; intros Hd Hn; [constructor|]. apply Forall_cons in Hd as [[path Hp] Hd]. cbn in Hn. rewrite Hp in Hn.
  apply NoDup_cons in Hn as [Hnot Hn]. constructor; [|by apply IH]. intros Hin. apply Hnot. apply list_elem_of_omap. by exists h.
Qed.

Lemma sound_plan self disk now config self' job :
  world_ok (mkWorld self disk CIdle) -> room self -> plan_compaction now config self disk = (self', Some job) ->
  sound (mkWorld self disk CIdle) EInternal (mkWorld self' disk (CPlanned job)).
Proof.
  intros [H1 H2 H3 H4 H5 H6 H7 H8] Hroom E. cbn in *. unfold room in Hroom. unfold plan_compaction in E. rewrite H3 in E.
  destruct (compaction_window now config self disk) as [[start stop]|] eqn:Ew; [|done]. injection E as <- <-.
  apply compaction_window_disk in Ew. destruct (selected_disk _ _ _ _ Ew) as [Hne Hsel].
  set (selected := take (stop - start) (drop start (segment_handles self))) in *.
  set (self1 := set_ids _ _ _ _).
  assert (Hc : same_content self self1) by (constructor; [by destruct H1 as [S1 S2 S3 S4 S5]; constructor|done|done]).
  assert (Hnext : next_segment_id self1 = next_segment_id self + 1). { cbn. unfold wrap. rewrite Z.mod_small; lia. }
  assert (Hfresh : next_segment_id self ∉ used_paths self CIdle). { intros Hin. rewrite Forall_forall in H6. specialize (H6 _ Hin). lia. }
  set (job := mkCompactionJob _ _ _ _ _).
  assert (Hu : used_paths self1 (CPlanned job) ≡ₚ next_segment_id self :: used_paths self CIdle).
  { unfold used_paths. cbn [reserved cj_output_path job]. rewrite app_nil_r, app_assoc. rewrite <-Permutation_cons_append. done. }
  apply sound_internal; [|exact Hc]. constructor; cbn [w_index w_disk w_phase]; rewrite ?Hu, ?Hnext; try done.
  - apply Hc.
  - destruct H2. by constructor.
  - by apply NoDup_cons.
  - constructor; [lia|]. eapply Forall_impl; [exact H6|]. simpl. lia.
  - cbn. lia.
  - constructor; cbn [cj_selected cj_deleted cj_delete_generation job]; try done. apply disk_handles_NoDup.
    + eapply Forall_impl; [exact Hsel|]. by intros h [_ ?].
    + unfold used_paths in H5. apply NoDup_app in H5 as [H5 _]. unfold disk_segment_paths in H5.
      rewrite <-(take_drop start (segment_handles self)), omap_app in H5. apply NoDup_app in H5 as (_ & _ & H5).
      rewrite <-(take_drop (stop - start) (drop start (segment_handles self))), omap_app in H5. by apply NoDup_app in H5 as (H5 & _).
Qed.

(** *** Running a compaction *)

Lemma readers_hold files handles readers :
  Forall2 (handle_reader files) handles readers -> Forall (fun h => exists s, handle_holds files h s) handles.
Proof. induction 1 as [|h r hs rs (s & Hs & _) _ IH]; constructor; [by exists s|done]. Qed.

Lemma choose_segments files hs : Forall (fun h => exists s, handle_holds files h s) hs -> exists ss, Forall2 (handle_holds files) hs ss.
Proof. induction 1 as [|h hs (s & Hs) _ (ss & IH)]; [by exists []|]. exists (s :: ss). by constructor. Qed.

Lemma sound_run self disk fa job disk' :
  world_ok (mkWorld self disk (CPlanned job)) ->
  (forall opened, open_handles (d_files disk) (cj_selected job) = Ok opened -> segment_ok (merged_segment (cj_deleted job) opened)) ->
  run_compaction_job fa disk job = Ok (completed_of job, disk') ->
  sound (mkWorld self disk (CPlanned job)) EInternal (mkWorld self disk' (CWritten job)).
Proof using FLaws RLaws display.
  intros [H1 H2 H3 H4 H5 H6 H7 H8] Hok E. cbn in *. unfold run_compaction_job in E. destruct (attempt (f_write fa)); [|done]. cbn [io_bind] in E.
  assert (Hss : exists ss, Forall2 (handle_holds (d_files disk)) (cj_selected job) ss).
  { apply choose_segments. pose proof (readers_hold _ _ _ H4) as Hall. rewrite Forall_forall in Hall.
    eapply Forall_impl; [apply (jo_live _ _ H8)|]. intros h [Hin _]. by apply Hall. }
  destruct Hss as (ss & Hss). destruct (compact_run _ _ _ _ Hss Hok) as (opened & bytes & Hopen & Hmok & Hcomp & Hw).
  rewrite Hcomp in E. cbn [io_bind] in E. injection E as <-.
  assert (Hfresh : forall path, path ∈ disk_segment_paths self -> path <> cj_output_path job).
  { intros path Hin ->. unfold used_paths in H5. cbn [reserved] in H5. apply NoDup_app in H5 as (_ & H5 & _). apply (H5 _ Hin). set_solver. }
  apply sound_internal; [|by apply same_content_refl]. constructor; cbn [w_index w_disk w_phase d_files write_file]; try done.
  - eapply segments_files; [|exact H4]. intros path Hin. apply lookup_insert_ne. apply not_eq_sym, Hfresh. by apply elem_of_paths.
  - split; [done|]. exists ss, (merged_segment (cj_deleted job) opened). split_and!.
    + eapply holds_files; [|exact Hss]. intros path Hin. apply lookup_insert_ne. apply not_eq_sym, Hfresh, elem_of_paths.
      pose proof (jo_live _ _ H8) as Hl. rewrite Forall_forall in Hl. by apply (Hl (HDisk path)).
    + cbn [handle_holds]. split; [done|]. exists bytes. by rewrite lookup_insert_eq.
    + intros k l. by eapply merged_segment_wf.
    + intros t x. by apply merged_segment_lookup.
Qed.

Lemma sound_run_failed self disk job :
  world_ok (mkWorld self disk (CPlanned job)) -> sound (mkWorld self disk (CPlanned job)) EInternal (mkWorld self (remove_file disk (cj_output_path job)) CIdle).
Proof.
  intros [H1 H2 H3 H4 H5 H6 H7 H8]. cbn in *. apply sound_internal; [|by apply same_content_refl].
  unfold used_paths in *. cbn [reserved] in *. rewrite app_assoc in H5, H6. apply NoDup_app in H5 as (H5 & Hd & _). apply Forall_app in H6 as [H6 _].
  constructor; cbn [w_index w_disk w_phase d_files remove_file]; try done.
  - eapply segments_files; [|exact H4]. intros path Hin. apply lookup_delete_ne. intros <-.
    apply elem_of_paths in Hin. apply (Hd (cj_output_path job)); [apply elem_of_app; by left|left].
  - unfold used_paths. cbn [reserved]. by rewrite app_nil_r.
  - unfold used_paths. cbn [reserved]. by rewrite app_nil_r.
Qed.
End refine.
