(* ===== verification/LsmInstall.v ===== *)
(** * Installing a compaction

    The install step of the transition system of [LsmRefine]: the selected segments are found and
    removed, the output takes the place of the first, and the tombstones are dropped when every
    segment was merged. With it, every step is sound, and the runs of the index refine the abstract
    collection. *)
From Stdlib Require Import ZArith Lia.
From stdpp Require Import base numbers list gmap sorting strings pretty.
From S2P Require Import Prelude Types Posting PostingOps Numeric ArrayRows Btree TermDict Segment MemIndex DocLengths SegmentFile SegmentRead SegmentRoundtrip SegmentDisk FuzzyIndex Snapshot MergedTerms Compaction CompactionPlan Lsm LsmCorrect LsmRefine.
Local Open Scope io_scope.
Local Open Scope Z_scope.

(** ** Removing positions *)

Lemma remove_positions_snoc {A} ps p (l : list A) : remove_positions (ps ++ [p]) l = remove_positions ps (delete p l).
Proof. unfold remove_positions. rewrite rev_app_distr. done. Qed.

Lemma remove_positions_perm {A} (ps : list nat) : forall l : list A,
  StronglySorted lt ps -> Forall (fun p => (p < length l)%nat) ps -> l ≡ₚ omap (fun p => l !! p) ps ++ remove_positions ps l.
Proof.
  induction ps as [|p ps IH] using rev_ind; intros l Hs Hb; [done|]. apply Forall_app in Hb as [Hb Hp]. apply Forall_cons in Hp as [Hp _].
  apply StronglySorted_app in Hs as (Hlt & Hs & _).
  destruct (lookup_lt_is_Some_2 l p Hp) as [a Ha]. rewrite remove_positions_snoc, omap_app.
  assert (Hq : forall q, q ∈ ps -> (q < p)%nat). { intros q Hq. apply Hlt; [done|left]. }
  assert (Hsame : omap (fun q => l !! q) ps = omap (fun q => delete p l !! q) ps).
  { clear -Hq. induction ps as [|q ps IH]; [done|]. cbn [omap list_omap]. rewrite list_lookup_delete_lt by (apply Hq; left).
    rewrite IH; [done|]. intros q' Hq'. apply Hq. by right. }
  rewrite Hsame. cbn [omap list_omap]. rewrite Ha. rewrite <-app_assoc. cbn [app]. rewrite <-Permutation_middle, <-IH; [by apply delete_Permutation|done|].
  apply Forall_forall. intros q Hin. rewrite length_delete by done. specialize (Hq q Hin). lia.
Qed.

Lemma remove_positions_Forall2 {A B} (P : A -> B -> Prop) ps : forall l k,
  Forall2 P l k -> Forall2 P (remove_positions ps l) (remove_positions ps k).
Proof.
  unfold remove_positions. induction (rev ps) as [|p qs IH]; intros l k H; [done|]. cbn [fold_left]. apply IH. by apply Forall2_delete.
Qed.

Lemma found_NoDup {A} (l sel : list A) ps : Forall2 (fun h i => l !! i = Some h) sel ps -> NoDup sel -> NoDup ps.
Proof.
  induction 1 as [|h i hs js Hi Hs IH]; intros Hn; [constructor|].
  apply NoDup_cons in Hn as [Hh Hn]. constructor; [|by apply IH]. intros Hii. apply Hh.
  apply list_elem_of_lookup in Hii as [j Hj]. destruct (Forall2_lookup_r _ _ _ _ _ Hs Hj) as (h' & Hh' & Hl). simpl in Hl.
  assert (h' = h) as -> by congruence. by eapply list_elem_of_lookup_2.
Qed.

Lemma found_omap {A} (l sel : list A) ps : Forall2 (fun h i => l !! i = Some h) sel ps -> omap (fun i => l !! i) ps = sel.
Proof. induction 1 as [|h i hs js Hi Hs IH]; [done|]. cbn [omap list_omap]. by rewrite Hi, IH. Qed.

Lemma found_related {A B} (P : A -> B -> Prop) l k sel ps :
  Forall2 P l k -> Forall2 (fun h i => l !! i = Some h) sel ps -> Forall2 P sel (omap (fun i => k !! i) ps).
Proof.
  intros Hp. induction 1 as [|h i hs js Hi Hs IH]; [constructor|]. cbn [omap list_omap].
  destruct (Forall2_lookup_l _ _ _ _ _ Hp Hi) as (r & Hr & Hpr). rewrite Hr. by constructor.
Qed.

Section positions.
Context {B : Type} (P : SegmentHandle -> B -> Prop) (handles : list SegmentHandle) (readers : list B) (Hp : Forall2 P handles readers).
Context (selected : list SegmentHandle) (Hnd : NoDup selected) (Hin : Forall (fun h => h ∈ handles) selected).

Definition positions : list nat := omap (fun handle => fst <$> list_find (fun live => live = handle) handles) selected.
Definition sorted_positions : list nat := remove_dups (merge_sort (≤)%nat positions).

Lemma find_handle h : h ∈ handles -> exists i, (fst <$> list_find (fun live => live = h) handles) = Some i /\ handles !! i = Some h.
Proof.
  intros Hh. destruct (list_find_elem_of (fun live => live = h) handles h Hh eq_refl) as [[i h'] Hf]. exists i. rewrite Hf. split; [done|].
  apply list_find_Some in Hf as (Hi & -> & _). done.
Qed.

Lemma positions_spec : Forall2 (fun h i => handles !! i = Some h) selected positions.
Proof using Hin.
  unfold positions. clear Hnd. induction Hin as [|h hs Hh Hrest IH]; [constructor|]. cbn [omap list_omap].
  destruct (find_handle h Hh) as (i & -> & Hi). constructor; [done|]. by apply IH.
Qed.

Lemma positions_length : length positions = length selected.
Proof using Hin. symmetry. eapply Forall2_length, positions_spec. Qed.

Lemma positions_NoDup : NoDup positions.
Proof using Hnd Hin.
  apply (found_NoDup handles selected); [apply positions_spec|apply Hnd].
Qed.

Lemma sorted_positions_perm : sorted_positions ≡ₚ positions /\ StronglySorted lt sorted_positions.
Proof using Hnd Hin.
  unfold sorted_positions. pose proof (merge_sort_Permutation (≤)%nat positions) as Hm.
  pose proof (StronglySorted_merge_sort (≤)%nat positions) as Hs. set (l := merge_sort (≤)%nat positions) in *. clearbody l.
  assert (Hn : NoDup l) by (rewrite Hm; apply positions_NoDup).
  assert (Hr : remove_dups l = l).
  { clear Hs Hm. induction Hn as [|x l Hx Hn IH]; [done|]. cbn [remove_dups]. destruct (decide_rel _ x l); [done|]. by rewrite IH. }
  rewrite Hr. split; [done|]. clear Hm Hr. induction Hs as [|x l Hs IH Hx]; [constructor|]. apply NoDup_cons in Hn as [Hnx Hn].
  constructor; [by apply IH|]. rewrite Forall_forall in Hx |- *. intros y Hy. specialize (Hx y Hy). assert (x <> y) by congruence. lia.
Qed.

(** The handles and the readers of the selection, and what is left. *)
Lemma selection_split :
  exists rsel, Forall2 P selected rsel /\ handles ≡ₚ selected ++ remove_positions sorted_positions handles /\
    readers ≡ₚ rsel ++ remove_positions sorted_positions readers.
Proof using Hp Hnd Hin.
  destruct sorted_positions_perm as [Hperm Hsort]. pose proof positions_spec as Hspec.
  assert (Hb : Forall (fun p => (p < length handles)%nat) sorted_positions).
  { rewrite Hperm. apply Forall_forall. intros i Hi. apply list_elem_of_lookup in Hi as [j Hj].
    destruct (Forall2_lookup_r _ _ _ _ _ Hspec Hj) as (h & _ & Hl). by eapply lookup_lt_Some. }
  exists (omap (fun p => readers !! p) positions). split_and!.
  - by apply (found_related P handles).
  - etransitivity; [apply (remove_positions_perm sorted_positions handles Hsort Hb)|]. apply Permutation_app_tail. rewrite Hperm.
    by rewrite (found_omap handles selected positions Hspec).
  - etransitivity; [apply (remove_positions_perm sorted_positions readers Hsort)|apply Permutation_app_tail; by rewrite Hperm].
    by rewrite <-(Forall2_length _ _ _ Hp).
Qed.
End positions.

Section install.
Context {FL : FstLib} {FLaws : FstLaws} {RL : RoaringLib} {RLaws : RoaringLaws} {DL : DfaLib}.
Context (display : Z -> string).

(** ** The content of the output *)

Lemma selected_postings files selected rsel ss t x :
  Forall2 (handle_reader files) selected rsel -> Forall2 (handle_holds files) selected ss ->
  concat ((fun s => items (seg_lookup_or_empty s t x)) <$> ss) = postings_of rsel t x.
Proof using FLaws RLaws display.
  intros Hr. revert ss. induction Hr as [|h r hs rs (s & Hs & Hl & _) _ IH]; intros ss Hss.
  - by apply Forall2_nil_inv_l in Hss as ->.
  - apply Forall2_cons_inv_l in Hss as (s' & ss' & Hs' & Hss & ->). rewrite fmap_cons, postings_cons. cbn [concat].
    by rewrite (IH _ Hss), Hl, (handle_holds_unique _ _ _ _ t x Hs Hs').
Qed.

Lemma remove_selected_files disk (sel : list SegmentHandle) path :
  HDisk path ∉ sel ->
  d_files (fold_left (fun disk handle => match handle with HDisk path => remove_file disk path | HMemory _ => disk end) sel disk) !! path
    = d_files disk !! path.
Proof.
  revert disk. induction sel as [|h sel IH]; intros disk Hn; [done|]. cbn [fold_left]. rewrite IH by set_solver.
  destruct h as [m|p]; [done|]. cbn [d_files remove_file]. apply lookup_delete_ne. set_solver.
Qed.

(** The index after the swap of the selected segments for the output. *)
Section swap.
Context (self : LsmIndex) (disk : Disk) (job : CompactionJob) (Hw : world_ok (mkWorld self disk (CWritten job))).
Context (d : DiskSegment) (s : ImmutableSegment) (rsel : list SearchReader) (ss : list ImmutableSegment).
Context (Hrsel : Forall2 (handle_reader (d_files disk)) (cj_selected job) rsel).
Context (Hss : Forall2 (handle_holds (d_files disk)) (cj_selected job) ss).
Context (Hhold : handle_holds (d_files disk) (HDisk (cj_output_path job)) s).
Context (Hswf : forall k l, seg_terms s !! k = Some l -> wf_list l).
Context (Hd : forall t x, disk_lookup d t x = seg_lookup_or_empty s t x).
Context (Hs : forall t x, items (seg_lookup_or_empty s t x) =
  filter (fun p => doc_id p ∉ deleted (cj_deleted job)) (items (from_items (concat ((fun s => items (seg_lookup_or_empty s t x)) <$> ss))))).
Context (pos : nat) (hrest : list SegmentHandle) (rrest : list SearchReader).
Context (Hhandles : segment_handles self ≡ₚ cj_selected job ++ hrest) (Hreaders : query_segments self ≡ₚ rsel ++ rrest).
Context (Hrest : Forall2 (handle_reader (d_files disk)) hrest rrest).

Definition swapped : LsmIndex :=
  set_segments self (vec_insert pos (HDisk (cj_output_path job)) hrest) (vec_insert pos (disk_reader d) rrest).

Definition memory_postings (t : str) (x : XPathId) : list Posting :=
  postings_of (mem_reader <$> (lsm_mem self :: generations self)) t x ++ postings_of (mem_reader <$> pending_generations self) t x.

Lemma before_postings t x : postings_of (readers_of self) t x ≡ₚ postings_of rsel t x ++ memory_postings t x ++ postings_of rrest t x.
Proof using All.
  rewrite readers_postings, Hreaders, postings_app. unfold memory_postings. rewrite <-!app_assoc.
  rewrite (Permutation_app_swap_app (postings_of (mem_reader <$> pending_generations self) t x)).
  by rewrite Permutation_app_swap_app.
Qed.

Lemma before_NoDup t x : NoDup (docs (postings_of rsel t x ++ memory_postings t x ++ postings_of rrest t x)).
Proof using All. rewrite <-before_postings. apply (wo_search _ Hw). Qed.

Lemma output_postings t x : items (disk_lookup d t x) ≡ₚ filter (fun p => doc_id p ∉ deleted (cj_deleted job)) (postings_of rsel t x).
Proof using All.
  rewrite Hd, Hs, (selected_postings _ _ _ _ t x Hrsel Hss). rewrite from_items_permutation; [done|].
  pose proof (before_NoDup t x) as Hn. rewrite docs_app in Hn. by apply NoDup_app in Hn as [? _].
Qed.

Lemma after_postings t x :
  postings_of (readers_of swapped) t x ≡ₚ
  filter (fun p => doc_id p ∉ deleted (cj_deleted job)) (postings_of rsel t x) ++ memory_postings t x ++ postings_of rrest t x.
Proof using All.
  rewrite readers_postings. cbn [lsm_mem generations query_segments swapped set_segments].
  change (pending_generations swapped) with (pending_generations self). rewrite vec_insert_perm, postings_cons.
  cbn [disk_reader r_lookup]. rewrite output_postings. unfold memory_postings. rewrite <-!app_assoc.
  rewrite (Permutation_app_swap_app (postings_of (mem_reader <$> pending_generations self) t x)).
  by rewrite Permutation_app_swap_app.
Qed.

Lemma swapped_searchable : searchable swapped.
Proof using All.
  pose proof (wo_search _ Hw) as [S1 S2 S3 S4 S5]. cbn in *. constructor; try done.
  - cbn [query_segments swapped set_segments]. rewrite vec_insert_perm. constructor.
    + intros t x. cbn [disk_reader r_lookup]. rewrite Hd. by apply seg_lookup_wf.
    + rewrite Hreaders in S4. by apply Forall_app in S4 as [_ S4].
  - intros t x. rewrite after_postings. eapply sublist_NoDup; [apply (before_NoDup t x)|].
    rewrite !docs_app. apply sublist_app; [|done]. unfold docs. apply (fmap_sublist doc_id), sublist_filter.
Qed.

(** The remaining files are untouched. *)
Lemma swapped_ok disk' dels :
  (forall path, HDisk path ∉ cj_selected job -> d_files disk' !! path = d_files disk !! path) ->
  world_ok (mkWorld (set_deleted swapped dels (delete_generation self)) disk' CIdle).
Proof using All.
  intros Hf. pose proof swapped_searchable as Hse. destruct Hw as [H1 H2 H3 H4 H5 H6 H7 H8]. cbn in *. destruct H8 as [Hj _].
  assert (Hpaths : disk_segment_paths self ≡ₚ omap handle_path (cj_selected job) ++ omap handle_path hrest).
  { unfold disk_segment_paths. rewrite <-omap_app. apply paths_of_perm, Hhandles. }
  assert (Hnew : disk_segment_paths swapped ≡ₚ cj_output_path job :: omap handle_path hrest).
  { unfold disk_segment_paths. cbn [segment_handles swapped set_segments]. by rewrite (paths_of_perm _ _ (vec_insert_perm _ _ _)). }
  assert (Hused : used_paths self (CWritten job) ≡ₚ omap handle_path (cj_selected job) ++ used_paths swapped CIdle).
  { unfold used_paths. rewrite Hpaths, Hnew. cbn [reserved flush_queue swapped set_segments]. rewrite app_nil_r, <-!app_assoc. apply Permutation_app_head.
    rewrite app_assoc. rewrite <-Permutation_cons_append. done. }
  rewrite Hused in H5, H6. apply NoDup_app in H5 as (_ & Hdisj & H5). apply Forall_app in H6 as [_ H6].
  assert (Hsel : forall path, path ∈ used_paths swapped CIdle -> HDisk path ∉ cj_selected job).
  { intros path Hin Hp. apply (Hdisj path); [|done]. apply list_elem_of_omap. by exists (HDisk path). }
  constructor; cbn [w_index w_disk w_phase]; try done.
  - destruct Hse as [S1 S2 S3 S4 S5]. by constructor.
  - destruct H2. by constructor.
  - cbn [segment_handles query_segments set_deleted swapped set_segments].
    apply (segments_files (d_files disk)).
    + intros path Hin. apply Hf, Hsel. unfold used_paths. apply elem_of_app. left. by apply elem_of_paths.
    + apply Forall2_vec_insert; [|done]. exists s. split_and!; [done|exact Hd|done].
Qed.

(** Nothing is lost while the tombstones stay. *)
Lemma swapped_live t x : live_postings swapped t x ≡ₚ live_postings self t x.
Proof using All.
  unfold live_postings. change (lsm_deleted swapped) with (lsm_deleted self). rewrite after_postings, before_postings, !filter_app.
  apply Permutation_app_tail. rewrite list_filter_filter. apply Permutation_refl', list_filter_iff. intros p.
  pose proof (wo_phase _ Hw) as [Hj _]. cbn in Hj. pose proof (jo_deleted _ _ Hj). set_solver.
Qed.

(** Nothing reappears when they are dropped, if no deleted document is still in memory. *)
Lemma cleared_live t x :
  hrest = [] -> cj_deleted job = lsm_deleted self -> memory_live self ->
  live_postings (set_deleted swapped DeleteSet_new (delete_generation self)) t x ≡ₚ live_postings self t x.
Proof using All.
  intros Hnil Hsame Hmem.
  assert (Hr : rrest = []) by (apply length_zero_iff_nil; by rewrite <-(Forall2_length _ _ _ Hrest), Hnil). unfold live_postings.
  change (readers_of (set_deleted swapped DeleteSet_new (delete_generation self))) with (readers_of swapped).
  cbn [lsm_deleted set_deleted DeleteSet_new deleted]. rewrite after_postings, before_postings, !filter_app, Hr.
  change (postings_of [] t x) with (@nil Posting). rewrite Hsame, list_filter_filter.
  assert (Hm : forall p, p ∈ memory_postings t x -> doc_id p ∉ deleted (lsm_deleted self)).
  { intros p Hp. apply (Hmem t x). rewrite fmap_cons, fmap_app, postings_cons, postings_app. unfold memory_postings in Hp.
    rewrite fmap_cons, postings_cons, <-app_assoc in Hp. exact Hp. }
  rewrite (filter_live_all ∅ (memory_postings t x)) by (intros; apply not_elem_of_empty).
  rewrite (filter_live_all _ (memory_postings t x)) by done.
  apply Permutation_app_tail, Permutation_refl', list_filter_iff. intros p. rewrite elem_of_empty. tauto.
Qed.
End swap.

Lemma open_output files path s :
  handle_holds files (HDisk path) s -> exists d, open_path files path = Ok d /\ (forall t x, disk_lookup d t x = seg_lookup_or_empty s t x).
Proof using FLaws RLaws.
  intros [Hs (bytes & Hw & Hf)]. destruct (write_open_ok s Hs) as (bytes' & d & H1 & H2 & H3). assert (bytes' = bytes) as -> by congruence.
  exists d. unfold open_path. rewrite Hf. split; [done|]. by apply (disk_lookup_ok s d Hs H3).
Qed.

Lemma sound_install self disk fa job r self' disk' :
  world_ok (mkWorld self disk (CWritten job)) -> (clears self job -> memory_live self) ->
  install_compaction fa self disk (completed_of job) = (r, self', disk') ->
  sound (mkWorld self disk (CWritten job)) EInternal (mkWorld self' disk' CIdle).
Proof using FLaws RLaws display.
  intros Hw Hclear E. pose proof (wo_phase _ Hw) as [Hj (ss & s & Hss & Hhold & Hswf & Hs)]. cbn in Hss, Hhold, Hj.
  assert (Hin : Forall (fun h => h ∈ segment_handles self) (cj_selected job)) by (eapply Forall_impl; [apply (jo_live _ _ Hj)|]; by intros h [? _]).
  destruct (selection_split _ _ _ (wo_segments _ Hw) (cj_selected job) (jo_nodup _ _ Hj) Hin) as (rsel & Hrsel & Hh & Hq). cbn in Hh, Hq, Hrsel.
  destruct (open_output _ _ _ Hhold) as (d & Hopen & Hd).
  destruct (sorted_positions_perm (segment_handles self) (cj_selected job) (jo_nodup _ _ Hj) Hin) as [Hperm _].
  pose proof (positions_length (segment_handles self) (cj_selected job) Hin) as Hlen.
  pose proof (remove_positions_Forall2 (handle_reader (d_files disk)) (sorted_positions (segment_handles self) (cj_selected job)) _ _ (wo_segments _ Hw)) as Hrest.
  unfold install_compaction in E. pose proof (wo_root _ Hw) as Hroot. cbn in Hroot, Hrest. rewrite Hroot in E. cbn [negb completed_of cc_selected cc_output_path cc_delete_generation] in E.
  change (omap (fun handle => fst <$> list_find (fun live => live = handle) (segment_handles self)) (cj_selected job))
    with (positions (segment_handles self) (cj_selected job)) in E.
  rewrite Hlen, Nat.eqb_refl in E. cbn [negb] in E. rewrite Hopen in E. cbv zeta in E.
  change (remove_dups (merge_sort (≤)%nat (positions (segment_handles self) (cj_selected job))))
    with (sorted_positions (segment_handles self) (cj_selected job)) in E.
  set (sp := sorted_positions (segment_handles self) (cj_selected job)) in *. clearbody sp.
  set (hrest := remove_positions sp (segment_handles self)) in *. set (rrest := remove_positions sp (query_segments self)) in *. clearbody hrest rrest.
  destruct sp as [|pos sp].
  { exfalso. apply (jo_some _ _ Hj), length_zero_iff_nil. apply Permutation_length in Hperm. cbn in Hperm. congruence. }
  clear Hperm Hlen.
  pose proof (swapped_ok self disk job Hw d s rsel ss Hrsel Hss Hhold Hswf Hd Hs pos hrest rrest Hh Hq Hrest) as Hok.
  change (set_segments self _ _) with (swapped self job d pos hrest rrest) in E.
  pose proof (swapped_live self disk job Hw d s rsel ss Hrsel Hss Hhold Hswf Hd Hs pos hrest rrest Hh Hq Hrest) as Hlive.
  pose proof (cleared_live self disk job Hw d s rsel ss Hrsel Hss Hhold Hswf Hd Hs pos hrest rrest Hh Hq Hrest) as Hcleared.
  assert (Hsame : set_deleted (swapped self job d pos hrest rrest) (lsm_deleted self) (delete_generation self) = swapped self job d pos hrest rrest) by (by destruct self).
  unfold compact_manifest in E. destruct (attempt (f_manifest fa)) as [[]|e]; cbn [io_bind] in E.
  2: { injection E as <- <- <-. split; [rewrite <-Hsame; by apply Hok|exact Hlive]. }
  match type of E with context [fold_left ?f ?l ?d] => set (disk1 := fold_left f l d) in E end.
  assert (Hfiles : forall path, HDisk path ∉ cj_selected job -> d_files disk1 !! path = d_files disk !! path).
  { intros path Hp. unfold disk1. by rewrite remove_selected_files. }
  clearbody disk1. change (delete_generation (swapped self job d pos hrest rrest)) with (delete_generation self) in E.
  destruct (_ && _) eqn:Ec.
  - apply andb_true_iff in Ec as [Eall Egen]. apply Nat.eqb_eq in Eall. apply Z.eqb_eq in Egen.
    assert (Hnil : hrest = []). { apply length_zero_iff_nil. apply Permutation_length in Hh. rewrite length_app in Hh. lia. }
    assert (Hml : memory_live self) by (by apply Hclear). pose proof (jo_same _ _ Hj Egen) as Hdel.
    unfold clear_deletes in E. destruct (attempt (f_deletes fa)) as [[]|e]; cbn [io_bind] in E; injection E as <- <- <-;
      (split; [by apply Hok|intros t x; by apply Hcleared]).
  - injection E as <- <- <-. split; [rewrite <-Hsame; by apply Hok|exact Hlive].
Qed.

(** ** Every step *)

Lemma step_sound w e w' : world_ok w -> step display w e w' -> sound w e w'.
Proof using FLaws RLaws display.
  intros Hw Hstep. destruct Hstep.
  - by apply sound_ingest.
  - by eapply sound_add.
  - by eapply sound_delete.
  - by apply sound_publish.
  - by apply sound_queue.
  - by apply sound_take.
  - by eapply sound_flushed.
  - by eapply (sound_complete self disk ph fa disk p rest (Err e)).
  - by eapply sound_plan.
  - by eapply sound_run.
  - by eapply sound_run_failed.
  - by eapply sound_install.
Qed.

(** ** Runs *)

Inductive runs : World -> list event -> World -> Prop :=
  | runs_nil w : runs w [] w
  | runs_cons w e w' es w'' : step display w e w' -> runs w' es w'' -> runs w (e :: es) w''.

#[local] Instance spec_step_perm t x : Proper (Permutation ==> eq ==> Permutation) (spec_step t x).
Proof. intros l1 l2 H e ? <-. destruct e; cbn [spec_step]; by rewrite ?H. Qed.

Lemma spec_fold_perm t x es l1 l2 : l1 ≡ₚ l2 -> fold_left (spec_step t x) es l1 ≡ₚ fold_left (spec_step t x) es l2.
Proof. revert l1 l2. induction es as [|e es IH]; intros l1 l2 H; [done|]. cbn [fold_left]. apply IH. by rewrite H. Qed.

Lemma runs_sound w es w' :
  world_ok w -> runs w es w' ->
  world_ok w' /\ forall t x, live_postings (w_index w') t x ≡ₚ fold_left (spec_step t x) es (live_postings (w_index w) t x).
Proof using FLaws RLaws display.
  intros Hw Hr. induction Hr as [w|w e w1 es w2 Hstep _ IH]; [done|].
  destruct (step_sound w e w1 Hw Hstep) as [Hw1 Hp]. destruct (IH Hw1) as [Hw2 Hl]. split; [done|]. intros t x. rewrite Hl.
  cbn [fold_left]. by apply spec_fold_perm.
Qed.

(** A new index on an empty disk. *)
Definition new_world (threshold : Z) : World :=
  mkWorld (mkLsm MemIndex_new [] [] [] threshold FlushQueue_default DeleteSet_new 0 true 0 0 0 0 None) (mkDisk ∅ [] []) CIdle.

Lemma new_world_ok threshold : world_ok (new_world threshold).
Proof.
  constructor; cbn; try done; try constructor; cbn; try done; try constructor.
Qed.

End install.
