(* ===== verification/LsmExample.v ===== *)
(** * Runs of the LSM index

    A run that shows the hypotheses of [lsm_refines] can be met, and three runs that show what the
    refinement leaves out: tombstones that are dropped while a deleted document is still in memory,
    array rows of deleted documents that compaction keeps, and a deleted document id that hides the
    array row with the same number. *)
From Stdlib Require Import ZArith Lia.
From stdpp Require Import base numbers list gmap sorting strings pretty.
From S2P Require Import Prelude Types Posting PostingOps Numeric ArrayRows Btree TermDict Segment MemIndex DocLengths SegmentFile SegmentRead SegmentRoundtrip SegmentDisk FuzzyIndex Snapshot MergedTerms Compaction CompactionPlan Lsm LsmCorrect LsmRefine LsmInstall.
Local Open Scope io_scope.
Local Open Scope Z_scope.

Module LsmExample.
#[local] Existing Instance Toy.fst_lib.
#[local] Existing Instance Toy.fst_laws.
#[local] Existing Instance Toy.roaring_lib.
#[local] Existing Instance Toy.roaring_laws.
#[local] Existing Instance FuzzyToy.dfa_lib.

Definition display (path : Z) : string := pretty path.
Definition hi : str := [104; 105].
(** One document with the text "hi". *)
Definition doc (d : DocId) : MemIndex :=
  add_analyzed_document MemIndex_new (mkDocument d (mkTarget [mkAnalyzedField 1 1 [mkAnalyzedTerm hi [16] 5]] [] []) []).
Definition alone (_ : nat) : bool := false.
Definition found (self : LsmIndex) : list DocId := docs (items (lsm_lookup self hi 1)).

Definition start : LsmIndex := w_index (new_world 1000).
Definition empty_disk : Disk := w_disk (new_world 1000).

(** Adds a document and flushes it into a segment. *)
Definition load (d : DocId) (st : LsmIndex * Disk) : LsmIndex * Disk :=
  let '(r, self, disk) := flush display no_faults alone (merge_into_memtable 0 st.1 (doc d)) st.2 in (self, disk).

(** Two segments, document 5 in memory and deleted. *)
Definition loaded : LsmIndex * Disk := load 2 (load 1 (start, empty_disk)).
Definition deleted5 : LsmIndex * Disk :=
  let '(r, self, disk) := delete_document no_faults 0 (merge_into_memtable 0 loaded.1 (doc 5)) loaded.2 5 in (self, disk).

(** Plans, runs and installs a compaction after 100 seconds. *)
Definition compact (st : LsmIndex * Disk) : option (io_result bool * LsmIndex) :=
  match plan_compaction 100000 CompactionConfig_default st.1 st.2 with
  | (self, Some job) =>
    match run_compaction_job no_faults st.2 job with
    | Ok (completed, disk) => let '(r, self, _) := install_compaction no_faults self disk completed in Some (r, self)
    | Err _ => None
    end
  | (_, None) => None
  end.

(** The default configuration, ten seconds after the last write: every segment is merged, the
    tombstones are dropped, and the deleted document, still in the memtable, is found again. *)
Theorem tombstones_dropped_too_early :
  found deleted5.1 = [1; 2] /\
  match compact deleted5 with Some (Ok true, self) => Some (found self) | _ => None end = Some [1; 2; 5].
Proof. split; vm_compute; reflexivity. Qed.

(** ** Array rows *)

(** A document with one array row, whose field 2 holds "hi". *)
Definition row_doc (d : DocId) (row : ArrayRowId) : MemIndex :=
  add_analyzed_document MemIndex_new
    (mkDocument d (mkTarget [] [] []) [mkRow row None (mkTarget [mkAnalyzedField 2 1 [mkAnalyzedTerm hi [16] 5]] [] [])]).
Definition load_row (d : DocId) (row : ArrayRowId) (st : LsmIndex * Disk) : LsmIndex * Disk :=
  let '(r, self, disk) := flush display no_faults alone (merge_into_memtable 0 st.1 (row_doc d row)) st.2 in (self, disk).
(** The documents whose rows hold "hi": the rows of the list, resolved to documents. *)
Definition found_rows (self : LsmIndex) : list DocId :=
  elements (lsm_resolve_array_rows self (list_to_set (docs (items (lsm_lookup self hi 2))))).

(** Documents 5 and 7 with rows 20 and 21 in two segments, document 5 deleted. *)
Definition rows_deleted5 : LsmIndex * Disk :=
  let st := load_row 7 21 (load_row 5 20 (start, empty_disk)) in
  let '(r, self, disk) := delete_document no_faults 0 st.1 st.2 5 in (self, disk).

(** Compaction drops the postings of a deleted document but not those of its rows, nor the rows
    themselves; once the tombstones are dropped the document is found again through its rows. *)
Theorem rows_of_deleted_documents_return :
  found_rows rows_deleted5.1 = [7] /\
  match compact rows_deleted5 with Some (Ok true, self) => Some (found_rows self) | _ => None end = Some [7; 5].
Proof. split; vm_compute; reflexivity. Qed.

(** Row ids and document ids are filtered by the same tombstones: deleting document 5 hides row 5 of
    document 7, which is not deleted. *)
Theorem deleted_id_hides_row :
  let self := merge_into_memtable 0 start (row_doc 7 5) in
  let '(_, after, _) := delete_document no_faults 0 self empty_disk 5 in
  found_rows self = [7] /\ found_rows after = [] /\ sn_is_deleted (lsm_snapshot after) 7 = false /\
  sn_doc_of_row (lsm_snapshot after) 5 = Some 7.
Proof. vm_compute. repeat split; reflexivity. Qed.

(** ** A run *)

Definition mem7 : MemIndex := merge_from MemIndex_new (doc 7).
Definition mem78 : MemIndex := merge_from mem7 (doc 8).

Lemma doc_wf d : mem_wf (doc d).
Proof. apply add_document_spec, mem_new_wf. Qed.

Lemma lookup_hi m l t x :
  mem_terms m = {[ TermKey_new hi 1 := l ]} -> items (mem_lookup_or_empty m t x) = if decide (TermKey_new hi 1 = TermKey_new t x) then items l else [].
Proof.
  intros E. unfold mem_lookup_or_empty, mem_lookup. rewrite E. case_decide as Hk; [by rewrite Hk, lookup_singleton_eq|by rewrite lookup_singleton_ne].
Qed.

Lemma doc_terms d : mem_terms (doc d) = {[ TermKey_new hi 1 := mkPostingList [mkPosting d [16] 5] 5 ]}.
Proof. reflexivity. Qed.

Lemma doc_segment_fits : segment_ok (freeze_shared [mem78]).
Proof.
  assert (E : freeze_shared [mem78] =
    ImmutableSegment_new {[ TermKey_new hi 1 := mkPostingList [mkPosting 7 [16] 5; mkPosting 8 [16] 5] 5 ]} {[ (7, 1) := 1; (8, 1) := 1 ]}
      (build_field_stats [((7, 1), 1); ((8, 1), 1)]) ∅ ∅ (ArrayRowIndex_new 0)) by (vm_compute; reflexivity).
  rewrite E. clear E. constructor; cbn [seg_terms seg_doc_lengths seg_numeric_fields seg_bool_fields seg_array_row_index ImmutableSegment_new].
  - intros k l Hk. apply lookup_singleton_Some in Hk as [<- <-]. constructor; repeat constructor; vm_compute; congruence.
  - vm_compute. split; congruence.
  - vm_compute. congruence.
  - intros k len [[<- <-]|[_ [<- <-]%lookup_singleton_Some]]%lookup_insert_Some; repeat constructor; vm_compute; congruence.
  - vm_compute. split; congruence.
  - intros x f Hx. by rewrite lookup_empty in Hx.
  - vm_compute. split; congruence.
  - intros x f Hx. by rewrite lookup_empty in Hx.
  - vm_compute. split; congruence.
  - repeat constructor; vm_compute; congruence.
  - vm_compute. reflexivity.
  - vm_compute. repeat split; congruence.
  - intros bytes E. vm_compute in E. injection E as <-. vm_compute. congruence.
Qed.

Lemma doc_items d t x q : q ∈ items (mem_lookup_or_empty (doc d) t x) -> t = hi /\ x = 1 /\ q = mkPosting d [16] 5.
Proof.
  rewrite (lookup_hi _ _ t x (doc_terms d)). destruct (decide (TermKey_new hi 1 = TermKey_new t x)) as [Hk|_]; intros Hq; [|by apply elem_of_nil in Hq].
  injection Hk as <- <-. by apply list_elem_of_singleton in Hq as ->.
Qed.

Lemma fresh8 : fresh (merge_into_memtable 0 start (doc 7)) (fun t x => items (mem_lookup_or_empty (doc 8) t x)).
Proof.
  intros t x q (-> & -> & ->)%doc_items. split; [apply not_elem_of_empty|].
  assert (E : docs (postings_of (readers_of (merge_into_memtable 0 start (doc 7))) hi 1) = [7]) by (vm_compute; reflexivity).
  rewrite E. cbn [doc_id]. by intros ?%list_elem_of_singleton.
Qed.

Lemma flush_generation fa self disk seq written r self' disk' :
  complete_flush fa self disk seq written = (r, self', disk') -> delete_generation self' = delete_generation self.
Proof.
  unfold complete_flush. destruct (fq_complete (flush_queue self) seq) as [[p q]|]; [|by intros [= <- <- <-]]. cbv zeta.
  destruct written as [d|e]; cbn [io_bind]; [|by intros [= <- <- <-]]. unfold install_flushed. destruct (root _); [|by intros [= <- <- <-]].
  destruct (append_segment _ _ _); cbn [io_bind]; by intros [= <- <- <-].
Qed.

End LsmExample.
