(* ===== verification/LsmDurable.v ===== *)
(** * Flushing and reopening

    [LsmIndex::flush] without file faults writes everything the index holds in memory, and
    [LsmIndex::persistent] on the resulting disk opens an index that answers every term lookup as the
    index did before the flush. *)
From Stdlib Require Import ZArith Lia.
From stdpp Require Import base numbers list gmap sorting strings pretty.
From S2P Require Import Prelude Types Posting PostingOps Numeric ArrayRows Btree TermDict Segment MemIndex DocLengths SegmentFile SegmentRead SegmentRoundtrip SegmentDisk FuzzyIndex Snapshot MergedTerms Compaction CompactionPlan Lsm LsmCorrect LsmRefine LsmInstall LsmExample.
Local Open Scope io_scope.
Local Open Scope Z_scope.

Lemma Forall2_permute {A B} (R : A -> B -> Prop) l1 l2 k1 : l1 ≡ₚ l2 -> Forall2 R l1 k1 -> exists k2, k1 ≡ₚ k2 /\ Forall2 R l2 k2.
Proof.
  intros Hp. revert k1. induction Hp as [|a l1 l2 _ IH|a b l|l1 l2 l3 _ IH1 _ IH2]; intros k1 Hf.
  - apply Forall2_nil_inv_l in Hf as ->. by exists [].
  - apply Forall2_cons_inv_l in Hf as (b & k & Hab & Hf & ->). destruct (IH k Hf) as (k2 & Hk & H2). exists (b :: k2). split; [by f_equiv|by constructor].
  - apply Forall2_cons_inv_l in Hf as (b' & k & Hb & Hf & ->). apply Forall2_cons_inv_l in Hf as (a' & k' & Ha & Hf & ->).
    exists (a' :: b' :: k'). split; [apply Permutation_swap|by repeat constructor].
  - destruct (IH1 k1 Hf) as (k2 & Hk2 & H2). destruct (IH2 k2 H2) as (k3 & Hk3 & H3). exists k3. split; [by etrans|done].
Qed.

Section durable.
Context {FL : FstLib} {FLaws : FstLaws} {RL : RoaringLib} {RLaws : RoaringLaws} {DL : DfaLib}.
Context (display : Z -> string).

(** ** Readers over the same files *)

Lemma handle_readers_agree files handles rs1 rs2 t x :
  Forall2 (handle_reader files) handles rs1 -> Forall2 (handle_reader files) handles rs2 -> postings_of rs1 t x = postings_of rs2 t x.
Proof using FLaws RLaws.
  intros H1. revert rs2. induction H1 as [|h r hs rs (s & Hs & Hl & _) _ IH]; intros rs2 H2.
  - by apply Forall2_nil_inv_l in H2 as ->.
  - apply Forall2_cons_inv_l in H2 as (r' & rs' & (s' & Hs' & Hl' & _) & H2 & ->). rewrite !postings_cons, Hl, Hl'.
    by rewrite (handle_holds_unique _ _ _ _ t x Hs Hs'), (IH _ H2).
Qed.

Lemma handle_readers_permuted files hs1 hs2 rs1 rs2 t x :
  hs1 ≡ₚ hs2 -> Forall2 (handle_reader files) hs1 rs1 -> Forall2 (handle_reader files) hs2 rs2 -> postings_of rs1 t x ≡ₚ postings_of rs2 t x.
Proof using FLaws RLaws.
  intros Hp H1 H2. destruct (Forall2_permute _ _ _ _ Hp H1) as (rs & Hr & H3). rewrite Hr. by rewrite (handle_readers_agree _ _ _ _ t x H3 H2).
Qed.

(** ** Reopening *)

Definition stored (files : gmap Z (list Z)) (path : Z) : Prop :=
  exists s, handle_holds files (HDisk path) s /\ (forall k l, seg_terms s !! k = Some l -> wf_list l).

Lemma open_segments_ok disk paths : forall self,
  Forall (stored (d_files disk)) paths ->
  exists self' rs, open_segments disk paths self = Ok self' /\ query_segments self' = query_segments self ++ rs /\
    Forall2 (handle_reader (d_files disk)) (HDisk <$> paths) rs /\
    lsm_mem self' = lsm_mem self /\ generations self' = generations self /\ flush_queue self' = flush_queue self /\ lsm_deleted self' = lsm_deleted self.
Proof using FLaws RLaws.
  induction paths as [|path paths IH]; intros self Hst.
  - exists self, []. rewrite app_nil_r. by repeat split.
  - apply Forall_cons in Hst as [(s & Hs & Hwf) Hst]. destruct (open_output _ _ _ Hs) as (d & Ho & Hd).
    cbn [open_segments]. rewrite Ho. cbn [io_bind]. cbv zeta.
    match goal with |- context [open_segments disk paths ?i] => destruct (IH i Hst) as (self' & rs & H1 & H2 & H3 & H4 & H5 & H6 & H7) end.
    exists self', (disk_reader d :: rs). rewrite H2. cbn [query_segments]. rewrite <-app_assoc. split_and!; try done.
    rewrite fmap_cons. constructor; [|done]. exists s. by split_and!.
Qed.

(** The disk describes the index: the manifest names its segments, the deletes its tombstones. *)
Record described (self : LsmIndex) (disk : Disk) : Prop := {
  de_disk : Forall (fun h => is_Some (handle_path h)) (segment_handles self);
  de_manifest : d_manifest disk ≡ₚ disk_segment_paths self;
  de_deletes : deleted (lsm_deleted self) = list_to_set (d_deletes disk)
}.

Lemma handles_of_paths hs : Forall (fun h => is_Some (handle_path h)) hs -> HDisk <$> omap handle_path hs = hs.
Proof. induction 1 as [|h hs [path Hp] _ IH]; [done|]. destruct h as [m|p]; [done|]. cbn. by f_equal. Qed.

Lemma fold_delete_doc l s : deleted (fold_left delete_doc l s) = deleted s ∪ list_to_set l.
Proof.
  revert s. induction l as [|d l IH]; intros s; cbn [fold_left list_to_set]; [set_solver|]. rewrite IH. cbn [delete_doc deleted]. set_solver.
Qed.

Lemma reopen_ok self disk ph threshold :
  world_ok (mkWorld self disk ph) -> described self disk ->
  (forall t x, postings_of (mem_reader <$> (lsm_mem self :: generations self ++ pending_generations self)) t x = []) ->
  exists self', persistent disk threshold = Ok self' /\
    forall t x, items (lsm_lookup self' t x) = items (lsm_lookup self t x).
Proof using FLaws RLaws display.
  intros Hw [Hd1 Hd2 Hd3] Hmem. pose proof (wo_search _ Hw) as Hse. pose proof (wo_segments _ Hw) as Hseg. cbn in Hse, Hseg.
  assert (Hhs : HDisk <$> d_manifest disk ≡ₚ segment_handles self).
  { rewrite Hd2. change (disk_segment_paths self) with (omap handle_path (segment_handles self)). by rewrite handles_of_paths. }
  assert (Hst : Forall (stored (d_files disk)) (d_manifest disk)).
  { apply Forall_forall. intros path Hin. apply (list_elem_of_fmap_2 HDisk) in Hin. rewrite Hhs in Hin.
    apply list_elem_of_lookup in Hin as [i Hi]. destruct (Forall2_lookup_l _ _ _ _ _ Hseg Hi) as (r & _ & s & Hs & _ & Hwf). by exists s. }
  unfold persistent. match goal with |- context [open_segments disk _ ?i] => destruct (open_segments_ok disk (d_manifest disk) i Hst) as (self' & rs & H1 & H2 & H3 & H4 & H5 & H6 & H7) end.
  cbn in H2, H4, H5, H6, H7. exists self'. split; [done|].
  assert (Hdel : deleted (lsm_deleted self') = deleted (lsm_deleted self)). { rewrite H7, fold_delete_doc, Hd3. cbn [deleted DeleteSet_new]. set_solver. }
  assert (Hold : forall t x, postings_of (readers_of self) t x = postings_of (query_segments self) t x).
  { intros t' x'. specialize (Hmem t' x'). rewrite fmap_cons, fmap_app, postings_cons, postings_app in Hmem.
    rewrite readers_postings, fmap_cons, postings_cons. rewrite app_assoc in Hmem. by rewrite app_assoc, Hmem. }
  assert (Hnew : forall t x, postings_of (readers_of self') t x = postings_of rs t x).
  { intros t' x'. rewrite readers_postings, H2, H4, H5. unfold pending_generations. by rewrite H6. }
  assert (Hp : forall t x, postings_of (readers_of self') t x ≡ₚ postings_of (readers_of self) t x).
  { intros t' x'. rewrite Hold, Hnew. by eapply handle_readers_permuted. }
  assert (Hse' : searchable self').
  { constructor.
    - rewrite H4. apply mem_new_wf.
    - rewrite H5. constructor.
    - unfold pending_generations. rewrite H6. constructor.
    - rewrite H2. apply Forall_forall. intros r Hr t' x'. apply list_elem_of_lookup in Hr as [i Hi].
      destruct (Forall2_lookup_r _ _ _ _ _ H3 Hi) as (h & _ & Hh). by eapply handle_reader_wf.
    - intros t' x'. rewrite Hp. apply Hse. }
  intros t x. destruct (lookup_live self t x Hse) as [Ha Hl]. destruct (lookup_live self' t x Hse') as [Ha' Hl'].
  apply docs_ascending_unique; [done|done|]. rewrite Hl, Hl'. unfold live_postings. by rewrite Hdel, Hp.
Qed.

(** ** Draining the queue *)

(** One write without faults. *)
Lemma write_one self disk ph p rest :
  world_ok (mkWorld self disk ph) -> described self disk -> pending (flush_queue self) = p :: rest -> segment_ok (freeze_shared (pf_generations p)) ->
  exists written disk1 self' disk', job_write display no_faults disk (job_of p) = (written, disk1) /\
    complete_flush no_faults self disk1 (pf_seq p) written = (Ok tt, self', disk') /\
    world_ok (mkWorld self' disk' ph) /\ described self' disk' /\ pending (flush_queue self') = rest /\
    lsm_mem self' = lsm_mem self /\ generations self' = generations self /\
    forall t x, live_postings self' t x ≡ₚ live_postings self t x.
Proof using FLaws RLaws.
  intros Hw [Hd1 Hd2 Hd3] Hp Hs.
  destruct (write_open_ok _ Hs) as (bytes & d & Hwrite & Hopen & _).
  set (disk1 := write_file disk (pf_path p) bytes).
  assert (Hjob : job_write display no_faults disk (job_of p) = (Ok d, disk1)).
  { unfold job_write, write_segment. cbn [job_of fj_path fj_generations no_faults f_write attempt io_bind]. rewrite Hwrite. cbn [io_bind with_path].
    unfold open_path. cbn [d_files write_file]. rewrite lookup_insert_eq. cbn [io_of_option io_bind]. by rewrite Hopen. }
  pose proof (wo_root _ Hw) as Hroot. cbn in Hroot.
  destruct (complete_flush no_faults self disk1 (pf_seq p) (Ok d)) as [[r self'] disk'] eqn:Hc.
  pose proof (sound_flushed display self disk ph no_faults no_faults p rest (Ok d) disk1 r self' disk' Hw Hp Hs Hjob Hc) as [Hok Hlive].
  unfold complete_flush, fq_complete in Hc. rewrite Hp, Z.eqb_refl in Hc. cbn [io_bind] in Hc. unfold install_flushed in Hc.
  cbn [root set_queue] in Hc. rewrite Hroot in Hc. cbn [append_segment attempt no_faults f_manifest io_bind] in Hc. injection Hc as <- <- <-.
  eexists (Ok d), disk1, _, _. split_and!; [exact Hjob| |exact Hok| |done|done|done|exact Hlive].
  - unfold complete_flush, fq_complete. rewrite Hp, Z.eqb_refl. cbn [io_bind]. unfold install_flushed. cbn [root set_queue]. by rewrite Hroot.
  - constructor; cbn [segment_handles set_segments d_manifest d_deletes lsm_deleted set_queue]; [| |exact Hd3].
    + rewrite vec_insert_perm. constructor; [by exists (pf_path p)|done].
    + unfold disk_segment_paths. cbn [segment_handles set_segments set_queue]. rewrite (paths_of_perm _ _ (vec_insert_perm _ _ _)). cbn [omap list_omap].
      rewrite <-Permutation_cons_append. by f_equiv.
Qed.

Lemma flush_jobs_ok ps : forall self disk ph,
  world_ok (mkWorld self disk ph) -> described self disk -> pending (flush_queue self) = ps ->
  Forall (fun p => segment_ok (freeze_shared (pf_generations p))) ps ->
  exists self' disk', flush_jobs display no_faults self disk (job_of <$> ps) = (Ok tt, self', disk') /\
    world_ok (mkWorld self' disk' ph) /\ described self' disk' /\ pending (flush_queue self') = [] /\
    lsm_mem self' = lsm_mem self /\ generations self' = generations self /\ forall t x, live_postings self' t x ≡ₚ live_postings self t x.
Proof using FLaws RLaws.
  induction ps as [|p ps IH]; intros self disk ph Hw Hd Hp Hs.
  - exists self, disk. by split_and!.
  - apply Forall_cons in Hs as [Hsp Hs].
    destruct (write_one self disk ph p ps Hw Hd Hp Hsp) as (written & disk1 & s1 & d1 & Hj & Hc & Hw1 & Hd1 & Hp1 & Hm1 & Hg1 & Hl1).
    destruct (IH s1 d1 ph Hw1 Hd1 Hp1 Hs) as (s2 & d2 & Hf & Hw2 & Hd2 & Hp2 & Hm2 & Hg2 & Hl2).
    exists s2, d2. rewrite fmap_cons. cbn [flush_jobs]. rewrite Hj. cbn [job_of fj_seq]. rewrite Hc. split_and!; try done; [congruence|congruence|].
    intros t x. by rewrite Hl2, Hl1.
Qed.

(** The queue is as the index leaves it between flushes: every pending write is still to be handed
    out, and none failed. *)
Definition ready (self : LsmIndex) : Prop :=
  made_not_flushed (flush_queue self) = job_of <$> pending (flush_queue self) /\ failure (flush_queue self) = None.

Lemma seal_mem_empty shared self t x : postings_of [mem_reader (lsm_mem (seal shared self))] t x = [].
Proof.
  unfold seal. destruct (_ && _) eqn:E; [|by destruct (seal_loop _ _ _)].
  apply andb_true_iff in E as [E _]. apply bool_decide_eq_true in E. unfold postings_of. cbn [fmap list_fmap concat mem_reader r_lookup].
  unfold mem_lookup_or_empty, mem_lookup. apply map_size_empty_inv in E. by rewrite E, lookup_empty.
Qed.

Lemma queue_flush_ok shared self :
  root self = true -> has_ids self -> ready self ->
  exists self', queue_flush no_faults shared self = (Ok tt, self') /\ generations self' = [] /\ ready self' /\
    (forall t x, postings_of [mem_reader (lsm_mem self')] t x = []).
Proof.
  intros Hr Hi [Hq1 Hq2]. unfold queue_flush, health. rewrite Hq2.
  destruct (seal_segments shared self) as (Hs & Hq & Hn). pose proof (seal_has_ids shared self Hi) as Hi'. pose proof (seal_mem_empty shared self) as Hm.
  set (s1 := seal shared self) in *. clearbody s1. cbv zeta. rewrite (ss_root _ _ Hs), Hr. cbn [attempt no_faults f_deletes].
  assert (Hready : ready s1) by (unfold ready; by rewrite Hq).
  case_bool_decide as Hg; [exists s1; by split_and!|].
  pose proof (max_range_Some _ Hg (hi_generations _ Hi')) as Hmax.
  destruct (foldr _ None (omap mem_doc_id_range (generations s1))) as [max_doc_id|]; [|done]. cbn [root set_memory]. rewrite (ss_root _ _ Hs), Hr.
  eexists. split; [done|]. split; [done|]. split; [|exact Hm]. unfold ready. cbn. rewrite Hq, Hq1, Hq2, fmap_app. done.
Qed.

End durable.

(** Two documents, flushed from memory and found again after a restart. *)
Module DurableExample.
#[local] Existing Instance Toy.fst_lib.
#[local] Existing Instance Toy.fst_laws.
#[local] Existing Instance Toy.roaring_lib.
#[local] Existing Instance Toy.roaring_laws.
#[local] Existing Instance FuzzyToy.dfa_lib.

Definition index7 : LsmIndex := merge_into_memtable 0 LsmExample.start (LsmExample.doc 7).
Definition index78 : LsmIndex := merge_into_memtable 0 index7 (LsmExample.doc 8).

Lemma index78_ok : world_ok (mkWorld index78 LsmExample.empty_disk CIdle).
Proof.
  assert (H7 : world_ok (mkWorld index7 LsmExample.empty_disk CIdle)).
  { apply (sound_ingest LsmExample.start); [apply (new_world_ok 1000)|apply LsmExample.doc_wf|done|]. intros t x q _. split; [apply not_elem_of_empty|apply not_elem_of_nil]. }
  apply (sound_ingest index7); [exact H7|apply LsmExample.doc_wf|done|apply LsmExample.fresh8].
Qed.

End DurableExample.
