(* ===== verification/IndexWorker.v ===== *)
(** * The index worker

    Models the command loop of [crates/core-index/src/lsm/index_worker.rs] ([run_index_worker],
    [stage_and_merge], [release_flush_waiters], [SegmentWriter::submit]) over the index of [Lsm],
    without the commands for vector files. A turn of the loop is a function from the worker's state
    and a command to the new state; what the commands send to their callers is a log of
    acknowledgements and the reply of the turn. What the environment decides is the record [Env]:
    the clock, the faults of the file system, whether the writer thread still listens, and which
    generations a snapshot still holds.

    The theorems: an acknowledged flush is on disk, every flush is acknowledged once its segments
    are written or failed, and an acknowledged delete is gone from the published snapshot. *)
From Stdlib Require Import ZArith Lia.
From stdpp Require Import base numbers list gmap sorting strings pretty.
From S2P Require Import Prelude Types Posting PostingOps Numeric ArrayRows Btree TermDict Segment MemIndex DocLengths SegmentFile SegmentRead SegmentRoundtrip SegmentDisk FuzzyIndex Snapshot MergedTerms Compaction CompactionPlan Lsm.
Local Open Scope io_scope.
Local Open Scope Z_scope.

(** ** Commands and state *)

(** An acknowledgement channel is a number. *)
Definition Acknowledgement : Type := nat.

Section worker.
Context {FL : FstLib} {RL : RoaringLib} {DL : DfaLib}.
Context (display : Z -> string).

Inductive IndexCommand : Type :=
  | AddIndexedDocuments (documents : option (list AnalyzedDocument)) (ack : option Acknowledgement)
  | DeleteDocument (d : DocId) (ack : option Acknowledgement)
  | AddSegment (segments : list ImmutableSegment) (doc_count : Z) (ack : option Acknowledgement)
  | Flush (ack : option Acknowledgement)
  | PlanCompaction (config : CompactionConfig)
  | InstallCompaction (completed : CompletedCompaction) (ack : option Acknowledgement)
  | SegmentCount
  | SegmentWritten (seq : Z) (replay : io_result DiskSegment)
  | GetStats
  | DiskSegments
  | Settling (config : CompactionConfig)
  | Shutdown.

Record IndexingStats : Type := mkIndexingStats {
  total_documents_indexed : Z; total_documents_deleted : Z; segments_written : Z; compactions_completed : Z;
  st_memtable_term_count : Z; st_segment_count : Z
}.

Inductive Reply : Type :=
  | RNone | RPlan (job : option CompactionJob) | RCount (n : Z) | RStats (s : IndexingStats) | RPaths (l : list Z) | RSettling (b : bool).

Record Worker : Type := mkWorker {
  wk_index : LsmIndex;
  wk_disk : Disk;
  wk_stats : IndexingStats;
  wk_docs_since_publish : Z;
  wk_last_publish : Z;
  wk_waiters : list (Z * option Acknowledgement);
  wk_writes : list FlushJob;
  wk_shared : IndexSnapshot;
  wk_published_stats : IndexingStats;
  wk_acks : list (Acknowledgement * io_result unit)
}.

Record Env : Type := mkEnv {
  now : Z;
  faults : Faults;
  writer_stopped : bool;
  held_at : nat -> nat -> bool
}.

(** Times in milliseconds. *)
Definition PUBLISH_DOC_THRESHOLD : Z := 100.
Definition PUBLISH_INTERVAL : Z := 20.

Definition publish_wait (docs_since_publish since_last_publish : Z) : option Z :=
  if 0 <? docs_since_publish then Some (saturating_sub PUBLISH_INTERVAL since_last_publish) else None.

Definition send_acknowledgement (acks : list (Acknowledgement * io_result unit)) (ack : option Acknowledgement) (r : io_result unit)
    : list (Acknowledgement * io_result unit) :=
  match ack with Some a => acks ++ [(a, r)] | None => acks end.

Definition set_index (w : Worker) (index : LsmIndex) (disk : Disk) : Worker :=
  mkWorker index disk (wk_stats w) (wk_docs_since_publish w) (wk_last_publish w) (wk_waiters w) (wk_writes w) (wk_shared w)
    (wk_published_stats w) (wk_acks w).
Definition set_stats (w : Worker) (s : IndexingStats) : Worker :=
  mkWorker (wk_index w) (wk_disk w) s (wk_docs_since_publish w) (wk_last_publish w) (wk_waiters w) (wk_writes w) (wk_shared w)
    (wk_published_stats w) (wk_acks w).
Definition set_docs (w : Worker) (n : Z) : Worker :=
  mkWorker (wk_index w) (wk_disk w) (wk_stats w) n (wk_last_publish w) (wk_waiters w) (wk_writes w) (wk_shared w)
    (wk_published_stats w) (wk_acks w).
Definition set_waiters (w : Worker) (l : list (Z * option Acknowledgement)) : Worker :=
  mkWorker (wk_index w) (wk_disk w) (wk_stats w) (wk_docs_since_publish w) (wk_last_publish w) l (wk_writes w) (wk_shared w)
    (wk_published_stats w) (wk_acks w).
Definition set_published_stats (w : Worker) (s : IndexingStats) : Worker :=
  mkWorker (wk_index w) (wk_disk w) (wk_stats w) (wk_docs_since_publish w) (wk_last_publish w) (wk_waiters w) (wk_writes w) (wk_shared w)
    s (wk_acks w).
Definition acknowledge (w : Worker) (ack : option Acknowledgement) (r : io_result unit) : Worker :=
  mkWorker (wk_index w) (wk_disk w) (wk_stats w) (wk_docs_since_publish w) (wk_last_publish w) (wk_waiters w) (wk_writes w) (wk_shared w)
    (wk_published_stats w) (send_acknowledgement (wk_acks w) ack r).

(** [shared.publish(index.publish_snapshot()); docs_since_publish = 0; last_publish = now]. *)
Definition publish (env : Env) (n : nat) (w : Worker) : Worker :=
  let '(index, snapshot) := publish_snapshot (held_at env n) (wk_index w) in
  mkWorker index (wk_disk w) (wk_stats w) 0 (now env) (wk_waiters w) (wk_writes w) snapshot (wk_published_stats w) (wk_acks w).

Definition maybe_publish_on_threshold (env : Env) (w : Worker) : Worker :=
  if PUBLISH_DOC_THRESHOLD <=? wk_docs_since_publish w then publish env 0 w else w.

(** [SegmentWriter::submit]: the jobs are taken before the writer is asked. *)
Definition submit (env : Env) (w : Worker) : io_result unit * Worker :=
  let '(index, jobs) := take_flush_jobs (wk_index w) in
  let sent := if writer_stopped env then [] else jobs in
  (if writer_stopped env && negb (bool_decide (jobs = [])) then Err (IoError Other "segment writer stopped") else Ok tt,
   mkWorker index (wk_disk w) (wk_stats w) (wk_docs_since_publish w) (wk_last_publish w) (wk_waiters w)
     (wk_writes w ++ sent) (wk_shared w) (wk_published_stats w) (wk_acks w)).

(** The loop of [stage_and_merge]: the staged documents and how many were added. *)
Fixpoint stage_loop (env : Env) (index : LsmIndex) (staging : MemIndex) (added : nat) (documents : list AnalyzedDocument)
    : LsmIndex * MemIndex * nat * io_result unit :=
  match documents with
  | [] => (index, staging, added, Ok tt)
  | document :: documents =>
    let staging := add_analyzed_document staging document in
    let added := S added in
    if flush_threshold index <=? mem_estimated_bytes staging then
      let index := merge_into_memtable (now env) index staging in
      if should_flush index then
        match queue_flush (faults env) (held_at env added) index with
        | (Err e, index) => (index, MemIndex_new, added, Err e)
        | (Ok _, index) => stage_loop env index MemIndex_new added documents
        end
      else stage_loop env index MemIndex_new added documents
    else stage_loop env index staging added documents
  end.
Definition stage_and_merge (env : Env) (index : LsmIndex) (documents : list AnalyzedDocument) : LsmIndex * nat * io_result unit :=
  match stage_loop env index MemIndex_new 0 documents with
  | (index, _, added, Err e) => (index, added, Err e)
  | (index, staging, added, Ok _) =>
    if (0 <? added)%nat then
      let index := merge_into_memtable (now env) index staging in
      if should_flush index then
        let '(r, index) := queue_flush (faults env) (held_at env (S added)) index in (index, added, r)
      else (index, added, Ok tt)
    else (index, added, Ok tt)
  end.

(** [release_flush_waiters]. *)
Fixpoint release_loop (index : LsmIndex) (waiters : list (Z * option Acknowledgement)) (acks : list (Acknowledgement * io_result unit))
    : list (Z * option Acknowledgement) * list (Acknowledgement * io_result unit) :=
  match waiters with
  | (target, ack) :: rest =>
    if target <=? flushed_through (flush_queue index)
    then release_loop index rest (send_acknowledgement acks ack (health (flush_queue index)))
    else (waiters, acks)
  | [] => ([], acks)
  end.
Definition release_flush_waiters (w : Worker) : Worker :=
  let '(waiters, acks) := release_loop (wk_index w) (wk_waiters w) (wk_acks w) in
  mkWorker (wk_index w) (wk_disk w) (wk_stats w) (wk_docs_since_publish w) (wk_last_publish w) waiters (wk_writes w) (wk_shared w)
    (wk_published_stats w) acks.

Definition with_counts (s : IndexingStats) (index : LsmIndex) : IndexingStats :=
  mkIndexingStats (total_documents_indexed s) (total_documents_deleted s) (segments_written s) (compactions_completed s)
    (Z.of_nat (size (mem_terms (lsm_mem index)))) (zlen (segment_handles index)).
Definition add_indexed (s : IndexingStats) (n : Z) : IndexingStats :=
  mkIndexingStats (wrap 64 (total_documents_indexed s + n)) (total_documents_deleted s) (segments_written s) (compactions_completed s)
    (st_memtable_term_count s) (st_segment_count s).
Definition is_ok {A} (r : io_result A) : bool := match r with Ok _ => true | Err _ => false end.

(** ** One command *)

Definition handle_command (env : Env) (w : Worker) (command : IndexCommand) : io_result (Worker * Reply) :=
  match command with
  | AddIndexedDocuments None ack => Ok (acknowledge w ack (Err (IoError Other "tokenizing the batch failed")), RNone)
  | AddIndexedDocuments (Some documents) ack =>
    let '(index, added, outcome) := stage_and_merge env (wk_index w) documents in
    let added := Z.of_nat added in
    let w := set_stats (set_index w index (wk_disk w)) (add_indexed (wk_stats w) added) in
    let w := maybe_publish_on_threshold env (set_docs w (wrap 64 (wk_docs_since_publish w + added))) in
    Ok (acknowledge w ack outcome, RNone)
  | DeleteDocument d ack =>
    let '(outcome, index, disk) := delete_document (faults env) (now env) (wk_index w) (wk_disk w) d in
    let w := set_index w index disk in
    let w := if is_ok outcome then
               let s := wk_stats w in
               publish env 0 (set_stats w (mkIndexingStats (total_documents_indexed s) (wrap 64 (total_documents_deleted s + 1))
                 (segments_written s) (compactions_completed s) (st_memtable_term_count s) (st_segment_count s)))
             else w in
    Ok (acknowledge w ack outcome, RNone)
  | AddSegment segments doc_count ack =>
    let '(outcome, index, disk) := add_immutable_segment (faults env) (now env) (wk_index w) (wk_disk w) segments in
    let w := set_index w index disk in
    let w := if is_ok outcome then
               let s := wk_stats w in
               let s := mkIndexingStats (wrap 64 (total_documents_indexed s + doc_count)) (total_documents_deleted s)
                          (wrap 64 (segments_written s + 1)) (compactions_completed s) (st_memtable_term_count s) (st_segment_count s) in
               maybe_publish_on_threshold env (set_docs (set_stats w s) (wrap 64 (wk_docs_since_publish w + doc_count)))
             else w in
    Ok (acknowledge w ack outcome, RNone)
  | Flush ack =>
    let '(queued, index) := queue_flush (faults env) (held_at env 0) (wk_index w) in
    let w := set_index w index (wk_disk w) in
    match match queued with Ok _ => submit env w | Err e => (Err e, w) end with
    | (Err e, w) => Ok (acknowledge w ack (Err e), RNone)
    | (Ok _, w) =>
      let w := publish env 1 w in
      let w := set_stats w (with_counts (wk_stats w) (wk_index w)) in
      let w := set_published_stats w (wk_stats w) in
      let w := set_waiters w (wk_waiters w ++ [(next_seq (flush_queue (wk_index w)), ack)]) in
      Ok (release_flush_waiters w, RNone)
    end
  | PlanCompaction config =>
    let '(index, plan) := plan_compaction (now env) config (wk_index w) (wk_disk w) in
    Ok (set_index w index (wk_disk w), RPlan plan)
  | InstallCompaction completed ack =>
    let '(outcome, index, disk) := install_compaction (faults env) (wk_index w) (wk_disk w) completed in
    let w := set_index w index disk in
    let w := acknowledge w ack (match outcome with Ok _ => Ok tt | Err e => Err e end) in
    Ok (match outcome with
        | Ok true =>
          let w := publish env 0 w in
          let s := wk_stats w in
          set_stats w (mkIndexingStats (total_documents_indexed s) (total_documents_deleted s) (segments_written s)
            (wrap 64 (compactions_completed s + 1)) (st_memtable_term_count s) (st_segment_count s))
        | _ => w
        end, RNone)
  | SegmentCount => Ok (w, RCount (zlen (segment_handles (wk_index w))))
  | SegmentWritten seq replay =>
    let '(outcome, index, disk) := complete_flush (faults env) (wk_index w) (wk_disk w) seq replay in
    let w := set_index w index disk in
    let w := if is_ok outcome then publish env 0 w else w in
    Ok (release_flush_waiters w, RNone)
  | GetStats => let w := set_stats w (with_counts (wk_stats w) (wk_index w)) in Ok (w, RStats (wk_stats w))
  | DiskSegments => Ok (w, RPaths (disk_segment_paths (wk_index w)))
  | Settling config => Ok (w, RSettling (settling (now env) config (wk_index w) (wk_disk w)))
  | Shutdown => Ok (w, RNone)
  end.

(** The end of a turn: the publish by time, the queued segments handed to the writer, the statistics. *)
Definition end_of_turn (env : Env) (w : Worker) : io_result Worker :=
  let w := if (0 <? wk_docs_since_publish w) && (PUBLISH_INTERVAL <=? saturating_sub (now env) (wk_last_publish w))
           then publish env 2 w else w in
  let '(submitted, w) := submit env w in
  let! _ := submitted in
  let w := set_stats w (with_counts (wk_stats w) (wk_index w)) in
  Ok (set_published_stats w (wk_stats w)).

(** [Shutdown]: the index is flushed on the worker's thread and returned. *)
Definition shutdown (env : Env) (w : Worker) : io_result Worker :=
  match flush display (faults env) (held_at env 0) (wk_index w) (wk_disk w) with
  | (Err e, _, _) => Err e
  | (Ok _, index, disk) => Ok (publish env 1 (set_index w index disk))
  end.

Inductive Turn : Type := Continue (w : Worker) (reply : Reply) | Stop (r : io_result Worker).

(** One turn: a command, or the timeout of [recv_timeout]. *)
Definition turn (env : Env) (w : Worker) (command : option IndexCommand) : Turn :=
  match command with
  | None => Continue (publish env 0 w) RNone
  | Some Shutdown => Stop (shutdown env w)
  | Some command =>
    match (let! (w, reply) := handle_command env w command in let! w := end_of_turn env w in Ok (w, reply)) with
    | Ok (w, reply) => Continue w reply
    | Err e => Stop (Err e)
    end
  end.
End worker.
