(* ===== verification/IndexWorkerCorrect.v ===== *)
(** * Correctness of the index worker

    Which documents the staged batches leave in the index, when a flush is acknowledged, that every
    flush is, and what the published snapshot shows after an acknowledged delete. *)
From Stdlib Require Import ZArith Lia.
From stdpp Require Import base numbers list gmap sorting strings pretty.
From S2P Require Import Prelude Types Posting PostingOps Numeric ArrayRows Btree TermDict Segment MemIndex DocLengths SegmentFile SegmentRead SegmentRoundtrip SegmentDisk FuzzyIndex Snapshot MergedTerms Compaction CompactionPlan Lsm LsmCorrect LsmRefine LsmInstall LsmExample IndexWorker.
Local Open Scope io_scope.
Local Open Scope Z_scope.

(** ** Staging *)

(** The memory parts of an index, and what they hold. *)
Definition mem_parts (self : LsmIndex) : list MemIndex := lsm_mem self :: generations self ++ pending_generations self.
Definition parts_have (ms : list MemIndex) (d : DocId) (k : TermKey) : Prop := exists m, m ∈ ms /\ has m d k.

Lemma parts_have_app ms1 ms2 d k : parts_have (ms1 ++ ms2) d k <-> parts_have ms1 d k \/ parts_have ms2 d k.
Proof. unfold parts_have. setoid_rewrite elem_of_app. naive_solver. Qed.
Lemma parts_have_cons m ms d k : parts_have (m :: ms) d k <-> has m d k \/ parts_have ms d k.
Proof. unfold parts_have. setoid_rewrite elem_of_cons. naive_solver. Qed.
Lemma parts_have_perm ms1 ms2 d k : ms1 ≡ₚ ms2 -> parts_have ms1 d k <-> parts_have ms2 d k.
Proof. intros H. unfold parts_have. by setoid_rewrite H. Qed.
Lemma has_new d k : ~ has MemIndex_new d k.
Proof. unfold has. cbn [mem_terms MemIndex_new]. rewrite lookup_empty. cbn. apply not_elem_of_nil. Qed.

Record mem_ok (self : LsmIndex) : Prop := { mo_wf : Forall mem_wf (mem_parts self); mo_ids : has_ids self; mo_root : root self = true }.

Lemma seal_loop_have shared nf : forall sealed,
  mem_wf sealed -> Forall mem_wf nf ->
  let r := seal_loop shared nf sealed in
  Forall mem_wf (r.2 :: r.1) /\ forall d k, parts_have (r.2 :: r.1) d k <-> parts_have (sealed :: nf) d k.
Proof.
  induction nf as [|newest older IH]; intros sealed Hs Hn; cbv zeta; cbn [seal_loop]; [by split; [constructor|]|].
  destruct (_ <? _); [by split; [constructor|]|]. destruct (shared _); [by split; [constructor|]|].
  apply Forall_cons in Hn as [Hn Ho]. destruct (merge_has newest sealed Hn Hs) as [Hm Hh].
  destruct (IH (merge_from newest sealed) Hm Ho) as [H1 H2]. split; [done|]. intros d k. rewrite H2, !parts_have_cons, Hh. tauto.
Qed.

Lemma mem_split self d k :
  parts_have (mem_parts self) d k <-> parts_have (lsm_mem self :: generations self) d k \/ parts_have (pending_generations self) d k.
Proof. unfold mem_parts. rewrite !parts_have_cons, parts_have_app. tauto. Qed.

Lemma seal_have shared self :
  mem_ok self -> mem_ok (seal shared self) /\ forall d k, parts_have (mem_parts (seal shared self)) d k <-> parts_have (mem_parts self) d k.
Proof.
  intros [Hw Hi Hr]. destruct (seal_segments shared self) as (Hs & Hq & _).
  assert (Hp : pending_generations (seal shared self) = pending_generations self) by (unfold pending_generations; by rewrite Hq).
  assert (Hr' : root (seal shared self) = true) by (rewrite (ss_root _ _ Hs); done).
  pose proof (seal_has_ids shared self Hi) as Hi'. unfold mem_parts in Hw. apply Forall_cons in Hw as [Hm Hw]. apply Forall_app in Hw as [Hg Hpw].
  unfold seal in *. destruct (_ && _); [split; [by constructor; [apply Forall_cons; split; [|apply Forall_app]|..]|done]|].
  destruct (seal_loop_have shared (rev (generations self)) (lsm_mem self) Hm) as [H1 H2]; [by apply Forall_rev|].
  destruct (seal_loop shared (rev (generations self)) (lsm_mem self)) as [nf sealed]. cbn [fst snd] in *.
  apply Forall_cons in H1 as [H1s H1n]. split.
  - constructor; [|done|done]. unfold mem_parts. cbn [lsm_mem generations set_memory]. rewrite Hp.
    constructor; [apply mem_new_wf|]. apply Forall_app. split; [|done]. apply Forall_app. split; [by apply Forall_rev|]. by constructor.
  - intros d k. rewrite !mem_split, Hp. cbn [lsm_mem generations set_memory].
    assert (Hr1 : forall l : list MemIndex, rev l ≡ₚ l) by (intros l; by rewrite <-Permutation_rev).
    specialize (H2 d k). rewrite !parts_have_cons in *. rewrite (parts_have_perm _ _ d k (Hr1 (generations self))) in H2.
    rewrite parts_have_app, parts_have_cons, (parts_have_perm _ _ d k (Hr1 nf)). pose proof (has_new d k).
    assert (parts_have [] d k <-> False) by (unfold parts_have; setoid_rewrite elem_of_nil; naive_solver). tauto.
Qed.

Lemma queue_flush_have fa shared self :
  mem_ok self -> let self' := (queue_flush fa shared self).2 in
  mem_ok self' /\ forall d k, parts_have (mem_parts self') d k <-> parts_have (mem_parts self) d k.
Proof.
  intros Hok. cbv zeta. unfold queue_flush. destruct (health (flush_queue self)); [|done].
  destruct (seal_have shared self Hok) as [Hok1 Hh]. set (s1 := seal shared self) in *. clearbody s1. cbv zeta.
  destruct Hok1 as [Hw Hi Hr]. rewrite Hr. destruct (attempt (f_deletes fa)); [|by split; [constructor|]].
  case_bool_decide as Hne; [by split; [constructor|]|]. pose proof (max_range_Some _ Hne (hi_generations _ Hi)) as Hmax.
  destruct (foldr _ None (omap mem_doc_id_range (generations s1))) as [max_doc_id|]; [|done]. cbn [root set_memory]. rewrite Hr. cbn [snd].
  match goal with |- mem_ok ?i /\ _ => set (s2 := i) end.
  assert (Hp : pending_generations s2 = pending_generations s1 ++ generations s1).
  { unfold pending_generations, s2. cbn. rewrite fmap_app, concat_app. cbn. by rewrite app_nil_r. }
  assert (Hperm : mem_parts s2 ≡ₚ mem_parts s1).
  { unfold mem_parts. rewrite Hp. cbn [lsm_mem generations s2 set_queue set_ids set_memory app]. f_equiv. apply Permutation_app_comm. }
  split.
  - constructor; [by rewrite Hperm| |done]. constructor; [apply Hi|constructor].
  - intros d k. rewrite <-Hh. by apply parts_have_perm.
Qed.

Lemma merge_into_have t self other :
  mem_ok self -> mem_wf other -> (size (mem_terms other) <> 0%nat -> mem_doc_id_range other <> None) ->
  mem_ok (merge_into_memtable t self other) /\
  forall d k, parts_have (mem_parts (merge_into_memtable t self other)) d k <-> parts_have (mem_parts self) d k \/ has other d k.
Proof.
  intros [Hw Hi Hr] Ho Hid. pose proof Hw as Hw0. unfold mem_parts in Hw0. apply Forall_cons in Hw0 as [Hm Hrest]. destruct (merge_has (lsm_mem self) other Hm Ho) as [Hm' Hh].
  split.
  - constructor; [|constructor|done].
    + unfold mem_parts. cbn [lsm_mem generations merge_into_memtable set_memory]. by constructor.
    + cbn [lsm_mem merge_into_memtable set_memory]. intros Hne. apply merge_from_range.
      destruct (decide (size (mem_terms (lsm_mem self)) = 0%nat)) as [Ez|Hz]; [|left; by apply Hi].
      destruct (decide (size (mem_terms other) = 0%nat)) as [Ez'|Hz']; [|right; by apply Hid]. exfalso. apply Hne.
      apply map_size_empty_inv in Ez, Ez'. destruct (merge_from_fields (lsm_mem self) other) as (-> & _). rewrite Ez, Ez'.
      unfold merge_terms. apply map_size_empty_iff, map_eq. intros i. rewrite lookup_merge. by rewrite !lookup_empty.
    + apply Hi.
  - intros d k. unfold mem_parts. cbn [lsm_mem generations merge_into_memtable set_memory].
    change (pending_generations (merge_into_memtable t self other)) with (pending_generations self). rewrite !parts_have_cons, Hh. tauto.
Qed.

(** *** Documents know their ids *)

Definition ranged (m : MemIndex) : Prop := mem_doc_id_range m <> None.

Lemma ranged_same m m' : mem_min_doc_id m' = mem_min_doc_id m -> mem_max_doc_id m' = mem_max_doc_id m -> ranged m -> ranged m'.
Proof. intros H1 H2. unfold ranged, mem_doc_id_range. by rewrite H1, H2. Qed.

Lemma apply_target_ranged m id t : ranged m -> ranged (apply_target m id t).
Proof.
  intros Hm. unfold apply_target. apply fold_inv; [intros b p Hb; by apply (ranged_same b)|]. apply fold_inv; [intros b p Hb; by apply (ranged_same b)|].
  apply fold_inv; [|done]. intros b f Hb. unfold apply_field. apply fold_inv; [|by apply (ranged_same b)].
  intros b' a Hb'. unfold add_posting_weighted. destruct (mem_terms b' !! _); by apply (ranged_same b').
Qed.

Lemma add_document_ranged m doc : ranged (add_analyzed_document m doc).
Proof.
  unfold add_analyzed_document. apply fold_inv.
  - intros b r Hb. unfold add_array_row. apply apply_target_ranged. by apply (ranged_same b).
  - apply apply_target_ranged. apply track_range.
Qed.

(** *** The batch *)

Definition indexes (docs : list AnalyzedDocument) (d : DocId) (k : TermKey) : Prop := exists doc, doc ∈ docs /\ document_indexes doc d k.

Lemma indexes_cons doc docs d k : indexes (doc :: docs) d k <-> document_indexes doc d k \/ indexes docs d k.
Proof. unfold indexes. setoid_rewrite elem_of_cons. naive_solver. Qed.

(** A staged memtable. *)
Record staged_ok (m : MemIndex) : Prop := { sg_wf : mem_wf m; sg_ids : size (mem_terms m) <> 0%nat -> ranged m }.

Lemma staged_new : staged_ok MemIndex_new.
Proof. constructor; [apply mem_new_wf|done]. Qed.

Lemma staged_add m doc : staged_ok m -> staged_ok (add_analyzed_document m doc).
Proof. intros [Hw _]. constructor; [by apply add_document_spec|]. intros _. apply add_document_ranged. Qed.

Lemma stage_loop_have env documents : forall index staging added index' staging' added' r,
  mem_ok index -> staged_ok staging ->
  stage_loop env index staging added documents = (index', staging', added', r) ->
  mem_ok index' /\ staged_ok staging' /\
  (r = Ok tt -> added' = (added + length documents)%nat /\
   forall d k, parts_have (mem_parts index') d k \/ has staging' d k <->
     (parts_have (mem_parts index) d k \/ has staging d k) \/ indexes documents d k).
Proof.
  induction documents as [|doc documents IH]; intros index staging added index' staging' added' r Hi Hs E; cbn [stage_loop] in E.
  - injection E as <- <- <- <-. split; [done|]. split; [done|]. intros _. split; [simpl; lia|]. intros d k.
    assert (indexes [] d k <-> False) by (unfold indexes; setoid_rewrite elem_of_nil; naive_solver). tauto.
  - pose proof (staged_add staging doc Hs) as Hs1. destruct (add_document_spec staging doc (sg_wf _ Hs)) as [_ Hh1].
    destruct (merge_into_have (now env) index (add_analyzed_document staging doc) Hi (sg_wf _ Hs1) (sg_ids _ Hs1)) as [Hi1 Hm1].
    pose proof (has_new) as Hnew.
    destruct (flush_threshold index <=? _).
    + destruct (should_flush _).
      * pose proof (queue_flush_have (faults env) (held_at env (S added)) _ Hi1) as [Hi2 Hq]. cbv zeta in Hi2, Hq.
        destruct (queue_flush (faults env) (held_at env (S added)) _) as [[[]|e] index2]; cbn [snd] in *.
        -- destruct (IH _ _ _ _ _ _ _ Hi2 staged_new E) as (H1 & H2 & H3). split; [done|]. split; [done|]. intros Hr. destruct (H3 Hr) as [-> H4].
           split; [simpl; lia|]. intros d k. rewrite H4, Hq, Hm1, Hh1, indexes_cons. specialize (Hnew d k). tauto.
        -- injection E as <- <- <- <-. split; [done|]. split; [apply staged_new|done].
      * destruct (IH _ _ _ _ _ _ _ Hi1 staged_new E) as (H1 & H2 & H3). split; [done|]. split; [done|]. intros Hr. destruct (H3 Hr) as [-> H4].
        split; [simpl; lia|]. intros d k. rewrite H4, Hm1, Hh1, indexes_cons. specialize (Hnew d k). tauto.
    + destruct (IH _ _ _ _ _ _ _ Hi Hs1 E) as (H1 & H2 & H3). split; [done|]. split; [done|]. intros Hr. destruct (H3 Hr) as [-> H4].
      split; [simpl; lia|]. intros d k. rewrite H4, Hh1, indexes_cons. tauto.
Qed.

(** A batch that is acknowledged is indexed whole: however the batch is cut into memtables and
    flushes, every document is counted, and the memory parts of the index (memtable, generations and
    queued flushes) hold what they held plus each document under each of its terms. *)
Theorem batch_indexed env index documents index' added :
  mem_ok index -> stage_and_merge env index documents = (index', added, Ok tt) ->
  mem_ok index' /\ added = length documents /\
  forall d k, parts_have (mem_parts index') d k <-> parts_have (mem_parts index) d k \/ indexes documents d k.
Proof.
  intros Hi E. unfold stage_and_merge in E. destruct (stage_loop env index MemIndex_new 0 documents) as [[[i1 staging] n] r] eqn:El.
  destruct (stage_loop_have env documents _ _ _ _ _ _ _ Hi staged_new El) as (H1 & H2 & H3).
  destruct r as [[]|e]; [|done]. destruct (H3 eq_refl) as [-> Hh]. simpl in E. pose proof has_new as Hnew.
  destruct (merge_into_have (now env) i1 staging H1 (sg_wf _ H2) (sg_ids _ H2)) as [Hi2 Hm].
  destruct documents as [|doc documents]; simpl in E.
  - injection E as <- <-. split; [done|]. split; [done|]. intros d k. specialize (Hh d k). cbn in El. injection El as <- <-.
    assert (indexes [] d k <-> False) by (unfold indexes; setoid_rewrite elem_of_nil; naive_solver). tauto.
  - destruct (should_flush _).
    + pose proof (queue_flush_have (faults env) (held_at env (S (S (length documents)))) _ Hi2) as [Hi3 Hq]. cbv zeta in Hi3, Hq.
      destruct (queue_flush (faults env) _ _) as [r i3]. cbn [snd] in *. injection E as <- <- ->. split; [done|]. split; [done|].
      intros d k. specialize (Hnew d k). rewrite Hq, Hm, Hh. tauto.
    + injection E as <- <-. split; [done|]. split; [done|]. intros d k. specialize (Hnew d k). rewrite Hm, Hh. tauto.
Qed.

(** ** Acknowledged flushes *)

(** The pending writes are numbered consecutively up to [next_seq]. *)
Record queue_ok (q : FlushQueue) : Prop := {
  qo_seqs : pf_seq <$> pending q = seqZ (next_seq q - zlen (pending q)) (zlen (pending q));
  qo_next : zlen (pending q) <= next_seq q < 2 ^ 64 - 1
}.
(** Waiters in the order of their targets, none beyond the queue. *)
Definition waiters_ok (q : FlushQueue) (waiters : list (Z * option Acknowledgement)) : Prop :=
  StronglySorted Z.le waiters.*1 /\ Forall (fun target => target <= next_seq q) waiters.*1.

Definition ack_of (r : io_result unit) (waiter : Z * option Acknowledgement) : option (Acknowledgement * io_result unit) :=
  (fun a => (a, r)) <$> waiter.2.

Lemma flushed_through_eq q : queue_ok q -> flushed_through q = next_seq q - zlen (pending q).
Proof. intros [_ Hn]. unfold flushed_through, wrap. apply Z.mod_small. lia. Qed.

Lemma release_loop_spec index waiters : forall acks,
  exists released, waiters = released ++ (release_loop index waiters acks).1 /\
    (release_loop index waiters acks).2 = acks ++ omap (ack_of (health (flush_queue index))) released /\
    Forall (fun w => w.1 <= flushed_through (flush_queue index)) released /\
    match (release_loop index waiters acks).1 with (t, _) :: _ => flushed_through (flush_queue index) < t | [] => True end.
Proof.
  induction waiters as [|[t ack] waiters IH]; intros acks; cbn [release_loop].
  - exists []. cbn. by rewrite app_nil_r.
  - destruct (Z.leb_spec t (flushed_through (flush_queue index))) as [Hle|Hgt].
    + destruct (IH (send_acknowledgement acks ack (health (flush_queue index)))) as (released & H1 & H2 & H3 & H4).
      exists ((t, ack) :: released). split; [cbn; by f_equal|]. split; [|split; [by constructor|done]].
      rewrite H2. cbn [omap list_omap]. unfold ack_of at 2, send_acknowledgement. destruct ack as [a|]; cbn; [by rewrite <-app_assoc|done].
    + exists []. cbn. by rewrite app_nil_r.
Qed.

(** C31: A flush is answered exactly when every segment write it waits for has finished: the waiters
    released, in order, are those whose target is reached, each gets the health of the writes (Ok only
    if none ever failed), no pending write is older than their target, and each one kept still waits
    for a pending write. *)
Theorem flush_answered_exactly w :
  queue_ok (flush_queue (wk_index w)) -> waiters_ok (flush_queue (wk_index w)) (wk_waiters w) ->
  let w' := release_flush_waiters w in
  let q := flush_queue (wk_index w) in
  exists released, wk_waiters w = released ++ wk_waiters w' /\ wk_acks w' = wk_acks w ++ omap (ack_of (health q)) released /\
    (forall t ack p, (t, ack) ∈ released -> p ∈ pending q -> t <= pf_seq p) /\
    (forall t ack, (t, ack) ∈ wk_waiters w' -> exists p, p ∈ pending q /\ pf_seq p < t) /\
    (health q = Ok tt <-> failure q = None).
Proof.
  intros Hq [Hsort Hle]. cbv zeta. unfold release_flush_waiters.
  destruct (release_loop_spec (wk_index w) (wk_waiters w) (wk_acks w)) as (released & H1 & H2 & H3 & H4).
  destruct (release_loop (wk_index w) (wk_waiters w) (wk_acks w)) as [rest acks]. cbn [fst snd] in *. cbn [wk_waiters wk_acks].
  set (q := flush_queue (wk_index w)) in *. pose proof (flushed_through_eq q Hq) as Hft. destruct Hq as [Hseq Hnext].
  assert (Hseqs : forall p, p ∈ pending q -> flushed_through q <= pf_seq p).
  { intros p Hp. apply (list_elem_of_fmap_2 pf_seq) in Hp. rewrite Hseq, elem_of_seqZ in Hp. lia. }
  exists released. split_and!; [done|done| | |].
  - intros t ack p Hin Hp. rewrite Forall_forall in H3. specialize (H3 _ Hin). simpl in H3. specialize (Hseqs p Hp). lia.
  - intros t ack Hin.
    assert (Hlt : flushed_through q < t).
    { destruct rest as [|[t0 a0] rest]; [by apply elem_of_nil in Hin|]. rewrite H1, fmap_app in Hsort. apply StronglySorted_app in Hsort as (_ & _ & Hs).
      apply elem_of_cons in Hin as [[= -> ->]|Hin]; [done|]. apply StronglySorted_cons in Hs as [Hall _]. rewrite Forall_forall in Hall.
      specialize (Hall t (list_elem_of_fmap_2 fst _ _ Hin)). simpl in Hall. lia. }
    assert (Ht : t <= next_seq q). { rewrite Forall_forall in Hle. apply Hle. rewrite H1. apply list_elem_of_fmap. exists (t, ack). split; [done|]. apply elem_of_app. by right. }
    assert (Hfirst : flushed_through q ∈ pf_seq <$> pending q) by (rewrite Hseq, elem_of_seqZ; lia).
    apply list_elem_of_fmap in Hfirst as (p & Hp & Hin'). exists p. split; [done|]. lia.
  - unfold health. by destruct (failure q).
Qed.

(** ** The invariant of the worker *)

(** At most [n] flushes were queued. *)
Definition queue_grows (n : Z) (q q' : FlushQueue) : Prop :=
  queue_ok q -> next_seq q + n < 2 ^ 64 - 1 -> queue_ok q' /\ next_seq q <= next_seq q' <= next_seq q + n.

Lemma queue_same q q' :
  pf_seq <$> pending q' = pf_seq <$> pending q -> next_seq q' = next_seq q -> queue_grows 0 q q'.
Proof.
  intros Hp Hn [H1 H2] Hb. assert (Hl : length (pending q') = length (pending q)) by (by rewrite <-(length_fmap pf_seq), Hp, length_fmap).
  split; [|lia]. constructor; rewrite ?Hp, ?Hn, ?Hl; done.
Qed.

Lemma queue_trans n m q1 q2 q3 : 0 <= n -> 0 <= m -> queue_grows n q1 q2 -> queue_grows m q2 q3 -> queue_grows (n + m) q1 q3.
Proof. intros Hn Hm H1 H2 Hq Hb. destruct (H1 Hq) as [Hq2 Hb2]; [lia|]. destruct (H2 Hq2) as [Hq3 Hb3]; [lia|]. split; [done|lia]. Qed.

Lemma queue_weaken n m q q' : n <= m -> queue_grows n q q' -> queue_grows m q q'.
Proof. intros Hnm H Hq Hb. destruct (H Hq) as [H1 H2]; [lia|]. split; [done|lia]. Qed.

Lemma queue_push q path gens : queue_grows 1 q (fq_push q path gens).
Proof.
  intros [H1 H2] Hb. assert (Hn : wrap 64 (next_seq q + 1) = next_seq q + 1) by (unfold wrap; apply Z.mod_small; lia).
  unfold fq_push. cbv zeta. split; [|cbn [next_seq]; lia]. constructor; cbn [pending next_seq]; rewrite ?Hn, ?length_app; cbn [length].
  - rewrite fmap_app, H1. cbn [fmap list_fmap pf_seq].
    replace (next_seq q + 1 - Z.of_nat (length (pending q) + 1)) with (next_seq q - zlen (pending q)) by lia.
    replace (Z.of_nat (length (pending q) + 1)) with (zlen (pending q) + 1) by lia. rewrite seqZ_app by lia. f_equal.
    rewrite seqZ_cons by lia. rewrite seqZ_nil by lia. f_equal. lia.
  - lia.
Qed.

Lemma queue_complete q seq p q' : fq_complete q seq = Ok (p, q') -> queue_grows 0 q q'.
Proof.
  unfold fq_complete. destruct (pending q) as [|front rest] eqn:Hp; [done|]. destruct (_ =? _); [|done]. intros [= <- <-] [H1 H2] Hb.
  rewrite Hp in H1, H2. cbn [length] in H1, H2. rewrite fmap_cons, seqZ_cons in H1 by lia. injection H1 as _ H1.
  split; [|cbn [next_seq]; lia]. constructor; cbn [pending next_seq]; [|lia]. rewrite H1. f_equal; lia.
Qed.

Lemma queue_flush_grows fa shared self : root self = true -> queue_grows 1 (flush_queue self) (flush_queue (queue_flush fa shared self).2).
Proof.
  intros Hr. unfold queue_flush. destruct (health _); [|by apply (queue_weaken 0); [lia|apply queue_same]].
  destruct (seal_segments shared self) as (Hs & Hq & _). set (s1 := seal shared self) in *. clearbody s1. cbv zeta. rewrite <-Hq.
  rewrite (ss_root _ _ Hs), Hr. destruct (attempt _); [|by apply (queue_weaken 0); [lia|apply queue_same]].
  case_bool_decide; [by apply (queue_weaken 0); [lia|apply queue_same]|].
  destruct (foldr _ None (omap mem_doc_id_range (generations s1))); [|by apply (queue_weaken 0); [lia|apply queue_same]].
  cbn [root set_memory]. rewrite (ss_root _ _ Hs), Hr. cbn [snd flush_queue set_queue]. apply queue_push.
Qed.

Lemma queue_flush_root fa shared self : root (queue_flush fa shared self).2 = root self.
Proof.
  unfold queue_flush. destruct (health _); [|done]. destruct (seal_segments shared self) as (Hs & _ & _). rewrite <-(ss_root _ _ Hs). set (s1 := seal shared self) in *. clearbody s1.
  cbv zeta. destruct (if root s1 then _ else _); [|done]. case_bool_decide; [done|]. destruct (foldr _ None _); [|done]. cbn [root set_memory]. by destruct (root s1) eqn:E.
Qed.

Lemma stage_loop_grows env documents : forall index staging added,
  root index = true ->
  let r := stage_loop env index staging added documents in
  root r.1.1.1 = true /\ queue_grows (zlen documents) (flush_queue index) (flush_queue r.1.1.1).
Proof.
  induction documents as [|doc documents IH]; intros index staging added Hr; cbv zeta; cbn [stage_loop]; [split; [done|by apply queue_same]|].
  assert (Hskip : forall i s a, root i = true -> flush_queue i = flush_queue index ->
    root (stage_loop env i s a documents).1.1.1 = true /\ queue_grows (zlen (doc :: documents)) (flush_queue index) (flush_queue (stage_loop env i s a documents).1.1.1)).
  { intros i s a Hi Hq. destruct (IH i s a Hi) as [H1 H2]. split; [done|]. rewrite Hq in H2. apply (queue_weaken (zlen documents)); [cbn [length]; lia|done]. }
  destruct (_ <=? _); [|by apply Hskip]. destruct (should_flush _); [|by apply Hskip].
  match goal with |- context [queue_flush ?f ?h ?i] => set (i1 := i); pose proof (queue_flush_grows f h i1 Hr) as Hg; pose proof (queue_flush_root f h i1) as Hroot;
    destruct (queue_flush f h i1) as [[[]|e] i2] end; cbn [fst snd] in *; change (flush_queue i1) with (flush_queue index) in Hg; change (root i1) with (root index) in Hroot.
  - destruct (IH i2 MemIndex_new (S added)) as [H1 H2]; [congruence|]. split; [done|].
    replace (zlen (doc :: documents)) with (1 + zlen documents) by (cbn [length]; lia). by eapply queue_trans; [lia|lia|exact Hg|exact H2].
  - split; [congruence|]. apply (queue_weaken 1); [cbn [length]; lia|done].
Qed.

Lemma stage_grows env index documents :
  root index = true ->
  let r := stage_and_merge env index documents in
  root r.1.1 = true /\ queue_grows (zlen documents + 1) (flush_queue index) (flush_queue r.1.1).
Proof.
  intros Hr. cbv zeta. unfold stage_and_merge. destruct (stage_loop_grows env documents index MemIndex_new 0 Hr) as [H1 H2].
  destruct (stage_loop env index MemIndex_new 0 documents) as [[[i staging] added] [[]|e]]; cbn [fst snd] in *.
  - destruct (0 <? added)%nat; [|split; [done|by apply (queue_weaken (zlen documents)); [lia|]]]. cbv zeta.
    destruct (should_flush _); [|split; [done|by apply (queue_weaken (zlen documents)); [lia|]]].
    match goal with |- context [queue_flush ?f ?h ?j] => set (i1 := j); pose proof (queue_flush_grows f h i1 H1) as Hg; pose proof (queue_flush_root f h i1) as Hroot;
      destruct (queue_flush f h i1) as [r i2] end. cbn [fst snd] in *. split; [by rewrite Hroot|]. by eapply queue_trans; [lia|lia|exact H2|exact Hg].
  - split; [done|]. by apply (queue_weaken (zlen documents)); [lia|].
Qed.

Section worker.
Context {FL : FstLib} {RL : RoaringLib} {DL : DfaLib}.
Context (display : Z -> string).

Record worker_inv (w : Worker) : Prop := {
  wi_root : root (wk_index w) = true;
  wi_queue : queue_ok (flush_queue (wk_index w));
  wi_waiters : waiters_ok (flush_queue (wk_index w)) (wk_waiters w)
}.

(** The flushes a command may queue. *)
Definition pushes (command : option IndexCommand) : Z :=
  match command with
  | Some (AddIndexedDocuments (Some documents) _) => zlen documents + 1
  | Some (Flush _) => 1
  | _ => 0
  end.

Lemma publish_same env n w :
  flush_queue (wk_index (publish env n w)) = flush_queue (wk_index w) /\ root (wk_index (publish env n w)) = root (wk_index w) /\
  wk_waiters (publish env n w) = wk_waiters w /\ wk_acks (publish env n w) = wk_acks w.
Proof.
  unfold publish, publish_snapshot. destruct (seal_segments (held_at env n) (wk_index w)) as (Hs & Hq & _). cbn. by rewrite Hq, (ss_root _ _ Hs).
Qed.

(** The parts of the worker the invariant speaks of are unchanged. *)
Lemma inv_same w w' :
  worker_inv w -> root (wk_index w') = root (wk_index w) -> pf_seq <$> pending (flush_queue (wk_index w')) = pf_seq <$> pending (flush_queue (wk_index w)) ->
  next_seq (flush_queue (wk_index w')) = next_seq (flush_queue (wk_index w)) -> wk_waiters w' = wk_waiters w -> worker_inv w'.
Proof.
  intros [H1 H2 [H3 H4]] Hr Hp Hn Hw. destruct (queue_same _ _ Hp Hn H2) as [Hq _]; [pose proof (qo_next _ H2); lia|].
  constructor; [congruence|done|]. rewrite Hw. split; [done|]. by rewrite Hn.
Qed.

Lemma inv_publish env n w : worker_inv w -> worker_inv (publish env n w).
Proof. intros Hi. destruct (publish_same env n w) as (Hq & Hr & Hw & _). apply (inv_same w); [done|done|by rewrite Hq..|done]. Qed.

Lemma inv_maybe_publish env w : worker_inv w -> worker_inv (maybe_publish_on_threshold env w).
Proof. intros Hi. unfold maybe_publish_on_threshold. destruct (_ <=? _); [by apply inv_publish|done]. Qed.

Lemma inv_submit env w : worker_inv w -> worker_inv (submit env w).2.
Proof. intros Hi. unfold submit. cbn. by apply (inv_same w). Qed.

(** The queue grew. *)
Lemma inv_grows n w w' :
  worker_inv w -> 0 <= n -> next_seq (flush_queue (wk_index w)) + n < 2 ^ 64 - 1 -> root (wk_index w') = root (wk_index w) ->
  queue_grows n (flush_queue (wk_index w)) (flush_queue (wk_index w')) -> wk_waiters w' = wk_waiters w -> worker_inv w'.
Proof.
  intros [H1 H2 [H3 H4]] Hn Hb Hr Hg Hw. destruct (Hg H2 Hb) as [Hq Hle]. constructor; [congruence|done|]. rewrite Hw. split; [done|].
  eapply Forall_impl; [exact H4|]. simpl. lia.
Qed.

Lemma inv_release w : worker_inv w -> worker_inv (release_flush_waiters w).
Proof.
  intros [H1 H2 [H3 H4]]. unfold release_flush_waiters. destruct (release_loop_spec (wk_index w) (wk_waiters w) (wk_acks w)) as (released & E & _).
  destruct (release_loop (wk_index w) (wk_waiters w) (wk_acks w)) as [rest acks]. cbn [fst] in E. rewrite E, fmap_app in H3, H4.
  apply StronglySorted_app in H3 as (_ & _ & H3). apply Forall_app in H4 as [_ H4]. by constructor.
Qed.

Lemma delete_same fa t self disk d r self' disk' :
  delete_document fa t self disk d = (r, self', disk') -> flush_queue self' = flush_queue self /\ root self' = root self.
Proof. unfold delete_document. cbv zeta. destruct (root _) eqn:E; [|by intros [= <- <- <-]]. destruct (append_delete _ _ _); by intros [= <- <- <-]. Qed.

Lemma add_segments_same fa segments : forall self disk r self' disk',
  add_segments_loop fa self disk segments = (r, self', disk') ->
  root self' = root self /\ pf_seq <$> pending (flush_queue self') = pf_seq <$> pending (flush_queue self) /\ next_seq (flush_queue self') = next_seq (flush_queue self).
Proof.
  induction segments as [|s segments IH]; intros self disk r self' disk' E; cbn [add_segments_loop] in E; [by injection E as <- <- <-|].
  destruct (root self) eqn:Hr.
  - cbv zeta in E. destruct (write_segment _ _ _ _) as [d1|]; [|by injection E as <- <- <-].
    destruct (open_path _ _); [|by injection E as <- <- <-]. destruct (append_segment _ _ _); [|by injection E as <- <- <-].
    apply IH in E as (H1 & H2 & H3). cbn in H1, H2, H3. rewrite H1, H2, H3. split; [done|]. split; [|done]. rewrite <-list_fmap_compose. done.
  - apply IH in E as (H1 & H2 & H3). cbn in H1, H2, H3. rewrite H1, H2, H3. split; [done|]. split; [|done]. rewrite <-list_fmap_compose. done.
Qed.

Lemma install_same fa self disk completed r self' disk' :
  install_compaction fa self disk completed = (r, self', disk') -> flush_queue self' = flush_queue self /\ root self' = root self.
Proof.
  unfold install_compaction. destruct (negb (root self)); [by intros [= <- <- <-]|]. cbv zeta. destruct (negb _); [by intros [= <- <- <-]|].
  destruct (open_path _ _); [|by intros [= <- <- <-]]. destruct (remove_dups _); [by intros [= <- <- <-]|].
  destruct (compact_manifest _ _ _); [|by intros [= <- <- <-]]. destruct (_ && _); [|by intros [= <- <- <-]].
  destruct (clear_deletes _ _); by intros [= <- <- <-].
Qed.

Lemma plan_same t config self disk : flush_queue (plan_compaction t config self disk).1 = flush_queue self /\ root (plan_compaction t config self disk).1 = root self.
Proof. unfold plan_compaction. destruct (root self) eqn:E; [|done]. by destruct (compaction_window _ _ _ _) as [[]|]. Qed.

Lemma complete_grows fa self disk seq written r self' disk' :
  complete_flush fa self disk seq written = (r, self', disk') -> queue_grows 0 (flush_queue self) (flush_queue self') /\ root self' = root self.
Proof.
  unfold complete_flush. destruct (fq_complete (flush_queue self) seq) as [[p q]|e] eqn:Ec.
  - pose proof (queue_complete _ _ _ _ Ec) as Hq. cbv zeta.
    assert (Hkept : forall e, queue_grows 0 (flush_queue self) (fq_fail q e)).
    { intros e. replace 0 with (0 + 0) by done. eapply queue_trans; [done|done|exact Hq|]. by apply queue_same. }
    assert (Herr : forall e, (Err e, set_queue (keep_in_memory (set_queue self q) p) (fq_fail (flush_queue (keep_in_memory (set_queue self q) p)) e), disk) =
      (r, self', disk') -> queue_grows 0 (flush_queue self) (flush_queue self') /\ root self' = root self).
    { intros e [= <- <- <-]. split; [apply Hkept|done]. }
    destruct written as [d|e]; cbn [io_bind]; [|apply Herr]. unfold install_flushed. cbn [root set_queue].
    destruct (root self) eqn:Hr; [|apply Herr]. destruct (append_segment _ _ _); cbn [io_bind]; [|apply Herr]. intros [= <- <- <-]. split; [exact Hq|done].
  - intros [= <- <- <-]. split; [|done]. by apply queue_same.
Qed.

Lemma inv_ack w ack r : worker_inv w -> worker_inv (acknowledge w ack r).
Proof. intros Hi. by apply (inv_same w). Qed.
Lemma inv_stats w st : worker_inv w -> worker_inv (set_stats w st).
Proof. intros Hi. by apply (inv_same w). Qed.
Lemma inv_docs w n : worker_inv w -> worker_inv (set_docs w n).
Proof. intros Hi. by apply (inv_same w). Qed.

Lemma handle_inv env w command w' reply :
  worker_inv w -> next_seq (flush_queue (wk_index w)) + pushes (Some command) < 2 ^ 64 - 1 ->
  handle_command env w command = Ok (w', reply) -> worker_inv w'.
Proof.
  intros Hi Hb E. destruct command as [[documents|] ack|d ack|segments n ack|ack|config|completed ack| |seq replay| | |config|]; cbn [handle_command pushes] in *.
  - destruct (stage_grows env (wk_index w) documents (wi_root _ Hi)) as [Hr Hg]. destruct (stage_and_merge env (wk_index w) documents) as [[index added] outcome].
    cbn [fst] in Hr, Hg. cbv zeta in E. injection E as <- _. apply inv_ack, inv_maybe_publish, inv_docs.
    eapply (inv_grows (zlen documents + 1) w); [done|lia|done| |exact Hg|done]. cbn. rewrite Hr. symmetry. apply Hi.
  - injection E as <- _. by apply (inv_same w).
  - destruct (delete_document _ _ _ _ _) as [[outcome index] disk] eqn:Ed. apply delete_same in Ed as [Hq Hr]. cbv zeta in E. injection E as <- _.
    assert (H0 : forall s, worker_inv (set_stats (set_index w index disk) s)) by (intros s; apply (inv_same w); cbn; rewrite ?Hq; done).
    assert (H1 : worker_inv (set_index w index disk)) by (apply (inv_same w); cbn; rewrite ?Hq; done).
    apply inv_ack. destruct (is_ok outcome); [apply inv_publish, H0|exact H1].
  - destruct (add_immutable_segment _ _ _ _ _) as [[outcome index] disk] eqn:Ed. apply add_segments_same in Ed as (Hr & Hq & Hn). cbn in Hr, Hq, Hn.
    cbv zeta in E. injection E as <- _. assert (H1 : worker_inv (set_index w index disk)) by (by apply (inv_same w)).
    apply inv_ack. destruct (is_ok outcome); [|exact H1]. by apply inv_maybe_publish, inv_docs, inv_stats.
  - pose proof (queue_flush_grows (faults env) (held_at env 0) (wk_index w) (wi_root _ Hi)) as Hg.
    pose proof (queue_flush_root (faults env) (held_at env 0) (wk_index w)) as Hr. destruct (queue_flush (faults env) (held_at env 0) (wk_index w)) as [queued index].
    cbn [snd] in Hg, Hr. cbv zeta in E. assert (H1 : worker_inv (set_index w index (wk_disk w))) by (by apply (inv_grows 1 w)).
    destruct queued as [u|e]; [|injection E as <- _; by apply (inv_same (set_index w index (wk_disk w)))].
    pose proof (inv_submit env _ H1) as H2. destruct (submit env (set_index w index (wk_disk w))) as [[u'|e] w2]; cbn [snd] in H2;
      [|injection E as <- _; by apply (inv_same w2)].
    pose proof (inv_publish env 1 w2 H2) as H3. set (w3 := publish env 1 w2) in *. clearbody w3. injection E as <- _. apply inv_release.
    destruct H3 as [R Q [S B]]. constructor; [done|done|]. cbn [wk_waiters set_waiters set_published_stats set_stats wk_index]. split.
    + rewrite fmap_app. apply StronglySorted_app. split_and!; [|done|repeat constructor].
      intros a b Ha ->%list_elem_of_singleton. rewrite Forall_forall in B. by apply B.
    + rewrite fmap_app. apply Forall_app. split; [done|]. constructor; [cbn; lia|constructor].
  - destruct (plan_same (now env) config (wk_index w) (wk_disk w)) as [Hq Hr]. destruct (plan_compaction (now env) config (wk_index w) (wk_disk w)) as [index plan].
    cbn [fst] in Hq, Hr. injection E as <- _. apply (inv_same w); cbn; rewrite ?Hq; done.
  - destruct (install_compaction _ _ _ _) as [[outcome index] disk] eqn:Ed. apply install_same in Ed as [Hq Hr]. cbv zeta in E. injection E as <- _.
    assert (H1 : forall r, worker_inv (acknowledge (set_index w index disk) ack r)) by (intros r; apply (inv_same w); cbn; rewrite ?Hq; done).
    destruct outcome as [[]|e]; [|apply H1..]. apply inv_stats, inv_publish, H1.
  - by injection E as <- _.
  - destruct (complete_flush _ _ _ _ _) as [[outcome index] disk] eqn:Ed. apply complete_grows in Ed as [Hg Hr]. cbv zeta in E. injection E as <- _.
    assert (H1 : worker_inv (set_index w index disk)) by (apply (inv_grows 0 w); try done). apply inv_release. destruct (is_ok outcome); [by apply inv_publish|done].
  - injection E as <- _. by apply (inv_same w).
  - by injection E as <- _.
  - by injection E as <- _.
  - by injection E as <- _.
Qed.

(** C39: The worker keeps its queue and its waiters in order: after any command, the pending segment
    writes are numbered consecutively up to the next number, and the flushes that wait for them are
    in the order of their targets, none beyond the last number. *)
Theorem worker_invariant env w command w' reply :
  worker_inv w -> next_seq (flush_queue (wk_index w)) + pushes command < 2 ^ 64 - 1 ->
  turn display env w command = Continue w' reply -> worker_inv w'.
Proof.
  intros Hi Hb E. destruct command as [command|]; cbn [turn] in E.
  - assert (E' : (let! (w, reply) := handle_command env w command in let! w := end_of_turn env w in Ok (w, reply)) = Ok (w', reply)).
    { destruct command; try done; cbn [turn] in E; (destruct (io_bind _ _) as [[w1 r1]|e]; [by injection E as <- <-|done]). }
    clear E. destruct (handle_command env w command) as [[w1 r1]|] eqn:Eh; [|done]. cbn [io_bind] in E'.
    pose proof (handle_inv _ _ _ _ _ Hi Hb Eh) as H1. unfold end_of_turn in E'. cbv zeta in E'.
    assert (H2 : worker_inv (if (0 <? wk_docs_since_publish w1) && (PUBLISH_INTERVAL <=? saturating_sub (now env) (wk_last_publish w1)) then publish env 2 w1 else w1)).
    { destruct (_ && _); [by apply inv_publish|done]. }
    pose proof (inv_submit env _ H2) as H3. destruct (submit env _) as [[u|e] w2]; cbn [snd io_bind] in *; [|done]. injection E' as <- _. by apply (inv_same w2).
  - injection E as <- _. by apply inv_publish.
Qed.

(** ** Every flush is answered *)

Lemma complete_pending fa self disk p rest written r self' disk' :
  pending (flush_queue self) = p :: rest -> complete_flush fa self disk (pf_seq p) written = (r, self', disk') -> pending (flush_queue self') = rest.
Proof.
  intros Hp. unfold complete_flush, fq_complete. rewrite Hp, Z.eqb_refl. cbv zeta. destruct written as [d|e]; cbn [io_bind]; [|by intros [= <- <- <-]].
  unfold install_flushed. destruct (root _); [|by intros [= <- <- <-]]. destruct (append_segment _ _ _); cbn [io_bind]; by intros [= <- <- <-].
Qed.

Lemma front_seq q p rest : queue_ok q -> pending q = p :: rest -> pf_seq p = flushed_through q.
Proof.
  intros Hq Hp. rewrite (flushed_through_eq q Hq). destruct Hq as [Hs Hn]. rewrite Hp in Hs, Hn |- *. cbn [length] in *.
  rewrite fmap_cons, seqZ_cons in Hs by lia. by injection Hs as Hs _.
Qed.

(** The writer reports the next segment, with whatever outcome. *)
Definition report (w : Worker) (outcome : Env * io_result DiskSegment) : Worker :=
  match handle_command outcome.1 w (SegmentWritten (flushed_through (flush_queue (wk_index w))) outcome.2) with
  | Ok (w, _) => w
  | Err _ => w
  end.

Lemma release_acks w t a : worker_inv w -> (t, Some a) ∈ wk_waiters w ->
  (t, Some a) ∈ wk_waiters (release_flush_waiters w) \/ exists r, (a, r) ∈ wk_acks (release_flush_waiters w).
Proof.
  intros Hi Hin. unfold release_flush_waiters. destruct (release_loop_spec (wk_index w) (wk_waiters w) (wk_acks w)) as (released & E & Ha & _).
  destruct (release_loop (wk_index w) (wk_waiters w) (wk_acks w)) as [rest acks]. cbn [fst snd] in *. cbn [wk_waiters wk_acks]. rewrite E in Hin.
  apply elem_of_app in Hin as [Hin|Hin]; [right|by left]. exists (health (flush_queue (wk_index w))). rewrite Ha. apply elem_of_app. right.
  apply list_elem_of_omap. by exists (t, Some a).
Qed.

Lemma release_keeps w r : r ∈ wk_acks w -> r ∈ wk_acks (release_flush_waiters w).
Proof.
  intros Hr. unfold release_flush_waiters. destruct (release_loop_spec (wk_index w) (wk_waiters w) (wk_acks w)) as (released & E & Ha & _).
  destruct (release_loop (wk_index w) (wk_waiters w) (wk_acks w)) as [rest acks]. cbn [fst snd] in *. cbn [wk_acks]. rewrite Ha. apply elem_of_app. by left.
Qed.

Lemma release_done w : worker_inv w -> pending (flush_queue (wk_index w)) = [] -> wk_waiters (release_flush_waiters w) = [].
Proof.
  intros [_ Hq [Hs Hle]] Hp. unfold release_flush_waiters. destruct (release_loop_spec (wk_index w) (wk_waiters w) (wk_acks w)) as (released & E & _ & _ & Hh).
  destruct (release_loop (wk_index w) (wk_waiters w) (wk_acks w)) as [rest acks]. cbn [fst snd] in *. cbn [wk_waiters].
  destruct rest as [|[t ack] rest]; [done|]. exfalso. rewrite (flushed_through_eq _ Hq), Hp in Hh. cbn in Hh.
  rewrite E, fmap_app in Hle. apply Forall_app in Hle as [_ Hle]. rewrite fmap_cons in Hle. apply Forall_cons in Hle as [Hle _]. cbn in Hle. lia.
Qed.

Lemma report_spec w outcome p rest :
  worker_inv w -> pending (flush_queue (wk_index w)) = p :: rest ->
  let w' := report w outcome in
  worker_inv w' /\ pending (flush_queue (wk_index w')) = rest /\
  (forall t a, (t, Some a) ∈ wk_waiters w -> (t, Some a) ∈ wk_waiters w' \/ exists r, (a, r) ∈ wk_acks w') /\
  (forall r, r ∈ wk_acks w -> r ∈ wk_acks w') /\ (rest = [] -> wk_waiters w' = []).
Proof.
  intros Hi Hp. cbv zeta. destruct outcome as [env replay]. unfold report. cbn [fst snd handle_command].
  rewrite <-(front_seq _ _ _ (wi_queue _ Hi) Hp). destruct (complete_flush _ _ _ _ _) as [[r index] disk] eqn:Ec.
  pose proof (complete_pending _ _ _ _ _ _ _ _ _ Hp Ec) as Hrest. apply complete_grows in Ec as [Hg Hr]. cbv zeta.
  assert (H0 : worker_inv (set_index w index disk)). { apply (inv_grows 0 w); try done. pose proof (qo_next _ (wi_queue _ Hi)). lia. }
  set (w1 := if is_ok r then publish env 0 (set_index w index disk) else set_index w index disk).
  assert (H1 : worker_inv w1 /\ pending (flush_queue (wk_index w1)) = rest /\ wk_waiters w1 = wk_waiters w /\ wk_acks w1 = wk_acks w).
  { unfold w1. destruct (is_ok r); [|done]. destruct (publish_same env 0 (set_index w index disk)) as (Hq & _ & Hw & Ha). rewrite Hq, Hw, Ha.
    split; [by apply inv_publish|done]. }
  clearbody w1. destruct H1 as (H1 & H2 & H3 & H4). split_and!.
  - by apply inv_release.
  - unfold release_flush_waiters. by destruct (release_loop _ _ _).
  - intros t a Hin. rewrite <-H3 in Hin. by apply release_acks.
  - intros ack Hin. rewrite <-H4 in Hin. by apply release_keeps.
  - intros ->. by apply release_done.
Qed.

(** C40: Every flush is answered: once the writer has reported every pending segment, with success or
    failure, no flush waits any more and each of them was sent an answer. *)
Theorem flushes_answered w outcomes :
  worker_inv w -> (wk_waiters w = [] \/ pending (flush_queue (wk_index w)) <> []) -> length outcomes = length (pending (flush_queue (wk_index w))) ->
  let w' := fold_left report outcomes w in
  pending (flush_queue (wk_index w')) = [] /\ wk_waiters w' = [] /\
  forall t a, (t, Some a) ∈ wk_waiters w -> exists r, (a, r) ∈ wk_acks w'.
Proof.
  intros Hi Hor Hlen. cbv zeta.
  assert (Hacked : forall os w0, worker_inv w0 -> length os = length (pending (flush_queue (wk_index w0))) ->
    (wk_waiters w0 = [] \/ pending (flush_queue (wk_index w0)) <> []) ->
    pending (flush_queue (wk_index (fold_left report os w0))) = [] /\ wk_waiters (fold_left report os w0) = [] /\
    (forall t a, (t, Some a) ∈ wk_waiters w0 -> exists r, (a, r) ∈ wk_acks (fold_left report os w0)) /\
    (forall r, r ∈ wk_acks w0 -> r ∈ wk_acks (fold_left report os w0))).
  { induction os as [|o os IH]; intros w0 H0 Hl Hw; cbn [fold_left].
    - destruct (pending (flush_queue (wk_index w0))) eqn:Hp; [|done]. destruct Hw as [Hw|]; [|done]. rewrite Hw. split_and!; try done.
      intros t a Hin. by apply elem_of_nil in Hin.
    - destruct (pending (flush_queue (wk_index w0))) as [|p rest] eqn:Hp; [done|]. cbn [length] in Hl. injection Hl as Hl.
      destruct (report_spec w0 o p rest H0 Hp) as (H1 & H2 & H3 & H4 & H5).
      destruct (IH (report w0 o) H1) as (I1 & I2 & I3 & I4).
      + by rewrite H2.
      + rewrite H2. destruct rest; [left; by apply H5|by right].
      + split_and!; [done|done| |intros r Hr; by apply I4, H4].
        intros t a Hin. destruct (H3 t a Hin) as [Hk|[r Hr]]; [by eapply I3|]. exists r. by apply I4. }
  destruct (Hacked outcomes w Hi Hlen Hor) as (H1 & H2 & H3 & _). done.
Qed.

(** ** Deletes *)

(** Once a delete is acknowledged, the snapshot readers see no longer returns the document for any
    term, and the delete is recorded on disk. *)
Theorem acknowledged_delete_visible env w d ack w' reply :
  root (wk_index w) = true -> handle_command env w (DeleteDocument d (Some ack)) = Ok (w', reply) -> wk_acks w' = wk_acks w ++ [(ack, Ok tt)] ->
  (forall t x, d ∉ docs (items (sn_lookup (wk_shared w') t x))) /\ sn_is_deleted (wk_shared w') d = true /\
  d_deletes (wk_disk w') = d_deletes (wk_disk w) ++ [d].
Proof.
  intros Hr E Ha. cbn [handle_command] in E. destruct (delete_document _ _ _ _ _) as [[outcome index] disk] eqn:Ed. cbv zeta in E. injection E as <- _.
  destruct (publish_same env 0 (set_stats (set_index w index disk) (mkIndexingStats (total_documents_indexed (wk_stats w)) (wrap 64 (total_documents_deleted (wk_stats w) + 1))
    (segments_written (wk_stats w)) (compactions_completed (wk_stats w)) (st_memtable_term_count (wk_stats w)) (st_segment_count (wk_stats w))))) as (_ & _ & _ & Hacks).
  assert (Hok : outcome = Ok tt).
  { destruct outcome as [[]|e]; [done|]. exfalso. cbn in Ha. apply app_inv_head in Ha. done. }
  subst outcome. cbn [is_ok]. unfold delete_document in Ed. cbv zeta in Ed. cbn [root set_deleted ingested] in Ed. rewrite Hr in Ed.
  unfold append_delete in Ed. destruct (attempt (f_deletes (faults env))); [|done]. cbn [io_bind] in Ed. injection Ed as <- <-.
  set (index := set_deleted _ _ _) in *.
  assert (Hsh : forall st, sn_deleted (wk_shared (acknowledge (publish env 0 (set_stats (set_index w index
      (mkDisk (d_files (wk_disk w)) (d_manifest (wk_disk w)) (d_deletes (wk_disk w) ++ [d]))) st)) (Some ack) (Ok tt))) = delete_doc (lsm_deleted (wk_index w)) d).
  { intros st. cbn. destruct (seal_segments (held_at env 0) index) as (Hs & _ & _). by rewrite (ss_deleted _ _ Hs). }
  assert (Hdel : forall sn t x, d ∈ deleted (sn_deleted sn) -> d ∉ docs (items (sn_lookup sn t x))).
  { intros sn t x Hd (p & -> & Hp)%list_elem_of_fmap. unfold sn_lookup in Hp. cbv zeta in Hp.
    destruct (_ && _); unfold apply_deletes in Hp; rewrite filter_in_place_items in Hp; by apply list_elem_of_filter in Hp as [Hp _]. }
  split_and!; [|unfold sn_is_deleted, is_deleted; rewrite Hsh; apply bool_decide_eq_true; cbn; set_solver|done].
  intros t x. apply Hdel. rewrite Hsh. cbn. set_solver.
Qed.

(** ** Shutting down *)

(** [Shutdown] while the writer thread has work ends the worker with an error, and nothing that is
    only in memory is flushed. *)
Theorem shutdown_refused env w :
  writes_in_flight (flush_queue (wk_index w)) = true ->
  turn display env w (Some Shutdown) = Stop (Err (IoError Other "flush() called while segment writes are in flight")).
Proof. intros Hw. cbn [turn]. unfold shutdown, flush. by rewrite Hw. Qed.
End worker.

(** ** A worker with one document, a flush and a shutdown *)
Module WorkerExample.
#[local] Existing Instance Toy.fst_lib.
#[local] Existing Instance Toy.fst_laws.
#[local] Existing Instance Toy.roaring_lib.
#[local] Existing Instance Toy.roaring_laws.
#[local] Existing Instance FuzzyToy.dfa_lib.

Definition env : Env := mkEnv 1000 no_faults false (fun _ => LsmExample.alone).
Definition no_stats : IndexingStats := mkIndexingStats 0 0 0 0 0 0.
Definition hello (d : DocId) : AnalyzedDocument := mkDocument d (mkTarget [mkAnalyzedField 1 1 [mkAnalyzedTerm LsmExample.hi [16] 5]] [] []) [].
Definition start : Worker :=
  mkWorker LsmExample.start LsmExample.empty_disk no_stats 0 0 [] [] (lsm_snapshot LsmExample.start) no_stats [].
Definition next (w : Worker) (command : IndexCommand) : Worker :=
  match turn LsmExample.display env w (Some command) with Continue w _ => w | Stop _ => w end.

(** A document arrives and is flushed; the segment is being written. *)
Definition loaded : Worker := next start (AddIndexedDocuments (Some [hello 7]) (Some 1%nat)).
Definition waiting : Worker := next loaded (Flush (Some 2%nat)).

Lemma start_inv : worker_inv start.
Proof. constructor; [done|constructor; [done|vm_compute; split; congruence]|by split; constructor]. Qed.

Lemma waiting_inv : worker_inv waiting.
Proof.
  constructor; [by vm_compute|constructor; [by vm_compute|vm_compute; split; congruence]|].
  assert (E : wk_waiters waiting = [(1, Some 2%nat)]) by (vm_compute; reflexivity). rewrite E.
  split; [repeat constructor|]. repeat constructor. vm_compute. congruence.
Qed.

Lemma start_mem_ok : mem_ok LsmExample.start.
Proof.
  constructor; [|constructor|reflexivity].
  - change (mem_parts LsmExample.start) with [MemIndex_new]. constructor; [apply mem_new_wf|constructor].
  - intros H. by destruct H.
  - constructor.
Qed.

Lemma batch_indexed_witness :
  exists index', (stage_and_merge env LsmExample.start [hello 7; hello 9]).1.1 = index' /\ parts_have (mem_parts index') 9 (TermKey_new LsmExample.hi 1).
Proof.
  destruct (stage_and_merge env LsmExample.start [hello 7; hello 9]) as [[index' added] r] eqn:E. exists index'. split; [done|].
  assert (Hr : (stage_and_merge env LsmExample.start [hello 7; hello 9]).2 = Ok tt) by (vm_compute; reflexivity). rewrite E in Hr. cbn in Hr. subst r.
  destruct (batch_indexed env LsmExample.start [hello 7; hello 9] index' added) as (_ & _ & Hh).
  - exact start_mem_ok.
  - exact E.
  - apply Hh. right. clear. exists (hello 9). split; [right; left|]. left. eexists. split; [left|]. split; [done|]. eexists. by split; [left|].
Defined.

Lemma flush_answered_exactly_witness :
  exists released, wk_waiters waiting = released ++ wk_waiters (release_flush_waiters waiting) /\
    forall t ack, (t, ack) ∈ wk_waiters (release_flush_waiters waiting) -> exists p, p ∈ pending (flush_queue (wk_index waiting)) /\ pf_seq p < t.
Proof.
  destruct (flush_answered_exactly waiting (wi_queue _ waiting_inv) (wi_waiters _ waiting_inv)) as (released & H1 & _ & _ & H2 & _).
  exists released. split; [exact H1|exact H2].
Defined.

Lemma worker_invariant_witness : worker_inv (next loaded (Flush (Some 2%nat))).
Proof.
  unfold next. destruct (turn LsmExample.display env loaded (Some (Flush (Some 2%nat)))) as [w' reply|r] eqn:E.
  - apply (worker_invariant LsmExample.display env loaded (Some (Flush (Some 2%nat))) w' reply); [|by vm_compute|exact E].
    constructor; [by vm_compute|constructor; [by vm_compute|vm_compute; split; congruence]|].
    assert (Hw : wk_waiters loaded = []) by (vm_compute; reflexivity). rewrite Hw. split; constructor.
  - exfalso. assert (Hs : match turn LsmExample.display env loaded (Some (Flush (Some 2%nat))) with Continue _ _ => true | Stop _ => false end = true) by (vm_compute; reflexivity).
    rewrite E in Hs. discriminate Hs.
Defined.

Lemma flushes_answered_witness :
  wk_waiters (fold_left report [(env, Err (IoError Other "disk full"))] waiting) = [] /\
  exists r, (2%nat, r) ∈ wk_acks (fold_left report [(env, Err (IoError Other "disk full"))] waiting).
Proof.
  assert (E : wk_waiters waiting = [(1, Some 2%nat)]) by (vm_compute; reflexivity).
  assert (Hl : length (pending (flush_queue (wk_index waiting))) = 1%nat) by (vm_compute; reflexivity).
  destruct (flushes_answered waiting [(env, Err (IoError Other "disk full"))] waiting_inv) as (_ & Hw & Ha).
  - right. intros Hp. rewrite Hp in Hl. discriminate Hl.
  - rewrite Hl. reflexivity.
  - split; [exact Hw|]. apply (Ha 1). rewrite E. left.
Defined.

Lemma acknowledged_delete_visible_witness :
  exists w', (7 ∉ docs (items (sn_lookup (wk_shared w') LsmExample.hi 1))) /\ d_deletes (wk_disk w') = [7].
Proof.
  destruct (handle_command env loaded (DeleteDocument 7 (Some 3%nat))) as [[w' reply]|e] eqn:E.
  - exists w'. destruct (acknowledged_delete_visible LsmExample.display env loaded 7 3%nat w' reply) as (H1 & _ & H2).
    + by vm_compute.
    + exact E.
    + assert (Ha : match handle_command env loaded (DeleteDocument 7 (Some 3%nat)) with Ok (w, _) => wk_acks w | Err _ => [] end = wk_acks loaded ++ [(3%nat, Ok tt)])
        by (vm_compute; reflexivity). rewrite E in Ha. exact Ha.
    + split; [apply H1|]. rewrite H2. by vm_compute.
  - exfalso. assert (Hs : match handle_command env loaded (DeleteDocument 7 (Some 3%nat)) with Ok _ => true | Err _ => false end = true) by (vm_compute; reflexivity). rewrite E in Hs. discriminate Hs.
Defined.

(** A shutdown right after a flush: document 9 arrived in between and is neither in a segment nor
    queued. *)
Theorem shutdown_after_flush :
  let w := next waiting (AddIndexedDocuments (Some [hello 9]) None) in
  match turn LsmExample.display env w (Some Shutdown) with Stop (Err e) => Some (err_msg e) | _ => None end =
    Some "flush() called while segment writes are in flight"%string /\
  LsmExample.found (wk_index w) = [7; 9] /\ length (d_manifest (wk_disk w)) = 0%nat.
Proof. vm_compute. by repeat split. Qed.
End WorkerExample.
